(* ===== verification/_CoqProject ===== *)
-Q . S2P
Prelude.v
Float64.v
Float64Round.v
Float64Exact.v
Float64Sqrt.v
Strconv.v
StrconvFloat.v
Ratelimit.v
Shardmap.v
FixedWindow.v
Gcra.v
SlidingLog.v
SlidingCounter.v
TokenBucket.v
Heap.v
LeakyBucket.v
Composite.v
Tiered.v
Adaptive.v
CbWindow.v
CbHalfOpen.v
CircuitBreaker.v
CbConcurrent.v
StoreMemory.v
StoreScripts.v
RedisScripts.v
RedisModel.v
StoreAtomic.v
RedisAgree.v
RedisLog.v
RedisParity.v
RedisBreaker.v
RedisTokenBucket.v
CbDistributed.v
DistLimiters.v
Optimistic.v
MemcachedEval.v
DynamoEval.v
ScriptParity.v
StoreMemcached.v
RedisStore.v
RedisOutage.v
StoreDynamo.v
Bulkhead.v
ThreadPool.v
Backoff.v
Retry.v
LimitStrategy.v
Concurrency.v
LoadShed.v
Pipeline.v
Clock.v
Debounce.v
Fallback.v
Cached.v
EventStream.v
Resilience.v
Http.v
Middleware.v
