(* ===== verification/Prelude.v ===== *)
(** * Rate limiters and circuit breakers: a verification library

    The program is a Go library of resilience primitives.  Rate limiters share
    the interface of [ratelimit/limiter.go] and keep one small record per key in
    a sharded map; composite, tiered and adaptive limiters are built on them.
    Distributed limiters and the distributed circuit breaker keep the record in
    a store (memory, Redis, memcached, DynamoDB) and change it with scripts.
    The circuit breaker counts outcomes in a window, opens, waits and probes.
    Bulkhead, thread pool and concurrency limiter bound concurrency, the load
    shedder drops work, retry spaces attempts, fallbacks and caches stand in for
    failures, and a pipeline puts the stages into one order.

    ** Parts and files (sources are relative to [src/])

    Foundations
    - [Prelude]: Go's 64-bit integers as [Z] with the wrap-around written out
      ([+w], [-w], [*w]), instants and durations, panics as [outcome], binary
      search, automation ([go_lia], hint database [golib]).
    - [Float64]: [float64] as the kernel's binary64 floats.  [Float64Round]:
      rounded operations against exact bounds; [Float64Exact]: doubles that are
      integers and when arithmetic on them is exact; [Float64Sqrt]: square roots.
    - [Strconv], [StrconvFloat]: [strconv] for integers and doubles ([FormatFloat]
      in shortest form, [ParseFloat]), splitting of records.

    Limiters
    - [Ratelimit] ([ratelimit/limiter.go], [errors.go]): results, errors, key
      validation; the interface as class [Limiter] and its contract as class
      [LimiterLaws]; histories of calls ([run], [admitted]).
    - [Shardmap] ([ratelimit/internal/shardmap/shardmap.go]): shards as a list of
      finite maps; refinement to one map, the view the limiters use.
    - [FixedWindow], [Gcra], [SlidingLog], [SlidingCounter], [TokenBucket]: the
      limiter is a record with a map from keys to counters; every method is a
      definition with the method's name.  Instances of [LimiterLaws] where the
      contract holds.
    - [Heap], [LeakyBucket] ([ratelimit/leakybucket/]): [container/heap], and
      callers, leakers, resets, sweeps and cancellations as a step relation over
      critical sections and channel operations.
    - [Composite], [Tiered] ([ratelimit/composite/], [tiered/]) over any
      [Limiter]; [Adaptive] ([ratelimit/adaptive/]): the control loop over the
      token bucket.

    Circuit breaker
    - [CbWindow], [CbHalfOpen], [CircuitBreaker] ([circuitbreaker/]): the breaker
      called by one goroutine, in a state monad with panics.  [CbConcurrent]: the
      same breaker called by any number of goroutines, as a step relation over
      atomic accesses.

    Stores and their clients
    - [StoreMemory] ([ratelimit/store/memory.go]), [StoreScripts]
      ([scripts_memory.go]): methods and scripts as programs over the operations
      of [sync.Map], the atomic key counter and entry mutexes.  [StoreAtomic]:
      interleaved scripts.
    - [RedisScripts] ([ratelimit/store/redis.go]): the Lua scripts, programs over
      the commands of a server, which is a parameter (class [RedisServer]) with
      the documented behaviour of the commands as laws (class [RedisLaws]).
      [RedisModel]: a server that satisfies the laws.  [RedisAgree],
      [RedisLog], [RedisParity], [RedisBreaker], [RedisTokenBucket]: the scripts
      against their in-memory emulation.  [RedisStore]: the methods of the store over a client that is a
      parameter.  [RedisOutage]: a fleet whose connections fail.
    - [Optimistic]: scripts as read, compute, conditional write in a loop, over an
      interface (class [Cell]).  [MemcachedEval] and [DynamoEval] ([eval.go] and
      [zset.go] of the two stores): the scripts' closures, with the index loops
      of the code; [ScriptParity]: they are the scripts of the in-memory store.
      [StoreMemcached] ([stores/memcached/]) and [StoreDynamo]
      ([stores/dynamodb/]): instances, with the client interfaces as classes
      with laws.
    - [CbDistributed] ([circuitbreaker/distributed.go]) and [DistLimiters] (the
      files [distributed*.go] under [ratelimit/]): the clients, over an interface
      to the store (class [ScriptStore]).

    Concurrency and composition
    - [Bulkhead], [ThreadPool] ([bulkhead/]), [LimitStrategy], [Concurrency]
      ([concurrency/]): step relations over channel operations and atomic
      accesses; the strategies in binary64.
    - [Backoff], [Retry] ([retry/]), [LoadShed] ([loadshed/]), [Pipeline]
      ([pipeline/]): stages over an arbitrary world.  [Resilience]
      ([resilience/], [resiliencex/]): the facades over the pipeline.
    - [Clock] ([clock/]): the manual clock.  [Debounce] ([debounce/]), [Fallback]
      ([fallback/], [timeout/]), [Cached] ([fallback/cached.go]): races of timers,
      goroutines and contexts as step relations.  [EventStream]
      ([eventstream/]): the broker with concurrent publishers.
    - [Http]: what is used of [net/http]; a handler is the tree of its calls on a
      response writer.  [Middleware] ([ratelimit/middleware/],
      [circuitbreaker/middleware/], [ratelimit/ratelimitctx/]): limiters and
      breakers around handlers, over interfaces (classes [Limiter], [Executor]),
      and the gRPC interceptors, with the gRPC packages as parameters.

    ** What the theorems show

    - Limits.  Along any history of decisions, peeks and cleanup sweeps with a
      clock that does not go back: a fixed window admits at most its limit per
      aligned window, the sliding log at most its limit in any interval of a
      window's length, the sliding counter at most its limit per aligned window
      and twice its limit in any interval of that length, GCRA at most burst
      plus sustained rate in any interval; a token bucket is never overdrawn in
      IEEE arithmetic, limit changes and resets included.  A leaky bucket never
      holds more than its capacity, neither loses a token nor answers it twice,
      grants at most one request per interval and serves its heap in order of
      priority and arrival.  An adaptive limit stays in its band.
    - Composition.  AND and tiers are all-or-nothing and OR charges one limiter
      at most, for any limiters with the interface's laws that nobody else uses
      meanwhile: a denial charges only a limiter that gains room between its peek
      and the call that asks for the retry time.  A pipeline is the
      wrapping of its stages in canonical order, a stack puts its fallback
      outside and returns only values of successful calls; a budgeted retry stays
      within its deadline.
    - Circuit breaker.  It trips exactly at its threshold, rejects while open,
      recovers after [SuccessThreshold] successes and reopens at the first failed
      probe; its windows compute what they stand for.  With concurrent callers
      the probe counter is bounded, off by at most one for each call in which a
      callback panicked and exact without one, the mutex excludes and nothing
      deadlocks.
    - Stores.  The methods of the in-memory store refine a map with expiry
      times, within the key limit; scripts are linearizable there, under a key
      limit and with entries that expire, and, up to the retry limit, on memcached
      and DynamoDB, whose ports of the scripts agree with it; encodings round-trip, those of
      arbitrary doubles included.  On Redis the scripts give the replies of the
      emulation, in doubles, sorted sets and decimal strings, and an outage
      multiplies a limit by at most one more than the number of processes.  The
      distributed limiters fail closed and keep limits per key; the distributed
      breaker trips the whole fleet.
    - Concurrency.  The bulkhead, the concurrency limiter and the thread pool
      stay within their bounds; every task is answered once.  Calls of a cache
      are single-flight; hedged calls launch at most [n] attempts; the debouncer
      hands over the latest function, in order, and calls it unless it is stopped; a broker never sends on a closed channel and
      every published event is delivered or counted as dropped.
    - Retry and shedding.  [Do] performs exactly the attempts and sleeps of its
      policy; delays are exact and bounded; the budget never goes into debt; the
      shedder sheds only behind a standing queue, and its control law returns for
      every interval that is not tiny.
    - Middleware.  The requests that reach an application are the admissions of
      the limiter; a breaker refuses with 503 without calling the handler, and
      otherwise leaves the response as it is and learns once how the call ended.
    - Where the code does not do what it means to, a theorem states what it
      does.  Breaker: probes before the open timeout, a probe slot released
      twice when a callback panics, probes lost when a function panics under the
      distributed breaker.  Limiters: a NaN cost switches a token bucket off,
      cleanup forgets long windows, waits that never end (invalid input to the
      distributed limiters, a [Reset] of a leaky bucket), the fixed-window
      script overflows.  Stores: the key limit is broken by a race of [SetNX],
      the fallback of memcached and DynamoDB is called without arguments, an
      item is denied in the second it expires, timestamps of 256 ns drift so
      that the GCRA script admits more than its burst, windows below a
      millisecond never deny on Redis.  Others: the pipeline's concurrency stage
      leaks slots on a panic, the debouncer fires early and may
      call functions in another order than it got them, the shedder's control law
      never returns for an interval of a few nanoseconds, a timer of the manual
      clock reset while pending fires twice, [Hedge] outlives its context, a
      panicking primary wedges a cached key, concurrent publishers deliver
      events out of order, the default key of the gRPC interceptors is refused.

    ** Modelling choices

    Clock readings are arguments, one for each reading of the code.  Random
    draws and the string hash are parameters; the draws are assumed to lie in
    the range [rand.Int63n] documents.  User code (protected functions,
    callbacks, [IsFailure]) may return or panic.  Loops that wait consume a list
    of wake-ups, so a wait can be shown never to end.  Float operations are
    correctly rounded and not fused, conversions out of range give the value of
    amd64.  Clients of servers are classes or parameters with their documented
    behaviour as named laws, each with a concrete instance.

    Fuel fixes the number of turns a Go loop takes at most: binary search (the
    length of the list), doubling to the next power of two and the search for
    the highest bit (64, the width of an int), the sliding of the time window
    (one unit per bucket that can expire), printing integers (nineteen digits;
    for arbitrary numbers the number of bits), the digits of a double (the
    digits of its exact value, where the search is shown to succeed), [expNeg],
    the chain of pipeline stages, the scans of records and members in the stores'
    sorted sets (the length of what is scanned), the turns of [casMutate] and [occ] (32, the
    constants of the code), [IncrBy] after a lost race, the control loop of the
    shedder (one turn suffices by a theorem, unless the interval is tiny) and the timers and ticks one
    [Advance] can fire (enough by a theorem).

    ** Not modelled

    The adapters for web frameworks ([contrib/]), metric and trace exporters,
    logging, the demo server with its simulation, the command-line examples and
    the frontend: they call third-party frameworks around the parts above.  Connecting to Redis ([NewRedis] beyond
    its options, [Ping], [Close]) is a call of the client library. *)

From stdpp Require Export base numbers list gmap strings.
From Stdlib Require Export Lia.

Open Scope Z_scope.

(** ** Machine integers

    Go's [int], [int64] and [time.Duration] are two's complement 64-bit
    integers: arithmetic wraps around.  They are kept as [Z] together with the
    wrap-around wherever the source computes. *)

Definition two63 : Z := 9223372036854775808.
Definition max_int64 : Z := 9223372036854775807.
Definition min_int64 : Z := -9223372036854775808.

(** Reduction of an exact result to the signed 64-bit range. *)
Definition wrap64 (z : Z) : Z :=
  (z + 9223372036854775808) mod 18446744073709551616 - 9223372036854775808.

(** [math.MaxInt64]/[math.MinInt64] saturation, used by [time.Time.Sub]. *)
Definition sat64 (z : Z) : Z := Z.max min_int64 (Z.min max_int64 z).

Definition in64 (z : Z) : Prop := min_int64 <= z <= max_int64.

Declare Scope go_scope.
Delimit Scope go_scope with go.
Notation "x +w y" := (wrap64 (x + y)) (at level 50, left associativity) : go_scope.
Notation "x -w y" := (wrap64 (x - y)) (at level 50, left associativity) : go_scope.
Notation "x *w y" := (wrap64 (x * y)) (at level 40, left associativity) : go_scope.
Open Scope go_scope.

(** ** Instants and durations

    A [time.Time] is its number of nanoseconds since the Unix epoch (an
    unbounded integer: Go keeps 64-bit seconds, so no value the program can
    produce overflows it).  A [time.Duration] is an int64 of nanoseconds. *)

Abbreviation time := Z (only parsing).
Abbreviation duration := Z (only parsing).

Definition Nanosecond : duration := 1.
Definition Microsecond : duration := 1000.
Definition Millisecond : duration := 1000000.
Definition Second : duration := 1000000000.
Definition Minute : duration := 60000000000.
Definition Hour : duration := 3600000000000.

(** The zero [time.Time]: January 1, year 1, 00:00:00 UTC. *)
Definition zero_time : time := -62135596800000000000.
Definition IsZero (t : time) : bool := t =? zero_time.

Definition time_add (t : time) (d : duration) : time := t + d.
Definition time_sub (t u : time) : duration := sat64 (t - u).
Definition Before (t u : time) : bool := t <? u.
Definition After (t u : time) : bool := u <? t.
Definition UnixNano (t : time) : Z := wrap64 t.
Definition Unix0 (ns : Z) : time := ns.

(** ** Panics *)

Inductive outcome (A : Type) : Type :=
| Ok (a : A)
| Panic (msg : string).
Arguments Ok {A} a.
Arguments Panic {A} msg.

#[export] Instance outcome_ret : MRet outcome := @Ok.
#[export] Instance outcome_bind : MBind outcome := fun A B f m =>
  match m with Ok a => f a | Panic e => Panic e end.

(** Go's integer division truncates and panics on a zero divisor. *)
Definition go_quot (a b : Z) : outcome Z :=
  if b =? 0 then Panic "runtime error: integer divide by zero"
  else Ok (wrap64 (Z.quot a b)).

(** ** Automation *)

Create HintDb golib.

(** Split on the first integer comparison found in the goal or hypotheses,
    keeping the arithmetic fact it decides. *)
Ltac case_cmp :=
  match goal with
  | |- context [Z.ltb ?a ?b] => destruct (Z.ltb_spec a b)
  | |- context [Z.leb ?a ?b] => destruct (Z.leb_spec a b)
  | |- context [Z.eqb ?a ?b] => destruct (Z.eqb_spec a b)
  | H : context [Z.ltb ?a ?b] |- _ => destruct (Z.ltb_spec a b)
  | H : context [Z.leb ?a ?b] |- _ => destruct (Z.leb_spec a b)
  | H : context [Z.eqb ?a ?b] |- _ => destruct (Z.eqb_spec a b)
  end.

Ltac go_unfold :=
  unfold time_add, time_sub, Before, After, IsZero, Unix0, UnixNano, sat64,
    in64, min_int64, max_int64, two63 in *.

(** Linear arithmetic over the Go definitions. *)
Ltac go_lia := go_unfold; lia.

Lemma wrap64_small z : in64 z -> wrap64 z = z.
Proof. intros H. unfold wrap64. rewrite Z.mod_small; go_lia. Qed.

Lemma wrap64_range z : in64 (wrap64 z).
Proof.
  unfold wrap64. pose proof (Z.mod_pos_bound (z + 9223372036854775808) 18446744073709551616).
  go_lia.
Qed.

Lemma wrap64_cong a b : a mod 18446744073709551616 = b mod 18446744073709551616 ->
  wrap64 a = wrap64 b.
Proof. intros H. unfold wrap64. by rewrite Zplus_mod, H, <- Zplus_mod. Qed.

Lemma wrap64_idem z : wrap64 (wrap64 z) = wrap64 z.
Proof. apply wrap64_small, wrap64_range. Qed.

Lemma sat64_small z : in64 z -> sat64 z = z.
Proof. go_lia. Qed.

Lemma sat64_range z : in64 (sat64 z).
Proof. go_lia. Qed.

#[export] Hint Resolve wrap64_range sat64_range : golib.


(** Rewrite every wrapped or saturated term whose argument [lia] can bound. *)
Ltac unwrap :=
  repeat match goal with
  | |- context [wrap64 ?z] => rewrite (wrap64_small z) by go_lia
  | H : context [wrap64 ?z] |- _ => rewrite (wrap64_small z) in H by go_lia
  | |- context [sat64 ?z] => rewrite (sat64_small z) by go_lia
  | H : context [sat64 ?z] |- _ => rewrite (sat64_small z) in H by go_lia
  end.

(** ** Lists of integers *)

Definition zlength {A} (l : list A) : Z := Z.of_nat (length l).

Definition zsum (l : list Z) : Z := foldr Z.add 0 l.

Lemma zlength_nonneg {A} (l : list A) : 0 <= zlength l.
Proof. unfold zlength; lia. Qed.

Lemma zlength_app {A} (l k : list A) : zlength (l ++ k) = zlength l + zlength k.
Proof. unfold zlength. rewrite length_app. lia. Qed.

Lemma zlength_cons {A} (a : A) l : zlength (a :: l) = 1 + zlength l.
Proof. unfold zlength; simpl; lia. Qed.

Lemma zlength_nil {A} : zlength (@nil A) = 0.
Proof. done. Qed.

(** Compute the lengths of lists in constructor form. *)
Ltac zlen :=
  repeat match goal with
  | |- context [zlength (_ ++ _)] => rewrite zlength_app
  | |- context [zlength (_ :: _)] => rewrite zlength_cons
  | |- context [@zlength ?A []] => change (@zlength A []) with 0
  | H : context [zlength (_ ++ _)] |- _ => rewrite zlength_app in H
  | H : context [zlength (_ :: _)] |- _ => rewrite zlength_cons in H
  | H : context [@zlength ?A []] |- _ => change (@zlength A []) with 0 in H
  end.

Lemma zlength_replicate {A} n (a : A) : zlength (replicate (Z.to_nat n) a) = Z.max 0 n.
Proof. unfold zlength. rewrite length_replicate. lia. Qed.

Lemma zsum_app l k : zsum (l ++ k) = zsum l + zsum k.
Proof. induction l as [|x l IH]; simpl; lia. Qed.

Lemma zsum_replicate n x : zsum (replicate n x) = Z.of_nat n * x.
Proof. induction n as [|n IH]; simpl; lia. Qed.

Lemma zsum_nonneg l : Forall (fun x => 0 <= x) l -> 0 <= zsum l.
Proof. induction 1; simpl; lia. Qed.

Lemma zsum_bounds lo hi l : Forall (fun x => lo <= x <= hi) l ->
  zlength l * lo <= zsum l <= zlength l * hi.
Proof. induction 1; simpl; zlen; [done|lia]. Qed.

(** The sum of a weight over a list, and what updating one position does to it. *)
Definition tally {A} (f : A -> Z) (l : list A) : Z := zsum (map f l).
Arguments tally : simpl never.

Lemma tally_cons {A} (f : A -> Z) a l : tally f (a :: l) = f a + tally f l.
Proof. done. Qed.

Lemma tally_one {A} (f : A -> Z) a : tally f [a] = f a.
Proof. unfold tally. cbn. lia. Qed.

Lemma tally_app {A} (f : A -> Z) l k : tally f (l ++ k) = tally f l + tally f k.
Proof. unfold tally. by rewrite map_app, zsum_app. Qed.

Lemma tally_insert {A} (f : A -> Z) l i a b : l !! i = Some a -> tally f (<[i := b]> l) = tally f l - f a + f b.
Proof.
  revert i. unfold tally. induction l as [|c l IH]; intros [|i] H; simplify_eq/=; [lia|]. rewrite IH by done. lia.
Qed.

Lemma tally_nonneg {A} (f : A -> Z) l : (forall a, 0 <= f a) -> 0 <= tally f l.
Proof. intros H. induction l as [|a l IH]; [done|]. rewrite tally_cons. specialize (H a). lia. Qed.

Lemma tally_lookup {A} (f : A -> Z) l i a : (forall a, 0 <= f a) -> l !! i = Some a -> f a <= tally f l.
Proof.
  intros Hf Hi. rewrite <- (take_drop_middle l i a) by done. rewrite tally_app, tally_cons.
  pose proof (tally_nonneg f (take i l) Hf). pose proof (tally_nonneg f (drop (S i) l) Hf). lia.
Qed.

Lemma tally_fmap_same {A} (f : A -> Z) (g : A -> A) l : (forall a, f (g a) = f a) -> tally f (map g l) = tally f l.
Proof. intros H. induction l as [|a l IH]; [done|]. cbn [map]. by rewrite !tally_cons, IH, H. Qed.

(** How many elements of a list satisfy a test. *)
Definition b2z (b : bool) : Z := if b then 1 else 0.
Definition how_many {A} (f : A -> bool) (l : list A) : Z := tally (fun x => b2z (f x)) l.
Arguments how_many : simpl never.

Lemma how_many_cons {A} (f : A -> bool) x l : how_many f (x :: l) = b2z (f x) + how_many f l.
Proof. reflexivity. Qed.

Lemma how_many_insert {A} (f : A -> bool) l i x y : l !! i = Some x ->
  how_many f (<[i := y]> l) = how_many f l - b2z (f x) + b2z (f y).
Proof. apply (tally_insert (fun x => b2z (f x))). Qed.

Lemma how_many_bounds {A} (f : A -> bool) l : 0 <= how_many f l <= zlength l.
Proof. induction l as [|x l IH]; [done|]. rewrite how_many_cons, zlength_cons. unfold b2z. case_match; lia. Qed.

Lemma how_many_le {A} (f g : A -> bool) l : (forall x, f x = true -> g x = true) -> how_many f l <= how_many g l.
Proof.
  intros Hfg. induction l as [|x l IH]; [done|]. rewrite !how_many_cons. specialize (Hfg x). unfold b2z.
  destruct (f x), (g x); naive_solver lia.
Qed.

Lemma how_many_pos {A} (f : A -> bool) l i x : l !! i = Some x -> f x = true -> 0 < how_many f l.
Proof.
  intros Hi Hx. assert (b2z (f x) <= how_many f l) as H; [|rewrite Hx in H; unfold b2z in H; lia].
  apply (tally_lookup (fun x => b2z (f x)) l i x); [intros a; by destruct (f a)|done].
Qed.

Lemma how_many_lt {A} (f : A -> bool) l i x : l !! i = Some x -> f x = false -> how_many f l < zlength l.
Proof.
  intros Hi Hx. rewrite <- (take_drop_middle l i x) by done.
  unfold how_many. rewrite tally_app, tally_cons, zlength_app, zlength_cons, Hx.
  pose proof (how_many_bounds f (take i l)). pose proof (how_many_bounds f (drop (S i) l)). unfold how_many, b2z in *. lia.
Qed.

(** ** [sort.Search]

    The binary search of the [sort] package on the predicate [f]; [fuel] bounds
    the number of halvings, and [n] of them always suffice. *)
Fixpoint search_loop (fuel : nat) (f : nat -> bool) (i j : nat) : nat :=
  match fuel with
  | O => i
  | S fuel =>
      if (i <? j)%nat then
        let h := ((i + j) / 2)%nat in
        if f h then search_loop fuel f i h else search_loop fuel f (S h) j
      else i
  end.

Definition sort_Search (n : nat) (f : nat -> bool) : nat := search_loop n f 0 n.

(** If [f] switches from false to true at [k], the search returns [k]. *)
Lemma search_loop_correct f k fuel i j :
  (forall x, x < k -> f x = false)%nat -> (forall x, k <= x < j -> f x = true)%nat ->
  (i <= k <= j)%nat -> (j - i <= fuel)%nat -> search_loop fuel f i j = k.
Proof.
  revert i j. induction fuel as [|fuel IH]; intros i j Hlo Hhi Hk Hf; cbn -[Nat.div Nat.ltb]; [lia|].
  destruct (Nat.ltb_spec i j); [|lia].
  assert ((i + j) / 2 < j /\ i <= (i + j) / 2)%nat as [Hh1 Hh2].
  { split; [apply Nat.Div0.div_lt_upper_bound|apply Nat.div_le_lower_bound]; lia. }
  destruct (f ((i + j) / 2)%nat) eqn:E.
  - apply IH; auto; try lia.
    + intros x Hx. apply Hhi. lia.
    + split; [lia|]. destruct (Nat.le_gt_cases k ((i + j) / 2)); [lia|].
      rewrite Hlo in E by lia. done.
  - apply IH; auto; try lia.
    split; [|lia]. destruct (Nat.le_gt_cases k ((i + j) / 2)); [|lia].
    rewrite Hhi in E by lia. done.
Qed.

Lemma sort_Search_correct n f k :
  (forall x, x < k -> f x = false)%nat -> (forall x, k <= x < n -> f x = true)%nat -> (k <= n)%nat ->
  sort_Search n f = k.
Proof. intros. apply search_loop_correct; auto; lia. Qed.
