(* ===== verification/Float64.v ===== *)
(** * Go's [float64]: IEEE-754 binary64 through the kernel's primitive floats.

    Arithmetic is correctly rounded to nearest even and never fused, as the Go
    compiler emits it on amd64 at its default level.  The lemmas are the ones
    the float-based components rely on: the order is total off NaN, and the
    sign of sums, products, quotients and differences. *)

From Stdlib Require Import Floats.
From Stdlib Require Uint63.
From S2P Require Import Prelude.
Open Scope Z_scope.

Abbreviation f64 := PrimFloat.float (only parsing).
Abbreviation sf := Prim2SF.

(** [float64(z)] for an [int64] value [z]: rounding to nearest is symmetric. *)
Definition f64_of_Z (z : Z) : f64 :=
  if 0 <=? z then PrimFloat.of_uint63 (Uint63.of_Z z)
  else if min_int64 <? z then PrimFloat.opp (PrimFloat.of_uint63 (Uint63.of_Z (- z)))
  else (-9223372036854775808)%float.

(** Truncation toward zero of the value of a finite float. *)
Definition f64_trunc (x : f64) : option Z :=
  match sf x with
  | S754_zero _ => Some 0
  | S754_finite s m e =>
      let a := if 0 <=? e then Z.shiftl (Zpos m) e else Z.shiftr (Zpos m) (- e) in
      Some (if s then - a else a)
  | _ => None
  end.

(** [int64(x)]/[int(x)]/[time.Duration(x)]: truncation; out-of-range values and
    NaN give the "integer indefinite" value of amd64, [math.MinInt64]. *)
Definition f64_to_int64 (x : f64) : Z :=
  match f64_trunc x with
  | Some z => if (min_int64 <=? z) && (z <=? max_int64) then z else min_int64
  | None => min_int64
  end.

(** [math.Round]: to the nearest integer, half away from zero. *)
Definition f64_round (x : f64) : option Z :=
  match sf x with
  | S754_zero _ => Some 0
  | S754_finite s m e =>
      let a := if 0 <=? e then Z.shiftl (Zpos m) e else Z.shiftr (Zpos m + 2 ^ (- e - 1)) (- e) in
      Some (if s then - a else a)
  | _ => None
  end.

Definition IsInf (x : f64) : bool := match sf x with S754_infinity _ => true | _ => false end.

(** [int64(math.Round(v))]: out of range gives [math.MinInt64], as in [f64_to_int64]. *)
Definition round_to_int64 (v : f64) : Z :=
  match f64_round v with
  | Some n => if (min_int64 <=? n) && (n <=? max_int64) then n else min_int64
  | None => min_int64
  end.

(** [time.Duration.Seconds]: whole seconds plus the fractional part. *)
Definition Seconds (d : duration) : f64 :=
  (f64_of_Z (Z.quot d Second) + f64_of_Z (Z.rem d Second) / f64_of_Z 1000000000)%float.

Definition f64_gtb (x y : f64) : bool := PrimFloat.ltb y x.
Definition f64_geb (x y : f64) : bool := PrimFloat.leb y x.
Definition is_nan (x : f64) : bool := match sf x with S754_nan => true | _ => false end.

(** [0 <= x] on the IEEE order: not NaN, and not negative. *)
Definition f64_nonneg (x : f64) : bool :=
  match sf x with
  | S754_nan => false
  | S754_zero _ => true
  | S754_infinity s => negb s
  | S754_finite s _ _ => negb s
  end.

Definition f64_finite (x : f64) : bool :=
  match sf x with S754_zero _ | S754_finite _ _ _ => true | _ => false end.

(** ** The order *)

Section order.
Implicit Types x y z : f64.

Lemma f64_nonneg_not_nan x : f64_nonneg x = true -> is_nan x = false.
Proof. unfold f64_nonneg, is_nan. by destruct (sf x). Qed.

Lemma leb_zero_nonneg x : PrimFloat.leb zero x = f64_nonneg x.
Proof.
  rewrite leb_spec. change (sf zero) with (S754_zero false).
  unfold f64_nonneg, SFleb, SFcompare. by destruct (sf x) as [|[]| |[]].
Qed.

(** Off NaN, [!(x > y)] is [x <= y]. *)
Lemma ltb_false_leb x y : is_nan x = false -> is_nan y = false ->
  PrimFloat.ltb y x = false -> PrimFloat.leb x y = true.
Proof.
  rewrite ltb_spec, leb_spec. unfold is_nan, SFltb, SFleb, SFcompare.
  destruct (sf x) as [|[]| |[] ? e1], (sf y) as [|[]| |[] ? e2]; try done;
    rewrite (Z.compare_antisym e1 e2); destruct (e1 ?= e2); simpl; try done;
    intros _ _; change (Pos.compare_cont Eq ?a ?b) with (Pos.compare a b);
    rewrite (Pos.compare_antisym m m0); by destruct (Pos.compare m m0).
Qed.

Lemma leb_refl x : is_nan x = false -> PrimFloat.leb x x = true.
Proof.
  rewrite leb_spec. unfold is_nan, SFleb, SFcompare.
  destruct (sf x) as [|[]| |[] ? e]; try done;
    rewrite Z.compare_refl; change (Pos.compare_cont Eq ?a ?b) with (Pos.compare a b);
    by rewrite Pos.compare_refl.
Qed.

Lemma leb_not_nan x y : PrimFloat.leb x y = true -> is_nan x = false /\ is_nan y = false.
Proof.
  rewrite leb_spec. unfold is_nan, SFleb, SFcompare.
  by destruct (sf x) as [|[]| |[]], (sf y) as [|[]| |[]].
Qed.

Lemma leb_ltb_false x y : PrimFloat.leb x y = true -> PrimFloat.ltb y x = false.
Proof.
  rewrite FloatAxioms.leb_spec, ltb_spec. unfold SFleb, SFltb, SFcompare.
  destruct (sf x) as [|[]| |[] mx ex], (sf y) as [|[]| |[] my ey]; try done;
    rewrite (Z.compare_antisym ex ey); destruct (Z.compare ex ey); try done; simpl;
    change (Pos.compare_cont Eq mx my) with (Pos.compare mx my);
    change (Pos.compare_cont Eq my mx) with (Pos.compare my mx);
    rewrite (Pos.compare_antisym mx my); by destruct (Pos.compare mx my).
Qed.

Lemma ltb_leb x y : PrimFloat.ltb x y = true -> PrimFloat.leb x y = true.
Proof.
  rewrite FloatAxioms.leb_spec, ltb_spec. unfold SFleb, SFltb.
  by destruct (SFcompare (sf x) (sf y)) as [[]|].
Qed.

Lemma leb_false_ltb x y : is_nan x = false -> is_nan y = false ->
  PrimFloat.leb x y = false -> PrimFloat.ltb y x = true.
Proof.
  intros Hx Hy Hle. destruct (PrimFloat.ltb y x) eqn:E; [done|].
  by rewrite (ltb_false_leb x y) in Hle.
Qed.

Lemma ltb_nan_r x y : is_nan y = true -> PrimFloat.ltb x y = false.
Proof.
  rewrite ltb_spec. unfold is_nan, SFltb, SFcompare.
  by destruct (sf x) as [|[]| |[]], (sf y) as [|[]| |[]].
Qed.

Lemma ltb_nan_l x y : is_nan x = true -> PrimFloat.ltb x y = false.
Proof.
  rewrite ltb_spec. unfold is_nan, SFltb, SFcompare. by destruct (sf x) as [|[]| |[]].
Qed.

Lemma leb_nan_l x y : is_nan x = true -> PrimFloat.leb x y = false.
Proof.
  rewrite leb_spec. unfold is_nan, SFleb, SFcompare. by destruct (sf x) as [|[]| |[]].
Qed.
End order.

(** ** Rounding keeps the sign *)

(** A spec float that is non-negative with sign bit [s = false], or the mirror
    image with [s = true]; never NaN. *)
Definition has_sign (s : bool) (x : spec_float) : bool :=
  match x with
  | S754_nan => false
  | S754_zero _ => true
  | S754_infinity s' => Bool.eqb s s'
  | S754_finite s' _ _ => Bool.eqb s s'
  end.

Lemma f64_nonneg_has_sign x : f64_nonneg x = has_sign false (sf x).
Proof. unfold f64_nonneg, has_sign. by destruct (sf x) as [|[]| |[]]. Qed.

Lemma shr_1_nonneg r : 0 <= shr_m r -> 0 <= shr_m (shr_1 r).
Proof. destruct r as [[|[]|] ? ?]; simpl; lia. Qed.

Lemma iter_pos_inv {A} (P : A -> Prop) (f : A -> A) :
  (forall a, P a -> P (f a)) -> forall n a, P a -> P (SpecFloat.iter_pos f n a).
Proof. intros Hf n. induction n as [n IH|n IH|]; simpl; auto. Qed.

Lemma shr_fexp_nonneg p q m e l :
  0 <= m -> 0 <= shr_m (fst (shr_fexp p q m e l)).
Proof.
  intros Hm. unfold shr_fexp, shr.
  assert (0 <= shr_m (shr_record_of_loc m l)) by (destruct l as [|[]]; simpl; lia).
  destruct (_ - e); simpl; auto.
  by apply (iter_pos_inv (fun r => 0 <= shr_m r)); [apply shr_1_nonneg|].
Qed.

Lemma binary_round_aux_sign p q s m e l :
  0 <= m -> has_sign s (binary_round_aux p q s m e l) = true.
Proof.
  intros Hm. unfold binary_round_aux.
  pose proof (shr_fexp_nonneg p q m e l Hm) as H1.
  destruct (shr_fexp p q m e l) as [r1 e1]; simpl in H1.
  set (m' := round_nearest_even _ _).
  assert (0 <= m') as Hm'.
  { unfold m', round_nearest_even. destruct (loc_of_shr_record r1) as [|[]]; try lia.
    destruct (Z.even _); lia. }
  pose proof (shr_fexp_nonneg p q m' e1 loc_Exact Hm') as H2.
  destruct (shr_fexp p q m' e1 loc_Exact) as [r2 e2]; simpl in H2.
  destruct (shr_m r2) as [|m2|m2]; simpl; [done| |lia].
  destruct (e2 <=? q - p); simpl; apply Bool.eqb_reflx.
Qed.

Lemma binary_round_sign p q s m e : has_sign s (binary_round p q s m e) = true.
Proof. unfold binary_round. destruct (shl_align _ _ _). by apply binary_round_aux_sign. Qed.

Lemma binary_normalize_nonneg p q m e s :
  0 <= m -> has_sign false (binary_normalize p q m e s) = true.
Proof.
  intros Hm. destruct m as [|m|m]; simpl; [done| |lia]. apply binary_round_sign.
Qed.

Lemma f64_mul_nonneg x y :
  f64_finite x = true -> f64_nonneg x = true ->
  f64_finite y = true -> f64_nonneg y = true -> f64_nonneg (x * y)%float = true.
Proof.
  rewrite !f64_nonneg_has_sign, mul_spec. unfold f64_finite.
  destruct (sf x) as [|[]| |[]], (sf y) as [|[]| |[]]; simpl; try done;
    intros; by apply binary_round_aux_sign.
Qed.

(** Positive factors, infinite ones included. *)
Lemma f64_mul_pos_nonneg x y :
  PrimFloat.ltb zero x = true -> PrimFloat.ltb zero y = true -> f64_nonneg (x * y)%float = true.
Proof.
  rewrite f64_nonneg_has_sign, mul_spec, !ltb_spec. change (sf zero) with (S754_zero false).
  destruct (sf x) as [|[]| |[]], (sf y) as [|[]| |[]]; simpl; try done;
    intros; by apply binary_round_aux_sign.
Qed.

Lemma f64_add_nonneg x y :
  f64_nonneg x = true -> f64_nonneg y = true -> f64_nonneg (x + y)%float = true.
Proof.
  rewrite !f64_nonneg_has_sign, add_spec.
  destruct (sf x) as [[]|[]| |[]], (sf y) as [[]|[]| |[]]; simpl; try done;
    intros; apply binary_round_sign.
Qed.

Lemma f64_div_nonneg x y :
  f64_finite x = true -> f64_nonneg x = true ->
  f64_finite y = true -> PrimFloat.ltb zero y = true -> f64_nonneg (x / y)%float = true.
Proof.
  rewrite !f64_nonneg_has_sign, div_spec, ltb_spec.
  change (sf zero) with (S754_zero false). unfold f64_finite.
  destruct (sf x) as [|[]| |[] mx ex], (sf y) as [|[]| |[] my ey]; try done. intros _ _ _ _.
  unfold SF64div, SFdiv, SFdiv_core_binary.
  match goal with |- context [Z.div_eucl ?a ?b] =>
    assert (0 <= a) as Ha by (case_match; try lia; by apply Z.shiftl_nonneg);
    pose proof (Z_div_pos a b ltac:(lia) Ha) as Hq; unfold Z.div in Hq;
    destruct (Z.div_eucl a b)
  end.
  by apply binary_round_aux_sign.
Qed.

Lemma f64_of_Z_sf z : 0 <= z <= max_int64 ->
  sf (f64_of_Z z) = binary_normalize prec emax z 0 false.
Proof.
  intros Hz. unfold f64_of_Z. rewrite (proj2 (Z.leb_le 0 z)) by lia.
  rewrite of_uint63_spec, Uint63.of_Z_spec, Z.mod_small; [done|].
  change Uint63.wB with 9223372036854775808. go_lia.
Qed.

Lemma f64_of_Z_nonneg z : 0 <= z <= max_int64 -> f64_nonneg (f64_of_Z z) = true.
Proof.
  intros Hz. rewrite f64_nonneg_has_sign, f64_of_Z_sf by done.
  apply binary_normalize_nonneg; lia.
Qed.

(** ** Subtraction below the minuend *)

Lemma pow2_pred d : 0 < d -> 2 ^ d = 2 * 2 ^ (d - 1).
Proof. intros H. rewrite <- Z.pow_succ_r by lia. f_equal. lia. Qed.

Lemma digits2_pos_bounds m : 2 ^ (Zpos (digits2_pos m) - 1) <= Zpos m < 2 ^ Zpos (digits2_pos m).
Proof.
  induction m as [m IH|m IH|]; cbn [digits2_pos]; [| |done].
  all: rewrite (pow2_pred (Zpos (Pos.succ _))) by lia.
  all: replace (Zpos (Pos.succ (digits2_pos m)) - 1) with (Zpos (digits2_pos m)) by lia.
  all: rewrite (pow2_pred (Zpos (digits2_pos m))) in * by lia.
  all: rewrite ?(Pos2Z.inj_xI m), ?(Pos2Z.inj_xO m).
  all: generalize dependent (2 ^ (Zpos (digits2_pos m) - 1)); intros; lia.
Qed.

Lemma shl_align_value m e e' : e' <= e ->
  Zpos (fst (shl_align m e e')) = Zpos m * 2 ^ (e - e').
Proof.
  intros He. unfold shl_align. destruct (e' - e) as [|d|d] eqn:Hd; simpl.
  - replace (e - e') with 0 by lia. lia.
  - lia.
  - replace (e - e') with (Zpos d) by lia. clear.
    induction d as [|d IH] using Pos.peano_ind.
    + change (2 ^ 1) with 2. simpl. lia.
    + rewrite Pos.iter_succ, Pos2Z.inj_succ, Z.pow_succ_r by lia.
      rewrite (Pos2Z.inj_xO (Pos.iter xO m d)), IH. lia.
Qed.

(** Canonical finite floats compare as their values. *)
Lemma canonical_lt m1 e1 m2 e2 :
  bounded prec emax m1 e1 = true -> bounded prec emax m2 e2 = true -> e1 < e2 ->
  Zpos m1 < Zpos m2 * 2 ^ (e2 - e1).
Proof.
  unfold bounded, canonical_mantissa, fexp, SpecFloat.emin.
  change prec with 53; change emax with 1024.
  rewrite !andb_true_iff, !Z.eqb_eq. intros [H1 _] [H2 _] Hlt.
  pose proof (digits2_pos_bounds m1) as B1. pose proof (digits2_pos_bounds m2) as B2.
  assert (Zpos (digits2_pos m1) <= 53 /\ Zpos (digits2_pos m2) = 53) as [D1 D2] by lia.
  rewrite D2 in B2. change (2 ^ (53 - 1)) with 4503599627370496 in B2.
  assert (2 ^ Zpos (digits2_pos m1) <= 2 ^ 53) by (apply Z.pow_le_mono_r; lia).
  assert (2 ^ 1 <= 2 ^ (e2 - e1)) by (apply Z.pow_le_mono_r; lia).
  change (2 ^ 53) with 9007199254740992 in *. change (2 ^ 1) with 2 in *. nia.
Qed.

Lemma bounded_sf x s m e : sf x = S754_finite s m e -> bounded prec emax m e = true.
Proof. intros H. pose proof (Prim2SF_valid x) as V. by rewrite H in V. Qed.

(** The aligned mantissas of two positive floats are ordered as the floats. *)
Lemma aligned_le m1 e1 m2 e2 :
  bounded prec emax m1 e1 = true -> bounded prec emax m2 e2 = true ->
  SFleb (S754_finite false m1 e1) (S754_finite false m2 e2) = true ->
  Zpos (fst (shl_align m1 e1 (Z.min e2 e1))) <= Zpos (fst (shl_align m2 e2 (Z.min e2 e1))).
Proof.
  intros B1 B2. unfold SFleb, SFcompare. rewrite !shl_align_value by lia.
  change (Pos.compare_cont Eq m1 m2) with (Pos.compare m1 m2).
  destruct (Z.compare_spec e1 e2) as [->|Hlt|Hgt]; [| |done]; intros H.
  - rewrite Z.min_id, Z.sub_diag. destruct (Pos.compare_spec m1 m2); subst; try done; lia.
  - pose proof (canonical_lt _ _ _ _ B1 B2 Hlt). rewrite Z.min_r by lia.
    rewrite Z.sub_diag. lia.
Qed.

Lemma f64_sub_nonneg x y :
  f64_finite y = true -> f64_nonneg y = true ->
  PrimFloat.leb y x = true -> f64_nonneg (x - y)%float = true.
Proof.
  rewrite !f64_nonneg_has_sign, sub_spec, FloatAxioms.leb_spec. unfold f64_finite.
  destruct (sf x) as [[]|[]| |[] mx ex] eqn:Ex, (sf y) as [[]|[]| |[] my ey] eqn:Ey; try done.
  intros _ _ Hle. unfold SF64sub, SFsub, cond_Zopp. apply binary_normalize_nonneg.
  pose proof (aligned_le _ _ _ _ (bounded_sf _ _ _ _ Ey) (bounded_sf _ _ _ _ Ex) Hle). lia.
Qed.

(** ** Bounds that exclude NaN and infinities *)

Lemma f64_nonneg_leb x y : f64_nonneg x = true -> PrimFloat.leb x y = true -> f64_nonneg y = true.
Proof.
  rewrite FloatAxioms.leb_spec. unfold f64_nonneg, SFleb, SFcompare.
  by destruct (sf x) as [|[]| |[]], (sf y) as [|[]| |[]].
Qed.

Lemma f64_finite_between x y : f64_nonneg x = true -> PrimFloat.leb x y = true -> f64_finite y = true ->
  f64_finite x = true.
Proof.
  rewrite FloatAxioms.leb_spec. unfold f64_nonneg, f64_finite, SFleb, SFcompare.
  by destruct (sf x) as [|[]| |[]], (sf y) as [|[]| |[]].
Qed.

(** Scaling by a finite positive factor; the other operand may be infinite. *)
Lemma f64_mul_scale x c : f64_nonneg x = true -> f64_finite c = true -> PrimFloat.ltb zero c = true ->
  f64_nonneg (x * c)%float = true.
Proof.
  rewrite !f64_nonneg_has_sign, mul_spec, ltb_spec. change (sf zero) with (S754_zero false). unfold f64_finite.
  destruct (sf x) as [|[]| |[]], (sf c) as [|[]| |[]]; simpl; try done; intros; by apply binary_round_aux_sign.
Qed.

Lemma f64_div_scale x c : f64_nonneg x = true -> f64_finite c = true -> PrimFloat.ltb zero c = true ->
  f64_nonneg (x / c)%float = true.
Proof.
  intros Hx Hc Hp. destruct (f64_finite x) eqn:Fx; [by apply f64_div_nonneg|]. revert Hx Hc Hp Fx.
  rewrite !f64_nonneg_has_sign, div_spec, ltb_spec. change (sf zero) with (S754_zero false). unfold f64_finite.
  by destruct (sf x) as [|[]| |[]], (sf c) as [|[]| |[]].
Qed.

Lemma f64_sqrt_nonneg x : f64_nonneg x = true -> f64_nonneg (PrimFloat.sqrt x) = true.
Proof.
  rewrite !f64_nonneg_has_sign, sqrt_spec. destruct (sf x) as [|[]| |[] m e]; try done. intros _.
  unfold SF64sqrt, SFsqrt, SFsqrt_core_binary.
  match goal with |- context [Z.sqrtrem ?a] =>
    pose proof (Z.sqrt_nonneg a) as Hq; rewrite <- Z.sqrtrem_sqrt in Hq; destruct (Z.sqrtrem a) as [q r]
  end. by apply binary_round_aux_sign.
Qed.

(** A finite operand and one that is not NaN. *)
Lemma binary_normalize_not_nan p q m e s : binary_normalize p q m e s <> S754_nan.
Proof.
  destruct m as [|m|m]; simpl; [done| |]; intros E;
    [pose proof (binary_round_sign p q false m e) as H|pose proof (binary_round_sign p q true m e) as H]; by rewrite E in H.
Qed.

Lemma f64_add_finite_not_nan x y : f64_finite x = true -> is_nan y = false -> is_nan (x + y)%float = false.
Proof.
  unfold f64_finite, is_nan. rewrite add_spec.
  destruct (sf x) as [[]|[]| |[] mx ex], (sf y) as [[]|[]| |[] my ey]; try done; intros _ _;
    unfold SF64add, SFadd; match goal with |- context [binary_normalize ?p ?q ?m ?e ?s] =>
      pose proof (binary_normalize_not_nan p q m e s); by destruct (binary_normalize p q m e s) end.
Qed.

Lemma f64_sub_finite_not_nan x y : f64_finite x = true -> is_nan y = false -> is_nan (x - y)%float = false.
Proof.
  unfold f64_finite, is_nan. rewrite sub_spec.
  destruct (sf x) as [[]|[]| |[] mx ex], (sf y) as [[]|[]| |[] my ey]; try done; intros _ _;
    unfold SF64sub, SFsub; match goal with |- context [binary_normalize ?p ?q ?m ?e ?s] =>
      pose proof (binary_normalize_not_nan p q m e s); by destruct (binary_normalize p q m e s) end.
Qed.

(** ** NaN is absorbing *)

Lemma f64_add_nan_l x y : is_nan x = true -> is_nan (x + y)%float = true.
Proof. unfold is_nan. rewrite add_spec. by destruct (sf x). Qed.

Lemma f64_add_nan_r x y : is_nan y = true -> is_nan (x + y)%float = true.
Proof. unfold is_nan. rewrite add_spec. by destruct (sf x) as [[]|[]| |[]], (sf y) as [[]|[]| |[]]. Qed.

Lemma f64_mul_nan_l x y : is_nan x = true -> is_nan (x * y)%float = true.
Proof. unfold is_nan. rewrite mul_spec. by destruct (sf x) as [[]|[]| |[]], (sf y) as [[]|[]| |[]]. Qed.

Lemma f64_mul_nan_r x y : is_nan y = true -> is_nan (x * y)%float = true.
Proof. unfold is_nan. rewrite mul_spec. by destruct (sf x) as [[]|[]| |[]], (sf y) as [[]|[]| |[]]. Qed.

Lemma f64_div_nan_l x y : is_nan x = true -> is_nan (x / y)%float = true.
Proof. unfold is_nan. rewrite div_spec. by destruct (sf x) as [[]|[]| |[]], (sf y) as [[]|[]| |[]]. Qed.

Lemma f64_sub_nan_l x y : is_nan x = true -> is_nan (x - y)%float = true.
Proof. unfold is_nan. rewrite sub_spec. by destruct (sf x). Qed.

Lemma f64_sub_nan_r x y : is_nan y = true -> is_nan (x - y)%float = true.
Proof. unfold is_nan. rewrite sub_spec. by destruct (sf x), (sf y). Qed.

#[export] Hint Resolve f64_nonneg_not_nan f64_add_nonneg f64_add_nan_l f64_sub_nan_l
  f64_sub_nan_r : golib.
