(* ===== verification/Float64Round.v ===== *)
(** * Rounding bounds for binary64.

    A correctly rounded result is at least every float below the exact value,
    and at most every power of two above it.  Exact values are integers scaled
    by [2^1074], the reciprocal of the smallest positive float. *)

From Stdlib Require Import Floats.
From S2P Require Import Prelude Float64.
Open Scope Z_scope.

Notation F := (SpecFloat.fexp prec emax).

Lemma fexp_value e : F e = Z.max (e - 53) (-1074).
Proof. reflexivity. Qed.

(** [m * 2^e] on the scale of the smallest float. *)
Definition scaled (m e : Z) : Z := m * 2 ^ (e + 1074).

Lemma pow2_pos n : 0 <= n -> 0 < 2 ^ n.
Proof. intros. by apply Z.pow_pos_nonneg. Qed.

Lemma scaled_shift m e k : 0 <= k -> -1074 <= e -> scaled (m * 2 ^ k) e = scaled m (e + k).
Proof.
  intros Hk He. unfold scaled. rewrite <- Z.mul_assoc, <- Z.pow_add_r by lia. do 2 f_equal. lia.
Qed.

Lemma Zdigits2_bounds m : 0 < m -> 0 < Zdigits2 m /\ 2 ^ (Zdigits2 m - 1) <= m < 2 ^ Zdigits2 m.
Proof. destruct m as [|m|m]; try lia. intros _. cbn. split; [lia|]. apply digits2_pos_bounds. Qed.

(** ** The shift *)

Lemma shr_1_m r : 0 <= shr_m r -> shr_m (shr_1 r) = shr_m r / 2.
Proof.
  destruct r as [[|[p|p|]|p] b c]; cbn; intros H; try lia; try done.
  - rewrite (Pos2Z.inj_xI p). apply Z.div_unique with 1; lia.
  - rewrite (Pos2Z.inj_xO p). apply Z.div_unique with 0; lia.
Qed.

Lemma iter_shr_m n r : 0 <= shr_m r -> shr_m (SpecFloat.iter_pos shr_1 n r) = shr_m r / 2 ^ Zpos n.
Proof.
  assert (forall r, 0 <= shr_m r -> forall k, 0 < k -> 0 <= shr_m r / k) as Hnn by (intros; by apply Z.div_pos).
  revert r. induction n as [n IH|n IH|]; cbn [SpecFloat.iter_pos]; intros r Hr.
  - assert (0 <= shr_m (shr_1 r)) as H1 by (by apply shr_1_nonneg).
    rewrite IH by (rewrite IH by done; apply Hnn; [done|apply pow2_pos; lia]).
    rewrite IH, shr_1_m, !Z.div_div by (try done; try apply pow2_pos; try apply Z.mul_pos_pos; try apply pow2_pos; lia).
    f_equal. rewrite <- !Z.pow_add_r by lia. change 2 with (2 ^ 1) at 1. rewrite <- Z.pow_add_r by lia. f_equal. lia.
  - rewrite IH by (rewrite IH by done; apply Hnn; [done|apply pow2_pos; lia]).
    rewrite IH, Z.div_div by (try done; try apply pow2_pos; lia). f_equal. rewrite <- Z.pow_add_r by lia. f_equal. lia.
  - by apply shr_1_m.
Qed.

(** What a shift to the target exponent does. *)
Definition shift_of (m e : Z) : Z := Z.max 0 (F (Zdigits2 m + e) - e).

Lemma shr_fexp_floor m e l : 0 <= m ->
  shr_m (fst (shr_fexp prec emax m e l)) = m / 2 ^ shift_of m e /\
  snd (shr_fexp prec emax m e l) = e + shift_of m e.
Proof.
  intros Hm. unfold shr_fexp, shift_of.
  assert (shr_m (shr_record_of_loc m l) = m) as E by (by destruct l as [|[]]).
  destruct (F (Zdigits2 m + e) - e) as [|k|k] eqn:Ek; cbn [shr fst snd].
  - rewrite E. change (2 ^ Z.max 0 0) with 1. rewrite Z.div_1_r. lia.
  - rewrite iter_shr_m by (by rewrite E). rewrite E, Z.max_r by lia. done.
  - rewrite E. rewrite Z.max_l by lia. change (2 ^ 0) with 1. rewrite Z.div_1_r. lia.
Qed.

Lemma canonical_facts m e : bounded prec emax m e = true ->
  -1074 <= e /\ Zpos m < 2 ^ 53 /\ (-1074 < e -> 2 ^ 52 <= Zpos m).
Proof.
  unfold bounded, canonical_mantissa. rewrite andb_true_iff, Z.eqb_eq, fexp_value. intros [H _].
  pose proof (digits2_pos_bounds m) as B.
  assert (Zpos (digits2_pos m) <= 53) as Hd by lia.
  assert (2 ^ Zpos (digits2_pos m) <= 2 ^ 53) by (apply Z.pow_le_mono_r; lia).
  split_and!; [lia|lia|]. intros He. assert (Zpos (digits2_pos m) = 53) as D by lia. rewrite D in B.
  change (53 - 1) with 52 in B. lia.
Qed.

(** The shift keeps every canonical float below the value below the result. *)
Lemma shift_lower m e mz ez : 0 < m -> -1074 <= e -> bounded prec emax mz ez = true ->
  scaled (Zpos mz) ez <= scaled m e ->
  scaled (Zpos mz) ez <= scaled (m / 2 ^ shift_of m e) (e + shift_of m e).
Proof.
  intros Hm He Hb Hle. destruct (canonical_facts mz ez Hb) as (Hez & Hmz & _).
  destruct (Zdigits2_bounds m Hm) as [HD [HDl HDu]].
  set (k := shift_of m e). assert (0 <= k) as Hk by (unfold k, shift_of; lia).
  pose proof (pow2_pos k Hk) as Hpk.
  destruct (Z.eq_dec k 0) as [E|E]; [rewrite E, Z.add_0_r; change (2 ^ 0) with 1; by rewrite Z.div_1_r|].
  assert (e + k = Z.max (Zdigits2 m + e - 53) (-1074)) as Ek.
  { unfold k, shift_of in *. rewrite fexp_value in *. lia. }
  destruct (Z.le_gt_cases (e + k) ez) as [Hc|Hc].
  - unfold scaled. replace (ez + 1074) with ((ez - (e + k)) + (e + k + 1074)) by lia.
    rewrite Z.pow_add_r, Z.mul_assoc by lia. apply Z.mul_le_mono_nonneg_r; [apply Z.pow_nonneg; lia|].
    apply Z.div_le_lower_bound; [done|]. unfold scaled in Hle.
    replace (ez + 1074) with ((ez - (e + k)) + k + (e + 1074)) in Hle by lia.
    rewrite !Z.pow_add_r in Hle by lia.
    apply (Z.mul_le_mono_pos_r _ _ (2 ^ (e + 1074))); [apply pow2_pos; lia|]. lia.
  - assert (2 ^ 52 <= m / 2 ^ k) as Hq.
    { apply Z.div_le_lower_bound; [done|]. rewrite <- Z.pow_add_r by lia.
      transitivity (2 ^ (Zdigits2 m - 1)); [|done]. apply Z.pow_le_mono_r; lia. }
    unfold scaled. apply Z.lt_le_incl.
    apply Z.lt_le_trans with (2 ^ 53 * 2 ^ (ez + 1074)).
    { apply Z.mul_lt_mono_pos_r; [apply pow2_pos; lia|done]. }
    transitivity (2 ^ 52 * 2 ^ (e + k + 1074)).
    { rewrite <- !Z.pow_add_r by lia. apply Z.pow_le_mono_r; lia. }
    apply Z.mul_le_mono_nonneg_r; [apply Z.pow_nonneg; lia|done].
Qed.

(** ** Rounding from below *)

Definition at_least (z : Z) (x : spec_float) : Prop :=
  match x with
  | S754_finite false m e => -1074 <= e /\ z <= scaled (Zpos m) e
  | S754_infinity false => True
  | _ => False
  end.

Lemma round_even_bounds m l : m <= round_nearest_even m l <= m + 1.
Proof. unfold round_nearest_even. destruct l as [|[]]; try lia. destruct (Z.even m); lia. Qed.

Lemma scaled_pos_inv m e z : 0 < z -> -1074 <= e -> z <= scaled m e -> 0 < m.
Proof. unfold scaled. intros Hz He H. pose proof (pow2_pos (e + 1074) ltac:(lia)). nia. Qed.

Lemma scaled_mono m m' e : -1074 <= e -> m <= m' -> scaled m e <= scaled m' e.
Proof. intros He H. unfold scaled. apply Z.mul_le_mono_nonneg_r; [apply Z.pow_nonneg; lia|done]. Qed.

Lemma round_aux_lower m e l mz ez : 0 < m -> -1074 <= e -> bounded prec emax mz ez = true ->
  scaled (Zpos mz) ez <= scaled m e ->
  at_least (scaled (Zpos mz) ez) (binary_round_aux prec emax false m e l).
Proof.
  intros Hm He Hb Hle. destruct (canonical_facts mz ez Hb) as (Hez & _ & _).
  assert (0 < scaled (Zpos mz) ez) as Hz by (unfold scaled; pose proof (pow2_pos (ez + 1074) ltac:(lia)); nia).
  unfold binary_round_aux. pose proof (shr_fexp_floor m e l ltac:(lia)) as [E1 E1'].
  destruct (shr_fexp prec emax m e l) as [r1 e1]. cbn [fst snd] in *. subst e1.
  pose proof (shift_lower m e mz ez Hm He Hb Hle) as H1. rewrite <- E1 in H1.
  set (e1 := e + shift_of m e) in *. assert (-1074 <= e1) as He1 by (unfold e1, shift_of; lia).
  pose proof (round_even_bounds (shr_m r1) (loc_of_shr_record r1)) as Hr.
  set (q := round_nearest_even _ _) in *.
  assert (scaled (Zpos mz) ez <= scaled q e1) as H2 by (etransitivity; [exact H1|apply scaled_mono; lia]).
  assert (0 < q) as Hq by (by eapply (scaled_pos_inv q e1)).
  pose proof (shr_fexp_floor q e1 loc_Exact ltac:(lia)) as [E2 E2'].
  destruct (shr_fexp prec emax q e1 loc_Exact) as [r2 e2]. cbn [fst snd] in *. subst e2.
  pose proof (shift_lower q e1 mz ez Hq He1 Hb H2) as H3. rewrite <- E2 in H3.
  assert (-1074 <= e1 + shift_of q e1) as He2 by (unfold shift_of; lia).
  pose proof (scaled_pos_inv _ _ _ Hz He2 H3) as Hp. destruct (shr_m r2) as [|p|p]; try lia.
  by destruct (_ <=? _).
Qed.

Lemma binary_round_lower m e mz ez : -1074 <= e -> bounded prec emax mz ez = true ->
  scaled (Zpos mz) ez <= scaled (Zpos m) e ->
  at_least (scaled (Zpos mz) ez) (binary_round prec emax false m e).
Proof.
  intros He Hb Hle. unfold binary_round. set (e' := F _).
  assert (-1074 <= e') as He' by (unfold e'; rewrite fexp_value; lia).
  destruct (Z.le_gt_cases e' e) as [Hc|Hc].
  - pose proof (shl_align_value m e e' Hc) as Hv.
    assert (snd (shl_align m e e') = e') as Hs.
    { unfold shl_align. destruct (e' - e) eqn:Ed; cbn; lia. }
    destruct (shl_align m e e') as [mz' e2]. cbn [fst snd] in *. subst e2. apply round_aux_lower; [lia|done|done|].
    rewrite Hv, scaled_shift by lia. by replace (e' + (e - e')) with e by lia.
  - assert (shl_align m e e' = (m, e)) as -> by (unfold shl_align; destruct (e' - e) eqn:Ed; [done|done|lia]).
    by apply round_aux_lower.
Qed.

(** The value of a non-negative finite float. *)
Definition fval (x : f64) : Z :=
  match sf x with S754_finite false m e => scaled (Zpos m) e | _ => 0 end.

(** Canonical floats compare as their values. *)
Lemma leb_of_values x y m e : sf x = S754_finite false m e -> at_least (scaled (Zpos m) e) (sf y) ->
  PrimFloat.leb x y = true.
Proof.
  intros Ex Hy. rewrite FloatAxioms.leb_spec, Ex. unfold SFleb, SFcompare.
  destruct (sf y) as [|[]| |[] my ey] eqn:Ey; cbn in Hy; try done. destruct Hy as [Hey Hle].
  pose proof (bounded_sf _ _ _ _ Ex) as Bx. pose proof (bounded_sf _ _ _ _ Ey) as By.
  destruct (canonical_facts m e Bx) as (He & _ & _).
  destruct (Z.compare_spec e ey) as [<-|Hlt|Hgt]; [|done|].
  - change (Pos.compare_cont Eq m my) with (Pos.compare m my). unfold scaled in Hle.
    apply Z.mul_le_mono_pos_r in Hle; [|apply pow2_pos; lia].
    destruct (Pos.compare_spec m my); try done. lia.
  - exfalso. pose proof (canonical_lt _ _ _ _ By Bx Hgt) as H. unfold scaled in Hle.
    replace (e + 1074) with ((e - ey) + (ey + 1074)) in Hle by lia. rewrite Z.pow_add_r, Z.mul_assoc in Hle by lia.
    apply Z.mul_le_mono_pos_r in Hle; [lia|apply pow2_pos; lia].
Qed.

(** A sum is at least every float below its exact value. *)
Lemma f64_add_lower x y z : f64_nonneg x = true -> f64_nonneg y = true ->
  f64_finite x = true -> f64_finite y = true -> f64_finite z = true -> f64_nonneg z = true ->
  fval z <= fval x + fval y -> PrimFloat.leb z (x + y)%float = true.
Proof.
  intros Hx Hy Fx Fy Fz Hz Hle. destruct (sf z) as [sz|sz| |sz mz ez] eqn:Ez.
  - pose proof (f64_add_nonneg x y Hx Hy) as Hn. rewrite <- leb_zero_nonneg in Hn.
    rewrite FloatAxioms.leb_spec in *. rewrite Ez. change (sf zero) with (S754_zero false) in Hn.
    by destruct (sf (x + y)%float) as [|[]| |[]].
  - unfold f64_finite in Fz. by rewrite Ez in Fz.
  - unfold f64_finite in Fz. by rewrite Ez in Fz.
  - unfold f64_nonneg in Hz. rewrite Ez in Hz. destruct sz; [done|].
    eapply leb_of_values; [done|]. rewrite add_spec. unfold fval in Hle. rewrite Ez in Hle.
    pose proof (bounded_sf _ _ _ _ Ez) as Bz. destruct (canonical_facts mz ez Bz) as (Hez & _ & _).
    assert (0 < scaled (Zpos mz) ez) as Hp by (unfold scaled; pose proof (pow2_pos (ez + 1074) ltac:(lia)); nia).
    unfold f64_finite, f64_nonneg in *.
    destruct (sf x) as [sx|sx| |[] mx ex] eqn:Ex, (sf y) as [sy|sy| |[] my ey] eqn:Ey; try done; try lia.
    + cbn. destruct (canonical_facts my ey (bounded_sf _ _ _ _ Ey)). lia.
    + destruct sy; cbn; destruct (canonical_facts mx ex (bounded_sf _ _ _ _ Ex)); lia.
    + destruct (canonical_facts mx ex (bounded_sf _ _ _ _ Ex)) as (Hex & _ & _).
      destruct (canonical_facts my ey (bounded_sf _ _ _ _ Ey)) as (Hey & _ & _).
      unfold SF64add, SFadd, cond_Zopp, binary_normalize. cbn [Z.add]. apply binary_round_lower; [lia|done|].
      rewrite Pos2Z.inj_add, !shl_align_value by lia. unfold scaled at 2. rewrite Z.mul_add_distr_r.
      change (scaled (Zpos mz) ez <= scaled (Zpos mx * 2 ^ (ex - Z.min ex ey)) (Z.min ex ey) +
        scaled (Zpos my * 2 ^ (ey - Z.min ex ey)) (Z.min ex ey)).
      rewrite !scaled_shift by lia.
      replace (Z.min ex ey + (ex - Z.min ex ey)) with ex by lia.
      replace (Z.min ex ey + (ey - Z.min ex ey)) with ey by lia. done.
Qed.

(** ** Exact conversions *)

Lemma Zdigits2_unique m d : 0 < d -> 2 ^ (d - 1) <= m < 2 ^ d -> Zdigits2 m = d.
Proof.
  intros Hd Hm. assert (0 < m) as Hp by (pose proof (pow2_pos (d - 1) ltac:(lia)); lia).
  destruct (Zdigits2_bounds m Hp) as [HD HB].
  destruct (Z.lt_trichotomy (Zdigits2 m) d) as [H|[H|H]]; [exfalso|done|exfalso].
  - assert (2 ^ Zdigits2 m <= 2 ^ (d - 1)) by (apply Z.pow_le_mono_r; lia). lia.
  - assert (2 ^ d <= 2 ^ (Zdigits2 m - 1)) by (apply Z.pow_le_mono_r; lia). lia.
Qed.

(** A mantissa of 53 digits is already rounded. *)
Lemma round_aux_exact m e : 2 ^ 52 <= Zpos m < 2 ^ 53 -> -1074 <= e <= 971 ->
  binary_round_aux prec emax false (Zpos m) e loc_Exact = S754_finite false m e.
Proof.
  intros Hm He. assert (Zdigits2 (Zpos m) = 53) as D by (by apply Zdigits2_unique).
  assert (shr_fexp prec emax (Zpos m) e loc_Exact = (Build_shr_record (Zpos m) false false, e)) as E.
  { unfold shr_fexp. rewrite D, fexp_value. replace (Z.max (53 + e - 53) (-1074) - e) with 0 by lia. done. }
  unfold binary_round_aux. rewrite E. cbn [shr_m loc_of_shr_record round_nearest_even]. rewrite E. cbn [shr_m].
  change (emax - prec) with 971. by rewrite (proj2 (Z.leb_le e 971)) by lia.
Qed.

Lemma f64_of_Z_exact z : 0 < z < 2 ^ 53 ->
  exists m e, sf (f64_of_Z z) = S754_finite false m e /\ scaled (Zpos m) e = scaled z 0 /\ -52 <= e <= 0.
Proof.
  intros Hz. change (2 ^ 53) with 9007199254740992 in Hz. rewrite f64_of_Z_sf by go_lia.
  destruct z as [|p|p]; try lia. cbn [binary_normalize]. unfold binary_round.
  destruct (Zdigits2_bounds (Zpos p) ltac:(lia)) as [HD [HDl HDu]]. cbn [Zdigits2] in *.
  set (D := Zpos (digits2_pos p)) in *.
  assert (D <= 53) as HD53.
  { destruct (Z.le_gt_cases D 53); [done|]. assert (2 ^ 53 <= 2 ^ (D - 1)) by (apply Z.pow_le_mono_r; lia).
    change (2 ^ 53) with 9007199254740992 in *. lia. }
  assert (F (D + 0) = D - 53) as EF by (rewrite fexp_value; lia). rewrite EF.
  pose proof (shl_align_value p 0 (D - 53) ltac:(lia)) as Hv.
  assert (snd (shl_align p 0 (D - 53)) = D - 53) as Hs.
  { unfold shl_align. destruct (D - 53 - 0) eqn:Ed; cbn; lia. }
  destruct (shl_align p 0 (D - 53)) as [m e]. cbn [fst snd] in *. subst e.
  assert (2 ^ 52 <= Zpos m < 2 ^ 53) as Hm.
  { rewrite Hv. replace (2 ^ 52) with (2 ^ (D - 1) * 2 ^ (0 - (D - 53))) by (rewrite <- Z.pow_add_r by lia; f_equal; lia).
    replace (2 ^ 53) with (2 ^ D * 2 ^ (0 - (D - 53))) by (rewrite <- Z.pow_add_r by lia; f_equal; lia).
    pose proof (pow2_pos (0 - (D - 53)) ltac:(lia)). split; [by apply Z.mul_le_mono_nonneg_r; [lia|]|].
    by apply Z.mul_lt_mono_pos_r. }
  rewrite round_aux_exact by (done || lia). exists m, (D - 53). split_and!; [done| |lia|lia].
  rewrite Hv, scaled_shift by lia. f_equal. lia.
Qed.

Lemma f64_of_Z_fval z : 0 <= z < 2 ^ 53 ->
  f64_finite (f64_of_Z z) = true /\ fval (f64_of_Z z) = z * 2 ^ 1074.
Proof.
  intros Hz. destruct (Z.eq_dec z 0) as [->|Hne].
  - change (sf (f64_of_Z 0)) with (S754_zero false). by unfold f64_finite, fval; change (sf (f64_of_Z 0)) with (S754_zero false).
  - destruct (f64_of_Z_exact z ltac:(lia)) as (m & e & E & Hv & _). unfold f64_finite, fval. rewrite E.
    split; [done|]. by rewrite Hv.
Qed.

(** The order of exact integers is that of their floats. *)
Lemma leb_fval x y : f64_finite x = true -> f64_finite y = true -> f64_nonneg x = true -> f64_nonneg y = true ->
  PrimFloat.leb x y = true -> fval x <= fval y.
Proof.
  rewrite FloatAxioms.leb_spec. unfold f64_finite, f64_nonneg, fval.
  destruct (sf x) as [sx|sx| |[] mx ex] eqn:Ex, (sf y) as [sy|sy| |[] my ey] eqn:Ey; try done; intros _ _ _ _ Hle.
  - destruct (canonical_facts my ey (bounded_sf _ _ _ _ Ey)) as (Hey & _ & _). unfold scaled.
    apply Z.mul_nonneg_nonneg; [lia|apply Z.pow_nonneg; lia].
  - pose proof (bounded_sf _ _ _ _ Ex) as Bx. pose proof (bounded_sf _ _ _ _ Ey) as By.
    destruct (canonical_facts mx ex Bx) as (Hex & _ & _). destruct (canonical_facts my ey By) as (Hey & _ & _).
    pose proof (aligned_le mx ex my ey Bx By Hle) as H. rewrite !shl_align_value in H by lia.
    replace (scaled (Zpos mx) ex) with (scaled (Zpos mx * 2 ^ (ex - Z.min ey ex)) (Z.min ey ex))
      by (rewrite scaled_shift by lia; f_equal; lia).
    replace (scaled (Zpos my) ey) with (scaled (Zpos my * 2 ^ (ey - Z.min ey ex)) (Z.min ey ex))
      by (rewrite scaled_shift by lia; f_equal; lia).
    apply scaled_mono; [lia|done].
Qed.

(** ** Rounding from above: results below a power of two *)

Definition at_most (k : Z) (x : spec_float) : Prop :=
  match x with
  | S754_zero _ => True
  | S754_finite _ m e => e <= k /\ Zpos m <= 2 ^ (k - e)
  | _ => False
  end.

Notation at_most_one := (at_most 0).

Lemma digits_below m n : 0 <= m -> 0 <= n -> m < 2 ^ n -> Zdigits2 m <= n.
Proof.
  intros Hm Hn H. destruct (Z.eq_dec m 0) as [->|Hne]; [cbn; lia|].
  destruct (Zdigits2_bounds m ltac:(lia)) as [HD [HB _]]. destruct (Z.le_gt_cases (Zdigits2 m) n); [done|].
  assert (2 ^ n <= 2 ^ (Zdigits2 m - 1)) by (apply Z.pow_le_mono_r; lia). lia.
Qed.

(** Rounding a value below a power of two gives at most that power. *)
Lemma round_aux_below k m e l s : -1000 <= k <= 900 -> 0 <= m -> e <= k -> m < 2 ^ (k - e) ->
  at_most k (binary_round_aux prec emax s m e l).
Proof.
  intros Hk Hm He Hlt. unfold binary_round_aux.
  pose proof (digits_below m (k - e) Hm ltac:(lia) Hlt) as HD.
  pose proof (shr_fexp_floor m e l Hm) as [E1 E1']. destruct (shr_fexp prec emax m e l) as [r1 e1].
  cbn [fst snd] in *. subst e1. set (j := shift_of m e) in *.
  assert (0 <= j /\ e + j <= k) as [Hj He1] by (unfold j, shift_of; rewrite fexp_value; lia).
  assert (0 <= shr_m r1 < 2 ^ (k - (e + j))) as Hq.
  { rewrite E1. pose proof (pow2_pos j Hj). split; [by apply Z.div_pos|]. apply Z.div_lt_upper_bound; [done|].
    rewrite <- Z.pow_add_r by lia. by replace (j + (k - (e + j))) with (k - e) by lia. }
  pose proof (round_even_bounds (shr_m r1) (loc_of_shr_record r1)) as Hr. set (q := round_nearest_even _ _) in *.
  set (e1 := e + j) in *. assert (0 <= q <= 2 ^ (k - e1)) as Hq' by lia.
  assert (Zdigits2 q <= k - e1 + 1) as HD'.
  { apply digits_below; [lia|lia|]. replace (k - e1 + 1) with (Z.succ (k - e1)) by lia. rewrite Z.pow_succ_r by lia.
    pose proof (pow2_pos (k - e1) ltac:(lia)). lia. }
  pose proof (shr_fexp_floor q e1 loc_Exact ltac:(lia)) as [E2 E2'].
  destruct (shr_fexp prec emax q e1 loc_Exact) as [r2 e2]. cbn [fst snd] in *. subst e2. set (j2 := shift_of q e1) in *.
  assert (0 <= j2 /\ e1 + j2 <= k) as [Hj2 He2] by (unfold j2, shift_of; rewrite fexp_value; lia).
  assert (0 <= shr_m r2 <= 2 ^ (k - (e1 + j2))) as Hq2.
  { rewrite E2. pose proof (pow2_pos j2 Hj2). split; [apply Z.div_pos; lia|]. apply Z.div_le_upper_bound; [done|].
    rewrite <- Z.pow_add_r by lia. replace (j2 + (k - (e1 + j2))) with (k - e1) by lia. lia. }
  change (emax - prec) with 971. destruct (shr_m r2) as [|p|p]; try lia; [done|].
  rewrite (proj2 (Z.leb_le _ _)) by lia. split; [done|lia].
Qed.

Lemma round_aux_upper m e l s : 0 <= m -> e <= 0 -> m < 2 ^ (- e) ->
  at_most_one (binary_round_aux prec emax s m e l).
Proof. intros Hm He Hlt. by apply (round_aux_below 0). Qed.

Lemma compare_cont_Eq a b : Pos.compare_cont Eq a b = Pos.compare a b.
Proof. reflexivity. Qed.

Lemma leb_one_of x : f64_nonneg x = true -> at_most_one (sf x) -> PrimFloat.leb x one = true.
Proof.
  rewrite FloatAxioms.leb_spec. change (sf one) with (S754_finite false 4503599627370496 (-52)).
  unfold f64_nonneg. destruct (sf x) as [sx|sx| |[] m e] eqn:Ex; cbn [at_most]; try done.
  intros _ [He Hm]. change (0 - e) with (- e) in Hm. destruct (canonical_facts m e (bounded_sf _ _ _ _ Ex)) as (_ & _ & Hc).
  unfold SFleb, SFcompare. destruct (Z.compare_spec e (-52)) as [-> |H|H]; [|done|].
  - rewrite compare_cont_Eq. change (2 ^ (- -52)) with 4503599627370496 in Hm.
    destruct (Pos.compare_spec m 4503599627370496) as [H|H|H]; [done|done|]. lia.
  - exfalso. specialize (Hc ltac:(lia)). assert (2 ^ (- e) <= 2 ^ 51) by (apply Z.pow_le_mono_r; lia).
    change (2 ^ 51) with 2251799813685248 in *. change (2 ^ 52) with 4503599627370496 in *. lia.
Qed.

Lemma finite_of_at_most x : at_most_one (sf x) -> f64_finite x = true.
Proof. unfold f64_finite. by destruct (sf x). Qed.

(** ** A quotient of at most one *)

Lemma div_by_itself m e : bounded prec emax m e = true ->
  SF64div (S754_finite false m e) (S754_finite false m e) = sf one.
Proof.
  intros _. unfold SF64div, SFdiv, SFdiv_core_binary.
  replace (Zdigits2 (Zpos m) + e - (Zdigits2 (Zpos m) + e)) with 0 by lia.
  change (F 0) with (-53). replace (e - e) with 0 by lia. change (Z.min (-53) 0) with (-53).
  change (0 - -53) with 53. cbv iota.
  assert (Z.div_eucl (Z.shiftl (Zpos m) 53) (Zpos m) = (2 ^ 53, 0)) as ->.
  { rewrite Z.shiftl_mul_pow2 by lia. pose proof (Z_div_mult (2 ^ 53) (Zpos m) ltac:(lia)) as Hd.
    pose proof (Z_mod_mult (2 ^ 53) (Zpos m)) as Hr. rewrite Z.mul_comm in Hd, Hr. unfold Z.div, Z.modulo in Hd, Hr.
    destruct (Z.div_eucl _ _). by subst. }
  unfold new_location, new_location_even, new_location_odd. cbn [Z.eqb xorb].
  destruct (Z.even (Zpos m)); reflexivity.
Qed.

Lemma digits_scaled_le m1 e1 m2 e2 :
  Zpos m1 * 2 ^ (e1 - Z.min e1 e2) < Zpos m2 * 2 ^ (e2 - Z.min e1 e2) ->
  Zdigits2 (Zpos m1) + e1 <= Zdigits2 (Zpos m2) + e2.
Proof.
  intros H. destruct (Zdigits2_bounds (Zpos m1) ltac:(lia)) as [D1 [L1 _]].
  destruct (Zdigits2_bounds (Zpos m2) ltac:(lia)) as [D2 [_ U2]].
  set (d1 := Zdigits2 (Zpos m1)) in *. set (d2 := Zdigits2 (Zpos m2)) in *. set (a := e1 - Z.min e1 e2) in *.
  set (b := e2 - Z.min e1 e2) in *. assert (0 <= a /\ 0 <= b) as [Ha Hb] by lia.
  enough (2 ^ (d1 - 1 + a) < 2 ^ (d2 + b)) as Hp by (apply Z.pow_lt_mono_r_iff in Hp; lia).
  rewrite !Z.pow_add_r by lia. pose proof (pow2_pos a Ha). pose proof (pow2_pos b Hb). nia.
Qed.

(** The core of the division, for a quotient below one. *)
Lemma div_core_below m1 e1 m2 e2 :
  Zpos m1 * 2 ^ (e1 - Z.min e1 e2) < Zpos m2 * 2 ^ (e2 - Z.min e1 e2) ->
  let '(q, e, _) := SFdiv_core_binary prec emax (Zpos m1) e1 (Zpos m2) e2 in 0 <= q < 2 ^ (- e) /\ e <= 0.
Proof.
  intros H. pose proof (digits_scaled_le m1 e1 m2 e2 H) as HD. unfold SFdiv_core_binary.
  set (e' := Z.min (F _) (e1 - e2)).
  assert (e' <= 0 /\ 0 <= e1 - e2 - e') as [He' Hs].
  { unfold e'. rewrite fexp_value. lia. }
  assert (match e1 - e2 - e' with Zpos _ => Z.shiftl (Zpos m1) (e1 - e2 - e') | Z0 => Zpos m1 | Zneg _ => 0 end
    = Zpos m1 * 2 ^ (e1 - e2 - e')) as ->.
  { destruct (e1 - e2 - e') eqn:E; [by rewrite Z.mul_1_r| |lia]. by rewrite Z.shiftl_mul_pow2 by lia. }
  assert (Zpos m1 * 2 ^ (e1 - e2 - e') < Zpos m2 * 2 ^ (- e')) as Hlt.
  { apply (Z.mul_lt_mono_pos_r (2 ^ (e2 - Z.min e1 e2))); [apply pow2_pos; lia|].
    rewrite <- !Z.mul_assoc, <- !Z.pow_add_r by lia.
    replace (e1 - e2 - e' + (e2 - Z.min e1 e2)) with (e1 - Z.min e1 e2 + - e') by lia.
    replace (- e' + (e2 - Z.min e1 e2)) with (e2 - Z.min e1 e2 + - e') by lia.
    rewrite !Z.pow_add_r, !Z.mul_assoc by lia. apply Z.mul_lt_mono_pos_r; [apply pow2_pos; lia|done]. }
  assert (0 <= Zpos m1 * 2 ^ (e1 - e2 - e')) as Hnn by (apply Z.mul_nonneg_nonneg; [lia|apply Z.pow_nonneg; lia]).
  pose proof (Z.div_pos _ (Zpos m2) Hnn ltac:(lia)) as Hq0.
  pose proof (Z.div_lt_upper_bound _ (Zpos m2) (2 ^ (- e')) ltac:(lia) Hlt) as Hq1.
  unfold Z.div in Hq0, Hq1. destruct (Z.div_eucl _ _) as [q r]. lia.
Qed.

Lemma f64_div_le_one x y : f64_finite x = true -> f64_nonneg x = true -> f64_finite y = true ->
  PrimFloat.ltb zero y = true -> PrimFloat.leb x y = true ->
  at_most_one (sf (x / y)%float) \/ (x / y)%float = one.
Proof.
  intros Fx Hx Fy Hy Hle. rewrite ltb_spec in Hy. change (sf zero) with (S754_zero false) in Hy.
  rewrite FloatAxioms.leb_spec in Hle. unfold f64_finite, f64_nonneg in *.
  destruct (sf y) as [sy|sy| |[] my ey] eqn:Ey; try done.
  destruct (sf x) as [sx|sx| |[] mx ex] eqn:Ex; try done.
  - left. rewrite div_spec, Ex, Ey. done.
  - pose proof (bounded_sf _ _ _ _ Ex) as Bx. pose proof (bounded_sf _ _ _ _ Ey) as By.
    pose proof (aligned_le mx ex my ey Bx By Hle) as Ha. rewrite !shl_align_value in Ha by lia.
    rewrite Z.min_comm in Ha. apply Z.le_lteq in Ha as [Hlt|Heq].
    + left. rewrite div_spec, Ex, Ey. unfold SF64div, SFdiv. pose proof (div_core_below mx ex my ey Hlt) as Hc.
      destruct (SFdiv_core_binary prec emax (Zpos mx) ex (Zpos my) ey) as [[q e] l].
      apply round_aux_upper; lia.
    + right. apply Prim2SF_inj. rewrite div_spec, Ex, Ey.
      assert (ex = ey) as ->.
      { destruct (Z.lt_trichotomy ex ey) as [H|[H|H]]; [exfalso|done|exfalso].
        - pose proof (canonical_lt _ _ _ _ Bx By H). rewrite Z.min_l, Z.sub_diag, Z.mul_1_r in Heq by lia. lia.
        - pose proof (canonical_lt _ _ _ _ By Bx H). rewrite Z.min_r, Z.sub_diag, Z.mul_1_r in Heq by lia. lia. }
      rewrite Z.min_id, Z.sub_diag, !Z.mul_1_r in Heq. injection Heq as ->. by apply div_by_itself.
Qed.

(** ** What is left of one *)

Lemma binary_round_upper p e : e <= 0 -> Zpos p < 2 ^ (- e) -> at_most_one (binary_round prec emax false p e).
Proof.
  intros He Hlt. unfold binary_round. set (e' := F _).
  assert (Zpos (digits2_pos p) <= - e) as HD by (apply (digits_below (Zpos p)); lia).
  assert (e' <= 0) as He' by (unfold e'; rewrite fexp_value; lia).
  destruct (Z.le_gt_cases e' e) as [Hc|Hc].
  - pose proof (shl_align_value p e e' Hc) as Hv.
    assert (snd (shl_align p e e') = e') as Hs by (unfold shl_align; destruct (e' - e) eqn:Ed; cbn; lia).
    destruct (shl_align p e e') as [p' e2]. cbn [fst snd] in *. subst e2. apply round_aux_upper; [lia|done|]. rewrite Hv.
    replace (2 ^ (- e')) with (2 ^ (- e) * 2 ^ (e - e')) by (rewrite <- Z.pow_add_r by lia; f_equal; lia).
    apply Z.mul_lt_mono_pos_r; [apply pow2_pos; lia|done].
  - assert (shl_align p e e' = (p, e)) as -> by (unfold shl_align; destruct (e' - e) eqn:Ed; [done|done|lia]).
    by apply round_aux_upper.
Qed.

Lemma f64_one_minus x : f64_finite x = true -> f64_nonneg x = true -> PrimFloat.leb x one = true ->
  f64_finite (one - x)%float = true /\ f64_nonneg (one - x)%float = true.
Proof.
  intros Fx Hx Hle. split; [|by apply f64_sub_nonneg]. unfold f64_finite. rewrite sub_spec.
  change (sf one) with (S754_finite false 4503599627370496 (-52)).
  unfold f64_finite, f64_nonneg in *. rewrite FloatAxioms.leb_spec in Hle.
  change (sf one) with (S754_finite false 4503599627370496 (-52)) in Hle.
  destruct (sf x) as [sx|sx| |[] m e] eqn:Ex; try done.
  pose proof (bounded_sf _ _ _ _ Ex) as Bx. destruct (canonical_facts m e Bx) as (He & _ & _).
  assert (bounded prec emax 4503599627370496 (-52) = true) as B1 by reflexivity.
  pose proof (aligned_le m e _ _ Bx B1 Hle) as Ha.
  assert (e <= -52) as Hle52.
  { unfold SFleb, SFcompare in Hle. destruct (Z.compare_spec e (-52)); [lia|lia|done]. }
  unfold SF64sub, SFsub, cond_Zopp. rewrite Z.min_r in Ha |- * by lia.
  rewrite !shl_align_value in Ha |- * by lia. rewrite Z.sub_diag, Z.mul_1_r in Ha |- *.
  replace (4503599627370496 * 2 ^ (-52 - e)) with (2 ^ (- e)) in *
    by (change 4503599627370496 with (2 ^ 52); rewrite <- Z.pow_add_r by lia; f_equal; lia).
  destruct (2 ^ (- e) - Zpos m) as [|p|p] eqn:Ep; [done| |lia]. cbn [binary_normalize].
  pose proof (binary_round_upper p e ltac:(lia) ltac:(lia)) as Hu.
  by destruct (binary_round prec emax false p e).
Qed.

(** ** Sums that may leave the finite range *)

(** [x] is an upper bound of the scaled value [v]. *)
Definition holds (v : Z) (x : f64) : Prop := f64_nonneg x = true /\ (f64_finite x = true -> v <= fval x).

Lemma not_finite_inf x : f64_nonneg x = true -> f64_finite x = false -> sf x = S754_infinity false.
Proof. unfold f64_nonneg, f64_finite. by destruct (sf x) as [|[]| |]. Qed.

Lemma fval_nonneg x : 0 <= fval x.
Proof.
  unfold fval. destruct (sf x) as [| | |[] m e] eqn:E; try done.
  destruct (canonical_facts m e (bounded_sf _ _ _ _ E)) as (He & _ & _). unfold scaled.
  apply Z.mul_nonneg_nonneg; [lia|apply Z.pow_nonneg; lia].
Qed.

Lemma holds_zero x : f64_nonneg x = true -> holds 0 x.
Proof. split; [done|]. intros _. apply fval_nonneg. Qed.

Lemma holds_of_leb x y : f64_finite x = true -> f64_nonneg x = true -> f64_nonneg y = true ->
  PrimFloat.leb x y = true -> holds (fval x) y.
Proof. intros Fx Nx Ny H. split; [done|]. intros Fy. by apply leb_fval. Qed.

Lemma leb_infinity z y : f64_finite z = true -> sf y = S754_infinity false -> PrimFloat.leb z y = true.
Proof. intros Fz E. rewrite FloatAxioms.leb_spec, E. unfold f64_finite in Fz. by destruct (sf z) as [| | |[]]. Qed.

(** A float below the sum of the bounds is below the rounded sum. *)
Lemma sum_holds x y a b z : holds a x -> holds b y -> f64_finite z = true -> f64_nonneg z = true ->
  fval z <= a + b -> PrimFloat.leb z (x + y)%float = true.
Proof.
  intros [Nx Hx] [Ny Hy] Fz Nz Hle.
  destruct (f64_finite x) eqn:Fx, (f64_finite y) eqn:Fy.
  - apply f64_add_lower; try done. specialize (Hx eq_refl). specialize (Hy eq_refl). lia.
  - apply leb_infinity; [done|]. rewrite add_spec, (not_finite_inf y) by done.
    unfold f64_finite in Fx. by destruct (sf x) as [[]| | |[]].
  - apply leb_infinity; [done|]. rewrite add_spec, (not_finite_inf x) by done.
    unfold f64_finite in Fy. by destruct (sf y) as [[]| | |[]].
  - apply leb_infinity; [done|]. by rewrite add_spec, (not_finite_inf x), (not_finite_inf y).
Qed.

(** An [int64] above the exact range is still at least every exact integer
    below it. *)
Lemma of_Z_holds l n : 0 < l < 2 ^ 53 -> l <= n <= max_int64 -> holds (l * 2 ^ 1074) (f64_of_Z n).
Proof.
  intros Hl Hn. split; [apply f64_of_Z_nonneg; lia|]. intros Fn.
  destruct (f64_of_Z_exact l Hl) as (m & e & E & Hv & He). pose proof (bounded_sf _ _ _ _ E) as B.
  unfold fval. unfold f64_finite in Fn. rewrite f64_of_Z_sf in * by lia. destruct n as [|p|p]; try lia.
  cbn [binary_normalize] in *. change (l * 2 ^ 1074) with (scaled l 0). rewrite <- Hv.
  assert (scaled (Zpos m) e <= scaled (Zpos p) 0) as Hle by (rewrite Hv; apply scaled_mono; lia).
  pose proof (binary_round_lower p 0 m e ltac:(lia) B Hle) as H.
  by destruct (binary_round prec emax false p 0) as [|[]| |[]]; try done; apply H.
Qed.

(** Additions against an integer bound: if [x] is at least the integer [c] and
    the rounded [x + n] is at most [l], then [c + n <= l]. *)
Lemma int_sum_bound x c n l : 0 <= c < 2 ^ 53 -> 0 <= n <= max_int64 -> 0 <= l < 2 ^ 53 - 1 ->
  holds (c * 2 ^ 1074) x -> PrimFloat.ltb (f64_of_Z l) (x + f64_of_Z n)%float = false -> c + n <= l.
Proof.
  intros Hc Hn Hl Hx Hle. destruct (Z.le_gt_cases (c + n) l) as [|Hgt]; [done|exfalso].
  destruct (f64_of_Z_fval (l + 1) ltac:(lia)) as [Fz Ez]. destruct (f64_of_Z_fval l ltac:(lia)) as [Fl El].
  assert (2 ^ 53 <= max_int64 + 1) as Hmax by done.
  assert (f64_nonneg (f64_of_Z (l + 1)) = true) as Nz by (apply f64_of_Z_nonneg; lia).
  assert (f64_nonneg (f64_of_Z l) = true) as Nl by (apply f64_of_Z_nonneg; lia).
  assert (f64_nonneg (f64_of_Z n) = true) as Nn by (apply f64_of_Z_nonneg; lia).
  assert (0 < 2 ^ 1074) as Hp by done.
  assert (PrimFloat.leb (f64_of_Z (l + 1)) (x + f64_of_Z n)%float = true) as Hz.
  { destruct (Z.le_gt_cases (l + 1) n) as [Hbig|Hsm].
    - eapply (sum_holds _ _ 0 ((l + 1) * 2 ^ 1074)); [apply holds_zero, Hx|apply of_Z_holds; lia|done|done|lia].
    - destruct (f64_of_Z_fval n ltac:(lia)) as [Fn En].
      eapply (sum_holds _ _ _ (n * 2 ^ 1074)); [exact Hx| |done|done|nia].
      split; [done|]. intros _. lia. }
  assert (f64_nonneg (x + f64_of_Z n)%float = true) as Ns by (apply f64_add_nonneg; [apply Hx|done]).
  apply ltb_false_leb in Hle; [|by apply f64_nonneg_not_nan..].
  assert (f64_finite (x + f64_of_Z n)%float = true) as Fs.
  { destruct (f64_finite (x + _)%float) eqn:Fs; [done|]. apply not_finite_inf in Fs; [|done].
    rewrite FloatAxioms.leb_spec, Fs in Hle. unfold f64_finite in Fl. by destruct (sf (f64_of_Z l)) as [| | |[]]. }
  apply leb_fval in Hle; [|done..]. apply leb_fval in Hz; [|done..]. nia.
Qed.

Lemma of_Z_leb a b : 0 <= a <= b -> b < 2 ^ 53 -> PrimFloat.leb (f64_of_Z a) (f64_of_Z b) = true.
Proof.
  intros Ha Hb. assert (2 ^ 53 <= max_int64) as Hmax by done.
  destruct (f64_of_Z_fval b ltac:(lia)) as [Fb Eb]. destruct (f64_of_Z_fval a ltac:(lia)) as [Fa Ea].
  assert (f64_nonneg (f64_of_Z b) = true) as Nb by (apply f64_of_Z_nonneg; lia).
  destruct (Z.eq_dec a 0) as [->|Hne].
  - change (f64_of_Z 0) with zero. by rewrite leb_zero_nonneg.
  - destruct (f64_of_Z_exact a ltac:(lia)) as (m & e & E & Hv & _). apply (leb_of_values _ _ m e E).
    destruct (f64_of_Z_exact b ltac:(lia)) as (m' & e' & E' & Hv' & He'). rewrite E'. split; [lia|].
    rewrite Hv, Hv'. apply scaled_mono; lia.
Qed.

(** [1 - a/b] for integers [0 <= a <= b] is a finite weight. *)
Lemma weight_ok a b : 0 <= a <= b -> 0 < b < 2 ^ 53 ->
  f64_finite (one - f64_of_Z a / f64_of_Z b)%float = true /\
  f64_nonneg (one - f64_of_Z a / f64_of_Z b)%float = true.
Proof.
  intros Ha Hb. assert (2 ^ 53 <= max_int64) as Hmax by done.
  destruct (f64_of_Z_fval a ltac:(lia)) as [Fa _]. destruct (f64_of_Z_fval b ltac:(lia)) as [Fb _].
  assert (f64_nonneg (f64_of_Z a) = true) as Na by (apply f64_of_Z_nonneg; lia).
  assert (PrimFloat.ltb zero (f64_of_Z b) = true) as Pb.
  { destruct (f64_of_Z_exact b Hb) as (m & e & E & _). by rewrite ltb_spec, E. }
  assert (f64_nonneg (f64_of_Z a / f64_of_Z b)%float = true) as Nq by (by apply f64_div_nonneg).
  destruct (f64_div_le_one _ _ Fa Na Fb Pb (of_Z_leb a b Ha ltac:(lia))) as [Hq| ->].
  - apply f64_one_minus; [by apply finite_of_at_most|done|by apply leb_one_of].
  - done.
Qed.

(** ** Every [int64] is finite *)

Lemma round_aux_finite m e l : 0 <= m < 2 ^ 63 -> e <= 0 ->
  match binary_round_aux prec emax false m e l with S754_infinity _ => False | _ => True end.
Proof.
  intros Hm He. unfold binary_round_aux. pose proof (digits_below m 63 ltac:(lia) ltac:(lia) ltac:(lia)) as HD.
  pose proof (shr_fexp_floor m e l ltac:(lia)) as [E1 E1']. destruct (shr_fexp prec emax m e l) as [r1 e1].
  cbn [fst snd] in *. subst e1. set (k := shift_of m e) in *.
  assert (0 <= k /\ e + k <= 10) as [Hk He1] by (unfold k, shift_of; rewrite fexp_value; lia).
  assert (0 <= shr_m r1 < 2 ^ 63) as Hq.
  { rewrite E1. pose proof (pow2_pos k Hk). split; [apply Z.div_pos; lia|]. apply Z.div_lt_upper_bound; [done|nia]. }
  pose proof (round_even_bounds (shr_m r1) (loc_of_shr_record r1)) as Hr. set (q := round_nearest_even _ _) in *.
  assert (Zdigits2 q <= 64) as HD' by (apply digits_below; lia).
  pose proof (shr_fexp_floor q (e + k) loc_Exact ltac:(lia)) as [E2 E2'].
  destruct (shr_fexp prec emax q (e + k) loc_Exact) as [r2 e2]. cbn [fst snd] in *. subst e2.
  assert (e + k + shift_of q (e + k) <= 21) by (unfold shift_of; rewrite fexp_value; lia).
  change (emax - prec) with 971. destruct (shr_m r2); [done| |done]. by rewrite (proj2 (Z.leb_le _ _)) by lia.
Qed.

Lemma of_Z_finite z : 0 <= z <= max_int64 -> f64_finite (f64_of_Z z) = true.
Proof.
  intros Hz. destruct (Z.lt_ge_cases z (2 ^ 53)) as [Hs|Hs]; [apply f64_of_Z_fval; lia|].
  pose proof (f64_of_Z_nonneg z Hz) as Hn. unfold f64_finite, f64_nonneg in *. rewrite f64_of_Z_sf in * by done.
  destruct z as [|p|p]; try lia. cbn [binary_normalize] in *. unfold binary_round in *.
  assert (1 <= F (Zpos (digits2_pos p) + 0)) as He.
  { rewrite fexp_value. pose proof (digits2_pos_bounds p) as [_ Hb].
    destruct (Z.lt_ge_cases 53 (Zpos (digits2_pos p))); [lia|].
    assert (2 ^ Zpos (digits2_pos p) <= 2 ^ 53) by (apply Z.pow_le_mono_r; lia). lia. }
  set (e' := F _) in *.
  assert (shl_align p 0 e' = (p, 0)) as Ea by (unfold shl_align; destruct (e' - 0) eqn:Ed; [done|done|lia]).
  rewrite Ea in *. pose proof (round_aux_finite (Zpos p) 0 loc_Exact ltac:(unfold max_int64 in *; lia) ltac:(lia)) as H.
  by destruct (binary_round_aux _ _ _ _ _ _).
Qed.

Lemma of_Z_pos z : 0 < z <= max_int64 -> PrimFloat.ltb zero (f64_of_Z z) = true.
Proof.
  intros Hz. pose proof (of_Z_finite z ltac:(lia)) as Hf. destruct (of_Z_holds 1 z ltac:(lia) ltac:(lia)) as [Hn Hv].
  specialize (Hv Hf). rewrite ltb_spec. change (sf zero) with (S754_zero false).
  unfold f64_finite, f64_nonneg, fval in *. by destruct (sf (f64_of_Z z)) as [| | |[]].
Qed.
