(* ===== verification/Float64Exact.v ===== *)
(** * Integers in [float64]

    Which results of the arithmetic are exact, and that sums and products of
    integers stay integers when they are rounded.  A script that keeps its
    state in doubles and one that prints the same state as an [int64] agree
    because of these lemmas. *)

From Stdlib Require Import Floats.
From S2P Require Import Prelude Float64 Float64Round.
Open Scope Z_scope.

(** [x] is the exact non-negative integer [z]. *)
Definition exact_int (x : f64) (z : Z) : Prop :=
  match sf x with
  | S754_zero false => z = 0
  | S754_finite false m e => scaled (Zpos m) e = scaled z 0
  | _ => False
  end.

(** Some double has the value [z]. *)
Definition representable (z : Z) : Prop :=
  exists m e, bounded prec emax m e = true /\ scaled (Zpos m) e = scaled z 0.

(** ** Uniqueness *)

Lemma scaled_inj z z' e : -1074 <= e -> scaled z e = scaled z' e -> z = z'.
Proof. intros He H. unfold scaled in H. pose proof (pow2_pos (e + 1074) ltac:(lia)). nia. Qed.

Lemma scaled_order e1 m2 e2 : -1074 <= e1 -> e1 <= e2 ->
  scaled m2 e2 = scaled (m2 * 2 ^ (e2 - e1)) e1.
Proof. intros. rewrite scaled_shift by lia. f_equal. lia. Qed.

(** The position of the leading digit depends on the value only. *)
Lemma digits_of_value m1 e1 m2 e2 : 0 < m1 -> 0 < m2 -> -1074 <= e1 -> -1074 <= e2 ->
  scaled m1 e1 = scaled m2 e2 -> Zdigits2 m1 + e1 = Zdigits2 m2 + e2.
Proof.
  assert (forall m1 e1 m2 e2, 0 < m1 -> 0 < m2 -> -1074 <= e1 <= e2 ->
    scaled m1 e1 = scaled m2 e2 -> Zdigits2 m1 + e1 = Zdigits2 m2 + e2) as H.
  { intros a d b e Ha Hb He Heq. rewrite (scaled_order d b e) in Heq by lia.
    apply scaled_inj in Heq; [|lia]. subst a. destruct (Zdigits2_bounds b Hb) as [Hd HB].
    rewrite (Zdigits2_unique _ (Zdigits2 b + (e - d))); [lia|lia|].
    replace (Zdigits2 b + (e - d) - 1) with (Zdigits2 b - 1 + (e - d)) by lia.
    rewrite !Z.pow_add_r by lia. pose proof (pow2_pos (e - d) ltac:(lia)). nia. }
  intros H1 H2 He1 He2 Heq. destruct (Z.le_ge_cases e1 e2); [by apply H|]. symmetry. by apply H.
Qed.

Lemma bounded_fexp m e : bounded prec emax m e = true -> F (Zdigits2 (Zpos m) + e) = e /\ e <= 971.
Proof.
  unfold bounded, canonical_mantissa. rewrite andb_true_iff, Z.eqb_eq, Z.leb_le. cbn [Zdigits2].
  change (emax - prec) with 971. done.
Qed.

Lemma canonical_unique m e m' e' : bounded prec emax m e = true -> bounded prec emax m' e' = true ->
  scaled (Zpos m) e = scaled (Zpos m') e' -> m = m' /\ e = e'.
Proof.
  intros B B' H. destruct (canonical_facts m e B) as (He & _). destruct (canonical_facts m' e' B') as (He' & _).
  assert (e = e') as <-.
  { rewrite <- (proj1 (bounded_fexp m e B)), <- (proj1 (bounded_fexp m' e' B')). f_equal.
    by apply digits_of_value. }
  apply scaled_inj in H; [|done]. split; congruence.
Qed.

Lemma exact_int_inj x y z : exact_int x z -> exact_int y z -> x = y.
Proof.
  intros Hx Hy. apply Prim2SF_inj. unfold exact_int in *.
  destruct (sf x) as [[]|?| |[] m e] eqn:Ex, (sf y) as [[]|?| |[] m' e'] eqn:Ey; try done.
  - subst z. destruct (canonical_facts m' e' (bounded_sf _ _ _ _ Ey)) as (He & _).
    unfold scaled in Hy. pose proof (pow2_pos (e' + 1074) ltac:(lia)). nia.
  - subst z. destruct (canonical_facts m e (bounded_sf _ _ _ _ Ex)) as (He & _).
    unfold scaled in Hx. pose proof (pow2_pos (e + 1074) ltac:(lia)). nia.
  - destruct (canonical_unique m e m' e') as [-> ->]; [by eapply bounded_sf..|congruence|done].
Qed.

Lemma exact_int_value x z z' : exact_int x z -> exact_int x z' -> z = z'.
Proof.
  unfold exact_int. destruct (sf x) as [[]|?| |[] m e]; try done; [congruence|].
  intros H H'. rewrite H in H'. by apply scaled_inj in H'.
Qed.

Lemma exact_int_nonneg x z : exact_int x z -> 0 <= z.
Proof.
  unfold exact_int. destruct (sf x) as [[]|?| |[] m e] eqn:E; try done; [lia|]. intros H.
  destruct (canonical_facts m e (bounded_sf _ _ _ _ E)) as (He & _).
  unfold scaled in H. pose proof (pow2_pos (e + 1074) ltac:(lia)). change (0 + 1074) with 1074 in H.
  pose proof (pow2_pos 1074 ltac:(lia)). nia.
Qed.

Lemma exact_int_facts x z : exact_int x z ->
  f64_finite x = true /\ f64_nonneg x = true /\ fval x = z * 2 ^ 1074.
Proof.
  unfold exact_int, f64_finite, f64_nonneg, fval. destruct (sf x) as [[]|?| |[] m e] eqn:E; try done.
  by intros ->.
Qed.

(** ** Rounding an exact value *)

Lemma shr_1_double m : 0 < m -> shr_1 (Build_shr_record (2 * m) false false) = Build_shr_record m false false.
Proof. destruct m as [|p|p]; try done. Qed.

Lemma shr_exact n m : 0 < m ->
  SpecFloat.iter_pos shr_1 n (Build_shr_record (m * 2 ^ Zpos n) false false) = Build_shr_record m false false.
Proof.
  revert m. induction n as [n IH|n IH|]; intros m Hm; cbn [SpecFloat.iter_pos].
  - pose proof (pow2_pos (Zpos n)) as Hp. replace (m * 2 ^ Zpos n~1) with (2 * (m * 2 ^ Zpos n * 2 ^ Zpos n)).
    2: { rewrite (Pos2Z.inj_xI n), Z.pow_add_r, Z.pow_twice_r by lia. lia. }
    rewrite shr_1_double, IH, IH by nia. done.
  - pose proof (pow2_pos (Zpos n)) as Hp. replace (m * 2 ^ Zpos n~0) with (m * 2 ^ Zpos n * 2 ^ Zpos n).
    2: { rewrite (Pos2Z.inj_xO n), Z.pow_twice_r by lia. lia. }
    rewrite IH, IH by nia. done.
  - change (2 ^ 1) with 2. rewrite Z.mul_comm, shr_1_double by done. done.
Qed.

(** A mantissa with [k] trailing zeros too many is shifted to the canonical one. *)
Lemma round_aux_canonical m e k : bounded prec emax m e = true -> 0 <= k -> -1074 <= e - k ->
  binary_round_aux prec emax false (Zpos m * 2 ^ k) (e - k) loc_Exact = S754_finite false m e.
Proof.
  intros B Hk He. destruct (bounded_fexp m e B) as [HF Hmax].
  assert (forall j, 0 <= j -> -1074 <= e - j -> shr_fexp prec emax (Zpos m * 2 ^ j) (e - j) loc_Exact =
          (Build_shr_record (Zpos m) false false, e)) as Hs.
  { intros j Hj Hej. unfold shr_fexp.
    assert (Zdigits2 (Zpos m * 2 ^ j) + (e - j) = Zdigits2 (Zpos m) + e) as ->.
    { pose proof (pow2_pos j Hj). apply digits_of_value; [nia|done|done|lia|]. rewrite scaled_shift by lia. f_equal. lia. }
    rewrite HF. replace (e - (e - j)) with j by lia. unfold shr, shr_record_of_loc. destruct j as [|j|j]; [|cbn [fst snd]|lia].
    - by rewrite Z.mul_1_r, Z.sub_0_r.
    - rewrite shr_exact by done. f_equal. lia. }
  unfold binary_round_aux. rewrite Hs by done. cbn [shr_m loc_of_shr_record round_nearest_even].
  pose proof (Hs 0 ltac:(lia) ltac:(lia)) as H0. rewrite Z.mul_1_r, Z.sub_0_r in H0. rewrite H0. cbn [shr_m].
  change (emax - prec) with 971. by rewrite (proj2 (Z.leb_le e 971)) by lia.
Qed.

Lemma binary_round_canonical p d m e : bounded prec emax m e = true -> -1074 <= d ->
  scaled (Zpos p) d = scaled (Zpos m) e -> binary_round prec emax false p d = S754_finite false m e.
Proof.
  intros B Hd H. destruct (bounded_fexp m e B) as [HF _]. destruct (canonical_facts m e B) as (He & _).
  assert (Zpos (digits2_pos p) + d = Zdigits2 (Zpos m) + e) as HD by (by apply (digits_of_value (Zpos p) d (Zpos m) e)).
  unfold binary_round. rewrite HD, HF. destruct (Z.le_gt_cases e d) as [Hle|Hgt].
  - pose proof (shl_align_value p d e Hle) as Hv.
    assert (snd (shl_align p d e) = e) as Hs by (unfold shl_align; destruct (e - d) eqn:Ed; cbn; lia).
    destruct (shl_align p d e) as [q j]. cbn [fst snd] in *. subst j.
    rewrite (scaled_order e (Zpos p) d) in H by lia. apply scaled_inj in H; [|done].
    rewrite Hv, H. pose proof (round_aux_canonical m e 0 B) as Hc.
    rewrite Z.mul_1_r, Z.sub_0_r in Hc. apply Hc; lia.
  - unfold shl_align. destruct (e - d) eqn:Ed; [lia| |lia].
    rewrite (scaled_order d (Zpos m) e) in H by lia. apply scaled_inj in H; [|done].
    rewrite H. replace d with (e - (e - d)) at 2 by lia. apply round_aux_canonical; [done|lia..].
Qed.

Lemma normalize_exact m e z : -1074 <= e -> 0 <= m -> scaled m e = scaled z 0 -> (z = 0 \/ representable z) ->
  match binary_normalize prec emax m e false with
  | S754_zero false => z = 0
  | S754_finite false m' e' => scaled (Zpos m') e' = scaled z 0
  | _ => False
  end.
Proof.
  intros He Hm H Hz. destruct m as [|p|p]; [|cbn [binary_normalize]|lia].
  - cbn. unfold scaled in H. pose proof (pow2_pos 1074 ltac:(lia)). change (0 + 1074) with 1074 in H. nia.
  - destruct Hz as [-> |(m' & e' & B & Hv)].
    + unfold scaled in H. pose proof (pow2_pos (e + 1074) ltac:(lia)). nia.
    + rewrite (binary_round_canonical p e m' e'); [done..|congruence].
Qed.

(** ** Rounding an integer gives an integer *)

(** An integer, or too large to be finite. *)
Definition int_or_inf (x : spec_float) : Prop :=
  match x with
  | S754_zero false => True
  | S754_finite false m e => -1074 <= e /\ exists z, scaled (Zpos m) e = scaled z 0
  | S754_infinity false => True
  | _ => False
  end.

Lemma small_representable z : 0 < z < 2 ^ 53 -> representable z.
Proof.
  intros Hz. destruct (f64_of_Z_exact z Hz) as (m & e & E & Hv & _). exists m, e.
  split; [by eapply bounded_sf|done].
Qed.

(** [z * 2^k] with 53 digits of [z], a timestamp of whole multiples of [2^k]. *)
Lemma shifted_representable z k : 0 < z < 2 ^ 53 -> 0 <= k <= 900 -> representable (z * 2 ^ k).
Proof.
  intros Hz Hk. destruct (f64_of_Z_exact z Hz) as (m & e & E & Hv & He). pose proof (bounded_sf _ _ _ _ E) as B.
  exists m, (e + k). destruct (bounded_fexp m e B) as [HF _]. destruct (canonical_facts m e B) as (_ & _ & Hc). split.
  - unfold bounded, canonical_mantissa. apply andb_true_iff. rewrite Z.eqb_eq, Z.leb_le.
    change (emax - prec) with 971. split; [|lia]. rewrite fexp_value in HF |- *. cbn [Zdigits2] in HF. lia.
  - rewrite <- (scaled_shift (Zpos m) e k) by lia. unfold scaled in *. nia.
Qed.

Lemma large_exponent m e l : 0 < m -> -1074 <= e -> e <= F (Zdigits2 m + e) -> 0 <= F (Zdigits2 m + e) ->
  int_or_inf (binary_round_aux prec emax false m e l).
Proof.
  intros Hm He HF H0. unfold binary_round_aux. pose proof (shr_fexp_floor m e l ltac:(lia)) as [E1 E1'].
  destruct (shr_fexp prec emax m e l) as [r1 e1]. cbn [fst snd] in *.
  assert (0 <= e1) as He1 by (unfold shift_of in E1'; lia).
  assert (0 <= shr_m r1) as Hr1 by (rewrite E1; apply Z.div_pos; [lia|apply pow2_pos; unfold shift_of; lia]).
  pose proof (round_even_bounds (shr_m r1) (loc_of_shr_record r1)) as Hr. set (q := round_nearest_even _ _) in *.
  pose proof (shr_fexp_floor q e1 loc_Exact ltac:(lia)) as [E2 E2'].
  destruct (shr_fexp prec emax q e1 loc_Exact) as [r2 e2]. cbn [fst snd] in *.
  assert (0 <= e2) as He2 by (unfold shift_of in E2'; lia).
  assert (0 <= shr_m r2) as Hr2 by (rewrite E2; apply Z.div_pos; [lia|apply pow2_pos; unfold shift_of; lia]).
  destruct (shr_m r2) as [|p|p] eqn:Ep; [done| |lia]. destruct (_ <=? _); [|done]. cbn. split; [lia|].
  exists (Zpos p * 2 ^ e2). rewrite scaled_shift by lia. done.
Qed.

Lemma binary_round_int p d z : -1074 <= d -> scaled (Zpos p) d = scaled z 0 -> int_or_inf (binary_round prec emax false p d).
Proof.
  intros Hd H. assert (0 < z) as Hz.
  { unfold scaled in H. pose proof (pow2_pos (d + 1074) ltac:(lia)). pose proof (pow2_pos 1074 ltac:(lia)).
    change (0 + 1074) with 1074 in H. nia. }
  destruct (Z.lt_ge_cases z (2 ^ 53)) as [Hs|Hl].
  - destruct (small_representable z ltac:(lia)) as (m & e & B & Hv). rewrite (binary_round_canonical p d m e) by (done || congruence).
    split; [by apply (canonical_facts m e)|by exists z].
  - assert (Zpos (digits2_pos p) + d = Zdigits2 z + 0) as HD by (by apply (digits_of_value (Zpos p) d z 0)).
    assert (53 < Zdigits2 z) as H53.
    { destruct (Zdigits2_bounds z Hz) as [_ [_ HB]]. destruct (Z.lt_ge_cases 53 (Zdigits2 z)); [done|].
      assert (2 ^ Zdigits2 z <= 2 ^ 53) by (apply Z.pow_le_mono_r; lia). lia. }
    unfold binary_round. rewrite HD. set (e' := F _). assert (e' = Zdigits2 z - 53) as He' by (unfold e'; rewrite fexp_value; lia).
    destruct (Z.le_gt_cases e' d) as [Hle|Hgt].
    + pose proof (shl_align_value p d e' Hle) as Hv.
      assert (snd (shl_align p d e') = e') as Hs by (unfold shl_align; destruct (e' - d) eqn:Ed; cbn; lia).
      destruct (shl_align p d e') as [q j]. cbn [fst snd] in *. subst j.
      assert (Zdigits2 (Zpos q) + e' = Zdigits2 z + 0) as HD'.
      { apply digits_of_value; [done..|lia|lia|]. rewrite Hv, <- H. symmetry. apply scaled_order; lia. }
      apply large_exponent; [done|lia|rewrite HD', fexp_value; lia..].
    + assert (shl_align p d e' = (p, d)) as -> by (unfold shl_align; destruct (e' - d) eqn:Ed; [done|done|lia]).
      cbn [fst snd]. apply large_exponent; [done|lia|..]; cbn [Zdigits2]; rewrite HD, fexp_value; lia.
Qed.

(** [x] is an integer or infinite. *)
Definition is_int (x : f64) : Prop := int_or_inf (sf x).

Lemma is_int_finite x : is_int x -> f64_finite x = true -> exists z, exact_int x z.
Proof.
  unfold is_int, int_or_inf, f64_finite, exact_int. destruct (sf x) as [[]|?| |[]]; try done; [by exists 0|].
  by intros [_ ?].
Qed.

Lemma exact_is_int x z : exact_int x z -> is_int x.
Proof.
  unfold is_int, int_or_inf, exact_int. destruct (sf x) as [[]|?| |[] m e] eqn:E; try done. intros H.
  split; [|by exists z]. by apply (canonical_facts m e (bounded_sf _ _ _ _ E)).
Qed.

Lemma of_Z_is_int z : 0 <= z <= max_int64 -> is_int (f64_of_Z z).
Proof.
  intros Hz. unfold is_int. rewrite f64_of_Z_sf by done. destruct z as [|p|p]; [done| |lia].
  cbn [binary_normalize]. by apply (binary_round_int p 0 (Zpos p)).
Qed.

Lemma of_Z_exact_int z : 0 <= z < 2 ^ 53 -> exact_int (f64_of_Z z) z.
Proof.
  intros Hz. unfold exact_int. destruct (Z.eq_dec z 0) as [->|Hne]; [done|].
  destruct (f64_of_Z_exact z ltac:(lia)) as (m & e & -> & Hv & _). done.
Qed.

(** ** Arithmetic on integers *)

(** The sum of two positive finite floats, on the smaller exponent. *)
Lemma aligned_sum m1 e1 m2 e2 : -1074 <= e1 -> -1074 <= e2 ->
  scaled (Zpos (fst (shl_align m1 e1 (Z.min e1 e2))) + Zpos (fst (shl_align m2 e2 (Z.min e1 e2)))) (Z.min e1 e2) =
  scaled (Zpos m1) e1 + scaled (Zpos m2) e2.
Proof.
  intros H1 H2. rewrite !shl_align_value by lia.
  rewrite (scaled_order (Z.min e1 e2) (Zpos m1) e1), (scaled_order (Z.min e1 e2) (Zpos m2) e2) by lia.
  unfold scaled. lia.
Qed.

Lemma add_is_int x y : is_int x -> is_int y -> is_int (x + y)%float.
Proof.
  unfold is_int. rewrite add_spec. unfold SF64add, SFadd.
  destruct (sf x) as [[]|[]| |[] m1 e1] eqn:Ex, (sf y) as [[]|[]| |[] m2 e2] eqn:Ey; try done.
  intros [H1 [z1 Hz1]] [H2 [z2 Hz2]]. unfold cond_Zopp. pose proof (aligned_sum m1 e1 m2 e2 H1 H2) as Hs.
  rewrite Hz1, Hz2 in Hs. destruct (_ + _) as [|p|p] eqn:Ep; cbn [binary_normalize]; [done| |lia].
  apply (binary_round_int p (Z.min e1 e2) (z1 + z2)); [lia|]. rewrite Hs. unfold scaled. lia.
Qed.

(** A product rounded with its exact mantissa, when a float has its value. *)
Lemma round_aux_value p d m e : bounded prec emax m e = true -> -1074 <= d <= e ->
  scaled (Zpos p) d = scaled (Zpos m) e -> binary_round_aux prec emax false (Zpos p) d loc_Exact = S754_finite false m e.
Proof.
  intros B Hd H. rewrite (scaled_order d (Zpos m) e) in H by lia. apply scaled_inj in H; [|lia].
  rewrite H. replace d with (e - (e - d)) at 2 by lia. apply round_aux_canonical; [done|lia..].
Qed.

(** The mantissa of a positive integer is normalised. *)
Lemma int_mantissa x z m e : exact_int x z -> sf x = S754_finite false m e -> 2 ^ 52 <= Zpos m < 2 ^ 53 /\ -52 <= e.
Proof.
  intros H E. unfold exact_int in H. rewrite E in H.
  destruct (canonical_facts m e (bounded_sf _ _ _ _ E)) as (He & Hm & Hc). assert (-52 <= e).
  { destruct (Z.le_gt_cases (-52) e); [done|exfalso]. rewrite (scaled_order e z 0) in H by lia.
    apply scaled_inj in H; [|done]. assert (2 ^ 53 <= 2 ^ (0 - e)) by (apply Z.pow_le_mono_r; lia).
    assert (0 < z) by (pose proof (pow2_pos (0 - e) ltac:(lia)); nia). nia. }
  split_and!; [apply Hc; lia|done|done].
Qed.

(** The product of the mantissas has too many digits to need padding. *)
Lemma mantissa_product m1 m2 : 2 ^ 52 <= Zpos m1 -> 2 ^ 52 <= Zpos m2 -> 104 < Zdigits2 (Zpos (m1 * m2)).
Proof.
  intros L1 L2. destruct (Zdigits2_bounds (Zpos (m1 * m2)) ltac:(lia)) as [_ [_ HB]].
  destruct (Z.lt_ge_cases 104 (Zdigits2 (Zpos (m1 * m2)))); [done|exfalso].
  assert (2 ^ Zdigits2 (Zpos (m1 * m2)) <= 2 ^ 104) by (apply Z.pow_le_mono_r; lia).
  change (2 ^ 104) with (2 ^ 52 * 2 ^ 52) in *. rewrite Pos2Z.inj_mul in *. nia.
Qed.

Lemma value_product m1 e1 m2 e2 a b : -52 <= e1 -> -52 <= e2 -> scaled (Zpos m1) e1 = scaled a 0 -> scaled (Zpos m2) e2 = scaled b 0 ->
  scaled (Zpos (m1 * m2)) (e1 + e2) = scaled (a * b) 0 /\ 0 < a * b.
Proof.
  intros H1 H2 Ha Hb. assert (scaled (Zpos (m1 * m2)) (e1 + e2) = scaled (a * b) 0) as Hv.
  { unfold scaled in *. change (0 + 1074) with 1074 in *. rewrite Pos2Z.inj_mul.
    assert (2 ^ (e1 + 1074) * 2 ^ (e2 + 1074) = 2 ^ (e1 + e2 + 1074) * 2 ^ 1074) as HP
      by (rewrite <- !Z.pow_add_r by lia; f_equal; lia).
    pose proof (pow2_pos 1074 ltac:(lia)). apply (Z.mul_cancel_r _ _ (2 ^ 1074)); [lia|]. nia. }
  split; [done|]. unfold scaled in Hv. change (0 + 1074) with 1074 in Hv. pose proof (pow2_pos (e1 + e2 + 1074) ltac:(lia)).
  pose proof (pow2_pos 1074 ltac:(lia)). nia.
Qed.

Lemma exact_mul_small x y a b : exact_int x a -> exact_int y b -> a * b < 2 ^ 53 -> exact_int (x * y)%float (a * b).
Proof.
  intros Hx Hy Hs. pose proof Hx as Ha. pose proof Hy as Hb. unfold exact_int in *. rewrite mul_spec. unfold SF64mul, SFmul.
  destruct (sf x) as [[]|[]| |[] m1 e1] eqn:Ex, (sf y) as [[]|[]| |[] m2 e2] eqn:Ey; try done;
    cbn [xorb]; try (subst; lia).
  destruct (int_mantissa x a m1 e1) as [[L1 U1] H1]; [unfold exact_int; by rewrite Ex|done|].
  destruct (int_mantissa y b m2 e2) as [[L2 U2] H2]; [unfold exact_int; by rewrite Ey|done|].
  pose proof (mantissa_product m1 m2 L1 L2) as HD. destruct (value_product m1 e1 m2 e2 a b H1 H2 Ha Hb) as [Hv Hp].
  pose proof (digits_of_value (Zpos (m1 * m2)) (e1 + e2) (a * b) 0 ltac:(lia) Hp ltac:(lia) ltac:(lia) Hv) as HD'.
  destruct (small_representable (a * b) ltac:(lia)) as (m & e & B & Hm).
  destruct (bounded_fexp m e B) as [HF _]. destruct (canonical_facts m e B) as (He & _).
  rewrite (digits_of_value (Zpos m) e (a * b) 0 ltac:(lia) Hp He ltac:(lia) Hm), <- HD', fexp_value in HF.
  rewrite (round_aux_value _ _ m e B); [done|lia|congruence].
Qed.

Lemma mul_is_int x y : is_int x -> is_int y -> f64_finite x = true -> f64_finite y = true -> is_int (x * y)%float.
Proof.
  intros Hx Hy Fx Fy. destruct (is_int_finite x Hx Fx) as [a Ha]. destruct (is_int_finite y Hy Fy) as [b Hb].
  destruct (Z.lt_ge_cases (a * b) (2 ^ 53)) as [Hs|Hl]; [by eapply exact_is_int, exact_mul_small|].
  pose proof Ha as Ha'. pose proof Hb as Hb'. unfold exact_int in Ha', Hb'. unfold is_int. rewrite mul_spec. unfold SF64mul, SFmul.
  assert (0 < 2 ^ 53) by done.
  destruct (sf x) as [[]|[]| |[] m1 e1] eqn:Ex, (sf y) as [[]|[]| |[] m2 e2] eqn:Ey; try done; try (subst; lia).
  destruct (int_mantissa x a m1 e1 Ha Ex) as [[L1 U1] H1]. destruct (int_mantissa y b m2 e2 Hb Ey) as [[L2 U2] H2].
  destruct (value_product m1 e1 m2 e2 a b H1 H2 Ha' Hb') as [Hv Hp].
  pose proof (digits_of_value (Zpos (m1 * m2)) (e1 + e2) (a * b) 0 ltac:(lia) Hp ltac:(lia) ltac:(lia) Hv) as HD'.
  assert (53 < Zdigits2 (a * b)).
  { destruct (Zdigits2_bounds (a * b) Hp) as [_ [_ HB]]. destruct (Z.le_gt_cases (Zdigits2 (a * b)) 53); [|lia].
    assert (2 ^ Zdigits2 (a * b) <= 2 ^ 53) by (apply Z.pow_le_mono_r; lia). lia. }
  cbn [xorb]. apply large_exponent; [lia|lia|rewrite fexp_value..]; pose proof (mantissa_product m1 m2 L1 L2); lia.
Qed.

(** ** Conversions *)

Lemma exact_trunc x z : exact_int x z -> f64_trunc x = Some z.
Proof.
  intros H. unfold f64_trunc. pose proof H as H'. unfold exact_int in H.
  destruct (sf x) as [[]|?| |[] m e] eqn:E; try done; [by subst|].
  destruct (int_mantissa x z m e H' E) as [_ He]. f_equal.
  destruct (Z.leb_spec 0 e) as [Hle|Hlt].
  - rewrite Z.shiftl_mul_pow2 by done. apply (scaled_inj _ _ 0); [lia|]. rewrite scaled_shift by lia. done.
  - rewrite Z.shiftr_div_pow2 by lia. rewrite (scaled_order e z 0) in H by lia. apply scaled_inj in H; [|lia].
    rewrite H. apply Z.div_mul. pose proof (pow2_pos (0 - e) ltac:(lia)). lia.
Qed.

Lemma exact_to_int64 x z : exact_int x z -> z <= max_int64 -> f64_to_int64 x = z.
Proof.
  intros H Hz. unfold f64_to_int64. rewrite (exact_trunc x z H). pose proof (exact_int_nonneg x z H).
  rewrite (proj2 (Z.leb_le _ _)), (proj2 (Z.leb_le _ _)) by go_lia. done.
Qed.

Lemma exact_representable x z : exact_int x z -> z = 0 \/ representable z.
Proof.
  unfold exact_int. destruct (sf x) as [[]|?| |[] m e] eqn:E; try done; [by left|]. right. exists m, e.
  split; [by eapply bounded_sf|done].
Qed.

Lemma of_Z_representable z : 0 <= z <= max_int64 -> (z = 0 \/ representable z) -> exact_int (f64_of_Z z) z.
Proof.
  intros Hz Hr. unfold exact_int. rewrite f64_of_Z_sf by done. apply normalize_exact; [lia|lia|done|done].
Qed.

(** An integer that fits is read back from its printed form unchanged. *)
Lemma exact_roundtrip x z : exact_int x z -> z <= max_int64 -> f64_of_Z z = x.
Proof.
  intros H Hz. pose proof (exact_int_nonneg x z H). apply (exact_int_inj _ _ z); [|done].
  apply of_Z_representable; [lia|]. by eapply exact_representable.
Qed.

Lemma exact_add x y a b : exact_int x a -> exact_int y b -> (a + b = 0 \/ representable (a + b)) ->
  exact_int (x + y)%float (a + b).
Proof.
  intros Hx Hy Hr. unfold exact_int in *. rewrite add_spec. unfold SF64add, SFadd.
  destruct (sf x) as [[]|[]| |[] m1 e1] eqn:Ex, (sf y) as [[]|[]| |[] m2 e2] eqn:Ey; try done; try (subst; done).
  - subst. by rewrite Z.add_0_r.
  - destruct (canonical_facts m1 e1 (bounded_sf _ _ _ _ Ex)) as (H1 & _).
    destruct (canonical_facts m2 e2 (bounded_sf _ _ _ _ Ey)) as (H2 & _). unfold cond_Zopp.
    apply normalize_exact; [lia|lia| |done]. rewrite aligned_sum, Hx, Hy by done. unfold scaled. lia.
Qed.

Lemma exact_leb x y a b : exact_int x a -> exact_int y b -> PrimFloat.leb x y = (a <=? b).
Proof.
  intros Hx Hy. destruct (exact_int_facts x a Hx) as (Fx & Nx & Vx). destruct (exact_int_facts y b Hy) as (Fy & Ny & Vy).
  pose proof (pow2_pos 1074 ltac:(lia)). destruct (Z.leb_spec a b) as [Hle|Hlt].
  - destruct (PrimFloat.leb x y) eqn:E; [done|].
    apply leb_false_ltb in E; [|by apply f64_nonneg_not_nan..]. pose proof (ltb_leb _ _ E) as E'.
    apply leb_fval in E'; [|done..]. assert (a = b) as -> by nia. rewrite (exact_int_inj x y b) in E by done.
    by rewrite (leb_ltb_false y y (leb_refl y (f64_nonneg_not_nan y Ny))) in E.
  - destruct (PrimFloat.leb x y) eqn:E; [|done]. apply leb_fval in E; [|done..]. nia.
Qed.

Lemma exact_gtb x y a b : exact_int x a -> exact_int y b -> f64_gtb x y = (b <? a).
Proof.
  intros Hx Hy. unfold f64_gtb. destruct (exact_int_facts x a Hx) as (_ & Nx & _). destruct (exact_int_facts y b Hy) as (_ & Ny & _).
  destruct (PrimFloat.ltb y x) eqn:E.
  - destruct (PrimFloat.leb x y) eqn:E'; [by rewrite (leb_ltb_false x y E') in E|].
    rewrite (exact_leb x y a b) in E' by done. symmetry. lia.
  - apply ltb_false_leb in E; [|by apply f64_nonneg_not_nan..]. rewrite (exact_leb x y a b) in E by done. symmetry. lia.
Qed.

(** The difference, on the smaller exponent. *)
Lemma exact_sub x y a b : exact_int x a -> exact_int y b -> b <= a -> (a - b = 0 \/ representable (a - b)) ->
  exact_int (x - y)%float (a - b).
Proof.
  intros Hx Hy Hle Hr. unfold exact_int in *. rewrite sub_spec. unfold SF64sub, SFsub.
  destruct (sf x) as [[]|[]| |[] m1 e1] eqn:Ex, (sf y) as [[]|[]| |[] m2 e2] eqn:Ey; try done; try (subst; done).
  - subst a. exfalso. destruct (canonical_facts m2 e2 (bounded_sf _ _ _ _ Ey)) as (H2 & _).
    unfold scaled in Hy. pose proof (pow2_pos (e2 + 1074) ltac:(lia)). pose proof (pow2_pos 1074 ltac:(lia)).
    change (0 + 1074) with 1074 in Hy. nia.
  - subst b. by rewrite Z.sub_0_r.
  - destruct (canonical_facts m1 e1 (bounded_sf _ _ _ _ Ex)) as (H1 & _).
    destruct (canonical_facts m2 e2 (bounded_sf _ _ _ _ Ey)) as (H2 & _). unfold cond_Zopp.
    rewrite (scaled_order (Z.min e1 e2) (Zpos m1) e1) in Hx by lia. rewrite (scaled_order (Z.min e1 e2) (Zpos m2) e2) in Hy by lia.
    pose proof (pow2_pos (Z.min e1 e2 + 1074) ltac:(lia)). pose proof (pow2_pos 1074 ltac:(lia)).
    rewrite !shl_align_value by lia. apply normalize_exact; [lia|..|done]; unfold scaled in *; change (0 + 1074) with 1074 in *; nia.
Qed.

(** The difference of the mantissas on the smaller exponent has the value of the difference. *)
Lemma aligned_difference m1 e1 m2 e2 a b : -1074 <= e1 -> -1074 <= e2 -> scaled (Zpos m1) e1 = scaled a 0 -> scaled (Zpos m2) e2 = scaled b 0 ->
  scaled (Zpos (fst (shl_align m1 e1 (Z.min e1 e2))) - Zpos (fst (shl_align m2 e2 (Z.min e1 e2)))) (Z.min e1 e2) = scaled (a - b) 0.
Proof.
  intros H1 H2 Hx Hy. rewrite (scaled_order (Z.min e1 e2) (Zpos m1) e1) in Hx by lia.
  rewrite (scaled_order (Z.min e1 e2) (Zpos m2) e2) in Hy by lia. rewrite !shl_align_value by lia. unfold scaled in *. lia.
Qed.

Lemma scaled_pos_iff z e : -1074 <= e -> 0 < scaled z e <-> 0 < z.
Proof. intros He. unfold scaled. pose proof (pow2_pos (e + 1074) ltac:(lia)). nia. Qed.

Lemma exact_zero_or x z : exact_int x z -> (z = 0 /\ sf x = S754_zero false) \/
  exists m e, sf x = S754_finite false m e /\ -1074 <= e /\ scaled (Zpos m) e = scaled z 0 /\ 0 < z.
Proof.
  intros H. pose proof H as H'. unfold exact_int in H'. destruct (sf x) as [[]|?| |[] m e] eqn:E; try done; [by left|].
  right. exists m, e. destruct (canonical_facts m e (bounded_sf _ _ _ _ E)) as (He & _).
  split_and!; [done|done|done|]. apply (scaled_pos_iff z 0); [lia|]. rewrite <- H'. by apply scaled_pos_iff.
Qed.

(** A difference of integers is rounded to an integer, and not below a float it is not below. *)
Lemma sub_is_int x y a b : exact_int x a -> exact_int y b -> b <= a -> is_int (x - y)%float.
Proof.
  intros Hx Hy Hle. unfold is_int. rewrite sub_spec. unfold SF64sub, SFsub.
  destruct (exact_zero_or x a Hx) as [[-> ->]|(m1 & e1 & -> & H1 & E1 & P1)],
    (exact_zero_or y b Hy) as [[-> ->]|(m2 & e2 & -> & H2 & E2 & P2)]; [done|lia|split; [done|by exists a]|].
  pose proof (aligned_difference m1 e1 m2 e2 a b H1 H2 E1 E2) as Hd. unfold cond_Zopp.
  destruct (Zpos _ - Zpos _) as [|r|r]; cbn [binary_normalize]; [done|apply (binary_round_int r _ (a - b)); [lia|done]|].
  pose proof (scaled_pos_iff (Zneg r) (Z.min e1 e2) ltac:(lia)). unfold scaled in *. pose proof (pow2_pos (0 + 1074) ltac:(lia)).
  pose proof (pow2_pos (Z.min e1 e2 + 1074) ltac:(lia)). nia.
Qed.

Lemma sub_lower x y a b z c : exact_int x a -> exact_int y b -> b <= a -> exact_int z c -> c <= a - b -> PrimFloat.leb z (x - y)%float = true.
Proof.
  intros Hx Hy Hle Hz Hc. pose proof (exact_leb y x b a Hy Hx) as Hyx. rewrite (proj2 (Z.leb_le b a)) in Hyx by lia.
  destruct (exact_int_facts x a Hx) as (Fx & Nx & _), (exact_int_facts y b Hy) as (Fy & Ny & _).
  destruct (exact_zero_or z c Hz) as [[-> Ez]|(m & e & Ez & H & E & P)].
  { pose proof (f64_sub_nonneg x y Fy Ny Hyx) as Hn. rewrite <- leb_zero_nonneg in Hn.
    rewrite leb_spec in *. rewrite Ez. change (sf zero) with (S754_zero false) in Hn. by destruct (sf (x - y)%float) as [|[]| |[]]. }
  apply (leb_of_values z _ m e Ez). rewrite E, sub_spec. unfold SF64sub, SFsub.
  destruct (exact_zero_or x a Hx) as [[-> ->]|(m1 & e1 & -> & H1 & E1 & P1)],
    (exact_zero_or y b Hy) as [[-> ->]|(m2 & e2 & -> & H2 & E2 & P2)]; [lia|lia|split; [done|rewrite E1; apply scaled_mono; lia]|].
  pose proof (aligned_difference m1 e1 m2 e2 a b H1 H2 E1 E2) as Hd. unfold cond_Zopp.
  assert (0 < scaled (a - b) 0) as Hp by (apply scaled_pos_iff; lia). rewrite <- Hd in Hp. apply scaled_pos_iff in Hp; [|lia].
  destruct (Zpos _ - Zpos _) as [|r|r]; [lia| |lia]. cbn [binary_normalize]. rewrite <- E.
  apply binary_round_lower; [lia|by eapply bounded_sf|]. rewrite E, Hd. apply scaled_mono; lia.
Qed.

Lemma eqb_leb x y : PrimFloat.eqb x y = true -> PrimFloat.leb x y = true /\ PrimFloat.leb y x = true.
Proof.
  rewrite FloatAxioms.eqb_spec, !FloatAxioms.leb_spec. unfold SFeqb, SFleb, SFcompare.
  destruct (sf x) as [[]|[]| |[] m1 e1], (sf y) as [[]|[]| |[] m2 e2]; try done;
    rewrite (Z.compare_antisym e1 e2); destruct (e1 ?= e2); try done; cbn [CompOpp];
    rewrite !compare_cont_Eq; destruct (Pos.compare_spec m1 m2); try done; subst; by rewrite Pos.compare_refl.
Qed.

Lemma exact_eqb x y a b : exact_int x a -> exact_int y b -> PrimFloat.eqb x y = (a =? b).
Proof.
  intros Hx Hy. destruct (Z.eqb_spec a b) as [<-|Hne].
  - rewrite (exact_int_inj x y a) by done. destruct (exact_int_facts y a Hy) as (_ & Ny & _).
    apply f64_nonneg_not_nan in Ny. rewrite FloatAxioms.eqb_spec. unfold is_nan, SFeqb, SFcompare in *.
    destruct (sf y) as [[]|[]| |[] m e]; try done; by rewrite Z.compare_refl, compare_cont_Eq, Pos.compare_refl.
  - destruct (PrimFloat.eqb x y) eqn:E; [|done]. apply eqb_leb in E as [E1 E2].
    rewrite (exact_leb x y a b) in E1 by done. rewrite (exact_leb y x b a) in E2 by done. lia.
Qed.

(** Integers below [2^53] add and subtract exactly. *)
Lemma small_or_zero z : 0 <= z < 2 ^ 53 -> z = 0 \/ representable z.
Proof. intros Hz. destruct (Z.eq_dec z 0); [by left|right]. apply small_representable. lia. Qed.

Lemma exact_add_small x y a b : exact_int x a -> exact_int y b -> a + b < 2 ^ 53 -> exact_int (x + y)%float (a + b).
Proof.
  intros Hx Hy H. pose proof (exact_int_nonneg x a Hx). pose proof (exact_int_nonneg y b Hy).
  apply exact_add; [done..|]. apply small_or_zero. lia.
Qed.

Lemma exact_sub_small x y a b : exact_int x a -> exact_int y b -> b <= a < 2 ^ 53 -> exact_int (x - y)%float (a - b).
Proof.
  intros Hx Hy H. pose proof (exact_int_nonneg y b Hy). apply exact_sub; [done..|lia|]. apply small_or_zero. lia.
Qed.

#[export] Hint Resolve of_Z_exact_int : golib.

(** ** Bounds of quotients and differences *)

(** The core of the division, for a quotient below [2^k]. *)
Lemma div_core_bound k m1 e1 m2 e2 : 0 <= k <= 900 -> -1074 <= e1 -> -1074 <= e2 ->
  scaled (Zpos m1) e1 < 2 ^ k * scaled (Zpos m2) e2 ->
  let '(q, e, _) := SFdiv_core_binary prec emax (Zpos m1) e1 (Zpos m2) e2 in 0 <= q < 2 ^ (k - e) /\ e <= k.
Proof.
  intros Hk H1 H2 H. unfold scaled in H. remember (e2 + 1074) as b eqn:Eb. remember (e1 + 1074) as a eqn:Ea.
  destruct (Zdigits2_bounds (Zpos m1) ltac:(lia)) as [D1 [L1 _]].
  destruct (Zdigits2_bounds (Zpos m2) ltac:(lia)) as [D2 [_ U2]]. unfold SFdiv_core_binary.
  set (d1 := Zdigits2 (Zpos m1)) in *. set (d2 := Zdigits2 (Zpos m2)) in *.
  assert (d1 + e1 - (d2 + e2) <= k) as HD.
  { enough (2 ^ (d1 - 1 + a) < 2 ^ (k + (d2 + b))) as Hp by (apply Z.pow_lt_mono_r_iff in Hp; lia).
    rewrite (Z.pow_add_r 2 k), (Z.pow_add_r 2 d2), (Z.pow_add_r 2 (d1 - 1)) by lia.
    pose proof (pow2_pos a ltac:(lia)). pose proof (pow2_pos b ltac:(lia)). pose proof (pow2_pos k ltac:(lia)).
    apply Z.le_lt_trans with (Zpos m1 * 2 ^ a); [by apply Z.mul_le_mono_nonneg_r; [lia|]|].
    eapply Z.lt_le_trans; [exact H|]. apply Z.mul_le_mono_nonneg_l; [lia|]. apply Z.mul_le_mono_nonneg_r; lia. }
  set (e' := Z.min (F _) (e1 - e2)).
  assert (e' <= k /\ 0 <= e1 - e2 - e') as [He' Hs] by (unfold e'; rewrite fexp_value; lia).
  assert (match e1 - e2 - e' with Zpos _ => Z.shiftl (Zpos m1) (e1 - e2 - e') | Z0 => Zpos m1 | Zneg _ => 0 end
    = Zpos m1 * 2 ^ (e1 - e2 - e')) as ->.
  { destruct (e1 - e2 - e') eqn:E; [by rewrite Z.mul_1_r| |lia]. by rewrite Z.shiftl_mul_pow2 by lia. }
  assert (Zpos m1 * 2 ^ (e1 - e2 - e') < Zpos m2 * 2 ^ (k - e')) as Hlt.
  { apply (Z.mul_lt_mono_pos_r (2 ^ (b + Z.max e' 0))); [apply pow2_pos; lia|].
    apply (Z.mul_lt_mono_pos_r (2 ^ Z.max (- e') 0)) in H; [|apply pow2_pos; lia].
    rewrite (Z.mul_comm (2 ^ k)) in H. rewrite <- !Z.mul_assoc, <- !Z.pow_add_r in H |- * by lia.
    replace (e1 - e2 - e' + (b + Z.max e' 0)) with (a + Z.max (- e') 0) by lia.
    replace (k - e' + (b + Z.max e' 0)) with (b + (k + Z.max (- e') 0)) by lia. rewrite (Z.pow_add_r 2 b), Z.mul_assoc by lia. exact H. }
  assert (0 <= Zpos m1 * 2 ^ (e1 - e2 - e')) as Hnn by (apply Z.mul_nonneg_nonneg; [lia|apply Z.pow_nonneg; lia]).
  pose proof (Z.div_pos _ (Zpos m2) Hnn ltac:(lia)) as Hq0.
  pose proof (Z.div_lt_upper_bound _ (Zpos m2) (2 ^ (k - e')) ltac:(lia) Hlt) as Hq1.
  unfold Z.div in Hq0, Hq1. destruct (Z.div_eucl _ _) as [q r]. lia.
Qed.

Lemma binary_round_below k p e : 0 <= k <= 900 -> -1074 <= e -> scaled (Zpos p) e < scaled (2 ^ k) 0 ->
  at_most k (binary_round prec emax false p e).
Proof.
  intros Hk He H. assert (e <= k /\ Zpos p < 2 ^ (k - e)) as [Hek Hlt].
  { unfold scaled in H. change (0 + 1074) with 1074 in H. destruct (Z.le_gt_cases e k) as [Hle|Hgt].
    - split; [done|]. replace (2 ^ k * 2 ^ 1074) with (2 ^ (k - e) * 2 ^ (e + 1074)) in H
        by (rewrite <- !Z.pow_add_r by lia; f_equal; lia).
      apply Z.mul_lt_mono_pos_r in H; [done|apply pow2_pos; lia].
    - exfalso. rewrite <- Z.pow_add_r in H by lia.
      assert (2 ^ (k + 1074) <= 2 ^ (e + 1074)) by (apply Z.pow_le_mono_r; lia).
      pose proof (pow2_pos (e + 1074) ltac:(lia)). nia. }
  assert (Zpos (digits2_pos p) <= k - e) as HD by (apply (digits_below (Zpos p)); lia).
  unfold binary_round. set (e' := F _). assert (e' <= k) as He' by (unfold e'; rewrite fexp_value; lia).
  destruct (Z.le_gt_cases e' e) as [Hc|Hc].
  - pose proof (shl_align_value p e e' Hc) as Hv.
    assert (snd (shl_align p e e') = e') as Hs by (unfold shl_align; destruct (e' - e) eqn:Ed; cbn; lia).
    destruct (shl_align p e e') as [p' e2]. cbn [fst snd] in *. subst e2. apply round_aux_below; [lia|lia|done|]. rewrite Hv.
    replace (2 ^ (k - e')) with (2 ^ (k - e) * 2 ^ (e - e')) by (rewrite <- Z.pow_add_r by lia; f_equal; lia).
    apply Z.mul_lt_mono_pos_r; [apply pow2_pos; lia|done].
  - assert (shl_align p e e' = (p, e)) as -> by (unfold shl_align; destruct (e' - e) eqn:Ed; [done|done|lia]).
    apply round_aux_below; lia.
Qed.

Lemma at_most_value k x : at_most k (sf x) -> f64_nonneg x = true -> 0 <= k -> f64_finite x = true /\ fval x <= scaled (2 ^ k) 0.
Proof.
  unfold f64_finite, f64_nonneg, fval. destruct (sf x) as [s|s| |[] m e] eqn:E; cbn [at_most]; try done.
  - intros _ _ Hk. split; [done|]. unfold scaled. pose proof (pow2_pos k Hk). pose proof (pow2_pos 1074 ltac:(lia)). nia.
  - intros [He Hm] _ Hk. split; [done|]. destruct (canonical_facts m e (bounded_sf _ _ _ _ E)) as (He' & _).
    replace (scaled (2 ^ k) 0) with (scaled (2 ^ (k - e)) e); [by apply scaled_mono|].
    unfold scaled. rewrite <- !Z.pow_add_r by lia. f_equal. lia.
Qed.

Lemma exact_below x a k : exact_int x a -> 0 <= k <= 900 -> a < 2 ^ k -> at_most k (sf x).
Proof.
  intros H Hk Ha. unfold exact_int in H. destruct (sf x) as [[]|?| |[] m e] eqn:E; try done.
  pose proof (bounded_sf _ _ _ _ E) as B. destruct (canonical_facts m e B) as (He & _).
  rewrite <- (binary_round_canonical m e m e B He eq_refl). apply binary_round_below; [done..|].
  rewrite H. unfold scaled. apply Z.mul_lt_mono_pos_r; [by apply pow2_pos|done].
Qed.

Lemma exact_sub_below x y a b k : exact_int x a -> exact_int y b -> b <= a -> 0 <= k <= 900 -> a < 2 ^ k ->
  f64_nonneg (x - y)%float = true /\ at_most k (sf (x - y)%float).
Proof.
  intros Hx Hy Hle Hk Ha. destruct (exact_int_facts y b Hy) as (Fy & Ny & _).
  split; [apply f64_sub_nonneg; [done..|]; rewrite (exact_leb y x b a) by done; lia|].
  pose proof (exact_below x a k Hx Hk Ha) as Hbx. unfold exact_int in Hx, Hy. rewrite sub_spec. unfold SF64sub, SFsub.
  destruct (sf x) as [[]|[]| |[] m1 e1] eqn:Ex, (sf y) as [[]|[]| |[] m2 e2] eqn:Ey; try done; subst.
  - exfalso. pose proof (exact_int_nonneg y b). unfold exact_int in *. rewrite Ey in *.
    destruct (canonical_facts m2 e2 (bounded_sf _ _ _ _ Ey)) as (H2 & _). unfold scaled in Hy.
    pose proof (pow2_pos (e2 + 1074) ltac:(lia)). pose proof (pow2_pos (0 + 1074) ltac:(lia)). nia.
  - destruct (canonical_facts m1 e1 (bounded_sf _ _ _ _ Ex)) as (H1 & _).
    destruct (canonical_facts m2 e2 (bounded_sf _ _ _ _ Ey)) as (H2 & _). unfold cond_Zopp.
    pose proof (exact_int_nonneg y b) as Hb. unfold exact_int in Hb. rewrite Ey in Hb. specialize (Hb Hy).
    rewrite !shl_align_value by lia. rewrite (scaled_order (Z.min e1 e2) (Zpos m1) e1) in Hx by lia.
    rewrite (scaled_order (Z.min e1 e2) (Zpos m2) e2) in Hy by lia.
    set (p := Zpos m1 * _) in *. set (q := Zpos m2 * _) in *.
    assert (scaled (p - q) (Z.min e1 e2) = scaled (a - b) 0) as Hd by (unfold scaled in *; nia).
    pose proof (pow2_pos (Z.min e1 e2 + 1074) ltac:(lia)). pose proof (pow2_pos (0 + 1074) ltac:(lia)).
    destruct (p - q) as [|r|r] eqn:Er; cbn [binary_normalize]; [done| |unfold scaled in Hd; nia].
    apply binary_round_below; [done|lia|]. rewrite Hd. unfold scaled. apply Z.mul_lt_mono_pos_r; lia.
Qed.

(** A non-negative value below [2^k] divided by an integer of at least one. *)
Lemma div_below d n k : f64_nonneg d = true -> at_most k (sf d) -> 0 <= k < 900 -> 1 <= n <= max_int64 ->
  f64_nonneg (d / f64_of_Z n)%float = true /\ at_most (k + 1) (sf (d / f64_of_Z n)%float).
Proof.
  intros Hd Hk Hkr Hn. destruct (at_most_value k d Hk Hd ltac:(lia)) as [Fd Vd].
  pose proof (of_Z_finite n ltac:(lia)) as Fn. pose proof (of_Z_pos n ltac:(lia)) as Pn.
  split; [by apply f64_div_nonneg|]. destruct (of_Z_holds 1 n ltac:(lia) ltac:(lia)) as [Nn Vn]. specialize (Vn Fn).
  rewrite div_spec. unfold f64_finite, f64_nonneg, fval in *. unfold SF64div, SFdiv.
  destruct (sf (f64_of_Z n)) as [[]|[]| |[] m2 e2] eqn:En; try done.
  destruct (sf d) as [[]|[]| |[] m1 e1] eqn:Ed; try done.
  destruct (canonical_facts m1 e1 (bounded_sf _ _ _ _ Ed)) as (H1 & _).
  destruct (canonical_facts m2 e2 (bounded_sf _ _ _ _ En)) as (H2 & _).
  pose proof (div_core_bound (k + 1) m1 e1 m2 e2 ltac:(lia) H1 H2) as Hc.
  destruct (SFdiv_core_binary _ _ _ _ _ _) as [[q e] l]. cbn [xorb].
  assert (0 <= q < 2 ^ (k + 1 - e) /\ e <= k + 1) as [? ?].
  { apply Hc. rewrite Z.pow_add_r by lia. change (2 ^ 1) with 2. 
    assert (scaled (2 ^ k) 0 = 2 ^ k * 2 ^ 1074) as E by done. rewrite E in Vd. pose proof (pow2_pos k ltac:(lia)). pose proof (pow2_pos 1074 ltac:(lia)). nia. }
  apply round_aux_below; lia.
Qed.

(** ** The error of a conversion *)

Lemma of_Z_error z : 2 ^ 53 <= z <= max_int64 ->
  exists v, exact_int (f64_of_Z z) v /\ Z.abs (v - z) <= 2 ^ (Zdigits2 z - 53).
Proof.
  intros Hz. assert (0 < 2 ^ 53) as H53 by done. pose proof (of_Z_finite z ltac:(lia)) as Hf.
  unfold exact_int. unfold f64_finite in Hf. rewrite f64_of_Z_sf in * by lia.
  destruct z as [|p|p]; try lia. cbn [binary_normalize] in *. unfold binary_round in *.
  destruct (Zdigits2_bounds (Zpos p) ltac:(lia)) as [HD [HDl HDu]]. change (Zpos (digits2_pos p)) with (Zdigits2 (Zpos p)) in *.
  set (D := Zdigits2 (Zpos p)) in *.
  assert (53 < D) as HD53.
  { destruct (Z.le_gt_cases D 53); [|lia]. assert (2 ^ D <= 2 ^ 53) by (apply Z.pow_le_mono_r; lia). lia. }
  set (s := D - 53) in *. assert (F (D + 0) = s) as EF by (rewrite fexp_value; lia). rewrite EF in *.
  assert (shl_align p 0 s = (p, 0)) as Ea by (unfold shl_align; destruct (s - 0) eqn:Ed; [done|done|lia]). rewrite Ea in *.
  unfold binary_round_aux in *. pose proof (shr_fexp_floor (Zpos p) 0 loc_Exact ltac:(lia)) as [E1 E1'].
  assert (shift_of (Zpos p) 0 = s) as Es by (unfold shift_of; fold D; rewrite EF; lia). rewrite Es in *.
  destruct (shr_fexp prec emax (Zpos p) 0 loc_Exact) as [r1 e1]. cbn [fst snd] in *. subst e1. rewrite Z.add_0_l in *.
  pose proof (round_even_bounds (shr_m r1) (loc_of_shr_record r1)) as Hr. set (q := round_nearest_even _ _) in *.
  pose proof (pow2_pos s ltac:(lia)) as Hs. pose proof (Z.div_mod (Zpos p) (2 ^ s) ltac:(lia)) as Hdm.
  pose proof (Z.mod_pos_bound (Zpos p) (2 ^ s) Hs) as Hmod. rewrite <- E1 in Hdm.
  assert (2 ^ 52 <= shr_m r1 < 2 ^ 53) as Hm.
  { rewrite E1. split; [apply Z.div_le_lower_bound|apply Z.div_lt_upper_bound]; try done; rewrite <- Z.pow_add_r by lia.
    - by replace (s + 52) with (D - 1) by lia.
    - by replace (s + 53) with D by lia. }
  pose proof (shr_fexp_floor q s loc_Exact ltac:(lia)) as [E2 E2'].
  destruct (shr_fexp prec emax q s loc_Exact) as [r2 e2]. cbn [fst snd] in *.
  assert (shr_m r2 * 2 ^ e2 = q * 2 ^ s /\ 0 < shr_m r2 /\ s <= e2) as (Hval & Hpos & Hes).
  { subst e2. destruct (Z.eq_dec q (2 ^ 53)) as [Eq|Nq].
    - assert (shift_of q s = 1) as Ej by (rewrite Eq; unfold shift_of; change (Zdigits2 (2 ^ 53)) with 54; rewrite fexp_value; lia).
      rewrite E2, Ej, Eq, Z.pow_add_r by lia. change (2 ^ 53 / 2 ^ 1) with (2 ^ 52). change (2 ^ 53) with (2 ^ 52 * 2 ^ 1).
      split_and!; [lia|done|lia].
    - assert (shift_of q s = 0) as Ej by (unfold shift_of; rewrite (Zdigits2_unique q 53), fexp_value by lia; lia).
      rewrite E2, Ej, Z.div_1_r, Z.add_0_r. split_and!; lia. }
  destruct (shr_m r2) as [|m|m] eqn:Em; try lia. destruct (e2 <=? emax - prec); [|done].
  exists (q * 2 ^ s). split; [|nia]. rewrite <- Hval, scaled_shift by lia. done.
Qed.
