(* ===== verification/Float64Sqrt.v ===== *)
(** * Bounds on square roots, quotients and products of binary64 numbers.

    What [interval / sqrt(count)] needs: it is at least one and fits an [int64]
    as long as [sqrt(count)] does not exceed [interval]. *)

From Stdlib Require Import Floats.
From S2P Require Import Prelude Float64 Float64Round.
Open Scope Z_scope.

Local Notation F := (SpecFloat.fexp prec emax).

(** ** Square root *)

Lemma sqrt_shift m s : 0 <= s ->
  match s with Zpos _ => Z.shiftl (Zpos m) s | Z0 => Zpos m | Zneg _ => 0 end = Zpos m * 2 ^ s.
Proof. intros Hs. destruct s; [by rewrite Z.mul_1_r|by rewrite Z.shiftl_mul_pow2 by lia|lia]. Qed.

Lemma sqrtrem_square n : 0 <= n -> let q := fst (Z.sqrtrem n) in 0 <= q /\ q * q <= n < (q + 1) * (q + 1).
Proof.
  intros Hn. cbn zeta. rewrite Z.sqrtrem_sqrt. pose proof (Z.sqrt_spec n Hn) as H. cbn zeta in H. rewrite <- !Z.add_1_r in H.
  pose proof (Z.sqrt_nonneg n). split; [done|apply H].
Qed.

Lemma pow2_square k : 0 <= k -> 2 ^ (2 * k) = 2 ^ k * 2 ^ k.
Proof. intros Hk. rewrite <- Z.pow_add_r by lia. f_equal. lia. Qed.

(** The integer root of the core lies between the powers of two that bracket the argument. *)
Lemma sqrt_core_bounds m e k : e <= 0 -> Zpos m < 2 ^ (2 * k - e) -> 0 <= k -> 2 ^ (- e) <= Zpos m ->
  let '(q, e', _) := SFsqrt_core_binary prec emax (Zpos m) e in
  e' <= 0 /\ Z.min (-1074) (Z.div2 e) <= e' /\ 2 ^ (- e') <= q < 2 ^ (k - e').
Proof.
  intros He Hlt Hk Hge. unfold SFsqrt_core_binary.
  set (e' := Z.min (F _) (Z.div2 e)).
  assert (e' <= 0 /\ 2 * e' <= e /\ Z.min (-1074) (Z.div2 e) <= e') as (He' & He2 & Hlow).
  { unfold e'. rewrite fexp_value. rewrite Z.div2_div in *. pose proof (Z.div_mod e 2 ltac:(lia)).
    pose proof (Z.mod_pos_bound e 2 ltac:(lia)). lia. }
  clearbody e'. rewrite sqrt_shift by lia. set (n := Zpos m * 2 ^ (e - 2 * e')).
  assert (2 ^ (- e') * 2 ^ (- e') <= n) as Hn1.
  { unfold n. rewrite <- pow2_square by lia. replace (2 * - e') with (- e + (e - 2 * e')) by lia. rewrite Z.pow_add_r by lia.
    apply Z.mul_le_mono_nonneg_r; [apply Z.pow_nonneg; lia|done]. }
  assert (n < 2 ^ (k - e') * 2 ^ (k - e')) as Hn2.
  { unfold n. rewrite <- pow2_square by lia. replace (2 * (k - e')) with ((2 * k - e) + (e - 2 * e')) by lia.
    rewrite Z.pow_add_r by lia. apply Z.mul_lt_mono_pos_r; [apply pow2_pos; lia|done]. }
  pose proof (pow2_pos (- e') ltac:(lia)). pose proof (pow2_pos (k - e') ltac:(lia)).
  destruct (sqrtrem_square n ltac:(nia)) as (Hq0 & Hq1 & Hq2).
  destruct (Z.sqrtrem n) as [q r]. cbn [fst] in *. split_and!; try done; nia.
Qed.

Definition one_m : positive := 4503599627370496.

Lemma bounded_pow k : -1000 <= k <= 900 -> bounded prec emax one_m (k - 52) = true.
Proof.
  intros Hk. unfold bounded, canonical_mantissa. rewrite andb_true_iff, Z.eqb_eq, Z.leb_le, fexp_value.
  change (Zpos (digits2_pos one_m)) with 53. change (emax - prec) with 971. lia.
Qed.

Lemma scaled_pow k : -1000 <= k <= 900 -> scaled (Zpos one_m) (k - 52) = 2 ^ (k + 1074).
Proof.
  intros Hk. unfold scaled. change (Zpos one_m) with (2 ^ 52). rewrite <- Z.pow_add_r by lia. f_equal. lia.
Qed.

(** The positive floats between the powers [2^a] and [2^b]. *)
Definition pow_between (a b : Z) (x : spec_float) : Prop :=
  exists m e, x = S754_finite false m e /\ -1074 <= e <= b /\ 2 ^ (a + 1074) <= scaled (Zpos m) e /\ Zpos m <= 2 ^ (b - e).

Lemma between_of a b x : -1000 <= a -> has_sign false x = true -> at_least (2 ^ (a + 1074)) x -> at_most b x -> pow_between a b x.
Proof.
  intros Ha Hs Hl Hu. destruct x as [s|s| |[] m e]; try done.
  destruct Hl as [H1 H2], Hu as [H3 H4]. exists m, e. split_and!; (done || lia).
Qed.

(** Rounding keeps a value between two powers of two there. *)
Lemma round_aux_between a b m e l : -1000 <= a -> a <= b -> b <= 900 -> -1074 <= e -> e <= a -> 2 ^ (a - e) <= m -> m < 2 ^ (b - e) ->
  pow_between a b (binary_round_aux prec emax false m e l).
Proof.
  intros Ha Hab Hb He Hea Hlo Hhi. pose proof (pow2_pos (a - e) ltac:(lia)).
  apply between_of; [done|apply binary_round_aux_sign; lia| |apply round_aux_below; lia].
  rewrite <- scaled_pow by lia. apply round_aux_lower; [lia|done|apply bounded_pow; lia|].
  rewrite scaled_pow by lia. unfold scaled. replace (a + 1074) with ((a - e) + (e + 1074)) by lia.
  rewrite Z.pow_add_r by lia. apply Z.mul_le_mono_nonneg_r; [apply Z.pow_nonneg; lia|done].
Qed.

Lemma sqrt_of_Z c k : 1 <= c < 2 ^ (2 * k) -> 0 <= k <= 26 -> pow_between 0 k (sf (PrimFloat.sqrt (f64_of_Z c))).
Proof.
  intros Hc Hk. assert (2 ^ (2 * k) <= 2 ^ 52) as Hk2 by (apply Z.pow_le_mono_r; lia).
  destruct (f64_of_Z_exact c ltac:(lia)) as (m & e & E & Hv & He). rewrite sqrt_spec, E. unfold SF64sqrt, SFsqrt.
  unfold scaled in Hv. rewrite Z.add_0_l in Hv.
  assert (Zpos m = c * 2 ^ (- e)) as Hm.
  { apply (Z.mul_reg_r _ _ (2 ^ (e + 1074))); [pose proof (pow2_pos (e + 1074) ltac:(lia)); lia|].
    rewrite Hv, <- Z.mul_assoc, <- Z.pow_add_r by lia. do 2 f_equal. lia. }
  pose proof (pow2_pos (- e) ltac:(lia)). pose proof (pow2_pos (2 * k - e) ltac:(lia)).
  pose proof (sqrt_core_bounds m e k ltac:(lia)) as H'.
  destruct (SFsqrt_core_binary prec emax (Zpos m) e) as [[q e'] l].
  destruct H' as (H1 & H2 & H3 & H4); [|lia|nia|].
  - rewrite Hm. unfold Z.sub. rewrite Z.pow_add_r by lia. apply Z.mul_lt_mono_pos_r; lia.
  - rewrite Z.div2_div in H2. pose proof (Z.div_le_lower_bound e 2 (-30) ltac:(lia) ltac:(lia)).
    apply round_aux_between; lia || done.
Qed.

(** ** The reciprocal *)

Lemma one_sf : sf one = S754_finite false one_m (-52).
Proof. done. Qed.

(** A value of at least one: in integers, and in digits. *)
Lemma scaled_one m e : -1074 <= e -> 2 ^ 1074 <= scaled (Zpos m) e -> 2 ^ Z.max 0 (- e) <= Zpos m /\ 1 <= Zdigits2 (Zpos m) + e.
Proof.
  intros He H. unfold scaled in H. destruct (Zdigits2_bounds (Zpos m) ltac:(lia)) as [HD [_ HU]].
  destruct (Z.le_gt_cases 0 e) as [Hc|Hc]; [rewrite Z.max_l by lia; lia|]. rewrite Z.max_r by lia.
  assert (2 ^ (- e) <= Zpos m) as Hm.
  { apply (Z.mul_le_mono_pos_r _ _ (2 ^ (e + 1074))); [apply pow2_pos; lia|]. rewrite <- Z.pow_add_r by lia.
    by replace (- e + (e + 1074)) with 1074 by lia. }
  split; [done|]. assert (2 ^ (- e) < 2 ^ Zdigits2 (Zpos m)) as Hp by lia. apply Z.pow_lt_mono_r_iff in Hp; lia.
Qed.

Lemma recip_between s k : 0 <= k <= 26 -> pow_between 0 k (sf s) -> pow_between (- k) 1 (sf (one / s)%float).
Proof.
  intros Hk (m & e & E & He & Hlo & Hhi). rewrite div_spec, one_sf, E. unfold SF64div, SFdiv, SFdiv_core_binary.
  destruct (scaled_one m e ltac:(lia) Hlo) as [Hm Hd]. change (Zdigits2 (Zpos one_m)) with 53.
  set (e' := Z.min (F _) (-52 - e)).
  assert (-1074 <= e' <= -53) as He' by (unfold e'; rewrite fexp_value; lia).
  assert (0 <= -52 - e - e') as Hs by (unfold e'; rewrite fexp_value; lia). clearbody e'.
  rewrite sqrt_shift by done. change (Zpos one_m) with (2 ^ 52). rewrite <- Z.pow_add_r by lia.
  replace (52 + (-52 - e - e')) with (- e - e') by lia.
  assert (2 ^ (- k - e') <= 2 ^ (- e - e') / Zpos m) as Hq1.
  { apply Z.div_le_lower_bound; [lia|]. transitivity (2 ^ (k - e) * 2 ^ (- k - e')).
    - apply Z.mul_le_mono_nonneg_r; [apply Z.pow_nonneg; lia|done].
    - rewrite <- Z.pow_add_r by lia. apply Z.pow_le_mono_r; lia. }
  assert (2 ^ (- e - e') / Zpos m < 2 ^ (1 - e')) as Hq2.
  { apply Z.div_lt_upper_bound; [lia|]. apply Z.lt_le_trans with (2 ^ Z.max 0 (- e) * 2 ^ (1 - e')).
    - rewrite <- Z.pow_add_r by lia. apply Z.pow_lt_mono_r; lia.
    - apply Z.mul_le_mono_nonneg_r; [apply Z.pow_nonneg; lia|done]. }
  unfold Z.div in Hq1, Hq2. destruct (Z.div_eucl _ _) as [q r]. apply round_aux_between; lia || done.
Qed.

(** ** The product *)

(** Exponent and mantissa of a float between two powers of two. *)
Lemma between_mantissa x a b : -900 <= a -> b - 52 <= a -> pow_between a b (sf x) ->
  exists m e, sf x = S754_finite false m e /\ a - 53 <= e <= a /\ 2 ^ (a - e) <= Zpos m <= 2 ^ (b - e).
Proof.
  intros Ha Hab (m & e & E & He & Hlo & Hhi). exists m, e. destruct (canonical_facts m e (bounded_sf _ _ _ _ E)) as (_ & Hm1 & Hm2).
  unfold scaled in Hlo.
  assert (a - 53 <= e) as H1.
  { assert (2 ^ (a + 1074) < 2 ^ (53 + (e + 1074))) as Hp.
    { rewrite (Z.pow_add_r 2 53) by lia. eapply Z.le_lt_trans; [exact Hlo|]. apply Z.mul_lt_mono_pos_r; [apply pow2_pos; lia|done]. }
    apply Z.pow_lt_mono_r_iff in Hp; lia. }
  assert (e <= a) as H2.
  { specialize (Hm2 ltac:(lia)). assert (2 ^ 52 <= 2 ^ (b - e)) as Hp by lia. apply Z.pow_le_mono_r_iff in Hp; lia. }
  split_and!; try done. apply (Z.mul_le_mono_pos_r _ _ (2 ^ (e + 1074))); [apply pow2_pos; lia|].
  rewrite <- Z.pow_add_r by lia. by replace (a - e + (e + 1074)) with (a + 1074) by lia.
Qed.

Lemma product_between x y a b c d : -400 <= a -> a <= b <= 400 -> -400 <= c -> c <= d <= 400 -> b - 52 <= a -> d - 52 <= c ->
  pow_between a b (sf x) -> pow_between c d (sf y) -> pow_between (a + c) (b + d + 1) (sf (x * y)%float).
Proof.
  intros Ha Hb Hc Hd Hab Hcd Hx Hy. destruct (between_mantissa x a b ltac:(lia) Hab Hx) as (m & e & Ex & He & Hlo & Hhi).
  destruct (between_mantissa y c d ltac:(lia) Hcd Hy) as (m' & e' & Ey & He' & Hlo' & Hhi').
  rewrite mul_spec, Ex, Ey. unfold SF64mul, SFmul. cbn [xorb].
  pose proof (pow2_pos (a - e) ltac:(lia)). pose proof (pow2_pos (c - e') ltac:(lia)).
  apply round_aux_between; try lia; rewrite Pos2Z.inj_mul.
  - replace (a + c - (e + e')) with ((a - e) + (c - e')) by lia. rewrite Z.pow_add_r by lia. nia.
  - apply Z.le_lt_trans with (2 ^ (b - e) * 2 ^ (d - e')); [nia|]. rewrite <- Z.pow_add_r by lia. apply Z.pow_lt_mono_r; lia.
Qed.

Lemma of_Z_between z k : 2 ^ k <= z < 2 ^ 53 -> 0 <= k -> pow_between k 53 (sf (f64_of_Z z)).
Proof.
  intros Hz Hk. pose proof (pow2_pos k Hk). destruct (f64_of_Z_exact z ltac:(lia)) as (m & e & E & Hv & He). exists m, e.
  destruct (canonical_facts m e (bounded_sf _ _ _ _ E)) as (_ & Hm1 & _). split_and!; try done; try lia.
  - rewrite Hv. unfold scaled. rewrite Z.add_0_l, Z.pow_add_r by lia. apply Z.mul_le_mono_nonneg_r; [lia|lia].
  - assert (2 ^ 53 <= 2 ^ (53 - e)) by (apply Z.pow_le_mono_r; lia). lia.
Qed.

(** ** Conversion *)

Lemma trunc_between x b : 0 <= b <= 62 -> pow_between 0 b (sf x) -> 1 <= f64_to_int64 x <= 2 ^ b.
Proof.
  intros Hb (m & e & E & He & Hlo & Hhi). destruct (scaled_one m e ltac:(lia) Hlo) as [Hm _].
  assert (2 ^ b <= 2 ^ 62) as Hb2 by (apply Z.pow_le_mono_r; lia).
  unfold f64_to_int64, f64_trunc. rewrite E. destruct (Z.leb_spec 0 e) as [Hc|Hc].
  - rewrite Z.shiftl_mul_pow2 by done. pose proof (pow2_pos e Hc).
    assert (Zpos m * 2 ^ e <= 2 ^ b) as Hu.
    { replace (2 ^ b) with (2 ^ (b - e) * 2 ^ e) by (rewrite <- Z.pow_add_r by lia; f_equal; lia). nia. }
    assert (1 <= Zpos m * 2 ^ e) by nia.
    rewrite (proj2 (andb_true_iff _ _)); [lia|]. rewrite !Z.leb_le. unfold min_int64, max_int64. lia.
  - rewrite Z.max_r in Hm by lia. rewrite Z.shiftr_div_pow2 by lia. pose proof (pow2_pos (- e) ltac:(lia)) as Hp.
    assert (1 <= Zpos m / 2 ^ (- e)) as H1 by (apply Z.div_le_lower_bound; lia).
    assert (Zpos m / 2 ^ (- e) <= 2 ^ b) as H2.
    { apply Z.div_le_upper_bound; [done|]. rewrite <- Z.pow_add_r by lia. by replace (- e + b) with (b - e) by lia. }
    rewrite (proj2 (andb_true_iff _ _)); [lia|]. rewrite !Z.leb_le. unfold min_int64, max_int64. lia.
Qed.

(** [time.Duration(float64(interval) * (1.0 / math.Sqrt(float64(count))))] is positive. *)
Lemma interval_over_sqrt interval count k : 0 <= k <= 26 -> 2 ^ k <= interval < 2 ^ 53 -> 1 <= count < 2 ^ (2 * k) ->
  1 <= f64_to_int64 (f64_of_Z interval * (one / PrimFloat.sqrt (f64_of_Z count)))%float <= 2 ^ 55.
Proof.
  intros Hk Hi Hc. assert (1 <= k) as Hk1 by (destruct (Z.eq_dec k 0) as [->|]; [cbn in Hc|]; lia).
  apply trunc_between; [lia|]. replace 0 with (k + - k) by lia.
  apply (product_between _ _ k 53 (- k) 1); try lia.
  - by apply of_Z_between; [|lia].
  - apply recip_between; [done|]. by apply sqrt_of_Z.
Qed.
