(* ===== verification/Strconv.v ===== *)
(** * Decimal integers as strings ([strconv.FormatInt], [strconv.ParseInt] in
    base ten for 64 bits) and the splitting of records the stores serialize. *)

From Stdlib Require Import Ascii.
From S2P Require Import Prelude.
Open Scope Z_scope.

Definition digit_char (d : Z) : Ascii.ascii := Ascii.ascii_of_N (Z.to_N (48 + d)).

Definition char_digit (c : Ascii.ascii) : option Z :=
  let v := Z.of_N (Ascii.N_of_ascii c) in
  if (48 <=? v) && (v <=? 57) then Some (v - 48) else None.

(** The decimal digits of [n] in front of [acc]. *)
Fixpoint digits_of (fuel : nat) (n : Z) (acc : string) : string :=
  match fuel with
  | O => acc
  | S f =>
      let acc' := String (digit_char (n mod 10)) acc in
      if n / 10 =? 0 then acc' else digits_of f (n / 10) acc'
  end.

(** Nineteen digits are enough for every int64. *)
Definition FormatInt (z : Z) : string :=
  if z <? 0 then String "-"%char (digits_of 19 (- z) "") else digits_of 19 z "".

Fixpoint parse_digits (acc : Z) (s : string) : option Z :=
  match s with
  | EmptyString => Some acc
  | String c s' => d ← char_digit c; parse_digits (acc * 10 + d) s'
  end.

Definition parse_nonempty (s : string) : option Z :=
  match s with EmptyString => None | _ => parse_digits 0 s end.

(** [None] is any error: a syntax error or a value out of range. *)
Definition ParseInt (s : string) : option Z :=
  z ← match s with
      | String "-"%char s' => Z.opp <$> parse_nonempty s'
      | String "+"%char s' => parse_nonempty s'
      | _ => parse_nonempty s
      end;
  if (min_int64 <=? z) && (z <=? max_int64) then Some z else None.

(** [strconv.ParseUint] in base ten, the error ignored: zero after a syntax
    error, the largest value when it is out of range. *)
Fixpoint uint_value (acc : Z) (s : string) : Z :=
  match s with
  | EmptyString => acc
  | String c s' =>
      match char_digit c with
      | None => 0
      | Some d => let acc := acc * 10 + d in if 2 ^ 64 <=? acc then 2 ^ 64 - 1 else uint_value acc s'
      end
  end.

(** [strconv.ParseInt], the error ignored. *)
Definition ParseInt_value (s : string) : Z :=
  let '(neg, digits) := match s with
                        | String "-"%char s' => (true, s')
                        | String "+"%char s' => (false, s')
                        | _ => (false, s)
                        end in
  let un := uint_value 0 digits in
  if neg : bool then (if two63 <? un then min_int64 else - un) else (if two63 <=? un then max_int64 else un).

(** What is before and after the first occurrence of [sep]. *)
Fixpoint cut_at (sep : Ascii.ascii) (s : string) : option (string * string) :=
  match s with
  | EmptyString => None
  | String c s' =>
      if Ascii.eqb c sep then Some ("", s')
      else '(a, b) ← cut_at sep s'; Some (String c a, b)
  end.

(** The pieces of [s] between occurrences of [sep]; [cur] is the current piece. *)
Fixpoint split_on (sep : Ascii.ascii) (s : string) (cur : string) : list string :=
  match s with
  | EmptyString => [cur]
  | String c s' =>
      if Ascii.eqb c sep then cur :: split_on sep s' "" else split_on sep s' (cur +:+ String c "")
  end.

(** [strings.IndexByte]: the first index of [c], -1 when it does not occur. *)
Fixpoint IndexByte (s : string) (c : Ascii.ascii) : Z :=
  match s with
  | EmptyString => -1
  | String d s' => if Ascii.eqb d c then 0 else let i := IndexByte s' c in if i <? 0 then -1 else i + 1
  end.

(** [s[:i]] and [s[i:]]. *)
Definition slice_to (s : string) (i : Z) : string := String.substring 0 (Z.to_nat i) s.

Definition slice_from (s : string) (i : Z) : string := String.substring (Z.to_nat i) (String.length s - Z.to_nat i) s.

(** ** Facts *)

Fixpoint avoids (p : Ascii.ascii -> bool) (s : string) : Prop :=
  match s with EmptyString => True | String c s' => p c = false /\ avoids p s' end.

Definition is_digit (c : Ascii.ascii) : bool := bool_decide (is_Some (char_digit c)).

Lemma digit_cases d : 0 <= d < 10 ->
  d = 0 \/ d = 1 \/ d = 2 \/ d = 3 \/ d = 4 \/ d = 5 \/ d = 6 \/ d = 7 \/ d = 8 \/ d = 9.
Proof. lia. Qed.

Lemma char_digit_char d : 0 <= d < 10 -> char_digit (digit_char d) = Some d.
Proof. intros H%digit_cases. by repeat destruct H as [-> | H]; [..|subst]. Qed.

Lemma parse_digits_of fuel n acc : 0 <= n < 10 ^ Z.of_nat fuel ->
  exists k, forall a, parse_digits a (digits_of fuel n acc) = parse_digits (a * k + n) acc.
Proof.
  revert n acc. induction fuel as [|f IH]; intros n acc Hn; cbn [digits_of].
  - exists 1. intros a. f_equal. change (10 ^ Z.of_nat 0) with 1 in Hn. lia.
  - rewrite Nat2Z.inj_succ, Z.pow_succ_r in Hn by lia.
    pose proof (Z.mod_pos_bound n 10 ltac:(lia)) as Hm. pose proof (Z.div_mod n 10 ltac:(lia)) as Hd.
    assert (forall a s, parse_digits a (String (digit_char (n mod 10)) s) = parse_digits (a * 10 + n mod 10) s)
      as Hc by (intros a s; cbn [parse_digits]; by rewrite char_digit_char).
    destruct (Z.eqb_spec (n / 10) 0) as [E|E].
    + exists 10. intros a. rewrite Hc. f_equal. lia.
    + destruct (IH (n / 10) (String (digit_char (n mod 10)) acc)) as [k Hk].
      { split; [apply Z.div_pos; lia|]. apply Z.div_lt_upper_bound; lia. }
      exists (k * 10). intros a. rewrite Hk, Hc. f_equal. lia.
Qed.

Lemma digits_of_nonempty fuel n acc : (0 < fuel)%nat -> exists c s, digits_of fuel n acc = String c s.
Proof.
  revert n acc. induction fuel as [|f IH]; intros n acc Hf; [lia|]. cbn [digits_of].
  destruct (n / 10 =? 0); [by do 2 eexists|]. destruct f as [|f']; [by do 2 eexists|]. apply IH. lia.
Qed.

Lemma digits_of_chars p fuel n acc : 0 <= n -> (forall d, 0 <= d < 10 -> p (digit_char d) = false) ->
  avoids p acc -> avoids p (digits_of fuel n acc).
Proof.
  intros Hn Hp. revert n acc Hn. induction fuel as [|f IH]; intros n acc Hn Ha; cbn [digits_of]; [done|].
  assert (avoids p (String (digit_char (n mod 10)) acc)) by (split; [apply Hp, Z.mod_pos_bound; lia|done]).
  destruct (n / 10 =? 0); [done|]. apply IH; [apply Z.div_pos; lia|done].
Qed.

Lemma parse_nonempty_digits n : 0 <= n < 10 ^ 19 -> parse_nonempty (digits_of 19 n "") = Some n.
Proof.
  intros Hn. destruct (parse_digits_of 19 n "" Hn) as [k Hk]. specialize (Hk 0).
  destruct (digits_of_nonempty 19 n "") as (c & s & E); [lia|]. rewrite E in *. unfold parse_nonempty.
  rewrite Hk. done.
Qed.

(** A digit is not a sign. *)
Lemma parse_unsigned n : 0 <= n < 10 ^ 19 ->
  ParseInt (digits_of 19 n "") = if (min_int64 <=? n) && (n <=? max_int64) then Some n else None.
Proof.
  intros Hn. pose proof (parse_nonempty_digits n Hn) as Hp.
  assert (avoids (fun c => Ascii.eqb c "-"%char || Ascii.eqb c "+"%char) (digits_of 19 n "")) as Ha.
  { apply digits_of_chars; [lia| |done]. intros d H%digit_cases. by repeat destruct H as [-> | H]; [..|subst]. }
  unfold ParseInt. destruct (digits_of 19 n "") as [|c s]; [done|].
  destruct Ha as [[Hm Hpl]%orb_false_iff _]. apply Ascii.eqb_neq in Hm, Hpl.
  destruct c as [[] [] [] [] [] [] [] []]; try (by rewrite Hp); done.
Qed.

Lemma ParseInt_FormatInt z : in64 z -> ParseInt (FormatInt z) = Some z.
Proof.
  unfold in64. intros Hz. unfold FormatInt. change max_int64 with (10 ^ 19 - 776627963145224193) in Hz.
  change min_int64 with (- (10 ^ 19) + 776627963145224192) in Hz.
  destruct (Z.ltb_spec z 0).
  - unfold ParseInt. rewrite parse_nonempty_digits by lia. cbn. rewrite Z.opp_involutive.
    destruct (Z.leb_spec min_int64 z), (Z.leb_spec z max_int64); unfold min_int64, max_int64 in *; try done; lia.
  - rewrite parse_unsigned by lia.
    destruct (Z.leb_spec min_int64 z), (Z.leb_spec z max_int64); unfold min_int64, max_int64 in *; try done; lia.
Qed.

Lemma FormatInt_avoids p z : in64 z -> p "-"%char = false -> (forall d, 0 <= d < 10 -> p (digit_char d) = false) ->
  avoids p (FormatInt z).
Proof.
  intros Hz Hm Hd. unfold FormatInt. destruct (Z.ltb_spec z 0); [split; [done|]|];
    (apply digits_of_chars; [lia|done|done]).
Qed.

Lemma FormatInt_nonempty z : FormatInt z <> "".
Proof.
  unfold FormatInt. destruct (z <? 0); [done|].
  destruct (digits_of_nonempty 19 z "") as (c & s & ->); [lia|done].
Qed.

(** ** Splitting undoes joining *)

Lemma app_string_cons c s t : String c s +:+ t = String c (s +:+ t).
Proof. done. Qed.

Lemma app_string_nil_r s : s +:+ "" = s.
Proof. induction s as [|c s IH]; [done|]. by rewrite app_string_cons, IH. Qed.

Lemma app_string_assoc s1 s2 s3 : s1 +:+ (s2 +:+ s3) = (s1 +:+ s2) +:+ s3.
Proof. induction s1 as [|c s IH]; [done|]. by rewrite !app_string_cons, IH. Qed.

Lemma split_on_piece sep s rest cur : avoids (fun c => Ascii.eqb c sep) s ->
  split_on sep (s +:+ String sep rest) cur = (cur +:+ s) :: split_on sep rest "".
Proof.
  revert cur. induction s as [|c s IH]; intros cur Ha.
  - change ("" +:+ String sep rest) with (String sep rest). cbn [split_on].
    by rewrite Ascii.eqb_refl, app_string_nil_r.
  - destruct Ha as [Hc Ha]. rewrite app_string_cons. cbn [split_on].
    rewrite Hc, IH by done. by rewrite <- app_string_assoc.
Qed.

Lemma split_on_last sep s cur : avoids (fun c => Ascii.eqb c sep) s ->
  split_on sep s cur = [cur +:+ s].
Proof.
  revert cur. induction s as [|c s IH]; intros cur Ha; cbn [split_on]; [by rewrite app_string_nil_r|].
  destruct Ha as [Hc Ha]. rewrite Hc, IH by done. by rewrite <- app_string_assoc.
Qed.

Lemma cut_at_app sep s t : avoids (fun c => Ascii.eqb c sep) s -> cut_at sep (s +:+ String sep t) = Some (s, t).
Proof.
  induction s as [|c s IH]; intros Ha.
  - change ("" +:+ String sep t) with (String sep t). cbn [cut_at]. by rewrite Ascii.eqb_refl.
  - destruct Ha as [Hc Ha]. rewrite app_string_cons. cbn [cut_at]. by rewrite Hc, IH.
Qed.

(** ** Slices *)

Lemma length_string_app (a b : string) : String.length (a +:+ b) = (String.length a + String.length b)%nat.
Proof. induction a as [|x a IH]; [done|]. rewrite app_string_cons. cbn [String.length]. by rewrite IH. Qed.

Lemma get_app (a b : string) : String.get (String.length a) (a +:+ b) = String.get 0 b.
Proof. induction a as [|x a IH]; [done|]. exact IH. Qed.

Lemma substring_prefix (a b : string) : String.substring 0 (String.length a) (a +:+ b) = a.
Proof. induction a as [|x a IH]; [by destruct b|]. rewrite app_string_cons. cbn [String.length String.substring]. by rewrite IH. Qed.

Lemma substring_app (a b c : string) : String.substring (String.length a) (String.length b) (a +:+ (b +:+ c)) = b.
Proof.
  induction a as [|x a IH]; [change ("" +:+ (b +:+ c)) with (b +:+ c); apply substring_prefix|exact IH].
Qed.

(** The index of a separator splits the string as [cut_at] does. *)
Lemma cut_at_index sep s : cut_at sep s =
  if IndexByte s sep <? 0 then None else Some (slice_to s (IndexByte s sep), slice_from s (IndexByte s sep + 1)).
Proof.
  assert (forall s, -1 <= IndexByte s sep) as Hlow.
  { clear s. induction s as [|c s IH]; cbn; [lia|]. destruct (Ascii.eqb c sep); [lia|]. destruct (Z.ltb_spec (IndexByte s sep) 0); lia. }
  assert (forall s, String.substring 0 (String.length s) s = s) as Hall.
  { clear. induction s as [|c s IH]; [done|]. cbn. by rewrite IH. }
  induction s as [|c s IH]; [done|]. cbn [cut_at IndexByte]. destruct (Ascii.eqb c sep).
  - change (slice_from (String c s) (0 + 1)) with (String.substring 0 (String.length s - 0) s).
    rewrite Nat.sub_0_r, Hall. by destruct s.
  - rewrite IH. specialize (Hlow s). destruct (Z.ltb_spec (IndexByte s sep) 0); [done|]. cbv zeta.
    destruct (Z.ltb_spec (IndexByte s sep + 1) 0); [lia|]. cbn [mbind option_bind]. unfold slice_to, slice_from.
    replace (Z.to_nat (IndexByte s sep + 1 + 1)) with (S (Z.to_nat (IndexByte s sep + 1))) by lia.
    replace (Z.to_nat (IndexByte s sep + 1)) with (S (Z.to_nat (IndexByte s sep))) by lia. done.
Qed.
