(* ===== verification/StrconvFloat.v ===== *)
(** * Doubles as strings ([strconv.FormatFloat] with format ['g'] and the
    shortest precision, [strconv.ParseFloat] for 64 bits).

    The stores print the state of a token bucket this way.  [ParseFloat] rounds
    the exact value of the text once; [FormatFloat] prints the least number of
    digits that [ParseFloat] reads back as the same double. *)

From Stdlib Require Import Floats Ascii.
From S2P Require Import Prelude Float64 Float64Round Float64Exact Strconv.
Open Scope Z_scope.

(** ** Rounding of ratios and decimals *)

(** [num / den], rounded once to the nearest double, ties to even. *)
Definition round_ratio (num den : Z) : spec_float :=
  let '(q, e, l) := SFdiv_core_binary prec emax num 0 den 0 in binary_round_aux prec emax false q e l.

(** [m * base^k] for a natural number [m]. *)
Definition round_scaled (base m k : Z) : spec_float :=
  if m =? 0 then S754_zero false
  else if 0 <=? k then round_ratio (m * base ^ k) 1 else round_ratio m (base ^ (- k)).

Definition with_sign (neg : bool) (x : spec_float) : spec_float := if neg then SFopp x else x.

Definition sf_eqb (x y : spec_float) : bool :=
  match x, y with
  | S754_zero s, S754_zero s' | S754_infinity s, S754_infinity s' => Bool.eqb s s'
  | S754_nan, S754_nan => true
  | S754_finite s m e, S754_finite s' m' e' => Bool.eqb s s' && (m =? m')%positive && (e =? e')
  | _, _ => false
  end.

(** ** Digits *)

Fixpoint digit_list (fuel : nat) (n : Z) (acc : list Z) : list Z :=
  match fuel with
  | O => acc
  | S f => let acc := (n mod 10) :: acc in if n / 10 =? 0 then acc else digit_list f (n / 10) acc
  end.

(** As many digits as bits are enough. *)
Definition decimal_digits (n : Z) : list Z := digit_list (S (Z.to_nat (Z.log2 n))) n [].

Definition dec_value (ds : list Z) : Z := foldl (fun a d => a * 10 + d) 0 ds.

Definition digit_string (ds : list Z) : string := foldr (fun d s => String (digit_char d) s) "" ds.

(** ** The shortest decimal *)

(** [M * 10^K] without the zeros at the end of [M]. *)
Fixpoint strip (fuel : nat) (M K : Z) : Z * Z :=
  match fuel with
  | O => (M, K)
  | S f => if M mod 10 =? 0 then strip f (M / 10) (K + 1) else (M, K)
  end.

Definition stripped (M K : Z) : Z * Z := strip (Z.to_nat (Z.log2 M)) M K.

Definition reads_as (x : spec_float) (c : Z * Z) : bool := sf_eqb (round_scaled 10 (fst c) (snd c)) x.

(** The number [N * 10^K] with [L] digits, cut to [n] digits: down or up,
    whichever reads back as [x]; the nearer of the two if both do. *)
Definition cut (N K : Z) (L n : nat) (x : spec_float) : option (Z * Z) :=
  let shift := Z.of_nat L - Z.of_nat n in
  let unit := 10 ^ shift in
  let rest := N mod unit in
  let down := stripped (N / unit) (K + shift) in
  let up := stripped (N / unit + 1) (K + shift) in
  let nearer := if 2 * rest <? unit then down
                else if unit <? 2 * rest then up
                else if Z.even (N / unit) then down else up in
  match reads_as x down, reads_as x up with
  | true, true => Some nearer
  | true, false => Some down
  | false, true => Some up
  | false, false => None
  end.

Fixpoint shortest_from (turns : nat) (N K : Z) (L n : nat) (x : spec_float) : Z * Z :=
  match turns with
  | O => stripped N K
  | S t => match cut N K L n x with Some r => r | None => shortest_from t N K L (S n) x end
  end.

(** [m * 2^e] as an exact decimal. *)
Definition exact_decimal (m : positive) (e : Z) : Z * Z :=
  if 0 <=? e then (Zpos m * 2 ^ e, 0) else (Zpos m * 5 ^ (- e), e).

Definition shortest (m : positive) (e : Z) : Z * Z :=
  let '(N, K) := exact_decimal m e in
  let L := length (decimal_digits N) in
  shortest_from (pred L) N K L 1 (S754_finite false m e).

(** ** Printing: the digits [ds] with the point [dp] places after the first *)

Definition int_string (n : Z) : string := digit_string (decimal_digits n).

Definition fmtE (ds : list Z) (dp : Z) : string :=
  let exp := dp - 1 in
  digit_string (take 1 ds) +:+
  (if (1 <? length ds)%nat then "." +:+ digit_string (drop 1 ds) else "") +:+
  "e" +:+ (if exp <? 0 then "-" else "+") +:+ (if Z.abs exp <? 10 then "0" else "") +:+ int_string (Z.abs exp).

Definition fmtF (ds : list Z) (dp : Z) : string :=
  let nd := Z.of_nat (length ds) in
  let p := Z.to_nat dp in
  (if 0 <? dp then digit_string (take p ds ++ replicate (p - length ds) 0) else "0") +:+
  (if dp <? nd then "." +:+ digit_string (replicate (Z.to_nat (- dp)) 0 ++ drop p ds) else "").

Definition fmtG (ds : list Z) (dp : Z) : string :=
  if (dp - 1 <? -4) || (6 <=? dp - 1) then fmtE ds dp else fmtF ds dp.

Definition FormatFloat (x : f64) : string :=
  match sf x with
  | S754_nan => "NaN"
  | S754_infinity s => if s then "-Inf" else "+Inf"
  | S754_zero s => if s then "-0" else "0"
  | S754_finite s m e =>
      let '(M, K) := shortest m e in
      let ds := decimal_digits M in
      (if s then "-" else "") +:+ fmtG ds (Z.of_nat (length ds) + K)
  end.

(** ** Reading *)

Definition lower (c : ascii) : ascii := ascii_of_N (N.lor (N_of_ascii c) 32).

Definition digit_val (hex : bool) (c : ascii) : option Z :=
  match char_digit c with
  | Some d => Some d
  | None =>
      let v := Z.of_N (N_of_ascii (lower c)) in
      if hex && (97 <=? v) && (v <=? 102) then Some (v - 87) else None
  end.

(** What the loop over the digits has seen: their value, the digits after the
    point, if there was one, whether there was a digit or an underscore. *)
Record scan_state := mkScan { sc_mant : Z; sc_dot : option Z; sc_digits : bool; sc_under : bool }.

Fixpoint scan (hex : bool) (s : string) (st : scan_state) : scan_state * string :=
  match s with
  | EmptyString => (st, s)
  | String c s' =>
      if Ascii.eqb c "_" then scan hex s' (mkScan (sc_mant st) (sc_dot st) (sc_digits st) true)
      else if Ascii.eqb c "." then
        match sc_dot st with
        | Some _ => (st, s)
        | None => scan hex s' (mkScan (sc_mant st) (Some 0) (sc_digits st) (sc_under st))
        end
      else
        match digit_val hex c with
        | Some d => scan hex s' (mkScan (sc_mant st * (if hex then 16 else 10) + d) (Z.succ <$> sc_dot st) true (sc_under st))
        | None => (st, s)
        end
  end.

(** The digits of the exponent, which stops growing at ten thousand. *)
Fixpoint scan_exp (s : string) (e : Z) (us : bool) : Z * bool * string :=
  match s with
  | EmptyString => (e, us, s)
  | String c s' =>
      if Ascii.eqb c "_" then scan_exp s' e true
      else match char_digit c with
           | Some d => scan_exp s' (if e <? 10000 then e * 10 + d else e) us
           | None => (e, us, s)
           end
  end.

Definition cut_sign (s : string) : bool * string :=
  match s with
  | String "+" s' => (false, s')
  | String "-" s' => (true, s')
  | _ => (false, s)
  end.

Definition starts_digit (s : string) : bool :=
  match s with String c _ => bool_decide (is_Some (char_digit c)) | EmptyString => false end.

(** [underscoreOK]: underscores only between digits or after a base prefix. *)
Fixpoint under_loop (hex : bool) (saw : ascii) (s : string) : bool :=
  match s with
  | EmptyString => negb (Ascii.eqb saw "_")
  | String c s' =>
      if bool_decide (is_Some (digit_val hex c)) then under_loop hex "0" s'
      else if Ascii.eqb c "_" then Ascii.eqb saw "0" && under_loop hex "_" s'
      else negb (Ascii.eqb saw "_") && under_loop hex "!" s'
  end.

Definition underscoreOK (s : string) : bool :=
  let s := snd (cut_sign s) in
  match s with
  | String "0" (String p s') =>
      let l := lower p in
      if Ascii.eqb l "b" || Ascii.eqb l "o" || Ascii.eqb l "x" then under_loop (Ascii.eqb l "x") "0" s'
      else under_loop false "^" s
  | _ => under_loop false "^" s
  end.

(** The prefix ["0x"], with something after it. *)
Definition cut_hex (s : string) : bool * string :=
  match s with
  | String "0" (String p (String c s')) =>
      if Ascii.eqb (lower p) "x" then (true, String c s') else (false, s)
  | _ => (false, s)
  end.

Fixpoint lower_string (s : string) : string :=
  match s with EmptyString => "" | String c s' => String (lower c) (lower_string s') end.

(** [special], for a whole string. *)
Definition special (s : string) : option spec_float :=
  let inf neg s := if bool_decide (lower_string s = "inf" \/ lower_string s = "infinity") then Some (S754_infinity neg) else None in
  match s with
  | String "+" s' => inf false s'
  | String "-" s' => inf true s'
  | _ => if bool_decide (lower_string s = "nan") then Some S754_nan else inf false s
  end.

(** The exponent after the digits: its value, and what is left. *)
Definition read_exp (hex : bool) (us : bool) (s : string) : option (Z * bool * string) :=
  match s with
  | String c s' =>
      if Ascii.eqb (lower c) (if hex then "p" else "e") then
        let '(neg, s') := cut_sign s' in
        if starts_digit s' then
          let '(e, us, s') := scan_exp s' 0 us in Some (if neg : bool then - e else e, us, s')
        else None
      else if hex then None else Some (0, us, s)
  | EmptyString => if hex then None else Some (0, us, s)
  end.

Definition readFloat (s : string) : option spec_float :=
  let '(neg, s1) := cut_sign s in
  let '(hex, s2) := cut_hex s1 in
  let '(st, s3) := scan hex s2 (mkScan 0 None false false) in
  if negb (sc_digits st) then None
  else
    '(e, us, rest) ← read_exp hex (sc_under st) s3;
    if negb (bool_decide (rest = "")) || (us && negb (underscoreOK s)) then None
    else
      let frac := default 0 (sc_dot st) in
      Some (with_sign neg (if hex then round_scaled 2 (sc_mant st) (e - 4 * frac)
                           else round_scaled 10 (sc_mant st) (e - frac))).

(** [None] is any error: a syntax error, or a number too large. *)
Definition ParseFloat (s : string) : option f64 :=
  match special s with
  | Some x => Some (SF2Prim x)
  | None =>
      match readFloat s with
      | Some (S754_infinity _) | None => None
      | Some x => Some (SF2Prim x)
      end
  end.

(** ** Rounding an exact ratio *)

Lemma F_mono a b : a <= b -> F a <= F b.
Proof. rewrite !fexp_value. lia. Qed.

Lemma location_zero d : new_location d 0 = loc_Exact.
Proof. unfold new_location, new_location_even, new_location_odd. by destruct (Z.even d). Qed.

(** A ratio that is the double [m * 2^e]. *)
Definition same_value (num den : Z) (m : positive) (e : Z) : Prop :=
  num * 2 ^ Z.max 0 (- e) = Zpos m * 2 ^ Z.max 0 e * den.

Lemma digits_of_ratio num den m e : 0 < num -> 0 < den -> same_value num den m e ->
  Zdigits2 num - Zdigits2 den <= Zdigits2 (Zpos m) + e.
Proof.
  intros Hn Hd H. destruct (Zdigits2_bounds num Hn) as (N0 & N1 & _). destruct (Zdigits2_bounds den Hd) as (D0 & _ & D2).
  destruct (Zdigits2_bounds (Zpos m) ltac:(done)) as (M0 & _ & M2). unfold same_value in H.
  set (a := Z.max 0 (- e)) in *. set (b := Z.max 0 e) in *. pose proof (pow2_pos a ltac:(lia)) as Ha. pose proof (pow2_pos b ltac:(lia)) as Hb.
  enough (Zdigits2 num - 1 + a < Zdigits2 (Zpos m) + b + Zdigits2 den) by lia.
  apply (Z.pow_lt_mono_r_iff 2); [done|lia|]. rewrite !Z.pow_add_r by lia.
  apply Z.le_lt_trans with (num * 2 ^ a); [apply Z.mul_le_mono_nonneg_r; lia|]. rewrite H.
  apply Z.mul_lt_mono_nonneg; [nia| |lia|done]. apply Z.mul_lt_mono_pos_r; lia.
Qed.

Lemma round_ratio_exact num den m e : 0 < num -> 0 < den -> bounded prec emax m e = true -> same_value num den m e ->
  round_ratio num den = S754_finite false m e.
Proof.
  intros Hn Hd B H. pose proof (digits_of_ratio num den m e Hn Hd H) as HD. destruct (bounded_fexp m e B) as [HF _].
  unfold round_ratio, SFdiv_core_binary. rewrite !Z.add_0_r, Z.sub_0_r. set (e' := Z.min (F (Zdigits2 num - Zdigits2 den)) 0).
  assert (-1074 <= e' <= 0) as He' by (unfold e'; rewrite fexp_value; lia).
  assert (e' <= e) as Hle by (pose proof (F_mono _ _ HD); lia). clearbody e'.
  assert (match 0 - e' with Z0 => num | Zpos _ => Z.shiftl num (0 - e') | Zneg _ => 0 end = Zpos m * 2 ^ (e - e') * den) as ->.
  { transitivity (num * 2 ^ (- e')).
    - destruct e' as [|p|p]; [by rewrite Z.mul_1_r|lia|]. change (0 - Zneg p) with (Zpos p). change (- Zneg p) with (Zpos p).
      by rewrite Z.shiftl_mul_pow2.
    - unfold same_value in H. apply (Z.mul_reg_r _ _ (2 ^ Z.max 0 (- e))); [pose proof (pow2_pos (Z.max 0 (- e))); lia|].
      replace (num * 2 ^ (- e') * 2 ^ Z.max 0 (- e)) with (Zpos m * (2 ^ Z.max 0 e * 2 ^ (- e')) * den) by nia.
      replace (Zpos m * 2 ^ (e - e') * den * 2 ^ Z.max 0 (- e)) with (Zpos m * (2 ^ (e - e') * 2 ^ Z.max 0 (- e)) * den) by nia.
      rewrite <- !Z.pow_add_r by lia. do 3 f_equal. lia. }
  pose proof (Z_div_mult (Zpos m * 2 ^ (e - e')) den ltac:(lia)) as Eq. pose proof (Z_mod_mult (Zpos m * 2 ^ (e - e')) den) as Er.
  unfold Z.div, Z.modulo in Eq, Er. destruct (Z.div_eucl _ den) as [q r]. subst q r. rewrite location_zero.
  replace e' with (e - (e - e')) at 2 by lia. apply round_aux_canonical; [done|lia|lia].
Qed.

(** ** The shortest decimal reads back *)

Lemma sf_eqb_eq x y : sf_eqb x y = true -> x = y.
Proof.
  destruct x as [s|s| |s m e], y as [s'|s'| |s' m' e']; cbn; try done.
  - by intros ->%Bool.eqb_prop.
  - by intros ->%Bool.eqb_prop.
  - intros [[->%Bool.eqb_prop ->%Pos.eqb_eq]%andb_true_iff ->%Z.eqb_eq]%andb_true_iff. done.
Qed.

Lemma pow10_pos n : 0 <= n -> 0 < 10 ^ n.
Proof. intros. by apply Z.pow_pos_nonneg. Qed.

Lemma strip_value fuel M K : 0 < M ->
  exists j, 0 <= j <= Z.of_nat fuel /\ M = fst (strip fuel M K) * 10 ^ j /\ snd (strip fuel M K) = K + j.
Proof.
  revert M K. induction fuel as [|f IH]; intros M K HM; cbn [strip].
  - exists 0. cbn. lia.
  - destruct (Z.eqb_spec (M mod 10) 0) as [E|E]; [|exists 0; cbn [fst snd]; rewrite Z.mul_1_r; lia].
    apply Z.div_exact in E; [|done]. destruct (IH (M / 10) (K + 1) ltac:(lia)) as (j & Hj & EM & EK).
    exists (j + 1). split; [lia|]. rewrite Z.pow_add_r by lia. change (10 ^ 1) with 10. split; [|lia].
    rewrite Z.mul_assoc, <- EM. lia.
Qed.

(** What the stripped pair of [M * 10^K] is. *)
Lemma stripped_spec M K : 0 < M ->
  exists j, 0 <= j <= Z.log2 M /\ M = fst (stripped M K) * 10 ^ j /\ snd (stripped M K) = K + j.
Proof.
  intros HM. destruct (strip_value (Z.to_nat (Z.log2 M)) M K HM) as (j & Hj & E). exists j.
  pose proof (Z.log2_nonneg M). split; [lia|done].
Qed.

Lemma stripped_bounds M K : 0 < M -> 0 < fst (stripped M K) <= M /\ K <= snd (stripped M K) <= K + Z.log2 M.
Proof.
  intros HM. destruct (stripped_spec M K HM) as (j & Hj & EM & EK). pose proof (pow10_pos j ltac:(lia)). nia.
Qed.

Lemma exact_decimal_reads m e : bounded prec emax m e = true ->
  let '(N, K) := exact_decimal m e in
  let '(M, K') := stripped N K in round_scaled 10 M K' = S754_finite false m e.
Proof.
  intros B. assert (0 < fst (exact_decimal m e)) as HN.
  { unfold exact_decimal. destruct (Z.leb_spec 0 e); cbn [fst]; apply Z.mul_pos_pos; try done; apply Z.pow_pos_nonneg; lia. }
  destruct (exact_decimal m e) as [N K] eqn:Ed. cbn [fst] in HN. destruct (stripped_spec N K HN) as (j & Hj & EN & EK).
  destruct (stripped N K) as [M K']. cbn [fst snd] in *. pose proof (pow10_pos j ltac:(lia)) as Hp.
  assert (0 < M) as HM by nia. unfold round_scaled. rewrite (proj2 (Z.eqb_neq M 0)) by lia.
  unfold exact_decimal in Ed. destruct (Z.leb_spec 0 e) as [He|He]; injection Ed as EN' <-.
  - rewrite (proj2 (Z.leb_le 0 K')) by lia. apply round_ratio_exact; [|done|done|]; subst K'.
    + apply Z.mul_pos_pos; [done|]. apply pow10_pos. lia.
    + unfold same_value. rewrite !Z.max_l, !Z.max_r, Z.mul_1_r, Z.mul_1_r by lia. replace (0 + j) with j by lia. by rewrite <- EN.
  - assert (10 ^ (- e) = 5 ^ (- e) * 2 ^ (- e)) as E10 by (rewrite <- Z.pow_mul_l; done).
    assert (0 < 5 ^ (- e)) as H5 by (apply Z.pow_pos_nonneg; lia). pose proof (pow2_pos (- e) ltac:(lia)) as H2.
    destruct (Z.leb_spec 0 K') as [HK|HK]; apply round_ratio_exact; try done.
    + apply Z.mul_pos_pos; [done|]. by apply pow10_pos.
    + unfold same_value. rewrite Z.max_r, Z.max_l, !Z.mul_1_r by lia. apply (Z.mul_reg_r _ _ (5 ^ (- e))); [lia|].
      rewrite EN', EN. replace (M * 10 ^ K' * 2 ^ (- e) * 5 ^ (- e)) with (M * (10 ^ K' * 10 ^ (- e))) by (rewrite E10; ring).
      rewrite <- Z.pow_add_r by lia. do 2 f_equal. lia.
    + apply pow10_pos. lia.
    + unfold same_value. rewrite Z.max_r, Z.max_l, !Z.mul_1_r by lia. apply (Z.mul_reg_r _ _ (10 ^ j)); [lia|].
      replace (Zpos m * 10 ^ (- K') * 10 ^ j) with (Zpos m * (10 ^ (- K') * 10 ^ j)) by ring. rewrite <- Z.pow_add_r by lia.
      replace (- K' + j) with (- e) by lia. rewrite E10, Z.mul_assoc, EN', EN. ring.
Qed.

(** A decimal that reads as [x], within the bounds of the digits of [N]. *)
Definition decimal_ok (N K : Z) (L : nat) (x : spec_float) (c : Z * Z) : Prop :=
  round_scaled 10 (fst c) (snd c) = x /\ 0 < fst c <= N + 1 /\ K <= snd c <= K + Z.of_nat L + Z.log2 (N + 1).

Lemma cut_ok N K L n x c : 0 < N -> (0 < n <= L)%nat -> 10 ^ (Z.of_nat L - 1) <= N -> cut N K L n x = Some c ->
  decimal_ok N K L x c.
Proof.
  intros HN Hn HL Hc. set (shift := Z.of_nat L - Z.of_nat n). pose proof (pow10_pos shift ltac:(lia)) as Hu.
  assert (0 < N / 10 ^ shift <= N) as Hdiv.
  { split; [|apply Z.div_le_upper_bound; nia]. apply Z.div_str_pos. split; [done|]. etransitivity; [|exact HL].
    apply Z.pow_le_mono_r; lia. }
  assert (forall M, 0 < M <= N + 1 -> reads_as x (stripped M (K + shift)) = true -> decimal_ok N K L x (stripped M (K + shift))) as Hok.
  { intros M HM Hr. destruct (stripped_bounds M (K + shift) ltac:(lia)) as [H1 H2]. unfold decimal_ok.
    split; [by apply sf_eqb_eq|]. split; [lia|]. assert (Z.log2 M <= Z.log2 (N + 1)) by (apply Z.log2_le_mono; lia). lia. }
  unfold cut in Hc. fold shift in Hc. cbv zeta in Hc.
  destruct (reads_as x (stripped (N / 10 ^ shift) (K + shift))) eqn:E1,
           (reads_as x (stripped (N / 10 ^ shift + 1) (K + shift))) eqn:E2; try done; injection Hc as <-.
  - repeat case_match; apply Hok; (done || lia).
  - apply Hok; (done || lia).
  - apply Hok; (done || lia).
Qed.

Lemma shortest_from_ok turns N K L n x : 0 < N -> (0 < n)%nat -> (n + turns <= S L)%nat -> 10 ^ (Z.of_nat L - 1) <= N ->
  round_scaled 10 (fst (stripped N K)) (snd (stripped N K)) = x -> decimal_ok N K L x (shortest_from turns N K L n x).
Proof.
  intros HN. revert n. induction turns as [|t IH]; intros n Hn Ht HL Hx; cbn [shortest_from].
  - destruct (stripped_bounds N K HN) as [H1 H2]. split; [done|]. split; [lia|].
    assert (Z.log2 N <= Z.log2 (N + 1)) by (apply Z.log2_le_mono; lia). lia.
  - destruct (cut N K L n x) as [c|] eqn:Ec; [|apply IH; (done || lia)]. by apply (cut_ok _ _ _ n); [|lia|..].
Qed.

(** ** Digits *)

Definition digits_ok (ds : list Z) : Prop := Forall (fun d => 0 <= d < 10) ds.

Definition dec_from (a : Z) (ds : list Z) : Z := foldl (fun a d => a * 10 + d) a ds.

Lemma dec_from_app a ds ds' : dec_from a (ds ++ ds') = dec_from (dec_from a ds) ds'.
Proof. apply foldl_app. Qed.

Lemma dec_from_value a ds : dec_from a ds = a * 10 ^ Z.of_nat (length ds) + dec_from 0 ds.
Proof.
  revert a. induction ds as [|d ds IH]; intros a; [cbn; lia|]. cbn [dec_from foldl]. fold (dec_from (a * 10 + d) ds).
  fold (dec_from (0 * 10 + d) ds). rewrite IH, (IH (0 * 10 + d)). cbn [length]. rewrite Nat2Z.inj_succ, Z.pow_succ_r by lia. lia.
Qed.

Lemma dec_from_ge a ds : digits_ok ds -> 0 <= a -> a <= dec_from a ds.
Proof.
  intros Hds. revert a. induction Hds as [|d ds Hd _ IH]; intros a Ha; [done|]. cbn [dec_from foldl].
  fold (dec_from (a * 10 + d) ds). specialize (IH (a * 10 + d) ltac:(lia)). lia.
Qed.

Lemma dec_from_zeros a k : dec_from a (replicate k 0) = a * 10 ^ Z.of_nat k.
Proof.
  rewrite dec_from_value, length_replicate. assert (dec_from 0 (replicate k 0) = 0) as ->; [|lia]. by induction k.
Qed.

(** The digits of [n] in front of [acc], and how many there are. *)
Lemma digit_list_spec fuel n acc : 0 < n < 10 ^ Z.of_nat fuel -> digits_ok acc ->
  exists ds, digit_list fuel n acc = ds ++ acc /\ digits_ok ds /\ dec_from 0 ds = n /\ ds <> [] /\
    10 ^ (Z.of_nat (length ds) - 1) <= n /\ (length ds <= fuel)%nat.
Proof.
  revert n acc. induction fuel as [|f IH]; intros n acc Hn Ha; [cbn in Hn; lia|]. cbn [digit_list].
  rewrite Nat2Z.inj_succ, Z.pow_succ_r in Hn by lia. pose proof (Z.mod_pos_bound n 10 ltac:(lia)) as Hm.
  pose proof (Z.div_mod n 10 ltac:(lia)) as Hd. destruct (Z.eqb_spec (n / 10) 0) as [E|E].
  - exists [n mod 10]. split_and!; [done|by constructor|cbn; lia|done|cbn; lia|cbn; lia].
  - assert (0 <= n / 10) by (apply Z.div_pos; lia).
    destruct (IH (n / 10) ((n mod 10) :: acc)) as (ds & -> & Hok & Hv & Hne & Hlo & Hlen).
    { split; [lia|]. apply Z.div_lt_upper_bound; lia. }
    { by constructor. }
    exists (ds ++ [n mod 10]). split_and!; [by rewrite <- app_assoc|by apply Forall_app_2; [|constructor]| |by destruct ds| |].
    + rewrite dec_from_app, Hv. cbn. lia.
    + rewrite length_app. cbn [length]. replace (Z.of_nat (length ds + 1) - 1) with (Z.succ (Z.of_nat (length ds) - 1)) by lia.
      destruct ds as [|d ds]; [done|]. rewrite Z.pow_succ_r by (cbn [length]; lia). lia.
    + rewrite length_app. cbn [length]. lia.
Qed.

Lemma decimal_digits_spec n : 0 < n ->
  let ds := decimal_digits n in
  digits_ok ds /\ dec_from 0 ds = n /\ ds <> [] /\ 10 ^ (Z.of_nat (length ds) - 1) <= n /\ Z.of_nat (length ds) <= Z.log2 n + 1.
Proof.
  intros Hn. destruct (digit_list_spec (S (Z.to_nat (Z.log2 n))) n []) as (ds & E & Hok & Hv & Hne & Hlo & Hlen); [|constructor|].
  - split; [done|]. pose proof (Z.log2_nonneg n). destruct (Z.log2_spec n Hn) as [_ Hup].
    eapply Z.lt_le_trans; [exact Hup|]. replace (Z.of_nat (S (Z.to_nat (Z.log2 n)))) with (Z.succ (Z.log2 n)) by lia.
    apply Z.pow_le_mono_l. lia.
  - cbv zeta. unfold decimal_digits. rewrite E, app_nil_r. split_and!; try done. pose proof (Z.log2_nonneg n). lia.
Qed.

(** ** Bounds on what is printed *)

Definition print_ok (M K : Z) : Prop := 0 < M < 2 ^ 2600 /\ -1074 <= K <= 6000.

Lemma exact_decimal_bound m e : bounded prec emax m e = true ->
  0 < fst (exact_decimal m e) /\ fst (exact_decimal m e) + 1 < 2 ^ 2600 /\ -1074 <= snd (exact_decimal m e) <= 0.
Proof.
  intros B. destruct (canonical_facts m e B) as (He & Hm & _). destruct (bounded_fexp m e B) as [_ Hmax].
  assert (forall b k j, (b = 2 \/ b = 5) -> 0 <= k <= j -> (j = 971 /\ b = 2 \/ j = 1074) -> 0 < Zpos m * b ^ k /\ Zpos m * b ^ k + 1 < 2 ^ 2600) as Hb.
  { intros b k j Hb Hk Hj. assert (0 < b ^ k) by (apply Z.pow_pos_nonneg; lia). split; [lia|].
    assert (b ^ k <= 5 ^ 1074) as Hle.
    { transitivity (5 ^ k); [apply Z.pow_le_mono_l; lia|]. apply Z.pow_le_mono_r; lia. }
    assert (2 ^ 53 * 5 ^ 1074 + 1 < 2 ^ 2600) as Hc by (vm_compute; reflexivity).
    assert (Zpos m * b ^ k <= 2 ^ 53 * 5 ^ 1074); [|lia]. apply Z.mul_le_mono_nonneg; lia. }
  unfold exact_decimal. destruct (Z.leb_spec 0 e); cbn [fst snd].
  - destruct (Hb 2 e 971 ltac:(by left) ltac:(lia) ltac:(by left)) as [H1 H2]. lia.
  - destruct (Hb 5 (- e) 1074 ltac:(by right) ltac:(lia) ltac:(by right)) as [H1 H2]. lia.
Qed.

(** What [FormatFloat] prints reads back as the double. *)
Lemma shortest_spec m e : bounded prec emax m e = true ->
  round_scaled 10 (fst (shortest m e)) (snd (shortest m e)) = S754_finite false m e /\
  print_ok (fst (shortest m e)) (snd (shortest m e)).
Proof.
  intros B. destruct (exact_decimal_bound m e B) as (HN & HNb & HK). pose proof (exact_decimal_reads m e B) as Hx.
  unfold shortest. destruct (exact_decimal m e) as [N K]. cbn [fst snd] in *.
  destruct (decimal_digits_spec N HN) as (_ & _ & Hne & Hlo & Hlen). set (L := length (decimal_digits N)) in *.
  assert (0 < L)%nat by (unfold L; destruct (decimal_digits N); [done|cbn; lia]).
  destruct (shortest_from_ok (pred L) N K L 1 (S754_finite false m e) HN) as (H1 & H2 & H3); [lia|lia|done| |].
  { by destruct (stripped N K). }
  split; [done|]. assert (Z.log2 (N + 1) < 2600) by (apply Z.log2_lt_pow2; lia).
  assert (Z.log2 N <= Z.log2 (N + 1)) by (apply Z.log2_le_mono; lia). unfold print_ok. lia.
Qed.

(** ** Reading what is printed *)

Lemma digit_string_app ds ds' : digit_string (ds ++ ds') = digit_string ds +:+ digit_string ds'.
Proof. induction ds as [|d ds IH]; [done|]. change (digit_string ((d :: ds) ++ ds')) with (String (digit_char d) (digit_string (ds ++ ds'))). by rewrite IH. Qed.

Lemma digit_string_chars p ds : digits_ok ds -> (forall d, 0 <= d < 10 -> p (digit_char d) = false) -> avoids p (digit_string ds).
Proof. intros Hds Hp. induction Hds as [|d ds Hd _ IH]; [done|]. split; [by apply Hp|done]. Qed.

Lemma digit_char_plain d : 0 <= d < 10 ->
  Ascii.eqb (digit_char d) "_" = false /\ Ascii.eqb (digit_char d) "." = false /\ digit_val false (digit_char d) = Some d.
Proof. intros H%digit_cases. by repeat destruct H as [-> | H]; [..|subst]. Qed.

Definition after_digits (st : scan_state) (ds : list Z) : scan_state :=
  mkScan (dec_from (sc_mant st) ds) (Z.add (Z.of_nat (length ds)) <$> sc_dot st)
    (sc_digits st || (0 <? length ds)%nat) (sc_under st).

Lemma scan_digits ds rest st : digits_ok ds -> scan false (digit_string ds +:+ rest) st = scan false rest (after_digits st ds).
Proof.
  intros Hds. revert st. induction Hds as [|d ds Hd _ IH]; intros st.
  - unfold after_digits. destruct st as [m [dot|] dg us]; cbn; by rewrite orb_false_r.
  - change (digit_string (d :: ds) +:+ rest) with (String (digit_char d) (digit_string ds +:+ rest)). cbn [scan].
    destruct (digit_char_plain d Hd) as (-> & -> & ->). rewrite IH. f_equal. unfold after_digits. cbn [sc_mant sc_dot sc_digits sc_under].
    f_equal; [|cbn; by rewrite orb_true_r]. destruct (sc_dot st) as [dot|]; [|done]. cbn [fmap option_fmap option_map length]. f_equal. lia.
Qed.

Lemma scan_exp_digits ds e us : digits_ok ds -> 0 <= e -> dec_from e ds < 10000 ->
  scan_exp (digit_string ds) e us = (dec_from e ds, us, "").
Proof.
  intros Hds. revert e. induction Hds as [|d ds Hd Hds IH]; intros e He Hlt; [done|].
  change (digit_string (d :: ds)) with (String (digit_char d) (digit_string ds)). cbn [scan_exp].
  destruct (digit_char_plain d Hd) as (-> & _ & _). rewrite char_digit_char by done.
  cbn [dec_from foldl] in Hlt. fold (dec_from (e * 10 + d) ds) in Hlt. pose proof (dec_from_ge (e * 10 + d) ds Hds ltac:(lia)).
  rewrite (proj2 (Z.ltb_lt e 10000)) by lia. by apply IH; [lia|].
Qed.

Lemma starts_digit_string d ds rest : 0 <= d < 10 -> starts_digit (digit_string (d :: ds) +:+ rest) = true.
Proof.
  intros Hd. change (digit_string (d :: ds) +:+ rest) with (String (digit_char d) (digit_string ds +:+ rest)).
  unfold starts_digit. apply bool_decide_eq_true. rewrite char_digit_char by done. by eexists.
Qed.

(** The exponent as [fmtE] prints it. *)
Definition exp_string (exp : Z) : string :=
  "e" +:+ (if exp <? 0 then "-" else "+") +:+ (if Z.abs exp <? 10 then "0" else "") +:+ int_string (Z.abs exp).

Lemma padded_digits n : 0 <= n -> exists d ds, (if n <? 10 then "0" else "") +:+ int_string n = digit_string (d :: ds) /\
  digits_ok (d :: ds) /\ dec_from 0 (d :: ds) = n.
Proof.
  intros Hn. unfold int_string. destruct (Z.eq_dec n 0) as [->|Hz].
  { exists 0, [0]. split_and!; [done|by repeat constructor|done]. }
  destruct (decimal_digits_spec n ltac:(lia)) as (Hok & Hv & Hne & _). destruct (decimal_digits n) as [|d ds]; [done|].
  destruct (n <? 10).
  - exists 0, (d :: ds). split_and!; [done|by constructor|done].
  - by exists d, ds.
Qed.

Lemma read_exp_string exp us : Z.abs exp < 10000 -> read_exp false us (exp_string exp) = Some (exp, us, "").
Proof.
  intros He. unfold exp_string. destruct (padded_digits (Z.abs exp) ltac:(lia)) as (d & ds & Es & Hok & Hv).
  apply Forall_cons in Hok as Hd. destruct Hd as [Hd _]. rewrite Es.
  pose proof (starts_digit_string d ds "" Hd) as Hs. rewrite app_string_nil_r in Hs.
  assert (scan_exp (digit_string (d :: ds)) 0 us = (Z.abs exp, us, "")) as Hscan.
  { rewrite <- Hv. apply scan_exp_digits; [done|done|rewrite Hv; lia]. }
  set (t := digit_string (d :: ds)) in *. clearbody t.
  destruct (Z.ltb_spec exp 0).
  - change ("e" +:+ "-" +:+ t) with (String "e" (String "-" t)). unfold read_exp. change (Ascii.eqb (lower "e") "e") with true.
    cbn [cut_sign]. cbv iota. rewrite Hs, Hscan. by replace (- Z.abs exp) with exp by lia.
  - change ("e" +:+ "+" +:+ t) with (String "e" (String "+" t)). unfold read_exp. change (Ascii.eqb (lower "e") "e") with true.
    cbn [cut_sign]. cbv iota. rewrite Hs, Hscan. by rewrite Z.abs_eq by lia.
Qed.

Definition start : scan_state := mkScan 0 None false false.

(** What the loop leaves behind reads as [M * 10^K]. *)
Definition scans_as (s : string) (M K : Z) : Prop := exists st rest e,
  scan false s start = (st, rest) /\ sc_digits st = true /\ sc_under st = false /\
  read_exp false false rest = Some (e, false, "") /\
  round_scaled 10 (sc_mant st) (e - default 0 (sc_dot st)) = round_scaled 10 M K.

Lemma scan_point s st : sc_dot st = None ->
  scan false (String "." s) st = scan false s (mkScan (sc_mant st) (Some 0) (sc_digits st) (sc_under st)).
Proof. intros H. cbn [scan]. change (Ascii.eqb "." "_") with false. change (Ascii.eqb "." ".") with true. by rewrite H. Qed.

Lemma scan_exp_stops exp st : scan false (exp_string exp) st = (st, exp_string exp).
Proof. done. Qed.

(** Digits with a point inside and perhaps an exponent. *)
Lemma scan_mantissa ds ds' tail : digits_ok ds -> digits_ok ds' -> ds <> [] -> (forall st, scan false tail st = (st, tail)) ->
  exists st, scan false (digit_string ds +:+ "." +:+ digit_string ds' +:+ tail) start = (st, tail) /\
    sc_digits st = true /\ sc_under st = false /\ sc_mant st = dec_from 0 (ds ++ ds') /\ sc_dot st = Some (Z.of_nat (length ds')).
Proof.
  intros H1 H2 Hne Htail. rewrite scan_digits by done.
  change ("." +:+ digit_string ds' +:+ tail) with (String "." (digit_string ds' +:+ tail)).
  rewrite scan_point by done. rewrite scan_digits by done. rewrite Htail. eexists. split; [done|].
  unfold after_digits, start. cbn [sc_mant sc_dot sc_digits sc_under fmap option_fmap option_map].
  rewrite dec_from_app. split_and!; [by destruct ds|done|done|]. f_equal. lia.
Qed.

Lemma fmtE_scans M K ds dp : ds <> [] -> digits_ok ds -> dec_from 0 ds = M -> dp = Z.of_nat (length ds) + K -> Z.abs (dp - 1) < 10000 ->
  scans_as (fmtE ds dp) M K.
Proof.
  intros Hne Hok Hv Hdp Hexp. destruct ds as [|d ds]; [done|]. apply Forall_cons in Hok as [Hd Hok].
  unfold scans_as. change (fmtE (d :: ds) dp) with
    (digit_string [d] +:+ (if (0 <? length ds)%nat then "." +:+ digit_string ds else "") +:+ exp_string (dp - 1)).
  destruct (Nat.ltb_spec 0 (length ds)) as [Hlen|Hlen].
  - destruct (scan_mantissa [d] ds (exp_string (dp - 1))) as (st & E & Hdg & Hus & Hm & Hdot);
      [by constructor|done|done|by apply scan_exp_stops|].
    rewrite app_string_assoc, <- (app_string_assoc (digit_string [d])). rewrite app_string_assoc in E.
    rewrite <- !app_string_assoc in E |- *. exists st, (exp_string (dp - 1)), (dp - 1).
    split_and!; [exact E|done|done|by apply read_exp_string|]. rewrite Hm, Hdot. cbn [default from_option]. f_equal; [done|].
    cbn [length] in Hdp. unfold id. lia.
  - destruct ds as [|]; [|cbn in Hlen; lia]. change ("" +:+ exp_string (dp - 1)) with (exp_string (dp - 1)).
    rewrite scan_digits by (by constructor). rewrite scan_exp_stops. eexists _, _, (dp - 1).
    split_and!; [done|done|done|by apply read_exp_string|]. unfold after_digits, start. cbn [sc_mant sc_dot]. cbn [length] in Hdp.
    f_equal; [done|]. cbn. lia.
Qed.

Lemma scan_end st : scan false "" st = (st, "").
Proof. done. Qed.

Lemma round_scaled_shift M K : 0 < M -> 0 <= K -> round_scaled 10 (M * 10 ^ K) 0 = round_scaled 10 M K.
Proof.
  intros HM HK. pose proof (pow10_pos K HK). unfold round_scaled. rewrite (proj2 (Z.eqb_neq _ _)) by nia.
  rewrite (proj2 (Z.eqb_neq M 0)), (proj2 (Z.leb_le 0 K)) by lia. cbn [Z.leb Z.compare]. by rewrite Z.mul_1_r.
Qed.

Lemma zeros_ok k : digits_ok (replicate k 0).
Proof. apply Forall_replicate. lia. Qed.

Lemma fmtF_scans M K ds dp : ds <> [] -> digits_ok ds -> dec_from 0 ds = M -> 0 < M -> dp = Z.of_nat (length ds) + K ->
  scans_as (fmtF ds dp) M K.
Proof.
  intros Hne Hok Hv HM Hdp. unfold scans_as, fmtF. destruct (Z.ltb_spec dp (Z.of_nat (length ds))) as [Hfrac|Hint].
  - set (front := if 0 <? dp then take (Z.to_nat dp) ds else [0]). set (back := replicate (Z.to_nat (- dp)) 0 ++ drop (Z.to_nat dp) ds).
    assert ((if 0 <? dp then digit_string (take (Z.to_nat dp) ds ++ replicate (Z.to_nat dp - length ds) 0) else "0") = digit_string front) as ->.
    { unfold front. destruct (0 <? dp); [|done]. replace (Z.to_nat dp - length ds)%nat with O by lia. by rewrite app_nil_r. }
    assert (dec_from 0 (front ++ back) = M /\ Z.of_nat (length back) = - K /\ front <> [] /\ digits_ok front) as (Hm & Hlen & Hf & Hfo).
    { unfold front, back. destruct (Z.ltb_spec 0 dp).
      - replace (Z.to_nat (- dp)) with O by lia. cbn [replicate app]. rewrite take_drop. split_and!; [done|rewrite length_drop; lia| |by apply Forall_take].
        destruct ds; [done|]. by destruct (Z.to_nat dp) eqn:E; [lia|].
      - replace (Z.to_nat dp) with O by lia. rewrite drop_0. split_and!; [|rewrite length_app, length_replicate; lia|done|by repeat constructor].
        change ([0] ++ ?l) with (replicate 1 0 ++ l). by rewrite !dec_from_app, !dec_from_zeros. }
    destruct (scan_mantissa front back "") as (st & E & Hdg & Hus & Hmant & Hdot); [done| |done|done|].
    { apply Forall_app_2; [apply zeros_ok|by apply Forall_drop]. }
    rewrite app_string_nil_r in E. exists st, "", 0. split_and!; [exact E|done|done|done|]. rewrite Hmant, Hdot, Hm, Hlen.
    f_equal. cbn [default from_option]. unfold id. lia.
  - assert (0 < dp) by (destruct ds; [done|cbn [length] in Hint; lia]). rewrite (proj2 (Z.ltb_lt 0 dp)) by done. rewrite app_string_nil_r.
    rewrite take_ge by lia. set (all := ds ++ _). assert (digits_ok all) as Ha by (apply Forall_app_2; [done|apply zeros_ok]).
    pose proof (scan_digits all "" start Ha) as E. rewrite app_string_nil_r, scan_end in E. exists (after_digits start all), "", 0.
    split_and!; [exact E| |done|done|].
    + unfold after_digits, start, all. cbn [sc_digits orb]. by destruct ds.
    + unfold after_digits, start. cbn [sc_mant sc_dot]. unfold all. rewrite dec_from_app, Hv, dec_from_zeros.
      replace (Z.of_nat (Z.to_nat dp - length ds)) with K by lia. apply round_scaled_shift; [done|lia].
Qed.

(** *** The whole text *)

Lemma avoids_append p s t : avoids p s -> avoids p t -> avoids p (s +:+ t).
Proof. induction s as [|c s IH]; intros Hs Ht; [done|]. rewrite app_string_cons. destruct Hs. split; auto. Qed.

(** The characters of a printed number. *)
Definition plain_chars (p : ascii -> bool) : Prop :=
  (forall d, 0 <= d < 10 -> p (digit_char d) = false) /\ p "."%char = false /\ p "e"%char = false /\
  p "+"%char = false /\ p "-"%char = false.

Lemma int_string_chars p n : plain_chars p -> 0 <= n -> avoids p (int_string n).
Proof.
  intros (Hd & _) Hn. unfold int_string. destruct (Z.eq_dec n 0) as [->|].
  - split; [apply (Hd 0); lia|done].
  - destruct (decimal_digits_spec n ltac:(lia)) as (Hok & _). by apply digit_string_chars.
Qed.

Lemma fmtG_chars p ds dp : plain_chars p -> digits_ok ds -> avoids p (fmtG ds dp).
Proof.
  intros Hp Hok. pose proof Hp as (Hd & Hdot & He & Hplus & Hminus).
  assert (avoids p "0") as H0 by (split; [apply (Hd 0); lia|done]).
  assert (forall s, avoids p s -> avoids p ("." +:+ s)) as Hpoint by (by intros s; split).
  unfold fmtG. case_match.
  - unfold fmtE. apply avoids_append; [by apply digit_string_chars; [apply Forall_take|]|].
    apply avoids_append; [case_match; [by apply Hpoint, digit_string_chars; [apply Forall_drop|]|done]|].
    apply avoids_append; [done|]. apply avoids_append; [by case_match|].
    apply avoids_append; [by case_match|]. apply int_string_chars; [done|lia].
  - unfold fmtF. apply avoids_append; [case_match; [|done]|case_match; [|done]; apply Hpoint]; apply digit_string_chars; try done.
    + apply Forall_app_2; [by apply Forall_take|apply zeros_ok].
    + apply Forall_app_2; [apply zeros_ok|by apply Forall_drop].
Qed.

(** It starts with a digit. *)
Lemma digits_head ds t : digits_ok ds -> ds <> [] ->
  exists d s, 0 <= d < 10 /\ digit_string ds +:+ t = String (digit_char d) s.
Proof. destruct ds as [|d ds]; [done|]. intros [Hd _]%Forall_cons _. by exists d, (digit_string ds +:+ t). Qed.

Lemma fmtG_head ds dp : digits_ok ds -> ds <> [] -> exists d s, 0 <= d < 10 /\ fmtG ds dp = String (digit_char d) s.
Proof.
  intros Hok Hne. unfold fmtG. case_match; [unfold fmtE|unfold fmtF; case_match].
  - apply digits_head; [by apply Forall_take|by destruct ds].
  - apply digits_head; [apply Forall_app_2; [by apply Forall_take|apply zeros_ok]|].
    destruct ds; [done|]. destruct (Z.to_nat dp) eqn:E; [lia|done].
  - exists 0. eexists. split; [lia|]. by apply app_string_cons.
Qed.

Lemma cut_hex_plain s : avoids (fun c => Ascii.eqb (lower c) "x") s -> cut_hex s = (false, s).
Proof.
  destruct s as [|a [|p [|c s]]]; intros Ha; try done; try (by destruct a as [[] [] [] [] [] [] [] []]).
  destruct Ha as (_ & Hp & _). unfold cut_hex. rewrite Hp. by destruct a as [[] [] [] [] [] [] [] []].
Qed.

Lemma no_x : plain_chars (fun c => Ascii.eqb (lower c) "x").
Proof.
  split_and!; [|done..]. intros d H%digit_cases. by repeat destruct H as [-> | H]; [..|subst].
Qed.

Lemma head_plain d s (neg : bool) : 0 <= d < 10 ->
  let t := String (digit_char d) s in
  cut_sign ((if neg then "-" else "") +:+ t) = (neg, t) /\ special ((if neg then "-" else "") +:+ t) = None.
Proof.
  cbv zeta. intros H%digit_cases. destruct neg; by repeat destruct H as [-> | H]; [..|subst].
Qed.

Lemma readFloat_printed (neg : bool) s M K : (exists d s', 0 <= d < 10 /\ s = String (digit_char d) s') ->
  avoids (fun c => Ascii.eqb (lower c) "x") s -> scans_as s M K ->
  readFloat ((if neg then "-" else "") +:+ s) = Some (with_sign neg (round_scaled 10 M K)) /\
  special ((if neg then "-" else "") +:+ s) = None.
Proof.
  intros (d & s' & Hd & Es) Hx (st & rest & e & E & Hdg & Hus & Hr & Hv). destruct (head_plain d s' neg Hd) as [Hcut Hsp].
  rewrite <- Es in Hcut, Hsp. split; [|done]. unfold readFloat. rewrite Hcut, cut_hex_plain by done.
  change (mkScan 0 None false false) with start. rewrite E, Hdg. cbn [negb]. rewrite Hus, Hr. cbn. by rewrite Hv.
Qed.

Lemma fmtG_reads (neg : bool) M K : print_ok M K ->
  let ds := decimal_digits M in
  let s := (if neg then "-" else "") +:+ fmtG ds (Z.of_nat (length ds) + K) in
  readFloat s = Some (with_sign neg (round_scaled 10 M K)) /\ special s = None.
Proof.
  intros [HM HK] ds. destruct (decimal_digits_spec M ltac:(lia)) as (Hok & Hv & Hne & _ & Hlen). fold ds in Hok, Hv, Hne, Hlen.
  assert (Z.log2 M < 2600) by (apply Z.log2_lt_pow2; lia).
  apply readFloat_printed; [by apply fmtG_head|by apply fmtG_chars; [apply no_x|]|].
  unfold fmtG. case_match.
  - apply fmtE_scans; (done || lia).
  - apply fmtF_scans; (done || lia).
Qed.

(** Parsing what [FormatFloat] prints gives back the double: every finite
    number, both zeros, both infinities and NaN. *)
Theorem ParseFloat_FormatFloat x : ParseFloat (FormatFloat x) = Some x.
Proof.
  rewrite <- (SF2Prim_Prim2SF x) at 2. unfold FormatFloat. destruct (sf x) as [[]|[]| |s m e] eqn:E; [done..|].
  destruct (shortest_spec m e (bounded_sf x s m e E)) as [Hr Hok]. destruct (shortest m e) as [M K]. cbn [fst snd] in *.
  destruct (fmtG_reads s M K Hok) as [Hread Hsp]. unfold ParseFloat. rewrite Hsp, Hread, Hr. by destruct s.
Qed.

Lemma FormatFloat_avoids p x : plain_chars p -> p "N"%char = false -> p "a"%char = false -> p "I"%char = false ->
  p "n"%char = false -> p "f"%char = false -> avoids p (FormatFloat x).
Proof.
  intros Hp HN Ha HI Hn Hf. pose proof Hp as (Hd & _ & _ & Hplus & Hminus). pose proof (Hd 0 ltac:(lia)) as H0.
  unfold FormatFloat. destruct (sf x) as [[]|[]| |s m e] eqn:E; try (by repeat split).
  destruct (shortest_spec m e (bounded_sf x s m e E)) as [_ [HM _]]. destruct (shortest m e) as [M K]. cbn [fst] in HM.
  apply avoids_append; [by destruct s|]. apply fmtG_chars; [done|].
  by destruct (decimal_digits_spec M ltac:(lia)) as (Hok & _).
Qed.
