(* ===== verification/Ratelimit.v ===== *)
(** * The [ratelimit] package: results, errors, validation, the [Limiter] interface.

    Models [ratelimit/limiter.go] and [ratelimit/errors.go], the part of the
    metric recorder the limiters drive, and the contract the composite limiter
    relies on, as a class. *)

From Stdlib Require Import Floats.
From S2P Require Import Prelude Float64.
Open Scope Z_scope.

(** Values stored in [map[string]any]; [ADurationString d] is the string
    [d.String()]. *)
Inductive any :=
| AInt (z : Z)
| AFloat (f : f64)
| AString (s : string)
| ATime (t : time)
| ADuration (d : duration)
| ADurationString (d : duration).

Record Result := mkResult {
  Allowed : bool;
  Limit : Z;
  Remaining : Z;
  ResetAfter : duration;
  RetryAfter : duration;
  Algorithm : string;
  Metadata : gmap string any;
}.

(** [ratelimit.Result{Allowed: false, Algorithm: algo}]. *)
Definition denied_zero (algo : string) : Result :=
  mkResult false 0 0 0 0 algo ∅.

Record State := mkState {
  st_Key : string;
  st_Algorithm : string;
  st_Limit : Z;
  st_Remaining : Z;
  st_ResetAt : time;
  st_WindowStart : time;
  st_Extra : gmap string any;
}.

(** The sentinel errors, and the structured error that wraps one of them. *)
Inductive rl_error :=
| ErrLimitExceeded
| ErrInvalidKey
| ErrInvalidN
| ErrClosed
| ErrContextDone.

#[export] Instance rl_error_eq_dec : EqDecision rl_error.
Proof. solve_decision. Defined.

Inductive error :=
| ESentinel (e : rl_error)
| RateLimitError (algo key : string) (limit : Z) (retryAfter : duration) (err : rl_error).

(** [errors.Is(err, target)] along the wrap chain: [RateLimitError.Is] answers
    for [ErrLimitExceeded], [Unwrap] gives the wrapped sentinel. *)
Definition error_is (e : error) (target : rl_error) : bool :=
  match e with
  | ESentinel s => bool_decide (s = target)
  | RateLimitError _ _ _ _ w =>
      bool_decide (target = ErrLimitExceeded) || bool_decide (w = target)
  end.

(** ** Validation *)

(** A byte that [ValidateKey] refuses.  The loop ranges over runes; NUL, CR and
    LF are one-byte runes that occur inside no multi-byte encoding, so testing
    the bytes is the same test. *)
Definition illegal_byte (c : Ascii.ascii) : bool :=
  let b := Ascii.nat_of_ascii c in (b =? 0)%nat || (b =? 13)%nat || (b =? 10)%nat.

Fixpoint existsb_string (p : Ascii.ascii -> bool) (s : string) : bool :=
  match s with
  | EmptyString => false
  | String c s' => p c || existsb_string p s'
  end.

Definition ValidateKey (key : string) : option rl_error :=
  if (String.length key =? 0)%nat then Some ErrInvalidKey
  else if (512 <? String.length key)%nat then Some ErrInvalidKey
  else if existsb_string illegal_byte key then Some ErrInvalidKey
  else None.

Definition ValidateN (n : Z) : option rl_error :=
  if n <? 1 then Some ErrInvalidN else None.

(** [setCost]: records the cost under the ["cost"] metadata key. *)
Definition setCost (res : Result) (cost : any) : Result :=
  mkResult (Allowed res) (Limit res) (Remaining res) (ResetAfter res) (RetryAfter res)
    (Algorithm res) (<["cost" := cost]> (Metadata res)).

(** ** Observability: the recorder calls and the decision hook of one call *)

Inductive event :=
| IncAllowed (algo : string)
| IncDenied (algo : string)
| ObserveDecision (algo : string) (d : duration)
| OnDecision (key : string) (r : Result).

(** [record] of every limiter. *)
Definition record_decision (algo : string) (res : Result) (start stop : time) : list event :=
  [if Allowed res then IncAllowed algo else IncDenied algo;
   ObserveDecision algo (time_sub stop start)].

(** The clock readings of one [AllowN] call, in the order the code takes them;
    the one in [getOrCreate] only when the key is new. *)
Record reads := mkReads {
  r_start : time;
  r_create : time;
  r_now : time;
  r_stop : time;
}.

Definition reads_at (t : time) : reads := mkReads t t t t.

(** ** Blocking calls *)

(** What ends a [select] between the timer and the context. *)
Inductive wake := TimerFired (t : time) | CtxDone.

Inductive wait_result := Returned (err : option error) | Blocked.

(** ** The interface *)

(** One non-blocking operation set per limiter: every operation is given the
    instant at which the limiter's clock is read. *)
Class Limiter (S : Type) := {
  lim_AllowN : S -> time -> string -> Z -> Result * S;
  lim_Peek : S -> time -> string -> State * S;
  lim_Reset : S -> string -> S;
}.

(** What the composite limiter relies on.  [lim_inv] is the limiter's own
    well-formedness, [lim_ok] the requests its guarantees cover, [lim_avail]
    the cost it can still grant at an instant. *)
Class LimiterLaws (S : Type) `{Limiter S} := {
  lim_inv : S -> Prop;
  lim_ok : S -> time -> string -> Z -> Prop;
  lim_avail : S -> time -> string -> Z;
  (* Peek reports the available cost and changes nothing observable, then or later *)
  lim_peek_remaining : forall s t k, lim_inv s ->
    st_Remaining (fst (lim_Peek s t k)) = lim_avail s t k;
  lim_peek_avail : forall s t t' k k', lim_inv s -> t <= t' ->
    lim_avail (snd (lim_Peek s t k)) t' k' = lim_avail s t' k';
  lim_peek_inv : forall s t k, lim_inv s -> lim_inv (snd (lim_Peek s t k));
  lim_peek_ok : forall s t t' k k' n, lim_inv s -> t <= t' -> lim_ok s t' k' n ->
    lim_ok (snd (lim_Peek s t k)) t' k' n;
  (* a request is granted exactly when its cost is available *)
  lim_allow_iff : forall s t k n, lim_inv s -> lim_ok s t k n ->
    Allowed (fst (lim_AllowN s t k n)) = (n <=? lim_avail s t k);
  lim_allow_inv : forall s t k n, lim_inv s -> lim_ok s t k n -> lim_inv (snd (lim_AllowN s t k n));
  (* a granted request takes its cost, a denied one takes nothing *)
  lim_allow_avail : forall s t k n, lim_inv s -> lim_ok s t k n ->
    lim_avail (snd (lim_AllowN s t k n)) t k =
      lim_avail s t k - (if Allowed (fst (lim_AllowN s t k n)) then n else 0);
}.

(** ** Facts *)

Lemma ValidateKey_ok key : ValidateKey key = None <->
  (0 < String.length key <= 512)%nat /\ existsb_string illegal_byte key = false.
Proof.
  unfold ValidateKey.
  destruct (Nat.eqb_spec (String.length key) 0), (Nat.ltb_spec 512 (String.length key));
    destruct (existsb_string _ _); naive_solver lia.
Qed.

Lemma ValidateN_ok n : ValidateN n = None <-> 1 <= n.
Proof. unfold ValidateN. case_cmp; naive_solver lia. Qed.

Lemma error_is_RateLimitError a k l d w : error_is (RateLimitError a k l d w) ErrLimitExceeded = true.
Proof. done. Qed.

(** ** Histories

    A history of a keyed limiter is a list of operations with the clock
    readings they take: decisions, peeks and firings of the cleanup ticker. *)

Inductive op :=
| OpAllow (rd : reads) (key : string) (n : Z)
| OpPeek (t_create t : time) (key : string)
| OpSweep (t : time).

(** A granted request: key, instant of the decision, cost. *)
Record admission := mkAdmission { a_key : string; a_at : time; a_n : Z }.

(** The readings of an operation, in order. *)
Definition op_times (o : op) : list time :=
  match o with
  | OpAllow rd _ _ => [r_start rd; r_create rd; r_now rd; r_stop rd]
  | OpPeek tc t _ => [tc; t]
  | OpSweep t => [t]
  end.

(** The clock never goes back: all readings, in order, are non-decreasing and
    stay within the range of [UnixNano], starting at [T]. *)
Fixpoint clocked (T : time) (ts : list time) : Prop :=
  match ts with
  | [] => True
  | t :: ts' => T <= t <= max_int64 /\ clocked t ts'
  end.

Definition clocked_ops (T : time) (ops : list op) : Prop :=
  0 <= T /\ clocked T (concat (map op_times ops)).

(** Every requested cost lies between 1 and [hi]. *)
Definition costs_upto (hi : Z) (ops : list op) : Prop :=
  Forall (fun o => match o with OpAllow _ _ n => 1 <= n <= hi | _ => True end) ops.

Section run.
Context {S : Type} (exec : S -> op -> S * option admission).

Fixpoint run (s : S) (ops : list op) : S * list admission :=
  match ops with
  | [] => (s, [])
  | o :: ops' =>
      let '(s1, a) := exec s o in
      let '(s2, l) := run s1 ops' in
      (s2, match a with Some x => x :: l | None => l end)
  end.
End run.

(** Total cost admitted among the admissions selected by [p]. *)
Definition admitted (p : admission -> bool) (l : list admission) : Z :=
  zsum (map a_n (filter (fun a => p a = true) l)).

Lemma admitted_cons p a l :
  admitted p (a :: l) = (if p a then a_n a else 0) + admitted p l.
Proof.
  unfold admitted. rewrite filter_cons. destruct (p a) eqn:E.
  - rewrite decide_True by done. done.
  - rewrite decide_False by congruence. lia.
Qed.

Lemma admitted_nil p : admitted p [] = 0.
Proof. done. Qed.

Lemma admitted_ext p q l : (forall a, In a l -> p a = q a) -> admitted p l = admitted q l.
Proof.
  induction l as [|a l IH]; intros H; [done|].
  rewrite !admitted_cons, (H a), IH; try done; naive_solver.
Qed.

(** The last reading of an operation. *)
Definition op_end (o : op) : time :=
  match o with OpAllow rd _ _ => r_stop rd | OpPeek _ t _ => t | OpSweep t => t end.

Lemma clocked_ops_cons T o ops : clocked_ops T (o :: ops) ->
  0 <= T /\ clocked T (op_times o) /\ T <= op_end o <= max_int64 /\ clocked_ops (op_end o) ops.
Proof.
  intros [HT H]. unfold clocked_ops. destruct o; simpl in *; intuition lia.
Qed.

(** Invariants of histories: if every operation keeps [Inv T h s], where [h] is
    the list of past admissions (latest first) and [T] the last clock reading,
    then so does a whole history. *)
Lemma run_invariant {S} (exec : S -> op -> S * option admission)
    (Inv : time -> list admission -> S -> Prop) (Pre : op -> Prop) :
  (forall T h s o, Inv T h s -> Pre o -> 0 <= T -> clocked T (op_times o) -> T <= op_end o <= max_int64 ->
     Inv (op_end o) (match snd (exec s o) with Some a => a :: h | None => h end) (fst (exec s o))) ->
  forall ops T h s, Inv T h s -> Forall Pre ops -> clocked_ops T ops ->
  exists T', Inv T' (rev (snd (run exec s ops)) ++ h) (fst (run exec s ops)).
Proof.
  intros Hstep ops. induction ops as [|o ops IH]; intros T h s HI HP Hc; simpl; [by exists T|].
  apply clocked_ops_cons in Hc as (HT & Ho & Hend & Hc).
  inversion HP as [|? ? Hpo HP']; subst.
  specialize (Hstep T h s o HI Hpo HT Ho Hend).
  destruct (exec s o) as [s1 a] eqn:E1; simpl in Hstep.
  destruct (IH _ _ s1 Hstep HP' Hc) as [T' IH'].
  destruct (run exec s1 ops) as [s2 l]; simpl in *. exists T'.
  destruct a; simpl; [|done]. by rewrite <- app_assoc.
Qed.

Lemma admitted_app p l k : admitted p (l ++ k) = admitted p l + admitted p k.
Proof. unfold admitted. by rewrite filter_app, map_app, zsum_app. Qed.

Lemma admitted_rev p l : admitted p (rev l) = admitted p l.
Proof.
  induction l as [|a l IH]; simpl; [done|].
  rewrite admitted_app, !admitted_cons, admitted_nil, IH. lia.
Qed.

(** Admissions of [key] in the closed interval [[a, b]]. *)
Definition in_interval (key : string) (a b : time) (x : admission) : bool :=
  bool_decide (a_key x = key) && ((a <=? a_at x) && (a_at x <=? b)).

(** Cost admitted for [key] from [a] on. *)
Definition adm_from (h : list admission) (key : string) (a : time) : Z :=
  admitted (fun x => bool_decide (a_key x = key) && (a <=? a_at x)) h.

(** Past admissions all precede [b]: the interval is a half-line. *)
Lemma interval_from h key a b : Forall (fun x => a_at x <= b) h ->
  admitted (in_interval key a b) h = adm_from h key a.
Proof.
  intros Hb. apply admitted_ext. intros x Hx. unfold in_interval.
  rewrite List.Forall_forall in Hb. rewrite (proj2 (Z.leb_le (a_at x) b)) by auto.
  by rewrite andb_true_r.
Qed.

Lemma in_interval_cons key a b x h :
  admitted (in_interval key a b) (x :: h) =
    (if in_interval key a b x then a_n x else 0) + admitted (in_interval key a b) h.
Proof. apply admitted_cons. Qed.

Lemma adm_from_cons x h key a :
  adm_from (x :: h) key a =
    (if bool_decide (a_key x = key) && (a <=? a_at x) then a_n x else 0) + adm_from h key a.
Proof. apply admitted_cons. Qed.

(** An interval that ends before [x] or belongs to another key does not see it. *)
Lemma in_interval_cons_out key a b x h :
  a_key x <> key \/ b < a_at x \/ a_at x < a ->
  admitted (in_interval key a b) (x :: h) = admitted (in_interval key a b) h.
Proof.
  intros [Hx|Hx]; rewrite in_interval_cons; unfold in_interval at 1.
  - by rewrite bool_decide_false.
  - destruct (bool_decide _); simpl; [|done]. repeat case_cmp; simpl; lia.
Qed.

Lemma adm_from_cons_other x h key a : a_key x <> key -> adm_from (x :: h) key a = adm_from h key a.
Proof. intros Hne. rewrite adm_from_cons, bool_decide_false by done. simpl. lia. Qed.

(** ** Waits in histories *)

(** The instants at which a waiting call is woken by its timer. *)
Fixpoint fired (wakes : list wake) : list time :=
  match wakes with TimerFired t :: wakes' => t :: fired wakes' | _ => [] end.

(** The decisions a [WaitN] call can take: one at [now] and one at each wake-up. *)
Definition wait_ops (key : string) (n : Z) (tc now : time) (wakes : list wake) : list op :=
  OpAllow (mkReads tc tc now now) key n :: map (fun t => OpAllow (reads_at t) key n) (fired wakes).
