(* ===== verification/Shardmap.v ===== *)
(** * The sharded per-key map ([ratelimit/internal/shardmap/shardmap.go]).

    A map is a list of shards, each a finite map; a key is routed by the low
    bits of its hash.  [abs] reads the shards as one finite map, and every
    operation is shown to implement the operation of that single map, which is
    the view the limiters are verified against. *)

From S2P Require Import Prelude.
Open Scope Z_scope.

(** ** [nextPow2] *)

(** The loop [for p < n { p <<= 1 }], unrolled [fuel] times. *)
Fixpoint nextPow2_loop (fuel : nat) (p n : Z) : option Z :=
  match fuel with
  | O => None
  | S f => if p <? n then nextPow2_loop f (wrap64 (Z.shiftl p 1)) n else Some p
  end.

(** An [int] has 63 value bits, so 64 tests decide the loop. *)
Definition nextPow2 (n : Z) : option Z :=
  if n <=? 1 then Some 1 else nextPow2_loop 64 1 n.

Lemma nextPow2_loop_spec fuel k n :
  0 <= k -> 2 ^ k < 2 * n -> 1 < n <= 2 ^ 62 -> 63 - k <= Z.of_nat fuel ->
  exists j, nextPow2_loop fuel (2 ^ k) n = Some (2 ^ j) /\ 0 <= j /\ n <= 2 ^ j < 2 * n.
Proof.
  revert k. induction fuel as [|f IH]; intros k Hk Hlt Hn Hfuel.
  - assert (2 ^ 63 <= 2 ^ k) by (apply Z.pow_le_mono_r; lia). lia.
  - simpl. case_cmp; [|exists k; repeat split; auto; lia].
    rewrite Z.shiftl_mul_pow2, Z.pow_1_r, Z.mul_comm, <- Z.pow_succ_r by lia.
    assert (2 ^ Z.succ k = 2 * 2 ^ k) as E by (apply Z.pow_succ_r; lia).
    change (2 ^ 62) with 4611686018427387904 in Hn.
    rewrite wrap64_small by go_lia.
    apply IH; change (2 ^ 62) with 4611686018427387904; lia.
Qed.

Lemma nextPow2_pow2 n : n <= 2 ^ 62 ->
  exists j, nextPow2 n = Some (2 ^ j) /\ 0 <= j /\ n <= 2 ^ j /\ (1 < n -> 2 ^ j < 2 * n).
Proof.
  intros Hn. unfold nextPow2. case_cmp; [exists 0; repeat split; simpl; lia|].
  change (nextPow2_loop 64 1 n) with (nextPow2_loop 64 (2 ^ 0) n).
  destruct (nextPow2_loop_spec 64 0 n) as (j & -> & Hj & Hb); try (simpl; lia).
  exists j. repeat split; auto; lia.
Qed.

(** ** The map *)

Section shardmap.
Context {V : Type}.
(** [maphash.String(seed, ·)]: some function from keys to 64-bit words. *)
Variable hash : string -> Z.

Record Map := mkMap { mask : Z; shards : list (gmap string V) }.

(** [New]: [gomaxprocs] is the value of [runtime.GOMAXPROCS(0)]. *)
Definition New (gomaxprocs : Z) : option Map :=
  n ← nextPow2 (wrap64 (2 * gomaxprocs));
  let n := if n <? 1 then 1 else n in
  Some (mkMap (n - 1) (replicate (Z.to_nat n) ∅)).

Definition shard_index (m : Map) (key : string) : nat := Z.to_nat (Z.land (hash key) (mask m)).

(** [shardFor]; an index out of range would be a run-time panic. *)
Definition shardFor (m : Map) (key : string) : option (gmap string V) :=
  shards m !! shard_index m key.

Definition set_shard (m : Map) (key : string) (sh : gmap string V) : Map :=
  mkMap (mask m) (<[shard_index m key := sh]> (shards m)).

Definition Get (m : Map) (key : string) : option V := shardFor m key ≫= (fun sh => sh !! key).

(** The write-locked second half of [GetOrCreate]: re-check, then create. *)
Definition GetOrCreate_locked (m : Map) (key : string) (create : V) : option (V * Map) :=
  sh ← shardFor m key;
  match sh !! key with
  | Some v => Some (v, m)
  | None => Some (create, set_shard m key (<[key := create]> sh))
  end.

(** [GetOrCreate]: read-locked fast path, then the write-locked half.  The
    map may have been changed by others in between: [m] is the state under
    the read lock, [m'] the state under the write lock. *)
Definition GetOrCreate_interleaved (m m' : Map) (key : string) (create : V) : option (V * Map) :=
  sh ← shardFor m key;
  match sh !! key with
  | Some v => Some (v, m)
  | None => GetOrCreate_locked m' key create
  end.

Definition GetOrCreate (m : Map) (key : string) (create : V) : option (V * Map) :=
  GetOrCreate_interleaved m m key create.

Definition Delete (m : Map) (key : string) : option Map :=
  sh ← shardFor m key; Some (set_shard m key (delete key sh)).

Definition DeleteMatching (m : Map) (pred : string -> V -> bool) : Map :=
  mkMap (mask m) ((fun sh => filter (fun kv => pred kv.1 kv.2 = false) sh) <$> shards m).

Definition Len (m : Map) : Z := foldl (fun n sh => n + Z.of_nat (size sh)) 0 (shards m).

Definition Shards (m : Map) : Z := zlength (shards m).

(** Storing through the pointer held for [key]: the in-place update of an
    entry that is in the map. *)
Definition Store (m : Map) (key : string) (v : V) : option Map :=
  sh ← shardFor m key; Some (set_shard m key (<[key := v]> sh)).

(** *** Well-formedness and the single-map view *)

Definition wf (m : Map) : Prop :=
  (exists k, 0 <= k /\ mask m = 2 ^ k - 1 /\ zlength (shards m) = 2 ^ k) /\
  forall i sh key, shards m !! i = Some sh -> is_Some (sh !! key) -> shard_index m key = i.

Definition abs (m : Map) : gmap string V := ⋃ (shards m).

Lemma shardFor_some m key : wf m -> is_Some (shardFor m key).
Proof.
  intros [(k & Hk & Hm & Hl) _]. apply lookup_lt_is_Some. unfold shard_index.
  rewrite Hm. replace (2 ^ k - 1) with (Z.ones k) by (rewrite Z.ones_equiv; lia).
  rewrite Z.land_ones by lia. pose proof (Z.mod_pos_bound (hash key) (2 ^ k)).
  unfold zlength in Hl. lia.
Qed.

Lemma union_list_lookup_Some (l : list (gmap string V)) key v :
  (⋃ l) !! key = Some v -> exists i sh, l !! i = Some sh /\ sh !! key = Some v.
Proof.
  induction l as [|a l IH]; simpl; [by rewrite lookup_empty|].
  rewrite lookup_union_Some_raw. intros [H|[_ H]]; [by exists 0%nat, a|].
  destruct (IH H) as (i & sh & Hi & Hs). by exists (S i), sh.
Qed.

Lemma union_list_lookup_None (l : list (gmap string V)) key :
  (forall i sh, l !! i = Some sh -> sh !! key = None) -> (⋃ l) !! key = None.
Proof.
  intros H. destruct (_ !! key) as [v|] eqn:E; [|done].
  apply union_list_lookup_Some in E as (i & sh & Hi & Hs). by rewrite (H _ _ Hi) in Hs.
Qed.

Lemma union_list_lookup_unique (l : list (gmap string V)) i sh key :
  l !! i = Some sh ->
  (forall j sh', l !! j = Some sh' -> is_Some (sh' !! key) -> j = i) ->
  (⋃ l) !! key = sh !! key.
Proof.
  intros Hi Hu. destruct (sh !! key) as [v|] eqn:E.
  - destruct ((⋃ l) !! key) as [w|] eqn:Ew.
    + apply union_list_lookup_Some in Ew as (j & sh' & Hj & Hs).
      rewrite <- (Hu j sh' Hj) in Hi by eauto. congruence.
    + exfalso. clear Hu. revert i Hi Ew. induction l as [|a l IH]; intros [|i] Hi; simpl; try done.
      * simplify_eq/=. rewrite lookup_union_None. naive_solver.
      * rewrite lookup_union_None. naive_solver.
  - apply union_list_lookup_None. intros j sh' Hj.
    destruct (sh' !! key) eqn:E'; [|done].
    rewrite (Hu j sh' Hj) in Hj by eauto. congruence.
Qed.

(** Reading the key's own shard is reading the single map. *)
Lemma abs_lookup m key sh : wf m -> shardFor m key = Some sh -> abs m !! key = sh !! key.
Proof.
  intros [_ Hk] Hs. eapply union_list_lookup_unique; [exact Hs|].
  intros j sh' Hj Hin. by rewrite (Hk _ _ _ Hj Hin).
Qed.

Lemma set_shard_wf m key sh' : wf m ->
  (forall k, is_Some (sh' !! k) -> shard_index m k = shard_index m key) ->
  wf (set_shard m key sh').
Proof.
  intros [(k & Hk & Hm & Hl) Hi] Hsh. split.
  - exists k. unfold zlength in *. cbn. by rewrite length_insert.
  - intros i sh k' Hlk Hin. cbn in Hlk. change (shard_index (set_shard m key sh') k') with (shard_index m k').
    apply list_lookup_insert_Some in Hlk as [(<- & <- & _)|[_ Hlk]]; eauto.
Qed.

(** Replacing the key's shard changes the single map only where the shard
    changed. *)
Lemma set_shard_abs m key sh sh' : wf m -> shardFor m key = Some sh ->
  (forall k, is_Some (sh' !! k) -> shard_index m k = shard_index m key) ->
  forall k, abs (set_shard m key sh') !! k =
    if decide (shard_index m k = shard_index m key) then sh' !! k else abs m !! k.
Proof.
  intros Hwf Hs Hsh k. pose proof (set_shard_wf m key sh' Hwf Hsh) as Hwf'.
  destruct (shardFor_some m k Hwf) as [shk Hk].
  pose proof (lookup_lt_Some _ _ _ Hs) as Hlt.
  case_decide as Hd.
  - apply (abs_lookup _ k); [done|]. unfold shardFor.
    change (shard_index (set_shard m key sh') k) with (shard_index m k). rewrite Hd.
    by apply list_lookup_insert_eq.
  - rewrite (abs_lookup m k shk) by done. apply (abs_lookup _ k); [done|].
    unfold shardFor. change (shard_index (set_shard m key sh') k) with (shard_index m k).
    cbn. by rewrite list_lookup_insert_ne.
Qed.

Lemma shard_keys m key sh k : wf m -> shardFor m key = Some sh -> is_Some (sh !! k) ->
  shard_index m k = shard_index m key.
Proof. intros [_ Hk] Hs Hin. by apply (Hk _ sh). Qed.

(** *** Each operation against the single map *)

Lemma New_wf p m : 0 < p <= 2 ^ 60 -> New p = Some m -> wf m /\ abs m = ∅.
Proof.
  intros Hp. unfold New. change (2 ^ 60) with 1152921504606846976 in Hp.
  rewrite wrap64_small by go_lia.
  destruct (nextPow2_pow2 (2 * p)) as (j & -> & Hj & Hn & _).
  { change (2 ^ 62) with 4611686018427387904. lia. }
  cbn. rewrite (proj2 (Z.ltb_ge _ _)) by lia. intros [= <-]. split; [split|].
  - exists j. cbn. rewrite zlength_replicate. lia.
  - intros i sh key [-> _]%lookup_replicate. by intros [? ?%lookup_empty_Some].
  - apply map_eq. intros k. rewrite lookup_empty. apply union_list_lookup_None.
    by intros i sh [-> _]%lookup_replicate.
Qed.

Lemma Get_abs m key : wf m -> Get m key = abs m !! key.
Proof.
  intros Hwf. unfold Get. destruct (shardFor_some m key Hwf) as [sh Hs].
  by rewrite Hs, (abs_lookup m key sh).
Qed.

Lemma Store_abs m key v : wf m ->
  exists m', Store m key v = Some m' /\ wf m' /\ abs m' = <[key := v]> (abs m).
Proof.
  intros Hwf. unfold Store. destruct (shardFor_some m key Hwf) as [sh Hs]. rewrite Hs. cbn.
  assert (forall k, is_Some (<[key:=v]> sh !! k) -> shard_index m k = shard_index m key) as Hk.
  { intros k. rewrite lookup_insert. case_decide; [by subst|]. by eapply shard_keys. }
  eexists; repeat split; [by apply set_shard_wf| |].
  - by apply (set_shard_wf m key).
  - apply map_eq. intros k. rewrite (set_shard_abs m key sh) by done.
    rewrite !lookup_insert. repeat case_decide; subst; try done.
    symmetry. apply abs_lookup; [done|]. unfold shardFor in *. congruence.
Qed.

Lemma Delete_abs m key : wf m ->
  exists m', Delete m key = Some m' /\ wf m' /\ abs m' = delete key (abs m).
Proof.
  intros Hwf. unfold Delete. destruct (shardFor_some m key Hwf) as [sh Hs]. rewrite Hs. cbn.
  assert (forall k, is_Some (delete key sh !! k) -> shard_index m k = shard_index m key) as Hk.
  { intros k. rewrite lookup_delete. case_decide; [by intros []|]. by eapply shard_keys. }
  eexists; repeat split; [by apply set_shard_wf| |].
  - by apply (set_shard_wf m key).
  - apply map_eq. intros k. rewrite (set_shard_abs m key sh) by done.
    rewrite !lookup_delete. repeat case_decide; subst; try done.
    symmetry. apply abs_lookup; [done|]. unfold shardFor in *. congruence.
Qed.

Lemma GetOrCreate_locked_abs m key c : wf m ->
  exists m', GetOrCreate_locked m key c = Some (default c (abs m !! key), m') /\ wf m' /\
    abs m' = match abs m !! key with Some _ => abs m | None => <[key := c]> (abs m) end.
Proof.
  intros Hwf. unfold GetOrCreate_locked. pose proof (Store_abs m key c Hwf) as HS.
  unfold Store in HS. destruct (shardFor_some m key Hwf) as [sh Hs]. rewrite Hs in *. cbn in *.
  rewrite (abs_lookup m key sh) by done. destruct (sh !! key) as [v|]; [by exists m|].
  destruct HS as (m' & [= <-] & ? & ?). by eexists.
Qed.

Lemma DeleteMatching_wf m pred : wf m -> wf (DeleteMatching m pred).
Proof.
  intros [(k & Hk & Hm & Hl) Hi]. split.
  - exists k. unfold zlength in *. cbn. by rewrite length_fmap.
  - intros i sh key Hsh [v Hv]. cbn in Hsh. apply list_lookup_fmap_Some in Hsh as (sh0 & -> & H0).
    apply map_lookup_filter_Some in Hv as [Hv _]. by apply (Hi i sh0).
Qed.

Lemma DeleteMatching_abs m pred : wf m ->
  abs (DeleteMatching m pred) = filter (fun kv => pred kv.1 kv.2 = false) (abs m).
Proof.
  intros Hwf. apply map_eq. intros k. destruct (shardFor_some m k Hwf) as [sh Hs].
  set (fsh := filter (fun kv : string * V => pred kv.1 kv.2 = false) sh).
  assert (shardFor (DeleteMatching m pred) k = Some fsh) as Hs'.
  { unfold shardFor. cbn. rewrite list_lookup_fmap.
    change (shard_index (DeleteMatching m pred) k) with (shard_index m k).
    unfold shardFor in Hs. by rewrite Hs. }
  rewrite (abs_lookup _ k fsh) by (by try apply DeleteMatching_wf).
  unfold fsh. rewrite !map_lookup_filter, (abs_lookup m k sh) by done. done.
Qed.

Lemma Len_abs m : wf m -> Len m = Z.of_nat (size (abs m)).
Proof.
  intros [_ Hi]. unfold Len, abs.
  assert (forall l, (forall i j si sj k, l !! i = Some si -> l !! j = Some sj ->
      is_Some (si !! k) -> is_Some (sj !! k) -> i = j) ->
    forall acc, foldl (fun n (sh : gmap string V) => n + Z.of_nat (size sh)) acc l
      = acc + Z.of_nat (size (⋃ l))) as H.
  { induction l as [|a l IH]; intros Hd acc; simpl; [rewrite map_size_empty; lia|].
    rewrite IH; [|intros i j si sj k H1 H2 H3 H4; assert (S i = S j) by eauto; lia].
    rewrite map_size_disj_union; [lia|]. apply map_disjoint_spec. intros k v w Hv Hw.
    apply union_list_lookup_Some in Hw as (j & sj & Hj & Hsj).
    by assert (0%nat = S j) by (eapply (Hd 0%nat (S j)); cbn; eauto). }
  rewrite H; [lia|]. intros i j si sj k H1 H2 H3 H4.
  by rewrite <- (Hi i si k), <- (Hi j sj k).
Qed.
End shardmap.

Arguments Map V : clear implicits.
#[export] Hint Resolve DeleteMatching_wf : golib.

(** ** The contract the limiters build on *)

(** C18: On a well-formed sharded map every operation is the operation of the
    single map [abs]: lookup, create-if-absent, delete, conditional sweep and
    length; and well-formedness is kept. *)
Theorem shardmap_refines_map {V} (hash : string -> Z) (m : Map V) key (c : V) pred :
  wf hash m ->
  Get hash m key = abs m !! key /\
  (exists m', GetOrCreate hash m key c = Some (default c (abs m !! key), m') /\ wf hash m' /\
     abs m' = match abs m !! key with Some _ => abs m | None => <[key := c]> (abs m) end) /\
  (exists m', Delete hash m key = Some m' /\ wf hash m' /\ abs m' = delete key (abs m)) /\
  (wf hash (DeleteMatching m pred) /\
     abs (DeleteMatching m pred) = filter (fun kv => pred kv.1 kv.2 = false) (abs m)) /\
  Len m = Z.of_nat (size (abs m)).
Proof.
  intros Hwf. split; [by apply Get_abs|]. split.
  { unfold GetOrCreate, GetOrCreate_interleaved. destruct (GetOrCreate_locked_abs hash m key c Hwf) as (m' & E & R).
    exists m'. split; [|done]. unfold GetOrCreate_locked in *.
    destruct (shardFor_some hash m key Hwf) as [sh Hs]. rewrite Hs in *. cbn in *.
    by destruct (sh !! key). }
  split; [by apply Delete_abs|]. split; [split; [by apply DeleteMatching_wf|by apply (DeleteMatching_abs hash)]|].
  by apply (Len_abs hash).
Qed.

(** Two keys in a four-shard map; the sweep drops the larger value. *)
Definition demo_hash (s : string) : Z := Z.of_nat (String.length s).

Definition demo_map : Map Z :=
  mkMap 3 [∅; {[ "a" := 1 ]}; {[ "bb" := 2 ]}; ∅].

Lemma demo_map_wf : wf demo_hash demo_map.
Proof.
  split; [by exists 2|]. intros [|[|[|[|i]]]] sh key Hi [v Hv]; simplify_eq/=;
    try (by rewrite lookup_empty in Hv); by apply lookup_singleton_Some in Hv as [<- _].
Qed.

Lemma shardmap_refines_map_witness :
  Get demo_hash demo_map "bb" = Some 2 /\ Len demo_map = 2 /\
  Get demo_hash demo_map "bb" = abs demo_map !! "bb".
Proof.
  split; [reflexivity|]. split; [reflexivity|].
  refine (proj1 (shardmap_refines_map demo_hash demo_map "bb" 7 (fun _ _ => true) demo_map_wf)).
Defined.

(** The double-checked creation is race-free: whatever other goroutines did
    to the map between the read-locked miss and the write lock, [GetOrCreate]
    neither replaces nor drops an entry present under the write lock, and it
    returns the value the map then holds for the key. *)
Theorem GetOrCreate_never_overwrites {V} (hash : string -> Z) (m m' : Map V) key (c : V) :
  wf hash m -> wf hash m' -> abs m !! key = None ->
  exists v m'', GetOrCreate_interleaved hash m m' key c = Some (v, m'') /\ wf hash m'' /\
    abs m'' !! key = Some v /\
    (forall k w, abs m' !! k = Some w -> abs m'' !! k = Some w) /\
    (abs m' !! key = None -> v = c).
Proof.
  intros Hwf Hwf' Habs. destruct (GetOrCreate_locked_abs hash m' key c Hwf') as (m'' & E & W & A).
  exists (default c (abs m' !! key)), m''. split.
  { unfold GetOrCreate_interleaved. destruct (shardFor_some hash m key Hwf) as [sh Hs].
    rewrite Hs. cbn. rewrite (abs_lookup hash m key sh) in Habs by done. by rewrite Habs. }
  rewrite A. destruct (abs m' !! key) as [v|] eqn:Ek; cbn; split_and!; auto; try done.
  - apply lookup_insert_eq.
  - intros k w Hk. rewrite lookup_insert_ne; [done|]. intros <-. congruence.
Qed.

Lemma GetOrCreate_never_overwrites_witness :
  exists v m'', GetOrCreate_interleaved demo_hash (mkMap 3 [∅; ∅; {[ "bb" := 2 ]}; ∅]) demo_map "a" 9
    = Some (v, m'') /\ abs m'' !! "a" = Some v.
Proof.
  destruct (GetOrCreate_never_overwrites demo_hash (mkMap 3 [∅; ∅; {[ "bb" := 2 ]}; ∅]) demo_map "a" 9)
    as (v & m'' & E & _ & A & _); [|exact demo_map_wf|reflexivity|].
  - split; [by exists 2|]. intros [|[|[|[|i]]]] sh key Hi [v Hv]; simplify_eq/=;
      try (by rewrite lookup_empty in Hv); by apply lookup_singleton_Some in Hv as [<- _].
  - exists v, m''. split; [exact E|exact A].
Defined.
