(* ===== verification/FixedWindow.v ===== *)
(** * The fixed-window counter ([ratelimit/fixedwindow/fixedwindow.go]).

    Windows are aligned multiples of the window length; a key holds the count
    of the window of its last decision.  The key map is the single-map view of
    [Shardmap]. *)

From S2P Require Import Prelude Float64 Ratelimit.
Open Scope Z_scope.

Definition algorithmName : string := "fixed_window".

Record counter := mkCounter {
  count : Z;
  windowStart : time;
  lastAccess : time;
}.

Record FixedWindowCounter := mkFW {
  limit : Z;
  window : duration;
  idleClean : duration;
  counters : gmap string counter;
  closed : bool;
  onDecision : bool;   (* a hook is registered *)
}.

Definition with_counters (fw : FixedWindowCounter) (m : gmap string counter) : FixedWindowCounter :=
  mkFW (limit fw) (window fw) (idleClean fw) m (closed fw) (onDecision fw).

(** ** Construction *)

Definition WithOnDecision (fw : FixedWindowCounter) : FixedWindowCounter :=
  mkFW (limit fw) (window fw) (idleClean fw) (counters fw) (closed fw) true.

Definition WithIdleCleanup (d : duration) (fw : FixedWindowCounter) : FixedWindowCounter :=
  mkFW (limit fw) (window fw) d (counters fw) (closed fw) (onDecision fw).

Definition New (limit : Z) (window : duration)
    (opts : list (FixedWindowCounter -> FixedWindowCounter)) : outcome FixedWindowCounter :=
  if limit <=? 0 then Panic "fixedwindow: New limit must be positive"
  else if window <=? 0 then Panic "fixedwindow: New window must be positive"
  else Ok (foldl (fun fw opt => opt fw)
             (mkFW limit window (5 * Minute) ∅ false false) opts).

(** ** Decisions *)

(** [(ns/windowNs)*windowNs] on the Unix nanoseconds. *)
Definition window_start (fw : FixedWindowCounter) (now : time) : time :=
  Unix0 (Z.quot (UnixNano now) (window fw) *w window fw).

Definition getOrCreate (fw : FixedWindowCounter) (key : string) (now : time)
  : counter * FixedWindowCounter :=
  match counters fw !! key with
  | Some c => (c, fw)
  | None =>
      let c := mkCounter 0 (window_start fw now) now in
      (c, with_counters fw (<[key := c]> (counters fw)))
  end.

Definition consume (fw : FixedWindowCounter) (c : counter) (n : Z) (now : time)
  : Result * counter :=
  let ws := window_start fw now in
  let c := if windowStart c =? ws then mkCounter (count c) (windowStart c) now
           else mkCounter 0 ws now in
  let resetAt := time_add ws (window fw) in
  let retryAfter := time_sub resetAt now in
  if limit fw <? count c +w n then
    let remaining := limit fw -w count c in
    let remaining := if remaining <? 0 then 0 else remaining in
    (mkResult false (limit fw) remaining retryAfter retryAfter algorithmName ∅, c)
  else
    let c := mkCounter (count c +w n) (windowStart c) (lastAccess c) in
    let remaining := limit fw -w count c in
    (mkResult true (limit fw) remaining retryAfter 0 algorithmName ∅, c).

(** The body of [AllowN] before its deferred calls. *)
Definition allowN_body (fw : FixedWindowCounter) (rd : reads) (key : string) (n : Z)
  : Result * FixedWindowCounter :=
  match ValidateKey key with
  | Some _ => (denied_zero algorithmName, fw)
  | None =>
      match ValidateN n with
      | Some _ => (denied_zero algorithmName, fw)
      | None =>
          let '(c, fw) := getOrCreate fw key (r_create rd) in
          let '(res, c) := consume fw c n (r_now rd) in
          (res, with_counters fw (<[key := c]> (counters fw)))
      end
  end.

Definition AllowN (fw : FixedWindowCounter) (rd : reads) (key : string) (n : Z)
  : Result * FixedWindowCounter * list event :=
  let '(res, fw) := allowN_body fw rd key n in
  let res := if n =? 1 then res else setCost res (AInt n) in
  (res, fw,
   record_decision algorithmName res (r_start rd) (r_stop rd) ++
   (if onDecision fw then [OnDecision key res] else [])).

Definition Allow (fw : FixedWindowCounter) (rd : reads) (key : string)
  : Result * FixedWindowCounter * list event := AllowN fw rd key 1.

(** ** Waiting *)

(** The loop of [WaitN]: [wakes] are the successive outcomes of the [select],
    and [Blocked] says that the loop is still waiting after them.  [now] is the
    reading of the next [consume]. *)
Fixpoint WaitN_loop (fw : FixedWindowCounter) (c : counter) (key : string) (n : Z) (now : time)
    (wakes : list wake) : wait_result * counter :=
  let '(res, c) := consume fw c n now in
  if Allowed res then (Returned None, c)
  else match wakes with
       | [] => (Blocked, c)
       | CtxDone :: _ =>
           (Returned (Some (RateLimitError algorithmName key (limit fw) (RetryAfter res) ErrContextDone)), c)
       | TimerFired t :: wakes' => WaitN_loop fw c key n t wakes'
       end.

Definition WaitN (fw : FixedWindowCounter) (key : string) (n : Z) (tc now : time)
    (wakes : list wake) : wait_result * FixedWindowCounter :=
  match ValidateKey key with
  | Some e => (Returned (Some (ESentinel e)), fw)
  | None =>
      match ValidateN n with
      | Some e => (Returned (Some (ESentinel e)), fw)
      | None =>
          let '(c, fw) := getOrCreate fw key tc in
          let '(r, c) := WaitN_loop fw c key n now wakes in
          (r, with_counters fw (<[key := c]> (counters fw)))
      end
  end.

Definition Wait (fw : FixedWindowCounter) (key : string) (tc now : time) (wakes : list wake)
  : wait_result * FixedWindowCounter := WaitN fw key 1 tc now wakes.

(** ** Inspection and maintenance *)

Definition Peek (fw : FixedWindowCounter) (tc now : time) (key : string)
  : State * FixedWindowCounter :=
  let '(c, fw) := getOrCreate fw key tc in
  let ws := window_start fw now in
  let cnt := if windowStart c =? ws then count c else 0 in
  let remaining := limit fw -w cnt in
  let remaining := if remaining <? 0 then 0 else remaining in
  (mkState key algorithmName (limit fw) remaining (time_add ws (window fw)) ws
     {[ "count" := AInt cnt; "window_start" := ATime ws; "window" := ADurationString (window fw) ]},
   fw).

Definition Reset (fw : FixedWindowCounter) (key : string) : FixedWindowCounter :=
  with_counters fw (delete key (counters fw)).

Definition Close (fw : FixedWindowCounter) : FixedWindowCounter :=
  mkFW (limit fw) (window fw) (idleClean fw) (counters fw) true (onDecision fw).

(** One firing of the cleanup ticker; with [idleClean <= 0] there is none. *)
Definition sweep (fw : FixedWindowCounter) (now : time) : FixedWindowCounter :=
  if (idleClean fw <=? 0) || closed fw then fw
  else
    let cutoff := time_add now (- idleClean fw) in
    with_counters fw (filter (fun kc => Before (lastAccess kc.2) cutoff = false) (counters fw)).

(** ** Histories *)

Definition exec (fw : FixedWindowCounter) (o : op) : FixedWindowCounter * option admission :=
  match o with
  | OpAllow rd key n =>
      let '(res, fw', _) := AllowN fw rd key n in
      (fw', if Allowed res then Some (mkAdmission key (r_now rd) n) else None)
  | OpPeek tc t key => (snd (Peek fw tc t key), None)
  | OpSweep t => (sweep fw t, None)
  end.

(** Admissions of [key] inside the window that starts at [ws]. *)
Definition in_window (fw : FixedWindowCounter) (key : string) (ws : time) (a : admission) : bool :=
  bool_decide (a_key a = key) && (window_start fw (a_at a) =? ws).

(** The constructor's guards. *)
Definition cfg_ok (fw : FixedWindowCounter) : Prop :=
  0 < limit fw <= max_int64 /\ 0 < window fw <= max_int64.

(** ** Windows *)

Section windows.
Context (fw : FixedWindowCounter) (Hcfg : cfg_ok fw).

Lemma window_start_eq t : 0 <= t <= max_int64 ->
  window_start fw t = window fw * (t / window fw).
Proof.
  intros Ht. destruct Hcfg as [_ Hw]. unfold window_start, Unix0, UnixNano.
  rewrite (wrap64_small t) by go_lia. rewrite Z.quot_div_nonneg by lia.
  pose proof (Z.mul_div_le t (window fw)). pose proof (Z.div_pos t (window fw)).
  rewrite wrap64_small; [lia|]. assert (0 <= t / window fw * window fw) by nia. go_lia.
Qed.

Lemma window_start_bounds t : 0 <= t <= max_int64 ->
  0 <= window_start fw t <= t /\ t < window_start fw t + window fw.
Proof.
  intros Ht. rewrite window_start_eq by done. destruct Hcfg as [_ Hw].
  pose proof (Z.mul_div_le t (window fw)). pose proof (Z.mul_succ_div_gt t (window fw)).
  pose proof (Z.div_pos t (window fw)). nia.
Qed.

Lemma window_start_mono t u : 0 <= t -> t <= u -> u <= max_int64 ->
  window_start fw t <= window_start fw u.
Proof.
  intros. rewrite !window_start_eq by lia. destruct Hcfg as [_ Hw].
  apply Z.mul_le_mono_nonneg_l; [lia|]. apply Z.div_le_mono; lia.
Qed.

(** The next window starts exactly one window later. *)
Lemma window_start_next t : 0 <= t <= max_int64 -> window_start fw t + window fw <= max_int64 ->
  window_start fw (window_start fw t + window fw) = window_start fw t + window fw.
Proof.
  intros Ht Hn. destruct Hcfg as [_ Hw].
  pose proof (window_start_bounds t ltac:(lia)).
  rewrite (window_start_eq (_ + _)) by lia. rewrite !(window_start_eq t) by lia.
  replace (window fw * (t / window fw) + window fw) with ((t / window fw + 1) * window fw) by lia.
  rewrite Z.div_mul by lia. lia.
Qed.
End windows.

(** ** One decision *)

(** The count [consume] starts from: zero when the window has changed. *)
Definition live_count (fw : FixedWindowCounter) (c : counter) (now : time) : Z :=
  if windowStart c =? window_start fw now then count c else 0.

Definition counter_ok (fw : FixedWindowCounter) (c : counter) : Prop :=
  0 <= count c <= limit fw.

Lemma live_count_ok fw c now : cfg_ok fw -> counter_ok fw c -> 0 <= live_count fw c now <= limit fw.
Proof. intros [? _]. unfold counter_ok, live_count. case_cmp; lia. Qed.

(** The decision of [consume] and the counter it leaves, when [count + n] does
    not leave the range of [int]. *)
Lemma consume_spec fw c n now :
  cfg_ok fw -> counter_ok fw c -> 1 <= n <= max_int64 - limit fw ->
  consume fw c n now =
    let k := live_count fw c now in
    let wait := time_sub (window_start fw now + window fw) now in
    if k + n <=? limit fw then
      (mkResult true (limit fw) (limit fw - (k + n)) wait 0 algorithmName ∅,
       mkCounter (k + n) (window_start fw now) now)
    else
      (mkResult false (limit fw) (limit fw - k) wait wait algorithmName ∅,
       mkCounter k (window_start fw now) now).
Proof.
  intros Hcfg Hc Hn. pose proof (live_count_ok fw c now Hcfg Hc) as Hk. destruct Hcfg as [Hl Hw].
  unfold consume, live_count, time_add in *.
  destruct (Z.eqb_spec (windowStart c) (window_start fw now)) as [E|E]; cbn in *;
    rewrite ?wrap64_small by go_lia; repeat case_cmp; cbn;
    rewrite ?wrap64_small by go_lia; try lia; rewrite ?E; done.
Qed.

(** The capacity a caller can still use at [now]. *)
Definition available (fw : FixedWindowCounter) (now : time) (key : string) : Z :=
  limit fw - match counters fw !! key with Some c => live_count fw c now | None => 0 end.

Definition fw_ok (fw : FixedWindowCounter) : Prop :=
  cfg_ok fw /\ map_Forall (fun _ c => counter_ok fw c) (counters fw).

Lemma getOrCreate_ok fw key t : fw_ok fw ->
  fw_ok (snd (getOrCreate fw key t)) /\ counter_ok fw (fst (getOrCreate fw key t)).
Proof.
  intros [Hc Hm]. unfold getOrCreate. destruct (counters fw !! key) as [c|] eqn:E; simpl.
  - split; [done|]. by apply (Hm key c).
  - assert (counter_ok fw (mkCounter 0 (window_start fw t) t)).
    { destruct Hc. unfold counter_ok; simpl; lia. }
    split; [split; [done|]|done]. by apply map_Forall_insert_2.
Qed.

Lemma getOrCreate_cfg fw key t :
  limit (snd (getOrCreate fw key t)) = limit fw /\ window (snd (getOrCreate fw key t)) = window fw /\
  idleClean (snd (getOrCreate fw key t)) = idleClean fw /\ closed (snd (getOrCreate fw key t)) = closed fw.
Proof. unfold getOrCreate. by destruct (counters fw !! key). Qed.

(** A valid request in terms of the key's current window. *)
Lemma allowN_body_spec fw rd key n :
  fw_ok fw -> ValidateKey key = None -> 1 <= n <= max_int64 - limit fw ->
  allowN_body fw rd key n =
    let now := r_now rd in
    let k := limit fw - available fw now key in
    let ws := window_start fw now in
    let wait := time_sub (ws + window fw) now in
    if n <=? available fw now key then
      (mkResult true (limit fw) (available fw now key - n) wait 0 algorithmName ∅,
       with_counters fw (<[key := mkCounter (k + n) ws now]> (counters fw)))
    else
      (mkResult false (limit fw) (available fw now key) wait wait algorithmName ∅,
       with_counters fw (<[key := mkCounter k ws now]> (counters fw))).
Proof.
  intros [Hcfg Hm] Hkey Hn. unfold allowN_body, available, getOrCreate.
  rewrite Hkey, (proj2 (ValidateN_ok n)) by lia. cbn [limit].
  destruct (counters fw !! key) as [c|] eqn:E.
  - rewrite (consume_spec fw c) by (auto; by apply (Hm key c)). cbn.
    set (L := live_count fw c (r_now rd)). rewrite Z.sub_sub_distr, Z.sub_diag, Z.add_0_l, Z.sub_add_distr.
    by destruct (Z.leb_spec (L + n) (limit fw)), (Z.leb_spec n (limit fw - L)); try lia.
  - assert (counter_ok fw (mkCounter 0 (window_start fw (r_create rd)) (r_create rd))) as H0.
    { destruct Hcfg. unfold counter_ok; simpl; lia. }
    assert (live_count fw (mkCounter 0 (window_start fw (r_create rd)) (r_create rd)) (r_now rd) = 0) as HL.
    { unfold live_count; simpl. by case_match. }
    change (consume (with_counters fw _)) with (consume fw).
    rewrite (consume_spec fw) by auto. cbv zeta. rewrite HL, Z.add_0_l, Z.sub_0_r, Z.sub_diag, Z.add_0_l.
    destruct (Z.leb_spec n (limit fw)); unfold with_counters;
      cbn [counters limit window idleClean closed onDecision]; by rewrite insert_insert_eq.
Qed.

Lemma AllowN_state fw rd key n :
  snd (fst (AllowN fw rd key n)) = snd (allowN_body fw rd key n) /\
  Allowed (fst (fst (AllowN fw rd key n))) = Allowed (fst (allowN_body fw rd key n)).
Proof. unfold AllowN. destruct (allowN_body fw rd key n). by destruct (n =? 1). Qed.

(** ** The per-key invariant of histories *)

Section history.
Context (fw0 : FixedWindowCounter) (Hcfg : cfg_ok fw0).

(** The limiter is [fw0] up to its counters and [Close]. *)
Definition same_cfg (fw : FixedWindowCounter) : Prop :=
  limit fw = limit fw0 /\ window fw = window fw0 /\ idleClean fw = idleClean fw0.

Definition adm (h : list admission) (key : string) (ws : time) : Z :=
  admitted (in_window fw0 key ws) h.

(** What the counter of a key knows about the past. *)
Definition key_inv (T : time) (h : list admission) (key : string) (oc : option counter) : Prop :=
  (forall ws, adm h key ws <= limit fw0) /\
  match oc with
  | Some c =>
      0 <= count c <= limit fw0 /\ adm h key (windowStart c) = count c /\
      windowStart c = window_start fw0 (lastAccess c) /\ 0 <= lastAccess c <= T /\
      forall ws, windowStart c < ws -> adm h key ws = 0
  | None => forall ws, window_start fw0 T <= ws -> adm h key ws = 0
  end.

Definition hist_inv (T : time) (h : list admission) (fw : FixedWindowCounter) : Prop :=
  same_cfg fw /\ forall key, key_inv T h key (counters fw !! key).

Lemma window_start_cfg fw t : same_cfg fw -> window_start fw t = window_start fw0 t.
Proof. intros (_ & Hw & _). unfold window_start. by rewrite Hw. Qed.

Lemma hist_inv_ok T h fw : hist_inv T h fw -> fw_ok fw.
Proof.
  intros [Hs Hk]. split.
  - destruct Hs as (E1 & E2 & _). unfold cfg_ok in *. by rewrite E1, E2.
  - intros key c Hc. specialize (Hk key). rewrite Hc in Hk. destruct Hs as (E1 & _).
    unfold counter_ok. rewrite E1. apply Hk.
Qed.

Lemma key_inv_later T T' h key oc :
  0 <= T -> T <= T' -> T' <= max_int64 -> key_inv T h key oc -> key_inv T' h key oc.
Proof.
  intros H0 HT Hm [Hl Hoc]. split; [done|]. destruct oc as [c|]; [intuition lia|].
  intros ws Hws. apply Hoc. pose proof (window_start_mono fw0 Hcfg T T'). lia.
Qed.

(** Admitting [n] more at [now] only adds to the window of [now]. *)
Lemma adm_cons h key k n now ws :
  adm (mkAdmission k now n :: h) key ws =
    adm h key ws + if bool_decide (k = key) && (window_start fw0 now =? ws) then n else 0.
Proof. unfold adm. rewrite admitted_cons. unfold in_window; simpl. lia. Qed.

(** The counter after a decision at [now], allowed or not. *)
Lemma key_inv_decide T h key oc now n :
  0 <= T -> T <= now -> now <= max_int64 -> key_inv T h key oc -> 1 <= n ->
  let k := match oc with Some c => live_count fw0 c now | None => 0 end in
  (k + n <= limit fw0 ->
    key_inv now (mkAdmission key now n :: h) key
      (Some (mkCounter (k + n) (window_start fw0 now) now))) /\
  key_inv now h key (Some (mkCounter k (window_start fw0 now) now)).
Proof.
  intros H0 HT Hm [Hl Hoc] Hn k.
  pose proof (window_start_mono fw0 Hcfg T now) as Hmono.
  assert (adm h key (window_start fw0 now) = k /\
          (forall ws, window_start fw0 now < ws -> adm h key ws = 0) /\ 0 <= k <= limit fw0) as (Hk & Hz & Hb).
  { unfold k. destruct oc as [c|].
    - destruct Hoc as (Hc & Hadm & Hws & Hla & Hgt).
      pose proof (window_start_mono fw0 Hcfg (lastAccess c) now).
      unfold live_count. destruct (Z.eqb_spec (windowStart c) (window_start fw0 now)) as [E|E].
      + rewrite <- E. repeat split; auto; lia.
      + repeat split; try lia; [apply Hgt; lia|]. intros ws ?. apply Hgt. lia.
    - destruct Hcfg. repeat split; try lia; [apply Hoc; lia|]. intros ws ?. apply Hoc. lia. }
  split; [intros Hok|].
  - split.
    + intros ws. rewrite adm_cons. rewrite bool_decide_true by done. simpl.
      case_cmp; [subst; lia|]. pose proof (Hl ws). lia.
    + simpl. repeat split; try lia.
      * rewrite adm_cons, bool_decide_true, Z.eqb_refl by done. simpl. lia.
      * intros ws Hws. rewrite adm_cons. case_cmp; [lia|]. rewrite andb_false_r. rewrite Hz; lia.
  - split; [done|]. simpl. repeat split; auto; lia.
Qed.

(** Other keys do not notice. *)
Lemma key_inv_other T h key key' now n oc : key <> key' ->
  key_inv T h key oc -> key_inv T (mkAdmission key' now n :: h) key oc.
Proof.
  intros Hne. assert (forall ws, adm (mkAdmission key' now n :: h) key ws = adm h key ws) as E.
  { intros ws. rewrite adm_cons, bool_decide_false by done. simpl. lia. }
  intros [Hl Hoc]. split; [intros ws; by rewrite E|]. destruct oc as [c|].
  - rewrite E. destruct Hoc as (? & ? & ? & ? & Hgt). repeat split; try done; try lia.
    intros ws ?. rewrite E. auto.
  - intros ws ?. rewrite E. auto.
Qed.

(** An entry the sweep removes belongs to a window that is over. *)
Lemma key_inv_evict T h key c :
  0 <= T <= max_int64 -> window fw0 <= idleClean fw0 ->
  Before (lastAccess c) (time_add T (- idleClean fw0)) = true ->
  key_inv T h key (Some c) -> key_inv T h key None.
Proof.
  intros HT Hidle Hb [Hl (Hc & Hadm & Hws & Hla & Hgt)]. split; [done|]. intros ws Hge.
  apply Hgt. unfold Before, time_add in Hb. apply Z.ltb_lt in Hb.
  pose proof (window_start_bounds fw0 Hcfg T HT).
  pose proof (window_start_bounds fw0 Hcfg (lastAccess c)). lia.
Qed.
End history.

(** ** The limit *)

Section limit.
Context (fw0 : FixedWindowCounter) (Hcfg : cfg_ok fw0).
Hypothesis Hidle : idleClean fw0 <= 0 \/ window fw0 <= idleClean fw0.

Lemma live_count_cfg fw c t : same_cfg fw0 fw -> live_count fw c t = live_count fw0 c t.
Proof. intros Hs. unfold live_count. by rewrite (window_start_cfg fw0 fw). Qed.

Lemma hist_inv_allow T h fw rd key n :
  hist_inv fw0 T h fw -> 0 <= T -> 1 <= n <= max_int64 - limit fw0 ->
  clocked T (op_times (OpAllow rd key n)) ->
  let '(fw', a) := exec fw (OpAllow rd key n) in
  hist_inv fw0 (r_stop rd) (match a with Some x => x :: h | None => h end) fw'.
Proof.
  intros HI HT Hn (H1 & H2 & H3 & H4 & _). pose proof (hist_inv_ok fw0 Hcfg T h fw HI) as Hok.
  pose proof HI as [Hs Hk]. assert (limit fw = limit fw0) as El by apply Hs.
  simpl. destruct (AllowN_state fw rd key n) as [Es Ea].
  destruct (AllowN fw rd key n) as [[res fw'] ev]; simpl in Es, Ea. subst fw'. rewrite Ea. clear res Ea ev.
  destruct (ValidateKey key) as [e|] eqn:Ek.
  { unfold allowN_body. rewrite Ek. simpl. split; [done|]. intros k.
    apply (key_inv_later fw0 Hcfg T); auto; lia. }
  rewrite allowN_body_spec by (auto; by rewrite El). cbv zeta.
  set (now := r_now rd) in *.
  pose proof (key_inv_decide fw0 Hcfg T h key (counters fw !! key) now n) as HD.
  destruct HD as [HDa HDd]; auto; try lia.
  assert (limit fw - available fw now key =
    match counters fw !! key with Some c => live_count fw0 c now | None => 0 end) as EK.
  { unfold available. destruct (counters fw !! key) as [c|]; [|lia].
    rewrite (live_count_cfg fw c now Hs). lia. }
  rewrite EK. rewrite !(window_start_cfg fw0 fw) by done.
  assert (forall hh c, key_inv fw0 now hh key (Some c) ->
    (forall k, k <> key -> key_inv fw0 T hh k (counters fw !! k)) ->
    hist_inv fw0 (r_stop rd) hh (with_counters fw (<[key := c]> (counters fw)))) as Hins.
  { intros hh c Hc Hoth. split; [done|]. intros k. cbn [counters with_counters].
    rewrite lookup_insert. case_decide; subst.
    - apply (key_inv_later fw0 Hcfg now); auto; lia.
    - apply (key_inv_later fw0 Hcfg T); auto; lia. }
  destruct (Z.leb_spec n (available fw now key)); cbn [fst snd Allowed]; apply Hins.
  - apply HDa. lia.
  - intros k Hne. by apply key_inv_other.
  - done.
  - auto.
Qed.

Lemma hist_inv_peek T h fw tc t key :
  hist_inv fw0 T h fw -> 0 <= T -> clocked T (op_times (OpPeek tc t key)) ->
  hist_inv fw0 t h (fst (exec fw (OpPeek tc t key))).
Proof.
  intros [Hs Hk] HT (H1 & H2 & _). simpl. unfold Peek, getOrCreate.
  destruct (counters fw !! key) as [c|] eqn:E; simpl.
  - split; [done|]. intros k. apply (key_inv_later fw0 Hcfg T); auto; lia.
  - split; [done|]. intros k. cbn [counters with_counters]. rewrite lookup_insert.
    case_decide; [subst k|apply (key_inv_later fw0 Hcfg T); auto; lia].
    destruct (key_inv_decide fw0 Hcfg T h key None tc 1) as [_ HD]; try lia.
    { specialize (Hk key). by rewrite E in Hk. }
    rewrite (window_start_cfg fw0 fw) by done. apply (key_inv_later fw0 Hcfg tc); auto; lia.
Qed.

Lemma hist_inv_sweep T h fw t :
  hist_inv fw0 T h fw -> 0 <= T -> clocked T [t] -> hist_inv fw0 t h (sweep fw t).
Proof.
  intros [Hs Hk] HT (H1 & _). unfold sweep.
  assert (forall k, key_inv fw0 t h k (counters fw !! k)) as Hk'.
  { intros k. apply (key_inv_later fw0 Hcfg T); auto; lia. }
  destruct (Z.leb_spec (idleClean fw) 0) as [|Hi]; [done|]. destruct (closed fw); [done|]. simpl.
  split; [done|]. intros k. cbn [counters with_counters]. specialize (Hk' k).
  rewrite map_lookup_filter. destruct (counters fw !! k) as [c|]; [|done]. simpl.
  destruct Hs as (_ & _ & Ei). rewrite Ei in *.
  case_guard as Hb; [done|]. apply not_false_is_true in Hb.
  apply (key_inv_evict fw0 Hcfg t h k c); auto; lia.
Qed.
End limit.

(** C5: Per-window limit.  Along any history whose clock does not go back, if
    idle cleanup is off or keeps entries for at least one window, the cost
    admitted for a key within one aligned window never exceeds [limit]
    (requests large enough to overflow [count + n] excluded). *)
Theorem fixed_window_limit fw ops T key ws :
  cfg_ok fw -> counters fw = ∅ -> idleClean fw <= 0 \/ window fw <= idleClean fw ->
  clocked_ops T ops -> costs_upto (max_int64 - limit fw) ops ->
  admitted (in_window fw key ws) (snd (run exec fw ops)) <= limit fw.
Proof.
  intros Hcfg Hempty Hidle Hclk Hcost.
  destruct (run_invariant exec (hist_inv fw)
    (fun o => match o with OpAllow _ _ n => 1 <= n <= max_int64 - limit fw | _ => True end)) with
    (ops := ops) (T := T) (h := @nil admission) (s := fw) as [T' [_ HI]]; try done.
  - intros T0 h s o HI Hpre HT Ho _. destruct o as [rd k n|tc t k|t].
    + pose proof (hist_inv_allow fw Hcfg T0 h s rd k n HI HT Hpre Ho) as H.
      by destruct (exec s _).
    + by apply (hist_inv_peek fw Hcfg T0).
    + by apply (hist_inv_sweep fw Hcfg Hidle T0).
  - split; [done|]. intros k. rewrite Hempty, lookup_empty. split; [|done].
    intros ws'. unfold adm. rewrite admitted_nil. destruct Hcfg. lia.
  - specialize (HI key) as [HI _]. specialize (HI ws). unfold adm in HI.
    by rewrite app_nil_r, admitted_rev in HI.
Qed.

(** A history that meets the hypotheses: two windows of 10ns, limit 3. *)
Definition demo_fw : FixedWindowCounter := mkFW 3 10 10 ∅ false false.

Definition demo_ops : list op :=
  [OpAllow (reads_at 1) "a" 2; OpAllow (reads_at 5) "a" 2; OpAllow (reads_at 7) "a" 1;
   OpSweep 9; OpAllow (reads_at 12) "a" 3].

Lemma fixed_window_limit_witness :
  snd (run exec demo_fw demo_ops) =
    [mkAdmission "a" 1 2; mkAdmission "a" 7 1; mkAdmission "a" 12 3] /\
  admitted (in_window demo_fw "a" 0) (snd (run exec demo_fw demo_ops)) <= 3.
Proof.
  split; [vm_compute; reflexivity|].
  apply (fixed_window_limit demo_fw demo_ops 0 "a" 0).
  - unfold cfg_ok; simpl; go_lia.
  - reflexivity.
  - right; simpl; lia.
  - unfold clocked_ops; simpl; go_lia.
  - repeat constructor; simpl; go_lia.
Defined.

(** With the default five-minute idle cleanup and a one-hour window the
    limit is not kept: the sweep forgets the count of the running window, and
    the key is admitted twice its limit inside that window. *)
Theorem idle_eviction_forgets_window :
  exists fw ops ws, New 2 Hour [] = Ok fw /\ clocked_ops 0 ops /\
    admitted (in_window fw "k" ws) (snd (run exec fw ops)) = 2 * limit fw.
Proof.
  exists (mkFW 2 Hour (5 * Minute) ∅ false false),
    [OpAllow (reads_at 0) "k" 2; OpSweep (5 * Minute); OpSweep (10 * Minute);
     OpAllow (reads_at (11 * Minute)) "k" 2], 0.
  split; [reflexivity|]. split.
  - unfold clocked_ops; simpl; unfold Minute; go_lia.
  - vm_compute. reflexivity.
Qed.

(** [count + n] is computed in [int] and may wrap: once one request has
    been counted, a request of cost [math.MaxInt64] is admitted, whatever the
    limit, and leaves a negative count behind. *)
Theorem overflowing_cost_is_admitted fw c now :
  cfg_ok fw -> 1 <= live_count fw c now <= limit fw ->
  Allowed (fst (consume fw c max_int64 now)) = true /\
  count (snd (consume fw c max_int64 now)) < 0.
Proof.
  intros [Hl Hw] Hk. unfold consume, live_count in *.
  destruct (Z.eqb_spec (windowStart c) (window_start fw now)); [|lia]. cbn [count windowStart lastAccess].
  assert (count c +w max_int64 = count c + max_int64 - 2 * two63) as E.
  { unfold wrap64, max_int64, two63.
    replace (count c + 9223372036854775807 + 9223372036854775808)
      with (count c - 1 + 1 * 18446744073709551616) by lia.
    rewrite Z.mod_add, Z.mod_small by go_lia. lia. }
  rewrite E. case_cmp; [go_lia|]. cbn [fst snd Allowed count]. split; [done|]. go_lia.
Qed.

Lemma overflowing_cost_is_admitted_witness :
  Allowed (fst (consume demo_fw (mkCounter 1 0 1) max_int64 2)) = true /\
  count (snd (consume demo_fw (mkCounter 1 0 1) max_int64 2)) < 0.
Proof.
  apply (overflowing_cost_is_admitted demo_fw (mkCounter 1 0 1) 2).
  - unfold cfg_ok; simpl; go_lia.
  - vm_compute; split; discriminate.
Defined.

(** [RetryAfter] is the exact wait: a denied request that fits in an empty
    window is denied again at every instant before [now + RetryAfter] and
    admitted at that instant. *)
Theorem retry_after_exact fw c n now :
  cfg_ok fw -> counter_ok fw c -> 1 <= n <= limit fw -> n <= max_int64 - limit fw ->
  0 <= now -> now + window fw <= max_int64 ->
  Allowed (fst (consume fw c n now)) = false ->
  let '(r, c') := consume fw c n now in
  0 < RetryAfter r <= window fw /\
  Allowed (fst (consume fw c' n (now + RetryAfter r))) = true /\
  forall t, now <= t < now + RetryAfter r -> Allowed (fst (consume fw c' n t)) = false.
Proof.
  intros Hcfg Hc Hn Hov Hnow Hmax. pose proof Hcfg as [Hl Hw].
  rewrite consume_spec by (auto; lia). cbv zeta.
  pose proof (live_count_ok fw c now Hcfg Hc) as Hk. set (k := live_count fw c now) in *.
  destruct (Z.leb_spec (k + n) (limit fw)); [done|]. intros _. cbn [RetryAfter].
  pose proof (window_start_bounds fw Hcfg now ltac:(lia)) as Hb.
  unfold time_sub. rewrite sat64_small by go_lia.
  set (c' := mkCounter k (window_start fw now) now).
  assert (counter_ok fw c') as Hc' by (unfold counter_ok; simpl; lia).
  split; [lia|]. split.
  - replace (now + (window_start fw now + window fw - now)) with (window_start fw now + window fw) by lia.
    rewrite consume_spec by (auto; lia). cbv zeta. unfold live_count at 1.
    rewrite window_start_next by (auto; lia). cbn [windowStart c'].
    rewrite (proj2 (Z.eqb_neq _ _)) by lia. rewrite (proj2 (Z.leb_le _ _)) by lia. done.
  - intros t Ht. rewrite consume_spec by (auto; lia). cbv zeta.
    assert (window_start fw t = window_start fw now) as Ew.
    { pose proof (window_start_bounds fw Hcfg t ltac:(lia)).
      pose proof (window_start_mono fw Hcfg now t ltac:(lia)).
      rewrite !window_start_eq in * by (auto; lia).
      assert (t / window fw < now / window fw + 1) by nia.
      assert (now / window fw <= t / window fw) by (apply Z.div_le_mono; lia).
      f_equal. lia. }
    unfold live_count at 1. rewrite Ew. cbn [windowStart c' count]. rewrite Z.eqb_refl.
    rewrite (proj2 (Z.leb_gt _ _)) by lia. done.
Qed.

Lemma retry_after_exact_witness :
  let '(r, c') := consume demo_fw (mkCounter 2 0 1) 2 4 in
  0 < RetryAfter r <= 10 /\ Allowed (fst (consume demo_fw c' 2 (4 + RetryAfter r))) = true /\
  forall t, 4 <= t < 4 + RetryAfter r -> Allowed (fst (consume demo_fw c' 2 t)) = false.
Proof.
  refine (retry_after_exact demo_fw (mkCounter 2 0 1) 2 4 _ _ _ _ _ _ _);
    unfold cfg_ok, counter_ok; simpl; try go_lia; vm_compute; reflexivity.
Defined.

(** A request larger than the limit is never granted and never refused:
    until the context is cancelled, [WaitN] keeps waiting, however often its
    timer fires. *)
Theorem waitN_over_limit_blocks_forever fw key n tc now wakes :
  fw_ok fw -> ValidateKey key = None -> limit fw < n <= max_int64 - limit fw ->
  Forall (fun w => w <> CtxDone) wakes ->
  fst (WaitN fw key n tc now wakes) = Blocked.
Proof.
  intros Hok Hkey Hn Hw. unfold WaitN. rewrite Hkey, (proj2 (ValidateN_ok n)).
  2:{ destruct Hok as [[? _] _]. lia. }
  destruct (getOrCreate_ok fw key tc Hok) as [Hok' Hc].
  pose proof (getOrCreate_cfg fw key tc) as (El & _).
  destruct (getOrCreate fw key tc) as [c fw']; simpl in *. rewrite <- El in Hn.
  assert (counter_ok fw' c) as Hc' by (unfold counter_ok in *; by rewrite El).
  clear Hc El Hok fw. destruct Hok' as [Hcfg _].
  enough (fst (WaitN_loop fw' c key n now wakes) = Blocked) as H by (by destruct (WaitN_loop _ _ _ _ _ _)).
  revert c now Hc'. induction Hw as [|w wakes Hw1 Hw IH]; intros c now Hc; simpl;
    rewrite consume_spec by (auto; destruct Hcfg; lia); cbv zeta;
    pose proof (live_count_ok fw' c now Hcfg Hc);
    rewrite (proj2 (Z.leb_gt _ _)) by lia; cbn [Allowed]; [done|].
  destruct w as [t|]; [|done]. apply IH. unfold counter_ok; simpl; lia.
Qed.

Lemma waitN_over_limit_blocks_forever_witness :
  fst (WaitN demo_fw "a" 4 0 0 [TimerFired 10; TimerFired 20; TimerFired 30]) = Blocked.
Proof.
  apply (waitN_over_limit_blocks_forever demo_fw "a" 4 0 0 [TimerFired 10; TimerFired 20; TimerFired 30]).
  - split; [unfold cfg_ok; simpl; go_lia|apply map_Forall_empty].
  - reflexivity.
  - simpl; go_lia.
  - repeat constructor; discriminate.
Defined.

(** ** The limiter interface *)

#[export] Instance fw_limiter : Limiter FixedWindowCounter := {
  lim_AllowN s t k n := fst (AllowN s (reads_at t) k n);
  lim_Peek s t k := Peek s t t k;
  lim_Reset := Reset;
}.

Lemma peek_state fw tc t key :
  snd (Peek fw tc t key) = snd (getOrCreate fw key tc).
Proof. unfold Peek. by destruct (getOrCreate fw key tc). Qed.

Lemma getOrCreate_available fw key tc t k : fw_ok fw ->
  available (snd (getOrCreate fw key tc)) t k = available fw t k.
Proof.
  intros Hok. unfold getOrCreate. destruct (counters fw !! key) as [c|] eqn:E; [done|]. simpl.
  unfold available. cbn [counters with_counters limit]. rewrite lookup_insert.
  case_decide; [subst k|done]. rewrite E. unfold live_count. cbn [windowStart count].
  by case_match.
Qed.

Lemma peek_remaining fw tc t key : fw_ok fw ->
  st_Remaining (fst (Peek fw tc t key)) = available fw t key.
Proof.
  intros Hok. rewrite <- (getOrCreate_available fw key tc) by done.
  destruct (getOrCreate_ok fw key tc Hok) as [[Hcfg Hm] Hc].
  pose proof (getOrCreate_cfg fw key tc) as (El & _).
  unfold Peek, available. destruct (getOrCreate fw key tc) as [c fw'] eqn:E.
  assert (counters fw' !! key = Some c) as Hlk.
  { unfold getOrCreate in E. destruct (counters fw !! key) eqn:Ek; simplify_eq/=; [done|].
    apply lookup_insert_eq. }
  simpl in *. rewrite Hlk. assert (counter_ok fw' c) as Hc' by (unfold counter_ok in *; by rewrite El).
  pose proof (live_count_ok fw' c t Hcfg Hc') as Hk. unfold live_count in *.
  destruct Hcfg. rewrite wrap64_small by go_lia. case_cmp; case_cmp; lia.
Qed.

Lemma fw_ok_insert fw key c : fw_ok fw -> counter_ok fw c ->
  fw_ok (with_counters fw (<[key := c]> (counters fw))).
Proof. intros [? ?] ?. split; [done|]. by apply map_Forall_insert_2. Qed.

Lemma available_bounds fw t key : fw_ok fw -> 0 <= available fw t key <= limit fw.
Proof.
  intros [Hcfg Hm]. unfold available. destruct (counters fw !! key) as [c|] eqn:E.
  - pose proof (live_count_ok fw c t Hcfg (Hm _ _ E)). lia.
  - destruct Hcfg. lia.
Qed.

#[export] Instance fw_limiter_laws : LimiterLaws FixedWindowCounter.
Proof.
  refine {|
    lim_inv := fw_ok;
    lim_ok := fun s _ k n => ValidateKey k = None /\ 1 <= n <= max_int64 - limit s;
    lim_avail := available
  |}; cbn [lim_AllowN lim_Peek fw_limiter].
  - intros s t k Hok. by apply peek_remaining.
  - intros s t t' k k' Hok _. rewrite peek_state. by apply getOrCreate_available.
  - intros s t k Hok. rewrite peek_state. by apply getOrCreate_ok.
  - intros s t t' k k' n Hok _. rewrite peek_state. by rewrite (proj1 (getOrCreate_cfg s k t)).
  - intros s t k n Hok [Hk Hn]. rewrite (proj2 (AllowN_state s (reads_at t) k n)), allowN_body_spec by done.
    cbv zeta. cbn [r_now reads_at]. by destruct (n <=? available s t k).
  - intros s t k n Hok [Hk Hn]. rewrite (proj1 (AllowN_state s (reads_at t) k n)), allowN_body_spec by done.
    cbv zeta. cbn [r_now reads_at]. pose proof (available_bounds s t k Hok).
    case_cmp; apply fw_ok_insert; auto; unfold counter_ok; simpl; lia.
  - intros s t k n Hok [Hk Hn]. rewrite (proj1 (AllowN_state s (reads_at t) k n)),
      (proj2 (AllowN_state s (reads_at t) k n)), allowN_body_spec by done.
    cbv zeta. cbn [r_now reads_at]. set (A := available s t k).
    destruct (n <=? A); cbn [fst snd Allowed]; unfold available at 1;
      cbn [counters with_counters limit]; rewrite lookup_insert_eq; unfold live_count;
      cbn [windowStart count]; change (window_start (with_counters s _)) with (window_start s);
      rewrite Z.eqb_refl; lia.
Defined.

(** ** Waits *)

Lemma WaitN_loop_cfg fw m c key n now wakes :
  WaitN_loop (with_counters fw m) c key n now wakes = WaitN_loop fw c key n now wakes.
Proof.
  revert c now. induction wakes as [|[t|] wakes IH]; intros c now; cbn [WaitN_loop];
    change (consume (with_counters fw m)) with (consume fw); destruct (consume fw c n now); [done| |done].
  by rewrite IH.
Qed.

(** A call of [WaitN] takes the first decisions of [wait_ops], up to the first
    that is granted: what is shown of histories holds of waits. *)
Theorem fw_wait_as_decisions fw key n tc now wakes :
  ValidateKey key = None -> 1 <= n ->
  exists k, run exec fw (take (Datatypes.S k) (wait_ops key n tc now wakes)) =
    (snd (WaitN fw key n tc now wakes),
     match fst (WaitN fw key n tc now wakes) with
     | Returned None => [mkAdmission key (nth k (now :: fired wakes) 0) n]
     | _ => []
     end).
Proof.
  intros Hkey Hn. unfold WaitN. rewrite Hkey, (proj2 (ValidateN_ok n)) by done.
  revert fw tc now. induction wakes as [|w wakes IH]; intros fw tc now;
    cbn [wait_ops fired map take run exec]; pose proof (AllowN_state fw (mkReads tc tc now now) key n) as [Es Ea];
    destruct (AllowN _ _ _ _) as [[res fw'] ev]; cbn [fst snd] in Es, Ea; subst fw';
    unfold allowN_body in *; rewrite Hkey, (proj2 (ValidateN_ok n)) in * by done; cbn [r_create r_now] in *;
    destruct (getOrCreate fw key tc) as [c fw1]; cbn [WaitN_loop];
    destruct (consume fw1 c n now) as [r c']; cbn [fst snd] in *; rewrite Ea;
    (destruct (Allowed r); [by exists 0%nat|]); [by exists 0%nat|].
  destruct w as [t|]; [|by exists 0%nat].
  specialize (IH (with_counters fw1 (<[key := c']> (counters fw1))) t t) as [k IH]. exists (Datatypes.S k).
  unfold wait_ops in IH. cbn [fired map]. change (mkReads t t t t) with (reads_at t) in IH.
  assert (getOrCreate (with_counters fw1 (<[key := c']> (counters fw1))) key t = (c', with_counters fw1 (<[key := c']> (counters fw1)))) as Eg.
  { unfold getOrCreate. cbn [counters with_counters]. by rewrite lookup_insert_eq. }
  rewrite Eg, WaitN_loop_cfg in IH. cbn [counters with_counters] in IH.
  change (take (Datatypes.S (Datatypes.S k)) (?a :: ?l)) with (a :: take (Datatypes.S k) l).
  cbn [take] in IH |- *. rewrite IH. destruct (WaitN_loop fw1 c' key n t wakes) as [wr c2]. cbn [fst snd].
  unfold with_counters. cbn [counters]. rewrite insert_insert_eq. by destruct wr as [[]|].
Qed.
