(* ===== verification/Gcra.v ===== *)
(** * The generic cell rate algorithm ([ratelimit/gcra/gcra.go]).

    A key holds one theoretical arrival time (TAT).  Arithmetic is on int64
    nanoseconds, divisions may panic. *)

From S2P Require Import Prelude Float64 Ratelimit.
Open Scope Z_scope.

Definition algorithmName : string := "gcra".

Record entry := mkEntry { tat : time; lastAccess : time }.

Record GCRA := mkGCRA {
  limit : Z;
  burst : Z;
  window : duration;
  idleClean : duration;
  emissionInterval : duration;
  burstOffset : duration;
  entries : gmap string entry;
  closed : bool;
  onDecision : bool;
}.

Definition with_entries (g : GCRA) (m : gmap string entry) : GCRA :=
  mkGCRA (limit g) (burst g) (window g) (idleClean g) (emissionInterval g) (burstOffset g)
    m (closed g) (onDecision g).

(** ** Construction *)

Definition WithIdleCleanup (d : duration) (g : GCRA) : GCRA :=
  mkGCRA (limit g) (burst g) (window g) d (emissionInterval g) (burstOffset g)
    (entries g) (closed g) (onDecision g).

Definition WithOnDecision (g : GCRA) : GCRA :=
  mkGCRA (limit g) (burst g) (window g) (idleClean g) (emissionInterval g) (burstOffset g)
    (entries g) (closed g) true.

Definition New (limit burst : Z) (window : duration) (opts : list (GCRA -> GCRA)) : outcome GCRA :=
  if limit <=? 0 then Panic "gcra.New: limit must be > 0"
  else if window <=? 0 then Panic "gcra.New: window must be > 0"
  else
    let burst := if burst <? 1 then 1 else burst in
    let emissionInterval := Z.quot window limit in
    let burstOffset := emissionInterval *w (burst - 1) in
    Ok (foldl (fun g opt => opt g)
          (mkGCRA limit burst window (5 * Minute) emissionInterval burstOffset ∅ false false) opts).

(** ** Decisions *)

Definition maxTime (a b : time) : time := if After a b then a else b.

Definition getOrCreate (g : GCRA) (key : string) (now : time) : entry * GCRA :=
  match entries g !! key with
  | Some e => (e, g)
  | None =>
      let e := mkEntry zero_time now in
      (e, with_entries g (<[key := e]> (entries g)))
  end.

(** [consume]; the division by a zero emission interval panics after the TAT
    has been stored. *)
Definition consume (g : GCRA) (e : entry) (n : Z) (now : time) : outcome Result * entry :=
  let storedTAT := if IsZero (tat e) then now else tat e in
  let newTAT := time_add (maxTime storedTAT now) (emissionInterval g *w n) in
  let limitWindow := time_add now (emissionInterval g *w burst g) in
  if After newTAT limitWindow then
    let retryAfter := time_sub newTAT limitWindow in
    (Ok (mkResult false (limit g) 0 0 retryAfter algorithmName ∅), mkEntry (tat e) now)
  else
    let slack := time_sub limitWindow newTAT in
    (remaining ← go_quot slack (emissionInterval g);
     let remaining := if remaining <? 0 then 0 else remaining in
     let remaining := if burst g <? remaining then burst g else remaining in
     Ok (mkResult true (limit g) remaining 0 0 algorithmName ∅),
     mkEntry newTAT now).

(** [AllowN] before its deferred calls. *)
Definition allowN_body (g : GCRA) (rd : reads) (key : string) (n : Z) : outcome Result * GCRA :=
  match ValidateKey key with
  | Some _ => (Ok (denied_zero algorithmName), g)
  | None =>
      match ValidateN n with
      | Some _ => (Ok (denied_zero algorithmName), g)
      | None =>
          if burst g <? n then
            (Ok (setCost (mkResult false (limit g) 0 0 0 algorithmName ∅) (AInt n)), g)
          else
            let '(e, g) := getOrCreate g key (r_create rd) in
            let '(res, e) := consume g e n (r_now rd) in
            (res ← res; Ok (if n =? 1 then res else setCost res (AInt n)),
             with_entries g (<[key := e]> (entries g)))
      end
  end.

(** The deferred recorder and hook see the named result, which is still the
    zero [Result] when the body panicked. *)
Definition zero_Result : Result := mkResult false 0 0 0 0 "" ∅.

Definition AllowN (g : GCRA) (rd : reads) (key : string) (n : Z)
  : outcome Result * GCRA * list event :=
  let '(out, g) := allowN_body g rd key n in
  let res := match out with Ok r => r | Panic _ => zero_Result end in
  (out, g,
   record_decision algorithmName res (r_start rd) (r_stop rd) ++
   (if onDecision g then [OnDecision key res] else [])).

Definition Allow (g : GCRA) (rd : reads) (key : string) : outcome Result * GCRA * list event :=
  AllowN g rd key 1.

(** ** Waiting *)

Fixpoint WaitN_loop (g : GCRA) (e : entry) (key : string) (n : Z) (now : time)
    (wakes : list wake) : outcome wait_result * entry :=
  let '(out, e) := consume g e n now in
  match out with
  | Panic m => (Panic m, e)
  | Ok res =>
      if Allowed res then (Ok (Returned None), e)
      else
        let wait := if RetryAfter res <=? 0 then emissionInterval g else RetryAfter res in
        match wakes with
        | [] => (Ok Blocked, e)
        | CtxDone :: _ =>
            (Ok (Returned (Some (RateLimitError algorithmName key (limit g) wait ErrContextDone))), e)
        | TimerFired t :: wakes' => WaitN_loop g e key n t wakes'
        end
  end.

Definition WaitN (g : GCRA) (key : string) (n : Z) (tc now : time) (wakes : list wake)
  : outcome wait_result * GCRA :=
  match ValidateKey key with
  | Some e => (Ok (Returned (Some (ESentinel e))), g)
  | None =>
      match ValidateN n with
      | Some e => (Ok (Returned (Some (ESentinel e))), g)
      | None =>
          if burst g <? n then
            (Ok (Returned (Some (RateLimitError algorithmName key (limit g) 0 ErrLimitExceeded))), g)
          else
            let '(e, g) := getOrCreate g key tc in
            let '(r, e) := WaitN_loop g e key n now wakes in
            (r, with_entries g (<[key := e]> (entries g)))
      end
  end.

Definition Wait (g : GCRA) (key : string) (tc now : time) (wakes : list wake)
  : outcome wait_result * GCRA := WaitN g key 1 tc now wakes.

(** ** Inspection and maintenance *)

Definition Peek (g : GCRA) (tc now : time) (key : string) : outcome State * GCRA :=
  let '(e, g) := getOrCreate g key tc in
  let effectiveTAT := if IsZero (tat e) then now else tat e in
  let tatAfterNext := time_add (maxTime effectiveTAT now) (emissionInterval g) in
  let limitWindow := time_add now (emissionInterval g *w burst g) in
  let state remaining retryAfter :=
    mkState key algorithmName (limit g) remaining (time_add (tat e) (emissionInterval g)) zero_time
      {[ "tat" := ATime (tat e); "emission_interval" := ADuration (emissionInterval g);
         "burst_offset" := ADuration (burstOffset g); "retry_after" := ADuration retryAfter ]} in
  (if negb (After tatAfterNext limitWindow) then
     let slack := time_sub limitWindow effectiveTAT in
     remaining ← (if 0 <=? slack then go_quot slack (emissionInterval g) else Ok 0);
     let remaining := if burst g <? remaining then burst g else remaining in
     let remaining := if remaining <? 0 then 0 else remaining in
     Ok (state remaining 0)
   else Ok (state 0 (time_sub tatAfterNext limitWindow)),
   g).

Definition Reset (g : GCRA) (key : string) : GCRA := with_entries g (delete key (entries g)).

Definition Close (g : GCRA) : GCRA :=
  mkGCRA (limit g) (burst g) (window g) (idleClean g) (emissionInterval g) (burstOffset g)
    (entries g) true (onDecision g).

Definition sweep (g : GCRA) (now : time) : GCRA :=
  if (idleClean g <=? 0) || closed g then g
  else
    let cutoff := time_add now (- idleClean g) in
    with_entries g (filter (fun ke => Before (lastAccess ke.2) cutoff = false) (entries g)).

(** ** Histories *)

Definition allowed (out : outcome Result) : bool :=
  match out with Ok r => Allowed r | Panic _ => false end.

Definition exec (g : GCRA) (o : op) : GCRA * option admission :=
  match o with
  | OpAllow rd key n =>
      let '(out, g', _) := AllowN g rd key n in
      (g', if allowed out then Some (mkAdmission key (r_now rd) n) else None)
  | OpPeek tc t key => (snd (Peek g tc t key), None)
  | OpSweep t => (sweep g t, None)
  end.

(** What [New] establishes, with an emission interval of at least one
    nanosecond and a burst window that fits a [time.Duration]. *)
Definition cfg_ok (g : GCRA) : Prop :=
  0 < limit g /\ 0 < window g /\ 1 <= burst g /\ 0 < emissionInterval g /\
  emissionInterval g * burst g <= max_int64.

(** ** One decision *)

(** The TAT a request starts from. *)
Definition base (e : entry) (now : time) : time :=
  if IsZero (tat e) then now else Z.max (tat e) now.

(** How many unit requests the key can still make at [now]. *)
Definition entry_avail (g : GCRA) (e : entry) (now : time) : Z :=
  Z.max 0 ((now + emissionInterval g * burst g - base e now) / emissionInterval g).

Lemma maxTime_max a b : maxTime a b = Z.max a b.
Proof. unfold maxTime, After. case_cmp; lia. Qed.

Lemma maxTime_base e now : maxTime (if IsZero (tat e) then now else tat e) now = base e now.
Proof. rewrite maxTime_max. unfold base. destruct (IsZero _); lia. Qed.

Lemma base_ge e now : now <= base e now.
Proof. unfold base. destruct (IsZero _); lia. Qed.

Lemma gcra_consume_spec g e n now :
  cfg_ok g -> 1 <= n <= burst g ->
  consume g e n now =
    let ei := emissionInterval g in
    if base e now + ei * n <=? now + ei * burst g then
      (Ok (mkResult true (limit g) (entry_avail g e now - n) 0 0 algorithmName ∅),
       mkEntry (base e now + ei * n) now)
    else
      (Ok (mkResult false (limit g) 0 0 (sat64 (base e now + ei * n - (now + ei * burst g)))
             algorithmName ∅),
       mkEntry (tat e) now).
Proof.
  intros (Hl & Hw & Hb & Hei & Hm) Hn. unfold consume. rewrite maxTime_base.
  unfold time_add, time_sub, After. cbv zeta.
  pose proof (base_ge e now) as HB. set (B := base e now) in *. set (ei := emissionInterval g) in *.
  assert (0 <= ei * n <= ei * burst g) by nia.
  rewrite !(wrap64_small (ei * _)) by go_lia.
  destruct (Z.leb_spec (B + ei * n) (now + ei * burst g)) as [Hle|Hgt].
  - rewrite (proj2 (Z.ltb_ge _ _)) by lia. rewrite sat64_small by go_lia.
    unfold go_quot. rewrite (proj2 (Z.eqb_neq _ _)) by lia. cbn [mbind outcome_bind].
    rewrite Z.quot_div_nonneg by lia.
    set (q := (now + ei * burst g - (B + ei * n)) / ei).
    assert ((now + ei * burst g - B) / ei = q + n) as E.
    { unfold q. replace (now + ei * burst g - B) with (now + ei * burst g - (B + ei * n) + n * ei) by lia.
      apply Z.div_add. lia. }
    assert (0 <= q <= burst g) as Hq.
    { split; [apply Z.div_pos; lia|]. apply Z.lt_succ_r, Z.div_lt_upper_bound; nia. }
    assert (burst g <= max_int64) by nia.
    rewrite wrap64_small by go_lia.
    rewrite (proj2 (Z.ltb_ge q 0)) by lia. rewrite (proj2 (Z.ltb_ge (burst g) q)) by lia.
    unfold entry_avail. fold B ei. rewrite E. do 3 f_equal. lia.
  - rewrite (proj2 (Z.ltb_lt _ _)) by lia. done.
Qed.

(** A request is granted exactly when that many units are available. *)
Lemma entry_avail_iff g e n now : cfg_ok g -> 1 <= n ->
  (base e now + emissionInterval g * n <=? now + emissionInterval g * burst g)
    = (n <=? entry_avail g e now).
Proof.
  intros (_ & _ & _ & Hei & _) Hn. unfold entry_avail.
  set (ei := emissionInterval g) in *. set (X := now + ei * burst g - base e now).
  destruct (Z.leb_spec (base e now + ei * n) (now + ei * burst g)) as [H|H];
    symmetry; [apply Z.leb_le|apply Z.leb_gt].
  - assert (n <= X / ei) by (apply Z.div_le_lower_bound; lia). lia.
  - assert (X / ei < n) by (apply Z.div_lt_upper_bound; lia). lia.
Qed.

Lemma entry_avail_burst g e now : cfg_ok g -> 0 <= entry_avail g e now <= burst g.
Proof.
  intros (_ & _ & Hb & Hei & _). unfold entry_avail. pose proof (base_ge e now).
  assert ((now + emissionInterval g * burst g - base e now) / emissionInterval g <= burst g).
  { apply Z.div_le_upper_bound; lia. } lia.
Qed.

(** A valid request in terms of the key's entry. *)
Definition entry_of (g : GCRA) (key : string) : entry :=
  default (mkEntry zero_time 0) (entries g !! key).

Lemma gcra_allowN_spec g rd key n :
  cfg_ok g -> ValidateKey key = None -> 1 <= n <= burst g ->
  let e := entry_of g key in
  let now := r_now rd in
  let ok := n <=? entry_avail g e now in
  allowed (fst (allowN_body g rd key n)) = ok /\
  snd (allowN_body g rd key n) =
    with_entries g (<[key := mkEntry (if ok then base e now + emissionInterval g * n else tat e) now]> (entries g)).
Proof.
  intros Hcfg Hkey Hn. cbv zeta. unfold allowN_body.
  rewrite Hkey, (proj2 (ValidateN_ok n)) by lia. rewrite (proj2 (Z.ltb_ge _ _)) by lia.
  set (now := r_now rd).
  assert (exists e' g', getOrCreate g key (r_create rd) = (e', g') /\ tat e' = tat (entry_of g key) /\
    consume g' = consume g /\
    forall e'', with_entries g' (<[key := e'']> (entries g')) = with_entries g (<[key := e'']> (entries g)))
    as (e' & g' & -> & Et & -> & Eg).
  { unfold getOrCreate, entry_of. destruct (entries g !! key) as [e0|] eqn:Ee; [by exists e0, g|].
    do 2 eexists. split; [done|]. repeat split; [done..|]. intros e''. unfold with_entries.
    cbn [entries]. by rewrite insert_insert_eq. }
  assert (consume g e' n now = consume g (entry_of g key) n now) as -> by (unfold consume; by rewrite Et).
  rewrite gcra_consume_spec by done. cbv zeta. rewrite entry_avail_iff by (auto; lia).
  destruct (n <=? entry_avail g (entry_of g key) now), (n =? 1); cbn [fst snd]; by rewrite Eg.
Qed.

Lemma gcra_AllowN_state g rd key n :
  snd (fst (AllowN g rd key n)) = snd (allowN_body g rd key n) /\
  fst (fst (AllowN g rd key n)) = fst (allowN_body g rd key n).
Proof. unfold AllowN. by destruct (allowN_body g rd key n). Qed.

(** ** The invariant of histories *)

Section history.
Context (g0 : GCRA) (Hcfg : cfg_ok g0).

Definition same_cfg (g : GCRA) : Prop :=
  limit g = limit g0 /\ burst g = burst g0 /\ window g = window g0 /\
  emissionInterval g = emissionInterval g0 /\ idleClean g = idleClean g0.

(** A key without a usable TAT owes nothing beyond the present. *)
Definition key_tat (T : time) (oe : option entry) : time :=
  match oe with Some e => base e T | None => T end.

Definition gkey_inv (T : time) (h : list admission) (key : string) (oe : option entry) : Prop :=
  (forall a b, a <= b -> emissionInterval g0 * admitted (in_interval key a b) h
                        <= b - a + emissionInterval g0 * burst g0) /\
  (forall a, emissionInterval g0 * adm_from h key a <= Z.max 0 (key_tat T oe - a)) /\
  Forall (fun x => a_at x <= T) h /\
  match oe with
  | Some e => (tat e = zero_time \/
               0 <= tat e <= lastAccess e + emissionInterval g0 * burst g0) /\ lastAccess e <= T
  | None => True
  end.

Definition ghist_inv (T : time) (h : list admission) (g : GCRA) : Prop :=
  same_cfg g /\ forall key, gkey_inv T h key (entries g !! key).

Lemma key_tat_mono T T' oe : 0 <= T -> T <= T' -> key_tat T oe <= key_tat T' oe.
Proof. destruct oe as [e|]; simpl; [|done]. unfold base. destruct (IsZero _); lia. Qed.

Lemma gkey_inv_later T T' h key oe : 0 <= T -> T <= T' -> gkey_inv T h key oe -> gkey_inv T' h key oe.
Proof.
  intros H0 HT (Hi & Hf & Ht & He). repeat split; auto.
  - intros a. specialize (Hf a). pose proof (key_tat_mono T T' oe H0 HT). lia.
  - eapply Forall_impl; [exact Ht|]. simpl. lia.
  - destruct oe as [e|]; [|done]. intuition lia.
Qed.

Lemma gkey_inv_deny T h key e now :
  0 <= T -> T <= now -> gkey_inv T h key (Some e) -> gkey_inv now h key (Some (mkEntry (tat e) now)).
Proof.
  intros H0 HT HI. apply (gkey_inv_later T now) in HI as (Hi & Hf & Ht & He & Hl); auto.
  repeat split; auto; simpl in *; try lia.
Qed.

(** An admission moves the TAT by its cost, which pays for it. *)
Lemma gkey_inv_allow T h key oe now n :
  0 <= T -> T <= now -> 1 <= n -> gkey_inv T h key oe ->
  let B := key_tat now oe in
  B + emissionInterval g0 * n <= now + emissionInterval g0 * burst g0 ->
  gkey_inv now (mkAdmission key now n :: h) key (Some (mkEntry (B + emissionInterval g0 * n) now)).
Proof.
  intros H0 HT Hn HI B HB. destruct Hcfg as (_ & _ & Hb & Hei & _).
  assert (0 <= emissionInterval g0 * n) as Hen by (apply Z.mul_nonneg_nonneg; lia).
  apply (gkey_inv_later T now) in HI as (Hi & Hf & Ht & He); auto.
  assert (now <= B) as HnB.
  { unfold B, key_tat. destruct oe as [e|]; [apply base_ge|lia]. }
  assert (forall a, emissionInterval g0 * adm_from (mkAdmission key now n :: h) key a
            <= Z.max 0 (B + emissionInterval g0 * n - a)) as Hf'.
  { intros a. unfold adm_from. rewrite admitted_cons. cbn [a_key a_at a_n].
    rewrite bool_decide_true by done. specialize (Hf a). unfold adm_from in Hf. cbn [andb].
    destruct (Z.leb_spec a now); nia. }
  assert (Forall (fun x => a_at x <= now) (mkAdmission key now n :: h)) as Ht'.
  { constructor; [simpl; lia|done]. }
  repeat split; auto.
  - intros a b Hab. destruct (Z.le_gt_cases now b) as [Hnb|Hnb].
    + destruct (Z.le_gt_cases a now).
      * rewrite interval_from by (eapply Forall_impl; [exact Ht'|]; simpl; lia).
        specialize (Hf' a). lia.
      * rewrite admitted_cons. unfold in_interval at 1. cbn [a_key a_at a_n].
        rewrite (proj2 (Z.leb_gt a now)) by lia. rewrite andb_false_l, andb_false_r. by apply Hi.
    + rewrite admitted_cons. unfold in_interval at 1. cbn [a_key a_at a_n].
      rewrite (proj2 (Z.leb_gt now b)) by lia. rewrite !andb_false_r. by apply Hi.
  - intros a. specialize (Hf' a). unfold key_tat, base. cbn [tat].
    destruct (IsZero _) eqn:Ez; [unfold IsZero, zero_time in Ez; apply Z.eqb_eq in Ez; lia|].
    rewrite (Z.max_l (B + _) now) by lia. done.
  - right. simpl. lia.
  - simpl. lia.
Qed.

Lemma gkey_inv_other T h key key' now n oe : key <> key' -> now <= T ->
  gkey_inv T h key oe -> gkey_inv T (mkAdmission key' now n :: h) key oe.
Proof.
  intros Hne HT (Hi & Hf & Ht & He). repeat split; auto.
  - intros a b Hab. rewrite admitted_cons. unfold in_interval at 1. cbn [a_key].
    rewrite bool_decide_false by done. by apply Hi.
  - intros a. unfold adm_from. rewrite admitted_cons. cbn [a_key].
    rewrite bool_decide_false by done. apply Hf.
Qed.

(** An entry the sweep removes has no TAT left in the future. *)
Lemma gkey_inv_evict T h key e :
  0 <= T -> emissionInterval g0 * burst g0 <= idleClean g0 ->
  Before (lastAccess e) (time_add T (- idleClean g0)) = true ->
  gkey_inv T h key (Some e) -> gkey_inv T h key None.
Proof.
  intros H0 Hidle Hb (Hi & Hf & Ht & He & Hl). repeat split; auto.
  intros a. specialize (Hf a). apply Z.ltb_lt in Hb. unfold time_add in Hb.
  unfold key_tat, base in *. destruct (IsZero (tat e)) eqn:Ez; [lia|].
  destruct He as [He|He]; [unfold IsZero in Ez; by rewrite He in Ez|]. lia.
Qed.
End history.

(** ** Conformance *)

Section conformance.
Context (g0 : GCRA) (Hcfg : cfg_ok g0).
Hypothesis Hidle : idleClean g0 <= 0 \/ emissionInterval g0 * burst g0 <= idleClean g0.

Lemma same_cfg_ok g : same_cfg g0 g -> cfg_ok g.
Proof. intros (E1 & E2 & E3 & E4 & _). unfold cfg_ok in *. by rewrite E1, E2, E3, E4. Qed.

Lemma ghist_inv_keep T T' h g : 0 <= T -> T <= T' -> ghist_inv g0 T h g -> ghist_inv g0 T' h g.
Proof. intros ? ? [Hs Hk]. split; [done|]. intros k. by apply (gkey_inv_later g0 T). Qed.

(** The entry of an absent key stands for a fresh one. *)
Lemma gkey_inv_fresh T h key t : 0 <= T -> T <= t -> gkey_inv g0 T h key None ->
  gkey_inv g0 t h key (Some (mkEntry zero_time t)).
Proof.
  intros H0 HT HI. apply (gkey_inv_later g0 T t) in HI as (Hi & Hf & Ht & _); auto.
  repeat split; auto; simpl; first [lia|auto].
Qed.

Lemma ghist_inv_allow T h g rd key n :
  ghist_inv g0 T h g -> 0 <= T -> 1 <= n -> clocked T (op_times (OpAllow rd key n)) ->
  let '(g', a) := exec g (OpAllow rd key n) in
  ghist_inv g0 (r_stop rd) (match a with Some x => x :: h | None => h end) g'.
Proof.
  intros HI HT Hn (H1 & H2 & H3 & H4 & _). pose proof HI as [Hs Hk].
  simpl. destruct (gcra_AllowN_state g rd key n) as [Es Ea].
  destruct (AllowN g rd key n) as [[res g'] ev]; simpl in Es, Ea. subst g' res. clear ev.
  pose proof (ghist_inv_keep T (r_stop rd) h g HT ltac:(lia) HI) as Hkeep.
  destruct (ValidateKey key) as [er|] eqn:Ek; [by unfold allowN_body; rewrite Ek|].
  assert (burst g = burst g0 /\ emissionInterval g = emissionInterval g0) as [Eb Ei] by (split; apply Hs).
  destruct (Z.le_gt_cases n (burst g)) as [Hnb|Hnb].
  2:{ unfold allowN_body. rewrite Ek, (proj2 (ValidateN_ok n)) by lia.
      by rewrite (proj2 (Z.ltb_lt _ _)) by lia. }
  pose proof (same_cfg_ok g Hs) as Hok.
  destruct (gcra_allowN_spec g rd key n Hok Ek ltac:(lia)) as [-> ->].
  set (e := entry_of g key). set (now := r_now rd) in *.
  assert (exists oe, gkey_inv g0 T h key oe /\ key_tat now oe = base e now /\
    (forall T', T <= T' -> gkey_inv g0 T' h key (Some (mkEntry (tat e) T')))) as (oe & Hoe & Eb' & Hdeny).
  { unfold e, entry_of. specialize (Hk key). destruct (entries g !! key) as [e0|] eqn:Ee; cbn.
    - exists (Some e0). split_and!; [by apply Hk|done|]. intros T' HT'. by apply (gkey_inv_deny g0 T).
    - exists None. split_and!; [by apply Hk|done|]. intros T' HT'. by apply (gkey_inv_fresh T). }
  assert (forall hh e', gkey_inv g0 now hh key (Some e') ->
    (forall k, k <> key -> gkey_inv g0 now hh k (entries g !! k)) ->
    ghist_inv g0 (r_stop rd) hh (with_entries g (<[key := e']> (entries g)))) as Hins.
  { intros hh e' He' Hoth. split; [done|]. intros k. cbn [entries with_entries].
    rewrite lookup_insert. case_decide; subst; apply (gkey_inv_later g0 now); auto; lia. }
  pose proof (entry_avail_iff g e n now Hok Hn) as Hiff.
  destruct (n <=? entry_avail g e now); cbn [fst]; apply Hins.
  - rewrite Ei, <- Eb'. apply (gkey_inv_allow g0 Hcfg T); auto; try lia.
  - intros k Hne. apply gkey_inv_other; auto; [lia|]. apply (gkey_inv_later g0 T); auto; lia.
  - apply Hdeny. lia.
  - intros k _. apply (gkey_inv_later g0 T); auto; lia.
Qed.

Lemma ghist_inv_peek T h g tc t key :
  ghist_inv g0 T h g -> 0 <= T -> clocked T (op_times (OpPeek tc t key)) ->
  ghist_inv g0 t h (fst (exec g (OpPeek tc t key))).
Proof.
  intros HI HT (H1 & H2 & _). simpl. unfold Peek, getOrCreate.
  pose proof (ghist_inv_keep T t h g HT ltac:(lia) HI) as [Hs Hk].
  destruct (entries g !! key) as [e|] eqn:E; simpl; [done|]. split; [done|].
  intros k. cbn [entries with_entries]. rewrite lookup_insert. case_decide; [subst k|done].
  destruct HI as [_ HkT]. specialize (HkT key). rewrite E in HkT.
  apply (gkey_inv_later g0 tc); try lia. apply (gkey_inv_fresh T); auto; lia.
Qed.

Lemma ghist_inv_sweep T h g t :
  ghist_inv g0 T h g -> 0 <= T -> clocked T [t] -> ghist_inv g0 t h (sweep g t).
Proof.
  intros HI HT (H1 & _). pose proof (ghist_inv_keep T t h g HT ltac:(lia) HI) as [Hs Hk].
  unfold sweep. destruct (Z.leb_spec (idleClean g) 0) as [|Hi]; [done|].
  destruct (closed g); [done|]. simpl. split; [done|]. intros k. cbn [entries with_entries].
  specialize (Hk k). rewrite map_lookup_filter. destruct (entries g !! k) as [e|]; [|done]. simpl.
  destruct Hs as (_ & _ & _ & _ & Ei). rewrite Ei in *.
  case_guard as Hb; [done|]. apply not_false_is_true in Hb.
  apply (gkey_inv_evict g0 t h k e); auto; lia.
Qed.
End conformance.

(** C3: GCRA conformance.  Along any history whose clock does not go back, if
    idle cleanup is off or keeps entries for at least [burst] emission
    intervals, the cost admitted for a key in any closed time interval of
    length [d] takes at most [d] plus [burst] emission intervals: no interval
    sees more than the sustained rate plus one burst. *)
Theorem gcra_conformance g ops T key a b :
  cfg_ok g -> entries g = ∅ ->
  idleClean g <= 0 \/ emissionInterval g * burst g <= idleClean g ->
  clocked_ops T ops -> costs_upto max_int64 ops -> a <= b ->
  emissionInterval g * admitted (in_interval key a b) (snd (run exec g ops))
    <= b - a + emissionInterval g * burst g.
Proof.
  intros Hcfg Hempty Hidle Hclk Hcost Hab.
  destruct (run_invariant exec (ghist_inv g)
    (fun o => match o with OpAllow _ _ n => 1 <= n <= max_int64 | _ => True end)) with
    (ops := ops) (T := T) (h := @nil admission) (s := g) as [T' [_ HI]]; try done.
  - intros T0 h s o HI Hpre HT Ho _. destruct o as [rd k n|tc t k|t].
    + pose proof (ghist_inv_allow g Hcfg T0 h s rd k n HI HT ltac:(lia) Ho) as H. by destruct (exec s _).
    + by apply (ghist_inv_peek g T0).
    + by apply (ghist_inv_sweep g Hidle T0).
  - split; [done|]. intros k. rewrite Hempty, lookup_empty. destruct Hcfg as (_ & _ & Hb & Hei & _).
    repeat split; [|intros x; unfold adm_from; rewrite admitted_nil; lia|constructor].
    intros x y Hxy. rewrite admitted_nil. nia.
  - specialize (HI key) as [HI _]. specialize (HI a b Hab).
    by rewrite app_nil_r, admitted_rev in HI.
Qed.

(** Five requests a second with a burst of three, cleanup after a minute. *)
Definition demo_gcra : GCRA :=
  mkGCRA 5 3 Second Minute (200 * Millisecond) (400 * Millisecond) ∅ false false.

Definition demo_ops : list op :=
  [OpAllow (reads_at 1000) "a" 2; OpAllow (reads_at 1001) "b" 3; OpPeek 1001 1002 "c";
   OpAllow (reads_at 1003) "a" 1; OpAllow (reads_at 1004) "a" 1; OpSweep 2000].

Lemma gcra_conformance_witness :
  admitted (in_interval "a" 0 1000000) (snd (run exec demo_gcra demo_ops)) = 3 /\
  emissionInterval demo_gcra * admitted (in_interval "a" 0 1000000) (snd (run exec demo_gcra demo_ops))
    <= 1000000 - 0 + emissionInterval demo_gcra * burst demo_gcra.
Proof.
  split; [vm_compute; reflexivity|].
  refine (gcra_conformance demo_gcra demo_ops 1000 "a" 0 1000000 _ eq_refl _ _ _ _).
  - unfold cfg_ok, demo_gcra; cbn -[Z.mul]; unfold Second, Millisecond; go_lia.
  - right. vm_compute. discriminate.
  - unfold clocked_ops, demo_ops; simpl; go_lia.
  - unfold costs_upto, demo_ops. repeat constructor; go_lia.
  - lia.
Defined.

(** The default cleanup undoes conformance for slow limits: ten requests an
    hour with a burst of ten, ten requests at the start and ten more once the
    five-minute sweep dropped the key, are all admitted, although the interval
    pays for no more than ten. *)
Theorem gcra_idle_eviction_breaks_conformance :
  exists g, New 10 10 Hour [] = Ok g /\ cfg_ok g /\
  let ops := [OpAllow (reads_at 0) "k" 10; OpSweep (5 * Minute + 1);
              OpAllow (reads_at (5 * Minute + 2)) "k" 10] in
  clocked_ops 0 ops /\ costs_upto max_int64 ops /\
  admitted (in_interval "k" 0 (5 * Minute + 2)) (snd (run exec g ops)) = 20 /\
  (5 * Minute + 2) - 0 + emissionInterval g * burst g < emissionInterval g * 20.
Proof.
  eexists. split; [vm_compute; reflexivity|]. cbv zeta. split_and!.
  - unfold cfg_ok; simpl. go_lia.
  - unfold clocked_ops; simpl. unfold Minute. go_lia.
  - unfold costs_upto. repeat constructor; go_lia.
  - vm_compute. reflexivity.
  - vm_compute. reflexivity.
Qed.

(** More requests than nanoseconds in the window: [New] accepts the
    configuration with a zero emission interval, and the first decision of any
    valid request panics on the division. *)
Theorem gcra_zero_interval_panics lim bst w g rd key n :
  0 < w < lim -> New lim bst w [] = Ok g ->
  ValidateKey key = None -> 1 <= n <= burst g ->
  emissionInterval g = 0 /\
  fst (fst (AllowN g rd key n)) = Panic "runtime error: integer divide by zero".
Proof.
  intros Hw HN Hkey Hn. unfold New in HN.
  rewrite (proj2 (Z.leb_gt lim 0)), (proj2 (Z.leb_gt w 0)), Z.quot_small in HN by lia.
  simplify_eq/=. split; [done|].
  rewrite (proj2 (gcra_AllowN_state _ _ _ _)). unfold allowN_body.
  rewrite Hkey, (proj2 (ValidateN_ok n)) by lia. cbn [burst].
  rewrite (proj2 (Z.ltb_ge _ _)) by lia.
  unfold getOrCreate. cbn [entries]. rewrite lookup_empty. unfold consume.
  cbn [tat emissionInterval burst with_entries]. rewrite !Z.mul_0_l.
  change (wrap64 0) with 0. change (IsZero zero_time) with true. cbv iota zeta.
  rewrite maxTime_max, Z.max_id. unfold time_add, After. by rewrite Z.ltb_irrefl.
Qed.

Lemma gcra_zero_interval_panics_witness :
  exists g, New 2000 4 (1 * Microsecond) [] = Ok g /\
  emissionInterval g = 0 /\
  fst (fst (AllowN g (reads_at 7) "k" 2)) = Panic "runtime error: integer divide by zero".
Proof.
  eexists. split; [vm_compute; reflexivity|].
  apply (gcra_zero_interval_panics 2000 4 (1 * Microsecond) _ (reads_at 7) "k" 2);
    [vm_compute; split; reflexivity|vm_compute; reflexivity|reflexivity|simpl; lia].
Defined.

(** [RetryAfter] of GCRA is the exact wait: a denied request within the
    burst is denied again at every instant before [now + RetryAfter] and
    granted at that instant. *)
Theorem gcra_retry_after_exact g e n now :
  cfg_ok g -> 1 <= n <= burst g -> tat e - now <= max_int64 ->
  allowed (fst (consume g e n now)) = false ->
  exists r e', consume g e n now = (Ok r, e') /\
  0 < RetryAfter r /\
  allowed (fst (consume g e' n (now + RetryAfter r))) = true /\
  forall t, now <= t < now + RetryAfter r -> allowed (fst (consume g e' n t)) = false.
Proof.
  intros Hcfg Hn Hrange. pose proof Hcfg as (_ & _ & Hb & Hei & Hm).
  rewrite gcra_consume_spec by done. cbv zeta.
  set (ei := emissionInterval g) in *.
  assert (0 <= ei * n <= ei * burst g) as Hen by nia.
  destruct (Z.leb_spec (base e now + ei * n) (now + ei * burst g)) as [|Hden]; [done|].
  intros _. do 2 eexists. split; [done|]. cbn [RetryAfter].
  assert (IsZero (tat e) = false /\ base e now = tat e /\ now < tat e) as (Hz & Eb & Hgt).
  { unfold base in *. destruct (IsZero (tat e)); [lia|]. split_and!; lia. }
  rewrite Eb in *.
  rewrite sat64_small by go_lia.
  set (ra := tat e + ei * n - (now + ei * burst g)) in *.
  assert (forall t, t <= tat e -> base (mkEntry (tat e) now) t = tat e) as Hbase.
  { intros t Ht. unfold base. cbn [tat]. rewrite Hz. lia. }
  split; [lia|]. split; [|intros t Ht]; rewrite gcra_consume_spec by done; cbv zeta; fold ei;
    rewrite Hbase by lia.
  - rewrite (proj2 (Z.leb_le _ _)) by lia. done.
  - rewrite (proj2 (Z.leb_gt _ _)) by lia. done.
Qed.

Lemma gcra_retry_after_exact_witness :
  exists r e', consume demo_gcra (mkEntry 600000010 10) 2 10 = (Ok r, e') /\
  0 < RetryAfter r /\
  allowed (fst (consume demo_gcra e' 2 (10 + RetryAfter r))) = true /\
  forall t, 10 <= t < 10 + RetryAfter r -> allowed (fst (consume demo_gcra e' 2 t)) = false.
Proof.
  apply (gcra_retry_after_exact demo_gcra (mkEntry 600000010 10) 2 10).
  - unfold cfg_ok, demo_gcra; cbn -[Z.mul]; unfold Second, Millisecond; go_lia.
  - simpl; lia.
  - simpl; go_lia.
  - vm_compute. reflexivity.
Defined.

(** ** The limiter interface *)

Definition result_or_zero (out : outcome Result) : Result :=
  match out with Ok r => r | Panic _ => zero_Result end.

(** The state a panicking [Peek] would have returned is unreachable under
    [cfg_ok]; a placeholder keeps the operation total. *)
Definition state_or_zero (out : outcome State) : State :=
  match out with Ok r => r | Panic _ => mkState "" "" 0 0 zero_time zero_time ∅ end.

#[export] Instance gcra_limiter : Limiter GCRA := {
  lim_AllowN s t k n := let '(out, s', _) := AllowN s (reads_at t) k n in (result_or_zero out, s');
  lim_Peek s t k := let '(out, s') := Peek s t t k in (state_or_zero out, s');
  lim_Reset := Reset;
}.

Definition gcra_available (g : GCRA) (t : time) (key : string) : Z :=
  entry_avail g (entry_of g key) t.

Lemma entry_avail_tat g e e' t : tat e = tat e' -> entry_avail g e t = entry_avail g e' t.
Proof. intros E. unfold entry_avail, base. by rewrite E. Qed.

Lemma gcra_getOrCreate_avail g key tc t k :
  gcra_available (snd (getOrCreate g key tc)) t k = gcra_available g t k.
Proof.
  unfold getOrCreate. destruct (entries g !! key) as [e|] eqn:E; [done|]. simpl.
  unfold gcra_available, entry_of. cbn [entries with_entries]. rewrite lookup_insert.
  case_decide; [subst k|done]. by rewrite E.
Qed.

Lemma gcra_getOrCreate_cfg g key tc :
  (cfg_ok g -> cfg_ok (snd (getOrCreate g key tc))) /\
  burst (snd (getOrCreate g key tc)) = burst g.
Proof. unfold getOrCreate. by destruct (entries g !! key). Qed.

Lemma gcra_getOrCreate_entry g key tc :
  tat (fst (getOrCreate g key tc)) = tat (entry_of g key).
Proof. unfold getOrCreate, entry_of. by destruct (entries g !! key). Qed.

(** [Peek] recomputes the availability with its own formula. *)
Lemma gcra_peek_spec g tc t key : cfg_ok g ->
  st_Remaining (state_or_zero (fst (Peek g tc t key))) = gcra_available g t key.
Proof.
  intros Hcfg. unfold Peek. pose proof (gcra_getOrCreate_entry g key tc) as Et.
  assert (emissionInterval (snd (getOrCreate g key tc)) = emissionInterval g /\
          burst (snd (getOrCreate g key tc)) = burst g) as [Ei Eb].
  { unfold getOrCreate. by destruct (entries g !! key). }
  destruct (getOrCreate g key tc) as [e g'] eqn:E. cbn [fst snd] in *. rewrite Ei, Eb, maxTime_base.
  unfold gcra_available. rewrite (entry_avail_tat g _ e) by done.
  pose proof (entry_avail_burst g e t Hcfg) as Hav.
  pose proof (entry_avail_iff g e 1 t Hcfg ltac:(lia)) as Hiff. rewrite Z.mul_1_r in Hiff.
  destruct Hcfg as (_ & _ & Hb & Hei & Hm). unfold time_add, time_sub, After.
  set (ei := emissionInterval g) in *. rewrite wrap64_small by nia || (unfold in64; go_unfold; nia).
  rewrite Z.ltb_antisym, negb_involutive, Hiff. destruct (Z.leb_spec 1 (entry_avail g e t)); [|simpl; lia].
  apply Z.leb_le in Hiff. unfold entry_avail in *. subst ei. set (ei := emissionInterval g) in *.
  set (u := if IsZero (tat e) then t else tat e) in *.
  assert (base e t = Z.max u t) as Hbase by (unfold base, u; destruct (IsZero _); lia).
  rewrite Hbase in *. rewrite (proj2 (Z.leb_le 0 (sat64 _))) by go_lia.
  unfold go_quot. rewrite (proj2 (Z.eqb_neq _ _)) by lia. cbn [mbind outcome_bind state_or_zero fst].
  rewrite Z.quot_div_nonneg by go_lia.
  set (q := sat64 (t + ei * burst g - u) / ei).
  assert (0 <= q <= max_int64) as Hq.
  { split; [apply Z.div_pos; go_lia|]. apply Z.div_le_upper_bound; [lia|]. go_unfold. nia. }
  rewrite wrap64_small by go_lia. cbn [st_Remaining].
  destruct (Z.le_gt_cases t u) as [Htu|Htu].
  - rewrite (Z.max_l u t) in * by lia. unfold q. rewrite sat64_small by go_lia.
    assert ((t + ei * burst g - u) / ei <= burst g) by (apply Z.div_le_upper_bound; lia).
    case_cmp; case_cmp; lia.
  - rewrite (Z.max_r u t) by lia. replace (t + ei * burst g - t) with (burst g * ei) by lia.
    rewrite Z.div_mul by lia. assert (burst g <= q) by (apply Z.div_le_lower_bound; go_lia).
    case_cmp; case_cmp; lia.
Qed.

Lemma gcra_available_insert g key e t :
  gcra_available (with_entries g (<[key := e]> (entries g))) t key = entry_avail g e t.
Proof.
  unfold gcra_available, entry_of. cbn [entries with_entries]. by rewrite lookup_insert_eq.
Qed.

(** A grant of [n] lowers the availability by [n]. *)
Lemma entry_avail_take g e n t : cfg_ok g -> 1 <= n <= burst g -> 0 <= t ->
  n <= entry_avail g e t ->
  entry_avail g (mkEntry (base e t + emissionInterval g * n) t) t = entry_avail g e t - n.
Proof.
  intros (_ & _ & Hb & Hei & _) Hn Ht Hav. unfold entry_avail in *.
  pose proof (base_ge e t) as HB. set (B := base e t) in *. set (ei := emissionInterval g) in *.
  assert (0 < ei * n) by nia.
  assert (base (mkEntry (B + ei * n) t) t = B + ei * n) as ->.
  { unfold base. cbn [tat]. destruct (IsZero _) eqn:Ez; [|lia].
    unfold IsZero, zero_time in Ez. apply Z.eqb_eq in Ez. lia. }
  replace (t + ei * burst g - (B + ei * n)) with (t + ei * burst g - B + (- n) * ei) by lia.
  rewrite Z.div_add by lia. lia.
Qed.

#[export] Instance gcra_limiter_laws : LimiterLaws GCRA.
Proof.
  assert (forall s t k, snd (Peek s t t k) = snd (getOrCreate s k t)) as Hps.
  { intros. unfold Peek. by destruct (getOrCreate s k t). }
  assert (forall s t k n,
    fst (let '(out, s', _) := AllowN s (reads_at t) k n in (result_or_zero out, s'))
      = result_or_zero (fst (allowN_body s (reads_at t) k n)) /\
    snd (let '(out, s', _) := AllowN s (reads_at t) k n in (result_or_zero out, s'))
      = snd (allowN_body s (reads_at t) k n)) as Hal.
  { intros. destruct (gcra_AllowN_state s (reads_at t) k n) as [E1 E2].
    destruct (AllowN s (reads_at t) k n) as [[out s'] ev]. simpl in *. by subst. }
  assert (forall out, Allowed (result_or_zero out) = allowed out) as Hrz by (by intros []).
  refine {|
    lim_inv := cfg_ok;
    lim_ok := fun s t k n => ValidateKey k = None /\ 1 <= n <= burst s /\ 0 <= t;
    lim_avail := gcra_available
  |}; cbn [lim_AllowN lim_Peek gcra_limiter].
  - intros s t k Hok. rewrite <- (gcra_peek_spec s t t k Hok). by destruct (Peek s t t k).
  - intros s t t' k k' Hok _. rewrite <- (gcra_getOrCreate_avail s k t), <- Hps. by destruct (Peek s t t k).
  - intros s t k Hok. apply (gcra_getOrCreate_cfg s k t) in Hok. rewrite <- Hps in Hok.
    by destruct (Peek s t t k).
  - intros s t t' k k' n Hok _ (Hk & Hn & Ht). split; [done|]. split; [|done].
    rewrite <- (proj2 (gcra_getOrCreate_cfg s k t)), <- Hps in Hn. by destruct (Peek s t t k).
  - intros s t k n Hok (Hk & Hn & Ht). rewrite (proj1 (Hal _ _ _ _)), Hrz.
    apply (gcra_allowN_spec s (reads_at t) k n Hok Hk Hn).
  - intros s t k n Hok (Hk & Hn & Ht). rewrite (proj2 (Hal _ _ _ _)).
    by rewrite (proj2 (gcra_allowN_spec s (reads_at t) k n Hok Hk Hn)).
  - intros s t k n Hok (Hk & Hn & Ht). rewrite (proj1 (Hal _ _ _ _)), (proj2 (Hal _ _ _ _)), Hrz.
    destruct (gcra_allowN_spec s (reads_at t) k n Hok Hk Hn) as [-> ->]. cbn [r_now reads_at].
    rewrite gcra_available_insert. fold (gcra_available s t k).
    destruct (Z.leb_spec n (gcra_available s t k)).
    + by apply entry_avail_take.
    + rewrite Z.sub_0_r. by apply entry_avail_tat.
Defined.

(** ** Waits *)

Lemma gcra_WaitN_loop_cfg g m e key n now wakes :
  WaitN_loop (with_entries g m) e key n now wakes = WaitN_loop g e key n now wakes.
Proof.
  revert e now. induction wakes as [|[t|] wakes IH]; intros e now; cbn [WaitN_loop];
    change (consume (with_entries g m)) with (consume g); destruct (consume g e n now) as [[r|] ?]; try done.
  by rewrite IH.
Qed.

Lemma gcra_decision g rd key n : ValidateKey key = None -> 1 <= n <= burst g ->
  exec g (OpAllow rd key n) =
    let '(e, g1) := getOrCreate g key (r_create rd) in
    let '(out, e') := consume g1 e n (r_now rd) in
    (with_entries g1 (<[key := e']> (entries g1)),
     if allowed out then Some (mkAdmission key (r_now rd) n) else None).
Proof.
  intros Hkey [Hn Hb]. cbn [exec]. unfold AllowN, allowN_body.
  rewrite Hkey, (proj2 (ValidateN_ok n)), (proj2 (Z.ltb_ge _ _)) by done.
  destruct (getOrCreate g key (r_create rd)) as [e g1]. destruct (consume g1 e n (r_now rd)) as [[r|] e']; [|done].
  by destruct (n =? 1).
Qed.

(** A call of [WaitN] within the burst takes the first decisions of [wait_ops],
    up to the first that is granted (or panics). *)
Theorem gcra_wait_as_decisions g key n tc now wakes :
  ValidateKey key = None -> 1 <= n <= burst g ->
  exists k, run exec g (take (S k) (wait_ops key n tc now wakes)) =
    (snd (WaitN g key n tc now wakes),
     match fst (WaitN g key n tc now wakes) with
     | Ok (Returned None) => [mkAdmission key (nth k (now :: fired wakes) 0) n]
     | _ => []
     end).
Proof.
  intros Hkey Hn. revert g Hn tc now. induction wakes as [|w wakes IH]; intros g Hn tc now; unfold WaitN in *;
    rewrite Hkey, (proj2 (ValidateN_ok n)), (proj2 (Z.ltb_ge _ _)) in * by lia;
    cbn [wait_ops fired map take run]; rewrite gcra_decision by done; cbn [r_create r_now];
    assert (burst (snd (getOrCreate g key tc)) = burst g) as Eb by (unfold getOrCreate; by destruct (entries g !! key));
    destruct (getOrCreate g key tc) as [e g1]; cbn [WaitN_loop snd] in *;
    destruct (consume g1 e n now) as [[r|] e'] eqn:Ec; cbn [allowed]; try (by exists 0%nat);
    (destruct (Allowed r) eqn:Er; [by exists 0%nat|]); [by exists 0%nat|].
  destruct w as [t|]; [|by exists 0%nat].
  set (g2 := with_entries g1 (<[key := e']> (entries g1))). assert (1 <= n <= burst g2) as Hn2 by (cbn; lia).
  specialize (IH g2 Hn2 t t) as [k IH]. rewrite (proj2 (Z.ltb_ge _ _)) in IH by lia. exists (S k).
  assert (getOrCreate g2 key t = (e', g2)) as Eg by (unfold getOrCreate, g2; cbn; by rewrite lookup_insert_eq).
  rewrite Eg in IH. unfold g2 in *. rewrite gcra_WaitN_loop_cfg in IH. unfold wait_ops in IH.
  change (mkReads t t t t) with (reads_at t) in IH. cbn [fired map take] in IH |- *.
  rewrite IH. destruct (WaitN_loop g1 e' key n t wakes) as [wr e2]. cbn [fst snd].
  unfold with_entries. cbn. rewrite insert_insert_eq. by destruct wr as [[[]|]|].
Qed.

(** A busy key, a spurious wake-up, then room. *)
Definition busy_gcra : GCRA := with_entries demo_gcra {[ "a" := mkEntry (600 * Millisecond) 0 ]}.

Definition demo_wakes : list wake := [TimerFired (100 * Millisecond); TimerFired (400 * Millisecond); CtxDone].

Lemma gcra_wait_as_decisions_witness :
  fst (WaitN busy_gcra "a" 2 0 0 demo_wakes) = Ok (Returned None) /\
  exists k, run exec busy_gcra (take (S k) (wait_ops "a" 2 0 0 demo_wakes)) =
    (snd (WaitN busy_gcra "a" 2 0 0 demo_wakes),
     match fst (WaitN busy_gcra "a" 2 0 0 demo_wakes) with
     | Ok (Returned None) => [mkAdmission "a" (nth k (0 :: fired demo_wakes) 0) 2]
     | _ => []
     end).
Proof.
  split; [vm_compute; reflexivity|].
  apply (gcra_wait_as_decisions busy_gcra "a" 2 0 0 demo_wakes); [reflexivity|cbn; lia].
Defined.
