(* ===== verification/SlidingLog.v ===== *)
(** * The sliding-window log ([ratelimit/slidingwindow/log.go]).

    A key holds the instants of the requests admitted in the last window, in
    order; every decision drops the expired prefix by binary search. *)

From stdpp Require Import sorting.
From S2P Require Import Prelude Float64 Ratelimit.
Open Scope Z_scope.

Definition logAlgorithmName : string := "sliding_window_log".

Record keyLog := mkKeyLog { timestamps : list time; lastAccess : time }.

(** [idleClean] is set by the constructor and read nowhere. *)
Record SlidingWindowLog := mkLog {
  limit : Z;
  window : duration;
  idleClean : duration;
  logs : gmap string keyLog;
  closed : bool;
  onDecision : bool;
}.

Definition with_logs (l : SlidingWindowLog) (m : gmap string keyLog) : SlidingWindowLog :=
  mkLog (limit l) (window l) (idleClean l) m (closed l) (onDecision l).

Definition WithLogOnDecision (l : SlidingWindowLog) : SlidingWindowLog :=
  mkLog (limit l) (window l) (idleClean l) (logs l) (closed l) true.

Definition NewLog (limit : Z) (window : duration)
    (opts : list (SlidingWindowLog -> SlidingWindowLog)) : outcome SlidingWindowLog :=
  if limit <=? 0 then Panic "slidingwindow: NewLog limit must be positive"
  else if window <=? 0 then Panic "slidingwindow: NewLog window must be positive"
  else Ok (foldl (fun l opt => opt l)
             (mkLog limit window (window *w 2) ∅ false false) opts).

Definition getOrCreate (l : SlidingWindowLog) (key : string) (now : time)
  : keyLog * SlidingWindowLog :=
  match logs l !! key with
  | Some kl => (kl, l)
  | None =>
      let kl := mkKeyLog [] now in
      (kl, with_logs l (<[key := kl]> (logs l)))
  end.

(** [timestamps[i]]; the search only asks for indices in range. *)
Definition ts_at (ts : list time) (i : nat) : time := nth i ts 0.

Definition pruneLocked (kl : keyLog) (cutoff : time) : keyLog :=
  let idx := sort_Search (length (timestamps kl))
               (fun i => negb (Before (ts_at (timestamps kl) i) cutoff)) in
  if (0 <? idx)%nat then mkKeyLog (drop idx (timestamps kl)) (lastAccess kl) else kl.

(** [kl.timestamps[0].Add(l.window).Sub(now)], zero when the log is empty. *)
Definition oldest_wait (l : SlidingWindowLog) (ts : list time) (now : time) : duration :=
  match ts with
  | t0 :: _ => time_sub (time_add t0 (window l)) now
  | [] => 0
  end.

Definition consume (l : SlidingWindowLog) (kl : keyLog) (n : Z) (now : time) : Result * keyLog :=
  let kl := mkKeyLog (timestamps kl) now in
  let cutoff := time_add now (- window l) in
  let kl := pruneLocked kl cutoff in
  let count := zlength (timestamps kl) in
  if limit l <? count +w n then
    let retryAfter := oldest_wait l (timestamps kl) now in
    let remaining := limit l -w count in
    let remaining := if remaining <? 0 then 0 else remaining in
    (mkResult false (limit l) remaining retryAfter retryAfter logAlgorithmName ∅, kl)
  else
    (mkResult true (limit l) (limit l -w count -w n) 0 0 logAlgorithmName ∅,
     mkKeyLog (timestamps kl ++ replicate (Z.to_nat n) now) (lastAccess kl)).

Definition allowN_body (l : SlidingWindowLog) (rd : reads) (key : string) (n : Z)
  : Result * SlidingWindowLog :=
  match ValidateKey key with
  | Some _ => (denied_zero logAlgorithmName, l)
  | None =>
      match ValidateN n with
      | Some _ => (denied_zero logAlgorithmName, l)
      | None =>
          let '(kl, l) := getOrCreate l key (r_create rd) in
          let '(res, kl) := consume l kl n (r_now rd) in
          (res, with_logs l (<[key := kl]> (logs l)))
      end
  end.

Definition AllowN (l : SlidingWindowLog) (rd : reads) (key : string) (n : Z)
  : Result * SlidingWindowLog * list event :=
  let '(res, l) := allowN_body l rd key n in
  let res := if n =? 1 then res else setCost res (AInt n) in
  (res, l,
   record_decision logAlgorithmName res (r_start rd) (r_stop rd) ++
   (if onDecision l then [OnDecision key res] else [])).

Definition Allow (l : SlidingWindowLog) (rd : reads) (key : string)
  : Result * SlidingWindowLog * list event := AllowN l rd key 1.

Fixpoint WaitN_loop (l : SlidingWindowLog) (kl : keyLog) (key : string) (n : Z) (now : time)
    (wakes : list wake) : wait_result * keyLog :=
  let '(res, kl) := consume l kl n now in
  if Allowed res then (Returned None, kl)
  else match wakes with
       | [] => (Blocked, kl)
       | CtxDone :: _ =>
           (Returned (Some (RateLimitError logAlgorithmName key (limit l) (RetryAfter res)
                              ErrContextDone)), kl)
       | TimerFired t :: wakes' => WaitN_loop l kl key n t wakes'
       end.

Definition WaitN (l : SlidingWindowLog) (key : string) (n : Z) (tc now : time)
    (wakes : list wake) : wait_result * SlidingWindowLog :=
  match ValidateKey key with
  | Some e => (Returned (Some (ESentinel e)), l)
  | None =>
      match ValidateN n with
      | Some e => (Returned (Some (ESentinel e)), l)
      | None =>
          let '(kl, l) := getOrCreate l key tc in
          let '(r, kl) := WaitN_loop l kl key n now wakes in
          (r, with_logs l (<[key := kl]> (logs l)))
      end
  end.

Definition Wait (l : SlidingWindowLog) (key : string) (tc now : time) (wakes : list wake)
  : wait_result * SlidingWindowLog := WaitN l key 1 tc now wakes.

Definition Peek (l : SlidingWindowLog) (tc now : time) (key : string)
  : State * SlidingWindowLog :=
  let '(kl, l) := getOrCreate l key tc in
  let cutoff := time_add now (- window l) in
  let kl := pruneLocked kl cutoff in
  let count := zlength (timestamps kl) in
  let remaining := limit l -w count in
  let remaining := if remaining <? 0 then 0 else remaining in
  let retryAfter := oldest_wait l (timestamps kl) now in
  (mkState key logAlgorithmName (limit l) remaining (time_add now retryAfter) cutoff
     {[ "log_size" := AInt count; "window" := ADurationString (window l) ]},
   with_logs l (<[key := kl]> (logs l))).

Definition Reset (l : SlidingWindowLog) (key : string) : SlidingWindowLog :=
  with_logs l (delete key (logs l)).

Definition Close (l : SlidingWindowLog) : SlidingWindowLog :=
  mkLog (limit l) (window l) (idleClean l) (logs l) true (onDecision l).

(** One firing of the cleanup ticker: [cutoff := Now().Add(-l.window * 2)]. *)
Definition sweep (l : SlidingWindowLog) (now : time) : SlidingWindowLog :=
  if closed l then l
  else
    let cutoff := time_add now ((- window l) *w 2) in
    with_logs l (filter (fun kk => Before (lastAccess kk.2) cutoff = false) (logs l)).

Definition exec (l : SlidingWindowLog) (o : op) : SlidingWindowLog * option admission :=
  match o with
  | OpAllow rd key n =>
      let '(res, l', _) := AllowN l rd key n in
      (l', if Allowed res then Some (mkAdmission key (r_now rd) n) else None)
  | OpPeek tc t key => (snd (Peek l tc t key), None)
  | OpSweep t => (sweep l t, None)
  end.

(** What [NewLog] establishes, with a window whose double fits a
    [time.Duration]. *)
Definition cfg_ok (l : SlidingWindowLog) : Prop :=
  0 < limit l <= max_int64 /\ 0 < window l /\ window l * 2 <= max_int64.

(** ** Pruning *)

(** The timestamps still inside the window that ends at [now]. *)
Definition live (a : time) (ts : list time) : list time := filter (fun t => a <= t) ts.

Lemma live_length_le a ts : zlength (live a ts) <= zlength ts.
Proof. unfold zlength, live. pose proof (length_filter (fun t => a <= t) ts). lia. Qed.

Lemma live_all a ts : Forall (fun t => a <= t) ts -> live a ts = ts.
Proof. induction 1; [done|]. unfold live. rewrite filter_cons_True by done. by f_equal. Qed.

Lemma sorted_split a ts : StronglySorted Z.le ts ->
  exists k, (k <= length ts)%nat /\ drop k ts = live a ts /\
    (forall i, (i < k)%nat -> ts_at ts i < a) /\ (forall i, (k <= i < length ts)%nat -> a <= ts_at ts i).
Proof.
  induction 1 as [|t ts Hs IH Hall]; [exists 0%nat; repeat split; simpl; lia || done|].
  destruct (Z.le_gt_cases a t) as [Ht|Ht].
  - exists 0%nat. split_and!; [lia| | |].
    + unfold live. rewrite filter_cons_True by done. simpl. f_equal. symmetry.
      apply live_all. eapply Forall_impl; [exact Hall|]. simpl; lia.
    + lia.
    + intros [|i] Hi; unfold ts_at; simpl; [done|].
      rewrite List.Forall_forall in Hall. etrans; [exact Ht|]. apply Hall, nth_In. simpl in Hi. lia.
  - destruct IH as (k & Hk & Hd & Hlo & Hhi). exists (S k). split_and!; simpl; [lia| | |].
    + unfold live. rewrite filter_cons_False by lia. exact Hd.
    + intros [|i] Hi; unfold ts_at; simpl; [done|]. apply Hlo. lia.
    + intros [|i] Hi; [lia|]. unfold ts_at; simpl. apply Hhi. lia.
Qed.

(** On an ordered log the binary search drops exactly the expired entries. *)
Lemma pruneLocked_spec kl a : StronglySorted Z.le (timestamps kl) ->
  pruneLocked kl a = mkKeyLog (live a (timestamps kl)) (lastAccess kl).
Proof.
  intros Hs. destruct (sorted_split a _ Hs) as (k & Hk & Hd & Hlo & Hhi).
  unfold pruneLocked. rewrite (sort_Search_correct _ _ k); [|..|done].
  - rewrite <- Hd. destruct (Nat.ltb_spec 0 k); [done|]. assert (k = 0)%nat as -> by lia.
    by destruct kl.
  - intros x Hx. unfold Before. rewrite (proj2 (Z.ltb_lt _ _)); [done|by apply Hlo].
  - intros x Hx. unfold Before. rewrite (proj2 (Z.ltb_ge _ _)); [done|by apply Hhi].
Qed.

Lemma live_Forall (P : Z -> Prop) a ts : Forall P ts -> Forall P (live a ts).
Proof.
  induction 1; [constructor|]. unfold live. rewrite filter_cons. case_decide; [by constructor|done].
Qed.

Lemma live_sorted a ts : StronglySorted Z.le ts -> StronglySorted Z.le (live a ts).
Proof.
  induction 1 as [|t ts Hs IH Hall]; [constructor|]. unfold live. rewrite filter_cons. case_decide; [|done].
  constructor; [done|]. by apply live_Forall.
Qed.

Lemma live_live a b ts : a <= b -> live b (live a ts) = live b ts.
Proof.
  intros Hab. unfold live. induction ts as [|t ts IH]; [done|]. rewrite !filter_cons.
  case_decide; rewrite ?filter_cons; case_decide; try lia; by rewrite IH.
Qed.

Lemma live_app a ts us : live a (ts ++ us) = live a ts ++ live a us.
Proof. apply filter_app. Qed.

Lemma live_replicate a n t : a <= t -> live a (replicate n t) = replicate n t.
Proof. intros. by apply live_all, Forall_replicate. Qed.

Lemma live_empty a ts : Forall (fun t => t < a) ts -> live a ts = [].
Proof. induction 1; [done|]. unfold live. rewrite filter_cons_False by lia. done. Qed.

Lemma sorted_snoc_replicate ts n t : StronglySorted Z.le ts -> Forall (fun u => u <= t) ts ->
  StronglySorted Z.le (ts ++ replicate n t).
Proof.
  induction 1 as [|u ts Hs IH Hall]; intros Hle; simpl.
  - induction n as [|n IH]; simpl; constructor; [done|]. apply Forall_replicate. lia.
  - inversion Hle; subst. constructor; [by apply IH|]. apply Forall_app. split; [done|].
    apply Forall_replicate. lia.
Qed.

Lemma live_ge a ts : Forall (fun t => a <= t) (live a ts).
Proof.
  induction ts as [|t ts IH]; [constructor|]. unfold live. rewrite filter_cons.
  case_decide; [by constructor|done].
Qed.

Lemma live_head t ts : StronglySorted Z.le (t :: ts) -> live t (t :: ts) = t :: ts.
Proof.
  inversion 1 as [|? ? _ Hall]; subst. apply live_all. constructor; [lia|].
  eapply Forall_impl; [exact Hall|]. simpl; lia.
Qed.

(** ** One decision *)

(** A well-formed log at [T]: ordered, in the past, no longer than the limit. *)
Definition log_ok (l : SlidingWindowLog) (kl : keyLog) : Prop :=
  StronglySorted Z.le (timestamps kl) /\ Forall (fun t => t <= lastAccess kl) (timestamps kl) /\
  zlength (timestamps kl) <= limit l.

Definition live_count (l : SlidingWindowLog) (kl : keyLog) (now : time) : Z :=
  zlength (live (now - window l) (timestamps kl)).

Lemma slog_consume_spec l kl n now :
  cfg_ok l -> log_ok l kl -> 1 <= n <= max_int64 - limit l ->
  consume l kl n now =
    let k := live_count l kl now in
    let ts := live (now - window l) (timestamps kl) in
    if n <=? limit l - k then
      (mkResult true (limit l) (limit l - k - n) 0 0 logAlgorithmName ∅,
       mkKeyLog (ts ++ replicate (Z.to_nat n) now) now)
    else
      (mkResult false (limit l) (limit l - k) (oldest_wait l ts now) (oldest_wait l ts now)
         logAlgorithmName ∅,
       mkKeyLog ts now).
Proof.
  intros (Hl & Hw & _) (Hs & _ & Hlen) Hn. unfold consume, time_add. cbv zeta.
  rewrite pruneLocked_spec by done. cbn [timestamps lastAccess]. fold (live_count l kl now).
  change (zlength (live (now + - window l) (timestamps kl))) with (live_count l kl now).
  pose proof (live_length_le (now - window l) (timestamps kl)) as Hle. fold (live_count l kl now) in Hle.
  assert (0 <= live_count l kl now) by apply zlength_nonneg.
  rewrite !(wrap64_small (live_count l kl now + n)), !(wrap64_small (limit l - live_count l kl now))
    by go_lia.
  destruct (Z.ltb_spec (limit l) (live_count l kl now + n)), (Z.leb_spec n (limit l - live_count l kl now));
    try lia.
  - rewrite (proj2 (Z.ltb_ge _ _)) by lia. done.
  - rewrite wrap64_small by go_lia. done.
Qed.

Lemma slog_consume_ok l kl n now :
  cfg_ok l -> log_ok l kl -> lastAccess kl <= now -> 1 <= n <= max_int64 - limit l ->
  log_ok l (snd (consume l kl n now)).
Proof.
  intros Hcfg Hok Hnow Hn. pose proof Hok as (Hs & Hle & Hlen). rewrite slog_consume_spec by done. cbv zeta.
  assert (Forall (fun t => t <= now) (live (now - window l) (timestamps kl))) as Hf.
  { apply live_Forall. eapply Forall_impl; [exact Hle|]. simpl; lia. }
  pose proof (live_length_le (now - window l) (timestamps kl)) as Hll.
  unfold live_count. case_cmp; unfold log_ok; cbn [timestamps lastAccess snd];
    (split_and!; [auto using live_sorted, sorted_snoc_replicate..|]).
  - apply Forall_app. split; [done|]. apply Forall_replicate. lia.
  - rewrite zlength_app, zlength_replicate. lia.
  - lia.
Qed.

(** ** The invariant of histories *)

Section history.
Context (l0 : SlidingWindowLog) (Hcfg : cfg_ok l0).

Definition same_cfg (l : SlidingWindowLog) : Prop :=
  limit l = limit l0 /\ window l = window l0.

Definition ts_of (okl : option keyLog) : list time :=
  match okl with Some kl => timestamps kl | None => [] end.

(** The log of a key holds exactly the admissions of the last window. *)
Definition lkey_inv (T : time) (h : list admission) (key : string) (okl : option keyLog) : Prop :=
  (forall a b, b - a <= window l0 -> admitted (in_interval key a b) h <= limit l0) /\
  Forall (fun x => a_at x <= T) h /\
  (forall a, T - window l0 <= a -> adm_from h key a = zlength (live a (ts_of okl))) /\
  match okl with Some kl => log_ok l0 kl /\ lastAccess kl <= T | None => True end.

Definition lhist_inv (T : time) (h : list admission) (l : SlidingWindowLog) : Prop :=
  same_cfg l /\ forall key, lkey_inv T h key (logs l !! key).

Lemma lkey_inv_later T T' h key okl : T <= T' -> lkey_inv T h key okl -> lkey_inv T' h key okl.
Proof.
  intros HT (Hi & Ht & Hf & Hk). split_and!; auto.
  - eapply Forall_impl; [exact Ht|]. simpl. lia.
  - intros a Ha. apply Hf. lia.
  - destruct okl; [|done]. intuition lia.
Qed.

Lemma lhist_inv_later T T' h l : T <= T' -> lhist_inv T h l -> lhist_inv T' h l.
Proof. intros HT [Hs Hk]. split; [done|]. intros k. by apply (lkey_inv_later T). Qed.

Lemma lkey_inv_fresh T h key t : T <= t -> lkey_inv T h key None ->
  lkey_inv t h key (Some (mkKeyLog [] t)).
Proof.
  intros HT HI. apply (lkey_inv_later T t) in HI as (Hi & Ht & Hf & _); [|done]. destruct Hcfg as (? & _).
  split_and!; auto; simpl; [|lia]. split_and!; simpl; [constructor..|]. unfold zlength; simpl; lia.
Qed.

(** Dropping expired entries is invisible. *)
Lemma lkey_inv_prune T h key kl : lkey_inv T h key (Some kl) ->
  lkey_inv T h key (Some (mkKeyLog (live (T - window l0) (timestamps kl)) (lastAccess kl))).
Proof.
  intros (Hi & Ht & Hf & (Hs & Hle & Hlen) & Hl). split_and!; auto.
  - intros a Ha. cbn [ts_of timestamps]. rewrite live_live by lia. by apply Hf.
  - split_and!; cbn [timestamps lastAccess]; [by apply live_sorted|by apply live_Forall|].
    pose proof (live_length_le (T - window l0) (timestamps kl)). lia.
Qed.

Lemma lkey_inv_touch T h key ts t : lkey_inv T h key (Some (mkKeyLog ts t)) ->
  lkey_inv T h key (Some (mkKeyLog ts T)).
Proof.
  intros (Hi & Ht & Hf & (Hs & Hle & Hlen) & Hl). cbn [timestamps lastAccess] in *. split_and!; auto; [|simpl; lia].
  split_and!; auto. eapply Forall_impl; [exact Hle|]. simpl. lia.
Qed.

(** An admission of [n] while at most [limit - n] admissions are in the window. *)
Lemma lkey_inv_allow T h key ts n :
  1 <= n -> lkey_inv T h key (Some (mkKeyLog ts T)) ->
  n <= limit l0 - zlength (live (T - window l0) ts) ->
  let ts' := live (T - window l0) ts ++ replicate (Z.to_nat n) T in
  lkey_inv T (mkAdmission key T n :: h) key (Some (mkKeyLog ts' T)).
Proof.
  intros Hn HI Hfit ts'. pose proof (lkey_inv_prune T h key _ HI) as (Hi & Ht & Hf & (Hs & Hle & Hlen) & _).
  cbn [timestamps lastAccess ts_of] in *. destruct Hcfg as (Hl & Hw & _).
  assert (Forall (fun x => a_at x <= T) (mkAdmission key T n :: h)) as Ht' by (by constructor).
  assert (forall a, T - window l0 <= a -> adm_from (mkAdmission key T n :: h) key a =
            zlength (live a ts')) as Hf'.
  { intros a Ha. rewrite adm_from_cons, Hf by done. cbn [a_key a_at a_n].
    rewrite bool_decide_true by done. unfold ts'. rewrite live_app, zlength_app. cbn [andb].
    destruct (Z.leb_spec a T).
    - rewrite live_replicate, zlength_replicate by done. lia.
    - rewrite (live_empty a (replicate _ _)) by (apply Forall_replicate; lia).
      change (zlength []) with 0. lia. }
  split_and!; auto.
  - intros a b Hab. destruct (Z.le_gt_cases T b).
    + destruct (Z.le_gt_cases a T).
      * rewrite interval_from by (eapply Forall_impl; [exact Ht'|]; simpl; lia).
        rewrite Hf' by lia. pose proof (live_length_le a ts').
        unfold ts' in *. rewrite zlength_app, zlength_replicate in *. lia.
      * rewrite in_interval_cons_out by (simpl; lia). by apply Hi.
    + rewrite in_interval_cons_out by (simpl; lia). by apply Hi.
  - split_and!; cbn [timestamps lastAccess]; unfold ts'.
    + by apply sorted_snoc_replicate.
    + apply Forall_app. split; [done|]. apply Forall_replicate. lia.
    + rewrite zlength_app, zlength_replicate. lia.
  - simpl; lia.
Qed.

Lemma lkey_inv_other T h key key' n okl : key <> key' ->
  lkey_inv T h key okl -> lkey_inv T (mkAdmission key' T n :: h) key okl.
Proof.
  intros Hne (Hi & Ht & Hf & Hk). split_and!; auto.
  - intros a b Hab. rewrite in_interval_cons_out by (simpl; auto). by apply Hi.
  - by constructor.
  - intros a Ha. rewrite adm_from_cons_other by (simpl; auto). by apply Hf.
Qed.

(** A log idle for two windows has no live entry. *)
Lemma lkey_inv_evict T h key kl :
  lastAccess kl < T - window l0 -> lkey_inv T h key (Some kl) -> lkey_inv T h key None.
Proof.
  intros Hb (Hi & Ht & Hf & (Hs & Hle & Hlen) & _). split_and!; auto.
  intros a Ha. rewrite Hf by done. cbn [ts_of]. rewrite (live_empty a (timestamps kl)); [done|].
  eapply Forall_impl; [exact Hle|]. simpl; lia.
Qed.

Lemma lhist_inv_insert T h l key kl :
  same_cfg l -> (forall k, k <> key -> lkey_inv T h k (logs l !! k)) ->
  lkey_inv T h key (Some kl) -> lhist_inv T h (with_logs l (<[key := kl]> (logs l))).
Proof.
  intros Hs Hk Hkl. split; [done|]. intros k. cbn [logs with_logs].
  rewrite lookup_insert. case_decide; subst; auto.
Qed.

(** The entry an operation at [t] works on. *)
Lemma lhist_getOrCreate T h l key t : T <= t -> lhist_inv T h l ->
  let '(kl, l') := getOrCreate l key t in
  lhist_inv t h l' /\ logs l' !! key = Some kl /\ lkey_inv t h key (Some kl).
Proof.
  intros HT HI. unfold getOrCreate. pose proof (lhist_inv_later T t h l HT HI) as HI'.
  destruct (logs l !! key) as [kl|] eqn:E.
  - split_and!; auto. destruct HI' as [_ Hk]. specialize (Hk key). by rewrite E in Hk.
  - assert (lkey_inv t h key (Some (mkKeyLog [] t))) as Hf.
    { apply (lkey_inv_fresh T); [done|]. destruct HI as [_ Hk]. specialize (Hk key). by rewrite E in Hk. }
    split_and!; auto; [|apply lookup_insert_eq]. destruct HI'. by apply lhist_inv_insert.
Qed.
End history.

Section exec_inv.
Context (l0 : SlidingWindowLog) (Hcfg : cfg_ok l0).

Lemma slog_same_cfg_ok l : same_cfg l0 l -> cfg_ok l.
Proof. intros [E1 E2]. unfold cfg_ok in *. by rewrite E1, E2. Qed.

Lemma slog_AllowN_state l rd key n :
  snd (fst (AllowN l rd key n)) = snd (allowN_body l rd key n) /\
  Allowed (fst (fst (AllowN l rd key n))) = Allowed (fst (allowN_body l rd key n)).
Proof. unfold AllowN. destruct (allowN_body l rd key n). by destruct (n =? 1). Qed.

Lemma lhist_inv_allow T h l rd key n :
  lhist_inv l0 T h l -> 1 <= n <= max_int64 - limit l0 -> clocked T (op_times (OpAllow rd key n)) ->
  let '(l', a) := exec l (OpAllow rd key n) in
  lhist_inv l0 (r_stop rd) (match a with Some x => x :: h | None => h end) l'.
Proof.
  intros HI Hn (H1 & H2 & H3 & H4 & _). simpl.
  destruct (slog_AllowN_state l rd key n) as [Es Ea].
  destruct (AllowN l rd key n) as [[res l'] ev]; simpl in Es, Ea. subst l'. rewrite Ea. clear Ea ev res.
  unfold allowN_body.
  destruct (ValidateKey key); [by apply (lhist_inv_later l0 T); [lia|]|].
  rewrite (proj2 (ValidateN_ok n)) by lia.
  pose proof (lhist_getOrCreate l0 Hcfg T h l key (r_create rd) ltac:(lia) HI) as HG.
  destruct (getOrCreate l key (r_create rd)) as [kl l1]. destruct HG as (HI1 & Hlk & Hkl).
  pose proof (lhist_inv_later l0 (r_create rd) (r_now rd) h l1 ltac:(lia) HI1) as HI2.
  pose proof (lkey_inv_later l0 (r_create rd) (r_now rd) h key _ ltac:(lia) Hkl) as Hkl2.
  set (now := r_now rd) in *. pose proof (proj1 HI2) as [El Ew].
  assert (log_ok l1 kl) as Hok. { unfold log_ok. rewrite El. apply Hkl2. }
  rewrite slog_consume_spec by (auto using slog_same_cfg_ok || (rewrite ?El; lia) || apply slog_same_cfg_ok, HI2).
  unfold live_count. rewrite El, Ew. cbv zeta.
  assert (lkey_inv l0 now h key (Some (mkKeyLog (timestamps kl) now))) as Htouch.
  { destruct kl. by eapply lkey_inv_touch. }
  destruct (Z.leb_spec n (limit l0 - zlength (live (now - window l0) (timestamps kl)))) as [Hfit|Hno];
    cbn [fst snd Allowed]; apply (lhist_inv_later l0 now); try lia;
    (apply lhist_inv_insert; [apply HI2| |]).
  - intros k Hne. apply lkey_inv_other; [done|]. apply HI2.
  - apply (lkey_inv_allow l0 Hcfg); auto; lia.
  - intros k _. apply HI2.
  - apply (lkey_inv_prune l0 now h key _ Htouch).
Qed.

Lemma lhist_inv_peek T h l tc t key :
  lhist_inv l0 T h l -> clocked T (op_times (OpPeek tc t key)) ->
  lhist_inv l0 t h (fst (exec l (OpPeek tc t key))).
Proof.
  intros HI (H1 & H2 & _). simpl. unfold Peek.
  pose proof (lhist_getOrCreate l0 Hcfg T h l key tc ltac:(lia) HI) as HG.
  destruct (getOrCreate l key tc) as [kl l1]. destruct HG as (HI1 & Hlk & Hkl). cbn [snd].
  apply (lhist_inv_later l0 _ t) in HI1; [|lia].
  apply (lkey_inv_later l0 _ t) in Hkl; [|lia].
  rewrite pruneLocked_spec by apply Hkl. unfold time_add.
  rewrite (proj2 (proj1 HI1)). apply lhist_inv_insert; [apply HI1| |].
  - intros k _. apply HI1.
  - apply (lkey_inv_prune l0 t h key kl Hkl).
Qed.

Lemma lhist_inv_sweep T h l t :
  lhist_inv l0 T h l -> clocked T [t] -> lhist_inv l0 t h (sweep l t).
Proof.
  intros HI (H1 & _). pose proof (lhist_inv_later l0 T t h l ltac:(lia) HI) as [Hs Hk].
  unfold sweep. destruct (closed l); [done|]. split; [done|]. intros k. cbn [logs with_logs].
  specialize (Hk k). rewrite map_lookup_filter. destruct (logs l !! k) as [kl|]; [|done]. simpl.
  destruct Hcfg as (? & Hw & Hw2). rewrite (proj2 Hs). rewrite wrap64_small by go_lia.
  case_guard as Hb; [done|]. apply not_false_is_true, Z.ltb_lt in Hb. unfold time_add in Hb.
  apply (lkey_inv_evict l0 t h k kl); auto; lia.
Qed.
End exec_inv.

(** C4: The sliding-window log never over-admits: along any history of
    decisions, peeks and cleanup sweeps whose clock does not go back, the cost
    admitted for a key in any closed time interval no longer than the window is
    at most the limit (requests large enough to overflow [count + n] excluded). *)
Theorem sliding_log_limit l ops T key a b :
  cfg_ok l -> logs l = ∅ ->
  clocked_ops T ops -> costs_upto (max_int64 - limit l) ops -> b - a <= window l ->
  admitted (in_interval key a b) (snd (run exec l ops)) <= limit l.
Proof.
  intros Hcfg Hempty Hclk Hcost Hab.
  destruct (run_invariant exec (lhist_inv l)
    (fun o => match o with OpAllow _ _ n => 1 <= n <= max_int64 - limit l | _ => True end)) with
    (ops := ops) (T := T) (h := @nil admission) (s := l) as [T' [_ HI]]; try done.
  - intros T0 h s o HI Hpre HT Ho _. destruct o as [rd k n|tc t k|t].
    + pose proof (lhist_inv_allow l Hcfg T0 h s rd k n HI Hpre Ho) as H. by destruct (exec s _).
    + by apply (lhist_inv_peek l Hcfg T0).
    + by apply (lhist_inv_sweep l Hcfg T0).
  - split; [done|]. intros k. rewrite Hempty, lookup_empty. destruct Hcfg as (? & _).
    split_and!; auto. intros x y _. rewrite admitted_nil. lia.
  - specialize (HI key) as [HI _]. specialize (HI a b Hab). by rewrite app_nil_r, admitted_rev in HI.
Qed.

Definition demo_log : SlidingWindowLog := mkLog 3 100 200 ∅ false false.

Definition demo_log_ops : list op :=
  [OpAllow (reads_at 1000) "a" 2; OpPeek 1000 1050 "a"; OpAllow (reads_at 1060) "a" 2;
   OpAllow (reads_at 1080) "a" 1; OpAllow (reads_at 1101) "a" 2; OpSweep 1400;
   OpAllow (reads_at 1400) "a" 3].

Lemma sliding_log_limit_witness :
  List.map a_at (snd (run exec demo_log demo_log_ops)) = [1000; 1080; 1101; 1400] /\
  admitted (in_interval "a" 1001 1101) (snd (run exec demo_log demo_log_ops)) <= 3.
Proof.
  split; [vm_compute; reflexivity|].
  refine (sliding_log_limit demo_log demo_log_ops 1000 "a" 1001 1101 _ eq_refl _ _ _).
  - unfold cfg_ok; simpl; go_lia.
  - unfold clocked_ops, demo_log_ops; simpl; go_lia.
  - unfold costs_upto, demo_log_ops. repeat constructor; simpl; go_lia.
  - simpl; lia.
Defined.

(** [RetryAfter] of the sliding-window log is one nanosecond short: a
    denied single request is denied again at [now + RetryAfter], with a
    [RetryAfter] of zero, and granted one nanosecond later. *)
Theorem sliding_log_retry_after_short l kl now :
  cfg_ok l -> log_ok l kl -> lastAccess kl <= now -> 1 <= max_int64 - limit l ->
  Allowed (fst (consume l kl 1 now)) = false ->
  let '(r, kl') := consume l kl 1 now in
  let '(r2, kl2) := consume l kl' 1 (now + RetryAfter r) in
  0 <= RetryAfter r <= window l /\ Allowed r2 = false /\ RetryAfter r2 = 0 /\
  Allowed (fst (consume l kl2 1 (now + RetryAfter r + 1))) = true.
Proof.
  intros Hcfg Hok Hnow Hl1 Hden. pose proof Hcfg as (Hl & Hw & Hw2).
  pose proof (slog_consume_ok l kl 1 now Hcfg Hok Hnow ltac:(lia)) as Hok1.
  assert (exists t0 ts, consume l kl 1 now =
    (mkResult false (limit l) (limit l - limit l) (time_sub (t0 + window l) now)
       (time_sub (t0 + window l) now) logAlgorithmName ∅, mkKeyLog (t0 :: ts) now) /\
    zlength (t0 :: ts) = limit l /\ now - window l <= t0) as (t0 & ts & E & Hfull & Hlo).
  { pose proof Hok as (_ & _ & Hlen). rewrite slog_consume_spec in Hden |- * by (auto; lia).
    cbv zeta in *. unfold live_count in *.
    pose proof (live_length_le (now - window l) (timestamps kl)).
    pose proof (live_ge (now - window l) (timestamps kl)) as Hge.
    destruct (Z.leb_spec 1 (limit l - zlength (live (now - window l) (timestamps kl)))); [done|].
    destruct (live (now - window l) (timestamps kl)) as [|t0 ts]; [unfold zlength in *; simpl in *; lia|].
    exists t0, ts. inversion Hge; subst. split_and!; auto; [|lia].
    assert (zlength (t0 :: ts) = limit l) as -> by lia. done. }
  rewrite E in *. cbn [snd fst RetryAfter] in *.
  pose proof Hok1 as (Hs1 & Hle1 & _). cbn [timestamps lastAccess] in *.
  assert (t0 <= now) by (by inversion Hle1).
  unfold time_sub. rewrite sat64_small by go_lia.
  replace (now + (t0 + window l - now)) with (t0 + window l) by lia.
  rewrite (slog_consume_spec l _ 1 (t0 + window l)) by (auto; lia).
  unfold live_count. cbn [timestamps]. replace (t0 + window l - window l) with t0 by lia.
  rewrite (live_head t0 ts Hs1), Hfull. cbv zeta. rewrite (proj2 (Z.leb_gt _ _)) by lia.
  cbn [Allowed RetryAfter oldest_wait]. split_and!; [lia|lia|done| |].
  { unfold time_sub, time_add. rewrite sat64_small by go_lia. lia. }
  assert (log_ok l (mkKeyLog (t0 :: ts) (t0 + window l))) as Hok2.
  { split_and!; cbn [timestamps lastAccess]; [done| |lia]. eapply Forall_impl; [exact Hle1|]. simpl; lia. }
  rewrite slog_consume_spec by (auto; lia). unfold live_count. cbn [timestamps]. cbv zeta.
  replace (t0 + window l + 1 - window l) with (t0 + 1) by lia.
  unfold live at 1. rewrite filter_cons_False by lia. pose proof (live_length_le (t0 + 1) ts) as Hdrop.
  unfold live in Hdrop. rewrite zlength_cons in Hfull. rewrite (proj2 (Z.leb_le _ _)) by lia. done.
Qed.

Lemma sliding_log_retry_after_short_witness :
  let kl := mkKeyLog [10; 20; 30] 30 in
  let '(r, kl') := consume demo_log kl 1 50 in
  let '(r2, kl2) := consume demo_log kl' 1 (50 + RetryAfter r) in
  0 <= RetryAfter r <= 100 /\ Allowed r2 = false /\ RetryAfter r2 = 0 /\
  Allowed (fst (consume demo_log kl2 1 (50 + RetryAfter r + 1))) = true.
Proof.
  refine (sliding_log_retry_after_short demo_log (mkKeyLog [10; 20; 30] 30) 50 _ _ _ _ _).
  - unfold cfg_ok; simpl; go_lia.
  - split_and!; simpl; [|repeat constructor; lia|unfold zlength; simpl; lia].
    repeat constructor; lia.
  - simpl; lia.
  - simpl; go_lia.
  - vm_compute. reflexivity.
Defined.

(** ** The limiter interface *)

#[export] Instance slog_limiter : Limiter SlidingWindowLog := {
  lim_AllowN s t k n := fst (AllowN s (reads_at t) k n);
  lim_Peek s t k := Peek s t t k;
  lim_Reset := Reset;
}.

Definition log_of (l : SlidingWindowLog) (t : time) (key : string) : keyLog :=
  default (mkKeyLog [] t) (logs l !! key).

Definition slog_available (l : SlidingWindowLog) (t : time) (key : string) : Z :=
  limit l - live_count l (log_of l t key) t.

Definition slog_ok (l : SlidingWindowLog) : Prop :=
  cfg_ok l /\ map_Forall (fun _ kl => log_ok l kl) (logs l).

(** The key was last touched at or before [t]. *)
Definition touched_before (l : SlidingWindowLog) (t : time) (key : string) : Prop :=
  lastAccess (log_of l t key) <= t.

Lemma log_of_ok l t key : slog_ok l -> log_ok l (log_of l t key).
Proof.
  intros [Hcfg Hm]. unfold log_of. destruct (logs l !! key) as [kl|] eqn:E; [by apply (Hm key)|].
  destruct Hcfg as (? & _). split_and!; simpl; [constructor..|]. unfold zlength; simpl; lia.
Qed.

Lemma slog_ok_insert l key kl : slog_ok l -> log_ok l kl ->
  slog_ok (with_logs l (<[key := kl]> (logs l))).
Proof. intros [? ?] ?. split; [done|]. by apply map_Forall_insert_2. Qed.

Lemma slog_Peek_spec l t key : slog_ok l ->
  let kl := log_of l t key in
  st_Remaining (fst (Peek l t t key)) = slog_available l t key /\
  snd (Peek l t t key) =
    with_logs l (<[key := mkKeyLog (live (t - window l) (timestamps kl)) (lastAccess kl)]> (logs l)).
Proof.
  intros Hok. pose proof (log_of_ok l t key Hok) as Hkl. cbv zeta.
  assert (exists kl l', getOrCreate l key t = (kl, l') /\ kl = log_of l t key /\
    limit l' = limit l /\ window l' = window l /\
    forall kl', with_logs l' (<[key := kl']> (logs l')) = with_logs l (<[key := kl']> (logs l)))
    as (kl & l' & Eg & -> & El & Ew & Ei).
  { unfold getOrCreate, log_of. destruct (logs l !! key) as [kl|]; [by exists kl, l|].
    do 2 eexists. split_and!; try done. intros kl'. unfold with_logs. cbn [logs].
    by rewrite insert_insert_eq. }
  unfold Peek. rewrite Eg. pose proof Hkl as (Hs & _ & Hlen). rewrite pruneLocked_spec by done.
  cbn [fst snd st_Remaining timestamps]. unfold time_add. rewrite El, Ew, Ei. split; [|done].
  unfold slog_available, live_count. change (t + - window l) with (t - window l).
  pose proof (live_length_le (t - window l) (timestamps (log_of l t key))).
  pose proof (zlength_nonneg (live (t - window l) (timestamps (log_of l t key)))).
  destruct Hok as [[? _] _]. rewrite wrap64_small by go_lia. case_cmp; lia.
Qed.

Lemma slog_allowN_spec l t key n :
  slog_ok l -> ValidateKey key = None -> 1 <= n <= max_int64 - limit l ->
  let kl := log_of l t key in
  let ok := n <=? slog_available l t key in
  let ts := live (t - window l) (timestamps kl) in
  Allowed (fst (allowN_body l (reads_at t) key n)) = ok /\
  snd (allowN_body l (reads_at t) key n) =
    with_logs l (<[key := mkKeyLog (if ok then ts ++ replicate (Z.to_nat n) t else ts) t]> (logs l)).
Proof.
  intros Hok Hkey Hn. pose proof (log_of_ok l t key Hok) as Hkl. cbv zeta.
  unfold allowN_body. rewrite Hkey, (proj2 (ValidateN_ok n)) by lia. cbn [r_create r_now reads_at].
  assert (exists l', getOrCreate l key t = (log_of l t key, l') /\ consume l' = consume l /\
    forall kl', with_logs l' (<[key := kl']> (logs l')) = with_logs l (<[key := kl']> (logs l)))
    as (l' & -> & -> & Ei).
  { unfold getOrCreate, log_of. destruct (logs l !! key) as [kl|]; [by exists l|].
    eexists. split_and!; try done. intros kl'. unfold with_logs. cbn [logs].
    by rewrite insert_insert_eq. }
  rewrite slog_consume_spec by (auto; apply Hok). cbv zeta. unfold slog_available.
  destruct (n <=? _); cbn [fst snd]; by rewrite Ei.
Qed.

Lemma slog_available_insert l t key kl k :
  slog_available (with_logs l (<[key := kl]> (logs l))) t k =
    if decide (key = k) then limit l - live_count l kl t else slog_available l t k.
Proof.
  unfold slog_available, log_of. cbn [logs with_logs limit]. rewrite lookup_insert.
  by case_decide.
Qed.

#[export] Instance slog_limiter_laws : LimiterLaws SlidingWindowLog.
Proof.
  refine {|
    lim_inv := slog_ok;
    lim_ok := fun s t k n =>
      ValidateKey k = None /\ 1 <= n <= max_int64 - limit s /\ touched_before s t k;
    lim_avail := slog_available
  |}; cbn [lim_AllowN lim_Peek slog_limiter].
  - intros s t k Hok. apply slog_Peek_spec, Hok.
  - intros s t t' k k' Hok Hle. rewrite (proj2 (slog_Peek_spec s t k Hok)), slog_available_insert.
    case_decide; [subst k'|done]. unfold slog_available, live_count. cbn [timestamps].
    rewrite live_live by lia. unfold log_of. by destruct (logs s !! k).
  - intros s t k Hok. rewrite (proj2 (slog_Peek_spec s t k Hok)). apply slog_ok_insert; [done|].
    destruct (log_of_ok s t k Hok) as (Hs & Hle & Hlen).
    pose proof (live_length_le (t - window s) (timestamps (log_of s t k))).
    split_and!; cbn [timestamps lastAccess]; [by apply live_sorted|by apply live_Forall|lia].
  - intros s t t' k k' n Hok Hle (Hk & Hn & Ht). rewrite (proj2 (slog_Peek_spec s t k Hok)).
    split_and!; [done|apply Hn..|]. unfold touched_before, log_of in *. cbn [logs with_logs].
    rewrite lookup_insert. case_decide; [subst k'|done]. cbn. by destruct (logs s !! k).
  - intros s t k n Hok (Hk & Hn & Ht). rewrite (proj2 (slog_AllowN_state s (reads_at t) k n)).
    by apply slog_allowN_spec.
  - intros s t k n Hok (Hk & Hn & Ht). rewrite (proj1 (slog_AllowN_state s (reads_at t) k n)).
    rewrite (proj2 (slog_allowN_spec s t k n Hok Hk Hn)). apply slog_ok_insert; [done|].
    pose proof (slog_consume_ok s (log_of s t k) n t (proj1 Hok) (log_of_ok s t k Hok) Ht Hn) as H.
    rewrite slog_consume_spec in H by (auto using log_of_ok; apply Hok). cbv zeta in H.
    unfold slog_available. by destruct (n <=? _).
  - intros s t k n Hok (Hk & Hn & Ht). rewrite (proj1 (slog_AllowN_state s (reads_at t) k n)).
    rewrite (proj2 (slog_AllowN_state s (reads_at t) k n)).
    destruct (slog_allowN_spec s t k n Hok Hk Hn) as [-> ->]. rewrite slog_available_insert.
    rewrite decide_True by done. unfold live_count at 1. cbn [timestamps].
    destruct Hok as [(_ & Hw & _) _]. unfold slog_available.
    destruct (n <=? _); rewrite ?live_app, live_live by lia.
    + rewrite zlength_app, live_replicate, zlength_replicate by lia. unfold live_count. lia.
    + unfold live_count. lia.
Defined.

(** ** Waits *)

Lemma slog_WaitN_loop_cfg l m kl key n now wakes :
  WaitN_loop (with_logs l m) kl key n now wakes = WaitN_loop l kl key n now wakes.
Proof.
  revert kl now. induction wakes as [|[t|] wakes IH]; intros kl now; cbn [WaitN_loop];
    change (consume (with_logs l m)) with (consume l); destruct (consume l kl n now); [done| |done].
  by rewrite IH.
Qed.

(** A call of [WaitN] takes the first decisions of [wait_ops], up to the first
    that is granted: what is shown of histories holds of waits. *)
Theorem slog_wait_as_decisions l key n tc now wakes :
  ValidateKey key = None -> 1 <= n ->
  exists k, run exec l (take (Datatypes.S k) (wait_ops key n tc now wakes)) =
    (snd (WaitN l key n tc now wakes),
     match fst (WaitN l key n tc now wakes) with
     | Returned None => [mkAdmission key (nth k (now :: fired wakes) 0) n]
     | _ => []
     end).
Proof.
  intros Hkey Hn. unfold WaitN. rewrite Hkey, (proj2 (ValidateN_ok n)) by done.
  revert l tc now. induction wakes as [|w wakes IH]; intros l tc now;
    cbn [wait_ops fired map take run exec]; pose proof (slog_AllowN_state l (mkReads tc tc now now) key n) as [Es Ea];
    destruct (AllowN _ _ _ _) as [[res l'] ev]; cbn [fst snd] in Es, Ea; subst l';
    unfold allowN_body in *; rewrite Hkey, (proj2 (ValidateN_ok n)) in * by done; cbn [r_create r_now] in *;
    destruct (getOrCreate l key tc) as [kl l1]; cbn [WaitN_loop];
    destruct (consume l1 kl n now) as [r kl']; cbn [fst snd] in *; rewrite Ea;
    (destruct (Allowed r); [by exists 0%nat|]); [by exists 0%nat|].
  destruct w as [t|]; [|by exists 0%nat].
  specialize (IH (with_logs l1 (<[key := kl']> (logs l1))) t t) as [k IH]. exists (Datatypes.S k).
  unfold wait_ops in IH. cbn [fired map]. change (mkReads t t t t) with (reads_at t) in IH.
  assert (getOrCreate (with_logs l1 (<[key := kl']> (logs l1))) key t = (kl', with_logs l1 (<[key := kl']> (logs l1)))) as Eg.
  { unfold getOrCreate. cbn [logs with_logs]. by rewrite lookup_insert_eq. }
  rewrite Eg, slog_WaitN_loop_cfg in IH. cbn [logs with_logs] in IH.
  change (take (Datatypes.S (Datatypes.S k)) (?a :: ?l)) with (a :: take (Datatypes.S k) l).
  cbn [take] in IH |- *. rewrite IH. destruct (WaitN_loop l1 kl' key n t wakes) as [wr c2]. cbn [fst snd].
  unfold with_logs. cbn [logs]. rewrite insert_insert_eq. by destruct wr as [[]|].
Qed.
