(* ===== verification/SlidingCounter.v ===== *)
(** * The sliding-window counter ([ratelimit/slidingwindow/counter.go]).

    A key holds the counts of two consecutive aligned windows.  A decision
    estimates the load of the last window length as the previous count, weighted
    by the part of that window still in view, plus the current count, all in
    binary64. *)

From Stdlib Require Import Floats.
From S2P Require Import Prelude Float64 Float64Round Ratelimit.
Open Scope Z_scope.

Definition counterAlgorithmName : string := "sliding_window_counter".

Record windowBucket := mkBucket { count : Z; windowStart : time }.

(** [windowBucket{}]. *)
Definition zero_bucket : windowBucket := mkBucket 0 zero_time.

Record keyCounter := mkKey {
  current : windowBucket;
  previous : windowBucket;
  lastAccess : time;
}.

Record SlidingWindowCounter := mkSWC {
  limit : Z;
  window : duration;
  idleClean : duration;
  counters : gmap string keyCounter;
  closed : bool;
  onDecision : bool;
}.

Definition with_counters (s : SlidingWindowCounter) (m : gmap string keyCounter) : SlidingWindowCounter :=
  mkSWC (limit s) (window s) (idleClean s) m (closed s) (onDecision s).

Definition WithOnDecision (s : SlidingWindowCounter) : SlidingWindowCounter :=
  mkSWC (limit s) (window s) (idleClean s) (counters s) (closed s) true.

Definition NewCounter (limit : Z) (window : duration)
    (opts : list (SlidingWindowCounter -> SlidingWindowCounter)) : outcome SlidingWindowCounter :=
  if limit <=? 0 then Panic "slidingwindow: NewCounter limit must be positive"
  else if window <=? 0 then Panic "slidingwindow: NewCounter window must be positive"
  else Ok (foldl (fun s opt => opt s) (mkSWC limit window (window *w 5) ∅ false false) opts).

(** ** Decisions *)

Definition window_start (s : SlidingWindowCounter) (now : time) : time :=
  Unix0 (Z.quot (UnixNano now) (window s) *w window s).

(** The buckets as of [now]: moved on by one window, or forgotten. *)
Definition roll (s : SlidingWindowCounter) (kc : keyCounter) (now : time) : keyCounter :=
  let ws := window_start s now in
  if windowStart (current kc) =? ws then kc
  else
    let prev := if windowStart (current kc) =? time_add ws (- window s) then current kc else zero_bucket in
    mkKey (mkBucket 0 ws) prev (lastAccess kc).

Definition elapsedFrac (s : SlidingWindowCounter) (now : time) : f64 :=
  (f64_of_Z (time_sub now (window_start s now)) / f64_of_Z (window s))%float.

Definition effectiveCountLocked (s : SlidingWindowCounter) (kc : keyCounter) (now : time)
  : f64 * keyCounter :=
  let kc := roll s kc now in
  ((f64_of_Z (count (previous kc)) * (one - elapsedFrac s now) + f64_of_Z (count (current kc)))%float, kc).

(** [if x < 0 { x = 0 }]. *)
Definition atleast0 (x : f64) : f64 := if PrimFloat.ltb x zero then zero else x.

(** The wait of a denied request, before it is made non-negative. *)
Definition retryNs (s : SlidingWindowCounter) (kc : keyCounter) (n : Z) (now : time) : duration :=
  let elapsed := f64_of_Z (time_sub now (window_start s now)) in
  let windowF := f64_of_Z (window s) in
  let cur := f64_of_Z (count (current kc)) in
  if f64_gtb (cur + f64_of_Z n)%float (f64_of_Z (limit s)) || (count (previous kc) =? 0) then
    window s -w f64_to_int64 elapsed
  else
    let allowedPrev := (f64_of_Z (limit s) - f64_of_Z n - cur)%float in
    let neededFrac := (one - allowedPrev / f64_of_Z (count (previous kc)))%float in
    let neededFrac := atleast0 neededFrac in
    let neededFrac := if f64_gtb neededFrac one then one else neededFrac in
    f64_to_int64 (neededFrac * windowF - elapsed)%float.

Definition consume (s : SlidingWindowCounter) (kc : keyCounter) (n : Z) (now : time)
  : Result * keyCounter :=
  let kc := mkKey (current kc) (previous kc) now in
  let '(eff, kc) := effectiveCountLocked s kc now in
  if f64_gtb (eff + f64_of_Z n)%float (f64_of_Z (limit s)) then
    let remaining := atleast0 (f64_of_Z (limit s) - eff)%float in
    let elapsed := f64_of_Z (time_sub now (window_start s now)) in
    let retry := retryNs s kc n now in
    let retry := if retry <? 0 then Millisecond else retry in
    (mkResult false (limit s) (f64_to_int64 remaining) (window s -w f64_to_int64 elapsed) retry
       counterAlgorithmName ∅, kc)
  else
    let remaining := atleast0 (f64_of_Z (limit s) - eff - f64_of_Z n)%float in
    (mkResult true (limit s) (f64_to_int64 remaining) 0 0 counterAlgorithmName ∅,
     mkKey (mkBucket (count (current kc) +w n) (windowStart (current kc))) (previous kc) (lastAccess kc)).

Definition getOrCreate (s : SlidingWindowCounter) (key : string) (now : time)
  : keyCounter * SlidingWindowCounter :=
  match counters s !! key with
  | Some kc => (kc, s)
  | None =>
      let kc := mkKey (mkBucket 0 (window_start s now)) zero_bucket now in
      (kc, with_counters s (<[key := kc]> (counters s)))
  end.

Definition allowN_body (s : SlidingWindowCounter) (rd : reads) (key : string) (n : Z)
  : Result * SlidingWindowCounter :=
  match ValidateKey key with
  | Some _ => (denied_zero counterAlgorithmName, s)
  | None =>
      match ValidateN n with
      | Some _ => (denied_zero counterAlgorithmName, s)
      | None =>
          let '(kc, s) := getOrCreate s key (r_create rd) in
          let '(res, kc) := consume s kc n (r_now rd) in
          (res, with_counters s (<[key := kc]> (counters s)))
      end
  end.

Definition AllowN (s : SlidingWindowCounter) (rd : reads) (key : string) (n : Z)
  : Result * SlidingWindowCounter * list event :=
  let '(res, s) := allowN_body s rd key n in
  let res := if n =? 1 then res else setCost res (AInt n) in
  (res, s,
   record_decision counterAlgorithmName res (r_start rd) (r_stop rd) ++
   (if onDecision s then [OnDecision key res] else [])).

Definition Allow (s : SlidingWindowCounter) (rd : reads) (key : string)
  : Result * SlidingWindowCounter * list event := AllowN s rd key 1.

(** ** Waiting *)

(** The wait of one round of [WaitN]. *)
Definition wait_of (s : SlidingWindowCounter) (res : Result) : duration :=
  if RetryAfter res <=? 0 then Z.quot (window s) (limit s) else RetryAfter res.

Fixpoint WaitN_loop (s : SlidingWindowCounter) (kc : keyCounter) (key : string) (n : Z) (now : time)
    (wakes : list wake) : wait_result * keyCounter :=
  let '(res, kc) := consume s kc n now in
  if Allowed res then (Returned None, kc)
  else match wakes with
       | [] => (Blocked, kc)
       | CtxDone :: _ =>
           (Returned (Some (RateLimitError counterAlgorithmName key (limit s) (wait_of s res)
                              ErrContextDone)), kc)
       | TimerFired t :: wakes' => WaitN_loop s kc key n t wakes'
       end.

Definition WaitN (s : SlidingWindowCounter) (key : string) (n : Z) (tc now : time)
    (wakes : list wake) : wait_result * SlidingWindowCounter :=
  match ValidateKey key with
  | Some e => (Returned (Some (ESentinel e)), s)
  | None =>
      match ValidateN n with
      | Some e => (Returned (Some (ESentinel e)), s)
      | None =>
          let '(kc, s) := getOrCreate s key tc in
          let '(r, kc) := WaitN_loop s kc key n now wakes in
          (r, with_counters s (<[key := kc]> (counters s)))
      end
  end.

Definition Wait (s : SlidingWindowCounter) (key : string) (tc now : time) (wakes : list wake)
  : wait_result * SlidingWindowCounter := WaitN s key 1 tc now wakes.

(** ** Inspection and maintenance *)

(** [Peek] creates the key and moves its buckets on. *)
Definition Peek (s : SlidingWindowCounter) (tc now : time) (key : string)
  : State * SlidingWindowCounter :=
  let '(kc, s) := getOrCreate s key tc in
  let '(eff, kc) := effectiveCountLocked s kc now in
  let remaining := atleast0 (f64_of_Z (limit s) - eff)%float in
  let ws := window_start s now in
  (mkState key counterAlgorithmName (limit s) (f64_to_int64 remaining) (time_add ws (window s)) ws
     {[ "current_count" := AInt (count (current kc)); "previous_count" := AInt (count (previous kc));
        "effective_count" := AFloat eff; "approximation_method" := AString counterAlgorithmName;
        "max_error_bound" := AFloat (f64_of_Z (limit s) / f64_of_Z (window s))%float ]},
   with_counters s (<[key := kc]> (counters s))).

Definition Reset (s : SlidingWindowCounter) (key : string) : SlidingWindowCounter :=
  with_counters s (delete key (counters s)).

Definition Close (s : SlidingWindowCounter) : SlidingWindowCounter :=
  mkSWC (limit s) (window s) (idleClean s) (counters s) true (onDecision s).

(** One firing of the cleanup ticker. *)
Definition sweep (s : SlidingWindowCounter) (now : time) : SlidingWindowCounter :=
  if closed s then s
  else
    let cutoff := time_add now (wrap64 (- idleClean s)) in
    with_counters s (filter (fun kk => Before (lastAccess kk.2) cutoff = false) (counters s)).

Definition exec (s : SlidingWindowCounter) (o : op) : SlidingWindowCounter * option admission :=
  match o with
  | OpAllow rd key n =>
      let '(res, s', _) := AllowN s rd key n in
      (s', if Allowed res then Some (mkAdmission key (r_now rd) n) else None)
  | OpPeek tc t key => (snd (Peek s tc t key), None)
  | OpSweep t => (sweep s t, None)
  end.

(** ** Windows *)

(** What [NewCounter] establishes, for a limit and a window that binary64
    represents exactly (a window below 104 days). *)
Definition cfg_ok (s : SlidingWindowCounter) : Prop :=
  0 < limit s < 2 ^ 53 - 1 /\ 0 < window s < 2 ^ 53 /\ idleClean s = window s * 5.

Definition key_ok (s : SlidingWindowCounter) (kc : keyCounter) : Prop :=
  0 <= count (current kc) <= limit s /\ 0 <= count (previous kc) <= limit s.

Section windows.
Context (s : SlidingWindowCounter) (Hcfg : cfg_ok s).

Lemma swc_start_eq t : 0 <= t <= max_int64 -> window_start s t = window s * (t / window s).
Proof.
  intros Ht. destruct Hcfg as (_ & Hw & _). unfold window_start, Unix0, UnixNano.
  rewrite (wrap64_small t) by go_lia. rewrite Z.quot_div_nonneg by lia.
  pose proof (Z.mul_div_le t (window s)). pose proof (Z.div_pos t (window s)).
  rewrite wrap64_small; [lia|]. assert (0 <= t / window s * window s) by nia. go_lia.
Qed.

Lemma swc_start_bounds t : 0 <= t <= max_int64 ->
  0 <= window_start s t <= t /\ t < window_start s t + window s.
Proof.
  intros Ht. rewrite swc_start_eq by done. destruct Hcfg as (_ & Hw & _).
  pose proof (Z.mul_div_le t (window s)). pose proof (Z.mul_succ_div_gt t (window s)).
  pose proof (Z.div_pos t (window s)). nia.
Qed.

Lemma swc_start_mono t u : 0 <= t -> t <= u -> u <= max_int64 -> window_start s t <= window_start s u.
Proof.
  intros. rewrite !swc_start_eq by lia. destruct Hcfg as (_ & Hw & _).
  apply Z.mul_le_mono_nonneg_l; [lia|]. apply Z.div_le_mono; lia.
Qed.

(** Starts of distinct windows are at least a window apart. *)
Lemma swc_start_apart t u : 0 <= t <= max_int64 -> 0 <= u <= max_int64 ->
  window_start s t < window_start s u -> window_start s t + window s <= window_start s u.
Proof.
  intros Ht Hu. rewrite !swc_start_eq by done. destruct Hcfg as (_ & Hw & _). intros H.
  apply Z.mul_lt_mono_pos_l in H; [|lia]. rewrite <- Z.mul_succ_r. apply Z.mul_le_mono_nonneg_l; lia.
Qed.

(** ** One decision *)

Lemma roll_ok kc now : key_ok s kc -> key_ok s (roll s kc now).
Proof.
  destruct Hcfg as (Hl & _). unfold key_ok, roll. case_match; [done|]. cbn. case_match; cbn; lia.
Qed.

(** The estimate is never below the current count. *)
Lemma effective_at_least_current kc now : key_ok s kc -> 0 <= now <= max_int64 ->
  holds (count (current (roll s kc now)) * 2 ^ 1074) (fst (effectiveCountLocked s kc now)).
Proof.
  intros Hk Hnow. apply (roll_ok _ now) in Hk as [Hc Hp]. unfold effectiveCountLocked, elapsedFrac. cbv zeta. cbn [fst].
  set (kc' := roll s kc now) in *. destruct Hcfg as (Hl & Hw & _).
  assert (2 ^ 53 <= max_int64) as Hmax by done.
  pose proof (swc_start_bounds now Hnow) as Hb. unfold time_sub. rewrite sat64_small by go_lia.
  destruct (weight_ok (now - window_start s now) (window s) ltac:(lia) ltac:(lia)) as [Fw Nw].
  destruct (f64_of_Z_fval (count (previous kc')) ltac:(lia)) as [Fp _].
  destruct (f64_of_Z_fval (count (current kc')) ltac:(lia)) as [Fc Ec].
  assert (f64_nonneg (f64_of_Z (count (current kc'))) = true) as Nc by (apply f64_of_Z_nonneg; lia).
  assert (f64_nonneg (f64_of_Z (count (previous kc'))) = true) as Np by (apply f64_of_Z_nonneg; lia).
  pose proof (f64_mul_nonneg _ _ Fp Np Fw Nw) as Nm.
  rewrite <- Ec. apply holds_of_leb; [done|done|by apply f64_add_nonneg|].
  eapply (sum_holds _ _ 0 (fval (f64_of_Z (count (current kc'))))); [by apply holds_zero|by split|done|done|lia].
Qed.

(** What a decision leaves of the key. *)
Lemma consume_key kc n now :
  let k := roll s (mkKey (current kc) (previous kc) now) now in
  snd (consume s kc n now) =
    if Allowed (fst (consume s kc n now))
    then mkKey (mkBucket (count (current k) +w n) (windowStart (current k))) (previous k) (lastAccess k)
    else k.
Proof. unfold consume, effectiveCountLocked. cbv zeta. by destruct (f64_gtb _ _). Qed.

Lemma consume_within kc n now : key_ok s kc -> 1 <= n <= max_int64 -> 0 <= now <= max_int64 ->
  Allowed (fst (consume s kc n now)) = true ->
  count (current (roll s (mkKey (current kc) (previous kc) now) now)) + n <= limit s.
Proof.
  intros Hk Hn Hnow. set (k := mkKey (current kc) (previous kc) now).
  assert (key_ok s k) as Hk' by done. pose proof (effective_at_least_current k now Hk' Hnow) as He.
  apply (roll_ok _ now) in Hk' as [Hc Hp]. destruct Hcfg as (Hl & _).
  unfold consume. fold k. destruct (effectiveCountLocked s k now) as [eff k'] eqn:E.
  assert (k' = roll s k now) as -> by (unfold effectiveCountLocked in E; cbv zeta in E; by injection E).
  cbn [fst] in He. unfold f64_gtb. destruct (PrimFloat.ltb _ _) eqn:Ed; [done|]. intros _.
  eapply int_sum_bound; [..|exact He|exact Ed]; lia.
Qed.
End windows.

(** ** The invariant of histories *)

(** Admissions of [key] inside the aligned window that starts at [ws]. *)
Definition in_window (s : SlidingWindowCounter) (key : string) (ws : time) (a : admission) : bool :=
  bool_decide (a_key a = key) && (window_start s (a_at a) =? ws).

Section history.
Context (s0 : SlidingWindowCounter) (Hcfg : cfg_ok s0).

Definition same_cfg (s : SlidingWindowCounter) : Prop :=
  limit s = limit s0 /\ window s = window s0 /\ idleClean s = idleClean s0.

Definition adm (h : list admission) (key : string) (ws : time) : Z := admitted (in_window s0 key ws) h.

(** What the buckets of a key know about the past; [Peek] moves the buckets on
    without touching [lastAccess]. *)
Definition key_inv (T : time) (h : list admission) (key : string) (okc : option keyCounter) : Prop :=
  (forall ws, adm h key ws <= limit s0) /\
  match okc with
  | Some kc =>
      key_ok s0 kc /\ adm h key (windowStart (current kc)) = count (current kc) /\
      windowStart (current kc) <= window_start s0 T /\ 0 <= lastAccess kc <= T /\
      (forall ws, windowStart (current kc) < ws -> adm h key ws = 0) /\
      (forall ws, window_start s0 (lastAccess kc) < ws -> adm h key ws = 0)
  | None => forall ws, window_start s0 T <= ws -> adm h key ws = 0
  end.

Definition hist_inv (T : time) (h : list admission) (s : SlidingWindowCounter) : Prop :=
  same_cfg s /\ Forall (fun x => 0 <= a_at x <= max_int64 /\ 0 <= a_n x) h /\
  forall key, key_inv T h key (counters s !! key).

Lemma swc_window_start_cfg s t : same_cfg s -> window_start s t = window_start s0 t.
Proof. intros (_ & Hw & _). unfold window_start. by rewrite Hw. Qed.

Lemma swc_roll_cfg s kc t : same_cfg s -> roll s kc t = roll s0 kc t.
Proof. intros Hs. unfold roll. rewrite swc_window_start_cfg by done. destruct Hs as (_ & Hw & _). by rewrite Hw. Qed.

Lemma swc_key_inv_later T T' h key okc : 0 <= T -> T <= T' -> T' <= max_int64 ->
  key_inv T h key okc -> key_inv T' h key okc.
Proof.
  intros H0 HT Hm [Hl Hoc]. pose proof (swc_start_mono s0 Hcfg T T' H0 HT Hm) as Hmono. split; [done|].
  destruct okc as [kc|].
  - destruct Hoc as (Hk & Ha & Hw & Hla & Hz & Hz'). split_and!; auto; lia.
  - intros ws Hws. apply Hoc. lia.
Qed.

Lemma swc_adm_cons h key k n now ws :
  adm (mkAdmission k now n :: h) key ws =
    adm h key ws + if bool_decide (k = key) && (window_start s0 now =? ws) then n else 0.
Proof. unfold adm. rewrite admitted_cons. unfold in_window; simpl. lia. Qed.

Lemma swc_key_inv_other T h key key' now n okc : key <> key' ->
  key_inv T h key okc -> key_inv T (mkAdmission key' now n :: h) key okc.
Proof.
  intros Hne. assert (forall ws, adm (mkAdmission key' now n :: h) key ws = adm h key ws) as E.
  { intros ws. rewrite swc_adm_cons, bool_decide_false by done. simpl. lia. }
  intros [Hl Hoc]. split; [intros ws; by rewrite E|]. destruct okc as [kc|].
  - rewrite E. destruct Hoc as (Hk & Ha & Hw & Hla & Hz & Hz'). split_and!; try done; try lia; intros; rewrite E; auto.
  - intros ws ?. rewrite E. auto.
Qed.

(** A fresh key, and a key whose buckets are moved on. *)
Lemma swc_key_inv_create T h key now : 0 <= T -> T <= now -> now <= max_int64 -> key_inv T h key None ->
  key_inv now h key (Some (mkKey (mkBucket 0 (window_start s0 now)) zero_bucket now)).
Proof.
  intros H0 HT Hm [Hl Hoc]. pose proof (swc_start_mono s0 Hcfg T now H0 HT Hm) as Hmono.
  destruct Hcfg as (Hlim & _). split; [done|]. unfold key_ok. cbn.
  split_and!; try lia; try (apply Hoc; lia); intros ws ?; apply Hoc; lia.
Qed.

Lemma swc_key_inv_roll T h key kc now : 0 <= T -> T <= now -> now <= max_int64 ->
  key_inv T h key (Some kc) ->
  key_inv now h key (Some (roll s0 kc now)) /\ windowStart (current (roll s0 kc now)) = window_start s0 now.
Proof.
  intros H0 HT Hm [Hl (Hk & Ha & Hw & Hla & Hz & Hz')].
  pose proof (swc_start_mono s0 Hcfg T now H0 HT Hm) as Hmono. pose proof (roll_ok s0 Hcfg kc now Hk) as Hk'.
  unfold roll in *. destruct (Z.eqb_spec (windowStart (current kc)) (window_start s0 now)) as [E|E].
  - split; [|done]. split; [done|]. split_and!; auto; lia.
  - split; [|done]. split; [done|]. cbn [current count windowStart lastAccess].
    split_and!; try done; try lia; [apply Hz; lia|]. intros ws ?. apply Hz. lia.
Qed.

(** [lastAccess] set to the present keeps the invariant. *)
Lemma swc_key_inv_touch T h key kc : 0 <= T <= max_int64 -> key_inv T h key (Some kc) ->
  key_inv T h key (Some (mkKey (current kc) (previous kc) T)).
Proof.
  intros HT [Hl (Hk & Ha & Hw & Hla & Hz & Hz')]. split; [done|]. cbn [current previous lastAccess].
  split_and!; try done; try lia. intros ws ?. apply Hz'.
  pose proof (swc_start_mono s0 Hcfg (lastAccess kc) T). lia.
Qed.

(** A decision, allowed or not. *)
Lemma swc_key_inv_consume T h key kc now n : 0 <= T -> T <= now -> now <= max_int64 ->
  1 <= n <= max_int64 -> key_inv T h key (Some kc) ->
  key_inv now (if Allowed (fst (consume s0 kc n now)) then mkAdmission key now n :: h else h) key
    (Some (snd (consume s0 kc n now))).
Proof.
  intros H0 HT Hm Hn HI. assert (key_ok s0 kc) as Hk by apply HI.
  rewrite consume_key. pose proof (consume_within s0 Hcfg kc n now Hk Hn ltac:(lia)) as Hw.
  apply (swc_key_inv_later T now) in HI; try done.
  apply swc_key_inv_touch in HI; [|lia]. set (k := mkKey _ _ _) in *.
  assert (lastAccess (roll s0 k now) = now) as Ela by (unfold roll; by destruct (_ =? _)).
  apply (swc_key_inv_roll now h key k now) in HI as [HI Ews]; [|lia..].
  destruct (Allowed _); [|done]. specialize (Hw eq_refl).
  destruct HI as [Hl (Hk' & Ha & Hws & Hla & Hz & Hz')]. set (r := roll s0 k now) in *.
  destruct Hcfg as (Hlim & _). assert (2 ^ 53 <= max_int64) as Hmax by done.
  rewrite wrap64_small by (unfold key_ok in Hk'; go_lia). split.
  - intros ws. rewrite swc_adm_cons, bool_decide_true by done. cbn [andb]. pose proof (Hl ws).
    case_cmp; [|lia]. subst ws. rewrite <- Ews, Ha. lia.
  - cbn [current count windowStart previous lastAccess]. unfold key_ok in *. cbn [current count previous].
    rewrite swc_adm_cons, bool_decide_true, Ews, Z.eqb_refl by done. cbn [andb]. rewrite Ews in *.
    split_and!; try lia; intros ws Hlt; rewrite swc_adm_cons, (proj2 (Z.eqb_neq _ _)), andb_false_r
      by (rewrite ?Ela in Hlt; lia); rewrite Hz; (rewrite ?Ela in Hlt; lia).
Qed.

(** The sweep only removes keys whose windows are over. *)
Lemma swc_key_inv_evict T h key kc : 0 <= T <= max_int64 ->
  Before (lastAccess kc) (time_add T (wrap64 (- idleClean s0))) = true ->
  key_inv T h key (Some kc) -> key_inv T h key None.
Proof.
  intros HT Hb [Hl (Hk & Ha & Hw & Hla & Hz & Hz')]. split; [done|]. intros ws Hge. apply Hz'.
  destruct Hcfg as (_ & Hwin & Ei). rewrite Ei in Hb. assert (2 ^ 53 * 5 <= max_int64) as Hmax by done.
  rewrite wrap64_small in Hb by go_lia. unfold Before, time_add in Hb. apply Z.ltb_lt in Hb.
  pose proof (swc_start_bounds s0 Hcfg T HT). pose proof (swc_start_bounds s0 Hcfg (lastAccess kc)). lia.
Qed.
End history.

(** ** The limit *)

Lemma swc_AllowN_state s rd key n :
  snd (fst (AllowN s rd key n)) = snd (allowN_body s rd key n) /\
  Allowed (fst (fst (AllowN s rd key n))) = Allowed (fst (allowN_body s rd key n)).
Proof. unfold AllowN. destruct (allowN_body s rd key n). by destruct (n =? 1). Qed.

Section limit.
Context (s0 : SlidingWindowCounter) (Hcfg : cfg_ok s0).

Lemma swc_consume_cfg s kc n now : same_cfg s0 s -> consume s kc n now = consume s0 kc n now.
Proof.
  intros Hs. pose proof (swc_window_start_cfg s0 s now Hs) as Ew. pose proof Hs as (El & Ewin & _).
  unfold consume, effectiveCountLocked, elapsedFrac, retryNs. cbv zeta.
  by rewrite !(swc_roll_cfg s0 s), Ew, El, Ewin by done.
Qed.

(** A key replaced in the map. *)
Lemma swc_hist_inv_insert T T' h h' s key kc : hist_inv s0 T h s -> 0 <= T -> T <= T' -> T' <= max_int64 ->
  h' = h \/ (exists now n, h' = mkAdmission key now n :: h /\ 0 <= now <= max_int64 /\ 0 <= n) ->
  key_inv s0 T' h' key (Some kc) ->
  hist_inv s0 T' h' (with_counters s (<[key := kc]> (counters s))).
Proof.
  intros (Hs & Hf & Hk) H0 HT Hm Hh' Hkc. split; [done|]. split.
  { destruct Hh' as [->|(now & n & -> & Hnow & Hn)]; [done|]. by constructor. }
  intros k. cbn [counters with_counters]. rewrite lookup_insert. case_decide; [by subst|].
  apply (swc_key_inv_later s0 Hcfg T); try done.
  destruct Hh' as [->|(now & n & -> & _ & _)]; [apply Hk|]. apply swc_key_inv_other; [done|apply Hk].
Qed.

(** The key a decision or a peek works on. *)
Lemma swc_hist_inv_get T h s key now : hist_inv s0 T h s -> 0 <= T -> T <= now -> now <= max_int64 ->
  hist_inv s0 now h (snd (getOrCreate s key now)) /\ key_inv s0 now h key (Some (fst (getOrCreate s key now))).
Proof.
  intros HI H0 HT Hm. pose proof HI as (Hs & Hf & Hk). unfold getOrCreate.
  destruct (counters s !! key) as [kc|] eqn:E; cbn [fst snd].
  - split; [split; [done|split; [done|]]; intros k|rewrite <- E]; by apply (swc_key_inv_later s0 Hcfg T).
  - assert (key_inv s0 now h key (Some (mkKey (mkBucket 0 (window_start s now)) zero_bucket now))) as Hc.
    { rewrite (swc_window_start_cfg s0 s) by done. apply (swc_key_inv_create s0 Hcfg T); try done. by rewrite <- E. }
    split; [|done]. by apply (swc_hist_inv_insert T now h h); [..|left|].
Qed.

Lemma swc_hist_inv_allow T h s rd key n :
  hist_inv s0 T h s -> 0 <= T -> 1 <= n <= max_int64 -> clocked T (op_times (OpAllow rd key n)) ->
  let '(s', a) := exec s (OpAllow rd key n) in
  hist_inv s0 (r_stop rd) (match a with Some x => x :: h | None => h end) s'.
Proof.
  intros HI HT Hn (H1 & H2 & H3 & H4 & _). simpl. destruct (swc_AllowN_state s rd key n) as [Es Ea].
  destruct (AllowN s rd key n) as [[res s'] ev]; simpl in Es, Ea. subst s'. rewrite Ea. clear res Ea ev.
  assert (forall U hh ss, hist_inv s0 U hh ss -> 0 <= U -> U <= r_stop rd -> hist_inv s0 (r_stop rd) hh ss) as Hlater.
  { intros U hh ss (? & ? & Hk) ? ?. split; [done|]. split; [done|]. intros k.
    apply (swc_key_inv_later s0 Hcfg U); try done; lia. }
  unfold allowN_body. destruct (ValidateKey key); [apply (Hlater T); auto; lia|].
  rewrite (proj2 (ValidateN_ok n)) by lia.
  pose proof (swc_hist_inv_get T h s key (r_create rd) HI HT ltac:(lia) ltac:(lia)) as [HI1 Hkc].
  destruct (getOrCreate s key (r_create rd)) as [kc s1]. cbn [fst snd] in *.
  rewrite swc_consume_cfg by apply HI1.
  pose proof (swc_key_inv_consume s0 Hcfg (r_create rd) h key kc (r_now rd) n ltac:(lia) ltac:(lia) ltac:(lia) Hn Hkc) as HC.
  destruct (consume s0 kc n (r_now rd)) as [res kc']. cbn [fst snd] in *.
  apply (Hlater (r_now rd)); [|lia..].
  destruct (Allowed res); apply (swc_hist_inv_insert (r_create rd) (r_now rd) h); try done; try lia; [right|by left].
  exists (r_now rd), n. split; [done|lia].
Qed.

Lemma swc_hist_inv_peek T h s tc t key :
  hist_inv s0 T h s -> 0 <= T -> clocked T (op_times (OpPeek tc t key)) ->
  hist_inv s0 t h (fst (exec s (OpPeek tc t key))).
Proof.
  intros HI HT (H1 & H2 & _). simpl. unfold Peek.
  pose proof (swc_hist_inv_get T h s key tc HI HT ltac:(lia) ltac:(lia)) as [HI1 Hkc].
  destruct (getOrCreate s key tc) as [kc s1]. cbn [fst snd] in *. unfold effectiveCountLocked. cbv zeta. cbn [snd].
  rewrite (swc_roll_cfg s0 s1) by apply HI1.
  apply (swc_hist_inv_insert tc t h h); try done; try lia; [by left|].
  by apply (swc_key_inv_roll s0 Hcfg tc); [lia..|].
Qed.

Lemma swc_hist_inv_sweep T h s t :
  hist_inv s0 T h s -> 0 <= T -> clocked T [t] -> hist_inv s0 t h (sweep s t).
Proof.
  intros (Hs & Hf & Hk) HT (H1 & _).
  assert (forall k, key_inv s0 t h k (counters s !! k)) as Hk'.
  { intros k. apply (swc_key_inv_later s0 Hcfg T); try done; lia. }
  unfold sweep. destruct (closed s); [done|]. split; [done|]. split; [done|]. intros k.
  cbn [counters with_counters]. specialize (Hk' k). rewrite map_lookup_filter.
  destruct (counters s !! k) as [kc|]; [|done]. simpl. destruct Hs as (_ & _ & Ei). rewrite Ei.
  case_guard as Hb; [done|]. apply not_false_is_true in Hb.
  apply (swc_key_inv_evict s0 Hcfg t h k kc); auto; lia.
Qed.

Lemma swc_history ops T : counters s0 = ∅ -> clocked_ops T ops -> costs_upto max_int64 ops ->
  Forall (fun x => 0 <= a_at x <= max_int64 /\ 0 <= a_n x) (snd (run exec s0 ops)) /\
  forall key ws, admitted (in_window s0 key ws) (snd (run exec s0 ops)) <= limit s0.
Proof.
  intros Hempty Hclk Hcost.
  destruct (run_invariant exec (hist_inv s0)
    (fun o => match o with OpAllow _ _ n => 1 <= n <= max_int64 | _ => True end)) with
    (ops := ops) (T := T) (h := @nil admission) (s := s0) as [T' (_ & Hf & HI)]; try done.
  - intros T1 h s o HI Hpre HT Ho _. destruct o as [rd k n|tc t k|t].
    + pose proof (swc_hist_inv_allow T1 h s rd k n HI HT Hpre Ho) as H. by destruct (exec s _).
    + by apply (swc_hist_inv_peek T1).
    + by apply (swc_hist_inv_sweep T1).
  - split; [done|]. split; [done|]. intros k. rewrite Hempty, lookup_empty. split; [|done].
    intros ws. unfold adm. rewrite admitted_nil. destruct Hcfg. lia.
  - rewrite app_nil_r in *. split; [by rewrite <- (rev_involutive (snd _)); apply List.Forall_rev|]. intros key ws. specialize (HI key) as [HI _].
    specialize (HI ws). unfold adm in HI. by rewrite admitted_rev in HI.
Qed.

(** An interval no longer than the window meets two aligned windows at most. *)
Lemma interval_two_windows h key a b : 0 <= a <= max_int64 -> b - a <= window s0 ->
  Forall (fun x => 0 <= a_at x <= max_int64 /\ 0 <= a_n x) h ->
  admitted (in_interval key a b) h <=
    admitted (in_window s0 key (window_start s0 a)) h +
    admitted (in_window s0 key (window_start s0 a + window s0)) h.
Proof.
  intros Ha Hb. induction 1 as [|x h [Hx Hn] _ IH]; [done|]. rewrite !admitted_cons.
  enough (in_interval key a b x = true -> in_window s0 key (window_start s0 a) x = true \/
    in_window s0 key (window_start s0 a + window s0) x = true) as H.
  { destruct (in_interval key a b x); [|repeat case_match; lia]. destruct (H eq_refl) as [-> | ->]; repeat case_match; lia. }
  unfold in_interval, in_window. rewrite !andb_true_iff, !Z.leb_le, !Z.eqb_eq. intros (Hk & Hlo & Hhi).
  pose proof (swc_start_mono s0 Hcfg a (a_at x) ltac:(lia) ltac:(lia) ltac:(lia)) as Hmono.
  apply Z.le_lteq in Hmono as [Hlt|Heq]; [right|by left]. split; [done|].
  pose proof (swc_start_apart s0 Hcfg a (a_at x) Ha Hx Hlt) as Hap.
  pose proof (swc_start_bounds s0 Hcfg a Ha) as Hba. pose proof (swc_start_bounds s0 Hcfg (a_at x) Hx) as Hbx.
  rewrite !swc_start_eq in * by (done || lia). destruct Hcfg as (_ & Hw & _).
  set (i := a / window s0) in *. set (j := a_at x / window s0) in *. assert (j = i + 1) as -> by nia. lia.
Qed.
End limit.

(** ** Idle keys *)

Lemma zero_weight w : f64_finite w = true -> (zero * w + zero)%float = zero.
Proof.
  intros Fw. apply Prim2SF_inj. rewrite add_spec, mul_spec. change (sf zero) with (S754_zero false).
  unfold f64_finite in Fw. by destruct (sf w) as [[]| | |[]].
Qed.

Lemma add_zero_l n : 1 <= n <= max_int64 -> (zero + f64_of_Z n)%float = f64_of_Z n.
Proof.
  intros Hn. apply Prim2SF_inj. rewrite add_spec. change (sf zero) with (S754_zero false).
  pose proof (of_Z_holds 1 n ltac:(lia) ltac:(lia)) as [Nn Hv]. unfold f64_nonneg, f64_finite, fval in *.
  destruct (sf (f64_of_Z n)) as [b| | |]; try done. by specialize (Hv eq_refl).
Qed.

(** The decision on a key whose two buckets count nothing. *)
Lemma empty_decision s kc n now : cfg_ok s -> 1 <= n <= max_int64 -> 0 <= now <= max_int64 ->
  let k := roll s (mkKey (current kc) (previous kc) now) now in
  count (current k) = 0 -> count (previous k) = 0 ->
  Allowed (fst (consume s kc n now)) = (n <=? limit s).
Proof.
  intros Hcfg Hn Hnow k Hc Hp. pose proof Hcfg as (Hl & Hw & _). assert (2 ^ 53 <= max_int64) as Hmax by done.
  unfold consume, effectiveCountLocked, elapsedFrac. cbv zeta. fold k. rewrite Hc, Hp. change (f64_of_Z 0) with zero.
  pose proof (swc_start_bounds s Hcfg now Hnow) as Hb. unfold time_sub. rewrite sat64_small by go_lia.
  destruct (weight_ok (now - window_start s now) (window s) ltac:(lia) ltac:(lia)) as [Fw _].
  rewrite zero_weight, add_zero_l by done. unfold f64_gtb.
  destruct (Z.leb_spec n (limit s)) as [Hle|Hgt].
  - by rewrite leb_ltb_false by (apply of_Z_leb; lia).
  - destruct (PrimFloat.ltb _ _) eqn:E; [done|]. exfalso.
    pose proof (int_sum_bound zero 0 n (limit s) ltac:(lia) ltac:(lia) ltac:(lia)) as H.
    rewrite add_zero_l in H by done. specialize (H ltac:(by apply holds_zero) E). lia.
Qed.

(** ** Theorems *)

(** C11: Limits of the estimate.  Along any history whose clock does not go back
    and whatever the costs, the cost admitted for a key within one aligned
    window never exceeds [limit], and within any interval as long as the window
    never exceeds [2 * limit]: binary64 rounding never lets the estimate fall
    below the current count, and sweeps never forget a running window. *)
Theorem sliding_counter_limit s ops T key ws a b :
  cfg_ok s -> counters s = ∅ -> clocked_ops T ops -> costs_upto max_int64 ops ->
  0 <= a <= max_int64 -> b - a <= window s ->
  admitted (in_window s key ws) (snd (run exec s ops)) <= limit s /\
  admitted (in_interval key a b) (snd (run exec s ops)) <= 2 * limit s.
Proof.
  intros Hcfg Hempty Hclk Hcost Ha Hb. destruct (swc_history s Hcfg ops T Hempty Hclk Hcost) as [Hf Hlim].
  split; [apply Hlim|]. pose proof (interval_two_windows s Hcfg _ key a b Ha Hb Hf) as H.
  pose proof (Hlim key (window_start s a)). pose proof (Hlim key (window_start s a + window s)). lia.
Qed.

Definition demo_swc : SlidingWindowCounter := mkSWC 100 Second (5 * Second) ∅ false false.

Definition demo_ops : list op :=
  [OpAllow (reads_at (Second - 1)) "k" 100; OpPeek Second Second "k"; OpSweep (Second + 1);
   OpAllow (reads_at (Second + 2)) "k" 1; OpAllow (reads_at (2 * Second - 2)) "k" 99].

Lemma sliding_counter_limit_witness :
  snd (run exec demo_swc demo_ops) =
    [mkAdmission "k" (Second - 1) 100; mkAdmission "k" (2 * Second - 2) 99] /\
  admitted (in_window demo_swc "k" Second) (snd (run exec demo_swc demo_ops)) <= 100 /\
  admitted (in_interval "k" 0 Second) (snd (run exec demo_swc demo_ops)) <= 2 * 100.
Proof.
  split; [vm_compute; reflexivity|].
  apply (sliding_counter_limit demo_swc demo_ops 0 "k" Second 0 Second).
  - unfold cfg_ok, demo_swc, Second; cbn; lia.
  - reflexivity.
  - unfold clocked_ops, demo_ops, Second; simpl; go_lia.
  - repeat constructor; simpl; go_lia.
  - unfold Second; go_lia.
  - unfold demo_swc, Second; cbn; lia.
Defined.

(** The second bound is nearly attained, so the estimate may be wrong by almost
    the whole limit: 199 requests inside one second, for a limit of 100. *)
Theorem sliding_counter_nearly_double :
  exists s ops a b, NewCounter 100 Second [] = Ok s /\ clocked_ops 0 ops /\ b - a < window s /\
    admitted (in_interval "k" a b) (snd (run exec s ops)) = 2 * limit s - 1.
Proof.
  exists demo_swc, demo_ops, (Second - 1), (2 * Second - 2). split; [reflexivity|]. split.
  - unfold clocked_ops, demo_ops, Second; simpl; go_lia.
  - split; [reflexivity|]. vm_compute. reflexivity.
Qed.

(** A key left alone for a whole window is fresh: whatever its buckets held,
    a request is admitted exactly when its cost is at most [limit]. *)
Theorem sliding_counter_idle_admits s kc n now :
  cfg_ok s -> 1 <= n <= max_int64 -> 0 <= now <= max_int64 ->
  windowStart (current kc) < window_start s now - window s ->
  Allowed (fst (consume s kc n now)) = (n <=? limit s).
Proof.
  intros Hcfg Hn Hnow Hidle. pose proof Hcfg as (_ & Hw & _).
  apply empty_decision; try done; unfold roll, time_add; cbn [current];
    destruct (Z.eqb_spec (windowStart (current kc)) (window_start s now)); try lia; [done|].
  cbn [previous]. destruct (Z.eqb_spec (windowStart (current kc)) (window_start s now + - window s)); [lia|done].
Qed.

Lemma sliding_counter_idle_admits_witness :
  Allowed (fst (consume demo_swc (mkKey (mkBucket 100 0) (mkBucket 100 (- Second)) 7) 100 (2 * Second))) = (100 <=? 100).
Proof.
  apply (sliding_counter_idle_admits demo_swc).
  - unfold cfg_ok, demo_swc, Second; cbn; lia.
  - go_lia.
  - unfold Second; go_lia.
  - reflexivity.
Defined.

(** A denied request may carry no wait at all: the needed part of the window is
    rounded down to the instant of the decision. *)
Theorem sliding_counter_denied_without_wait :
  exists s kc, NewCounter 3 1000 [] = Ok s /\ key_ok s kc /\
    Allowed (fst (consume s kc 1 1333)) = false /\ RetryAfter (fst (consume s kc 1 1333)) = 0.
Proof.
  exists (mkSWC 3 1000 5000 ∅ false false), (mkKey (mkBucket 0 1000) (mkBucket 3 0) 1000).
  split; [reflexivity|]. split; [unfold key_ok; cbn; lia|]. vm_compute. done.
Qed.

(** ** Waits *)

Lemma swc_WaitN_loop_cfg s m kc key n now wakes :
  WaitN_loop (with_counters s m) kc key n now wakes = WaitN_loop s kc key n now wakes.
Proof.
  revert kc now. induction wakes as [|[t|] wakes IH]; intros kc now; cbn [WaitN_loop];
    change (consume (with_counters s m)) with (consume s); destruct (consume s kc n now); [done| |done].
  by rewrite IH.
Qed.

(** A call of [WaitN] takes the first decisions of [wait_ops], up to the first
    that is granted: what is shown of histories holds of waits. *)
Theorem swc_wait_as_decisions s key n tc now wakes :
  ValidateKey key = None -> 1 <= n ->
  exists k, run exec s (take (Datatypes.S k) (wait_ops key n tc now wakes)) =
    (snd (WaitN s key n tc now wakes),
     match fst (WaitN s key n tc now wakes) with
     | Returned None => [mkAdmission key (nth k (now :: fired wakes) 0) n]
     | _ => []
     end).
Proof.
  intros Hkey Hn. unfold WaitN. rewrite Hkey, (proj2 (ValidateN_ok n)) by done.
  revert s tc now. induction wakes as [|w wakes IH]; intros s tc now;
    cbn [wait_ops fired map take run exec]; pose proof (swc_AllowN_state s (mkReads tc tc now now) key n) as [Es Ea];
    destruct (AllowN _ _ _ _) as [[res s'] ev]; cbn [fst snd] in Es, Ea; subst s';
    unfold allowN_body in *; rewrite Hkey, (proj2 (ValidateN_ok n)) in * by done; cbn [r_create r_now] in *;
    destruct (getOrCreate s key tc) as [kc s1]; cbn [WaitN_loop];
    destruct (consume s1 kc n now) as [r kc']; cbn [fst snd] in *; rewrite Ea;
    (destruct (Allowed r); [by exists 0%nat|]); [by exists 0%nat|].
  destruct w as [t|]; [|by exists 0%nat].
  specialize (IH (with_counters s1 (<[key := kc']> (counters s1))) t t) as [k IH]. exists (Datatypes.S k).
  unfold wait_ops in IH. cbn [fired map]. change (mkReads t t t t) with (reads_at t) in IH.
  assert (getOrCreate (with_counters s1 (<[key := kc']> (counters s1))) key t = (kc', with_counters s1 (<[key := kc']> (counters s1)))) as Eg.
  { unfold getOrCreate. cbn [counters with_counters]. by rewrite lookup_insert_eq. }
  rewrite Eg, swc_WaitN_loop_cfg in IH. cbn [counters with_counters] in IH.
  change (take (Datatypes.S (Datatypes.S k)) (?a :: ?l)) with (a :: take (Datatypes.S k) l).
  cbn [take] in IH |- *. rewrite IH. destruct (WaitN_loop s1 kc' key n t wakes) as [wr c2]. cbn [fst snd].
  unfold with_counters. cbn [counters]. rewrite insert_insert_eq. by destruct wr as [[]|].
Qed.
