(* ===== verification/TokenBucket.v ===== *)
(** * The token bucket ([ratelimit/tokenbucket/tokenbucket.go]).

    Tokens are IEEE 754 doubles; all comparisons and operations are the
    machine's. *)

From Stdlib Require Import Floats.
From S2P Require Import Prelude Float64 Ratelimit.
Open Scope Z_scope.

Definition algorithmName : string := "token_bucket".

Record bucket := mkBucket { tokens : f64; lastRefill : time; lastAccess : time }.

Record TokenBucket := mkTB {
  capacity : f64;
  refillRate : f64;
  idleClean : duration;
  buckets : gmap string bucket;
  closed : bool;
  onDecision : bool;
}.

Definition with_buckets (tb : TokenBucket) (m : gmap string bucket) : TokenBucket :=
  mkTB (capacity tb) (refillRate tb) (idleClean tb) m (closed tb) (onDecision tb).

Definition WithOnDecision (tb : TokenBucket) : TokenBucket :=
  mkTB (capacity tb) (refillRate tb) (idleClean tb) (buckets tb) (closed tb) true.

Definition WithIdleCleanup (d : duration) (tb : TokenBucket) : TokenBucket :=
  mkTB (capacity tb) (refillRate tb) d (buckets tb) (closed tb) (onDecision tb).

Definition New (capacity refillRate : f64) (opts : list (TokenBucket -> TokenBucket)) : outcome TokenBucket :=
  if PrimFloat.ltb capacity 0 then Panic "tokenbucket.New: capacity must be >= 0"
  else if PrimFloat.leb refillRate 0 then Panic "tokenbucket.New: refillRate must be > 0"
  else Ok (foldl (fun tb o => o tb) (mkTB capacity refillRate (5 * Minute) ∅ false false) opts).

(** [time.Duration(x / refillRate * float64(time.Second))]. *)
Definition wait_for (x rate : f64) : duration :=
  f64_to_int64 (x / rate * f64_of_Z Second)%float.

Definition getOrCreate (tb : TokenBucket) (key : string) (now : time) : bucket * TokenBucket :=
  match buckets tb !! key with
  | Some b => (b, tb)
  | None =>
      let b := mkBucket (capacity tb) now now in
      (b, with_buckets tb (<[key := b]> (buckets tb)))
  end.

Definition refill (tb : TokenBucket) (b : bucket) (now : time) : bucket :=
  let elapsed := Seconds (time_sub now (lastRefill b)) in
  if f64_gtb elapsed 0 then
    let t := (tokens b + elapsed * refillRate tb)%float in
    mkBucket (if f64_gtb t (capacity tb) then capacity tb else t) now now
  else mkBucket (tokens b) (lastRefill b) now.

Definition consume (tb : TokenBucket) (b : bucket) (n : f64) (now : time) : Result * bucket :=
  if f64_gtb n (capacity tb) then
    (mkResult false (f64_to_int64 (capacity tb)) 0 0 (wait_for (n - capacity tb)%float (refillRate tb))
       algorithmName ∅, b)
  else
    let b := refill tb b now in
    let current := tokens b in
    if PrimFloat.ltb current n then
      (mkResult false (f64_to_int64 (capacity tb)) (f64_to_int64 current)
         (wait_for (capacity tb - current)%float (refillRate tb))
         (wait_for (n - current)%float (refillRate tb)) algorithmName ∅, b)
    else
      let newTokens := (current - n)%float in
      (mkResult true (f64_to_int64 (capacity tb)) (f64_to_int64 newTokens)
         (wait_for (capacity tb - newTokens)%float (refillRate tb)) 0 algorithmName ∅,
       mkBucket newTokens (lastRefill b) (lastAccess b)).

(** The common tail of [AllowN] and [AllowCost] on a valid request. *)
Definition take (tb : TokenBucket) (rd : reads) (key : string) (n : f64) : Result * TokenBucket :=
  let '(b, tb) := getOrCreate tb key (r_create rd) in
  let '(res, b) := consume tb b n (r_now rd) in
  (res, with_buckets tb (<[key := b]> (buckets tb))).

Definition decision_events (tb : TokenBucket) (rd : reads) (key : string) (res : Result) : list event :=
  record_decision algorithmName res (r_start rd) (r_stop rd) ++
  (if onDecision tb then [OnDecision key res] else []).

Definition allowN_body (tb : TokenBucket) (rd : reads) (key : string) (n : Z) : Result * TokenBucket :=
  match ValidateKey key with
  | Some _ => (denied_zero algorithmName, tb)
  | None =>
      match ValidateN n with
      | Some _ => (denied_zero algorithmName, tb)
      | None =>
          let '(res, tb) := take tb rd key (f64_of_Z n) in
          (if n =? 1 then res else setCost res (AInt n), tb)
      end
  end.

Definition AllowN (tb : TokenBucket) (rd : reads) (key : string) (n : Z)
  : Result * TokenBucket * list event :=
  let '(res, tb) := allowN_body tb rd key n in (res, tb, decision_events tb rd key res).

Definition Allow (tb : TokenBucket) (rd : reads) (key : string) : Result * TokenBucket * list event :=
  AllowN tb rd key 1.

Definition allowCost_body (tb : TokenBucket) (rd : reads) (key : string) (cost : f64)
  : Result * TokenBucket :=
  match ValidateKey key with
  | Some _ => (denied_zero algorithmName, tb)
  | None =>
      if PrimFloat.leb cost 0 then (denied_zero algorithmName, tb)
      else let '(res, tb) := take tb rd key cost in (setCost res (AFloat cost), tb)
  end.

Definition AllowCost (tb : TokenBucket) (rd : reads) (key : string) (cost : f64)
  : Result * TokenBucket * list event :=
  let '(res, tb) := allowCost_body tb rd key cost in (res, tb, decision_events tb rd key res).

Fixpoint WaitN_loop (tb : TokenBucket) (b : bucket) (key : string) (n : Z) (now : time)
    (wakes : list wake) : wait_result * bucket :=
  let '(res, b) := consume tb b (f64_of_Z n) now in
  if Allowed res then (Returned None, b)
  else
    let wait := if RetryAfter res <=? 0
                then wait_for (f64_of_Z n) (refillRate tb) +w Millisecond else RetryAfter res in
    match wakes with
    | [] => (Blocked, b)
    | CtxDone :: _ =>
        (Returned (Some (RateLimitError algorithmName key (f64_to_int64 (capacity tb)) wait ErrContextDone)), b)
    | TimerFired t :: wakes' => WaitN_loop tb b key n t wakes'
    end.

Definition WaitN (tb : TokenBucket) (key : string) (n : Z) (tc now : time) (wakes : list wake)
  : wait_result * TokenBucket :=
  match ValidateKey key with
  | Some e => (Returned (Some (ESentinel e)), tb)
  | None =>
      match ValidateN n with
      | Some e => (Returned (Some (ESentinel e)), tb)
      | None =>
          if f64_gtb (f64_of_Z n) (capacity tb) then
            (Returned (Some (RateLimitError algorithmName key (f64_to_int64 (capacity tb)) 0
                               ErrLimitExceeded)), tb)
          else
            let '(b, tb) := getOrCreate tb key tc in
            let '(r, b) := WaitN_loop tb b key n now wakes in
            (r, with_buckets tb (<[key := b]> (buckets tb)))
      end
  end.

Definition Wait (tb : TokenBucket) (key : string) (tc now : time) (wakes : list wake)
  : wait_result * TokenBucket := WaitN tb key 1 tc now wakes.

(** [now] is read by the refill, [now2] for [ResetAt]. *)
Definition Peek (tb : TokenBucket) (tc now now2 : time) (key : string) : State * TokenBucket :=
  let '(b, tb) := getOrCreate tb key tc in
  let b := refill tb b now in
  let remaining := f64_to_int64 (tokens b) in
  let remaining := if remaining <? 0 then 0 else remaining in
  let resetAfter := wait_for (capacity tb - tokens b)%float (refillRate tb) in
  let resetAfter := if resetAfter <? 0 then 0 else resetAfter in
  (mkState key algorithmName (f64_to_int64 (capacity tb)) remaining (time_add now2 resetAfter) zero_time
     {[ "tokens" := AFloat (tokens b); "refill_rate_per_s" := AFloat (refillRate tb);
        "capacity" := AFloat (capacity tb) ]},
   with_buckets tb (<[key := b]> (buckets tb))).

Definition Reset (tb : TokenBucket) (key : string) : TokenBucket :=
  with_buckets tb (delete key (buckets tb)).

Definition Close (tb : TokenBucket) : TokenBucket :=
  mkTB (capacity tb) (refillRate tb) (idleClean tb) (buckets tb) true (onDecision tb).

Definition clamp_bucket (cap : f64) (b : bucket) : bucket :=
  if f64_gtb (tokens b) cap then mkBucket cap (lastRefill b) (lastAccess b) else b.

Definition SetLimit (tb : TokenBucket) (cap rate : f64) : outcome TokenBucket :=
  if PrimFloat.ltb cap 0 then Panic "tokenbucket.SetLimit: capacity must be >= 0"
  else if PrimFloat.leb rate 0 then Panic "tokenbucket.SetLimit: refillRate must be > 0"
  else Ok (mkTB cap rate (idleClean tb) (clamp_bucket cap <$> buckets tb) (closed tb) (onDecision tb)).

Definition sweep (tb : TokenBucket) (now : time) : TokenBucket :=
  if (idleClean tb <=? 0) || closed tb then tb
  else
    let cutoff := time_add now (- idleClean tb) in
    with_buckets tb (filter (fun kb => Before (lastAccess kb.2) cutoff = false) (buckets tb)).

(** ** Well-formed buckets *)

(** What [New] checks, for finite, non-NaN arguments. *)
Definition cfg_ok (tb : TokenBucket) : Prop :=
  f64_nonneg (capacity tb) = true /\ f64_finite (capacity tb) = true /\
  PrimFloat.ltb 0 (refillRate tb) = true.

(** A bucket holds a number of tokens, none borrowed. *)
Definition bucket_ok (b : bucket) : Prop := f64_nonneg (tokens b) = true.

Definition tb_ok (tb : TokenBucket) : Prop :=
  cfg_ok tb /\ map_Forall (fun _ b => bucket_ok b) (buckets tb).

Lemma refill_ok tb b now : cfg_ok tb -> bucket_ok b -> bucket_ok (refill tb b now).
Proof.
  intros (Hc & _ & Hr) Hb. unfold refill, bucket_ok, f64_gtb.
  destruct (PrimFloat.ltb 0 (Seconds _)) eqn:E; [|done]. cbn [tokens]. case_match; [done|].
  apply f64_add_nonneg; [done|]. by apply f64_mul_pos_nonneg.
Qed.

Lemma leb_finite x y : f64_nonneg x = true -> f64_finite y = true -> PrimFloat.leb x y = true ->
  f64_finite x = true.
Proof.
  unfold f64_nonneg, f64_finite. rewrite FloatAxioms.leb_spec. unfold SFleb, SFcompare.
  by destruct (sf x) as [|[]| |[]], (sf y) as [|[]| |[]].
Qed.

(** The decision on a well-formed bucket and a proper cost. *)
Lemma tb_consume_spec tb b n now :
  cfg_ok tb -> bucket_ok b -> f64_nonneg n = true ->
  let b1 := refill tb b now in
  let ok := PrimFloat.leb n (capacity tb) && PrimFloat.leb n (tokens b1) in
  Allowed (fst (consume tb b n now)) = ok /\
  tokens (snd (consume tb b n now)) =
    (if PrimFloat.leb n (capacity tb) then (if ok then (tokens b1 - n)%float else tokens b1) else tokens b) /\
  bucket_ok (snd (consume tb b n now)).
Proof.
  intros Hcfg Hb Hn. cbv zeta. pose proof (refill_ok tb b now Hcfg Hb) as Hb1. unfold bucket_ok in *.
  destruct Hcfg as (Hc & Hfin & Hr). unfold consume, f64_gtb.
  destruct (PrimFloat.leb n (capacity tb)) eqn:Ecap.
  - rewrite (leb_ltb_false n (capacity tb) Ecap). cbn [andb].
    destruct (PrimFloat.leb n (tokens (refill tb b now))) eqn:Et.
    + rewrite (leb_ltb_false _ _ Et). cbn. split_and!; try done.
      apply f64_sub_nonneg; [by eapply leb_finite|done|done].
    + rewrite (leb_false_ltb n (tokens (refill tb b now))) by auto with golib. done.
  - rewrite (leb_false_ltb n (capacity tb)) by auto with golib. done.
Qed.

Lemma getOrCreate_tb_ok tb key t : tb_ok tb ->
  tb_ok (snd (getOrCreate tb key t)) /\ bucket_ok (fst (getOrCreate tb key t)) /\
  capacity (snd (getOrCreate tb key t)) = capacity tb /\
  refillRate (snd (getOrCreate tb key t)) = refillRate tb.
Proof.
  intros [Hc Hm]. unfold getOrCreate. destruct (buckets tb !! key) as [b|] eqn:E; simpl.
  - split_and!; try done. by apply (Hm key b).
  - assert (bucket_ok (mkBucket (capacity tb) t t)) by apply Hc.
    split; [split; [done|]; by apply map_Forall_insert_2|done].
Qed.

Lemma tb_ok_insert tb key b : tb_ok tb -> bucket_ok b ->
  tb_ok (with_buckets tb (<[key := b]> (buckets tb))).
Proof. intros [Hc Hm] Hb. split; [done|]. by apply map_Forall_insert_2. Qed.

Lemma take_ok tb rd key n : tb_ok tb -> f64_nonneg n = true -> tb_ok (snd (take tb rd key n)).
Proof.
  intros Hok Hn. unfold take. destruct (getOrCreate_tb_ok tb key (r_create rd) Hok) as (Hok1 & Hb & _).
  destruct (getOrCreate tb key (r_create rd)) as [b tb1]. cbn [fst snd] in *.
  destruct (tb_consume_spec tb1 b n (r_now rd) (proj1 Hok1) Hb Hn) as (_ & _ & Hb').
  destruct (consume tb1 b n (r_now rd)) as [res b']. by apply tb_ok_insert.
Qed.

(** ** Histories *)

Inductive tb_op :=
| TAllowN (rd : reads) (key : string) (n : Z)
| TAllowCost (rd : reads) (key : string) (cost : f64)
| TPeek (tc now now2 : time) (key : string)
| TReset (key : string)
| TSetLimit (cap rate : f64)
| TSweep (now : time).

(** A panicking [SetLimit] changes nothing. *)
Definition exec (tb : TokenBucket) (o : tb_op) : TokenBucket :=
  match o with
  | TAllowN rd key n => snd (fst (AllowN tb rd key n))
  | TAllowCost rd key cost => snd (fst (AllowCost tb rd key cost))
  | TPeek tc now now2 key => snd (Peek tb tc now now2 key)
  | TReset key => Reset tb key
  | TSetLimit cap rate => match SetLimit tb cap rate with Ok tb' => tb' | Panic _ => tb end
  | TSweep now => sweep tb now
  end.

(** Costs that fit an [int], fractional costs that are not NaN, finite limits. *)
Definition op_ok (o : tb_op) : Prop :=
  match o with
  | TAllowN _ _ n => n <= max_int64
  | TAllowCost _ _ cost => is_nan cost = false
  | TSetLimit cap rate => f64_finite cap = true /\ is_nan rate = false
  | _ => True
  end.

Lemma clamp_bucket_ok cap b : f64_nonneg cap = true -> bucket_ok b -> bucket_ok (clamp_bucket cap b).
Proof. intros Hc Hb. unfold clamp_bucket. by case_match. Qed.

Lemma finite_not_nan x : f64_finite x = true -> is_nan x = false.
Proof. unfold f64_finite, is_nan. by destruct (sf x). Qed.

Lemma ltb_zero_false_nonneg x : is_nan x = false -> PrimFloat.ltb x 0 = false -> f64_nonneg x = true.
Proof.
  intros Hn Hl. rewrite <- leb_zero_nonneg. by apply ltb_false_leb.
Qed.

Lemma exec_tb_ok tb o : tb_ok tb -> op_ok o -> tb_ok (exec tb o).
Proof.
  intros Hok Ho. destruct o as [rd key n|rd key cost|tc now now2 key|key|cap rate|now]; cbn [exec].
  - unfold AllowN, allowN_body. destruct (ValidateKey key); [done|].
    destruct (ValidateN n) eqn:En; [done|]. apply ValidateN_ok in En.
    pose proof (take_ok tb rd key (f64_of_Z n) Hok (f64_of_Z_nonneg n ltac:(simpl in Ho; lia))) as H.
    by destruct (take tb rd key (f64_of_Z n)).
  - unfold AllowCost, allowCost_body. destruct (ValidateKey key); [done|].
    destruct (PrimFloat.leb cost 0) eqn:Ec; [done|].
    assert (f64_nonneg cost = true) as Hn.
    { rewrite <- leb_zero_nonneg. apply ltb_false_leb; [done|done|].
      destruct (PrimFloat.ltb cost zero) eqn:El; [|done].
      apply ltb_leb in El. change zero with 0%float in El. congruence. }
    pose proof (take_ok tb rd key cost Hok Hn) as H. by destruct (take tb rd key cost).
  - unfold Peek. destruct (getOrCreate_tb_ok tb key tc Hok) as (Hok1 & Hb & _).
    destruct (getOrCreate tb key tc) as [b tb1]. apply tb_ok_insert; [done|]. apply refill_ok; [apply Hok1|done].
  - destruct Hok as [Hc Hm]. split; [done|]. by apply map_Forall_delete.
  - unfold SetLimit. destruct Ho as [Hfin Hnan]. destruct (PrimFloat.ltb cap 0) eqn:E1; [done|].
    destruct (PrimFloat.leb rate 0) eqn:E2; [done|]. destruct Hok as [(Hc & Hf & Hr) Hm].
    assert (f64_nonneg cap = true) as Hcap by (apply ltb_zero_false_nonneg; auto using finite_not_nan).
    split.
    + split_and!; try done. by apply leb_false_ltb.
    + cbn. intros k b Hb. rewrite lookup_fmap in Hb. destruct (buckets tb !! k) as [b0|] eqn:Eb; simplify_eq/=.
      apply clamp_bucket_ok; [done|]. by apply (Hm k).
  - unfold sweep. destruct (_ || _); [done|]. destruct Hok as [Hc Hm]. split; [done|].
    intros k b Hb. apply map_lookup_filter_Some in Hb as [Hb _]. by apply (Hm k).
Qed.

(** The bucket of a key, full when there is none. *)
Definition bucket_of (tb : TokenBucket) (key : string) (t : time) : bucket :=
  default (mkBucket (capacity tb) t t) (buckets tb !! key).

(** C7: A token bucket never lends: after any history of integer and
    fractional requests, peeks, resets, limit changes and sweeps every bucket
    holds a non-negative number of tokens, and in such a state a request is
    granted exactly when its cost is within the capacity and within the tokens
    after the refill, a granted request takes exactly its cost and a denied one
    takes nothing. *)
Theorem token_bucket_never_lends tb0 ops rd key n :
  cfg_ok tb0 -> buckets tb0 = ∅ -> Forall op_ok ops ->
  ValidateKey key = None -> 1 <= n <= max_int64 ->
  let tb := foldl exec tb0 ops in
  map_Forall (fun _ b => f64_nonneg (tokens b) = true) (buckets tb) /\
  let b := bucket_of tb key (r_create rd) in
  let b1 := refill tb b (r_now rd) in
  let cost := f64_of_Z n in
  let fits := PrimFloat.leb cost (capacity tb) in
  let ok := fits && PrimFloat.leb cost (tokens b1) in
  Allowed (fst (fst (AllowN tb rd key n))) = ok /\
  option_map tokens (buckets (snd (fst (AllowN tb rd key n))) !! key) =
    Some (if ok then (tokens b1 - cost)%float else if fits then tokens b1 else tokens b).
Proof.
  intros Hcfg Hempty Hops Hkey Hn. cbv zeta.
  assert (tb_ok (foldl exec tb0 ops)) as Hok.
  { assert (tb_ok tb0) as H0 by (split; [done|]; rewrite Hempty; apply map_Forall_empty).
    clear Hempty Hcfg. revert tb0 H0. induction Hops as [|o ops Ho Hops IH]; intros tb0 H0; simpl; [done|].
    apply IH. by apply exec_tb_ok. }
  set (tb := foldl exec tb0 ops) in *. split; [apply Hok|].
  pose proof (f64_of_Z_nonneg n ltac:(lia)) as Hcost. set (cost := f64_of_Z n) in *.
  unfold AllowN, allowN_body. rewrite Hkey, (proj2 (ValidateN_ok n)) by lia. unfold take. fold cost.
  assert (exists tb1, getOrCreate tb key (r_create rd) = (bucket_of tb key (r_create rd), tb1) /\
    capacity tb1 = capacity tb /\ refillRate tb1 = refillRate tb /\ consume tb1 = consume tb) as (tb1 & E & Ec & _ & Econs).
  { unfold getOrCreate, bucket_of. destruct (buckets tb !! key) as [b|]; by eexists. }
  assert (bucket_ok (bucket_of tb key (r_create rd))) as Hb.
  { destruct (getOrCreate_tb_ok tb key (r_create rd) Hok) as (_ & Hb & _). by rewrite E in Hb. }
  rewrite E, Econs.
  destruct (tb_consume_spec tb (bucket_of tb key (r_create rd)) cost (r_now rd) (proj1 Hok) Hb Hcost) as (Ha & Ht & _).
  destruct (consume tb (bucket_of tb key (r_create rd)) cost (r_now rd)) as [res b']. cbn [fst snd] in *.
  split.
  - rewrite <- Ha. by destruct (n =? 1).
  - cbn [buckets with_buckets]. rewrite lookup_insert_eq. cbn [option_map]. f_equal. rewrite Ht.
    by destruct (PrimFloat.leb cost (capacity tb)).
Qed.

(** Ten tokens, one per second. *)
Definition demo_tb : TokenBucket := mkTB 10 1 0 ∅ false false.

Lemma token_bucket_never_lends_witness :
  let tb := foldl exec demo_tb [TAllowN (reads_at 0) "a" 7; TAllowCost (reads_at Second) "a" 1.5; TSweep 5] in
  map_Forall (fun _ b => f64_nonneg (tokens b) = true) (buckets tb) /\
  Allowed (fst (fst (AllowN tb (reads_at (2 * Second)) "a" 3))) = true /\
  option_map tokens (buckets (snd (fst (AllowN tb (reads_at (2 * Second)) "a" 3))) !! "a") = Some 0.5%float.
Proof.
  apply (token_bucket_never_lends demo_tb
    [TAllowN (reads_at 0) "a" 7; TAllowCost (reads_at Second) "a" 1.5; TSweep 5] (reads_at (2 * Second)) "a" 3).
  - split_and!; reflexivity.
  - reflexivity.
  - repeat constructor; vm_compute; discriminate.
  - reflexivity.
  - go_lia.
Defined.

(** ** A NaN cost *)

(** Requests of one key, one after another: are they all granted? *)
Fixpoint all_granted (tb : TokenBucket) (b : bucket) (rs : list (f64 * time)) : bool :=
  match rs with
  | [] => true
  | (n, now) :: rs' =>
      let '(res, b') := consume tb b n now in Allowed res && all_granted tb b' rs'
  end.

Lemma nan_bucket_grants tb b n now : is_nan (tokens b) = true -> f64_gtb n (capacity tb) = false ->
  Allowed (fst (consume tb b n now)) = true /\ is_nan (tokens (snd (consume tb b n now))) = true.
Proof.
  intros Hb Hn. unfold consume. rewrite Hn.
  assert (is_nan (tokens (refill tb b now)) = true) as Hr.
  { unfold refill, f64_gtb. destruct (PrimFloat.ltb 0 _); [|done]. cbn [tokens].
    rewrite (ltb_nan_r (capacity tb)) by auto with golib. auto with golib. }
  rewrite (ltb_nan_l _ n) by done. cbn. auto with golib.
Qed.

(** One NaN cost switches the limiter off for its key: [AllowCost] admits
    NaN ([cost <= 0] is false for it), the bucket's tokens become NaN, and from
    then on every request within the capacity is granted, however many there
    are. *)
Theorem token_bucket_nan_cost_disables_limit tb rd key rs :
  ValidateKey key = None ->
  Forall (fun r => f64_gtb (fst r) (capacity tb) = false) rs ->
  let '(res, tb', _) := AllowCost tb rd key nan in
  Allowed res = true /\
  exists b, buckets tb' !! key = Some b /\ all_granted tb' b rs = true.
Proof.
  intros Hkey Hrs. unfold AllowCost, allowCost_body. rewrite Hkey.
  change (PrimFloat.leb nan 0) with false. cbv iota. unfold take.
  assert (exists b tb1, getOrCreate tb key (r_create rd) = (b, tb1) /\ capacity tb1 = capacity tb) as (b & tb1 & -> & Ec).
  { unfold getOrCreate. destruct (buckets tb !! key); by do 2 eexists. }
  unfold consume. unfold f64_gtb. rewrite (ltb_nan_r _ nan) by done. rewrite (ltb_nan_r _ nan) by done.
  cbn [Allowed setCost]. split; [done|]. eexists. cbn [buckets with_buckets]. split; [apply lookup_insert_eq|].
  assert (forall tb2 b, capacity tb2 = capacity tb -> is_nan (tokens b) = true -> all_granted tb2 b rs = true) as Hgen.
  { clear -Hrs. intros tb2 b Ec. revert b. induction Hrs as [|[n now] rs Hn Hrs IH]; intros b Hb; simpl; [done|].
    rewrite <- Ec in Hn. destruct (nan_bucket_grants tb2 b n now Hb Hn) as [Ha Hb'].
    destruct (consume tb2 b n now) as [res b']. simpl in *. rewrite Ha. by apply IH. }
  apply Hgen; [done|]. by apply f64_sub_nan_r.
Qed.

Lemma token_bucket_nan_cost_disables_limit_witness :
  let '(res, tb', _) := AllowCost demo_tb (reads_at 0) "a" nan in
  Allowed res = true /\
  exists b, buckets tb' !! "a" = Some b /\ all_granted tb' b (replicate 50 (f64_of_Z 10, 0)) = true.
Proof.
  refine (token_bucket_nan_cost_disables_limit demo_tb (reads_at 0) "a" (replicate 50 (f64_of_Z 10, 0)) eq_refl _).
  vm_compute. repeat constructor.
Defined.

(** Lowering the limit takes effect on every bucket at once. *)
Theorem token_bucket_setlimit_clamps tb cap rate tb' k b :
  tb_ok tb -> f64_finite cap = true -> SetLimit tb cap rate = Ok tb' ->
  buckets tb' !! k = Some b -> PrimFloat.leb (tokens b) cap = true.
Proof.
  intros [_ Hm] Hcap Hs Hb. unfold SetLimit in Hs. do 2 (case_match; [done|]). simplify_eq/=.
  rewrite lookup_fmap in Hb. destruct (buckets tb !! k) as [b0|] eqn:Eb; simplify_eq/=.
  unfold clamp_bucket, f64_gtb. destruct (PrimFloat.ltb cap (tokens b0)) eqn:El; cbn [tokens].
  - apply leb_refl. by apply finite_not_nan.
  - apply ltb_false_leb; auto using finite_not_nan. apply f64_nonneg_not_nan, (Hm k b0 Eb).
Qed.
