(* ===== verification/Heap.v ===== *)
(** * Priority queues: [container/heap] and its client [priorityQueue]
      ([ratelimit/leakybucket/priority.go]).

    The algorithms of the standard library's package are written against its
    interface (class [HeapInterface]) and verified against the laws a client
    owes it (class [HeapLaws]); the priority queue of the leaky bucket is such
    a client. *)

From S2P Require Import Prelude.
Open Scope nat_scope.

(** ** The interface *)

Class HeapInterface (H A : Type) := {
  Len : H -> nat;
  Less : H -> nat -> nat -> bool;
  Swap : nat -> nat -> H -> H;
  Push : A -> H -> H;
  Pop : H -> option (A * H);
}.

Section algorithms.
Context {H A : Type} `{HeapInterface H A}.

(** [(j - 1) / 2], which is 0 for [j = 0] in Go's arithmetic too. *)
Definition par (j : nat) : nat := (j - 1) / 2.

Fixpoint up_loop (fuel : nat) (h : H) (j : nat) : H :=
  match fuel with
  | O => h
  | S fuel' =>
      let i := par j in
      if (i =? j) || negb (Less h j i) then h else up_loop fuel' (Swap i j h) i
  end.

Definition up (h : H) (j : nat) : H := up_loop (S j) h j.

(** The smaller child of [i] below [n]. *)
Definition child (h : H) (i n : nat) : nat :=
  let j1 := 2 * i + 1 in
  let j2 := j1 + 1 in
  if (j2 <? n) && Less h j2 j1 then j2 else j1.

Fixpoint down_loop (fuel : nat) (h : H) (i n : nat) : H * nat :=
  match fuel with
  | O => (h, i)
  | S fuel' =>
      if n <=? 2 * i + 1 then (h, i)
      else
        let j := child h i n in
        if Less h j i then down_loop fuel' (Swap i j h) j n else (h, i)
  end.

(** Each turn at least doubles [i], so [n] turns are enough. *)
Definition down (h : H) (i0 n : nat) : H * bool :=
  let '(h', i) := down_loop n h i0 n in (h', i0 <? i).

Definition heap_Push (h : H) (x : A) : H :=
  let h := Push x h in up h (Len h - 1).

Definition heap_Pop (h : H) : option (A * H) :=
  let n := Len h - 1 in
  let h := Swap 0 n h in
  let '(h, _) := down h 0 n in
  Pop h.

Definition heap_Remove (h : H) (i : nat) : option (A * H) :=
  let n := Len h - 1 in
  let h :=
    if n =? i then h
    else
      let '(h', moved) := down (Swap i n h) i n in
      if moved then h' else up h' i in
  Pop h.
End algorithms.

(** ** Lists with two entries exchanged *)

Definition lswap {A} (i j : nat) (l : list A) : list A :=
  match l !! i, l !! j with
  | Some a, Some b => <[i := b]> (<[j := a]> l)
  | _, _ => l
  end.

Section lswap.
Context {A : Type} `{!Inhabited A}.
Implicit Types l : list A.

Lemma length_lswap i j l : length (lswap i j l) = length l.
Proof. unfold lswap. repeat case_match; by rewrite ?length_insert. Qed.

Lemma lswap_lookup i j k l : i < length l -> j < length l ->
  lswap i j l !! k = if decide (k = i) then l !! j else if decide (k = j) then l !! i else l !! k.
Proof.
  intros Hi Hj. unfold lswap. destruct (lookup_lt_is_Some_2 l i Hi) as [a Ha].
  destruct (lookup_lt_is_Some_2 l j Hj) as [b Hb]. rewrite Ha, Hb.
  repeat case_decide; subst.
  - by rewrite list_lookup_insert_eq by (by rewrite length_insert).
  - rewrite list_lookup_insert_ne by done. by rewrite list_lookup_insert_eq.
  - by rewrite !list_lookup_insert_ne by done.
Qed.

Lemma lswap_total i j k l : i < length l -> j < length l ->
  lswap i j l !!! k = if decide (k = i) then l !!! j else if decide (k = j) then l !!! i else l !!! k.
Proof. intros. rewrite !list_lookup_total_alt, lswap_lookup by done. by repeat case_decide. Qed.

Lemma lswap_perm i j l : i < length l -> j < length l -> lswap i j l ≡ₚ l.
Proof.
  intros Hi Hj. symmetry. apply Permutation_inj. split; [by rewrite length_lswap|].
  exists (fun k => if decide (k = i) then j else if decide (k = j) then i else k). split.
  - intros a b. repeat case_decide; subst; naive_solver.
  - intros k. rewrite lswap_lookup by done. by repeat case_decide; subst.
Qed.
End lswap.

(** ** What a client owes the package *)

Class HeapLaws (H A : Type) `{HeapInterface H A, Inhabited A} := {
  items : H -> list A;
  before : A -> A -> bool;
  before_asym a b : before a b = true -> before b a = false;
  before_trans a b c : before b a = false -> before c b = false -> before c a = false;
  Len_items h : Len h = length (items h);
  Less_items h i j : i < length (items h) -> j < length (items h) ->
    Less h i j = before (items h !!! i) (items h !!! j);
  Swap_items h i j : i < length (items h) -> j < length (items h) ->
    items (Swap i j h) = lswap i j (items h);
  Push_items h x : items (Push x h) = items h ++ [x];
  Pop_items h : items h <> [] ->
    exists x h', Pop h = Some (x, h') /\ items h = items h' ++ [x];
}.

Section correctness.
Context {H A : Type} `{HeapLaws H A}.
Implicit Types (h : H) (l : list A).

(** [a] may stand above [b]. *)
Definition le (a b : A) : Prop := before b a = false.

#[local] Instance le_preorder : PreOrder le.
Proof.
  split.
  - intros a. unfold le. destruct (before a a) eqn:E; [|done]. by rewrite (before_asym a a E) in E.
  - intros a b c. apply before_trans.
Qed.

(** No element of the first [n] stands below a later one; and the same with a
    hole at [i]. *)
Definition heap_below (n : nat) l : Prop := forall c, 0 < c < n -> le (l !!! par c) (l !!! c).
Definition heap_hole (n i : nat) l : Prop :=
  (forall c, 0 < c < n -> c <> i -> par c <> i -> le (l !!! par c) (l !!! c)) /\
  (forall c, 0 < c < n -> par c = i -> 0 < i -> le (l !!! par i) (l !!! c)).
Definition above_ok (i : nat) l : Prop := 0 < i -> le (l !!! par i) (l !!! i).
Definition below_ok (n i : nat) l : Prop := forall c, 0 < c < n -> par c = i -> le (l !!! i) (l !!! c).

Lemma par_lt j : 0 < j -> par j < j.
Proof. intros. unfold par. apply Nat.Div0.div_lt_upper_bound; lia. Qed.

Lemma par_children c i : 0 < c -> par c = i <-> c = 2 * i + 1 \/ c = 2 * i + 2.
Proof.
  intros Hc. unfold par. pose proof (Nat.div_mod_eq (c - 1) 2). pose proof (Nat.mod_upper_bound (c - 1) 2). lia.
Qed.

Lemma heap_of_hole n i l : heap_hole n i l -> above_ok i l -> below_ok n i l -> heap_below n l.
Proof.
  intros [Q1 _] Ha Hb c Hc. destruct (decide (c = i)) as [->|Hne]; [apply Ha; lia|].
  destruct (decide (par c = i)) as [E|E]; [rewrite E; by apply Hb|by apply Q1].
Qed.

(** The root of a heap is minimal. *)
Lemma heap_root_min n l : heap_below n l -> forall c, c < n -> le (l !!! 0) (l !!! c).
Proof.
  intros Hh c. induction c as [c IH] using lt_wf_ind. intros Hc. destruct (decide (c = 0)) as [->|Hne]; [done|].
  pose proof (par_lt c ltac:(lia)). etransitivity; [apply (IH (par c)); lia|]. apply Hh. lia.
Qed.

(** One exchange of a hole with its parent, or with its smaller child. *)
Lemma hole_up n j l : heap_hole n j l -> below_ok n j l -> 0 < j -> j < n -> n <= length l ->
  before (l !!! j) (l !!! par j) = true ->
  heap_hole n (par j) (lswap (par j) j l) /\ below_ok n (par j) (lswap (par j) j l).
Proof.
  intros [Q1 Q2] Hb Hj Hn Hl Hlt. pose proof (par_lt j Hj) as Hp. pose proof (before_asym _ _ Hlt) as Hle.
  change (le (l !!! j) (l !!! par j)) in Hle. unfold heap_hole, below_ok. split; [split|]; intros c Hc.
  - intros Hci Hpi. rewrite !lswap_total by lia. pose proof (par_lt c ltac:(lia)).
    repeat case_decide; subst; try done; [by apply Q2|by apply Q1].
  - intros Hpc Hpos. pose proof (par_lt (par j) Hpos). rewrite !lswap_total by lia.
    pose proof (par_lt c ltac:(lia)). repeat case_decide; subst; try lia; try (apply Q1; lia).
    etransitivity; [apply (Q1 (par j)); lia|]. rewrite <- Hpc. apply Q1; lia.
  - intros Hpc. rewrite !lswap_total by lia. pose proof (par_lt c ltac:(lia)).
    repeat case_decide; subst; try lia; try done.
    etransitivity; [exact Hle|]. rewrite <- Hpc. apply Q1; lia.
Qed.

Lemma hole_down n i j l : heap_hole n i l -> 0 < j -> par j = i -> j < n -> n <= length l ->
  (forall c, 0 < c < n -> par c = i -> le (l !!! j) (l !!! c)) ->
  before (l !!! j) (l !!! i) = true ->
  heap_hole n j (lswap i j l) /\ above_ok j (lswap i j l).
Proof.
  intros [Q1 Q2] Hj Hpj Hn Hl Hmin Hlt. pose proof (par_lt j Hj) as Hp. pose proof (before_asym _ _ Hlt) as Hle.
  change (le (l !!! j) (l !!! i)) in Hle. unfold heap_hole, above_ok. split; [split|].
  - intros c Hc Hcj Hpcj. rewrite !lswap_total by lia. pose proof (par_lt c ltac:(lia)).
    repeat case_decide; subst; try lia; try done; try (by apply Hmin); [apply Q2; lia|by apply Q1].
  - intros c Hc Hpc _. rewrite !lswap_total by lia. pose proof (par_lt c ltac:(lia)).
    repeat case_decide; subst; try lia; try done. apply Q1; lia.
  - intros _. rewrite !lswap_total by lia. repeat case_decide; subst; try lia; done.
Qed.

(** Exchanges only: a property they keep is kept by the loops. *)
Section exchanges.
Context (P : H -> Prop) (b n0 : nat) (Hb : b <= n0).
Hypothesis Pswap : forall h i j, P h -> length (items h) = n0 -> i < j < b -> P (Swap i j h).

Lemma up_loop_keeps fuel h j : P h -> length (items h) = n0 -> j < b ->
  P (up_loop fuel h j) /\ length (items (up_loop fuel h j)) = n0.
Proof.
  revert h j. induction fuel as [|fuel IH]; intros h j HP Hl Hj; cbn [up_loop]; [done|].
  destruct (Nat.eqb_spec (par j) j) as [E|E]; [done|]. destruct (Less h j (par j)); [|done]. cbn [orb negb].
  assert (par j < j) by (destruct j; [done|apply par_lt; lia]). apply IH; [by apply Pswap| |lia].
  by rewrite Swap_items, length_lswap by lia.
Qed.

Lemma down_loop_keeps fuel h i n : P h -> length (items h) = n0 -> n <= b ->
  P (fst (down_loop fuel h i n)) /\ length (items (fst (down_loop fuel h i n))) = n0.
Proof.
  revert h i. induction fuel as [|fuel IH]; intros h i HP Hl Hn; cbn [down_loop]; [done|].
  destruct (Nat.leb_spec n (2 * i + 1)); [done|]. destruct (Less h (child h i n) i); [|done].
  assert (i < child h i n < b) as Hc.
  { unfold child. cbv zeta. destruct (_ && _) eqn:Ec; [apply andb_true_iff in Ec as [Ec%Nat.ltb_lt _]|]; lia. }
  apply IH; [by apply Pswap| |done]. by rewrite Swap_items, length_lswap by lia.
Qed.
End exchanges.

Lemma swap_keeps_perm l h i j : items h ≡ₚ l -> i < length (items h) -> j < length (items h) ->
  items (Swap i j h) ≡ₚ l.
Proof. intros Hp Hi Hj. rewrite Swap_items by done. by rewrite lswap_perm. Qed.

(** ** The loops restore the order *)

Lemma up_loop_heap fuel n h j : j < fuel -> j < n -> n <= length (items h) ->
  heap_hole n j (items h) -> below_ok n j (items h) -> heap_below n (items (up_loop fuel h j)).
Proof.
  revert h j. induction fuel as [|fuel IH]; intros h j Hf Hj Hn Hh Hb; [lia|]. cbn [up_loop].
  destruct (Nat.eqb_spec (par j) j) as [E|E].
  { assert (j = 0) as -> by (destruct j; [done|]; pose proof (par_lt (S j)); lia).
    eapply heap_of_hole; [done|by intros ?; lia|done]. }
  assert (0 < j) as Hj0 by (destruct j; [done|lia]). pose proof (par_lt j Hj0) as Hp. cbn [orb].
  rewrite Less_items by lia. destruct (before _ _) eqn:Eb; cbn [negb].
  - destruct (hole_up n j (items h)) as [Hh' Hb']; try done. rewrite <- Swap_items in Hh', Hb' by lia.
    apply IH; try done; try lia. rewrite Swap_items, length_lswap by lia. lia.
  - eapply heap_of_hole; try done. by intros _.
Qed.

Lemma child_spec h i n : 2 * i + 1 < n -> n <= length (items h) ->
  let j := child h i n in 0 < j < n /\ par j = i /\
  forall c, 0 < c < n -> par c = i -> le (items h !!! j) (items h !!! c).
Proof.
  intros Hi Hn. unfold child. pose proof (fun c => par_children c i) as Hpc.
  destruct (Nat.ltb_spec (2 * i + 1 + 1) n) as [Hlt2|Hge2]; cbn [andb].
  - rewrite Less_items by lia. destruct (before _ _) eqn:Eb; (split; [lia|]); (split; [apply Hpc; lia|]);
      intros c Hc Hp; apply Hpc in Hp as [-> | ->]; try lia; try reflexivity.
    + by apply before_asym.
    + replace (2 * i + 2) with (2 * i + 1 + 1) by lia. done.
    + replace (2 * i + 2) with (2 * i + 1 + 1) by lia. done.
  - split; [lia|]. split; [apply Hpc; lia|]. intros c Hc Hp. apply Hpc in Hp as [-> | ->]; try lia. reflexivity.
Qed.

Lemma down_loop_heap fuel n h i : n - i <= fuel -> n <= length (items h) ->
  heap_hole n i (items h) -> above_ok i (items h) ->
  heap_below n (items (fst (down_loop fuel h i n))) /\ i <= snd (down_loop fuel h i n).
Proof.
  revert h i. induction fuel as [|fuel IH]; intros h i Hf Hn Hh Ha; cbn [down_loop].
  { split; [|done]. eapply heap_of_hole; [done..|]. intros c Hc Hp. apply par_children in Hp; lia. }
  destruct (Nat.leb_spec n (2 * i + 1)) as [Hle|Hgt].
  { split; [|done]. eapply heap_of_hole; [done..|]. intros c Hc Hp. apply par_children in Hp; lia. }
  destruct (child_spec h i n Hgt Hn) as (Hj & Hpj & Hmin). set (j := child h i n) in *.
  pose proof (par_lt j ltac:(lia)) as Hp. rewrite Less_items by lia. destruct (before _ _) eqn:Eb.
  - destruct (hole_down n i j (items h)) as [Hh' Ha']; try done; try lia. rewrite <- Swap_items in Hh', Ha' by lia.
    destruct (IH (Swap i j h) j) as [R1 R2]; try done; try lia; [by rewrite Swap_items, length_lswap by lia|].
    split; [done|lia].
  - split; [|done]. eapply heap_of_hole; [done..|]. intros c Hc Hpc. etransitivity; [exact Eb|]. by apply Hmin.
Qed.

(** [down] on a hole whose element may be too small: either it moves and all is
    in order, or nothing moves and only the upper edge is in doubt. *)
Lemma down_hole n h i : i < n -> n <= length (items h) -> heap_hole n i (items h) ->
  if snd (down h i n) then heap_below n (items (fst (down h i n)))
  else fst (down h i n) = h /\ below_ok n i (items h).
Proof.
  intros Hi Hn Hh. unfold down.
  assert (down_loop n h i n = if n <=? 2 * i + 1 then (h, i) else
    if Less h (child h i n) i then down_loop (n - 1) (Swap i (child h i n) h) (child h i n) n else (h, i)) as ->.
  { destruct n as [|n']; [lia|]. cbn [down_loop]. by rewrite Nat.sub_succ, Nat.sub_0_r. }
  destruct (Nat.leb_spec n (2 * i + 1)) as [Hle|Hgt].
  { cbn [fst snd]. rewrite Nat.ltb_irrefl. split; [done|]. intros c Hc Hp. apply par_children in Hp; lia. }
  destruct (child_spec h i n Hgt Hn) as (Hj & Hpj & Hmin). set (j := child h i n) in *.
  pose proof (par_lt j ltac:(lia)) as Hp. rewrite Less_items by lia. destruct (before _ _) eqn:Eb.
  - destruct (hole_down n i j (items h)) as [Hh' Ha']; try done; try lia. rewrite <- Swap_items in Hh', Ha' by lia.
    destruct (down_loop_heap (n - 1) n (Swap i j h) j) as [R1 R2]; try done; try lia; [by rewrite Swap_items, length_lswap by lia|].
    destruct (down_loop (n - 1) (Swap i j h) j n) as [h' i']. cbn [fst snd] in *.
    rewrite (proj2 (Nat.ltb_lt _ _)) by lia. done.
  - cbn [fst snd]. rewrite Nat.ltb_irrefl. split; [done|]. intros c Hc Hpc. etransitivity; [exact Eb|]. by apply Hmin.
Qed.

(** ** The operations *)

Definition heap_ok h : Prop := heap_below (length (items h)) (items h).

(** The first [n] items permuted, the rest untouched. *)
Definition shuffled (n : nat) l h : Prop := items h ≡ₚ l /\ drop n (items h) = drop n l.

Lemma shuffled_swap n l h i j : shuffled n l h -> length (items h) = length l -> i < j < n -> n <= length l ->
  shuffled n l (Swap i j h).
Proof.
  intros [Hp Hd] Hl Hij Hn. unfold shuffled. rewrite Swap_items by lia. split; [by rewrite lswap_perm by lia|].
  rewrite <- Hd. apply list_eq. intros k. rewrite !lookup_drop, lswap_lookup by lia. by rewrite !decide_False by lia.
Qed.

Lemma up_shuffles n h j : j < n -> n <= length (items h) -> shuffled n (items h) (up h j).
Proof.
  intros Hj Hn. apply (up_loop_keeps (shuffled n (items h)) n (length (items h))); try done.
  intros h' i k Hs Hl Hik. by apply shuffled_swap.
Qed.

Lemma down_shuffles n h i : n <= length (items h) -> shuffled n (items h) (fst (down h i n)).
Proof.
  intros Hn. unfold down. pose proof (down_loop_keeps (shuffled n (items h)) n (length (items h)) Hn) as Hk.
  destruct (Hk ltac:(intros h' i' k Hs Hl Hik; by apply shuffled_swap) n h i n) as [Hs _]; try done.
  by destruct (down_loop n h i n).
Qed.

Lemma shuffled_last n l h : shuffled n l h -> n < length l -> exists l', items h = l' ++ drop n l /\ length l' = n.
Proof.
  intros [Hp Hd] Hn. exists (take n (items h)). rewrite <- Hd, take_drop. split; [done|].
  rewrite length_take, Hp. lia.
Qed.

Lemma drop_last l n : length l = S n -> drop n l = [l !!! n].
Proof.
  intros Hl. destruct (lookup_lt_is_Some_2 l n ltac:(lia)) as [x Hx].
  rewrite (drop_S l x n Hx), drop_ge by lia. by rewrite list_lookup_total_alt, Hx.
Qed.

Lemma heap_below_app n l k : n <= length l -> heap_below n (l ++ k) <-> heap_below n l.
Proof.
  intros Hn. unfold heap_below. split; intros Hh c Hc; specialize (Hh c Hc); pose proof (par_lt c ltac:(lia));
    by rewrite !lookup_total_app_l in * by lia.
Qed.

(** The last item taken off a list whose first [n] items are in order. *)
Lemma pop_last n l h : shuffled n l h -> length l = S n -> heap_below n (items h) ->
  exists h', Pop h = Some (l !!! n, h') /\ heap_ok h' /\ items h' ++ [l !!! n] ≡ₚ l.
Proof.
  intros Hs Hl Hh. destruct (shuffled_last n l h Hs ltac:(lia)) as (l' & E & Hl').
  destruct (Pop_items h) as (x & h' & Ep & Ei); [rewrite E; by destruct l'; rewrite drop_last by lia|].
  rewrite (drop_last l n Hl) in E. rewrite E in Ei. apply app_inj_tail in Ei as [-> <-]. exists h'. split; [done|]. split.
  - unfold heap_ok. rewrite Hl'. rewrite E in Hh. apply heap_below_app in Hh; [done|lia].
  - destruct Hs as [Hp _]. by rewrite <- E.
Qed.

Theorem heap_Push_correct h x : heap_ok h ->
  heap_ok (heap_Push h x) /\ items (heap_Push h x) ≡ₚ x :: items h.
Proof.
  intros Hok. unfold heap_Push. rewrite Len_items, Push_items, length_app. cbn [length]. rewrite Nat.add_sub.
  set (n := length (items h)). assert (length (items (Push x h)) = S n) as Hl by (rewrite Push_items, length_app; cbn; lia).
  destruct (up_shuffles (S n) (Push x h) n ltac:(lia) ltac:(lia)) as [Hp _]. split.
  - unfold heap_ok. rewrite (Permutation_length Hp), Hl. apply up_loop_heap; try lia; rewrite Push_items.
    + split; intros c Hc.
      * intros Hne _. apply (proj2 (heap_below_app n (items h) [x] (le_n _)) Hok). lia.
      * intros Hpc. pose proof (par_lt c). lia.
    + intros c Hc Hpc. pose proof (par_lt c). lia.
  - rewrite Hp, Push_items. by rewrite Permutation_app_comm.
Qed.

Theorem heap_Pop_correct h : heap_ok h -> items h <> [] ->
  exists h', heap_Pop h = Some (items h !!! 0, h') /\ heap_ok h' /\ items h ≡ₚ (items h !!! 0) :: items h' /\
    Forall (le (items h !!! 0)) (items h).
Proof.
  intros Hok Hne. unfold heap_Pop. rewrite Len_items. destruct (length (items h)) as [|n] eqn:Hl; [by destruct (items h)|].
  rewrite Nat.sub_succ, Nat.sub_0_r. set (h1 := Swap 0 n h). unfold heap_ok in Hok. rewrite Hl in Hok.
  assert (items h1 = lswap 0 n (items h)) as E1 by (apply Swap_items; lia).
  assert (length (items h1) = S n) as Hl1 by (by rewrite E1, length_lswap).
  assert (items h1 !!! n = items h !!! 0) as E0.
  { rewrite E1, lswap_total by lia. case_decide; subst; [done|]. by rewrite decide_True. }
  assert (heap_below n (items (fst (down h1 0 n)))) as Hh.
  { unfold down. destruct (down_loop_heap n n h1 0) as [Hh _]; [lia|lia| |by intros ?; lia|by destruct (down_loop n h1 0 n)].
    split; intros c Hc; [|lia]. intros Hc0 Hp0. pose proof (par_lt c ltac:(lia)).
    rewrite E1, !lswap_total by lia. rewrite !decide_False by lia. apply Hok. lia. }
  pose proof (down_shuffles n h1 0 ltac:(lia)) as Hs. destruct (down h1 0 n) as [h2 mv]. cbn [fst] in *.
  destruct (pop_last n (items h1) h2 Hs Hl1 Hh) as (h' & Ep & Hok' & Hp). rewrite E0 in *.
  exists h'. split; [done|]. split; [done|]. split.
  - rewrite E1 in Hp. rewrite lswap_perm in Hp by lia. symmetry. etransitivity; [|exact Hp]. apply (Permutation_app_comm [_]).
  - apply Forall_lookup. intros k y Hy. pose proof (lookup_lt_Some _ _ _ Hy).
    pose proof (heap_root_min (S n) (items h) Hok k ltac:(lia)) as Hmin.
    by rewrite (list_lookup_total_correct _ _ _ Hy) in Hmin.
Qed.

Theorem heap_Remove_correct h i : heap_ok h -> i < length (items h) ->
  exists h', heap_Remove h i = Some (items h !!! i, h') /\ heap_ok h' /\ items h ≡ₚ (items h !!! i) :: items h'.
Proof.
  intros Hok Hi. unfold heap_Remove. rewrite Len_items. destruct (length (items h)) as [|n] eqn:Hl; [lia|].
  rewrite Nat.sub_succ, Nat.sub_0_r. unfold heap_ok in Hok. rewrite Hl in Hok.
  assert (forall h1 h2, items h1 ≡ₚ items h -> length (items h1) = S n -> items h1 !!! n = items h !!! i ->
    shuffled n (items h1) h2 -> heap_below n (items h2) ->
    exists h', Pop h2 = Some (items h !!! i, h') /\ heap_ok h' /\ items h ≡ₚ (items h !!! i) :: items h') as Hpop.
  { intros h1 h2 Hp1 Hl1 E1 Hs Hh. destruct (pop_last n (items h1) h2 Hs Hl1 Hh) as (h' & Ep & Hok' & Hp).
    rewrite E1 in *. exists h'. split; [done|]. split; [done|].
    etransitivity; [symmetry; exact Hp1|]. symmetry. etransitivity; [|exact Hp]. apply (Permutation_app_comm [_]). }
  destruct (Nat.eqb_spec n i) as [->|Hne].
  { apply (Hpop h h); try done. intros c Hc. apply Hok. lia. }
  set (h1 := Swap i n h). assert (items h1 = lswap i n (items h)) as E1 by (apply Swap_items; lia).
  assert (length (items h1) = S n) as Hl1 by (by rewrite E1, length_lswap).
  assert (items h1 !!! n = items h !!! i) as E0.
  { rewrite E1, lswap_total by lia. rewrite decide_False by lia. by rewrite decide_True. }
  assert (items h1 ≡ₚ items h) as Hp1 by (rewrite E1; by rewrite lswap_perm by lia).
  assert (heap_hole n i (items h1)) as Hh.
  { split; intros c Hc.
    - intros Hci Hpi. pose proof (par_lt c ltac:(lia)). rewrite E1, !lswap_total by lia.
      rewrite !decide_False by lia. apply Hok. lia.
    - intros Hpi Hpos. pose proof (par_lt c ltac:(lia)). pose proof (par_lt i Hpos).
      rewrite E1, !lswap_total by lia. rewrite !decide_False by lia.
      etransitivity; [apply Hok; lia|]. rewrite <- Hpi. apply Hok. lia. }
  pose proof (down_hole n h1 i ltac:(lia) ltac:(lia) Hh) as Hd. pose proof (down_shuffles n h1 i ltac:(lia)) as Hs.
  destruct (down h1 i n) as [h2 mv]. cbn [fst snd] in *. destruct mv.
  - by apply (Hpop h1 h2).
  - destruct Hd as [-> Hb]. apply (Hpop h1 (up h1 i)); try done; [apply up_shuffles; lia|].
    apply up_loop_heap; try done; lia.
Qed.

(** A property kept by exchanges, [Push] and [Pop] is kept by the operations. *)
Lemma heap_Push_keeps (P : H -> Prop) h x :
  (forall h i j, P h -> i < length (items h) -> j < length (items h) -> P (Swap i j h)) ->
  P (Push x h) -> P (heap_Push h x).
Proof.
  intros Hs HP. unfold heap_Push, up. rewrite Len_items.
  assert (length (items (Push x h)) <> 0) by (rewrite Push_items, length_app; cbn; lia).
  apply (up_loop_keeps P (length (items (Push x h))) (length (items (Push x h)))); try done; [|lia].
  intros h' i j HP' Hl Hij. apply Hs; [done|lia..].
Qed.

Lemma heap_Pop_keeps (P : H -> Prop) h : items h <> [] ->
  (forall h i j, P h -> i < length (items h) -> j < length (items h) -> P (Swap i j h)) ->
  P h -> exists h1, P h1 /\ heap_Pop h = Pop h1 /\ items h1 <> [].
Proof.
  intros Hne Hs HP. unfold heap_Pop, down. rewrite Len_items. destruct (length (items h)) as [|n] eqn:Hl; [by destruct (items h)|].
  rewrite Nat.sub_succ, Nat.sub_0_r.
  destruct (down_loop_keeps P n (S n) ltac:(lia) ltac:(intros h' i j HP' Hl' Hij; apply Hs; [done|lia..]) n (Swap 0 n h) 0 n)
    as [HP1 Hl1]; [apply Hs; [done|lia..]|rewrite Swap_items, length_lswap; lia|lia|].
  destruct (down_loop n (Swap 0 n h) 0 n) as [h1 i1]. cbn [fst] in *. exists h1. split; [done|]. split; [done|].
  by destruct (items h1).
Qed.

Lemma heap_Remove_keeps (P : H -> Prop) h i : i < length (items h) ->
  (forall h i j, P h -> i < length (items h) -> j < length (items h) -> P (Swap i j h)) ->
  P h -> exists h1, P h1 /\ heap_Remove h i = Pop h1 /\ items h1 <> [].
Proof.
  intros Hi Hs HP. unfold heap_Remove, down. rewrite Len_items. destruct (length (items h)) as [|n] eqn:Hl; [lia|].
  rewrite Nat.sub_succ, Nat.sub_0_r. destruct (Nat.eqb_spec n i) as [->|Hne].
  { exists h. split; [done|]. split; [done|]. by destruct (items h). }
  destruct (down_loop_keeps P n (S n) ltac:(lia) ltac:(intros h' k j HP' Hl' Hij; apply Hs; [done|lia..]) n (Swap i n h) i n)
    as [HP1 Hl1]; [apply Hs; [done|lia..]|rewrite Swap_items, length_lswap; lia|lia|].
  destruct (down_loop n (Swap i n h) i n) as [h1 i1]. cbn [fst] in *. destruct (i <? i1).
  - exists h1. split; [done|]. split; [done|]. by destruct (items h1).
  - destruct (up_loop_keeps P n (S n) ltac:(lia) ltac:(intros h' k j HP' Hl' Hij; apply Hs; [done|lia..]) (S i) h1 i)
      as [HP2 Hl2]; [done|done|lia|].
    exists (up h1 i). split; [done|]. split; [done|]. unfold up. by destruct (items (up_loop (S i) h1 i)).
Qed.
End correctness.

(** ** The priority queue of the leaky bucket *)

Open Scope Z_scope.

(** [pqToken]: the pointer is [pt_id]; the [index] field, which the owner of the
    token reads through its own pointer, is kept beside the slice. *)
Record pqToken := mkTok { pt_id : nat; priority : Z; arrival : Z }.

#[export] Instance pqToken_eq_dec : EqDecision pqToken.
Proof. solve_decision. Defined.
#[export] Instance pqToken_inhabited : Inhabited pqToken := populate (mkTok 0 0 0).

Record priorityQueue := mkPQ { slice : list pqToken; index : gmap nat Z }.

Definition empty_pq : priorityQueue := mkPQ [] ∅.

(** Higher priority first, earlier arrival first within a level. *)
Definition tok_before (a b : pqToken) : bool :=
  if priority a =? priority b then arrival a <? arrival b else priority b <? priority a.

Definition pq_Less (pq : priorityQueue) (i j : nat) : bool :=
  match slice pq !! i, slice pq !! j with
  | Some a, Some b => tok_before a b
  | _, _ => false
  end.

Definition pq_Swap (i j : nat) (pq : priorityQueue) : priorityQueue :=
  match slice pq !! i, slice pq !! j with
  | Some a, Some b =>
      mkPQ (lswap i j (slice pq)) (<[pt_id a := Z.of_nat j]> (<[pt_id b := Z.of_nat i]> (index pq)))
  | _, _ => pq
  end.

Definition pq_Push (t : pqToken) (pq : priorityQueue) : priorityQueue :=
  mkPQ (slice pq ++ [t]) (<[pt_id t := zlength (slice pq)]> (index pq)).

Definition pq_Pop (pq : priorityQueue) : option (pqToken * priorityQueue) :=
  t ← last (slice pq);
  Some (t, mkPQ (removelast (slice pq)) (<[pt_id t := -1]> (index pq))).

#[export] Instance pq_interface : HeapInterface priorityQueue pqToken := {
  Len pq := length (slice pq);
  Less := pq_Less;
  Swap := pq_Swap;
  Push := pq_Push;
  Pop := pq_Pop;
}.

#[export] Instance pq_laws : HeapLaws priorityQueue pqToken.
Proof.
  refine {| items := slice; before := tok_before |}; cbn [Len Less Swap Push Pop pq_interface].
  - intros a b. unfold tok_before. rewrite (Z.eqb_sym (priority b)). repeat case_cmp; lia.
  - intros a b c. unfold tok_before. repeat case_cmp; lia.
  - done.
  - intros pq i j Hi Hj. unfold pq_Less. by rewrite !(list_lookup_lookup_total_lt (slice pq)) by done.
  - intros pq i j Hi Hj. unfold pq_Swap. by rewrite !(list_lookup_lookup_total_lt (slice pq)) by done.
  - done.
  - intros pq Hne. unfold pq_Pop. destruct (slice pq) as [|t l] eqn:E using rev_ind; [done|].
    rewrite last_snoc, removelast_last. cbn. eauto.
Defined.

(** Distinct tokens, each with its position in its [index] field. *)
Definition pq_wf (pq : priorityQueue) : Prop :=
  NoDup (pt_id <$> slice pq) /\
  (forall k t, slice pq !! k = Some t -> index pq !! pt_id t = Some (Z.of_nat k)) /\
  (forall id k, index pq !! id = Some k -> k = -1 \/ exists t, slice pq !! Z.to_nat k = Some t /\ pt_id t = id).

Lemma pq_Swap_wf pq i j : pq_wf pq -> (i < length (slice pq))%nat -> (j < length (slice pq))%nat ->
  pq_wf (pq_Swap i j pq).
Proof.
  intros (Hnd & Hix & Hrev) Hi Hj. unfold pq_Swap.
  destruct (lookup_lt_is_Some_2 _ _ Hi) as [a Ha]. destruct (lookup_lt_is_Some_2 _ _ Hj) as [b Hb]. rewrite Ha, Hb.
  assert (forall k t, slice pq !! k = Some t -> pt_id t = pt_id a -> k = i) as Hia.
  { intros k t Hk E. apply (NoDup_lookup _ k i (pt_id a) Hnd); rewrite list_lookup_fmap; [rewrite Hk|rewrite Ha]; cbn; congruence. }
  assert (forall k t, slice pq !! k = Some t -> pt_id t = pt_id b -> k = j) as Hjb.
  { intros k t Hk E. apply (NoDup_lookup _ k j (pt_id b) Hnd); rewrite list_lookup_fmap; [rewrite Hk|rewrite Hb]; cbn; congruence. }
  unfold pq_wf. cbn [slice index]. split; [|split].
  - by rewrite lswap_perm.
  - intros k t. rewrite lswap_lookup, !lookup_insert by done. repeat case_decide; intros Hk; simplify_eq; auto.
    + by rewrite (Hjb i a).
    + exfalso. naive_solver.
    + exfalso. naive_solver.
  - intros id k. rewrite !lookup_insert. repeat case_decide; intros Hk; simplify_eq.
    + right. exists a. rewrite Nat2Z.id, lswap_lookup by done. split; [|done]. repeat case_decide; simplify_eq; done.
    + right. exists b. rewrite Nat2Z.id, lswap_lookup by done. split; [|done]. by rewrite decide_True.
    + destruct (Hrev id k Hk) as [?|(t & Ht & E)]; [by left|right]. exists t. split; [|done].
      rewrite lswap_lookup by done. repeat case_decide; subst; naive_solver.
Qed.

Lemma pq_Push_wf pq t : pq_wf pq -> pt_id t ∉ pt_id <$> slice pq -> pq_wf (pq_Push t pq).
Proof.
  intros (Hnd & Hix & Hrev) Hf. unfold pq_wf, pq_Push. cbn [slice index]. split; [|split].
  - rewrite fmap_app. apply NoDup_app. split; [done|]. split; [|apply NoDup_singleton].
    cbn. intros x Hx. rewrite list_elem_of_singleton. by intros ->.
  - intros k u Hk. apply lookup_app_Some in Hk as [Hk|[Hle Hk]].
    + rewrite lookup_insert_ne; [by apply Hix|]. intros E. apply Hf. rewrite E.
      apply (list_elem_of_fmap_2 pt_id), list_elem_of_lookup. eauto.
    + apply list_lookup_singleton_Some in Hk as [Hk <-]. rewrite lookup_insert_eq. unfold zlength. do 2 f_equal. lia.
  - intros id k. rewrite lookup_insert. case_decide as E; intros Hk; simplify_eq.
    + right. exists t. unfold zlength. rewrite Nat2Z.id. split; [|done]. by rewrite list_lookup_middle.
    + destruct (Hrev id k Hk) as [?|(u & Hu & E')]; [by left|right]. exists u. split; [|done]. by apply lookup_app_l_Some.
Qed.

(** [Pop] leaves [-1] in the [index] of the token it returns. *)
Lemma pq_Pop_wf pq : pq_wf pq -> slice pq <> [] ->
  exists t pq', pq_Pop pq = Some (t, pq') /\ pq_wf pq' /\ slice pq = slice pq' ++ [t] /\ index pq' !! pt_id t = Some (-1).
Proof.
  intros (Hnd & Hix & Hrev) Hne. unfold pq_Pop. destruct (slice pq) as [|t l] using rev_ind; [done|clear Hne].
  rewrite last_snoc, removelast_last. cbn. eexists _, _. split; [done|]. cbn [slice index].
  split; [|split; [done|by rewrite lookup_insert_eq]]. rewrite fmap_app in Hnd. apply NoDup_app in Hnd as (Hnd & Hnot & _).
  unfold pq_wf. cbn [slice index]. split; [done|]. split.
  - intros k u Hk. rewrite lookup_insert_ne; [apply Hix; by apply lookup_app_l_Some|]. intros E.
    apply (Hnot (pt_id u)); [|rewrite <- E; cbn; left]. apply (list_elem_of_fmap_2 pt_id), list_elem_of_lookup. eauto.
  - intros id k. rewrite lookup_insert. case_decide as E; intros Hk; simplify_eq; [by left|].
    destruct (Hrev id k Hk) as [?|(u & Hu & E')]; [by left|right]. exists u. split; [|done].
    apply lookup_app_Some in Hu as [Hu|[_ Hu]]; [done|]. apply list_lookup_singleton_Some in Hu as [_ <-]. done.
Qed.

(** The invariant of a queue, and the operations on it. *)
Definition pq_ok (pq : priorityQueue) : Prop := pq_wf pq /\ heap_ok pq.

Lemma empty_pq_ok : pq_ok empty_pq.
Proof. split; [|intros c Hc; cbn in Hc; lia]. split; [apply NoDup_nil_2|]. by split. Qed.

Lemma pq_heap_Push pq t : pq_ok pq -> pt_id t ∉ pt_id <$> slice pq ->
  pq_ok (heap_Push pq t) /\ slice (heap_Push pq t) ≡ₚ t :: slice pq.
Proof.
  intros [Hw Hh] Hf. destruct (heap_Push_correct pq t Hh) as [Hh' Hp]. split; [|done]. split; [|done].
  apply (heap_Push_keeps (A := pqToken) pq_wf); [intros; by apply pq_Swap_wf|by apply pq_Push_wf].
Qed.

Definition heapPop (pq : priorityQueue) : option (pqToken * priorityQueue) := heap_Pop pq.

(** The top of the heap: no token of the queue has a higher priority, none of the
    same priority arrived earlier. *)
Lemma heapPop_spec pq : pq_ok pq -> slice pq <> [] ->
  exists t pq', heapPop pq = Some (t, pq') /\ pq_ok pq' /\ slice pq ≡ₚ t :: slice pq' /\
    index pq' !! pt_id t = Some (-1) /\ Forall (fun u => tok_before u t = false) (slice pq).
Proof.
  intros [Hw Hh] Hne. change (items pq <> []) in Hne. destruct (heap_Pop_correct pq Hh Hne) as (pq' & E & Hh' & Hp & Hmin).
  destruct (heap_Pop_keeps (A := pqToken) pq_wf pq Hne ltac:(intros; by apply pq_Swap_wf) Hw) as (pq1 & Hw1 & E1 & Hne1).
  destruct (pq_Pop_wf pq1 Hw1 Hne1) as (t & pq2 & E2 & Hw2 & _ & Hix).
  unfold heapPop. rewrite E in E1. cbn [Pop pq_interface] in E1. rewrite E2 in E1. simplify_eq.
  do 2 eexists. split; [exact E|]. split; [done|]. done.
Qed.

(** [t.index >= 0 && t.index < q.pq.Len() && ( *q.pq)[t.index] == t]. *)
Definition parked (pq : priorityQueue) (id : nat) : bool :=
  match index pq !! id with
  | Some k => (0 <=? k) && (k <? zlength (slice pq)) && bool_decide (pt_id <$> slice pq !! Z.to_nat k = Some id)
  | None => false
  end.

Lemma parked_spec pq id : pq_wf pq -> parked pq id = true <-> id ∈ pt_id <$> slice pq.
Proof.
  intros (Hnd & Hix & Hrev). unfold parked. rewrite list_elem_of_fmap. split.
  - destruct (index pq !! id) as [k|]; [|done]. rewrite !andb_true_iff, bool_decide_eq_true. intros [_ Hk].
    apply fmap_Some in Hk as (t & Hk & ->). exists t. split; [done|]. apply list_elem_of_lookup. eauto.
  - intros (t & -> & Ht). apply list_elem_of_lookup in Ht as [k Hk]. rewrite (Hix k t Hk), Nat2Z.id.
    pose proof (lookup_lt_Some _ _ _ Hk). unfold zlength. rewrite bool_decide_true by (by rewrite Hk).
    rewrite (proj2 (Z.leb_le _ _)), (proj2 (Z.ltb_lt _ _)) by lia. done.
Qed.

(** [heap.Remove(q.pq, t.index)]. *)
Definition pq_remove (pq : priorityQueue) (id : nat) : priorityQueue :=
  match index pq !! id with
  | Some k => match heap_Remove pq (Z.to_nat k) with Some (_, pq') => pq' | None => pq end
  | None => pq
  end.

Lemma pq_remove_spec pq id : pq_ok pq -> id ∈ pt_id <$> slice pq ->
  pq_ok (pq_remove pq id) /\ exists t, pt_id t = id /\ slice pq ≡ₚ t :: slice (pq_remove pq id).
Proof.
  intros [Hw Hh] Ht. pose proof Hw as (Hnd & Hix & _). apply list_elem_of_fmap in Ht as (t & -> & Ht).
  apply list_elem_of_lookup in Ht as [k Hk].
  pose proof (lookup_lt_Some _ _ _ Hk) as Hlt. unfold pq_remove. rewrite (Hix k t Hk), Nat2Z.id.
  change (k < length (items pq))%nat in Hlt. destruct (heap_Remove_correct pq k Hh Hlt) as (pq' & E & Hh' & Hp).
  destruct (heap_Remove_keeps (A := pqToken) pq_wf pq k Hlt ltac:(intros; by apply pq_Swap_wf) Hw) as (pq1 & Hw1 & E1 & Hne1).
  destruct (pq_Pop_wf pq1 Hw1 Hne1) as (u & pq2 & E2 & Hw2 & _).
  rewrite E in E1 |- *. cbn [Pop pq_interface] in E1. rewrite E2 in E1. simplify_eq.
  cbn [items pq_laws] in Hp. rewrite (list_lookup_total_correct _ _ _ Hk) in Hp. split; [done|]. by exists t.
Qed.
