(* ===== verification/LeakyBucket.v ===== *)
(** * The leaky bucket ([ratelimit/leakybucket/leakybucket.go], [options.go],
      [priority.go]).

    Callers park tokens in the queue of their key, a buffered channel or the
    priority heap, and wait for an answer; one goroutine per queue takes a
    token per tick.  Any number of calls, leakers, resets, sweeps and
    cancellations interleave; a step is one critical section, channel operation
    or map access of one goroutine. *)

From Stdlib Require Import Floats.
From stdpp Require Import relations.
From S2P Require Import Prelude Float64 Ratelimit Heap.
Open Scope Z_scope.

Definition algorithmName : string := "leaky_bucket".

(** ** State *)

(** A token is the [k]-th of call [i]; its result channel and its context are
    those of the call. *)
Notation token := (nat * nat)%type.

(** The copies of [capacity] and [leakRate] in [keyQueue] are never read. *)
Record keyQueue := mkQueue {
  ch : list token;
  pq : option priorityQueue;
  nextSeq : Z;
  lastAccess : time;
}.

Record LeakyBucket := mkLB {
  capacity : Z;
  leakRate : f64;
  idleClean : duration;
  onDecision : bool;
}.

Definition WithOnDecision (lb : LeakyBucket) : LeakyBucket :=
  mkLB (capacity lb) (leakRate lb) (idleClean lb) true.

Definition WithIdleCleanup (d : duration) (lb : LeakyBucket) : LeakyBucket :=
  mkLB (capacity lb) (leakRate lb) d (onDecision lb).

Definition New (capacity : Z) (leakRate : f64) (opts : list (LeakyBucket -> LeakyBucket))
  : outcome LeakyBucket :=
  if capacity <=? 0 then Panic "leakybucket.New: capacity must be > 0"
  else if PrimFloat.leb leakRate zero then Panic "leakybucket.New: leakRate must be > 0"
  else Ok (foldl (fun lb opt => opt lb) (mkLB capacity leakRate (5 * Minute) false) opts).

Definition pq_tokens (q : keyQueue) : list pqToken :=
  match pq q with Some p => slice p | None => [] end.

Definition depthLocked (q : keyQueue) : Z := zlength (ch q) + zlength (pq_tokens q).

Definition with_ch (l : list token) (q : keyQueue) : keyQueue :=
  mkQueue l (pq q) (nextSeq q) (lastAccess q).
Definition with_pq (p : option priorityQueue) (q : keyQueue) : keyQueue :=
  mkQueue (ch q) p (nextSeq q) (lastAccess q).
Definition touch (now : time) (q : keyQueue) : keyQueue :=
  mkQueue (ch q) (pq q) (nextSeq q) now.

Definition ensurePQ (q : keyQueue) : keyQueue :=
  match pq q with Some _ => q | None => with_pq (Some empty_pq) q end.

(** The loop of [popReadyPriorityLocked]: cancelled waiters are dropped. *)
Fixpoint pop_ready (fuel : nat) (err : nat -> bool) (p : priorityQueue) : option pqToken * priorityQueue :=
  match fuel with
  | O => (None, p)
  | S fuel' =>
      match slice p with
      | [] => (None, p)
      | _ =>
          match heapPop p with
          | None => (None, p)
          | Some (t, p') => if err (pt_id t) then pop_ready fuel' err p' else (Some t, p')
          end
      end
  end.

Definition popReadyPriorityLocked (err : nat -> bool) (q : keyQueue) : option pqToken * keyQueue :=
  match pq q with
  | None => (None, q)
  | Some p =>
      let '(t, p') := pop_ready (length (slice p)) err p in (t, with_pq (Some p') q)
  end.

(** ** Results *)

Definition interval (lb : LeakyBucket) : duration := f64_to_int64 (f64_of_Z Second / leakRate lb)%float.

Definition drain_time (lb : LeakyBucket) (n : Z) : duration :=
  f64_to_int64 (f64_of_Z n / leakRate lb * f64_of_Z Second)%float.

Definition estimatedWait (lb : LeakyBucket) (q : keyQueue) : duration :=
  if zlength (ch q) =? 0 then 0 else drain_time lb (zlength (ch q)).

Definition denied (lb : LeakyBucket) (retryAfter : duration) : Result :=
  mkResult false (capacity lb) 0 0 retryAfter algorithmName ∅.

Definition granted (lb : LeakyBucket) (remaining : Z) : Result :=
  mkResult true (capacity lb) (if remaining <? 0 then 0 else remaining) 0 0 algorithmName ∅.

(** ** Goroutines *)

Inductive kind := KAllow | KAllowN (n : Z) | KAllowP (prio : Z) | KReset.

Inductive pc :=
| PStart                              (* validation, getOrCreate *)
| PEnq (q : nat)                      (* capacity check and enqueue under q.mu *)
| PWait (q k : nat)                   (* select on the k-th result and ctx.Done *)
| PCancelP (q : nat)                  (* a cancelled priority waiter under q.mu *)
| PEstimate (q : nat)                 (* estimatedWait *)
| PRemaining (q : nat)                (* len(q.ch) of a granted batch *)
| PRecord (res : Result)              (* the deferred calls *)
| PDone (res : Result)
| RDrain (q : nat)                    (* Reset: receive from q.ch *)
| RDeny (q : nat) (t : token)         (* Reset: answer t *)
| RDrainP (q : nat)                   (* Reset: empty the heap under q.mu *)
| RSendP (ts : list token)            (* Reset: answer them *)
| RDelete                             (* queues.Delete *)
| RDone.

Record call := mkCall {
  c_kind : kind;
  c_key : string;
  c_start : time;
  c_ctx : bool;                       (* ctx.Err() != nil *)
  c_pc : pc;
}.

Inductive lpc :=
| LStart
| LSelect
| LTick                               (* lastAccess and the heap, under q.mu *)
| LSendP (t : token) (res : Result)
| LRecv                               (* non-blocking receive from q.ch *)
| LTouch (t : token)
| LDecide (t : token)                 (* t.ctx.Err() *)
| LLen (t : token)                    (* len(q.ch) *)
| LSend (t : token) (res : Result)
| LCheck                              (* queues.Get(key) *)
| LDrain
| LDeny (t : token)
| LDrainP
| LDrainSend (ts : list token)
| LExit
| LPanic.

(** [l_ticks] and [l_grants] count the ticks received and the requests granted. *)
Record leaker := mkLeaker {
  l_key : string;
  l_start : time;
  l_ticks : Z;
  l_grants : Z;
  l_pc : lpc;
}.

(** Queue [q] and its leaker have the same index; [results] holds what has been
    sent on each result channel. *)
Record system := mkSys {
  s_lb : LeakyBucket;
  s_now : time;
  s_done : bool;
  s_map : gmap string nat;
  s_queues : list keyQueue;
  s_leakers : list leaker;
  s_calls : list call;
  s_results : gmap token Result;
  s_events : list event;
}.

Definition set_queue (q : nat) (v : keyQueue) (s : system) : system :=
  mkSys (s_lb s) (s_now s) (s_done s) (s_map s) (<[q := v]> (s_queues s)) (s_leakers s) (s_calls s)
    (s_results s) (s_events s).
Definition set_map (m : gmap string nat) (s : system) : system :=
  mkSys (s_lb s) (s_now s) (s_done s) m (s_queues s) (s_leakers s) (s_calls s) (s_results s) (s_events s).
Definition set_call (i : nat) (c : call) (s : system) : system :=
  mkSys (s_lb s) (s_now s) (s_done s) (s_map s) (s_queues s) (s_leakers s) (<[i := c]> (s_calls s))
    (s_results s) (s_events s).
Definition set_leaker (q : nat) (l : leaker) (s : system) : system :=
  mkSys (s_lb s) (s_now s) (s_done s) (s_map s) (s_queues s) (<[q := l]> (s_leakers s)) (s_calls s)
    (s_results s) (s_events s).
Definition set_results (m : gmap token Result) (s : system) : system :=
  mkSys (s_lb s) (s_now s) (s_done s) (s_map s) (s_queues s) (s_leakers s) (s_calls s) m (s_events s).
Definition set_now (t : time) (s : system) : system :=
  mkSys (s_lb s) t (s_done s) (s_map s) (s_queues s) (s_leakers s) (s_calls s) (s_results s) (s_events s).
Definition add_events (es : list event) (s : system) : system :=
  mkSys (s_lb s) (s_now s) (s_done s) (s_map s) (s_queues s) (s_leakers s) (s_calls s) (s_results s)
    (s_events s ++ es).

Definition at_pc (c : call) (p : pc) : call := mkCall (c_kind c) (c_key c) (c_start c) (c_ctx c) p.
Definition at_lpc (l : leaker) (p : lpc) : leaker :=
  mkLeaker (l_key l) (l_start l) (l_ticks l) (l_grants l) p.

Definition ctx_err (s : system) (i : nat) : bool :=
  match s_calls s !! i with Some c => c_ctx c | None => false end.

(** [t.result <- r] on a channel of capacity one. *)
Definition send (t : token) (r : Result) (s : system) : option system :=
  match s_results s !! t with
  | None => Some (set_results (<[t := r]> (s_results s)) s)
  | Some _ => None
  end.

Definition getOrCreate (key : string) (s : system) : nat * system :=
  match s_map s !! key with
  | Some q => (q, s)
  | None =>
      let q := length (s_queues s) in
      (q, mkSys (s_lb s) (s_now s) (s_done s) (<[key := q]> (s_map s))
            (s_queues s ++ [mkQueue [] None 0 (s_now s)])
            (s_leakers s ++ [mkLeaker key (s_now s) 0 0 LStart])
            (s_calls s) (s_results s) (s_events s))
  end.

(** ** Calls *)

(** The number of tokens a call parks. *)
Definition batch (k : kind) : Z := match k with KAllowN n => n | KReset => 0 | _ => 1 end.

Definition batch_tokens (i : nat) (n : Z) : list token := map (fun k => (i, k)) (seq 0 (Z.to_nat n)).

(** [nextSeq] is a [uint64]. *)
Definition seq_succ (z : Z) : Z := (z + 1) mod (2 * two63).

(** Validation and the map access of [allow1], [AllowN], [allowP1]; the first
    step of [Reset]. *)
Definition enter (i : nat) (c : call) (s : system) : system :=
  let c := mkCall (c_kind c) (c_key c) (s_now s) (c_ctx c) (c_pc c) in
  let start :=
    let '(q, s') := getOrCreate (c_key c) s in set_call i (at_pc c (PEnq q)) s' in
  match c_kind c with
  | KReset =>
      match s_map s !! c_key c with
      | None => set_call i (at_pc c RDone) s
      | Some q => set_call i (at_pc c (RDrain q)) s
      end
  | k =>
      match ValidateKey (c_key c) with
      | Some _ => set_call i (at_pc c (PRecord (denied_zero algorithmName))) s
      | None =>
          match k with
          | KAllowN n =>
              match ValidateN n with
              | Some _ => set_call i (at_pc c (PRecord (denied_zero algorithmName))) s
              | None =>
                  if capacity (s_lb s) <? n then set_call i (at_pc c (PRecord (denied (s_lb s) 0))) s
                  else start
              end
          | _ => start
          end
      end
  end.

(** A priority waiter joins the heap of its queue. *)
Definition push_waiter (i : nat) (prio : Z) (v : keyQueue) : keyQueue :=
  let v := ensurePQ v in
  mkQueue (ch v) (p ← pq v; Some (heap_Push p (mkTok i prio (nextSeq v)))) (seq_succ (nextSeq v)) (lastAccess v).

(** A cancelled waiter leaves the heap, if it is still in it. *)
Definition cancel_waiter (i : nat) (v : keyQueue) : keyQueue :=
  match pq v with
  | Some p => if parked p i then with_pq (Some (pq_remove p i)) v else v
  | None => v
  end.

(** The critical section of [allow1], [AllowN] and [allowP1]. *)
Definition enqueue (i : nat) (c : call) (q : nat) (v : keyQueue) (s : system) : system :=
  let lb := s_lb s in
  if capacity lb - depthLocked v <? batch (c_kind c) then
    set_call i (at_pc c (PRecord (denied lb (drain_time lb (depthLocked v + 1))))) s
  else
    let v' :=
      match c_kind c with
      | KAllowP prio => push_waiter i prio v
      | k => with_ch (ch v ++ batch_tokens i (batch k)) v
      end in
    set_call i (at_pc c (PWait q 0)) (set_queue q v' s).

(** Both cases of the [select]; [recv] picks one. *)
Definition await (i : nat) (c : call) (q k : nat) (recv : bool) (s : system) : option system :=
  if recv then
    r ← s_results s !! (i, k);
    Some (set_call i (at_pc c
      (match c_kind c with
       | KAllowN n =>
           if n =? 1 then PRecord r
           else if negb (Allowed r) then PRecord r
           else if Z.of_nat (S k) <? n then PWait q (S k)
           else PRemaining q
       | _ => PRecord r
       end)) s)
  else if c_ctx c then
    Some (set_call i (at_pc c (match c_kind c with KAllowP _ => PCancelP q | _ => PEstimate q end)) s)
  else None.

(** Every waiter popped off the heap, first to last. *)
Fixpoint pop_all (fuel : nat) (p : priorityQueue) : list nat * priorityQueue :=
  match fuel with
  | O => ([], p)
  | S fuel' =>
      match slice p with
      | [] => ([], p)
      | _ =>
          match heapPop p with
          | None => ([], p)
          | Some (t, p') => let '(l, p'') := pop_all fuel' p' in (pt_id t :: l, p'')
          end
      end
  end.

(** The critical section of [drainPriority]. *)
Definition drain_heap (v : keyQueue) : list token * keyQueue :=
  match pq v with
  | None => ([], v)
  | Some p =>
      let '(l, p') := pop_all (length (slice p)) p in (map (fun i => (i, 0%nat)) l, with_pq (Some p') v)
  end.

(** The deferred calls. *)
Definition finish (i : nat) (c : call) (res : Result) (s : system) : system :=
  let res := match c_kind c with KAllowN n => if n =? 1 then res else setCost res (AInt n) | _ => res end in
  set_call i (at_pc c (PDone res))
    (add_events (record_decision algorithmName res (c_start c) (s_now s) ++
                 (if onDecision (s_lb s) then [OnDecision (c_key c) res] else [])) s).

(** [Reset] after it has found the queue. *)
Definition reset_step (i : nat) (c : call) (s : system) : option system :=
  let lb := s_lb s in
  match c_pc c with
  | RDrain q =>
      v ← s_queues s !! q;
      Some (match ch v with
            | t :: l => set_call i (at_pc c (RDeny q t)) (set_queue q (with_ch l v) s)
            | [] => set_call i (at_pc c (RDrainP q)) s
            end)
  | RDeny q t => s' ← send t (denied lb 0) s; Some (set_call i (at_pc c (RDrain q)) s')
  | RDrainP q =>
      v ← s_queues s !! q;
      let '(ts, v') := drain_heap v in
      Some (set_call i (at_pc c (RSendP ts)) (set_queue q v' s))
  | RSendP (t :: ts) => s' ← send t (denied lb 0) s; Some (set_call i (at_pc c (RSendP ts)) s')
  | RSendP [] => Some (set_call i (at_pc c RDelete) s)
  | RDelete => Some (set_call i (at_pc c RDone) (set_map (delete (c_key c) (s_map s)) s))
  | RDone => None
  | _ => None
  end.

Definition call_step (i : nat) (recv : bool) (s : system) : option system :=
  c ← s_calls s !! i;
  let lb := s_lb s in
  match c_pc c with
  | PStart => Some (enter i c s)
  | PEnq q => v ← s_queues s !! q; Some (enqueue i c q v s)
  | PWait q k => await i c q k recv s
  | PCancelP q =>
      v ← s_queues s !! q;
      Some (set_call i (at_pc c (PEstimate q)) (set_queue q (cancel_waiter i v) s))
  | PEstimate q => v ← s_queues s !! q; Some (set_call i (at_pc c (PRecord (denied lb (estimatedWait lb v)))) s)
  | PRemaining q =>
      v ← s_queues s !! q;
      Some (set_call i (at_pc c (PRecord (granted lb (capacity lb - zlength (ch v))))) s)
  | PRecord res => Some (finish i c res s)
  | PDone _ => None
  | _ => reset_step i c s
  end.

(** ** Leakers *)

Definition grant_leaker (l : leaker) (res : Result) (p : lpc) : leaker :=
  mkLeaker (l_key l) (l_start l) (l_ticks l) (if Allowed res then l_grants l + 1 else l_grants l) p.

(** [drainQueue], after [Close]. *)
Definition drain_step (q : nat) (l : leaker) (v : keyQueue) (s : system) : option system :=
  let lb := s_lb s in
  let go p := set_leaker q (at_lpc l p) in
  match l_pc l with
  | LDrain =>
      Some (match ch v with
            | t :: r => go (LDeny t) (set_queue q (with_ch r v) s)
            | [] => go LDrainP s
            end)
  | LDeny t => s' ← send t (denied lb 0) s; Some (go LDrain s')
  | LDrainP => let '(ts, v') := drain_heap v in Some (go (LDrainSend ts) (set_queue q v' s))
  | LDrainSend (t :: ts) => s' ← send t (denied lb 0) s; Some (go (LDrainSend ts) s')
  | LDrainSend [] => Some (go LExit s)
  | LExit | LPanic => None
  | _ => None
  end.

Definition leaker_step (q : nat) (tick : bool) (s : system) : option system :=
  l ← s_leakers s !! q;
  v ← s_queues s !! q;
  let lb := s_lb s in
  let go p := set_leaker q (at_lpc l p) in
  match l_pc l with
  | LStart =>
      Some (if PrimFloat.leb (leakRate lb) zero then go LExit s
            else if interval lb <=? 0 then go LPanic s      (* NewTicker *)
            else set_leaker q (mkLeaker (l_key l) (s_now s) 0 0 LSelect) s)
  | LSelect =>
      if tick then
        if (l_ticks l + 1) * interval lb <=? s_now s - l_start l
        then Some (set_leaker q (mkLeaker (l_key l) (l_start l) (l_ticks l + 1) (l_grants l) LTick) s)
        else None
      else if s_done s then Some (go LDrain s) else None
  | LTick =>
      let '(ot, v') := popReadyPriorityLocked (ctx_err s) (touch (s_now s) v) in
      Some (go (match ot with
                | Some t => LSendP (pt_id t, 0%nat) (granted lb (capacity lb - depthLocked v' - 1))
                | None => LRecv
                end) (set_queue q v' s))
  | LSendP t res | LSend t res => s' ← send t res s; Some (set_leaker q (grant_leaker l res LCheck) s')
  | LRecv =>
      Some (match ch v with
            | t :: r => go (LTouch t) (set_queue q (with_ch r v) s)
            | [] => go LSelect s
            end)
  | LTouch t => Some (go (LDecide t) (set_queue q (touch (s_now s) v) s))
  | LDecide t => Some (go (if ctx_err s (fst t) then LSend t (denied lb 0) else LLen t) s)
  | LLen t => Some (go (LSend t (granted lb (capacity lb - zlength (ch v) - 1))) s)
  | LCheck => Some (go (match s_map s !! l_key l with Some _ => LSelect | None => LExit end) s)
  | _ => drain_step q l v s
  end.

(** [Peek]: the state and the queue it creates; the channel is read again by
    [estimatedWait] after [q.mu] is released, here at the same instant. *)
Definition Peek (key : string) (s : system) : option (State * system) :=
  let '(q, s') := getOrCreate key s in
  v ← s_queues s' !! q;
  let lb := s_lb s in
  let remaining := capacity lb - depthLocked v in
  let remaining := if remaining <? 0 then 0 else remaining in
  Some (mkState key algorithmName (capacity lb) remaining
          (time_add (s_now s) (drain_time lb (capacity lb))) zero_time
          {[ "queue_depth" := AInt (depthLocked v); "queue_capacity" := AInt (capacity lb);
             "leak_rate_per_s" := AFloat (leakRate lb);
             "estimated_wait_ms" := AInt (Z.quot (estimatedWait lb v) Millisecond) ]}, s').

(** ** Sweeps, Close, cancellation *)

(** [cleanupLoop] on one key; the cutoff was computed from an earlier reading. *)
Definition sweep_key (key : string) (cutoff : time) (s : system) : option system :=
  if (0 <? idleClean (s_lb s)) && (cutoff <=? s_now s - idleClean (s_lb s)) then
    q ← s_map s !! key;
    v ← s_queues s !! q;
    if Before (lastAccess v) cutoff && (depthLocked v =? 0) then Some (set_map (delete key (s_map s)) s)
    else None
  else None.

Definition Close (s : system) : system :=
  mkSys (s_lb s) (s_now s) true (s_map s) (s_queues s) (s_leakers s) (s_calls s) (s_results s) (s_events s).

Definition cancel (i : nat) (s : system) : option system :=
  c ← s_calls s !! i;
  Some (set_call i (mkCall (c_kind c) (c_key c) (c_start c) true (c_pc c)) s).

Inductive action :=
| ACall (i : nat) (recv : bool)
| ALeak (q : nat) (tick : bool)
| ASweep (key : string) (cutoff : time)
| APeek (key : string)
| AClose
| ACancel (i : nat).

Definition act (a : action) (s : system) : option system :=
  match a with
  | ACall i recv => call_step i recv s
  | ALeak q tick => leaker_step q tick s
  | ASweep key cutoff => sweep_key key cutoff s
  | APeek key => snd <$> Peek key s
  | AClose => Some (Close s)
  | ACancel i => cancel i s
  end.

Inductive step : system -> system -> Prop :=
| do_act a now s s' : s_now s <= now -> act a (set_now now s) = Some s' -> step s s'.

Definition fresh (k : kind * string) : call := mkCall k.1 k.2 0 false PStart.

Definition init (lb : LeakyBucket) (now : time) (cs : list (kind * string)) : system :=
  mkSys lb now false ∅ [] [] (map fresh cs) ∅ [].

Definition reachable (lb : LeakyBucket) (s : system) : Prop :=
  exists now cs, rtc step (init lb now cs) s.

Fixpoint run_schedule (s : system) (sched : list (action * time)) : option system :=
  match sched with
  | [] => Some s
  | (a, now) :: sched' => if s_now s <=? now then s' ← act a (set_now now s); run_schedule s' sched' else None
  end.

Lemma leaky_run_steps s sched s' : run_schedule s sched = Some s' -> rtc step s s'.
Proof.
  revert s. induction sched as [|[a now] sched IH]; intros s Hr; cbn [run_schedule] in Hr.
  - simplify_eq. apply rtc_refl.
  - destruct (Z.leb_spec (s_now s) now); [|done].
    destruct (act a (set_now now s)) as [s1|] eqn:E; [|done]. cbn in Hr.
    eapply rtc_l; [by econstructor|]. by apply IH.
Qed.

(** ** Waiting *)

(** [Wait] from the result of [Allow]. *)
Definition Wait (lb : LeakyBucket) (key : string) (res : Result) (ctxErr : bool) : option error :=
  match ValidateKey key with
  | Some e => Some (ESentinel e)
  | None =>
      if PrimFloat.leb (leakRate lb) zero then
        Some (RateLimitError algorithmName key (capacity lb) 0 ErrLimitExceeded)
      else if Allowed res then None
      else Some (RateLimitError algorithmName key (capacity lb) (RetryAfter res)
                   (if ctxErr then ErrContextDone else ErrLimitExceeded))
  end.

(** [WaitP] has the same text with [AllowP]. *)
Definition WaitP (lb : LeakyBucket) (key : string) (res : Result) (ctxErr : bool) : option error :=
  Wait lb key res ctxErr.

(** The loop of [WaitN]: the results of its [AllowN] calls, each with
    [ctx.Err() != nil] when it returns and the end of the [select] after it. *)
Fixpoint WaitN_loop (lb : LeakyBucket) (key : string) (turns : list (Result * bool * wake)) : wait_result :=
  match turns with
  | [] => Blocked
  | (res, ctxErr, w) :: turns' =>
      if Allowed res then Returned None
      else if ctxErr then
        Returned (Some (RateLimitError algorithmName key (capacity lb) (RetryAfter res) ErrContextDone))
      else
        let wait := if RetryAfter res <=? 0 then interval lb else RetryAfter res in
        match w with
        | CtxDone => Returned (Some (RateLimitError algorithmName key (capacity lb) wait ErrContextDone))
        | TimerFired _ => WaitN_loop lb key turns'
        end
  end.

Definition WaitN (lb : LeakyBucket) (key : string) (n : Z) (turns : list (Result * bool * wake)) : wait_result :=
  match ValidateKey key with
  | Some e => Returned (Some (ESentinel e))
  | None =>
      match ValidateN n with
      | Some e => Returned (Some (ESentinel e))
      | None =>
          if capacity lb <? n then
            Returned (Some (RateLimitError algorithmName key (capacity lb) 0 ErrLimitExceeded))
          else if PrimFloat.leb (leakRate lb) zero then
            Returned (Some (RateLimitError algorithmName key (capacity lb) 0 ErrLimitExceeded))
          else WaitN_loop lb key turns
      end
  end.

(** ** Counting tokens *)

#[local] Arguments zsum : simpl never.
#[local] Arguments zlength : simpl never.

Definition cnt (t : token) (l : list token) : Z := zlength (filter (fun u => u = t) l).

Lemma cnt_nil t : cnt t [] = 0.
Proof. done. Qed.

Lemma cnt_cons t u l : cnt t (u :: l) = (if decide (u = t) then 1 else 0) + cnt t l.
Proof. unfold cnt. rewrite filter_cons. case_decide; unfold zlength; cbn [length]; lia. Qed.

Lemma cnt_app t l k : cnt t (l ++ k) = cnt t l + cnt t k.
Proof. unfold cnt, zlength. rewrite filter_app, length_app. lia. Qed.

Lemma cnt_nonneg t l : 0 <= cnt t l.
Proof. apply zlength_nonneg. Qed.

Lemma cnt_perm t l k : l ≡ₚ k -> cnt t l = cnt t k.
Proof. intros Hp. unfold cnt, zlength. by rewrite Hp. Qed.

Lemma cnt_pos t l : t ∈ l -> 1 <= cnt t l.
Proof.
  intros Ht. apply list_elem_of_split in Ht as (l1 & l2 & ->). rewrite cnt_app, cnt_cons, decide_True by done.
  pose proof (cnt_nonneg t l1). pose proof (cnt_nonneg t l2). lia.
Qed.

Lemma cnt_zero t l : t ∉ l -> cnt t l = 0.
Proof.
  induction l as [|u l IH]; intros Hn; [done|]. rewrite cnt_cons, decide_False, IH; [done|set_solver..].
Qed.

Lemma cnt_batch i n j k : cnt (j, k) (batch_tokens i n) = if decide (j = i /\ (k < Z.to_nat n)%nat) then 1 else 0.
Proof.
  unfold batch_tokens. generalize (Z.to_nat n) as m. intros m.
  assert (forall b, cnt (j, k) (map (fun k => (i, k)) (seq b m)) = if decide (j = i /\ (b <= k < b + m)%nat) then 1 else 0) as H.
  { induction m as [|m IH]; intros b; cbn [seq map].
    - rewrite cnt_nil. case_decide; lia.
    - rewrite cnt_cons, IH. destruct (decide (j = i)) as [->|Hne]; [|rewrite !decide_False; naive_solver].
      destruct (decide (b = k)) as [->|Hbk].
      + rewrite decide_True by done. rewrite decide_False by lia. rewrite decide_True by lia. done.
      + rewrite decide_False by congruence. repeat case_decide; lia. }
  rewrite H. repeat case_decide; lia.
Qed.

Definition heap_tokens (v : keyQueue) : list token := map (fun t => (pt_id t, 0%nat)) (pq_tokens v).
Definition queue_tokens (v : keyQueue) : list token := ch v ++ heap_tokens v.

Definition lpc_tokens (p : lpc) : list token :=
  match p with
  | LSendP t _ | LTouch t | LDecide t | LLen t | LSend t _ | LDeny t => [t]
  | LDrainSend ts => ts
  | _ => []
  end.

Definition pc_tokens (p : pc) : list token :=
  match p with RDeny _ t => [t] | RSendP ts => ts | _ => [] end.

(** How many times [t] is somewhere: in a queue, in the hands of a goroutine that
    will answer it, or answered. *)
Definition occ (t : token) (s : system) : Z :=
  zsum (map (fun v => cnt t (queue_tokens v)) (s_queues s)) +
  zsum (map (fun l => cnt t (lpc_tokens (l_pc l))) (s_leakers s)) +
  zsum (map (fun c => cnt t (pc_tokens (c_pc c))) (s_calls s)) +
  (if s_results s !! t then 1 else 0).

Lemma zsum_map_insert {A} (f : A -> Z) (l : list A) i x y : l !! i = Some x ->
  zsum (map f (<[i := y]> l)) = zsum (map f l) - f x + f y.
Proof.
  assert (forall a k, zsum (a :: k) = a + zsum k) as Hc by done.
  revert i. induction l as [|a l IH]; intros [|i] Hx; simplify_eq/=; rewrite !Hc; [lia|].
  rewrite (IH i Hx). lia.
Qed.

Lemma occ_queue t q v v' s : s_queues s !! q = Some v ->
  occ t (set_queue q v' s) = occ t s - cnt t (queue_tokens v) + cnt t (queue_tokens v').
Proof. intros Hv. unfold occ. cbn. rewrite (zsum_map_insert _ _ q v) by done. cbv beta. lia. Qed.

Lemma occ_call t i c c' s : s_calls s !! i = Some c ->
  occ t (set_call i c' s) = occ t s - cnt t (pc_tokens (c_pc c)) + cnt t (pc_tokens (c_pc c')).
Proof. intros Hc. unfold occ. cbn. rewrite (zsum_map_insert _ _ i c) by done. cbv beta. lia. Qed.

Lemma occ_leaker t q l l' s : s_leakers s !! q = Some l ->
  occ t (set_leaker q l' s) = occ t s - cnt t (lpc_tokens (l_pc l)) + cnt t (lpc_tokens (l_pc l')).
Proof. intros Hl. unfold occ. cbn. rewrite (zsum_map_insert _ _ q l) by done. cbv beta. lia. Qed.

Lemma occ_send t u r s s' : send u r s = Some s' ->
  occ t s' = occ t s + (if decide (u = t) then 1 else 0) /\
  s_calls s' = s_calls s /\ s_leakers s' = s_leakers s /\ s_queues s' = s_queues s /\ s_lb s' = s_lb s /\
  s_map s' = s_map s /\ s_now s' = s_now s.
Proof.
  unfold send. destruct (s_results s !! u) eqn:E; [done|]. intros H. simplify_eq. split; [|done].
  unfold occ. cbn. rewrite lookup_insert. repeat case_decide; subst; rewrite ?E; lia.
Qed.

Lemma occ_getOrCreate t key s : occ t (getOrCreate key s).2 = occ t s.
Proof.
  unfold getOrCreate. destruct (s_map s !! key); [done|]. unfold occ. cbn.
  rewrite !map_app, !zsum_app. change (zsum (map _ [_])) with 0. change (zsum (map _ [mkLeaker _ _ _ _ _])) with 0. lia.
Qed.

Lemma occ_nonneg t s : 0 <= occ t s.
Proof.
  unfold occ. assert (forall A (f : A -> list token) l, 0 <= zsum (map (fun x => cnt t (f x)) l)) as H.
  { intros A f l. apply zsum_nonneg. induction l; constructor; [apply cnt_nonneg|done]. }
  pose proof (H _ queue_tokens (s_queues s)). pose proof (H _ (fun l => lpc_tokens (l_pc l)) (s_leakers s)).
  pose proof (H _ (fun c => pc_tokens (c_pc c)) (s_calls s)). destruct (s_results s !! t); lia.
Qed.

(** ** Taking waiters off the heap *)

Lemma pop_ready_spec fuel err p : pq_ok p -> (length (slice p) <= fuel)%nat ->
  let '(ot, p') := pop_ready fuel err p in
  pq_ok p' /\ exists dropped,
    slice p ≡ₚ dropped ++ option_list ot ++ slice p' /\
    Forall (fun t => err (pt_id t) = true) dropped /\
    match ot with
    | Some t => err (pt_id t) = false /\ Forall (fun u => err (pt_id u) = false -> tok_before u t = false) (slice p)
    | None => slice p' = []
    end.
Proof.
  revert p. induction fuel as [|fuel IH]; intros p Hok Hlen; cbn [pop_ready].
  { split; [done|]. exists []. destruct (slice p); [done|cbn in Hlen; lia]. }
  destruct (slice p) as [|t0 l0] eqn:E; [split; [done|]; exists []; by rewrite E|]. rewrite <- E in *.
  destruct (heapPop_spec p Hok ltac:(by rewrite E)) as (t & p' & -> & Hok' & Hp & _ & Hmin).
  destruct (err (pt_id t)) eqn:Et.
  - assert (length (slice p') <= fuel)%nat as Hl by (rewrite Hp in Hlen; cbn in Hlen; lia).
    specialize (IH p' Hok' Hl). destruct (pop_ready fuel err p') as [ot p''].
    destruct IH as (Hok'' & d & Hpd & Hd & Hot). split; [done|]. exists (t :: d).
    split; [by rewrite Hp, Hpd|]. split; [by constructor|]. destruct ot as [u|]; [|done].
    destruct Hot as [Hu Hall]. split; [done|]. rewrite Hp. constructor; [congruence|done].
  - split; [done|]. exists []. split; [done|]. split; [done|]. split; [done|].
    eapply Forall_impl; [exact Hmin|]. by intros.
Qed.

Lemma pop_all_spec fuel p : pq_ok p -> (length (slice p) <= fuel)%nat ->
  let '(l, p') := pop_all fuel p in pq_ok p' /\ slice p' = [] /\ l ≡ₚ pt_id <$> slice p.
Proof.
  revert p. induction fuel as [|fuel IH]; intros p Hok Hlen; cbn [pop_all].
  { destruct (slice p) eqn:E; [done|cbn in Hlen; lia]. }
  destruct (slice p) as [|t0 l0] eqn:E; [done|]. rewrite <- E in *.
  destruct (heapPop_spec p Hok ltac:(by rewrite E)) as (t & p' & -> & Hok' & Hp & _).
  assert (length (slice p') <= fuel)%nat as Hl by (rewrite Hp in Hlen; cbn in Hlen; lia).
  specialize (IH p' Hok' Hl). destruct (pop_all fuel p') as [l p'']. destruct IH as (Hok'' & He & Hpl).
  split; [done|]. split; [done|]. by rewrite Hp, Hpl.
Qed.

(** ** The invariant *)

(** The queue is within its capacity and its heap is in order. *)
Definition queue_ok (lb : LeakyBucket) (v : keyQueue) : Prop :=
  depthLocked v <= capacity lb /\ match pq v with Some p => pq_ok p | None => True end.

Definition prioritised (c : call) : bool := match c_kind c with KAllowP _ => true | _ => false end.

(** A token of call [i] that is nowhere is excused: its caller was cancelled and
    nobody will be kept waiting. *)
Definition call_ok (s : system) (i : nat) (c : call) : Prop :=
  (forall k, occ (i, k) s <> 0 -> Z.of_nat k < batch (c_kind c)) /\
  match c_pc c with
  | PStart => forall k, occ (i, k) s = 0
  | PEnq _ => (forall k, occ (i, k) s = 0) /\ 1 <= batch (c_kind c)
  | PWait _ k0 => forall k, Z.of_nat k0 <= Z.of_nat k < batch (c_kind c) ->
      occ (i, k) s = 1 \/ (prioritised c = true /\ c_ctx c = true)
  | PCancelP _ => prioritised c = true /\ c_ctx c = true
  | _ => True
  end.

Definition lpc_pending (p : lpc) : Z :=
  match p with LTick | LSendP _ _ | LRecv | LTouch _ | LDecide _ | LLen _ | LSend _ _ => 1 | _ => 0 end.

(** Every grant has its tick, every tick its interval. *)
Definition leaker_ok (lb : LeakyBucket) (now : time) (l : leaker) : Prop :=
  0 <= l_grants l /\ l_grants l + lpc_pending (l_pc l) <= l_ticks l /\
  l_ticks l * interval lb <= now - l_start l /\ (l_pc l = LStart -> l_ticks l = 0).

Definition tokens_ok (s : system) : Prop :=
  (forall t, occ t s <= 1) /\
  (forall i k, occ (i, k) s <> 0 -> is_Some (s_calls s !! i)) /\
  (forall i c, s_calls s !! i = Some c -> call_ok s i c) /\
  (forall v u, v ∈ s_queues s -> u ∈ pq_tokens v ->
     exists c, s_calls s !! pt_id u = Some c /\ prioritised c = true).

Definition inv (s : system) : Prop :=
  0 <= capacity (s_lb s) /\ Forall (queue_ok (s_lb s)) (s_queues s) /\
  Forall (leaker_ok (s_lb s) (s_now s)) (s_leakers s) /\ tokens_ok s.

(** Tokens of call [j] only move, or vanish because the call is a cancelled
    priority waiter. *)
Definition shrinks (s s' : system) (j : nat) : Prop :=
  forall k, occ (j, k) s' = occ (j, k) s \/
    (occ (j, k) s' <= occ (j, k) s /\
     exists c, s_calls s !! j = Some c /\ prioritised c = true /\ c_ctx c = true).

Lemma shrinks_le s s' j k : shrinks s s' j -> occ (j, k) s' <= occ (j, k) s.
Proof. intros H. destruct (H k) as [->|[? _]]; lia. Qed.

Lemma call_ok_shrinks s s' j c : s_calls s !! j = Some c -> call_ok s j c -> shrinks s s' j -> call_ok s' j c.
Proof.
  intros Hc [Hb Hpc] Hs. split.
  - intros k Hk. apply Hb. pose proof (shrinks_le s s' j k Hs). pose proof (occ_nonneg (j, k) s'). lia.
  - assert ((forall k, occ (j, k) s = 0) -> forall k, occ (j, k) s' = 0) as Hz.
    { intros H k. pose proof (shrinks_le s s' j k Hs). pose proof (occ_nonneg (j, k) s'). specialize (H k). lia. }
    destruct (c_pc c); try done; [auto|naive_solver|]. intros k' Hk'.
    destruct (Hs k') as [->|(_ & c' & Hc' & Hp)]; [by apply Hpc|]. right. by simplify_eq.
Qed.

(** The waiters of [s'] are waiters of [s]. *)
Definition no_new_waiter (s s' : system) : Prop :=
  forall v u, v ∈ s_queues s' -> u ∈ pq_tokens v -> exists v0, v0 ∈ s_queues s /\ u ∈ pq_tokens v0.

Lemma tokens_env s s' : tokens_ok s -> s_calls s' = s_calls s -> (forall j, shrinks s s' j) ->
  no_new_waiter s s' -> tokens_ok s'.
Proof.
  intros (H1 & H2 & H3 & H4) Ec Hs Hw. unfold tokens_ok. rewrite Ec. split_and!.
  - intros [j k]. pose proof (shrinks_le s s' j k (Hs j)). specialize (H1 (j, k)). lia.
  - intros j k Hk. apply (H2 j k). pose proof (shrinks_le s s' j k (Hs j)). pose proof (occ_nonneg (j, k) s'). lia.
  - intros j c Hc. by apply (call_ok_shrinks s); auto.
  - intros v u Hv Hu. destruct (Hw v u Hv Hu) as (v0 & Hv0 & Hu0). eauto.
Qed.

Lemma tokens_call s s' i c c' : tokens_ok s -> s_calls s !! i = Some c -> s_calls s' = <[i := c']> (s_calls s) ->
  c_kind c' = c_kind c -> (forall j, j <> i -> shrinks s s' j) -> (forall k, occ (i, k) s' <= 1) ->
  call_ok s' i c' ->
  (forall v u, v ∈ s_queues s' -> u ∈ pq_tokens v ->
     (exists v0, v0 ∈ s_queues s /\ u ∈ pq_tokens v0) \/ (pt_id u = i /\ prioritised c' = true)) ->
  tokens_ok s'.
Proof.
  intros (H1 & H2 & H3 & H4) Hc Ec Ek Hs Hone Hok Hw. pose proof (lookup_lt_Some _ _ _ Hc) as Hi.
  assert (s_calls s' !! i = Some c') as Hc' by (rewrite Ec; by apply list_lookup_insert_eq).
  assert (forall j, j <> i -> s_calls s' !! j = s_calls s !! j) as Hne.
  { intros j Hj. rewrite Ec. by apply list_lookup_insert_ne. }
  unfold tokens_ok. split_and!.
  - intros [j k]. destruct (decide (j = i)) as [->|Hj]; [done|].
    pose proof (shrinks_le s s' j k (Hs j Hj)). specialize (H1 (j, k)). lia.
  - intros j k Hk. destruct (decide (j = i)) as [->|Hj]; [by rewrite Hc'|]. rewrite Hne by done. apply (H2 j k).
    pose proof (shrinks_le s s' j k (Hs j Hj)). pose proof (occ_nonneg (j, k) s'). lia.
  - intros j d Hd. destruct (decide (j = i)) as [->|Hj]; [by simplify_eq|]. rewrite Hne in Hd by done.
    by apply (call_ok_shrinks s); auto.
  - intros v u Hv Hu. destruct (Hw v u Hv Hu) as [(v0 & Hv0 & Hu0)|[-> Hp]]; [|eauto].
    destruct (H4 v0 u Hv0 Hu0) as (d & Hd & Hp). destruct (decide (pt_id u = i)) as [E|Hj].
    + exists c'. rewrite E in *. split; [done|]. unfold prioritised in *. rewrite Ek. by simplify_eq.
    + exists d. rewrite Hne by done. done.
Qed.

(** The common case: the moving call holds no token, and nothing else moves. *)
Lemma tokens_call_same s s' i c c' : tokens_ok s -> s_calls s !! i = Some c -> s_calls s' = <[i := c']> (s_calls s) ->
  c_kind c' = c_kind c -> (forall t, occ t s' = occ t s) -> call_ok s' i c' -> no_new_waiter s s' -> tokens_ok s'.
Proof.
  intros Ht Hc Ec Ek Ho Hok Hw. apply (tokens_call s s' i c c'); try done.
  - intros j _ k. left. apply Ho.
  - intros k. rewrite Ho. apply Ht.
  - intros v u Hv Hu. left. by eapply Hw.
Qed.

Lemma no_new_refl s s' : s_queues s' = s_queues s -> no_new_waiter s s'.
Proof. intros E v u Hv Hu. rewrite E in Hv. eauto. Qed.

Lemma elem_of_insert {A} (l : list A) i x y : x ∈ <[i := y]> l -> x = y \/ x ∈ l.
Proof.
  rewrite !list_elem_of_lookup. intros [j Hj]. apply list_lookup_insert_Some in Hj as [(-> & -> & _)|[_ Hj]]; eauto.
Qed.

Lemma no_new_set s s' q v v' : s_queues s !! q = Some v -> s_queues s' = <[q := v']> (s_queues s) ->
  (forall u, u ∈ pq_tokens v' -> u ∈ pq_tokens v) -> no_new_waiter s s'.
Proof.
  intros Hv E Hsub w u Hw Hu. rewrite E in Hw. apply elem_of_insert in Hw as [-> |Hw]; [|eauto].
  exists v. split; [by eapply list_elem_of_lookup_2|auto].
Qed.

(** ** Calls keep the tokens *)

(** Program points without obligations. *)
Definition free_pc (p : pc) : bool :=
  match p with PStart | PEnq _ | PWait _ _ | PCancelP _ => false | _ => true end.

Lemma call_ok_free s s' i c c' : call_ok s i c -> c_kind c' = c_kind c ->
  (forall k, occ (i, k) s' = occ (i, k) s) -> free_pc (c_pc c') = true -> call_ok s' i c'.
Proof.
  intros [Hb _] Ek Ho Hf. split; [intros k; rewrite Ho, Ek; apply Hb|]. by destruct (c_pc c').
Qed.

Lemma tokens_free s s' i c c' : tokens_ok s -> s_calls s !! i = Some c -> s_calls s' = <[i := c']> (s_calls s) ->
  c_kind c' = c_kind c -> (forall t, occ t s' = occ t s) -> free_pc (c_pc c') = true -> no_new_waiter s s' ->
  tokens_ok s'.
Proof.
  intros Ht Hc Ec Ek Ho Hf Hw. apply (tokens_call_same s s' i c c'); try done.
  eapply call_ok_free; [by apply Ht|done| |done]. intros k. apply Ho.
Qed.

Lemma getOrCreate_calls key s : s_calls (getOrCreate key s).2 = s_calls s.
Proof. unfold getOrCreate. by destruct (s_map s !! key). Qed.

Lemma getOrCreate_no_new key s : no_new_waiter s (getOrCreate key s).2.
Proof.
  unfold getOrCreate. destruct (s_map s !! key); [by apply no_new_refl|]. intros v u Hv Hu. cbn in Hv.
  apply elem_of_app in Hv as [Hv|Hv]; [eauto|]. apply list_elem_of_singleton in Hv as ->. cbn in Hu. set_solver.
Qed.

Lemma tokens_enter s i c : tokens_ok s -> s_calls s !! i = Some c -> c_pc c = PStart -> tokens_ok (enter i c s).
Proof.
  intros Ht Hc Hp. assert (call_ok s i c) as [Hb Hz] by (by apply Ht). rewrite Hp in Hz.
  unfold enter. cbn [c_kind c_key c_pc]. set (c1 := mkCall (c_kind c) (c_key c) (s_now s) (c_ctx c) (c_pc c)).
  assert (forall p, free_pc p = true -> pc_tokens p = [] -> tokens_ok (set_call i (at_pc c1 p) s)) as Hfree.
  { intros p Hf Hn. apply (tokens_free s _ i c (at_pc c1 p)); try done; [|by apply no_new_refl].
    intros t. rewrite (occ_call t i c) by done. cbn. rewrite Hn, Hp. cbn. lia. }
  assert (1 <= batch (c_kind c) ->
    tokens_ok (let '(q, s') := getOrCreate (c_key c1) s in set_call i (at_pc c1 (PEnq q)) s')) as Henq.
  { intros Hbatch. pose proof (getOrCreate_calls (c_key c1) s) as Ec. pose proof (fun t => occ_getOrCreate t (c_key c1) s) as Eo.
    pose proof (getOrCreate_no_new (c_key c1) s) as Hw.
    destruct (getOrCreate (c_key c1) s) as [q s1]. cbn [snd] in *.
    assert (forall t, occ t (set_call i (at_pc c1 (PEnq q)) s1) = occ t s) as Ho.
    { intros t. rewrite (occ_call t i c) by (by rewrite Ec). rewrite Eo. cbn. rewrite Hp. cbn. lia. }
    apply (tokens_call_same s _ i c (at_pc c1 (PEnq q))); try done; [by cbn; rewrite Ec|].
    split; cbn; [intros k; rewrite Ho; apply Hb|]. split; [intros k; by rewrite Ho|done]. }
  destruct (c_kind c) as [|n|prio|] eqn:Ek; cbn [batch] in Henq.
  - destruct (ValidateKey (c_key c)); [by apply Hfree|]. apply Henq. lia.
  - destruct (ValidateKey (c_key c)); [by apply Hfree|]. destruct (ValidateN n) eqn:En; [by apply Hfree|].
    apply ValidateN_ok in En. destruct (capacity (s_lb s) <? n); [by apply Hfree|]. by apply Henq.
  - destruct (ValidateKey (c_key c)); [by apply Hfree|]. apply Henq. lia.
  - destruct (s_map s !! c_key c); by apply Hfree.
Qed.

Lemma queue_tokens_ch v l : queue_tokens (with_ch l v) = l ++ heap_tokens v.
Proof. done. Qed.

Lemma pq_tokens_push v i prio sq : match pq v with Some p => pq_ok p | None => True end ->
  (forall u, u ∈ pq_tokens v -> pt_id u <> i) ->
  exists p, (p0 ← pq (ensurePQ v); Some (heap_Push p0 (mkTok i prio sq))) = Some p /\ pq_ok p /\
    slice p ≡ₚ mkTok i prio sq :: pq_tokens v.
Proof.
  intros Hok Hf. unfold ensurePQ, pq_tokens in *. destruct (pq v) as [p|] eqn:Ep.
  - rewrite Ep. cbn. exists (heap_Push p (mkTok i prio sq)). split; [done|]. apply pq_heap_Push; [done|]. cbn.
    rewrite list_elem_of_fmap. intros (u & E & Hu). by apply (Hf u).
  - cbn. exists (heap_Push empty_pq (mkTok i prio sq)). split; [done|].
    apply pq_heap_Push; [apply empty_pq_ok|]. cbn. set_solver.
Qed.

Lemma occ_parts t s :
  (forall q v, s_queues s !! q = Some v -> cnt t (queue_tokens v) <= occ t s) /\
  (forall q l, s_leakers s !! q = Some l -> cnt t (lpc_tokens (l_pc l)) <= occ t s) /\
  (forall i c, s_calls s !! i = Some c -> cnt t (pc_tokens (c_pc c)) <= occ t s).
Proof.
  split_and!.
  - intros q v Hv. pose proof (occ_queue t q v (mkQueue [] None 0 0) s Hv) as H. cbn in H. rewrite cnt_nil in H.
    pose proof (occ_nonneg t (set_queue q (mkQueue [] None 0 0) s)). lia.
  - intros q l Hl. pose proof (occ_leaker t q l (at_lpc l LExit) s Hl) as H. cbn in H. rewrite cnt_nil in H.
    pose proof (occ_nonneg t (set_leaker q (at_lpc l LExit) s)). lia.
  - intros i c Hc. pose proof (occ_call t i c (at_pc c RDone) s Hc) as H. cbn in H. rewrite cnt_nil in H.
    pose proof (occ_nonneg t (set_call i (at_pc c RDone) s)). lia.
Qed.

Lemma heap_token_in v u : u ∈ pq_tokens v -> (pt_id u, 0%nat) ∈ queue_tokens v.
Proof. intros Hu. apply elem_of_app. right. by apply (list_elem_of_fmap_2 (fun t => (pt_id t, 0%nat))). Qed.

Lemma tokens_enqueue s i c q v : tokens_ok s -> queue_ok (s_lb s) v ->
  s_calls s !! i = Some c -> c_pc c = PEnq q -> s_queues s !! q = Some v -> tokens_ok (enqueue i c q v s).
Proof.
  intros Ht [_ Hpq] Hc Hp Hv. assert (call_ok s i c) as [Hb Hz] by (by apply Ht). rewrite Hp in Hz. destruct Hz as [Hz Hn].
  unfold enqueue. destruct (capacity (s_lb s) - depthLocked v <? batch (c_kind c)).
  { eapply (tokens_free s _ i c); try done; [|by apply no_new_refl].
    intros t. rewrite (occ_call t i c) by done. rewrite Hp. cbn. lia. }
  match goal with |- context [set_queue q ?w s] => set (v' := w) end.
  assert (forall u, u ∈ pq_tokens v -> pt_id u <> i) as Hf.
  { intros u Hu E. pose proof (cnt_pos _ _ (heap_token_in v u Hu)). pose proof (proj1 (occ_parts (pt_id u, 0%nat) s) q v Hv).
    rewrite E, Hz in *. lia. }
  assert (forall t, cnt t (queue_tokens v') = cnt t (queue_tokens v) + cnt t (batch_tokens i (batch (c_kind c)))) as Hcnt.
  { intros t. unfold v'. destruct (c_kind c) as [|n|prio|]; try (rewrite queue_tokens_ch; unfold queue_tokens; rewrite !cnt_app; lia).
    destruct (pq_tokens_push v i prio (nextSeq (ensurePQ v)) Hpq Hf) as (p & E & _ & Hperm).
    unfold push_waiter. cbv zeta. unfold queue_tokens, heap_tokens. unfold pq_tokens at 1. cbn [ch pq]. rewrite E.
    assert (ch (ensurePQ v) = ch v) as -> by (unfold ensurePQ; by destruct (pq v)).
    rewrite !cnt_app. rewrite (cnt_perm t _ _ (Permutation_map (fun t => (pt_id t, 0%nat)) Hperm)). cbn [map].
    rewrite cnt_cons. change (batch_tokens i (batch (KAllowP prio))) with [(i, 0%nat)]. rewrite cnt_cons, cnt_nil. cbn [pt_id]. lia. }
  assert (forall t, occ t (set_call i (at_pc c (PWait q 0)) (set_queue q v' s)) =
    occ t s + cnt t (batch_tokens i (batch (c_kind c)))) as Ho.
  { intros t. rewrite (occ_call t i c), (occ_queue t q v) by done. rewrite Hcnt, Hp. cbn. lia. }
  apply (tokens_call s _ i c (at_pc c (PWait q 0))); try done.
  - intros j Hj k. left. rewrite Ho, cnt_batch, decide_False by naive_solver. lia.
  - intros k. rewrite Ho, Hz, cnt_batch. case_decide; lia.
  - split; cbn.
    + intros k. rewrite Ho, Hz, cnt_batch. case_decide; lia.
    + intros k Hk. left. rewrite Ho, Hz, cnt_batch, decide_True; lia.
  - cbn. intros w u Hw Hu. apply elem_of_insert in Hw as [-> |Hw]; [|eauto]. unfold v' in Hu.
    destruct (c_kind c) as [|n|prio|] eqn:Ek; try (left; exists v; split; [by eapply list_elem_of_lookup_2|done]).
    destruct (pq_tokens_push v i prio (nextSeq (ensurePQ v)) Hpq Hf) as (p & E & _ & Hperm).
    unfold push_waiter, pq_tokens in Hu. cbv zeta in Hu. cbn [pq] in Hu. rewrite E, Hperm in Hu. apply elem_of_cons in Hu as [-> |Hu].
    + right. split; [done|]. unfold prioritised. cbn. by rewrite Ek.
    + left. exists v. split; [by eapply list_elem_of_lookup_2|done].
Qed.

(** Waiting, cancellation, the critical sections that take waiters away. *)
Lemma tokens_await s s' i c q k recv : tokens_ok s -> s_calls s !! i = Some c -> c_pc c = PWait q k ->
  await i c q k recv s = Some s' -> tokens_ok s'.
Proof.
  intros Ht Hc Hp. assert (call_ok s i c) as [Hb Hw] by (by apply Ht). rewrite Hp in Hw.
  assert (forall p, pc_tokens p = [] -> call_ok (set_call i (at_pc c p) s) i (at_pc c p) ->
    tokens_ok (set_call i (at_pc c p) s)) as Hmove.
  { intros p Hn Hok. apply (tokens_call_same s _ i c (at_pc c p)); try done; [|by apply no_new_refl].
    intros t. rewrite (occ_call t i c) by done. cbn. rewrite Hn, Hp. cbn. lia. }
  assert (forall p t, pc_tokens p = [] -> occ t (set_call i (at_pc c p) s) = occ t s) as Ho.
  { intros p t Hn. rewrite (occ_call t i c) by done. cbn. rewrite Hn, Hp. cbn. lia. }
  assert (forall p, pc_tokens p = [] -> free_pc p = true -> tokens_ok (set_call i (at_pc c p) s)) as Hfree.
  { intros p Hn Hf. apply Hmove; [done|]. apply (call_ok_free s _ i c); try done; [by apply Ht|]. intros. by apply Ho. }
  unfold await. destruct recv.
  - destruct (s_results s !! (i, k)) as [r|]; [|done]. cbn. intros E. simplify_eq.
    destruct (c_kind c) as [|n|prio|] eqn:Ek; try by apply Hfree.
    destruct (n =? 1); [by apply Hfree|]. destruct (Allowed r); cbn [negb]; [|by apply Hfree].
    destruct (Z.ltb_spec (Z.of_nat (S k)) n); [|by apply Hfree]. apply Hmove; [done|].
    split; cbn [c_kind c_pc at_pc]; rewrite Ek; [intros k'; rewrite Ho by done; apply Hb|].
    intros k' Hk'. rewrite Ho by done. apply Hw. lia.
  - destruct (c_ctx c) eqn:Ex; [|done]. intros E. simplify_eq.
    destruct (c_kind c) as [|n|prio|] eqn:Ek; try by apply Hfree. apply Hmove; [done|].
    split; cbn [c_kind c_pc at_pc]; rewrite ?Ek; [intros k'; rewrite Ho by done; apply Hb|].
    unfold prioritised. cbn [c_kind c_ctx at_pc]. by rewrite Ek.
Qed.

(** A queue from which waiters are taken: [gone] are no longer in it. *)
Definition taken (v v' : keyQueue) (gone : list pqToken) : Prop :=
  ch v' = ch v /\ pq_tokens v ≡ₚ gone ++ pq_tokens v' /\ match pq v' with Some p => pq_ok p | None => True end.

Lemma taken_cnt v v' gone t : taken v v' gone ->
  cnt t (queue_tokens v) = cnt t (queue_tokens v') + cnt t (map (fun u => (pt_id u, 0%nat)) gone).
Proof.
  intros (Ec & Hp & _). unfold queue_tokens, heap_tokens. rewrite Ec, !cnt_app.
  rewrite (cnt_perm t _ _ (Permutation_map (fun u => (pt_id u, 0%nat)) Hp)), map_app, cnt_app. lia.
Qed.

Lemma taken_ok lb v v' gone : queue_ok lb v -> taken v v' gone -> queue_ok lb v'.
Proof.
  intros [Hd _] (Ec & Hp & Hok). split; [|done]. unfold depthLocked, zlength in *. rewrite Ec.
  rewrite Hp, length_app in Hd. lia.
Qed.

Lemma taken_sub v v' gone u : taken v v' gone -> u ∈ pq_tokens v' -> u ∈ pq_tokens v.
Proof. intros (_ & Hp & _) Hu. rewrite Hp. apply elem_of_app. by right. Qed.

Lemma taken_gone v v' gone u : taken v v' gone -> u ∈ gone -> u ∈ pq_tokens v.
Proof. intros (_ & Hp & _) Hu. rewrite Hp. apply elem_of_app. by left. Qed.

Lemma remove_taken lb v i : queue_ok lb v ->
  exists gone, taken v (cancel_waiter i v) gone /\ Forall (fun u => pt_id u = i) gone.
Proof.
  intros [_ Hpq]. unfold cancel_waiter. destruct (pq v) as [p|] eqn:Ep; [|exists []; split; [|done]; split; [done|]; by rewrite Ep].
  destruct (parked p i) eqn:Epk; [|exists []; split; [|done]; split; [done|]; by rewrite Ep].
  apply parked_spec in Epk; [|apply Hpq]. destruct (pq_remove_spec p i Hpq Epk) as (Hok' & t & Et & Hp).
  exists [t]. split; [|by constructor]. split; [done|]. split; [|done]. unfold pq_tokens. by rewrite Ep.
Qed.

Lemma tokens_cancelP s i c q v v' gone : tokens_ok s -> s_calls s !! i = Some c -> c_pc c = PCancelP q ->
  s_queues s !! q = Some v -> taken v v' gone -> Forall (fun u => pt_id u = i) gone ->
  tokens_ok (set_call i (at_pc c (PEstimate q)) (set_queue q v' s)).
Proof.
  intros Ht Hc Hp Hv Htk Hg. assert (call_ok s i c) as Hok by (by apply Ht).
  assert (forall t, occ t (set_call i (at_pc c (PEstimate q)) (set_queue q v' s)) =
    occ t s - cnt t (map (fun u => (pt_id u, 0%nat)) gone)) as Ho.
  { intros t. rewrite (occ_call t i c), (occ_queue t q v) by done. rewrite Hp, (taken_cnt v v' gone) by done. cbn. lia. }
  assert (forall t, occ t (set_call i (at_pc c (PEstimate q)) (set_queue q v' s)) <= occ t s) as Hle.
  { intros t. rewrite Ho. pose proof (cnt_nonneg t (map (fun u => (pt_id u, 0%nat)) gone)). lia. }
  apply (tokens_call s _ i c (at_pc c (PEstimate q))); try done.
  - intros j Hj k. left. rewrite Ho, cnt_zero; [lia|]. rewrite list_elem_of_fmap. intros (u & E & Hu).
    rewrite Forall_forall in Hg. specialize (Hg u Hu). simplify_eq.
  - intros k. etransitivity; [apply Hle|]. apply Ht.
  - split; [|done]. intros k Hk. apply Hok. pose proof (Hle (i, k)).
    pose proof (occ_nonneg (i, k) (set_call i (at_pc c (PEstimate q)) (set_queue q v' s))). lia.
  - intros w u Hw Hu. left. cbn in Hw. apply elem_of_insert in Hw as [-> |Hw]; [|eauto].
    exists v. split; [by eapply list_elem_of_lookup_2|]. by eapply taken_sub.
Qed.

Lemma drain_taken lb v : queue_ok lb v ->
  let '(ts, v') := drain_heap v in
  exists gone, taken v v' gone /\ ts ≡ₚ map (fun u => (pt_id u, 0%nat)) gone.
Proof.
  intros [_ Hpq]. unfold drain_heap. destruct (pq v) as [p|] eqn:Ep.
  - pose proof (pop_all_spec (length (slice p)) p Hpq ltac:(lia)) as H.
    destruct (pop_all (length (slice p)) p) as [l p']. destruct H as (Hok & He & Hp). exists (slice p). split.
    + split; [done|]. unfold pq_tokens. cbn. rewrite Ep, He, app_nil_r. done.
    + rewrite Hp. by rewrite map_map.
  - exists []. split; [|done]. split; [done|]. by rewrite Ep.
Qed.

Lemma popReady_taken lb err now v : queue_ok lb v ->
  let '(ot, v') := popReadyPriorityLocked err (touch now v) in
  exists dropped, taken v v' (dropped ++ option_list ot) /\ Forall (fun u => err (pt_id u) = true) dropped.
Proof.
  intros [_ Hpq]. unfold popReadyPriorityLocked. cbn [pq touch]. destruct (pq v) as [p|] eqn:Ep.
  - pose proof (pop_ready_spec (length (slice p)) err p Hpq ltac:(lia)) as H.
    destruct (pop_ready (length (slice p)) err p) as [ot p']. destruct H as (Hok & d & Hp & Hd & _).
    exists d. split; [|done]. split; [done|]. unfold pq_tokens. cbn. by rewrite Ep, <- app_assoc.
  - exists []. split; [|done]. split; [done|]. unfold pq_tokens. cbn. by rewrite Ep.
Qed.

(** A call moves on, or answers the first of its tokens. *)
Lemma tokens_move s i c p : tokens_ok s -> s_calls s !! i = Some c -> pc_tokens p = pc_tokens (c_pc c) ->
  free_pc p = true -> tokens_ok (set_call i (at_pc c p) s).
Proof.
  intros Ht Hc Hn Hf. apply (tokens_free s _ i c (at_pc c p)); try done; [|by apply no_new_refl].
  intros t. rewrite (occ_call t i c) by done. cbn. rewrite Hn. lia.
Qed.

Lemma tokens_answer s s1 i c p t r : tokens_ok s -> s_calls s !! i = Some c -> send t r s = Some s1 ->
  pc_tokens (c_pc c) = t :: pc_tokens p -> free_pc p = true -> tokens_ok (set_call i (at_pc c p) s1).
Proof.
  intros Ht Hc Hs Hn Hf. apply (tokens_free s _ i c (at_pc c p)); try done.
  - cbn. by rewrite (proj1 (proj2 (occ_send t t r s s1 Hs))).
  - intros u. destruct (occ_send u t r s s1 Hs) as (Eo & Ec & _). rewrite (occ_call u i c) by (by rewrite Ec).
    rewrite Eo. cbn. rewrite Hn, cnt_cons. lia.
  - apply no_new_refl. cbn. by destruct (occ_send t t r s s1 Hs) as (_ & _ & _ & E & _).
Qed.

Lemma tokens_call_step s s' i recv : Forall (queue_ok (s_lb s)) (s_queues s) -> tokens_ok s ->
  call_step i recv s = Some s' -> tokens_ok s'.
Proof.
  intros Hq Ht. unfold call_step, reset_step. destruct (s_calls s !! i) as [c|] eqn:Hc; [|done]. cbn [mbind option_bind].
  assert (forall w v, s_queues s !! w = Some v -> queue_ok (s_lb s) v) as Hok.
  { intros w v Hv. rewrite Forall_forall in Hq. apply Hq. by eapply list_elem_of_lookup_2. }
  assert (forall p, pc_tokens p = pc_tokens (c_pc c) -> free_pc p = true ->
    tokens_ok (set_call i (at_pc c p) s)) as Hfree by (intros; by apply tokens_move).
  assert (forall t r s1 p, send t r s = Some s1 -> pc_tokens (c_pc c) = t :: pc_tokens p -> free_pc p = true ->
    tokens_ok (set_call i (at_pc c p) s1)) as Hsend by (intros; by eapply tokens_answer).
  destruct (c_pc c) as [|q|q k|q|q|q|res|res|q|q t|q|[|t ts]| |] eqn:Hp.
  - intros E. simplify_eq. by apply tokens_enter.
  - destruct (s_queues s !! q) as [v|] eqn:Hv; [|done]. cbn. intros E. simplify_eq. apply tokens_enqueue; eauto.
  - intros E. by eapply tokens_await.
  - destruct (s_queues s !! q) as [v|] eqn:Hv; [|done]. cbn [mbind option_bind]. intros E. simplify_eq.
    destruct (remove_taken (s_lb s) v i ltac:(eauto)) as (gone & Htk & Hg). by eapply tokens_cancelP.
  - destruct (s_queues s !! q); [|done]. cbn. intros E. simplify_eq. by apply Hfree.
  - destruct (s_queues s !! q); [|done]. cbn. intros E. simplify_eq. by apply Hfree.
  - intros E. simplify_eq. unfold finish. cbv zeta. eapply (tokens_free s _ i c); try done; [|by apply no_new_refl].
    intros t. unfold set_call, add_events, occ. cbn. rewrite (zsum_map_insert _ _ i c) by done. cbn. rewrite Hp. cbn. lia.
  - done.
  - destruct (s_queues s !! q) as [v|] eqn:Hv; [|done]. cbn. intros E. simplify_eq.
    destruct (ch v) as [|t l] eqn:Ech; [by apply Hfree|].
    eapply (tokens_free s _ i c); try done; [|by eapply (no_new_set _ _ q v)].
    intros u. rewrite (occ_call u i c), (occ_queue u q v) by done. rewrite queue_tokens_ch, Hp.
    unfold queue_tokens. rewrite Ech. cbn [pc_tokens at_pc c_pc app]. rewrite !cnt_cons, !cnt_app, cnt_nil. lia.
  - destruct (send _ _ _) as [s1|] eqn:Es; [|done]. cbn. intros E. simplify_eq. by eapply Hsend.
  - destruct (s_queues s !! q) as [v|] eqn:Hv; [|done]. cbn [mbind option_bind].
    pose proof (drain_taken (s_lb s) v ltac:(eauto)) as Hd. destruct (drain_heap v) as [ts v']. destruct Hd as (gone & Htk & Hts).
    intros E. simplify_eq. eapply (tokens_free s _ i c); try done.
    + intros u. rewrite (occ_call u i c), (occ_queue u q v) by done. rewrite Hp, (taken_cnt v v' gone) by done.
      cbn [pc_tokens at_pc c_pc]. rewrite (cnt_perm u _ _ Hts), cnt_nil. lia.
    + eapply (no_new_set _ _ q v); try done. intros u. by eapply taken_sub.
  - intros E. simplify_eq. by apply Hfree.
  - destruct (send _ _ _) as [s1|] eqn:Es; [|done]. cbn. intros E. simplify_eq. by eapply Hsend.
  - intros E. simplify_eq. eapply (tokens_free s _ i c); try done; [|by apply no_new_refl].
    intros t. rewrite (occ_call t i c) by done. rewrite Hp. unfold occ. cbn. lia.
  - done.
Qed.

(** ** Leakers keep the tokens *)

Lemma tokens_leaker s s' : tokens_ok s -> s_calls s' = s_calls s ->
  (forall t, occ t s' = occ t s) -> no_new_waiter s s' -> tokens_ok s'.
Proof. intros Ht Ec Ho Hw. apply (tokens_env s); try done. intros j k. left. apply Ho. Qed.

Lemma tokens_leak_send s s1 q l t r : tokens_ok s -> s_leakers s !! q = Some l -> send t r s = Some s1 ->
  forall l', lpc_tokens (l_pc l) = t :: lpc_tokens (l_pc l') -> tokens_ok (set_leaker q l' s1).
Proof.
  intros Ht Hl Hs l' Hn. destruct (occ_send t t r s s1 Hs) as (_ & Ec & El & Eq & _).
  apply (tokens_env s); try done; [|by apply no_new_refl]. intros j k. left.
  destruct (occ_send (j, k) t r s s1 Hs) as (Eo & _). rewrite (occ_leaker _ q l) by (by rewrite El).
  rewrite Eo, Hn, cnt_cons. lia.
Qed.

(** One tick: the waiters it drops were cancelled. *)
Lemma tokens_tick s q l v : tokens_ok s -> queue_ok (s_lb s) v -> s_leakers s !! q = Some l -> l_pc l = LTick ->
  s_queues s !! q = Some v ->
  let '(ot, v') := popReadyPriorityLocked (ctx_err s) (touch (s_now s) v) in
  forall p, lpc_tokens p = map (fun u => (pt_id u, 0%nat)) (option_list ot) ->
  tokens_ok (set_leaker q (at_lpc l p) (set_queue q v' s)).
Proof.
  intros Ht Hok Hl Hpc Hv. pose proof (popReady_taken (s_lb s) (ctx_err s) (s_now s) v Hok) as H.
  destruct (popReadyPriorityLocked _ _) as [ot v']. destruct H as (d & Htk & Hd). intros p Hp.
  assert (forall t, occ t (set_leaker q (at_lpc l p) (set_queue q v' s)) =
    occ t s - cnt t (map (fun u => (pt_id u, 0%nat)) d)) as Ho.
  { intros t. rewrite (occ_leaker t q l), (occ_queue t q v) by done. rewrite Hpc, (taken_cnt _ _ _ _ Htk).
    cbn [l_pc at_lpc lpc_tokens]. rewrite Hp, map_app, cnt_app, cnt_nil. lia. }
  apply (tokens_env s); try done.
  - intros j k. rewrite Ho. destruct (decide ((j, k) ∈ map (fun u => (pt_id u, 0%nat)) d)) as [Hin|Hout].
    + right. split; [pose proof (cnt_nonneg (j, k) (map (fun u => (pt_id u, 0%nat)) d)); lia|].
      apply list_elem_of_fmap in Hin as (u & E & Hu). simplify_eq. rewrite Forall_forall in Hd. specialize (Hd u Hu).
      destruct (proj2 (proj2 (proj2 Ht)) v u) as (c & Hc & Hpr); [by eapply list_elem_of_lookup_2| |].
      { eapply taken_gone; [done|]. apply elem_of_app. by left. }
      exists c. unfold ctx_err in Hd. by rewrite Hc in Hd.
    + left. rewrite cnt_zero by done. lia.
  - eapply (no_new_set _ _ q v); try done. intros u. by eapply taken_sub.
Qed.

Lemma tokens_leaker_step s s' q tick : Forall (queue_ok (s_lb s)) (s_queues s) -> tokens_ok s ->
  leaker_step q tick s = Some s' -> tokens_ok s'.
Proof.
  intros Hq Ht. unfold leaker_step, drain_step. destruct (s_leakers s !! q) as [l|] eqn:Hl; [|done]. cbn [mbind option_bind].
  destruct (s_queues s !! q) as [v|] eqn:Hv; [|done]. cbn [mbind option_bind].
  assert (queue_ok (s_lb s) v) as Hok by (rewrite Forall_forall in Hq; apply Hq; by eapply list_elem_of_lookup_2).
  assert (forall l', lpc_tokens (l_pc l') = lpc_tokens (l_pc l) -> tokens_ok (set_leaker q l' s)) as Hgo.
  { intros l' Hn. eapply (tokens_leaker s); try done; [|by apply no_new_refl].
    intros t. rewrite (occ_leaker t q l) by done. rewrite Hn. lia. }
  assert (forall l' v', s_queues s !! q = Some v -> pq v' = pq v ->
    (forall t, cnt t (ch v) + cnt t (lpc_tokens (l_pc l)) = cnt t (ch v') + cnt t (lpc_tokens (l_pc l'))) ->
    tokens_ok (set_leaker q l' (set_queue q v' s))) as Hmv.
  { intros l' v' _ Epq Hn. eapply (tokens_leaker s); try done.
    - intros t. rewrite (occ_leaker t q l), (occ_queue t q v) by done. specialize (Hn t).
      unfold queue_tokens, heap_tokens, pq_tokens. rewrite Epq, !cnt_app. lia.
    - eapply (no_new_set _ _ q v); try done. unfold pq_tokens. by rewrite Epq. }
  destruct (l_pc l) as [| | |t res| |t|t|t|t res| | |t| |[|t ts]| |] eqn:Hp.
  - intros E. simplify_eq. repeat case_match; by apply Hgo.
  - destruct tick; [case_match|destruct (s_done s)]; intros E; simplify_eq; by apply Hgo.
  - pose proof (tokens_tick s q l v Ht Hok Hl Hp Hv) as H.
    destruct (popReadyPriorityLocked _ _) as [[u|] v']; intros E; simplify_eq; by apply H.
  - destruct (send _ _ _) as [s1|] eqn:Es; [|done]. cbn. intros E. simplify_eq.
    apply (tokens_leak_send s s1 q l t res); try done. by rewrite Hp.
  - intros E. simplify_eq. destruct (ch v) as [|t r] eqn:Ech; [by apply Hgo|]. apply Hmv; try done.
    intros u. cbn. rewrite !cnt_cons, !cnt_nil. lia.
  - intros E. simplify_eq. by apply Hmv.
  - intros E. simplify_eq. apply Hgo. cbn. by destruct (ctx_err _ _).
  - intros E. simplify_eq. by apply Hgo.
  - destruct (send _ _ _) as [s1|] eqn:Es; [|done]. cbn. intros E. simplify_eq.
    apply (tokens_leak_send s s1 q l t res); try done. by rewrite Hp.
  - intros E. simplify_eq. apply Hgo. cbn. by case_match.
  - intros E. simplify_eq. destruct (ch v) as [|t r] eqn:Ech; [by apply Hgo|]. apply Hmv; try done.
    intros u. cbn. rewrite !cnt_cons, !cnt_nil. lia.
  - destruct (send _ _ _) as [s1|] eqn:Es; [|done]. cbn. intros E. simplify_eq.
    eapply (tokens_leak_send s s1 q l); try done. by rewrite Hp.
  - pose proof (drain_taken (s_lb s) v Hok) as Hd. destruct (drain_heap v) as [ts v']. destruct Hd as (gone & Htk & Hts).
    intros E. simplify_eq. eapply (tokens_leaker s); try done.
    + intros u. rewrite (occ_leaker u q l), (occ_queue u q v) by done. rewrite Hp, (taken_cnt v v' gone) by done.
      cbn [lpc_tokens at_lpc l_pc]. rewrite (cnt_perm u _ _ Hts), cnt_nil. lia.
    + eapply (no_new_set _ _ q v); try done. intros u. by eapply taken_sub.
  - intros E. simplify_eq. by apply Hgo.
  - destruct (send _ _ _) as [s1|] eqn:Es; [|done]. cbn. intros E. simplify_eq.
    eapply (tokens_leak_send s s1 q l); try done. by rewrite Hp.
  - done.
  - done.
Qed.

(** ** Queues stay within their capacity *)

Lemma enqueue_ok lb i c v : queue_ok lb v -> (forall u, u ∈ pq_tokens v -> pt_id u <> i) ->
  capacity lb - depthLocked v <? batch (c_kind c) = false ->
  queue_ok lb (match c_kind c with
    | KAllowP prio => push_waiter i prio v
    | k => with_ch (ch v ++ batch_tokens i (batch k)) v
    end).
Proof.
  intros [Hd Hpq] Hf Hcap. apply Z.ltb_ge in Hcap.
  assert (forall n, zlength (batch_tokens i n) = Z.max 0 n) as Hbt.
  { intros n. unfold batch_tokens, zlength. rewrite length_map, length_seq. lia. }
  assert (forall n, 0 <= n -> n <= capacity lb - depthLocked v -> queue_ok lb (with_ch (ch v ++ batch_tokens i n) v)) as Hch.
  { intros n Hn Hc. split; [|done]. unfold depthLocked in *. cbn [ch with_ch pq_tokens pq]. rewrite zlength_app, Hbt.
    change (pq_tokens (with_ch _ v)) with (pq_tokens v). lia. }
  destruct (c_kind c) as [|n|prio|]; cbn [batch] in *; [apply Hch; lia| | |].
  - destruct (Z.le_gt_cases 0 n); [by apply Hch|]. split; [|done]. unfold depthLocked in *. cbn [ch with_ch].
    rewrite zlength_app, Hbt. change (pq_tokens (with_ch _ v)) with (pq_tokens v). lia.
  - destruct (pq_tokens_push v i prio (nextSeq (ensurePQ v)) Hpq Hf) as (p & E & Hok & Hperm). unfold push_waiter. cbv zeta. rewrite E.
    split; [|done]. unfold depthLocked in *. cbn [ch]. unfold pq_tokens at 1. cbn [pq]. unfold zlength in *.
    rewrite Hperm. assert (ch (ensurePQ v) = ch v) as -> by (unfold ensurePQ; by destruct (pq v)). cbn [length]. lia.
  - apply Hch; lia.
Qed.

Lemma queues_set lb (l : list keyQueue) q v : Forall (queue_ok lb) l -> queue_ok lb v -> Forall (queue_ok lb) (<[q := v]> l).
Proof. intros Hl Hv. by apply Forall_insert. Qed.

Lemma queue_ok_ch lb v t l : queue_ok lb v -> ch v = t :: l -> queue_ok lb (with_ch l v).
Proof.
  intros [Hd Hp] E. split; [|done]. unfold depthLocked in *. rewrite E in Hd. cbn [ch with_ch].
  change (pq_tokens (with_ch l v)) with (pq_tokens v). unfold zlength in *. cbn [length] in Hd. lia.
Qed.

Lemma getOrCreate_lb key s : s_lb (getOrCreate key s).2 = s_lb s /\ s_now (getOrCreate key s).2 = s_now s.
Proof. unfold getOrCreate. by destruct (s_map s !! key). Qed.

Lemma getOrCreate_queues key s : 0 <= capacity (s_lb s) -> Forall (queue_ok (s_lb s)) (s_queues s) ->
  Forall (queue_ok (s_lb s)) (s_queues (getOrCreate key s).2).
Proof.
  intros Hcap Hq. unfold getOrCreate. destruct (s_map s !! key); [done|]. cbn. apply Forall_app. split; [done|].
  constructor; [|done]. split; done.
Qed.

Lemma getOrCreate_leakers key s : Forall (leaker_ok (s_lb s) (s_now s)) (s_leakers s) ->
  Forall (leaker_ok (s_lb s) (s_now s)) (s_leakers (getOrCreate key s).2).
Proof.
  intros Hl. unfold getOrCreate. destruct (s_map s !! key); [done|]. cbn. apply Forall_app. split; [done|].
  constructor; [|done]. unfold leaker_ok. cbn. lia.
Qed.

(** What a step does not change, and what it keeps of queues and leakers. *)
Definition same_frame (s s' : system) : Prop :=
  s_lb s' = s_lb s /\ s_now s' = s_now s /\
  Forall (queue_ok (s_lb s)) (s_queues s') /\ Forall (leaker_ok (s_lb s) (s_now s)) (s_leakers s').

Lemma frame_enter s i c : 0 <= capacity (s_lb s) -> Forall (queue_ok (s_lb s)) (s_queues s) ->
  Forall (leaker_ok (s_lb s) (s_now s)) (s_leakers s) -> same_frame s (enter i c s).
Proof.
  intros Hcap Hq Hl. unfold enter. cbn [c_kind c_key].
  assert (forall c1 p, same_frame s (set_call i (at_pc c1 p) s)) as Hset by done.
  assert (forall q s1 c1 p, getOrCreate (c_key c) s = (q, s1) -> same_frame s (set_call i (at_pc c1 p) s1)) as Hst.
  { intros q s1 c1 p E. pose proof (getOrCreate_lb (c_key c) s) as [E1 E2]. pose proof (getOrCreate_queues (c_key c) s Hcap Hq).
    pose proof (getOrCreate_leakers (c_key c) s Hl). by rewrite E in *. }
  destruct (c_kind c); repeat case_match; try apply Hset; by eapply Hst.
Qed.

Lemma frame_send s s1 t r : send t r s = Some s1 -> Forall (queue_ok (s_lb s)) (s_queues s) ->
  Forall (leaker_ok (s_lb s) (s_now s)) (s_leakers s) -> same_frame s s1.
Proof.
  intros Hs Hq Hl. destruct (occ_send t t r s s1 Hs) as (_ & _ & El & Eq & Elb & _ & En).
  unfold same_frame. by rewrite El, Eq, Elb, En.
Qed.

Lemma frame_call_step s s' i recv : inv s -> call_step i recv s = Some s' -> same_frame s s'.
Proof.
  intros (Hcap & Hq & Hl & Ht). unfold call_step, reset_step. destruct (s_calls s !! i) as [c|] eqn:Hc; [|done]. cbn [mbind option_bind].
  assert (forall w v, s_queues s !! w = Some v -> queue_ok (s_lb s) v) as Hok.
  { intros w v Hv. rewrite Forall_forall in Hq. apply Hq. by eapply list_elem_of_lookup_2. }
  assert (forall c1 w v, queue_ok (s_lb s) v -> same_frame s (set_call i c1 (set_queue w v s))) as Hset.
  { intros c1 w v Hv. split_and!; try done. cbn. by apply queues_set. }
  assert (forall c1, same_frame s (set_call i c1 s)) as Hset0 by done.
  assert (forall t r s1 c1, send t r s = Some s1 -> same_frame s (set_call i c1 s1)) as Hsend.
  { intros t r s1 c1 Hs. by apply (frame_send s s1 t r Hs). }
  destruct (c_pc c) as [|q|q k|q|q|q|res|res|q|q t|q|[|t ts]| |] eqn:Hp; try done.
  - intros E. simplify_eq. by apply frame_enter.
  - destruct (s_queues s !! q) as [v|] eqn:Hv; [|done]. cbn [mbind option_bind]. intros E. simplify_eq.
    unfold enqueue. destruct (_ <? _) eqn:Ecap; [done|]. apply Hset. apply enqueue_ok; [by eapply Hok| |done].
    intros u Hu E. pose proof (cnt_pos _ _ (heap_token_in v u Hu)) as H1.
    pose proof (proj1 (occ_parts (pt_id u, 0%nat) s) q v Hv) as H2. rewrite E in *.
    destruct (proj1 (proj2 (proj2 Ht)) i c Hc) as [_ H]. rewrite Hp in H. destruct H as [H _]. rewrite H in H2. lia.
  - unfold await. intros E. repeat case_match; simplify_option_eq; done.
  - destruct (s_queues s !! q) as [v|] eqn:Hv; [|done]. cbn [mbind option_bind]. intros E. simplify_eq. apply Hset.
    destruct (remove_taken (s_lb s) v i (Hok q v Hv)) as (gone & Htk & _). by eapply taken_ok; [eapply Hok|].
  - destruct (s_queues s !! q); [|done]. cbn. intros E. by simplify_eq.
  - destruct (s_queues s !! q); [|done]. cbn. intros E. by simplify_eq.
  - intros E. by simplify_eq.
  - destruct (s_queues s !! q) as [v|] eqn:Hv; [|done]. cbn. intros E. simplify_eq.
    destruct (ch v) as [|t l] eqn:Ech; [done|]. apply Hset. by eapply queue_ok_ch; [eapply Hok|].
  - destruct (send _ _ _) as [s1|] eqn:Es; [|done]. cbn. intros E. simplify_eq. by eapply Hsend.
  - destruct (s_queues s !! q) as [v|] eqn:Hv; [|done]. cbn [mbind option_bind].
    pose proof (drain_taken (s_lb s) v (Hok q v Hv)) as Hd. destruct (drain_heap v) as [ts v']. destruct Hd as (gone & Htk & _).
    intros E. simplify_eq. apply Hset. by eapply taken_ok; [eapply Hok|].
  - intros E. by simplify_eq.
  - destruct (send _ _ _) as [s1|] eqn:Es; [|done]. cbn. intros E. simplify_eq. by eapply Hsend.
  - intros E. by simplify_eq.
Qed.

(** The counters of a leaker after a move. *)
Ltac leak := unfold leaker_ok; cbn; try case_match; cbn; (split_and!; [lia..|try done]).

Lemma frame_leaker_step s s' q tick : inv s -> leaker_step q tick s = Some s' -> same_frame s s'.
Proof.
  intros (Hcap & Hq & Hl & Ht). unfold leaker_step, drain_step. destruct (s_leakers s !! q) as [l|] eqn:Hlk; [|done]. cbn [mbind option_bind].
  destruct (s_queues s !! q) as [v|] eqn:Hv; [|done]. cbn [mbind option_bind].
  assert (queue_ok (s_lb s) v) as Hok by (rewrite Forall_forall in Hq; apply Hq; by eapply list_elem_of_lookup_2).
  assert (leaker_ok (s_lb s) (s_now s) l) as Hlok by (rewrite Forall_forall in Hl; apply Hl; by eapply list_elem_of_lookup_2).
  assert (forall l' v', leaker_ok (s_lb s) (s_now s) l' -> queue_ok (s_lb s) v' ->
    same_frame s (set_leaker q l' (set_queue q v' s))) as Hboth.
  { intros l' v' Hl' Hv'. split_and!; try done; cbn; [by apply queues_set|by apply Forall_insert]. }
  assert (forall l', leaker_ok (s_lb s) (s_now s) l' -> same_frame s (set_leaker q l' s)) as Hgo.
  { intros l' Hl'. split_and!; try done; cbn. by apply Forall_insert. }
  assert (forall t r s1 l', send t r s = Some s1 -> leaker_ok (s_lb s) (s_now s) l' -> same_frame s (set_leaker q l' s1)) as Hsend.
  { intros t r s1 l' Hs Hl'. destruct (frame_send s s1 t r Hs Hq Hl) as (E1 & E2 & F1 & F2).
    split_and!; try done; cbn. by apply Forall_insert. }
  unfold leaker_ok in Hlok.
  destruct (l_pc l) as [| | |t res| |t|t|t|t res| | |t| |[|t ts]| |] eqn:Hp; cbn in Hlok; try done.
  - intros E. simplify_eq. repeat case_match; apply Hgo; leak.
  - destruct tick; [case_cmp|destruct (s_done s)]; intros E; simplify_eq; apply Hgo; leak.
  - pose proof (popReady_taken (s_lb s) (ctx_err s) (s_now s) v Hok) as H.
    destruct (popReadyPriorityLocked _ _) as [ot v']. destruct H as (d & Htk & _). intros E. simplify_eq.
    apply Hboth; [|by eapply taken_ok]. destruct ot; leak.
  - destruct (send _ _ _) as [s1|] eqn:Es; [|done]. cbn. intros E. simplify_eq. eapply Hsend; [done|].
    unfold grant_leaker; leak.
  - intros E. simplify_eq. destruct (ch v) as [|t r] eqn:Ech; [apply Hgo; leak|].
    apply Hboth; [leak|]. by eapply queue_ok_ch.
  - intros E. simplify_eq. apply Hboth; [leak|done].
  - intros E. simplify_eq. apply Hgo; leak.
  - intros E. simplify_eq. apply Hgo; leak.
  - destruct (send _ _ _) as [s1|] eqn:Es; [|done]. cbn. intros E. simplify_eq. eapply Hsend; [done|].
    unfold grant_leaker; leak.
  - intros E. simplify_eq. apply Hgo; leak.
  - intros E. simplify_eq. destruct (ch v) as [|t r] eqn:Ech; [apply Hgo; leak|].
    apply Hboth; [leak|]. by eapply queue_ok_ch.
  - destruct (send _ _ _) as [s1|] eqn:Es; [|done]. cbn. intros E. simplify_eq. eapply Hsend; [done|].
    leak.
  - pose proof (drain_taken (s_lb s) v Hok) as Hd. destruct (drain_heap v) as [ts v']. destruct Hd as (gone & Htk & _).
    intros E. simplify_eq. apply Hboth; [leak|by eapply taken_ok].
  - intros E. simplify_eq. apply Hgo; leak.
  - destruct (send _ _ _) as [s1|] eqn:Es; [|done]. cbn. intros E. simplify_eq. eapply Hsend; [done|].
    leak.
Qed.

(** ** Every step keeps the invariant *)

Lemma inv_now s now : inv s -> s_now s <= now -> inv (set_now now s).
Proof.
  intros (Hcap & Hq & Hl & Ht) Hn. split_and!; try done. cbn. eapply Forall_impl; [exact Hl|].
  intros l (H1 & H2 & H3 & H4). unfold leaker_ok. cbn in *. split_and!; try done; lia.
Qed.

Lemma inv_cancel s s' i : inv s -> cancel i s = Some s' -> inv s'.
Proof.
  intros (Hcap & Hq & Hl & Ht). unfold cancel. destruct (s_calls s !! i) as [c|] eqn:Hc; [|done]. cbn. intros E. simplify_eq.
  set (c' := mkCall (c_kind c) (c_key c) (c_start c) true (c_pc c)).
  assert (forall t, occ t (set_call i c' s) = occ t s) as Ho.
  { intros t. rewrite (occ_call t i c) by done. cbn. lia. }
  split_and!; try done. apply (tokens_call_same s _ i c c'); try done; [|by apply no_new_refl].
  destruct (proj1 (proj2 (proj2 Ht)) i c Hc) as [Hb Hpc]. split; cbn [c_kind c_pc c'].
  - intros k. rewrite Ho. apply Hb.
  - destruct (c_pc c); try done.
    + intros k. rewrite Ho. apply Hpc.
    + destruct Hpc as [Hz ?]. split; [|done]. intros k'. rewrite Ho. apply Hz.
    + intros k' Hk'. rewrite Ho. destruct (Hpc k' Hk') as [?|[? _]]; [by left|by right].
    + destruct Hpc. done.
Qed.

Lemma inv_env s s' : inv s -> s_lb s' = s_lb s -> s_now s' = s_now s -> s_queues s' = s_queues s ->
  s_leakers s' = s_leakers s -> s_calls s' = s_calls s -> s_results s' = s_results s -> inv s'.
Proof.
  intros (Hcap & Hq & Hl & Ht) E1 E2 E3 E4 E5 E6. unfold inv. rewrite E1, E2, E3, E4. split_and!; try done.
  apply (tokens_env s); try done; [|by apply no_new_refl]. intros j k. left. unfold occ. by rewrite E3, E4, E5, E6.
Qed.

Lemma inv_step s s' : inv s -> step s s' -> inv s'.
Proof.
  intros HI Hst. destruct Hst as [a now s1 s2 Hn Ha]. apply (inv_now s1 now) in HI; [|done]. revert Ha. generalize dependent (set_now now s1).
  intros s HI Ha. pose proof HI as (Hcap & Hq & Hl & Ht). destruct a as [i recv|q tick|key cutoff|key| |i]; cbn [act] in Ha.
  - destruct (frame_call_step s s2 i recv HI Ha) as (E1 & E2 & F1 & F2). unfold inv. rewrite E1, E2.
    split_and!; try done. by eapply tokens_call_step.
  - destruct (frame_leaker_step s s2 q tick HI Ha) as (E1 & E2 & F1 & F2). unfold inv. rewrite E1, E2.
    split_and!; try done. by eapply tokens_leaker_step.
  - unfold sweep_key in Ha. repeat (case_match; simplify_option_eq); try done; by apply (inv_env s).
  - unfold Peek in Ha. pose proof (getOrCreate_lb key s) as [E1 E2]. pose proof (getOrCreate_queues key s Hcap Hq).
    pose proof (getOrCreate_leakers key s Hl). pose proof (getOrCreate_calls key s). pose proof (getOrCreate_no_new key s).
    pose proof (fun t => occ_getOrCreate t key s) as Ho. destruct (getOrCreate key s) as [q s1']. cbn [snd] in *.
    destruct (s_queues s1' !! q); [|done]. cbn in Ha. simplify_eq. unfold inv. rewrite E1, E2. split_and!; try done.
    apply (tokens_leaker s); done.
  - simplify_eq. by apply (inv_env s).
  - by eapply inv_cancel.
Qed.

Lemma inv_init lb now cs : 0 < capacity lb -> inv (init lb now cs).
Proof.
  intros Hcap. assert (forall t, occ t (init lb now cs) = 0) as Ho.
  { intros t. unfold occ. cbn. rewrite map_map.
    assert (zsum (map (fun x => cnt t (pc_tokens (c_pc (fresh x)))) cs) = 0) as ->; [|done].
    induction cs as [|x cs IH]; [done|]. cbn [map]. change (zsum (?a :: ?l)) with (a + zsum l). rewrite IH. done. }
  split; [cbn; lia|]. split; [constructor|]. split; [constructor|]. unfold tokens_ok. split_and!.
  - intros t. rewrite Ho. lia.
  - intros i k. by rewrite Ho.
  - intros i c Hc. cbn in Hc. apply list_lookup_fmap_Some in Hc as (x & -> & _). split; [intros k; by rewrite Ho|].
    cbn. intros k. apply Ho.
  - cbn. intros v u Hv. set_solver.
Qed.

Lemma inv_reachable lb s : 0 < capacity lb -> reachable lb s -> inv s.
Proof.
  intros Hcap (now & cs & Hr). assert (inv (init lb now cs)) as H0 by (by apply inv_init).
  remember (init lb now cs) as s0 eqn:E0. clear E0. induction Hr as [|x y z Hs _ IH]; [done|]. apply IH. by eapply inv_step.
Qed.

Lemma reachable_lb lb s : 0 < capacity lb -> reachable lb s -> s_lb s = lb.
Proof.
  intros Hcap (now & cs & Hr). assert (inv (init lb now cs)) as H0 by (by apply inv_init).
  assert (s_lb (init lb now cs) = lb) as E by done.
  remember (init lb now cs) as s0 eqn:E0. clear E0. induction Hr as [|x y z Hs _ IH]; [done|].
  apply IH; [by eapply inv_step|]. destruct Hs as [a now' s1 s2 Hn Ha].
  apply (inv_now s1 now') in H0; [|done]. destruct a as [i recv|q tick|key cutoff|key| |i]; cbn [act] in Ha.
  - by destruct (frame_call_step _ s2 i recv H0 Ha) as (-> & _).
  - by destruct (frame_leaker_step _ s2 q tick H0 Ha) as (-> & _).
  - unfold sweep_key in Ha. repeat (case_match; simplify_option_eq); done.
  - unfold Peek in Ha. pose proof (getOrCreate_lb key (set_now now' s1)) as [E1 _].
    destruct (getOrCreate key (set_now now' s1)) as [q s1']. cbn [snd] in *.
    destruct (s_queues s1' !! q); [|done]. cbn in Ha. by simplify_eq.
  - by simplify_eq.
  - unfold cancel in Ha. destruct (s_calls (set_now now' s1) !! i); [|done]. cbn in Ha. by simplify_eq.
Qed.

(** ** Grants *)

Definition grants (s : system) : Z := zsum (map l_grants (s_leakers s)).

(** The granted results that have been sent. *)
Definition allowed_results (s : system) : Z :=
  Z.of_nat (size (filter (fun tr : token * Result => Allowed tr.2 = true) (s_results s))).

Lemma allowed_insert (m : gmap token Result) t r : m !! t = None ->
  Z.of_nat (size (filter (fun tr : token * Result => Allowed tr.2 = true) (<[t := r]> m))) =
  Z.of_nat (size (filter (fun tr : token * Result => Allowed tr.2 = true) m)) + (if Allowed r then 1 else 0).
Proof.
  intros Hm. destruct (Allowed r) eqn:E.
  - rewrite map_filter_insert_True by done. rewrite map_size_insert_None; [lia|].
    apply map_lookup_filter_None. by left.
  - rewrite map_filter_insert_False by (cbn; congruence). rewrite delete_id by done. lia.
Qed.

Lemma send_grants s s1 t r : send t r s = Some s1 ->
  grants s1 = grants s /\ allowed_results s1 = allowed_results s + (if Allowed r then 1 else 0).
Proof.
  unfold send. destruct (s_results s !! t) eqn:E; [done|]. intros H. simplify_eq. split; [done|].
  by apply allowed_insert.
Qed.

Definition balance (s s' : system) : Prop :=
  allowed_results s' - allowed_results s = grants s' - grants s.

Lemma balance_same s s' : s_results s' = s_results s -> grants s' = grants s -> balance s s'.
Proof. unfold balance, allowed_results. intros -> ->. lia. Qed.

Lemma getOrCreate_grants key s : grants (getOrCreate key s).2 = grants s /\ s_results (getOrCreate key s).2 = s_results s.
Proof.
  unfold getOrCreate. destruct (s_map s !! key); [done|]. split; [|done]. unfold grants. cbn.
  rewrite map_app, zsum_app. change (zsum (map l_grants [_])) with 0. lia.
Qed.

Lemma call_step_balance s s' i recv : call_step i recv s = Some s' -> balance s s'.
Proof.
  unfold call_step, reset_step. destruct (s_calls s !! i) as [c|] eqn:Hc; [|done]. cbn [mbind option_bind].
  assert (forall t s1 c1, send t (denied (s_lb s) 0) s = Some s1 -> balance s (set_call i c1 s1)) as Hsend.
  { intros t s1 c1 Hs. destruct (send_grants _ _ _ _ Hs) as [E1 E2]. unfold balance.
    change (grants (set_call i c1 s1)) with (grants s1).
    change (allowed_results (set_call i c1 s1)) with (allowed_results s1). rewrite E1, E2. cbn. lia. }
  destruct (c_pc c) as [|q|q k|q|q|q|res|res|q|q t|q|[|t ts]| |] eqn:Hp; try done; intros E.
  - simplify_eq. unfold enter. cbn [c_kind c_key].
    assert (forall q s1 c1 p, getOrCreate (c_key c) s = (q, s1) -> balance s (set_call i (at_pc c1 p) s1)) as Hst.
    { intros q s1 c1 p E. pose proof (getOrCreate_grants (c_key c) s) as [E1 E2]. rewrite E in *.
      by apply balance_same. }
    destruct (c_kind c); repeat case_match; try (by apply balance_same); by eapply Hst.
  - destruct (s_queues s !! q); [|done]. cbn [mbind option_bind] in E. simplify_eq. unfold enqueue.
    destruct (_ <? _); by apply balance_same.
  - unfold await in E. repeat case_match; simplify_option_eq; try done; by apply balance_same.
  - destruct (s_queues s !! q); [|done]. cbn [mbind option_bind] in E. simplify_eq. by apply balance_same.
  - destruct (s_queues s !! q); [|done]. cbn in E. simplify_eq. by apply balance_same.
  - destruct (s_queues s !! q); [|done]. cbn in E. simplify_eq. by apply balance_same.
  - simplify_eq. by apply balance_same.
  - destruct (s_queues s !! q) as [v|]; [|done]. cbn in E. simplify_eq. destruct (ch v); by apply balance_same.
  - destruct (send _ _ _) as [s1|] eqn:Es; [|done]. cbn in E. simplify_eq. by eapply Hsend.
  - destruct (s_queues s !! q) as [v|]; [|done]. cbn [mbind option_bind] in E. destruct (drain_heap v).
    simplify_eq. by apply balance_same.
  - simplify_eq. by apply balance_same.
  - destruct (send _ _ _) as [s1|] eqn:Es; [|done]. cbn in E. simplify_eq. by eapply Hsend.
  - simplify_eq. by apply balance_same.
Qed.

Lemma leaker_step_balance s s' q tick : inv s -> leaker_step q tick s = Some s' -> balance s s'.
Proof.
  intros (_ & _ & Hl & _). unfold leaker_step, drain_step. destruct (s_leakers s !! q) as [l|] eqn:Hlk; [|done]. cbn [mbind option_bind].
  destruct (s_queues s !! q) as [v|] eqn:Hv; [|done]. cbn [mbind option_bind].
  assert (leaker_ok (s_lb s) (s_now s) l) as Hlok by (rewrite Forall_forall in Hl; apply Hl; by eapply list_elem_of_lookup_2).
  assert (forall s1 l', s_leakers s1 = s_leakers s -> grants (set_leaker q l' s1) = grants s - l_grants l + l_grants l') as Hg.
  { intros s1 l' E. unfold grants. cbn. rewrite E. by rewrite (zsum_map_insert _ _ q l) by done. }
  assert (forall s1 l', s_leakers s1 = s_leakers s -> s_results s1 = s_results s -> l_grants l' = l_grants l ->
    balance s (set_leaker q l' s1)) as Hgo.
  { intros s1 l' E1 E2 E3. apply balance_same; [done|]. rewrite Hg by done. lia. }
  assert (forall t r s1 l', send t r s = Some s1 -> l_grants l' = l_grants l + (if Allowed r then 1 else 0) ->
    balance s (set_leaker q l' s1)) as Hsend.
  { intros t r s1 l' Hs E. destruct (send_grants _ _ _ _ Hs) as [_ E2]. unfold balance.
    rewrite Hg by (by apply (occ_send t) in Hs; apply Hs). change (allowed_results (set_leaker q l' s1)) with (allowed_results s1). lia. }
  destruct (l_pc l) as [| | |t res| |t|t|t|t res| | |t| |[|t ts]| |] eqn:Hp; try done; intros E.
  - simplify_eq. unfold leaker_ok in Hlok. rewrite Hp in Hlok. cbn in Hlok.
    repeat case_match; apply Hgo; try done. cbn. assert (l_ticks l = 0) by (by apply Hlok). lia.
  - destruct tick; [case_match|destruct (s_done s)]; simplify_eq; by apply Hgo.
  - destruct (popReadyPriorityLocked _ _). simplify_eq. by apply Hgo.
  - destruct (send _ _ _) as [s1|] eqn:Es; [|done]. cbn in E. simplify_eq. eapply Hsend; [done|]. cbn. case_match; lia.
  - simplify_eq. destruct (ch v); by apply Hgo.
  - simplify_eq. by apply Hgo.
  - simplify_eq. by apply Hgo.
  - simplify_eq. by apply Hgo.
  - destruct (send _ _ _) as [s1|] eqn:Es; [|done]. cbn in E. simplify_eq. eapply Hsend; [done|]. cbn. case_match; lia.
  - simplify_eq. by apply Hgo.
  - simplify_eq. destruct (ch v); by apply Hgo.
  - destruct (send _ _ _) as [s1|] eqn:Es; [|done]. cbn in E. simplify_eq. eapply Hsend; [done|]. cbn. lia.
  - destruct (drain_heap v). simplify_eq. by apply Hgo.
  - simplify_eq. by apply Hgo.
  - destruct (send _ _ _) as [s1|] eqn:Es; [|done]. cbn in E. simplify_eq. eapply Hsend; [done|]. cbn. lia.
Qed.

Lemma step_balance s s' : inv s -> step s s' -> balance s s'.
Proof.
  intros HI Hst. destruct Hst as [a now s1 s2 Hn Ha]. apply (inv_now s1 now) in HI; [|done].
  change (balance (set_now now s1) s2). revert Ha. generalize dependent (set_now now s1). intros s HI Ha.
  destruct a as [i recv|q tick|key cutoff|key| |i]; cbn [act] in Ha.
  - by eapply call_step_balance.
  - by eapply leaker_step_balance.
  - unfold sweep_key in Ha. repeat (case_match; simplify_option_eq); try done; by apply balance_same.
  - unfold Peek in Ha. pose proof (getOrCreate_grants key s) as [E1 E2]. destruct (getOrCreate key s) as [q s1'].
    destruct (s_queues s1' !! q); [|done]. cbn in Ha. simplify_eq. by apply balance_same.
  - simplify_eq. by apply balance_same.
  - unfold cancel in Ha. destruct (s_calls s !! i); [|done]. cbn in Ha. simplify_eq. by apply balance_same.
Qed.

Lemma reachable_balance lb s : 0 < capacity lb -> reachable lb s -> allowed_results s = grants s.
Proof.
  intros Hcap (now & cs & Hr). assert (inv (init lb now cs)) as H0 by (by apply inv_init).
  assert (allowed_results (init lb now cs) = grants (init lb now cs)) as E by done.
  remember (init lb now cs) as s0 eqn:E0. clear E0. induction Hr as [|x y z Hs _ IH]; [done|].
  apply IH; [by eapply inv_step|]. pose proof (step_balance x y H0 Hs) as Hb. unfold balance in Hb. lia.
Qed.

(** ** Abandoned queues *)

(** The queue a [Reset] is draining. *)
Definition draining (p : pc) : option nat :=
  match p with RDrain q | RDeny q _ | RDrainP q => Some q | _ => None end.

(** The leaker of [q] is gone, nobody drains [q] and no new call can find it. *)
Definition abandoned (q : nat) (t : token) (s : system) : Prop :=
  (exists l, s_leakers s !! q = Some l /\ l_pc l = LExit) /\
  (exists v, s_queues s !! q = Some v /\ t ∈ ch v) /\
  map_Forall (fun _ q' => q' <> q) (s_map s) /\
  Forall (fun c => draining (c_pc c) <> Some q) (s_calls s).

Lemma abandoned_set_call q t s i c : abandoned q t s -> draining (c_pc c) <> Some q -> abandoned q t (set_call i c s).
Proof. intros (H1 & H2 & H3 & H4) Hd. split_and!; try done. cbn. by apply Forall_insert. Qed.

Lemma abandoned_set_queue q t s w v v' : abandoned q t s -> s_queues s !! w = Some v ->
  (w = q -> t ∈ ch v -> t ∈ ch v') -> abandoned q t (set_queue w v' s).
Proof.
  intros (H1 & (v0 & Hv0 & Ht) & H3 & H4) Hv Hk. split_and!; try done. cbn.
  destruct (decide (w = q)) as [->|Hne].
  - exists v'. rewrite list_lookup_insert_eq by (by eapply lookup_lt_Some). split; [done|]. apply Hk; [done|]. by simplify_eq.
  - exists v0. by rewrite list_lookup_insert_ne.
Qed.

Lemma abandoned_getOrCreate q t s key : abandoned q t s ->
  abandoned q t (getOrCreate key s).2 /\ (getOrCreate key s).1 <> q.
Proof.
  intros (H1 & H2 & H3 & H4). unfold getOrCreate. destruct (s_map s !! key) as [q'|] eqn:E.
  - split; [done|]. cbn. by apply (H3 key).
  - destruct H1 as (l & Hl & Hp). destruct H2 as (v & Hv & Ht). pose proof (lookup_lt_Some _ _ _ Hv) as Hlt.
    cbn. split; [|lia]. split_and!; cbn.
    + exists l. split; [|done]. by apply lookup_app_l_Some.
    + exists v. split; [|done]. by apply lookup_app_l_Some.
    + apply map_Forall_insert_2; [lia|done].
    + done.
Qed.

Lemma abandoned_send q t s s1 u r : send u r s = Some s1 -> abandoned q t s -> abandoned q t s1.
Proof.
  intros Hs H. destruct (occ_send u u r s s1 Hs) as (_ & Ec & El & Eq & _ & Em & _).
  unfold abandoned. by rewrite Ec, El, Eq, Em.
Qed.

Lemma abandoned_call_step q t s s' i recv : abandoned q t s -> call_step i recv s = Some s' -> abandoned q t s'.
Proof.
  intros Ha. unfold call_step, reset_step. destruct (s_calls s !! i) as [c|] eqn:Hc; [|done]. cbn [mbind option_bind].
  assert (draining (c_pc c) <> Some q) as Hd.
  { destruct Ha as (_ & _ & _ & H). rewrite Forall_forall in H. apply H. by eapply list_elem_of_lookup_2. }
  pose proof (fun c1 => abandoned_set_call q t s i c1 Ha) as Hset.
  destruct (c_pc c) as [|w|w k|w|w|w|res|res|w|w u|w|[|u us]| |] eqn:Hp; cbn in Hd; try done; intros E.
  - simplify_eq. unfold enter. cbn [c_kind c_key].
    assert (forall w s1 c1, getOrCreate (c_key c) s = (w, s1) -> abandoned q t (set_call i (at_pc c1 (PEnq w)) s1)) as Hst.
    { intros w s1 c1 E. pose proof (abandoned_getOrCreate q t s (c_key c) Ha) as [H _]. rewrite E in H.
      by apply abandoned_set_call. }
    destruct (c_kind c); repeat case_match; try (by apply Hset); try (by eapply Hst).
    apply Hset. cbn. intros E'. simplify_eq. destruct Ha as (_ & _ & H3 & _).
    match goal with H : s_map s !! _ = Some _ |- _ => by apply (H3 _ _ H) end.
  - destruct (s_queues s !! w) as [v|] eqn:Hv; [|done]. cbn [mbind option_bind] in E. simplify_eq. unfold enqueue.
    destruct (_ <? _); [by apply Hset|]. apply abandoned_set_call; [|done].
    apply (abandoned_set_queue q t s w v); try done. intros -> Ht.
    destruct (c_kind c); cbn; try (apply elem_of_app; by left). unfold ensurePQ. by destruct (pq v).
  - unfold await in E. destruct recv; [destruct (s_results s !! (i, k)); [|done]|destruct (c_ctx c); [|done]]; cbn in E;
      simplify_eq; apply Hset; cbn; by repeat case_match.
  - destruct (s_queues s !! w) as [v|] eqn:Hv; [|done]. cbn [mbind option_bind] in E. simplify_eq.
    apply abandoned_set_call; [|done]. apply (abandoned_set_queue q t s w v); try done. intros ->. unfold cancel_waiter. by repeat case_match.
  - destruct (s_queues s !! w); [|done]. cbn in E. simplify_eq. by apply Hset.
  - destruct (s_queues s !! w); [|done]. cbn in E. simplify_eq. by apply Hset.
  - simplify_eq. by apply Hset.
  - destruct (s_queues s !! w) as [v|] eqn:Hv; [|done]. cbn in E. simplify_eq.
    destruct (ch v) as [|u us] eqn:Ech; [by apply Hset|]. apply abandoned_set_call; [|done].
    apply (abandoned_set_queue q t s w v); try done. congruence.
  - destruct (send _ _ _) as [s1|] eqn:Es; [|done]. cbn in E. simplify_eq. apply abandoned_set_call; [|done].
    by eapply abandoned_send.
  - destruct (s_queues s !! w) as [v|] eqn:Hv; [|done]. cbn [mbind option_bind] in E. destruct (drain_heap v) as [ts v'].
    simplify_eq. apply abandoned_set_call; [|done]. apply (abandoned_set_queue q t s w v); try done. congruence.
  - simplify_eq. by apply Hset.
  - destruct (send _ _ _) as [s1|] eqn:Es; [|done]. cbn in E. simplify_eq. apply abandoned_set_call; [|done].
    by eapply abandoned_send.
  - simplify_eq. apply abandoned_set_call; [|done]. destruct Ha as (H1 & H2 & H3 & H4). split_and!; try done.
    cbn. by apply map_Forall_delete.
Qed.

Lemma abandoned_set_leaker q t s w l : abandoned q t s -> w <> q -> abandoned q t (set_leaker w l s).
Proof.
  intros (H1 & H2 & H3 & H4) Hne. split_and!; try done. destruct H1 as (l0 & Hl0 & Hp). exists l0. cbn.
  by rewrite list_lookup_insert_ne.
Qed.

Lemma abandoned_leaker_step q t s s' w tick : abandoned q t s -> leaker_step w tick s = Some s' -> abandoned q t s'.
Proof.
  intros Ha. destruct (decide (w = q)) as [->|Hne].
  { destruct Ha as ((l & Hl & Hp) & _). unfold leaker_step, drain_step. rewrite Hl. cbn. destruct (s_queues s !! q); cbn; by rewrite ?Hp. }
  unfold leaker_step, drain_step. destruct (s_leakers s !! w) as [l|] eqn:Hl; [|done]. cbn [mbind option_bind].
  destruct (s_queues s !! w) as [v|] eqn:Hv; [|done]. cbn [mbind option_bind].
  assert (forall v' l', abandoned q t (set_leaker w l' (set_queue w v' s))) as Hboth.
  { intros v' l'. apply abandoned_set_leaker; [|done]. by apply (abandoned_set_queue q t s w v). }
  pose proof (fun l' => abandoned_set_leaker q t s w l' Ha Hne) as Hgo.
  assert (forall u r s1 l', send u r s = Some s1 -> abandoned q t (set_leaker w l' s1)) as Hsend.
  { intros u r s1 l' Hs. apply abandoned_set_leaker; [|done]. by eapply abandoned_send. }
  destruct (l_pc l) as [| | |u res| |u|u|u|u res| | |u| |[|u us]| |]; try done; intros E.
  all: try (destruct (send _ _ _) as [s1|] eqn:Es; [|done]; cbn in E; simplify_eq; by eapply Hsend).
  all: try (destruct (popReadyPriorityLocked _ _)).
  all: try (destruct (drain_heap v)).
  all: repeat case_match; simplify_eq; try apply Hboth; try apply Hgo.
Qed.

Lemma abandoned_step q t s s' : abandoned q t s -> step s s' -> abandoned q t s'.
Proof.
  intros Ha Hst. destruct Hst as [a now s1 s2 Hn Hact]. change (abandoned q t (set_now now s1)) in Ha.
  revert Hact. generalize dependent (set_now now s1). intros s Ha Hact.
  destruct a as [i recv|w tick|key cutoff|key| |i]; cbn [act] in Hact.
  - by eapply abandoned_call_step.
  - by eapply abandoned_leaker_step.
  - destruct Ha as (H1 & H2 & H3 & H4). unfold sweep_key in Hact.
    repeat (case_match; simplify_option_eq); try done. split_and!; try done. cbn. by apply map_Forall_delete.
  - unfold Peek in Hact. pose proof (abandoned_getOrCreate q t s key Ha) as [H _]. destruct (getOrCreate key s) as [w s1'].
    destruct (s_queues s1' !! w); [|done]. cbn in Hact. by simplify_eq.
  - by simplify_eq.
  - unfold cancel in Hact. destruct (s_calls s !! i) as [c|] eqn:Hc; [|done]. cbn in Hact. simplify_eq.
    apply abandoned_set_call; [done|]. destruct Ha as (_ & _ & _ & H). rewrite Forall_forall in H. apply (H c).
    by eapply list_elem_of_lookup_2.
Qed.

Lemma abandoned_unanswered q t s : inv s -> abandoned q t s -> s_results s !! t = None.
Proof.
  intros (_ & _ & _ & Ht) (_ & (v & Hv & Hin) & _ & _). pose proof (proj1 Ht t) as Hone.
  pose proof (occ_queue t q v (mkQueue [] None 0 0) s Hv) as H. cbn in H. rewrite cnt_nil in H.
  assert (t ∈ queue_tokens v) as Hq by (apply elem_of_app; by left). apply cnt_pos in Hq.
  pose proof (occ_nonneg t (set_results (delete t (s_results s)) (set_queue q (mkQueue [] None 0 0) s))) as Hn.
  unfold occ in H, Hn, Hone. cbn in H, Hn. rewrite lookup_delete_eq in Hn. destruct (s_results s !! t); [lia|done].
Qed.

(** ** Theorems *)

Definition demo_lb : LeakyBucket := mkLB 2 1000%float (5 * Minute) false.

(** Enter and enqueue of call [i]; one tick that serves the channel; one that
    serves the heap. *)
Definition park (i : nat) (now : time) : list (action * time) := [(ACall i true, now); (ACall i true, now)].
Definition tick_ch (now : time) : list (action * time) := replicate 8 (ALeak 0 true, now).
Definition tick_heap (now : time) : list (action * time) := replicate 4 (ALeak 0 true, now).

Definition demo_calls : list (kind * string) := [(KAllow, "k"); (KAllowP 5, "k"); (KAllow, "k")].

Definition demo_sched : list (action * time) :=
  park 0 0 ++ [(ALeak 0 true, 0)] ++ park 1 0 ++ park 2 0 ++ tick_heap Millisecond ++ tick_ch (2 * Millisecond) ++
  [(ACall 1 true, 2 * Millisecond)].

Lemma demo_reachable : exists s, run_schedule (init demo_lb 0 demo_calls) demo_sched = Some s /\
  size (s_results s) = 2%nat /\ length (s_leakers s) = 1%nat.
Proof. eexists. split; [vm_compute; reflexivity|]. vm_compute. done. Qed.

(** C12: Tokens are neither lost nor answered twice.  Under any interleaving of
    calls, leakers, resets, sweeps, Close and cancellations: no queue holds more
    than [capacity] requests, counting channel and heap; a token is in one place
    at most, so that no answer is ever sent twice and no send on a result channel
    blocks; and every answer a caller still waits for is outstanding in exactly
    one place, unless the caller is a cancelled priority waiter. *)
Theorem leaky_bucket_conservation lb s : 0 < capacity lb -> reachable lb s ->
  (forall q v, s_queues s !! q = Some v -> zlength (ch v) + zlength (pq_tokens v) <= capacity lb) /\
  (forall t, occ t s <= 1) /\
  (forall q l t, s_leakers s !! q = Some l -> t ∈ lpc_tokens (l_pc l) -> s_results s !! t = None) /\
  (forall i c t, s_calls s !! i = Some c -> t ∈ pc_tokens (c_pc c) -> s_results s !! t = None) /\
  (forall i c q k0 k, s_calls s !! i = Some c -> c_pc c = PWait q k0 ->
     Z.of_nat k0 <= Z.of_nat k < batch (c_kind c) ->
     occ (i, k) s = 1 \/ (prioritised c = true /\ c_ctx c = true)).
Proof.
  intros Hcap Hr. pose proof (reachable_lb lb s Hcap Hr) as Elb. apply inv_reachable in Hr; [|done].
  destruct Hr as (_ & Hq & _ & Ht). rewrite Elb in Hq. split_and!.
  - intros q v Hv. rewrite Forall_forall in Hq. apply (Hq v). by eapply list_elem_of_lookup_2.
  - apply Ht.
  - intros q l t Hl Hin. apply cnt_pos in Hin. pose proof (proj1 Ht t) as Hone.
    pose proof (occ_leaker t q l (at_lpc l LExit) s Hl) as H.
    pose proof (occ_nonneg t (set_results (delete t (s_results s)) (set_leaker q (at_lpc l LExit) s))) as Hn.
    unfold occ in H, Hn, Hone. cbn in H, Hn. rewrite cnt_nil in H. rewrite lookup_delete_eq in Hn.
    destruct (s_results s !! t); [lia|done].
  - intros i c t Hc Hin. apply cnt_pos in Hin. pose proof (proj1 Ht t) as Hone.
    pose proof (occ_call t i c (at_pc c RDone) s Hc) as H.
    pose proof (occ_nonneg t (set_results (delete t (s_results s)) (set_call i (at_pc c RDone) s))) as Hn.
    unfold occ in H, Hn, Hone. cbn in H, Hn. rewrite cnt_nil in H. rewrite lookup_delete_eq in Hn.
    destruct (s_results s !! t); [lia|done].
  - intros i c q k0 k Hc Hp Hk. destruct (proj1 (proj2 (proj2 Ht)) i c Hc) as [_ H]. rewrite Hp in H. by apply H.
Qed.

Lemma leaky_bucket_conservation_witness : exists s, reachable demo_lb s /\ forall t, occ t s <= 1.
Proof.
  destruct demo_reachable as (s & Hr & _). assert (reachable demo_lb s) as HR.
  { exists 0, demo_calls. by eapply leaky_run_steps. }
  exists s. split; [exact HR|]. apply (leaky_bucket_conservation demo_lb s ltac:(cbn; lia) HR).
Defined.

(** Constant rate.  The requests granted are those counted by the leakers, and
    a leaker that has run for a time [d] has granted at most [d / interval]
    requests, whatever the load, the priorities and the schedule. *)
Theorem leaky_bucket_rate lb s : 0 < capacity lb -> 0 < interval lb -> reachable lb s ->
  allowed_results s = zsum (map l_grants (s_leakers s)) /\
  forall q l, s_leakers s !! q = Some l -> l_grants l * interval lb <= s_now s - l_start l.
Proof.
  intros Hcap Hint Hr. pose proof (reachable_lb lb s Hcap Hr) as Elb. split; [by apply (reachable_balance lb)|].
  apply inv_reachable in Hr; [|done]. destruct Hr as (_ & _ & Hl & _). rewrite Elb in Hl. intros q l Hq.
  rewrite Forall_forall in Hl. destruct (Hl l) as (H1 & H2 & H3 & _); [by eapply list_elem_of_lookup_2|].
  assert (0 <= lpc_pending (l_pc l)) by (by destruct (l_pc l)). nia.
Qed.

Lemma leaky_bucket_rate_witness : exists s, run_schedule (init demo_lb 0 demo_calls) demo_sched = Some s /\
  interval demo_lb = Millisecond /\ allowed_results s = zsum (map l_grants (s_leakers s)).
Proof.
  destruct demo_reachable as (s & Hr & _). assert (reachable demo_lb s) as HR.
  { exists 0, demo_calls. by eapply leaky_run_steps. }
  exists s. split; [exact Hr|]. split; [vm_compute; reflexivity|].
  apply (leaky_bucket_rate demo_lb s ltac:(cbn; lia) ltac:(vm_compute; reflexivity) HR).
Defined.

(** Priorities.  When a leaker serves the heap, the waiter it takes is not
    cancelled, and no waiter of the queue that is not cancelled has a higher
    priority, or the same priority and an earlier arrival; when it turns to the
    channel, every waiter in the heap was cancelled. *)
Theorem leaky_bucket_priority lb s q l v : 0 < capacity lb -> reachable lb s ->
  s_leakers s !! q = Some l -> l_pc l = LTick -> s_queues s !! q = Some v ->
  match fst (popReadyPriorityLocked (ctx_err s) (touch (s_now s) v)) with
  | Some t => t ∈ pq_tokens v /\ ctx_err s (pt_id t) = false /\
      Forall (fun u => ctx_err s (pt_id u) = false ->
        priority u < priority t \/ (priority u = priority t /\ arrival t <= arrival u)) (pq_tokens v)
  | None => Forall (fun u => ctx_err s (pt_id u) = true) (pq_tokens v)
  end.
Proof.
  intros Hcap Hr Hl Hp Hv. apply inv_reachable in Hr; [|done]. destruct Hr as (_ & Hq & _ & _).
  rewrite Forall_forall in Hq. destruct (Hq v) as [_ Hpq]; [by eapply list_elem_of_lookup_2|].
  unfold popReadyPriorityLocked, pq_tokens. cbn [pq touch]. destruct (pq v) as [p|] eqn:Ep; [|constructor].
  pose proof (pop_ready_spec (length (slice p)) (ctx_err s) p Hpq ltac:(lia)) as H.
  destruct (pop_ready _ _ _) as [ot p']. destruct H as (_ & d & Hperm & Hd & Hot). cbn [fst]. destruct ot as [t|].
  - destruct Hot as [Hlive Hall]. split; [rewrite Hperm; apply elem_of_app; right; left|]. split; [done|].
    eapply Forall_impl; [exact Hall|]. intros u Hu Hc. specialize (Hu Hc). unfold tok_before in Hu.
    repeat case_cmp; lia.
  - rewrite Hot in Hperm. cbn in Hperm. rewrite app_nil_r in Hperm. by rewrite Hperm.
Qed.

Definition prio_sched : list (action * time) :=
  park 0 0 ++ [(ALeak 0 true, 0)] ++ park 1 0 ++ [(ALeak 0 true, Millisecond)].

Lemma leaky_bucket_priority_witness : exists s l v,
  run_schedule (init demo_lb 0 [(KAllowP 1, "k"); (KAllowP 5, "k")]) prio_sched = Some s /\
  s_leakers s !! 0%nat = Some l /\ s_queues s !! 0%nat = Some v /\ zlength (pq_tokens v) = 2 /\
  match fst (popReadyPriorityLocked (ctx_err s) (touch (s_now s) v)) with
  | Some t => t ∈ pq_tokens v /\ ctx_err s (pt_id t) = false /\
      Forall (fun u => ctx_err s (pt_id u) = false ->
        priority u < priority t \/ (priority u = priority t /\ arrival t <= arrival u)) (pq_tokens v)
  | None => Forall (fun u => ctx_err s (pt_id u) = true) (pq_tokens v)
  end.
Proof.
  do 3 eexists. split; [vm_compute; reflexivity|]. split; [reflexivity|]. split; [reflexivity|]. split; [reflexivity|].
  eapply (leaky_bucket_priority demo_lb _ 0); [cbn; lia| |reflexivity..].
  exists 0, [(KAllowP 1, "k"); (KAllowP 5, "k")]. eapply (leaky_run_steps _ prio_sched). vm_compute. reflexivity.
Defined.

(** A race with [Reset] can keep a caller waiting for ever.  A schedule leads to
    a state in which a caller with a live context waits for a token in a queue
    whose leaker has exited, although [Reset] drains the queue first so that no
    token is stranded; from any such state on, nothing answers the token. *)
Theorem leaky_bucket_reset_strands :
  (exists s c, reachable demo_lb s /\ s_calls s !! 1%nat = Some c /\ c_pc c = PWait 0 0 /\ c_ctx c = false /\
     abandoned 0 (1%nat, 0%nat) s) /\
  (forall lb s s' q t, 0 < capacity lb -> reachable lb s -> abandoned q t s -> rtc step s s' ->
     s_results s' !! t = None).
Proof.
  split.
  - set (cs := [(KAllow, "k"); (KAllow, "k"); (KReset, "k")]).
    set (sched := [(ACall 0 true, 0); (ALeak 0 true, 0); (ACall 1 true, 0)] ++ replicate 5 (ACall 2 true, 0) ++
      [(ACall 0 true, 0); (ACall 1 true, 0)] ++ tick_ch Millisecond).
    destruct (run_schedule (init demo_lb 0 cs) sched) as [s|] eqn:E; [|by vm_compute in E].
    assert (reachable demo_lb s) as HR by (exists 0, cs; by eapply leaky_run_steps).
    vm_compute in E. injection E as <-. do 2 eexists. split; [exact HR|]. split; [reflexivity|].
    split; [reflexivity|]. split; [reflexivity|]. split_and!.
    + eexists. by split.
    + eexists. split; [reflexivity|]. cbn. left.
    + intros k q Hk. by vm_compute in Hk.
    + repeat constructor; done.
  - intros lb s s' q t Hcap HR Ha Hrt. assert (reachable lb s') as HR'.
    { destruct HR as (now & cs & H). exists now, cs. by etransitivity. }
    apply inv_reachable in HR'; [|done]. apply (abandoned_unanswered q); [done|]. clear HR HR'.
    induction Hrt as [|x y z Hs _ IH]; [done|]. apply IH. by eapply abandoned_step.
Qed.

(** A leak rate above one per nanosecond passes [New], and the first request
    starts a leaker that panics in [NewTicker]. *)
Theorem leaky_bucket_fast_rate_panics : exists lb s l, New 1 2e9%float [] = Ok lb /\ reachable lb s /\
  s_leakers s !! 0%nat = Some l /\ l_pc l = LPanic.
Proof.
  exists (mkLB 1 2e9%float (5 * Minute) false).
  destruct (run_schedule (init (mkLB 1 2e9%float (5 * Minute) false) 0 [(KAllow, "k")])
    [(ACall 0 true, 0); (ALeak 0 true, 0)]) as [s|] eqn:E; [|by vm_compute in E].
  exists s. eexists. split; [reflexivity|]. split; [exists 0, [(KAllow, "k")]; by eapply leaky_run_steps|].
  vm_compute in E. injection E as <-. by split.
Qed.

(** After [Close] the leakers exit, but requests are still accepted: a caller can
    wait on a queue that nobody serves. *)
Theorem leaky_bucket_closed_accepts : exists s c l, reachable demo_lb s /\ s_done s = true /\
  s_calls s !! 0%nat = Some c /\ c_pc c = PWait 0 0 /\ c_ctx c = false /\
  s_leakers s !! 0%nat = Some l /\ l_pc l = LExit.
Proof.
  destruct (run_schedule (init demo_lb 0 [(KAllow, "k")])
    ([(ACall 0 true, 0); (ALeak 0 true, 0); (AClose, 0)] ++ replicate 4 (ALeak 0 false, 0) ++ [(ACall 0 true, 0)]))
    as [s|] eqn:E; [|by vm_compute in E].
  assert (reachable demo_lb s) as HR by (exists 0, [(KAllow, "k")]; by eapply leaky_run_steps).
  vm_compute in E. injection E as <-. do 3 eexists. split; [exact HR|]. by split_and!.
Qed.
