(* ===== verification/Composite.v ===== *)
(** * The composite limiter ([ratelimit/composite/composite.go]).

    Combines limiters with AND or OR logic.  The limiters are known only
    through the interface [Limiter]; what is proved of the composite rests on
    [LimiterLaws], which the fixed window, GCRA and the sliding log satisfy. *)

From S2P Require Import Prelude Float64 Ratelimit FixedWindow Gcra SlidingLog.
Open Scope Z_scope.

Definition algorithmAND : string := "composite_and".
Definition algorithmOR : string := "composite_or".

Inductive Mode := AND | OR.

Section composite.
Context {S : Type} `{Limiter S}.

Record CompositeLimiter := mkComposite {
  limiters : list S;
  mode : Mode;
  onDecision : bool;
}.

Definition with_limiters (c : CompositeLimiter) (ls : list S) : CompositeLimiter :=
  mkComposite ls (mode c) (onDecision c).

Definition New (mode : Mode) (limiters : list S)
    (opts : list (CompositeLimiter -> CompositeLimiter)) : CompositeLimiter :=
  foldl (fun c o => o c) (mkComposite limiters mode false) opts.

Definition WithOnDecision (c : CompositeLimiter) : CompositeLimiter :=
  mkComposite (limiters c) (mode c) true.

Definition algorithm (c : CompositeLimiter) : string :=
  match mode c with OR => algorithmOR | AND => algorithmAND end.

(** ** Results *)

Definition set_algorithm (algo : string) (r : Result) : Result :=
  mkResult (Allowed r) (Limit r) (Remaining r) (ResetAfter r) (RetryAfter r) algo (Metadata r).

Definition worse (worst r : Result) : Result :=
  mkResult (Allowed worst) (Limit worst)
    (if Remaining r <? Remaining worst then Remaining r else Remaining worst)
    (ResetAfter worst)
    (if RetryAfter worst <? RetryAfter r then RetryAfter r else RetryAfter worst)
    (Algorithm worst) (Metadata worst).

Definition deny (r : Result) : Result :=
  mkResult false (Limit r) (Remaining r) (ResetAfter r) (RetryAfter r) (Algorithm r) (Metadata r).

(** The helpers take the first result and the rest: [results] is never empty. *)
Definition mostRestrictive (r0 : Result) (rs : list Result) (algo : string) : Result :=
  set_algorithm algo (deny (foldl worse r0 rs)).

Definition leastRemaining (r0 : Result) (rs : list Result) (algo : string) : Result :=
  set_algorithm algo (foldl (fun least r => if Remaining r <? Remaining least then r else least) r0 rs).

Definition shortestRetry (r0 : Result) (rs : list Result) (algo : string) : Result :=
  set_algorithm algo (foldl (fun s r => if RetryAfter r <? RetryAfter s then r else s) r0 rs).

(** ** AND *)

(** The instants at which the [i]-th limiter's clock is read: by [Peek] in
    phase 1, by [AllowN] afterwards. *)
Record and_reads := mkAndReads { at_peek : nat -> time; at_allow : nat -> time }.

Definition and_reads_at (t : time) : and_reads := mkAndReads (fun _ => t) (fun _ => t).

Fixpoint peek_all (at_ : nat -> time) (i : nat) (ls : list S) (key : string) : list State * list S :=
  match ls with
  | [] => ([], [])
  | l :: ls' =>
      let '(st, l') := lim_Peek l (at_ i) key in
      let '(sts, ls'') := peek_all at_ (Datatypes.S i) ls' key in
      (st :: sts, l' :: ls'')
  end.

(** Phase 2: consume until a limiter denies; the results so far, whether all
    allowed, and the limiters. *)
Fixpoint consume_all (at_ : nat -> time) (i : nat) (ls : list S) (key : string) (n : Z)
  : list Result * bool * list S :=
  match ls with
  | [] => ([], true, [])
  | l :: ls' =>
      let '(r, l') := lim_AllowN l (at_ i) key n in
      if Allowed r then
        let '(rs, ok, ls'') := consume_all at_ (Datatypes.S i) ls' key n in (r :: rs, ok, l' :: ls'')
      else ([r], false, l' :: ls')
  end.

(** [denyResultAND]: [AllowN] only on the limiters whose peek was too small. *)
Fixpoint deny_loop (at_ : nat -> time) (i : nat) (ls : list S) (peeks : list State) (key : string) (n : Z)
    (out : Result) : Result * list S :=
  match ls, peeks with
  | l :: ls', p :: ps =>
      if n <=? st_Remaining p then
        let '(out, ls'') := deny_loop at_ (Datatypes.S i) ls' ps key n out in (out, l :: ls'')
      else
        let '(r, l') := lim_AllowN l (at_ i) key n in
        let out := mkResult (Allowed out)
          (if Remaining r <? Remaining out then Limit r else Limit out)
          (if Remaining r <? Remaining out then Remaining r else Remaining out)
          (ResetAfter out)
          (if RetryAfter out <? RetryAfter r then RetryAfter r else RetryAfter out)
          (Algorithm out) (Metadata out) in
        let '(out, ls'') := deny_loop at_ (Datatypes.S i) ls' ps key n out in (out, l' :: ls'')
  | _, _ => (out, ls)
  end.

Definition denyResultAND (algo : string) (at_ : nat -> time) (ls : list S) (peeks : list State)
    (key : string) (n : Z) : Result * list S :=
  match peeks with
  | [] => (denied_zero algo, ls)
  | p0 :: _ =>
      deny_loop at_ 0 ls peeks key n
        (mkResult false (st_Limit p0) (st_Remaining p0) 0 0 algo ∅)
  end.

Definition allowAND (algo : string) (rd : and_reads) (ls : list S) (key : string) (n : Z)
  : Result * list S :=
  let '(peeks, ls) := peek_all (at_peek rd) 0 ls key in
  if existsb (fun p => st_Remaining p <? n) peeks then
    denyResultAND algo (at_allow rd) ls peeks key n
  else
    let '(rs, ok, ls) := consume_all (at_allow rd) 0 ls key n in
    match rs with
    | [] => (denied_zero algo, ls)
    | r0 :: rest => (if ok then leastRemaining r0 rest algo else mostRestrictive r0 rest algo, ls)
    end.

(** ** OR *)

Fixpoint or_loop (at_ : nat -> time) (i : nat) (ls : list S) (key : string) (n : Z)
  : list Result * option Result * list S :=
  match ls with
  | [] => ([], None, [])
  | l :: ls' =>
      let '(r, l') := lim_AllowN l (at_ i) key n in
      if Allowed r then ([r], Some r, l' :: ls')
      else
        let '(rs, won, ls'') := or_loop at_ (Datatypes.S i) ls' key n in (r :: rs, won, l' :: ls'')
  end.

Definition allowOR (algo : string) (rd : and_reads) (ls : list S) (key : string) (n : Z)
  : Result * list S :=
  let '(rs, won, ls) := or_loop (at_allow rd) 0 ls key n in
  match won, rs with
  | Some r, _ => (set_algorithm algo r, ls)
  | None, r0 :: rest => (shortestRetry r0 rest algo, ls)
  | None, [] => (denied_zero algo, ls)
  end.

(** ** The limiter's operations *)

Definition allowN_body (c : CompositeLimiter) (rd : and_reads) (key : string) (n : Z)
  : Result * CompositeLimiter :=
  match limiters c with
  | [] => (denied_zero (algorithm c), c)
  | ls =>
      let '(r, ls') := match mode c with
                       | AND => allowAND (algorithm c) rd ls key n
                       | OR => allowOR (algorithm c) rd ls key n
                       end in
      (r, with_limiters c ls')
  end.

Definition AllowN (c : CompositeLimiter) (start stop : time) (rd : and_reads) (key : string) (n : Z)
  : Result * CompositeLimiter * list event :=
  let '(res, c) := allowN_body c rd key n in
  let res := if n =? 1 then res else setCost res (AInt n) in
  (res, c,
   record_decision (algorithm c) res start stop ++ (if onDecision c then [OnDecision key res] else [])).

Definition Allow (c : CompositeLimiter) (start stop : time) (rd : and_reads) (key : string)
  : Result * CompositeLimiter * list event := AllowN c start stop rd key 1.

(** [WaitN] retries the whole decision; each turn has its own readings. *)
Inductive cwake := CTimer (start stop : time) (rd : and_reads) | CCtxDone.

Fixpoint WaitN (c : CompositeLimiter) (start stop : time) (rd : and_reads) (key : string) (n : Z)
    (wakes : list cwake) : wait_result * CompositeLimiter :=
  let '(res, c, _) := AllowN c start stop rd key n in
  if Allowed res then (Returned None, c)
  else
    let wait := if RetryAfter res <=? 0 then Millisecond else RetryAfter res in
    match wakes with
    | [] => (Blocked, c)
    | CCtxDone :: _ => (Returned (Some (RateLimitError (algorithm c) key 0 wait ErrContextDone)), c)
    | CTimer start stop rd :: wakes' => WaitN c start stop rd key n wakes'
    end.

Definition Wait (c : CompositeLimiter) (start stop : time) (rd : and_reads) (key : string)
    (wakes : list cwake) : wait_result * CompositeLimiter := WaitN c start stop rd key 1 wakes.

Definition Peek (c : CompositeLimiter) (at_ : nat -> time) (key : string) : State * CompositeLimiter :=
  match limiters c with
  | [] => (mkState key (algorithm c) 0 0 zero_time zero_time ∅, c)
  | ls =>
      let '(sts, ls') := peek_all at_ 0 ls key in
      let most := match sts with
        | [] => mkState key (algorithm c) 0 0 zero_time zero_time ∅
        | s0 :: rest => foldl (fun most s => if st_Remaining s <? st_Remaining most then s else most) s0 rest
        end in
      (mkState (st_Key most) (algorithm c) (st_Limit most) (st_Remaining most) (st_ResetAt most)
         (st_WindowStart most) (st_Extra most), with_limiters c ls')
  end.

Definition Reset (c : CompositeLimiter) (key : string) : CompositeLimiter :=
  with_limiters c (map (fun l => lim_Reset l key) (limiters c)).
End composite.
Arguments CompositeLimiter : clear implicits.

(** ** Heterogeneous limiters *)

(** A limiter that is one of two kinds. *)
#[export] Instance sum_limiter {A B} `{Limiter A, Limiter B} : Limiter (A + B) := {
  lim_AllowN s t k n := match s with
    | inl a => let '(r, a') := lim_AllowN a t k n in (r, inl a')
    | inr b => let '(r, b') := lim_AllowN b t k n in (r, inr b')
    end;
  lim_Peek s t k := match s with
    | inl a => let '(r, a') := lim_Peek a t k in (r, inl a')
    | inr b => let '(r, b') := lim_Peek b t k in (r, inr b')
    end;
  lim_Reset s k := match s with inl a => inl (lim_Reset a k) | inr b => inr (lim_Reset b k) end;
}.

#[export] Instance sum_limiter_laws {A B} `{LimiterLaws A, LimiterLaws B} : LimiterLaws (A + B).
Proof.
  refine {|
    lim_inv := fun s => match s with inl a => lim_inv a | inr b => lim_inv b end;
    lim_ok := fun s t k n => match s with inl a => lim_ok a t k n | inr b => lim_ok b t k n end;
    lim_avail := fun s t k => match s with inl a => lim_avail a t k | inr b => lim_avail b t k end
  |}; cbn [lim_AllowN lim_Peek sum_limiter]; intros [s|s].
  - intros t k Hi. rewrite <- lim_peek_remaining by done. by destruct (lim_Peek s t k).
  - intros t k Hi. rewrite <- lim_peek_remaining by done. by destruct (lim_Peek s t k).
  - intros t t' k k' Hi Ht. rewrite <- (lim_peek_avail s t t' k k' Hi Ht). by destruct (lim_Peek s t k).
  - intros t t' k k' Hi Ht. rewrite <- (lim_peek_avail s t t' k k' Hi Ht). by destruct (lim_Peek s t k).
  - intros t k Hi. pose proof (lim_peek_inv s t k Hi). by destruct (lim_Peek s t k).
  - intros t k Hi. pose proof (lim_peek_inv s t k Hi). by destruct (lim_Peek s t k).
  - intros t t' k k' n Hi Ht Hok. pose proof (lim_peek_ok s t t' k k' n Hi Ht Hok). by destruct (lim_Peek s t k).
  - intros t t' k k' n Hi Ht Hok. pose proof (lim_peek_ok s t t' k k' n Hi Ht Hok). by destruct (lim_Peek s t k).
  - intros t k n Hi Hok. rewrite <- (lim_allow_iff s t k n Hi Hok). by destruct (lim_AllowN s t k n).
  - intros t k n Hi Hok. rewrite <- (lim_allow_iff s t k n Hi Hok). by destruct (lim_AllowN s t k n).
  - intros t k n Hi Hok. pose proof (lim_allow_inv s t k n Hi Hok). by destruct (lim_AllowN s t k n).
  - intros t k n Hi Hok. pose proof (lim_allow_inv s t k n Hi Hok). by destruct (lim_AllowN s t k n).
  - intros t k n Hi Hok. pose proof (lim_allow_avail s t k n Hi Hok). by destruct (lim_AllowN s t k n).
  - intros t k n Hi Hok. pose proof (lim_allow_avail s t k n Hi Hok). by destruct (lim_AllowN s t k n).
Defined.

(** ** Atomicity, for limiters that keep the interface's laws *)

(** [P i l] for the limiters [l] of a list, numbered from [i]; the same for two lists of one length. *)
Fixpoint each {A} (P : nat -> A -> Prop) (i : nat) (ls : list A) : Prop :=
  match ls with [] => True | l :: ls => P i l /\ each P (Datatypes.S i) ls end.

Fixpoint each2 {A} (R : nat -> A -> A -> Prop) (i : nat) (ls ls' : list A) : Prop :=
  match ls, ls' with
  | [], [] => True
  | l :: ls, l' :: ls' => R i l l' /\ each2 R (Datatypes.S i) ls ls'
  | _, _ => False
  end.

Lemma each_impl {A} (P Q : nat -> A -> Prop) i ls : (forall i l, P i l -> Q i l) -> each P i ls -> each Q i ls.
Proof. intros HPQ. revert i. induction ls as [|l ls IH]; intros i; cbn; [done|]. intros [? ?]. auto. Qed.

Lemma each_lookup {A} (P : nat -> A -> Prop) i ls :
  each P i ls <-> forall j l, ls !! j = Some l -> P (i + j)%nat l.
Proof.
  revert i. induction ls as [|l ls IH]; intros i; cbn; [done|]. rewrite IH. split.
  - intros [Hl Hls] [|j] l' Hj; simplify_eq/=; [by rewrite Nat.add_0_r|]. rewrite Nat.add_succ_r. by apply Hls.
  - intros Hall. split; [by rewrite <- (Nat.add_0_r i); apply (Hall 0%nat)|]. intros j l' Hj.
    specialize (Hall (Datatypes.S j) l' Hj). by rewrite Nat.add_succ_r in Hall.
Qed.

Lemma each2_impl {A} (P : nat -> A -> Prop) (R Q : nat -> A -> A -> Prop) i ls ls' :
  (forall i l l', P i l -> R i l l' -> Q i l l') -> each P i ls -> each2 R i ls ls' -> each2 Q i ls ls'.
Proof.
  intros HRQ. revert i ls'. induction ls as [|l ls IH]; intros i [|l' ls']; cbn; try done.
  intros [? ?] [? ?]. auto.
Qed.

Section laws.
Context {S : Type} `{LimiterLaws S} (t : time) (key : string) (n : Z).

(** Well-formed limiters that accept the request. *)
Definition ready (l : S) : Prop := lim_inv l /\ lim_ok l t key n.

(** [l'] has [d] less to give than [l]. *)
Definition charged (d : Z) (l l' : S) : Prop :=
  lim_inv l' /\ lim_avail l' t key = lim_avail l t key - d.

Lemma allow_spec l : ready l ->
  let '(r, l') := lim_AllowN l t key n in
  Allowed r = (n <=? lim_avail l t key) /\ charged (if n <=? lim_avail l t key then n else 0) l l'.
Proof.
  intros [Hi Hok]. pose proof (lim_allow_iff l t key n Hi Hok) as E1.
  pose proof (lim_allow_inv l t key n Hi Hok) as E2. pose proof (lim_allow_avail l t key n Hi Hok) as E3.
  destruct (lim_AllowN l t key n) as [r l']. simpl in *. rewrite E1 in E3. by split_and!.
Qed.

(** Peeked at before, without a visible change. *)
Definition kept (l l' : S) : Prop := ready l' /\ lim_avail l' t key = lim_avail l t key.

Lemma peek_kept tp l : tp <= t -> ready l ->
  let '(st, l') := lim_Peek l tp key in st_Remaining st = lim_avail l tp key /\ kept l l'.
Proof.
  intros Ht [Hi Hok]. pose proof (lim_peek_remaining l tp key Hi) as E1.
  pose proof (lim_peek_avail l tp t key key Hi Ht) as E2. pose proof (lim_peek_inv l tp key Hi) as E3.
  pose proof (lim_peek_ok l tp t key key n Hi Ht Hok) as E4. destruct (lim_Peek l tp key) as [st l'].
  by split_and!.
Qed.

Lemma foldl_least_allowed r0 rs : Allowed r0 = true -> Forall (fun r => Allowed r = true) rs ->
  Allowed (foldl (fun least r => if Remaining r <? Remaining least then r else least) r0 rs) = true.
Proof.
  intros Hr0 Hrs. revert r0 Hr0. induction Hrs as [|r rs Hr Hrs IH]; intros r0 Hr0; simpl; [done|].
  apply IH. by case_match.
Qed.
End laws.

Section and_phases.
Context {S : Type} `{LimiterLaws S} (rd : and_reads) (key : string) (n : Z).

(** Between the readings of the [i]-th limiter time does not go back, and room for the request does not go away. *)
Definition steady (i : nat) (l : S) : Prop :=
  ready (at_allow rd i) key n l /\ at_peek rd i <= at_allow rd i /\
  (n <= lim_avail l (at_peek rd i) key -> n <= lim_avail l (at_allow rd i) key).

(** There is room at the peek; and then, when the limiter is asked. *)
Definition has_room (i : nat) (l : S) : bool := n <=? lim_avail l (at_peek rd i) key.
Definition gains_room (i : nat) (l : S) : bool := negb (has_room i l) && (n <=? lim_avail l (at_allow rd i) key).

Fixpoint all_room (i : nat) (ls : list S) : bool :=
  match ls with [] => true | l :: ls => has_room i l && all_room (Datatypes.S i) ls end.

Lemma all_room_each i ls : all_room i ls = true <-> each (fun i l => n <= lim_avail l (at_peek rd i) key) i ls.
Proof.
  revert i. induction ls as [|l ls IH]; intros i; cbn; [done|].
  rewrite andb_true_iff, IH. unfold has_room. by rewrite Z.leb_le.
Qed.

(** What the peeks report. *)
Fixpoint peeked (i : nat) (ls : list S) (sts : list State) : Prop :=
  match ls, sts with
  | [], [] => True
  | l :: ls, st :: sts => st_Remaining st = lim_avail l (at_peek rd i) key /\ peeked (Datatypes.S i) ls sts
  | _, _ => False
  end.

Lemma peek_all_spec i ls : each steady i ls ->
  let '(sts, ls') := peek_all (at_peek rd) i ls key in
  peeked i ls sts /\ each2 (fun i => kept (at_allow rd i) key n) i ls ls'.
Proof.
  revert i. induction ls as [|l ls IH]; intros i; cbn [each peek_all]; [done|]. intros [(Hr & Ht & _) Hls].
  pose proof (peek_kept (at_allow rd i) key n (at_peek rd i) l Ht Hr) as Hp.
  destruct (lim_Peek l (at_peek rd i) key) as [st l']. specialize (IH _ Hls).
  destruct (peek_all _ _ ls key) as [sts ls']. by destruct Hp, IH.
Qed.

(** A result's [Remaining] decides phase 1. *)
Lemma phase1_decides i sts ls : peeked i ls sts ->
  existsb (fun p => st_Remaining p <? n) sts = negb (all_room i ls).
Proof.
  revert i ls. induction sts as [|p ps IH]; intros i [|l ls] Hp; cbn in *; try done.
  destruct Hp as [-> Hp]. rewrite (IH _ ls Hp), negb_andb. f_equal. unfold has_room. apply Z.ltb_antisym.
Qed.

Lemma consume_all_spec i ls0 ls : each steady i ls0 -> all_room i ls0 = true ->
  each2 (fun i => kept (at_allow rd i) key n) i ls0 ls ->
  let '(rs, ok, ls') := consume_all (at_allow rd) i ls key n in
  ok = true /\ length rs = length ls0 /\ Forall (fun r => Allowed r = true) rs /\
  each2 (fun i => charged (at_allow rd i) key n) i ls0 ls'.
Proof.
  revert i ls. induction ls0 as [|l0 ls0 IH]; intros i [|l ls]; cbn [each each2 all_room consume_all]; try done.
  intros [(_ & _ & Hroom) Hls] [Ha%Z.leb_le Hall]%andb_true_iff [[Hr Hk] Hks].
  pose proof (allow_spec (at_allow rd i) key n l Hr) as Hal. destruct (lim_AllowN l (at_allow rd i) key n) as [r l'].
  rewrite (proj2 (Z.leb_le _ _)) in Hal by (rewrite Hk; auto). destruct Hal as [Hal [Hi Hav]]. rewrite Hal.
  specialize (IH _ ls Hls Hall Hks). destruct (consume_all _ _ ls key n) as [[rs ok] ls'].
  destruct IH as (-> & IH2 & IH3 & IH4). cbn. split_and!; [done|by f_equal|by constructor|split; [done|lia]|done].
Qed.

Lemma deny_loop_spec i ls0 ls peeks out : each2 (fun i => kept (at_allow rd i) key n) i ls0 ls -> peeked i ls0 peeks ->
  let '(out', ls') := deny_loop (at_allow rd) i ls peeks key n out in
  Allowed out' = Allowed out /\
  each2 (fun i l l' => charged (at_allow rd i) key (if gains_room i l then n else 0) l l') i ls0 ls'.
Proof.
  revert i ls peeks out. induction ls0 as [|l0 ls0 IH]; intros i [|l ls] [|p ps] out;
    cbn [each2 peeked deny_loop]; try done.
  intros [[Hr Hk] Hks] [Hp Hps]. unfold gains_room, has_room at 1. rewrite Hp.
  destruct (n <=? lim_avail l0 (at_peek rd i) key); cbn [negb andb].
  - specialize (IH _ ls ps out Hks Hps). destruct (deny_loop _ _ ls ps key n out) as [out' ls'].
    destruct IH as [IH1 IH2]. split; [done|]. split; [|done]. split; [apply Hr|lia].
  - pose proof (allow_spec (at_allow rd i) key n l Hr) as Hal. destruct (lim_AllowN l (at_allow rd i) key n) as [r l'].
    destruct Hal as [_ [Hi Hav]]. rewrite Hk in Hav. set (out1 := mkResult _ _ _ _ _ _ _).
    specialize (IH _ ls ps out1 Hks Hps). destruct (deny_loop _ _ ls ps key n out1) as [out' ls'].
    destruct IH as [IH1 IH2]. split; [done|]. by split.
Qed.
End and_phases.

(** C6: AND mode is all-or-nothing, over any limiters that keep the
    interface's laws and that nobody else uses during the call.  Each
    limiter's clock is read twice, by [Peek] and by [AllowN]; it does not go
    back in between and room for the request does not go away.  The composite
    then allows the request exactly when every limiter has room at its peek; an
    allowed request charges every limiter its cost, and a denied one charges
    exactly the limiters that have no room at their peek and have it at the
    [AllowN] that asks for the retry time: none when both readings are one
    instant. *)
Theorem composite_and_atomic {S} `{LimiterLaws S} algo rd (ls : list S) key n :
  ls <> [] -> each (steady rd key n) 0 ls ->
  let '(res, ls') := allowAND algo rd ls key n in
  (Allowed res = true <-> each (fun i l => n <= lim_avail l (at_peek rd i) key) 0 ls) /\
  each2 (fun i l l' =>
    charged (at_allow rd i) key (if Allowed res || gains_room rd key n i l then n else 0) l l') 0 ls ls' /\
  ((forall i, at_peek rd i = at_allow rd i) ->
   each2 (fun i => charged (at_allow rd i) key (if Allowed res then n else 0)) 0 ls ls').
Proof.
  intros Hne Hs. pose proof (all_room_each rd key n 0 ls) as Hroom. unfold allowAND.
  pose proof (peek_all_spec rd key n 0 ls Hs) as Hp. destruct (peek_all _ 0 ls key) as [peeks ls1].
  destruct Hp as (Hpk & Hk). rewrite (phase1_decides rd key n 0 peeks ls Hpk).
  destruct (all_room rd key n 0 ls) eqn:Eall; cbn [negb].
  - pose proof (consume_all_spec rd key n 0 ls ls1 Hs Eall Hk) as Hca.
    destruct (consume_all _ 0 ls1 key n) as [[rs ok] ls2]. destruct Hca as (-> & Hlen & Hall & Hc2).
    destruct rs as [|r0 rest]; [by destruct ls|]. inversion Hall; subst.
    assert (Allowed (leastRemaining r0 rest algo) = true) as ->.
    { unfold leastRemaining. cbn [Allowed set_algorithm]. by apply foldl_least_allowed. }
    split_and!; [by rewrite <- Hroom|done|done].
  - unfold denyResultAND. destruct peeks as [|p0 ps]; [by destruct ls|].
    pose proof (deny_loop_spec rd key n 0 ls ls1 (p0 :: ps)
      (mkResult false (st_Limit p0) (st_Remaining p0) 0 0 algo ∅) Hk Hpk) as Hd.
    destruct (deny_loop _ 0 ls1 (p0 :: ps) key n _) as [out ls2]. destruct Hd as [-> Hd]. cbn [Allowed orb].
    split_and!; [by rewrite <- Hroom|done|]. intros Ht. eapply each2_impl; [|exact Hs|exact Hd]. cbn. intros i l l' _.
    unfold gains_room, has_room. rewrite Ht. by destruct (n <=? _).
Qed.

Lemma foldl_pick_denied r0 rs : Allowed r0 = false -> Forall (fun r => Allowed r = false) rs ->
  Allowed (foldl (fun s r => if RetryAfter r <? RetryAfter s then r else s) r0 rs) = false.
Proof.
  intros Hr0 Hrs. revert r0 Hr0. induction Hrs as [|r rs Hr Hrs IH]; intros r0 Hr0; simpl; [done|].
  apply IH. by case_match.
Qed.

(** Three kinds of limiters behind one interface. *)
Definition any_limiter : Type :=
  (FixedWindow.FixedWindowCounter + (Gcra.GCRA + SlidingLog.SlidingWindowLog))%type.

Definition demo_limiters : list any_limiter :=
  [inl (FixedWindow.mkFW 5 1000 0 ∅ false false);
   inr (inl (Gcra.mkGCRA 10 3 1000 0 100 200 ∅ false false));
   inr (inr (SlidingLog.mkLog 4 1000 2000 ∅ false false))].

Lemma demo_limiters_ready n : 1 <= n <= 3 -> Forall (ready 50 "k" n) demo_limiters.
Proof.
  intros Hn. constructor; [|constructor; [|constructor; [|constructor]]]; (split; [|split; [reflexivity|]]).
  - split; [unfold FixedWindow.cfg_ok; simpl; go_lia|apply map_Forall_empty].
  - simpl; go_lia.
  - simpl. unfold Gcra.cfg_ok; simpl; go_lia.
  - simpl; lia.
  - split; [unfold SlidingLog.cfg_ok; simpl; go_lia|apply map_Forall_empty].
  - simpl. split; [go_lia|]. vm_compute. discriminate.
Qed.

(** The three limiters peeked at 40 and asked at 50. *)
Definition demo_reads : and_reads := mkAndReads (fun _ => 40) (fun _ => 50).

Lemma demo_limiters_steady n : 1 <= n <= 3 -> each (steady demo_reads "k" n) 0 demo_limiters.
Proof.
  intros Hn. pose proof (demo_limiters_ready n Hn) as Hr. unfold demo_limiters in *. cbn [each].
  inversion_clear Hr as [|? ? R1 Hr1]. inversion_clear Hr1 as [|? ? R2 Hr2]. inversion_clear Hr2 as [|? ? R3 _].
  split_and!; try done; (split; [done|split; [vm_compute; discriminate|]]); intros _;
    (eapply Z.le_trans; [apply Hn|vm_compute; discriminate]).
Qed.

Lemma composite_and_atomic_witness :
  let '(res, ls') := allowAND algorithmAND demo_reads demo_limiters "k" 3 in
  (Allowed res = true <-> each (fun i l => 3 <= lim_avail l (at_peek demo_reads i) "k") 0 demo_limiters) /\
  each2 (fun i l l' =>
    charged (at_allow demo_reads i) "k" (if Allowed res || gains_room demo_reads "k" 3 i l then 3 else 0) l l')
    0 demo_limiters ls'.
Proof.
  pose proof (composite_and_atomic algorithmAND demo_reads demo_limiters "k" 3 ltac:(discriminate)
    (demo_limiters_steady 3 ltac:(lia))) as Hc.
  destruct (allowAND _ _ _ _ _) as [res ls']. destruct Hc as (H1 & H2 & _). by split.
Defined.

(** OR mode charges one limiter at most: over any limiters that keep the
    interface's laws, read at one instant, the first limiter with the cost
    available is charged it and later limiters are not touched; if there is
    none the request is denied and nothing is charged. *)
Theorem composite_or_first {S} `{LimiterLaws S} algo (ls : list S) t key n :
  Forall (ready t key n) ls ->
  let '(res, ls') := allowOR algo (and_reads_at t) ls key n in
  if Allowed res then
    exists pre l l' post pre', ls = pre ++ l :: post /\ ls' = pre' ++ l' :: post /\
      Forall (fun x => lim_avail x t key < n) pre /\ Forall2 (charged t key 0) pre pre' /\
      n <= lim_avail l t key /\ charged t key n l l'
  else Forall (fun x => lim_avail x t key < n) ls /\ Forall2 (charged t key 0) ls ls'.
Proof.
  intros Hr. unfold allowOR. cbn [at_allow and_reads_at].
  assert (forall i, let '(rs, won, ls') := or_loop (fun _ => t) i ls key n in
    match won with
    | Some r => Allowed r = true /\ exists pre l l' post pre', ls = pre ++ l :: post /\ ls' = pre' ++ l' :: post /\
        Forall (fun x => lim_avail x t key < n) pre /\ Forall2 (charged t key 0) pre pre' /\
        n <= lim_avail l t key /\ charged t key n l l'
    | None => Forall (fun x => lim_avail x t key < n) ls /\ Forall2 (charged t key 0) ls ls' /\
        Forall (fun r => Allowed r = false) rs
    end) as Hloop.
  { induction Hr as [|l ls Hl Hr IH]; intros i; simpl; [done|].
    pose proof (allow_spec t key n l Hl) as Hal. destruct (lim_AllowN l t key n) as [r l'].
    destruct Hal as [Hal Hch]. destruct (Z.leb_spec n (lim_avail l t key)) as [Hle|Hgt]; rewrite Hal.
    - split; [done|]. exists [], l, l', ls, []. by split_and!.
    - specialize (IH (Datatypes.S i)). destruct (or_loop _ _ ls key n) as [[rs won] ls']. destruct won as [r'|].
      + destruct IH as [IHr (pre & l1 & l1' & post & pre' & -> & -> & ? & ? & ? & ?)]. split; [done|].
        exists (l :: pre), l1, l1', post, (l' :: pre'). split_and!; try done; by constructor.
      + destruct IH as (IH1 & IH2 & IH3). split_and!; by constructor. }
  specialize (Hloop 0%nat). destruct (or_loop _ 0 ls key n) as [[rs won] ls']. destruct won as [r|].
  - destruct Hloop as [Hal Hex]. cbn [set_algorithm Allowed]. by rewrite Hal.
  - destruct Hloop as (H1 & H2 & H3). destruct rs as [|r0 rest]; [done|].
    assert (Allowed (shortestRetry r0 rest algo) = false) as ->; [|done].
    unfold shortestRetry. cbn [set_algorithm Allowed]. inversion H3 as [|? ? Hr0 Hrest]; subst.
    by apply foldl_pick_denied.
Qed.

Lemma composite_or_first_witness :
  let '(res, ls') := allowOR algorithmOR (and_reads_at 50) demo_limiters "k" 2 in
  if Allowed res then
    exists pre l l' post pre', demo_limiters = pre ++ l :: post /\ ls' = pre' ++ l' :: post /\
      Forall (fun x => lim_avail x 50 "k" < 2) pre /\ Forall2 (charged 50 "k" 0) pre pre' /\
      2 <= lim_avail l 50 "k" /\ charged 50 "k" 2 l l'
  else Forall (fun x => lim_avail x 50 "k" < 2) demo_limiters /\
       Forall2 (charged 50 "k" 0) demo_limiters ls'.
Proof.
  refine (composite_or_first algorithmOR demo_limiters 50 "k" 2 (demo_limiters_ready 2 _)). lia.
Defined.

(** A fixed window of one request per ten nanoseconds, used up at 9. *)
Definition used_window : FixedWindow.FixedWindowCounter :=
  FixedWindow.mkFW 1 10 0 {[ "k" := FixedWindow.mkCounter 1 0 9 ]} false false.

(** A denied AND request can consume: when the window of the denying
    limiter turns over between the peek and the [AllowN] that only asks for the
    retry time, that [AllowN] is granted, and the composite denies the request
    although the limiter has been charged. *)
Theorem composite_denied_request_consumes :
  let rd := mkAndReads (fun _ => 9) (fun _ => 10) in
  let '(res, ls') := allowAND algorithmAND rd [used_window] "k" 1 in
  Allowed res = false /\ FixedWindow.available used_window 10 "k" = 1 /\
  map (fun l => FixedWindow.available l 10 "k") ls' = [0].
Proof. vm_compute. by split_and!. Qed.

(** [WaitN] of the composite does not validate: with a key no limiter
    accepts it neither succeeds nor fails, it retries until its context ends. *)
Theorem composite_wait_invalid_key_blocks (c : CompositeLimiter FixedWindow.FixedWindowCounter)
    key n start stop rd wakes :
  ValidateKey key <> None -> Forall (fun w => w <> CCtxDone) wakes -> mode c = OR ->
  fst (WaitN c start stop rd key n wakes) = Blocked.
Proof.
  intros Hkey Hw Hmode.
  destruct (ValidateKey key) as [er|] eqn:Ek; [|done].
  assert (forall (ls : list FixedWindow.FixedWindowCounter) at_ i, exists rs,
    or_loop at_ i ls key n = (rs, None, ls) /\ Forall (fun r => Allowed r = false) rs) as Hor.
  { intros ls at_. induction ls as [|l ls IH]; intros i; simpl; [by eexists|].
    destruct (FixedWindow.AllowN_state l (reads_at (at_ i)) key n) as [Es Ea].
    destruct (FixedWindow.AllowN l (reads_at (at_ i)) key n) as [[r l'] ev].
    cbn [fst snd] in *. unfold FixedWindow.allowN_body in Es, Ea. rewrite Ek in Es, Ea. cbn [snd fst] in *.
    subst l'. rewrite Ea. cbn [denied_zero Allowed]. destruct (IH (Datatypes.S i)) as (rs & -> & Hrs).
    eexists. split; [done|]. by constructor. }
  assert (forall start stop rd, exists r ev, AllowN c start stop rd key n = (r, c, ev) /\ Allowed r = false) as Hal.
  { intros st sp rd'. unfold AllowN, allowN_body. rewrite Hmode.
    assert (forall r : Result, Allowed (if n =? 1 then r else setCost r (AInt n)) = Allowed r) as Hcost.
    { intros r. by destruct (n =? 1). }
    destruct (limiters c) as [|l ls] eqn:El.
    - do 2 eexists. split; [done|]. by rewrite Hcost.
    - unfold allowOR. destruct (Hor (l :: ls) (at_allow rd') 0%nat) as (rs & -> & Hrs).
      assert (with_limiters c (l :: ls) = c) as Ec by (destruct c; unfold with_limiters; simpl in *; by subst).
      destruct rs as [|r0 rest]; rewrite Ec; do 2 eexists; (split; [done|]); rewrite Hcost; [done|].
      unfold shortestRetry. cbn [Allowed set_algorithm]. inversion Hrs as [|? ? Hr0 Hrest]; subst.
      by apply foldl_pick_denied. }
  revert start stop rd. induction Hw as [|w wakes Hw1 Hw IH]; intros start stop rd; simpl;
    destruct (Hal start stop rd) as (r & ev & -> & ->); [done|].
  destruct w as [st sp rd'|]; [|done]. apply IH.
Qed.

Lemma composite_wait_invalid_key_blocks_witness :
  fst (WaitN (mkComposite [used_window] OR false) 0 0 (and_reads_at 5) "" 1
    [CTimer 20 20 (and_reads_at 20); CTimer 40 40 (and_reads_at 40)]) = Blocked.
Proof.
  apply (composite_wait_invalid_key_blocks (mkComposite [used_window] OR false) "" 1 0 0 (and_reads_at 5)
    [CTimer 20 20 (and_reads_at 20); CTimer 40 40 (and_reads_at 40)]).
  - discriminate.
  - repeat constructor; discriminate.
  - reflexivity.
Defined.
