(* ===== verification/Tiered.v ===== *)
(** * The tiered limiter ([ratelimit/tiered/tiered.go]).

    A request is checked against a chain of tiers, each with its own derived
    key, and consumes from all of them or from none.  Tiers refer to limiters
    of a shared store, since the same limiter may stand behind several tiers;
    the limiters are known through the interface [Limiter]. *)

From stdpp Require Import functions.
From S2P Require Import Prelude Float64 Strconv Ratelimit FixedWindow Gcra SlidingLog Composite.
Open Scope Z_scope.

Definition algorithmName : string := "tiered".

(** [Crediter]: [None] when the limiter's type does not implement it. *)
Class Crediter (S : Type) := {
  lim_Credit : S -> string -> Z -> option S;
}.

(** A tier as the caller writes it: the key function and the limiter may be nil. *)
Record TierSpec := mkTierSpec {
  ts_Name : string;
  ts_KeyFunc : option (string -> string);
  ts_Limiter : option nat;
}.

Record Tier := mkTier {
  Name : string;
  KeyFunc : string -> string;
  Limiter : nat;            (* a reference into the store *)
}.

Record TieredLimiter := mkTiered { tiers : list Tier; onDecision : bool }.

Definition identity (requestKey : string) : string := requestKey.
Definition Constant (key : string) : string -> string := fun _ => key.

(** The segment before the first occurrence of [sep]. *)
Definition Prefix (sep : string) (requestKey : string) : string :=
  match String.index 0 sep requestKey with
  | Some i => String.substring 0 i requestKey
  | None => requestKey
  end.

Fixpoint New_tiers (ts : list TierSpec) : outcome (list Tier) :=
  match ts with
  | [] => Ok []
  | t :: ts' =>
      match ts_Limiter t with
      | None => Panic "tiered.New: tier has a nil Limiter"
      | Some l =>
          match New_tiers ts' with
          | Ok rest => Ok (mkTier (ts_Name t) (default identity (ts_KeyFunc t)) l :: rest)
          | Panic m => Panic m
          end
      end
  end.

Definition WithOnDecision (t : TieredLimiter) : TieredLimiter := mkTiered (tiers t) true.

Definition New (ts : list TierSpec) (opts : list (TieredLimiter -> TieredLimiter)) : outcome TieredLimiter :=
  match New_tiers ts with
  | Ok l => Ok (foldl (fun t o => o t) (mkTiered l false) opts)
  | Panic m => Panic m
  end.

Definition tierName (i : nat) (t : Tier) : string :=
  if (String.length (Name t) =? 0)%nat then ("tier[" ++ FormatInt (Z.of_nat i) ++ "]")%string else Name t.

Definition setDeniedTier (res : Result) (name key : string) : Result :=
  mkResult (Allowed res) (Limit res) (Remaining res) (ResetAfter res) (RetryAfter res) (Algorithm res)
    (<["denied_key" := AString key]> (<["denied_tier" := AString name]> (Metadata res))).

Section tiered.
Context {S : Type} `{Ratelimit.Limiter S} `{Crediter S}.

(** The limiters, by reference. *)
Notation store := (nat -> S).

(** The instants at which the clock of the [i]-th tier's limiter is read: by [Peek], by the
    [AllowN] of the commit phase, and by the [AllowN] that asks for the retry time. *)
Record tier_reads := mkTierReads { at_peek : nat -> time; at_commit : nat -> time; at_deny : nat -> time }.

Definition tier_reads_at (t : time) : tier_reads := mkTierReads (fun _ => t) (fun _ => t) (fun _ => t).

(** Phase 1: peek until a tier lacks capacity; that tier, its index and its state. *)
Fixpoint peek_loop (at_ : nat -> time) (i : nat) (ts : list Tier) (key : string) (n : Z) (σ : store)
  : option (nat * Tier * State) * store :=
  match ts with
  | [] => (None, σ)
  | t :: ts' =>
      let '(st, l) := lim_Peek (σ (Limiter t)) (at_ i) (KeyFunc t key) in
      let σ := <[Limiter t := l]> σ in
      if st_Remaining st <? n then (Some (i, t, st), σ) else peek_loop at_ (Datatypes.S i) ts' key n σ
  end.

Definition denyResult (at_ : nat -> time) (i : nat) (t : Tier) (peek : State) (key : string) (n : Z) (σ : store)
  : Result * store :=
  let '(r, l) := lim_AllowN (σ (Limiter t)) (at_ i) (KeyFunc t key) n in
  let out := mkResult false (Ratelimit.Limit r) (Remaining r) (ResetAfter r) (RetryAfter r) algorithmName ∅ in
  let out := if RetryAfter r =? 0
             then mkResult false (st_Limit peek) (st_Remaining peek) (ResetAfter r) (RetryAfter r) algorithmName ∅
             else out in
  (setDeniedTier out (tierName i t) (KeyFunc t key), <[Limiter t := l]> σ).

Definition denyFromResult (i : nat) (t : Tier) (deniedKey : string) (r : Result) : Result :=
  setDeniedTier (mkResult false (Ratelimit.Limit r) (Remaining r) (ResetAfter r) (RetryAfter r) algorithmName (Metadata r))
    (tierName i t) deniedKey.

(** [committed] in reverse commit order, as the loop of [rollback] runs. *)
Fixpoint rollback (committed : list Tier) (key : string) (n : Z) (σ : store) : store :=
  match committed with
  | [] => σ
  | t :: rest =>
      let σ := match lim_Credit (σ (Limiter t)) (KeyFunc t key) n with
               | Some l => <[Limiter t := l]> σ
               | None => σ
               end in
      rollback rest key n σ
  end.

Definition bottleneck (out r : Result) : Result :=
  mkResult (Allowed out)
    (if Remaining r <? Remaining out then Ratelimit.Limit r else Ratelimit.Limit out)
    (if Remaining r <? Remaining out then Remaining r else Remaining out)
    (if ResetAfter out <? ResetAfter r then ResetAfter r else ResetAfter out)
    (RetryAfter out) (Algorithm out) (Metadata out).

(** [results] is not empty when it is called. *)
Definition allowResult (r0 : Result) (rs : list Result) : Result :=
  let out := foldl bottleneck r0 rs in
  mkResult true (Ratelimit.Limit out) (Remaining out) (ResetAfter out) 0 algorithmName (Metadata out).

(** Phase 2: consume from every tier; a denial rolls the committed ones back. *)
Fixpoint commit_loop (at_ : nat -> time) (i : nat) (ts : list Tier) (committed : list Tier) (results : list Result)
    (key : string) (n : Z) (σ : store) : Result * store :=
  match ts with
  | [] => (match rev results with r0 :: rs => allowResult r0 rs | [] => denied_zero algorithmName end, σ)
  | t :: ts' =>
      let '(r, l) := lim_AllowN (σ (Limiter t)) (at_ i) (KeyFunc t key) n in
      let σ := <[Limiter t := l]> σ in
      if Allowed r then commit_loop at_ (Datatypes.S i) ts' (t :: committed) (r :: results) key n σ
      else (denyFromResult i t (KeyFunc t key) r, rollback committed key n σ)
  end.

Definition allowN_body (tl : TieredLimiter) (rd : tier_reads) (key : string) (n : Z) (σ : store) : Result * store :=
  match ValidateKey key, ValidateN n, tiers tl with
  | None, None, _ :: _ =>
      match peek_loop (at_peek rd) 0 (tiers tl) key n σ with
      | (Some (i, t, st), σ) => denyResult (at_deny rd) i t st key n σ
      | (None, σ) => commit_loop (at_commit rd) 0 (tiers tl) [] [] key n σ
      end
  | _, _, _ => (denied_zero algorithmName, σ)
  end.

(** [start] and [stop] are the readings of the limiter's own clock. *)
Definition AllowN (tl : TieredLimiter) (start stop : time) (rd : tier_reads) (key : string) (n : Z) (σ : store)
  : Result * store * list event :=
  let '(res, σ) := allowN_body tl rd key n σ in
  let res := if n =? 1 then res else setCost res (AInt n) in
  (res, σ, record_decision algorithmName res start stop ++ (if onDecision tl then [OnDecision key res] else [])).

Definition Allow (tl : TieredLimiter) (start stop : time) (rd : tier_reads) (key : string) (σ : store)
  : Result * store * list event := AllowN tl start stop rd key 1 σ.

(** What ends each wait of [WaitN]: the timer, with the readings of the next decision, or the context. *)
Inductive twake := TTimer (start stop : time) (rd : tier_reads) | TCtxDone.

Fixpoint WaitN_loop (tl : TieredLimiter) (start stop : time) (rd : tier_reads) (key : string) (n : Z)
    (wakes : list twake) (σ : store) : wait_result * store :=
  let '(res, σ, _) := AllowN tl start stop rd key n σ in
  if Allowed res then (Returned None, σ)
  else
    let wait := if RetryAfter res <=? 0 then Millisecond else RetryAfter res in
    match wakes with
    | [] => (Blocked, σ)
    | TCtxDone :: _ =>
        (Returned (Some (RateLimitError algorithmName key (Ratelimit.Limit res) wait ErrContextDone)), σ)
    | TTimer start stop rd :: wakes' => WaitN_loop tl start stop rd key n wakes' σ
    end.

Definition WaitN (tl : TieredLimiter) (start stop : time) (rd : tier_reads) (key : string) (n : Z)
    (wakes : list twake) (σ : store) : wait_result * store :=
  match ValidateKey key with
  | Some e => (Returned (Some (ESentinel e)), σ)
  | None =>
      match ValidateN n with
      | Some e => (Returned (Some (ESentinel e)), σ)
      | None => WaitN_loop tl start stop rd key n wakes σ
      end
  end.

Fixpoint peek_most (at_ : nat -> time) (i : nat) (ts : list Tier) (key : string) (most : option State) (σ : store)
  : option State * store :=
  match ts with
  | [] => (most, σ)
  | t :: ts' =>
      let '(s, l) := lim_Peek (σ (Limiter t)) (at_ i) (KeyFunc t key) in
      let most := match most with
                  | Some m => if st_Remaining s <? st_Remaining m then Some s else Some m
                  | None => Some s
                  end in
      peek_most at_ (Datatypes.S i) ts' key most (<[Limiter t := l]> σ)
  end.

Definition Peek (tl : TieredLimiter) (at_ : nat -> time) (key : string) (σ : store) : State * store :=
  match peek_most at_ 0 (tiers tl) key None σ with
  | (Some m, σ) =>
      (mkState key algorithmName (st_Limit m) (st_Remaining m) (st_ResetAt m) (st_WindowStart m) (st_Extra m), σ)
  | (None, σ) => (mkState key algorithmName 0 0 zero_time zero_time ∅, σ)
  end.

Definition Reset (tl : TieredLimiter) (key : string) (σ : store) : store :=
  foldl (fun σ t => <[Limiter t := lim_Reset (σ (Limiter t)) (KeyFunc t key)]> σ) σ (tiers tl).

End tiered.

(** ** All or nothing, for limiters that keep the interface's laws *)

Section laws.
Context {S : Type} `{LimiterLaws S} `{Crediter S} (rd : tier_reads) (key : string) (n : Z).

(** What tier [u] can still grant the request at [t]. *)
Definition avail (t : time) (σ : nat -> S) (u : Tier) : Z := lim_avail (σ (Limiter u)) t (KeyFunc u key).

(** The [i]-th tier's limiter accepts the request with the tier's derived key; between the readings of its clock
    time does not go back, and room for the request does not go away. *)
Definition steady_at (i : nat) (u : Tier) (s : S) : Prop :=
  lim_inv s /\ lim_ok s (at_commit rd i) (KeyFunc u key) n /\ lim_ok s (at_deny rd i) (KeyFunc u key) n /\
  at_peek rd i <= at_commit rd i /\ at_peek rd i <= at_deny rd i /\
  (n <= lim_avail s (at_peek rd i) (KeyFunc u key) -> n <= lim_avail s (at_commit rd i) (KeyFunc u key)).

Definition steady (σ : nat -> S) (i : nat) (u : Tier) : Prop := steady_at i u (σ (Limiter u)).

Definition charge (t : time) (d : Z) (σ σ' : nat -> S) (u : Tier) : Prop :=
  lim_inv (σ' (Limiter u)) /\ avail t σ' u = avail t σ u - d.

(** Peeked at, at most. *)
Definition looked_at (σ σ' : nat -> S) (i : nat) (u : Tier) : Prop :=
  σ' (Limiter u) = σ (Limiter u) \/
  σ' (Limiter u) = snd (lim_Peek (σ (Limiter u)) (at_peek rd i) (KeyFunc u key)).

Lemma looked_at_keeps σ σ' i u t : looked_at σ σ' i u -> lim_inv (σ (Limiter u)) -> at_peek rd i <= t ->
  lim_inv (σ' (Limiter u)) /\ avail t σ' u = avail t σ u /\
  (lim_ok (σ (Limiter u)) t (KeyFunc u key) n -> lim_ok (σ' (Limiter u)) t (KeyFunc u key) n).
Proof.
  unfold avail. intros [-> | ->] Hi Ht; [done|].
  split_and!; [by apply lim_peek_inv|by apply lim_peek_avail|intros; by apply lim_peek_ok].
Qed.

(** A change of the limiter of one tier is not seen by the others. *)
Lemma each_elsewhere (P : nat -> Tier -> S -> Prop) i ts x l (σ : nat -> S) : x ∉ map Limiter ts ->
  each (fun i u => P i u (<[x := l]> σ (Limiter u))) i ts <-> each (fun i u => P i u (σ (Limiter u))) i ts.
Proof.
  intros Hx. assert (forall u, u ∈ ts -> <[x := l]> σ (Limiter u) = σ (Limiter u)) as He.
  { intros u Hu. apply fn_lookup_insert_ne. intros ->. apply Hx, list_elem_of_fmap. by exists u. }
  rewrite !each_lookup. split; intros Hall j u Hj; specialize (Hall j u Hj);
    [rewrite He in Hall|rewrite He]; try done; by eapply list_elem_of_lookup_2.
Qed.

(** Phase 1 peeks until a tier lacks capacity. *)
Lemma peek_loop_spec i ts (σ : nat -> S) : NoDup (map Limiter ts) -> each (steady σ) i ts ->
  let '(r, σ') := peek_loop (at_peek rd) i ts key n σ in
  each (looked_at σ σ') i ts /\ (forall x, x ∉ map Limiter ts -> σ' x = σ x) /\
  match r with
  | None => each (fun i u => n <= avail (at_peek rd i) σ u) i ts
  | Some (j, u, st) => exists pre post, ts = pre ++ u :: post /\ j = (i + length pre)%nat /\
      each (fun i u => n <= avail (at_peek rd i) σ u) i pre /\ avail (at_peek rd j) σ u < n
  end.
Proof.
  revert i σ. induction ts as [|u ts IH]; intros i σ Hnd; cbn; [intros _; by split_and!|].
  apply NoDup_cons in Hnd as [Hnu Hnd]. intros [(Hi & _) Hts].
  pose proof (lim_peek_remaining (σ (Limiter u)) (at_peek rd i) (KeyFunc u key) Hi) as Hrem.
  destruct (lim_Peek (σ (Limiter u)) (at_peek rd i) (KeyFunc u key)) as [st l] eqn:Ep. cbn in Hrem.
  set (σ1 := <[Limiter u := l]> σ).
  assert (σ1 (Limiter u) = l) as Hu1 by apply fn_lookup_insert.
  assert (looked_at σ σ1 i u) as Hlu by (right; by rewrite Ep, Hu1).
  assert (forall x, x ∉ Limiter u :: map Limiter ts -> σ1 x = σ x) as Hx.
  { intros x Hx. unfold σ1. rewrite fn_lookup_insert_ne; [done|]. intros <-. apply Hx, elem_of_cons. by left. }
  assert (forall v, v ∈ ts -> σ1 (Limiter v) = σ (Limiter v)) as Hsame.
  { intros v Hv. unfold σ1. rewrite fn_lookup_insert_ne; [done|]. intros E. apply Hnu. rewrite E.
    apply list_elem_of_fmap. by exists v. }
  case_cmp.
  - split_and!; [done| |done|].
    + apply each_lookup. intros j v Hj. left. apply Hsame. by eapply list_elem_of_lookup_2.
    + exists [], ts. rewrite Nat.add_0_r. split_and!; try done; unfold avail; lia.
  - specialize (IH (Datatypes.S i) σ1 Hnd). destruct (peek_loop _ _ ts key n σ1) as [r σ'].
    destruct IH as (IH1 & IH2 & IH3).
    { by apply (each_elsewhere steady_at). }
    assert (forall vs k, (forall v, v ∈ vs -> v ∈ ts) -> each (fun i u => n <= avail (at_peek rd i) σ1 u) k vs ->
      each (fun i u => n <= avail (at_peek rd i) σ u) k vs) as Hav.
    { intros vs k Hin Hvs. rewrite each_lookup in *. intros j v Hj. specialize (Hvs j v Hj). unfold avail in *.
      rewrite Hsame in Hvs; [done|]. by eapply Hin, list_elem_of_lookup_2. }
    split_and!.
    + unfold looked_at. rewrite IH2 by done. exact Hlu.
    + rewrite each_lookup in *. intros j v Hj. specialize (IH1 j v Hj). unfold looked_at in *.
      by rewrite !Hsame in IH1 by (by eapply list_elem_of_lookup_2).
    + intros x Hxx. rewrite IH2; [by apply Hx|]. intros Hin. apply Hxx, elem_of_cons. by right.
    + destruct r as [[[j v] st']|].
      * destruct IH3 as (pre & post & -> & -> & Hpre & Hv).
        exists (u :: pre), post. cbn. rewrite Nat.add_succ_r. split_and!; [done|done|unfold avail; lia| |].
        -- apply Hav; [|done]. intros w Hw. apply elem_of_app. by left.
        -- unfold avail in *. rewrite Hsame in Hv; [done|]. apply elem_of_app. right. apply elem_of_cons. by left.
      * split; [unfold avail; lia|]. by apply Hav.
Qed.

(** Phase 2, when every tier has room. *)
Definition willing_at (i : nat) (u : Tier) (s : S) : Prop :=
  lim_inv s /\ lim_ok s (at_commit rd i) (KeyFunc u key) n /\ n <= lim_avail s (at_commit rd i) (KeyFunc u key).

Definition willing (σ : nat -> S) (i : nat) (u : Tier) : Prop := willing_at i u (σ (Limiter u)).

Lemma looked_willing σ σ1 i u : looked_at σ σ1 i u -> steady σ i u -> n <= avail (at_peek rd i) σ u -> willing σ1 i u.
Proof.
  intros Hlk (Hi & Hok & _ & Ht & _ & Hroom) Hav. destruct (looked_at_keeps _ _ _ _ _ Hlk Hi Ht) as (Hi1 & Hav1 & Hok1).
  unfold avail in *. unfold willing, willing_at. rewrite Hav1. split_and!; [done|by apply Hok1|by apply Hroom].
Qed.

Lemma commit_loop_spec i ts cs rs (σ : nat -> S) : NoDup (map Limiter ts) -> each (willing σ) i ts ->
  (ts <> [] \/ rs <> []) ->
  let '(res, σ') := commit_loop (at_commit rd) i ts cs rs key n σ in
  Allowed res = true /\ each (fun i => charge (at_commit rd i) n σ σ') i ts /\
  (forall x, x ∉ map Limiter ts -> σ' x = σ x).
Proof.
  revert i cs rs σ. induction ts as [|u ts IH]; intros i cs rs σ Hnd Hw Hne; cbn.
  - split_and!; [|done..]. destruct Hne as [?|Hne]; [done|]. destruct (rev rs) eqn:E; [|done].
    apply (f_equal (@rev _)) in E. rewrite rev_involutive in E. done.
  - destruct Hw as [(Hi & Hok & Hau) Hts]. apply NoDup_cons in Hnd as [Hnu Hnd].
    pose proof (allow_spec (at_commit rd i) (KeyFunc u key) n _ (conj Hi Hok)) as Hal.
    destruct (lim_AllowN (σ (Limiter u)) (at_commit rd i) (KeyFunc u key) n) as [r l].
    unfold avail in Hau. rewrite (proj2 (Z.leb_le _ _)) in Hal by lia. destruct Hal as [-> [Hil Hal]].
    set (σ1 := <[Limiter u := l]> σ).
    assert (σ1 (Limiter u) = l) as Hu1 by apply fn_lookup_insert.
    assert (forall v, v ∈ ts -> σ1 (Limiter v) = σ (Limiter v)) as Hsame.
    { intros v Hv. unfold σ1. rewrite fn_lookup_insert_ne; [done|]. intros E. apply Hnu. rewrite E.
      apply list_elem_of_fmap. by exists v. }
    specialize (IH (Datatypes.S i) (u :: cs) (r :: rs) σ1 Hnd).
    destruct (commit_loop _ _ ts (u :: cs) (r :: rs) key n σ1) as [res σ']. destruct IH as (IH1 & IH2 & IH3).
    { by apply (each_elsewhere willing_at). }
    { by right. }
    split_and!; [done| | |].
    + unfold charge, avail. rewrite IH3, Hu1 by done. split; [done|lia].
    + rewrite each_lookup in *. intros j v Hj. destruct (IH2 j v Hj) as [Hvi Hva]. split; [done|].
      rewrite Hva. unfold avail. by rewrite Hsame by (by eapply list_elem_of_lookup_2).
    + intros x Hx. rewrite IH3 by (intros Hin; apply Hx, elem_of_cons; by right). unfold σ1.
      rewrite fn_lookup_insert_ne; [done|]. intros <-. apply Hx, elem_of_cons. by left.
Qed.

Lemma denyResult_spec i u st (σ : nat -> S) :
  lim_inv (σ (Limiter u)) -> lim_ok (σ (Limiter u)) (at_deny rd i) (KeyFunc u key) n ->
  let '(res, σ') := denyResult (at_deny rd) i u st key n σ in
  Allowed res = false /\ Metadata res !! "denied_tier" = Some (AString (tierName i u)) /\
  charge (at_deny rd i) (if n <=? avail (at_deny rd i) σ u then n else 0) σ σ' u /\
  (forall x, x <> Limiter u -> σ' x = σ x).
Proof.
  intros Hi Hok. unfold denyResult, charge, avail.
  pose proof (allow_spec (at_deny rd i) (KeyFunc u key) n _ (conj Hi Hok)) as Hal.
  destruct (lim_AllowN (σ (Limiter u)) (at_deny rd i) (KeyFunc u key) n) as [r l]. destruct Hal as [_ [Hil Hal]].
  split_and!.
  - by destruct (RetryAfter r =? 0).
  - destruct (RetryAfter r =? 0); cbn; rewrite lookup_insert_ne by done; apply lookup_insert_eq.
  - by rewrite fn_lookup_insert.
  - by rewrite fn_lookup_insert.
  - intros x Hx. by rewrite fn_lookup_insert_ne.
Qed.
End laws.

(** C23: All or nothing, over limiters that keep the interface's laws, one per tier, that nobody else uses during
    the call, for a valid request whose derived keys the limiters accept ([lim_ok]), when no clock goes back between
    the readings of a tier and room for the request does not go away.  It is allowed exactly when every tier has room for its
    derived key at the tier's peek; an allowed request charges every tier its cost.  The result of a denial names the first
    tier that lacked room; a denial charges no other tier, and this one only if it has room when it is asked for the retry time: never
    when both readings are one instant.  Limiters that stand behind no tier are not touched. *)
Theorem tiered_all_or_nothing {S} `{LimiterLaws S} `{Crediter S} tl rd key n (σ : nat -> S) :
  tiers tl <> [] -> NoDup (map Limiter (tiers tl)) -> ValidateKey key = None -> 1 <= n ->
  each (steady rd key n σ) 0 (tiers tl) ->
  let '(res, σ') := allowN_body tl rd key n σ in
  (Allowed res = true <-> each (fun i u => n <= avail key (at_peek rd i) σ u) 0 (tiers tl)) /\
  (Allowed res = true -> each (fun i => charge key (at_commit rd i) n σ σ') 0 (tiers tl)) /\
  (Allowed res = false -> exists pre u post, tiers tl = pre ++ u :: post /\
     each (fun i v => n <= avail key (at_peek rd i) σ v) 0 pre /\ avail key (at_peek rd (length pre)) σ u < n /\
     Metadata res !! "denied_tier" = Some (AString (tierName (length pre) u)) /\
     each (fun i v => charge key (at_deny rd i)
       (if bool_decide (i = length pre) && (n <=? avail key (at_deny rd i) σ v) then n else 0) σ σ' v) 0 (tiers tl)) /\
  (Allowed res = false -> (forall i, at_peek rd i = at_deny rd i) ->
     each (fun i => charge key (at_deny rd i) 0 σ σ') 0 (tiers tl)) /\
  (forall x, x ∉ map Limiter (tiers tl) -> σ' x = σ x).
Proof.
  intros Hne Hnd Hk Hn Hs. unfold allowN_body. rewrite Hk, (proj2 (ValidateN_ok n)) by done.
  destruct (tiers tl) as [|u0 us] eqn:Et; [done|]. rewrite <- Et in *. clear Et u0 us.
  pose proof (peek_loop_spec rd key n 0 (tiers tl) σ Hnd Hs) as Hp.
  destruct (peek_loop _ 0 (tiers tl) key n σ) as [r σ1]. destruct Hp as (Hlk & Hout & Hres).
  rewrite each_lookup in Hs, Hlk. cbn [Nat.add] in Hs, Hlk. destruct r as [[[j u] st]|].
  - destruct Hres as (pre & post & Hts & -> & Hpre & Hu). cbn [Nat.add] in *.
    assert (tiers tl !! length pre = Some u) as Hju by (rewrite Hts; by apply list_lookup_middle).
    destruct (Hs _ _ Hju) as (Hi & _ & Hok & _ & Ht & _).
    destruct (looked_at_keeps rd key n _ _ _ _ _ (Hlk _ _ Hju) Hi Ht) as (Hi1 & Ha1 & Hok1).
    pose proof (denyResult_spec rd key n (length pre) u st σ1 Hi1 (Hok1 Hok)) as Hd. rewrite Ha1 in Hd.
    destruct (denyResult _ _ _ _ _ _ _) as [res σ']. destruct Hd as (Hres & Hmd & [Hci Hca] & Hout').
    rewrite Hres. set (d := if n <=? avail key (at_deny rd (length pre)) σ u then n else 0) in *.
    assert (each (fun i v => charge key (at_deny rd i)
       (if bool_decide (i = length pre) && (n <=? avail key (at_deny rd i) σ v) then n else 0) σ σ' v) 0 (tiers tl)) as Hch.
    { apply each_lookup. cbn [Nat.add]. intros j v Hj. destruct (Hs _ _ Hj) as (Hiv & _ & _ & _ & Htv & _).
      destruct (looked_at_keeps rd key n _ _ _ _ _ (Hlk _ _ Hj) Hiv Htv) as (Hiv1 & Hav1 & _).
      destruct (decide (j = length pre)) as [->|Hjne].
      - rewrite Hju in Hj. injection Hj as <-. rewrite bool_decide_true by done. cbn [andb]. fold d.
        split; [done|]. rewrite Hca. by rewrite Ha1.
      - rewrite bool_decide_false by done. cbn [andb]. unfold charge, avail in *. rewrite Hout'; [split; [done|lia]|].
        intros E. apply Hjne. apply (NoDup_lookup (map Limiter (tiers tl)) _ _ (Limiter v)); [exact Hnd| |];
          apply list_lookup_fmap_Some; [by exists v|by exists u]. }
    split_and!.
    + split; [done|]. rewrite each_lookup. intros Hall. specialize (Hall _ _ Hju). cbn [Nat.add] in Hall. lia.
    + done.
    + intros _. by exists pre, u, post.
    + intros _ Hrd. rewrite each_lookup in *. cbn [Nat.add] in *. intros j v Hj. specialize (Hch j v Hj).
      destruct (decide (j = length pre)) as [->|]; [|by rewrite bool_decide_false in Hch].
      rewrite bool_decide_true in Hch by done. rewrite Hju in Hj. injection Hj as <-. rewrite Hrd in Hu.
      by rewrite (proj2 (Z.leb_gt _ _)) in Hch by lia.
    + intros x Hx. rewrite Hout'; [by apply Hout|]. intros ->. apply Hx, list_elem_of_fmap. exists u.
      split; [done|]. by eapply list_elem_of_lookup_2.
  - assert (each (willing rd key n σ1) 0 (tiers tl)) as Hw.
    { rewrite each_lookup in *. cbn [Nat.add] in *. intros j v Hj.
      exact (looked_willing rd key n σ σ1 j v (Hlk j v Hj) (Hs j v Hj) (Hres j v Hj)). }
    pose proof (commit_loop_spec rd key n 0 (tiers tl) [] [] σ1 Hnd Hw ltac:(by left)) as Hc.
    destruct (commit_loop _ _ _ _ _ _ _ _) as [res σ']. destruct Hc as (Hres' & Hch & Hout'). rewrite Hres'.
    split_and!; [done| |done|done|].
    + intros _. rewrite each_lookup in *. cbn [Nat.add] in *. intros j v Hj. destruct (Hch j v Hj) as [Hci Hca].
      destruct (Hs _ _ Hj) as (Hiv & _ & _ & Htv & _).
      destruct (looked_at_keeps rd key n _ _ _ _ _ (Hlk _ _ Hj) Hiv Htv) as (_ & Hav1 & _).
      split; [done|]. by rewrite Hca, Hav1.
    + intros x Hx. rewrite Hout' by done. by apply Hout.
Qed.

(** ** Runs *)

(** None of the limiters of the repository implements [Crediter]. *)
#[export] Instance any_limiter_crediter : Crediter any_limiter := { lim_Credit _ _ _ := None }.
#[export] Instance fixed_window_crediter : Crediter FixedWindow.FixedWindowCounter := { lim_Credit _ _ _ := None }.

(** Per-user fixed window, per-tenant GCRA, global sliding log. *)
Definition demo_tiers : list Tier :=
  [mkTier "user" identity 0; mkTier "" (Prefix ":") 1; mkTier "global" (Constant "all") 2].

Definition demo_store (i : nat) : any_limiter :=
  nth i demo_limiters (inl (FixedWindow.mkFW 1 1 0 ∅ false false)).

(** Peeks at 40, commits at 50, retry times asked for at 60. *)
Definition demo_reads : tier_reads := mkTierReads (fun _ => 40) (fun _ => 50) (fun _ => 60).

Lemma demo_steady : each (steady demo_reads "acme:alice" 3 demo_store) 0 demo_tiers.
Proof.
  cbn [each demo_tiers]. split; [|split; [|split; [|done]]]; unfold steady, steady_at;
    cbn [Limiter KeyFunc demo_store at_peek at_commit at_deny demo_reads];
    (split; [|split; [split; [reflexivity|]|split; [split; [reflexivity|]|
      split; [lia|split; [lia|intros _; vm_compute; discriminate]]]]]).
  - split; [unfold FixedWindow.cfg_ok; simpl; go_lia|apply map_Forall_empty].
  - simpl; go_lia.
  - simpl; go_lia.
  - simpl. unfold Gcra.cfg_ok; simpl; go_lia.
  - simpl; lia.
  - simpl; lia.
  - split; [unfold SlidingLog.cfg_ok; simpl; go_lia|apply map_Forall_empty].
  - simpl. split; [go_lia|]. vm_compute. discriminate.
  - simpl. split; [go_lia|]. vm_compute. discriminate.
Qed.

Lemma tiered_all_or_nothing_witness :
  let '(res, σ') := allowN_body (mkTiered demo_tiers false) demo_reads "acme:alice" 3 demo_store in
  (Allowed res = true <-> each (fun i u => 3 <= avail "acme:alice" (at_peek demo_reads i) demo_store u) 0 demo_tiers) /\
  (Allowed res = true -> each (fun i => charge "acme:alice" (at_commit demo_reads i) 3 demo_store σ') 0 demo_tiers).
Proof.
  pose proof (tiered_all_or_nothing (mkTiered demo_tiers false) demo_reads "acme:alice" 3 demo_store) as H.
  destruct (allowN_body _ _ _ _ _) as [res σ'].
  destruct H as (H1 & H2 & _); [discriminate| |reflexivity|lia|exact demo_steady|by split].
  vm_compute. repeat constructor; set_solver.
Defined.

(** One request per window of one second. *)
Definition one_per_second : FixedWindow.FixedWindowCounter := FixedWindow.mkFW 1 1000000000 0 ∅ false false.

(** Derived keys are not validated.  The request key [":x"] is valid; the tenant tier derives
    the empty key from it, [Peek] reports room for that key and [AllowN] refuses it, after the
    user tier has been charged: no limiter is shared or used from elsewhere, and yet the denied
    request leaves a tier charged. *)
Theorem tiered_invalid_derived_key_leaks :
  let tl := mkTiered [mkTier "user" identity 0; mkTier "tenant" (Prefix ":") 1] false in
  let '(res, σ') := allowN_body tl (tier_reads_at 50) ":x" 1 (fun _ => one_per_second) in
  ValidateKey ":x" = None /\ Allowed res = false /\
  FixedWindow.available one_per_second 50 ":x" = 1 /\ FixedWindow.available (σ' 0%nat) 50 ":x" = 0.
Proof. vm_compute. by split_and!. Qed.

(** Two tiers that share a limiter and derive the same key: both peeks see the one free request,
    the first commit takes it and the second is denied, without any use from elsewhere. *)
Theorem tiered_shared_limiter_leaks :
  let tl := mkTiered [mkTier "a" identity 0; mkTier "b" identity 0] false in
  let '(res, σ') := allowN_body tl (tier_reads_at 50) "k" 1 (fun _ => one_per_second) in
  Allowed res = false /\ FixedWindow.available one_per_second 50 "k" = 1 /\
  FixedWindow.available (σ' 0%nat) 50 "k" = 0.
Proof. vm_compute. by split_and!. Qed.

(** The [AllowN] that only asks for the retry time is granted, and consumes, when the window of
    the denying tier turns over after the peek. *)
Theorem tiered_denied_request_consumes :
  let tl := mkTiered [mkTier "a" identity 0] false in
  let '(res, σ') := allowN_body tl (mkTierReads (fun _ => 9) (fun _ => 9) (fun _ => 10)) "k" 1 (fun _ => used_window) in
  Allowed res = false /\ FixedWindow.available used_window 10 "k" = 1 /\
  FixedWindow.available (σ' 0%nat) 10 "k" = 0.
Proof. vm_compute. by split_and!. Qed.
