(* ===== verification/Adaptive.v ===== *)
(** * The adaptive limiter ([ratelimit/adaptive/adaptive.go], [signals.go]).

    A token bucket whose limit a control loop moves between two bounds, driven
    by health signals.  [RuntimeSignals] is the source built on request outcomes;
    what the Go runtime reports (GC fraction, goroutine count) is an argument. *)

From Stdlib Require Import Floats.
From S2P Require Import Prelude Float64 Float64Round Ratelimit TokenBucket.
Open Scope Z_scope.

Definition algorithmName : string := "adaptive".

(** One reading of a [SignalSource]. *)
Record signals := mkSignals { CPUPercent : f64; ErrorRate : f64; P99Latency : duration }.

Record AdaptiveLimiter := mkAdaptive {
  minLimit : Z;
  maxLimit : Z;
  adjustInterval : duration;
  currentLimit : Z;
  inner : TokenBucket;
  closed : bool;
  p99Warn : duration;
  p99Critical : duration;
  onDecision : bool;
}.

(** ** Construction *)

Definition WithOnDecision (al : AdaptiveLimiter) : AdaptiveLimiter :=
  mkAdaptive (minLimit al) (maxLimit al) (adjustInterval al) (currentLimit al) (inner al) (closed al)
    (p99Warn al) (p99Critical al) true.

Definition WithAdjustInterval (d : duration) (al : AdaptiveLimiter) : AdaptiveLimiter :=
  mkAdaptive (minLimit al) (maxLimit al) d (currentLimit al) (inner al) (closed al)
    (p99Warn al) (p99Critical al) (onDecision al).

Definition WithLatencyThresholds (warn critical : duration) (al : AdaptiveLimiter) : AdaptiveLimiter :=
  mkAdaptive (minLimit al) (maxLimit al) (adjustInterval al) (currentLimit al) (inner al) (closed al)
    warn critical (onDecision al).

Definition with_inner (al : AdaptiveLimiter) (tb : TokenBucket) : AdaptiveLimiter :=
  mkAdaptive (minLimit al) (maxLimit al) (adjustInterval al) (currentLimit al) tb (closed al)
    (p99Warn al) (p99Critical al) (onDecision al).

Definition New (initialLimit minLimit maxLimit : Z) (opts : list (AdaptiveLimiter -> AdaptiveLimiter))
  : outcome AdaptiveLimiter :=
  if minLimit <? 1 then Panic "adaptive.New: minLimit must be >= 1"
  else if maxLimit <? minLimit then Panic "adaptive.New: maxLimit must be >= minLimit"
  else
    let initialLimit := if initialLimit <? minLimit then minLimit else initialLimit in
    let initialLimit := if maxLimit <? initialLimit then maxLimit else initialLimit in
    match TokenBucket.New (f64_of_Z initialLimit) (f64_of_Z initialLimit) [] with
    | Panic m => Panic m
    | Ok tb =>
        Ok (foldl (fun al o => o al)
              (mkAdaptive minLimit maxLimit Second initialLimit tb false (100 * Millisecond) (500 * Millisecond) false)
              opts)
    end.

(** ** The control loop *)

Definition adjustDirection (al : AdaptiveLimiter) (s : signals) : Z :=
  let threshold := p99Critical al in
  if f64_gtb (CPUPercent s) 80 || f64_gtb (ErrorRate s) 0.05 || (threshold <? P99Latency s) then -1
  else if PrimFloat.ltb (CPUPercent s) 50 && PrimFloat.ltb (ErrorRate s) 0.01 && (P99Latency s <? Z.quot threshold 2) then 1
  else 0.

(** The limit computed before the bounds are applied. *)
Definition stepped (current dir : Z) : Z :=
  let c := f64_of_Z current in
  let target := if dir =? -1 then (c * 0.9)%float else (c * 1.05)%float in
  let smoothed := (c * 0.9 + target * 0.1)%float in
  let newLimit := round_to_int64 smoothed in
  let newLimit := if (dir =? 1) && (newLimit <=? current) then current +w 1 else newLimit in
  if (dir =? -1) && (current <=? newLimit) then current -w 1 else newLimit.

Definition adjust (al : AdaptiveLimiter) (s : signals) : outcome AdaptiveLimiter :=
  let current := currentLimit al in
  let dir := adjustDirection al s in
  if dir =? 0 then Ok al
  else
    let newLimit := stepped current dir in
    let newLimit := if newLimit <? minLimit al then minLimit al else newLimit in
    let newLimit := if maxLimit al <? newLimit then maxLimit al else newLimit in
    if newLimit =? current then Ok al
    else
      match SetLimit (inner al) (f64_of_Z newLimit) (f64_of_Z newLimit) with
      | Panic m => Panic m
      | Ok tb =>
          Ok (mkAdaptive (minLimit al) (maxLimit al) (adjustInterval al) newLimit tb (closed al)
                (p99Warn al) (p99Critical al) (onDecision al))
      end.

Fixpoint adjusts (al : AdaptiveLimiter) (ss : list signals) : outcome AdaptiveLimiter :=
  match ss with
  | [] => Ok al
  | s :: ss' => match adjust al s with Ok al' => adjusts al' ss' | Panic m => Panic m end
  end.

(** The background goroutine: a ticker, which cannot have a non-positive interval, and one
    adjustment per tick until [Close]; [ss] are the readings at the ticks. *)
Definition adjustLoop (al : AdaptiveLimiter) (ss : list signals) : outcome AdaptiveLimiter :=
  if adjustInterval al <=? 0 then Panic "non-positive interval for NewTicker" else adjusts al ss.

(** ** The limiter's operations *)

Definition AllowN (al : AdaptiveLimiter) (start stop : time) (rd : reads) (key : string) (n : Z)
  : Result * AdaptiveLimiter * list event :=
  let '(r, tb, _) := TokenBucket.AllowN (inner al) rd key n in
  let r := mkResult (Allowed r) (currentLimit al) (Remaining r) (ResetAfter r) (RetryAfter r) algorithmName (Metadata r) in
  (r, with_inner al tb,
   record_decision algorithmName r start stop ++ (if onDecision al then [OnDecision key r] else [])).

Definition Allow (al : AdaptiveLimiter) (start stop : time) (rd : reads) (key : string)
  : Result * AdaptiveLimiter * list event := AllowN al start stop rd key 1.

Definition WaitN (al : AdaptiveLimiter) (key : string) (n : Z) (tc now : time) (wakes : list wake)
  : wait_result * AdaptiveLimiter :=
  let '(r, tb) := TokenBucket.WaitN (inner al) key n tc now wakes in (r, with_inner al tb).

Definition Wait (al : AdaptiveLimiter) (key : string) (tc now : time) (wakes : list wake)
  : wait_result * AdaptiveLimiter := WaitN al key 1 tc now wakes.

Definition Peek (al : AdaptiveLimiter) (s : signals) (tc now now2 : time) (key : string) : State * AdaptiveLimiter :=
  let '(st, tb) := TokenBucket.Peek (inner al) tc now now2 key in
  let extra := <["p99_latency" := ADuration (P99Latency s)]> (<["error_rate" := AFloat (ErrorRate s)]>
    (<["cpu_percent" := AFloat (CPUPercent s)]> (<["max_limit" := AInt (maxLimit al)]>
    (<["min_limit" := AInt (minLimit al)]> (<["current_limit" := AInt (currentLimit al)]> (st_Extra st)))))) in
  (mkState (st_Key st) algorithmName (currentLimit al) (st_Remaining st) (st_ResetAt st) (st_WindowStart st) extra,
   with_inner al tb).

Definition Reset (al : AdaptiveLimiter) (key : string) : AdaptiveLimiter :=
  with_inner al (TokenBucket.Reset (inner al) key).

Definition Close (al : AdaptiveLimiter) : AdaptiveLimiter :=
  if closed al then al
  else mkAdaptive (minLimit al) (maxLimit al) (adjustInterval al) (currentLimit al) (TokenBucket.Close (inner al)) true
         (p99Warn al) (p99Critical al) (onDecision al).

(** ** Signals from the runtime *)

(** The moving average of the error rate, pulled to [prior] during [warmup] samples. *)
Record ewma := mkEwma { alpha : f64; prior : f64; warmup : Z; value : f64; count : Z }.

Definition newEWMAWithPrior (alpha prior : f64) (warmup : Z) : ewma :=
  mkEwma alpha prior (if warmup <? 0 then 0 else warmup) prior 0.

Definition ewma_add (e : ewma) (sample : f64) : ewma :=
  let v := (alpha e * sample + (one - alpha e) * value e)%float in
  let c := count e + 1 in
  let v := if (c <=? warmup e) && (0 <? warmup e) then
             let w := (f64_of_Z c / f64_of_Z (warmup e + 1))%float in (w * v + (one - w) * prior e)%float
           else v in
  mkEwma (alpha e) (prior e) (warmup e) v c.

(** The 32 power-of-two buckets. *)
Notation histogram := (list Z) (only parsing).

Definition newHistogram : histogram := replicate 32 0.

(** [64 - bits.LeadingZeros64(x)]: the bit length of [x >= 0]. *)
Definition bit_length (x : Z) : Z := if x =? 0 then 0 else Z.log2 x + 1.

Definition bucket_index (ns : Z) : nat :=
  let bit := bit_length (Z.quot ns 1000) in
  let bit := if bit <? 0 then 0 else bit in
  Z.to_nat (if 32 <=? bit then 31 else bit).

Definition histogram_record (h : histogram) (d : duration) : histogram :=
  if d <=? 0 then h else alter (fun c => c + 1) (bucket_index d) h.

Definition bucket_duration (i : nat) : duration := 1000 * Z.shiftl 1 (Z.of_nat i).

Fixpoint p99_loop (i : nat) (h : list Z) (cumulative target : Z) : duration :=
  match h with
  | [] => bucket_duration 31
  | c :: h' =>
      let cumulative := cumulative + c in
      if target <=? cumulative then bucket_duration i else p99_loop (S i) h' cumulative target
  end.

Definition p99 (h : histogram) : duration :=
  let total := zsum h in
  if total =? 0 then 0 else p99_loop 0 h 0 (Z.quot (total * 99) 100).

Definition cpuSampleInterval : duration := 250 * Millisecond.

Record RuntimeSignals := mkRuntime {
  errorRate : ewma;
  latencyHist : histogram;
  cachedCPU : f64;
  lastCPUSample : time;
  cpuInited : bool;
}.

Definition NewRuntimeSignals : RuntimeSignals :=
  mkRuntime (newEWMAWithPrior 0.1 0.5 10) newHistogram zero zero_time false.

Definition record_outcome (failed : f64) (r : RuntimeSignals) (latency : duration) : RuntimeSignals :=
  mkRuntime (ewma_add (errorRate r) failed) (histogram_record (latencyHist r) latency)
    (cachedCPU r) (lastCPUSample r) (cpuInited r).

Definition RecordSuccess : RuntimeSignals -> duration -> RuntimeSignals := record_outcome zero.
Definition RecordError : RuntimeSignals -> duration -> RuntimeSignals := record_outcome one.

(** [math.Min] on numbers. *)
Definition math_Min (x y : f64) : f64 := if PrimFloat.ltb x y then x else y.

(** [gcFraction] and [goroutines] are what the runtime reports when it is asked. *)
Definition runtime_CPUPercent (r : RuntimeSignals) (now : time) (gcFraction : f64) (goroutines : Z) : f64 * RuntimeSignals :=
  if cpuInited r && (time_sub now (lastCPUSample r) <? cpuSampleInterval) then (cachedCPU r, r)
  else
    let gcCPU := (gcFraction * 100)%float in
    let gcCPU := if f64_gtb gcCPU 100 then 100%float else gcCPU in
    let gcCPU := if PrimFloat.ltb gcCPU 0 then 0%float else gcCPU in
    let gProxy := math_Min (f64_of_Z goroutines / 1000 * 100)%float 100%float in
    let val := ((gcCPU + gProxy) / 2)%float in
    (val, mkRuntime (errorRate r) (latencyHist r) val now true).

(** The three signals a control loop reads. *)
Definition runtime_signals (r : RuntimeSignals) (now : time) (gcFraction : f64) (goroutines : Z) : signals * RuntimeSignals :=
  let '(cpu, r) := runtime_CPUPercent r now gcFraction goroutines in
  (mkSignals cpu (value (errorRate r)) (p99 (latencyHist r)), r).

(** ** The bounds *)

(** The inner bucket carries the current limit, which lies within the bounds. *)
Definition adaptive_ok (al : AdaptiveLimiter) : Prop :=
  1 <= minLimit al <= currentLimit al /\ currentLimit al <= maxLimit al /\ maxLimit al < max_int64 /\
  tb_ok (inner al) /\ capacity (inner al) = f64_of_Z (currentLimit al) /\
  refillRate (inner al) = f64_of_Z (currentLimit al).

Lemma limit_float_ok z : 1 <= z <= max_int64 ->
  PrimFloat.ltb (f64_of_Z z) 0 = false /\ PrimFloat.leb (f64_of_Z z) 0 = false /\
  f64_nonneg (f64_of_Z z) = true /\ f64_finite (f64_of_Z z) = true /\ PrimFloat.ltb 0 (f64_of_Z z) = true.
Proof.
  intros Hz. pose proof (of_Z_pos z ltac:(lia)) as Hp. change zero with 0%float in Hp. split_and!; try done.
  - by apply leb_ltb_false, ltb_leb.
  - destruct (PrimFloat.leb (f64_of_Z z) 0) eqn:E; [|done]. by rewrite leb_ltb_false in Hp.
  - apply f64_of_Z_nonneg. lia.
  - apply of_Z_finite. lia.
Qed.

Lemma SetLimit_of_Z tb z : tb_ok tb -> 1 <= z <= max_int64 ->
  exists tb', SetLimit tb (f64_of_Z z) (f64_of_Z z) = Ok tb' /\ tb_ok tb' /\
    capacity tb' = f64_of_Z z /\ refillRate tb' = f64_of_Z z.
Proof.
  intros [_ Hm] Hz. destruct (limit_float_ok z Hz) as (H1 & H2 & H3 & H4 & H5). unfold SetLimit. rewrite H1, H2.
  eexists. split; [done|]. split; [|done]. split; [done|]. cbn. intros k b Hb. rewrite lookup_fmap in Hb.
  destruct (buckets tb !! k) as [b0|] eqn:Eb; simplify_eq/=. apply clamp_bucket_ok; [done|]. by apply (Hm k).
Qed.

Lemma adjustDirection_cases al s : adjustDirection al s = -1 \/ adjustDirection al s = 0 \/ adjustDirection al s = 1.
Proof. unfold adjustDirection. repeat case_match; auto. Qed.

(** A triggered step moves at least by one in its direction. *)
Lemma stepped_up c : 1 <= c < max_int64 -> c < stepped c 1.
Proof.
  intros Hc. unfold stepped. cbn [Z.eqb Pos.eqb andb]. set (r := round_to_int64 _). clearbody r.
  rewrite wrap64_small by (unfold in64, min_int64 in *; lia). case_cmp; lia.
Qed.

Lemma stepped_down c : 1 <= c < max_int64 -> stepped c (-1) < c.
Proof.
  intros Hc. unfold stepped. cbn [Z.eqb Pos.eqb andb]. set (r := round_to_int64 _). clearbody r.
  rewrite wrap64_small by (unfold in64, min_int64, max_int64 in *; lia). case_cmp; lia.
Qed.

(** One adjustment: never a panic; the limit moves in the direction of the signals, by at least
    one unless it is at the bound, and the bucket follows it. *)
Lemma adjust_spec al s : adaptive_ok al -> exists al', adjust al s = Ok al' /\ adaptive_ok al' /\
  minLimit al' = minLimit al /\ maxLimit al' = maxLimit al /\ p99Critical al' = p99Critical al /\
  match adjustDirection al s with
  | 1 => currentLimit al < currentLimit al' \/ currentLimit al' = maxLimit al
  | 0 => al' = al
  | _ => currentLimit al' < currentLimit al \/ currentLimit al' = minLimit al
  end.
Proof.
  intros Hok. pose proof Hok as (Hmin & Hmax & Hm & Htb & Hc & Hr). unfold adjust.
  destruct (adjustDirection_cases al s) as [-> | [-> | ->]]; cbn [Z.eqb Pos.eqb].
  - pose proof (stepped_down (currentLimit al) ltac:(lia)) as Hd. set (n := stepped _ _) in *. clearbody n.
    set (n' := if maxLimit al <? _ then _ else _). assert (minLimit al <= n' <= maxLimit al) as Hn by (unfold n'; repeat case_cmp; lia).
    assert (n' < currentLimit al \/ n' = minLimit al) as Hdir by (unfold n'; repeat case_cmp; lia).
    destruct (Z.eqb_spec n' (currentLimit al)) as [E|E]; [exists al; split_and!; try done; lia|].
    destruct (SetLimit_of_Z (inner al) n' Htb ltac:(lia)) as (tb & -> & G1 & G2 & G3).
    eexists. split; [done|]. unfold adaptive_ok. cbn. split_and!; try done; lia.
  - by exists al.
  - pose proof (stepped_up (currentLimit al) ltac:(lia)) as Hd. set (n := stepped _ _) in *. clearbody n.
    set (n' := if maxLimit al <? _ then _ else _). assert (minLimit al <= n' <= maxLimit al) as Hn by (unfold n'; repeat case_cmp; lia).
    assert (currentLimit al < n' \/ n' = maxLimit al) as Hdir by (unfold n'; repeat case_cmp; lia).
    destruct (Z.eqb_spec n' (currentLimit al)) as [E|E]; [exists al; split_and!; try done; lia|].
    destruct (SetLimit_of_Z (inner al) n' Htb ltac:(lia)) as (tb & -> & G1 & G2 & G3).
    eexists. split; [done|]. unfold adaptive_ok. cbn. split_and!; try done; lia.
Qed.

(** ** Histories *)

Inductive al_op :=
| OAllowN (start stop : time) (rd : reads) (key : string) (n : Z)
| OPeek (s : signals) (tc now now2 : time) (key : string)
| OReset (key : string)
| OSweep (now : time)
| OAdjust (s : signals).

Definition exec (al : AdaptiveLimiter) (o : al_op) : outcome AdaptiveLimiter :=
  match o with
  | OAllowN start stop rd key n => Ok (snd (fst (AllowN al start stop rd key n)))
  | OPeek s tc now now2 key => Ok (snd (Peek al s tc now now2 key))
  | OReset key => Ok (Reset al key)
  | OSweep now => Ok (with_inner al (sweep (inner al) now))
  | OAdjust s => adjust al s
  end.

Fixpoint exec_all (al : AdaptiveLimiter) (os : list al_op) : outcome AdaptiveLimiter :=
  match os with
  | [] => Ok al
  | o :: os' => match exec al o with Ok al' => exec_all al' os' | Panic m => Panic m end
  end.

Definition al_op_ok (o : al_op) : Prop := match o with OAllowN _ _ _ _ n => n <= max_int64 | _ => True end.

(** Requests leave the limit of the bucket alone. *)
Lemma tb_exec_limit tb o : (forall c r, o <> TSetLimit c r) ->
  capacity (TokenBucket.exec tb o) = capacity tb /\ refillRate (TokenBucket.exec tb o) = refillRate tb.
Proof.
  intros Hn. assert (forall k t', capacity (snd (getOrCreate tb k t')) = capacity tb /\ refillRate (snd (getOrCreate tb k t')) = refillRate tb) as Hg.
  { intros k t'. unfold getOrCreate. by destruct (buckets tb !! k). }
  assert (forall rd k n, capacity (snd (take tb rd k n)) = capacity tb /\ refillRate (snd (take tb rd k n)) = refillRate tb) as Ht.
  { intros rd k n. unfold take. specialize (Hg k (r_create rd)). destruct (getOrCreate tb k (r_create rd)) as [b tb1].
    by destruct (consume tb1 b n (r_now rd)). }
  destruct o as [rd k n|rd k c|tc now now2 k|k|c r|now]; cbn.
  - unfold TokenBucket.AllowN, TokenBucket.allowN_body. destruct (ValidateKey k), (ValidateN n); try done.
    specialize (Ht rd k (f64_of_Z n)). by destruct (take tb rd k (f64_of_Z n)).
  - unfold AllowCost, allowCost_body. destruct (ValidateKey k); [done|]. destruct (PrimFloat.leb c 0); [done|].
    specialize (Ht rd k c). by destruct (take tb rd k c).
  - unfold TokenBucket.Peek. specialize (Hg k tc). by destruct (getOrCreate tb k tc).
  - done.
  - by destruct (Hn c r).
  - unfold sweep. by destruct (_ || _).
Qed.

Lemma with_inner_ok al o : adaptive_ok al -> op_ok o -> (forall c r, o <> TSetLimit c r) ->
  adaptive_ok (with_inner al (TokenBucket.exec (inner al) o)).
Proof.
  intros (H1 & H2 & H3 & H4 & H5 & H6) Ho Hn. destruct (tb_exec_limit (inner al) o Hn) as [E1 E2].
  unfold adaptive_ok. cbn. rewrite E1, E2. split_and!; try done; [lia..|]. by apply exec_tb_ok.
Qed.

Lemma exec_spec al o : adaptive_ok al -> al_op_ok o -> exists al', exec al o = Ok al' /\ adaptive_ok al' /\
  minLimit al' = minLimit al /\ maxLimit al' = maxLimit al.
Proof.
  intros Hok Ho. destruct o as [start stop rd key n|s tc now now2 key|key|now|s]; cbn.
  - eexists. split; [done|]. pose proof (with_inner_ok al (TAllowN rd key n) Hok Ho ltac:(done)) as Hi. unfold AllowN. cbn in Hi.
    by destruct (TokenBucket.AllowN (inner al) rd key n) as [[r tb] ev].
  - eexists. split; [done|]. pose proof (with_inner_ok al (TPeek tc now now2 key) Hok I ltac:(done)) as Hi. unfold Peek. cbn in Hi.
    by destruct (TokenBucket.Peek (inner al) tc now now2 key) as [st tb].
  - eexists. split; [done|]. split; [|done]. by apply (with_inner_ok al (TReset key)).
  - eexists. split; [done|]. split; [|done]. by apply (with_inner_ok al (TSweep now)).
  - destruct (adjust_spec al s Hok) as (al' & -> & H1 & H2 & H3 & _). by exists al'.
Qed.

Lemma New_adaptive_ok initial min max al : max < max_int64 -> New initial min max [] = Ok al ->
  adaptive_ok al /\ minLimit al = min /\ maxLimit al = max.
Proof.
  intros Hm. unfold New. case_cmp; [done|]. case_cmp; [done|].
  set (i0 := if max <? (if initial <? min then min else initial) then _ else _).
  assert (min <= i0 <= max) as Hi by (unfold i0; repeat case_cmp; lia). clearbody i0.
  destruct (limit_float_ok i0 ltac:(lia)) as (H1 & H2 & H3 & H4 & H5). unfold TokenBucket.New. rewrite H1, H2. cbn.
  intros [= <-]. split; [|done]. unfold adaptive_ok. cbn. split_and!; try done; lia.
Qed.

(** C24: The limit stays within its bounds.  After any history of requests, peeks, resets, sweeps
    and adjustments with any signals (NaN included), none of which panics, the current limit is
    between [minLimit] and [maxLimit] and the inner token bucket enforces exactly it: capacity
    and refill rate equal the current limit, and no bucket is in debt. *)
Theorem adaptive_limit_bounded initial min max al os : max < max_int64 -> New initial min max [] = Ok al ->
  Forall al_op_ok os -> exists al', exec_all al os = Ok al' /\ min <= currentLimit al' <= max /\
    capacity (inner al') = f64_of_Z (currentLimit al') /\ refillRate (inner al') = f64_of_Z (currentLimit al') /\
    map_Forall (fun _ b => f64_nonneg (tokens b) = true) (buckets (inner al')).
Proof.
  intros Hm Hnew Ho. destruct (New_adaptive_ok _ _ _ _ Hm Hnew) as (Hok & <- & <-). clear Hnew Hm.
  revert al Hok. induction Ho as [|o os Ho _ IH]; intros al Hok; cbn.
  - exists al. destruct Hok as (H1 & H2 & H3 & H4 & H5 & H6). split_and!; try done; try lia. apply H4.
  - destruct (exec_spec al o Hok Ho) as (al1 & -> & Hok1 & Hmin & Hmax).
    destruct (IH al1 Hok1) as (al' & E & K). exists al'. by rewrite <- Hmin, <- Hmax.
Qed.

Lemma adaptive_limit_bounded_witness : exists al al',
  New 100 2 150 [] = Ok al /\
  exec_all al [OAllowN 0 0 (reads_at 5) "k" 3; OAdjust (mkSignals 90 0 0); OAdjust (mkSignals PrimFloat.nan 0.2 0);
               OAdjust (mkSignals 10 0 0)] = Ok al' /\ 2 <= currentLimit al' <= 150.
Proof.
  eexists. destruct (adaptive_limit_bounded 100 2 150 _
    [OAllowN 0 0 (reads_at 5) "k" 3; OAdjust (mkSignals 90 0 0); OAdjust (mkSignals PrimFloat.nan 0.2 0);
     OAdjust (mkSignals 10 0 0)] eq_refl eq_refl) as (al' & E & H & _).
  - repeat constructor. cbn. unfold max_int64. lia.
  - exists al'. split_and!; [reflexivity|exact E|apply H..].
Defined.

(** ** Convergence *)

Lemma adjustDirection_same al al' s : p99Critical al' = p99Critical al -> adjustDirection al' s = adjustDirection al s.
Proof. intros E. unfold adjustDirection. by rewrite E. Qed.

Lemma adjusts_spec al ss d : adaptive_ok al -> Forall (fun s => adjustDirection al s = d) ss ->
  exists al', adjusts al ss = Ok al' /\ adaptive_ok al' /\ minLimit al' = minLimit al /\ maxLimit al' = maxLimit al /\
    (d = -1 -> currentLimit al' <= Z.max (minLimit al) (currentLimit al - zlength ss)) /\
    (d = 1 -> Z.min (maxLimit al) (currentLimit al + zlength ss) <= currentLimit al').
Proof.
  intros Hok Hd. revert al Hok Hd. induction ss as [|s ss IH]; intros al Hok Hd.
  - exists al. destruct Hok as (H1 & H2 & H3). split_and!; try done; intros _; zlen; lia.
  - apply Forall_cons in Hd as [Hs Hss]. cbn.
    destruct (adjust_spec al s Hok) as (al1 & -> & Hok1 & Hmin & Hmax & Hp & Hdir).
    destruct (IH al1 Hok1) as (al' & E & Hok' & Hmin' & Hmax' & Hdn & Hup).
    { eapply Forall_impl; [exact Hss|]. intros s' <-. by apply adjustDirection_same. }
    rewrite Hs in Hdir.
    exists al'. pose proof Hok1 as (G1 & G2 & _). rewrite Hmin in Hdn. rewrite Hmax in Hup.
    split_and!; try done; [congruence..| |]; intros ->; pose proof (zlength_nonneg ss); zlen; [specialize (Hdn eq_refl)|specialize (Hup eq_refl)]; lia.
Qed.

(** Convergence.  Under stress at every tick the limit reaches [minLimit] after at most as
    many adjustments as it is above it, and under healthy signals it reaches [maxLimit] in the
    same way: rounding never stalls the control loop. *)
Theorem adaptive_converges al ss d : adaptive_ok al -> Forall (fun s => adjustDirection al s = d) ss ->
  (d = -1 /\ currentLimit al - minLimit al <= zlength ss) \/ (d = 1 /\ maxLimit al - currentLimit al <= zlength ss) ->
  exists al', adjusts al ss = Ok al' /\ currentLimit al' = if d =? -1 then minLimit al else maxLimit al.
Proof.
  intros Hok Hd Hl. destruct (adjusts_spec al ss d Hok Hd) as (al' & E & (G1 & G2 & _) & Hmin & Hmax & Hdn & Hup).
  exists al'. split; [done|]. destruct Hl as [[-> Hl]|[-> Hl]]; cbn [Z.eqb Pos.eqb].
  - specialize (Hdn eq_refl). lia.
  - specialize (Hup eq_refl). lia.
Qed.

Definition demo_adaptive : AdaptiveLimiter :=
  match New 5 3 9 [] with Ok al => al | Panic _ => mkAdaptive 0 0 0 0 (mkTB 0 0 0 ∅ false false) false 0 0 false end.

Lemma demo_adaptive_ok : adaptive_ok demo_adaptive.
Proof. by apply (New_adaptive_ok 5 3 9). Qed.

Lemma adaptive_converges_witness :
  (exists al', adjusts demo_adaptive (replicate 2 (mkSignals 10 0.3 0)) = Ok al' /\ currentLimit al' = 3) /\
  (exists al', adjusts demo_adaptive (replicate 4 (mkSignals 10 0 0)) = Ok al' /\ currentLimit al' = 9).
Proof.
  split.
  - apply (adaptive_converges demo_adaptive _ (-1)); [exact demo_adaptive_ok|apply Forall_replicate; vm_compute; reflexivity|left; vm_compute; by split].
  - apply (adaptive_converges demo_adaptive _ 1); [exact demo_adaptive_ok|apply Forall_replicate; vm_compute; reflexivity|right; vm_compute; by split].
Defined.

(** ** Idle runtime signals *)

(** The readings of a control loop when no request is ever recorded; each has its instant and
    what the runtime reports. *)
Fixpoint idle_readings (r : RuntimeSignals) (rs : list (time * f64 * Z)) : list signals :=
  match rs with
  | [] => []
  | (now, gc, goroutines) :: rs' => let '(s, r) := runtime_signals r now gc goroutines in s :: idle_readings r rs'
  end.

Lemma idle_readings_stress al rs r : value (errorRate r) = 0.5%float ->
  Forall (fun s => adjustDirection al s = -1) (idle_readings r rs) /\ length (idle_readings r rs) = length rs.
Proof.
  revert r. induction rs as [|[[now gc] g] rs IH]; intros r Hr; [done|]. cbn.
  unfold runtime_signals. destruct (runtime_CPUPercent r now gc g) as [cpu r'] eqn:E.
  assert (value (errorRate r') = 0.5%float) as Hr'.
  { unfold runtime_CPUPercent in E. destruct (_ && _); by simplify_eq. }
  destruct (IH r' Hr') as [IH1 IH2]. cbn. split; [|by f_equal]. constructor; [|done].
  unfold adjustDirection. cbn [CPUPercent ErrorRate P99Latency]. rewrite Hr'.
  assert (f64_gtb 0.5 0.05 = true) as -> by reflexivity. by destruct (f64_gtb cpu 80).
Qed.

(** [NewRuntimeSignals] reports an error rate of 0.5 before any request, which counts as stress:
    an adaptive limiter that has served no request at all lowers its limit to [minLimit]. *)
Theorem adaptive_idle_decays initial min max al rs : max < max_int64 -> New initial min max [] = Ok al ->
  currentLimit al - min <= zlength rs ->
  exists al', adjusts al (idle_readings NewRuntimeSignals rs) = Ok al' /\ currentLimit al' = min.
Proof.
  intros Hm Hnew Hl. destruct (New_adaptive_ok _ _ _ _ Hm Hnew) as (Hok & <- & _).
  destruct (idle_readings_stress al rs NewRuntimeSignals eq_refl) as [Hs Hlen].
  destruct (adjusts_spec al _ (-1) Hok Hs) as (al' & E & (G1 & _) & Hmin & _ & Hdn & _).
  exists al'. split; [done|]. specialize (Hdn eq_refl). unfold zlength in *. rewrite Hlen in Hdn. lia.
Qed.

(** ** The 99th percentile *)

Definition histogram_of (ds : list duration) : histogram := foldl histogram_record newHistogram ds.

(** How many of the recorded durations are below [d]. *)
Definition below (d : duration) (ds : list duration) : Z := tally (fun x => if x <? d then 1 else 0) ds.

Lemma bit_length_le x k : 0 <= x -> 0 <= k -> bit_length x <= k <-> x < 2 ^ k.
Proof.
  intros Hx Hk. unfold bit_length. destruct (Z.eqb_spec x 0) as [->|Hne].
  - pose proof (Z.pow_pos_nonneg 2 k). lia.
  - pose proof (Z.log2_lt_pow2 x k ltac:(lia)). lia.
Qed.

Lemma adaptive_bucket_index_lt d : (bucket_index d < 32)%nat.
Proof. unfold bucket_index. repeat case_cmp; lia. Qed.

Lemma bucket_index_le d i : 0 < d -> (i < 31)%nat -> (bucket_index d <= i)%nat <-> d < bucket_duration i.
Proof.
  intros Hd Hi. unfold bucket_index, bucket_duration. rewrite Z.shiftl_1_l.
  assert (0 <= Z.quot d 1000) as Hq by (apply Z.quot_pos; lia).
  pose proof (bit_length_le (Z.quot d 1000) (Z.of_nat i) Hq ltac:(lia)) as Hb.
  assert (0 <= bit_length (Z.quot d 1000)) as Hn.
  { unfold bit_length. case_match; [lia|]. pose proof (Z.log2_nonneg (Z.quot d 1000)). lia. }
  rewrite (proj2 (Z.ltb_ge _ 0)) by lia.
  assert (Z.quot d 1000 < 2 ^ Z.of_nat i <-> d < 1000 * 2 ^ Z.of_nat i) as Hqd.
  { rewrite Z.quot_div_nonneg by lia. split; intros H.
    - pose proof (Z.div_mod d 1000 ltac:(lia)). pose proof (Z.mod_pos_bound d 1000 ltac:(lia)). nia.
    - apply Z.div_lt_upper_bound; lia. }
  rewrite <- Hqd, <- Hb. case_cmp; lia.
Qed.

Lemma zsum_take_alter k idx (h : list Z) : (idx < length h)%nat ->
  zsum (firstn k (alter (fun c => c + 1) idx h)) = zsum (firstn k h) + (if (idx <? k)%nat then 1 else 0).
Proof.
  revert k idx. induction h as [|c h IH]; intros k idx Hl; cbn in Hl; [lia|].
  destruct k as [|k]; [done|]. destruct idx as [|idx].
  - change (alter (fun c => c + 1) 0%nat (c :: h)) with (c + 1 :: h). cbn [firstn zsum foldr Nat.ltb Nat.leb].
    unfold zsum. cbn [foldr]. lia.
  - change (alter (fun c => c + 1) (S idx) (c :: h)) with (c :: alter (fun c => c + 1) idx h).
    change (S idx <? S k)%nat with (idx <? k)%nat. cbn [firstn]. specialize (IH k idx ltac:(lia)).
    unfold zsum in *. cbn [foldr]. lia.
Qed.

Lemma histogram_record_length h d : length (histogram_record h d) = length h.
Proof. unfold histogram_record. case_match; [done|]. apply length_alter. Qed.

Lemma histogram_of_snoc ds d : histogram_of (ds ++ [d]) = histogram_record (histogram_of ds) d.
Proof. unfold histogram_of. by rewrite foldl_app. Qed.

Lemma histogram_of_length ds : length (histogram_of ds) = 32%nat.
Proof.
  induction ds as [|d ds IH] using rev_ind; [done|]. by rewrite histogram_of_snoc, histogram_record_length.
Qed.

(** The counts of the first buckets count the durations below the bucket's bound. *)
Lemma histogram_below ds i : Forall (fun d => 0 < d) ds -> (i < 31)%nat ->
  zsum (firstn (S i) (histogram_of ds)) = below (bucket_duration i) ds.
Proof.
  intros Hp Hi. induction ds as [|d ds IH] using rev_ind.
  - unfold below, tally. cbn [map zsum foldr]. change (histogram_of []) with newHistogram. unfold newHistogram.
    assert (forall k m, zsum (firstn k (replicate m 0)) = 0) as ->; [|done].
    intros k m. revert k. induction m as [|m IHm]; intros [|k]; try done. apply IHm.
  - apply Forall_app in Hp as [Hp Hd]. rewrite Forall_singleton in Hd. rewrite histogram_of_snoc. unfold histogram_record.
    rewrite (proj2 (Z.leb_gt d 0)) by lia. rewrite zsum_take_alter by (rewrite histogram_of_length; apply adaptive_bucket_index_lt).
    rewrite (IH Hp). unfold below. rewrite tally_app, tally_one. f_equal.
    pose proof (bucket_index_le d i Hd Hi). destruct (Nat.ltb_spec (bucket_index d) (S i)), (Z.ltb_spec d (bucket_duration i)); lia.
Qed.

Lemma histogram_total ds : Forall (fun d => 0 < d) ds -> zsum (histogram_of ds) = zlength ds.
Proof.
  intros Hp. induction ds as [|d ds IH] using rev_ind; [done|].
  apply Forall_app in Hp as [Hp Hd]. rewrite Forall_singleton in Hd. rewrite histogram_of_snoc. unfold histogram_record.
  rewrite (proj2 (Z.leb_gt d 0)) by lia. zlen. rewrite <- (IH Hp).
  pose proof (zsum_take_alter 32 (bucket_index d) (histogram_of ds)) as H. rewrite histogram_of_length in H.
  specialize (H (adaptive_bucket_index_lt d)). rewrite !firstn_all2 in H by (rewrite ?length_alter, ?histogram_of_length; lia).
  rewrite H. pose proof (adaptive_bucket_index_lt d). destruct (Nat.ltb_spec (bucket_index d) 32); lia.
Qed.

Lemma p99_loop_spec h i cum target : target <= cum + zsum h -> h <> [] ->
  exists j, (j < length h)%nat /\ p99_loop i h cum target = bucket_duration (i + j) /\
    target <= cum + zsum (firstn (S j) h) /\ ((0 < j)%nat -> cum + zsum (firstn j h) < target).
Proof.
  revert i cum. induction h as [|c h IH]; intros i cum Hle Hne; [done|]. cbn [p99_loop].
  change (zsum (c :: h)) with (c + zsum h) in Hle.
  destruct (Z.leb_spec target (cum + c)) as [Hc|Hc].
  - exists 0%nat. rewrite Nat.add_0_r. split_and!; [cbn; lia|done| |lia].
    change (zsum (firstn 1 (c :: h))) with (c + 0). lia.
  - destruct h as [|c' h']; [change (zsum []) with 0 in Hle; lia|].
    destruct (IH (S i) (cum + c)) as (j & Hj & E & H1 & H2); [lia|done|].
    exists (S j). split_and!; [cbn in *; lia|by rewrite E, Nat.add_succ_r| |].
    + change (zsum (firstn (S (S j)) (c :: c' :: h'))) with (c + zsum (firstn (S j) (c' :: h'))). lia.
    + intros _. change (zsum (firstn (S j) (c :: c' :: h'))) with (c + zsum (firstn j (c' :: h'))).
      destruct j as [|j]; [change (zsum (firstn 0 (c' :: h'))) with 0; lia|]. specialize (H2 ltac:(lia)). lia.
Qed.

(** The reported 99th percentile.  After at least two positive durations, [p99] is a bucket bound
    [1000 * 2^i] such that at least [99 * n / 100] of the [n] durations are below it (the last bucket is open-ended) and fewer
    than that are below half of it: it overestimates the percentile by less than a factor of two. *)
Theorem adaptive_p99_within_factor_two ds : Forall (fun d => 0 < d) ds -> 2 <= zlength ds ->
  exists i, (i < 32)%nat /\ p99 (histogram_of ds) = bucket_duration i /\
    ((i < 31)%nat -> Z.quot (zlength ds * 99) 100 <= below (bucket_duration i) ds) /\
    ((0 < i)%nat -> below (bucket_duration (i - 1)) ds < Z.quot (zlength ds * 99) 100 /\
                    bucket_duration i = 2 * bucket_duration (i - 1)).
Proof.
  intros Hp Hn. unfold p99. rewrite (histogram_total ds Hp). destruct (Z.eqb_spec (zlength ds) 0); [lia|].
  set (target := Z.quot (zlength ds * 99) 100).
  assert (target <= zlength ds) as Ht by (unfold target; apply Z.quot_le_upper_bound; lia).
  destruct (p99_loop_spec (histogram_of ds) 0 0 target) as (j & Hj & E & H1 & H2).
  - rewrite (histogram_total ds Hp). lia.
  - intros Hx. pose proof (histogram_of_length ds) as Hl. by rewrite Hx in Hl.
  - rewrite histogram_of_length in Hj. exists j. split_and!; [done|exact E| |].
    + intros Hj'. rewrite histogram_below in H1 by done. lia.
    + intros Hj'. specialize (H2 Hj'). destruct j as [|j]; [lia|]. rewrite histogram_below in H2 by (done || lia).
      rewrite Nat.sub_succ, Nat.sub_0_r. split; [lia|]. unfold bucket_duration. rewrite !Z.shiftl_1_l, Nat2Z.inj_succ, Z.pow_succ_r; lia.
Qed.

Lemma adaptive_p99_within_factor_two_witness : exists i, (i < 32)%nat /\
  p99 (histogram_of [1500; 700000; 3000000; 2500]) = bucket_duration i /\
  ((i < 31)%nat -> 3 <= below (bucket_duration i) [1500; 700000; 3000000; 2500]).
Proof.
  destruct (adaptive_p99_within_factor_two [1500; 700000; 3000000; 2500]) as (i & H1 & H2 & H3 & _).
  - by repeat constructor.
  - done.
  - exists i. split_and!; [exact H1|exact H2|exact H3].
Defined.

(** A single sample: its target rank is zero, which the first bucket reaches whatever it holds, so
    the percentile of one request of ten seconds is one microsecond. *)
Theorem adaptive_p99_single_sample d : 0 < d -> p99 (histogram_of [d]) = 1000.
Proof.
  intros Hd. unfold p99. rewrite histogram_total by (by repeat constructor). change (zlength [d] =? 0) with false.
  change (Z.quot (zlength [d] * 99) 100) with 0. cbn iota.
  destruct (p99_loop_spec (histogram_of [d]) 0 0 0) as (j & Hj & -> & H1 & H2).
  - rewrite histogram_total by (by repeat constructor). done.
  - intros Hx. pose proof (histogram_of_length [d]) as Hl. by rewrite Hx in Hl.
  - destruct j as [|j]; [done|]. exfalso. specialize (H2 ltac:(lia)). rewrite histogram_of_length in Hj.
    rewrite histogram_below in H2; [|by apply Forall_singleton|lia].
    unfold below in H2. rewrite tally_one in H2. case_match; lia.
Qed.
