(* ===== verification/CbWindow.v ===== *)
(** * The circuit breaker's metrics windows ([circuitbreaker/metrics.go], [state.go]).

    The count window is a ring buffer of the last [size] outcomes with
    precomputed totals; the time window is a row of fixed-width buckets that
    slides with the clock.  Each is proved to represent the list of outcomes
    recorded since its creation or last reset. *)

From S2P Require Import Prelude.
Open Scope Z_scope.

(** ** [state.go] *)

Inductive cb_state := StateClosed | StateHalfOpen | StateOpen.

#[export] Instance cb_state_eq_dec : EqDecision cb_state.
Proof. solve_decision. Defined.

Definition state_String (s : cb_state) : string :=
  match s with
  | StateClosed => "closed"
  | StateOpen => "open"
  | StateHalfOpen => "half-open"
  end.

Inductive req_outcome := outcomeSuccess | outcomeFailure.

#[export] Instance req_outcome_eq_dec : EqDecision req_outcome.
Proof. solve_decision. Defined.

Definition is_failure (o : req_outcome) : bool :=
  match o with outcomeFailure => true | outcomeSuccess => false end.

Definition fail_cost (o : req_outcome) : Z := if is_failure o then 1 else 0.

Inductive WindowType := CountBased | TimeBased.

#[export] Instance WindowType_eq_dec : EqDecision WindowType.
Proof. solve_decision. Defined.

(** ** The count window *)

Record countWindow := mkCountWindow {
  ring : list req_outcome;
  head : nat;
  size : nat;
  cw_failures : Z;
  total : nat;
}.

Definition newCountWindow (size : nat) : countWindow :=
  mkCountWindow (replicate size outcomeSuccess) 0 size 0 0.

(** An index out of range panics. *)
Definition index_panic {A} : outcome A := Panic "runtime error: index out of range".

Definition cw_record (w : countWindow) (o : req_outcome) : outcome (Z * nat * countWindow) :=
  match ring w !! head w with
  | None => index_panic
  | Some old =>
      let '(failures, total) :=
        if (total w =? size w)%nat then (cw_failures w - fail_cost old, total w)
        else (cw_failures w, S (total w)) in
      let failures := failures + fail_cost o in
      if (size w =? 0)%nat then Panic "runtime error: integer divide by zero"
      else Ok (failures, total,
               mkCountWindow (<[head w := o]> (ring w)) ((head w + 1) mod size w)%nat (size w)
                 failures total)
  end.

Definition cw_counts (w : countWindow) : Z * nat := (cw_failures w, total w).

Definition cw_reset (w : countWindow) : countWindow :=
  mkCountWindow (replicate (size w) outcomeSuccess) 0 (size w) 0 0.

(** ** What the count window represents *)

(** The last [n] elements. *)
Definition lastn {A} (n : nat) (l : list A) : list A := drop (length l - n) l.

Definition count_failures (l : list req_outcome) : Z := zsum (map fail_cost l).

(** [w] holds the last [size w] outcomes of [h]. *)
Definition cw_rep (w : countWindow) (h : list req_outcome) : Prop :=
  (0 < size w)%nat /\ length (ring w) = size w /\
  head w = (length h mod size w)%nat /\
  total w = Nat.min (length h) (size w) /\
  cw_failures w = count_failures (lastn (size w) h) /\
  forall j, (length h <= j + size w)%nat -> (j < length h)%nat ->
    ring w !! (j mod size w)%nat = h !! j.

Lemma count_failures_app l k : count_failures (l ++ k) = count_failures l + count_failures k.
Proof. unfold count_failures. by rewrite map_app, zsum_app. Qed.

Lemma fail_cost_bounds o : 0 <= fail_cost o <= 1.
Proof. unfold fail_cost. destruct (is_failure o); lia. Qed.

Lemma count_failures_bounds l : 0 <= count_failures l <= zlength l.
Proof.
  unfold count_failures, zlength. induction l as [|o l IH]; simpl; [lia|].
  pose proof (fail_cost_bounds o). lia.
Qed.

Lemma lastn_length {A} n (l : list A) : length (lastn n l) = Nat.min n (length l).
Proof. unfold lastn. rewrite length_drop. lia. Qed.

(** Recording shifts the window by one. *)
Lemma lastn_snoc {A} n (l : list A) x : (0 < n)%nat ->
  lastn n (l ++ [x]) =
    (if (length l <? n)%nat then l else drop 1 (lastn n l)) ++ [x].
Proof.
  intros Hn. unfold lastn. rewrite length_app. simpl.
  destruct (Nat.ltb_spec (length l) n).
  - replace (length l + 1 - n)%nat with 0%nat by lia. done.
  - rewrite drop_drop, drop_app_le by lia. do 2 f_equal. lia.
Qed.

Lemma lastn_head {A} n (l : list A) : (0 < n <= length l)%nat -> 
  exists x, l !! (length l - n)%nat = Some x /\ lastn n l = x :: drop 1 (lastn n l).
Proof.
  intros Hn. destruct (lookup_lt_is_Some_2 l (length l - n)) as [x Hx]; [lia|].
  exists x. split; [done|]. unfold lastn. rewrite (drop_S l x (length l - n)) by done. done.
Qed.

Lemma mod_window_neq a b n : (a < b)%nat -> (b < a + n)%nat -> (a mod n <> b mod n)%nat.
Proof.
  intros Hab Hn E.
  pose proof (Nat.div_mod_eq a n). pose proof (Nat.div_mod_eq b n).
  assert (b - a = n * (b / n - a / n))%nat by nia.
  destruct (b / n - a / n)%nat eqn:Ed; nia.
Qed.

Lemma cw_new_rep n : (0 < n)%nat -> cw_rep (newCountWindow n) [].
Proof.
  intros Hn. unfold cw_rep; simpl. split_and!; try done.
  - apply length_replicate.
  - symmetry. apply Nat.Div0.mod_0_l.
  - intros. lia.
Qed.

Lemma cw_reset_rep w h : cw_rep w h -> cw_rep (cw_reset w) [].
Proof. intros (Hn & _). by apply cw_new_rep. Qed.

Lemma cw_record_rep w h o : cw_rep w h ->
  exists w', cw_record w o = Ok (count_failures (lastn (size w) (h ++ [o])),
                              Nat.min (length (h ++ [o])) (size w), w') /\
    cw_rep w' (h ++ [o]) /\ size w' = size w.
Proof.
  intros (Hn & Hr & Hh & Ht & Hf & Hring). unfold cw_record.
  pose proof (Nat.mod_upper_bound (length h) (size w) ltac:(lia)) as Hmod.
  destruct (lookup_lt_is_Some_2 (ring w) (head w)) as [old Hold]; [lia|]. rewrite Hold.
  rewrite (proj2 (Nat.eqb_neq (size w) 0)) by lia.
  assert ((if (total w =? size w)%nat then (cw_failures w - fail_cost old, total w)
           else (cw_failures w, S (total w))) =
    (count_failures (if (length h <? size w)%nat then h else drop 1 (lastn (size w) h)),
     Nat.min (length (h ++ [o])) (size w))) as ->.
  { rewrite length_app; simpl. rewrite Ht, Hf.
    destruct (Nat.ltb_spec (length h) (size w)) as [Hlt|Hge].
    - rewrite (proj2 (Nat.eqb_neq _ _)) by lia. unfold lastn.
      replace (length h - size w)%nat with 0%nat by lia. rewrite drop_0. f_equal. lia.
    - rewrite (proj2 (Nat.eqb_eq _ _)) by lia.
      destruct (lastn_head (size w) h ltac:(lia)) as (x & Hx & E).
      assert (old = x) as ->.
      { specialize (Hring (length h - size w)%nat ltac:(lia) ltac:(lia)).
        rewrite Hx in Hring. rewrite Hh in Hold.
        replace ((length h - size w) mod size w)%nat with (length h mod size w)%nat in Hring; [congruence|].
        rewrite <- (Nat.Div0.mod_add (length h - size w) 1 (size w)). f_equal. lia. }
      rewrite E. unfold count_failures; simpl. rewrite drop_0. f_equal; lia. }
  assert (count_failures (if (length h <? size w)%nat then h else drop 1 (lastn (size w) h)) + fail_cost o
    = count_failures (lastn (size w) (h ++ [o]))) as ->.
  { rewrite lastn_snoc, count_failures_app by done. unfold count_failures; simpl. lia. }
  eexists. split; [done|]. split; [|done]. unfold cw_rep; cbn [size ring head total cw_failures].
  rewrite length_insert, length_app; simpl. split_and!; try done.
  - rewrite Hh, Nat.Div0.add_mod_idemp_l. done.
  - intros j Hlo Hhi. destruct (decide (j = length h)) as [->|Hne].
    + rewrite <- Hh, list_lookup_insert_eq by lia. by rewrite list_lookup_middle.
    + rewrite list_lookup_insert_ne by (rewrite Hh; intros E; symmetry in E;
        revert E; apply mod_window_neq; lia).
      rewrite lookup_app_l by lia. apply Hring; lia.
Qed.

(** ** The time window *)

Record timeBucket := mkBucket { b_start : time; b_failures : Z; b_requests : Z }.

Record timeWindow := mkTimeWindow {
  buckets : list timeBucket;
  numBuckets : Z;
  bucketWidth : duration;
  windowDuration : duration;
  tw_failures : Z;
  tw_requests : Z;
}.

Definition maxTimeBuckets : Z := 4096.

(** [buckets[i].start = now.Add(-time.Duration(numBuckets-1-i) * bucketWidth)]
    for [i] from [i] on, [k] buckets. *)
Fixpoint lay_out (now : time) (n : Z) (width : duration) (i : Z) (k : nat) : list timeBucket :=
  match k with
  | O => []
  | S k => mkBucket (time_add now ((- (n - 1 - i)) *w width)) 0 0 :: lay_out now n width (i + 1) k
  end.

Definition newTimeWindow (windowDuration bucketWidth : duration) (now : time) : timeWindow :=
  let bucketWidth := if bucketWidth <=? 0 then windowDuration else bucketWidth in
  let '(bucketWidth, windowDuration) :=
    if bucketWidth <=? 0 then (Second, Second) else (bucketWidth, windowDuration) in
  let numBuckets := Z.quot windowDuration bucketWidth in
  let numBuckets := if numBuckets <? 1 then 1 else numBuckets in
  let numBuckets := if maxTimeBuckets <? numBuckets then maxTimeBuckets else numBuckets in
  mkTimeWindow (lay_out now numBuckets bucketWidth 0 (Z.to_nat numBuckets)) numBuckets bucketWidth
    (numBuckets *w bucketWidth) 0 0.

(** [buckets[numBuckets-1]]; the row is never empty. *)
Definition newest (w : timeWindow) : timeBucket := default (mkBucket 0 0 0) (last (buckets w)).

(** One turn of the loop in [slide]: evict the oldest bucket, append a new one. *)
Definition slide_step (w : timeWindow) : timeWindow :=
  match buckets w with
  | [] => w
  | oldest :: rest =>
      mkTimeWindow (rest ++ [mkBucket (time_add (b_start (newest w)) (bucketWidth w)) 0 0])
        (numBuckets w) (bucketWidth w) (windowDuration w)
        (tw_failures w - b_failures oldest) (tw_requests w - b_requests oldest)
  end.

Fixpoint slide_loop (fuel : nat) (w : timeWindow) (now : time) : timeWindow :=
  match fuel with
  | O => w
  | S fuel =>
      if Before now (time_add (b_start (newest w)) (bucketWidth w)) then w
      else slide_loop fuel (slide_step w) now
  end.

(** Each turn moves the newest bucket by [bucketWidth]: this many turns reach
    [now]. *)
Definition slide_fuel (w : timeWindow) (now : time) : nat :=
  S (Z.to_nat ((now - b_start (newest w)) / bucketWidth w)).

Definition slide (w : timeWindow) (now : time) : timeWindow := slide_loop (slide_fuel w now) w now.

(** Apply [f] to the last element. *)
Fixpoint alter_last {A} (f : A -> A) (l : list A) : list A :=
  match l with
  | [] => []
  | [x] => [f x]
  | x :: l' => x :: alter_last f l'
  end.

Definition tw_record (w : timeWindow) (o : req_outcome) (now : time) : Z * Z * timeWindow :=
  let w := slide w now in
  let w := mkTimeWindow
    (alter_last (fun b => mkBucket (b_start b) (b_failures b + fail_cost o) (b_requests b + 1)) (buckets w))
    (numBuckets w) (bucketWidth w) (windowDuration w)
    (tw_failures w + fail_cost o) (tw_requests w + 1) in
  (tw_failures w, tw_requests w, w).

Definition tw_counts (w : timeWindow) (now : time) : Z * Z * timeWindow :=
  let w := slide w now in (tw_failures w, tw_requests w, w).

Definition tw_reset (w : timeWindow) (now : time) : timeWindow :=
  mkTimeWindow (lay_out now (numBuckets w) (bucketWidth w) 0 (length (buckets w)))
    (numBuckets w) (bucketWidth w) (windowDuration w) 0 0.

(** ** What the time window represents *)

(** A recorded request. *)
Record tw_event := mkEvent { ev_at : time; ev_out : req_outcome }.

(** Requests and failures of [h] in [[a, b)]. *)
Definition reqs_in (h : list tw_event) (a b : time) : Z :=
  zsum (map (fun e => if (a <=? ev_at e) && (ev_at e <? b) then 1 else 0) h).
Definition fails_in (h : list tw_event) (a b : time) : Z :=
  zsum (map (fun e => if (a <=? ev_at e) && (ev_at e <? b) then fail_cost (ev_out e) else 0) h).

(** Consecutive buckets from [s] on, each holding the events of its slot. *)
Fixpoint row_rep (width : duration) (h : list tw_event) (s : time) (bs : list timeBucket) : Prop :=
  match bs with
  | [] => True
  | b :: bs' =>
      b = mkBucket s (fails_in h s (s + width)) (reqs_in h s (s + width)) /\
      row_rep width h (s + width) bs'
  end.

(** End of the newest slot of a row that starts at [s]. *)
Definition row_end (w : timeWindow) (s : time) : time := s + zlength (buckets w) * bucketWidth w.

(** [w] represents [h] at [T]: its row starts at [s], covers every event, and
    its newest slot does not start after [T]. *)
Definition tw_rep (T : time) (w : timeWindow) (h : list tw_event) (s : time) : Prop :=
  buckets w <> [] /\ 0 < bucketWidth w /\ numBuckets w = zlength (buckets w) /\
  windowDuration w = numBuckets w * bucketWidth w /\ windowDuration w <= max_int64 /\
  row_rep (bucketWidth w) h s (buckets w) /\
  Forall (fun e => ev_at e < row_end w s) h /\
  row_end w s - bucketWidth w <= T /\
  tw_failures w = fails_in h s (row_end w s) /\ tw_requests w = reqs_in h s (row_end w s).

Lemma fails_in_split h a b c : a <= b -> b <= c -> fails_in h a c = fails_in h a b + fails_in h b c.
Proof.
  intros Hab Hbc. unfold fails_in. induction h as [|e h IH]; simpl; [done|].
  rewrite IH. repeat case_cmp; simpl; lia.
Qed.

Lemma reqs_in_split h a b c : a <= b -> b <= c -> reqs_in h a c = reqs_in h a b + reqs_in h b c.
Proof.
  intros Hab Hbc. unfold reqs_in. induction h as [|e h IH]; simpl; [done|].
  rewrite IH. repeat case_cmp; simpl; lia.
Qed.

Lemma in_empty h a b : Forall (fun e => ev_at e < a) h -> fails_in h a b = 0 /\ reqs_in h a b = 0.
Proof.
  unfold fails_in, reqs_in. induction 1 as [|e h He _ [IH1 IH2]]; simpl; [done|].
  rewrite IH1, IH2, (proj2 (Z.leb_gt _ _)) by done. done.
Qed.

Lemma in_snoc h e a b :
  fails_in (h ++ [e]) a b = fails_in h a b +
    (if (a <=? ev_at e) && (ev_at e <? b) then fail_cost (ev_out e) else 0) /\
  reqs_in (h ++ [e]) a b = reqs_in h a b + (if (a <=? ev_at e) && (ev_at e <? b) then 1 else 0).
Proof. unfold fails_in, reqs_in. rewrite !map_app, !zsum_app. simpl. split; lia. Qed.

Lemma row_rep_app width h s bs cs :
  row_rep width h s (bs ++ cs) <->
  row_rep width h s bs /\ row_rep width h (s + zlength bs * width) cs.
Proof.
  revert s. induction bs as [|b bs IH]; intros s; simpl.
  - change (zlength []) with 0. rewrite Z.mul_0_l, Z.add_0_r. tauto.
  - rewrite IH, zlength_cons. replace (s + width + zlength bs * width) with (s + (1 + zlength bs) * width) by lia.
    tauto.
Qed.

Lemma row_newest w h s : buckets w <> [] -> row_rep (bucketWidth w) h s (buckets w) ->
  b_start (newest w) = row_end w s - bucketWidth w.
Proof.
  intros Hne Hr. unfold newest, row_end. destruct (exists_last Hne) as (bs & b & E). rewrite E in *.
  apply row_rep_app in Hr as [_ [-> _]]. rewrite last_snoc. simpl. rewrite zlength_app.
  change (zlength [_]) with 1. lia.
Qed.

Lemma tw_rep_later T T' w h s : T <= T' -> tw_rep T w h s -> tw_rep T' w h s.
Proof. unfold tw_rep. intuition lia. Qed.

(** Same configuration, same number of buckets. *)
Definition same_shape (w w' : timeWindow) : Prop :=
  zlength (buckets w') = zlength (buckets w) /\ bucketWidth w' = bucketWidth w /\
  numBuckets w' = numBuckets w /\ windowDuration w' = windowDuration w.

Lemma same_shape_refl w : same_shape w w.
Proof. by split_and!. Qed.

Lemma slide_step_rep T T' w h s : tw_rep T w h s -> row_end w s <= T' ->
  tw_rep T' (slide_step w) h (s + bucketWidth w) /\ same_shape w (slide_step w).
Proof.
  intros (Hne & Hw & Hn & Hd & Hm & Hr & Hev & HT & Hf & Hq) HT'.
  pose proof (row_newest w h s Hne Hr) as Hnew. unfold slide_step, time_add. rewrite Hnew.
  destruct (buckets w) as [|b bs] eqn:E; [done|].
  assert (forall w', buckets w' = bs ++ [mkBucket (row_end w s - bucketWidth w + bucketWidth w) 0 0] ->
    bucketWidth w' = bucketWidth w -> row_end w' (s + bucketWidth w) = row_end w s + bucketWidth w) as Hend.
  { intros w' E1 E2. unfold row_end. rewrite E, E1, E2. zlen. lia. }
  destruct Hr as [-> Hr]. destruct (in_empty h (row_end w s) (row_end w s + bucketWidth w) Hev) as [E1 E2].
  assert (s + bucketWidth w <= row_end w s) as Hle.
  { unfold row_end. rewrite E, zlength_cons. pose proof (zlength_nonneg bs). nia. }
  unfold same_shape, tw_rep; cbn [buckets bucketWidth numBuckets windowDuration tw_failures tw_requests b_failures b_requests].
  rewrite !Hend by done. zlen. split_and!; try (done || lia).
  - by destruct bs.
  - apply row_rep_app. split; [done|]. unfold row_end in *. rewrite E, zlength_cons in *.
    replace (s + bucketWidth w + zlength bs * bucketWidth w) with (s + (1 + zlength bs) * bucketWidth w) by lia.
    simpl. split; [|done]. rewrite E1, E2. f_equal. lia.
  - eapply Forall_impl; [exact Hev|]. simpl; lia.
  - rewrite Hf, (fails_in_split h s (s + bucketWidth w) (row_end w s)) by lia.
    rewrite (fails_in_split h _ (row_end w s) (row_end w s + _)), E1 by lia. lia.
  - rewrite Hq, (reqs_in_split h s (s + bucketWidth w) (row_end w s)) by lia.
    rewrite (reqs_in_split h _ (row_end w s) (row_end w s + _)), E2 by lia. lia.
  - rewrite E. zlen. lia.
Qed.

(** The loop ends with [now] inside the newest slot. *)
Lemma slide_loop_rep fuel T w h s now :
  tw_rep T w h s -> T <= now ->
  now - (row_end w s - bucketWidth w) < Z.of_nat fuel * bucketWidth w ->
  exists s', tw_rep now (slide_loop fuel w now) h s' /\ same_shape w (slide_loop fuel w now) /\
    s <= s' /\ now < row_end (slide_loop fuel w now) s'.
Proof.
  revert T w s. induction fuel as [|fuel IH]; intros T w s Hrep HT Hfuel;
    pose proof Hrep as (Hne & Hw & _ & _ & _ & Hr & _ & HTs & _); simpl.
  { lia. }
  rewrite (row_newest w h s Hne Hr). unfold Before, time_add.
  destruct (Z.ltb_spec now (row_end w s - bucketWidth w + bucketWidth w)).
  - exists s. split_and!; try done; [by apply (tw_rep_later T)|lia..].
  - destruct (slide_step_rep T now w h s Hrep ltac:(lia)) as [Hrep' Hsame].
    assert (bucketWidth (slide_step w) = bucketWidth w) as Ew by apply Hsame.
    assert (row_end (slide_step w) (s + bucketWidth w) = row_end w s + bucketWidth w) as Ee.
    { unfold row_end. rewrite Ew, (proj1 Hsame). lia. }
    destruct (IH now (slide_step w) (s + bucketWidth w)) as (s' & ? & Hsh & ? & ?); try done; [|].
    { rewrite Ew, Ee. lia. }
    exists s'. split_and!; try done; [|lia]. unfold same_shape in *. intuition congruence.
Qed.

Lemma slide_rep T w h s now : tw_rep T w h s -> T <= now ->
  exists s', tw_rep now (slide w now) h s' /\ same_shape w (slide w now) /\
    s <= s' /\ now < row_end (slide w now) s'.
Proof.
  intros Hrep HT. pose proof Hrep as (Hne & Hw & _ & _ & _ & Hr & _ & HTs & _).
  apply (slide_loop_rep _ T); try done. unfold slide_fuel. rewrite (row_newest w h s Hne Hr).
  set (d := now - (row_end w s - bucketWidth w)).
  pose proof (Z.mul_succ_div_gt d (bucketWidth w)). pose proof (Z.div_pos d (bucketWidth w)). nia.
Qed.

Lemma row_alter_last width h s bs e f :
  bs <> [] -> row_rep width h s bs -> 0 < width ->
  s + (zlength bs - 1) * width <= ev_at e < s + zlength bs * width ->
  (forall a b, a <= ev_at e < b ->
    f (mkBucket a (fails_in h a b) (reqs_in h a b)) = mkBucket a (fails_in (h ++ [e]) a b) (reqs_in (h ++ [e]) a b)) ->
  row_rep width (h ++ [e]) s (alter_last f bs).
Proof.
  intros Hne Hr Hw He Hf. revert s Hr He. induction bs as [|b bs IH]; intros s Hr He; [done|]. destruct Hr as [-> Hr].
  destruct bs as [|b' bs]; simpl.
  - split; [|done]. apply Hf. change (zlength [_]) with 1 in He. lia.
  - rewrite zlength_cons in He. split.
    + destruct (in_snoc h e s (s + width)) as [-> ->]. pose proof (zlength_nonneg bs).
      rewrite zlength_cons in He. rewrite (proj2 (Z.ltb_ge (ev_at e) (s + width))) by nia.
      rewrite andb_false_r, !Z.add_0_r. done.
    + apply IH; [done|exact Hr|lia].
Qed.

Lemma length_alter_last {A} (f : A -> A) l : length (alter_last f l) = length l.
Proof. induction l as [|x [|y l] IH]; simpl in *; [done..|by rewrite IH]. Qed.

(** Recording: the totals returned are those of the events still covered. *)
Lemma tw_record_rep T w h s o now : tw_rep T w h s -> T <= now ->
  exists s' w', tw_record w o now =
      (fails_in (h ++ [mkEvent now o]) s' (s' + windowDuration w),
       reqs_in (h ++ [mkEvent now o]) s' (s' + windowDuration w), w') /\
    tw_rep now w' (h ++ [mkEvent now o]) s' /\ same_shape w w' /\
    s <= s' <= now /\ now < s' + windowDuration w.
Proof.
  intros Hrep HT. destruct (slide_rep T w h s now Hrep HT) as (s' & Hrep' & Hsame & Hs & Hnow).
  unfold tw_record. set (w1 := slide w now) in *.
  destruct Hrep' as (Hne & Hw & Hn & Hd & Hm & Hr & Hev & HTs & Hf & Hq).
  assert (row_end w1 s' = s' + windowDuration w) as Ee.
  { unfold row_end. rewrite <- Hn, <- Hd. f_equal. apply Hsame. }
  set (e := mkEvent now o). set (w' := mkTimeWindow _ _ _ _ _ _).
  assert (zlength (buckets w') = zlength (buckets w1)) as El.
  { unfold w', zlength; simpl. by rewrite length_alter_last. }
  assert (row_end w' s' = row_end w1 s') as Ee' by (unfold row_end; by rewrite El).
  assert (s' <= now) as Hsn.
  { unfold row_end in HTs. assert (1 <= zlength (buckets w1)).
    { destruct (buckets w1); [done|]. rewrite zlength_cons. pose proof (zlength_nonneg l). lia. } nia. }
  assert (tw_failures w' = fails_in (h ++ [e]) s' (row_end w1 s') /\
          tw_requests w' = reqs_in (h ++ [e]) s' (row_end w1 s')) as [Ef Eq].
  { destruct (in_snoc h e s' (row_end w1 s')) as [-> ->]. simpl. rewrite Hf, Hq.
    rewrite (proj2 (Z.leb_le s' now)), (proj2 (Z.ltb_lt now (row_end w1 s'))) by lia. done. }
  exists s', w'. split_and!; try lia; unfold same_shape in *.
  - rewrite Ef, Eq, Ee. done.
  - unfold tw_rep. rewrite Ee'. split_and!; try (done || lia).
    + intros Hnil. apply (f_equal zlength) in Hnil. rewrite El in Hnil. 
      destruct (buckets w1); [done|]. rewrite zlength_cons in Hnil. pose proof (zlength_nonneg l).
      change (zlength []) with 0 in Hnil. lia.
    + rewrite El. exact Hn.
    + apply row_alter_last; try done.
      * unfold row_end in *. simpl. lia.
      * intros a b Hab. destruct (in_snoc h e a b) as [-> ->]. simpl in *.
        rewrite (proj2 (Z.leb_le a now)), (proj2 (Z.ltb_lt now b)) by lia. done.
    + apply Forall_app. split; [done|]. constructor; [|done]. simpl. lia.
  - rewrite El. exact Hsame.
Qed.

(** A fresh row. *)
Lemma lay_out_rep now n width i k : 0 < width -> n * width <= max_int64 -> 0 <= i -> i + Z.of_nat k <= n ->
  row_rep width [] (now - (n - 1 - i) * width) (lay_out now n width i k) /\
  zlength (lay_out now n width i k) = Z.of_nat k.
Proof.
  intros Hw Hm. revert i. induction k as [|k IH]; intros i Hi Hk; [done|]. cbn [lay_out row_rep].
  rewrite zlength_cons. destruct (IH (i + 1)) as [Hr Hl]; [lia..|]. split; [|lia]. split.
  - unfold time_add. rewrite wrap64_small by (unfold in64; go_unfold; nia).
    change (fails_in [] _ _) with 0. change (reqs_in [] _ _) with 0. f_equal. lia.
  - replace (now - (n - 1 - i) * width + width) with (now - (n - 1 - (i + 1)) * width) by lia. done.
Qed.

Lemma fresh_rep now w : 0 < bucketWidth w -> 1 <= numBuckets w ->
  buckets w = lay_out now (numBuckets w) (bucketWidth w) 0 (Z.to_nat (numBuckets w)) ->
  windowDuration w = numBuckets w * bucketWidth w -> windowDuration w <= max_int64 ->
  tw_failures w = 0 -> tw_requests w = 0 ->
  tw_rep now w [] (now - (numBuckets w - 1) * bucketWidth w).
Proof.
  intros Hw Hn Hb Hd Hm Hf Hq.
  destruct (lay_out_rep now (numBuckets w) (bucketWidth w) 0 (Z.to_nat (numBuckets w))) as [Hr Hl];
    [lia..|]. rewrite Z.sub_0_r in Hr. rewrite <- Hb in Hr, Hl. rewrite Z2Nat.id in Hl by lia.
  unfold tw_rep, row_end. rewrite Hl. split_and!; try (done || lia).
  intros E. rewrite E in Hl. change (zlength []) with 0 in Hl. lia.
Qed.

(** The number of buckets the constructor settles on. *)
Definition bucket_count (windowDuration bucketWidth : duration) : Z :=
  Z.min maxTimeBuckets (Z.max 1 (windowDuration / bucketWidth)).

Lemma newTimeWindow_rep wd bw now : 0 < bw <= max_int64 -> 0 < wd <= max_int64 ->
  let w := newTimeWindow wd bw now in
  tw_rep now w [] (now - (numBuckets w - 1) * bw) /\ bucketWidth w = bw /\
  numBuckets w = bucket_count wd bw.
Proof.
  intros Hbw Hwd. unfold newTimeWindow. rewrite (proj2 (Z.leb_gt bw 0)) by lia.
  rewrite (proj2 (Z.leb_gt bw 0)) by lia. rewrite Z.quot_div_nonneg by lia. cbv zeta.
  set (n := if maxTimeBuckets <? _ then _ else _).
  assert (n = bucket_count wd bw) as En.
  { unfold n, bucket_count. unfold maxTimeBuckets. repeat case_cmp; lia. }
  cbn [numBuckets bucketWidth]. split; [|by split].
  assert (1 <= n) by (rewrite En; unfold bucket_count, maxTimeBuckets; lia).
  assert (n * bw <= max_int64) as Hnm.
  { rewrite En. unfold bucket_count. pose proof (Z.mul_div_le wd bw ltac:(lia)). nia. }
  apply fresh_rep; cbn [numBuckets bucketWidth buckets windowDuration tw_failures tw_requests]; try (done || lia).
  - apply wrap64_small. go_unfold. nia.
  - rewrite wrap64_small; [done|]. go_unfold. nia.
Qed.

Lemma tw_reset_rep T w h s now : tw_rep T w h s ->
  tw_rep now (tw_reset w now) [] (now - (numBuckets w - 1) * bucketWidth w) /\ same_shape w (tw_reset w now).
Proof.
  intros (Hne & Hw & Hn & Hd & Hm & _).
  assert (1 <= numBuckets w) as H1.
  { rewrite Hn. destruct (buckets w); [done|]. rewrite zlength_cons. pose proof (zlength_nonneg l). lia. }
  assert (length (buckets w) = Z.to_nat (numBuckets w)) as El by (rewrite Hn; unfold zlength; lia).
  split.
  - apply (fresh_rep now (tw_reset w now)); try done. simpl. by rewrite El.
  - unfold same_shape; simpl. split_and!; try done. rewrite El.
    destruct (lay_out_rep now (numBuckets w) (bucketWidth w) 0 (Z.to_nat (numBuckets w))) as [_ ->]; lia.
Qed.

(** ** Correctness of the windows *)

(** Successive recordings. *)
Fixpoint cw_run (w : countWindow) (os : list req_outcome) : outcome countWindow :=
  match os with
  | [] => Ok w
  | o :: os' => '(_, _, w') ← cw_record w o; cw_run w' os'
  end.

Fixpoint tw_run (w : timeWindow) (evs : list tw_event) : timeWindow :=
  match evs with
  | [] => w
  | e :: evs' => tw_run (snd (tw_record w (ev_out e) (ev_at e))) evs'
  end.

(** Instants of the recordings, from [T] on, in order. *)
Fixpoint events_from (T : time) (evs : list tw_event) (now : time) : Prop :=
  match evs with
  | [] => T <= now
  | e :: evs' => T <= ev_at e /\ events_from (ev_at e) evs' now
  end.

Lemma cw_run_rep w h os : cw_rep w h ->
  exists w', cw_run w os = Ok w' /\ cw_rep w' (h ++ os) /\ size w' = size w.
Proof.
  revert w h. induction os as [|o os IH]; intros w h Hrep; simpl.
  - exists w. by rewrite app_nil_r.
  - destruct (cw_record_rep w h o Hrep) as (w1 & E & Hrep1 & Es). rewrite E. cbn.
    destruct (IH w1 (h ++ [o]) Hrep1) as (w' & E' & Hrep' & Es'). exists w'.
    rewrite <- app_assoc in Hrep'. split_and!; auto. by rewrite Es'.
Qed.

Lemma tw_run_rep w h s T evs now : tw_rep T w h s -> events_from T evs now ->
  exists T' s', T' <= now /\ tw_rep T' (tw_run w evs) (h ++ evs) s' /\ same_shape w (tw_run w evs).
Proof.
  revert w h s T. induction evs as [|e evs IH]; intros w h s T Hrep Hev; cbn [tw_run events_from] in *.
  - exists T, s. rewrite app_nil_r. by split_and!.
  - destruct Hev as [HT Hev].
    destruct (tw_record_rep T w h s (ev_out e) (ev_at e) Hrep HT) as (s1 & w1 & E & Hrep1 & Hsh & _).
    rewrite E. cbn [snd]. destruct (IH w1 _ s1 _ Hrep1 Hev) as (T' & s' & HT' & Hrep' & Hsh').
    rewrite <- app_assoc in Hrep'. destruct e. exists T', s'. split_and!; auto;
    unfold same_shape in *; intuition congruence.
Qed.

Lemma in_upto h a b now : now < b -> Forall (fun e => ev_at e <= now) h ->
  fails_in h a b = fails_in h a (now + 1) /\ reqs_in h a b = reqs_in h a (now + 1).
Proof.
  intros Hb. unfold fails_in, reqs_in. induction 1 as [|e h He _ [IH1 IH2]]; simpl; [done|].
  rewrite IH1, IH2. repeat case_cmp; simpl; lia || done.
Qed.

Lemma events_from_le T evs now : events_from T evs now -> T <= now /\ Forall (fun e => ev_at e <= now) evs.
Proof.
  revert T. induction evs as [|e evs IH]; intros T; simpl; [done|]. intros [HT Hev].
  apply IH in Hev as [? ?]. split; [lia|]. by constructor.
Qed.

(** The ring buffer computes exactly the statistics of the last [n]
    outcomes: recording any sequence into a fresh window of size [n] never
    panics, and the precomputed totals are the number of failures among, and
    the number of, the last [n] outcomes. *)
Theorem count_window_exact n os : (0 < n)%nat ->
  exists w, cw_run (newCountWindow n) os = Ok w /\
    cw_counts w = (count_failures (lastn n os), Nat.min (length os) n).
Proof.
  intros Hn. destruct (cw_run_rep (newCountWindow n) [] os) as (w & E & (_ & _ & _ & Ht & Hf & _) & Es).
  { by apply cw_new_rep. }
  exists w. split; [done|]. unfold cw_counts. by rewrite Ht, Hf, Es.
Qed.

Lemma count_window_exact_witness :
  exists w, cw_run (newCountWindow 3)
    [outcomeFailure; outcomeSuccess; outcomeFailure; outcomeFailure; outcomeSuccess] = Ok w /\
    cw_counts w = (2, 3%nat).
Proof.
  apply (count_window_exact 3 [outcomeFailure; outcomeSuccess; outcomeFailure; outcomeFailure; outcomeSuccess]).
  lia.
Defined.

(** Retention of the time window: after any sequence of recordings with a
    clock that does not go back, the totals reported at [now] are exactly those
    of the requests made since some instant [s] that lies at most one bucket
    after [now] minus the window: no request older than the window is counted,
    none younger than the window less one bucket is lost. *)
Theorem time_window_retention wd bw t0 evs now :
  0 < bw <= max_int64 -> 0 < wd <= max_int64 -> events_from t0 evs now ->
  let W := bucket_count wd bw * bw in
  let '(f, r, _) := tw_counts (tw_run (newTimeWindow wd bw t0) evs) now in
  exists s, now - W < s <= now - W + bw /\
    f = fails_in evs s (now + 1) /\ r = reqs_in evs s (now + 1).
Proof.
  intros Hbw Hwd Hev. cbv zeta. destruct (newTimeWindow_rep wd bw t0 Hbw Hwd) as (Hrep & Ew & En).
  destruct (tw_run_rep _ [] _ t0 evs now Hrep Hev) as (T' & s' & HT' & Hrep' & Hsh).
  destruct (slide_rep T' _ _ s' now Hrep' HT') as (s & Hs & Hsh' & _ & Hnow).
  unfold tw_counts. set (w := slide _ now) in *.
  destruct Hs as (_ & _ & Hn & Hd & _ & _ & _ & Hlo & Hf & Hr).
  assert (bucketWidth w = bw /\ row_end w s = s + bucket_count wd bw * bw) as [Eb Ee].
  { unfold row_end, same_shape in *. rewrite <- Hn.
    assert (numBuckets w = bucket_count wd bw) as -> by intuition congruence.
    assert (bucketWidth w = bw) as -> by intuition congruence. done. }
  rewrite Eb, Ee in *. exists s. split; [lia|].
  destruct (in_upto evs s (s + bucket_count wd bw * bw) now Hnow) as [E1 E2].
  { apply (events_from_le t0), Hev. }
  rewrite Hf, Hr. change ([] ++ evs) with evs. by rewrite E1, E2.
Qed.

Lemma time_window_retention_witness :
  let evs := [mkEvent 5 outcomeFailure; mkEvent 12 outcomeSuccess; mkEvent 37 outcomeFailure] in
  let '(f, r, _) := tw_counts (tw_run (newTimeWindow 30 10 0) evs) 41 in
  f = 1 /\ r = 1 /\
  exists s, 41 - 30 < s <= 41 - 30 + 10 /\ f = fails_in evs s (41 + 1) /\ r = reqs_in evs s (41 + 1).
Proof.
  split; [vm_compute; reflexivity|]. split; [vm_compute; reflexivity|].
  refine (time_window_retention 30 10 0 
    [mkEvent 5 outcomeFailure; mkEvent 12 outcomeSuccess; mkEvent 37 outcomeFailure] 41 _ _ _);
    simpl; go_lia.
Defined.
