(* ===== verification/CbHalfOpen.v ===== *)
(** * Half-open probe strategies ([circuitbreaker/halfopen.go]). *)

From S2P Require Import Prelude.
Open Scope Z_scope.

Record ProbeContext := mkProbeContext {
  Inflight : Z;
  ConsecutiveSuccesses : Z;
  HalfOpenSince : time;
  Now : time;
  MaxRequests : Z;
}.

Inductive RampType := RampLinear | RampExponential.

Record RampProbeStrategy := mkRamp {
  rp_Type : RampType;
  rp_Start : Z;
  rp_Step : Z;
  rp_MinInterval : duration;
}.

Definition NewRampProbeStrategy (t : RampType) (start step : Z) (minInterval : duration)
  : RampProbeStrategy :=
  let start := if start <=? 0 then 1 else start in
  let step := if step <=? 0 then 1 else step in
  mkRamp t start step minInterval.

Definition FixedProbe_MaxConcurrentProbes (pc : ProbeContext) : Z := MaxRequests pc.

Definition clampProbe (v ceiling : Z) : Z :=
  if v <? 1 then 1 else if ceiling <? v then ceiling else v.

(** [for i := 0; i < doublings && allowance < ceiling; i++ { allowance *= 2 }],
    the recursion is on [doublings]. *)
Fixpoint doubling_loop (d : nat) (allowance ceiling : Z) : Z :=
  match d with
  | O => allowance
  | S d => if allowance <? ceiling then doubling_loop d (allowance *w 2) ceiling else allowance
  end.

Definition Ramp_MaxConcurrentProbes (s : RampProbeStrategy) (pc : ProbeContext) : Z :=
  let start := if rp_Start s <=? 0 then 1 else rp_Start s in
  let step := if rp_Step s <=? 0 then 1 else rp_Step s in
  let ceiling := if MaxRequests pc <? 1 then 1 else MaxRequests pc in
  if (0 <? rp_MinInterval s) && negb (IsZero (HalfOpenSince pc)) &&
     (time_sub (Now pc) (HalfOpenSince pc) <? rp_MinInterval s) then
    clampProbe start ceiling
  else
    let n := if ConsecutiveSuccesses pc <? 0 then 0 else ConsecutiveSuccesses pc in
    let allowance :=
      match rp_Type s with
      | RampExponential => doubling_loop (Z.to_nat (Z.quot n step)) start ceiling
      | RampLinear =>
          let grown := start +w (n *w step) in
          if ceiling <? grown then ceiling else grown
      end in
    clampProbe allowance ceiling.

(** The strategy interface; [CustomStrategy] is an implementation outside the
    package. *)
Inductive HalfOpenStrategy :=
| FixedProbeStrategy
| RampStrategy (s : RampProbeStrategy)
| CustomStrategy (f : ProbeContext -> Z).

Definition MaxConcurrentProbes (s : HalfOpenStrategy) (pc : ProbeContext) : Z :=
  match s with
  | FixedProbeStrategy => FixedProbe_MaxConcurrentProbes pc
  | RampStrategy r => Ramp_MaxConcurrentProbes r pc
  | CustomStrategy f => f pc
  end.

(** ** Bounds and growth *)

Lemma clampProbe_bounds v c : 1 <= c -> 1 <= clampProbe v c <= c.
Proof. intros. unfold clampProbe. repeat case_cmp; lia. Qed.

Lemma clampProbe_mono v v' c : 1 <= c -> v <= v' -> clampProbe v c <= clampProbe v' c.
Proof. intros. unfold clampProbe. repeat case_cmp; lia. Qed.

(** The loop doubles until the ceiling is reached, provided the ceiling leaves
    room for one more doubling. *)
Lemma doubling_loop_spec d a c : 1 <= a -> c <= 4611686018427387904 ->
  clampProbe (doubling_loop d a c) c = clampProbe (a * 2 ^ Z.of_nat d) c.
Proof.
  intros Ha Hc. revert a Ha. induction d as [|d IH]; intros a Ha.
  - simpl. f_equal. lia.
  - cbn [doubling_loop]. rewrite Nat2Z.inj_succ, Z.pow_succ_r by lia.
    destruct (Z.ltb_spec a c).
    + rewrite wrap64_small by go_lia. rewrite IH by lia. f_equal. lia.
    + assert (1 <= 2 ^ Z.of_nat d) by (apply Z.pow_le_mono_r with (b := 0); lia).
      unfold clampProbe. repeat case_cmp; nia.
Qed.

(** The allowance of a ramp in closed form. *)
Definition ramp_spec (s : RampProbeStrategy) (n : Z) : Z :=
  match rp_Type s with
  | RampExponential => rp_Start s * 2 ^ (n / rp_Step s)
  | RampLinear => rp_Start s + n * rp_Step s
  end.

(** A ramp strategy never admits fewer than one or more than
    [HalfOpenMaxRequests] probes (whatever the parameters, wrap-around
    included); once past its pacing interval the allowance is
    [Start + n*Step] (linear) or [Start * 2^(n/Step)] (exponential), cut off at
    the ceiling. *)
Theorem ramp_allowance s pc :
  (1 <= Ramp_MaxConcurrentProbes s pc <= Z.max 1 (MaxRequests pc)) /\
  (0 < rp_Start s -> 0 < rp_Step s -> 0 <= ConsecutiveSuccesses pc ->
   1 <= MaxRequests pc <= 4611686018427387904 ->
   rp_Start s + ConsecutiveSuccesses pc * rp_Step s <= max_int64 ->
   rp_MinInterval s <= time_sub (Now pc) (HalfOpenSince pc) ->
   Ramp_MaxConcurrentProbes s pc =
     clampProbe (ramp_spec s (ConsecutiveSuccesses pc)) (MaxRequests pc)).
Proof.
  unfold Ramp_MaxConcurrentProbes. set (ceiling := if MaxRequests pc <? 1 then 1 else MaxRequests pc).
  assert (ceiling = Z.max 1 (MaxRequests pc)) as Ec by (unfold ceiling; case_cmp; lia). split.
  - rewrite <- Ec. destruct (_ && _); apply clampProbe_bounds; lia.
  - intros Hs Hst Hn Hm Hov Hint. cbv zeta.
    rewrite (proj2 (Z.ltb_ge (time_sub _ _) _)), andb_false_r by done.
    rewrite (proj2 (Z.leb_gt (rp_Start s) 0)), (proj2 (Z.leb_gt (rp_Step s) 0)),
      (proj2 (Z.ltb_ge (ConsecutiveSuccesses pc) 0)) by lia.
    rewrite Ec, Z.max_r by lia. unfold ramp_spec. destruct (rp_Type s).
    + assert (0 <= ConsecutiveSuccesses pc * rp_Step s) by nia. unwrap. unfold clampProbe. repeat case_cmp; lia.
    + rewrite doubling_loop_spec by lia. rewrite Z.quot_div_nonneg by lia.
      rewrite Z2Nat.id by (apply Z.div_pos; lia). done.
Qed.

Lemma ramp_allowance_witness :
  Ramp_MaxConcurrentProbes (mkRamp RampExponential 2 3 10) (mkProbeContext 1 7 100 110 50)
    = clampProbe 8 50 /\ clampProbe 8 50 = 8.
Proof.
  split; [|reflexivity].
  apply (ramp_allowance (mkRamp RampExponential 2 3 10) (mkProbeContext 1 7 100 110 50)); simpl; go_lia.
Defined.
