(* ===== verification/CircuitBreaker.v ===== *)
(** * The circuit breaker ([circuitbreaker/circuitbreaker.go], [config.go],
    [errors.go], [registry.go]).

    One call of [Execute] after another: the state of the breaker is passed
    explicitly, user code (the protected function, hooks, [IsFailure]) may
    panic, and every clock reading of a call is an argument.  Concurrent calls
    are the subject of [CbConcurrent]. *)

From Stdlib Require Import Floats.
From S2P Require Import Prelude Float64 CbWindow CbHalfOpen.
Open Scope Z_scope.

(** ** Errors *)

Inductive cb_sentinel := ErrCircuitOpen | ErrTooManyRequests.

#[export] Instance cb_sentinel_eq_dec : EqDecision cb_sentinel.
Proof. solve_decision. Defined.

Record CircuitError := mkCircuitError {
  ce_Name : string;
  ce_State : cb_state;
  ce_TimeUntilHalfOpen : duration;
  ce_err : cb_sentinel;
}.

Definition newCircuitError (name : string) (st : cb_state) (d : duration) (e : cb_sentinel)
  : CircuitError := mkCircuitError name st d e.

Definition CircuitError_Is (e : CircuitError) (target : cb_sentinel) : bool :=
  bool_decide (target = ce_err e).

Definition ce_RetryAfter (e : CircuitError) : duration :=
  if ce_TimeUntilHalfOpen e <? 0 then 0 else ce_TimeUntilHalfOpen e.

(** Errors of the protected function: the two context errors by identity, any
    other value (wrapped context errors included). *)
Inductive fn_err := Canceled | DeadlineExceeded | OtherErr (msg : string).

#[export] Instance fn_err_eq_dec : EqDecision fn_err.
Proof. solve_decision. Defined.

(** ** Configuration *)

(** A registered callback either returns or panics. *)
Inductive hook := HookReturns | HookPanics.

Record Config := mkConfig {
  Name : string;
  c_WindowType : WindowType;
  WindowSize : Z;
  FailureThreshold : Z;
  WindowDuration : duration;
  BucketDuration : duration;
  FailureRateThreshold : f64;
  MinimumRequests : Z;
  OpenTimeout : duration;
  HalfOpenMaxRequests : Z;
  SuccessThreshold : Z;
  c_HalfOpenStrategy : option HalfOpenStrategy;
  RequestTimeout : duration;
  IsFailure : option (fn_err -> outcome bool);
  OnStateChange : option hook;
  OnSuccess : option hook;
  OnFailure : option hook;
  OnRejected : option hook;
}.

(** The zero [Config]. *)
Definition zero_Config : Config :=
  mkConfig "" CountBased 0 0 0 0 0%float 0 0 0 0 None 0 None None None None None.

Definition positive_or (z d : Z) : Z := if z <=? 0 then d else z.

(** The clock and the recorder are not fields of the model. *)
Definition defaultIsFailure (err : fn_err) : outcome bool := Ok true.

Definition defaults (c : Config) : Config :=
  mkConfig (Name c) (c_WindowType c)
    (positive_or (WindowSize c) 10)
    (positive_or (FailureThreshold c) 5)
    (positive_or (WindowDuration c) (60 * Second))
    (positive_or (BucketDuration c) Second)
    (if PrimFloat.leb (FailureRateThreshold c) 0 then 0.5%float else FailureRateThreshold c)
    (positive_or (MinimumRequests c) 10)
    (positive_or (OpenTimeout c) (30 * Second))
    (positive_or (HalfOpenMaxRequests c) 1)
    (positive_or (SuccessThreshold c) 1)
    (c_HalfOpenStrategy c) (RequestTimeout c)
    (match IsFailure c with Some f => Some f | None => Some defaultIsFailure end)
    (OnStateChange c) (OnSuccess c) (OnFailure c) (OnRejected c).

(** ** State *)

Inductive window := CountWin (w : countWindow) | TimeWin (w : timeWindow).

(** Recorder calls and callbacks, in the order they happen. *)
Inductive cb_event :=
| RecordCBState (st : cb_state)
| IncCBTransition (from to : cb_state)
| IncCBResult (r : string)
| ObserveCBExecution (d : duration)
| EvStateChange (from to : cb_state)
| EvSuccess (d : duration)
| EvFailure (d : duration)
| EvRejected.

Record CircuitBreaker := mkCB {
  cfg : Config;
  state : cb_state;
  openedAt : Z;
  halfOpenInflight : Z;
  consecutiveSuccesses : Z;
  halfOpenAt : Z;
  win : window;
  log : list cb_event;   (* latest last *)
}.

Definition New (c : Config) (now : time) : CircuitBreaker :=
  let c := defaults c in
  mkCB c StateClosed 0 0 0 0
    (match c_WindowType c with
     | TimeBased => TimeWin (newTimeWindow (WindowDuration c) (BucketDuration c) now)
     | CountBased => CountWin (newCountWindow (Z.to_nat (WindowSize c)))
     end)
    [RecordCBState StateClosed].

Definition emit (evs : list cb_event) (cb : CircuitBreaker) : CircuitBreaker :=
  mkCB (cfg cb) (state cb) (openedAt cb) (halfOpenInflight cb) (consecutiveSuccesses cb)
    (halfOpenAt cb) (win cb) (log cb ++ evs).

Definition with_inflight (n : Z) (cb : CircuitBreaker) : CircuitBreaker :=
  mkCB (cfg cb) (state cb) (openedAt cb) n (consecutiveSuccesses cb) (halfOpenAt cb) (win cb) (log cb).

Definition with_successes (n : Z) (cb : CircuitBreaker) : CircuitBreaker :=
  mkCB (cfg cb) (state cb) (openedAt cb) (halfOpenInflight cb) n (halfOpenAt cb) (win cb) (log cb).

Definition with_win (w : window) (cb : CircuitBreaker) : CircuitBreaker :=
  mkCB (cfg cb) (state cb) (openedAt cb) (halfOpenInflight cb) (consecutiveSuccesses cb)
    (halfOpenAt cb) w (log cb).

(** ** Effects: the breaker is updated even when user code panics *)

Definition M (A : Type) : Type := CircuitBreaker -> outcome A * CircuitBreaker.

#[export] Instance M_ret : MRet M := fun A a cb => (Ok a, cb).
#[export] Instance M_bind : MBind M := fun A B f m cb =>
  match m cb with
  | (Ok a, cb') => f a cb'
  | (Panic e, cb') => (Panic e, cb')
  end.

Definition gets {A} (f : CircuitBreaker -> A) : M A := fun cb => (Ok (f cb), cb).
Definition modify (f : CircuitBreaker -> CircuitBreaker) : M unit := fun cb => (Ok tt, f cb).
Definition lift {A} (o : outcome A) : M A := fun cb => (o, cb).

Definition call_hook (h : option hook) (ev : cb_event) : M unit := fun cb =>
  match h with
  | None => (Ok tt, cb)
  | Some HookReturns => (Ok tt, emit [ev] cb)
  | Some HookPanics => (Panic "hook", emit [ev] cb)
  end.

(** ** Transitions

    Each runs under [cb.mu]: it reads the current state, then performs a fixed
    list of atomic stores. *)

Inductive store :=
| StoreState (s : cb_state)
| StoreOpenedAt (to_now : bool)     (* the clock's nanoseconds, or 0 *)
| StoreHalfOpenAt (to_now : bool)
| StoreSuccesses0
| ResetWindow.

Definition win_reset (w : window) (now : time) : window :=
  match w with
  | CountWin w => CountWin (cw_reset w)
  | TimeWin w => TimeWin (tw_reset w now)
  end.

Definition apply_store (now : time) (cb : CircuitBreaker) (s : store) : CircuitBreaker :=
  match s with
  | StoreState st =>
      mkCB (cfg cb) st (openedAt cb) (halfOpenInflight cb) (consecutiveSuccesses cb)
        (halfOpenAt cb) (win cb) (log cb)
  | StoreOpenedAt b =>
      mkCB (cfg cb) (state cb) (if b then UnixNano now else 0) (halfOpenInflight cb)
        (consecutiveSuccesses cb) (halfOpenAt cb) (win cb) (log cb)
  | StoreHalfOpenAt b =>
      mkCB (cfg cb) (state cb) (openedAt cb) (halfOpenInflight cb) (consecutiveSuccesses cb)
        (if b then UnixNano now else 0) (win cb) (log cb)
  | StoreSuccesses0 => with_successes 0 cb
  | ResetWindow => with_win (win_reset (win cb) now) cb
  end.

Definition open_stores (current : cb_state) : list store :=
  match current with
  | StateOpen => [StoreOpenedAt true]
  | _ => [StoreState StateOpen; StoreOpenedAt true; StoreHalfOpenAt false; StoreSuccesses0]
  end.

Definition halfopen_stores (current : cb_state) : list store :=
  match current with
  | StateOpen => [StoreState StateHalfOpen; StoreHalfOpenAt true; StoreSuccesses0]
  | _ => []
  end.

Definition closed_stores (current : cb_state) : list store :=
  match current with
  | StateClosed => []
  | _ => [StoreState StateClosed; StoreOpenedAt false; StoreHalfOpenAt false; StoreSuccesses0; ResetWindow]
  end.

Definition apply_stores (now : time) (ss : list store) (cb : CircuitBreaker) : CircuitBreaker :=
  foldl (apply_store now) cb ss.

Definition recordTransition (from to : cb_state) : M unit :=
  modify (emit [RecordCBState to; IncCBTransition from to]).

(** The recorder and the state-change hook run only on an actual change. *)
Definition transition (stores : cb_state -> list store) (to : cb_state) (announce : cb_state -> bool)
    (now : time) : M unit :=
  current ← gets state;
  modify (apply_stores now (stores current)) ;;
  if announce current then
    recordTransition current to ;;
    h ← gets (fun cb => OnStateChange (cfg cb));
    call_hook h (EvStateChange current to)
  else mret tt.

Definition transitionToOpen (now : time) : M unit :=
  transition open_stores StateOpen (fun s => bool_decide (s <> StateOpen)) now.

Definition transitionToHalfOpen (now : time) : M unit :=
  transition halfopen_stores StateHalfOpen (fun s => bool_decide (s = StateOpen)) now.

Definition transitionToClosed (now : time) : M unit :=
  transition closed_stores StateClosed (fun s => bool_decide (s <> StateClosed)) now.

(** ** Admission *)

Definition shouldAttemptReset (cb : CircuitBreaker) (now : time) : bool :=
  if openedAt cb =? 0 then false
  else negb (Before now (time_add (Unix0 (openedAt cb)) (OpenTimeout (cfg cb)))).

Definition timeUntilHalfOpen (cb : CircuitBreaker) (now : time) : duration :=
  if openedAt cb =? 0 then 0
  else
    let d := time_sub (time_add (Unix0 (openedAt cb)) (OpenTimeout (cfg cb))) now in
    if d <? 0 then 0 else d.

Definition halfOpenStrategy (cb : CircuitBreaker) : HalfOpenStrategy :=
  match c_HalfOpenStrategy (cfg cb) with None => FixedProbeStrategy | Some s => s end.

Definition probeContext (cb : CircuitBreaker) (inflight : Z) (now : time) : ProbeContext :=
  mkProbeContext inflight (consecutiveSuccesses cb)
    (if 0 <? halfOpenAt cb then Unix0 (halfOpenAt cb) else zero_time) now
    (HalfOpenMaxRequests (cfg cb)).

(** The allowance of one admission attempt, clamped to the configured maximum. *)
Definition probe_allowance (cb : CircuitBreaker) (cur : Z) (now : time) : Z :=
  let allowed := MaxConcurrentProbes (halfOpenStrategy cb) (probeContext cb cur now) in
  if HalfOpenMaxRequests (cfg cb) <? allowed then HalfOpenMaxRequests (cfg cb) else allowed.

(** The half-open case of [beforeExecute]; alone, the compare-and-swap of the
    first turn succeeds.  [st] is the state read at the start. *)
Definition acquire_probe (st : cb_state) (now : time) : M (bool * option CircuitError) :=
  cur ← gets halfOpenInflight;
  allowed ← gets (fun cb => probe_allowance cb cur now);
  name ← gets (fun cb => Name (cfg cb));
  if allowed <=? cur then mret (false, Some (newCircuitError name st 0 ErrTooManyRequests))
  else modify (with_inflight (cur + 1)) ;; mret (true, None).

(** The clock readings of a call, in the order the code may take them. *)
Record exec_reads := mkExecReads {
  x_reset : time;      (* shouldAttemptReset *)
  x_until : time;      (* timeUntilHalfOpen *)
  x_halfopen : time;   (* transitionToHalfOpen *)
  x_probe : time;      (* probeContext *)
  x_start : time;
  x_end : time;        (* after the function returned or panicked *)
  x_record : time;     (* the window's slide *)
  x_trans : time;      (* transitionToOpen / transitionToClosed *)
  x_end2 : time;       (* the same three, in the deferred handler *)
  x_record2 : time;
  x_trans2 : time;
}.

Definition exec_reads_at (t : time) : exec_reads := mkExecReads t t t t t t t t t t t.

Definition beforeExecute (rd : exec_reads) : M (bool * option CircuitError) :=
  st ← gets state;
  match st with
  | StateOpen =>
      reset ← gets (fun cb => shouldAttemptReset cb (x_reset rd));
      if (reset : bool) then
        transitionToHalfOpen (x_halfopen rd) ;; acquire_probe st (x_probe rd)
      else
        d ← gets (fun cb => timeUntilHalfOpen cb (x_until rd));
        name ← gets (fun cb => Name (cfg cb));
        mret (false, Some (newCircuitError name st d ErrCircuitOpen))
  | StateHalfOpen => acquire_probe st (x_probe rd)
  | StateClosed => mret (false, None)
  end.

(** ** Outcomes *)

Definition recordOutcome (o : req_outcome) (now : time) : M (Z * Z) := fun cb =>
  match win cb with
  | TimeWin w =>
      let '(f, r, w') := tw_record w o now in (Ok (f, r), with_win (TimeWin w') cb)
  | CountWin w =>
      match cw_record w o with
      | Ok (f, t, w') => (Ok (f, Z.of_nat t), with_win (CountWin w') cb)
      | Panic m => (Panic m, cb)
      end
  end.

Definition shouldOpenCounts (c : Config) (failures requests : Z) : bool :=
  match c_WindowType c with
  | TimeBased =>
      if requests <? MinimumRequests c then false
      else
        let failureRate := (f64_of_Z failures / f64_of_Z requests)%float in
        (FailureThreshold c <=? failures) && f64_geb failureRate (FailureRateThreshold c)
  | CountBased => FailureThreshold c <=? failures
  end.

Definition recordSuccess (st : cb_state) (d : duration) (t_record t_trans : time) : M unit :=
  '(failures, requests) ← recordOutcome outcomeSuccess t_record;
  h ← gets (fun cb => OnSuccess (cfg cb));
  call_hook h (EvSuccess d) ;;
  c ← gets cfg;
  match st with
  | StateHalfOpen =>
      n ← gets consecutiveSuccesses;
      modify (with_successes (n + 1)) ;;
      if SuccessThreshold c <=? n + 1 then transitionToClosed t_trans else mret tt
  | StateClosed =>
      if bool_decide (c_WindowType c = TimeBased) && shouldOpenCounts c failures requests
      then transitionToOpen t_trans else mret tt
  | StateOpen => mret tt
  end.

Definition recordFailure (st : cb_state) (d : duration) (t_record t_trans : time) : M unit :=
  '(failures, requests) ← recordOutcome outcomeFailure t_record;
  h ← gets (fun cb => OnFailure (cfg cb));
  call_hook h (EvFailure d) ;;
  c ← gets cfg;
  match st with
  | StateHalfOpen => transitionToOpen t_trans
  | StateClosed => if shouldOpenCounts c failures requests then transitionToOpen t_trans else mret tt
  | StateOpen => mret tt
  end.

(** Does the error count as a failure?  [ctxErr] is [ctx.Err()]. *)
Definition classify (c : Config) (err : option fn_err) (ctxErr : option fn_err) : outcome bool :=
  match err with
  | None => Ok false
  | Some e =>
      if (0 <? RequestTimeout c) && bool_decide (ctxErr = Some DeadlineExceeded) then Ok true
      else if bool_decide (e = Canceled) then Ok false
      else match IsFailure c with Some f => f e | None => defaultIsFailure e end
  end.

Definition afterExecute (err : option fn_err) (d : duration) (ctxErr : option fn_err)
    (acquiredProbe : bool) (t_record t_trans : time) : M unit :=
  st ← gets state;
  c ← gets cfg;
  isFailure ← lift (classify c err ctxErr);
  (if acquiredProbe then modify (fun cb => with_inflight (halfOpenInflight cb - 1) cb) else mret tt) ;;
  modify (emit [ObserveCBExecution d]) ;;
  if (isFailure : bool) then
    modify (emit [IncCBResult "failure"]) ;; recordFailure st d t_record t_trans
  else
    modify (emit [IncCBResult "success"]) ;; recordSuccess st d t_record t_trans.

(** ** Calls *)

Inductive fn_result := FnReturns (err : option fn_err) | FnPanics (r : string).

Inductive exec_result := Rejected (e : CircuitError) | Completed (err : option fn_err).

Definition panic_err (r : string) : fn_err :=
  OtherErr (String.append "circuitbreaker: panic in Execute: " r).

(** The deferred handler of [Execute]: record a failure, then panic again. *)
Definition recovered (r : string) (rd : exec_reads) (ctxErr : option fn_err) (acquiredProbe : bool)
  : M exec_result :=
  afterExecute (Some (panic_err r)) (time_sub (x_end2 rd) (x_start rd)) ctxErr acquiredProbe
    (x_record2 rd) (x_trans2 rd) ;;
  lift (Panic r).

(** [fn] is what the protected function does when it is called, [ctxErr] what
    [ctx.Err()] gives afterwards.  The deferred handler also catches a panic of
    [afterExecute] itself. *)
Definition Execute (rd : exec_reads) (fn : fn_result) (ctxErr : option fn_err) : M exec_result :=
  '(acquiredProbe, err) ← beforeExecute rd;
  match err with
  | Some e =>
      modify (emit [IncCBResult "rejected"]) ;;
      h ← gets (fun cb => OnRejected (cfg cb));
      call_hook h EvRejected ;;
      mret (Rejected e)
  | None =>
      match fn with
      | FnPanics r => recovered r rd ctxErr acquiredProbe
      | FnReturns err => fun cb =>
          match afterExecute err (time_sub (x_end rd) (x_start rd)) ctxErr acquiredProbe
                  (x_record rd) (x_trans rd) cb with
          | (Ok _, cb') => (Ok (Completed err), cb')
          | (Panic r, cb') => recovered r rd ctxErr acquiredProbe cb'
          end
      end
  end.

(** ** Snapshots *)

Record Snapshot := mkSnapshot {
  sn_Name : string;
  sn_State : cb_state;
  sn_Failures : Z;
  sn_Successes : Z;
  sn_Requests : Z;
  sn_FailureRate : f64;
  sn_OpenedAt : time;
  sn_TimeUntilHalfOpen : duration;
}.

(** The counts of the active window; a time window slides first. *)
Definition win_counts (w : window) (now : time) : Z * Z * window :=
  match w with
  | TimeWin w => let '(f, r, w') := tw_counts w now in (f, r, TimeWin w')
  | CountWin w => let '(f, t) := cw_counts w in (f, Z.of_nat t, CountWin w)
  end.

Definition snapshot (cb : CircuitBreaker) (now_until now_win : time) : Snapshot * CircuitBreaker :=
  let '(opened, until) :=
    if 0 <? openedAt cb then
      let opened := Unix0 (openedAt cb) in
      (opened,
       if decide (state cb = StateOpen) then
         let d := time_sub (time_add opened (OpenTimeout (cfg cb))) now_until in
         if d <? 0 then 0 else d
       else 0)
    else (zero_time, 0) in
  let '(failures, requests, w) := win_counts (win cb) now_win in
  (mkSnapshot (Name (cfg cb)) (state cb) failures (requests - failures) requests
     (if 0 <? requests then (f64_of_Z failures / f64_of_Z requests)%float else 0%float)
     opened until,
   with_win w cb).

(** ** The registry *)

(** Pointers to breakers are positions in a growing heap, so that two lookups
    of a name give the same breaker. *)
Record Registry := mkRegistry {
  breakers : gmap string nat;
  heap : list CircuitBreaker;
}.

Definition with_name (name : string) (c : Config) : Config :=
  mkConfig name (c_WindowType c) (WindowSize c) (FailureThreshold c) (WindowDuration c)
    (BucketDuration c) (FailureRateThreshold c) (MinimumRequests c) (OpenTimeout c)
    (HalfOpenMaxRequests c) (SuccessThreshold c) (c_HalfOpenStrategy c) (RequestTimeout c)
    (IsFailure c) (OnStateChange c) (OnSuccess c) (OnFailure c) (OnRejected c).

(** The critical section of [GetOrCreate]. *)
Definition reg_create (r : Registry) (name : string) (c : Config) (now : time) : nat * Registry :=
  match breakers r !! name with
  | Some p => (p, r)
  | None =>
      let p := length (heap r) in
      (p, mkRegistry (<[name := p]> (breakers r)) (heap r ++ [New (with_name name c) now]))
  end.

Definition reg_GetOrCreate (r : Registry) (name : string) (c : Config) (now : time) : nat * Registry :=
  match breakers r !! name with
  | Some p => (p, r)
  | None => reg_create r name c now
  end.

Definition reg_Get (r : Registry) (name : string) : option nat := breakers r !! name.

Definition reg_Delete (r : Registry) (name : string) : Registry :=
  mkRegistry (delete name (breakers r)) (heap r).

Definition reg_Reset (r : Registry) : Registry := mkRegistry ∅ (heap r).

(** ** One call, up to the log *)

(** The breaker without its log. *)
Definition erase (cb : CircuitBreaker) : CircuitBreaker :=
  mkCB (cfg cb) (state cb) (openedAt cb) (halfOpenInflight cb) (consecutiveSuccesses cb)
    (halfOpenAt cb) (win cb) [].

(** No callback panics. *)
Definition quiet_hook (h : option hook) : Prop := h <> Some HookPanics.
Definition quiet (c : Config) : Prop :=
  quiet_hook (OnStateChange c) /\ quiet_hook (OnSuccess c) /\
  quiet_hook (OnFailure c) /\ quiet_hook (OnRejected c).

(** [m] returns [a] and leaves a breaker equal to [cb'] up to the log. *)
Definition yields {A} (m : M A) (cb : CircuitBreaker) (a : A) (cb' : CircuitBreaker) : Prop :=
  exists cb1, m cb = (Ok a, cb1) /\ erase cb1 = erase cb'.

(** A registered callback that does not panic returns. *)
Lemma quiet_call h ev cb : quiet_hook h -> exists evs, call_hook h ev cb = (Ok tt, emit evs cb).
Proof.
  unfold quiet_hook, call_hook. intros Hq. destruct h as [[]|]; [by eexists|done|].
  exists []. destruct cb. unfold emit; simpl. by rewrite app_nil_r.
Qed.

Lemma emit_emit a b cb : emit b (emit a cb) = emit (a ++ b) cb.
Proof. unfold emit; simpl. by rewrite app_assoc. Qed.

Lemma stores_emit now ss evs cb : apply_stores now ss (emit evs cb) = emit evs (apply_stores now ss cb).
Proof.
  revert cb. induction ss as [|s ss IH]; intros cb; [done|]. simpl. rewrite <- IH. f_equal. by destruct s.
Qed.

Lemma stores_cfg now ss cb : cfg (apply_stores now ss cb) = cfg cb.
Proof. revert cb. induction ss as [|s ss IH]; intros cb; [done|]. simpl. rewrite IH. by destruct s. Qed.

(** A transition performs its stores. *)
Lemma transition_run stores to ann now cb : quiet (cfg cb) ->
  exists evs, transition stores to ann now cb = (Ok tt, emit evs (apply_stores now (stores (state cb)) cb)).
Proof.
  intros Hq. unfold transition, mbind, M_bind, gets, modify. destruct (ann (state cb)).
  - unfold recordTransition, modify. cbn [cfg emit]. rewrite stores_cfg.
    destruct (quiet_call (OnStateChange (cfg cb)) (EvStateChange (state cb) to)
      (emit [RecordCBState to; IncCBTransition (state cb) to] (apply_stores now (stores (state cb)) cb)))
      as [evs ->]; [apply Hq|]. rewrite emit_emit. by eexists.
  - exists []. unfold mret, M_ret, emit. rewrite app_nil_r. by destruct (apply_stores _ _ _).
Qed.

Lemma transition_run_emit stores to ann now evs cb : quiet (cfg cb) ->
  exists evs', transition stores to ann now (emit evs cb) =
    (Ok tt, emit evs' (apply_stores now (stores (state cb)) cb)).
Proof.
  intros Hq. destruct (transition_run stores to ann now (emit evs cb) Hq) as [evs' ->].
  rewrite stores_emit, emit_emit. by eexists.
Qed.

(** What a completed call does to a breaker with a count window that holds
    [h]: the probe slot is released, the outcome recorded, and the state moves
    according to the state read when the function returned. *)
Definition after_spec (cb : CircuitBreaker) (w' : countWindow) (f : Z) (isFailure acquired : bool)
    (t_trans : time) : CircuitBreaker :=
  let cb1 := with_win (CountWin w')
    (if acquired then with_inflight (halfOpenInflight cb - 1) cb else cb) in
  match state cb with
  | StateHalfOpen =>
      if isFailure then apply_stores t_trans (open_stores StateHalfOpen) cb1
      else
        let cb2 := with_successes (consecutiveSuccesses cb + 1) cb1 in
        if SuccessThreshold (cfg cb) <=? consecutiveSuccesses cb + 1
        then apply_stores t_trans (closed_stores StateHalfOpen) cb2 else cb2
  | StateClosed =>
      if isFailure && (FailureThreshold (cfg cb) <=? f)
      then apply_stores t_trans (open_stores StateClosed) cb1 else cb1
  | StateOpen => cb1
  end.

Definition outcome_of (isFailure : bool) : req_outcome :=
  if isFailure then outcomeFailure else outcomeSuccess.

Lemma emit_win evs w cb : with_win w (emit evs cb) = emit evs (with_win w cb).
Proof. done. Qed.

Lemma recordFailure_run st d tr tt' cb w f t w' :
  quiet (cfg cb) -> c_WindowType (cfg cb) = CountBased -> win cb = CountWin w ->
  cw_record w outcomeFailure = Ok (f, t, w') -> state cb = st ->
  exists evs, recordFailure st d tr tt' cb =
    (Ok tt, emit evs (after_spec cb w' f true false tt')).
Proof.
  intros Hq Hct Hw Er Hst. unfold recordFailure, mbind, M_bind, recordOutcome. rewrite Hw, Er.
  unfold gets. set (cb1 := with_win (CountWin w') cb).
  destruct (quiet_call (OnFailure (cfg cb1)) (EvFailure d) cb1) as [evs ->]; [apply Hq|].
  unfold after_spec, shouldOpenCounts. cbn [cfg emit]. subst st cb1.
  change (cfg (with_win (CountWin w') cb)) with (cfg cb). rewrite Hct.
  destruct (state cb) eqn:Es; [destruct (FailureThreshold (cfg cb) <=? f)|..]; cbn [andb];
    try (by eexists); rewrite <- Es;
    by apply (transition_run_emit open_stores StateOpen _ tt' evs (with_win (CountWin w') cb)).
Qed.

Lemma recordSuccess_run st d tr tt' cb w f t w' :
  quiet (cfg cb) -> c_WindowType (cfg cb) = CountBased -> win cb = CountWin w ->
  cw_record w outcomeSuccess = Ok (f, t, w') -> state cb = st ->
  exists evs, recordSuccess st d tr tt' cb =
    (Ok tt, emit evs (after_spec cb w' f false false tt')).
Proof.
  intros Hq Hct Hw Er Hst. unfold recordSuccess, mbind, M_bind, recordOutcome. rewrite Hw, Er.
  unfold gets, modify. set (cb1 := with_win (CountWin w') cb).
  destruct (quiet_call (OnSuccess (cfg cb1)) (EvSuccess d) cb1) as [evs ->]; [apply Hq|].
  unfold after_spec. cbn [cfg emit consecutiveSuccesses]. subst st cb1.
  change (cfg (with_win (CountWin w') cb)) with (cfg cb).
  rewrite Hct, (bool_decide_false (CountBased = TimeBased)) by discriminate. cbn [andb].
  destruct (state cb) eqn:Es; try (by eexists).
  change (consecutiveSuccesses (emit evs (with_win (CountWin w') cb))) with (consecutiveSuccesses cb).
  destruct (SuccessThreshold (cfg cb) <=? consecutiveSuccesses cb + 1); [|by eexists].
  change (with_successes ?n (emit ?e ?c)) with (emit e (with_successes n c)). rewrite <- Es.
  by apply (transition_run_emit closed_stores StateClosed _ tt' evs
    (with_successes (consecutiveSuccesses cb + 1) (with_win (CountWin w') cb))).
Qed.

Lemma after_spec_emit evs cb w' f isF acq t :
  after_spec (emit evs cb) w' f isF acq t = emit evs (after_spec cb w' f isF acq t).
Proof.
  unfold after_spec. cbn [state emit cfg consecutiveSuccesses halfOpenInflight].
  destruct (state cb), isF, acq; cbn [andb]; try case_match; done.
Qed.

Lemma afterExecute_run err d ctxErr acq tr tt' cb w h isF :
  quiet (cfg cb) -> c_WindowType (cfg cb) = CountBased -> win cb = CountWin w -> cw_rep w h ->
  classify (cfg cb) err ctxErr = Ok isF ->
  exists evs w', cw_rep w' (h ++ [outcome_of isF]) /\ size w' = size w /\
  afterExecute err d ctxErr acq tr tt' cb =
    (Ok tt, emit evs (after_spec cb w' (count_failures (lastn (size w) (h ++ [outcome_of isF]))) isF acq tt')).
Proof.
  intros Hq Hct Hw Hrep Hcl. destruct (cw_record_rep w h (outcome_of isF) Hrep) as (w' & Er & Hrep' & Es).
  unfold afterExecute, mbind, M_bind, gets, lift. rewrite Hcl.
  set (cbr := if acq then with_inflight (halfOpenInflight cb - 1) cb else cb).
  assert ((if acq then modify (fun cb => with_inflight (halfOpenInflight cb - 1) cb) else mret tt) cb
    = (Ok tt, cbr)) as -> by (by destruct acq).
  assert (forall f, after_spec cb w' f isF acq tt' = after_spec cbr w' f isF false tt') as Ea.
  { intros f. unfold cbr. destruct acq; [|done]. unfold after_spec. cbn [state with_inflight cfg consecutiveSuccesses].
    by destruct (state cb), isF. }
  assert (cfg cbr = cfg cb /\ win cbr = win cb /\ state cbr = state cb) as (E1 & E2 & E3) by (by destruct acq).
  unfold modify. destruct isF; rewrite emit_emit.
  - destruct (recordFailure_run (state cb) d tr tt' (emit [ObserveCBExecution d; IncCBResult "failure"] cbr)
      w _ _ w' ltac:(by cbn; rewrite E1) ltac:(by cbn; rewrite E1) ltac:(by cbn; rewrite E2) Er E3) as [evs E].
    do 2 eexists. split_and!; [done..|]. rewrite Ea. etrans; [exact E|]. by rewrite after_spec_emit, emit_emit.
  - destruct (recordSuccess_run (state cb) d tr tt' (emit [ObserveCBExecution d; IncCBResult "success"] cbr)
      w _ _ w' ltac:(by cbn; rewrite E1) ltac:(by cbn; rewrite E1) ltac:(by cbn; rewrite E2) Er E3) as [evs E].
    do 2 eexists. split_and!; [done..|]. rewrite Ea. etrans; [exact E|]. by rewrite after_spec_emit, emit_emit.
Qed.

Lemma Execute_closed rd err ctxErr cb w h isF :
  state cb = StateClosed ->
  quiet (cfg cb) -> c_WindowType (cfg cb) = CountBased -> win cb = CountWin w -> cw_rep w h ->
  classify (cfg cb) err ctxErr = Ok isF ->
  exists evs w', cw_rep w' (h ++ [outcome_of isF]) /\ size w' = size w /\
  Execute rd (FnReturns err) ctxErr cb =
    (Ok (Completed err),
     emit evs (after_spec cb w' (count_failures (lastn (size w) (h ++ [outcome_of isF]))) isF false (x_trans rd))).
Proof.
  intros Hst Hq Hct Hw Hrep Hcl.
  destruct (afterExecute_run err (time_sub (x_end rd) (x_start rd)) ctxErr false (x_record rd) (x_trans rd)
    cb w h isF Hq Hct Hw Hrep Hcl) as (evs & w' & Hrep' & Es & E).
  exists evs, w'. split_and!; auto. unfold Execute, beforeExecute, mbind, M_bind, gets. rewrite Hst.
  unfold mret, M_ret. by rewrite E.
Qed.




(** ** Histories of calls *)

(** A call whose function succeeds or fails with an ordinary error. *)
Record call := mkCall { cl_reads : exec_reads; cl_out : req_outcome }.

Definition call_result (o : req_outcome) : fn_result :=
  FnReturns (if is_failure o then Some (OtherErr "failed") else None).

Definition do_call (cb : CircuitBreaker) (c : call) : outcome exec_result * CircuitBreaker :=
  Execute (cl_reads c) (call_result (cl_out c)) None cb.

Fixpoint run_calls (cb : CircuitBreaker) (cs : list call) : list (outcome exec_result) * CircuitBreaker :=
  match cs with
  | [] => ([], cb)
  | c :: cs' =>
      let '(r, cb1) := do_call cb c in
      let '(rs, cb2) := run_calls cb1 cs' in (r :: rs, cb2)
  end.

Definition completed (r : outcome exec_result) : Prop :=
  match r with Ok (Completed _) => True | _ => False end.

(** A closed, count-based breaker whose window holds [h]. *)
Definition closed_with (c : Config) (h : list req_outcome) (cb : CircuitBreaker) : Prop :=
  cfg cb = c /\ state cb = StateClosed /\ exists w, win cb = CountWin w /\ cw_rep w h /\
  size w = Z.to_nat (WindowSize c).

(** A configuration as [New] leaves it, count-based, without panicking hooks. *)
Definition plain (c : Config) : Prop :=
  c_WindowType c = CountBased /\ quiet c /\ IsFailure c = Some defaultIsFailure.

Lemma plain_classify c o : plain c ->
  classify c (if is_failure o then Some (OtherErr "failed") else None) None = Ok (is_failure o).
Proof.
  intros (_ & _ & Hf). destruct o; [done|]. unfold classify. cbn [is_failure]. rewrite Hf.
  by destruct (0 <? RequestTimeout c).
Qed.

Lemma outcome_of_is_failure o : outcome_of (is_failure o) = o.
Proof. by destruct o. Qed.

(** One call on a closed breaker trips it exactly at the threshold. *)
Lemma closed_call c h cb cl : plain c -> closed_with c h cb ->
  let n := Z.to_nat (WindowSize c) in
  let h' := h ++ [cl_out cl] in
  let trip := is_failure (cl_out cl) && (FailureThreshold c <=? count_failures (lastn n h')) in
  let '(r, cb') := do_call cb cl in
  completed r /\
  if trip then state cb' = StateOpen /\ openedAt cb' = UnixNano (x_trans (cl_reads cl)) /\ cfg cb' = c
  else closed_with c h' cb'.
Proof.
  intros Hp (Hc & Hst & w & Hw & Hrep & Hsz). cbv zeta. pose proof Hp as (Hct & Hq & _). subst c.
  destruct (Execute_closed (cl_reads cl) (if is_failure (cl_out cl) then Some (OtherErr "failed") else None)
    None cb w h (is_failure (cl_out cl)) Hst Hq Hct Hw Hrep (plain_classify _ _ Hp))
    as (evs & w' & Hrep' & Es & E).
  unfold do_call, call_result. rewrite E. rewrite outcome_of_is_failure in *. rewrite Hsz in *.
  split; [done|]. unfold after_spec. rewrite Hst.
  destruct (is_failure (cl_out cl) && _); [done|].
  split_and!; try done. exists w'. by rewrite Es.
Qed.

Lemma run_calls_app cb cs ds :
  run_calls cb (cs ++ ds) =
    let '(r1, cb1) := run_calls cb cs in let '(r2, cb2) := run_calls cb1 ds in (r1 ++ r2, cb2).
Proof.
  revert cb. induction cs as [|c cs IH]; intros cb; simpl.
  - by destruct (run_calls cb ds).
  - destruct (do_call cb c) as [r cb1]. rewrite IH. destruct (run_calls cb1 cs) as [rs cb2].
    by destruct (run_calls cb2 ds).
Qed.

Lemma closed_run c cs h cb : plain c -> closed_with c h cb ->
  let n := Z.to_nat (WindowSize c) in
  (forall k, (k <= length cs)%nat ->
     count_failures (lastn n (h ++ take k (map cl_out cs))) < FailureThreshold c) ->
  let '(rs, cb') := run_calls cb cs in
  Forall completed rs /\ closed_with c (h ++ map cl_out cs) cb'.
Proof.
  intros Hp. cbv zeta. revert h cb. induction cs as [|cl cs IH]; intros h cb Hcl Hlt; simpl.
  - by rewrite app_nil_r.
  - pose proof (closed_call c h cb cl Hp Hcl) as Hone. cbv zeta in Hone.
    destruct (do_call cb cl) as [r cb1]. destruct Hone as [Hr Hcl1].
    specialize (Hlt 1%nat) as Hlt1. simpl in Hlt1. rewrite take_0 in Hlt1.
    rewrite (proj2 (Z.leb_gt _ _)), andb_false_r in Hcl1 by (apply Hlt1; lia).
    specialize (IH (h ++ [cl_out cl]) cb1 Hcl1).
    destruct (run_calls cb1 cs) as [rs cb2]. rewrite <- app_assoc in IH. simpl in IH.
    destruct IH as [IH1 IH2]; [|split; [by constructor|done]].
    intros k Hk. specialize (Hlt (S k)). simpl in Hlt. rewrite <- app_assoc. apply Hlt. lia.
Qed.

Lemma new_closed c now : c_WindowType c = CountBased ->
  closed_with (defaults c) [] (New c now).
Proof.
  intros Hct. split_and!; try done. unfold New. cbn [win c_WindowType defaults]. rewrite Hct.
  eexists. split; [done|]. split; [|done]. apply cw_new_rep. cbn [WindowSize defaults]. unfold positive_or.
  case_cmp; lia.
Qed.

Lemma count_failures_lastn_success n h : (0 < n)%nat ->
  count_failures (lastn n (h ++ [outcomeSuccess])) <= count_failures (lastn n h).
Proof.
  intros Hn. rewrite lastn_snoc, count_failures_app by done. change (count_failures [outcomeSuccess]) with 0.
  rewrite Z.add_0_r. destruct (Nat.ltb_spec (length h) n).
  - unfold lastn. replace (length h - n)%nat with 0%nat by lia. by rewrite drop_0.
  - destruct (lastn_head n h ltac:(lia)) as (x & _ & E). rewrite E at 2.
    unfold count_failures at 2. cbn [map zsum foldr]. fold (zsum (map fail_cost (drop 1 (lastn n h)))).
    pose proof (fail_cost_bounds x). unfold count_failures. lia.
Qed.

(** ** Correctness of the breaker *)

(** C2: A count-based breaker trips exactly at its threshold: as long as no
    prefix of the outcomes since creation has [FailureThreshold] failures among
    its last [WindowSize] outcomes every call runs and the breaker stays
    closed, and the next call opens it if and only if that count is reached. *)
Theorem cb_trip_exact c now cs cl :
  c_WindowType c = CountBased -> quiet c -> IsFailure c = None ->
  let c' := defaults c in
  let n := Z.to_nat (WindowSize c') in
  let os := map cl_out cs in
  (forall k, (k <= length cs)%nat -> count_failures (lastn n (take k os)) < FailureThreshold c') ->
  let '(rs, cb) := run_calls (New c now) cs in
  Forall completed rs /\ state cb = StateClosed /\
  (state (snd (do_call cb cl)) = StateOpen <->
   FailureThreshold c' <= count_failures (lastn n (os ++ [cl_out cl]))).
Proof.
  intros Hct Hq Hf. cbv zeta. intros Hlt.
  assert (plain (defaults c)) as Hp by (unfold plain, defaults; cbn; by rewrite Hct, Hf).
  pose proof (closed_run (defaults c) cs [] (New c now) Hp (new_closed c now Hct) Hlt) as Hrun.
  destruct (run_calls (New c now) cs) as [rs cb]. destruct Hrun as [Hrs Hcl]. simpl in Hcl.
  split; [done|]. split; [apply Hcl|].
  pose proof (closed_call (defaults c) _ cb cl Hp Hcl) as Hone. cbv zeta in Hone.
  destruct (do_call cb cl) as [r cb']. destruct Hone as [_ Hone]. cbn [snd].
  destruct (cl_out cl) eqn:Eo; cbn [is_failure andb] in Hone.
  - destruct Hone as (_ & -> & _). split; [done|]. intros Hge. exfalso.
    assert (0 < Z.to_nat (WindowSize (defaults c)))%nat as Hn.
    { cbn [WindowSize defaults]. unfold positive_or. case_cmp; lia. }
    pose proof (count_failures_lastn_success _ (map cl_out cs) Hn).
    specialize (Hlt (length cs) ltac:(lia)). rewrite take_ge in Hlt by (rewrite length_map; lia). lia.
  - destruct (Z.leb_spec (FailureThreshold (defaults c))
      (count_failures (lastn (Z.to_nat (WindowSize (defaults c))) (map cl_out cs ++ [outcomeFailure])))).
    + destruct Hone as (-> & _). done.
    + destruct Hone as (_ & -> & _). split; [done|lia].
Qed.

(** A count window of four, three failures to open. *)
Definition demo_Config : Config :=
  mkConfig "db" CountBased 4 3 0 0 0%float 0 Second 1 2 None 0 None (Some HookReturns) None None None.

Definition demo_call (t : time) (o : req_outcome) : call := mkCall (exec_reads_at t) o.

Lemma cb_trip_exact_witness :
  let cs := [demo_call 1 outcomeFailure; demo_call 2 outcomeFailure; demo_call 3 outcomeSuccess] in
  let '(rs, cb) := run_calls (New demo_Config 0) cs in
  Forall completed rs /\ state cb = StateClosed /\
  (state (snd (do_call cb (demo_call 4 outcomeFailure))) = StateOpen <-> 3 <= 3).
Proof.
  refine (cb_trip_exact demo_Config 0
    [demo_call 1 outcomeFailure; demo_call 2 outcomeFailure; demo_call 3 outcomeSuccess]
    (demo_call 4 outcomeFailure) eq_refl _ eq_refl _).
  - unfold quiet, quiet_hook, demo_Config; simpl; by split_and!.
  - intros [|[|[|[|k]]]] Hk; vm_compute; reflexivity.
Defined.

(** A count-based breaker whose [FailureThreshold] exceeds its
    [WindowSize] accepts the configuration and never opens, whatever happens. *)
Theorem cb_threshold_above_window_never_trips c now cs :
  c_WindowType c = CountBased -> quiet c -> IsFailure c = None ->
  WindowSize (defaults c) < FailureThreshold (defaults c) ->
  let '(rs, cb) := run_calls (New c now) cs in Forall completed rs /\ state cb = StateClosed.
Proof.
  intros Hct Hq Hf Hlt.
  assert (plain (defaults c)) as Hp by (unfold plain, defaults; cbn; by rewrite Hct, Hf).
  pose proof (closed_run (defaults c) cs [] (New c now) Hp (new_closed c now Hct)) as Hrun.
  cbv zeta in Hrun. destruct (run_calls (New c now) cs) as [rs cb].
  destruct Hrun as [Hrs Hcl]; [|split; [done|apply Hcl]].
  intros k _. pose proof (count_failures_bounds (lastn (Z.to_nat (WindowSize (defaults c)))
    ([] ++ take k (map cl_out cs)))) as Hb. unfold zlength in Hb. rewrite lastn_length in Hb.
  assert (0 < WindowSize (defaults c)) by (cbn [WindowSize defaults]; unfold positive_or; case_cmp; lia).
  lia.
Qed.

Lemma cb_threshold_above_window_never_trips_witness :
  let c := mkConfig "small" CountBased 3 0 0 0 0%float 0 0 0 0 None 0 None None None None None in
  FailureThreshold (defaults c) = 5 /\
  let '(rs, cb) := run_calls (New c 0) (replicate 20 (demo_call 1 outcomeFailure)) in
  Forall completed rs /\ state cb = StateClosed.
Proof.
  split; [reflexivity|].
  refine (cb_threshold_above_window_never_trips
    (mkConfig "small" CountBased 3 0 0 0 0%float 0 0 0 0 None 0 None None None None None) 0
    (replicate 20 (demo_call 1 outcomeFailure)) eq_refl _ eq_refl _).
  - unfold quiet, quiet_hook; simpl; by split_and!.
  - vm_compute; reflexivity.
Defined.

(** An open breaker rejects every call until its timeout has elapsed: the
    function does not run, nothing but the log changes, and the error is
    [ErrCircuitOpen] with the remaining time. *)
Theorem cb_open_rejects cb rd fn ctxErr :
  state cb = StateOpen -> 0 < openedAt cb -> quiet (cfg cb) ->
  x_reset rd <= x_until rd -> x_reset rd < openedAt cb + OpenTimeout (cfg cb) ->
  openedAt cb + OpenTimeout (cfg cb) - x_until rd <= max_int64 ->
  exists d cb', Execute rd fn ctxErr cb =
    (Ok (Rejected (mkCircuitError (Name (cfg cb)) StateOpen d ErrCircuitOpen)), cb') /\
    erase cb' = erase cb /\ d = Z.max 0 (openedAt cb + OpenTimeout (cfg cb) - x_until rd).
Proof.
  intros Hst Ho Hq Hle Hlt Hmax.
  assert (shouldAttemptReset cb (x_reset rd) = false) as Hr.
  { unfold shouldAttemptReset, Before, time_add, Unix0. rewrite (proj2 (Z.eqb_neq _ _)) by lia.
    by rewrite (proj2 (Z.ltb_lt _ _)) by lia. }
  unfold Execute, beforeExecute, mbind, M_bind, gets, modify. rewrite Hst, Hr.
  unfold mret, M_ret, newCircuitError.
  destruct (quiet_call (OnRejected (cfg (emit [IncCBResult "rejected"] cb))) EvRejected
    (emit [IncCBResult "rejected"] cb)) as [evs ->]; [apply Hq|].
  do 2 eexists. split; [done|]. split; [done|].
  unfold timeUntilHalfOpen, time_sub, time_add, Unix0. rewrite (proj2 (Z.eqb_neq _ _)) by lia.
  cbv zeta. go_unfold. case_cmp; lia.
Qed.

(** The demo breaker, tripped by three failures at 3. *)
Definition demo_open : CircuitBreaker :=
  snd (run_calls (New demo_Config 0)
    [demo_call 1 outcomeFailure; demo_call 2 outcomeFailure; demo_call 3 outcomeFailure]).

Lemma cb_open_rejects_witness :
  exists d cb', Execute (exec_reads_at 10) (FnPanics "boom") None demo_open =
    (Ok (Rejected (mkCircuitError "db" StateOpen d ErrCircuitOpen)), cb') /\
    erase cb' = erase demo_open /\ d = Z.max 0 (3 + Second - 10).
Proof.
  apply (cb_open_rejects demo_open (exec_reads_at 10) (FnPanics "boom") None); try (vm_compute; congruence).
  vm_compute; by split_and!.
Defined.

(** *** Recovery *)








(** A cancelled probe closes the circuit: with the default threshold of
    one, a half-open probe whose caller gives up is recorded as a success and
    the breaker closes although the dependency has not answered. *)
Theorem cb_cancelled_probe_closes :
  let c := mkConfig "db" CountBased 4 3 0 0 0%float 0 Second 1 1 None 0 None None None None None in
  let opened := snd (run_calls (New c 0)
    [demo_call 1 outcomeFailure; demo_call 2 outcomeFailure; demo_call 3 outcomeFailure]) in
  let '(r, cb) := Execute (exec_reads_at (2 * Second)) (FnReturns (Some Canceled)) (Some Canceled) opened in
  state opened = StateOpen /\ r = Ok (Completed (Some Canceled)) /\ state cb = StateClosed.
Proof. vm_compute. by split_and!. Qed.

(** A callback that panics releases the probe slot twice: the deferred
    handler of [Execute] runs [afterExecute] again for the same call, the
    in-flight counter goes to -1, and the breaker afterwards admits one probe
    more than [HalfOpenMaxRequests]. *)
Theorem cb_hook_panic_releases_twice :
  let c := mkConfig "db" CountBased 4 3 0 0 0%float 0 Second 1 2 None 0 None None (Some HookPanics) None None in
  let opened := snd (run_calls (New c 0)
    [demo_call 1 outcomeFailure; demo_call 2 outcomeFailure; demo_call 3 outcomeFailure]) in
  let '(r, cb) := Execute (exec_reads_at (2 * Second)) (FnReturns None) None opened in
  halfOpenInflight opened = 0 /\ HalfOpenMaxRequests (cfg opened) = 1 /\
  r = Panic "hook" /\ halfOpenInflight cb = -1 /\
  let '(p1, cb1) := beforeExecute (exec_reads_at (4 * Second)) cb in
  let '(p2, cb2) := beforeExecute (exec_reads_at (4 * Second)) cb1 in
  p1 = Ok (true, None) /\ p2 = Ok (true, None).
Proof. vm_compute. by split_and!. Qed.
