(* ===== verification/CbConcurrent.v ===== *)
(** * Concurrent calls of one circuit breaker ([circuitbreaker/circuitbreaker.go]).

    Any number of goroutines run [Execute] on the same breaker.  A step is one
    atomic access of one goroutine (an atomic load, store, add or
    compare-and-swap, one critical section of a window's mutex, or the
    acquisition and release of [cb.mu]); the stores made under [cb.mu] are
    separate steps, because the loads do not take the mutex.  Between two steps
    the clock may advance.  The protected function, [IsFailure], the callbacks,
    the recorder and the probe strategy may return or panic: a panic inside
    [afterExecute] is caught by the deferred handler of [Execute], which runs
    [afterExecute] once more and panics again.  Callbacks do not call the
    breaker. *)

From Stdlib Require Import Floats.
From stdpp Require Import relations.
From S2P Require Import Prelude Float64 CbWindow CbHalfOpen CircuitBreaker.
Open Scope Z_scope.

(** What user code does in a step: whether the outcome counts as a failure,
    whether the protected function panics, and whether the callback, recorder
    or strategy that runs in the step panics. *)
Record choice := mkChoice { ch_failed : bool; ch_fn_panics : bool; ch_hook_panics : bool }.

(** User code that returns. *)
Definition returns (failed : bool) : choice := mkChoice failed false false.

(** The frame of [Execute] once it has been admitted.  [releases] and [hooked]
    are for the statements: how often the call has given a probe slot back and
    whether a callback has panicked in it. *)
Record frame := mkFrame {
  acquired : bool;      (* acquiredProbe *)
  handler : bool;       (* the deferred handler is running *)
  releases : Z;
  hooked : bool;
}.

(** Where the mutex holder goes on: [transitionToHalfOpen] is called by
    [beforeExecute], the other transitions by [afterExecute]. *)
Inductive cont := ToProbe | ToEnd (fr : frame).

(** Where a goroutine is inside [Execute]. *)
Inductive pc :=
| PStart                                            (* before cb.State() *)
| PLoadOpenedAt                                     (* shouldAttemptReset *)
| PCheckReset (ns : Z)
| PLockHalfOpen                                     (* transitionToHalfOpen *)
| PCrit (ss : list store) (announce : bool) (k : cont) (* holds cb.mu *)
| PProbe (st : cb_state)                            (* halfOpenInflight.Load *)
| PSince (st : cb_state) (cur : Z)                  (* halfOpenAt.Load *)
| PAllow (st : cb_state) (cur since : Z)            (* consecutiveSuccesses.Load, allowance *)
| PCas (st : cb_state) (cur : Z)                    (* CompareAndSwap(cur, cur+1) *)
| PRun (probe : bool)                               (* the function runs *)
| PAfter (fr : frame)                               (* afterExecute: cb.State() *)
| PRelease (fr : frame) (failed : bool) (st : cb_state) (* halfOpenInflight.Add(-1) *)
| PRecord (fr : frame) (failed : bool) (st : cb_state)  (* recorder, recordOutcome *)
| PHook (fr : frame) (failed : bool) (st : cb_state) (f r : Z) (* OnFailure, OnSuccess *)
| PCount (fr : frame)                               (* consecutiveSuccesses.Add(1) *)
| PLockOpen (fr : frame)                            (* transitionToOpen *)
| PLockClosed (fr : frame)                          (* transitionToClosed *)
| PRejected (e : cb_sentinel)
| PPanicked (fr : frame)                            (* Execute has panicked *)
| PDone.

(** The call has returned or panicked. *)
Definition over (p : pc) : bool :=
  match p with PRejected _ | PPanicked _ | PDone => true | _ => false end.

Record system := mkSystem {
  s_cb : CircuitBreaker;
  s_mu : bool;              (* cb.mu is held *)
  s_now : time;
  s_threads : list pc;
}.

(** A call that panics before its deferred handler is in place. *)
Definition unadmitted : frame := mkFrame false false 0 true.

(** [afterExecute] has returned: so does [Execute], unless the deferred handler
    ran it, which panics again. *)
Definition finish (fr : frame) : pc := if handler fr then PPanicked fr else PDone.

(** User code has panicked in [afterExecute]: the deferred handler runs it once
    more; a panic in the handler leaves [Execute]. *)
Definition escape (fr : frame) : pc :=
  if handler fr then PPanicked (mkFrame (acquired fr) true (releases fr) true)
  else PAfter (mkFrame (acquired fr) true (releases fr) true).

Definition resume (k : cont) : pc := match k with ToProbe => PProbe StateOpen | ToEnd fr => finish fr end.
Definition unwind (k : cont) : pc := match k with ToProbe => PPanicked unadmitted | ToEnd fr => escape fr end.

Definition released (fr : frame) : frame :=
  mkFrame (acquired fr) (handler fr) (releases fr + (if acquired fr then 1 else 0)) (hooked fr).

(** Acquire the mutex and read the state: the stores that follow, and whether
    the change is announced to the recorder and to [OnStateChange]. *)
Definition lock (cb : CircuitBreaker) (mu : bool) (stores : cb_state -> list store)
    (announce : cb_state -> bool) (k : cont) : option (CircuitBreaker * bool * pc) :=
  if mu then None else Some (cb, true, PCrit (stores (state cb)) (announce (state cb)) k).

(** The allowance computed from a counter, an episode start and a success
    count that were loaded one after the other. *)
Definition loaded_allowance (c : Config) (strategy : HalfOpenStrategy) (cur since successes : Z) (now : time) : Z :=
  let allowed := MaxConcurrentProbes strategy
    (mkProbeContext cur successes (if 0 <? since then Unix0 since else zero_time) now (HalfOpenMaxRequests c)) in
  if HalfOpenMaxRequests c <? allowed then HalfOpenMaxRequests c else allowed.

Definition is_set {A} (h : option A) : bool := match h with Some _ => true | None => false end.

(** The next step of a goroutine at [p].  [None]: it cannot move. *)
Definition thread_step (cb : CircuitBreaker) (mu : bool) (now : time) (ch : choice) (p : pc)
  : option (CircuitBreaker * bool * pc) :=
  match p with
  | PStart =>
      Some (cb, mu, match state cb with
                    | StateOpen => PLoadOpenedAt
                    | StateHalfOpen => PProbe StateHalfOpen
                    | StateClosed => PRun false
                    end)
  | PLoadOpenedAt => Some (cb, mu, PCheckReset (openedAt cb))
  | PCheckReset ns =>
      Some (cb, mu,
        if (ns =? 0) || Before now (time_add (Unix0 ns) (OpenTimeout (cfg cb)))
        then PRejected ErrCircuitOpen else PLockHalfOpen)
  | PLockHalfOpen => lock cb mu halfopen_stores (fun s => bool_decide (s = StateOpen)) ToProbe
  | PCrit (s :: ss) ann k => Some (apply_store now cb s, mu, PCrit ss ann k)
  | PCrit [] ann k => Some (cb, false, if ann && ch_hook_panics ch then unwind k else resume k)
  | PProbe st => Some (cb, mu, PSince st (halfOpenInflight cb))
  | PSince st cur => Some (cb, mu, PAllow st cur (halfOpenAt cb))
  | PAllow st cur since =>
      Some (cb, mu,
        if ch_hook_panics ch && is_set (c_HalfOpenStrategy (cfg cb)) then PPanicked unadmitted
        else if loaded_allowance (cfg cb) (halfOpenStrategy cb) cur since (consecutiveSuccesses cb) now <=? cur
             then PRejected ErrTooManyRequests else PCas st cur)
  | PCas st cur =>
      Some (if halfOpenInflight cb =? cur then (with_inflight (cur + 1) cb, mu, PRun true)
            else (cb, mu, PProbe st))
  | PRun probe => Some (cb, mu, PAfter (mkFrame probe (ch_fn_panics ch) 0 false))
  | PAfter fr =>
      Some (cb, mu, if ch_hook_panics ch && is_set (IsFailure (cfg cb)) then escape fr
                    else PRelease fr (ch_failed ch) (state cb))
  | PRelease fr failed st =>
      Some (if acquired fr then with_inflight (halfOpenInflight cb - 1) cb else cb, mu,
            PRecord (released fr) failed st)
  | PRecord fr failed st =>
      if ch_hook_panics ch then Some (cb, mu, escape fr)
      else
        match recordOutcome (outcome_of failed) now cb with
        | (Panic _, _) => None
        | (Ok (f, r), cb') => Some (cb', mu, PHook fr failed st f r)
        end
  | PHook fr failed st f r =>
      Some (cb, mu,
        if ch_hook_panics ch && is_set (if failed then OnFailure (cfg cb) else OnSuccess (cfg cb)) then escape fr
        else
          match st with
          | StateHalfOpen => if failed then PLockOpen fr else PCount fr
          | StateClosed =>
              if (failed || bool_decide (c_WindowType (cfg cb) = TimeBased)) &&
                 shouldOpenCounts (cfg cb) f r
              then PLockOpen fr else finish fr
          | StateOpen => finish fr
          end)
  | PCount fr =>
      let n := consecutiveSuccesses cb + 1 in
      Some (with_successes n cb, mu, if SuccessThreshold (cfg cb) <=? n then PLockClosed fr else finish fr)
  | PLockOpen fr => lock cb mu open_stores (fun s => bool_decide (s <> StateOpen)) (ToEnd fr)
  | PLockClosed fr => lock cb mu closed_stores (fun s => bool_decide (s <> StateClosed)) (ToEnd fr)
  | PRejected _ | PPanicked _ | PDone => None
  end.

(** One step of goroutine [i], at [now]. *)
Definition sys_step (i : nat) (now : time) (ch : choice) (s : system) : option system :=
  p ← s_threads s !! i;
  '(cb, mu, p') ← thread_step (s_cb s) (s_mu s) now ch p;
  Some (mkSystem cb mu now (<[i := p']> (s_threads s))).

Inductive step : system -> system -> Prop :=
| do_step i now ch s s' :
    s_now s <= now -> sys_step i now ch s = Some s' -> step s s'.

(** [n] goroutines about to call a fresh breaker. *)
Definition init (c : Config) (now : time) (n : nat) : system :=
  mkSystem (New c now) false now (replicate n PStart).

Definition reachable (c : Config) (s : system) : Prop :=
  exists now n, rtc step (init c now n) s.

(** A schedule: which goroutine moves, when, and what its user code does. *)
Fixpoint run_schedule (s : system) (sched : list (nat * time * choice)) : option system :=
  match sched with
  | [] => Some s
  | (i, now, ch) :: sched' =>
      if s_now s <=? now then s' ← sys_step i now ch s; run_schedule s' sched' else None
  end.

Lemma run_schedule_steps s sched s' : run_schedule s sched = Some s' -> rtc step s s'.
Proof.
  revert s. induction sched as [|[[i now] ch] sched IH]; intros s H; simpl in H.
  - simplify_eq. apply rtc_refl.
  - destruct (Z.leb_spec (s_now s) now); [|done].
    destruct (sys_step i now ch s) as [s1|] eqn:E; [|done].
    eapply rtc_l; [by econstructor|]. by apply IH.
Qed.

(** Loaded at one instant, the three values give the allowance of a call that
    is alone. *)
Lemma loaded_allowance_alone cb cur now :
  loaded_allowance (cfg cb) (halfOpenStrategy cb) cur (halfOpenAt cb) (consecutiveSuccesses cb) now =
  probe_allowance cb cur now.
Proof. done. Qed.

Lemma loaded_allowance_max c str cur since n now : loaded_allowance c str cur since n now <= HalfOpenMaxRequests c.
Proof. unfold loaded_allowance. case_cmp; lia. Qed.

(** ** The probe counter *)

Definition frame_of (p : pc) : option frame :=
  match p with
  | PRun b => Some (mkFrame b false 0 false)
  | PAfter fr | PRelease fr _ _ | PRecord fr _ _ | PHook fr _ _ _ _ | PCount fr
  | PLockOpen fr | PLockClosed fr | PCrit _ _ (ToEnd fr) | PPanicked fr => Some fr
  | _ => None
  end.

(** The goroutine owns a probe slot: it runs its function or has yet to
    release the slot it took. *)
Definition holds_slot (p : pc) : bool :=
  match p with
  | PRun b => b
  | PAfter fr | PRelease fr _ _ => acquired fr && (releases fr =? 0)
  | _ => false
  end.

(** A callback has panicked in the goroutine's call. *)
Definition hook_panicked (p : pc) : bool := match frame_of p with Some fr => hooked fr | None => false end.

Definition slots (ps : list pc) : Z := how_many holds_slot ps.
Definition hook_panics (ps : list pc) : Z := how_many hook_panicked ps.

(** What the call has added to the counter. *)
Definition fr_owed (fr : frame) : Z := if acquired fr then 1 - releases fr else 0.
Definition owed (p : pc) : Z := match frame_of p with Some fr => fr_owed fr | None => 0 end.

(** Slots released by a position of [afterExecute] whose own release lies
    [n] releases back. *)
Definition frame_ok (n : Z) (fr : frame) : Prop :=
  acquired fr = true -> releases fr = n \/ (releases fr = n + 1 /\ handler fr = true /\ hooked fr = true).

(** A pending compare-and-swap respects the maximum. *)
Definition pc_ok (max : Z) (p : pc) : Prop :=
  match p with
  | PCas _ cur => cur < max
  | PAfter fr | PRelease fr _ _ => frame_ok 0 fr
  | PRecord fr _ _ | PHook fr _ _ _ _ | PCount fr | PLockOpen fr | PLockClosed fr | PCrit _ _ (ToEnd fr) =>
      frame_ok 1 fr
  | PPanicked fr => frame_ok 1 fr \/ (hooked fr = true /\ (acquired fr = true -> 0 <= releases fr <= 2))
  | _ => True
  end.

Definition sys_inv (s : system) : Prop :=
  let max := HalfOpenMaxRequests (cfg (s_cb s)) in
  halfOpenInflight (s_cb s) = tally owed (s_threads s) /\
  halfOpenInflight (s_cb s) <= max /\ Forall (pc_ok max) (s_threads s).

Lemma tally_init n : tally owed (replicate n PStart) = 0.
Proof. induction n as [|n IH]; [done|]. cbn [replicate]. by rewrite tally_cons, IH. Qed.

Lemma apply_store_keeps now cb s :
  halfOpenInflight (apply_store now cb s) = halfOpenInflight cb /\ cfg (apply_store now cb s) = cfg cb.
Proof. by destruct s. Qed.

Lemma recordOutcome_keeps o now cb r cb' : recordOutcome o now cb = (r, cb') ->
  halfOpenInflight cb' = halfOpenInflight cb /\ cfg cb' = cfg cb.
Proof.
  unfold recordOutcome. intros H. destruct (win cb) as [w|w].
  - destruct (cw_record w o) as [[[f t] w']|]; by simplify_eq.
  - destruct (tw_record w o now) as [[f t] w']. by simplify_eq.
Qed.

(** What a call owes does not change when [afterExecute] ends, normally or by
    a panic. *)
Lemma finish_ok max fr : frame_ok 1 fr -> pc_ok max (finish fr) /\ owed (finish fr) = fr_owed fr.
Proof.
  unfold finish. intros H. destruct (handler fr) eqn:Eh; [by split; [left|]|]. split; [done|].
  unfold owed, fr_owed. cbn. destruct (acquired fr) eqn:Ea; [|done].
  destruct (H Ea) as [->|(_ & ? & _)]; [done|congruence].
Qed.

Lemma escape_ok max n fr : frame_ok n fr -> n = 0 \/ n = 1 -> pc_ok max (escape fr) /\ owed (escape fr) = fr_owed fr.
Proof.
  unfold escape, frame_ok. intros H Hn.
  assert (acquired fr = true -> 0 <= releases fr <= 2) as Hr by (intros Ha; destruct (H Ha) as [->|[-> _]]; lia).
  destruct (handler fr) eqn:Eh; (split; [|done]); cbn; [by right|]. unfold frame_ok; cbn.
  intros Ha. destruct (H Ha) as [->|(_ & [=] & _)]. destruct Hn as [-> | ->]; [by left|by right].
Qed.

Lemma released_owed fr : fr_owed (released fr) = fr_owed fr - (if acquired fr then 1 else 0).
Proof. unfold fr_owed, released. cbn. destruct (acquired fr); lia. Qed.

Lemma released_ok fr : frame_ok 0 fr -> frame_ok 1 (released fr).
Proof. unfold frame_ok, released. cbn. intros H Ha. rewrite Ha in *. destruct (H eq_refl) as [->|(-> & ? & ?)]; auto. Qed.

Lemma owed_near max p : pc_ok max p -> Z.abs (owed p - b2z (holds_slot p)) <= b2z (hook_panicked p).
Proof.
  assert (forall fr, frame_ok 1 fr -> Z.abs (fr_owed fr) <= b2z (hooked fr)) as Hpost.
  { unfold frame_ok, fr_owed. intros fr H. destruct (acquired fr); [|by destruct (hooked fr)].
    destruct (H eq_refl) as [->|(-> & _ & ->)]; [by destruct (hooked fr)|done]. }
  assert (forall fr, frame_ok 0 fr ->
    Z.abs (fr_owed fr - b2z (acquired fr && (releases fr =? 0))) <= b2z (hooked fr)) as Hpre.
  { unfold frame_ok, fr_owed. intros fr H. destruct (acquired fr); cbn [andb]; [|by destruct (hooked fr)].
    destruct (H eq_refl) as [->|(-> & _ & ->)]; [by destruct (hooked fr)|done]. }
  unfold owed, hook_panicked. destruct p; cbn [frame_of pc_ok holds_slot fr_owed acquired releases hooked b2z];
    intros Hok; try (rewrite Z.sub_0_r; auto; done); auto; try lia.
  - destruct k; cbn; [lia|]. rewrite Z.sub_0_r. auto.
  - by destruct probe.
  - rewrite Z.sub_0_r. destruct Hok as [Hok|[Hh Hr]]; [auto|]. unfold fr_owed. rewrite Hh.
    destruct (acquired fr); cbn; lia.
Qed.

Lemma owed_sum max ps : Forall (pc_ok max) ps -> Z.abs (tally owed ps - slots ps) <= hook_panics ps.
Proof.
  unfold slots, hook_panics. induction 1 as [|p ps Hp _ IH]; [done|].
  rewrite tally_cons, !how_many_cons. pose proof (owed_near max p Hp). lia.
Qed.

Lemma thread_step_cfg cb mu now ch p cb' mu' p' :
  thread_step cb mu now ch p = Some (cb', mu', p') -> cfg cb' = cfg cb.
Proof.
  intros H. destruct p; simpl in H; unfold lock in H; simplify_eq/=; try done;
    try (by destruct mu; simplify_eq).
  - destruct ss; simplify_eq; [done|]. apply apply_store_keeps.
  - by destruct (halfOpenInflight cb =? cur); simplify_eq.
  - by destruct (acquired fr).
  - destruct (ch_hook_panics ch); [by simplify_eq|].
    destruct (recordOutcome _ now cb) as [[[f r]|] cb1] eqn:E; simplify_eq.
    by apply recordOutcome_keeps in E as [_ ->].
Qed.

(** What one step of a goroutine does to the counter. *)
Lemma thread_step_slots cb mu now ch p cb' mu' p' :
  thread_step cb mu now ch p = Some (cb', mu', p') ->
  pc_ok (HalfOpenMaxRequests (cfg cb)) p ->
  halfOpenInflight cb <= HalfOpenMaxRequests (cfg cb) ->
  pc_ok (HalfOpenMaxRequests (cfg cb)) p' /\
  halfOpenInflight cb' = halfOpenInflight cb - owed p + owed p' /\
  halfOpenInflight cb' <= HalfOpenMaxRequests (cfg cb).
Proof.
  set (max := HalfOpenMaxRequests (cfg cb)). intros H Hok Hm.
  assert (forall n fr q, frame_ok n fr -> n = 0 \/ n = 1 -> q = escape fr ->
    pc_ok max q /\ halfOpenInflight cb = halfOpenInflight cb - fr_owed fr + owed q /\ halfOpenInflight cb <= max) as He.
  { intros n fr q Hf Hn ->. destruct (escape_ok max n fr Hf Hn) as [? ->]. split_and!; [done|lia|lia]. }
  assert (forall fr q, frame_ok 1 fr -> q = finish fr ->
    pc_ok max q /\ halfOpenInflight cb = halfOpenInflight cb - fr_owed fr + owed q /\ halfOpenInflight cb <= max) as Hf.
  { intros fr q Hfr ->. destruct (finish_ok max fr Hfr) as [? ->]. split_and!; [done|lia|lia]. }
  destruct p; simpl in H; unfold lock in H; simplify_eq/=;
    unfold owed at 1; cbn [frame_of]; try (destruct mu; [done|]; simplify_eq);
    try (split_and!; [done|cbn; unfold owed; cbn; lia|done]).
  - destruct (state cb'); split_and!; try done; unfold owed; cbn; lia.
  - destruct (_ || _); split_and!; try done; unfold owed; cbn; lia.
  - destruct ss as [|s ss]; simplify_eq.
    + destruct k as [|fr].
      * destruct (announce && _); (split_and!; [|unfold owed; cbn; lia|done]); [|done]. by left.
      * destruct (announce && _); [by eapply (He 1); auto|by apply Hf].
    + destruct (apply_store_keeps now cb s) as [-> _]. split_and!; [by destruct k| |done].
      unfold owed. destruct k; cbn; lia.
  - destruct (ch_hook_panics ch && _); [split_and!; [by left|unfold owed; cbn; lia|done]|].
    case_cmp; [split_and!; [done|unfold owed; cbn; lia|done]|]. split_and!; [|unfold owed; cbn; lia|done].
    eapply Z.lt_le_trans; [eassumption|]. apply loaded_allowance_max.
  - destruct (Z.eqb_spec (halfOpenInflight cb) cur); simplify_eq; split_and!; try done; unfold owed; cbn in *; lia.
  - split_and!; [by left|destruct probe; unfold owed, fr_owed; cbn; lia|done].
  - destruct (ch_hook_panics ch && _); [by eapply (He 0); auto|].
    split_and!; [done|unfold owed; cbn; lia|done].
  - split; [by apply released_ok|]. unfold owed; cbn [frame_of]. rewrite released_owed.
    destruct (acquired fr); cbn; lia.
  - destruct (ch_hook_panics ch); simplify_eq; [by eapply (He 1); auto|].
    destruct (recordOutcome _ now cb) as [[[f r]|] cb1] eqn:E; simplify_eq.
    apply recordOutcome_keeps in E as [-> _]. split_and!; [done|unfold owed; cbn; lia|done].
  - destruct (ch_hook_panics ch && _); [by eapply (He 1); auto|].
    destruct st; [destruct (_ && _)|destruct failed|]; try (by apply Hf);
      split_and!; try done; unfold owed; cbn; lia.
  - destruct (SuccessThreshold (cfg cb) <=? _); [split_and!; [done|unfold owed; cbn; lia|done]|by apply Hf].
Qed.

Lemma sys_inv_step s s' : sys_inv s -> step s s' -> sys_inv s'.
Proof.
  intros (Hi & Hm & Hok) Hstep. destruct Hstep as [i now ch s s' _ H]. unfold sys_step in H.
  destruct (s_threads s !! i) as [p|] eqn:Ep; [|done]. simpl in H.
  destruct (thread_step (s_cb s) (s_mu s) now ch p) as [[[cb mu] p']|] eqn:Et; [|done].
  simplify_eq/=. pose proof (Forall_lookup_1 _ _ _ _ Hok Ep) as Hp.
  destruct (thread_step_slots _ _ _ _ _ _ _ _ Et Hp Hm) as (Hp' & Einf & Hmax).
  unfold sys_inv; simpl. rewrite (thread_step_cfg _ _ _ _ _ _ _ _ Et), (tally_insert _ _ _ p) by done.
  split_and!; [lia|done|by apply Forall_insert].
Qed.

Lemma sys_inv_init c now n : 0 < HalfOpenMaxRequests (defaults c) -> sys_inv (init c now n).
Proof.
  intros Hm. unfold sys_inv, init. cbn [s_cb s_threads]. rewrite tally_init. split_and!; [done|simpl in *; lia|].
  by apply Forall_replicate.
Qed.

(** ** Mutual exclusion and the shape of the critical sections *)

Definition in_crit (p : pc) : bool := match p with PCrit _ _ _ => true | _ => false end.

Definition is_state_store (s : store) : bool := match s with StoreState _ => true | _ => false end.

(** At most the first pending store of a critical section sets the state, and
    half-open is only entered from open. *)
Definition crit_ok (st : cb_state) (p : pc) : Prop :=
  match p with
  | PCrit (s :: ss) _ _ =>
      Forall (fun x => is_state_store x = false) ss /\ (s = StoreState StateHalfOpen -> st = StateOpen)
  | _ => True
  end.

(** The mutex is released at the end of a critical section, panics included. *)
Lemma leaves_crit k : in_crit (resume k) = false /\ in_crit (unwind k) = false.
Proof. by destruct k as [|[? [] ? ?]]. Qed.

Lemma crit_ok_outside st p : in_crit p = false -> crit_ok st p.
Proof. by destruct p. Qed.

(** The mutex is held exactly by the goroutine inside its critical section. *)
Definition mu_ok (mu : bool) (ps : list pc) : Prop :=
  (forall i j p q, ps !! i = Some p -> ps !! j = Some q -> in_crit p = true -> in_crit q = true -> i = j) /\
  (mu = true <-> exists i p, ps !! i = Some p /\ in_crit p = true).

(** The window never makes a recording panic. *)
Definition win_ok (w : window) : Prop :=
  match w with CountWin w => exists h, cw_rep w h | TimeWin _ => True end.

Definition sys_inv2 (c : Config) (s : system) : Prop :=
  cfg (s_cb s) = defaults c /\ win_ok (win (s_cb s)) /\ mu_ok (s_mu s) (s_threads s) /\
  Forall (crit_ok (state (s_cb s))) (s_threads s).

Lemma stores_shape st :
  (forall ss, ss = open_stores st \/ ss = halfopen_stores st \/ ss = closed_stores st ->
   match ss with
   | s :: ss' => Forall (fun x => is_state_store x = false) ss' /\ (s = StoreState StateHalfOpen -> st = StateOpen)
   | [] => True
   end).
Proof. intros ss [-> | [-> | ->]]; destruct st; simpl; split; try done; repeat constructor. Qed.

Lemma recordOutcome_ok o now cb : win_ok (win cb) ->
  exists f r cb', recordOutcome o now cb = (Ok (f, r), cb') /\ win_ok (win cb') /\ state cb' = state cb.
Proof.
  intros Hw. unfold recordOutcome. destruct (win cb) as [w|w].
  - destruct Hw as [h Hrep]. destruct (cw_record_rep w h o Hrep) as (w' & -> & Hrep' & _).
    do 3 eexists. split; [done|]. split; [by exists (h ++ [o])|done].
  - destruct (tw_record w o now) as [[f r] w']. by do 3 eexists.
Qed.

(** A step outside critical sections leaves state and mutex alone; the others
    are an acquisition, a store or a release. *)
Lemma thread_step_crit cb mu now ch p cb' mu' p' :
  thread_step cb mu now ch p = Some (cb', mu', p') -> crit_ok (state cb) p -> win_ok (win cb) ->
  win_ok (win cb') /\ crit_ok (state cb') p' /\
  (in_crit p = false -> state cb' = state cb) /\
  (if in_crit p then (if in_crit p' then mu' = mu else mu' = false)
   else if in_crit p' then mu = false /\ mu' = true else mu' = mu) /\
  (state cb = StateClosed -> state cb' <> StateHalfOpen).
Proof.
  intros H Hok Hw.
  assert (forall fr, in_crit (finish fr) = false) as Hf by (intros fr; apply (leaves_crit (ToEnd fr))).
  assert (forall fr, in_crit (escape fr) = false) as He by (intros fr; apply (leaves_crit (ToEnd fr))).
  assert (in_crit p' = false -> mu' = mu -> win_ok (win cb') -> state cb' = state cb -> in_crit p = false ->
    win_ok (win cb') /\ crit_ok (state cb') p' /\ (in_crit p = false -> state cb' = state cb) /\
    (if in_crit p then (if in_crit p' then mu' = mu else mu' = false)
     else if in_crit p' then mu = false /\ mu' = true else mu' = mu) /\
    (state cb = StateClosed -> state cb' <> StateHalfOpen)) as Hout.
  { intros Hq Hmu Hw' Hst Hp. rewrite Hp, Hq. split_and!; [done|by apply crit_ok_outside|done|done|congruence]. }
  assert (forall stores ann k, stores = open_stores \/ stores = halfopen_stores \/ stores = closed_stores ->
    lock cb mu stores ann k = Some (cb', mu', p') ->
    win_ok (win cb') /\ crit_ok (state cb') p' /\ state cb' = state cb /\ in_crit p' = true /\ mu = false /\ mu' = true) as Hl.
  { unfold lock. intros stores ann k Hs E. destruct mu; simplify_eq. split_and!; try done.
    assert (stores (state cb') = open_stores (state cb') \/ stores (state cb') = halfopen_stores (state cb') \/
      stores (state cb') = closed_stores (state cb')) as Hs' by (destruct Hs as [-> |[-> | ->]]; auto).
    pose proof (stores_shape (state cb') _ Hs') as Hsh. cbn. by destruct (stores (state cb')). }
  destruct p; cbn [thread_step] in H;
    try (apply Hl in H as (? & ? & Es & Ec & Em & Em'); [|by auto]; cbn [in_crit]; rewrite Es, Ec;
         split_and!; (done || congruence)).
  all: try (simplify_eq; apply Hout; try done; clear Hout Hl; repeat case_match; auto; done).
  - destruct ss as [|s ss]; simplify_eq.
    + destruct (leaves_crit k) as [Hk1 Hk2]. cbn [in_crit].
      assert (in_crit (if announce && ch_hook_panics ch then unwind k else resume k) = false) as -> by (by case_match).
      split_and!; try (done || congruence). apply crit_ok_outside. by case_match.
    + cbn in Hok |- *. destruct Hok as [Hall Hho]. split_and!; try done.
      * destruct s; try done. simpl. destruct (win cb) as [w|w]; [|done]. destruct Hw as [h Hw].
        exists []. by eapply cw_reset_rep.
      * destruct ss as [|s2 ss]; [done|]. inversion Hall; subst. split; [done|]. intros ->. done.
      * intros Hc. destruct s; simpl; try congruence. intros ->. specialize (Hho eq_refl). congruence.
  - destruct (halfOpenInflight cb =? cur); simplify_eq; by apply Hout.
  - destruct (ch_hook_panics ch); [simplify_eq; by apply Hout; auto|].
    destruct (recordOutcome_ok (outcome_of failed) now cb Hw) as (f & r & cb1 & E & Hw1 & Es).
    rewrite E in H. simplify_eq. by apply Hout.
Qed.

Lemma mu_ok_insert mu mu' ps i p p' : ps !! i = Some p -> mu_ok mu ps ->
  (if in_crit p then (if in_crit p' then mu' = mu else mu' = false)
   else if in_crit p' then mu = false /\ mu' = true else mu' = mu) ->
  mu_ok mu' (<[i := p']> ps).
Proof.
  intros Hi [Hu Hm] Hp.
  assert (forall j q, <[i := p']> ps !! j = Some q -> (j = i /\ q = p') \/ (j <> i /\ ps !! j = Some q)) as Hlk.
  { intros j q Hj. apply list_lookup_insert_Some in Hj. naive_solver. }
  assert (<[i := p']> ps !! i = Some p') as Hii by (apply list_lookup_insert_eq; by eapply lookup_lt_Some).
  assert (forall j q, j <> i -> ps !! j = Some q -> <[i := p']> ps !! j = Some q) as Hother.
  { intros j q Hne Hj. by rewrite list_lookup_insert_ne. }
  assert (in_crit p = false -> in_crit p' = true -> forall j q, ps !! j = Some q -> in_crit q = false) as Hnone.
  { intros E1 E2 j q Hj. rewrite E1, E2 in Hp. destruct Hp as [-> _]. destruct (in_crit q) eqn:Eq; [|done].
    by assert (false = true) by (apply Hm; eauto). }
  split.
  - intros a b q r Ha Hb Hq Hr. apply Hlk in Ha as [[-> ->]|[Hna Ha]], Hb as [[-> ->]|[Hnb Hb]]; auto; try congruence.
    + destruct (in_crit p) eqn:Ep; [by eapply Hu|]. by rewrite (Hnone eq_refl Hq _ _ Hb) in Hr.
    + destruct (in_crit p) eqn:Ep; [by eapply Hu|]. by rewrite (Hnone eq_refl Hr _ _ Ha) in Hq.
    + by eapply Hu.
  - destruct (in_crit p') eqn:Ep'.
    + split; [eauto|]. intros _. destruct (in_crit p) eqn:Ep; [|naive_solver]. subst mu'. apply Hm. eauto.
    + split.
      * intros ->. destruct (in_crit p) eqn:Ep; [done|]. subst mu.
        destruct (proj1 Hm eq_refl) as (j & q & Hj & Hq). exists j, q. split; [|done]. apply Hother; [|done].
        congruence.
      * intros (j & q & Hj & Hq). apply Hlk in Hj as [[-> ->]|[Hne Hj]]; [congruence|].
        destruct (in_crit p) eqn:Ep; [destruct Hne; by eapply Hu|]. subst mu'. apply Hm. eauto.
Qed.

Lemma sys_inv2_step c s s' : sys_inv2 c s -> step s s' ->
  sys_inv2 c s' /\ (state (s_cb s) = StateClosed -> state (s_cb s') <> StateHalfOpen).
Proof.
  intros (Hc & Hw & Hmu & Hok) Hstep. destruct Hstep as [i now ch s s' _ H]. unfold sys_step in H.
  destruct (s_threads s !! i) as [p|] eqn:Ep; [|done]. simpl in H.
  destruct (thread_step (s_cb s) (s_mu s) now ch p) as [[[cb mu] p']|] eqn:Et; [|done].
  simplify_eq/=. pose proof (Forall_lookup_1 _ _ _ _ Hok Ep) as Hp.
  destruct (thread_step_crit _ _ _ _ _ _ _ _ Et Hp Hw) as (Hw' & Hp' & Hst & Hmu' & Hcl).
  split; [|done]. split_and!; try done.
  - cbn. rewrite <- Hc. by eapply thread_step_cfg.
  - by eapply mu_ok_insert.
  - cbn. apply Forall_lookup_2. intros j q Hj.
    apply list_lookup_insert_Some in Hj as [(<- & -> & _)|[Hne Hj]]; [done|].
    pose proof (Forall_lookup_1 _ _ _ _ Hok Hj) as Hq. destruct (in_crit p) eqn:Ecr; [|by rewrite Hst].
    destruct q; try done. destruct Hne. eapply (proj1 Hmu); eauto.
Qed.

Lemma sys_inv2_init c now n : sys_inv2 c (init c now n).
Proof.
  split_and!; [done| | |].
  - cbn. destruct (c_WindowType c); [|done]. exists []. apply cw_new_rep. unfold positive_or. case_cmp; lia.
  - cbn. split.
    + intros i j p q Hp _ Hc _. by apply lookup_replicate in Hp as [-> _].
    + split; [done|]. intros (i & p & Hp & Hc). by apply lookup_replicate in Hp as [-> _].
  - apply Forall_replicate. done.
Qed.

Lemma defaults_halfopen_pos c : 0 < HalfOpenMaxRequests (defaults c).
Proof. cbn. unfold positive_or. case_cmp; lia. Qed.

Lemma reachable_inv c s : reachable c s -> sys_inv s /\ sys_inv2 c s.
Proof.
  intros (now & n & Hr). 
  assert (sys_inv (init c now n) /\ sys_inv2 c (init c now n)) as H0.
  { split; [apply sys_inv_init, defaults_halfopen_pos|apply sys_inv2_init]. }
  revert H0. induction Hr as [s|s s1 s2 Hs _ IH]; [done|]. intros [H1 H2]. apply IH.
  split; [by eapply sys_inv_step|by apply (sys_inv2_step c s)].
Qed.

(** C1: The in-flight probe counter, under any interleaving of any number of
    calls and whatever their functions and callbacks do: [HalfOpenInflight]
    never exceeds [HalfOpenMaxRequests], and differs from the number of calls
    that hold a probe slot by at most the number of calls in which a callback
    has panicked, so it is never below minus that number.  As long as no
    callback has panicked it equals the number of calls that hold a slot and
    stays within [[0, HalfOpenMaxRequests]], panics of the protected functions
    included. *)
Theorem cb_inflight_bounded c s : reachable c s ->
  let k := halfOpenInflight (s_cb s) in
  k <= HalfOpenMaxRequests (defaults c) /\
  Z.abs (k - slots (s_threads s)) <= hook_panics (s_threads s) /\ - hook_panics (s_threads s) <= k /\
  (hook_panics (s_threads s) = 0 -> k = slots (s_threads s) /\ 0 <= k).
Proof.
  intros Hr k. destruct (reachable_inv c s Hr) as [(Hi & Hm & Hok) (Hc & _)].
  rewrite Hc in Hm. pose proof (owed_sum _ _ Hok) as Hd.
  pose proof (how_many_bounds holds_slot (s_threads s)) as Hs. fold (slots (s_threads s)) in Hs.
  split_and!; [done|lia|lia|lia].
Qed.

(** C17: Mutual exclusion and absence of deadlock: under any interleaving at
    most one goroutine is inside a critical section of [cb.mu], and as long as
    some call has neither returned nor panicked some goroutine can move. *)
Theorem cb_no_deadlock c s : reachable c s ->
  (forall i j p q, s_threads s !! i = Some p -> s_threads s !! j = Some q ->
     in_crit p = true -> in_crit q = true -> i = j) /\
  ((exists i p, s_threads s !! i = Some p /\ over p = false) -> exists s', step s s').
Proof.
  intros Hr. destruct (reachable_inv c s Hr) as [_ (_ & Hw & [Hu Hm] & _)]. split; [done|].
  intros (i & p & Hi & Hp).
  assert (exists j q, s_threads s !! j = Some q /\
    exists r, thread_step (s_cb s) (s_mu s) (s_now s) (returns false) q = Some r) as (j & q & Hj & [[[cb mu] q'] Hq]).
  { destruct (s_mu s) eqn:Emu.
    - destruct (proj1 Hm eq_refl) as (j & q & Hj & Hc). exists j, q. split; [done|].
      destruct q as [| | | |ss ann k| | | | | | | | | | | | | | |]; try done. destruct ss; by eexists.
    - exists i, p. split; [done|]. destruct p; simpl; try done; try (by eexists).
      + destruct ss; by eexists.
      + destruct (recordOutcome_ok (outcome_of failed) (s_now s) (s_cb s) Hw) as (f & r & cb' & -> & _).
        by eexists. }
  exists (mkSystem cb mu (s_now s) (<[j := q']> (s_threads s))).
  apply (do_step j (s_now s) (returns false)); [lia|]. unfold sys_step. rewrite Hj. simpl. by rewrite Hq.
Qed.

(** A closed breaker never becomes half-open: under any interleaving the
    step that leaves the closed state leads to the open state. *)
Theorem cb_closed_only_opens c s s' : reachable c s -> step s s' ->
  state (s_cb s) = StateClosed -> state (s_cb s') = StateClosed \/ state (s_cb s') = StateOpen.
Proof.
  intros Hr Hs Hc. destruct (reachable_inv c s Hr) as [_ H2].
  destruct (sys_inv2_step c s s' H2 Hs) as [_ Hne]. specialize (Hne Hc).
  destruct (state (s_cb s')); [by left|done|by right].
Qed.

(** *** Witnesses and races *)

(** One failure opens; one probe at a time; one success closes. *)
Definition race_Config (max : Z) : Config :=
  mkConfig "db" CountBased 1 1 0 0 0%float 0 Second max 1 None 0 None None None None None.

(** [k] steps of goroutine [i] at [t]. *)
Definition steps (i : nat) (t : time) (failed : bool) (k : nat) : list (nat * time * choice) :=
  replicate k (i, t, returns failed).

(** Goroutine 0 fails and opens the breaker: start, run, after, release,
    record, hook, lock, four stores, unlock. *)
Definition trip : list (nat * time * choice) := steps 0 10 true 12.

Definition race_state (sched : list (nat * time * choice)) (max : Z) (n : nat) : system :=
  default (init (race_Config max) 1 n) (run_schedule (init (race_Config max) 1 n) sched).

Lemma race_reachable sched max n s :
  run_schedule (init (race_Config max) 1 n) sched = Some s -> reachable (race_Config max) s.
Proof. intros H. exists 1, n. by eapply run_schedule_steps. Qed.

(** Goroutine 1 holds the probe slot; then the recorder panics after the slot
    was released, and the deferred handler releases it again. *)
Definition probing : list (nat * time * choice) := trip ++ steps 1 (2 * Second) false 12.
Definition released_twice : list (nat * time * choice) :=
  probing ++ steps 1 (2 * Second) false 3 ++ [(1%nat, 2 * Second, mkChoice false false true)] ++
  steps 1 (2 * Second) true 2.

Lemma cb_inflight_bounded_witness :
  let s := race_state probing 2 2 in
  let s' := race_state released_twice 2 2 in
  (halfOpenInflight (s_cb s) = 1 /\ hook_panics (s_threads s) = 0 /\
   halfOpenInflight (s_cb s) = slots (s_threads s)) /\
  (halfOpenInflight (s_cb s') = -1 /\ - hook_panics (s_threads s') <= halfOpenInflight (s_cb s')).
Proof.
  split.
  - split; [vm_compute; reflexivity|]. split; [vm_compute; reflexivity|].
    refine (proj1 (proj2 (proj2 (proj2 (cb_inflight_bounded (race_Config 2) _ _))) _)); [|vm_compute; reflexivity].
    exists 1, 2%nat. apply (run_schedule_steps _ probing). vm_compute. reflexivity.
  - split; [vm_compute; reflexivity|].
    refine (proj1 (proj2 (proj2 (cb_inflight_bounded (race_Config 2) _ _)))).
    exists 1, 2%nat. apply (run_schedule_steps _ released_twice). vm_compute. reflexivity.
Defined.

Lemma cb_no_deadlock_witness :
  let s := race_state (steps 0 10 true 7) 1 2 in
  s_mu s = true /\ exists s', step s s'.
Proof.
  split; [vm_compute; reflexivity|].
  apply (cb_no_deadlock (race_Config 1)).
  - exists 1, 2%nat. apply (run_schedule_steps _ (steps 0 10 true 7)). vm_compute. reflexivity.
  - exists 1%nat, PStart. split; [vm_compute; reflexivity|reflexivity].
Defined.

Lemma cb_closed_only_opens_witness :
  let s := race_state (steps 0 10 true 7) 1 1 in
  let s' := race_state (steps 0 10 true 8) 1 1 in
  state (s_cb s') = StateOpen /\
  (state (s_cb s') = StateClosed \/ state (s_cb s') = StateOpen).
Proof.
  split; [vm_compute; reflexivity|].
  apply (cb_closed_only_opens (race_Config 1) (race_state (steps 0 10 true 7) 1 1)).
  - exists 1, 1%nat. apply (run_schedule_steps _ (steps 0 10 true 7)). vm_compute. reflexivity.
  - apply (do_step 0 10 (returns true)); vm_compute; [discriminate|reflexivity].
  - vm_compute. reflexivity.
Defined.

(** Goroutine 1 sees the elapsed timeout and stops before taking the mutex;
    goroutine 2 becomes half-open, probes, fails and reopens the breaker. *)
Definition stale_reset : list (nat * time * choice) :=
  trip ++ steps 1 (2 * Second) false 3 ++ steps 2 (2 * Second) true 23.

(** The open timeout can be bypassed: the check that the timeout has
    elapsed is not repeated under the mutex, so a goroutine that made it before
    a failed probe reopened the breaker turns the freshly opened breaker
    half-open, here one nanosecond after it opened instead of one second. *)
Theorem cb_open_timeout_bypassed :
  exists s s', reachable (race_Config 1) s /\ rtc step s s' /\
    state (s_cb s) = StateOpen /\ openedAt (s_cb s) = s_now s /\ s_mu s = false /\
    state (s_cb s') = StateHalfOpen /\ openedAt (s_cb s') = openedAt (s_cb s) /\
    s_now s' = s_now s + 1 /\ OpenTimeout (cfg (s_cb s')) = Second.
Proof.
  exists (race_state stale_reset 1 3), (race_state (stale_reset ++ steps 1 (2 * Second + 1) false 2) 1 3).
  split; [apply (race_reachable stale_reset 1 3); vm_compute; reflexivity|].
  split; [apply (run_schedule_steps _ (steps 1 (2 * Second + 1) false 2)); vm_compute; reflexivity|].
  vm_compute. by split_and!.
Qed.

(** Two probes: goroutine 1 succeeds and stops before [transitionToClosed],
    goroutine 2 fails and reopens the breaker. *)
Definition stale_close : list (nat * time * choice) :=
  probing ++ steps 2 (2 * Second) true 5 ++
  steps 1 (2 * Second) false 6 ++ steps 2 (2 * Second) true 11 ++ steps 1 (2 * Second) false 1.

(** An open breaker can close without becoming half-open: the success of
    one probe, decided before another probe failed and reopened the breaker,
    closes it directly, a transition the state machine does not have. *)
Theorem cb_open_to_closed_reachable :
  exists s s', reachable (race_Config 2) s /\ step s s' /\
    state (s_cb s) = StateOpen /\ openedAt (s_cb s) = 2 * Second /\
    s_now s' = 2 * Second + 1 /\ state (s_cb s') = StateClosed.
Proof.
  exists (race_state stale_close 2 3), (race_state (stale_close ++ steps 1 (2 * Second + 1) false 1) 2 3).
  split; [apply (race_reachable stale_close 2 3); vm_compute; reflexivity|].
  split; [apply (do_step 1 (2 * Second + 1) (returns false)); vm_compute; [discriminate|reflexivity]|].
  vm_compute. by split_and!.
Qed.
