(* ===== verification/StoreMemory.v ===== *)
(** * The in-memory store ([ratelimit/store/memory.go], [store.go]).

    Every method is a program over the atomic actions the code performs: the
    operations of [sync.Map], the atomic key counter and the critical sections
    of an entry's mutex.  The same programs are run to completion (one caller)
    and interleaved (any number of callers).  Entries are objects: the map
    holds pointers, an entry may be updated in place. *)

From stdpp Require Import relations sorting.
From S2P Require Import Prelude Strconv.
Open Scope Z_scope.

Record entry := mkEntry { value : string; expiresAt : time }.

Definition isExpired (e : entry) (now : time) : bool :=
  negb (IsZero (expiresAt e)) && After now (expiresAt e).

Definition ttlToTime (now : time) (ttl : duration) : time :=
  if ttl <=? 0 then zero_time else time_add now ttl.

Inductive store_error :=
| ErrNotFound
| ErrMaxKeys (max : Z)
| ErrStoreFull
| ErrNotInteger (key value : string)
| ErrOverflow (key : string) (delta : Z)
| ErrScript (msg : string).

#[export] Instance store_error_eq_dec : EqDecision store_error.
Proof. solve_decision. Defined.

(** What a method returns beside its error. *)
Inductive reply := RUnit | RStr (s : string) | RBool (b : bool) | RInt (z : Z) | RList (zs : list Z).

#[export] Instance reply_eq_dec : EqDecision reply.
Proof. solve_decision. Defined.

Record Memory := mkMemory {
  heap : list entry;
  entries : gmap string nat;
  keyCount : Z;
  maxKeys : Z;
}.

Definition NewMemory (max : Z) : Memory := mkMemory [] ∅ 0 max.

(** ** Atomic actions *)

Inductive act : Type -> Type :=
| Load (k : string) : act (option nat)
| Swap (k : string) (e : entry) : act bool                 (* was a value replaced? *)
| LoadOrStore (k : string) (e : entry) : act (nat * bool)  (* the entry, was it there? *)
| CompareAndDelete (k : string) (l : nat) : act bool
| LoadAndDelete (k : string) : act bool
| MapDelete (k : string) : act unit
| AddCount (z : Z) : act Z                                 (* the new count *)
| Locked {A} (l : nat) (f : entry -> entry * A) : act A    (* under e.mu *)
| Locked2 {A} (l : nat) (lp : option nat) (f : entry -> option entry -> entry * A) : act A.
                                                           (* under both mutexes *)

Definition deref (m : Memory) (l : nat) : entry := default (mkEntry "" zero_time) (heap m !! l).

Definition with_entries (m : Memory) (es : gmap string nat) : Memory :=
  mkMemory (heap m) es (keyCount m) (maxKeys m).

(** Publish a new entry object. *)
Definition publish (m : Memory) (k : string) (e : entry) : Memory :=
  mkMemory (heap m ++ [e]) (<[k := length (heap m)]> (entries m)) (keyCount m) (maxKeys m).

Definition exec_act {B} (a : act B) (m : Memory) : B * Memory :=
  match a with
  | Load k => (entries m !! k, m)
  | Swap k e => (bool_decide (is_Some (entries m !! k)), publish m k e)
  | LoadOrStore k e =>
      match entries m !! k with
      | Some l => ((l, true), m)
      | None => ((length (heap m), false), publish m k e)
      end
  | CompareAndDelete k l =>
      if bool_decide (entries m !! k = Some l) then (true, with_entries m (delete k (entries m))) else (false, m)
  | LoadAndDelete k =>
      (bool_decide (is_Some (entries m !! k)), with_entries m (delete k (entries m)))
  | MapDelete k => (tt, with_entries m (delete k (entries m)))
  | AddCount z => (keyCount m + z, mkMemory (heap m) (entries m) (keyCount m + z) (maxKeys m))
  | Locked l f =>
      let '(e, b) := f (deref m l) in
      (b, mkMemory (<[l := e]> (heap m)) (entries m) (keyCount m) (maxKeys m))
  | Locked2 l lp f =>
      let '(e, b) := f (deref m l) (deref m <$> lp) in
      (b, mkMemory (<[l := e]> (heap m)) (entries m) (keyCount m) (maxKeys m))
  end.

(** ** Programs *)

Inductive prog : Type :=
| Ret (r : store_error + reply)
| Act {B} (a : act B) (k : B -> prog).

Fixpoint run (p : prog) (m : Memory) : (store_error + reply) * Memory :=
  match p with
  | Ret r => (r, m)
  | Act a k => let '(b, m') := exec_act a m in run (k b) m'
  end.

Notation "x <-- a ;; p" := (Act a (fun x => p)) (at level 100, a at next level, right associativity).

(** *** The methods; [max] is the store's [maxKeys]. *)

Definition removeEntry (max : Z) (key : string) (e : option nat) (p : prog) : prog :=
  let after (removed : bool) :=
    if removed && (0 <? max) then (_ <-- AddCount (-1) ;; p) else p in
  match e with
  | Some l => removed <-- CompareAndDelete key l ;; after removed
  | None => removed <-- LoadAndDelete key ;; after removed
  end.

Definition reserveSlot (max : Z) (fail : store_error -> prog) (p : prog) : prog :=
  if max <=? 0 then p
  else c <-- AddCount 1 ;;
       if max <? c then (_ <-- AddCount (-1) ;; fail (ErrMaxKeys max)) else p.

Definition reject (e : store_error) : prog := Ret (inl e).

Definition Get (max : Z) (key : string) (now : time) : prog :=
  v <-- Load key ;;
  match v with
  | None => reject ErrNotFound
  | Some l =>
      r <-- Locked l (fun e => (e, (isExpired e now, value e))) ;;
      if fst r then removeEntry max key (Some l) (reject ErrNotFound) else Ret (inr (RStr (snd r)))
  end.

Definition Set_ (max : Z) (key value : string) (ttl : duration) (now : time) : prog :=
  let e := mkEntry value (if 0 <? ttl then time_add now ttl else zero_time) in
  if max <=? 0 then (_ <-- Swap key e ;; Ret (inr RUnit))
  else
    reserveSlot max reject
      (loaded <-- Swap key e ;;
       if loaded then (_ <-- AddCount (-1) ;; Ret (inr RUnit)) else Ret (inr RUnit)).

(** The common prefix of [SetNX], [GetSet] and [IncrBy]: reserve a slot if the
    key looks absent, then [LoadOrStore]. *)
Definition create_or_load (max : Z) (key : string) (e : entry) (created : prog) (existing : nat -> prog) : prog :=
  let publish_it (reserved : bool) :=
    r <-- LoadOrStore key e ;;
    if snd r : bool then
      if reserved then (_ <-- AddCount (-1) ;; existing (fst r)) else existing (fst r)
    else if (0 <? max) && negb reserved
    then reserveSlot max (fun err => _ <-- MapDelete key ;; reject err) created
    else created in
  if 0 <? max then
    v <-- Load key ;;
    match v with
    | None => reserveSlot max reject (publish_it true)
    | Some _ => publish_it false
    end
  else publish_it false.

Definition SetNX (max : Z) (key value : string) (ttl : duration) (now : time) : prog :=
  create_or_load max key (mkEntry value (if 0 <? ttl then time_add now ttl else zero_time))
    (Ret (inr (RBool true)))
    (fun l =>
       set <-- Locked l (fun e =>
         if isExpired e now
         then (mkEntry value (if 0 <? ttl then time_add now ttl else zero_time), true)
         else (e, false)) ;;
       Ret (inr (RBool set))).

Definition GetSet (max : Z) (key val : string) (ttl : duration) (now : time) : prog :=
  create_or_load max key (mkEntry val (if 0 <? ttl then time_add now ttl else zero_time))
    (Ret (inr (RStr "")))
    (fun l =>
       old <-- Locked l (fun e =>
         (mkEntry val (if 0 <? ttl then time_add now ttl else zero_time),
          if isExpired e now then "" else value e)) ;;
       Ret (inr (RStr old))).

(** The critical section of [IncrBy]. *)
Definition incr_entry (key : string) (delta : Z) (ttl : duration) (now : time) (e : entry)
  : entry * (store_error + reply) :=
  if isExpired e now then (mkEntry (FormatInt delta) (ttlToTime now ttl), inr (RInt delta))
  else
    match ParseInt (value e) with
    | None => (e, inl (ErrNotInteger key (value e)))
    | Some current =>
        if ((0 <? delta) && (max_int64 -w delta <? current)) ||
           ((delta <? 0) && (current <? min_int64 -w delta))
        then (e, inl (ErrOverflow key delta))
        else (mkEntry (FormatInt (current +w delta)) (expiresAt e), inr (RInt (current +w delta)))
    end.

Definition IncrBy (max : Z) (key : string) (delta : Z) (ttl : duration) (now : time) : prog :=
  create_or_load max key (mkEntry (FormatInt delta) (ttlToTime now ttl))
    (Ret (inr (RInt delta)))
    (fun l => r <-- Locked l (incr_entry key delta ttl now) ;; Ret r).

Fixpoint Del (max : Z) (keys : list string) : prog :=
  match keys with
  | [] => Ret (inr RUnit)
  | k :: ks => removeEntry max k None (Del max ks)
  end.

(** One pass of [cleanup] over the keys [Range] visits, at the tick [now]. *)
Fixpoint cleanup (max : Z) (visited : list string) (now : time) : prog :=
  match visited with
  | [] => Ret (inr RUnit)
  | k :: ks =>
      v <-- Load k ;;
      match v with
      | None => cleanup max ks now
      | Some l =>
          expired <-- Locked l (fun e => (e, isExpired e now)) ;;
          if expired then removeEntry max k (Some l) (cleanup max ks now) else cleanup max ks now
      end
  end.

(** ** The map of entries a caller sees *)

Definition wf (m : Memory) : Prop :=
  (forall k l, entries m !! k = Some l -> (l < length (heap m))%nat) /\
  (forall k1 k2 l, entries m !! k1 = Some l -> entries m !! k2 = Some l -> k1 = k2).

Definition view (m : Memory) (k : string) : option entry := l ← entries m !! k; heap m !! l.

Definition live_at (oe : option entry) (now : time) : option entry :=
  e ← oe; if isExpired e now then None else Some e.

Lemma isExpired_mono e t t' : t <= t' -> isExpired e t = true -> isExpired e t' = true.
Proof.
  unfold isExpired, After. intros Ht [-> H]%andb_true_iff. apply Z.ltb_lt in H. simpl.
  apply Z.ltb_lt. lia.
Qed.

Lemma view_lookup m k l : wf m -> entries m !! k = Some l -> view m k = Some (deref m l).
Proof.
  intros [Hl _] E. unfold view, deref. rewrite E. simpl.
  destruct (lookup_lt_is_Some_2 (heap m) l (Hl k l E)) as [e ->]. done.
Qed.

Lemma view_None m k : entries m !! k = None -> view m k = None.
Proof. intros E. unfold view. by rewrite E. Qed.

Lemma publish_wf m k e : wf m -> wf (publish m k e).
Proof.
  intros [Hl Hi]. split; cbn.
  - intros k' l. rewrite length_app. destruct (decide (k = k')) as [<-|Hk].
    + rewrite lookup_insert_eq. intros [= <-]. simpl. lia.
    + rewrite lookup_insert_ne by done. intros H%Hl. simpl. lia.
  - intros k1 k2 l. rewrite !lookup_insert_Some. intros [[<- <-]|[H1 H1']] [[<- H2]|[H2 H2']]; try done.
    + apply Hl in H2'. lia.
    + subst. apply Hl in H1'. lia.
    + by apply (Hi k1 k2 l).
Qed.

Lemma view_publish m k e k' : wf m ->
  view (publish m k e) k' = if decide (k = k') then Some e else view m k'.
Proof.
  intros [Hl _]. unfold view, publish. cbn. destruct (decide (k = k')) as [<-|Hk].
  - rewrite lookup_insert_eq. simpl. by rewrite lookup_app_r, Nat.sub_diag by lia.
  - rewrite lookup_insert_ne by done. destruct (entries m !! k') as [l|] eqn:E; [|done]. simpl.
    apply lookup_app_l. eauto.
Qed.

Lemma delete_wf m k : wf m -> wf (with_entries m (delete k (entries m))).
Proof.
  intros [Hl Hi]. split; cbn.
  - intros k' l [_ H]%lookup_delete_Some. eauto.
  - intros k1 k2 l [_ H1]%lookup_delete_Some [_ H2]%lookup_delete_Some. eauto.
Qed.

Lemma view_delete m k k' :
  view (with_entries m (delete k (entries m))) k' = if decide (k = k') then None else view m k'.
Proof.
  unfold view. cbn. destruct (decide (k = k')) as [<-|Hk].
  - by rewrite lookup_delete_eq.
  - by rewrite lookup_delete_ne.
Qed.

Definition write (m : Memory) (l : nat) (e : entry) : Memory :=
  mkMemory (<[l := e]> (heap m)) (entries m) (keyCount m) (maxKeys m).

Lemma write_wf m l e : wf m -> wf (write m l e).
Proof. intros [Hl Hi]. split; cbn; [|done]. intros k l'. rewrite length_insert. apply Hl. Qed.

Lemma view_write m k l e k' : wf m -> entries m !! k = Some l ->
  view (write m l e) k' = if decide (k = k') then Some e else view m k'.
Proof.
  intros [Hl Hi] E. unfold view. cbn. destruct (decide (k = k')) as [<-|Hk].
  - rewrite E. simpl. rewrite list_lookup_insert_eq by eauto. done.
  - destruct (entries m !! k') as [l'|] eqn:E'; [|done]. simpl.
    apply list_lookup_insert_ne. intros <-. apply Hk. eauto.
Qed.

Lemma write_deref m l : write m l (deref m l) = m.
Proof.
  unfold write, deref. destruct m as [h es c mx]. cbn. f_equal.
  destruct (h !! l) as [e|] eqn:E; cbn; [by apply list_insert_id|].
  apply list_insert_ge. by apply lookup_ge_None.
Qed.

(** ** The specification: a map with expiry times *)

Inductive store_op :=
| SGet (key : string)
| SSet (key value : string) (ttl : duration)
| SSetNX (key value : string) (ttl : duration)
| SGetSet (key value : string) (ttl : duration)
| SIncrBy (key : string) (delta : Z) (ttl : duration)
| SDel (keys : list string)
| SCleanup (visited : list string).

Definition op_prog (max : Z) (o : store_op) (now : time) : prog :=
  match o with
  | SGet k => Get max k now
  | SSet k v ttl => Set_ max k v ttl now
  | SSetNX k v ttl => SetNX max k v ttl now
  | SGetSet k v ttl => GetSet max k v ttl now
  | SIncrBy k d ttl => IncrBy max k d ttl now
  | SDel ks => Del max ks
  | SCleanup ks => cleanup max ks now
  end.

Notation ttl_map := (gmap string entry).

Definition fits (z : Z) : bool := (min_int64 <=? z) && (z <=? max_int64).

Definition spec_op (s : ttl_map) (o : store_op) (now : time) : (store_error + reply) * ttl_map :=
  match o with
  | SGet k => (match live_at (s !! k) now with Some e => inr (RStr (value e)) | None => inl ErrNotFound end, s)
  | SSet k v ttl => (inr RUnit, <[k := mkEntry v (ttlToTime now ttl)]> s)
  | SSetNX k v ttl =>
      match live_at (s !! k) now with
      | Some _ => (inr (RBool false), s)
      | None => (inr (RBool true), <[k := mkEntry v (ttlToTime now ttl)]> s)
      end
  | SGetSet k v ttl =>
      (inr (RStr (match live_at (s !! k) now with Some e => value e | None => "" end)),
       <[k := mkEntry v (ttlToTime now ttl)]> s)
  | SIncrBy k d ttl =>
      match live_at (s !! k) now with
      | None => (inr (RInt d), <[k := mkEntry (FormatInt d) (ttlToTime now ttl)]> s)
      | Some e =>
          match ParseInt (value e) with
          | None => (inl (ErrNotInteger k (value e)), s)
          | Some z =>
              if fits (z + d) then (inr (RInt (z + d)), <[k := mkEntry (FormatInt (z + d)) (expiresAt e)]> s)
              else (inl (ErrOverflow k d), s)
          end
      end
  | SDel ks => (inr RUnit, foldr delete s ks)
  | SCleanup _ => (inr RUnit, s)
  end.

(** The store and the map agree on what is alive, now and later. *)
Definition sim (T : time) (m : Memory) (s : ttl_map) : Prop :=
  wf m /\ forall k now, T <= now -> live_at (view m k) now = live_at (s !! k) now.

Lemma sim_later T T' m s : T <= T' -> sim T m s -> sim T' m s.
Proof. intros HT [Hw H]. split; [done|]. intros k now Hn. apply H. lia. Qed.

Lemma ttl_expr now ttl : (if 0 <? ttl then time_add now ttl else zero_time) = ttlToTime now ttl.
Proof. unfold ttlToTime. destruct (Z.ltb_spec 0 ttl), (Z.leb_spec ttl 0); try done; lia. Qed.

(** Both sides set the same entry. *)
Lemma sim_set T m m' s k e : sim T m s -> wf m' ->
  (forall k', view m' k' = if decide (k = k') then Some e else view m k') ->
  sim T m' (<[k := e]> s).
Proof.
  intros [_ H] Hw' Hv. split; [done|]. intros k' now Hn. rewrite Hv. destruct (decide (k = k')) as [<-|Hk].
  - by rewrite lookup_insert_eq.
  - rewrite lookup_insert_ne by done. by apply H.
Qed.

(** Dropping what has expired changes nothing. *)
Lemma sim_drop T m s k l : sim T m s -> entries m !! k = Some l -> isExpired (deref m l) T = true ->
  sim T (with_entries m (delete k (entries m))) s.
Proof.
  intros [Hw H] E Hx. split; [by apply delete_wf|]. intros k' now Hn. rewrite view_delete, <- H by done.
  destruct (decide (k = k')) as [<-|Hk]; [|done].
  rewrite (view_lookup m k l Hw E). simpl. by rewrite (isExpired_mono _ T now Hn Hx).
Qed.

Section unlimited.
Context (max : Z) (Hmax : max <= 0).

Lemma max_leb : (max <=? 0) = true. Proof. by apply Z.leb_le. Qed.
Lemma max_ltb : (0 <? max) = false. Proof. by apply Z.ltb_ge. Qed.

(** What an operation has to do: reply as the specification and stay in step. *)
Definition op_sim (T : time) (o : store_op) (m : Memory) (s : ttl_map) : Prop :=
  fst (run (op_prog max o T) m) = fst (spec_op s o T) /\
  sim T (snd (run (op_prog max o T) m)) (snd (spec_op s o T)).

Lemma run_removeEntry_Some key l p m : entries m !! key = Some l ->
  run (removeEntry max key (Some l) p) m = run p (with_entries m (delete key (entries m))).
Proof.
  intros E. unfold removeEntry. rewrite max_ltb. cbn [run exec_act].
  rewrite bool_decide_true by done. by cbn.
Qed.

Lemma run_removeEntry_None key p m :
  run (removeEntry max key None p) m = run p (with_entries m (delete key (entries m))).
Proof. unfold removeEntry. rewrite max_ltb. cbn [run exec_act]. by rewrite andb_false_r. Qed.

Lemma run_Locked {A} l (f : entry -> entry * A) k m :
  run (Act (Locked l f) k) m = run (k (snd (f (deref m l)))) (write m l (fst (f (deref m l)))).
Proof. cbn [run exec_act]. by destruct (f (deref m l)). Qed.

Lemma run_create key e created existing m :
  run (create_or_load max key e created existing) m =
  match entries m !! key with
  | Some l => run (existing l) m
  | None => run created (publish m key e)
  end.
Proof.
  unfold create_or_load. rewrite max_ltb. cbn [run exec_act].
  by destruct (entries m !! key).
Qed.

(** What the store holds for a key the caller's operation finds at [l]. *)
Lemma sim_live T m s k l : sim T m s -> entries m !! k = Some l ->
  live_at (s !! k) T = if isExpired (deref m l) T then None else Some (deref m l).
Proof. intros [Hw H] E. rewrite <- H by lia. by rewrite (view_lookup m k l). Qed.

Lemma sim_absent T m s k : sim T m s -> entries m !! k = None -> live_at (s !! k) T = None.
Proof. intros [Hw H] E. rewrite <- H by lia. by rewrite view_None. Qed.

Lemma sim_publish T m s k e : sim T m s -> sim T (publish m k e) (<[k := e]> s).
Proof.
  intros H. eapply sim_set; [done|apply publish_wf, H|]. intros k'. apply view_publish, H.
Qed.

Lemma sim_write T m s k l e : sim T m s -> entries m !! k = Some l -> sim T (write m l e) (<[k := e]> s).
Proof.
  intros H E. eapply sim_set; [done|apply write_wf, H|]. intros k'. apply view_write; [apply H|done].
Qed.

Lemma Get_sim T k m s : sim T m s -> op_sim T (SGet k) m s.
Proof.
  intros H. unfold op_sim. cbn [op_prog spec_op]. unfold Get. cbn [run exec_act].
  destruct (entries m !! k) as [l|] eqn:E.
  - rewrite run_Locked, (sim_live T m s k l H E). cbn [fst snd]. rewrite write_deref.
    destruct (isExpired (deref m l) T) eqn:Ex; [|done].
    rewrite run_removeEntry_Some by done. split; [done|]. by eapply sim_drop.
  - by rewrite (sim_absent T m s k H E).
Qed.

Lemma Set_sim T k v ttl m s : sim T m s -> op_sim T (SSet k v ttl) m s.
Proof.
  intros H. unfold op_sim. cbn [op_prog spec_op]. unfold Set_. rewrite max_leb. cbn [run exec_act fst snd].
  rewrite ttl_expr. split; [done|]. by apply sim_publish.
Qed.

Lemma SetNX_sim T k v ttl m s : sim T m s -> op_sim T (SSetNX k v ttl) m s.
Proof.
  intros H. unfold op_sim. cbn [op_prog spec_op]. unfold SetNX. rewrite run_create, ttl_expr.
  destruct (entries m !! k) as [l|] eqn:E.
  - rewrite run_Locked, (sim_live T m s k l H E). destruct (isExpired (deref m l) T); cbn [fst snd run].
    + split; [done|]. by apply sim_write.
    + by rewrite write_deref.
  - rewrite (sim_absent T m s k H E). split; [done|]. by apply sim_publish.
Qed.

Lemma GetSet_sim T k v ttl m s : sim T m s -> op_sim T (SGetSet k v ttl) m s.
Proof.
  intros H. unfold op_sim. cbn [op_prog spec_op fst snd]. unfold GetSet. rewrite run_create, ttl_expr.
  destruct (entries m !! k) as [l|] eqn:E.
  - rewrite run_Locked, (sim_live T m s k l H E). cbn [fst snd run].
    split; [by destruct (isExpired _ _)|]. by apply sim_write.
  - rewrite (sim_absent T m s k H E). split; [done|]. by apply sim_publish.
Qed.

(** The overflow test of [IncrBy] is exact. *)
Lemma incr_overflow_exact d z : in64 d -> in64 z ->
  ((0 <? d) && (max_int64 -w d <? z)) || ((d <? 0) && (z <? min_int64 -w d)) = negb (fits (z + d)).
Proof.
  unfold in64. intros Hd Hz. unfold fits.
  destruct (Z.ltb_spec 0 d), (Z.ltb_spec d 0); cbn [andb orb]; try lia.
  - rewrite wrap64_small by go_lia. destruct (Z.ltb_spec (max_int64 - d) z), (Z.leb_spec min_int64 (z + d)),
      (Z.leb_spec (z + d) max_int64); cbn; try done; go_lia.
  - rewrite wrap64_small by go_lia. destruct (Z.ltb_spec z (min_int64 - d)), (Z.leb_spec min_int64 (z + d)),
      (Z.leb_spec (z + d) max_int64); cbn; try done; go_lia.
Qed.

Lemma ParseInt_in64 s z : ParseInt s = Some z -> in64 z.
Proof.
  unfold ParseInt. intros H. apply bind_Some in H as (x & _ & H).
  destruct (Z.leb_spec min_int64 x), (Z.leb_spec x max_int64); simplify_eq/=. split; lia.
Qed.

Lemma IncrBy_sim T k d ttl m s : in64 d -> sim T m s -> op_sim T (SIncrBy k d ttl) m s.
Proof.
  intros Hd H. unfold op_sim. cbn [op_prog spec_op]. unfold IncrBy. rewrite run_create.
  destruct (entries m !! k) as [l|] eqn:E.
  2: { rewrite (sim_absent T m s k H E). split; [done|]. by apply sim_publish. }
  rewrite run_Locked, (sim_live T m s k l H E). unfold incr_entry.
  destruct (isExpired (deref m l) T); cbn [fst snd run].
  - split; [done|]. by apply sim_write.
  - destruct (ParseInt (value (deref m l))) as [z|] eqn:Ez; cbn [fst snd]; [|by rewrite write_deref].
    pose proof (ParseInt_in64 _ _ Ez) as Hz. rewrite incr_overflow_exact by done.
    destruct (fits (z + d)) eqn:Ef; cbn [negb fst snd]; [|by rewrite write_deref].
    assert (z +w d = z + d) as ->.
    { apply wrap64_small. unfold fits in Ef. apply andb_true_iff in Ef as [?%Z.leb_le ?%Z.leb_le]. go_lia. }
    split; [done|]. by apply sim_write.
Qed.

Lemma Del_sim T ks m s : sim T m s -> op_sim T (SDel ks) m s.
Proof.
  unfold op_sim. cbn [op_prog spec_op fst snd]. revert m s. induction ks as [|k ks IH]; intros m s H; [done|].
  cbn [Del foldr]. rewrite run_removeEntry_None.
  assert (sim T (with_entries m (delete k (entries m))) (delete k s)) as H'.
  { split; [apply delete_wf, H|]. intros k' now Hn. rewrite view_delete.
    destruct (decide (k = k')) as [<-|Hk]; [by rewrite lookup_delete_eq|].
    rewrite lookup_delete_ne by done. by apply H. }
  replace (delete k (foldr delete s ks)) with (foldr delete (delete k s) ks); [by apply IH|].
  clear. induction ks as [|k' ks IH]; [done|]. cbn. by rewrite IH, delete_delete.
Qed.

Lemma cleanup_sim T ks m s : sim T m s -> op_sim T (SCleanup ks) m s.
Proof.
  unfold op_sim. cbn [op_prog spec_op fst snd]. revert m. induction ks as [|k ks IH]; intros m H; [done|].
  cbn [cleanup run exec_act]. destruct (entries m !! k) as [l|] eqn:E; [|by apply IH].
  rewrite run_Locked. cbn [fst snd]. rewrite write_deref. destruct (isExpired (deref m l) T) eqn:Ex.
  - rewrite run_removeEntry_Some by done. apply IH. by eapply sim_drop.
  - by apply IH.
Qed.

Lemma op_sim_all T o m s : (forall k d ttl, o = SIncrBy k d ttl -> in64 d) -> sim T m s -> op_sim T o m s.
Proof.
  intros Hd H. destruct o; [by apply Get_sim|by apply Set_sim|by apply SetNX_sim|by apply GetSet_sim|
    apply IncrBy_sim; [by eapply Hd|done]|by apply Del_sim|by apply cleanup_sim].
Qed.
End unlimited.

(** ** Histories of one caller *)

Fixpoint run_ops (max : Z) (m : Memory) (ops : list (time * store_op)) : list (store_error + reply) * Memory :=
  match ops with
  | [] => ([], m)
  | (now, o) :: ops' =>
      let '(r, m1) := run (op_prog max o now) m in
      let '(rs, m2) := run_ops max m1 ops' in (r :: rs, m2)
  end.

Fixpoint spec_ops (s : ttl_map) (ops : list (time * store_op)) : list (store_error + reply) :=
  match ops with
  | [] => []
  | (now, o) :: ops' => let '(r, s1) := spec_op s o now in r :: spec_ops s1 ops'
  end.

Definition incr_in64 (o : store_op) : Prop :=
  match o with SIncrBy _ d _ => in64 d | _ => True end.

(** The clock does not go back. *)
Definition ordered (ops : list (time * store_op)) : Prop := StronglySorted Z.le (map fst ops).

Lemma run_ops_sim max m s T ops : max <= 0 -> sim T m s -> Forall (Z.le T) (map fst ops) -> ordered ops ->
  Forall (fun o => incr_in64 (snd o)) ops ->
  fst (run_ops max m ops) = spec_ops s ops.
Proof.
  intros Hmax. unfold ordered. revert m s T. induction ops as [|[now o] ops IH]; intros m s T H HT Ho Hi; [done|].
  inversion Ho as [|?? Ho' Hnow]; inversion Hi as [|?? Ho1 Hi']; inversion HT as [|?? HTn _]; subst. cbn in HTn.
  apply (sim_later T now m s HTn) in H. cbn [run_ops spec_ops].
  destruct (op_sim_all max Hmax now o m s) as [Hr Hs]; [|done|].
  { intros k d ttl ->. done. }
  destruct (run (op_prog max o now) m) as [r m1], (spec_op s o now) as [r' s1]. cbn [fst snd] in *. subst r'.
  specialize (IH m1 s1 now Hs Hnow Ho' Hi'). destruct (run_ops max m1 ops) as [rs m2]. cbn in *. by rewrite IH.
Qed.

Lemma NewMemory_sim T max : sim T (NewMemory max) ∅.
Proof. split; [split|]; intros *; cbn; by rewrite ?lookup_empty. Qed.

(** C15: Without a key limit the store is a map with expiry: along any history
    of [Get], [Set], [SetNX], [GetSet], [IncrBy], [Del] and cleanup passes (over
    whatever keys they visit) whose clock does not go back, every reply, errors
    included, is that of the specification, in which expired entries do not
    exist, cleanup does nothing, [IncrBy] keeps the expiry and fails exactly
    when the sum leaves int64. *)
Theorem memory_refines_ttl_map max ops :
  max <= 0 -> ordered ops -> Forall (fun o => incr_in64 (snd o)) ops ->
  fst (run_ops max (NewMemory max) ops) = spec_ops ∅ ops.
Proof.
  intros Hmax Ho Hi. destruct ops as [|[t0 o] ops]; [done|].
  apply (run_ops_sim max _ _ t0); [done|apply NewMemory_sim| |done|done].
  inversion Ho; subst. constructor; [cbn; lia|done].
Qed.

Definition demo_store_ops : list (time * store_op) :=
  [(0, SIncrBy "c" 5 10); (3, SIncrBy "c" 2 100); (5, SSetNX "c" "x" 0); (11, SGet "c"); (11, SSetNX "c" "y" 7);
   (12, SIncrBy "c" 1 0); (18, SGetSet "c" "z" 0); (19, SCleanup ["c"]); (20, SGet "c"); (21, SDel ["c"]); (22, SGet "c")].

Lemma memory_refines_ttl_map_witness :
  fst (run_ops 0 (NewMemory 0) demo_store_ops) =
  [inr (RInt 5); inr (RInt 7); inr (RBool false); inl ErrNotFound; inr (RBool true);
   inl (ErrNotInteger "c" "y"); inr (RStr "y"); inr RUnit; inr (RStr "z"); inr RUnit; inl ErrNotFound].
Proof.
  rewrite (memory_refines_ttl_map 0 demo_store_ops); [reflexivity|lia| |].
  - unfold ordered, demo_store_ops. cbn. repeat constructor; lia.
  - repeat constructor; unfold in64, min_int64, max_int64; cbn; lia.
Defined.

(** A full store refuses to overwrite: with as many keys as [maxKeys], [Set] of a
    key that is already stored fails, although it needs no new slot. *)
Theorem set_existing_key_fails_when_full :
  fst (run_ops 1 (NewMemory 1) [(0, SSet "a" "1" 0); (1, SSet "a" "2" 0); (2, SGet "a")]) =
  [inr RUnit; inl (ErrMaxKeys 1); inr (RStr "1")].
Proof. reflexivity. Qed.

(** ** Concurrent callers *)

Record system := mkSystem { s_mem : Memory; s_progs : list prog }.

(** Caller [i] performs its next action. *)
Definition sys_step (i : nat) (s : system) : option system :=
  match s_progs s !! i with
  | Some (Act a k) =>
      let '(b, m') := exec_act a (s_mem s) in Some (mkSystem m' (<[i := k b]> (s_progs s)))
  | _ => None
  end.

Inductive step : system -> system -> Prop :=
| do_step i s s' : sys_step i s = Some s' -> step s s'.

Definition reachable (max : Z) (ps : list prog) (s : system) : Prop :=
  rtc step (mkSystem (NewMemory max) ps) s.

Fixpoint run_schedule (s : system) (sched : list nat) : option system :=
  match sched with
  | [] => Some s
  | i :: sched' => s' ← sys_step i s; run_schedule s' sched'
  end.

Lemma run_schedule_rtc s sched s' : run_schedule s sched = Some s' -> rtc step s s'.
Proof.
  revert s. induction sched as [|i sched IH]; cbn; intros s H; [by simplify_eq|].
  destruct (sys_step i s) as [s1|] eqn:E; [|done]. eapply rtc_l; [by econstructor|by apply IH].
Qed.

(** The accounting discipline.  A program at balance [b] has counted [b] more
    keys than it has put into the map; [g] of them were granted by a successful
    reservation.  A new key may only be published against a granted slot. *)
Fixpoint disciplined (max b g : Z) (p : prog) : Prop :=
  match p with
  | Ret _ => b = 0 /\ g = 0
  | Act a k =>
      match a in act B return (B -> prog) -> Prop with
      | Load _ => fun k => forall v, disciplined max b g (k v)
      | Locked _ _ => fun k => forall v, disciplined max b g (k v)
      | Locked2 _ _ _ => fun k => forall v, disciplined max b g (k v)
      | Swap _ _ => fun k =>
          1 <= g /\ disciplined max b g (k true) /\ disciplined max (b - 1) (g - 1) (k false)
      | CompareAndDelete _ _ => fun k =>
          disciplined max b g (k false) /\ disciplined max (b + 1) g (k true)
      | LoadAndDelete _ => fun k =>
          disciplined max b g (k false) /\ disciplined max (b + 1) g (k true)
      | AddCount z => fun k =>
          (z = 1 /\ (forall c, c <= max -> disciplined max (b + 1) (g + 1) (k c)) /\
                    (forall c, max < c -> disciplined max (b + 1) g (k c))) \/
          (z = -1 /\ 1 <= b /\ forall c, disciplined max (b - 1) (Z.min g (b - 1)) (k c))
      | LoadOrStore _ _ => fun k =>
          1 <= g /\ (forall l, disciplined max b g (k (l, true))) /\
          (forall l, disciplined max (b - 1) (g - 1) (k (l, false)))
      | MapDelete _ => fun _ => False
      end k
  end.

Definition bal_ok (max : Z) (p : prog) (bg : Z * Z) : Prop :=
  0 <= snd bg <= fst bg /\ disciplined max (fst bg) (snd bg) p.

Definition nkeys (m : Memory) : Z := Z.of_nat (size (entries m)).

Definition acct (max : Z) (m : Memory) (sb sg : Z) : Prop :=
  keyCount m = nkeys m + sb /\ nkeys m + sg <= max.

Definition cap_inv (max : Z) (s : system) : Prop :=
  exists bgs, Forall2 (bal_ok max) (s_progs s) bgs /\
    acct max (s_mem s) (zsum (map fst bgs)) (zsum (map snd bgs)).

Lemma nkeys_publish_new m k e : entries m !! k = None -> nkeys (publish m k e) = nkeys m + 1.
Proof. intros E. unfold nkeys. cbn. rewrite map_size_insert_None by done. lia. Qed.

Lemma nkeys_publish_old m k e : is_Some (entries m !! k) -> nkeys (publish m k e) = nkeys m.
Proof. intros [l E]. unfold nkeys. cbn. by rewrite map_size_insert_Some by eauto. Qed.

Lemma nkeys_delete m k : is_Some (entries m !! k) ->
  nkeys (with_entries m (delete k (entries m))) = nkeys m - 1.
Proof.
  intros [l E]. unfold nkeys. cbn. rewrite map_size_delete_Some by eauto.
  assert (size (entries m) <> 0%nat); [|lia].
  intros H%map_size_empty_inv. rewrite H, lookup_empty in E. done.
Qed.

Lemma delete_absent m k : entries m !! k = None -> with_entries m (delete k (entries m)) = m.
Proof. intros E. unfold with_entries. rewrite delete_id by done. by destruct m. Qed.

(** One action of a disciplined program: the account of the others is [ob],
    [og]. *)
Lemma disciplined_step {B} max b g (a : act B) k m ob og : 0 <= og <= ob ->
  bal_ok max (Act a k) (b, g) -> acct max m (b + ob) (g + og) ->
  let '(r, m') := exec_act a m in
  exists b' g', bal_ok max (k r) (b', g') /\ acct max m' (b' + ob) (g' + og).
Proof.
  intros Ho [Hbg Hd] [Hc Hn]. cbn [fst snd] in *. unfold bal_ok, acct. destruct a; cbn [disciplined exec_act] in *.
  - exists b, g. cbn. auto.
  - destruct Hd as (Hg & Ht & Hf). destruct (entries m !! k0) eqn:E.
    + rewrite bool_decide_true by done. exists b, g. rewrite nkeys_publish_old by eauto. cbn. auto.
    + rewrite bool_decide_false by (by intros []). exists (b - 1), (g - 1).
      rewrite nkeys_publish_new by done. cbn. split_and!; [lia|lia|done|lia|lia].
  - destruct Hd as (Hg & Ht & Hf). destruct (entries m !! k0) eqn:E.
    + exists b, g. cbn. auto.
    + exists (b - 1), (g - 1). rewrite nkeys_publish_new by done. cbn. split_and!; [lia|lia|auto|lia|lia].
  - destruct Hd as [Hf Ht]. destruct (bool_decide _) eqn:E.
    + apply bool_decide_eq_true in E. exists (b + 1), g. rewrite nkeys_delete by eauto. cbn.
      split_and!; [lia|lia|done|lia|lia].
    + exists b, g. cbn. auto.
  - destruct Hd as [Hf Ht]. destruct (entries m !! k0) eqn:E.
    + rewrite bool_decide_true by done. exists (b + 1), g. rewrite nkeys_delete by eauto. cbn.
      split_and!; [lia|lia|done|lia|lia].
    + rewrite bool_decide_false by (by intros []). exists b, g. rewrite delete_absent by done. cbn. auto.
  - done.
  - unfold nkeys in *. cbn. destruct Hd as [(-> & Ht & Hf)|(-> & Hb & Ht)].
    + destruct (Z.le_gt_cases (keyCount m + 1) max).
      * exists (b + 1), (g + 1). cbn. split_and!; try lia. auto.
      * exists (b + 1), g. cbn. split_and!; try lia. apply Hf. lia.
    + exists (b - 1), (Z.min g (b - 1)). cbn. split_and!; try lia. auto.
  - destruct (f (deref m l)) as [e v]. exists b, g. cbn. unfold nkeys in *. cbn. auto.
  - destruct (f (deref m l) _) as [e v]. exists b, g. cbn. unfold nkeys in *. cbn. auto.
Qed.

Lemma bal_ok_sums max ps bgs : Forall2 (bal_ok max) ps bgs ->
  0 <= zsum (map snd bgs) <= zsum (map fst bgs).
Proof. induction 1 as [|p [b g] ps bgs [H _] _ IH]; cbn in *; [lia|]. unfold zsum in *. lia. Qed.

Lemma cap_inv_step max s s' : cap_inv max s -> step s s' -> cap_inv max s'.
Proof.
  intros (bgs & Hall & Hacc) Hstep0. inversion Hstep0 as [i s0 s1 Hs]; subst s0 s1. unfold sys_step in Hs.
  destruct (s_progs s !! i) as [[r|B a k]|] eqn:Ei; try done.
  rewrite <- (take_drop_middle _ _ _ Ei) in Hall.
  apply Forall2_app_inv_l in Hall as (b1 & b23 & H1 & H23 & ->).
  apply Forall2_cons_inv_l in H23 as ([b g] & b3 & Hp & H3 & ->).
  pose proof (bal_ok_sums _ _ _ H1). pose proof (bal_ok_sums _ _ _ H3).
  rewrite !map_app, !map_cons, !zsum_app in Hacc.
  pose proof (disciplined_step max b g a k (s_mem s)
    (zsum (map fst b1) + zsum (map fst b3)) (zsum (map snd b1) + zsum (map snd b3))
    ltac:(lia) Hp) as Hstep.
  destruct (exec_act a (s_mem s)) as [r m']. simplify_eq/=.
  destruct Hstep as (b' & g' & Hp' & Hacc').
  { destruct Hacc as [Hk Hn]. unfold zsum in *. cbn in *. split; lia. }
  exists (b1 ++ (b', g') :: b3). cbn [s_progs s_mem]. split.
  - rewrite insert_take_drop by (by eapply lookup_lt_Some). apply Forall2_app; [done|]. by constructor.
  - rewrite !map_app, !map_cons, !zsum_app. destruct Hacc' as [Hk Hn]. unfold zsum in *. cbn in *. split; lia.
Qed.

(** The methods that keep the discipline. *)
Definition accounted (o : store_op) : bool :=
  match o with SGet _ | SSet _ _ _ | SDel _ | SCleanup _ => true | _ => false end.

Lemma removeEntry_disciplined max key e p : 0 < max -> disciplined max 0 0 p ->
  disciplined max 0 0 (removeEntry max key e p).
Proof.
  intros Hmax Hp. unfold removeEntry. assert (0 <? max = true) as -> by (by apply Z.ltb_lt).
  destruct e as [l|]; cbn; (split; [done|]); right; split_and!; try lia; by intros _.
Qed.

Lemma op_disciplined max o now : 0 < max -> accounted o = true -> disciplined max 0 0 (op_prog max o now).
Proof.
  intros Hmax Ho. destruct o as [k|k v ttl| | | |ks|ks]; try done; cbn [op_prog].
  - unfold Get. cbn [disciplined]. intros [l|]; [|done]. intros [[] v]; cbn [fst]; [|done].
    by apply removeEntry_disciplined.
  - unfold Set_, reserveSlot. assert (max <=? 0 = false) as -> by (apply Z.leb_gt; lia). cbn.
    left. split_and!; [done|intros c Hc|intros c Hc].
    + assert (max <? c = false) as -> by (by apply Z.ltb_ge). cbn. split_and!; try lia; try done.
      right. split_and!; lia.
    + assert (max <? c = true) as -> by (by apply Z.ltb_lt). cbn. right. split_and!; lia.
  - clear Ho. induction ks as [|k ks IH]; [done|]. by apply removeEntry_disciplined.
  - clear Ho. induction ks as [|k ks IH]; [done|]. cbn [cleanup disciplined]. intros [l|]; [|done]. intros []; [|done].
    by apply removeEntry_disciplined.
Qed.

Lemma zsum_map_zero {A} (f : A -> Z) l : Forall (fun x => f x = 0) l -> zsum (map f l) = 0.
Proof. induction 1 as [|x l H _ IH]; cbn; [done|]. unfold zsum in *. lia. Qed.

Definition finished (p : prog) : bool := match p with Ret _ => true | _ => false end.

(** Disciplined programs keep the limit under any interleaving. *)
Lemma capacity_of_disciplined max ps s : 0 < max -> Forall (disciplined max 0 0) ps -> reachable max ps s ->
  nkeys (s_mem s) <= max /\
  (Forall (fun p => finished p = true) (s_progs s) -> keyCount (s_mem s) = nkeys (s_mem s)).
Proof.
  intros Hmax Hps Hr.
  assert (cap_inv max (mkSystem (NewMemory max) ps)) as H0.
  { exists (map (fun _ => (0, 0)) ps). split.
    - clear Hr. cbn. induction Hps as [|p ps Hp _ IH]; [constructor|]. constructor; [|done].
      split; [cbn; lia|done].
    - rewrite !map_map. cbn [fst snd]. rewrite !zsum_map_zero by (by apply Forall_true).
      unfold acct, nkeys, NewMemory. cbn [entries keyCount s_mem]. rewrite map_size_empty. lia. }
  assert (cap_inv max s) as (bgs & Hall & Hk & Hn).
  { unfold reachable in Hr. induction Hr as [|s1 s2 s3 Hs _ IH]; [done|]. by eapply IH, cap_inv_step. }
  pose proof (bal_ok_sums _ _ _ Hall). split; [lia|]. intros Hf. rewrite Hk.
  enough (zsum (map fst bgs) = 0) by lia. apply zsum_map_zero.
  clear -Hall Hf. induction Hall as [|p [b g] ps bgs [_ Hd] _ IH]; [done|].
  inversion Hf as [|?? Hp Hf']; subst. constructor; [|by apply IH]. destruct p; [by destruct Hd|done].
Qed.

Definition race_progs : list prog :=
  [Set_ 1 "a" "" 0 0; SetNX 1 "a" "" 0 0; Del 1 ["a"]; Set_ 1 "b" "" 0 0; Del 1 ["a"]; Set_ 1 "c" "" 0 0].

(** All calls have returned, the map holds [keys] keys and the counter [count]. *)
Definition settled (keys count : Z) (s : system) : bool :=
  forallb finished (s_progs s) && (nkeys (s_mem s) =? keys) && (keyCount (s_mem s) =? count).

(** [SetNX] can break the key limit: a key that is deleted between the
    lookup and [LoadOrStore] is published without a slot; if it is deleted
    again before the belated reservation, the deletion gives back a slot that
    was never taken.  Here a store limited to one key ends with two, all calls
    having returned. *)
Theorem setnx_race_exceeds_max_keys :
  exists s, reachable 1 race_progs s /\ settled 2 1 s = true.
Proof.
  pose (sched := [0; 0; 1; 2; 2; 3; 3; 1; 4; 4; 5; 5; 1; 1; 1]%nat).
  assert (option_map (settled 2 1) (run_schedule (mkSystem (NewMemory 1) race_progs) sched) = Some true) as H
    by (vm_compute; reflexivity).
  destruct (run_schedule (mkSystem (NewMemory 1) race_progs) sched) as [s|] eqn:E; [|done].
  exists s. split; [by apply (run_schedule_rtc _ _ _ E)|]. by injection H.
Qed.
