(* ===== verification/StoreScripts.v ===== *)
(** * The in-memory scripts of the distributed limiters
    ([ratelimit/store/scripts_memory.go]).

    A handler coerces its arguments, loads or creates the entry of its key and
    then runs one critical section on that entry: the [*_body] functions.
    Values are strings, as in the store.  The callers pass integers, doubles
    and strings. *)

From Stdlib Require Import Floats Ascii.
From stdpp Require Import relations sorting.
From S2P Require Import Prelude Float64 Strconv StrconvFloat StoreMemory.
Open Scope Z_scope.

(** ** Argument coercion *)

Inductive arg := ArgInt (z : Z) | ArgStr (s : string) | ArgFloat (x : f64).

Definition toInt64 (v : arg) : store_error + Z :=
  match v with
  | ArgInt z => inr z
  | ArgStr s => match ParseInt s with Some z => inr z | None => inl (ErrScript "strconv.ParseInt") end
  | ArgFloat x => inr (f64_to_int64 x)
  end.

(** [v, _ := toInt64(a)]: the value beside an error. *)
Definition toInt64_value (v : arg) : Z :=
  match v with ArgInt z => z | ArgStr s => ParseInt_value s | ArgFloat x => f64_to_int64 x end.

Definition toFloat (v : arg) : store_error + f64 :=
  match v with
  | ArgInt z => inr (f64_of_Z z)
  | ArgStr s => match ParseFloat s with Some x => inr x | None => inl (ErrScript "strconv.ParseFloat") end
  | ArgFloat x => inr x
  end.

(** ["%v"] prints a double as [FormatFloat] does. *)
Definition toString (v : arg) : string :=
  match v with ArgStr s => s | ArgInt z => FormatInt z | ArgFloat x => FormatFloat x end.

(** [args[i]] coerced to an integer; an error ends the handler. *)
Definition int_arg (args : list arg) (i : nat) (k : Z -> prog) : prog :=
  match args !! i with
  | Some a => match toInt64 a with inr z => k z | inl e => reject e end
  | None => reject (ErrScript "index out of range")
  end.

Definition float_arg (args : list arg) (i : nat) (k : f64 -> prog) : prog :=
  match args !! i with
  | Some a => match toFloat a with inr x => k x | inl e => reject e end
  | None => reject (ErrScript "index out of range")
  end.

Definition serverTimeFlag (args : list arg) (i : nat) : bool :=
  match args !! i with Some a => bool_decide (toString a = "1") | None => false end.

(** The instants a handler reads: on loading the entry, the server clock, and
    when it sets the expiry. *)
Record script_reads := mkScriptReads { sr_load : time; sr_server : time; sr_ttl : time }.

Definition script_reads_at (t : time) : script_reads := mkScriptReads t t t.

(** [UnixMicro() * 1000] of the server clock when both the caller and the store
    ask for it. *)
Definition memoryServerNowNs (storeMode flag : bool) (t : time) : option Z :=
  if negb flag || negb storeMode then None else Some (wrap64 (t / 1000) *w 1000).

(** ** Entries *)

Definition setEntryTTLmsAbs (e : entry) (ttlMs : Z) (now : time) : entry :=
  if ttlMs <=? 0 then e else mkEntry (value e) (time_add now (ttlMs *w Millisecond)).

Definition empty_entry : entry := mkEntry "" zero_time.

Definition loadOrCreateRaw (max : Z) (key : string) (now : time) (k : nat -> prog) : prog :=
  v <-- Load key ;;
  match v with
  | Some l =>
      _ <-- Locked l (fun e => (if isExpired e now then empty_entry else e, tt)) ;; k l
  | None =>
      let create :=
        r <-- LoadOrStore key empty_entry ;;
        if snd r : bool then
          if 0 <? max then (_ <-- AddCount (-1) ;; k (fst r)) else k (fst r)
        else k (fst r) in
      if 0 <? max then reserveSlot max (fun _ => reject ErrStoreFull) create else create
  end.

(** [loadEntry]: the entry, absent when expired. *)
Definition loadEntry (key : string) (now : time) (k : option nat -> prog) : prog :=
  v <-- Load key ;;
  match v with
  | None => k None
  | Some l =>
      expired <-- Locked l (fun e => (e, isExpired e now)) ;;
      k (if expired : bool then None else Some l)
  end.

Definition parseCounter (s : string) : Z := default 0 (ParseInt s).

(** ** Fixed window: the value is the count of the window in the key. *)

Definition fixedWindow_body (limit n ttlMs : Z) (now : time) (e : entry) : entry * (store_error + reply) :=
  let current := parseCounter (value e) in
  if limit <? current +w n then (e, inr (RList [0; current]))
  else
    let newCount := current +w n in
    let e := mkEntry (FormatInt newCount) (expiresAt e) in
    let e := if current =? 0 then setEntryTTLmsAbs e ttlMs now else e in
    (e, inr (RList [1; newCount])).

Definition fixedWindowHandler (max : Z) (rd : script_reads) (keys : list string) (args : list arg) : prog :=
  match keys with
  | [] => reject (ErrScript "fixedWindowHandler: missing key")
  | key :: _ =>
      if (length args <? 3)%nat then reject (ErrScript "fixedWindowHandler: expected >=3 args")
      else
        int_arg args 0 (fun limit => int_arg args 1 (fun n => int_arg args 2 (fun ttlMs =>
          loadOrCreateRaw max key (sr_load rd) (fun l =>
            r <-- Locked l (fixedWindow_body limit n ttlMs (sr_ttl rd)) ;; Ret r))))
  end.

(** ** Token bucket: the value is ["tokens|last_refill"], two doubles. *)

Definition bar : ascii := "|".

Definition parseTokenBucket (s : string) : option (f64 * f64) :=
  '(a, b) ← cut_at bar s; t ← ParseFloat a; lr ← ParseFloat b; Some (t, lr).

Definition formatTokenBucket (tokens lastRefill : f64) : string :=
  FormatFloat tokens +:+ String bar (FormatFloat lastRefill).

(** [math.Min]: NaN is kept, and of two zeros a negative one. *)
Definition math_Min (x y : f64) : f64 :=
  match sf x, sf y with
  | S754_infinity true, _ | _, S754_infinity true => neg_infinity
  | S754_nan, _ | _, S754_nan => nan
  | S754_zero s, S754_zero _ => if s then x else y
  | _, _ => if PrimFloat.ltb x y then x else y
  end.

(** [math.Floor] of a finite double, as an integer. *)
Definition f64_floor (x : f64) : option Z :=
  match sf x with
  | S754_zero _ => Some 0
  | S754_finite s m e =>
      let z := if s then Zneg m else Zpos m in
      Some (if 0 <=? e then Z.shiftl z e else Z.shiftr z (- e))
  | _ => None
  end.

(** [int64(math.Floor(x))]. *)
Definition floor_to_int64 (x : f64) : Z :=
  match f64_floor x with
  | Some z => if (min_int64 <=? z) && (z <=? max_int64) then z else min_int64
  | None => min_int64
  end.

(** [int64(math.Ceil(x))]. *)
Definition ceil_to_int64 (x : f64) : Z :=
  match f64_floor (- x)%float with
  | Some z => if (min_int64 <=? - z) && (- z <=? max_int64) then - z else min_int64
  | None => min_int64
  end.

(** The time to live: the one asked for, or the time to refill the bucket. *)
Definition bucket_ttl (capacity refillRate : f64) (ttlMs : Z) : Z :=
  if ttlMs <? 1 then ceil_to_int64 (capacity / refillRate / f64_of_Z 1000000)%float else ttlMs.

(** What the bucket in [raw] holds at [now] after a request for [n]: the
    tokens, whether they were granted, and the tokens refilled. *)
Definition refill (capacity refillRate n now : f64) (raw : string) : f64 * Z * f64 :=
  let '(tokens, lastRefill) :=
    if bool_decide (raw = "") then (capacity, now) else default (capacity, now) (parseTokenBucket raw) in
  let refilled := ((now - lastRefill) * refillRate)%float in
  let tokens := math_Min capacity (tokens + refilled)%float in
  if f64_geb tokens n then ((tokens - n)%float, 1, refilled) else (tokens, 0, refilled).

Definition tokenBucket_body (capacity refillRate n now : f64) (ttlMs : Z) (t : time) (e : entry)
  : entry * (store_error + reply) :=
  let '(tokens, allowed, refilled) := refill capacity refillRate n now (value e) in
  (setEntryTTLmsAbs (mkEntry (formatTokenBucket tokens now) (expiresAt e)) ttlMs t,
   inr (RList [allowed; floor_to_int64 tokens; floor_to_int64 refilled])).

Definition tokenBucketHandler (max : Z) (storeMode : bool) (rd : script_reads) (keys : list string) (args : list arg) : prog :=
  match keys with
  | [] => reject (ErrScript "tokenBucketHandler: missing key")
  | key :: _ =>
      if (length args <? 4)%nat then reject (ErrScript "tokenBucketHandler: expected >=4 args")
      else
        float_arg args 0 (fun capacity => float_arg args 1 (fun refillRate => float_arg args 2 (fun n => float_arg args 3 (fun now =>
          let now := match memoryServerNowNs storeMode (serverTimeFlag args 5) (sr_server rd) with
                     | Some srv => f64_of_Z srv
                     | None => now
                     end in
          if PrimFloat.leb refillRate PrimFloat.zero then reject (ErrScript "tokenBucketHandler: refillRate must be > 0")
          else
            let ttlMs := bucket_ttl capacity refillRate (from_option toInt64_value 0 (args !! 4%nat)) in
            loadOrCreateRaw max key (sr_load rd) (fun l =>
              r <-- Locked l (tokenBucket_body capacity refillRate n now ttlMs (sr_ttl rd)) ;; Ret r)))))
  end.

(** ** GCRA and leaky bucket: the value is the TAT; arithmetic in doubles. *)

(** [(baseF, tatF, limitWindowF)]. *)
Definition tat_float (emission capacity n now : Z) (e : entry) : f64 * f64 * f64 :=
  let nowF := f64_of_Z now in
  let storedF := match ParseInt (value e) with Some v => f64_of_Z v | None => nowF end in
  let baseF := if f64_gtb nowF storedF then nowF else storedF in
  (baseF, (baseF + f64_of_Z emission * f64_of_Z n)%float, (nowF + f64_of_Z emission * f64_of_Z capacity)%float).

Definition gcra_body (emission burst n now ttlMs : Z) (t : time) (e : entry) : entry * (store_error + reply) :=
  let '(_, tatF, limitWindowF) := tat_float emission burst n now e in
  if f64_gtb tatF limitWindowF then (e, inr (RList [0; f64_to_int64 (tatF - limitWindowF)%float]))
  else (setEntryTTLmsAbs (mkEntry (FormatInt (f64_to_int64 tatF)) (expiresAt e)) ttlMs t, inr (RList [1; 0])).

Definition clampDepth (capacity : Z) (d : f64) : Z :=
  let di := floor_to_int64 d in
  let di := if di <? 0 then 0 else di in
  if capacity <? di then capacity else di.

Definition leaky_body (emission capacity n now ttlMs : Z) (t : time) (e : entry) : entry * (store_error + reply) :=
  let nowF := f64_of_Z now in
  let '(baseF, newTatF, limitWindowF) := tat_float emission capacity n now e in
  if f64_gtb newTatF limitWindowF then
    (e, inr (RList [0; clampDepth capacity ((baseF - nowF) / f64_of_Z emission)%float;
                    f64_to_int64 (newTatF - limitWindowF)%float]))
  else
    (setEntryTTLmsAbs (mkEntry (FormatInt (f64_to_int64 newTatF)) (expiresAt e)) ttlMs t,
     inr (RList [1; clampDepth capacity ((newTatF - nowF) / f64_of_Z emission)%float; 0])).

(** The two handlers differ in their critical section only. *)
Definition tat_handler (name : string) (body : Z -> Z -> Z -> Z -> Z -> time -> entry -> entry * (store_error + reply))
    (max : Z) (storeMode : bool) (rd : script_reads) (keys : list string) (args : list arg) : prog :=
  match keys with
  | [] => reject (ErrScript (name +:+ ": missing key"))
  | key :: _ =>
      if (length args <? 5)%nat then reject (ErrScript (name +:+ ": expected >=5 args"))
      else
        int_arg args 0 (fun emission => int_arg args 1 (fun burst => int_arg args 2 (fun n =>
        int_arg args 3 (fun now => int_arg args 4 (fun ttlMs =>
          let now := default now (memoryServerNowNs storeMode (serverTimeFlag args 5) (sr_server rd)) in
          loadOrCreateRaw max key (sr_load rd) (fun l =>
            r <-- Locked l (body emission burst n now ttlMs (sr_ttl rd)) ;; Ret r))))))
  end.

Definition gcraHandler := tat_handler "gcraHandler" gcra_body.
Definition leakyBucketHandler := tat_handler "leakyBucketHandler" leaky_body.

(** ** Sliding window counter: two keys, the current and the previous window. *)

Definition slidingCounter_body (limit n fracMillionths currentTTLms : Z) (now : time)
    (ce : entry) (pe : option entry) : entry * (store_error + reply) :=
  let fraction := (f64_of_Z fracMillionths / f64_of_Z 1000000)%float in
  let current := parseCounter (value ce) in
  let prev := match pe with Some e => parseCounter (value e) | None => 0 end in
  let estimated := (f64_of_Z current + f64_of_Z prev * (1 - fraction))%float in
  let scaled := floor_to_int64 (estimated * f64_of_Z 1000000)%float in
  if f64_gtb (estimated + f64_of_Z n)%float (f64_of_Z limit) then (ce, inr (RList [0; current; scaled]))
  else
    let newCurrent := current +w n in
    let ce := mkEntry (FormatInt newCurrent) (expiresAt ce) in
    (if current =? 0 then setEntryTTLmsAbs ce currentTTLms now else ce, inr (RList [1; newCurrent; scaled])).

Definition slidingWindowCounterHandler (max : Z) (rd : script_reads) (keys : list string) (args : list arg) : prog :=
  match keys with
  | currentKey :: prevKey :: _ =>
      if (length args <? 4)%nat then reject (ErrScript "slidingWindowCounterHandler: expected >=4 args")
      else
        int_arg args 0 (fun limit => int_arg args 1 (fun n => int_arg args 2 (fun frac => int_arg args 3 (fun ttl =>
          loadOrCreateRaw max currentKey (sr_load rd) (fun lc =>
          loadEntry prevKey (sr_server rd) (fun lp =>
            r <-- Locked2 lc lp (slidingCounter_body limit n frac ttl (sr_ttl rd)) ;; Ret r))))))
  | _ => reject (ErrScript "slidingWindowCounterHandler: expected 2 keys")
  end.

(** ** Sliding window log: a sorted set of scored members *)

Record zmember := mkZ { score : Z; member : string }.

Notation zset := (list zmember).

Definition rec_sep : ascii := ascii_of_nat 30.  (* \x1e *)
Definition fld_sep : ascii := ascii_of_nat 31.  (* \x1f *)

(** [rec[:sep]] and [rec[sep+1:]] at the first field separator. *)
Definition cut_field : string -> option (string * string) := cut_at fld_sep.

(** A record that does not parse is skipped. *)
Definition parse_record (rec : string) : option zmember :=
  '(sc, mem) ← cut_field rec; z ← ParseInt sc; Some (mkZ z mem).

Definition parseZSet (s : string) : zset := omap parse_record (split_on rec_sep s "").

Definition record_string (z : zmember) : string :=
  FormatInt (score z) +:+ String fld_sep (member z).

Fixpoint serialize (zs : zset) : string :=
  match zs with
  | [] => ""
  | [z] => record_string z
  | z :: zs' => record_string z +:+ String rec_sep (serialize zs')
  end.

(** [resort]: the element moves left past strictly greater scores; [rp] is the
    sorted prefix, last element first. *)
Fixpoint sink (x : zmember) (rp : zset) : zset :=
  match rp with
  | [] => [x]
  | y :: rp' => if score x <? score y then y :: sink x rp' else x :: rp
  end.

Definition resort (zs : zset) : zset := rev (foldl (fun rp x => sink x rp) [] zs).

Fixpoint set_score (sc : Z) (m : string) (zs : zset) : option zset :=
  match zs with
  | [] => None
  | z :: zs' =>
      if bool_decide (member z = m) then Some (mkZ sc (member z) :: zs')
      else cons z <$> set_score sc m zs'
  end.

Definition zadd (sc : Z) (m : string) (zs : zset) : zset :=
  match set_score sc m zs with
  | Some zs' => resort zs'
  | None => resort (zs ++ [mkZ sc m])
  end.

Fixpoint removeByScoreUpTo (cutoff : Z) (zs : zset) : zset :=
  match zs with
  | z :: zs' => if score z <=? cutoff then removeByScoreUpTo cutoff zs' else zs
  | [] => []
  end.

(** [for i := 1; i <= n; i++ { zs.add(score, id-i) }] from [i]. *)
Fixpoint add_members (k : nat) (i : Z) (sc : Z) (id : string) (zs : zset) : zset :=
  match k with
  | O => zs
  | S k' => add_members k' (i + 1) sc id (zadd sc (id +:+ String "-" (FormatInt i)) zs)
  end.

(** [int64(math.Ceil(float64(ttlMs)/1000.0)) * 1000]: whole seconds, upwards. *)
Definition ceil_seconds (ttlMs : Z) : Z :=
  let x := (f64_of_Z ttlMs / f64_of_Z 1000)%float in
  - floor_to_int64 (- x)%float *w 1000.

Definition slidingLog_body (limit windowNs nowNs : Z) (entryID : string) (ttlMs n : Z) (t : time) (e : entry)
  : entry * (store_error + reply) :=
  let nowScore := f64_to_int64 (f64_of_Z nowNs) in
  let cutoff := f64_to_int64 (f64_of_Z nowNs - f64_of_Z windowNs)%float in
  let zs := removeByScoreUpTo cutoff (parseZSet (value e)) in
  let count := zlength zs in
  if limit <? count +w n then
    let retryAfter :=
      match zs with
      | z :: _ => let r := windowNs -w (nowScore -w score z) in if r <? 0 then 0 else r
      | [] => 0
      end in
    (setEntryTTLmsAbs (mkEntry (serialize zs) (expiresAt e)) (ceil_seconds ttlMs) t, inr (RList [0; count; retryAfter]))
  else
    (setEntryTTLmsAbs (mkEntry (serialize (add_members (Z.to_nat n) 1 nowScore entryID zs)) (expiresAt e)) ttlMs t,
     inr (RList [1; count +w n; 0])).

Definition slidingWindowLogHandler (max : Z) (storeMode : bool) (rd : script_reads)
    (keys : list string) (args : list arg) : prog :=
  match keys with
  | [] => reject (ErrScript "slidingWindowLogHandler: missing key")
  | key :: _ =>
      if (length args <? 5)%nat then reject (ErrScript "slidingWindowLogHandler: expected >=5 args")
      else
        int_arg args 0 (fun limit => int_arg args 1 (fun windowNs => int_arg args 2 (fun nowNs =>
          let entryID := from_option toString "" (args !! 3%nat) in
          int_arg args 4 (fun ttlMs =>
            let n := match args !! 5%nat with
                     | Some a => match toInt64 a with inr v => v | inl _ => 1 end
                     | None => 1
                     end in
            let nowNs := default nowNs (memoryServerNowNs storeMode (serverTimeFlag args 6) (sr_server rd)) in
            loadOrCreateRaw max key (sr_load rd) (fun l =>
              r <-- Locked l (slidingLog_body limit windowNs nowNs entryID ttlMs n (sr_ttl rd)) ;; Ret r)))))
  end.

(** ** Distributed circuit breaker: a record of five integers *)

Record cbState := mkCbState { cs_state : Z; cs_failures : Z; cs_successes : Z; cs_openedAt : Z; cs_inflight : Z }.

Definition zero_cbState : cbState := mkCbState 0 0 0 0 0.

Definition parseCBState (s : string) : cbState :=
  if bool_decide (s = "") then zero_cbState
  else
    match map parseCounter (split_on bar s "") with
    | a :: b :: c :: d :: e :: _ => mkCbState a b c d e
    | _ => zero_cbState
    end.

Definition serialize_cb (st : cbState) : string :=
  FormatInt (cs_state st) +:+ String bar (FormatInt (cs_failures st) +:+ String bar
    (FormatInt (cs_successes st) +:+ String bar (FormatInt (cs_openedAt st) +:+ String bar
      (FormatInt (cs_inflight st))))).

(** The trailing [now_ns] argument; the wall clock [t] when it is missing. *)
Definition cbNowNs (args : list arg) (t : time) : Z :=
  match last args with
  | Some a => match toInt64 a with inr v => if v <=? 0 then UnixNano t else v | inl _ => UnixNano t end
  | None => UnixNano t
  end.

(** The decision on the state: the reply and the state to store, if any. *)
Definition cb_acquire (openTimeout halfOpenMax now : Z) (st : cbState) : list Z * option cbState :=
  let blocked := (cs_state st =? 2) &&
    ((cs_openedAt st <=? 0) || (now -w cs_openedAt st <? openTimeout)) in
  if blocked then ([1; 2; cs_openedAt st], None)
  else
    let st := if cs_state st =? 2
              then mkCbState 1 (cs_failures st) 0 (cs_openedAt st) 0 else st in
    if cs_state st =? 1 then
      if halfOpenMax <=? cs_inflight st then ([2; 1], Some st)
      else ([0; 1], Some (mkCbState (cs_state st) (cs_failures st) (cs_successes st) (cs_openedAt st)
                            (cs_inflight st +w 1)))
    else ([0; 0], Some st).

Definition cb_record (outcome failureThreshold successThreshold acquiredProbe now : Z) (st : cbState) : cbState :=
  let st := if (acquiredProbe =? 1) && (0 <? cs_inflight st)
            then mkCbState (cs_state st) (cs_failures st) (cs_successes st) (cs_openedAt st) (cs_inflight st - 1)
            else st in
  let opened := mkCbState 2 0 0 now 0 in
  if cs_state st =? 1 then
    if outcome =? 1 then opened
    else
      let s := cs_successes st +w 1 in
      if successThreshold <=? s then zero_cbState
      else mkCbState (cs_state st) (cs_failures st) s (cs_openedAt st) (cs_inflight st)
  else if cs_state st =? 0 then
    if outcome =? 1 then
      let f := cs_failures st +w 1 in
      if failureThreshold <=? f then opened
      else mkCbState (cs_state st) f (cs_successes st) (cs_openedAt st) (cs_inflight st)
    else st
  else st.

Definition cbAcquire_body (openTimeout halfOpenMax ttlMs now : Z) (t : time) (e : entry)
  : entry * (store_error + reply) :=
  let '(r, ost) := cb_acquire openTimeout halfOpenMax now (parseCBState (value e)) in
  (match ost with
   | None => e
   | Some st => setEntryTTLmsAbs (mkEntry (serialize_cb st) (expiresAt e)) ttlMs t
   end, inr (RList r)).

Definition cbRecord_body (outcome failureThreshold successThreshold ttlMs acquiredProbe now : Z) (t : time)
    (e : entry) : entry * (store_error + reply) :=
  let st := cb_record outcome failureThreshold successThreshold acquiredProbe now (parseCBState (value e)) in
  (setEntryTTLmsAbs (mkEntry (serialize_cb st) (expiresAt e)) ttlMs t, inr (RList [cs_state st])).

Definition cb_read (openTimeout now : Z) (st : cbState) : list Z :=
  [if (cs_state st =? 2) && (0 <? cs_openedAt st) && (openTimeout <=? now -w cs_openedAt st) then 1 else cs_state st;
   cs_failures st; cs_successes st; cs_openedAt st; cs_inflight st].

Definition cbAcquireHandler (max : Z) (rd : script_reads) (keys : list string) (args : list arg) : prog :=
  match keys with
  | [] => reject (ErrScript "cbAcquireHandler: missing key")
  | key :: _ =>
      if (length args <? 3)%nat then reject (ErrScript "cbAcquireHandler: expected >=3 args")
      else
        int_arg args 0 (fun openTimeout => int_arg args 1 (fun halfOpenMax => int_arg args 2 (fun ttlMs =>
          let now := cbNowNs args (sr_server rd) in
          loadOrCreateRaw max key (sr_load rd) (fun l =>
            r <-- Locked l (cbAcquire_body openTimeout halfOpenMax ttlMs now (sr_ttl rd)) ;; Ret r))))
  end.

Definition cbRecordHandler (max : Z) (rd : script_reads) (keys : list string) (args : list arg) : prog :=
  match keys with
  | [] => reject (ErrScript "cbRecordHandler: missing key")
  | key :: _ =>
      if (length args <? 6)%nat then reject (ErrScript "cbRecordHandler: expected >=6 args")
      else
        int_arg args 0 (fun outcome => int_arg args 1 (fun failureThreshold => int_arg args 2 (fun successThreshold =>
        int_arg args 4 (fun ttlMs => int_arg args 5 (fun acquiredProbe =>
          let now := cbNowNs args (sr_server rd) in
          loadOrCreateRaw max key (sr_load rd) (fun l =>
            r <-- Locked l (cbRecord_body outcome failureThreshold successThreshold ttlMs acquiredProbe now (sr_ttl rd)) ;;
            Ret r))))))
  end.

Definition cbReadHandler (rd : script_reads) (keys : list string) (args : list arg) : prog :=
  match keys with
  | [] => reject (ErrScript "cbReadHandler: missing key")
  | key :: _ =>
      if (length args <? 1)%nat then reject (ErrScript "cbReadHandler: expected >=1 arg")
      else
        int_arg args 0 (fun openTimeout =>
          let now := cbNowNs args (sr_server rd) in
          loadEntry key (sr_load rd) (fun ol =>
            match ol with
            | None => Ret (inr (RList [0; 0; 0; 0; 0]))
            | Some l =>
                r <-- Locked l (fun e => (e, inr (RList (cb_read openTimeout now (parseCBState (value e)))))) ;; Ret r
            end))
  end.

(** ** Dispatch *)

Inductive ScriptID :=
| TokenBucketScriptID | GCRAScriptID | LeakyBucketScriptID | SlidingWindowLogScriptID | SlidingWindowCounterScriptID
| FixedWindowScriptID | CircuitBreakerAcquireScriptID | CircuitBreakerRecordScriptID | CircuitBreakerReadScriptID.

(** [Eval] on a store with the default scripts registered. *)
Definition store_Eval (max : Z) (storeMode : bool) (rd : script_reads) (id : ScriptID) (keys : list string)
    (args : list arg) : prog :=
  match id with
  | TokenBucketScriptID => tokenBucketHandler max storeMode rd keys args
  | GCRAScriptID => gcraHandler max storeMode rd keys args
  | LeakyBucketScriptID => leakyBucketHandler max storeMode rd keys args
  | SlidingWindowLogScriptID => slidingWindowLogHandler max storeMode rd keys args
  | SlidingWindowCounterScriptID => slidingWindowCounterHandler max rd keys args
  | FixedWindowScriptID => fixedWindowHandler max rd keys args
  | CircuitBreakerAcquireScriptID => cbAcquireHandler max rd keys args
  | CircuitBreakerRecordScriptID => cbRecordHandler max rd keys args
  | CircuitBreakerReadScriptID => cbReadHandler rd keys args
  end.

(** ** Round trips *)

Definition plain_member (m : string) : Prop := avoids (fun c => Ascii.eqb c rec_sep) m.

Definition zmember_ok (z : zmember) : Prop := in64 (score z) /\ plain_member (member z).

Lemma avoids_app p s t : avoids p s -> avoids p t -> avoids p (s +:+ t).
Proof. induction s as [|c s IH]; intros Hs Ht; [done|]. rewrite app_string_cons. destruct Hs. split; auto. Qed.

Lemma FormatInt_no_sep sep z : in64 z -> sep = rec_sep \/ sep = fld_sep \/ sep = bar ->
  avoids (fun c => Ascii.eqb c sep) (FormatInt z).
Proof.
  intros Hz Hs. apply FormatInt_avoids; [done| |].
  - by destruct Hs as [-> |[-> | ->]].
  - intros d H%digit_cases. destruct Hs as [-> |[-> | ->]]; by repeat destruct H as [-> | H]; [..|subst].
Qed.

Lemma cut_field_app s t : avoids (fun c => Ascii.eqb c fld_sep) s ->
  cut_field (s +:+ String fld_sep t) = Some (s, t).
Proof. apply cut_at_app. Qed.

Lemma parse_record_string z : zmember_ok z -> parse_record (record_string z) = Some z.
Proof.
  intros [Hz Hm]. unfold parse_record, record_string.
  rewrite cut_field_app by (apply FormatInt_no_sep; auto). cbn. rewrite ParseInt_FormatInt by done. by destruct z.
Qed.

Lemma record_string_no_sep z : zmember_ok z -> avoids (fun c => Ascii.eqb c rec_sep) (record_string z).
Proof. intros [Hz Hm]. apply avoids_app; [apply FormatInt_no_sep; auto|]. by split. Qed.

Lemma parseZSet_serialize zs : Forall zmember_ok zs -> parseZSet (serialize zs) = zs.
Proof.
  intros H. unfold parseZSet. destruct zs as [|z zs]; [done|].
  revert z H. induction zs as [|z' zs IH]; intros z H; inversion H as [|?? Hz Hzs]; subst.
  - cbn [serialize]. rewrite split_on_last by (by apply record_string_no_sep). cbn.
    change ("" +:+ record_string z) with (record_string z). by rewrite parse_record_string.
  - cbn [serialize]. rewrite split_on_piece by (by apply record_string_no_sep).
    change ("" +:+ record_string z) with (record_string z). cbn [omap list_omap].
    rewrite parse_record_string by done. f_equal. by apply IH.
Qed.

Definition cb_in64 (st : cbState) : Prop :=
  in64 (cs_state st) /\ in64 (cs_failures st) /\ in64 (cs_successes st) /\ in64 (cs_openedAt st) /\ in64 (cs_inflight st).

Lemma parse_serialize_cb st : cb_in64 st -> parseCBState (serialize_cb st) = st.
Proof.
  intros (H1 & H2 & H3 & H4 & H5). unfold parseCBState. rewrite bool_decide_false.
  2: { unfold serialize_cb. destruct (FormatInt (cs_state st)) eqn:E; [by destruct (FormatInt_nonempty (cs_state st))|done]. }
  unfold serialize_cb. rewrite !split_on_piece, split_on_last by (apply FormatInt_no_sep; auto).
  cbn [map]. change (parseCounter ("" +:+ ?x)) with (parseCounter x).
  unfold parseCounter. repeat change ("" +:+ ?x) with x. rewrite !ParseInt_FormatInt by done. by destruct st.
Qed.

Lemma parse_format_bucket tokens lastRefill :
  parseTokenBucket (formatTokenBucket tokens lastRefill) = Some (tokens, lastRefill).
Proof.
  unfold parseTokenBucket, formatTokenBucket. rewrite cut_at_app; [cbn; by rewrite !ParseFloat_FormatFloat|].
  apply FormatFloat_avoids; [|done..]. split_and!; [|done..]. intros d H%digit_cases.
  by repeat destruct H as [-> | H]; [..|subst].
Qed.

(** ** The sorted set *)

Definition by_score (x y : zmember) : Prop := score x <= score y.

Definition sorted_set (zs : zset) : Prop := StronglySorted by_score zs.

Lemma sink_perm x rp : sink x rp ≡ₚ x :: rp.
Proof. induction rp as [|y rp IH]; cbn; [done|]. case_match; [|done]. rewrite IH. apply Permutation_swap. Qed.

Lemma sink_sorted x rp : StronglySorted (flip by_score) rp -> StronglySorted (flip by_score) (sink x rp).
Proof.
  unfold flip, by_score. induction rp as [|y rp IH]; cbn; intros H.
  - repeat constructor.
  - apply StronglySorted_cons in H as [Hy Hrp]. destruct (Z.ltb_spec (score x) (score y)).
    + apply StronglySorted_cons. split; [|by apply IH]. rewrite sink_perm. constructor; [lia|done].
    + apply StronglySorted_cons. split; [|by apply StronglySorted_cons].
      constructor; [lia|]. eapply Forall_impl; [done|]. cbn. lia.
Qed.

Lemma resort_perm zs : resort zs ≡ₚ zs.
Proof.
  unfold resort. rewrite <- Permutation_rev. change zs with ([] ++ zs) at 2.
  generalize (@nil zmember) as rp. induction zs as [|x zs IH]; intros rp; cbn; [by rewrite app_nil_r|].
  rewrite IH, sink_perm. by rewrite <- Permutation_middle.
Qed.

Lemma sorted_rev rp : StronglySorted (flip by_score) rp -> sorted_set (rev rp).
Proof.
  unfold sorted_set. induction rp as [|x rp IH]; cbn; intros H; [constructor|].
  apply StronglySorted_cons in H as [Hx Hrp]. apply StronglySorted_app. split_and!; [|by apply IH|repeat constructor].
  intros a b Ha Hb. apply list_elem_of_singleton in Hb as ->. rewrite Forall_forall in Hx. apply Hx.
  by rewrite Permutation_rev.
Qed.

Lemma resort_sorted zs : sorted_set (resort zs).
Proof.
  apply sorted_rev. assert (StronglySorted (flip by_score) []) as H0 by constructor. revert H0.
  generalize (@nil zmember) as rp. induction zs as [|x zs IH]; intros rp H0; cbn; [done|].
  apply IH. by apply sink_sorted.
Qed.

Lemma set_score_ok sc m zs zs' : in64 sc -> Forall zmember_ok zs -> set_score sc m zs = Some zs' ->
  Forall zmember_ok zs' /\ length zs' = length zs.
Proof.
  intros Hsc Hzs. revert zs'. induction Hzs as [|z zs [Hz Hm] Hzs IH]; intros zs' H; cbn in H; [done|].
  case_bool_decide; simplify_eq.
  - split; [|done]. by constructor; [split|].
  - destruct (set_score sc m zs) as [zs1|] eqn:E; simplify_eq/=. destruct (IH zs1 eq_refl) as [H1 H2].
    split; [|by rewrite H2]. by constructor; [split|].
Qed.

(** A valid set: what the handler stores. *)
Definition zset_ok (zs : zset) : Prop := sorted_set zs /\ Forall zmember_ok zs.

Lemma zadd_ok sc m zs : in64 sc -> plain_member m -> zset_ok zs ->
  zset_ok (zadd sc m zs) /\ (length (zadd sc m zs) <= S (length zs))%nat.
Proof.
  intros Hsc Hm [_ Hzs]. unfold zadd. destruct (set_score sc m zs) as [zs'|] eqn:E.
  - destruct (set_score_ok _ _ _ _ Hsc Hzs E) as [Hzs' Hl].
    split; [split; [apply resort_sorted|by rewrite resort_perm]|]. rewrite resort_perm. lia.
  - split; [split; [apply resort_sorted|]|].
    + rewrite resort_perm. apply Forall_app. split; [done|]. constructor; [by split|constructor].
    + rewrite resort_perm, length_app. cbn. lia.
Qed.

Lemma add_members_ok k i sc id zs : in64 sc -> plain_member id -> 0 <= i -> i + Z.of_nat k <= max_int64 ->
  zset_ok zs ->
  zset_ok (add_members k i sc id zs) /\ (length (add_members k i sc id zs) <= k + length zs)%nat.
Proof.
  intros Hsc Hid. revert i zs. induction k as [|k IH]; intros i zs Hi Hk Hzs; cbn [add_members]; [done|].
  assert (plain_member (id +:+ String "-" (FormatInt i))) as Hm.
  { apply avoids_app; [done|]. split; [done|]. apply FormatInt_no_sep; [go_lia|auto]. }
  destruct (zadd_ok sc _ zs Hsc Hm Hzs) as [Hz1 Hl1].
  destruct (IH (i + 1) (zadd sc (id +:+ String "-" (FormatInt i)) zs)) as [Hz2 Hl2]; [lia|lia|done|].
  split; [done|lia].
Qed.

Lemma filter_all {A} (P : A -> Prop) `{forall x, Decision (P x)} l : Forall P l -> filter P l = l.
Proof. induction 1 as [|x l Hx _ IH]; [done|]. by rewrite filter_cons_True, IH. Qed.

Lemma Forall_filter_of {A} (Q P : A -> Prop) `{forall x, Decision (P x)} l : Forall Q l -> Forall Q (filter P l).
Proof. rewrite !Forall_forall. intros HQ x [_ Hx]%list_elem_of_filter. auto. Qed.

(** On a sorted set [removeByScoreUpTo] keeps exactly the later members. *)
Lemma remove_is_filter cutoff zs : sorted_set zs ->
  removeByScoreUpTo cutoff zs = filter (fun z => cutoff < score z) zs.
Proof.
  unfold sorted_set. induction zs as [|z zs IH]; intros H; [done|]. apply StronglySorted_cons in H as [Hz Hs].
  cbn [removeByScoreUpTo]. destruct (Z.leb_spec (score z) cutoff).
  - rewrite filter_cons_False by lia. by apply IH.
  - rewrite filter_cons_True by lia. f_equal. symmetry. apply filter_all.
    rewrite Forall_forall in *. intros y Hy. specialize (Hz y Hy). unfold by_score in Hz. lia.
Qed.

Lemma filter_ok cutoff zs : zset_ok zs -> zset_ok (filter (fun z => cutoff < score z) zs).
Proof.
  intros [Hs Hok]. split; [|by apply Forall_filter_of]. unfold sorted_set in *.
  induction Hs as [|z zs Hs IH Hz]; [constructor|]. inversion Hok; subst.
  destruct (decide (cutoff < score z)).
  - rewrite filter_cons_True by done. apply StronglySorted_cons. split; [by apply Forall_filter_of|by apply IH].
  - rewrite filter_cons_False by done. by apply IH.
Qed.

Lemma setTTL_value e ttlMs now : value (setEntryTTLmsAbs e ttlMs now) = value e.
Proof. unfold setEntryTTLmsAbs. by case_match. Qed.

Lemma f64_to_int64_in64 x : in64 (f64_to_int64 x).
Proof.
  unfold f64_to_int64. destruct (f64_trunc x) as [z|]; [|go_lia].
  destruct (Z.leb_spec min_int64 z), (Z.leb_spec z max_int64); cbn; go_lia.
Qed.

(** C16: State survives its encoding: what a handler writes into the string of an
    entry is what the next call reads back, for counters, for the sorted set of
    the sliding log (scores in int64, members without the record separator), for
    the record of the distributed circuit breaker, and for the two doubles of a
    token bucket, printed in their shortest decimal form: every pair of them,
    infinities, negative zeros and NaN included. *)
Theorem script_state_roundtrip z zs st tokens lastRefill :
  in64 z -> Forall zmember_ok zs -> cb_in64 st ->
  parseCounter (FormatInt z) = z /\ parseZSet (serialize zs) = zs /\ parseCBState (serialize_cb st) = st /\
  parseTokenBucket (formatTokenBucket tokens lastRefill) = Some (tokens, lastRefill).
Proof.
  intros Hz Hzs Hst. split_and!; [|by apply parseZSet_serialize|by apply parse_serialize_cb|by apply parse_format_bucket].
  unfold parseCounter. by rewrite ParseInt_FormatInt.
Qed.

Lemma script_state_roundtrip_witness :
  parseCounter (FormatInt (-12)) = -12 /\
  parseZSet (serialize [mkZ 5 "1-1"; mkZ 7 "2-1"]) = [mkZ 5 "1-1"; mkZ 7 "2-1"] /\
  parseCBState (serialize_cb (mkCbState 2 0 0 17 0)) = mkCbState 2 0 0 17 0 /\
  parseTokenBucket (formatTokenBucket 2.5 1.7e18) = Some (2.5, 1.7e18)%float.
Proof.
  apply (script_state_roundtrip (-12) [mkZ 5 "1-1"; mkZ 7 "2-1"] (mkCbState 2 0 0 17 0) 2.5 1.7e18).
  - go_lia.
  - repeat (apply Forall_cons_2; [split; [cbn; go_lia|by repeat split]|]). apply Forall_nil_2.
  - unfold cb_in64; cbn; split_and!; go_lia.
Defined.

(** The sliding-log script is exact on its state: with a stored set that is
    sorted and holds at most [limit] members, the script allows [n] exactly when
    the members with a score above the cutoff and [n] more fit the limit; it
    drops exactly the others, and what it stores is again sorted, decodable and
    within the limit. *)
Theorem sliding_log_script_exact limit windowNs nowNs id ttlMs n t e zs :
  value e = serialize zs -> zset_ok zs -> 0 <= limit -> 1 <= n <= max_int64 - limit ->
  zlength zs <= limit -> plain_member id ->
  let live := filter (fun z => f64_to_int64 (f64_of_Z nowNs - f64_of_Z windowNs)%float < score z) zs in
  let '(e', r) := slidingLog_body limit windowNs nowNs id ttlMs n t e in
  exists zs', value e' = serialize zs' /\ zset_ok zs' /\ zlength zs' <= limit /\
    if limit <? zlength live + n
    then zs' = live /\ exists d, 0 <= d /\ r = inr (RList [0; zlength live; d])
    else zlength zs' <= zlength live + n /\ r = inr (RList [1; zlength live + n; 0]).
Proof.
  intros He Hok Hl Hn Hlen Hid. cbv zeta. unfold slidingLog_body.
  rewrite He, parseZSet_serialize, remove_is_filter by apply Hok.
  set (cutoff := f64_to_int64 _). set (live := filter _ zs). pose proof (filter_ok cutoff zs Hok) as Hlive. fold live in Hlive.
  assert (zlength live <= zlength zs) as Hle.
  { unfold zlength, live. pose proof (length_filter (fun z => cutoff < score z) zs). lia. }
  assert (0 <= zlength live) by (unfold zlength; lia).
  rewrite wrap64_small by go_lia. destruct (limit <? zlength live + n) eqn:E.
  - exists live. rewrite setTTL_value. split; [done|]. split; [done|]. split; [lia|]. split; [done|].
    eexists. split; [|done]. destruct live as [|z ls]; [lia|].
    destruct (Z.ltb_spec (windowNs -w (f64_to_int64 (f64_of_Z nowNs) -w score z)) 0); lia.
  - apply Z.ltb_ge in E. eexists. rewrite setTTL_value. split; [done|].
    destruct (add_members_ok (Z.to_nat n) 1 (f64_to_int64 (f64_of_Z nowNs)) id live) as [H1 H2];
      [apply f64_to_int64_in64|done|lia|go_lia|done|].
    split_and!; [done| | |done]; unfold zlength in *; lia.
Qed.

Lemma sliding_log_script_exact_witness :
  let e := mkEntry (serialize [mkZ 100 "a-1"; mkZ 200 "b-1"; mkZ 300 "c-1"]) zero_time in
  let '(e', r) := slidingLog_body 3 150 320 "d" 1000 1 0 e in
  exists zs', value e' = serialize zs' /\ zset_ok zs' /\ zlength zs' <= 3 /\
    if 3 <? 2 + 1
    then zs' = [mkZ 200 "b-1"; mkZ 300 "c-1"] /\ exists d, 0 <= d /\ r = inr (RList [0; 2; d])
    else zlength zs' <= 2 + 1 /\ r = inr (RList [1; 2 + 1; 0]).
Proof.
  apply (sliding_log_script_exact 3 150 320 "d" 1000 1 0
    (mkEntry (serialize [mkZ 100 "a-1"; mkZ 200 "b-1"; mkZ 300 "c-1"]) zero_time)
    [mkZ 100 "a-1"; mkZ 200 "b-1"; mkZ 300 "c-1"]).
  - reflexivity.
  - split; [|repeat (apply Forall_cons_2; [split; [cbn; go_lia|by repeat split]|]); apply Forall_nil_2]. unfold sorted_set, by_score. repeat constructor; cbn; lia.
  - lia.
  - go_lia.
  - unfold zlength. cbn. lia.
  - repeat constructor.
Defined.

(** ** The key limit *)

(** A caller of the store: a method or a script. *)
Inductive store_call :=
| CallOp (now : time) (o : store_op)
| CallEval (storeMode : bool) (rd : script_reads) (id : ScriptID) (keys : list string) (args : list arg).

Definition call_prog (max : Z) (c : store_call) : prog :=
  match c with
  | CallOp now o => op_prog max o now
  | CallEval mode rd id keys args => store_Eval max mode rd id keys args
  end.

(** Methods that reserve before they publish; every script does. *)
Definition call_accounted (c : store_call) : bool :=
  match c with CallOp _ o => accounted o | CallEval _ _ _ _ _ => true end.

Lemma int_arg_disciplined max args i k : (forall z, disciplined max 0 0 (k z)) -> disciplined max 0 0 (int_arg args i k).
Proof. intros H. unfold int_arg. destruct (args !! i) as [a|]; [|done]. by destruct (toInt64 a). Qed.

Lemma float_arg_disciplined max args i k : (forall x, disciplined max 0 0 (k x)) -> disciplined max 0 0 (float_arg args i k).
Proof. intros H. unfold float_arg. destruct (args !! i) as [a|]; [|done]. by destruct (toFloat a). Qed.

Lemma loadOrCreateRaw_disciplined max key now k : 0 < max -> (forall l, disciplined max 0 0 (k l)) ->
  disciplined max 0 0 (loadOrCreateRaw max key now k).
Proof.
  intros Hmax Hk. unfold loadOrCreateRaw, reserveSlot.
  assert (0 <? max = true) as -> by (by apply Z.ltb_lt). assert (max <=? 0 = false) as -> by (apply Z.leb_gt; lia).
  cbn [disciplined]. intros [l|]; cbn [disciplined]; [done|]. left. split_and!; [done|intros c Hc|intros c Hc].
  - assert (max <? c = false) as -> by (by apply Z.ltb_ge). cbn [disciplined snd fst]. split_and!; [lia| |done].
    intros l. right. split_and!; [done|lia|]. intros _. apply Hk.
  - assert (max <? c = true) as -> by (by apply Z.ltb_lt). cbn [disciplined]. right. by split_and!; [|lia|].
Qed.

Lemma loadEntry_disciplined max key now k : (forall ol, disciplined max 0 0 (k ol)) ->
  disciplined max 0 0 (loadEntry key now k).
Proof. intros Hk. unfold loadEntry. cbn. intros [l|]; cbn; [intros []|]; apply Hk. Qed.

Lemma store_Eval_disciplined max mode rd id keys args : 0 < max ->
  disciplined max 0 0 (store_Eval max mode rd id keys args).
Proof.
  intros Hmax. destruct id; cbn [store_Eval];
    unfold tokenBucketHandler, gcraHandler, leakyBucketHandler, tat_handler, slidingWindowLogHandler, slidingWindowCounterHandler,
      fixedWindowHandler, cbAcquireHandler, cbRecordHandler, cbReadHandler;
    repeat (case_match; try done);
    repeat ((apply int_arg_disciplined || apply float_arg_disciplined); intros ?; cbv zeta);
    try (destruct (PrimFloat.leb _ PrimFloat.zero); [done|]);
    (apply loadOrCreateRaw_disciplined; [done|]) || apply loadEntry_disciplined;
    intros ?; try apply loadEntry_disciplined; try intros ?; repeat case_match; done.
Qed.

(** The key limit is kept: under any interleaving of any number of [Get],
    [Set], [Del] calls, cleanup passes and script evaluations on a limited store
    the map never holds more than [maxKeys] keys, and once all calls have
    returned the key counter is the number of keys. *)
Theorem memory_capacity_kept max calls s :
  0 < max -> Forall (fun c => call_accounted c = true) calls ->
  reachable max (map (call_prog max) calls) s ->
  nkeys (s_mem s) <= max /\
  (Forall (fun p => finished p = true) (s_progs s) -> keyCount (s_mem s) = nkeys (s_mem s)).
Proof.
  intros Hmax Hc. apply capacity_of_disciplined; [done|].
  induction Hc as [|[now o|mode rd id keys args] calls Hc _ IH]; cbn; constructor; try done.
  - by apply op_disciplined.
  - by apply store_Eval_disciplined.
Qed.

Lemma memory_capacity_kept_witness :
  let calls := [CallOp 0 (SSet "a" "1" 5); CallOp 0 (SSet "b" "2" 0); CallOp 9 (SGet "a");
                CallEval false (script_reads_at 9) FixedWindowScriptID ["w"] [ArgInt 3; ArgInt 1; ArgInt 10]] in
  exists s, reachable 2 (map (call_prog 2) calls) s /\
    nkeys (s_mem s) <= 2 /\
    (Forall (fun p => finished p = true) (s_progs s) -> keyCount (s_mem s) = nkeys (s_mem s)).
Proof.
  intros calls.
  destruct (run_schedule (mkSystem (NewMemory 2) (map (call_prog 2) calls))
    [0; 1; 1; 0; 3; 2; 2; 2; 2; 3; 3; 3]%nat) as [s|] eqn:E; [|vm_compute in E; discriminate].
  exists s. assert (reachable 2 (map (call_prog 2) calls) s) as Hr by (by apply (run_schedule_rtc _ _ _ E)).
  split; [exact Hr|]. apply (memory_capacity_kept 2 calls s); [lia|by repeat constructor|exact Hr].
Defined.
