(* ===== verification/RedisScripts.v ===== *)
(** * The Lua scripts of the Redis store ([ratelimit/store/redis.go]).

    A script is a Lua program that a Redis server runs atomically, with its
    clock frozen.  The server and the Lua runtime are not part of the
    repository: the commands a script calls and the conversions between numbers
    and strings are the operations of class [RedisServer], and class
    [RedisLaws] states what their documentation says.  Lua numbers are doubles;
    a script that uses a missing number fails where it uses it. *)

From Stdlib Require Import Floats Ascii.
From S2P Require Import Prelude Float64 Strconv StoreMemory StoreScripts.
Open Scope Z_scope.

(** ** The server as the scripts see it *)

Inductive redis_error := RErr (msg : string).

(** The clock of the server while a script runs: the milliseconds expiry is
    measured in, and the microseconds [TIME] reports. *)
Record server_clock := mkClock { clk_ms : Z; clk_us : Z }.

(** A program of [redis.call]s: it may fail, and what it wrote stays. *)
Definition lua (DB A : Type) : Type := DB -> (redis_error + A) * DB.

#[export] Instance lua_ret DB : MRet (lua DB) := fun A a db => (inr a, db).
#[export] Instance lua_bind DB : MBind (lua DB) := fun A B f m db =>
  match m db with
  | (inl e, db) => (inl e, db)
  | (inr a, db) => f a db
  end.

Class RedisServer (DB : Type) := {
  (** Lua: [tonumber] of a string, a number as an argument of [redis.call],
      and a number concatenated to a string. *)
  tonumber : string -> option f64;
  call_arg : f64 -> string;
  concat_num : f64 -> string;
  (** The commands, with the server's milliseconds; arguments are strings. *)
  GET : Z -> string -> lua DB (option string);
  SET_PX : Z -> string -> string -> string -> lua DB unit;
  INCRBY : Z -> string -> string -> lua DB Z;
  PEXPIRE : Z -> string -> string -> lua DB unit;
  EXPIRE : Z -> string -> string -> lua DB unit;
  HMGET : Z -> string -> list string -> lua DB (list (option string));
  HSET : Z -> string -> list (string * string) -> lua DB unit;
  HINCRBY : Z -> string -> string -> string -> lua DB Z;
  TIME : Z -> lua DB (string * string);
  ZREMRANGEBYSCORE : Z -> string -> string -> string -> lua DB unit;
  ZCARD : Z -> string -> lua DB Z;
  (** [ZRANGE key 0 0 WITHSCORES]: the first member and its score. *)
  ZRANGE_FIRST : Z -> string -> lua DB (option (string * string));
  ZADD : Z -> string -> string -> string -> lua DB unit;
}.

(** ** Lua *)

Section scripts.
Context {DB : Type} `{RedisServer DB} (clk : server_clock) (KEYS ARGV : list string).

Definition throw {A} (msg : string) : lua DB A := fun db => (inl (RErr msg), db).

(** A value used as a number, or as the name of a key. *)
Definition num (x : option f64) : lua DB f64 :=
  match x with Some v => mret v | None => throw "attempt to perform arithmetic on a nil value" end.

Definition key_at (i : nat) : lua DB string :=
  match KEYS !! i with Some k => mret k | None => throw "Lua redis() command arguments must be strings or integers" end.

(** [tonumber(ARGV[i])], counting from zero. *)
Definition argn (i : nat) : option f64 := ARGV !! i ≫= tonumber.

(** [tonumber(reply) or d]. *)
Definition num_or (d : f64) (s : option string) : f64 := default d (s ≫= tonumber).

Definition lnum (z : Z) : f64 := f64_of_Z z.

(** The script's reply: Lua numbers are truncated to integers. *)
Definition reply_of (xs : list f64) : reply := RList (map f64_to_int64 xs).

(** [math.floor] and [math.ceil], as doubles. *)
Definition math_floor (x : f64) : f64 :=
  match sf x with
  | S754_finite s m e => if 0 <=? e then x else lnum (Z.shiftr (if s then Zneg m else Zpos m) (- e))
  | _ => x
  end.

Definition math_ceil (x : f64) : f64 := (- math_floor (- x))%float.

(** [math.max] and [math.min] keep their first argument unless the second is beyond it. *)
Definition math_max (x y : f64) : f64 := if f64_gtb y x then y else x.
Definition math_min (x y : f64) : f64 := if PrimFloat.ltb y x then y else x.

(** [(tonumber(t[1]) * 1000000 + tonumber(t[2])) * 1000]. *)
Definition server_now_ns : lua DB f64 :=
  t ← TIME (clk_us clk);
  sec ← num (tonumber (fst t));
  usec ← num (tonumber (snd t));
  mret ((sec * lnum 1000000 + usec) * lnum 1000)%float.

(** [now] is replaced by the server's clock when the flag [ARGV[i]] is "1". *)
Definition pick_now (now : option f64) (i : nat) : lua DB (option f64) :=
  if decide (default "0" (ARGV !! i) = "1") then t ← server_now_ns; mret (Some t) else mret now.

(** ** Counters *)

Definition FixedWindowScript : lua DB reply :=
  let limit := argn 0 in
  let n := argn 1 in
  let ttl_ms := argn 2 in
  key ← key_at 0;
  v ← GET (clk_ms clk) key;
  let current := num_or (lnum 0) v in
  n ← num n;
  limit ← num limit;
  if f64_gtb (current + n)%float limit then mret (reply_of [lnum 0; current])
  else
    new_count ← INCRBY (clk_ms clk) key (call_arg n);
    (if PrimFloat.eqb (lnum new_count) n
     then ttl_ms ← num ttl_ms; PEXPIRE (clk_ms clk) key (call_arg ttl_ms)
     else mret ());;
    mret (reply_of [lnum 1; lnum new_count]).

Definition SlidingWindowCounterScript : lua DB reply :=
  let limit := argn 0 in
  let n := argn 1 in
  millionths ← num (argn 2);
  let fraction := (millionths / lnum 1000000)%float in
  let current_ttl_ms := argn 3 in
  current_key ← key_at 0;
  c ← GET (clk_ms clk) current_key;
  prev_key ← key_at 1;
  p ← GET (clk_ms clk) prev_key;
  let current := num_or (lnum 0) c in
  let prev := num_or (lnum 0) p in
  let estimated := (current + prev * (lnum 1 - fraction))%float in
  let estimated_scaled := math_floor (estimated * lnum 1000000)%float in
  n ← num n;
  limit ← num limit;
  if f64_gtb (estimated + n)%float limit then mret (reply_of [lnum 0; current; estimated_scaled])
  else
    new_current ← INCRBY (clk_ms clk) current_key (call_arg n);
    (if PrimFloat.eqb (lnum new_current) n
     then ttl ← num current_ttl_ms; PEXPIRE (clk_ms clk) current_key (call_arg ttl)
     else mret ());;
    mret (reply_of [lnum 1; lnum new_current; estimated_scaled]).

(** [incrByScript], the body of [IncrBy]. *)
Definition incrByScript : lua DB Z :=
  key ← key_at 0;
  v ← INCRBY (clk_ms clk) key (default "" (ARGV !! 0%nat));
  ttl_ms ← num (argn 1);
  (if f64_gtb ttl_ms (lnum 0) && from_option (PrimFloat.eqb (lnum v)) false (argn 0)
   then PEXPIRE (clk_ms clk) key (call_arg ttl_ms)
   else mret ());;
  mret v.

(** ** Arrival times *)

Definition GCRAScript : lua DB reply :=
  let emission_interval := argn 0 in
  let burst := argn 1 in
  let n := argn 2 in
  let ttl_ms := argn 4 in
  now ← pick_now (argn 3) 5;
  key ← key_at 0;
  v ← GET (clk_ms clk) key;
  now ← num now;
  let stored_tat := num_or now v in
  emission_interval ← num emission_interval;
  n ← num n;
  let tat := (math_max stored_tat now + emission_interval * n)%float in
  burst ← num burst;
  let limit_window := (now + emission_interval * burst)%float in
  if f64_gtb tat limit_window then mret (reply_of [lnum 0; (tat - limit_window)%float])
  else
    ttl_ms ← num ttl_ms;
    SET_PX (clk_ms clk) key (call_arg tat) (call_arg ttl_ms);;
    mret (reply_of [lnum 1; lnum 0]).

(** [if depth < 0 then depth = 0 end; if depth > capacity then depth = capacity end]. *)
Definition clamp_depth (capacity depth : f64) : f64 :=
  let depth := if PrimFloat.ltb depth (lnum 0) then lnum 0 else depth in
  if f64_gtb depth capacity then capacity else depth.

Definition LeakyBucketScript : lua DB reply :=
  let emission_interval := argn 0 in
  let capacity := argn 1 in
  let n := argn 2 in
  let ttl_ms := argn 4 in
  now ← pick_now (argn 3) 5;
  key ← key_at 0;
  v ← GET (clk_ms clk) key;
  now ← num now;
  let stored_tat := num_or now v in
  let base := math_max stored_tat now in
  emission_interval ← num emission_interval;
  n ← num n;
  let new_tat := (base + emission_interval * n)%float in
  capacity ← num capacity;
  let limit_window := (now + emission_interval * capacity)%float in
  if f64_gtb new_tat limit_window then
    let retry_after := (new_tat - limit_window)%float in
    let depth := clamp_depth capacity (math_floor ((base - now) / emission_interval)%float) in
    mret (reply_of [lnum 0; depth; retry_after])
  else
    ttl_ms ← num ttl_ms;
    SET_PX (clk_ms clk) key (call_arg new_tat) (call_arg ttl_ms);;
    let depth := clamp_depth capacity (math_floor ((new_tat - now) / emission_interval)%float) in
    mret (reply_of [lnum 1; depth; lnum 0]).

(** ** Token bucket: a hash of two doubles ([HMSET] is the older name of [HSET]) *)

Definition TokenBucketScript : lua DB reply :=
  let capacity := argn 0 in
  let refill_rate := argn 1 in
  let n := argn 2 in
  now ← pick_now (argn 3) 5;
  ttl_ms ← match argn 4 with
           | Some t =>
               if PrimFloat.ltb t (lnum 1)
               then c ← num capacity; r ← num refill_rate; mret (math_ceil (c / r / lnum 1000000)%float)
               else mret t
           | None => c ← num capacity; r ← num refill_rate; mret (math_ceil (c / r / lnum 1000000)%float)
           end;
  key ← key_at 0;
  data ← HMGET (clk_ms clk) key ["tokens"; "last_refill"];
  capacity ← num capacity;
  now ← num now;
  let tokens := num_or capacity (mjoin (data !! 0%nat)) in
  let last_refill := num_or now (mjoin (data !! 1%nat)) in
  let elapsed := (now - last_refill)%float in
  refill_rate ← num refill_rate;
  let refilled := (elapsed * refill_rate)%float in
  let tokens := math_min capacity (tokens + refilled)%float in
  n ← num n;
  if f64_geb tokens n then
    let tokens := (tokens - n)%float in
    HSET (clk_ms clk) key [("tokens", call_arg tokens); ("last_refill", call_arg now)];;
    PEXPIRE (clk_ms clk) key (call_arg ttl_ms);;
    mret (reply_of [lnum 1; math_floor tokens; math_floor refilled])
  else
    HSET (clk_ms clk) key [("tokens", call_arg tokens); ("last_refill", call_arg now)];;
    PEXPIRE (clk_ms clk) key (call_arg ttl_ms);;
    mret (reply_of [lnum 0; math_floor tokens; math_floor refilled]).

(** ** Sliding window log: a sorted set *)

(** [for i = 1, n do ZADD ... end], [k] more members from [i]. *)
Fixpoint add_log_members (k : nat) (i : Z) (key score entry_id : string) : lua DB unit :=
  match k with
  | O => mret ()
  | S k' =>
      ZADD (clk_ms clk) key score (entry_id +:+ "-" +:+ concat_num (lnum i));;
      add_log_members k' (i + 1) key score entry_id
  end.

Definition SlidingWindowLogScript : lua DB reply :=
  let limit := argn 0 in
  let window_ns := argn 1 in
  let entry_id := ARGV !! 3%nat in
  let ttl_ms := argn 4 in
  let n := default (lnum 1) (argn 5) in
  now_ns ← pick_now (argn 2) 6;
  now_ns ← num now_ns;
  window_ns ← num window_ns;
  let cutoff := (now_ns - window_ns)%float in
  key ← key_at 0;
  ZREMRANGEBYSCORE (clk_ms clk) key "-inf" (call_arg cutoff);;
  count ← ZCARD (clk_ms clk) key;
  let count := lnum count in
  limit ← num limit;
  if f64_gtb (count + n)%float limit then
    oldest ← ZRANGE_FIRST (clk_ms clk) key;
    retry_after ← match oldest with
                  | Some (_, s) =>
                      sc ← num (tonumber s);
                      let r := (window_ns - (now_ns - sc))%float in
                      mret (if PrimFloat.ltb r (lnum 0) then lnum 0 else r)
                  | None => mret (lnum 0)
                  end;
    ttl_ms ← num ttl_ms;
    EXPIRE (clk_ms clk) key (call_arg (math_ceil (ttl_ms / lnum 1000)%float));;
    mret (reply_of [lnum 0; count; retry_after])
  else
    (match entry_id with
     | Some id => add_log_members (Z.to_nat (floor_to_int64 n)) 1 key (call_arg now_ns) id
     | None => if f64_geb n (lnum 1) then throw "attempt to concatenate a nil value" else mret ()
     end);;
    ttl_ms ← num ttl_ms;
    PEXPIRE (clk_ms clk) key (call_arg ttl_ms);;
    mret (reply_of [lnum 1; (count + n)%float; lnum 0]).

(** ** Circuit breaker: a hash of five numbers *)

Definition set_fields (key : string) (fs : list (string * f64)) : lua DB unit :=
  HSET (clk_ms clk) key (map (fun f => (fst f, call_arg (snd f))) fs).

Definition CircuitBreakerAcquireScript : lua DB reply :=
  let open_timeout := argn 0 in
  let half_open_max := argn 1 in
  let ttl_ms := argn 2 in
  now_ns ← server_now_ns;
  key ← key_at 0;
  data ← HMGET (clk_ms clk) key ["state"; "opened_at"; "half_open_inflight"];
  let state := num_or (lnum 0) (mjoin (data !! 0%nat)) in
  let opened_at := num_or (lnum 0) (mjoin (data !! 1%nat)) in
  let inflight := num_or (lnum 0) (mjoin (data !! 2%nat)) in
  (** the state and the probes in flight after a promotion; [None] when the circuit stays open *)
  promoted ←
    (if PrimFloat.eqb state (lnum 2) then
       elapsed ← (if f64_gtb opened_at (lnum 0)
                  then open_timeout ← num open_timeout; mret (f64_geb (now_ns - opened_at)%float open_timeout)
                  else mret false);
       if elapsed : bool then
         set_fields key [("state", lnum 1); ("successes", lnum 0); ("half_open_inflight", lnum 0)];;
         mret (Some (lnum 1, lnum 0))
       else mret None
     else mret (Some (state, inflight)));
  match promoted with
  | None => mret (reply_of [lnum 1; lnum 2; opened_at])
  | Some (state, inflight) =>
      if PrimFloat.eqb state (lnum 1) then
        half_open_max ← num half_open_max;
        if f64_geb inflight half_open_max then mret (reply_of [lnum 2; lnum 1])
        else
          HINCRBY (clk_ms clk) key "half_open_inflight" (call_arg (lnum 1));;
          ttl_ms ← num ttl_ms;
          PEXPIRE (clk_ms clk) key (call_arg ttl_ms);;
          mret (reply_of [lnum 0; lnum 1])
      else mret (reply_of [lnum 0; lnum 0])
  end.

(** [open_circuit()] and [close_circuit()]: the fields written; the new state is returned. *)
Definition open_circuit (key : string) (now_ns : f64) : lua DB f64 :=
  set_fields key [("state", lnum 2); ("failures", lnum 0); ("successes", lnum 0);
                  ("opened_at", now_ns); ("half_open_inflight", lnum 0)];;
  mret (lnum 2).

Definition close_circuit (key : string) : lua DB f64 :=
  set_fields key [("state", lnum 0); ("failures", lnum 0); ("successes", lnum 0);
                  ("opened_at", lnum 0); ("half_open_inflight", lnum 0)];;
  mret (lnum 0).

Definition CircuitBreakerRecordScript : lua DB reply :=
  let outcome := argn 0 in
  let failure_threshold := argn 1 in
  let success_threshold := argn 2 in
  let ttl_ms := argn 4 in
  let acquired_probe := default (lnum 0) (argn 5) in
  let is_failure := from_option (PrimFloat.eqb (lnum 1)) false outcome in
  now_ns ← server_now_ns;
  key ← key_at 0;
  data ← HMGET (clk_ms clk) key ["state"; "failures"; "successes"; "half_open_inflight"];
  let state := num_or (lnum 0) (mjoin (data !! 0%nat)) in
  let failures := num_or (lnum 0) (mjoin (data !! 1%nat)) in
  let successes := num_or (lnum 0) (mjoin (data !! 2%nat)) in
  let inflight := num_or (lnum 0) (mjoin (data !! 3%nat)) in
  let inflight := if PrimFloat.eqb acquired_probe (lnum 1) && f64_gtb inflight (lnum 0)
                  then (inflight - lnum 1)%float else inflight in
  state ←
    (if PrimFloat.eqb state (lnum 1) then
       if is_failure then open_circuit key now_ns
       else
         let successes := (successes + lnum 1)%float in
         success_threshold ← num success_threshold;
         if f64_geb successes success_threshold then close_circuit key
         else set_fields key [("successes", successes); ("half_open_inflight", inflight)];; mret state
     else if PrimFloat.eqb state (lnum 0) then
       if is_failure then
         let failures := (failures + lnum 1)%float in
         failure_threshold ← num failure_threshold;
         if f64_geb failures failure_threshold then open_circuit key now_ns
         else set_fields key [("failures", failures); ("half_open_inflight", inflight)];; mret state
       else set_fields key [("half_open_inflight", inflight)];; mret state
     else set_fields key [("half_open_inflight", inflight)];; mret state);
  ttl_ms ← num ttl_ms;
  PEXPIRE (clk_ms clk) key (call_arg ttl_ms);;
  mret (reply_of [state]).

Definition CircuitBreakerReadScript : lua DB reply :=
  let open_timeout := argn 0 in
  now_ns ← server_now_ns;
  key ← key_at 0;
  data ← HMGET (clk_ms clk) key ["state"; "failures"; "successes"; "opened_at"; "half_open_inflight"];
  let state := num_or (lnum 0) (mjoin (data !! 0%nat)) in
  let failures := num_or (lnum 0) (mjoin (data !! 1%nat)) in
  let successes := num_or (lnum 0) (mjoin (data !! 2%nat)) in
  let opened_at := num_or (lnum 0) (mjoin (data !! 3%nat)) in
  let inflight := num_or (lnum 0) (mjoin (data !! 4%nat)) in
  elapsed ← (if PrimFloat.eqb state (lnum 2) && f64_gtb opened_at (lnum 0)
             then open_timeout ← num open_timeout; mret (f64_geb (now_ns - opened_at)%float open_timeout)
             else mret false);
  let state := if elapsed : bool then lnum 1 else state in
  mret (reply_of [state; failures; successes; opened_at; inflight]).

(** The texts the store sends: the scripts of the dispatch table and that of [IncrBy]. *)
Inductive lua_text := ScriptText (id : ScriptID) | IncrByText.

Definition script_body (id : ScriptID) : lua DB reply :=
  match id with
  | TokenBucketScriptID => TokenBucketScript
  | GCRAScriptID => GCRAScript
  | LeakyBucketScriptID => LeakyBucketScript
  | SlidingWindowLogScriptID => SlidingWindowLogScript
  | SlidingWindowCounterScriptID => SlidingWindowCounterScript
  | FixedWindowScriptID => FixedWindowScript
  | CircuitBreakerAcquireScriptID => CircuitBreakerAcquireScript
  | CircuitBreakerRecordScriptID => CircuitBreakerRecordScript
  | CircuitBreakerReadScriptID => CircuitBreakerReadScript
  end.

Definition run_text (t : lua_text) : lua DB reply :=
  match t with
  | ScriptText id => script_body id
  | IncrByText => v ← incrByScript; mret (RInt v)
  end.

End scripts.

(** ** What the documentation of Redis and Lua says

    [rlook ms db k] is the live value of a key at the server's millisecond [ms]
    with its deadline, if it has one.  Each law gives the result of a command
    and the new value of its key; the other keys keep theirs. *)

Inductive rvalue := RString (s : string) | RHash (h : gmap string string) | RZset (z : gmap string f64).

Notation cell := (option (rvalue * option Z)).

Definition deadline (c : cell) : option Z := c ≫= snd.

(** A key with a deadline is gone after it. *)
Definition alive (ms : Z) (c : cell) : cell :=
  match c with Some (_, Some d) => if d <? ms then None else c | _ => c end.

(** The integer of a counter, the fields of a hash, the members of a sorted
    set; an absent key counts as zero or empty. *)
Definition counter_of (c : cell) (z : Z) : Prop :=
  (c = None /\ z = 0) \/ (in64 z /\ exists d, c = Some (RString (FormatInt z), d)).

Definition hash_of (c : cell) (h : gmap string string) : Prop :=
  (c = None /\ h = ∅) \/ exists d, c = Some (RHash h, d).

Definition zset_of (c : cell) (z : gmap string f64) : Prop :=
  (c = None /\ z = ∅) \/ exists d, c = Some (RZset z, d).

Definition zset_cell (z : gmap string f64) (d : option Z) : cell :=
  if decide (z = ∅) then None else Some (RZset z, d).

(** A finite double that is not negative; Lua prints zeros with their sign. *)
Definition plain_num (x : f64) : bool := f64_finite x && f64_nonneg x.

Section laws.
Context {DB : Type} (rlook : Z -> DB -> string -> cell).

(** Only the key [k] changes, to [c]. *)
Definition writes (ms : Z) (db db' : DB) (k : string) (c : cell) : Prop :=
  rlook ms db' k = c /\ forall k', k' <> k -> rlook ms db' k' = rlook ms db k'.

Definition does {A} (m : lua DB A) (ms : Z) (db : DB) (k : string) (a : A) (c : cell) : Prop :=
  exists db', m db = (inr a, db') /\ writes ms db db' k c.
End laws.

Class RedisLaws (DB : Type) `{RedisServer DB} := {
  rlook : Z -> DB -> string -> cell;
  look_later ms ms' db k : ms <= ms' -> rlook ms' db k = alive ms' (rlook ms db k);
  tonumber_int z : 0 <= z <= max_int64 -> tonumber (FormatInt z) = Some (f64_of_Z z);
  tonumber_arg x : plain_num x = true -> tonumber (call_arg x) = Some x;
  call_arg_int z : 0 <= z < 2 ^ 53 -> call_arg (f64_of_Z z) = FormatInt z;
  GET_absent ms db k : rlook ms db k = None -> does rlook (GET ms k) ms db k None None;
  GET_string ms db k s d : rlook ms db k = Some (RString s, d) ->
    does rlook (GET ms k) ms db k (Some s) (Some (RString s, d));
  SET_PX_law ms db k v t : 1 <= t <= max_int64 ->
    does rlook (SET_PX ms k v (FormatInt t)) ms db k () (Some (RString v, Some (ms + t)));
  INCRBY_law ms db k c z : counter_of (rlook ms db k) c -> in64 z -> in64 (c + z) ->
    does rlook (INCRBY ms k (FormatInt z)) ms db k (c + z)
      (Some (RString (FormatInt (c + z)), deadline (rlook ms db k)));
  PEXPIRE_law ms db k v d t : rlook ms db k = Some (v, d) -> 1 <= t <= max_int64 ->
    does rlook (PEXPIRE ms k (FormatInt t)) ms db k () (Some (v, Some (ms + t)));
  PEXPIRE_past ms db k t : in64 t -> t <= 0 -> does rlook (PEXPIRE ms k (FormatInt t)) ms db k () None;
  HMGET_law ms db k h fs : hash_of (rlook ms db k) h ->
    does rlook (HMGET ms k fs) ms db k (map (fun f => h !! f) fs) (rlook ms db k);
  HSET_law ms db k h f v fs : hash_of (rlook ms db k) h ->
    does rlook (HSET ms k ((f, v) :: fs)) ms db k ()
      (Some (RHash (foldl (fun h f => <[fst f := snd f]> h) h ((f, v) :: fs)), deadline (rlook ms db k)));
  HINCRBY_law ms db k h f c z : hash_of (rlook ms db k) h ->
    (h !! f = None /\ c = 0 \/ h !! f = Some (FormatInt c)) -> in64 c -> in64 z -> in64 (c + z) ->
    does rlook (HINCRBY ms k f (FormatInt z)) ms db k (c + z)
      (Some (RHash (<[f := FormatInt (c + z)]> h), deadline (rlook ms db k)));
  concat_num_int z : 0 <= z < 10 ^ 14 -> concat_num (f64_of_Z z) = FormatInt z;
  EXPIRE_law ms db k v d t : rlook ms db k = Some (v, d) -> 1 <= t -> 1000 * t <= max_int64 ->
    does rlook (EXPIRE ms k (FormatInt t)) ms db k () (Some (v, Some (ms + 1000 * t)));
  EXPIRE_absent ms db k t : rlook ms db k = None -> in64 t -> does rlook (EXPIRE ms k (FormatInt t)) ms db k () None;
  ZREMRANGEBYSCORE_law ms db k z x : zset_of (rlook ms db k) z -> plain_num x = true ->
    does rlook (ZREMRANGEBYSCORE ms k "-inf" (call_arg x)) ms db k ()
      (zset_cell (filter (fun p => PrimFloat.leb (snd p) x = false) z) (deadline (rlook ms db k)));
  ZCARD_law ms db k z : zset_of (rlook ms db k) z ->
    does rlook (ZCARD ms k) ms db k (Z.of_nat (size z)) (rlook ms db k);
  ZADD_law ms db k z x m : zset_of (rlook ms db k) z -> plain_num x = true ->
    does rlook (ZADD ms k (call_arg x) m) ms db k () (Some (RZset (<[m := x]> z), deadline (rlook ms db k)));
  ZRANGE_law ms db k z : zset_of (rlook ms db k) z -> map_Forall (fun _ x => plain_num x = true) z ->
    exists r, does rlook (ZRANGE_FIRST ms k) ms db k r (rlook ms db k) /\
      match r with
      | None => z = ∅
      | Some (m, s) => exists x, z !! m = Some x /\ tonumber s = Some x /\
          map_Forall (fun _ y => PrimFloat.leb x y = true) z
      end;
  TIME_law us db : 0 <= us -> exists db', TIME us db = (inr (FormatInt (us / 1000000), FormatInt (us mod 1000000)), db') /\
    forall ms k, rlook ms db' k = rlook ms db k;
}.
