(* ===== verification/RedisModel.v ===== *)
(** * A server that keeps the laws of [RedisLaws]

    A finite map of values with deadlines.  It shows that the laws the
    theorems about the Redis store assume can hold, and lets the scripts be
    run on concrete inputs. *)

From Stdlib Require Import Floats Ascii.
From S2P Require Import Prelude Float64 Float64Round Float64Exact Strconv StoreMemory StoreScripts RedisScripts.
Open Scope Z_scope.

(** ** Numbers and strings: integers in decimal, other doubles as [<m>p<e>]. *)

Definition p_char : ascii := "p".

Definition same_sf (x y : f64) : bool :=
  match sf x, sf y with
  | S754_zero s, S754_zero s' => Bool.eqb s s'
  | S754_finite s m e, S754_finite s' m' e' => Bool.eqb s s' && Pos.eqb m m' && Z.eqb e e'
  | _, _ => false
  end.

Definition model_arg (x : f64) : string :=
  let z := f64_to_int64 x in
  if same_sf (f64_of_Z z) x && (0 <=? z) then FormatInt z
  else match sf x with
       | S754_zero true => "-0"
       | S754_finite false m e => FormatInt (Zpos m) +:+ String p_char (FormatInt e)
       | _ => "nan"
       end.

Definition model_number (s : string) : option f64 :=
  if decide (s = "-0") then Some (-0)%float
  else match split_on p_char s "" with
  | [a] => f64_of_Z <$> ParseInt a
  | [a; b] =>
      m ← ParseInt a; e ← ParseInt b;
      match m with Zpos m => Some (SF2Prim (S754_finite false m e)) | _ => None end
  | _ => None
  end.

Lemma same_sf_eq x y : same_sf x y = true -> x = y.
Proof.
  intros H. apply Prim2SF_inj. unfold same_sf in H.
  destruct (sf x) as [s|s| |s m e], (sf y) as [s'|s'| |s' m' e']; try done.
  - apply Bool.eqb_prop in H. congruence.
  - apply andb_true_iff in H as [[H1 H2]%andb_true_iff H3].
    apply Bool.eqb_prop in H1. apply Pos.eqb_eq in H2. apply Z.eqb_eq in H3. congruence.
Qed.

Lemma same_sf_refl x : f64_finite x = true -> same_sf x x = true.
Proof.
  unfold f64_finite, same_sf. destruct (sf x); try done; intros _; [by rewrite Bool.eqb_reflx|].
  by rewrite Bool.eqb_reflx, Pos.eqb_refl, Z.eqb_refl.
Qed.

Lemma FormatInt_no_p z : in64 z -> avoids (fun c => Ascii.eqb c p_char) (FormatInt z).
Proof. intros Hz. apply FormatInt_avoids; [done|done|]. intros d H%digit_cases. by repeat destruct H as [-> | H]; [..|subst]. Qed.

Lemma model_number_int z : in64 z -> model_number (FormatInt z) = Some (f64_of_Z z).
Proof.
  intros Hz. unfold model_number. rewrite decide_False.
  2: { intros E. pose proof (ParseInt_FormatInt z Hz) as Hp. rewrite E in Hp. change (ParseInt "-0") with (Some 0) in Hp.
       injection Hp as <-. done. }
  rewrite split_on_last by (by apply FormatInt_no_p).
  change ("" +:+ FormatInt z) with (FormatInt z). by rewrite ParseInt_FormatInt.
Qed.

Lemma FormatInt_head m : match FormatInt (Zpos m) with String "-" _ | EmptyString => False | _ => True end.
Proof.
  pose proof (FormatInt_nonempty (Zpos m)) as Hn. unfold FormatInt in *. change (Zpos m <? 0) with false in *. cbv iota in *.
  pose proof (digits_of_chars (fun c => Ascii.eqb c "-"%char) 19 (Zpos m) "" ltac:(lia)) as Hc.
  destruct (digits_of 19 (Zpos m) "") as [|c t]; [done|]. destruct Hc as [Hc _]; [..|done|].
  - intros d H%digit_cases. by repeat destruct H as [-> | H]; [..|subst].
  - destruct c as [[] [] [] [] [] [] [] []]; try done; cbn in Hc; done.
Qed.

Lemma model_number_arg x : plain_num x = true -> model_number (model_arg x) = Some x.
Proof.
  intros Hx. unfold model_arg. destruct (_ && _) eqn:E.
  - apply andb_true_iff in E as [E _]. rewrite model_number_int by apply f64_to_int64_in64. by rewrite (same_sf_eq _ _ E).
  - unfold plain_num, f64_finite, f64_nonneg in Hx. destruct (sf x) as [[]|s| |[] m e] eqn:Ex; try done.
    + unfold model_number. rewrite decide_True by done. f_equal. apply Prim2SF_inj. by rewrite Ex.
    + unfold f64_to_int64, f64_trunc in E. by rewrite Ex in E; unfold same_sf in E; rewrite Ex in E.
    + destruct (canonical_facts m e (bounded_sf _ _ _ _ Ex)) as (He & Hm & _).
      destruct (bounded_fexp m e (bounded_sf _ _ _ _ Ex)) as [_ He'].
      assert (in64 (Zpos m) /\ in64 e) as [Im Ie] by (change (2 ^ 53) with 9007199254740992 in Hm; go_lia).
      unfold model_number. rewrite decide_False.
      2: { intros Eq. pose proof (FormatInt_head m) as Hh. destruct (FormatInt (Zpos m)) as [|c t] eqn:EF; [by destruct Hh|].
           rewrite app_string_cons in Eq. injection Eq as -> _. done. }
      rewrite split_on_piece by (by apply FormatInt_no_p).
      rewrite split_on_last by (by apply FormatInt_no_p). change ("" +:+ ?s) with s.
      change ("" +:+ FormatInt (Zpos m)) with (FormatInt (Zpos m)). change ("" +:+ FormatInt e) with (FormatInt e).
      rewrite !ParseInt_FormatInt by done. cbn -[SF2Prim]. rewrite <- Ex. by rewrite SF2Prim_Prim2SF.
Qed.

Lemma model_arg_int z : 0 <= z < 2 ^ 53 -> model_arg (f64_of_Z z) = FormatInt z.
Proof.
  intros Hz. pose proof (of_Z_exact_int z Hz) as Hx. change (2 ^ 53) with 9007199254740992 in Hz.
  unfold model_arg. rewrite (exact_to_int64 _ z Hx) by go_lia. rewrite same_sf_refl by (by apply (exact_int_facts _ z)).
  by rewrite (proj2 (Z.leb_le 0 z)) by lia.
Qed.

(** ** Commands *)

Notation model_db := (gmap string (rvalue * option Z)).

Definition model_look (ms : Z) (db : model_db) (k : string) : cell := alive ms (db !! k).

Definition put (k : string) (c : cell) (db : model_db) : model_db :=
  match c with Some v => <[k := v]> db | None => delete k db end.

Definition wrong_type {A} : lua model_db A :=
  fun db => (inl (RErr "WRONGTYPE Operation against a key holding the wrong kind of value"), db).

Definition bad_integer {A} : lua model_db A := fun db => (inl (RErr "ERR value is not an integer or out of range"), db).

Definition model_get (ms : Z) (k : string) : lua model_db (option string) := fun db =>
  match model_look ms db k with
  | None => (inr None, db)
  | Some (RString s, _) => (inr (Some s), db)
  | _ => wrong_type db
  end.

Definition model_set_px (ms : Z) (k v t : string) : lua model_db unit := fun db =>
  match ParseInt t with
  | Some t => if t <=? 0 then (inl (RErr "ERR invalid expire time"), db) else (inr (), put k (Some (RString v, Some (ms + t))) db)
  | None => bad_integer db
  end.

Definition model_incrby (ms : Z) (k d : string) : lua model_db Z := fun db =>
  let c := model_look ms db k in
  match c, ParseInt d with
  | (None | Some (RString _, _)), Some d =>
      match match c with Some (RString s, _) => ParseInt s | _ => Some 0 end with
      | Some v => if fits (v + d) then (inr (v + d), put k (Some (RString (FormatInt (v + d)), deadline c)) db) else bad_integer db
      | None => bad_integer db
      end
  | _, None => bad_integer db
  | _, _ => wrong_type db
  end.

Definition model_expire (unit_ms ms : Z) (k t : string) : lua model_db unit := fun db =>
  match ParseInt t with
  | Some t =>
      match model_look ms db k with
      | Some (v, _) => (inr (), put k (if t <=? 0 then None else Some (v, Some (ms + unit_ms * t))) db)
      | None => (inr (), put k None db)
      end
  | None => bad_integer db
  end.

Definition fields_of (c : cell) : option (gmap string string) :=
  match c with None => Some ∅ | Some (RHash h, _) => Some h | _ => None end.

Definition model_hmget (ms : Z) (k : string) (fs : list string) : lua model_db (list (option string)) := fun db =>
  match fields_of (model_look ms db k) with Some h => (inr (map (fun f => h !! f) fs), db) | None => wrong_type db end.

Definition model_hset (ms : Z) (k : string) (fs : list (string * string)) : lua model_db unit := fun db =>
  let c := model_look ms db k in
  match fields_of c with
  | Some h => (inr (), put k (Some (RHash (foldl (fun h f => <[fst f := snd f]> h) h fs), deadline c)) db)
  | None => wrong_type db
  end.

Definition model_hincrby (ms : Z) (k f d : string) : lua model_db Z := fun db =>
  let c := model_look ms db k in
  match fields_of c, ParseInt d with
  | Some h, Some d =>
      match default (Some 0) (ParseInt <$> h !! f) with
      | Some v => if fits (v + d) then (inr (v + d), put k (Some (RHash (<[f := FormatInt (v + d)]> h), deadline c)) db)
                  else bad_integer db
      | None => bad_integer db
      end
  | None, _ => wrong_type db
  | _, None => bad_integer db
  end.

Definition model_time (us : Z) : lua model_db (string * string) := fun db =>
  (inr (FormatInt (us / 1000000), FormatInt (us mod 1000000)), db).

Definition members_of (c : cell) : option (gmap string f64) :=
  match c with None => Some ∅ | Some (RZset z, _) => Some z | _ => None end.

Definition model_zrem (ms : Z) (k lo hi : string) : lua model_db unit := fun db =>
  let c := model_look ms db k in
  match members_of c, model_number hi with
  | Some z, Some hi =>
      (inr (), put k (zset_cell (filter (fun p => PrimFloat.leb (snd p) hi = false) z) (deadline c)) db)
  | None, _ => wrong_type db
  | _, None => bad_integer db
  end.

Definition model_zcard (ms : Z) (k : string) : lua model_db Z := fun db =>
  match members_of (model_look ms db k) with Some z => (inr (Z.of_nat (size z)), db) | None => wrong_type db end.

Definition model_zadd (ms : Z) (k s m : string) : lua model_db unit := fun db =>
  let c := model_look ms db k in
  match members_of c, model_number s with
  | Some z, Some s => (inr (), put k (Some (RZset (<[m := s]> z), deadline c)) db)
  | None, _ => wrong_type db
  | _, None => bad_integer db
  end.

(** The member with the least score. *)
Definition least (l : list (string * f64)) : option (string * f64) :=
  foldr (fun p best => match best with
                       | Some q => Some (if PrimFloat.leb (snd p) (snd q) then p else q)
                       | None => Some p
                       end) None l.

Definition model_zfirst (ms : Z) (k : string) : lua model_db (option (string * string)) := fun db =>
  match members_of (model_look ms db k) with
  | Some z => (inr ((fun p => (fst p, model_arg (snd p))) <$> least (map_to_list z)), db)
  | None => wrong_type db
  end.

#[export] Instance model_server : RedisServer model_db := {|
  tonumber := model_number; call_arg := model_arg;
  concat_num := fun x => FormatInt (f64_to_int64 x);
  GET := model_get; SET_PX := model_set_px; INCRBY := model_incrby;
  PEXPIRE := model_expire 1; EXPIRE := model_expire 1000;
  HMGET := model_hmget; HSET := model_hset; HINCRBY := model_hincrby; TIME := model_time;
  ZREMRANGEBYSCORE ms k _ hi := model_zrem ms k "-inf" hi; ZCARD := model_zcard;
  ZRANGE_FIRST := model_zfirst; ZADD := model_zadd;
|}.

(** ** The laws *)

Lemma alive_later ms ms' c : ms <= ms' -> alive ms' c = alive ms' (alive ms c).
Proof.
  intros H. destruct c as [[v [d|]]|]; cbn; [|done..]. destruct (Z.ltb_spec d ms); cbn; [|done].
  by rewrite (proj2 (Z.ltb_lt d ms')) by lia.
Qed.

(** A value with the deadline of a live one is live. *)
Lemma alive_same ms db k v : alive ms (Some (v, deadline (model_look ms db k))) = Some (v, deadline (model_look ms db k)).
Proof.
  unfold model_look. destruct (db !! k) as [[w [d|]]|]; cbn; [|done..]. destruct (d <? ms) eqn:E; cbn; [done|by rewrite E].
Qed.

Lemma writes_put ms db k c : alive ms c = c -> writes model_look ms db (put k c db) k c.
Proof.
  intros Hc. unfold writes, model_look, put. destruct c as [v|]; split.
  - by rewrite lookup_insert_eq.
  - intros k' Hk. by rewrite lookup_insert_ne.
  - by rewrite lookup_delete_eq.
  - intros k' Hk. by rewrite lookup_delete_ne.
Qed.

Lemma does_put {A} (m : lua model_db A) ms db k a c : m db = (inr a, put k c db) -> alive ms c = c ->
  does model_look m ms db k a c.
Proof. intros E Hc. exists (put k c db). split; [done|by apply writes_put]. Qed.

Lemma does_read {A} (m : lua model_db A) ms db k a c : m db = (inr a, db) -> model_look ms db k = c ->
  does model_look m ms db k a c.
Proof. intros E Hc. exists db. by split. Qed.

Lemma fields_of_hash c h : hash_of c h -> fields_of c = Some h.
Proof. by intros [[-> ->]|(d & ->)]. Qed.

Lemma fits_in64 z : in64 z -> fits z = true.
Proof. unfold fits. go_lia. Qed.

Lemma members_of_zset c z : zset_of c z -> members_of c = Some z.
Proof. by intros [[-> ->]|(d & ->)]. Qed.

Lemma plain_leb_total x y : plain_num x = true -> plain_num y = true -> PrimFloat.leb x y = false -> PrimFloat.leb y x = true.
Proof.
  unfold plain_num. intros [_ Hx]%andb_true_iff [_ Hy]%andb_true_iff E. apply ltb_leb.
  apply leb_false_ltb; [by apply f64_nonneg_not_nan..|done].
Qed.

Lemma plain_not_nan x : plain_num x = true -> is_nan x = false.
Proof. unfold plain_num. intros [_ Hx]%andb_true_iff. by apply f64_nonneg_not_nan. Qed.

Lemma plain_leb_fval x y : plain_num x = true -> plain_num y = true -> fval x <= fval y -> PrimFloat.leb x y = true.
Proof.
  unfold plain_num. intros [Fx Nx]%andb_true_iff [Fy Ny]%andb_true_iff Hle.
  destruct (sf x) as [sx|?| |sx m e] eqn:Ex; [|by unfold f64_finite in Fx; rewrite Ex in Fx..|].
  - unfold f64_finite, f64_nonneg in *. rewrite leb_spec, Ex in *. by destruct (sf y) as [|[]| |[]].
  - unfold f64_nonneg in Nx. rewrite Ex in Nx. destruct sx; [done|]. apply (leb_of_values _ _ _ _ Ex).
    destruct (canonical_facts m e (bounded_sf _ _ _ _ Ex)) as (He & _). unfold fval in Hle. rewrite Ex in Hle.
    pose proof (proj2 (scaled_pos_iff (Zpos m) e He) ltac:(lia)) as Hp. unfold f64_nonneg, at_least in *.
    destruct (sf y) as [?|?| |[] m' e'] eqn:Ey; try done; try lia. split; [|done].
    by apply (canonical_facts m' e' (bounded_sf _ _ _ _ Ey)).
Qed.

Lemma plain_leb_trans x y z : plain_num x = true -> plain_num y = true -> plain_num z = true ->
  PrimFloat.leb x y = true -> PrimFloat.leb y z = true -> PrimFloat.leb x z = true.
Proof.
  intros Px Py Pz Hxy Hyz. apply plain_leb_fval; [done..|]. unfold plain_num in *.
  apply andb_true_iff in Px as [? ?], Py as [? ?], Pz as [? ?]. transitivity (fval y); by apply leb_fval.
Qed.

Lemma least_list l : Forall (fun p => plain_num (snd p) = true) l -> l = [] \/
  exists p, least l = Some p /\ p ∈ l /\ Forall (fun q => PrimFloat.leb (snd p) (snd q) = true) l.
Proof.
  induction 1 as [|p l Hp Hl IH]; [by left|right]. cbn. fold (least l).
  destruct IH as [->|(q & -> & Hq & Hall)]; [exists p; split_and!; [done|set_solver|]|].
  { constructor; [by apply leb_refl, plain_not_nan|constructor]. }
  assert (plain_num (snd q) = true) as Pq by (rewrite Forall_forall in Hl; by apply Hl).
  destruct (PrimFloat.leb (snd p) (snd q)) eqn:E.
  - exists p. split_and!; [done|set_solver|]. constructor; [by apply leb_refl, plain_not_nan|].
    rewrite Forall_forall in Hall, Hl |- *. intros r Hr. apply (plain_leb_trans _ (snd q)); auto.
  - exists q. split_and!; [done|set_solver|]. constructor; [by apply plain_leb_total|done].
Qed.

Lemma least_spec (z : gmap string f64) : map_Forall (fun _ x => plain_num x = true) z ->
  (z = ∅ /\ least (map_to_list z) = None) \/
  exists m x, least (map_to_list z) = Some (m, x) /\ z !! m = Some x /\ map_Forall (fun _ y => PrimFloat.leb x y = true) z.
Proof.
  intros Hz. destruct (least_list (map_to_list z)) as [E|([m x] & E & Hin & Hall)].
  - apply Forall_forall. intros [m x] Hin. apply elem_of_map_to_list in Hin. by apply (Hz m).
  - left. rewrite E. split; [|done]. by apply map_to_list_empty_iff.
  - right. exists m, x. split_and!; [done|by apply elem_of_map_to_list|]. intros m' y Hy.
    rewrite Forall_forall in Hall. apply (Hall (m', y)). by apply elem_of_map_to_list.
Qed.

#[export, program] Instance model_laws : RedisLaws model_db := {| rlook := model_look |}.
Next Obligation. intros ms ms' db k H. by apply alive_later. Qed.
Next Obligation. intros z Hz. apply model_number_int. go_lia. Qed.
Next Obligation. exact model_number_arg. Qed.
Next Obligation. exact model_arg_int. Qed.
Next Obligation. intros ms db k Hl. apply does_read; [|done]. cbn. unfold model_get. by rewrite Hl. Qed.
Next Obligation. intros ms db k s d Hl. apply does_read; [|done]. cbn. unfold model_get. by rewrite Hl. Qed.
Next Obligation.
  intros ms db k v t Ht. apply does_put; cbn.
  - unfold model_set_px. rewrite ParseInt_FormatInt by go_lia. by rewrite (proj2 (Z.leb_gt t 0)) by lia.
  - by rewrite (proj2 (Z.ltb_ge _ _)) by lia.
Qed.
Next Obligation.
  intros ms db k c z Hc Hz Hs. apply does_put; [|apply alive_same]. cbn. unfold model_incrby. rewrite ParseInt_FormatInt by done.
  destruct Hc as [[-> ->]|[Hc (d & ->)]]; [|rewrite ParseInt_FormatInt by done]; by rewrite fits_in64.
Qed.
Next Obligation.
  intros ms db k v d t Hl Ht. apply does_put; cbn.
  - unfold model_expire. rewrite ParseInt_FormatInt by go_lia. by rewrite Hl, (proj2 (Z.leb_gt t 0)), Z.mul_1_l by lia.
  - by rewrite (proj2 (Z.ltb_ge _ _)) by lia.
Qed.
Next Obligation.
  intros ms db k t Ht Hle. apply does_put; [|done]. cbn. unfold model_expire. rewrite ParseInt_FormatInt by done.
  rewrite (proj2 (Z.leb_le t 0)) by lia. by destruct (model_look ms db k) as [[]|].
Qed.
Next Obligation.
  intros ms db k h fs Hh. apply does_read; [|done]. cbn. unfold model_hmget. by rewrite (fields_of_hash _ h).
Qed.
Next Obligation.
  intros ms db k h f v fs Hh. apply does_put; [|apply alive_same]. cbn. unfold model_hset. by rewrite (fields_of_hash _ h).
Qed.
Next Obligation.
  intros ms db k h f c z Hh Hf Hc Hz Hs. apply does_put; [|apply alive_same]. cbn. unfold model_hincrby.
  rewrite (fields_of_hash _ h), ParseInt_FormatInt by done.
  destruct Hf as [[-> ->] | ->]; cbn; rewrite ?ParseInt_FormatInt by done; by rewrite fits_in64.
Qed.
Next Obligation.
  intros z Hz. cbn. f_equal. apply (exact_to_int64 _ z); [|change (10 ^ 14) with 100000000000000 in Hz; go_lia].
  apply of_Z_exact_int. change (10 ^ 14) with 100000000000000 in Hz. change (2 ^ 53) with 9007199254740992. lia.
Qed.
Next Obligation.
  intros ms db k v d t Hl Ht Hm. apply does_put; cbn.
  - unfold model_expire. rewrite ParseInt_FormatInt by go_lia. by rewrite Hl, (proj2 (Z.leb_gt t 0)) by lia.
  - by rewrite (proj2 (Z.ltb_ge _ _)) by lia.
Qed.
Next Obligation.
  intros ms db k t Hl Ht. apply does_put; [|done]. cbn. unfold model_expire. by rewrite ParseInt_FormatInt, Hl by done.
Qed.
Next Obligation.
  intros ms db k z x Hz Hx. apply does_put; [|unfold zset_cell; case_decide; [done|apply alive_same]].
  cbn. unfold model_zrem. by rewrite (members_of_zset _ z), model_number_arg.
Qed.
Next Obligation. intros ms db k z Hz. apply does_read; [|done]. cbn. unfold model_zcard. by rewrite (members_of_zset _ z). Qed.
Next Obligation.
  intros ms db k z x m Hz Hx. apply does_put; [|apply alive_same]. cbn. unfold model_zadd.
  by rewrite (members_of_zset _ z), model_number_arg.
Qed.
Next Obligation.
  intros ms db k z Hz Hx. eexists. split; [apply does_read; [|done]; cbn; unfold model_zfirst; by rewrite (members_of_zset _ z)|].
  destruct (least_spec z Hx) as [[-> ->]|(m & x & -> & Hm & Hle)]; [done|]. cbn. exists x.
  split_and!; [done|apply model_number_arg; by apply (Hx m)|done].
Qed.
Next Obligation. intros us db Hus. by exists db. Qed.
