(* ===== verification/StoreAtomic.v ===== *)
(** * Scripts are atomic: linearizability of the in-memory handlers
    ([ratelimit/store/scripts_memory.go]) under concurrent callers.

    A handler is not one atomic action: it looks the key up, may reserve a slot
    and create the entry, may empty the entry when it has expired, and only then
    enters the entry's mutex.  Shown here: any interleaving of any number of
    single-key handlers, on a store with or without a key limit, gives every
    caller either [ErrStoreFull], without an effect, or the reply it gets when
    the critical sections (and the emptyings of the expired entry) run one
    after another in some order, starting from an absent key.  A distributed
    fixed window therefore keeps its limit whatever its callers' timing. *)

From Stdlib Require Import FunctionalExtensionality.
From stdpp Require Import relations.
From S2P Require Import Prelude Strconv StoreMemory StoreScripts.
Open Scope Z_scope.

(** A critical section and the instant its handler loads the entry. *)
Record section := mkSection { sec_load : time; sec_body : entry -> entry * (store_error + reply) }.

(** The common shape of the handlers once their arguments are read. *)
Definition script_prog (max : Z) (key : string) (s : section) : prog :=
  loadOrCreateRaw max key (sec_load s) (fun l => r <-- Locked l (sec_body s) ;; Ret r).

(** ** Sequential replay *)

(** Run the critical sections of the callers in [log], in order. *)
Fixpoint replay (secs : list section) (log : list nat) (e : entry) : entry * list (nat * (store_error + reply)) :=
  match log with
  | [] => (e, [])
  | i :: log' =>
      match secs !! i with
      | None => replay secs log' e
      | Some s =>
          let '(e1, r) := sec_body s e in
          let '(e2, rs) := replay secs log' e1 in (e2, (i, r) :: rs)
      end
  end.

Lemma replay_snoc secs log e i s : secs !! i = Some s ->
  let '(e1, rs) := replay secs log e in
  replay secs (log ++ [i]) e = (fst (sec_body s e1), rs ++ [(i, snd (sec_body s e1))]).
Proof.
  intros Hi. revert e. induction log as [|j log IH]; intros e; cbn.
  - rewrite Hi. by destruct (sec_body s e).
  - destruct (secs !! j) as [sj|]; [|apply IH]. destruct (sec_body sj e) as [e1 r].
    specialize (IH e1). destruct (replay secs log e1) as [e2 rs]. by rewrite IH.
Qed.

Definition prog_step (p : prog) (m : Memory) : option (prog * Memory) :=
  match p with
  | Ret _ => None
  | Act a k => let '(b, m') := exec_act a m in Some (k b, m')
  end.

Lemma sys_step_prog i st st' : sys_step i st = Some st' ->
  exists p p' m', s_progs st !! i = Some p /\ prog_step p (s_mem st) = Some (p', m') /\
    st' = mkSystem m' (<[i := p']> (s_progs st)).
Proof.
  unfold sys_step. destruct (s_progs st !! i) as [[r|B a k]|]; try done. intros H.
  exists (Act a k). cbn. destruct (exec_act a (s_mem st)) as [b m']. simplify_eq. eauto.
Qed.

Lemma prog_step_Locked {A} l (f : entry -> entry * A) k m :
  prog_step (Act (Locked l f) k) m = Some (k (snd (f (deref m l))), write m l (fst (f (deref m l)))).
Proof. cbn. by destruct (f (deref m l)). Qed.

(** What happens to the entry: caller [i] empties it if it has expired at the
    instant caller [i] looks, or performs its critical section. *)
Inductive event := Expire (i : nat) | Body (i : nat).

#[export] Instance event_eq : EqDecision event.
Proof. solve_decision. Defined.

Definition caller (ev : event) : nat := match ev with Expire i | Body i => i end.

Definition expire_at (now : time) (e : entry) : entry := if isExpired e now then empty_entry else e.

(** Run the events in order, each by its caller. *)
Fixpoint replay_events (secs : list section) (log : list event) (e : entry)
  : entry * list (nat * (store_error + reply)) :=
  match log with
  | [] => (e, [])
  | ev :: log' =>
      match secs !! caller ev with
      | None => replay_events secs log' e
      | Some s =>
          match ev with
          | Expire _ => replay_events secs log' (expire_at (sec_load s) e)
          | Body i =>
              let '(e1, r) := sec_body s e in
              let '(e2, rs) := replay_events secs log' e1 in (e2, (i, r) :: rs)
          end
      end
  end.

(** One event more. *)
Lemma replay_events_snoc secs log e ev s : secs !! caller ev = Some s ->
  let '(e1, rs) := replay_events secs log e in
  replay_events secs (log ++ [ev]) e =
    match ev with
    | Expire _ => (expire_at (sec_load s) e1, rs)
    | Body i => (fst (sec_body s e1), rs ++ [(i, snd (sec_body s e1))])
    end.
Proof.
  intros Hi. revert e. induction log as [|ev' log IH]; intros e; cbn.
  - rewrite Hi. destruct ev; [done|]. by destruct (sec_body s e).
  - destruct (secs !! caller ev') as [sj|]; [|apply IH]. destruct ev' as [j|j]; [apply IH|].
    destruct (sec_body sj e) as [e1 r]. specialize (IH e1).
    destruct (replay_events secs log e1) as [e2 rs]. rewrite IH. by destruct ev.
Qed.

(** Each caller empties the entry at most once, and before its section. *)
Definition ordered (log : list event) : Prop :=
  NoDup log /\ forall a b i, log = a ++ Expire i :: b -> Body i ∉ a.

Lemma ordered_snoc log ev : ordered log -> ev ∉ log -> Body (caller ev) ∉ log -> ordered (log ++ [ev]).
Proof.
  intros [Hnd Ho] Hev Hb. split; [apply NoDup_app; split_and!; [done|set_solver|apply NoDup_singleton]|].
  intros a b i E. destruct b as [|x b _] using rev_ind.
  - apply app_inj_tail in E as [-> ->]. exact Hb.
  - rewrite app_comm_cons, app_assoc in E. apply app_inj_tail in E as [E _]. by apply (Ho a b).
Qed.

Section linearizable.
Context (max : Z) (key : string) (secs : list section).

Notation at_body s l := (Act (Locked l (sec_body s)) Ret).

(** [LoadOrStore] and what follows it. *)
Definition creating (s : section) : prog :=
  Act (LoadOrStore key empty_entry) (fun r =>
    if snd r : bool then
      if 0 <? max then Act (AddCount (-1)) (fun _ => at_body s (fst r)) else at_body s (fst r)
    else at_body s (fst r)).

(** Where a caller that has not performed its section can be: before the
    lookup, the reservation, its return when the store is full, the creation,
    the return of a slot it did not need, or the expiry check. *)
Inductive stage (s : section) (ol : option nat) : prog -> Prop :=
| AtStart : stage s ol (script_prog max key s)
| AtReserve : 0 < max -> stage s ol
    (Act (AddCount 1) (fun c =>
       if max <? c then Act (AddCount (-1)) (fun _ => reject ErrStoreFull) else creating s))
| AtFull : 0 < max -> stage s ol (Act (AddCount (-1)) (fun _ => reject ErrStoreFull))
| AtCreate : stage s ol (creating s)
| AtGiveBack l : ol = Some l -> stage s ol (Act (AddCount (-1)) (fun _ => at_body s l))
| AtCheck l : ol = Some l -> stage s ol
    (Act (Locked l (fun e => (expire_at (sec_load s) e, tt))) (fun _ => at_body s l)).

Definition thread_ok (m : Memory) (log : list event) (i : nat) (s : section) (p : prog) : Prop :=
  (Body i ∉ log /\ Expire i ∉ log /\ stage s (entries m !! key) p) \/
  (Body i ∉ log /\ exists l, entries m !! key = Some l /\ p = at_body s l) \/
  (Body i ∉ log /\ Expire i ∉ log /\ 0 < max /\ p = reject ErrStoreFull) \/
  (exists r, Body i ∈ log /\ p = Ret r /\ (i, r) ∈ snd (replay_events secs log empty_entry)).

Definition lin_inv (log : list event) (st : system) : Prop :=
  wf (s_mem st) /\ ordered log /\ Forall (fun ev => (caller ev < length secs)%nat) log /\
  default empty_entry (view (s_mem st) key) = fst (replay_events secs log empty_entry) /\
  length (s_progs st) = length secs /\
  (forall i s p, secs !! i = Some s -> s_progs st !! i = Some p -> thread_ok (s_mem st) log i s p).

Lemma stage_stable s ol ol' p : (forall l, ol = Some l -> ol' = Some l) -> stage s ol p -> stage s ol' p.
Proof.
  intros H [ |Hm|Hm| |l E|l E]; [constructor 1|by constructor 2|by constructor 3|constructor 4|..];
    [apply (AtGiveBack s ol' l)|apply (AtCheck s ol' l)]; auto.
Qed.

(** The other callers are undisturbed when caller [i] moves. *)
Lemma others_ok m m' log log' i p' (ps : list prog) :
  (forall l, entries m !! key = Some l -> entries m' !! key = Some l) ->
  (log' = log \/ exists ev, log' = log ++ [ev] /\ caller ev = i) ->
  (forall s, secs !! i = Some s -> thread_ok m' log' i s p') -> is_Some (secs !! i) ->
  (forall j s p, secs !! j = Some s -> ps !! j = Some p -> thread_ok m log j s p) ->
  forall j s p, secs !! j = Some s -> <[i := p']> ps !! j = Some p -> thread_ok m' log' j s p.
Proof.
  intros He Hlog Hi [si Ei] Hall j s p Hj Hp.
  apply list_lookup_insert_Some in Hp as [(-> & -> & _)|[Hne Hp]]; [by apply Hi|].
  assert (forall ev', caller ev' = j -> ev' ∉ log -> ev' ∉ log') as Hout.
  { intros ev' Hc Hn. destruct Hlog as [-> |(ev & -> & Hev)]; [done|].
    rewrite elem_of_app, list_elem_of_singleton. intros [?| ->]; [done|congruence]. }
  destruct (Hall j s p Hj Hp) as [(Hb & Hx & Hs)|[(Hb & l & El & ->)|[(Hb & Hx & Hm & ->)|(r & Hin & -> & Hr)]]].
  - left. split_and!; [by apply Hout|by apply Hout|by eapply stage_stable].
  - right; left. split; [by apply Hout|]. exists l. auto.
  - right; right; left. split_and!; [by apply Hout|by apply Hout|done|done].
  - right; right; right. exists r. destruct Hlog as [-> |(ev & -> & Hev)]; [done|]. split_and!; [set_solver|done|].
    rewrite <- Hev in Ei. pose proof (replay_events_snoc secs log empty_entry ev si Ei) as Hsn.
    destruct (replay_events secs log empty_entry) as [e1 rs]. rewrite Hsn. cbn in *. destruct ev; set_solver.
Qed.

Lemma present_state m log l : wf m -> entries m !! key = Some l ->
  default empty_entry (view m key) = fst (replay_events secs log empty_entry) ->
  deref m l = fst (replay_events secs log empty_entry).
Proof. intros Hw E H. by rewrite (view_lookup m key l Hw E) in H. Qed.

Lemma script_start s : script_prog max key s =
  Act (Load key) (fun v => match v with
    | Some l => Act (Locked l (fun e => (expire_at (sec_load s) e, tt))) (fun _ => at_body s l)
    | None =>
        if 0 <? max then
          Act (AddCount 1) (fun c =>
            if max <? c then Act (AddCount (-1)) (fun _ => reject ErrStoreFull) else creating s)
        else creating s
    end).
Proof.
  unfold script_prog, loadOrCreateRaw, reserveSlot, creating, expire_at. f_equal.
  apply functional_extensionality. intros [l|]; [done|]. destruct (Z.ltb_spec 0 max); [|done].
  by rewrite (proj2 (Z.leb_gt _ _)) by lia.
Qed.

(** What one step of caller [i] does: nothing to the entry, an emptying, or its section. *)
Definition stepped (s : section) (m m' : Memory) (log : list event) (i : nat) (p' : prog) : Prop :=
  wf m' /\ (forall l, entries m !! key = Some l -> entries m' !! key = Some l) /\
  let e := fst (replay_events secs log empty_entry) in
  let e' := default empty_entry (view m' key) in
  (e' = e /\ (stage s (entries m' !! key) p' \/ (0 < max /\ p' = reject ErrStoreFull) \/
     exists l, entries m' !! key = Some l /\ p' = at_body s l)) \/
  (e' = expire_at (sec_load s) e /\ exists l, entries m' !! key = Some l /\ p' = at_body s l).

Lemma stage_step s m log i p p' m' :
  wf m -> default empty_entry (view m key) = fst (replay_events secs log empty_entry) ->
  stage s (entries m !! key) p -> prog_step p m = Some (p', m') -> stepped s m m' log i p'.
Proof.
  intros Hw Hv Hst Hp. unfold stepped. destruct Hst as [|Hm|Hm| |l E|l E].
  - rewrite script_start in Hp. cbn in Hp. simplify_eq. split_and!; [done|done|]. left. split; [done|]. left.
    destruct (entries m' !! key) as [l|] eqn:E; [by apply AtCheck|].
    destruct (Z.ltb_spec 0 max); [by apply AtReserve|apply AtCreate].
  - cbn in Hp. simplify_eq. split_and!; [done|done|]. left. split; [done|]. left. cbn.
    case_match; [by apply AtFull|apply AtCreate].
  - cbn in Hp. simplify_eq. split_and!; [done|done|]. left. split; [done|]. by right; left.
  - cbn in Hp. destruct (entries m !! key) as [l|] eqn:E; cbn in Hp; simplify_eq.
    + split_and!; [done|by rewrite E|]. left. split; [done|]. rewrite E.
      destruct (0 <? max); [left; by apply AtGiveBack|right; right; by exists l].
    + split_and!; [by apply publish_wf|done|]. left. split.
      * rewrite view_publish, decide_True by done. cbn. by rewrite view_None in Hv.
      * right; right. cbn. rewrite lookup_insert_eq. by eexists.
  - cbn in Hp. simplify_eq. split_and!; [done|done|]. left. split; [done|]. right; right. by exists l.
  - rewrite prog_step_Locked in Hp. cbn [fst snd] in Hp. simplify_eq.
    pose proof (present_state m log l Hw E Hv) as Hd. rewrite Hd.
    split_and!; [by apply write_wf|done|]. right. split; [|by exists l].
    by rewrite (view_write m key l), decide_True.
Qed.

Lemma lin_inv_step log st st' : lin_inv log st -> step st st' -> exists log', lin_inv log' st'.
Proof.
  intros (Hw & Hor & Hlt & Hv & Hlen & Hall) Hs. inversion Hs as [i st0 st1 Hstep]; subst st0 st1.
  apply sys_step_prog in Hstep as (p & p' & m' & Hp & Hps & ->).
  destruct (lookup_lt_is_Some_2 secs i) as [s Hi]; [rewrite <- Hlen; by eapply lookup_lt_Some|].
  assert (i < length secs)%nat as Hil by (by eapply lookup_lt_Some).
  pose proof (replay_events_snoc secs log empty_entry (Expire i) s Hi) as Hsx.
  pose proof (replay_events_snoc secs log empty_entry (Body i) s Hi) as Hsb.
  destruct (Hall i s p Hi Hp) as [(Hb & Hx & Hst)|[(Hb & l & El & ->)|[(_ & _ & _ & ->)|(r & _ & -> & _)]]]; try done.
  - destruct (stage_step s (s_mem st) log i p p' m' Hw Hv Hst Hps) as (Hw' & He & [[Hv' Hp']|[Hv' (l & El & Hp')]]).
    + exists log. unfold lin_inv. cbn [s_mem s_progs]. rewrite length_insert. split_and!; try done.
      eapply others_ok; [exact He|by left| |done|done]. intros s' Hi'. simplify_eq.
      destruct Hp' as [Hst'|[[Hm ->]|(l & El & ->)]];
        [by left|by right; right; left|right; left; split; [done|by exists l]].
    + exists (log ++ [Expire i]). destruct (replay_events secs log empty_entry) as [e1 rs] eqn:Er. cbn [fst snd] in *.
      unfold lin_inv. cbn [s_mem s_progs]. rewrite Hsx, length_insert. cbn [fst snd].
      split_and!; try done.
      * by apply ordered_snoc.
      * apply Forall_app. split; [done|]. by apply Forall_singleton.
      * eapply others_ok; [exact He|right; by eexists| |done|done]. intros s' Hi'. simplify_eq.
        right; left. split; [set_solver|]. by exists l.
  - rewrite prog_step_Locked in Hps. pose proof (present_state _ log l Hw El Hv) as Hd. rewrite Hd in Hps. simplify_eq.
    exists (log ++ [Body i]). destruct (replay_events secs log empty_entry) as [e1 rs] eqn:Er. cbn [fst snd] in *.
    unfold lin_inv. cbn [s_mem s_progs]. rewrite Hsb, length_insert. cbn [fst snd].
    split_and!; try done.
    + by apply write_wf.
    + by apply ordered_snoc.
    + apply Forall_app. split; [done|]. by apply Forall_singleton.
    + by rewrite (view_write _ key l), decide_True.
    + eapply others_ok; [|right; by eexists| |done|done]; [done|]. intros s' Hi'. simplify_eq.
      right; right; right. eexists. split_and!; [set_solver|done|]. rewrite Hsb. cbn. set_solver.
Qed.

Lemma lin_inv_init : lin_inv [] (mkSystem (NewMemory max) (map (script_prog max key) secs)).
Proof.
  unfold lin_inv. cbn [s_mem s_progs replay_events fst snd]. split_and!.
  - split; intros *; cbn; by rewrite ?lookup_empty.
  - split; [constructor|]. by intros [|? ?] b i.
  - constructor.
  - done.
  - by rewrite length_map.
  - intros i s p Hi Hp. left. split_and!; [by apply not_elem_of_nil..|].
    rewrite list_lookup_fmap, Hi in Hp. simplify_eq/=. apply AtStart.
Qed.

(** Along any run there is an order of what has happened so far. *)
Lemma linearized st : reachable max (map (script_prog max key) secs) st -> exists log, lin_inv log st.
Proof.
  intros Hr. pose proof lin_inv_init as H0. unfold reachable in Hr. revert H0. generalize (@nil event) as log.
  induction Hr as [st|st1 st2 st3 Hs _ IH]; intros log H0; [by exists log|].
  destruct (lin_inv_step _ _ _ H0 Hs) as [log' H1]. by apply (IH log').
Qed.

(** A caller that has returned performed its section or found the store full. *)
Definition answered (log : list event) (st : system) (i : nat) : Prop :=
  (Body i ∈ log /\ exists r, s_progs st !! i = Some (Ret r) /\ (i, r) ∈ snd (replay_events secs log empty_entry)) \/
  (Body i ∉ log /\ Expire i ∉ log /\ 0 < max /\ s_progs st !! i = Some (Ret (inl ErrStoreFull))).

Lemma lin_complete log st : lin_inv log st -> Forall (fun p => finished p = true) (s_progs st) ->
  forall i, (i < length secs)%nat -> answered log st i.
Proof.
  intros (_ & _ & _ & _ & Hlen & Hall) Hf i Hil. destruct (lookup_lt_is_Some_2 secs i Hil) as [s Hi].
  destruct (lookup_lt_is_Some_2 (s_progs st) i) as [p Hp]; [by rewrite Hlen|].
  rewrite Forall_lookup in Hf. pose proof (Hf i p Hp) as Hfin. unfold answered. rewrite Hp.
  destruct (Hall i s p Hi Hp) as [(Hb & Hx & Hst)|[(Hb & l & El & ->)|[(Hb & Hx & Hm & ->)|(r & Hin & -> & Hr)]]].
  - destruct Hst; try done; cbn in Hfin; rewrite ?script_start in Hfin; done.
  - done.
  - right. by split_and!.
  - left. split; [done|]. by exists r.
Qed.

(** *** When no entry expires while the callers run *)

Definition unexpired (e : entry) : Prop := Forall (fun s => isExpired e (sec_load s) = false) secs.

Definition bodies (log : list event) : list nat := omap (fun ev => match ev with Body i => Some i | Expire _ => None end) log.

Lemma elem_of_bodies i log : i ∈ bodies log <-> Body i ∈ log.
Proof.
  unfold bodies. rewrite list_elem_of_omap. split; [intros ([j|j] & Hj & E); simplify_eq; done|].
  intros Hi. by exists (Body i).
Qed.

Lemma bodies_NoDup log : NoDup log -> NoDup (bodies log).
Proof.
  induction 1 as [|ev log Hev _ IH]; [constructor|]. destruct ev as [i|i]; [exact IH|].
  cbn. constructor; [by rewrite elem_of_bodies|exact IH].
Qed.

(** The emptyings are without effect. *)
Lemma replay_bodies log e : (forall s e, s ∈ secs -> unexpired e -> unexpired (fst (sec_body s e))) -> unexpired e ->
  replay_events secs log e = replay secs (bodies log) e.
Proof.
  intros Hfresh. revert e. induction log as [|ev log IH]; intros e He; [done|]. destruct ev as [i|i]; cbn.
  - rewrite <- IH by done. destruct (secs !! i) as [s|] eqn:Ei; [|done]. unfold expire_at.
    by rewrite (Forall_lookup_1 _ _ _ _ He Ei).
  - destruct (secs !! i) as [s|] eqn:Ei; [|by apply IH]. pose proof (Hfresh s e) as Hs.
    destruct (sec_body s e) as [e1 r]. rewrite IH; [done|]. apply Hs; [by eapply list_elem_of_lookup_2|done].
Qed.
End linearizable.

(** All callers done on a store without a key limit, no entry expiring: the
    order is a permutation of the callers. *)
Lemma linearized_all max key secs st : max <= 0 ->
  (forall s e, s ∈ secs -> unexpired secs e -> unexpired secs (fst (sec_body s e))) ->
  reachable max (map (script_prog max key) secs) st -> Forall (fun p => finished p = true) (s_progs st) ->
  exists log, log ≡ₚ seq 0 (length secs) /\
    default empty_entry (view (s_mem st) key) = fst (replay secs log empty_entry) /\
    (forall i, (i < length secs)%nat -> exists r, s_progs st !! i = Some (Ret r) /\
       (i, r) ∈ snd (replay secs log empty_entry)).
Proof.
  intros Hmax Hfresh Hr Hf. destruct (linearized max key secs st Hr) as [log Hlin].
  pose proof (lin_complete max key secs log st Hlin Hf) as Hc.
  destruct Hlin as (_ & [Hnd _] & Hlt & Hv & _). exists (bodies log).
  rewrite <- (replay_bodies secs log empty_entry Hfresh) by (apply Forall_true; done). split_and!; [|done|].
  - apply NoDup_Permutation; [by apply bodies_NoDup|apply NoDup_seq|]. intros i. rewrite elem_of_bodies, elem_of_seq. split.
    + rewrite Forall_forall in Hlt. intros H%Hlt. cbn in H. lia.
    + intros Hi. destruct (Hc i) as [[Hin _]|(_ & _ & ? & _)]; [lia|done|lia].
  - intros i Hi. destruct (Hc i Hi) as [[_ Hr']|(_ & _ & ? & _)]; [done|lia].
Qed.

(** C13: The scripts are atomic.  Whatever the interleaving of any number of
    handlers on one key that is absent at the start, on a store with any key
    limit or none, once all have returned there is an order of the critical
    sections, and of the emptyings of the expired entry that callers perform
    before their section, each at an instant of its caller at which the entry
    has expired, such that running them one after another gives the final
    entry and the reply of every caller; the other callers returned
    [ErrStoreFull] (on a limited store only) and had no effect on the entry. *)
Theorem scripts_linearizable max key secs st :
  reachable max (map (script_prog max key) secs) st -> Forall (fun p => finished p = true) (s_progs st) ->
  exists log, ordered log /\ Forall (fun ev => (caller ev < length secs)%nat) log /\
    default empty_entry (view (s_mem st) key) = fst (replay_events secs log empty_entry) /\
    (forall i, (i < length secs)%nat ->
       (Body i ∈ log /\ exists r, s_progs st !! i = Some (Ret r) /\ (i, r) ∈ snd (replay_events secs log empty_entry)) \/
       (Body i ∉ log /\ Expire i ∉ log /\ 0 < max /\ s_progs st !! i = Some (Ret (inl ErrStoreFull)))).
Proof.
  intros Hr Hf. destruct (linearized max key secs st Hr) as [log Hlin]. exists log.
  pose proof (lin_complete max key secs log st Hlin Hf) as Hc. by destruct Hlin as (_ & Hor & Hlt & Hv & _).
Qed.

(** ** The distributed fixed window *)

(** ** One script on a store without a key limit *)

(** The entry a script finds: a fresh one when the key is absent or expired. *)
Definition found (m : Memory) (key : string) (now : time) : entry :=
  match view m key with
  | Some e => if isExpired e now then empty_entry else e
  | None => empty_entry
  end.

(** A handler goes on with an entry of its own key that holds what it found. *)
Lemma run_loadOrCreate max key now k m : max <= 0 -> wf m ->
  exists l m', run (loadOrCreateRaw max key now k) m = run (k l) m' /\ wf m' /\ entries m' !! key = Some l /\
    deref m' l = found m key now /\ forall k', k' <> key -> view m' k' = view m k'.
Proof.
  intros Hmax Hw. unfold loadOrCreateRaw, found. assert (0 <? max = false) as E0 by (by apply Z.ltb_ge).
  cbn [run exec_act]. rewrite !E0. destruct (entries m !! key) as [l|] eqn:E.
  - rewrite run_Locked. cbn [fst snd]. rewrite (view_lookup m key l Hw E).
    eexists l, (write m l _). split_and!; [done|by apply write_wf|done|..].
    + unfold deref, write. cbn. rewrite list_lookup_insert_eq; [done|]. by eapply Hw.
    + intros k' Hk. by rewrite (view_write _ key l), decide_False.
  - cbn [run exec_act]. rewrite E, (view_None m key E). cbn [fst snd].
    exists (length (heap m)), (publish m key empty_entry). split_and!; [done|by apply publish_wf|..].
    + cbn. by rewrite lookup_insert_eq.
    + unfold deref, publish. cbn. by rewrite lookup_app_r, Nat.sub_diag by lia.
    + intros k' Hk. by rewrite view_publish, decide_False.
Qed.

Lemma run_script max key s m : max <= 0 -> wf m ->
  let e := found m key (sec_load s) in
  let '(r, m') := run (script_prog max key s) m in
  r = snd (sec_body s e) /\ wf m' /\ view m' key = Some (fst (sec_body s e)) /\
  forall k, k <> key -> view m' k = view m k.
Proof.
  intros Hmax Hw. cbv zeta. unfold script_prog.
  destruct (run_loadOrCreate max key (sec_load s) (fun l => r <-- Locked l (sec_body s) ;; Ret r) m Hmax Hw)
    as (l & m1 & -> & W1 & E1 & D1 & V1).
  rewrite run_Locked. cbn [run]. rewrite D1. split_and!; [done|by apply write_wf|..].
  - by rewrite (view_write _ key l), decide_True.
  - intros k Hk. by rewrite (view_write _ key l), decide_False, V1.
Qed.

Definition granted (r : store_error + reply) : bool :=
  match r with inr (RList (1 :: _)) => true | _ => false end.

(** The cost a caller was granted: its cost if its reply says allowed. *)
Definition granted_cost (costs : list Z) (st : system) (i : nat) : Z :=
  match s_progs st !! i, costs !! i with
  | Some (Ret r), Some n => if granted r then n else 0
  | _, _ => 0
  end.

(** One caller of [AllowN] in this window: the instants it reads and its cost. *)
Record fw_call := mkFwCall { fc_reads : script_reads; fc_cost : Z }.

Definition fw_eval (max : Z) (key : string) (limit ttlMs : Z) (c : fw_call) : prog :=
  store_Eval max false (fc_reads c) FixedWindowScriptID [key] [ArgInt limit; ArgInt (fc_cost c); ArgInt ttlMs].

Definition fw_section (limit ttlMs : Z) (c : fw_call) : section :=
  mkSection (sr_load (fc_reads c)) (fixedWindow_body limit (fc_cost c) ttlMs (sr_ttl (fc_reads c))).

Definition replies_cost (costs : list Z) (rs : list (nat * (store_error + reply))) : Z :=
  zsum (map (fun ir => if granted (snd ir) then default 0 (costs !! fst ir) else 0) rs).

Lemma parseCounter_Format c : in64 c -> parseCounter (FormatInt c) = c.
Proof. intros H. unfold parseCounter. by rewrite ParseInt_FormatInt. Qed.

(** A run of critical sections never grants more than the limit leaves. *)
Lemma fw_replay_bound limit ttlMs calls log e :
  0 <= limit <= max_int64 -> Forall (fun c => 1 <= fc_cost c <= max_int64 - limit) calls ->
  0 <= parseCounter (value e) <= limit ->
  parseCounter (value e) +
    replies_cost (map fc_cost calls) (snd (replay (map (fw_section limit ttlMs) calls) log e)) <= limit.
Proof.
  intros Hl Hc. revert e. induction log as [|i log IH]; intros e He; cbn [replay snd]; [cbn; lia|].
  rewrite list_lookup_fmap. destruct (calls !! i) as [c|] eqn:Ei; cbn [fmap option_fmap option_map]; [|by apply IH].
  pose proof (Forall_lookup_1 _ _ _ _ Hc Ei) as Hn. cbn in Hn. cbn [fw_section sec_body]. unfold fixedWindow_body.
  rewrite wrap64_small by go_lia. destruct (Z.ltb_spec limit (parseCounter (value e) + fc_cost c)).
  - specialize (IH e He). destruct (replay _ log e) as [e2 rs]. unfold replies_cost in *. cbn in *. unfold zsum in *. lia.
  - set (e1 := if parseCounter (value e) =? 0 then _ else _).
    assert (parseCounter (value e1) = parseCounter (value e) + fc_cost c) as Hv.
    { transitivity (parseCounter (FormatInt (parseCounter (value e) + fc_cost c))).
      - subst e1. unfold setEntryTTLmsAbs. by repeat case_match.
      - apply parseCounter_Format. go_lia. }
    specialize (IH e1 ltac:(lia)). rewrite Hv in IH.
    destruct (replay _ log e1) as [e2 rs]. unfold replies_cost in *. cbn in *.
    rewrite list_lookup_fmap, Ei. cbn. unfold zsum in *. lia.
Qed.

Lemma replay_domain secs log e : Forall (fun i => (i < length secs)%nat) log ->
  map fst (snd (replay secs log e)) = log.
Proof.
  intros H. revert e. induction H as [|i log Hi _ IH]; intros e; cbn; [done|].
  destruct (lookup_lt_is_Some_2 secs i Hi) as [s ->]. destruct (sec_body s e) as [e1 r]. specialize (IH e1).
  destruct (replay secs log e1) as [e2 rs]. cbn in *. by rewrite IH.
Qed.

Lemma zsum_perm l k : l ≡ₚ k -> zsum l = zsum k.
Proof. unfold zsum. induction 1; cbn; lia. Qed.

(** The costs granted to the callers are those of the replies of the replay. *)
Lemma granted_as_replies costs rs st : NoDup (map fst rs) ->
  (forall i, i ∈ map fst rs -> exists r, s_progs st !! i = Some (Ret r) /\ (i, r) ∈ rs) ->
  zsum (map (granted_cost costs st) (map fst rs)) = replies_cost costs rs.
Proof.
  intros Hnd Hall. unfold replies_cost. f_equal. rewrite map_map. apply map_ext_in. intros [i r] Hin. cbn.
  apply list_elem_of_In in Hin. destruct (Hall i) as (r' & Hp & Hin').
  { apply list_elem_of_fmap. by exists (i, r). }
  assert (r' = r) as ->.
  { apply list_elem_of_lookup in Hin as [a Ha], Hin' as [b Hb].
    assert (a = b) as ->; [|by simplify_eq]. apply (NoDup_lookup (map fst rs) a b i); [done|..];
      rewrite list_lookup_fmap; [by rewrite Ha|by rewrite Hb]. }
  unfold granted_cost. rewrite Hp. by destruct (costs !! i), (granted r).
Qed.

(** Every lookup happens before any expiry the callers set. *)
Definition within_ttl (ttlMs : Z) (calls : list fw_call) : Prop :=
  0 < ttlMs /\ in64 (ttlMs * Millisecond) /\
  forall c d, c ∈ calls -> d ∈ calls ->
    sr_load (fc_reads d) <= sr_ttl (fc_reads c) + ttlMs * Millisecond.

Lemma fw_sections_fresh limit ttlMs calls s e : within_ttl ttlMs calls ->
  s ∈ map (fw_section limit ttlMs) calls -> unexpired (map (fw_section limit ttlMs) calls) e ->
  unexpired (map (fw_section limit ttlMs) calls) (fst (sec_body s e)).
Proof.
  intros (Hp & Hin & Hw) Hs Hu. apply list_elem_of_fmap in Hs as (c & -> & Hc). cbn [fw_section sec_body].
  unfold fixedWindow_body. case_match; [done|]. cbn [fst].
  assert (unexpired (map (fw_section limit ttlMs) calls)
    (mkEntry (FormatInt (parseCounter (value e) +w fc_cost c)) (expiresAt e))) as Hu' by exact Hu.
  case_match; [|done]. unfold setEntryTTLmsAbs. case_match; [done|]. unfold unexpired. rewrite Forall_forall.
  intros s' Hs'. apply list_elem_of_fmap in Hs' as (d & -> & Hd). specialize (Hw c d Hc Hd).
  unfold isExpired, After, time_add. cbn [expiresAt fw_section sec_load]. rewrite wrap64_small by done.
  apply andb_false_iff. right. apply Z.ltb_ge. lia.
Qed.

(** The distributed fixed window keeps its limit under concurrency: however
    the script evaluations of any number of callers of one window interleave,
    once all have returned the costs granted add up to at most the limit
    (callers within the key's time to live). *)
Theorem distributed_fixed_window_limit max key limit ttlMs calls st :
  max <= 0 -> 0 <= limit <= max_int64 -> Forall (fun c => 1 <= fc_cost c <= max_int64 - limit) calls ->
  within_ttl ttlMs calls ->
  reachable max (map (fw_eval max key limit ttlMs) calls) st -> Forall (fun p => finished p = true) (s_progs st) ->
  zsum (map (granted_cost (map fc_cost calls) st) (seq 0 (length calls))) <= limit.
Proof.
  intros Hmax Hl Hc Hw Hr Hf. set (secs := map (fw_section limit ttlMs) calls).
  assert (map (fw_eval max key limit ttlMs) calls = map (script_prog max key) secs) as E
    by (subst secs; rewrite map_map; reflexivity).
  rewrite E in Hr.
  destruct (linearized_all max key secs st Hmax) as (log & Hperm & _ & Hall); try done.
  { intros s e. by apply fw_sections_fresh. }
  assert (Forall (fun i => (i < length secs)%nat) log) as Hlt.
  { rewrite Forall_forall. intros i Hi. rewrite Hperm in Hi. apply elem_of_seq in Hi. lia. }
  pose proof (replay_domain secs log empty_entry Hlt) as Hdom.
  assert (length secs = length calls) as Hlen by (subst secs; by rewrite length_map).
  rewrite <- Hlen, (zsum_perm _ (map (granted_cost (map fc_cost calls) st) log)) by (by rewrite Hperm).
  rewrite <- Hdom at 1. rewrite granted_as_replies.
  - pose proof (fw_replay_bound limit ttlMs calls log empty_entry Hl Hc) as Hb. fold secs in Hb.
    change (parseCounter (value empty_entry)) with 0 in Hb. lia.
  - rewrite Hdom, Hperm. apply NoDup_seq.
  - intros i Hi. rewrite Hdom in Hi. apply Hall. rewrite Forall_forall in Hlt. by apply Hlt.
Qed.

Definition demo_fw_calls : list fw_call :=
  [mkFwCall (script_reads_at 0) 2; mkFwCall (script_reads_at 1) 2; mkFwCall (script_reads_at 2) 1].

(** The third caller looks the key up first and creates the entry last. *)
Definition demo_fw_sched : list nat := [2; 0; 1; 1; 1; 2; 0; 0; 2]%nat.

Definition demo_fw_end : option system :=
  run_schedule (mkSystem (NewMemory 0) (map (fw_eval 0 "w" 3 20) demo_fw_calls)) demo_fw_sched.

Lemma demo_within_ttl : within_ttl 20 demo_fw_calls.
Proof.
  split_and!; [lia|unfold in64, min_int64, max_int64, Millisecond; lia|].
  intros c d Hc Hd. unfold demo_fw_calls in *. rewrite !elem_of_cons, elem_of_nil in Hc, Hd.
  destruct Hc as [-> |[-> |[-> |[]]]], Hd as [-> |[-> |[-> |[]]]]; unfold Millisecond; cbn; lia.
Qed.

Lemma distributed_fixed_window_limit_witness :
  exists st, demo_fw_end = Some st /\ Forall (fun p => finished p = true) (s_progs st) /\
    map (granted_cost [2; 2; 1] st) [0; 1; 2]%nat = [0; 2; 1] /\
    zsum (map (granted_cost (map fc_cost demo_fw_calls) st) (seq 0 (length demo_fw_calls))) <= 3.
Proof.
  destruct demo_fw_end as [st|] eqn:E; [|vm_compute in E; discriminate]. exists st.
  assert (option_map (fun st => (forallb finished (s_progs st), map (granted_cost [2; 2; 1] st) [0; 1; 2]%nat))
    demo_fw_end = Some (true, [0; 2; 1])) as H by (vm_compute; reflexivity).
  rewrite E in H. cbn [option_map] in H.
  assert (forallb finished (s_progs st) = true) as Hf by congruence.
  assert (map (granted_cost [2; 2; 1] st) [0; 1; 2]%nat = [0; 2; 1]) as Hg by congruence.
  assert (Forall (fun p => finished p = true) (s_progs st)) as Hfin.
  { apply List.Forall_forall. by apply forallb_forall. }
  split_and!; [done|done|done|].
  apply (distributed_fixed_window_limit 0 "w" 3 20 demo_fw_calls st).
  - lia.
  - go_lia.
  - repeat constructor; cbn; go_lia.
  - exact demo_within_ttl.
  - by apply (run_schedule_rtc _ demo_fw_sched).
  - done.
Defined.

(** One key at most: the first two callers both miss the key, the second finds
    the store full; the third, after the expiry, empties the entry. *)
Definition full_calls : list fw_call :=
  [mkFwCall (script_reads_at 0) 2; mkFwCall (script_reads_at 1) 2; mkFwCall (script_reads_at (30 * Millisecond)) 1].

Definition full_end : option system :=
  run_schedule (mkSystem (NewMemory 1) (map (fw_eval 1 "w" 3 20) full_calls)) [0; 1; 0; 1; 1; 0; 0; 2; 2; 2]%nat.

Lemma scripts_linearizable_witness :
  exists st log, full_end = Some st /\ ordered log /\
    s_progs st !! 1%nat = Some (Ret (inl ErrStoreFull)) /\
    s_progs st !! 2%nat = Some (Ret (inr (RList [1; 1]))) /\
    default empty_entry (view (s_mem st) "w") =
      fst (replay_events (map (fw_section 3 20) full_calls) log empty_entry).
Proof.
  destruct full_end as [st|] eqn:E; [|vm_compute in E; discriminate]. exists st.
  assert (option_map (fun st => (forallb finished (s_progs st), s_progs st !! 1%nat, s_progs st !! 2%nat)) full_end =
    Some (true, Some (Ret (inl ErrStoreFull)), Some (Ret (inr (RList [1; 1]))))) as H by (vm_compute; reflexivity).
  rewrite E in H. cbn [option_map] in H.
  assert (forallb finished (s_progs st) = true) as Hf by congruence.
  destruct (scripts_linearizable 1 "w" (map (fw_section 3 20) full_calls) st) as (log & Ho & _ & Hv & _).
  - by apply (run_schedule_rtc _ [0; 1; 0; 1; 1; 0; 0; 2; 2; 2]%nat).
  - apply List.Forall_forall, forallb_forall. done.
  - exists log. split_and!; [done|done|congruence|congruence|done].
Defined.
