(* ===== verification/RedisAgree.v ===== *)
(** * One evaluation of a Redis script and of its in-memory emulation

    The Lua script and the critical section of [scripts_memory.go] run side by
    side on related states: the live value of a key on the server and the entry
    of the in-memory store.  Both keep time in milliseconds of one clock. *)

From Stdlib Require Import Floats Sorting.Sorted.
From S2P Require Import Prelude Float64 Float64Round Float64Exact Strconv StoreMemory StoreScripts RedisScripts RedisModel StoreAtomic.
Open Scope Z_scope.

(** ** Related values *)

Definition deadline_rel (d : option Z) (x : time) : Prop :=
  match d with None => x = zero_time | Some ms => 0 <= ms /\ x = ms * Millisecond end.

(** Counters below [2^52] add exactly in doubles; a time to live below [2^40]
    milliseconds (34 years) fits a [time.Duration]. *)
Definition counter_bound : Z := 4503599627370496.
Definition ttl_bound : Z := 1099511627776.

Ltac bounds := unfold counter_bound, ttl_bound in *; change (2 ^ 53) with 9007199254740992 in *; go_lia.

Definition counter_rel (c : cell) (e : entry) : Prop :=
  (c = None /\ e = empty_entry) \/
  exists v d, 0 <= v < counter_bound /\ c = Some (RString (FormatInt v), d) /\
    value e = FormatInt v /\ deadline_rel d (expiresAt e).

(** Arrival times stay below [2^61] nanoseconds (the year 2043): the largest double below it. *)
Definition tat_bound : Z := 2305843009213693696.

(** The bound of the burst, now + interval * burst, in doubles. *)
Definition limit_window (emission burst now : Z) : f64 := (f64_of_Z now + f64_of_Z emission * f64_of_Z burst)%float.

Definition window_fits (emission burst now : Z) : bool := PrimFloat.leb (limit_window emission burst now) (f64_of_Z tat_bound).

Section parity.
Context {DB : Type} `{RedisLaws DB}.

(** ** Running a script *)

Lemma lua_bind_ok {A B} (m : lua DB A) (f : A -> lua DB B) db a db' :
  m db = (inr a, db') -> (m ≫= f) db = f a db'.
Proof. intros E. unfold mbind, lua_bind. by rewrite E. Qed.

Lemma key_at_ok key keys i (db : DB) : keys !! i = Some key -> key_at keys i db = (@inr redis_error _ key, db).
Proof. unfold key_at. by intros ->. Qed.

Lemma num_ok x (db : DB) : num (Some x) db = (@inr redis_error _ x, db).
Proof. done. Qed.

Lemma argn_int args i z : args !! i = Some (FormatInt z) -> 0 <= z <= max_int64 -> argn args i = Some (f64_of_Z z).
Proof. unfold argn. intros -> Hz. cbn. by apply tonumber_int. Qed.

Lemma writes_trans ms db db' db'' k c c' :
  writes rlook ms db db' k c -> writes rlook ms db' db'' k c' -> writes rlook ms db db'' k c'.
Proof. intros [_ H1] [H2 H3]. split; [done|]. intros k' Hk. by rewrite H3, H1. Qed.

(** The number and the deadline of a related counter. *)
Definition counter_value (e : entry) : Z := parseCounter (value e).

Lemma bound_in64 v : 0 <= v < counter_bound -> in64 v /\ 0 <= v <= max_int64 /\ 0 <= v < 2 ^ 53.
Proof. bounds. Qed.

Lemma counter_rel_value c e : counter_rel c e -> counter_of c (counter_value e) /\ 0 <= counter_value e < counter_bound /\
  deadline_rel (deadline c) (expiresAt e).
Proof.
  intros [[-> ->]|(v & d & Hv & -> & Hval & Hd)].
  - split_and!; [by left|done|done|done].
  - destruct (bound_in64 v Hv) as (H64 & _). unfold counter_value. rewrite Hval, parseCounter_Format by done.
    split_and!; [right; by eauto|lia|lia|done].
Qed.

(** [GET] of a counter and the default of the script. *)
Lemma GET_counter ms db k c e : rlook ms db k = c -> counter_rel c e ->
  exists v, num_or (lnum 0) v = f64_of_Z (counter_value e) /\ does rlook (GET ms k) ms db k v c.
Proof.
  intros Hl [[-> ->]|(v & d & Hv & -> & Hval & Hd)].
  - exists None. split; [done|by apply GET_absent].
  - exists (Some (FormatInt v)). destruct (bound_in64 v Hv) as (H64 & Hm & _). split; [|by apply GET_string].
    unfold num_or, counter_value. cbn. rewrite tonumber_int, Hval, parseCounter_Format by done. done.
Qed.

(** One evaluation on both sides: the same reply, related values, the other keys as before. *)
Definition agrees (rel : cell -> entry -> Prop) (ms : Z) (script : lua DB reply) (db : DB) (k : string)
    (body : entry -> entry * (store_error + reply)) (e : entry) : Prop :=
  exists db' r e', script db = (inr r, db') /\ body e = (e', inr r) /\ rel (rlook ms db' k) e' /\
    forall k', k' <> k -> rlook ms db' k' = rlook ms db k'.

End parity.

Ltac lua_step := first
  [ rewrite (lua_bind_ok (num (Some _)) _ _ _ _ (num_ok _ _))
  | match goal with E : ?m ?db = (inr ?a, ?db') |- context [(?m ≫= _) ?db] => rewrite (lua_bind_ok m _ db a db' E) end ].

Section agreement.
Context {DB : Type} `{RedisLaws DB}.

(** ** Counters *)

(** [INCRBY] and the expiry of a new counter, as both counter scripts do it. *)
Definition bump (ms : Z) (k : string) (n : f64) (ttl : option f64) : lua DB Z :=
  new_count ← INCRBY ms k (call_arg n);
  (if PrimFloat.eqb (lnum new_count) n then t ← num ttl; PEXPIRE ms k (call_arg t) else mret ());;
  mret new_count.

Definition bump_entry (n ttl : Z) (t : time) (e : entry) : entry :=
  let e' := mkEntry (FormatInt (counter_value e + n)) (expiresAt e) in
  if counter_value e =? 0 then setEntryTTLmsAbs e' ttl t else e'.

Lemma setTTL_deadline v x ttl ms : 0 <= ms -> 1 <= ttl < ttl_bound ->
  setEntryTTLmsAbs (mkEntry v x) ttl (ms * Millisecond) = mkEntry v ((ms + ttl) * Millisecond).
Proof.
  intros Hms Ht. unfold setEntryTTLmsAbs. rewrite (proj2 (Z.leb_gt ttl 0)) by lia. cbn [value]. f_equal.
  unfold time_add, Millisecond. rewrite wrap64_small by (bounds). lia.
Qed.

Lemma bump_spec ms db k e n ttl : 0 <= ms -> counter_rel (rlook ms db k) e -> 0 <= n -> counter_value e + n < counter_bound ->
  1 <= ttl < ttl_bound ->
  exists db', bump ms k (f64_of_Z n) (Some (f64_of_Z ttl)) db = (inr (counter_value e + n), db') /\
    counter_rel (rlook ms db' k) (bump_entry n ttl (ms * Millisecond) e) /\
    forall k', k' <> k -> rlook ms db' k' = rlook ms db k'.
Proof.
  intros Hms Hrel Hn Hsum Ht. destruct (counter_rel_value _ _ Hrel) as (Hc & Hv & Hd).
  set (v := counter_value e) in *. destruct (bound_in64 v Hv) as (V1 & V2 & V3).
  destruct (bound_in64 n ltac:(lia)) as (N1 & N2 & N3). destruct (bound_in64 (v + n) ltac:(lia)) as (S1 & S2 & S3).
  destruct (INCRBY_law ms db k v n Hc N1 S1) as (db1 & E1 & W1). unfold bump.
  rewrite call_arg_int by done. lua_step.
  rewrite (exact_eqb _ _ (v + n) n) by (unfold lnum; auto with golib).
  unfold bump_entry. fold v. destruct (Z.eqb_spec v 0) as [Ev|Ev].
  - rewrite (proj2 (Z.eqb_eq _ _)) by lia. rewrite setTTL_deadline by done.
    destruct (PEXPIRE_law ms db1 k _ _ ttl (proj1 W1)) as (db2 & E2 & W2); [bounds|].
    unfold mbind at 1. unfold lua_bind at 1. lua_step. rewrite call_arg_int by (bounds).
    rewrite E2. exists db2. split; [done|]. destruct (writes_trans _ _ _ _ _ _ _ W1 W2) as [L F]. split; [|done].
    right. exists (v + n), (Some (ms + ttl)). split_and!; (done || lia || (cbn; lia)).
  - rewrite (proj2 (Z.eqb_neq _ _)) by lia. exists db1. split; [done|]. destruct W1 as [L F]. split; [|done].
    right. exists (v + n), (deadline (rlook ms db k)). split_and!; (done || lia).
Qed.

Lemma bump_tail {B} ms k n ttl (f : Z -> B) db c db' : bump ms k n ttl db = (inr c, db') ->
  (INCRBY ms k (call_arg n) ≫= fun nc =>
    (if PrimFloat.eqb (lnum nc) n then t ← num ttl; PEXPIRE ms k (call_arg t) else mret ()) ≫= fun _ => mret (f nc)) db =
  (inr (f c), db').
Proof.
  unfold bump, mbind, lua_bind, mret, lua_ret. destruct (INCRBY ms k (call_arg n) db) as [[e|nc] db1]; [done|].
  destruct (PrimFloat.eqb _ _); [|cbn; congruence].
  destruct (num ttl db1) as [[e|t] db2]; [done|]. destruct (PEXPIRE _ _ _ db2) as [[e|u] db3]; cbn; congruence.
Qed.

(** Small integers come back from a script unchanged. *)
Lemma reply_ints_ok zs : Forall (fun z => 0 <= z < 2 ^ 53) zs -> reply_of (map f64_of_Z zs) = RList zs.
Proof.
  intros Hz. unfold reply_of. f_equal. rewrite map_map. induction Hz as [|z zs Hz _ IH]; cbn; [done|].
  rewrite IH, (exact_to_int64 _ z); [done|by auto with golib|bounds].
Qed.

Lemma FixedWindow_agrees clk db k e limit n ttl : 0 <= clk_ms clk -> counter_rel (rlook (clk_ms clk) db k) e ->
  0 <= limit < counter_bound -> 0 <= n < counter_bound -> 1 <= ttl < ttl_bound ->
  agrees counter_rel (clk_ms clk) (FixedWindowScript clk [k] (map FormatInt [limit; n; ttl])) db k
    (fixedWindow_body limit n ttl (clk_ms clk * Millisecond)) e.
Proof.
  intros Hms Hrel Hl Hn Ht. destruct (counter_rel_value _ _ Hrel) as (Hc & Hv & Hd).
  destruct (bound_in64 limit Hl) as (L1 & L2 & L3). destruct (bound_in64 n Hn) as (N1 & N2 & N3).
  destruct (GET_counter (clk_ms clk) db k _ e eq_refl Hrel) as (g & Eg & db1 & E1 & W1).
  unfold agrees, FixedWindowScript. cbn [map]. rewrite (argn_int _ 0 limit), (argn_int _ 1 n), (argn_int _ 2 ttl)
    by (done || bounds).
  rewrite (lua_bind_ok _ _ _ k db) by done. lua_step. rewrite Eg. do 2 lua_step.
  set (v := counter_value e) in *. destruct (bound_in64 v Hv) as (V1 & V2 & V3).
  rewrite (exact_gtb _ _ (v + n) limit) by (try apply exact_add_small; auto with golib; bounds).
  unfold fixedWindow_body. fold (counter_value e). fold v. rewrite (wrap64_small (v + n)) by bounds.
  destruct (Z.ltb_spec limit (v + n)) as [Hgt|Hle].
  - exists db1, (RList [0; v]), e. change [lnum 0; f64_of_Z v] with (map f64_of_Z [0; v]).
    rewrite reply_ints_ok by (repeat constructor; bounds). destruct W1 as [-> F]. done.
  - destruct (bump_spec (clk_ms clk) db1 k e n ttl Hms) as (db2 & E2 & R2 & F2); [by rewrite (proj1 W1)|lia|bounds|done|].
    rewrite (bump_tail _ _ _ _ _ _ _ _ E2). exists db2, (RList [1; v + n]), (bump_entry n ttl (clk_ms clk * Millisecond) e).
    change [lnum 1; lnum (counter_value e + n)] with (map f64_of_Z [1; v + n]).
    rewrite reply_ints_ok by (repeat constructor; bounds). split_and!; [done|done|done|].
    intros k' Hk. rewrite F2 by done. by apply W1.
Qed.

(** ** Arrival times *)

Definition tat_rel (c : cell) (e : entry) : Prop :=
  (c = None /\ e = empty_entry) \/
  exists s x z d, c = Some (RString s, d) /\ tonumber s = Some x /\ exact_int x z /\ z <= tat_bound /\
    value e = FormatInt z /\ deadline_rel d (expiresAt e).

Lemma tat_bound_in64 z : 0 <= z <= tat_bound -> in64 z /\ 0 <= z <= max_int64.
Proof. unfold tat_bound. bounds. Qed.

Lemma exact_plain x z : exact_int x z -> plain_num x = true.
Proof. intros H1. destruct (exact_int_facts x z H1) as (F & N & _). unfold plain_num. by rewrite F, N. Qed.

(** What [GET] and the parse of the entry give: the same double, an integer. *)
Lemma GET_tat ms db k e now : tat_rel (rlook ms db k) e -> 0 <= now <= max_int64 ->
  exists v, num_or (f64_of_Z now) v = from_option f64_of_Z (f64_of_Z now) (ParseInt (value e)) /\
    is_int (num_or (f64_of_Z now) v) /\ does rlook (GET ms k) ms db k v (rlook ms db k).
Proof.
  intros [[Hl ->]|(s & x & z & d & Hl & Hs & Hx & Hz & Hval & Hd)] Hnow; rewrite Hl.
  - exists None. split_and!; [done|by apply of_Z_is_int|by apply GET_absent].
  - pose proof (exact_int_nonneg x z Hx). destruct (tat_bound_in64 z ltac:(lia)) as (Z1 & Z2).
    exists (Some s). unfold num_or. cbn. rewrite Hs, Hval, ParseInt_FormatInt by done. cbn.
    rewrite (exact_roundtrip x z) by (done || lia). split_and!; [done|by eapply exact_is_int|by apply GET_string].
Qed.

Lemma is_int_nonneg x : is_int x -> f64_nonneg x = true.
Proof. unfold is_int, int_or_inf, f64_nonneg. by destruct (sf x) as [|[]| |[]]. Qed.

(** An integer at most an integer. *)
Lemma int_below x y b : is_int x -> exact_int y b -> PrimFloat.leb x y = true -> exists a, exact_int x a /\ a <= b.
Proof.
  intros Hx Hy Hle. destruct (exact_int_facts y b Hy) as (Fy & _).
  destruct (is_int_finite x Hx (f64_finite_between x y (is_int_nonneg x Hx) Hle Fy)) as [a Ha].
  exists a. split; [done|]. rewrite (exact_leb x y a b Ha Hy) in Hle. lia.
Qed.

Lemma line_is_int base a b : is_int base -> 0 <= a <= max_int64 -> 0 <= b <= max_int64 ->
  is_int (base + f64_of_Z a * f64_of_Z b)%float.
Proof. intros. apply add_is_int; [done|]. apply mul_is_int; by (apply of_Z_is_int || apply of_Z_finite). Qed.

(** An admitted arrival time fits. *)
Lemma admitted_tat base emission n burst now :
  is_int base -> 0 <= emission <= max_int64 -> 0 <= n <= max_int64 -> 0 <= burst <= max_int64 -> 0 <= now <= max_int64 ->
  window_fits emission burst now = true ->
  f64_gtb (base + f64_of_Z emission * f64_of_Z n)%float (limit_window emission burst now) = false ->
  exists z, exact_int (base + f64_of_Z emission * f64_of_Z n)%float z /\ 0 <= z <= tat_bound.
Proof.
  intros Hb He Hn Hbu Hnow Hfit Hle. pose proof (line_is_int base emission n Hb He Hn) as Hi.
  pose proof (line_is_int _ emission burst (of_Z_is_int now Hnow) He Hbu) as Hw.
  assert (exact_int (f64_of_Z tat_bound) tat_bound) as HB.
  { apply of_Z_representable; [done|right]. apply (shifted_representable 9007199254740991 8); lia. }
  destruct (int_below _ _ _ Hw HB Hfit) as (zw & Ew & Hzw).
  destruct (int_below _ _ _ Hi Ew) as (z & Ez & Hz).
  { apply ltb_false_leb; [by apply f64_nonneg_not_nan, is_int_nonneg..|done]. }
  exists z. split; [done|]. pose proof (exact_int_nonneg _ _ Ez). lia.
Qed.

(** Both sides store an admitted arrival time with its time to live. *)
Lemma SET_tat ms db k x z ttl : 0 <= ms -> exact_int x z -> 0 <= z <= tat_bound -> 1 <= ttl < ttl_bound ->
  exists db', SET_PX ms k (call_arg x) (call_arg (f64_of_Z ttl)) db = (inr (), db') /\
    (forall e, tat_rel (rlook ms db' k)
       (setEntryTTLmsAbs (mkEntry (FormatInt (f64_to_int64 x)) (expiresAt e)) ttl (ms * Millisecond))) /\
    forall k', k' <> k -> rlook ms db' k' = rlook ms db k'.
Proof.
  intros Hms Hx Hz Ht. rewrite call_arg_int by bounds.
  destruct (SET_PX_law ms db k (call_arg x) ttl ltac:(bounds)) as (db' & E & L & F). exists db'. split_and!; [done| |done].
  intros e. rewrite setTTL_deadline by done. right. exists (call_arg x), x, z, (Some (ms + ttl)).
  destruct (tat_bound_in64 z Hz) as (Z1 & Z2). cbn [value expiresAt].
  rewrite (exact_to_int64 x z) by (done || lia).
  split_and!; [done|by apply tonumber_arg; eapply exact_plain|done|lia|done|cbn; lia].
Qed.

(** The decision of the scripts on the entry, as the emulation computes it. *)
Lemma tat_float_eq emission cap n now e v :
  num_or (f64_of_Z now) v = from_option f64_of_Z (f64_of_Z now) (ParseInt (value e)) ->
  tat_float emission cap n now e =
    (math_max (num_or (f64_of_Z now) v) (f64_of_Z now),
     (math_max (num_or (f64_of_Z now) v) (f64_of_Z now) + f64_of_Z emission * f64_of_Z n)%float,
     limit_window emission cap now).
Proof. intros ->. unfold tat_float, math_max, limit_window. by destruct (ParseInt (value e)). Qed.

Lemma math_max_int x y : is_int x -> is_int y -> is_int (math_max x y).
Proof. unfold math_max. by destruct (f64_gtb y x). Qed.

Record tat_args (emission burst n now ttl : Z) : Prop := {
  ta_emission : 0 <= emission <= max_int64; ta_burst : 0 <= burst <= max_int64;
  ta_n : 0 <= n <= max_int64; ta_now : 0 <= now <= max_int64;
  ta_ttl : 1 <= ttl < ttl_bound; ta_fits : window_fits emission burst now = true }.

Lemma GCRA_agrees clk db k e emission burst n now ttl : 0 <= clk_ms clk -> tat_rel (rlook (clk_ms clk) db k) e ->
  tat_args emission burst n now ttl ->
  agrees tat_rel (clk_ms clk) (GCRAScript clk [k] (map FormatInt [emission; burst; n; now; ttl; 0])) db k
    (gcra_body emission burst n now ttl (clk_ms clk * Millisecond)) e.
Proof.
  intros Hms Hrel [He Hb Hn Hnow Ht Hfit].
  destruct (GET_tat (clk_ms clk) db k e now Hrel Hnow) as (g & Eg & Ig & db1 & E1 & W1).
  unfold agrees, GCRAScript. cbn [map].
  rewrite (argn_int _ 0 emission), (argn_int _ 1 burst), (argn_int _ 2 n), (argn_int _ 3 now), (argn_int _ 4 ttl) by (done || bounds).
  rewrite (lua_bind_ok _ _ _ (Some (f64_of_Z now)) db) by done. rewrite (lua_bind_ok _ _ _ k db) by done. do 5 lua_step.
  unfold gcra_body. rewrite (tat_float_eq emission burst n now e g Eg). fold (limit_window emission burst now).
  pose proof (math_max_int _ _ Ig (of_Z_is_int now Hnow)) as Ib. set (base := math_max _ _) in *.
  destruct (f64_gtb _ _) eqn:Eg'.
  - eexists db1, _, e. split_and!; [done|done|by destruct W1 as [-> ?]|apply W1].
  - destruct (admitted_tat base emission n burst now) as (z & Ez & Hz); [done..|].
    destruct (SET_tat (clk_ms clk) db1 k _ z ttl Hms Ez Hz Ht) as (db2 & E2 & R2 & F2).
    lua_step. lua_step. eexists db2, _, _. split_and!; [done|done|by apply R2|].
    intros k' Hk. rewrite F2 by done. by apply W1.
Qed.

(** *** The depth of the leaky bucket *)

Lemma floor_reply x : f64_to_int64 (math_floor x) = floor_to_int64 x.
Proof.
  unfold math_floor, floor_to_int64, f64_floor. destruct (sf x) as [s|s| |s m e] eqn:E.
  1-3: unfold f64_to_int64, f64_trunc; by rewrite E.
  destruct (Z.leb_spec 0 e) as [He|He].
  - unfold f64_to_int64, f64_trunc. rewrite E, (proj2 (Z.leb_le 0 e)) by done.
    destruct s; [|done]. by rewrite !Z.shiftl_mul_pow2, <- Pos2Z.opp_pos, Z.mul_opp_l by done.
  - destruct (canonical_facts m e (bounded_sf _ _ _ _ E)) as (_ & Hm & _).
    rewrite Z.shiftr_div_pow2 by lia. pose proof (pow2_pos (- e) ltac:(lia)) as Hp.
    set (z := (if s then Zneg m else Zpos m) / 2 ^ (- e)).
    change (2 ^ 53) with 9007199254740992 in Hm. remember (2 ^ (- e)) as q eqn:Eq.
    assert (- 9007199254740992 <= z < 9007199254740992) as Hz.
    { unfold z. split; [apply Z.div_le_lower_bound|apply Z.div_lt_upper_bound]; destruct s;
        rewrite <- ?Pos2Z.opp_pos; nia. }
    rewrite (proj2 (Z.leb_le _ _)), (proj2 (Z.leb_le _ _)) by go_lia. cbn [andb].
    unfold lnum. destruct (Z.le_gt_cases 0 z) as [Hnn|Hneg].
    + apply exact_to_int64; [apply of_Z_exact_int|]; bounds.
    + assert (exact_int (f64_of_Z (- z)) (- z)) as Hx.
      { apply of_Z_representable; [go_lia|]. destruct (Z.eq_dec (- z) (2 ^ 53)) as [->|]; [right; by apply (shifted_representable 1 53)|].
        right. apply small_representable. bounds. }
      assert (f64_of_Z z = (- f64_of_Z (- z))%float) as ->.
      { unfold f64_of_Z. rewrite (proj2 (Z.leb_gt 0 z)), (proj2 (Z.leb_le 0 (- z))), (proj2 (Z.ltb_lt _ _)) by go_lia. done. }
      unfold f64_to_int64. pose proof (exact_trunc _ _ Hx) as Ht. unfold f64_trunc in *. rewrite opp_spec.
      assert (exists n i, sf (f64_of_Z (- z)) = S754_finite false n i) as (n & i & En).
      { unfold exact_int in Hx. destruct (sf (f64_of_Z (- z))) as [[]|?| |[] n i]; try done; [lia|by eauto]. }
      rewrite En in *. cbn [SFopp negb]. injection Ht as ->. replace (- - z) with z by lia.
      rewrite (proj2 (Z.leb_le _ _)), (proj2 (Z.leb_le _ _)) by go_lia. done.
Qed.

Lemma floor_exact q m e : sf q = S754_finite false m e -> at_most 62 (sf q) ->
  exists z, exact_int (math_floor q) z /\ z <= max_int64.
Proof.
  intros E Hq. rewrite E in Hq. destruct Hq as [He Hm]. unfold math_floor. rewrite E.
  destruct (canonical_facts m e (bounded_sf _ _ _ _ E)) as (_ & Hm' & _). destruct (Z.leb_spec 0 e) as [Hpos|Hneg].
  - exists (Zpos m * 2 ^ e). split; [unfold exact_int; rewrite E; by rewrite scaled_shift by lia|].
    transitivity (2 ^ (62 - e) * 2 ^ e); [apply Z.mul_le_mono_nonneg_r; [apply Z.pow_nonneg; lia|done]|].
    rewrite <- Z.pow_add_r by lia. by replace (62 - e + e) with 62 by lia.
  - exists (Z.shiftr (Zpos m) (- e)). rewrite Z.shiftr_div_pow2 by lia. pose proof (pow2_pos (- e) ltac:(lia)) as Hp.
    remember (2 ^ (- e)) as d. assert (0 <= Zpos m / d < 2 ^ 53) as Hz.
    { split; [apply Z.div_pos; lia|]. apply Z.div_lt_upper_bound; [done|]. change (2 ^ 53) with 9007199254740992 in *. nia. }
    split; [by apply of_Z_exact_int|bounds].
Qed.

Lemma depth_agrees q cap : f64_nonneg q = true -> at_most 62 (sf q) -> 0 <= cap < 2 ^ 53 ->
  f64_to_int64 (clamp_depth (f64_of_Z cap) (math_floor q)) = clampDepth cap q.
Proof.
  intros Hn Hq Hc. unfold clampDepth. rewrite <- floor_reply. destruct (sf q) as [s|s| |s m e] eqn:E; try done.
  - assert (math_floor q = q) as -> by (unfold math_floor; by rewrite E).
    assert (f64_to_int64 q = 0) as E0 by (unfold f64_to_int64, f64_trunc; by rewrite E).
    rewrite E0. change (0 <? 0) with false. cbv zeta iota. rewrite (proj2 (Z.ltb_ge cap 0)) by lia. unfold clamp_depth.
    assert (PrimFloat.ltb q (lnum 0) = false) as -> by (rewrite ltb_spec, E; done).
    assert (f64_gtb q (f64_of_Z cap) = false) as ->; [|done].
    unfold f64_gtb. rewrite ltb_spec, E. destruct (exact_int_facts _ _ (of_Z_exact_int cap Hc)) as (_ & Nc & _).
    unfold f64_nonneg in Nc. by destruct (sf (f64_of_Z cap)) as [|[]| |[]].
  - unfold f64_nonneg in Hn. rewrite E in Hn. destruct s; [done|].
    destruct (floor_exact q m e E ltac:(by rewrite E)) as (z & Hz & Hmax). rewrite (exact_to_int64 _ z Hz Hmax).
    pose proof (exact_int_nonneg _ _ Hz). unfold clamp_depth. change (PrimFloat.ltb ?a ?b) with (f64_gtb b a).
    rewrite (exact_gtb (lnum 0) _ 0 z) by (auto with golib || (apply of_Z_exact_int; bounds)).
    rewrite (proj2 (Z.ltb_ge z 0)) by lia. cbv zeta iota. rewrite (exact_gtb _ _ z cap) by auto with golib.
    destruct (cap <? z); apply exact_to_int64; (done || bounds || auto with golib).
Qed.

(** The depth of a backlog [x - now] in slots, as both sides compute it. *)
Lemma backlog_agrees x now a emission cap : exact_int x a -> a <= tat_bound -> is_int now ->
  PrimFloat.leb now x = true -> 1 <= emission <= max_int64 -> 0 <= cap < 2 ^ 53 ->
  f64_to_int64 (clamp_depth (f64_of_Z cap) (math_floor ((x - now) / f64_of_Z emission)%float)) =
  clampDepth cap ((x - now) / f64_of_Z emission)%float.
Proof.
  intros Hx Ha Hn Hle He Hc. destruct (int_below _ _ _ Hn Hx Hle) as (b & Hb & Hba).
  destruct (exact_sub_below x now a b 61 Hx Hb) as [N1 M1]; [done|lia|unfold tat_bound in Ha; change (2 ^ 61) with 2305843009213693952; lia|].
  destruct (div_below _ emission 61 N1 M1) as [N2 M2]; [lia|done|]. by apply depth_agrees.
Qed.

Lemma add_above x y : is_int x -> is_int y -> f64_finite (x + y)%float = true -> PrimFloat.leb x (x + y)%float = true.
Proof.
  intros Hx Hy Hs. pose proof (is_int_nonneg x Hx) as Nx. pose proof (is_int_nonneg y Hy) as Ny.
  assert (f64_finite x = true /\ f64_finite y = true) as [Fx Fy].
  { unfold f64_finite in *. unfold is_int in *. rewrite add_spec in Hs. by destruct (sf x) as [[]|[]| |[]], (sf y) as [[]|[]| |[]]. }
  apply f64_add_lower; [done..|]. pose proof (fval_nonneg y). lia.
Qed.

Lemma math_max_above x y : is_int x -> is_int y -> PrimFloat.leb y (math_max x y) = true.
Proof.
  intros Hx Hy. unfold math_max. destruct (f64_gtb y x) eqn:E; [by apply leb_refl, f64_nonneg_not_nan, is_int_nonneg|].
  by apply ltb_false_leb; [apply f64_nonneg_not_nan, is_int_nonneg..|].
Qed.

(** The clock and the stored arrival time are within the bound. *)
Lemma base_bounded clk db k e emission burst n now ttl g : tat_rel (rlook (clk_ms clk) db k) e ->
  tat_args emission burst n now ttl ->
  num_or (f64_of_Z now) g = from_option f64_of_Z (f64_of_Z now) (ParseInt (value e)) ->
  exists b, exact_int (math_max (num_or (f64_of_Z now) g) (f64_of_Z now)) b /\ b <= tat_bound.
Proof.
  intros Hrel [He Hb Hn Hnow Ht Hfit] Eg. pose proof (of_Z_is_int now Hnow) as Hi.
  assert (exists b, exact_int (f64_of_Z now) b /\ b <= tat_bound) as Hnb.
  { assert (is_int (f64_of_Z emission * f64_of_Z burst)%float) as Hp by (apply mul_is_int; by (apply of_Z_is_int || apply of_Z_finite)).
    assert (exact_int (f64_of_Z tat_bound) tat_bound) as HB.
    { apply of_Z_representable; [done|right]. apply (shifted_representable 9007199254740991 8); lia. }
    destruct (int_below _ _ _ (line_is_int _ emission burst Hi He Hb) HB Hfit) as (w & Hw & Hwb).
    destruct (int_below _ _ _ Hi Hw) as (b & Hb' & Hbw); [|exists b; split; [done|lia]].
    apply add_above; [done..|]. by apply (exact_int_facts _ _ Hw). }
  unfold math_max. destruct (f64_gtb _ _) eqn:Egt; [done|]. rewrite Eg.
  destruct Hrel as [[Hl ->]|(s & x & z & d & Hl & Hs & Hx & Hz & Hval & Hd)]; [done|].
  exists z. split; [|done]. rewrite Hval. pose proof (exact_int_nonneg _ _ Hx).
  destruct (tat_bound_in64 z ltac:(lia)) as (Z1 & Z2). rewrite ParseInt_FormatInt by done. cbn.
  by rewrite (exact_roundtrip x z) by (done || lia).
Qed.

Lemma Leaky_agrees clk db k e emission capacity n now ttl : 0 <= clk_ms clk -> tat_rel (rlook (clk_ms clk) db k) e ->
  tat_args emission capacity n now ttl -> 1 <= emission -> capacity < 2 ^ 53 ->
  agrees tat_rel (clk_ms clk) (LeakyBucketScript clk [k] (map FormatInt [emission; capacity; n; now; ttl; 0])) db k
    (leaky_body emission capacity n now ttl (clk_ms clk * Millisecond)) e.
Proof.
  intros Hms Hrel Hargs He1 Hcap. pose proof Hargs as [He Hb Hn Hnow Ht Hfit].
  destruct (GET_tat (clk_ms clk) db k e now Hrel Hnow) as (g & Eg & Ig & db1 & E1 & W1).
  destruct (base_bounded clk db k e emission capacity n now ttl g Hrel Hargs Eg) as (b & Eb & Hbb).
  unfold agrees, LeakyBucketScript. cbn [map].
  rewrite (argn_int _ 0 emission), (argn_int _ 1 capacity), (argn_int _ 2 n), (argn_int _ 3 now), (argn_int _ 4 ttl) by (done || bounds).
  rewrite (lua_bind_ok _ _ _ (Some (f64_of_Z now)) db) by done. rewrite (lua_bind_ok _ _ _ k db) by done. do 5 lua_step.
  unfold leaky_body. rewrite (tat_float_eq emission capacity n now e g Eg). fold (limit_window emission capacity now).
  pose proof (of_Z_is_int now Hnow) as In. pose proof (math_max_int _ _ Ig In) as Ib.
  pose proof (math_max_above _ _ Ig In) as Ab. set (base := math_max _ _) in *.
  destruct (f64_gtb _ _) eqn:Eg'.
  - eexists db1, _, e. split_and!; [done| |by destruct W1 as [-> ?]|apply W1].
    unfold reply_of. cbn [map]. by rewrite (backlog_agrees base _ b) by (done || lia).
  - destruct (admitted_tat base emission n capacity now) as (z & Ez & Hz); [done..|].
    assert (PrimFloat.leb base (base + f64_of_Z emission * f64_of_Z n)%float = true) as Al.
    { apply add_above; [done| |by apply (exact_int_facts _ _ Ez)]. apply mul_is_int; by (apply of_Z_is_int || apply of_Z_finite). }
    destruct (int_below _ _ _ In Eb Ab) as (c & Ec & Hcb).
    rewrite (exact_leb _ _ b z Eb Ez) in Al.
    destruct (SET_tat (clk_ms clk) db1 k _ z ttl Hms Ez ltac:(done) Ht) as (db2 & E2 & R2 & F2).
    lua_step. lua_step. eexists db2, _, _. split_and!; [done| |by apply R2|].
    + unfold reply_of. cbn [map]. rewrite (backlog_agrees _ _ z); (done || lia || (rewrite (exact_leb _ _ c z) by done; lia)).
    + intros k' Hk. rewrite F2 by done. by apply W1.
Qed.

(** ** The sliding-window counter: two counters *)

(** The estimate is at least the count of the current window. *)
Lemma estimate_above cur prev frac : 0 <= cur < counter_bound -> 0 <= prev < counter_bound -> 0 <= frac <= 1000000 ->
  holds (cur * 2 ^ 1074) (f64_of_Z cur + f64_of_Z prev * (1 - f64_of_Z frac / f64_of_Z 1000000))%float.
Proof.
  intros Hc Hp Hf. destruct (weight_ok frac 1000000 Hf) as [Fw Nw]; [bounds|]. change one with 1%float in *.
  destruct (bound_in64 cur Hc) as (_ & _ & C3). destruct (bound_in64 prev Hp) as (_ & P2 & P3).
  destruct (f64_of_Z_fval cur C3) as [Fc Ec]. destruct (f64_of_Z_fval prev P3) as [Fp _].
  destruct (exact_int_facts _ _ (of_Z_exact_int cur C3)) as (_ & Nc & _).
  destruct (exact_int_facts _ _ (of_Z_exact_int prev P3)) as (_ & Np & _).
  set (w := (1 - _)%float) in *. assert (f64_nonneg (f64_of_Z prev * w)%float = true) as Nm by (by apply f64_mul_nonneg).
  rewrite <- Ec. apply holds_of_leb; [done..|by apply f64_add_nonneg|].
  apply (sum_holds _ _ (fval (f64_of_Z cur)) 0); [by split|by apply holds_zero|done..|lia].
Qed.

Lemma Counter_agrees clk db ck pk ce pe ope limit n frac ttl : 0 <= clk_ms clk -> ck <> pk ->
  counter_rel (rlook (clk_ms clk) db ck) ce -> counter_rel (rlook (clk_ms clk) db pk) pe ->
  from_option counter_value 0 ope = counter_value pe ->
  0 <= limit < counter_bound -> 0 <= n < counter_bound -> 0 <= frac <= 1000000 -> 1 <= ttl < ttl_bound ->
  agrees counter_rel (clk_ms clk) (SlidingWindowCounterScript clk [ck; pk] (map FormatInt [limit; n; frac; ttl])) db ck
    (fun e => slidingCounter_body limit n frac ttl (clk_ms clk * Millisecond) e ope) ce.
Proof.
  intros Hms Hne Hrel Hrelp Ho Hl Hn Hf Ht. destruct (counter_rel_value _ _ Hrel) as (Hc & Hv & Hd).
  destruct (counter_rel_value _ _ Hrelp) as (_ & Hvp & _).
  destruct (bound_in64 limit Hl) as (L1 & L2 & L3). destruct (bound_in64 n Hn) as (N1 & N2 & N3).
  destruct (GET_counter (clk_ms clk) db ck _ ce eq_refl Hrel) as (g & Eg & db1 & E1 & W1).
  assert (rlook (clk_ms clk) db1 pk = rlook (clk_ms clk) db pk) as Lp by (apply W1; congruence).
  destruct (GET_counter (clk_ms clk) db1 pk _ pe eq_refl) as (gp & Egp & db2 & E2 & W2); [by rewrite Lp|].
  unfold agrees, SlidingWindowCounterScript. cbn [map].
  rewrite (argn_int _ 0 limit), (argn_int _ 1 n), (argn_int _ 2 frac), (argn_int _ 3 ttl) by (done || bounds).
  lua_step. rewrite (lua_bind_ok _ _ _ ck db) by done. lua_step. rewrite (lua_bind_ok _ _ _ pk db1) by done. lua_step.
  rewrite Eg, Egp. do 2 lua_step. unfold slidingCounter_body. fold (counter_value ce).
  assert (match ope with Some e => parseCounter (value e) | None => 0 end = counter_value pe) as -> by (by destruct ope).
  set (v := counter_value ce) in *. set (vp := counter_value pe) in *.
  change (lnum 1 - f64_of_Z frac / lnum 1000000)%float with (1 - f64_of_Z frac / f64_of_Z 1000000)%float.
  change (lnum 1000000) with (f64_of_Z 1000000).
  pose proof (estimate_above v vp frac Hv Hvp Hf) as He. set (est := (f64_of_Z v + _)%float) in *.
  destruct (bound_in64 v Hv) as (V1 & V2 & V3).
  destruct (f64_gtb _ _) eqn:Egt.
  - eexists db2, _, ce. split_and!; [done| |rewrite (proj2 W2) by done; by destruct W1 as [-> ?]|].
    + unfold reply_of. cbn [map]. by rewrite floor_reply, (exact_to_int64 (f64_of_Z v) v) by (auto with golib; bounds).
    + intros k' Hk. destruct (decide (k' = pk)) as [->|Hkp]; [by rewrite (proj1 W2)|]. rewrite (proj2 W2) by done. by apply W1.
  - assert (v + n <= limit) as Hsum by (apply (int_sum_bound est v n limit); [bounds|bounds|bounds|done|exact Egt]).
    destruct (bump_spec (clk_ms clk) db2 ck ce n ttl Hms) as (db3 & E3 & R3 & F3);
      [by rewrite (proj2 W2), (proj1 W1)|lia|bounds|done|].
    rewrite (bump_tail _ _ _ _ (fun nc => reply_of [lnum 1; lnum nc; _]) _ _ _ E3).
    eexists db3, _, (bump_entry n ttl (clk_ms clk * Millisecond) ce). split_and!; [done| |done|].
    + unfold reply_of, bump_entry. cbn [map]. fold v. rewrite (wrap64_small (v + n)) by bounds.
      by rewrite floor_reply, (exact_to_int64 (lnum (v + n)) (v + n)) by ((apply of_Z_exact_int; bounds) || bounds).
    + intros k' Hk. rewrite F3 by done. destruct (decide (k' = pk)) as [->|Hkp]; [by rewrite (proj1 W2)|].
      rewrite (proj2 W2) by done. by apply W1.
Qed.

End agreement.
