(* ===== verification/RedisLog.v ===== *)
(** * The sliding-window log on Redis and in memory

    A sorted set of doubles on the server, a string of records with integer
    scores in the emulation: one evaluation of the script on both sides. *)

From Stdlib Require Import Floats Sorting.Sorted Ascii.
From stdpp Require Import sorting.
From S2P Require Import Prelude Float64 Float64Round Float64Exact Strconv StoreMemory StoreScripts RedisScripts RedisModel StoreAtomic RedisAgree.
Open Scope Z_scope.

(** ** Times to live in seconds *)

(** The core of a division by a thousand, for a quotient of at least [2^-10]. *)
Lemma div_1000_core z m1 e1 : 1 <= z -> -52 <= e1 <= 0 -> scaled (Zpos m1) e1 = scaled z 0 -> Zpos m1 < 2 ^ 53 ->
  let '(q, e, _) := SFdiv_core_binary prec emax (Zpos m1) e1 8796093022208000 (-43) in
  -1074 <= e /\ 0 < q /\ scaled 4503599627370496 (-62) <= scaled q e.
Proof.
  intros Hz He1 V Hm1. rewrite (scaled_order e1 z 0) in V by lia. apply scaled_inj in V; [|lia]. rewrite Z.sub_0_l in V.
  unfold SFdiv_core_binary. change (Zdigits2 8796093022208000) with 53.
  pose proof (digits_below (Zpos m1) 53 ltac:(lia) ltac:(lia) Hm1) as Hd. set (d1 := Zdigits2 (Zpos m1)) in *.
  set (e' := Z.min (F _) (e1 - -43)).
  destruct (Zdigits2_bounds (Zpos m1) ltac:(lia)) as [Hd0 _]. fold d1 in Hd0.
  assert (-1074 <= e' <= -10 /\ 0 <= e1 - -43 - e') as [He' Hs] by (unfold e'; rewrite fexp_value; lia).
  assert (match e1 - -43 - e' with Zpos _ => Z.shiftl (Zpos m1) (e1 - -43 - e') | Z0 => Zpos m1 | Zneg _ => 0 end
    = z * 2 ^ (43 - e')) as ->.
  { replace (z * 2 ^ (43 - e')) with (Zpos m1 * 2 ^ (e1 - -43 - e')).
    - destruct (e1 - -43 - e') eqn:E; [by rewrite Z.mul_1_r| |lia]. by rewrite Z.shiftl_mul_pow2 by lia.
    - rewrite V, <- Z.mul_assoc, <- Z.pow_add_r by lia. do 2 f_equal. lia. }
  assert (2 ^ (-10 - e') <= z * 2 ^ (43 - e') / 8796093022208000) as Hq.
  { apply Z.div_le_lower_bound; [done|]. replace (43 - e') with (53 + (-10 - e')) by lia. rewrite Z.pow_add_r by lia.
    pose proof (pow2_pos (-10 - e') ltac:(lia)). change (2 ^ 53) with 9007199254740992. nia. }
  pose proof (pow2_pos (-10 - e') ltac:(lia)) as Hp. unfold Z.div in Hq. destruct (Z.div_eucl _ _) as [q r]. cbn [fst snd].
  split_and!; [lia|lia|]. unfold scaled. replace (4503599627370496 * 2 ^ (-62 + 1074)) with (2 ^ (-10 - e') * 2 ^ (e' + 1074)).
  - apply Z.mul_le_mono_nonneg_r; [apply Z.pow_nonneg; lia|done].
  - rewrite <- Z.pow_add_r by lia. by replace (-10 - e' + (e' + 1074)) with 1064 by lia.
Qed.

(** The quotient of a positive integer by a thousand is not rounded to zero. *)
Lemma div_1000_pos z : 0 < z < 2 ^ 53 -> f64_finite (f64_of_Z z / f64_of_Z 1000)%float = true ->
  exists m e, sf (f64_of_Z z / f64_of_Z 1000)%float = S754_finite false m e.
Proof.
  intros Hz Hf. destruct (f64_of_Z_exact z Hz) as (m1 & e1 & E1 & V1 & He1). unfold f64_finite in Hf. rewrite div_spec in *.
  assert (sf (f64_of_Z 1000) = S754_finite false 8796093022208000 (-43)) as E2 by (vm_compute; reflexivity).
  rewrite E1, E2 in *. unfold SF64div, SFdiv in *. cbn [xorb] in *.
  pose proof (div_1000_core z m1 e1 ltac:(lia) He1 V1 (proj1 (proj2 (canonical_facts m1 e1 (bounded_sf _ _ _ _ E1))))) as Hc.
  destruct (SFdiv_core_binary _ _ _ _ _ _) as [[q e] l]. destruct Hc as (He & Hq & Hle).
  pose proof (round_aux_lower q e l 4503599627370496 (-62) Hq He eq_refl Hle) as H.
  destruct (binary_round_aux _ _ _ _ _ _) as [|[]| |[] m' e']; try done. by exists m', e'.
Qed.

(** [math.ceil] of a time to live in seconds, as a double and in integers. *)
Lemma ceil_seconds_agrees ttl : 1 <= ttl < 2 ^ 29 -> exists t, 1 <= t <= 2 ^ 30 /\
  math_ceil (f64_of_Z ttl / lnum 1000)%float = f64_of_Z t /\ ceil_seconds ttl = 1000 * t.
Proof.
  intros Ht. change (2 ^ 29) with 536870912 in Ht. assert (0 <= ttl < 2 ^ 53) as Ht' by bounds.
  pose proof (of_Z_exact_int ttl Ht') as Hx. destruct (exact_int_facts _ _ Hx) as (Fx & Nx & _).
  destruct (div_below (f64_of_Z ttl) 1000 29 Nx (exact_below _ _ 29 Hx ltac:(lia) ltac:(lia)) ltac:(lia) ltac:(go_lia)) as [Nq Bq].
  destruct (div_1000_pos ttl ltac:(lia)) as (m & e & Eq); [by apply (at_most_value 30)|]. unfold lnum, ceil_seconds. set (q := (f64_of_Z ttl / f64_of_Z 1000)%float) in *.
  rewrite Eq in Bq. destruct Bq as [He Hm]. change (29 + 1) with 30 in *.
  destruct (canonical_facts m e (bounded_sf _ _ _ _ Eq)) as (He' & Hm' & Hn).
  assert (e < 0) as Hneg.
  { destruct (Z.le_gt_cases 0 e) as [H0|]; [|done]. specialize (Hn ltac:(lia)). exfalso.
    assert (2 ^ (30 - e) <= 2 ^ 30) by (apply Z.pow_le_mono_r; lia). change (2 ^ 30) with 1073741824 in *. lia. }
  set (w := Z.shiftr (Zneg m) (- e)).
  assert (- 2 ^ 30 <= w <= -1) as Hw.
  { unfold w. rewrite Z.shiftr_div_pow2 by lia. pose proof (pow2_pos (- e) ltac:(lia)) as Hp.
    replace (30 - e) with (30 + - e) in Hm by lia. rewrite Z.pow_add_r in Hm by lia. remember (2 ^ (- e)) as d.
    split; [apply Z.div_le_lower_bound; lia|]. apply Z.lt_succ_r. apply Z.div_lt_upper_bound; lia. }
  exists (- w). change (2 ^ 30) with 1073741824 in *. split; [lia|].
  assert (sf (- q)%float = S754_finite true m e) as Eo by (by rewrite opp_spec, Eq).
  assert (math_floor (- q)%float = f64_of_Z w) as Ef.
  { unfold math_floor. by rewrite Eo, (proj2 (Z.leb_gt 0 e)) by lia. }
  assert (floor_to_int64 (- q)%float = w) as Ei.
  { unfold floor_to_int64, f64_floor. rewrite Eo, (proj2 (Z.leb_gt 0 e)) by lia. fold w.
    by rewrite (proj2 (Z.leb_le _ _)), (proj2 (Z.leb_le _ _)) by go_lia. }
  split.
  - unfold math_ceil. rewrite Ef. assert (f64_of_Z w = (- f64_of_Z (- w))%float) as ->.
    { unfold f64_of_Z. rewrite (proj2 (Z.leb_gt 0 w)), (proj2 (Z.leb_le 0 (- w))), (proj2 (Z.ltb_lt _ _)) by go_lia. done. }
    apply Prim2SF_inj. rewrite !opp_spec. by destruct (sf (f64_of_Z (- w))) as [[]|[]| |[]].
  - rewrite Ei. rewrite wrap64_small by go_lia. lia.
Qed.

(** ** Differences of either sign *)

Lemma SFsub_opp x y : SF64sub x (SFopp y) = SF64add x y.
Proof.
  destruct x as [[]|[]| |[] m1 e1], y as [[]|[]| |[] m2 e2]; try done; unfold SF64sub, SF64add, SFsub, SFadd, SFopp;
    cbn [negb]; f_equal; unfold cond_Zopp; lia.
Qed.

Lemma binary_round_opp m e : binary_round prec emax true m e = SFopp (binary_round prec emax false m e).
Proof.
  unfold binary_round. destruct (shl_align _ _ _) as [mz ez]. unfold binary_round_aux.
  destruct (shr_fexp _ _ _ _ _) as [r1 e1]. destruct (shr_fexp _ _ (round_nearest_even _ _) _ _) as [r2 e2].
  destruct (shr_m r2); [done| |done]. by destruct (_ <=? _).
Qed.

(** Time left in a window that opened at [y], for a clock at [x] before it. *)
Lemma sub_later x y z a b : exact_int x a -> exact_int y b -> a < b -> (z - (x - y))%float = (z + (y - x))%float.
Proof.
  intros Hx Hy Hlt. apply Prim2SF_inj. rewrite sub_spec, add_spec, <- SFsub_opp. f_equal. rewrite !sub_spec. unfold SF64sub, SFsub.
  destruct (exact_zero_or x a Hx) as [[-> ->]|(m1 & e1 & -> & H1 & E1 & P1)],
    (exact_zero_or y b Hy) as [[-> ->]|(m2 & e2 & -> & H2 & E2 & P2)]; [lia|done|lia|].
  pose proof (aligned_difference m2 e2 m1 e1 b a H2 H1 E2 E1) as Hd. rewrite (Z.min_comm e2 e1) in *. unfold cond_Zopp.
  assert (0 < scaled (b - a) 0) as Hp by (apply scaled_pos_iff; lia). rewrite <- Hd in Hp. apply scaled_pos_iff in Hp; [|lia].
  set (p := Zpos (fst (shl_align m1 _ _))) in *. set (q := Zpos (fst (shl_align m2 _ _))) in *.
  replace (p - q) with (- (q - p)) by lia. destruct (q - p) as [|r|r]; [lia| |lia]. apply binary_round_opp.
Qed.

(** ** Related sets *)

(** A limit below [10^14]: Lua prints the numbers of the members in full.  The
    clocks of the callers are within [2^50] nanoseconds (thirteen days) of the
    server's, windows are shorter than that. *)
Definition log_bound : Z := 10 ^ 14.
Definition skew_bound : Z := 2 ^ 50.
Definition log_ttl_bound : Z := 2 ^ 29.

Ltac log_bounds := unfold log_bound, skew_bound, log_ttl_bound, Millisecond in *; change (10 ^ 14) with 100000000000000 in *;
  change (2 ^ 50) with 1125899906842624 in *; change (2 ^ 51) with 2251799813685248 in *; change (2 ^ 29) with 536870912 in *;
  change (2 ^ 61) with 2305843009213693952 in *; change (2 ^ 30) with 1073741824 in *; bounds.

(** Scores are integers a double holds, not far in the future. *)
Definition score_ok (ms : Z) (z : zmember) : Prop :=
  exact_int (f64_of_Z (score z)) (score z) /\ score z <= ms * Millisecond + 2 ^ 51 /\ score z < 2 ^ 61.

(** The set on the server. *)
Definition zmap (zs : zset) : gmap string f64 := list_to_map (map (fun z => (member z, f64_of_Z (score z))) zs).

Definition log_ok (ms : Z) (zs : zset) : Prop := zset_ok zs /\ NoDup (map member zs) /\ Forall (score_ok ms) zs.

Definition log_rel (ms : Z) (c : cell) (e : entry) : Prop :=
  exists zs, value e = serialize zs /\ log_ok ms zs /\ zlength zs <= log_bound /\
    ((c = None /\ zs = []) \/ exists d, c = Some (RZset (zmap zs), d) /\ zs <> [] /\ deadline_rel d (expiresAt e)).

Lemma score_ok_later ms ms' zs : ms <= ms' -> log_ok ms zs -> log_ok ms' zs.
Proof.
  intros Hms (H1 & H2 & H3). split_and!; [done..|]. eapply Forall_impl; [exact H3|].
  intros z (S1 & S2 & S3). split_and!; [done| |done]. unfold Millisecond in *. lia.
Qed.

Lemma log_ok_nil ms : log_ok ms [].
Proof. split_and!; [split; [constructor|apply Forall_nil_2]|apply NoDup_nil_2|apply Forall_nil_2]. Qed.

Lemma log_rel_empty ms : log_rel ms None empty_entry.
Proof. exists []. split_and!; [done|apply log_ok_nil|done|by left]. Qed.

Lemma score_nonneg ms z : score_ok ms z -> 0 <= score z.
Proof. intros (H & _). by eapply exact_int_nonneg. Qed.

Lemma score_plain ms z : score_ok ms z -> plain_num (f64_of_Z (score z)) = true.
Proof. intros (H & _). by eapply exact_plain. Qed.

Lemma zmap_lookup zs m x : NoDup (map member zs) -> zmap zs !! m = Some x <-> exists z, z ∈ zs /\ member z = m /\ x = f64_of_Z (score z).
Proof.
  intros Hnd. unfold zmap. rewrite <- elem_of_list_to_map.
  - rewrite list_elem_of_fmap. naive_solver.
  - rewrite <- list_fmap_compose. exact Hnd.
Qed.

Lemma zmap_size zs : NoDup (map member zs) -> Z.of_nat (size (zmap zs)) = zlength zs.
Proof.
  intros Hnd. unfold zmap, zlength. rewrite map_size_list_to_map; [by rewrite length_map|]. rewrite <- list_fmap_compose. exact Hnd.
Qed.

Lemma zmap_nil zs : zmap zs = ∅ <-> zs = [].
Proof.
  split; [|by intros ->]. destruct zs as [|z zs]; [done|]. unfold zmap. cbn. by intros ?%insert_non_empty.
Qed.

Lemma zmap_cell zs d : zset_cell (zmap zs) d = match zs with [] => None | _ => Some (RZset (zmap zs), d) end.
Proof.
  unfold zset_cell. destruct (decide (zmap zs = ∅)) as [E|E].
  - apply zmap_nil in E as ->. done.
  - by destruct zs.
Qed.

Lemma zmap_perm zs zs' : NoDup (map member zs) -> zs ≡ₚ zs' -> zmap zs = zmap zs'.
Proof.
  intros Hnd Hp. unfold zmap. apply list_to_map_proper; [rewrite <- list_fmap_compose; exact Hnd|]. by rewrite Hp.
Qed.

(** Pruning on both sides. *)
Lemma zmap_filter zs cutoff cz ms : NoDup (map member zs) -> Forall (score_ok ms) zs -> exact_int cutoff cz ->
  filter (fun p => PrimFloat.leb (snd p) cutoff = false) (zmap zs) = zmap (filter (fun z => cz < score z) zs).
Proof.
  intros Hnd Hs Hc. apply map_eq. intros m. apply option_eq. intros x.
  assert (NoDup (map member (filter (fun z => cz < score z) zs))) as Hnd'.
  { eapply sublist_NoDup; [exact Hnd|]. apply fmap_sublist, sublist_filter. }
  rewrite map_lookup_filter_Some, !zmap_lookup by done. rewrite Forall_forall in Hs. cbn. split.
  - intros [(z & Hz & <- & ->) Hle]. exists z. split; [|done]. apply list_elem_of_filter. split; [|done].
    destruct (Hs z Hz) as (Hx & _). rewrite (exact_leb _ _ _ _ Hx Hc) in Hle. lia.
  - intros (z & [Hlt Hz]%list_elem_of_filter & <- & ->). split; [by exists z|].
    destruct (Hs z Hz) as (Hx & _). rewrite (exact_leb _ _ _ _ Hx Hc). lia.
Qed.

(** Adding a member on both sides. *)
Lemma set_score_spec sc m zs : NoDup (map member zs) ->
  match set_score sc m zs with
  | Some zs' => m ∈ map member zs /\ map member zs' = map member zs /\
      forall z, z ∈ zs' <-> z = mkZ sc m \/ (z ∈ zs /\ member z <> m)
  | None => m ∉ map member zs
  end.
Proof.
  induction zs as [|y zs IH]; cbn; intros Hnd; [by intros ?%elem_of_nil|]. apply NoDup_cons in Hnd as [Hy Hnd].
  specialize (IH Hnd). case_bool_decide as Em.
  - subst m. split_and!; [by left|done|]. intros z. rewrite !elem_of_cons. split; [|naive_solver].
    intros [->|Hz]; [by left|right]. split; [by right|]. intros E. apply Hy. rewrite <- E. apply list_elem_of_fmap. by exists z.
  - destruct (set_score sc m zs) as [zs'|]; cbn.
    + destruct IH as (H1 & H2 & H3). rewrite H2. split_and!; [by right|done|]. intros z. rewrite !elem_of_cons, H3. naive_solver.
    + rewrite elem_of_cons. naive_solver.
Qed.

Lemma zadd_elements sc m zs : NoDup (map member zs) ->
  NoDup (map member (zadd sc m zs)) /\ (forall z, z ∈ zadd sc m zs <-> z = mkZ sc m \/ (z ∈ zs /\ member z <> m)).
Proof.
  intros Hnd. unfold zadd. pose proof (set_score_spec sc m zs Hnd) as H. destruct (set_score sc m zs) as [zs'|].
  - destruct H as (_ & H2 & H3). split; [by rewrite resort_perm, H2|]. intros z. by rewrite resort_perm.
  - rewrite resort_perm. split.
    + rewrite map_app. apply NoDup_app. split_and!; [done| |apply NoDup_singleton]. intros x Hx Hx'.
      apply list_elem_of_singleton in Hx' as ->. done.
    + intros z. rewrite resort_perm, elem_of_app, list_elem_of_singleton. split; [|naive_solver].
      intros [Hz| ->]; [right|by left]. split; [done|]. intros <-. apply H. apply list_elem_of_fmap. by exists z.
Qed.

Lemma zadd_zmap sc m zs : NoDup (map member zs) -> zmap (zadd sc m zs) = <[m := f64_of_Z sc]> (zmap zs).
Proof.
  intros Hnd. destruct (zadd_elements sc m zs Hnd) as [Hnd' Hin]. apply map_eq. intros m'. apply option_eq. intros x.
  rewrite zmap_lookup by done. rewrite lookup_insert_Some, zmap_lookup by done. split.
  - intros (z & Hz & <- & ->). apply Hin in Hz as [->|[Hz Hne]]; [by left|right]. split; [congruence|by exists z].
  - intros [[<- <-]|[Hne (z & Hz & <- & ->)]]; [exists (mkZ sc m)|exists z]; (split; [|done]); apply Hin; [by left|right; split; [done|congruence]].
Qed.

Lemma zadd_log_ok ms sc m zs : score_ok ms (mkZ sc m) -> plain_member m -> log_ok ms zs -> log_ok ms (zadd sc m zs).
Proof.
  intros Hs Hm (H1 & H2 & H3). destruct (zadd_elements sc m zs H2) as [Hnd Hin]. split_and!; [|done|].
  - apply zadd_ok; [|done|done]. pose proof (score_nonneg _ _ Hs) as Hnn. destruct Hs as (_ & _ & Hlt). cbn in *. log_bounds.
  - rewrite Forall_forall in *. intros z [->|[Hz _]]%Hin; [done|by apply H3].
Qed.

(** ** Clock readings *)

Lemma now_exact now : 0 <= now < 2 ^ 61 - 512 -> exists N, exact_int (f64_of_Z now) N /\ Z.abs (N - now) <= 256 /\
  (now < 2 ^ 53 -> N = now).
Proof.
  intros Hn. change (2 ^ 61) with 2305843009213693952 in Hn. destruct (Z.lt_ge_cases now (2 ^ 53)) as [Hlt|Hge].
  - exists now. split_and!; [apply of_Z_exact_int; lia|lia|done].
  - destruct (of_Z_error now) as (v & Hv & He); [split; [done|go_lia]|]. exists v. split_and!; [done| |lia].
    assert (Zdigits2 now <= 61) as Hd by (apply digits_below; [lia..|]; change (2 ^ 61) with 2305843009213693952; lia).
    assert (2 ^ (Zdigits2 now - 53) <= 2 ^ 8); [|change (2 ^ 8) with 256 in *; lia].
    apply Z.pow_le_mono_r; lia.
Qed.

(** The cutoff is an integer; what is above it is younger than the window. *)
Lemma cutoff_exact x N w W : exact_int x N -> exact_int w W -> W <= N -> N < 2 ^ 61 -> exists cz,
  exact_int (x - w)%float cz /\ f64_to_int64 (x - w)%float = cz /\
  forall s S, exact_int s S -> cz < S -> N - S < W.
Proof.
  intros Hx Hw Hle HN. destruct (exact_sub_below x w N W 61 Hx Hw Hle ltac:(lia) HN) as [Nn Hm].
  destruct (at_most_value 61 _ Hm Nn ltac:(lia)) as [Fn Vn].
  destruct (is_int_finite _ (sub_is_int x w N W Hx Hw Hle) Fn) as [cz Hc]. exists cz. split; [done|].
  destruct (exact_int_facts _ _ Hc) as (_ & _ & V). split.
  - apply exact_to_int64; [done|]. rewrite V in Vn. unfold scaled in Vn. change (0 + 1074) with 1074 in Vn.
    apply Z.mul_le_mono_pos_r in Vn; [|by apply pow2_pos]. change (2 ^ 61) with 2305843009213693952 in *. go_lia.
  - intros s S Hs Hlt. destruct (Z.lt_ge_cases (N - S) W) as [|Hge]; [done|].
    pose proof (sub_lower x w N W s S Hx Hw Hle Hs ltac:(lia)) as Hl. rewrite (exact_leb _ _ _ _ Hs Hc) in Hl. lia.
Qed.

(** The wait until the first member leaves the window. *)
Lemma retry_exact x N w W s S : exact_int x N -> exact_int w W -> exact_int s S -> N - S < W -> S - N < 2 ^ 52 -> 0 <= W < 2 ^ 52 ->
  exact_int (w - (x - s))%float (W - (N - S)).
Proof.
  intros Hx Hw Hs Hlt Hd HW. assert (2 ^ 53 = 2 * 2 ^ 52) as E by done. destruct (Z.le_gt_cases S N) as [Hle|Hgt].
  - assert (exact_int (x - s)%float (N - S)) as H1 by (apply exact_sub; [done..|lia|]; apply small_or_zero; lia).
    apply exact_sub; [done|done|lia|]. apply small_or_zero. lia.
  - rewrite (sub_later x s w N S) by done.
    assert (exact_int (s - x)%float (S - N)) as H1 by (apply exact_sub; [done..|lia|]; apply small_or_zero; lia).
    replace (W - (N - S)) with (W + (S - N)) by lia. apply exact_add_small; [done..|lia].
Qed.

Lemma floor_int x z : exact_int x z -> 0 <= z < 2 ^ 53 -> floor_to_int64 x = z.
Proof.
  intros Hx Hz. rewrite <- floor_reply. unfold math_floor. pose proof (exact_zero_or x z Hx) as [[-> E]|(m & e & E & He & V & Hp)]; rewrite E.
  - by apply exact_to_int64.
  - destruct (Z.leb_spec 0 e) as [H0|H0]; [apply exact_to_int64; [done|bounds]|].
    rewrite (scaled_order e z 0) in V by lia. apply scaled_inj in V; [|lia]. rewrite V, Z.sub_0_l, Z.shiftr_div_pow2 by lia.
    pose proof (pow2_pos (- e) ltac:(lia)). rewrite Z.div_mul by lia. apply exact_to_int64; [by apply of_Z_exact_int|bounds].
Qed.

Lemma resort_nil zs : resort zs = [] -> zs = [].
Proof. intros E. apply Permutation_nil. by rewrite <- E, resort_perm. Qed.

Lemma zadd_nonempty sc m zs : zadd sc m zs <> [].
Proof.
  unfold zadd. destruct (set_score sc m zs) as [zs'|] eqn:E; intros H; apply resort_nil in H; subst.
  - destruct zs as [|z zs]; [done|]. cbn in E. case_bool_decide; [done|]. by destruct (set_score sc m zs).
  - by destruct zs.
Qed.

Lemma add_members_nonempty k : forall i sc id zs, add_members (S k) i sc id zs <> [].
Proof.
  induction k as [|k IH]; intros i sc id zs; [apply zadd_nonempty|].
  change (add_members (S k) (i + 1) sc id (zadd sc (id +:+ String "-"%char (FormatInt i)) zs) <> []). apply IH.
Qed.

Section agreement.
Context {DB : Type} `{RedisLaws DB}.

Lemma member_plain id i : plain_member id -> in64 i -> plain_member (id +:+ String "-"%char (FormatInt i)).
Proof. intros Hid Hi. apply avoids_app; [done|]. split; [done|]. apply FormatInt_no_sep; [done|auto]. Qed.

(** The loop that adds the members. *)
Lemma add_members_agree clk key id sc k : plain_member id -> score_ok (clk_ms clk) (mkZ sc "") -> forall i zs db, 1 <= i -> i + Z.of_nat k <= log_bound ->
  log_ok (clk_ms clk) zs -> zset_of (rlook (clk_ms clk) db key) (zmap zs) ->
  exists db', add_log_members clk k i key (call_arg (f64_of_Z sc)) id db = (inr (), db') /\
    log_ok (clk_ms clk) (add_members k i sc id zs) /\
    rlook (clk_ms clk) db' key = (match k with O => rlook (clk_ms clk) db key
      | _ => Some (RZset (zmap (add_members k i sc id zs)), deadline (rlook (clk_ms clk) db key)) end) /\
    forall k', k' <> key -> rlook (clk_ms clk) db' k' = rlook (clk_ms clk) db k'.
Proof.
  intros Hid Hs. induction k as [|k IH]; intros i zs db Hi Hk Hok Hz; cbn [add_log_members add_members]; [by exists db|].
  set (m := id +:+ String "-"%char (FormatInt i)).
  assert (id +:+ "-" +:+ concat_num (lnum i) = m) as ->.
  { unfold lnum. rewrite concat_num_int by (log_bounds). done. }
  destruct (ZADD_law (clk_ms clk) db key (zmap zs) (f64_of_Z sc) m Hz) as (db1 & E1 & L1 & F1); [by apply (score_plain _ _ Hs)|].
  rewrite (lua_bind_ok _ _ _ _ _ E1).
  assert (plain_member m) as Hm by (apply member_plain; [done|log_bounds]).
  pose proof (zadd_log_ok (clk_ms clk) sc m zs ltac:(exact Hs) Hm Hok) as Hok1.
  rewrite <- zadd_zmap in L1 by apply Hok.
  destruct (IH (i + 1) (zadd sc m zs) db1) as (db2 & E2 & Hok2 & L2 & F2); [lia|lia|done|right; by eexists|].
  exists db2. split_and!; [done|done| |intros k' Hk'; by rewrite F2, F1].
  rewrite L2, L1. by destruct k.
Qed.

(** ** The script *)

Record log_args (ms limit window now : Z) (id : string) (ttl n : Z) : Prop := {
  la_limit : 0 <= limit < log_bound; la_n : 1 <= n < log_bound; la_window : 1 <= window < skew_bound;
  la_now : window <= now < 2 ^ 61 - 512; la_skew : Z.abs (now - ms * Millisecond) <= skew_bound;
  la_ttl : 1 <= ttl < log_ttl_bound; la_id : plain_member id }.

Lemma filter_log_ok ms cz zs : log_ok ms zs -> log_ok ms (filter (fun z => cz < score z) zs).
Proof.
  intros (H1 & H2 & H3). split_and!; [by apply filter_ok| |by apply Forall_filter_of].
  eapply sublist_NoDup; [exact H2|]. apply fmap_sublist, sublist_filter.
Qed.

(** Pruning and counting, as the script and the handler begin. *)
Lemma prune_agrees ms db k zs d cutoff cz : log_ok ms zs -> exact_int cutoff cz ->
  ((rlook ms db k = None /\ zs = []) \/ rlook ms db k = Some (RZset (zmap zs), d)) ->
  let live := filter (fun z => cz < score z) zs in
  exists db1, ZREMRANGEBYSCORE ms k "-inf" (call_arg cutoff) db = (inr (), db1) /\
    ZCARD ms k db1 = (inr (zlength live), snd (ZCARD ms k db1)) /\
    (forall k', k' <> k -> rlook ms (snd (ZCARD ms k db1)) k' = rlook ms db k') /\
    rlook ms (snd (ZCARD ms k db1)) k = match live with [] => None | _ => Some (RZset (zmap live), d) end.
Proof.
  intros Hok Hc Hcell live. pose proof Hok as (_ & Hnd & Hs).
  assert (zset_of (rlook ms db k) (zmap zs)) as Hz by (destruct Hcell as [[-> ->]| ->]; [by left|right; by eexists]).
  destruct (ZREMRANGEBYSCORE_law ms db k (zmap zs) cutoff Hz) as (db1 & E1 & L1 & F1); [by eapply exact_plain|].
  rewrite (zmap_filter zs cutoff cz ms Hnd Hs Hc), zmap_cell in L1. fold live in L1.
  assert (rlook ms db1 k = match live with [] => None | _ => Some (RZset (zmap live), d) end) as L1'.
  { rewrite L1. destruct Hcell as [[-> ->]| ->]; [done|]. by destruct live. }
  destruct (ZCARD_law ms db1 k (zmap live)) as (db2 & E2 & L2 & F2).
  { rewrite L1'. unfold zset_of. destruct live as [|z l]; [by left|right; by eexists]. }
  exists db1. rewrite E2. cbn [snd]. rewrite zmap_size in * by (by apply (filter_log_ok ms)).
  split_and!; [done|done|intros k' Hk; by rewrite F2, F1|by rewrite L2].
Qed.

(** The oldest member: the first of the sorted list. *)
Lemma oldest_agrees ms db k zs d : log_ok ms zs -> rlook ms db k = match zs with [] => None | _ => Some (RZset (zmap zs), d) end ->
  exists r db', ZRANGE_FIRST ms k db = (inr r, db') /\ (forall k', rlook ms db' k' = rlook ms db k') /\
    match zs with [] => r = None | z :: _ => exists m s, r = Some (m, s) /\ tonumber s = Some (f64_of_Z (score z)) end.
Proof.
  intros ([Hsort _] & Hnd & Hs) L. rewrite Forall_forall in Hs.
  destruct (ZRANGE_law ms db k (zmap zs)) as (r & (db' & E & L' & F') & Hr).
  { rewrite L. destruct zs; [by left|right; by eexists]. }
  { intros m x Hx. apply zmap_lookup in Hx as (z & Hz & _ & ->); [|done]. apply (score_plain ms). by apply Hs. }
  exists r, db'. split; [done|]. split; [intros k'; destruct (decide (k' = k)) as [->|]; [done|by apply F']|].
  destruct r as [[m s]|]; destruct zs as [|z zs]; try done.
  - destruct Hr as (x & Hx & _). done.
  - destruct Hr as (x & Hx & Et & Hmin). exists m, s. split; [done|]. rewrite Et. f_equal.
    apply zmap_lookup in Hx as (z' & Hz' & _ & ->); [|done].
    assert (zmap (z :: zs) !! member z = Some (f64_of_Z (score z))) as Hz.
    { apply zmap_lookup; [done|]. exists z. split_and!; [by left|done|done]. }
    specialize (Hmin _ _ Hz). cbn in Hmin.
    destruct (Hs z ltac:(by left)) as (X1 & _). destruct (Hs z' Hz') as (X2 & _). rewrite (exact_leb _ _ _ _ X2 X1) in Hmin.
    assert (score z <= score z'); [|f_equal; lia]. apply elem_of_cons in Hz' as [->|Hz']; [lia|].
    apply StronglySorted_cons in Hsort as [Hle _]. rewrite Forall_forall in Hle. by apply Hle.
  - by apply (proj1 (zmap_nil (z :: zs))) in Hr.
Qed.

Lemma small_reply z : 0 <= z < 2 ^ 53 -> f64_to_int64 (lnum z) = z.
Proof. intros Hz. apply exact_to_int64; [by apply of_Z_exact_int|bounds]. Qed.

(** The tail of the script on a refusal. *)
Definition log_refuse (clk : server_clock) (key : string) (now_ns window_ns count : f64) (ttl_ms : option f64) : lua DB reply :=
  oldest ← ZRANGE_FIRST (clk_ms clk) key;
  retry_after ← match oldest with
                | Some (_, s) =>
                    sc ← num (tonumber s);
                    let r := (window_ns - (now_ns - sc))%float in
                    mret (if PrimFloat.ltb r (lnum 0) then lnum 0 else r)
                | None => mret (lnum 0)
                end;
  ttl_ms ← num ttl_ms;
  EXPIRE (clk_ms clk) key (call_arg (math_ceil (ttl_ms / lnum 1000)%float));;
  mret (reply_of [lnum 0; count; retry_after]).

(** The reply and the entry of the emulation on a refusal. *)
Definition retry_of (windowNs N : Z) (zs : zset) : Z :=
  match zs with z :: _ => let r := windowNs -w (N -w score z) in if r <? 0 then 0 else r | [] => 0 end.

Lemma refuse_agrees clk db k live d x e now window ttl N cz : 0 <= clk_ms clk -> log_ok (clk_ms clk) live -> zlength live <= log_bound ->
  rlook (clk_ms clk) db k = match live with [] => None | _ => Some (RZset (zmap live), d) end ->
  Forall (fun z => cz < score z) live -> (forall s S, exact_int s S -> cz < S -> N - S < window) ->
  exact_int x N -> Z.abs (N - now) <= 256 -> Z.abs (now - clk_ms clk * Millisecond) <= skew_bound ->
  1 <= window < skew_bound -> 1 <= ttl < log_ttl_bound ->
  exists db', log_refuse clk k x (f64_of_Z window) (lnum (zlength live)) (Some (f64_of_Z ttl)) db =
      (inr (RList [0; zlength live; retry_of window N live]), db') /\
    log_rel (clk_ms clk) (rlook (clk_ms clk) db' k)
      (setEntryTTLmsAbs (mkEntry (serialize live) e) (ceil_seconds ttl) (clk_ms clk * Millisecond)) /\
    forall k', k' <> k -> rlook (clk_ms clk) db' k' = rlook (clk_ms clk) db k'.
Proof.
  intros Hms Hok Hlen L Hcz Hlive Hx HN Hskew Hw Ht. destruct (oldest_agrees (clk_ms clk) db k live d Hok L) as (r & db1 & E1 & F1 & Hr).
  unfold log_refuse. rewrite (lua_bind_ok _ _ _ _ _ E1).
  destruct (ceil_seconds_agrees ttl Ht) as (t & Ht1 & Ec & Es). rewrite Es.
  rewrite (setTTL_deadline _ _ (1000 * t) (clk_ms clk)) by (done || log_bounds).
  assert (forall ra z, f64_to_int64 ra = z -> exists db', (t0 ← num (Some (f64_of_Z ttl));
      EXPIRE (clk_ms clk) k (call_arg (math_ceil (t0 / lnum 1000)%float));; mret (reply_of [lnum 0; lnum (zlength live); ra])) db1 =
      (inr (RList [0; zlength live; z]), db') /\
      log_rel (clk_ms clk) (rlook (clk_ms clk) db' k) (mkEntry (serialize live) ((clk_ms clk + 1000 * t) * Millisecond)) /\
      forall k', k' <> k -> rlook (clk_ms clk) db' k' = rlook (clk_ms clk) db k') as Htail.
  { intros ra z <-. lua_step. rewrite Ec, call_arg_int by (log_bounds).
    assert (reply_of [lnum 0; lnum (zlength live); ra] = RList [0; zlength live; f64_to_int64 ra]) as ->.
    { unfold reply_of. cbn [map]. rewrite (small_reply (zlength live)); [done|]. split; [apply zlength_nonneg|log_bounds]. }
    rewrite <- (F1 k) in L. destruct live as [|z live].
    - destruct (EXPIRE_absent (clk_ms clk) db1 k t L ltac:(log_bounds)) as (db2 & E2 & L2 & F2).
      rewrite (lua_bind_ok _ _ _ _ _ E2). exists db2. split_and!; [done| |intros k' Hk; by rewrite F2, F1].
      exists []. split_and!; [done|done|done|by left].
    - destruct (EXPIRE_law (clk_ms clk) db1 k _ _ t L ltac:(lia) ltac:(log_bounds)) as (db2 & E2 & L2 & F2).
      rewrite (lua_bind_ok _ _ _ _ _ E2). exists db2. split_and!; [done| |intros k' Hk; by rewrite F2, F1].
      exists (z :: live). split_and!; [done|done|done|right; eexists; split_and!; [done|done|cbn; lia]]. }
  destruct live as [|z live].
  - subst r. unfold mbind at 1. unfold lua_bind at 1. cbn [mret lua_ret]. apply Htail. done.
  - destruct Hr as (m & s & -> & Es'). rewrite Es'. apply Forall_cons in Hcz as [Hz _].
    destruct Hok as (_ & _ & Hs). apply Forall_cons in Hs as [(S1 & S2 & S3) _].
    specialize (Hlive _ _ S1 Hz). assert (0 <= score z) as Hz0 by (by eapply exact_int_nonneg).
    assert (exact_int (f64_of_Z window) window) as HW by (apply of_Z_exact_int; log_bounds).
    pose proof (exact_int_nonneg _ _ Hx) as HN0.
    pose proof (retry_exact x N (f64_of_Z window) window _ (score z) Hx HW S1 Hlive) as Hre.
    assert (score z - N < 2 ^ 52) as Hfut by (change (2 ^ 52) with 4503599627370496; log_bounds).
    specialize (Hre Hfut ltac:(change (2 ^ 52) with 4503599627370496; log_bounds)).
    unfold mbind at 1. unfold lua_bind at 1. unfold mbind at 1. unfold lua_bind at 1. cbn [num mret lua_ret].
    set (ra := (f64_of_Z window - (x - f64_of_Z (score z)))%float) in *.
    destruct (exact_int_facts _ _ Hre) as (_ & Nr & _).
    assert (PrimFloat.ltb ra (lnum 0) = false) as ->.
    { pose proof (exact_gtb (lnum 0) ra 0 _ (of_Z_exact_int 0 ltac:(bounds)) Hre) as Hg. unfold f64_gtb in Hg. rewrite Hg. lia. }
    apply Htail. rewrite (exact_to_int64 ra _ Hre) by log_bounds. unfold retry_of.
    rewrite (wrap64_small (N - score z)), wrap64_small by log_bounds. by rewrite (proj2 (Z.ltb_ge _ _)) by lia.
Qed.

Lemma admit_agrees clk db k live d x e N id ttl n limit : 0 <= clk_ms clk -> log_ok (clk_ms clk) live ->
  rlook (clk_ms clk) db k = match live with [] => None | _ => Some (RZset (zmap live), d) end ->
  x = f64_of_Z N -> score_ok (clk_ms clk) (mkZ N "") -> plain_member id -> 1 <= n -> zlength live + n <= limit -> limit < log_bound ->
  1 <= ttl < log_ttl_bound ->
  exists db', (add_log_members clk (Z.to_nat n) 1 k (call_arg x) id;;
      t ← num (Some (f64_of_Z ttl)); PEXPIRE (clk_ms clk) k (call_arg t);;
      mret (reply_of [lnum 1; (lnum (zlength live) + f64_of_Z n)%float; lnum 0])) db =
      (inr (RList [1; zlength live + n; 0]), db') /\
    log_rel (clk_ms clk) (rlook (clk_ms clk) db' k)
      (setEntryTTLmsAbs (mkEntry (serialize (add_members (Z.to_nat n) 1 N id live)) e) ttl (clk_ms clk * Millisecond)) /\
    forall k', k' <> k -> rlook (clk_ms clk) db' k' = rlook (clk_ms clk) db k'.
Proof.
  intros Hms Hok L -> Hs Hid Hn Hsum Hlim Ht. pose proof (zlength_nonneg live) as Hl0.
  destruct (add_members_agree clk k id N (Z.to_nat n) Hid Hs 1 live db) as (db1 & E1 & Hok1 & L1 & F1); [lia|log_bounds|done| |].
  { rewrite L. destruct live; [by left|right; by eexists]. }
  rewrite (lua_bind_ok _ _ _ _ _ E1). lua_step. rewrite call_arg_int by log_bounds.
  rewrite (setTTL_deadline _ _ ttl (clk_ms clk)) by (done || log_bounds).
  assert (rlook (clk_ms clk) db1 k = Some (RZset (zmap (add_members (Z.to_nat n) 1 N id live)), deadline (rlook (clk_ms clk) db k))) as L1'.
  { rewrite L1. destruct (Z.to_nat n) eqn:En; [lia|done]. }
  destruct (PEXPIRE_law (clk_ms clk) db1 k _ _ ttl L1') as (db2 & E2 & L2 & F2); [log_bounds|].
  rewrite (lua_bind_ok _ _ _ _ _ E2). exists db2. split_and!; [| |intros k' Hk; by rewrite F2, F1].
  - unfold mret, lua_ret, reply_of. cbn [map]. rewrite (exact_to_int64 (lnum (zlength live) + f64_of_Z n)%float (zlength live + n)); [done| |log_bounds].
    apply exact_add_small; [apply of_Z_exact_int; log_bounds..|log_bounds].
  - rewrite L2. destruct (add_members_ok (Z.to_nat n) 1 N id live) as [_ Hlen]; [|done|lia|log_bounds|apply Hok|].
    { pose proof (score_nonneg _ _ Hs). destruct Hs as (_ & _ & ?). cbn in *. log_bounds. }
    exists (add_members (Z.to_nat n) 1 N id live). split_and!; [done|done|unfold zlength in *; lia|right].
    eexists. split_and!; [done| |cbn; lia]. destruct (Z.to_nat n) as [|k'] eqn:En; [lia|]. apply add_members_nonempty.
Qed.

Lemma Log_agrees clk db k e limit window now id ttl n : 0 <= clk_ms clk -> log_rel (clk_ms clk) (rlook (clk_ms clk) db k) e ->
  log_args (clk_ms clk) limit window now id ttl n ->
  agrees (log_rel (clk_ms clk)) (clk_ms clk)
    (SlidingWindowLogScript clk [k] [FormatInt limit; FormatInt window; FormatInt now; id; FormatInt ttl; FormatInt n; FormatInt 0]) db k
    (slidingLog_body limit window now id ttl n (clk_ms clk * Millisecond)) e.
Proof.
  intros Hms (zs & Hval & Hok & Hlen & Hcell) [Hl Hn Hw Hnow Hskew Ht Hid].
  destruct (now_exact now) as (N & HN & Herr & Hsmall); [lia|].
  assert (exact_int (f64_of_Z window) window) as HW by (apply of_Z_exact_int; log_bounds).
  assert (window <= N /\ N < 2 ^ 61) as [HWN HN61].
  { split; [|log_bounds]. destruct (Z.lt_ge_cases now (2 ^ 53)) as [Hlt|Hge]; [rewrite Hsmall by done; lia|log_bounds]. }
  destruct (cutoff_exact _ N _ window HN HW HWN HN61) as (cz & Hc & Ecz & Hlive).
  set (live := filter (fun z => cz < score z) zs).
  assert (exists d, (rlook (clk_ms clk) db k = None /\ zs = []) \/ rlook (clk_ms clk) db k = Some (RZset (zmap zs), d)) as [d Hd].
  { destruct Hcell as [[-> ->]|(d & -> & _)]; [exists None; by left|exists d; by right]. }
  destruct (prune_agrees (clk_ms clk) db k zs d _ cz Hok Hc Hd) as (db1 & E1 & E2 & F2 & L2). fold live in E2, L2.
  set (db2 := snd (ZCARD (clk_ms clk) k db1)) in *. pose proof (filter_log_ok (clk_ms clk) cz zs Hok) as Hok'. fold live in Hok'.
  assert (0 <= zlength live <= zlength zs) as Hle.
  { unfold zlength, live. pose proof (length_filter (fun z => cz < score z) zs). lia. }
  unfold agrees, SlidingWindowLogScript.
  rewrite (argn_int _ 0 limit), (argn_int _ 1 window), (argn_int _ 2 now), (argn_int _ 4 ttl), (argn_int _ 5 n) by (done || log_bounds).
  rewrite (lua_bind_ok _ _ _ (Some (f64_of_Z now)) db) by done. do 2 lua_step. rewrite (lua_bind_ok _ _ _ k db) by done.
  rewrite (lua_bind_ok _ _ _ _ _ E1), (lua_bind_ok _ _ _ _ _ E2). lua_step. cbn [default from_option].
  unfold slidingLog_body. rewrite Ecz, Hval, (parseZSet_serialize zs) by apply Hok. rewrite (remove_is_filter cz zs) by apply Hok. fold live.
  rewrite (exact_to_int64 _ N HN) by log_bounds.
  assert (exact_int (lnum (zlength live) + f64_of_Z n)%float (zlength live + n)) as Hsum.
  { apply exact_add_small; [apply of_Z_exact_int; log_bounds..|log_bounds]. }
  rewrite (exact_gtb _ _ _ limit Hsum) by (apply of_Z_exact_int; log_bounds). rewrite (wrap64_small (zlength live + n)) by log_bounds.
  destruct (Z.ltb_spec limit (zlength live + n)) as [Hgt|Hfit].
  - destruct (refuse_agrees clk db2 k live d (f64_of_Z now) (expiresAt e) now window ttl N cz) as (db3 & E3 & R3 & F3); try done; [lia| |].
    { apply Forall_forall. by intros z [? _]%list_elem_of_filter. }
    eexists db3, _, _. split_and!; [exact E3|done|exact R3|intros k' Hk; by rewrite F3, F2].
  - destruct (admit_agrees clk db2 k live d (f64_of_Z now) (expiresAt e) N id ttl n limit) as (db3 & E3 & R3 & F3); try done; try lia.
    { symmetry. apply exact_roundtrip; [done|log_bounds]. }
    { split_and!; cbn; [|log_bounds|done]. by rewrite (exact_roundtrip _ N HN) by log_bounds. }
    rewrite (floor_int _ n) by (apply of_Z_exact_int || idtac; log_bounds).
    eexists db3, _, _. split_and!; [exact E3|done|exact R3|intros k' Hk; by rewrite F3, F2].
Qed.

End agreement.
