(* ===== verification/RedisParity.v ===== *)
(** * The Redis scripts and their in-memory emulation agree

    [scripts_memory.go] promises the decisions of the Lua scripts: histories of
    calls, by the agreement of single evaluations. *)

From Stdlib Require Import Floats Sorting.Sorted.
From S2P Require Import Prelude Float64 Float64Round Float64Exact Strconv StoreMemory StoreScripts RedisScripts RedisModel StoreAtomic RedisAgree RedisLog.
Open Scope Z_scope.

Section parity.
Context {DB : Type} `{RedisLaws DB}.

(** ** Histories of calls *)

Record rcall := mkRcall { rc_clock : server_clock; rc_id : ScriptID; rc_keys : list string; rc_args : list arg }.

(** What a key holds. *)
Inductive key_kind := Counter | Arrival | Log.

(** The arguments the limiters send. *)
Definition call_ok (kinds : string -> key_kind) (c : rcall) : Prop :=
  match rc_id c, rc_keys c, rc_args c with
  | FixedWindowScriptID, [k], [ArgInt limit; ArgInt n; ArgInt ttl] =>
      kinds k = Counter /\ 0 <= limit < counter_bound /\ 0 <= n < counter_bound /\ 1 <= ttl < ttl_bound
  | SlidingWindowCounterScriptID, [ck; pk], [ArgInt limit; ArgInt n; ArgInt frac; ArgInt ttl] =>
      kinds ck = Counter /\ kinds pk = Counter /\ ck <> pk /\
      0 <= limit < counter_bound /\ 0 <= n < counter_bound /\ 0 <= frac <= 1000000 /\ 1 <= ttl < ttl_bound
  | GCRAScriptID, [k], [ArgInt emission; ArgInt burst; ArgInt n; ArgInt now; ArgInt ttl; ArgInt 0] =>
      kinds k = Arrival /\ tat_args emission burst n now ttl
  | LeakyBucketScriptID, [k], [ArgInt emission; ArgInt capacity; ArgInt n; ArgInt now; ArgInt ttl; ArgInt 0] =>
      kinds k = Arrival /\ tat_args emission capacity n now ttl /\ 1 <= emission /\ capacity < 2 ^ 53
  | SlidingWindowLogScriptID, [k], [ArgInt limit; ArgInt window; ArgInt now; ArgStr id; ArgInt ttl; ArgInt n; ArgInt 0] =>
      kinds k = Log /\ log_args (clk_ms (rc_clock c)) limit window now id ttl n
  | _, _, _ => False
  end.

Definition redis_call (c : rcall) : lua DB reply :=
  script_body (rc_clock c) (rc_keys c) (map toString (rc_args c)) (rc_id c).

Definition instant (c : rcall) : time := clk_ms (rc_clock c) * Millisecond.

Definition memory_call (max : Z) (mode : bool) (c : rcall) (m : Memory) : (store_error + reply) * Memory :=
  run (store_Eval max mode (script_reads_at (instant c)) (rc_id c) (rc_keys c) (rc_args c)) m.

Definition key_rel (kinds : string -> key_kind) (ms : Z) (k : string) : cell -> entry -> Prop :=
  match kinds k with Counter => counter_rel | Arrival => tat_rel | Log => log_rel ms end.

Definition stores_rel (kinds : string -> key_kind) (ms : Z) (db : DB) (m : Memory) : Prop :=
  wf m /\ forall k, key_rel kinds ms k (rlook ms db k) (found m k (ms * Millisecond)).

Lemma found_later m k t t' : t <= t' ->
  found m k t' = if isExpired (found m k t) t' then empty_entry else found m k t.
Proof.
  intros Ht. unfold found. destruct (view m k) as [e|]; [|done].
  destruct (isExpired e t) eqn:E; [|done]. by rewrite (isExpired_mono e t t').
Qed.

Lemma deadline_expired d x ms : deadline_rel d x ->
  negb (IsZero x) && After (ms * Millisecond) x = match d with Some d => d <? ms | None => false end.
Proof.
  destruct d as [d|]; cbn.
  - intros [Hd ->]. unfold IsZero, zero_time, After, Millisecond. rewrite (proj2 (Z.eqb_neq _ _)) by lia. cbn. lia.
  - by intros ->.
Qed.

(** Expiry hits both sides at the same millisecond. *)
Lemma rel_later kinds ms ms' k c e : ms <= ms' -> key_rel kinds ms k c e ->
  key_rel kinds ms' k (alive ms' c) (if isExpired e (ms' * Millisecond) then empty_entry else e).
Proof.
  intros Hms. unfold key_rel. destruct (kinds k).
  - intros [[-> ->]|(v & d & Hv & -> & Hval & Hd)]; [by left|]. unfold isExpired. rewrite (deadline_expired d) by done.
    destruct d as [d|]; cbn; [|right; by eauto 7]. destruct (d <? ms'); [by left|right; by eauto 7].
  - intros [[-> ->]|(s & x & z & d & -> & Hs & Hx & Hz & Hval & Hd)]; [by left|].
    unfold isExpired. rewrite (deadline_expired d) by done.
    destruct d as [d|]; cbn; [|right; by eauto 10]. destruct (d <? ms'); [by left|right; by eauto 10].
  - intros (zs & Hval & Hok & Hlen & Hcell). assert (log_rel ms' None empty_entry) as Hnone by (by apply log_rel_empty).
    pose proof (score_ok_later ms ms' zs Hms Hok) as Hok'. destruct Hcell as [[-> ->]|(d & -> & Hne & Hd)].
    + destruct (isExpired _ _); [done|]. exists []. split_and!; [done|apply log_ok_nil|done|by left].
    + unfold isExpired. rewrite (deadline_expired d) by done. destruct d as [d|]; cbn; [destruct (d <? ms'); [done|]|];
        exists zs; split_and!; eauto 6.
Qed.

Lemma stores_rel_later kinds ms ms' db m : ms <= ms' -> stores_rel kinds ms db m -> stores_rel kinds ms' db m.
Proof.
  intros Hms [Hw Hk]. split; [done|]. intros k. rewrite (look_later ms ms'), (found_later m k (ms * Millisecond)) by (unfold Millisecond; lia).
  by apply (rel_later _ ms).
Qed.

(** What a script leaves is not expired yet. *)
Lemma rel_found kinds ms db m k e : key_rel kinds ms k (rlook ms db k) e -> view m k = Some e ->
  key_rel kinds ms k (rlook ms db k) (found m k (ms * Millisecond)).
Proof.
  intros Hrel Hv. unfold found. rewrite Hv. rewrite (look_later ms ms) by done. by apply (rel_later _ ms).
Qed.

Lemma stores_rel_write kinds ms db db' m m' k e : stores_rel kinds ms db m -> wf m' ->
  key_rel kinds ms k (rlook ms db' k) e -> view m' k = Some e ->
  (forall k', k' <> k -> rlook ms db' k' = rlook ms db k') -> (forall k', k' <> k -> view m' k' = view m k') ->
  stores_rel kinds ms db' m'.
Proof.
  intros [Hw Hk] Hw' Hrel Hv Fd Fm. split; [done|]. intros k'. destruct (decide (k' = k)) as [->|Hne]; [by eapply rel_found|].
  unfold found. rewrite Fd, Fm by done. apply Hk.
Qed.

(** A handler with one critical section. *)
Lemma one_key_step kinds max ms db m k script body : max <= 0 -> stores_rel kinds ms db m ->
  agrees (key_rel kinds ms k) ms script db k body (found m k (ms * Millisecond)) ->
  exists r db' m', run (script_prog max k (mkSection (ms * Millisecond) body)) m = (inr r, m') /\
    script db = (inr r, db') /\ stores_rel kinds ms db' m'.
Proof.
  intros Hmax Hs (db' & r & e' & Es & Eb & Hrel & F). pose proof Hs as [Hw _].
  pose proof (run_script max k (mkSection (ms * Millisecond) body) m Hmax Hw) as Hr. cbv zeta in Hr.
  cbn [sec_load sec_body] in Hr. rewrite Eb in Hr. destruct (run _ m) as [r' m']. cbn [fst snd] in Hr.
  destruct Hr as (-> & Hw' & Hv & Fm). exists r, db', m'. split_and!; [done|done|].
  by eapply stores_rel_write.
Qed.

Lemma empty_counter : from_option counter_value 0 None = counter_value empty_entry.
Proof. done. Qed.

(** The handler of the sliding-window counter: the previous window is read under its own mutex. *)
Lemma two_key_step kinds max ms db m ck pk script body : max <= 0 -> stores_rel kinds ms db m -> ck <> pk ->
  (forall ope, from_option counter_value 0 ope = counter_value (found m pk (ms * Millisecond)) ->
    agrees (key_rel kinds ms ck) ms script db ck (fun e => body e ope) (found m ck (ms * Millisecond))) ->
  exists r db' m', run (loadOrCreateRaw max ck (ms * Millisecond) (fun lc => loadEntry pk (ms * Millisecond) (fun lp =>
      r <-- Locked2 lc lp body ;; Ret r))) m = (inr r, m') /\
    script db = (inr r, db') /\ stores_rel kinds ms db' m'.
Proof.
  intros Hmax Hs Hne Hag. pose proof Hs as [Hw _]. set (t := ms * Millisecond) in *.
  destruct (run_loadOrCreate max ck t (fun lc => loadEntry pk t (fun lp => r <-- Locked2 lc lp body ;; Ret r)) m Hmax Hw)
    as (l & m1 & -> & W1 & E1 & D1 & V1).
  assert (found m1 pk t = found m pk t) as Fp by (unfold found; rewrite V1 by congruence; done).
  assert (exists lp, run (loadEntry pk t (fun lp => r <-- Locked2 l lp body ;; Ret r)) m1 =
            run (r <-- Locked2 l lp body ;; Ret r) m1 /\ from_option counter_value 0 (deref m1 <$> lp) = counter_value (found m pk t))
    as (lp & -> & Hlp).
  { unfold loadEntry. cbn [run exec_act]. rewrite <- Fp. unfold found.
    destruct (entries m1 !! pk) as [q|] eqn:Eq; [|by exists None; rewrite (view_None m1 pk Eq)].
    rewrite run_Locked, write_deref, (view_lookup m1 pk q W1 Eq). destruct (isExpired _ _) eqn:Ex; [by exists None|by exists (Some q)]. }
  destruct (Hag _ Hlp) as (db' & r & e' & Es & Eb & Hrel & F). cbn [run exec_act]. rewrite D1, Eb.
  exists r, db', (write m1 l e'). split_and!; [done|done|].
  eapply (stores_rel_write kinds ms db db' m (write m1 l e') ck e'); [done|by apply write_wf|done| |done|].
  - by rewrite (view_write _ ck l), decide_True.
  - intros k' Hk. by rewrite (view_write _ ck l), decide_False, V1.
Qed.

Lemma call_step kinds max mode db m c : max <= 0 -> 0 <= clk_ms (rc_clock c) -> call_ok kinds c ->
  stores_rel kinds (clk_ms (rc_clock c)) db m ->
  exists r db' m', memory_call max mode c m = (inr r, m') /\ redis_call c db = (inr r, db') /\
    stores_rel kinds (clk_ms (rc_clock c)) db' m'.
Proof.
  destruct c as [clk id keys args]. cbn [rc_clock]. intros Hmax Hms Hc Hs. unfold call_ok in Hc. cbn [rc_id rc_keys rc_args] in Hc.
  unfold memory_call, redis_call, instant. cbn [rc_clock rc_id rc_keys rc_args].
  destruct id; try done;
    repeat match type of Hc with match ?x with _ => _ end => destruct x; try done end.
  - destruct Hc as [Hk Ha]. apply (one_key_step kinds max _ db m s _ _ Hmax Hs).
    pose proof (proj2 Hs s) as Hrel. unfold key_rel in *. rewrite Hk in *. by apply GCRA_agrees.
  - destruct Hc as (Hk & Ha & H1 & H2). apply (one_key_step kinds max _ db m s _ _ Hmax Hs).
    pose proof (proj2 Hs s) as Hrel. unfold key_rel in *. rewrite Hk in *. by apply Leaky_agrees.
  - destruct Hc as [Hk Ha]. apply (one_key_step kinds max _ db m s _ _ Hmax Hs).
    pose proof (proj2 Hs s) as Hrel. unfold key_rel in *. rewrite Hk in *. by apply Log_agrees.
  - destruct Hc as (Hk & Hp & Hne & H1 & H2 & H3 & H4). apply (two_key_step kinds max _ db m s s0 _ _ Hmax Hs Hne).
    pose proof (proj2 Hs s) as Hrel. pose proof (proj2 Hs s0) as Hrelp. unfold key_rel in *. rewrite Hk in *. rewrite Hp in *.
    intros ope Ho. by eapply Counter_agrees.
  - destruct Hc as (Hk & H1 & H2 & H3). apply (one_key_step kinds max _ db m s _ _ Hmax Hs).
    pose proof (proj2 Hs s) as Hrel. unfold key_rel in *. rewrite Hk in *. by apply FixedWindow_agrees.
Qed.

Fixpoint redis_run (cs : list rcall) (db : DB) : list (redis_error + reply) :=
  match cs with
  | [] => []
  | c :: cs => let '(r, db) := redis_call c db in r :: redis_run cs db
  end.

Fixpoint memory_run (max : Z) (mode : bool) (cs : list rcall) (m : Memory) : list (store_error + reply) :=
  match cs with
  | [] => []
  | c :: cs => let '(r, m) := memory_call max mode c m in r :: memory_run max mode cs m
  end.

Definition in_order (cs : list rcall) : Prop := StronglySorted Z.le (map (fun c => clk_ms (rc_clock c)) cs).

Lemma runs_agree kinds max mode cs ms db m : max <= 0 -> 0 <= ms -> Forall (fun c => ms <= clk_ms (rc_clock c)) cs ->
  in_order cs -> Forall (call_ok kinds) cs -> stores_rel kinds ms db m ->
  exists rs, memory_run max mode cs m = map inr rs /\ redis_run cs db = map inr rs.
Proof.
  intros Hmax. revert ms db m. induction cs as [|c cs IH]; intros ms db m Hms Hfrom Hord Hok Hs; [by exists []|].
  apply Forall_cons in Hfrom as [Hc Hfrom]. apply Forall_cons in Hok as [Hok1 Hok]. apply StronglySorted_inv in Hord as [Hord Hnext].
  destruct (call_step kinds max mode db m c Hmax ltac:(lia) Hok1 (stores_rel_later _ _ _ _ _ Hc Hs)) as (r & db' & m' & Em & Er & Hs').
  destruct (IH (clk_ms (rc_clock c)) db' m' ltac:(lia)) as (rs & E1 & E2); [exact (proj1 (Forall_map _ _ _) Hnext)|done..|].
  exists (r :: rs). cbn [memory_run redis_run map]. by rewrite Em, Er, E1, E2.
Qed.
End parity.

(** C36: the Redis scripts and their in-memory emulation agree.  Over any
    server that satisfies the documented laws, a history of fixed-window, GCRA,
    leaky-bucket, sliding-window-counter and sliding-window-log calls in the
    order of the server's clock, started empty on both sides, gets the same reply
    to every call: the Lua doubles and sorted sets, and the counters, decimal
    strings and serialized records of the emulation, keys that expire included,
    never part.  Counters are below [2^52], arrival windows below [2^61], times to
    live at least a millisecond; for logs, limits are below [10^14] and windows and
    the skew of the callers' clocks below [2^50] nanoseconds. *)
Theorem redis_memory_parity {DB} `{RedisLaws DB} kinds max mode cs (db : DB) : max <= 0 ->
  (forall ms k, rlook ms db k = None) -> Forall (fun c => 0 <= clk_ms (rc_clock c)) cs -> in_order cs ->
  Forall (call_ok kinds) cs ->
  exists rs, memory_run max mode cs (NewMemory max) = map inr rs /\ redis_run cs db = map inr rs.
Proof.
  intros Hmax Hempty Hpos Hord Hok. apply (runs_agree kinds max mode cs 0); [done..|]. split; [done|].
  intros k. rewrite Hempty. unfold found, view. cbn. rewrite lookup_empty. cbn. unfold key_rel. destruct (kinds k); [by left|by left|apply log_rel_empty].
Qed.

(** *** A history on the model server *)

Definition demo_kinds (k : string) : key_kind :=
  if bool_decide (k = "rl:fw:7" \/ k = "rl:swc:7" \/ k = "rl:swc:6" \/ k = "rl:swc:5") then Counter
  else if bool_decide (k = "rl:swl:a") then Log else Arrival.

Definition demo_now : Z := 1700000000123456789.
Definition demo_ms : Z := 1700000000123.

Definition demo_calls : list rcall :=
  let clk ms := mkClock ms (1000 * ms) in
  let c ms id keys args := mkRcall (clk ms) id keys (map ArgInt args) in
  let log ms n id now := mkRcall (clk ms) SlidingWindowLogScriptID ["rl:swl:a"]
    [ArgInt 3; ArgInt 5000000; ArgInt now; ArgStr id; ArgInt 1005; ArgInt n; ArgInt 0] in
  [c demo_ms FixedWindowScriptID ["rl:fw:7"] [2; 2; 20];
   c demo_ms FixedWindowScriptID ["rl:fw:7"] [2; 1; 20];
   c (demo_ms + 1) GCRAScriptID ["rl:gcra:a"] [1100; 2; 2; demo_now; 1000; 0];
   c (demo_ms + 1) GCRAScriptID ["rl:gcra:a"] [1100; 2; 1; demo_now + 500; 1000; 0];
   c (demo_ms + 2) LeakyBucketScriptID ["rl:leaky:a"] [1000; 3; 2; demo_now; 1000; 0];
   c (demo_ms + 3) SlidingWindowCounterScriptID ["rl:swc:6"; "rl:swc:5"] [9; 4; 0; 40];
   c (demo_ms + 4) SlidingWindowCounterScriptID ["rl:swc:7"; "rl:swc:6"] [9; 3; 250000; 40];
   log (demo_ms + 5) 2 "a" demo_now; log (demo_ms + 6) 2 "b" (demo_now + 1000000); log (demo_ms + 7) 1 "c" (demo_now - 1000);
   log (demo_ms + 8) 2 "d" (demo_now + 4999700);
   c (demo_ms + 30) FixedWindowScriptID ["rl:fw:7"] [2; 1; 20]].

Lemma redis_memory_parity_witness :
  redis_run demo_calls (∅ : model_db) =
    map inr [RList [1; 2]; RList [0; 2]; RList [1; 0]; RList [0; 512]; RList [1; 2; 0]; RList [1; 4; 0];
             RList [1; 3; 3000000]; RList [1; 2; 0]; RList [0; 2; 4000064]; RList [1; 3; 0];
             RList [0; 2; 320]; RList [1; 1]] /\
  exists rs, memory_run 0 false demo_calls (NewMemory 0) = map inr rs /\ redis_run demo_calls (∅ : model_db) = map inr rs.
Proof.
  split; [vm_compute; reflexivity|].
  apply (redis_memory_parity demo_kinds); [lia|by intros ms k|repeat constructor; vm_compute; congruence|repeat constructor; vm_compute; congruence|].
  repeat constructor; vm_compute; congruence.
Defined.
