(* ===== verification/RedisBreaker.v ===== *)
(** * The circuit-breaker scripts on Redis and in memory

    The Lua scripts keep the shared record in a hash of numbers and read the
    server's clock in doubles; [cb_acquire], [cb_record] and [cb_read] are the
    decisions of the emulation on integers.  As long as the hash does not
    expire, a history of calls gets the same replies from both, the emulation
    being given the instants the server's doubles stand for. *)

From Stdlib Require Import Floats Sorting.Sorted.
From S2P Require Import Prelude Float64 Float64Round Float64Exact Strconv StoreMemory StoreScripts RedisScripts RedisModel StoreAtomic RedisAgree.
Open Scope Z_scope.

(** The server's clock in nanoseconds, as the scripts compute it. *)
Definition now_double (us : Z) : f64 :=
  ((f64_of_Z (us / 1000000) * f64_of_Z 1000000 + f64_of_Z (us mod 1000000)) * f64_of_Z 1000)%float.

Definition now_ns (us : Z) : Z := f64_to_int64 (now_double us).

(** Nanoseconds between the years 2006 and 2043. *)
Definition in_era (z : Z) : Prop := 2 ^ 60 <= z < 2 ^ 61.

Lemma era_multiple x z : exact_int x z -> in_era z -> exists q, z = 256 * q.
Proof.
  intros Hx Hz. unfold exact_int in Hx. destruct (sf x) as [[]|?| |[] m e] eqn:E; try done.
  - subst z. by destruct Hz.
  - destruct (int_mantissa x z m e) as [[L U] He]; [unfold exact_int; by rewrite E|done|].
    destruct (Z.le_gt_cases 8 e) as [H8|H8].
    + rewrite <- (Z.add_0_l e) in Hx. rewrite <- (scaled_shift (Zpos m) 0 e) in Hx by lia. apply scaled_inj in Hx; [|lia].
      exists (Zpos m * 2 ^ (e - 8)). rewrite <- Hx. replace e with (8 + (e - 8)) at 1 by lia. rewrite Z.pow_add_r by lia.
      change (2 ^ 8) with 256. lia.
    + exfalso. assert (scaled z 0 < scaled (2 ^ 53) 7) as Hlt.
      { rewrite <- Hx. unfold scaled. assert (2 ^ (e + 1074) <= 2 ^ (7 + 1074)) by (apply Z.pow_le_mono_r; lia).
        pose proof (pow2_pos (e + 1074) ltac:(lia)). nia. }
      rewrite <- (Z.add_0_l 7), <- (scaled_shift (2 ^ 53) 0 7) in Hlt by lia.
      unfold scaled in Hlt. apply Z.mul_lt_mono_pos_r in Hlt; [|by apply pow2_pos].
      destruct Hz as [Hlo _]. change (2 ^ 53 * 2 ^ 7) with (2 ^ 60) in Hlt. lia.
Qed.

(** The time since the circuit opened is exact. *)
Lemma elapsed_exact x y a b : exact_int x a -> exact_int y b -> in_era a -> in_era b -> b <= a ->
  exact_int (x - y)%float (a - b).
Proof.
  intros Hx Hy Ha Hb Hle. apply exact_sub; [done..|].
  destruct (era_multiple x a Hx Ha) as [p ->]. destruct (era_multiple y b Hy Hb) as [q ->].
  destruct (Z.eq_dec p q) as [->|Hne]; [left; lia|right]. replace (256 * p - 256 * q) with ((p - q) * 2 ^ 8) by (change (2 ^ 8) with 256; lia).
  apply shifted_representable; [|lia]. unfold in_era in *. change (2 ^ 60) with 1152921504606846976 in *.
  change (2 ^ 61) with 2305843009213693952 in *. change (2 ^ 53) with 9007199254740992. lia.
Qed.

Lemma now_double_exact us : 0 <= us < 2 ^ 53 -> in_era (now_ns us) -> exact_int (now_double us) (now_ns us).
Proof.
  intros Hus Hera. unfold now_ns in *. pose proof (Z.mod_pos_bound us 1000000 ltac:(lia)).
  pose proof (Z.div_mod us 1000000 ltac:(lia)) as Hdm. assert (0 <= us / 1000000) by (apply Z.div_pos; lia).
  change (2 ^ 53) with 9007199254740992 in Hus.
  assert (exact_int (f64_of_Z (us / 1000000) * f64_of_Z 1000000 + f64_of_Z (us mod 1000000))%float us) as Hs.
  { rewrite Hdm at 3. rewrite (Z.mul_comm 1000000). apply exact_add_small; [|apply of_Z_exact_int; bounds|bounds].
    apply exact_mul_small; [apply of_Z_exact_int; bounds..|bounds]. }
  assert (is_int (now_double us)) as Hi.
  { apply mul_is_int; [by eapply exact_is_int|by apply of_Z_is_int|by apply (exact_int_facts _ _ Hs)|done]. }
  destruct (f64_finite (now_double us)) eqn:Hf.
  - destruct (is_int_finite _ Hi Hf) as [z Hz]. destruct (Z.le_gt_cases z max_int64).
    + by rewrite (exact_to_int64 _ z Hz).
    + exfalso. unfold in_era, f64_to_int64 in Hera. rewrite (exact_trunc _ z Hz) in Hera.
      rewrite (proj2 (Z.leb_gt z max_int64)), andb_false_r in Hera by lia. by destruct Hera.
  - exfalso. unfold in_era, f64_to_int64, f64_trunc in Hera. unfold f64_finite in Hf. by destruct (sf (now_double us)); destruct Hera.
Qed.

(** ** The hash and the record *)

Section breaker.
Context {DB : Type} `{RedisLaws DB}.

Definition field_rel (h : gmap string string) (f : string) (v : Z) : Prop :=
  0 <= v < counter_bound /\ (h !! f = None /\ v = 0 \/ h !! f = Some (FormatInt v)).

Definition opened_rel (h : gmap string string) (v : Z) : Prop :=
  (v = 0 /\ (h !! "opened_at" = None \/ h !! "opened_at" = Some (FormatInt 0))) \/
  (in_era v /\ exists s x, h !! "opened_at" = Some s /\ tonumber s = Some x /\ exact_int x v).

(** The live hash of a key that keeps living until [L]. *)
Definition hash_rel (L : Z) (c : cell) (st : cbState) : Prop :=
  (forall d, deadline c = Some d -> L <= d) /\
  exists h, hash_of c h /\ field_rel h "state" (cs_state st) /\ field_rel h "failures" (cs_failures st) /\
    field_rel h "successes" (cs_successes st) /\ opened_rel h (cs_openedAt st) /\
    field_rel h "half_open_inflight" (cs_inflight st).

Lemma field_num h f v : field_rel h f v -> num_or (lnum 0) (h !! f) = f64_of_Z v.
Proof.
  intros [Hv [[-> ->] | ->]]; [done|]. unfold num_or. cbn. rewrite tonumber_int; [done|bounds].
Qed.

Lemma field_exact h f v : field_rel h f v -> exact_int (f64_of_Z v) v.
Proof. intros [Hv _]. apply of_Z_exact_int. bounds. Qed.

Lemma opened_exact h v : opened_rel h v -> exact_int (num_or (lnum 0) (h !! "opened_at")) v.
Proof.
  intros [[-> [-> | ->]]|(_ & s & x & -> & Hs & Hx)]; unfold num_or; [done| |cbn; by rewrite Hs].
  change (Some (FormatInt 0) ≫= tonumber) with (tonumber (FormatInt 0)). by rewrite tonumber_int.
Qed.

Lemma field_set h f v : 0 <= v < counter_bound -> field_rel (<[f := call_arg (lnum v)]> h) f v.
Proof. intros Hv. split; [done|right]. unfold lnum. rewrite lookup_insert_eq, call_arg_int by bounds. done. Qed.

Lemma field_other h f g s v : f <> g -> field_rel h f v -> field_rel (<[g := s]> h) f v.
Proof. intros Hne [Hv Hf]. split; [done|]. by rewrite lookup_insert_ne. Qed.

Lemma opened_other h g s v : g <> "opened_at" -> opened_rel h v -> opened_rel (<[g := s]> h) v.
Proof. unfold opened_rel. intros Hne Ho. by rewrite lookup_insert_ne. Qed.

Lemma opened_set h x v : exact_int x v -> in_era v -> opened_rel (<["opened_at" := call_arg x]> h) v.
Proof.
  intros Hx Hv. right. split; [done|]. exists (call_arg x), x. rewrite lookup_insert_eq.
  split_and!; [done|by apply tonumber_arg; eapply exact_plain|done].
Qed.

Lemma opened_zero h : opened_rel (<["opened_at" := call_arg (lnum 0)]> h) 0.
Proof. left. split; [done|right]. unfold lnum. by rewrite lookup_insert_eq, call_arg_int. Qed.

(** The clock of the server reaches the script exactly. *)
Lemma server_now clk db : 0 <= clk_us clk < 2 ^ 53 -> exists db', server_now_ns clk db = (inr (now_double (clk_us clk)), db') /\
  forall ms k, rlook ms db' k = rlook ms db k.
Proof.
  intros Hus. destruct (TIME_law (clk_us clk) db) as (db' & E & F); [lia|]. exists db'. split; [|done].
  pose proof (Z.mod_pos_bound (clk_us clk) 1000000 ltac:(lia)). pose proof (Z.div_pos (clk_us clk) 1000000 ltac:(lia) ltac:(lia)).
  pose proof (Z.div_le_upper_bound (clk_us clk) 1000000 (clk_us clk) ltac:(lia) ltac:(lia)).
  unfold server_now_ns. rewrite (lua_bind_ok _ _ _ _ _ E). cbn [fst snd].
  rewrite !tonumber_int by bounds. rewrite !(lua_bind_ok (num (Some _)) _ _ _ _ (num_ok _ _)). done.
Qed.

(** What every write of a script leaves: the same deadline, or a new one that is late enough. *)
Lemma set_fields_spec clk key f v fs db h : hash_of (rlook (clk_ms clk) db key) h ->
  exists db', set_fields clk key ((f, v) :: fs) db = (inr (), db') /\
    writes rlook (clk_ms clk) db db' key
      (Some (RHash (foldl (fun h f => <[fst f := call_arg (snd f)]> h) h ((f, v) :: fs)), deadline (rlook (clk_ms clk) db key))).
Proof.
  intros Hh. unfold set_fields. cbn [map fst snd].
  destruct (HSET_law (clk_ms clk) db key h f (call_arg v) (map (fun f => (fst f, call_arg (snd f))) fs) Hh) as (db' & E & W).
  exists db'. split; [done|]. cbn [foldl fst snd] in W |- *.
  assert (forall h0 : gmap string string, foldl (fun h f => <[fst f := snd f]> h) h0 (map (fun f => (fst f, call_arg (snd f))) fs) =
                     foldl (fun h f => <[fst f := call_arg (snd f)]> h) h0 fs) as Ef.
  { clear. induction fs as [|[g w] fs IH]; intros h0; [done|]. cbn. apply IH. }
  by rewrite Ef in W.
Qed.

(** The fields of an updated hash. *)
Ltac fields := repeat lazymatch goal with
  | |- field_rel (<[?f := FormatInt _]> _) ?f _ => split; [bounds|right; by rewrite lookup_insert_eq]
  | |- field_rel (<[?f := _]> _) ?f _ => apply field_set; bounds
  | |- field_rel (<[_ := _]> _) _ _ => apply field_other; [discriminate|]
  | |- opened_rel (<["opened_at" := call_arg (lnum 0)]> _) _ => apply opened_zero
  | |- opened_rel (<["opened_at" := _]> _) _ => apply opened_set; assumption
  | |- opened_rel (<[_ := _]> _) _ => apply opened_other; [discriminate|]
  | |- _ => assumption
  end.

(** ** The scripts *)

(** The hypotheses on one call: the clock is in the era and not before the
    opening; [L]: the hash still has to live at [L]. *)
Record clock_ok (clk : server_clock) (L ttl : Z) (st : cbState) : Prop := {
  ck_us : 0 <= clk_us clk < 2 ^ 53;
  ck_era : in_era (now_ns (clk_us clk));
  ck_opened : cs_openedAt st <= now_ns (clk_us clk);
  ck_ttl : 1 <= ttl < ttl_bound;
  ck_live : L <= clk_ms clk + ttl }.

(** The test of the open timeout, in doubles and on integers. *)
Lemma elapsed_test h st now timeout : opened_rel h (cs_openedAt st) -> exact_int now (now_ns timeout) -> in_era (now_ns timeout) ->
  cs_openedAt st <= now_ns timeout -> forall T, 0 <= T < 2 ^ 53 ->
  f64_gtb (num_or (lnum 0) (h !! "opened_at")) (lnum 0) = (0 <? cs_openedAt st) /\
  (0 < cs_openedAt st -> f64_geb (now - num_or (lnum 0) (h !! "opened_at"))%float (f64_of_Z T) =
     (T <=? now_ns timeout -w cs_openedAt st)).
Proof.
  intros Ho Hn He Hle T HT. pose proof (opened_exact h _ Ho) as Hx. split.
  - rewrite (exact_gtb _ _ (cs_openedAt st) 0) by (done || by apply of_Z_exact_int). done.
  - intros Hp. destruct Ho as [[E _]|[Hera _]]; [lia|]. unfold f64_geb.
    rewrite (exact_leb _ _ T (now_ns timeout - cs_openedAt st)).
    2: by apply of_Z_exact_int. 2: by apply elapsed_exact.
    rewrite wrap64_small; [done|]. unfold in_era in *. change (2 ^ 60) with 1152921504606846976 in *.
    change (2 ^ 61) with 2305843009213693952 in *. go_lia.
Qed.

Lemma opened_reply h v : opened_rel h v -> f64_to_int64 (num_or (lnum 0) (h !! "opened_at")) = v.
Proof.
  intros Ho. apply exact_to_int64; [by apply opened_exact|]. destruct Ho as [[-> _]|[[_ Hv] _]]; [done|].
  change (2 ^ 61) with 2305843009213693952 in Hv. go_lia.
Qed.

Lemma lnum_reply z : 0 <= z < 2 ^ 53 -> f64_to_int64 (lnum z) = z.
Proof. intros Hz. apply exact_to_int64; [by apply of_Z_exact_int|bounds]. Qed.

Lemma field_reply h f v : field_rel h f v -> f64_to_int64 (f64_of_Z v) = v.
Proof. intros [Hv _]. apply lnum_reply. bounds. Qed.

Lemma field_eqb h f v z : field_rel h f v -> 0 <= z < 2 ^ 53 -> PrimFloat.eqb (f64_of_Z v) (lnum z) = (v =? z).
Proof. intros Hf Hz. apply exact_eqb; [by eapply field_exact|by apply of_Z_exact_int]. Qed.

Lemma Read_agrees clk L ttl k db st timeout : hash_rel L (rlook (clk_ms clk) db k) st -> clock_ok clk L ttl st ->
  0 <= timeout < 2 ^ 53 ->
  exists db', CircuitBreakerReadScript clk [k] (map FormatInt [timeout]) db =
    (inr (RList (cb_read timeout (now_ns (clk_us clk)) st)), db') /\ hash_rel L (rlook (clk_ms clk) db' k) st.
Proof.
  intros Hrel [Hus Hera Hop Httl Hlive] HT. pose proof Hrel as [Hd (h & Hh & Fs & Ff & Fc & Fo & Fi)].
  destruct (server_now clk db Hus) as (db1 & E1 & L1).
  destruct (HMGET_law (clk_ms clk) db1 k h ["state"; "failures"; "successes"; "opened_at"; "half_open_inflight"])
    as (db2 & E2 & W2); [by rewrite L1|].
  destruct (elapsed_test h st _ _ Fo (now_double_exact _ Hus Hera) Hera Hop timeout HT) as [G1 G2].
  exists db2. split; [|rewrite (proj1 W2), L1; exact Hrel].
  unfold CircuitBreakerReadScript. cbn [map]. rewrite (argn_int _ 0 timeout) by (done || bounds).
  rewrite (lua_bind_ok _ _ _ _ _ E1), (lua_bind_ok (key_at _ _) _ db1 k db1), (lua_bind_ok _ _ _ _ _ E2) by done.
  cbn [map lookup list_lookup mjoin option_join].
  rewrite (field_num h "state" _ Fs), (field_num h "failures" _ Ff), (field_num h "successes" _ Fc), (field_num h "half_open_inflight" _ Fi).
  rewrite (field_eqb h "state" _ 2 Fs) by done. rewrite G1. unfold cb_read.
  destruct (Z.eqb_spec (cs_state st) 2) as [E|E], (Z.ltb_spec 0 (cs_openedAt st)) as [P|P]; cbn [andb];
    [rewrite (lua_bind_ok _ _ db2 (timeout <=? now_ns (clk_us clk) -w cs_openedAt st) db2) by
       (rewrite (lua_bind_ok (num (Some _)) _ _ _ _ (num_ok _ _)), G2 by done; done)
    |rewrite (lua_bind_ok _ _ db2 false db2) by done..];
    repeat case_match; unfold mret, lua_ret, reply_of; cbn [map];
    by rewrite (opened_reply h _ Fo), (field_reply h _ _ Ff), (field_reply h _ _ Fc), (field_reply h _ _ Fi), ?(field_reply h _ _ Fs).
Qed.

(** The half-open branch of the acquire script. *)
Definition reserve_probe (clk : server_clock) (key : string) (inflight : f64) (half_open_max ttl_ms : option f64) : lua DB reply :=
  half_open_max ← num half_open_max;
  if f64_geb inflight half_open_max then mret (reply_of [lnum 2; lnum 1])
  else
    HINCRBY (clk_ms clk) key "half_open_inflight" (call_arg (lnum 1));;
    ttl_ms ← num ttl_ms;
    PEXPIRE (clk_ms clk) key (call_arg ttl_ms);;
    mret (reply_of [lnum 0; lnum 1]).

Definition with_inflight (st : cbState) (n : Z) : cbState :=
  mkCbState (cs_state st) (cs_failures st) (cs_successes st) (cs_openedAt st) n.

Lemma expire_spec clk L ttl k v c db : rlook (clk_ms clk) db k = Some (v, c) -> 1 <= ttl < ttl_bound -> L <= clk_ms clk + ttl ->
  exists db', PEXPIRE (clk_ms clk) k (call_arg (f64_of_Z ttl)) db = (inr (), db') /\
    rlook (clk_ms clk) db' k = Some (v, Some (clk_ms clk + ttl)).
Proof.
  intros Hl Ht HL. rewrite call_arg_int by bounds.
  destruct (PEXPIRE_law (clk_ms clk) db k v c ttl Hl ltac:(bounds)) as (db' & E & W & _). by exists db'.
Qed.

Lemma reserve_agrees clk L ttl k db st max : hash_rel L (rlook (clk_ms clk) db k) st -> 1 <= ttl < ttl_bound ->
  L <= clk_ms clk + ttl -> 0 <= max < counter_bound ->
  exists db', reserve_probe clk k (f64_of_Z (cs_inflight st)) (Some (f64_of_Z max)) (Some (f64_of_Z ttl)) db =
      (inr (RList (if max <=? cs_inflight st then [2; 1] else [0; 1])), db') /\
    hash_rel L (rlook (clk_ms clk) db' k)
      (if max <=? cs_inflight st then st else with_inflight st (cs_inflight st +w 1)).
Proof.
  intros Hrel Ht HL Hm. pose proof Hrel as [Hd (h & Hh & Fs & Ff & Fc & Fo & Fi)]. unfold reserve_probe.
  rewrite (lua_bind_ok (num (Some _)) _ _ _ _ (num_ok _ _)). unfold f64_geb.
  rewrite (exact_leb _ _ max (cs_inflight st)) by first [exact (field_exact _ _ _ Fi)|apply of_Z_exact_int; bounds].
  destruct (Z.leb_spec max (cs_inflight st)).
  - exists db. unfold mret, lua_ret, reply_of. cbn [map]. split; [done|exact Hrel].
  - pose proof Fi as [Hi Hfi]. rewrite (call_arg_int 1) by done.
    destruct (HINCRBY_law (clk_ms clk) db k h "half_open_inflight" (cs_inflight st) 1 Hh) as (db1 & E1 & W1 & _);
      [by destruct Hfi as [[? ?]|?]; [left|right]|bounds..|].
    rewrite (lua_bind_ok _ _ _ _ _ E1), (lua_bind_ok (num (Some _)) _ _ _ _ (num_ok _ _)).
    destruct (expire_spec clk L ttl k _ _ db1 W1 Ht HL) as (db2 & E2 & L2). rewrite (lua_bind_ok _ _ _ _ _ E2).
    exists db2. split; [done|]. rewrite L2, wrap64_small by bounds. split; [by intros d [= <-]|]. eexists. split; [right; by eexists|].
    cbn [with_inflight cs_state cs_failures cs_successes cs_openedAt cs_inflight].
    split_and!; fields.
Qed.

Definition promoted_state (st : cbState) : cbState := mkCbState 1 (cs_failures st) 0 (cs_openedAt st) 0.

Lemma promote_spec clk L k db st : hash_rel L (rlook (clk_ms clk) db k) st ->
  exists db', set_fields clk k [("state", lnum 1); ("successes", lnum 0); ("half_open_inflight", lnum 0)] db = (inr (), db') /\
    hash_rel L (rlook (clk_ms clk) db' k) (promoted_state st).
Proof.
  intros [Hd (h & Hh & Fs & Ff & Fc & Fo & Fi)].
  destruct (set_fields_spec clk k "state" (lnum 1) [("successes", lnum 0); ("half_open_inflight", lnum 0)] db h Hh) as (db' & E & W & _).
  exists db'. split; [done|]. rewrite W. split; [done|]. eexists. split; [right; by eexists|]. cbn [foldl fst snd].
  unfold promoted_state. cbn [cs_state cs_failures cs_successes cs_openedAt cs_inflight]. split_and!; fields.
Qed.

Lemma Acquire_agrees clk L k db st timeout max ttl : hash_rel L (rlook (clk_ms clk) db k) st -> clock_ok clk L ttl st ->
  0 <= timeout < 2 ^ 53 -> 0 <= max < counter_bound ->
  let '(r, ost) := cb_acquire timeout max (now_ns (clk_us clk)) st in
  exists db', CircuitBreakerAcquireScript clk [k] (map FormatInt [timeout; max; ttl]) db = (inr (RList r), db') /\
    hash_rel L (rlook (clk_ms clk) db' k) (default st ost).
Proof.
  intros Hrel [Hus Hera Hop Httl Hlive] HT Hmax. pose proof Hrel as [Hd (h & Hh & Fs & Ff & Fc & Fo & Fi)].
  destruct (server_now clk db Hus) as (db1 & E1 & L1).
  destruct (HMGET_law (clk_ms clk) db1 k h ["state"; "opened_at"; "half_open_inflight"]) as (db2 & E2 & W2); [by rewrite L1|].
  assert (hash_rel L (rlook (clk_ms clk) db2 k) st) as Hrel2 by (by rewrite (proj1 W2), L1).
  destruct (elapsed_test h st _ _ Fo (now_double_exact _ Hus Hera) Hera Hop timeout HT) as [G1 G2].
  unfold CircuitBreakerAcquireScript. cbn [map]. rewrite (argn_int _ 0 timeout), (argn_int _ 1 max), (argn_int _ 2 ttl) by (done || bounds).
  rewrite (lua_bind_ok _ _ _ _ _ E1), (lua_bind_ok (key_at _ _) _ db1 k db1), (lua_bind_ok _ _ _ _ _ E2) by done.
  cbn [map lookup list_lookup mjoin option_join].
  rewrite (field_num h "state" _ Fs), (field_num h "half_open_inflight" _ Fi), (field_eqb h "state" _ 2 Fs), G1 by done.
  unfold cb_acquire. set (now := now_ns (clk_us clk)) in *.
  destruct (reserve_agrees clk L ttl k db2 st max Hrel2 Httl Hlive Hmax) as (db3 & E3 & R3).
  destruct (Z.eqb_spec (cs_state st) 2) as [E|E]; cbn [andb].
  - destruct (Z.ltb_spec 0 (cs_openedAt st)) as [P|P].
    + rewrite (proj2 (Z.leb_gt (cs_openedAt st) 0)) by done. cbn [orb].
      rewrite Z.ltb_antisym, <- G2 by done. set (el := f64_geb _ _) in *.
      assert (forall f : bool -> lua DB (option (f64 * f64)),
        ((t ← num (Some (f64_of_Z timeout));
          mret (f64_geb (now_double (clk_us clk) - num_or (lnum 0) (h !! "opened_at"))%float t)) ≫= f) db2 = f el db2) as Hel by done.
      destruct el eqn:Eel; cbn [negb].
      * destruct (promote_spec clk L k db2 st Hrel2) as (db4 & E4 & R4).
        destruct (reserve_agrees clk L ttl k db4 (promoted_state st) max R4 Httl Hlive Hmax) as (db5 & E5 & R5).
        rewrite (lua_bind_ok _ _ db2 (Some (lnum 1, lnum 0)) db4) by (rewrite Hel; by rewrite (lua_bind_ok _ _ _ _ _ E4)).
        cbn [promoted_state cs_state cs_failures cs_successes cs_openedAt cs_inflight] in *.
        change (PrimFloat.eqb (lnum 1) (lnum 1)) with true. change (1 =? 1) with true. cbv iota.
        destruct (max <=? 0); exists db5; split; [exact E5|exact R5|exact E5|exact R5].
      * rewrite (lua_bind_ok _ _ db2 None db2) by (by rewrite Hel). exists db2. split; [|done].
        unfold mret, lua_ret, reply_of. cbn [map]. by rewrite (opened_reply h _ Fo).
    + rewrite (proj2 (Z.leb_le (cs_openedAt st) 0)) by done. cbn [orb].
      rewrite (lua_bind_ok _ _ db2 None db2) by done. exists db2. split; [|done].
      unfold mret, lua_ret, reply_of. cbn [map]. by rewrite (opened_reply h _ Fo).
  - rewrite (lua_bind_ok _ _ db2 (Some (f64_of_Z (cs_state st), f64_of_Z (cs_inflight st))) db2) by done.
    rewrite (field_eqb h "state" _ 1 Fs) by done. destruct (Z.eqb_spec (cs_state st) 1) as [E'|E'].
    + destruct (max <=? cs_inflight st); exists db3; split; [exact E3|exact R3|exact E3|exact R3].
    + by exists db2.
Qed.

(** The release of a probe slot. *)
Definition released (probe inflight : Z) : Z := if (probe =? 1) && (0 <? inflight) then inflight - 1 else inflight.

Lemma release_spec probe v : 0 <= probe < 2 ^ 53 -> 0 <= v < counter_bound ->
  (if PrimFloat.eqb (f64_of_Z probe) (lnum 1) && f64_gtb (f64_of_Z v) (lnum 0) then (f64_of_Z v - lnum 1)%float else f64_of_Z v) =
  f64_of_Z (released probe v) /\ 0 <= released probe v < counter_bound.
Proof.
  intros Hp Hv. rewrite (exact_eqb _ _ probe 1) by (by apply of_Z_exact_int).
  rewrite (exact_gtb _ _ v 0) by (apply of_Z_exact_int; bounds). unfold released.
  destruct (probe =? 1), (Z.ltb_spec 0 v); cbn [andb]; try (split; [done|lia]). split; [|lia].
  apply (exact_int_inj _ _ (v - 1)); [|apply of_Z_exact_int; bounds].
  apply exact_sub_small; [apply of_Z_exact_int; bounds..|bounds].
Qed.

Lemma succ_spec v : 0 <= v < counter_bound -> (f64_of_Z v + lnum 1)%float = lnum (v + 1).
Proof.
  intros Hv. apply (exact_int_inj _ _ (v + 1)); [|apply of_Z_exact_int; bounds].
  apply exact_add_small; [apply of_Z_exact_int; bounds..|bounds].
Qed.

(** The end of the record script: the time to live and the reply. *)
Definition record_end (clk : server_clock) (k : string) (ttl : option f64) (state : f64) : lua DB reply :=
  ttl_ms ← num ttl; PEXPIRE (clk_ms clk) k (call_arg ttl_ms);; mret (reply_of [state]).

(** A write of fields, then the end of the script. *)
Lemma record_write clk L ttl k db h st' f v fs (state : f64) (m : lua DB f64) :
  hash_of (rlook (clk_ms clk) db k) h -> 1 <= ttl < ttl_bound -> L <= clk_ms clk + ttl ->
  m = (set_fields clk k ((f, v) :: fs) ≫= fun _ => mret state) -> state = lnum (cs_state st') ->
  let h' := foldl (fun h f => <[fst f := call_arg (snd f)]> h) h ((f, v) :: fs) in
  field_rel h' "state" (cs_state st') -> field_rel h' "failures" (cs_failures st') ->
  field_rel h' "successes" (cs_successes st') -> opened_rel h' (cs_openedAt st') ->
  field_rel h' "half_open_inflight" (cs_inflight st') ->
  exists db', (m ≫= record_end clk k (Some (f64_of_Z ttl))) db = (inr (RList [cs_state st']), db') /\
    hash_rel L (rlook (clk_ms clk) db' k) st'.
Proof.
  intros Hh Ht HL -> -> h' Fs Ff Fc Fo Fi. destruct (set_fields_spec clk k f v fs db h Hh) as (db1 & E1 & W1 & _).
  fold h' in W1. destruct (expire_spec clk L ttl k _ _ db1 W1 Ht HL) as (db2 & E2 & L2). exists db2. split.
  - rewrite (lua_bind_ok _ _ db (lnum (cs_state st')) db1) by (by rewrite (lua_bind_ok _ _ _ _ _ E1)).
    unfold record_end. rewrite (lua_bind_ok (num (Some _)) _ _ _ _ (num_ok _ _)), (lua_bind_ok _ _ _ _ _ E2).
    unfold mret, lua_ret, reply_of. cbn [map]. unfold lnum. by rewrite (field_reply _ _ _ Fs).
  - rewrite L2. split; [by intros d [= <-]|]. exists h'. split; [right; by eexists|]. split_and!; assumption.
Qed.

Ltac write_case db h := eapply (record_write _ _ _ _ db h); [done..|reflexivity|done| | | | |];
  cbn [foldl fst snd cs_state cs_failures cs_successes cs_openedAt cs_inflight zero_cbState with_inflight]; fields.

(** The decision of the emulation with the slot released. *)
Lemma cb_record_released outcome fthr sthr probe now st :
  let st0 := with_inflight st (released probe (cs_inflight st)) in
  cb_record outcome fthr sthr probe now st =
    (if cs_state st =? 1 then
       if outcome =? 1 then mkCbState 2 0 0 now 0
       else if sthr <=? cs_successes st +w 1 then zero_cbState
       else mkCbState (cs_state st) (cs_failures st) (cs_successes st +w 1) (cs_openedAt st) (cs_inflight st0)
     else if cs_state st =? 0 then
       if outcome =? 1 then
         if fthr <=? cs_failures st +w 1 then mkCbState 2 0 0 now 0
         else mkCbState (cs_state st) (cs_failures st +w 1) (cs_successes st) (cs_openedAt st) (cs_inflight st0)
       else st0
     else st0).
Proof. cbv zeta. unfold cb_record, released, with_inflight. destruct st as [a b c d e]. cbn. by destruct (_ && _). Qed.

Lemma Record_agrees clk L k db st outcome fthr sthr timeout ttl probe :
  hash_rel L (rlook (clk_ms clk) db k) st -> clock_ok clk L ttl st ->
  0 <= outcome < 2 ^ 53 -> 0 <= fthr < counter_bound -> 0 <= sthr < counter_bound -> 0 <= probe < 2 ^ 53 ->
  let st' := cb_record outcome fthr sthr probe (now_ns (clk_us clk)) st in
  exists db', CircuitBreakerRecordScript clk [k] (map FormatInt [outcome; fthr; sthr; timeout; ttl; probe]) db =
      (inr (RList [cs_state st']), db') /\ hash_rel L (rlook (clk_ms clk) db' k) st'.
Proof.
  intros Hrel [Hus Hera Hop Httl Hlive] Ho Hf Hs Hp. cbv zeta. pose proof Hrel as [Hd (h & Hh & Fs & Ff & Fc & Fo & Fi)].
  pose proof (now_double_exact _ Hus Hera) as Hnow.
  destruct (server_now clk db Hus) as (db1 & E1 & L1).
  destruct (HMGET_law (clk_ms clk) db1 k h ["state"; "failures"; "successes"; "half_open_inflight"]) as (db2 & E2 & W2); [by rewrite L1|].
  assert (hash_of (rlook (clk_ms clk) db2 k) h) as Hh2 by (by rewrite (proj1 W2), L1).
  unfold CircuitBreakerRecordScript. cbn [map].
  rewrite (argn_int _ 0 outcome), (argn_int _ 1 fthr), (argn_int _ 2 sthr), (argn_int _ 4 ttl), (argn_int _ 5 probe) by (done || bounds).
  rewrite (lua_bind_ok _ _ _ _ _ E1), (lua_bind_ok (key_at _ _) _ db1 k db1), (lua_bind_ok _ _ _ _ _ E2) by done.
  cbn [map lookup list_lookup mjoin option_join default from_option id].
  rewrite (field_num h "state" _ Fs), (field_num h "failures" _ Ff), (field_num h "successes" _ Fc), (field_num h "half_open_inflight" _ Fi).
  rewrite (field_eqb h "state" _ 1 Fs), (field_eqb h "state" _ 0 Fs), (exact_eqb (lnum 1) _ 1 outcome) by (done || by apply of_Z_exact_int).
  pose proof Fi as [Hi _]. destruct (release_spec probe (cs_inflight st) Hp Hi) as [Er Hr]. rewrite Er. clear Er.
  pose proof Ff as [Hff _]. pose proof Fc as [Hfc _]. rewrite !succ_spec by done.
  change (fun state : f64 => num (Some (f64_of_Z ttl)) ≫= fun ttl_ms => PEXPIRE (clk_ms clk) k (call_arg ttl_ms) ≫= fun _ =>
    mret (reply_of [state])) with (record_end clk k (Some (f64_of_Z ttl))).
  rewrite cb_record_released. cbv zeta. set (i := released _ _) in *. rewrite (Z.eqb_sym outcome 1).
  rewrite (wrap64_small (cs_successes st + 1)), (wrap64_small (cs_failures st + 1)) by bounds.
  assert (forall T v, 0 <= T < counter_bound -> 0 <= v < counter_bound -> f64_geb (lnum (v + 1)) (f64_of_Z T) = (T <=? v + 1)) as Hge.
  { intros T v HT Hv. apply exact_leb; apply of_Z_exact_int; bounds. }
  assert (forall (x : f64) B (f : f64 -> lua DB B), (num (Some x) ≫= f) = f x) as Hnum by done. rewrite !Hnum, !Hge by done.
  repeat case_match; write_case db2 h.
Qed.

(** ** Histories *)

Inductive breaker_op :=
| BAcquire (timeout max : Z)
| BRecord (outcome fthr sthr timeout probe : Z)
| BRead (timeout : Z).

Record bcall := mkBcall { bc_clk : server_clock; bc_op : breaker_op; bc_ttl : Z }.

Definition redis_breaker (k : string) (c : bcall) : lua DB reply :=
  match bc_op c with
  | BAcquire timeout max => CircuitBreakerAcquireScript (bc_clk c) [k] (map FormatInt [timeout; max; bc_ttl c])
  | BRecord o f s timeout p => CircuitBreakerRecordScript (bc_clk c) [k] (map FormatInt [o; f; s; timeout; bc_ttl c; p])
  | BRead timeout => CircuitBreakerReadScript (bc_clk c) [k] (map FormatInt [timeout])
  end.

Definition breaker_now (c : bcall) : Z := now_ns (clk_us (bc_clk c)).

(** The emulation's decision. *)
Definition memory_breaker (c : bcall) (st : cbState) : list Z * cbState :=
  match bc_op c with
  | BAcquire timeout max => let '(r, ost) := cb_acquire timeout max (breaker_now c) st in (r, default st ost)
  | BRecord o f s _ p => let st' := cb_record o f s p (breaker_now c) st in ([cs_state st'], st')
  | BRead timeout => (cb_read timeout (breaker_now c) st, st)
  end.

Definition op_ok (o : breaker_op) : Prop :=
  match o with
  | BAcquire timeout max => 0 <= timeout < 2 ^ 53 /\ 0 <= max < counter_bound
  | BRecord o f s _ p => 0 <= o < 2 ^ 53 /\ 0 <= f < counter_bound /\ 0 <= s < counter_bound /\ 0 <= p < 2 ^ 53
  | BRead timeout => 0 <= timeout < 2 ^ 53
  end.

Definition bcall_ok (L : Z) (c : bcall) : Prop :=
  op_ok (bc_op c) /\ 0 <= clk_us (bc_clk c) < 2 ^ 53 /\ in_era (breaker_now c) /\ 1 <= bc_ttl c < ttl_bound /\
  clk_ms (bc_clk c) <= L <= clk_ms (bc_clk c) + bc_ttl c.

Fixpoint redis_breaker_run (k : string) (cs : list bcall) (db : DB) : list (redis_error + reply) :=
  match cs with
  | [] => []
  | c :: cs => let '(r, db) := redis_breaker k c db in r :: redis_breaker_run k cs db
  end.

Fixpoint memory_breaker_run (cs : list bcall) (st : cbState) : list (list Z) :=
  match cs with
  | [] => []
  | c :: cs => let '(r, st) := memory_breaker c st in r :: memory_breaker_run cs st
  end.

(** Later on both clocks. *)
Definition not_after (c c' : bcall) : Prop := clk_ms (bc_clk c) <= clk_ms (bc_clk c') /\ breaker_now c <= breaker_now c'.

Lemma hash_rel_later L ms ms' db k st : ms <= ms' <= L -> hash_rel L (rlook ms db k) st -> hash_rel L (rlook ms' db k) st.
Proof.
  intros Hms [Hd Hh]. rewrite (look_later ms ms') by lia.
  assert (alive ms' (rlook ms db k) = rlook ms db k) as ->; [|by split].
  destruct (rlook ms db k) as [[v [d|]]|]; [|done..]. cbn [alive]. specialize (Hd d eq_refl).
  by rewrite (proj2 (Z.ltb_ge d ms')) by lia.
Qed.

Lemma breaker_step L k c db st : hash_rel L (rlook (clk_ms (bc_clk c)) db k) st -> bcall_ok L c ->
  cs_openedAt st <= breaker_now c ->
  let '(r, st') := memory_breaker c st in
  exists db', redis_breaker k c db = (inr (RList r), db') /\ hash_rel L (rlook (clk_ms (bc_clk c)) db' k) st'.
Proof.
  destruct c as [clk o ttl]. cbn [bc_clk]. intros Hrel (Hop & Hus & Hera & Ht & HL) Hle. cbn [bc_op bc_clk bc_ttl] in *.
  assert (clock_ok clk L ttl st) as Hck by (split; [done|done|done|done|lia]).
  unfold memory_breaker, redis_breaker, breaker_now. cbn [bc_op bc_clk bc_ttl]. destruct o as [timeout max|o f s timeout p|timeout].
  - destruct Hop as [H1 H2]. pose proof (Acquire_agrees clk L k db st timeout max ttl Hrel Hck H1 H2) as Ha.
    by destruct (cb_acquire _ _ _ _) as [r ost].
  - destruct Hop as (H1 & H2 & H3 & H4). by apply Record_agrees.
  - by apply (Read_agrees clk L ttl).
Qed.

(** The time of opening is an instant already read. *)
Lemma opened_before c st t : cs_openedAt st <= t -> breaker_now c <= t -> 0 <= t -> cs_openedAt (snd (memory_breaker c st)) <= t.
Proof.
  intros Ho Hn Ht. unfold memory_breaker. destruct (bc_op c) as [timeout max|o f s timeout p|timeout].
  - unfold cb_acquire. destruct (_ && _); [cbn; lia|]. destruct (cs_state st =? 2); cbn; repeat case_match; simplify_eq; cbn; lia.
  - cbn [snd]. rewrite cb_record_released. cbv zeta. repeat case_match; cbn; lia.
  - done.
Qed.

Lemma breaker_runs L k cs : forall db st ms, Forall (bcall_ok L) cs -> StronglySorted not_after cs ->
  Forall (fun c => ms <= clk_ms (bc_clk c) /\ cs_openedAt st <= breaker_now c) cs -> hash_rel L (rlook ms db k) st ->
  redis_breaker_run k cs db = map (fun r => inr (RList r)) (memory_breaker_run cs st).
Proof.
  induction cs as [|c cs IH]; intros db st ms Hok Hord Hfrom Hrel; [done|].
  apply Forall_cons in Hok as [Hc Hok]. apply StronglySorted_inv in Hord as [Hord Hnext].
  apply Forall_cons in Hfrom as [[Hms Hop] Hfrom]. pose proof Hc as (_ & _ & Hera & _ & HL).
  pose proof (breaker_step L k c db st (hash_rel_later L ms (clk_ms (bc_clk c)) db k st ltac:(lia) Hrel) Hc Hop) as Hs.
  pose proof (fun t => opened_before c st t) as Hob.
  cbn [redis_breaker_run memory_breaker_run]. destruct (memory_breaker c st) as [r st'].
  destruct Hs as (db' & -> & Hrel'). cbn [map]. f_equal. apply (IH _ _ (clk_ms (bc_clk c))); [done|done| |done].
  rewrite Forall_forall in Hnext, Hfrom, Hok |- *. intros c' Hin. destruct (Hnext c' Hin) as [H1 H2]. split; [done|].
  apply Hob; [by apply Hfrom|done|]. destruct (Hok c' Hin) as (_ & _ & [Hlo _] & _). change (2 ^ 60) with 1152921504606846976 in Hlo. lia.
Qed.
End breaker.

(** C37: the circuit-breaker scripts on Redis and their in-memory emulation
    agree: over any server that satisfies the documented laws, every history of
    acquire, record and read calls on a fresh key, whose hash does not expire
    in between, gets the replies of the emulation's state, although the server
    keeps five decimal strings and computes in doubles.  The instants are those
    of the years 2006 to 2043 ([in_era]), the thresholds and counts below
    [counter_bound]. *)
Theorem redis_breaker_parity {DB} `{RedisLaws DB} k L T cs (db : DB) : Forall (bcall_ok L) cs -> StronglySorted not_after cs ->
  Forall (fun c => T <= clk_ms (bc_clk c)) cs -> rlook T db k = None ->
  redis_breaker_run k cs db = map (fun r => inr (RList r)) (memory_breaker_run cs zero_cbState).
Proof.
  intros Hok Hord Hfrom Hempty. apply (breaker_runs L k cs db zero_cbState T); [done|done| |].
  - rewrite Forall_forall in Hok, Hfrom |- *. intros c Hin. split; [by apply Hfrom|].
    destruct (Hok c Hin) as (_ & _ & [Hlo _] & _). cbn. change (2 ^ 60) with 1152921504606846976 in Hlo. lia.
  - rewrite Hempty. split; [done|]. exists ∅. split; [by left|]. cbn.
    split_and!; try (by split; [|left]). left. split; [done|by left].
Qed.

Definition demo_breaker : list bcall :=
  let c ms o := mkBcall (mkClock ms (1000 * ms)) o 60000 in
  let t := 1700000000000 in
  [c t (BAcquire 5000000000 1); c t (BRecord 1 2 1 5000000000 0); c (t + 1) (BRecord 1 2 1 5000000000 0);
   c (t + 2) (BAcquire 5000000000 1); c (t + 2) (BRead 5000000000); c (t + 5001) (BAcquire 5000000000 1);
   c (t + 5002) (BAcquire 5000000000 1); c (t + 5003) (BRecord 0 2 1 5000000000 1); c (t + 5004) (BRead 5000000000)].

Lemma redis_breaker_parity_witness :
  redis_breaker_run "rl:cb:a" demo_breaker (∅ : model_db) =
    map (fun r => inr (RList r)) [[0; 0]; [0]; [2]; [1; 2; 1700000000001000000 - 64]; [2; 0; 0; 1700000000001000000 - 64; 0];
                                  [0; 1]; [2; 1]; [0]; [0; 0; 0; 0; 0]] /\
  redis_breaker_run "rl:cb:a" demo_breaker (∅ : model_db) =
    map (fun r => inr (RList r)) (memory_breaker_run demo_breaker zero_cbState).
Proof.
  split; [vm_compute; reflexivity|].
  apply (redis_breaker_parity "rl:cb:a" 1700000006000 1700000000000);
    [repeat constructor; vm_compute; congruence..|done].
Defined.

(** A probe refused in half-open leaves the deadline of the hash as it is, so
    a breaker whose probes never report comes back when the hash expires; the
    emulation extends the deadline with every refusal. *)
Theorem refused_probe_deadline {DB} `{RedisLaws DB} clk L k (db : DB) st timeout max ttl t e :
  hash_rel L (rlook (clk_ms clk) db k) st -> clock_ok clk L ttl st -> 0 <= timeout < 2 ^ 53 -> 0 <= max < counter_bound ->
  cs_state st = 1 -> max <= cs_inflight st -> parseCBState (value e) = st ->
  (exists db', CircuitBreakerAcquireScript clk [k] (map FormatInt [timeout; max; ttl]) db = (inr (RList [2; 1]), db') /\
     rlook (clk_ms clk) db' k = rlook (clk_ms clk) db k) /\
  snd (cbAcquire_body timeout max ttl (now_ns (clk_us clk)) t e) = inr (RList [2; 1]) /\
  expiresAt (fst (cbAcquire_body timeout max ttl (now_ns (clk_us clk)) t e)) = t + ttl * Millisecond.
Proof.
  intros [Hd (h & Hh & Fs & Ff & Fc & Fo & Fi)] [Hus Hera Hop Httl Hlive] HT Hmax Hst Hfull He. split.
  - destruct (server_now clk db Hus) as (db1 & E1 & L1).
    destruct (HMGET_law (clk_ms clk) db1 k h ["state"; "opened_at"; "half_open_inflight"]) as (db2 & E2 & W2); [by rewrite L1|].
    exists db2. split; [|by rewrite (proj1 W2), L1]. unfold CircuitBreakerAcquireScript. cbn [map].
    rewrite (argn_int _ 0 timeout), (argn_int _ 1 max), (argn_int _ 2 ttl) by (done || bounds).
    rewrite (lua_bind_ok _ _ _ _ _ E1), (lua_bind_ok (key_at _ _) _ db1 k db1), (lua_bind_ok _ _ _ _ _ E2) by done.
    cbn [map lookup list_lookup mjoin option_join].
    rewrite (field_num h "state" _ Fs), (field_num h "half_open_inflight" _ Fi), (field_eqb h "state" _ 2 Fs), Hst by done.
    rewrite (lua_bind_ok _ _ db2 (Some (f64_of_Z 1, f64_of_Z (cs_inflight st))) db2) by done.
    change (PrimFloat.eqb (f64_of_Z 1) (lnum 1)) with true. cbv iota.
    rewrite (lua_bind_ok (num (Some _)) _ _ _ _ (num_ok _ _)). unfold f64_geb.
    rewrite (exact_leb _ _ max (cs_inflight st)) by first [exact (field_exact _ _ _ Fi)|apply of_Z_exact_int; bounds].
    by rewrite (proj2 (Z.leb_le _ _)) by done.
  - unfold cbAcquire_body, cb_acquire. rewrite He, Hst. change (1 =? 2) with false. change (1 =? 1) with true. cbn [andb].
    cbv zeta iota. rewrite ?Hst. change (1 =? 1) with true. cbv iota.
    rewrite (proj2 (Z.leb_le max (cs_inflight st))) by done. cbn [fst snd]. split; [done|].
    unfold setEntryTTLmsAbs. rewrite (proj2 (Z.leb_gt ttl 0)) by lia. cbn [expiresAt]. unfold time_add, Millisecond.
    rewrite wrap64_small by bounds. lia.
Qed.
