(* ===== verification/RedisTokenBucket.v ===== *)
(** * The token-bucket script on Redis

    The bucket is a hash of two doubles, the tokens and the time of the last
    refill.  Every evaluation leaves a well-formed bucket, never fails, and
    admits a request exactly when the refilled bucket, at most its capacity,
    holds the tokens.  The in-memory emulation, which prints the two doubles in
    one string, gives the same replies. *)

From Stdlib Require Import Floats Sorting.Sorted.
From S2P Require Import Prelude Float64 Float64Round Float64Exact Strconv StrconvFloat StoreMemory StoreScripts RedisScripts RedisModel StoreAtomic RedisAgree.
Open Scope Z_scope.

(** ** Doubles *)

Lemma plain_facts x : plain_num x = true <-> f64_finite x = true /\ f64_nonneg x = true.
Proof. unfold plain_num. by rewrite andb_true_iff. Qed.

Lemma below_at_most x k : f64_finite x = true -> f64_nonneg x = true -> 0 <= k <= 900 -> fval x < scaled (2 ^ k) 0 ->
  at_most k (sf x).
Proof.
  unfold f64_finite, f64_nonneg, fval. intros Fx Nx Hk Hlt. destruct (sf x) as [s|s| |[] m e] eqn:Ex; try done.
  pose proof (bounded_sf _ _ _ _ Ex) as B. destruct (canonical_facts m e B) as (He & _).
  rewrite <- (binary_round_canonical m e m e B He eq_refl). by apply binary_round_below.
Qed.

Lemma floor_nonneg x : f64_nonneg x = true -> at_most 62 (sf x) -> 0 <= floor_to_int64 x.
Proof.
  intros Nx Hx. rewrite <- floor_reply. unfold f64_nonneg in Nx. destruct (sf x) as [s|s| |[] m e] eqn:Ex; try done.
  - assert (math_floor x = x) as -> by (unfold math_floor; by rewrite Ex). unfold f64_to_int64, f64_trunc. by rewrite Ex.
  - destruct (floor_exact x m e Ex ltac:(by rewrite Ex)) as (z & Hz & Hmax).
    rewrite (exact_to_int64 _ z Hz Hmax). by eapply exact_int_nonneg.
Qed.

(** A difference below the minuend stays below its power of two. *)
Lemma sub_below x y k : f64_finite x = true -> f64_nonneg x = true -> f64_finite y = true -> f64_nonneg y = true ->
  PrimFloat.leb y x = true -> 0 <= k <= 900 -> fval x < scaled (2 ^ k) 0 ->
  f64_nonneg (x - y)%float = true /\ at_most k (sf (x - y)%float).
Proof.
  intros Fx Nx Fy Ny Hle Hk Hlt. split; [by apply f64_sub_nonneg|]. pose proof (leb_fval y x Fy Fx Ny Nx Hle) as Hv.
  pose proof (below_at_most x k Fx Nx Hk Hlt) as Hx.
  unfold f64_finite, f64_nonneg, fval in *. rewrite sub_spec. unfold SF64sub, SFsub.
  destruct (sf x) as [[]|[]| |[] m1 e1] eqn:Ex, (sf y) as [[]|[]| |[] m2 e2] eqn:Ey; try done.
  - exfalso. destruct (canonical_facts m2 e2 (bounded_sf _ _ _ _ Ey)) as (H2 & _). unfold scaled in Hv.
    pose proof (pow2_pos (e2 + 1074) ltac:(lia)). nia.
  - exfalso. destruct (canonical_facts m2 e2 (bounded_sf _ _ _ _ Ey)) as (H2 & _). unfold scaled in Hv.
    pose proof (pow2_pos (e2 + 1074) ltac:(lia)). nia.
  - destruct (canonical_facts m1 e1 (bounded_sf _ _ _ _ Ex)) as (H1 & _).
    destruct (canonical_facts m2 e2 (bounded_sf _ _ _ _ Ey)) as (H2 & _). unfold cond_Zopp.
    rewrite !shl_align_value by lia. rewrite (scaled_order (Z.min e1 e2) (Zpos m1) e1) in Hlt, Hv by lia.
    rewrite (scaled_order (Z.min e1 e2) (Zpos m2) e2) in Hv by lia.
    set (p := Zpos m1 * _) in *. set (q := Zpos m2 * _) in *.
    assert (0 < q) by (unfold q; pose proof (pow2_pos (e2 - Z.min e1 e2) ltac:(lia)); lia).
    pose proof (pow2_pos (Z.min e1 e2 + 1074) ltac:(lia)) as Hp.
    destruct (p - q) as [|r|r] eqn:Er; cbn [binary_normalize]; [done| |unfold scaled in Hv; nia].
    apply binary_round_below; [done|lia|]. eapply Z.lt_trans; [|exact Hlt]. rewrite <- Er. unfold scaled.
    apply Z.mul_lt_mono_pos_r; lia.
Qed.

Lemma ltb_leb_false x y : PrimFloat.ltb x y = true -> PrimFloat.leb y x = false.
Proof. intros H. destruct (PrimFloat.leb y x) eqn:E; [|done]. apply leb_ltb_false in E. congruence. Qed.

Lemma math_min_spec cap x : f64_finite cap = true -> f64_nonneg cap = true -> f64_nonneg x = true ->
  f64_nonneg (math_min cap x) = true /\ PrimFloat.leb (math_min cap x) cap = true.
Proof.
  intros Fc Nc Nx. unfold math_min. destruct (PrimFloat.ltb x cap) eqn:E; split; try done.
  - by apply ltb_leb.
  - by apply leb_refl, f64_nonneg_not_nan.
Qed.

(** ** Calls *)

Record tb_call := mkTbCall { tc_clk : server_clock; tc_n : Z; tc_now : Z; tc_ttl : Z }.

Section bucket.
Context {DB : Type} `{RedisLaws DB}.
(** The capacity, and the rate as the client prints it. *)
Context (capacity : Z) (rate_arg : string) (rate : f64).

Definition tb_script (k : string) (c : tb_call) : lua DB reply :=
  TokenBucketScript (tc_clk c) [k]
    [FormatInt capacity; rate_arg; FormatInt (tc_n c); FormatInt (tc_now c); FormatInt (tc_ttl c); "0"].

Fixpoint tb_run (k : string) (cs : list tb_call) (db : DB) : list (redis_error + reply) :=
  match cs with
  | [] => []
  | c :: cs => let '(r, db) := tb_script k c db in r :: tb_run k cs db
  end.

(** ** The bucket as two numbers *)

(** Tokens, last refill and deadline; [None]: no bucket yet. *)
Notation bucket := (option (f64 * f64 * Z)).

Definition available (b : bucket) (now : f64) : f64 :=
  let '(tokens, last) := from_option fst (f64_of_Z capacity, now) b in
  math_min (f64_of_Z capacity) (tokens + (now - last) * rate)%float.

Definition refilled (b : bucket) (now : f64) : f64 :=
  ((now - from_option (fun b => snd (fst b)) now b) * rate)%float.

Definition tb_spec (c : tb_call) (b : bucket) : list Z * bucket :=
  let b := match b with Some (_, _, d) => if d <? clk_ms (tc_clk c) then None else b | None => None end in
  let now := f64_of_Z (tc_now c) in
  let tokens := available b now in
  let ok := f64_geb tokens (f64_of_Z (tc_n c)) in
  let left_ := if ok then (tokens - f64_of_Z (tc_n c))%float else tokens in
  ([if ok then 1 else 0; floor_to_int64 left_; floor_to_int64 (refilled b now)],
   Some (left_, now, clk_ms (tc_clk c) + tc_ttl c)).

Fixpoint tb_spec_run (cs : list tb_call) (b : bucket) : list (list Z) :=
  match cs with
  | [] => []
  | c :: cs => let '(r, b) := tb_spec c b in r :: tb_spec_run cs b
  end.

Definition bucket_rel (c : cell) (b : bucket) : Prop :=
  match b with
  | None => c = None
  | Some (t, l, d) => plain_num t = true /\ plain_num l = true /\ exists h s1 s2,
      c = Some (RHash h, Some d) /\ h !! "tokens" = Some s1 /\ h !! "last_refill" = Some s2 /\
      tonumber s1 = Some t /\ tonumber s2 = Some l
  end.

Hypothesis Hcap : 0 <= capacity < 2 ^ 53.
Hypothesis Hrate : tonumber rate_arg = Some rate.
Hypothesis Frate : f64_finite rate = true.
Hypothesis Prate : PrimFloat.ltb zero rate = true.

Definition call_fits (c : tb_call) : Prop :=
  0 <= tc_n c < 2 ^ 53 /\ 0 <= tc_now c <= max_int64 /\ 1 <= tc_ttl c < ttl_bound.

(** The clock has not gone back since the last refill. *)
Definition refilled_before (b : bucket) (now : Z) : Prop :=
  match b with Some (_, l, _) => PrimFloat.leb l (f64_of_Z now) = true | None => True end.

Definition bucket_plain (b : bucket) : Prop :=
  match b with Some (t, l, _) => plain_num t = true /\ plain_num l = true | None => True end.

Lemma cap_facts : plain_num (f64_of_Z capacity) = true /\ fval (f64_of_Z capacity) < scaled (2 ^ 62) 0.
Proof.
  destruct (exact_int_facts _ _ (of_Z_exact_int capacity Hcap)) as (F & N & V). split; [by apply plain_facts|].
  rewrite V. unfold scaled. change (0 + 1074) with 1074. apply Z.mul_lt_mono_pos_r; [by apply pow2_pos|].
  change (2 ^ 53) with 9007199254740992 in Hcap. change (2 ^ 62) with 4611686018427387904. lia.
Qed.

Lemma now_facts now : 0 <= now <= max_int64 -> f64_finite (f64_of_Z now) = true /\ f64_nonneg (f64_of_Z now) = true.
Proof. split; [by apply of_Z_finite|by apply f64_of_Z_nonneg]. Qed.

(** The tokens and the time of the last refill, full and now when there is no bucket. *)
Definition level (b : bucket) (now : f64) : f64 * f64 := from_option fst (f64_of_Z capacity, now) b.

Definition filled (b : bucket) (now : f64) : f64 := (fst (level b now) + (now - snd (level b now)) * rate)%float.

Lemma filled_nonneg b now : bucket_plain b -> refilled_before b now -> 0 <= now <= max_int64 ->
  f64_nonneg (filled b (f64_of_Z now)) = true.
Proof.
  intros Hb Hle Hnow. destruct (now_facts now Hnow) as [Fn Nn]. destruct cap_facts as [[Fc Nc]%plain_facts _].
  unfold filled, level. destruct b as [[[t l] d]|]; cbn [from_option fst snd].
  - destruct Hb as [[Ft Nt]%plain_facts [Fl Nl]%plain_facts]. cbn in Hle.
    apply f64_add_nonneg; [done|]. apply f64_mul_scale; [|done..]. by apply f64_sub_nonneg.
  - apply f64_add_nonneg; [done|]. apply f64_mul_scale; [|done..]. apply f64_sub_nonneg; try done.
    by apply leb_refl, f64_nonneg_not_nan.
Qed.

(** What is available is a number between zero and the capacity. *)
Lemma available_spec b now : bucket_plain b -> refilled_before b now -> 0 <= now <= max_int64 ->
  let a := available b (f64_of_Z now) in
  plain_num a = true /\ PrimFloat.leb a (f64_of_Z capacity) = true /\ fval a < scaled (2 ^ 62) 0.
Proof.
  intros Hb Hle Hnow. pose proof (filled_nonneg b now Hb Hle Hnow) as Nf. destruct cap_facts as [[Fc Nc]%plain_facts Vc].
  assert (available b (f64_of_Z now) = math_min (f64_of_Z capacity) (filled b (f64_of_Z now))) as ->
    by (unfold available, filled, level; by destruct b as [[[t l] d]|]).
  destruct (math_min_spec _ _ Fc Nc Nf) as [Na La]. pose proof (f64_finite_between _ _ Na La Fc) as Fa.
  cbv zeta. split_and!; [by apply plain_facts|done|]. apply Z.le_lt_trans with (fval (f64_of_Z capacity)); [by apply leb_fval|done].
Qed.

Lemma left_spec a n : plain_num a = true -> fval a < scaled (2 ^ 62) 0 -> 0 <= n < 2 ^ 53 ->
  let left_ := if f64_geb a (f64_of_Z n) then (a - f64_of_Z n)%float else a in
  plain_num left_ = true /\ 0 <= floor_to_int64 left_.
Proof.
  intros [Fa Na]%plain_facts Va Hn. destruct (exact_int_facts _ _ (of_Z_exact_int n Hn)) as (Fn & Nn & _). cbv zeta.
  destruct (f64_geb a (f64_of_Z n)) eqn:E.
  - destruct (sub_below a (f64_of_Z n) 62 Fa Na Fn Nn E ltac:(lia) Va) as [Ns Ms].
    split; [apply plain_facts; split; [|done]|by apply floor_nonneg]. by apply (at_most_value 62).
  - split; [by apply plain_facts|]. apply floor_nonneg; [done|]. by apply below_at_most.
Qed.

(** Reading the hash. *)
Lemma read_bucket ms db k b now : bucket_rel (rlook ms db k) b ->
  exists h s1 s2 db', hash_of (rlook ms db k) h /\
    HMGET ms k ["tokens"; "last_refill"] db = (inr [s1; s2], db') /\ writes rlook ms db db' k (rlook ms db k) /\
    num_or (f64_of_Z capacity) s1 = from_option (fun b => fst (fst b)) (f64_of_Z capacity) b /\
    num_or now s2 = from_option (fun b => snd (fst b)) now b.
Proof.
  intros Hb. assert (exists h, hash_of (rlook ms db k) h /\
    num_or (f64_of_Z capacity) (h !! "tokens") = from_option (fun b => fst (fst b)) (f64_of_Z capacity) b /\
    num_or now (h !! "last_refill") = from_option (fun b => snd (fst b)) now b) as (h & Hh & E1 & E2).
  { destruct b as [[[t l] d]|]; cbn in Hb.
    - destruct Hb as (_ & _ & h & s1 & s2 & Hl & H1 & H2 & N1 & N2). exists h. rewrite Hl, H1, H2. unfold num_or. cbn.
      rewrite N1, N2. split_and!; [right; by eexists|done|done].
    - rewrite Hb. exists ∅. split_and!; [by left|done|done]. }
  destruct (HMGET_law ms db k h ["tokens"; "last_refill"] Hh) as (db' & E & W).
  exists h, (h !! "tokens"), (h !! "last_refill"), db'. done.
Qed.

(** Writing it back with its time to live. *)
Lemma write_bucket clk db k h t now ttl : hash_of (rlook (clk_ms clk) db k) h -> plain_num t = true -> plain_num now = true ->
  1 <= ttl < ttl_bound ->
  exists db1 db2, HSET (clk_ms clk) k [("tokens", call_arg t); ("last_refill", call_arg now)] db = (inr (), db1) /\
    PEXPIRE (clk_ms clk) k (call_arg (f64_of_Z ttl)) db1 = (inr (), db2) /\
    bucket_rel (rlook (clk_ms clk) db2 k) (Some (t, now, clk_ms clk + ttl)).
Proof.
  intros Hh Pt Pn Ht. destruct (HSET_law (clk_ms clk) db k h "tokens" (call_arg t) [("last_refill", call_arg now)] Hh) as (db1 & E1 & W1 & _).
  rewrite call_arg_int by bounds.
  destruct (PEXPIRE_law (clk_ms clk) db1 k _ _ ttl W1 ltac:(bounds)) as (db2 & E2 & W2 & _).
  exists db1, db2. split_and!; [done|done|]. rewrite W2. cbn [bucket_rel]. split_and!; [done|done|].
  eexists _, (call_arg t), (call_arg now). split; [done|]. cbn [foldl fst snd].
  rewrite lookup_insert_ne, !lookup_insert_eq by done. split_and!; [done|done|by apply tonumber_arg|by apply tonumber_arg].
Qed.

Lemma bucket_alive ms db k b : bucket_rel (rlook ms db k) b ->
  (match b with Some (_, _, d) => if d <? ms then None else b | None => None end) = b.
Proof.
  destruct b as [[[t l] d]|]; [|done]. intros (_ & _ & h & s1 & s2 & Hl & _). pose proof (look_later ms ms db k ltac:(lia)) as Ha.
  rewrite Hl in Ha. cbn in Ha. by destruct (d <? ms).
Qed.

Lemma tb_step k c db b : bucket_rel (rlook (clk_ms (tc_clk c)) db k) b -> call_fits c -> refilled_before b (tc_now c) ->
  exists db', tb_script k c db = (inr (RList (fst (tb_spec c b))), db') /\
    bucket_rel (rlook (clk_ms (tc_clk c)) db' k) (snd (tb_spec c b)) /\ 0 <= nth 1 (fst (tb_spec c b)) (-1).
Proof.
  destruct c as [clk n now ttl]. cbn [tc_clk tc_now]. intros Hb (Hn & Hnow & Ht) Hle. cbn [tc_n tc_now tc_ttl] in *.
  destruct (read_bucket (clk_ms clk) db k b (f64_of_Z now) Hb) as (h & s1 & s2 & db1 & Hh & E1 & W1 & T1 & T2).
  assert (bucket_plain b) as Hp by (destruct b as [[[t l] d]|]; [destruct Hb as (? & ? & _); by split|done]).
  destruct (available_spec b now Hp Hle Hnow) as (Pa & _ & Va). destruct (left_spec _ n Pa Va Hn) as [Pl Fl].
  assert (plain_num (f64_of_Z now) = true) as Pn by (apply plain_facts; split; [by apply of_Z_finite|by apply f64_of_Z_nonneg]).
  unfold tb_spec. cbn [tc_clk tc_n tc_now tc_ttl]. rewrite (bucket_alive _ _ _ _ Hb).
  destruct (write_bucket clk db1 k h _ _ ttl ltac:(by rewrite (proj1 W1)) Pl Pn Ht) as (db2 & db3 & E2 & E3 & R3).
  cbn [fst snd nth]. exists db3. split; [|by split]. unfold tb_script, TokenBucketScript. cbn [tc_clk tc_n tc_now tc_ttl].
  assert (forall (x : f64) B (f : f64 -> lua DB B), (num (Some x) ≫= f) = f x) as Hnum by done.
  rewrite (argn_int _ 0 capacity), (argn_int _ 2 n), (argn_int _ 3 now), (argn_int _ 4 ttl) by (done || bounds).
  change (argn _ 1) with (tonumber rate_arg). rewrite Hrate.
  change (PrimFloat.ltb ?a ?b) with (f64_gtb b a). rewrite (exact_gtb (lnum 1) _ 1 ttl) by (apply of_Z_exact_int; bounds).
  rewrite (proj2 (Z.ltb_ge ttl 1)) by lia.
  rewrite (lua_bind_ok (pick_now _ _ _ _) _ db (Some (f64_of_Z now)) db) by done.
  rewrite (lua_bind_ok (mret _) _ db (f64_of_Z ttl) db), (lua_bind_ok (key_at _ _) _ db k db), (lua_bind_ok _ _ _ _ _ E1) by done.
  rewrite !Hnum. cbn [lookup list_lookup mjoin option_join id]. rewrite T1, T2.
  assert (math_min (f64_of_Z capacity) (from_option (fun b => fst (fst b)) (f64_of_Z capacity) b +
     (f64_of_Z now - from_option (fun b => snd (fst b)) (f64_of_Z now) b) * rate)%float = available b (f64_of_Z now)) as Ea
    by (unfold available; by destruct b as [[[t l] d]|]).
  rewrite Ea. fold (refilled b (f64_of_Z now)). destruct (f64_geb _ _).
  all: rewrite (lua_bind_ok _ _ _ _ _ E2), (lua_bind_ok _ _ _ _ _ E3); unfold mret, lua_ret, reply_of; cbn [map].
  all: by rewrite !floor_reply.
Qed.

(** ** Histories *)

(** The server's clock and the times the clients send, as doubles, do not go back. *)
Definition tb_not_after (c d : tb_call) : Prop :=
  clk_ms (tc_clk c) <= clk_ms (tc_clk d) /\ PrimFloat.leb (f64_of_Z (tc_now c)) (f64_of_Z (tc_now d)) = true.

(** A grant or a refusal, with what is left of the bucket. *)
Definition tb_reply_ok (r : list Z) : Prop := exists granted left_ refill, r = [granted; left_; refill] /\
  (granted = 0 \/ granted = 1) /\ 0 <= left_.

Lemma bucket_later ms ms' db k b : ms <= ms' -> bucket_rel (rlook ms db k) b ->
  bucket_rel (rlook ms' db k) (match b with Some (_, _, d) => if d <? ms' then None else b | None => None end).
Proof.
  intros Hle Hb. rewrite (look_later ms ms') by done. destruct b as [[[t l] d]|]; [|by rewrite Hb].
  destruct Hb as (Ht & Hl & h & s1 & s2 & E & Hrest). rewrite E. cbn [alive]. destruct (d <? ms'); [done|].
  split_and!; [done|done|]. by exists h, s1, s2.
Qed.

Lemma tb_spec_later c b : tb_spec c (match b with Some (_, _, d) => if d <? clk_ms (tc_clk c) then None else b | None => None end) =
  tb_spec c b.
Proof. unfold tb_spec. destruct b as [[[t l] d]|]; [|done]. destruct (d <? _) eqn:E; [done|]. by rewrite E. Qed.

Lemma tb_history k cs : forall ms db b, Forall call_fits cs -> StronglySorted tb_not_after cs ->
  Forall (fun c => ms <= clk_ms (tc_clk c) /\ refilled_before b (tc_now c)) cs -> bucket_rel (rlook ms db k) b ->
  tb_run k cs db = map (fun r => inr (RList r)) (tb_spec_run cs b) /\ Forall tb_reply_ok (tb_spec_run cs b).
Proof.
  induction cs as [|c cs IH]; intros ms db b Hfit Hord Hfrom Hb; [by split|].
  apply Forall_cons in Hfit as [Hf Hfit]. apply StronglySorted_inv in Hord as [Hord Hnext].
  apply Forall_cons in Hfrom as [[Hms Hnow] _]. pose proof (bucket_later _ _ _ _ _ Hms Hb) as Hb'.
  set (b' := match b with Some (_, _, d) => if d <? clk_ms (tc_clk c) then None else b | None => None end) in *.
  assert (refilled_before b' (tc_now c)) as Hnow' by (unfold b'; destruct b as [[[t l] d]|]; [by destruct (d <? _)|done]).
  destruct (tb_step k c db b' Hb' Hf Hnow') as (db' & E & Hrel & Hleft). pose proof (tb_spec_later c b) as Eb.
  fold b' in Eb. rewrite Eb in *. cbn [tb_run tb_spec_run]. rewrite E. destruct (tb_spec c b) as [r b2] eqn:Es. cbn [fst snd] in *.
  destruct (IH (clk_ms (tc_clk c)) db' b2 Hfit Hord) as [-> Hoks]; [|done|].
  - eapply Forall_impl; [exact Hnext|]. intros d [H1 H2]. split; [done|]. unfold tb_spec in Es. by injection Es as _ <-.
  - split; [done|]. constructor; [|done]. unfold tb_spec in Es. injection Es as <- _. eexists _, _, _. split; [done|].
    split; [case_match; [by right|by left]|done].
Qed.

(** ** The in-memory emulation *)

Definition tb_memory_call (max : Z) (mode : bool) (key : string) (c : tb_call) (m : Memory) : (store_error + reply) * Memory :=
  run (store_Eval max mode (script_reads_at (clk_ms (tc_clk c) * Millisecond)) TokenBucketScriptID [key]
    [ArgFloat (f64_of_Z capacity); ArgFloat rate; ArgInt (tc_n c); ArgInt (tc_now c); ArgInt (tc_ttl c); ArgInt 0]) m.

Fixpoint tb_memory_run (max : Z) (mode : bool) (key : string) (cs : list tb_call) (m : Memory) : list (store_error + reply) :=
  match cs with
  | [] => []
  | c :: cs => let '(r, m) := tb_memory_call max mode key c m in r :: tb_memory_run max mode key cs m
  end.

Definition entry_of (b : bucket) : option entry :=
  match b with Some (t, l, d) => Some (mkEntry (formatTokenBucket t l) (d * Millisecond)) | None => None end.

(** For a capacity above zero the two minima agree. *)
Lemma math_Min_min x : 0 < capacity -> f64_nonneg x = true -> math_Min (f64_of_Z capacity) x = math_min (f64_of_Z capacity) x.
Proof.
  intros Hpos Nx.
  destruct (f64_of_Z_exact capacity ltac:(lia)) as (m & e & Ec & _). unfold math_Min, math_min, f64_nonneg in *.
  rewrite !ltb_spec, Ec. destruct (sf x) as [[]|[]| |[] m' e'] eqn:Ex; try done. unfold SFltb, SFcompare.
  rewrite (Z.compare_antisym e e'). destruct (Z.compare_spec e e') as [->| |]; cbn [CompOpp]; try done.
  rewrite (compare_cont_Eq m m'), (compare_cont_Eq m' m), (Pos.compare_antisym m' m). destruct (m' ?= m)%positive eqn:E; cbn [CompOpp]; try done.
  apply Pos.compare_eq in E as ->. apply Prim2SF_inj. congruence.
Qed.

Lemma format_bucket_nonempty t l : formatTokenBucket t l <> "".
Proof. intros E. pose proof (parse_format_bucket t l) as H'. rewrite E in H'. done. Qed.

(** What the emulation reads from the string. *)
Lemma refill_spec b n now raw : 0 < capacity -> bucket_plain b -> refilled_before b now -> 0 <= now <= max_int64 ->
  raw = from_option value "" (entry_of b) ->
  let a := available b (f64_of_Z now) in
  refill (f64_of_Z capacity) rate n (f64_of_Z now) raw =
    (if f64_geb a n then (a - n)%float else a, if f64_geb a n then 1 else 0, refilled b (f64_of_Z now)).
Proof.
  intros Hpos Hb Hle Hnow ->. cbv zeta. pose proof (math_Min_min _ Hpos (filled_nonneg b now Hb Hle Hnow)) as Hmin.
  unfold refill. assert ((if bool_decide (from_option value "" (entry_of b) = "") then (f64_of_Z capacity, f64_of_Z now)
    else default (f64_of_Z capacity, f64_of_Z now) (parseTokenBucket (from_option value "" (entry_of b)))) = level b (f64_of_Z now)) as ->.
  { destruct b as [[[t l] d]|]; [|done]. cbn [entry_of from_option value].
    rewrite bool_decide_eq_false_2 by apply format_bucket_nonempty. by rewrite parse_format_bucket. }
  assert (available b (f64_of_Z now) = math_min (f64_of_Z capacity) (filled b (f64_of_Z now))) as ->
    by (unfold available, filled, level; by destruct b as [[[t l] d]|]).
  assert (refilled b (f64_of_Z now) = ((f64_of_Z now - snd (level b (f64_of_Z now))) * rate)%float) as ->
    by (unfold refilled, level; by destruct b as [[[t l] d]|]).
  rewrite <- Hmin. unfold filled. destruct (level b (f64_of_Z now)) as [t l]. cbn [fst snd]. by destruct (f64_geb _ n).
Qed.

(** The emulation's critical section on what it finds. *)
Lemma body_spec c b e : 0 < capacity -> 0 <= clk_ms (tc_clk c) -> bucket_plain b -> refilled_before b (tc_now c) -> call_fits c ->
  value e = from_option value "" (entry_of b) ->
  b = match b with Some (_, _, d) => if d <? clk_ms (tc_clk c) then None else b | None => None end ->
  let '(e', r) := tokenBucket_body (f64_of_Z capacity) rate (f64_of_Z (tc_n c)) (f64_of_Z (tc_now c)) (tc_ttl c)
                    (clk_ms (tc_clk c) * Millisecond) e in
  r = inr (RList (fst (tb_spec c b))) /\ Some e' = entry_of (snd (tb_spec c b)).
Proof.
  intros Hpos Hms Hb Hle (Hn & Hnow & Ht) He Hlive. unfold tokenBucket_body.
  pose proof (refill_spec b (f64_of_Z (tc_n c)) (tc_now c) (value e) Hpos Hb Hle Hnow He) as Hr. cbv zeta in Hr. rewrite Hr.
  rewrite setTTL_deadline by done. unfold tb_spec. rewrite <- Hlive. cbn [fst snd entry_of].
  by destruct (f64_geb (available b (f64_of_Z (tc_now c))) (f64_of_Z (tc_n c))).
Qed.

Lemma memory_call_spec max mode key c m : max <= 0 -> call_fits c ->
  tb_memory_call max mode key c m =
  run (script_prog max key (mkSection (clk_ms (tc_clk c) * Millisecond)
    (tokenBucket_body (f64_of_Z capacity) rate (f64_of_Z (tc_n c)) (f64_of_Z (tc_now c)) (tc_ttl c) (clk_ms (tc_clk c) * Millisecond)))) m.
Proof.
  intros Hmax (_ & _ & Ht). unfold tb_memory_call. cbn [store_Eval]. unfold tokenBucketHandler.
  change (length _ <? 4)%nat with false. cbv iota. unfold float_arg, memoryServerNowNs, serverTimeFlag. cbn [lookup list_lookup toFloat].
  change (bool_decide (toString (ArgInt 0) = "1")) with false. cbn [negb orb from_option toInt64_value]. cbv zeta iota.
  assert (PrimFloat.leb rate PrimFloat.zero = false) as -> by (by apply ltb_leb_false).
  unfold bucket_ttl. by rewrite (proj2 (Z.ltb_ge (tc_ttl c) 1)) by lia.
Qed.

(** The bucket in memory: plain numbers and a deadline that is not the zero time. *)
Definition bucket_in (m : Memory) (key : string) (b : bucket) : Prop :=
  wf m /\ view m key = entry_of b /\ bucket_plain b /\ match b with Some (_, _, d) => 0 < d | None => True end.

Definition live_bucket (b : bucket) (ms : Z) : bucket :=
  match b with Some (_, _, d) => if d <? ms then None else b | None => None end.

Lemma found_live m key b ms : bucket_in m key b ->
  value (found m key (ms * Millisecond)) = from_option value "" (entry_of (live_bucket b ms)).
Proof.
  intros (_ & Hv & _ & Hd). unfold found. rewrite Hv. destruct b as [[[t l] d]|]; [|done]. cbn [entry_of live_bucket].
  unfold isExpired, IsZero, After. cbn [expiresAt]. rewrite (proj2 (Z.eqb_neq _ _)) by (unfold zero_time, Millisecond; lia). cbn [negb andb].
  destruct (Z.ltb_spec d ms), (Z.ltb_spec (d * Millisecond) (ms * Millisecond)); unfold Millisecond in *; (done || lia).
Qed.

Lemma live_bucket_spec c b : tb_spec c (live_bucket b (clk_ms (tc_clk c))) = tb_spec c b.
Proof. apply tb_spec_later. Qed.

Lemma live_bucket_facts b ms now : bucket_plain b -> refilled_before b now ->
  bucket_plain (live_bucket b ms) /\ refilled_before (live_bucket b ms) now /\
  live_bucket b ms = match live_bucket b ms with Some (_, _, d) => if d <? ms then None else live_bucket b ms | None => None end.
Proof. destruct b as [[[t l] d]|]; [|done]. intros Hb Hl. cbn [live_bucket]. by destruct (d <? ms) eqn:E; [|rewrite E]. Qed.

Lemma next_bucket c b : bucket_plain b -> refilled_before b (tc_now c) -> call_fits c ->
  let b := live_bucket b (clk_ms (tc_clk c)) in
  bucket_plain (snd (tb_spec c b)) /\ tb_reply_ok (fst (tb_spec c b)).
Proof.
  intros Hb Hl (Hn & Hnow & Ht). destruct (live_bucket_facts b (clk_ms (tc_clk c)) (tc_now c) Hb Hl) as (Hb' & Hl' & Hlive).
  cbv zeta. destruct (available_spec _ _ Hb' Hl' Hnow) as (Pa & _ & Va). destruct (left_spec _ (tc_n c) Pa Va Hn) as [Pl Fl].
  destruct (now_facts _ Hnow) as [Fn Nn]. unfold tb_spec. rewrite <- Hlive. cbn [fst snd]. split.
  - split; [exact Pl|]. by apply plain_facts.
  - eexists _, _, _. split; [done|]. split; [case_match; [by right|by left]|exact Fl].
Qed.

Lemma memory_history max mode key cs : 0 < capacity -> max <= 0 -> forall b m, Forall call_fits cs -> StronglySorted tb_not_after cs ->
  Forall (fun c => 0 <= clk_ms (tc_clk c) /\ refilled_before b (tc_now c)) cs -> bucket_in m key b ->
  tb_memory_run max mode key cs m = map (fun r => inr (RList r)) (tb_spec_run cs b).
Proof.
  intros Hpos Hmax. induction cs as [|c cs IH]; intros b m Hfit Hord Hfrom Hin; [done|].
  apply Forall_cons in Hfit as [Hf Hfit]. apply StronglySorted_inv in Hord as [Hord Hnext].
  apply Forall_cons in Hfrom as [[Hms Hnow] Hfrom]. pose proof Hin as (Hw & _ & Hp & _).
  destruct (live_bucket_facts b (clk_ms (tc_clk c)) (tc_now c) Hp Hnow) as (Hb' & Hl' & Hlive).
  pose proof (body_spec c _ _ Hpos Hms Hb' Hl' Hf (found_live m key b _ Hin) Hlive) as Hbody.
  destruct (next_bucket c b Hp Hnow Hf) as [Hplain _]. rewrite live_bucket_spec in Hbody, Hplain.
  cbn [tb_memory_run tb_spec_run]. rewrite memory_call_spec by done.
  match goal with |- context [run (script_prog max key ?sec) m] => pose proof (run_script max key sec m Hmax Hw) as Hr end.
  cbv zeta in Hr. cbn [sec_load sec_body] in Hr. destruct (run _ m) as [r m']. destruct Hr as (-> & Hw' & Hv' & _).
  destruct (tokenBucket_body _ _ _ _ _ _ _) as [e' r']. cbn [fst snd] in *. destruct Hbody as [-> Hv]. rewrite Hv in Hv'.
  assert (exists t, snd (tb_spec c b) = Some (t, f64_of_Z (tc_now c), clk_ms (tc_clk c) + tc_ttl c)) as [t Et] by (unfold tb_spec; by eexists).
  destruct (tb_spec c b) as [rs b2]. cbn [fst snd] in *. cbn [map]. f_equal. apply IH; [done|done| |].
  - rewrite Forall_forall in Hnext, Hfrom |- *. intros d Hd. destruct (Hnext d Hd) as [_ H2]. split; [by apply Hfrom|]. by subst b2.
  - split_and!; [done|done|done|]. subst b2. destruct Hf as (_ & _ & Hf). lia.
Qed.
End bucket.

(** C38: every evaluation of the token-bucket script keeps the bucket a
    well-typed one: the hash holds two numbers that parse back to the doubles
    written, so no history of calls on a fresh key (capacity below [2^53],
    a positive finite rate, costs below [2^53], clocks that do not go back)
    ever fails in the script; each reply is a grant or a refusal with a
    nonnegative remainder, and is the one of the bucket of two numbers that is
    refilled to at most its capacity and dropped when its time to live has
    passed.  The in-memory emulation, given the same calls, gives the same
    replies. *)
Theorem redis_token_bucket_wf {DB} `{RedisLaws DB} capacity rate_arg rate k cs T (db : DB) max mode : max <= 0 -> 0 <= T ->
  0 < capacity < 2 ^ 53 -> tonumber rate_arg = Some rate -> f64_finite rate = true -> PrimFloat.ltb zero rate = true ->
  Forall call_fits cs -> StronglySorted tb_not_after cs -> Forall (fun c => T <= clk_ms (tc_clk c)) cs -> rlook T db k = None ->
  tb_run capacity rate_arg k cs db = map (fun r => inr (RList r)) (tb_spec_run capacity rate cs None) /\
  tb_memory_run capacity rate max mode k cs (NewMemory max) = map (fun r => inr (RList r)) (tb_spec_run capacity rate cs None) /\
  Forall tb_reply_ok (tb_spec_run capacity rate cs None).
Proof.
  intros Hmax HT Hcap Hr Fr Pr Hfit Hord Hfrom Hempty. assert (0 <= capacity < 2 ^ 53) as Hcap' by lia.
  destruct (tb_history capacity rate_arg rate Hcap' Hr Fr Pr k cs T db None) as [E Hok];
    [done|done|by eapply Forall_impl; [exact Hfrom|]|done|].
  split_and!; [done| |done]. apply (memory_history capacity rate Hcap' Fr Pr); [lia|done|done|done| |].
  - eapply Forall_impl; [exact Hfrom|]. intros c Hc. cbn in Hc. split; [lia|done].
  - split_and!; [|unfold view; cbn; by rewrite lookup_empty|done|done].
    split; cbn; [intros k1 l|intros k1 k2 l]; rewrite lookup_empty; done.
Qed.

(** Capacity 3, one token every millisecond: three granted at once, the
    fourth refused until the bucket has refilled. *)
Definition demo_bucket : list tb_call :=
  let c ms n := mkTbCall (mkClock ms (1000 * ms)) n (1000 * ms) 60000 in
  [c 1000 2; c 1000 1; c 1000 1; c 1001 1; c 1001 4; c 1500 3; c 62000 2].

Definition demo_rate : f64 := (one / f64_of_Z 1000)%float.

Lemma redis_token_bucket_wf_witness :
  tb_spec_run 3 demo_rate demo_bucket None =
    [[1; 1; 0]; [1; 0; 0]; [0; 0; 0]; [1; 0; 1]; [0; 0; 0]; [1; 0; 499]; [1; 1; 0]] /\
  tb_run 3 (call_arg demo_rate) "rl:tb:a" demo_bucket (∅ : model_db) =
    map (fun r => inr (RList r)) (tb_spec_run 3 demo_rate demo_bucket None) /\
  tb_memory_run 3 demo_rate 0 false "rl:tb:a" demo_bucket (NewMemory 0) =
    map (fun r => inr (RList r)) (tb_spec_run 3 demo_rate demo_bucket None) /\
  Forall tb_reply_ok (tb_spec_run 3 demo_rate demo_bucket None).
Proof.
  split; [vm_compute; reflexivity|].
  apply (redis_token_bucket_wf 3 (call_arg demo_rate) demo_rate "rl:tb:a" demo_bucket 1000); [lia|lia|by split|by vm_compute..|idtac|idtac|idtac|done].
  all: repeat constructor; vm_compute; congruence.
Defined.
