(* ===== verification/CbDistributed.v ===== *)
(** * The distributed circuit breaker ([circuitbreaker/distributed.go]) over the
    in-memory store.

    Instances share one key of a store; every decision and every outcome is one
    script evaluation, and the scripts are atomic ([StoreAtomic]).  [Execute] is
    modelled whole, for one caller after another; the races between callers are
    studied on the shared record, one script evaluation a step. *)

From Stdlib Require Import Floats.
From stdpp Require Import relations.
From S2P Require Import Prelude Float64 Strconv StoreMemory StoreScripts StoreAtomic CbWindow CbHalfOpen CircuitBreaker.
Open Scope Z_scope.

Record DistributedCircuitBreaker := mkDCB { d_name : string; d_cfg : Config; d_key : string }.

Definition stateKeyPrefix : string := "cb:".

Definition NewDistributed (name : string) (c : Config) (prefix : option string) : DistributedCircuitBreaker :=
  mkDCB name (with_name name (defaults c)) (default stateKeyPrefix prefix +:+ name).

Definition ttl (d : DistributedCircuitBreaker) : duration :=
  let t := OpenTimeout (d_cfg d) *w 10 in if t <? Minute then Minute else t.

Definition ttl_ms (d : DistributedCircuitBreaker) : Z := Z.quot (ttl d) Millisecond.

(** [State(z)] for the values the scripts return. *)
Definition state_of_int (z : Z) : cb_state :=
  if z =? 2 then StateOpen else if z =? 1 then StateHalfOpen else StateClosed.

Inductive dist_event :=
| DIncResult (r : string)
| DObserve (d : duration)
| DRejected
| DTransition (from to : Z).

(** One script evaluation reads the breaker's clock and the store's clocks. *)
Record eval_reads := mkEvalReads { er_now : time; er_store : script_reads }.

Record dist_reads := mkDistReads {
  x_acquire : eval_reads;
  x_until : time;
  x_start : time;
  x_end : time;
  x_read : eval_reads;
  x_record : eval_reads;
}.

Definition dist_reads_at (t : time) : dist_reads :=
  let e := mkEvalReads t (script_reads_at t) in mkDistReads e t t t e e.

Section execute.
Context (max : Z) (d : DistributedCircuitBreaker).

Definition eval (e : eval_reads) (id : ScriptID) (args : list arg) (m : Memory) : (store_error + reply) * Memory :=
  run (store_Eval max false (er_store e) id [d_key d] args) m.

Definition acquire_args (e : eval_reads) : list arg :=
  [ArgInt (OpenTimeout (d_cfg d)); ArgInt (HalfOpenMaxRequests (d_cfg d)); ArgInt (ttl_ms d); ArgInt (UnixNano (er_now e))].

(** Decision, state, openedAt; [None] on a store error or a malformed reply. *)
Definition acquire (e : eval_reads) (m : Memory) : option (Z * Z * Z) * Memory :=
  let '(r, m') := eval e CircuitBreakerAcquireScriptID (acquire_args e) m in
  (match r with
   | inr (RList (dec :: st :: rest)) => Some (dec, st, match rest with o :: _ => o | [] => 0 end)
   | _ => None
   end, m').

(** The effective state, -1 on a store error. *)
Definition stateBestEffort (e : eval_reads) (m : Memory) : Z * Memory :=
  let '(r, m') := eval e CircuitBreakerReadScriptID [ArgInt (OpenTimeout (d_cfg d)); ArgInt (UnixNano (er_now e))] m in
  (match r with inr (RList (st :: _ :: _ :: _ :: _ :: _)) => st | _ => -1 end, m').

(** [State]: fails open, reporting closed. *)
Definition dist_State (e : eval_reads) (m : Memory) : cb_state * Memory :=
  let '(z, m') := stateBestEffort e m in (if z <? 0 then StateClosed else state_of_int z, m').

Definition record_args (isFailure acquiredProbe : bool) (e : eval_reads) : list arg :=
  [ArgInt (if isFailure then 1 else 0); ArgInt (FailureThreshold (d_cfg d)); ArgInt (SuccessThreshold (d_cfg d));
   ArgInt (OpenTimeout (d_cfg d)); ArgInt (ttl_ms d); ArgInt (if acquiredProbe then 1 else 0);
   ArgInt (UnixNano (er_now e))].

(** [emitTransition]: recorder, then the callback, which may panic. *)
Definition emitTransition (prev next : Z) : outcome unit * list dist_event :=
  if (prev <? 0) || (prev =? next) then (Ok tt, [])
  else (match OnStateChange (d_cfg d) with Some HookPanics => Panic "hook" | _ => Ok tt end, [DTransition prev next]).

Definition dist_recordOutcome (rd : dist_reads) (isFailure acquiredProbe : bool) (m : Memory)
  : outcome unit * list dist_event * Memory :=
  let '(prev, m1) := stateBestEffort (x_read rd) m in
  let '(r, m2) := eval (x_record rd) CircuitBreakerRecordScriptID (record_args isFailure acquiredProbe (x_record rd)) m1 in
  match r with
  | inr (RList (st :: _)) => (emitTransition prev st, m2)
  | _ => (Ok tt, [], m2)
  end.

Definition reject_hook : outcome unit :=
  match OnRejected (d_cfg d) with Some HookPanics => Panic "hook" | _ => Ok tt end.

(** Classify the outcome and record it; [IsFailure] may panic. *)
Definition record_call (rd : dist_reads) (err ctxErr : option fn_err) (acquiredProbe : bool)
    (evs : bool -> list dist_event) (m : Memory) : outcome exec_result * list dist_event * Memory :=
  match classify (d_cfg d) err ctxErr with
  | Panic p => (Panic p, [], m)
  | Ok isFailure =>
      let '(o, evs', m') := dist_recordOutcome rd isFailure acquiredProbe m in
      (o ≫= (fun _ => Ok (Completed err)), evs isFailure ++ evs', m')
  end.

(** [Execute]: a panic of the function leaves through [runFn], which does not
    recover. *)
Definition dist_Execute (rd : dist_reads) (fn : fn_result) (ctxErr : option fn_err) (m : Memory)
  : outcome exec_result * list dist_event * Memory :=
  let '(a, m1) := acquire (x_acquire rd) m in
  match a with
  | None =>
      match fn with
      | FnPanics p => (Panic p, [DIncResult "success"], m1)
      | FnReturns err => record_call rd err ctxErr false (fun _ => [DIncResult "success"]) m1
      end
  | Some (dec, st, oAt) =>
      if dec =? 1 then
        let until := if 0 <? oAt
                     then Z.max 0 (time_sub (time_add (Unix0 oAt) (OpenTimeout (d_cfg d))) (x_until rd)) else 0 in
        (reject_hook ≫= (fun _ => Ok (Rejected (newCircuitError (d_name d) (state_of_int st) until ErrCircuitOpen))),
         [DIncResult "rejected"; DRejected], m1)
      else if dec =? 2 then
        (reject_hook ≫= (fun _ => Ok (Rejected (newCircuitError (d_name d) (state_of_int st) 0 ErrTooManyRequests))),
         [DIncResult "rejected"; DRejected], m1)
      else
        match fn with
        | FnPanics p => (Panic p, [], m1)
        | FnReturns err =>
            record_call rd err ctxErr ((dec =? 0) && (st =? 1))
              (fun isFailure => [DObserve (time_sub (x_end rd) (x_start rd));
                                 DIncResult (if isFailure then "failure" else "success")]) m1
        end
  end.

(** [ExecuteWithFallback]: [fallback] is what the fallback does with the error. *)
Definition dist_ExecuteWithFallback (rd : dist_reads) (fn : fn_result) (ctxErr : option fn_err)
    (fallback : exec_result -> fn_result) (m : Memory) : outcome (option fn_err) * list dist_event * Memory :=
  let '(o, evs, m') := dist_Execute rd fn ctxErr m in
  (match o with
   | Panic p => Panic p
   | Ok (Completed None) => Ok None
   | Ok r => match fallback r with FnPanics p => Panic p | FnReturns err => Ok err end
   end, evs, m').

(** [read]: state, failures, successes, openedAt; [None] on an error. *)
Definition dist_read (e : eval_reads) (m : Memory) : option (Z * Z * Z * Z) * Memory :=
  let '(r, m') := eval e CircuitBreakerReadScriptID [ArgInt (OpenTimeout (d_cfg d)); ArgInt (UnixNano (er_now e))] m in
  (match r with inr (RList (st :: f :: s :: o :: _ :: _)) => Some (st, f, s, o) | _ => None end, m').

Definition dist_Snapshot (e : eval_reads) (now : time) (m : Memory) : Snapshot * Memory :=
  let '(r, m') := dist_read e m in
  (match r with
   | None => mkSnapshot (d_name d) StateClosed 0 0 0 0%float zero_time 0
   | Some (st, failures, successes, openedAtNs) =>
       let state := state_of_int st in
       let '(opened, until) :=
         if 0 <? openedAtNs then
           let opened := Unix0 openedAtNs in
           (opened, if decide (state = StateOpen)
                    then let t := time_sub (time_add opened (OpenTimeout (d_cfg d))) now in if t <? 0 then 0 else t
                    else 0)
         else (zero_time, 0) in
       let requests := failures +w successes in
       mkSnapshot (d_name d) state failures successes requests
         (if 0 <? requests then (f64_of_Z failures / f64_of_Z requests)%float else 0%float) opened until
   end, m').

End execute.

(** [WithKeyPrefix] and [Name] are the fields of the record. *)

(** ** The shared record *)

Section shared.
Context (max : Z) (Hmax : max <= 0) (d : DistributedCircuitBreaker) (lo hi : time).
(** All instants lie within the life of the key after any write. *)
Hypothesis Hhi : hi <= lo + ttl_ms d * Millisecond.

(** The store holds the record [st] for this breaker until [hi]. *)
Definition shares (m : Memory) (st : cbState) : Prop :=
  wf m /\ cb_in64 st /\
  ((view m (d_key d) = None /\ st = zero_cbState) \/
   exists e, view m (d_key d) = Some e /\ parseCBState (value e) = st /\
     (expiresAt e = zero_time \/ hi <= expiresAt e)).

Lemma ttl_ms_pos : 0 < ttl_ms d /\ in64 (ttl_ms d * Millisecond).
Proof.
  unfold ttl_ms. assert (Minute <= ttl d <= max_int64) as Ht.
  { unfold ttl. pose proof (wrap64_range (OpenTimeout (d_cfg d) * 10)) as Hr. unfold in64 in Hr.
    destruct (Z.ltb_spec (OpenTimeout (d_cfg d) *w 10) Minute); unfold Minute, max_int64 in *; lia. }
  unfold Minute, Millisecond, in64, min_int64, max_int64 in *.
  pose proof (Z.quot_rem' (ttl d) 1000000). pose proof (Z.rem_bound_pos (ttl d) 1000000). lia.
Qed.

Lemma found_shares m st now : shares m st -> lo <= now <= hi ->
  parseCBState (value (found m (d_key d) now)) = st /\
  (expiresAt (found m (d_key d) now) = zero_time \/ hi <= expiresAt (found m (d_key d) now)).
Proof.
  intros (_ & _ & [[Hv ->]|(e & Hv & Hp & He)]) Hn; unfold found; rewrite Hv.
  - split; [done|by left].
  - assert (isExpired e now = false) as ->; [|done].
    unfold isExpired, IsZero, After. destruct He as [-> |He]; [by rewrite Z.eqb_refl|].
    apply andb_false_iff. right. apply Z.ltb_ge. lia.
Qed.

(** Writing the record [st] at [now] makes the store hold it. *)
Lemma shares_write m e st now : wf m -> cb_in64 st -> lo <= now <= hi ->
  view m (d_key d) = Some (setEntryTTLmsAbs (mkEntry (serialize_cb st) (expiresAt e)) (ttl_ms d) now) ->
  shares m st.
Proof.
  intros Hw Hst Hn Hv. split_and!; [done|done|]. right. eexists. split; [done|].
  rewrite setTTL_value. split; [by apply parse_serialize_cb|]. right.
  destruct ttl_ms_pos as [Hp Hr]. unfold setEntryTTLmsAbs. destruct (Z.leb_spec (ttl_ms d) 0); [lia|].
  cbn. unfold time_add. rewrite wrap64_small by done. lia.
Qed.

Definition in_life (e : eval_reads) : Prop :=
  lo <= sr_load (er_store e) <= hi /\ lo <= sr_ttl (er_store e) <= hi /\ 0 < UnixNano (er_now e).

Lemma cbNowNs_last args z t : last args = Some (ArgInt z) -> 0 < z -> cbNowNs args t = z.
Proof. intros E Hz. unfold cbNowNs. rewrite E. cbn. by destruct (Z.leb_spec z 0); [lia|]. Qed.

Lemma cb_in64_acquire ot hm now st : cb_in64 st ->
  cb_in64 (default st (snd (cb_acquire ot hm now st))).
Proof.
  intros H. unfold cb_acquire. case_match; [done|]. destruct H as (H1 & H2 & H3 & H4 & H5).
  assert (in64 0 /\ in64 1) as [H00 H01] by go_lia.
  destruct (cs_state st =? 2); repeat case_match; unfold cb_in64; cbn; split_and!; try done; apply wrap64_range.
Qed.

Lemma cb_in64_record o ft st' pr now st : in64 now -> cb_in64 st -> cb_in64 (cb_record o ft st' pr now st).
Proof.
  intros Hn H. assert (in64 0 /\ in64 2) as [H00 H02] by go_lia. unfold cb_record.
  assert (forall x, cb_in64 x -> cb_in64 (mkCbState (cs_state x) (cs_failures x) (cs_successes x +w 1) (cs_openedAt x) (cs_inflight x))
    /\ cb_in64 (mkCbState (cs_state x) (cs_failures x +w 1) (cs_successes x) (cs_openedAt x) (cs_inflight x))) as Hs.
  { intros x (X1 & X2 & X3 & X4 & X5). split; unfold cb_in64; cbn; split_and!; try done; apply wrap64_range. }
  assert (cb_in64 (mkCbState 2 0 0 now 0)) as Ho by (unfold cb_in64; cbn; by split_and!).
  assert (cb_in64 zero_cbState) as Hz by (unfold cb_in64; cbn; by split_and!).
  set (st1 := if (pr =? 1) && _ then _ else st).
  assert (cb_in64 st1) as H1.
  { subst st1. destruct ((pr =? 1) && (0 <? cs_inflight st)) eqn:E; [|done].
    apply andb_true_iff in E as [_ E%Z.ltb_lt]. destruct H as (X1 & X2 & X3 & X4 & X5).
    unfold cb_in64; cbn; split_and!; try done; unfold in64 in *; lia. }
  repeat case_match; try done; by apply Hs.
Qed.

Lemma acquire_shares e m st : in_life e -> shares m st ->
  let '(r, ost) := cb_acquire (OpenTimeout (d_cfg d)) (HalfOpenMaxRequests (d_cfg d)) (UnixNano (er_now e)) st in
  exists m', eval max d e CircuitBreakerAcquireScriptID (acquire_args d e) m = (inr (RList r), m') /\
    shares m' (default st ost).
Proof.
  intros (Hl & Ht & Hn) Hs. destruct (found_shares m st _ Hs Hl) as [Hp He].
  pose proof (cb_in64_acquire (OpenTimeout (d_cfg d)) (HalfOpenMaxRequests (d_cfg d)) (UnixNano (er_now e)) st
    ltac:(apply Hs)) as Hin.
  set (now := UnixNano (er_now e)) in *.
  set (body := cbAcquire_body (OpenTimeout (d_cfg d)) (HalfOpenMaxRequests (d_cfg d)) (ttl_ms d) now (sr_ttl (er_store e))).
  assert (eval max d e CircuitBreakerAcquireScriptID (acquire_args d e) m =
    run (script_prog max (d_key d) (mkSection (sr_load (er_store e)) body)) m) as ->.
  { unfold eval, store_Eval, cbAcquireHandler, acquire_args. cbn [length Nat.ltb Nat.leb].
    rewrite (cbNowNs_last _ now) by done. done. }
  pose proof (run_script max (d_key d) (mkSection (sr_load (er_store e)) body) m Hmax ltac:(apply Hs)) as Hr.
  destruct (run _ m) as [r m']. cbn [sec_load sec_body] in Hr. destruct Hr as (-> & Hw & Hv & _).
  unfold body, cbAcquire_body in Hv |- *. rewrite Hp in Hv |- *.
  destruct (cb_acquire _ _ now st) as [r [st'|]]; cbn [fst snd default] in *; exists m'; (split; [done|]).
  - by eapply shares_write.
  - split_and!; [done|done|]. right. eauto.
Qed.

Lemma record_shares e (isF pr : bool) m st : in_life e -> shares m st ->
  let st' := cb_record (if isF then 1 else 0) (FailureThreshold (d_cfg d)) (SuccessThreshold (d_cfg d))
               (if pr then 1 else 0) (UnixNano (er_now e)) st in
  exists m', eval max d e CircuitBreakerRecordScriptID (record_args d isF pr e) m = (inr (RList [cs_state st']), m') /\
    shares m' st'.
Proof.
  intros (Hl & Ht & Hn) Hs. cbv zeta. destruct (found_shares m st _ Hs Hl) as [Hp He].
  set (now := UnixNano (er_now e)) in *.
  pose proof (cb_in64_record (if isF then 1 else 0) (FailureThreshold (d_cfg d)) (SuccessThreshold (d_cfg d))
    (if pr then 1 else 0) now st ltac:(apply wrap64_range) ltac:(apply Hs)) as Hin.
  set (body := cbRecord_body (if isF then 1 else 0) (FailureThreshold (d_cfg d)) (SuccessThreshold (d_cfg d)) (ttl_ms d)
    (if pr then 1 else 0) now (sr_ttl (er_store e))).
  assert (eval max d e CircuitBreakerRecordScriptID (record_args d isF pr e) m =
    run (script_prog max (d_key d) (mkSection (sr_load (er_store e)) body)) m) as ->.
  { unfold eval, store_Eval, cbRecordHandler, record_args. cbn [length Nat.ltb Nat.leb].
    rewrite (cbNowNs_last _ now) by done. done. }
  pose proof (run_script max (d_key d) (mkSection (sr_load (er_store e)) body) m Hmax ltac:(apply Hs)) as Hr.
  destruct (run _ m) as [r m']. cbn [sec_load sec_body] in Hr. destruct Hr as (-> & Hw & Hv & _).
  unfold body, cbRecord_body in Hv |- *. rewrite Hp in Hv |- *. cbn [fst snd] in *.
  exists m'. split; [done|]. by eapply shares_write.
Qed.

(** Reading changes nothing. *)
Lemma read_shares e m st : shares m st ->
  exists z, stateBestEffort max d e m = (z, m).
Proof.
  intros (Hw & _ & _). unfold stateBestEffort, eval, store_Eval, cbReadHandler. cbn [length Nat.ltb Nat.leb].
  cbn [int_arg lookup list_lookup toInt64]. unfold loadEntry. cbn [run exec_act].
  destruct (entries m !! d_key d) as [l|]; [|by eexists].
  rewrite run_Locked. cbn [fst snd]. rewrite write_deref. destruct (isExpired (deref m l) _); [by eexists|].
  rewrite run_Locked. cbn [fst snd run]. rewrite write_deref. by eexists.
Qed.

(** The record that is read. *)
Lemma dist_read_shares e m st : in_life e -> shares m st ->
  dist_read max d e m =
    (Some (hd 0 (cb_read (OpenTimeout (d_cfg d)) (UnixNano (er_now e)) st), cs_failures st, cs_successes st, cs_openedAt st), m).
Proof.
  intros (Hl & _ & Hn) Hs. destruct (found_shares m st _ Hs Hl) as [Hp _]. destruct Hs as (Hw & _ & Hv).
  unfold dist_read, eval, store_Eval, cbReadHandler. cbn [length Nat.ltb Nat.leb]. rewrite (cbNowNs_last _ (UnixNano (er_now e))) by done.
  cbn [int_arg lookup list_lookup toInt64]. unfold loadEntry. cbn [run exec_act].
  unfold found in Hp. destruct (entries m !! d_key d) as [l|] eqn:El.
  - rewrite (view_lookup m (d_key d) l Hw El) in Hp. rewrite run_Locked. cbn [fst snd]. rewrite write_deref.
    destruct (isExpired (deref m l) (sr_load (er_store e))).
    + cbn. by rewrite <- Hp.
    + rewrite run_Locked. cbn [fst snd run]. by rewrite write_deref, Hp.
  - assert (view m (d_key d) = None) as Ev by (unfold view; by rewrite El). rewrite Ev in Hp. cbn. by rewrite <- Hp.
Qed.

(** A snapshot shows the shared record: its counts, the state with the
    promotion that the next call will make, and a remaining time that is not
    negative.  The store is as it was. *)
Theorem dist_snapshot_shared e m st now : in_life e -> shares m st ->
  0 <= cs_failures st -> 0 <= cs_successes st -> cs_failures st + cs_successes st <= max_int64 ->
  let '(sn, m') := dist_Snapshot max d e now m in
  m' = m /\ sn_Failures sn = cs_failures st /\ sn_Successes sn = cs_successes st /\
  sn_Requests sn = cs_failures st + cs_successes st /\
  sn_State sn = state_of_int (hd 0 (cb_read (OpenTimeout (d_cfg d)) (UnixNano (er_now e)) st)) /\
  0 <= sn_TimeUntilHalfOpen sn.
Proof.
  intros Hl Hs Hf Hsu Hsum. unfold dist_Snapshot. rewrite (dist_read_shares e m st Hl Hs).
  rewrite (wrap64_small (cs_failures st + cs_successes st)) by go_lia.
  destruct (0 <? cs_openedAt st); [destruct (decide _)|]; cbn; split_and!; try done.
  by destruct (Z.ltb_spec (time_sub (time_add (Unix0 (cs_openedAt st)) (OpenTimeout (d_cfg d))) now) 0).
Qed.

(** ** [Execute] on the shared record *)

Definition hooks_return : Prop :=
  OnStateChange (d_cfg d) <> Some HookPanics /\ OnRejected (d_cfg d) <> Some HookPanics.

Lemma reject_hook_returns : hooks_return -> reject_hook d = Ok tt.
Proof. intros [_ H]. unfold reject_hook. by repeat case_match. Qed.

Lemma recordOutcome_shares rd isF pr m st : hooks_return -> in_life (x_record rd) -> shares m st ->
  exists evs m', dist_recordOutcome max d rd isF pr m = (Ok tt, evs, m') /\
    shares m' (cb_record (if isF then 1 else 0) (FailureThreshold (d_cfg d)) (SuccessThreshold (d_cfg d))
                 (if pr then 1 else 0) (UnixNano (er_now (x_record rd))) st).
Proof.
  intros [Hh _] Hl Hs. unfold dist_recordOutcome. destruct (read_shares (x_read rd) m st Hs) as [z ->].
  destruct (record_shares (x_record rd) isF pr m st Hl Hs) as (m' & -> & Hs').
  unfold emitTransition. destruct (_ || _); [by do 2 eexists|].
  destruct (OnStateChange (d_cfg d)) as [[]|]; [by do 2 eexists|done|by do 2 eexists].
Qed.

(** What [cb_acquire] decides. *)
Definition decide_on (now : Z) (st : cbState) : list Z * option cbState :=
  cb_acquire (OpenTimeout (d_cfg d)) (HalfOpenMaxRequests (d_cfg d)) now st.

Lemma acquire_run e m st dec z rest ost : in_life e -> shares m st ->
  decide_on (UnixNano (er_now e)) st = (dec :: z :: rest, ost) ->
  exists m', acquire max d e m = (Some (dec, z, match rest with o :: _ => o | [] => 0 end), m') /\ shares m' (default st ost).
Proof.
  intros Hl Hs E. unfold acquire, decide_on in *. pose proof (acquire_shares e m st Hl Hs) as H. rewrite E in H.
  destruct H as (m' & -> & Hs'). by exists m'.
Qed.

Lemma exec_allowed rd err ctxErr isF m st z ost : hooks_return -> in_life (x_acquire rd) -> in_life (x_record rd) ->
  shares m st -> decide_on (UnixNano (er_now (x_acquire rd))) st = ([0; z], ost) ->
  classify (d_cfg d) err ctxErr = Ok isF ->
  exists evs m', dist_Execute max d rd (FnReturns err) ctxErr m = (Ok (Completed err), evs, m') /\
    shares m' (cb_record (if isF then 1 else 0) (FailureThreshold (d_cfg d)) (SuccessThreshold (d_cfg d))
      (if z =? 1 then 1 else 0) (UnixNano (er_now (x_record rd))) (default st ost)).
Proof.
  intros Hh Ha Hr Hs E Hc. unfold dist_Execute.
  destruct (acquire_run _ _ _ _ _ _ _ Ha Hs E) as (m1 & -> & Hs1). cbn [Z.eqb]. unfold record_call. rewrite Hc.
  destruct (recordOutcome_shares rd isF (z =? 1) m1 (default st ost) Hh Hr Hs1) as (evs & m' & E' & Hs').
  cbn [andb Z.eqb]. rewrite E'. do 2 eexists. split; [done|]. by destruct (z =? 1).
Qed.

(** A panicking function leaves the slot it reserved. *)
Lemma exec_panics rd p ctxErr m st z ost : in_life (x_acquire rd) -> shares m st ->
  decide_on (UnixNano (er_now (x_acquire rd))) st = ([0; z], ost) ->
  exists m', dist_Execute max d rd (FnPanics p) ctxErr m = (Panic p, [], m') /\ shares m' (default st ost).
Proof.
  intros Ha Hs E. unfold dist_Execute.
  destruct (acquire_run _ _ _ _ _ _ _ Ha Hs E) as (m1 & -> & Hs1). cbn. by exists m1.
Qed.

Lemma exec_rejected rd fn ctxErr m st dec z rest ost : hooks_return -> in_life (x_acquire rd) -> shares m st ->
  decide_on (UnixNano (er_now (x_acquire rd))) st = (dec :: z :: rest, ost) -> dec = 1 \/ dec = 2 ->
  exists until evs m', dist_Execute max d rd fn ctxErr m =
    (Ok (Rejected (mkCircuitError (d_name d) (state_of_int z) until
       (if dec =? 1 then ErrCircuitOpen else ErrTooManyRequests))), evs, m') /\
    shares m' (default st ost).
Proof.
  intros Hh Ha Hs E Hdec. unfold dist_Execute.
  destruct (acquire_run _ _ _ _ _ _ _ Ha Hs E) as (m1 & -> & Hs1).
  destruct Hdec as [-> | ->]; cbn [Z.eqb Pos.eqb]; rewrite reject_hook_returns by done; by do 3 eexists.
Qed.

(** ** Callers one after another, of any instance *)

Record dcall := mkDCall { dc_reads : dist_reads; dc_out : req_outcome }.

Definition call_in_life (c : dcall) : Prop := in_life (x_acquire (dc_reads c)) /\ in_life (x_record (dc_reads c)).

Definition dist_call (m : Memory) (c : dcall) : outcome exec_result * Memory :=
  let '(r, _, m') := dist_Execute max d (dc_reads c) (call_result (dc_out c)) None m in (r, m').

Fixpoint dist_run (m : Memory) (cs : list dcall) : list (outcome exec_result) * Memory :=
  match cs with
  | [] => ([], m)
  | c :: cs' =>
      let '(r, m1) := dist_call m c in
      let '(rs, m2) := dist_run m1 cs' in (r :: rs, m2)
  end.

Definition closed_record (failures : Z) : cbState := mkCbState 0 failures 0 0 0.

(** The default classification: every error is a failure. *)
Hypothesis Hclass : IsFailure (d_cfg d) = None \/ IsFailure (d_cfg d) = Some defaultIsFailure.

Lemma classify_call o : classify (d_cfg d) (match call_result o with FnReturns e => e | FnPanics _ => None end) None =
  Ok (is_failure o).
Proof.
  destruct o; cbn; [done|]. rewrite andb_false_r. by destruct Hclass as [-> | ->].
Qed.

Lemma dist_call_closed m c f : hooks_return -> call_in_life c -> shares m (closed_record f) -> 0 <= f < max_int64 ->
  f < FailureThreshold (d_cfg d) ->
  let '(r, m') := dist_call m c in
  completed r /\
  shares m' (if is_failure (dc_out c) && (FailureThreshold (d_cfg d) <=? f + 1)
             then mkCbState 2 0 0 (UnixNano (er_now (x_record (dc_reads c)))) 0
             else closed_record (f + fail_cost (dc_out c))).
Proof.
  intros Hh [Ha Hr] Hs Hf Hlt. unfold dist_call. pose proof (classify_call (dc_out c)) as Hc.
  assert (exists err, call_result (dc_out c) = FnReturns err) as [err Ee] by (destruct (dc_out c); by eexists).
  rewrite Ee in *.
  destruct (exec_allowed (dc_reads c) err None (is_failure (dc_out c)) m (closed_record f) 0 (Some (closed_record f))
    Hh Ha Hr Hs eq_refl Hc) as (evs & m' & -> & Hs').
  split; [done|]. cbn [default] in Hs'. unfold fail_cost.
  destruct (is_failure (dc_out c)); cbn [andb].
  - unfold cb_record, closed_record in Hs'. cbn in Hs'. rewrite wrap64_small in Hs' by go_lia.
    destruct (FailureThreshold (d_cfg d) <=? f + 1); done.
  - unfold closed_record in *. cbn in Hs'. by rewrite Z.add_0_r.
Qed.
End shared.

Lemma shares_new max d hi : shares d hi (NewMemory max) zero_cbState.
Proof.
  split_and!; [split; intros *; cbn; by rewrite ?lookup_empty| |left; done].
  unfold cb_in64, zero_cbState. cbn. split_and!; go_lia.
Qed.

Section trip.
Context (max : Z) (Hmax : max <= 0) (d : DistributedCircuitBreaker) (lo hi : time).
Hypothesis Hhi : hi <= lo + ttl_ms d * Millisecond.
Hypothesis Hclass : IsFailure (d_cfg d) = None \/ IsFailure (d_cfg d) = Some defaultIsFailure.
Hypothesis Hhooks : hooks_return d.

Lemma count_failures_nonneg l : 0 <= count_failures l.
Proof. unfold count_failures. apply zsum_nonneg. apply Forall_map, Forall_true. by intros []. Qed.

Lemma dist_run_closed m f cs : shares d hi m (closed_record f) -> 0 <= f ->
  Forall (call_in_life lo hi) cs ->
  f + count_failures (map dc_out cs) < FailureThreshold (d_cfg d) -> FailureThreshold (d_cfg d) <= max_int64 ->
  let '(rs, m') := dist_run max d m cs in
  Forall completed rs /\ shares d hi m' (closed_record (f + count_failures (map dc_out cs))).
Proof.
  intros Hs Hf Hcs. revert m f Hs Hf. induction Hcs as [|c cs Hc _ IH]; intros m f Hs Hf Hlt Hft; cbn [dist_run].
  - change (count_failures (map dc_out [])) with 0. rewrite Z.add_0_r. by split.
  - change (count_failures (map dc_out (c :: cs))) with (fail_cost (dc_out c) + count_failures (map dc_out cs)) in *.
    pose proof (count_failures_nonneg (map dc_out cs)) as Hnn.
    pose proof (dist_call_closed max Hmax d lo hi Hhi Hclass m c f Hhooks Hc Hs) as H.
    unfold fail_cost in *. destruct (dist_call max d m c) as [r m1].
    destruct H as [Hr Hs1]; [destruct (is_failure (dc_out c)); lia|destruct (is_failure (dc_out c)); lia|].
    assert (is_failure (dc_out c) && (FailureThreshold (d_cfg d) <=? f + 1) = false) as E.
    { destruct (is_failure (dc_out c)); cbn; [|done]. apply Z.leb_gt. lia. }
    rewrite E in Hs1. specialize (IH m1 _ Hs1 ltac:(destruct (is_failure (dc_out c)); lia) ltac:(lia) Hft).
    destruct (dist_run max d m1 cs) as [rs m2]. destruct IH as [Hrs Hs2]. split; [by constructor|].
    by rewrite Z.add_assoc.
Qed.

Definition open_rejected (r : outcome exec_result) : Prop :=
  exists until, r = Ok (Rejected (mkCircuitError (d_name d) StateOpen until ErrCircuitOpen)).

(** An open record rejects until the timeout has elapsed, and stays as it is. *)
Lemma open_record_rejects m t c : shares d hi m (mkCbState 2 0 0 t 0) -> 0 < t -> call_in_life lo hi c ->
  UnixNano (er_now (x_acquire (dc_reads c))) < t + OpenTimeout (d_cfg d) ->
  let '(r, m') := dist_call max d m c in open_rejected r /\ shares d hi m' (mkCbState 2 0 0 t 0).
Proof.
  intros Hs Ht Hc Hn. unfold dist_call. destruct Hc as [Ha _]. pose proof Ha as (_ & _ & Hpos).
  set (now := UnixNano (er_now (x_acquire (dc_reads c)))) in *.
  assert (decide_on d now (mkCbState 2 0 0 t 0) = ([1; 2; t], None)) as E.
  { unfold decide_on, cb_acquire. cbn [cs_state cs_openedAt Z.eqb Pos.eqb andb].
    assert (in64 now) as Hin by apply wrap64_range. assert (in64 t) as Hit by apply Hs.
    rewrite wrap64_small by (unfold in64 in *; unfold min_int64, max_int64 in *; lia).
    destruct (Z.leb_spec t 0); [lia|]. destruct (Z.ltb_spec (now - t) (OpenTimeout (d_cfg d))); [done|lia]. }
  destruct (exec_rejected max Hmax d lo hi Hhi (dc_reads c) (call_result (dc_out c)) None m _ 1 2 [t] None
    Hhooks Ha Hs E ltac:(by left)) as (until & evs & m' & -> & Hs').
  split; [by exists until|done].
Qed.

Lemma open_run_rejects m t cs : shares d hi m (mkCbState 2 0 0 t 0) -> 0 < t -> Forall (call_in_life lo hi) cs ->
  Forall (fun c => UnixNano (er_now (x_acquire (dc_reads c))) < t + OpenTimeout (d_cfg d)) cs ->
  Forall open_rejected (fst (dist_run max d m cs)).
Proof.
  intros Hs Ht Hcs. revert m Hs. induction Hcs as [|c cs Hc _ IH]; intros m Hs Hn; [constructor|].
  inversion Hn as [|? ? Hn1 Hns]; subst. cbn [dist_run].
  pose proof (open_record_rejects m t c Hs Ht Hc Hn1) as H. destruct (dist_call max d m c) as [r m1].
  destruct H as [Hr Hs1]. specialize (IH m1 Hs1 Hns). destruct (dist_run max d m1 cs) as [rs m2]. by constructor.
Qed.
End trip.

(** C14: The fleet trips together, and on the total number of failures.  Calls of
    any instances sharing a key, one after another on an in-memory store
    without a key limit and within the life of the key, complete as long as fewer than
    [FailureThreshold] of them have failed since the key was created, however
    many succeeded in between.  After the failure that reaches the threshold
    every call, of whatever instance and however many there are, that acquires
    before the timeout has elapsed is rejected with [ErrCircuitOpen]; with
    fewer failures the next call completes. *)
Theorem distributed_trips_on_total_failures max d lo hi calls cl lates :
  max <= 0 -> hi <= lo + ttl_ms d * Millisecond ->
  IsFailure (d_cfg d) = None \/ IsFailure (d_cfg d) = Some defaultIsFailure -> hooks_return d ->
  Forall (call_in_life lo hi) calls -> call_in_life lo hi cl -> Forall (call_in_life lo hi) lates ->
  FailureThreshold (d_cfg d) <= max_int64 ->
  count_failures (map dc_out calls) < FailureThreshold (d_cfg d) ->
  let n := count_failures (map dc_out (calls ++ [cl])) in
  let opened := UnixNano (er_now (x_record (dc_reads cl))) in
  let '(rs, m1) := dist_run max d (NewMemory max) calls in
  let '(r, m2) := dist_call max d m1 cl in
  Forall completed rs /\ completed r /\
  (n < FailureThreshold (d_cfg d) -> Forall (fun late => completed (fst (dist_call max d m2 late))) lates) /\
  (n = FailureThreshold (d_cfg d) ->
   Forall (fun late => UnixNano (er_now (x_acquire (dc_reads late))) < opened + OpenTimeout (d_cfg d)) lates ->
   Forall (open_rejected d) (fst (dist_run max d m2 lates))).
Proof.
  intros Hmax Hhi Hcl Hh Hcs Hc Hl Hft Hlt. cbv zeta.
  assert (count_failures (map dc_out (calls ++ [cl])) = count_failures (map dc_out calls) + fail_cost (dc_out cl)) as En.
  { unfold count_failures. rewrite !map_app, zsum_app. cbn. lia. }
  pose proof (count_failures_nonneg (map dc_out calls)) as Hnn.
  pose proof (dist_run_closed max Hmax d lo hi Hhi Hcl Hh (NewMemory max) 0 calls (shares_new max d hi)
    ltac:(lia) Hcs ltac:(lia) Hft) as H1.
  destruct (dist_run max d (NewMemory max) calls) as [rs m1]. destruct H1 as [Hrs Hs1]. rewrite Z.add_0_l in Hs1.
  pose proof (dist_call_closed max Hmax d lo hi Hhi Hcl m1 cl _ Hh Hc Hs1 ltac:(lia) Hlt) as H2.
  destruct (dist_call max d m1 cl) as [r m2]. destruct H2 as [Hr Hs2]. rewrite En. unfold fail_cost in *.
  split_and!; [done|done| |].
  - intros Hn. assert (is_failure (dc_out cl) && (FailureThreshold (d_cfg d) <=? count_failures (map dc_out calls) + 1) = false) as E.
    { destruct (is_failure (dc_out cl)); cbn; [|done]. apply Z.leb_gt. lia. }
    rewrite E in Hs2. apply (Forall_impl _ _ _ Hl). intros late Hlate.
    pose proof (dist_call_closed max Hmax d lo hi Hhi Hcl m2 late _ Hh Hlate Hs2
      ltac:(destruct (is_failure (dc_out cl)); lia) Hn) as H3.
    destruct (dist_call max d m2 late). apply H3.
  - intros Hn Hlate. destruct (is_failure (dc_out cl)) eqn:Ef; [|lia]. cbn [andb] in Hs2.
    rewrite (proj2 (Z.leb_le _ _)) in Hs2 by lia.
    apply (open_run_rejects max Hmax d lo hi Hhi Hh m2 _ lates Hs2); [apply Hc|done|done].
Qed.

(** Two failures in three calls trip a breaker with threshold two. *)
Definition demo_dcb : DistributedCircuitBreaker :=
  NewDistributed "db" (mkConfig "" CountBased 0 2 0 0 0%float 0 Second 0 0 None 0 None None None None None) None.

Definition demo_dcall (t : time) (o : req_outcome) : dcall := mkDCall (dist_reads_at t) o.

Lemma demo_in_life t o : 1 <= t <= Second -> call_in_life 0 Second (demo_dcall t o).
Proof.
  intros Ht. unfold call_in_life, in_life, demo_dcall, dist_reads_at, script_reads_at. cbn.
  unfold UnixNano. unfold Second in *. rewrite wrap64_small by go_lia. lia.
Qed.

Lemma distributed_trips_on_total_failures_witness :
  let lates := [demo_dcall 4 outcomeSuccess; demo_dcall 5 outcomeFailure; demo_dcall 6 outcomeSuccess] in
  let '(rs, m1) := dist_run 0 demo_dcb (NewMemory 0) [demo_dcall 1 outcomeFailure; demo_dcall 2 outcomeSuccess] in
  let '(r, m2) := dist_call 0 demo_dcb m1 (demo_dcall 3 outcomeFailure) in
  Forall completed rs /\ completed r /\ length (fst (dist_run 0 demo_dcb m2 lates)) = 3%nat /\
  Forall (open_rejected demo_dcb) (fst (dist_run 0 demo_dcb m2 lates)).
Proof.
  pose proof (distributed_trips_on_total_failures 0 demo_dcb 0 Second
    [demo_dcall 1 outcomeFailure; demo_dcall 2 outcomeSuccess] (demo_dcall 3 outcomeFailure)
    [demo_dcall 4 outcomeSuccess; demo_dcall 5 outcomeFailure; demo_dcall 6 outcomeSuccess]) as H.
  assert (forall m c1 c2 c3, length (fst (dist_run 0 demo_dcb m [c1; c2; c3])) = 3%nat) as Hlen.
  { intros m c1 c2 c3. cbn [dist_run]. destruct (dist_call _ _ m c1) as [r1 m1].
    destruct (dist_call _ _ m1 c2) as [r2 m2]. by destruct (dist_call _ _ m2 c3). }
  destruct (dist_run 0 demo_dcb (NewMemory 0) _) as [rs m1]. destruct (dist_call 0 demo_dcb m1 _) as [r m2].
  destruct H as (H1 & H2 & _ & H4).
  - lia.
  - vm_compute. discriminate.
  - right. reflexivity.
  - split; discriminate.
  - repeat (apply Forall_cons_2; [apply demo_in_life; unfold Second; lia|]). apply Forall_nil_2.
  - apply demo_in_life. unfold Second. lia.
  - repeat (apply Forall_cons_2; [apply demo_in_life; unfold Second; lia|]). apply Forall_nil_2.
  - vm_compute. discriminate.
  - reflexivity.
  - split_and!; [done|done|apply Hlen|]. apply H4; [reflexivity|]. repeat constructor.
Defined.

(** ** A panicking probe *)

Definition too_many (d : DistributedCircuitBreaker) (r : outcome exec_result) : Prop :=
  r = Ok (Rejected (mkCircuitError (d_name d) StateHalfOpen 0 ErrTooManyRequests)).

Section wedged.
Context (max : Z) (Hmax : max <= 0) (d : DistributedCircuitBreaker) (lo hi : time).
Hypothesis Hhi : hi <= lo + ttl_ms d * Millisecond.
Hypothesis Hhooks : hooks_return d.

Lemma full_record_rejects m st c : shares d hi m st -> cs_state st = 1 ->
  HalfOpenMaxRequests (d_cfg d) <= cs_inflight st -> call_in_life lo hi c ->
  let '(r, m') := dist_call max d m c in too_many d r /\ shares d hi m' st.
Proof.
  intros Hs H1 Hf [Ha _]. unfold dist_call, dist_Execute.
  assert (decide_on d (UnixNano (er_now (x_acquire (dc_reads c)))) st = ([2; 1], Some st)) as E.
  { unfold decide_on, cb_acquire. rewrite H1. cbn [Z.eqb Pos.eqb andb]. rewrite H1. cbn [Z.eqb Pos.eqb].
    by rewrite (proj2 (Z.leb_le _ _)) by lia. }
  destruct (acquire_run max Hmax d lo hi Hhi _ _ _ _ _ _ _ Ha Hs E) as (m1 & -> & Hs1). cbn [Z.eqb Pos.eqb].
  by rewrite reject_hook_returns.
Qed.

Lemma full_record_wedges m st cs : shares d hi m st -> cs_state st = 1 ->
  HalfOpenMaxRequests (d_cfg d) <= cs_inflight st -> Forall (call_in_life lo hi) cs ->
  Forall (too_many d) (fst (dist_run max d m cs)).
Proof.
  intros Hs H1 Hf Hcs. revert m Hs. induction Hcs as [|c cs Hc _ IH]; intros m Hs; [constructor|]. cbn [dist_run].
  pose proof (full_record_rejects m st c Hs H1 Hf Hc) as H. destruct (dist_call max d m c) as [r m1].
  destruct H as [Hr Hs1]. specialize (IH m1 Hs1). destruct (dist_run max d m1 cs) as [rs m2]. by constructor.
Qed.
End wedged.

(** A probe that panics wedges the breaker: [Execute] does not record the
    outcome of a function that panics, so with the default single probe the slot
    stays reserved, and every later call of every instance is rejected with
    [ErrTooManyRequests] for as long as the key lives, which each of those calls
    prolongs. *)
Theorem distributed_panicking_probe_wedges max d lo hi m st rd p ctxErr calls :
  max <= 0 -> hi <= lo + ttl_ms d * Millisecond -> hooks_return d -> HalfOpenMaxRequests (d_cfg d) = 1 ->
  shares d hi m st -> cs_state st = 2 -> 0 < cs_openedAt st ->
  in_life lo hi (x_acquire rd) -> cs_openedAt st + OpenTimeout (d_cfg d) <= UnixNano (er_now (x_acquire rd)) ->
  Forall (call_in_life lo hi) calls ->
  let '(r, _, m') := dist_Execute max d rd (FnPanics p) ctxErr m in
  r = Panic p /\ Forall (too_many d) (fst (dist_run max d m' calls)).
Proof.
  intros Hmax Hhi Hh H1 Hs H2 Ho Ha Hel Hcs.
  set (st1 := mkCbState 1 (cs_failures st) 0 (cs_openedAt st) 1).
  assert (decide_on d (UnixNano (er_now (x_acquire rd))) st = ([0; 1], Some st1)) as E.
  { unfold decide_on, cb_acquire. rewrite H2, H1. cbn [Z.eqb Pos.eqb andb].
    assert (in64 (UnixNano (er_now (x_acquire rd)))) as Hin by apply wrap64_range.
    assert (in64 (cs_openedAt st)) as Hit by apply Hs. destruct Ha as (_ & _ & Hpos).
    rewrite wrap64_small by (unfold in64 in *; unfold min_int64, max_int64 in *; lia).
    rewrite (proj2 (Z.leb_gt _ _)) by lia. rewrite (proj2 (Z.ltb_ge _ _)) by lia. reflexivity. }
  destruct (exec_panics max Hmax d lo hi Hhi rd p ctxErr m st 1 (Some st1) Ha Hs E) as (m' & -> & Hs').
  split; [done|]. eapply full_record_wedges; try done. cbn. lia.
Qed.

(** The record of a breaker that opened at instant 1. *)
Definition demo_opened : Memory :=
  snd (dist_run 0 demo_dcb (NewMemory 0) [demo_dcall 1 outcomeFailure; demo_dcall 1 outcomeFailure]).

Lemma demo_opened_shares : shares demo_dcb Minute demo_opened (mkCbState 2 0 0 1 0).
Proof.
  assert (view demo_opened (d_key demo_dcb) = Some (mkEntry "2|0|0|1|0" (1 + Minute))) as Hv by (vm_compute; reflexivity).
  split_and!.
  - split.
    + intros k l. intros H. assert (entries demo_opened = {["cb:db" := 0%nat]}) as He by (vm_compute; reflexivity).
      rewrite He in H. apply lookup_singleton_Some in H as [_ <-]. vm_compute. lia.
    + intros k1 k2 l. assert (entries demo_opened = {["cb:db" := 0%nat]}) as -> by (vm_compute; reflexivity).
      intros [<- _]%lookup_singleton_Some [<- _]%lookup_singleton_Some. done.
  - unfold cb_in64. cbn. split_and!; go_lia.
  - right. eexists. split; [exact Hv|]. split; [reflexivity|]. right. cbn. unfold Minute. lia.
Qed.

Lemma distributed_panicking_probe_wedges_witness :
  let '(r, _, m') := dist_Execute 0 demo_dcb (dist_reads_at (2 * Second)) (FnPanics "boom") None demo_opened in
  r = Panic "boom" /\
  Forall (too_many demo_dcb)
    (fst (dist_run 0 demo_dcb m' [demo_dcall (3 * Second) outcomeSuccess; demo_dcall (40 * Second) outcomeSuccess])).
Proof.
  assert (forall t, 1 <= t <= Minute -> in_life 0 Minute (mkEvalReads t (script_reads_at t))) as Hl.
  { intros t Ht. unfold in_life, script_reads_at. cbn. unfold UnixNano. unfold Minute in *.
    rewrite wrap64_small by go_lia. lia. }
  apply (distributed_panicking_probe_wedges 0 demo_dcb 0 Minute demo_opened (mkCbState 2 0 0 1 0)
    (dist_reads_at (2 * Second)) "boom" None
    [demo_dcall (3 * Second) outcomeSuccess; demo_dcall (40 * Second) outcomeSuccess]).
  - lia.
  - vm_compute. discriminate.
  - split; discriminate.
  - reflexivity.
  - exact demo_opened_shares.
  - reflexivity.
  - cbn. lia.
  - apply Hl. unfold Second, Minute. lia.
  - vm_compute. discriminate.
  - repeat (apply Forall_cons_2; [split; apply Hl; unfold Second, Minute; lia|]). apply Forall_nil_2.
Defined.

(** ** Concurrent callers *)

(** Where a caller is between its two script evaluations. *)
Inductive dpc := DIdle | DRun (probe : bool) | DDone | DTurnedAway.

Record dsys := mkDSys { ds_record : cbState; ds_now : Z; ds_callers : list dpc }.

Section races.
Context (openTimeout halfOpenMax failureThreshold successThreshold : Z).

(** Caller [i] evaluates its next script at [now]; [failed] is the outcome of
    its function. *)
Definition dsys_step (i : nat) (now : Z) (failed : bool) (s : dsys) : option dsys :=
  if now <? ds_now s then None
  else
    match ds_callers s !! i with
    | Some DIdle =>
        let '(r, ost) := cb_acquire openTimeout halfOpenMax now (ds_record s) in
        let p := match r with
                 | dec :: z :: _ => if dec =? 0 then DRun (z =? 1) else DTurnedAway
                 | _ => DTurnedAway
                 end in
        Some (mkDSys (default (ds_record s) ost) now (<[i := p]> (ds_callers s)))
    | Some (DRun probe) =>
        Some (mkDSys (cb_record (if failed then 1 else 0) failureThreshold successThreshold
                        (if probe then 1 else 0) now (ds_record s))
                now (<[i := DDone]> (ds_callers s)))
    | _ => None
    end.

Inductive dstep : dsys -> dsys -> Prop :=
| do_dstep i now failed s s' : dsys_step i now failed s = Some s' -> dstep s s'.

Definition dreachable (n : nat) (s : dsys) : Prop := rtc dstep (mkDSys zero_cbState 0 (replicate n DIdle)) s.

Fixpoint drun_schedule (s : dsys) (sched : list (nat * Z * bool)) : option dsys :=
  match sched with
  | [] => Some s
  | (i, now, failed) :: sched' => s' ← dsys_step i now failed s; drun_schedule s' sched'
  end.

Lemma drun_schedule_rtc s sched s' : drun_schedule s sched = Some s' -> rtc dstep s s'.
Proof.
  revert s. induction sched as [|[[i now] failed] sched IH]; cbn; intros s H; [by simplify_eq|].
  destruct (dsys_step i now failed s) as [s1|] eqn:E; [|done]. eapply rtc_l; [by econstructor|by apply IH].
Qed.

Definition probing_pc (p : dpc) : Z := match p with DRun true => 1 | _ => 0 end.

Definition probes (ps : list dpc) : Z := zsum (map probing_pc ps).

Definition record_inv (s : dsys) : Prop :=
  0 <= cs_inflight (ds_record s) <= Z.min halfOpenMax (probes (ds_callers s)) /\
  (cs_state (ds_record s) = 0 \/ cs_state (ds_record s) = 1 \/ cs_state (ds_record s) = 2).

Lemma probes_insert ps i p q : ps !! i = Some p -> probes (<[i := q]> ps) = probes ps - probing_pc p + probing_pc q.
Proof.
  intros Hi. unfold probes. rewrite <- (take_drop_middle _ _ _ Hi) at 2.
  rewrite insert_take_drop by (by eapply lookup_lt_Some).
  rewrite !map_app, !map_cons, !zsum_app. unfold zsum. cbn. lia.
Qed.

Lemma probes_nonneg ps : 0 <= probes ps.
Proof. apply zsum_nonneg. apply Forall_map, Forall_true. by intros [|[]| |]. Qed.

Lemma acquire_inv now st k : 1 <= halfOpenMax -> halfOpenMax <= max_int64 -> 0 <= k ->
  0 <= cs_inflight st <= Z.min halfOpenMax k -> (cs_state st = 0 \/ cs_state st = 1 \/ cs_state st = 2) ->
  let '(r, ost) := cb_acquire openTimeout halfOpenMax now st in
  let st' := default st ost in
  (cs_state st' = 0 \/ cs_state st' = 1 \/ cs_state st' = 2) /\
  0 <= cs_inflight st' <=
    Z.min halfOpenMax (k + match r with dec :: z :: _ => if (dec =? 0) && (z =? 1) then 1 else 0 | _ => 0 end).
Proof.
  intros Hm Hm' Hk Hi Hs. unfold cb_acquire. destruct (Z.eqb_spec (cs_state st) 2) as [E2|E2]; cbn [andb].
  - destruct ((cs_openedAt st <=? 0) || _); cbn [default cs_state cs_inflight Z.eqb Pos.eqb]; [rewrite E2; cbn; lia|].
    rewrite (proj2 (Z.leb_gt halfOpenMax 0)) by lia. cbn [default cs_state cs_inflight]. change (wrap64 (0 + 1)) with 1.
    cbn. lia.
  - cbv zeta. destruct (Z.eqb_spec (cs_state st) 1) as [E1|E1].
    + destruct (Z.leb_spec halfOpenMax (cs_inflight st)); unfold default, id; cbn [from_option cs_state cs_inflight].
      * cbn. lia.
      * rewrite wrap64_small by go_lia. cbn. lia.
    + unfold default, id. cbn. lia.
Qed.

Lemma record_step_inv o ft st' pr now st k : 0 <= k ->
  0 <= cs_inflight st <= Z.min halfOpenMax (k + (if pr =? 1 then 1 else 0)) ->
  (cs_state st = 0 \/ cs_state st = 1 \/ cs_state st = 2) ->
  let st2 := cb_record o ft st' pr now st in
  (cs_state st2 = 0 \/ cs_state st2 = 1 \/ cs_state st2 = 2) /\ 0 <= cs_inflight st2 <= Z.min halfOpenMax k.
Proof.
  intros Hk Hi Hs. cbv zeta. unfold cb_record. set (st1 := if (pr =? 1) && _ then _ else st).
  assert (cs_state st1 = cs_state st /\ 0 <= cs_inflight st1 <= Z.min halfOpenMax k) as [E1 Hi1].
  { subst st1. destruct (pr =? 1); cbn [andb]; [|lia].
    destruct (Z.ltb_spec 0 (cs_inflight st)); cbn; lia. }
  rewrite <- E1 in Hs. clearbody st1. repeat case_match; cbn; lia.
Qed.

Lemma record_inv_step s s' : 1 <= halfOpenMax <= max_int64 -> record_inv s -> dstep s s' -> record_inv s'.
Proof.
  intros Hm [Hi Hs] Hst. inversion Hst as [i now failed s0 s1 H]; subst s0 s1. unfold dsys_step in H.
  pose proof (probes_nonneg (ds_callers s)) as Hp0. destruct (now <? ds_now s); [done|].
  destruct (ds_callers s !! i) as [[|probe| |]|] eqn:Ei; try done.
  - pose proof (acquire_inv now (ds_record s) (probes (ds_callers s)) ltac:(lia) ltac:(lia) Hp0 Hi Hs) as Ha.
    destruct (cb_acquire openTimeout halfOpenMax now (ds_record s)) as [r ost]. simplify_eq/=.
    unfold record_inv. cbn [ds_record ds_callers]. rewrite (probes_insert _ _ _ _ Ei). cbn [probing_pc] in *.
    destruct Ha as [Hs' Hi']. split; [|done]. destruct r as [|dec [|z rest]]; cbn in *; [lia|lia|].
    destruct (dec =? 0); cbn in *; [|lia]. destruct (z =? 1); cbn in *; lia.
  - simplify_eq. unfold record_inv. cbn [ds_record ds_callers]. pose proof (probes_insert _ _ _ DDone Ei) as Hp.
    pose proof (probes_nonneg (<[i := DDone]> (ds_callers s))) as Hp1. cbn [probing_pc] in Hp.
    destruct (record_step_inv (if failed then 1 else 0) failureThreshold successThreshold (if probe then 1 else 0) now
      (ds_record s) (probes (<[i := DDone]> (ds_callers s)))) as [H1 H2]; [done| |done|done].
    destruct probe; cbn in *; lia.
Qed.
End races.

(** The shared probe counter is bounded and never overcounts: under any
    interleaving of any number of callers, one script evaluation a step, the
    record is in one of the three states and its in-flight count is between
    zero and both [HalfOpenMaxRequests] and the number of probes running. *)
Theorem distributed_inflight_bounded ot hm ft st n s :
  1 <= hm <= max_int64 -> dreachable ot hm ft st n s ->
  0 <= cs_inflight (ds_record s) <= Z.min hm (probes (ds_callers s)) /\
  (cs_state (ds_record s) = 0 \/ cs_state (ds_record s) = 1 \/ cs_state (ds_record s) = 2).
Proof.
  intros Hm Hr. assert (record_inv hm (mkDSys zero_cbState 0 (replicate n DIdle))) as H0.
  { split; [|by left]. pose proof (probes_nonneg (replicate n DIdle)).
    cbn [ds_record ds_callers zero_cbState cs_inflight]. lia. }
  unfold dreachable in Hr. revert H0. induction Hr as [|s1 s2 s3 Hs _ IH]; intros H0; [exact H0|].
  apply IH. by eapply record_inv_step.
Qed.

(** A call that started while the breaker was closed fails while it is
    half-open; the probe of the previous episode still runs. *)
Definition straggler_sched : list (nat * Z * bool) :=
  [(0%nat, 1, true); (1%nat, 1, true); (0%nat, 1, true); (2%nat, 11, true); (1%nat, 12, true); (3%nat, 22, true)].

Definition straggler_end : option dsys :=
  drun_schedule 10 1 1 1 (mkDSys zero_cbState 0 (replicate 4 DIdle)) straggler_sched.

Lemma distributed_inflight_bounded_witness :
  exists s, straggler_end = Some s /\
    0 <= cs_inflight (ds_record s) <= Z.min 1 (probes (ds_callers s)) /\
    (cs_state (ds_record s) = 0 \/ cs_state (ds_record s) = 1 \/ cs_state (ds_record s) = 2).
Proof.
  destruct straggler_end as [s|] eqn:E; [|vm_compute in E; discriminate]. exists s. split; [done|].
  apply (distributed_inflight_bounded 10 1 1 1 4 s); [go_lia|]. by apply (drun_schedule_rtc _ _ _ _ _ straggler_sched).
Defined.

(** The probe limit can be exceeded across instances: opening the circuit
    and starting a new episode set the in-flight count to zero although a probe
    of the earlier episode is still running, and a failure of a call that is
    not a probe reopens the circuit; two probes run with [HalfOpenMaxRequests]
    one. *)
Theorem distributed_probe_limit_exceeded :
  exists s, dreachable 10 1 1 1 4 s /\ probes (ds_callers s) = 2 /\ cs_inflight (ds_record s) = 1.
Proof.
  destruct straggler_end as [s|] eqn:E; [|vm_compute in E; discriminate]. exists s. split.
  - by apply (drun_schedule_rtc _ _ _ _ _ straggler_sched).
  - vm_compute in E. injection E as <-. done.
Qed.
