(* ===== verification/DistLimiters.v ===== *)
(** * The distributed limiters ([ratelimit/*/distributed*.go]).

    A distributed limiter keeps no state of its own: it names a key, evaluates
    a script of the store and decodes the reply.  The store is an interface;
    the in-memory store is its instance here. *)

From Stdlib Require Import Floats Ascii Sorting.Sorted.
From S2P Require Import Prelude Float64 Strconv Ratelimit StoreMemory StoreScripts StoreAtomic.
Open Scope Z_scope.

(** ** The store as the limiters see it *)

(** [ss_reads]: the clock readings of one evaluation. *)
Class ScriptStore (St : Type) := {
  ss_reads : Type;
  ss_Eval : ss_reads -> ScriptID -> list string -> list arg -> St -> (store_error + reply) * St;
  ss_Del : list string -> St -> (store_error + reply) * St;
}.

(** The in-memory store. *)
Definition memory_store (max : Z) (mode : bool) : ScriptStore Memory := {|
  ss_reads := script_reads;
  ss_Eval rd id keys args m := run (store_Eval max mode rd id keys args) m;
  ss_Del keys m := run (Del max keys) m;
|}.

(** [result.([]any)] with at least [k] elements, all of them int64. *)
Definition reply_ints (k : nat) (r : store_error + reply) : option (list Z) :=
  match r with
  | inr (RList zs) => if (length zs <? k)%nat then None else Some zs
  | _ => None
  end.

Definition at_ (zs : list Z) (i : nat) : Z := default 0 (zs !! i).

(** [ratelimit.Result{Allowed: false, Limit: limit, Algorithm: algo}]. *)
Definition denied (limit : Z) (algo : string) : Result := mkResult false limit 0 0 0 algo ∅.

Definition default_prefix (prefix : string) : string := if decide (prefix = "") then "rl" else prefix.

Definition Milliseconds (d : duration) : Z := Z.quot d Millisecond.

Definition server_flag (b : bool) : arg := ArgInt (if b then 1 else 0).

(** The instants a call takes: the caller's clock, and those of the store. *)
Record client_reads (R : Type) := mkClientReads { cr_now : time; cr_store : R }.
Arguments mkClientReads {R}. Arguments cr_now {R}. Arguments cr_store {R}.

(** ** Polling, as every [WaitN] does

    A turn of the loop: the instants of the attempt, whether the context has
    ended when it is checked after a refusal, and whether the timer or the
    context ends the [select]. *)
Record turn (R : Type) := mkTurn { tn_reads : client_reads R; tn_ended : bool; tn_timer : bool }.
Arguments mkTurn {R}. Arguments tn_reads {R}. Arguments tn_ended {R}. Arguments tn_timer {R}.

Inductive wait_error := CtxErr | Failed (e : error).
Inductive poll_result := Finished (err : option wait_error) | Waiting.

Section poll.
Context {St R : Type} (attempt : client_reads R -> St -> outcome (Result * St)).
(** The error when the context has ended after a refusal, and when it ends the wait. *)
Context (ended stopped : Result -> wait_error).

Fixpoint poll (turns : list (turn R)) (s : St) : outcome (poll_result * St) :=
  match turns with
  | [] => Ok (Waiting, s)
  | t :: turns =>
      '(res, s) ← attempt (tn_reads t) s;
      if Allowed res then Ok (Finished None, s)
      else if tn_ended t then Ok (Finished (Some (ended res)), s)
      else if tn_timer t then poll turns s
      else Ok (Finished (Some (stopped res)), s)
  end.

End poll.

Definition ctx_err (_ : Result) : wait_error := CtxErr.

(** ** Fixed window ([fixedwindow/distributed.go]) *)

Module DFixedWindow.

Definition distributedAlgorithmName : string := "distributed_fixed_window".

Record DistributedFixedWindow := mkD { limit : Z; window : duration; prefix : string }.

Definition NewDistributed (limit : Z) (window : duration) (prefix : string) : DistributedFixedWindow :=
  mkD limit window (default_prefix prefix).

Definition windowStart (d : DistributedFixedWindow) (now : time) : outcome Z :=
  q ← go_quot (UnixNano now) (window d); Ok (q *w window d).

Definition key_of (d : DistributedFixedWindow) (key : string) (ws : Z) : string :=
  prefix d +:+ ":fixedwindow:" +:+ key +:+ ":" +:+ FormatInt ws.

Definition windowKey (d : DistributedFixedWindow) (key : string) (now : time) : outcome string :=
  ws ← windowStart d now; Ok (key_of d key ws).

Section ops.
Context {St : Type} `{ScriptStore St} (d : DistributedFixedWindow).

Definition AllowN (rd : client_reads ss_reads) (key : string) (n : Z) (s : St) : outcome (Result * St) :=
  let refused := denied (limit d) distributedAlgorithmName in
  if ValidateKey key then Ok (refused, s)
  else if ValidateN n then Ok (refused, s)
  else
    let now := cr_now rd in
    wKey ← windowKey d key now;
    windowStartNs ← windowStart d now;
    let nextWindowAt := Unix0 (windowStartNs +w window d) in
    let retryAfter := time_sub nextWindowAt now in
    let ttlMs := Milliseconds (window d *w 2) in
    let '(result, s) := ss_Eval (cr_store rd) FixedWindowScriptID [wKey]
                          [ArgInt (limit d); ArgInt n; ArgInt ttlMs] s in
    match reply_ints 2 result with
    | None => Ok (refused, s)
    | Some arr =>
        if negb (at_ arr 0 =? 1) then
          Ok (mkResult false (limit d) 0 retryAfter retryAfter distributedAlgorithmName ∅, s)
        else
          let remaining := limit d -w at_ arr 1 in
          let remaining := if remaining <? 0 then 0 else remaining in
          Ok (mkResult true (limit d) remaining retryAfter 0 distributedAlgorithmName ∅, s)
    end.

Definition Allow (rd : client_reads ss_reads) (key : string) (s : St) : outcome (Result * St) := AllowN rd key 1 s.

Definition WaitN (key : string) (n : Z) (turns : list (turn ss_reads)) (s : St) : outcome (poll_result * St) :=
  poll (fun rd => AllowN rd key n) ctx_err ctx_err turns s.

Definition Peek (key : string) : State := mkState key distributedAlgorithmName (limit d) 0 zero_time zero_time ∅.

Definition Reset (now : time) (key : string) (s : St) : outcome ((store_error + reply) * St) :=
  wKey ← windowKey d key now; Ok (ss_Del [wKey] s).

End ops.
End DFixedWindow.

(** ** GCRA ([gcra/distributed.go]) *)

Module DGcra.

Definition distributedAlgorithmName : string := "distributed_gcra".

Record DistributedGCRA := mkD { emissionInterval : duration; burst : Z; prefix : string; useServerTime : bool }.

Definition WithServerTime (on : bool) (d : DistributedGCRA) : DistributedGCRA :=
  mkD (emissionInterval d) (burst d) (prefix d) on.

(** [mode]: what [ServerTimeMode] of the store says, if it has one. *)
Definition NewDistributed (rate : f64) (burst : Z) (prefix : string) (mode : option bool)
    (opts : list (DistributedGCRA -> DistributedGCRA)) : DistributedGCRA :=
  foldl (fun d opt => opt d)
    (mkD (f64_to_int64 (f64_of_Z Second / rate)%float) burst (default_prefix prefix) (default false mode)) opts.

Definition redisKey (d : DistributedGCRA) (key : string) : string := prefix d +:+ ":gcra:" +:+ key.

Section ops.
Context {St : Type} `{ScriptStore St} (d : DistributedGCRA).

Definition AllowN (rd : client_reads ss_reads) (key : string) (n : Z) (s : St) : outcome (Result * St) :=
  let refused := denied (burst d) distributedAlgorithmName in
  if ValidateKey key then Ok (refused, s)
  else if ValidateN n then Ok (refused, s)
  else if burst d <? n then Ok (refused, s)
  else
    let nowNs := UnixNano (cr_now rd) in
    let ttlMs := Z.quot (emissionInterval d *w burst d) Millisecond in
    let ttlMs := if ttlMs <? 1000 then 1000 else ttlMs in
    let '(result, s) := ss_Eval (cr_store rd) GCRAScriptID [redisKey d key]
                          [ArgInt (emissionInterval d); ArgInt (burst d); ArgInt n; ArgInt nowNs; ArgInt ttlMs;
                           server_flag (useServerTime d)] s in
    match reply_ints 2 result with
    | None => Ok (denied_zero distributedAlgorithmName, s)
    | Some arr => Ok (mkResult (at_ arr 0 =? 1) 0 0 0 (at_ arr 1) distributedAlgorithmName ∅, s)
    end.

Definition WaitN (key : string) (n : Z) (turns : list (turn ss_reads)) (s : St) : outcome (poll_result * St) :=
  poll (fun rd => AllowN rd key n) ctx_err ctx_err turns s.

Definition Peek (key : string) : State := mkState key distributedAlgorithmName 0 0 zero_time zero_time ∅.

Definition Reset (key : string) (s : St) : (store_error + reply) * St := ss_Del [redisKey d key] s.

End ops.
End DGcra.

(** ** Token bucket ([tokenbucket/distributed.go]) *)

Module DTokenBucket.

Definition distributedAlgorithmName : string := "distributed_token_bucket".

(** [refillRate]: tokens per nanosecond. *)
Record DistributedTokenBucket := mkD { capacity : f64; refillRate : f64; prefix : string; useServerTime : bool }.

Definition WithServerTime (on : bool) (d : DistributedTokenBucket) : DistributedTokenBucket :=
  mkD (capacity d) (refillRate d) (prefix d) on.

Definition NewDistributed (rate capacity : f64) (prefix : string) (mode : option bool)
    (opts : list (DistributedTokenBucket -> DistributedTokenBucket)) : DistributedTokenBucket :=
  foldl (fun d opt => opt d)
    (mkD capacity (rate / f64_of_Z Second)%float (default_prefix prefix) (default false mode)) opts.

Definition redisKey (d : DistributedTokenBucket) (key : string) : string := prefix d +:+ ":tokenbucket:" +:+ key.

Section ops.
Context {St : Type} `{ScriptStore St} (d : DistributedTokenBucket).

(** The time to refill the bucket and one second more. *)
Definition ttlMs : Z := f64_to_int64 (capacity d / refillRate d / f64_of_Z Millisecond)%float +w 1000.

Definition AllowN (rd : client_reads ss_reads) (key : string) (n : Z) (s : St) : outcome (Result * St) :=
  let limit := f64_to_int64 (capacity d) in
  let refused := denied limit distributedAlgorithmName in
  if ValidateKey key then Ok (refused, s)
  else if ValidateN n then Ok (refused, s)
  else
    let nowNs := UnixNano (cr_now rd) in
    let '(result, s) := ss_Eval (cr_store rd) TokenBucketScriptID [redisKey d key]
                          [ArgFloat (capacity d); ArgFloat (refillRate d); ArgInt n; ArgInt nowNs; ArgInt ttlMs;
                           server_flag (useServerTime d)] s in
    match reply_ints 2 result with
    | None => Ok (refused, s)
    | Some arr => Ok (mkResult (at_ arr 0 =? 1) limit (at_ arr 1) 0 0 distributedAlgorithmName ∅, s)
    end.

Definition Allow (rd : client_reads ss_reads) (key : string) (s : St) : outcome (Result * St) := AllowN rd key 1 s.

(** The wait between two attempts. *)
Definition waitFor (n : Z) : duration := f64_to_int64 (f64_of_Z n / refillRate d)%float +w Millisecond.

Definition WaitN (key : string) (n : Z) (turns : list (turn ss_reads)) (s : St) : outcome (poll_result * St) :=
  poll (fun rd => AllowN rd key n) ctx_err ctx_err turns s.

Definition Peek (key : string) : State :=
  mkState key distributedAlgorithmName (f64_to_int64 (capacity d)) 0 zero_time zero_time ∅.

Definition Reset (key : string) (s : St) : (store_error + reply) * St := ss_Del [redisKey d key] s.

End ops.
End DTokenBucket.

(** ** Leaky bucket ([leakybucket/distributed.go]) *)

Module DLeaky.

Definition distributedAlgorithmName : string := "distributed_leaky_bucket".

Record DistributedLeakyBucket := mkD {
  emissionInterval : duration; capacity : Z; leakRate : f64; prefix : string; useServerTime : bool }.

Definition WithServerTime (on : bool) (d : DistributedLeakyBucket) : DistributedLeakyBucket :=
  mkD (emissionInterval d) (capacity d) (leakRate d) (prefix d) on.

Definition NewDistributed (capacity : Z) (leakRate : f64) (prefix : string) (mode : option bool)
    (opts : list (DistributedLeakyBucket -> DistributedLeakyBucket)) : outcome DistributedLeakyBucket :=
  if capacity <=? 0 then Panic "leakybucket.NewDistributed: capacity must be > 0"
  else if PrimFloat.leb leakRate 0 then Panic "leakybucket.NewDistributed: leakRate must be > 0"
  else
    Ok (foldl (fun d opt => opt d)
          (mkD (f64_to_int64 (f64_of_Z Second / leakRate)%float) capacity leakRate (default_prefix prefix)
             (default false mode)) opts).

Definition redisKey (d : DistributedLeakyBucket) (key : string) : string := prefix d +:+ ":leakybucket:" +:+ key.

Section ops.
Context {St : Type} `{ScriptStore St} (d : DistributedLeakyBucket).

Definition AllowN (rd : client_reads ss_reads) (key : string) (n : Z) (s : St) : outcome (Result * St) :=
  let refused := denied (capacity d) distributedAlgorithmName in
  if ValidateKey key then Ok (refused, s)
  else if ValidateN n then Ok (refused, s)
  else if capacity d <? n then Ok (refused, s)
  else
    let nowNs := UnixNano (cr_now rd) in
    let ttlMs := Z.quot (emissionInterval d *w capacity d) Millisecond +w 1000 in
    let ttlMs := if ttlMs <? 1000 then 1000 else ttlMs in
    let '(result, s) := ss_Eval (cr_store rd) LeakyBucketScriptID [redisKey d key]
                          [ArgInt (emissionInterval d); ArgInt (capacity d); ArgInt n; ArgInt nowNs; ArgInt ttlMs;
                           server_flag (useServerTime d)] s in
    match reply_ints 3 result with
    | None => Ok (refused, s)
    | Some arr =>
        let remaining := capacity d -w at_ arr 1 in
        let remaining := if remaining <? 0 then 0 else remaining in
        Ok (mkResult (at_ arr 0 =? 1) (capacity d) remaining 0 (at_ arr 2) distributedAlgorithmName ∅, s)
    end.

Definition waitFor (res : Result) : duration := if RetryAfter res <=? 0 then emissionInterval d else RetryAfter res.

Definition WaitN (key : string) (n : Z) (turns : list (turn ss_reads)) (s : St) : outcome (poll_result * St) :=
  match ValidateKey key, ValidateN n with
  | Some e, _ | None, Some e => Ok (Finished (Some (Failed (ESentinel e))), s)
  | None, None =>
      if capacity d <? n then
        Ok (Finished (Some (Failed (RateLimitError distributedAlgorithmName key (capacity d) 0 ErrLimitExceeded))), s)
      else
        poll (fun rd => AllowN rd key n)
          (fun res => Failed (RateLimitError distributedAlgorithmName key (capacity d) (RetryAfter res) ErrContextDone))
          (fun res => Failed (RateLimitError distributedAlgorithmName key (capacity d) (waitFor res) ErrContextDone))
          turns s
  end.

Definition Peek (key : string) : State := mkState key distributedAlgorithmName (capacity d) 0 zero_time zero_time ∅.

Definition Reset (key : string) (s : St) : (store_error + reply) * St := ss_Del [redisKey d key] s.

End ops.
End DLeaky.

(** ** Sliding window log ([slidingwindow/distributed_log.go]) *)

Module DLog.

Definition distributedLogAlgorithmName : string := "distributed_sliding_window_log".

(** [seq]: the calls numbered so far. *)
Record DistributedSlidingWindowLog := mkD {
  limit : Z; window : duration; prefix : string; useServerTime : bool; seq : Z }.

Definition WithServerTime (on : bool) (d : DistributedSlidingWindowLog) : DistributedSlidingWindowLog :=
  mkD (limit d) (window d) (prefix d) on (seq d).

Definition NewDistributedLog (limit : Z) (window : duration) (prefix : string) (mode : option bool)
    (opts : list (DistributedSlidingWindowLog -> DistributedSlidingWindowLog)) : DistributedSlidingWindowLog :=
  foldl (fun d opt => opt d) (mkD limit window (default_prefix prefix) (default false mode) 0) opts.

Definition redisKey (d : DistributedSlidingWindowLog) (key : string) : string := prefix d +:+ ":swlog:" +:+ key.

(** [d.seq.Add(1)]. *)
Definition next_seq (d : DistributedSlidingWindowLog) : DistributedSlidingWindowLog :=
  mkD (limit d) (window d) (prefix d) (useServerTime d) ((seq d + 1) mod 2 ^ 64).

(** ["%d-%d"] of the instant and the sequence number, a uint64. *)
Definition entryID (nowNs q : Z) : string := FormatInt nowNs +:+ "-" +:+ digits_of 20 q "".

Section ops.
Context {St : Type} `{ScriptStore St}.

Definition AllowN (rd : client_reads ss_reads) (key : string) (n : Z) (ds : DistributedSlidingWindowLog * St)
  : outcome (Result * (DistributedSlidingWindowLog * St)) :=
  let '(d, s) := ds in
  let refused := denied (limit d) distributedLogAlgorithmName in
  if ValidateKey key then Ok (refused, (d, s))
  else if ValidateN n then Ok (refused, (d, s))
  else
    let nowNs := UnixNano (cr_now rd) in
    let ttlMs := Milliseconds (window d) +w 1000 in
    let d := next_seq d in
    let '(result, s) := ss_Eval (cr_store rd) SlidingWindowLogScriptID [redisKey d key]
                          [ArgInt (limit d); ArgInt (window d); ArgInt nowNs; ArgStr (entryID nowNs (seq d));
                           ArgInt ttlMs; ArgInt n; server_flag (useServerTime d)] s in
    match reply_ints 3 result with
    | None => Ok (refused, (d, s))
    | Some arr =>
        let remaining := limit d -w at_ arr 1 in
        let remaining := if remaining <? 0 then 0 else remaining in
        Ok (mkResult (at_ arr 0 =? 1) (limit d) remaining 0 (at_ arr 2) distributedLogAlgorithmName ∅, (d, s))
    end.

Definition WaitN (key : string) (n : Z) (turns : list (turn ss_reads)) (ds : DistributedSlidingWindowLog * St)
  : outcome (poll_result * (DistributedSlidingWindowLog * St)) :=
  poll (fun rd => AllowN rd key n) ctx_err ctx_err turns ds.

Definition Peek (d : DistributedSlidingWindowLog) (key : string) : State :=
  mkState key distributedLogAlgorithmName (limit d) 0 zero_time zero_time ∅.

Definition Reset (d : DistributedSlidingWindowLog) (key : string) (s : St) : (store_error + reply) * St :=
  ss_Del [redisKey d key] s.

End ops.
End DLog.

(** ** Sliding window counter ([slidingwindow/distributed_counter.go]) *)

Module DCounter.

Definition distributedCounterAlgorithmName : string := "distributed_sliding_window_counter".

Record DistributedSlidingWindowCounter := mkD { limit : Z; window : duration; prefix : string }.

Definition NewDistributedCounter (limit : Z) (window : duration) (prefix : string) : DistributedSlidingWindowCounter :=
  mkD limit window (default_prefix prefix).

Definition windowKey (d : DistributedSlidingWindowCounter) (key : string) (ws : Z) : string :=
  prefix d +:+ ":swcnt:" +:+ key +:+ ":" +:+ FormatInt ws.

Definition currentAndPrevWindowStart (d : DistributedSlidingWindowCounter) (now : time) : outcome (Z * Z) :=
  q ← go_quot (UnixNano now) (window d);
  let current := q *w window d in Ok (current, current -w window d).

(** The share of the window that has elapsed, in millionths. *)
Definition fracMillionths (d : DistributedSlidingWindowCounter) (elapsed : duration) : Z :=
  let fraction := (f64_of_Z elapsed / f64_of_Z (window d))%float in
  let fraction := if PrimFloat.ltb fraction 0 then 0%float else fraction in
  let fraction := if f64_gtb fraction 1 then 1%float else fraction in
  f64_to_int64 (fraction * f64_of_Z 1000000)%float.

Section ops.
Context {St : Type} `{ScriptStore St} (d : DistributedSlidingWindowCounter).

Definition AllowN (rd : client_reads ss_reads) (key : string) (n : Z) (s : St) : outcome (Result * St) :=
  let refused := denied (limit d) distributedCounterAlgorithmName in
  if ValidateKey key then Ok (refused, s)
  else if ValidateN n then Ok (refused, s)
  else
    let now := cr_now rd in
    '(currentWindowStart, prevWindowStart) ← currentAndPrevWindowStart d now;
    let elapsed := time_sub now (Unix0 currentWindowStart) in
    let currentTTLms := Milliseconds ((2 *w window d) -w elapsed) in
    let currentTTLms := if currentTTLms <? Milliseconds (window d) then Milliseconds (window d) else currentTTLms in
    let retryAfter := time_sub (Unix0 (currentWindowStart +w window d)) now in
    let '(result, s) := ss_Eval (cr_store rd) SlidingWindowCounterScriptID
                          [windowKey d key currentWindowStart; windowKey d key prevWindowStart]
                          [ArgInt (limit d); ArgInt n; ArgInt (fracMillionths d elapsed); ArgInt currentTTLms] s in
    match reply_ints 2 result with
    | None => Ok (refused, s)
    | Some arr =>
        if negb (at_ arr 0 =? 1) then
          Ok (mkResult false (limit d) 0 0 retryAfter distributedCounterAlgorithmName ∅, s)
        else
          let remaining := limit d -w at_ arr 1 in
          let remaining := if remaining <? 0 then 0 else remaining in
          Ok (mkResult true (limit d) remaining retryAfter 0 distributedCounterAlgorithmName ∅, s)
    end.

Definition WaitN (key : string) (n : Z) (turns : list (turn ss_reads)) (s : St) : outcome (poll_result * St) :=
  poll (fun rd => AllowN rd key n) ctx_err ctx_err turns s.

Definition Peek (key : string) : State := mkState key distributedCounterAlgorithmName (limit d) 0 zero_time zero_time ∅.

Definition Reset (now : time) (key : string) (s : St) : outcome ((store_error + reply) * St) :=
  '(current, prev) ← currentAndPrevWindowStart d now;
  Ok (ss_Del [windowKey d key current; windowKey d key prev] s).

End ops.
End DCounter.

(** ** Keys of different windows and callers are different *)

Lemma app_string_inj_l s t t' : s +:+ t = s +:+ t' -> t = t'.
Proof. induction s as [|c s IH]; [done|]. rewrite !app_string_cons. intros [= E]. by apply IH. Qed.

(** The last separator is found again. *)
Lemma last_separator (c : ascii) s s' t t' : avoids (fun x => Ascii.eqb x c) t -> avoids (fun x => Ascii.eqb x c) t' ->
  s +:+ String c t = s' +:+ String c t' -> s = s' /\ t = t'.
Proof.
  assert (Hno : forall u r, avoids (fun x => Ascii.eqb x c) (u +:+ String c r) -> False).
  { induction u as [|x u IH]; intros r; [intros [E _]; by rewrite Ascii.eqb_refl in E|].
    rewrite app_string_cons. intros [_ H]. by apply IH in H. }
  intros Ht Ht'. revert s'. induction s as [|x s IH]; intros [|x' s']; rewrite ?app_string_cons.
  - by intros [= ->].
  - intros [= -> ->]. by apply Hno in Ht.
  - intros [= -> <-]. by apply Hno in Ht'.
  - intros [= -> E]. by destruct (IH _ E) as [-> ->].
Qed.

Lemma FormatInt_no_colon z : in64 z -> avoids (fun x => Ascii.eqb x ":"%char) (FormatInt z).
Proof.
  intros Hz. apply FormatInt_avoids; [done|done|]. intros e He.
  assert (e = 0 \/ e = 1 \/ e = 2 \/ e = 3 \/ e = 4 \/ e = 5 \/ e = 6 \/ e = 7 \/ e = 8 \/ e = 9) as Hc by lia.
  by repeat (destruct Hc as [-> |Hc]; [done|]); subst.
Qed.

Lemma FormatInt_inj z z' : in64 z -> in64 z' -> FormatInt z = FormatInt z' -> z = z'.
Proof. intros H H' E. pose proof (ParseInt_FormatInt z H) as P. rewrite E, ParseInt_FormatInt in P by done. by injection P. Qed.

Lemma window_key_inj pre k k' ws ws' : in64 ws -> in64 ws' ->
  pre +:+ k +:+ ":" +:+ FormatInt ws = pre +:+ k' +:+ ":" +:+ FormatInt ws' -> k = k' /\ ws = ws'.
Proof.
  intros H H' E. apply app_string_inj_l in E.
  change (":" +:+ FormatInt ws) with (String ":"%char (FormatInt ws)) in E.
  change (":" +:+ FormatInt ws') with (String ":"%char (FormatInt ws')) in E.
  apply last_separator in E as [-> E]; [|by apply FormatInt_no_colon..]. split; [done|by apply FormatInt_inj].
Qed.

(** ** The fixed window over the in-memory store *)

Section fixed_window.
Import DFixedWindow.
Context (max : Z) (mode : bool) (d : DistributedFixedWindow).
#[local] Instance mem_store : ScriptStore Memory := memory_store max mode.

Hypothesis Hmax : max <= 0.
Hypothesis Hlim : 0 <= limit d <= max_int64.
Hypothesis Hwin : Millisecond <= window d /\ 2 * window d <= max_int64.

(** A request and its instants: the script starts less than a window, less a millisecond, after the caller's clock was read. *)
Record request := mkRequest { q_reads : client_reads script_reads; q_key : string; q_n : Z }.

Definition request_ok (q : request) : Prop :=
  0 <= cr_now (q_reads q) <= max_int64 - window d /\
  cr_now (q_reads q) <= sr_ttl (cr_store (q_reads q)) /\
  sr_load (cr_store (q_reads q)) <= cr_now (q_reads q) + window d - Millisecond /\
  q_n q <= max_int64 - limit d.

(** The answers to a sequence of requests. *)
Fixpoint serve (m : Memory) (qs : list request) : outcome (list (request * bool) * Memory) :=
  match qs with
  | [] => Ok ([], m)
  | q :: qs =>
      '(res, m) ← AllowN d (q_reads q) (q_key q) (q_n q) m;
      '(rs, m) ← serve m qs;
      Ok ((q, Allowed res) :: rs, m)
  end.

Definition aligned (t : time) : Z := t / window d * window d.

(** The cost granted to [key] in the window that starts at [ws]. *)
Definition granted_to (key : string) (ws : Z) (rs : list (request * bool)) : Z :=
  zsum (map (fun r => if bool_decide (snd r = true /\ q_key (fst r) = key /\ aligned (cr_now (q_reads (fst r))) = ws)
                      then q_n (fst r) else 0) rs).

Lemma windowStart_aligned t : 0 <= t <= max_int64 - window d ->
  windowStart d t = Ok (aligned t) /\ aligned t <= t < aligned t + window d /\ in64 (aligned t).
Proof.
  intros Ht. unfold windowStart, go_quot, aligned. unfold Millisecond in Hwin.
  assert (0 < window d) by lia. rewrite (proj2 (Z.eqb_neq (window d) 0)) by lia.
  pose proof (Z.div_mod t (window d)). pose proof (Z.mod_pos_bound t (window d)).
  assert (0 <= t / window d) by (apply Z.div_pos; lia). assert (t / window d <= t) by nia.
  unfold UnixNano. rewrite (wrap64_small t) by go_lia. rewrite Z.quot_div_nonneg by lia. cbn.
  rewrite (wrap64_small (t / window d)) by go_lia. rewrite wrap64_small by (unfold in64, min_int64, max_int64 in *; nia).
  split_and!; [done|nia|nia|]. unfold in64, min_int64, max_int64 in *; nia.
Qed.

Lemma ttl_spec : let ttl := Milliseconds (window d *w 2) in
  0 < ttl /\ in64 (ttl * Millisecond) /\ 2 * window d - Millisecond < ttl * Millisecond <= 2 * window d.
Proof.
  cbv zeta. unfold Milliseconds, Millisecond, max_int64 in *. rewrite wrap64_small by go_lia.
  pose proof (Z.quot_rem' (window d * 2) 1000000). pose proof (Z.rem_bound_pos (window d * 2) 1000000).
  split_and!; go_lia.
Qed.

(** What the store holds for a window in which [g] has been granted. *)
Definition holds (m : Memory) (key : string) (ws g : Z) : Prop :=
  0 <= g <= limit d /\
  match view m (key_of d key ws) with
  | None => g = 0
  | Some e => parseCounter (value e) = g /\
      (expiresAt e = zero_time \/ ws + 2 * window d - Millisecond < expiresAt e)
  end.

Lemma holds_found m key ws g t : holds m key ws g -> t <= ws + 2 * window d - Millisecond ->
  parseCounter (value (found m (key_of d key ws) t)) = g /\
  (expiresAt (found m (key_of d key ws) t) = zero_time \/
   ws + 2 * window d - Millisecond < expiresAt (found m (key_of d key ws) t)).
Proof.
  intros [Hg Hv] Ht. unfold found. destruct (view m (key_of d key ws)) as [e|]; [|by subst; split; [|left]].
  destruct Hv as [Hp He]. assert (isExpired e t = false) as ->; [|done].
  unfold isExpired, IsZero, After. destruct He as [-> |He]; [by rewrite Z.eqb_refl|].
  apply andb_false_iff. right. apply Z.ltb_ge. lia.
Qed.

Definition cost_of (q : request) (ok : bool) (key : string) (ws : Z) : Z :=
  if bool_decide (ok = true /\ q_key q = key /\ aligned (cr_now (q_reads q)) = ws) then q_n q else 0.

Lemma fixedWindow_body_spec e n t g : parseCounter (value e) = g -> 0 <= g <= limit d -> 1 <= n <= max_int64 - limit d ->
  let '(e', r) := fixedWindow_body (limit d) n (Milliseconds (window d *w 2)) t e in
  if limit d <? g + n then e' = e /\ r = inr (RList [0; g])
  else r = inr (RList [1; g + n]) /\ parseCounter (value e') = g + n /\
    (expiresAt e' = expiresAt e \/ expiresAt e' = t + Milliseconds (window d *w 2) * Millisecond).
Proof.
  intros Hp Hg Hn. unfold fixedWindow_body. rewrite Hp, wrap64_small by go_lia.
  destruct (limit d <? g + n) eqn:E; [done|]. apply Z.ltb_ge in E. destruct ttl_spec as (Ht & Hin & _).
  split; [done|]. split.
  - transitivity (parseCounter (FormatInt (g + n))); [|apply parseCounter_Format; go_lia].
    destruct (g =? 0); [by rewrite setTTL_value|done].
  - destruct (g =? 0); [|by left]. right. unfold setEntryTTLmsAbs. rewrite (proj2 (Z.leb_gt _ _)) by done.
    cbn. unfold time_add. by rewrite wrap64_small by done.
Qed.

(** One window changes, the others keep what they hold. *)
Lemma holds_update m m' q (ok : bool) e' G : (forall key ws, in64 ws -> holds m key ws (G key ws)) ->
  let ws := aligned (cr_now (q_reads q)) in
  let g := G (q_key q) ws + (if ok then q_n q else 0) in
  in64 ws -> view m' (key_of d (q_key q) ws) = Some e' ->
  (forall k, k <> key_of d (q_key q) ws -> view m' k = view m k) ->
  parseCounter (value e') = g -> 0 <= g <= limit d ->
  (expiresAt e' = zero_time \/ ws + 2 * window d - Millisecond < expiresAt e') ->
  forall key ws', in64 ws' -> holds m' key ws' (G key ws' + cost_of q ok key ws').
Proof.
  intros HG ws g Hin Hv Hf Hp Hg He key ws' Hin'. unfold cost_of. fold ws.
  destruct (decide (q_key q = key /\ ws = ws')) as [[<- <-]|Hne].
  - replace (G (q_key q) ws + _) with g by (unfold g; destruct ok; [by rewrite bool_decide_eq_true_2|done]).
    split; [done|]. by rewrite Hv.
  - rewrite bool_decide_eq_false_2 by naive_solver. rewrite Z.add_0_r. destruct (HG key ws' Hin') as [H1 H2].
    split; [done|]. rewrite Hf; [done|]. intros E. apply Hne. unfold key_of in E.
    rewrite !(app_string_assoc (prefix d)) in E. apply window_key_inj in E as [-> ->]; done.
Qed.

Lemma fw_allow_step m q G : wf m -> request_ok q -> (forall key ws, in64 ws -> holds m key ws (G key ws)) ->
  exists res m', AllowN d (q_reads q) (q_key q) (q_n q) m = Ok (res, m') /\ wf m' /\
    forall key ws, in64 ws -> holds m' key ws (G key ws + cost_of q (Allowed res) key ws).
Proof.
  intros Hw (Hnow & Httl & Hload & Hn) HG.
  assert (Hrefuse : forall key ws, in64 ws -> holds m key ws (G key ws + cost_of q false key ws)).
  { intros key ws Hws. unfold cost_of. rewrite bool_decide_eq_false_2 by naive_solver. rewrite Z.add_0_r. by apply HG. }
  unfold AllowN. cbv zeta. change (@ss_reads Memory mem_store) with script_reads. destruct (ValidateKey (q_key q)) as [e|]; [by eexists _, m|].
  destruct (ValidateN (q_n q)) as [e|] eqn:En; [by eexists _, m|]. apply ValidateN_ok in En.
  destruct (windowStart_aligned _ Hnow) as (Ews & Hal & Hin). unfold windowKey. rewrite Ews. cbn [mbind outcome_bind]. cbv zeta.
  set (ws := aligned (cr_now (q_reads q))) in *. set (k := key_of d (q_key q) ws).
  destruct (holds_found m (q_key q) ws _ (sr_load (cr_store (q_reads q))) (HG _ _ Hin)) as [Hp He]; [lia|].
  fold k in Hp, He. cbn [ss_Eval mem_store memory_store].
  change (store_Eval _ _ _ _ _ _) with (script_prog max k (fw_section (limit d) (Milliseconds (window d *w 2))
    (mkFwCall (cr_store (q_reads q)) (q_n q)))).
  match goal with |- context [run (script_prog max k ?sec) m] => pose proof (run_script max k sec m Hmax Hw) as Hr end.
  cbn [fw_section sec_load sec_body fc_reads fc_cost] in Hr |- *. destruct (run _ m) as [r m'].
  destruct Hr as (-> & Hw' & Hv & Hframe). destruct (HG (q_key q) ws Hin) as [Hg _].
  pose proof (fixedWindow_body_spec (found m k (sr_load (cr_store (q_reads q)))) (q_n q) (sr_ttl (cr_store (q_reads q))) _ Hp Hg
    ltac:(lia)) as Hb.
  destruct (fixedWindow_body _ _ _ _ _) as [e' r]. cbn [fst snd] in *.
  destruct (Z.ltb_spec (limit d) (G (q_key q) ws + q_n q)); [destruct Hb as [-> ->]|destruct Hb as (-> & Hp' & He')];
    cbn; eexists _, m'; (split; [done|]); (split; [done|]); cbn [Allowed].
  - apply (holds_update m m' q false _ G HG Hin Hv Hframe); [by rewrite Hp, Z.add_0_r|by rewrite Z.add_0_r|done].
  - apply (holds_update m m' q true _ G HG Hin Hv Hframe Hp'); fold ws; [lia|].
    destruct ttl_spec as (_ & _ & Ht), He' as [-> | ->]; [done|]. right. lia.
Qed.

Lemma serve_spec qs m G : wf m -> Forall request_ok qs -> (forall key ws, in64 ws -> holds m key ws (G key ws)) ->
  exists rs m', serve m qs = Ok (rs, m') /\ map fst rs = qs /\
    forall key ws, in64 ws -> G key ws + granted_to key ws rs <= limit d.
Proof.
  intros Hw Hq. revert m G Hw. induction Hq as [|q qs Hq1 Hq IH]; intros m G Hw HG; cbn [serve].
  { exists [], m. split_and!; [done|done|]. intros key ws Hws. destruct (HG key ws Hws) as [Hg _]. cbn. lia. }
  destruct (fw_allow_step m q G Hw Hq1 HG) as (res & m1 & E & Hw1 & H1).
  rewrite E. cbn [mbind outcome_bind]. destruct (IH m1 _ Hw1 H1) as (rs & m' & -> & Hfst & Hb). cbn.
  eexists _, m'. split_and!; [done|by rewrite <- Hfst|]. intros key ws Hws. specialize (Hb key ws Hws).
  unfold granted_to in *. cbn [map snd fst]. unfold cost_of in Hb. unfold zsum in *. cbn. lia.
Qed.

End fixed_window.

(** C32: a distributed fixed window over the in-memory store keeps its limit for every key.  Along any sequence of calls,
    valid or not, of any callers, each of which reaches the store within one window less a millisecond of reading its clock,
    every call returns, and the costs granted to a key in an aligned window add up to at most the limit: calls for other
    keys and other windows do not interfere. *)
Theorem distributed_fixed_window_per_key max mode (d : DFixedWindow.DistributedFixedWindow) qs :
  max <= 0 -> 0 <= DFixedWindow.limit d <= max_int64 ->
  Millisecond <= DFixedWindow.window d /\ 2 * DFixedWindow.window d <= max_int64 ->
  Forall (request_ok d) qs ->
  exists rs m', serve max mode d (NewMemory max) qs = Ok (rs, m') /\ map fst rs = qs /\
    forall key ws, in64 ws -> granted_to d key ws rs <= DFixedWindow.limit d.
Proof.
  intros Hmax Hl Hw Hq.
  destruct (serve_spec max mode d Hmax Hl Hw qs (NewMemory max) (fun _ _ => 0)) as (rs & m' & E & Hf & Hb).
  - split; cbn; [intros k l|intros k1 k2 l]; rewrite lookup_empty; done.
  - done.
  - intros key ws _. split; [lia|done].
  - exists rs, m'. by split_and!.
Qed.

(** Two keys, two windows, a cost that does not fit and an invalid one. *)
Definition demo_requests : list request :=
  let at_t t := mkClientReads t (script_reads_at t) in
  [mkRequest (at_t 1000) "a" 2; mkRequest (at_t 2000) "a" 2; mkRequest (at_t 2500) "b" 3; mkRequest (at_t 3000) "a" 1;
   mkRequest (at_t 4000) "" 1; mkRequest (at_t (Second + 5)) "a" 3].

Lemma distributed_fixed_window_per_key_witness :
  let d := DFixedWindow.NewDistributed 3 Second "" in
  exists rs m', serve 0 false d (NewMemory 0) demo_requests = Ok (rs, m') /\
    map snd rs = [true; false; true; true; false; true] /\ granted_to d "a" 0 rs <= 3.
Proof.
  intros d. destruct (distributed_fixed_window_per_key 0 false d demo_requests) as (rs & m' & E & _ & Hb).
  - lia.
  - cbn; go_lia.
  - cbn; unfold Second, Millisecond; go_lia.
  - repeat (apply Forall_cons_2; [repeat split; vm_compute; congruence|]); apply Forall_nil_2.
  - exists rs, m'. split; [exact E|]. split; [|by apply Hb; go_lia].
    assert (H : (fun x => match x with Ok (rs, _) => map snd rs | Panic _ => [] end) (serve 0 false d (NewMemory 0) demo_requests)
      = [true; false; true; true; false; true]) by (vm_compute; reflexivity).
    rewrite E in H. exact H.
Defined.

(** ** Fail closed *)

(** The script granted: its reply is a list that starts with one, and the store is as the script left it. *)
Definition script_granted {St} `{ScriptStore St} (rd : client_reads ss_reads) (key : string) (n : Z) (s s' : St) : Prop :=
  ValidateKey key = None /\ 1 <= n /\
  exists id keys args zs, ss_Eval (cr_store rd) id keys args s = (inr (RList (1 :: zs)), s').

Lemma reply_ints_one k r zs : reply_ints k r = Some zs -> (at_ zs 0 =? 1) = true -> exists zs', r = inr (RList (1 :: zs')).
Proof.
  unfold reply_ints. destruct r as [|[| | | |zs']]; try done. case_match; [done|]. intros [= ->] E.
  apply Z.eqb_eq in E. destruct zs as [|z zs]; [done|]. cbn in E. subst. eauto.
Qed.

(** Every client unfolds to: validate, evaluate, decode. *)
Ltac fail_closed f :=
  unfold f; cbv zeta;
  lazymatch goal with |- context [ValidateKey ?k] =>
    let Hk := fresh "Hk" in destruct (ValidateKey k) eqn:Hk; [by intros [= <- <-]|] end;
  lazymatch goal with |- context [ValidateN ?n] =>
    let Hn := fresh "Hn" in destruct (ValidateN n) eqn:Hn; [by intros [= <- <-]|]; apply ValidateN_ok in Hn end.

Ltac decode_reply :=
  lazymatch goal with |- context [ss_Eval ?rd ?id ?ks ?as_ ?s] =>
    let r := fresh "r" in let s1 := fresh "s1" in let Er := fresh "Er" in let Ez := fresh "Ez" in let E1 := fresh "E1" in
    destruct (ss_Eval rd id ks as_ s) as [r s1] eqn:Er;
    destruct (reply_ints _ r) as [zs|] eqn:Ez; [|by intros ? ?; simplify_eq];
    destruct (at_ zs 0 =? 1) eqn:E1; cbn; intros ? ?; simplify_eq;
    destruct (reply_ints_one _ _ _ Ez E1) as [? ->]
  end; split; [done|]; split; [done|]; eauto 6.

(** C33: every distributed limiter fails closed: over any store, a call is allowed only if its key and its count are valid and the
    script answered with a list that starts with one.  An error of the store, a reply of another type and one that is too
    short all deny. *)
Theorem distributed_fail_closed {St} `{ScriptStore St} rd key n (s s' : St) res : Allowed res = true ->
  (forall d, DFixedWindow.AllowN d rd key n s = Ok (res, s') -> script_granted rd key n s s') /\
  (forall d, DGcra.AllowN d rd key n s = Ok (res, s') -> script_granted rd key n s s') /\
  (forall d, DLeaky.AllowN d rd key n s = Ok (res, s') -> script_granted rd key n s s') /\
  (forall d d', DLog.AllowN rd key n (d, s) = Ok (res, (d', s')) -> script_granted rd key n s s') /\
  (forall d, DCounter.AllowN d rd key n s = Ok (res, s') -> script_granted rd key n s s') /\
  (forall d, DTokenBucket.AllowN d rd key n s = Ok (res, s') -> script_granted rd key n s s').
Proof.
  intros Ha. split_and!; intros d; [| | |intros d'| |]; intros E; revert E Ha.
  - fail_closed @DFixedWindow.AllowN. unfold DFixedWindow.windowKey.
    destruct (DFixedWindow.windowStart d _) as [ws|]; cbn; [|done]. decode_reply.
  - fail_closed @DGcra.AllowN. case_match; [by intros [= <- <-]|]. decode_reply.
  - fail_closed @DLeaky.AllowN. case_match; [by intros [= <- <-]|]. decode_reply.
  - fail_closed @DLog.AllowN. decode_reply.
  - fail_closed @DCounter.AllowN. destruct (DCounter.currentAndPrevWindowStart d _) as [[w1 w2]|]; cbn; [|done]. decode_reply.
  - fail_closed @DTokenBucket.AllowN. decode_reply.
Qed.

Lemma distributed_fail_closed_witness :
  let d := DGcra.NewDistributed (f64_of_Z 10) 5 "" None [] in
  let rd := mkClientReads Second (script_reads_at Second) in
  exists res s', DGcra.AllowN (H := memory_store 0 false) d rd "a" 2 (NewMemory 0) = Ok (res, s') /\
    script_granted (H := memory_store 0 false) rd "a" 2 (NewMemory 0) s'.
Proof.
  intros d rd. destruct (DGcra.AllowN (H := memory_store 0 false) d rd "a" 2 (NewMemory 0)) as [[res s']|] eqn:E.
  - exists res, s'. split; [done|].
    assert (Ha : (fun x => match x with Ok (r, _) => Allowed r | Panic _ => false end)
      (DGcra.AllowN (H := memory_store 0 false) d rd "a" 2 (NewMemory 0)) = true) by (vm_compute; reflexivity).
    rewrite E in Ha.
    exact (proj1 (proj2 (@distributed_fail_closed Memory (memory_store 0 false) rd "a" 2 (NewMemory 0) s' res Ha)) d E).
  - assert (Ha : (fun x => match x with Ok _ => true | Panic _ => false end)
      (DGcra.AllowN (H := memory_store 0 false) d rd "a" 2 (NewMemory 0)) = true) by (vm_compute; reflexivity).
    by rewrite E in Ha.
Defined.

(** ** Members of the sliding log *)

Lemma digits_no_dash f z : 0 <= z -> avoids (fun x => Ascii.eqb x "-"%char) (digits_of f z "").
Proof.
  intros Hz. apply digits_of_chars; [done| |done]. intros e He.
  assert (e = 0 \/ e = 1 \/ e = 2 \/ e = 3 \/ e = 4 \/ e = 5 \/ e = 6 \/ e = 7 \/ e = 8 \/ e = 9) as Hc by lia.
  by repeat (destruct Hc as [-> |Hc]; [done|]); subst.
Qed.

Lemma digits_of_20_inj q q' : 0 <= q < 2 ^ 64 -> 0 <= q' < 2 ^ 64 -> digits_of 20 q "" = digits_of 20 q' "" -> q = q'.
Proof.
  intros Hq Hq' E. assert (forall z, 0 <= z < 2 ^ 64 -> parse_digits 0 (digits_of 20 z "") = Some z) as H.
  { intros z Hz. destruct (parse_digits_of 20 z "") as (k & H); [change (10 ^ Z.of_nat 20) with 100000000000000000000; lia|].
    by rewrite H. }
  pose proof (H q Hq) as P. rewrite E, H in P by done. by injection P.
Qed.

(** Two calls of one client never add the same member: the sequence number tells them apart, and the position within a
    call the members of one call, even if the clock gives both calls the same instant. *)
Theorem log_members_distinct now now' q q' i i' : 0 <= q < 2 ^ 64 -> 0 <= q' < 2 ^ 64 -> 0 <= i <= max_int64 -> 0 <= i' <= max_int64 ->
  DLog.entryID now q +:+ String "-" (FormatInt i) = DLog.entryID now' q' +:+ String "-" (FormatInt i') -> q = q' /\ i = i'.
Proof.
  intros Hq Hq' Hi Hi' E.
  assert (forall z, 0 <= z <= max_int64 -> avoids (fun x => Ascii.eqb x "-"%char) (FormatInt z)) as Hav.
  { intros z Hz. unfold FormatInt. rewrite (proj2 (Z.ltb_ge z 0)) by lia. apply digits_no_dash. lia. }
  apply last_separator in E as [E Ei]; [|by apply Hav..]. apply FormatInt_inj in Ei; [|go_lia..].
  unfold DLog.entryID in E.
  change ("-" +:+ digits_of 20 q "") with (String "-"%char (digits_of 20 q "")) in E.
  change ("-" +:+ digits_of 20 q' "") with (String "-"%char (digits_of 20 q' "")) in E.
  apply last_separator in E as [_ Eq]; [|apply digits_no_dash; lia..]. split; [by apply digits_of_20_inj|done].
Qed.

(** ** Waiting *)

(** While no attempt is granted and the context lives, polling goes on. *)
Lemma poll_waits {St R} (attempt : client_reads R -> St -> outcome (Result * St)) e1 e2 turns s :
  Forall (fun t => tn_ended t = false /\ tn_timer t = true) turns ->
  (forall t s, t ∈ turns -> exists res s', attempt (tn_reads t) s = Ok (res, s') /\ Allowed res = false) ->
  exists s', poll attempt e1 e2 turns s = Ok (Waiting, s').
Proof.
  intros Ht. revert s. induction Ht as [|t turns [He Hw] Ht IH]; intros s Ha; cbn [poll]; [by eauto|].
  destruct (Ha t s) as (res & s1 & E & Hres); [by left|]. rewrite E. cbn. rewrite Hres, He, Hw.
  apply IH. intros t' s2 Ht'. apply Ha. by right.
Qed.

(** [WaitN] with an invalid key or count never returns before its context ends: [AllowN] answers with a refusal and not
    with the error, and the loop takes it for a denial.  The in-process limiters and the distributed leaky bucket return
    the error at once. *)
Theorem distributed_wait_invalid_polls {St} `{ScriptStore St} key n (turns : list (turn ss_reads)) (s : St) :
  ValidateKey key <> None \/ ValidateN n <> None ->
  Forall (fun t => tn_ended t = false /\ tn_timer t = true) turns ->
  (forall d, exists s', DFixedWindow.WaitN d key n turns s = Ok (Waiting, s')) /\
  (forall d, exists s', DGcra.WaitN d key n turns s = Ok (Waiting, s')) /\
  (forall d, exists s', DCounter.WaitN d key n turns s = Ok (Waiting, s')) /\
  (forall d, exists ds', DLog.WaitN key n turns (d, s) = Ok (Waiting, ds')) /\
  (forall d, exists s', DTokenBucket.WaitN d key n turns s = Ok (Waiting, s')) /\
  (forall d, exists err, DLeaky.WaitN d key n turns s = Ok (Finished (Some (Failed err)), s)).
Proof.
  intros Hv Ht. split_and!; intros d;
    [apply poll_waits; [done|]; intros t s0 _..|unfold DLeaky.WaitN].
  1: unfold DFixedWindow.AllowN. 2: unfold DGcra.AllowN. 3: unfold DCounter.AllowN. 4: unfold DLog.AllowN; destruct s0 as [d0 s0].
  5: unfold DTokenBucket.AllowN.
  all: destruct (ValidateKey key), (ValidateN n); try (by eexists _, _); try (by eexists); by destruct Hv.
Qed.

(** ** The counter can overflow *)

(** After one request a count of [MaxInt64] wraps the sum around: it is granted, and the counter is negative from then on,
    so that the limit of three does not hold any more. *)
Theorem distributed_fixed_window_overflow :
  let d := DFixedWindow.NewDistributed 3 Second "" in
  let at_t t := mkClientReads t (script_reads_at t) in
  (fun x => match x with Ok (rs, _) => map snd rs | Panic _ => [] end)
    (serve 0 false d (NewMemory 0) [mkRequest (at_t 1) "a" 1; mkRequest (at_t 2) "a" max_int64; mkRequest (at_t 3) "a" 3;
       mkRequest (at_t 4) "a" 3]) = [true; true; true; true].
Proof. vm_compute. reflexivity. Qed.

(** With a window below half a millisecond the expiry passed to the script is zero, and its keys, a new one in every window,
    never expire. *)
Theorem short_window_keys_never_expire :
  let d := DFixedWindow.NewDistributed 3 (400 * Microsecond) "" in
  let at_t t := mkClientReads t (script_reads_at t) in
  (fun x => match x with Ok (_, m) => map (fun e => isExpired e (100 * Hour)) (heap m) | Panic _ => [] end)
    (serve 0 false d (NewMemory 0) [mkRequest (at_t 1) "a" 1; mkRequest (at_t Second) "a" 1]) = [false; false].
Proof. vm_compute. reflexivity. Qed.
