(* ===== verification/Optimistic.v ===== *)
(** * Optimistic scripts ([stores/memcached/eval.go], [stores/dynamodb/eval.go]).

    Stores without server-side scripts run a script as a loop: read the key,
    compute, write on condition that the key has not changed.  This file holds
    the interface a store offers to the loop ([Cell]) and the loop itself with
    any number of concurrent callers; the scripts' closures are those of
    [MemcachedEval] and [DynamoEval]. *)

From Stdlib Require Import Floats.
From stdpp Require Import relations.
From S2P Require Import Prelude Float64 Strconv StoreMemory StoreScripts StoreAtomic.
Open Scope Z_scope.

(** What the closure passed to [casMutate] and [occ] returns: an error, a result without a write, a
    write with its time to live. *)
Inductive verdict :=
| Reject (e : store_error)
| Keep (r : reply)
| Put (v : string) (ttl : duration) (r : reply).

(** [args[i]] coerced by [f]; an error ends the call before the loop. *)
Definition coerce {A B} (f : arg -> store_error + A) (args : list arg) (i : nat) (k : A -> store_error + B)
  : store_error + B :=
  match args !! i with
  | Some a => match f a with inr x => k x | inl e => inl e end
  | None => inl (ErrScript "index out of range")
  end.

(** ** The interface of a conditional write

    [observe] is a read, [commit o] a write on condition that what was observed still holds: [None] is
    a conflict.  [ver] is the version an observation carries, [issued] the versions handed out so far,
    [live] excludes a key that has expired, [quiet] is what may happen to the store beside these calls. *)

Class Cell (S Obs T : Type) := {
  observe : S -> Obs;
  commit : Obs -> string -> duration -> S -> option S;
  raw : Obs -> string;
  ver : Obs -> T;
  issued : S -> T -> Prop;
  live : S -> Prop;
  quiet : S -> S -> Prop;
}.

Class CellLaws S Obs T `{Cell S Obs T} : Prop := {
  observe_issued s : live s -> issued s (ver (observe s));
  commit_current s o v ttl : live s -> issued s (ver o) ->
    (is_Some (commit o v ttl s) <-> ver o = ver (observe s));
  commit_fresh s o v ttl s' : live s -> live s' -> commit o v ttl s = Some s' ->
    raw (observe s') = v /\ ~ issued s (ver (observe s')) /\ (forall t, issued s t -> issued s' t);
  quiet_same s s' : live s -> live s' -> quiet s s' ->
    observe s' = observe s /\ (forall t, issued s t -> issued s' t);
}.

(** ** The loop *)

Definition ErrExhausted : store_error := ErrScript "retry limit exhausted".

Section loop.
Context {S Obs T : Type} `{CellLaws S Obs T}.

Inductive pc :=
| Reading (k : nat)                                         (* at the top of the loop *)
| Writing (k : nat) (o : Obs) (v : string) (ttl : duration) (r : reply)
| Finished (r : store_error + reply).

(** The next turn of the loop, with [k] turns to go. *)
Definition again (k : nat) : pc := match k with O => Finished (inl ErrExhausted) | _ => Reading k end.

(** One call to the store. *)
Definition pc_step (f : string -> verdict) (p : pc) (s : S) : option (pc * S) :=
  match p with
  | Reading k =>
      let o := observe s in
      Some (match f (raw o) with
            | Reject e => Finished (inl e)
            | Keep r => Finished (inr r)
            | Put v ttl r => Writing (pred k) o v ttl r
            end, s)
  | Writing k o v ttl r =>
      Some (match commit o v ttl s with
            | Some s' => (Finished (inr r), s')
            | None => (again k, s)
            end)
  | Finished _ => None
  end.

(** [fs]: the closures of the callers; [turns]: the bound of the loop. *)
Context (turns : nat) (fs : list (string -> verdict)).

Notation system := (S * list pc)%type.

Inductive step : system -> system -> Prop :=
| step_caller i f p p' s s' ps : fs !! i = Some f -> ps !! i = Some p -> pc_step f p s = Some (p', s') -> live s' ->
    step (s, ps) (s', <[i := p']> ps)
| step_quiet s s' ps : quiet s s' -> live s' -> step (s, ps) (s', ps).

Definition reachable (s0 : S) (st : system) : Prop := rtc step (s0, map (fun _ => again turns) fs) st.

(** *** The sequential run of some callers, in the order of [log] *)

Record history := mkHist { h_value : string; h_replies : list (nat * (store_error + reply)); h_commits : nat }.

Definition replay_one (h : history) (i : nat) : history :=
  match fs !! i with
  | None => h
  | Some f =>
      let reply r := h_replies h ++ [(i, r)] in
      match f (h_value h) with
      | Reject e => mkHist (h_value h) (reply (inl e)) (h_commits h)
      | Keep r => mkHist (h_value h) (reply (inr r)) (h_commits h)
      | Put v _ r => mkHist v (reply (inr r)) (Datatypes.S (h_commits h))
      end
  end.

Definition replay (v0 : string) (log : list nat) : history := foldl replay_one (mkHist v0 [] 0) log.

Lemma hist_snoc v0 log i : replay v0 (log ++ [i]) = replay_one (replay v0 log) i.
Proof. unfold replay. by rewrite foldl_app. Qed.

(** *** The invariant *)

Definition pc_ok (s : S) (log : list nat) (h : history) (i : nat) (f : string -> verdict) (p : pc) : Prop :=
  match p with
  | Reading k => i ∉ log /\ (0 < k <= turns)%nat /\ (turns - k <= h_commits h)%nat
  | Writing k o v ttl r =>
      i ∉ log /\ (k < turns)%nat /\ f (raw o) = Put v ttl r /\ issued s (ver o) /\
      (ver o = ver (observe s) -> raw o = raw (observe s)) /\
      exists c, (turns - k - 1 <= c <= h_commits h)%nat /\ (ver o <> ver (observe s) -> (c < h_commits h)%nat)
  | Finished r =>
      (i, r) ∈ h_replies h \/ (r = inl ErrExhausted /\ i ∉ log /\ (turns <= h_commits h)%nat)
  end.

Definition loop_inv (v0 : string) (log : list nat) (st : system) : Prop :=
  let '(s, ps) := st in
  let h := replay v0 log in
  live s /\ NoDup log /\ length ps = length fs /\ raw (observe s) = h_value h /\
  (forall i, i ∈ log -> exists r, ps !! i = Some (Finished r)) /\
  (forall i f p, fs !! i = Some f -> ps !! i = Some p -> pc_ok s log h i f p).

(** What the step of another caller changes. *)
Record advance (j : nat) (s s' : S) (log log' : list nat) (h h' : history) : Prop := mkAdvance {
  adv_log : forall i, i <> j -> i ∉ log -> i ∉ log';
  adv_replies : forall x, x ∈ h_replies h -> x ∈ h_replies h';
  adv_commits : (h_commits h <= h_commits h')%nat;
  adv_issued : forall t, issued s t -> issued s' t;
  adv_cell : observe s' = observe s \/ (~ issued s (ver (observe s')) /\ (h_commits h < h_commits h')%nat);
}.

Lemma pc_ok_advance j s s' log log' h h' i f p : advance j s s' log log' h h' -> i <> j ->
  pc_ok s log h i f p -> pc_ok s' log' h' i f p.
Proof.
  intros [Hlog Hrep Hcom Hiss Hcell] Hne. destruct p as [k|k o v ttl r|r]; cbn.
  - intros (H1 & H2 & H3). split_and!; [by apply Hlog|lia..].
  - intros (H1 & H2 & H3 & H4 & H5 & c & Hc & Hst). split_and!; try lia; auto.
    + destruct Hcell as [->|[Hfresh _]]; [done|]. intros E. rewrite <- E in Hfresh. done.
    + exists c. split; [lia|]. destruct Hcell as [->|[_ Hlt]]; [|lia]. intros Hv. specialize (Hst Hv). lia.
  - intros [Hr|(-> & Hi & Hc)]; [left; auto|right; split_and!; auto; lia].
Qed.

Lemma again_ok s log h i f k : i ∉ log -> (k <= turns)%nat -> (turns - k <= h_commits h)%nat ->
  pc_ok s log h i f (again k).
Proof. intros. destruct k; cbn; [right; split_and!; auto; lia|split_and!; auto; lia]. Qed.

(** Caller [j] moved to [p'], the log grew by at most [j]. *)
Lemma loop_inv_update v0 log log' s ps s' j f p' : loop_inv v0 log (s, ps) -> live s' ->
  fs !! j = Some f -> (j < length ps)%nat ->
  log' = log \/ (log' = log ++ [j] /\ j ∉ log /\ exists r, p' = Finished r) ->
  (forall r, ps !! j <> Some (Finished r)) ->
  advance j s s' log log' (replay v0 log) (replay v0 log') ->
  raw (observe s') = h_value (replay v0 log') -> pc_ok s' log' (replay v0 log') j f p' ->
  loop_inv v0 log' (s', <[j := p']> ps).
Proof.
  intros (Hl & Hnd & Hlen & Hval & Hdone & Hpc) Hl' Hf Hj Hlog Hmov Hadv Hval' Hp'.
  split_and!; [done| |by rewrite length_insert|done| |].
  - destruct Hlog as [->|(-> & Hj' & _)]; [done|]. apply NoDup_app. split_and!; [done|set_solver|apply NoDup_singleton].
  - intros i Hi. destruct (decide (i = j)) as [->|Hne].
    + destruct Hlog as [->|(_ & _ & r & ->)]; [destruct (Hdone _ Hi) as (r & Hr); by destruct (Hmov r)|].
      exists r. by apply list_lookup_insert_eq.
    + rewrite list_lookup_insert_ne by done. apply Hdone. destruct Hlog as [->|(-> & _)]; [done|].
      apply elem_of_app in Hi as [?|?%list_elem_of_singleton]; [done|congruence].
  - intros i g p Hg Hp. destruct (decide (i = j)) as [->|Hne].
    + rewrite list_lookup_insert_eq in Hp by done. by simplify_eq.
    + rewrite list_lookup_insert_ne in Hp by done. apply (pc_ok_advance j s s' log log' (replay v0 log)); auto.
Qed.

(** Caller [j] ends at its read: its closure does not write. *)
Lemma loop_inv_linearize v0 log s ps j f k r h' : loop_inv v0 log (s, ps) -> fs !! j = Some f ->
  ps !! j = Some (Reading k) -> replay v0 (log ++ [j]) = h' ->
  h' = mkHist (h_value (replay v0 log)) (h_replies (replay v0 log) ++ [(j, r)]) (h_commits (replay v0 log)) ->
  loop_inv v0 (log ++ [j]) (s, <[j := Finished r]> ps).
Proof.
  intros Hinv Hf Hp Eh Eh'. pose proof Hinv as (Hl & _ & _ & Hval & _ & Hpc).
  destruct (Hpc j f _ Hf Hp) as (Hj & _).
  apply (loop_inv_update v0 log _ s ps s j f); auto; rewrite ?Eh, ?Eh'.
  - by eapply lookup_lt_Some.
  - right. split_and!; eauto.
  - intros r'. congruence.
  - constructor; auto; [set_solver|cbn; set_solver].
  - exact Hval.
  - left. cbn. set_solver.
Qed.

Lemma loop_inv_read v0 log s ps j f k : loop_inv v0 log (s, ps) -> fs !! j = Some f -> ps !! j = Some (Reading k) ->
  exists log', loop_inv v0 log'
    (s, <[j := match f (raw (observe s)) with
               | Reject e => Finished (inl e) | Keep r => Finished (inr r)
               | Put v ttl r => Writing (pred k) (observe s) v ttl r end]> ps).
Proof.
  intros Hinv Hf Hp. pose proof Hinv as (Hl & _ & _ & Hval & _ & Hpc).
  destruct (Hpc j f _ Hf Hp) as (Hj & Hk & Hc).
  destruct (f (raw (observe s))) as [e|r|v ttl r] eqn:E.
  1, 2: exists (log ++ [j]); eapply loop_inv_linearize; eauto;
    rewrite hist_snoc; unfold replay_one; rewrite Hf, <- Hval, E; reflexivity.
  exists log. apply (loop_inv_update v0 log log s ps s j f); auto.
  - by eapply lookup_lt_Some.
  - intros r'. congruence.
  - by constructor; auto.
  - cbn. split_and!; auto; [lia|by apply observe_issued|]. exists (h_commits (replay v0 log)). split; [lia|done].
Qed.

Lemma loop_inv_write v0 log s s' ps j f k o v ttl r p' : loop_inv v0 log (s, ps) -> fs !! j = Some f ->
  ps !! j = Some (Writing k o v ttl r) -> live s' ->
  match commit o v ttl s with Some s' => (Finished (inr r), s') | None => (again k, s) end = (p', s') ->
  exists log', loop_inv v0 log' (s', <[j := p']> ps).
Proof.
  intros Hinv Hf Hp Hl' E. pose proof Hinv as (Hl & _ & _ & Hval & _ & Hpc).
  destruct (Hpc j f _ Hf Hp) as (Hj & Hk & Hfo & Hiss & Hraw & c & Hc & Hstale).
  pose proof (commit_current s o v ttl Hl Hiss) as Hcur.
  destruct (commit o v ttl s) as [s1|] eqn:Ec; simplify_eq.
  - exists (log ++ [j]). destruct (commit_fresh s o v ttl s' Hl Hl' Ec) as (Hnew & Hfresh & Hmono).
    assert (replay v0 (log ++ [j]) = mkHist v (h_replies (replay v0 log) ++ [(j, inr r)])
      (Datatypes.S (h_commits (replay v0 log)))) as Eh.
    { rewrite hist_snoc. unfold replay_one. rewrite Hf, <- Hval, <- Hraw, Hfo; [done|]. apply Hcur. eauto. }
    apply (loop_inv_update v0 log _ s ps s' j f); auto; rewrite ?Eh.
    + by eapply lookup_lt_Some.
    + right. split_and!; eauto.
    + intros r'. congruence.
    + constructor; [set_solver|cbn; set_solver|cbn; lia|exact Hmono|right; split; [done|cbn; lia]].
    + exact Hnew.
    + left. cbn. set_solver.
  - exists log. assert (ver o <> ver (observe s')) as Hv.
    { intros Hv. destruct (proj2 Hcur Hv) as [? ?]. congruence. }
    specialize (Hstale Hv).
    apply (loop_inv_update v0 log log s' ps s' j f); auto.
    + by eapply lookup_lt_Some.
    + intros r'. congruence.
    + by constructor; auto.
    + apply again_ok; auto; lia.
Qed.

Lemma loop_inv_step v0 log st st' : loop_inv v0 log st -> step st st' -> exists log', loop_inv v0 log' st'.
Proof.
  intros Hinv Hstep. destruct Hstep as [j f p p' s s' ps Hf Hp Hs Hl'|s s' ps Hq Hl'].
  - destruct p as [k|k o v ttl r|r]; cbn in Hs; simplify_eq.
    + by eapply loop_inv_read.
    + by eapply loop_inv_write; eauto.
  - exists log. destruct Hinv as (Hl & Hnd & Hlen & Hval & Hdone & Hpc).
    destruct (quiet_same s s' Hl Hl' Hq) as [Eo Hmono]. split_and!; auto; [congruence|].
    intros i f p Hf Hp. apply (pc_ok_advance (Datatypes.S i) s s' log log (replay v0 log)); [by constructor; auto|lia|auto].
Qed.

Lemma loop_inv_start s0 : live s0 -> loop_inv (raw (observe s0)) [] (s0, map (fun _ => again turns) fs).
Proof.
  intros Hl. split_and!; auto; [constructor|by rewrite length_map|set_solver|].
  intros i f p Hf Hp. rewrite list_lookup_fmap, Hf in Hp. cbn in Hp. simplify_eq.
  apply again_ok; [set_solver|lia..].
Qed.

Lemma loop_reachable_inv s0 st : live s0 -> reachable s0 st -> exists log, loop_inv (raw (observe s0)) log st.
Proof.
  intros Hl Hr. assert (forall st1 st2, rtc step st1 st2 -> forall v0 log, loop_inv v0 log st1 ->
    exists log', loop_inv v0 log' st2) as Hrtc.
  { induction 1 as [|st1 st2 st3 Hs _ IH]; intros v0 log Hinv; [eauto|].
    destruct (loop_inv_step _ _ _ _ Hinv Hs) as [log' Hinv']. eauto. }
  eapply Hrtc; [exact Hr|by apply loop_inv_start].
Qed.

(** *** Bounds on the work of a caller *)

(** Calls to the store still to come, at most. *)
Definition work (p : pc) : nat :=
  match p with Reading k => 2 * k | Writing k _ _ _ _ => 2 * k + 1 | Finished _ => 0 end.

Lemma pc_step_work f p s p' s' : (forall k, p = Reading k -> (0 < k)%nat) ->
  pc_step f p s = Some (p', s') -> (work p' < work p)%nat.
Proof.
  intros Hk. destruct p as [k|k o v ttl r|r]; cbn; intros E; simplify_eq.
  - specialize (Hk k eq_refl). destruct (f _); cbn; lia.
  - destruct (commit o v ttl s); simplify_eq; cbn; [lia|]. destruct k; cbn; lia.
Qed.

End loop.
Arguments pc : clear implicits.

(** ** What the loop guarantees *)

Section guarantees.
Context {S Obs T : Type} `{CellLaws S Obs T} (turns : nat) (fs : list (string -> verdict)).

Lemma hist_domain v0 log : Forall (fun i => (i < length fs)%nat) log ->
  map fst (h_replies (replay fs v0 log)) = log.
Proof.
  induction log as [|i log IH] using rev_ind; [done|]. intros [Hl Hi]%Forall_app.
  rewrite Forall_singleton in Hi. rewrite hist_snoc. unfold replay_one.
  destruct (lookup_lt_is_Some_2 fs i Hi) as [f ->].
  destruct (f _); cbn; by rewrite map_app, IH.
Qed.

(** Some order of the callers that have finished explains every reply and the value that is stored; a
    caller gives up only after as many commits of others as it had turns. *)
Definition linearized (s0 : S) (st : S * list (pc Obs)) (log : list nat) : Prop :=
  NoDup log /\ raw (observe (fst st)) = h_value (replay fs (raw (observe s0)) log) /\
  (forall i, i ∈ log -> exists r, snd st !! i = Some (Finished r) /\ (i, r) ∈ h_replies (replay fs (raw (observe s0)) log)) /\
  (forall i r, snd st !! i = Some (Finished r) -> i ∉ log ->
     r = inl ErrExhausted /\ (turns <= h_commits (replay fs (raw (observe s0)) log))%nat).

Lemma replies_unique v0 log i r r' : NoDup log -> Forall (fun i => (i < length fs)%nat) log ->
  (i, r) ∈ h_replies (replay fs v0 log) -> (i, r') ∈ h_replies (replay fs v0 log) -> r = r'.
Proof.
  intros Hnd Hlt H1 H2. rewrite <- (hist_domain v0 log Hlt) in Hnd.
  apply list_elem_of_lookup in H1 as [a Ha], H2 as [b Hb].
  assert (a = b) as ->; [|by simplify_eq]. apply (NoDup_lookup _ a b i Hnd); rewrite list_lookup_fmap;
    [by rewrite Ha|by rewrite Hb].
Qed.

Lemma loop_linearizable s0 st : live s0 -> reachable turns fs s0 st -> exists log, linearized s0 st log.
Proof.
  intros Hl Hr. destruct (loop_reachable_inv turns fs s0 st Hl Hr) as [log Hinv].
  destruct st as [s ps]. destruct Hinv as (_ & Hnd & Hlen & Hval & Hdone & Hpc). exists log.
  assert (forall i r, ps !! i = Some (Finished r) -> (i, r) ∈ h_replies (replay fs (raw (observe s0)) log) \/
    (r = inl ErrExhausted /\ i ∉ log /\ (turns <= h_commits (replay fs (raw (observe s0)) log))%nat)) as Hfin.
  { intros i r Hi. destruct (lookup_lt_is_Some_2 fs i) as [f Hf]; [rewrite <- Hlen; by eapply lookup_lt_Some|].
    apply (Hpc i f _ Hf Hi). }
  assert (Forall (fun i => (i < length fs)%nat) log) as Hlt.
  { apply Forall_forall. intros i Hi. destruct (Hdone i Hi) as (r & Hp). rewrite <- Hlen. by eapply lookup_lt_Some. }
  split_and!; auto.
  - intros i Hi. destruct (Hdone i Hi) as (r & Hp). exists r. split; [done|].
    destruct (Hfin i r Hp) as [?|(_ & ? & _)]; [done|done].
  - intros i r Hi Hnot. destruct (Hfin i r Hi) as [Hin|(-> & _ & ?)]; [|done]. destruct Hnot.
    rewrite <- (hist_domain (raw (observe s0)) log Hlt). apply list_elem_of_fmap. by exists (i, r).
Qed.

End guarantees.

(** ** The fixed window *)

Definition pc_granted {Obs} (costs : list Z) (ps : list (pc Obs)) (i : nat) : Z :=
  match ps !! i, costs !! i with
  | Some (Finished r), Some n => if granted r then n else 0
  | _, _ => 0
  end.

(** The closures [fw n] count up to [limit], as long as the sum stays in range. *)
Definition counts (limit : Z) (ttl : duration) (fw : Z -> string -> verdict) : Prop :=
  forall n raw, 1 <= n <= max_int64 - limit -> 0 <= parseCounter raw <= limit ->
  fw n raw =
  if limit <? parseCounter raw + n then Keep (RList [0; parseCounter raw])
  else Put (FormatInt (parseCounter raw + n)) ttl (RList [1; parseCounter raw + n]).

Section fixed_window.
Context {S Obs T : Type} `{CellLaws S Obs T} (turns : nat) (limit ttl : Z) (fw : Z -> string -> verdict).
Context (Hfw : counts limit ttl fw).
Context (costs : list Z) (Hcosts : Forall (fun n => 1 <= n <= max_int64 - limit) costs).

Notation fs := (map fw costs).

Lemma replies_cost_snoc rs i r : replies_cost costs (rs ++ [(i, r)]) =
  replies_cost costs rs + (if granted r then default 0 (costs !! i) else 0).
Proof.
  unfold replies_cost. rewrite map_app, zsum_app. f_equal. unfold zsum. cbn [map fst snd foldr].
  apply Z.add_0_r.
Qed.

(** The stored counter is the sum of what was granted. *)
Lemma fw_replay_value v0 log : 0 <= parseCounter v0 <= limit ->
  let h := replay fs v0 log in
  parseCounter (h_value h) = parseCounter v0 + replies_cost costs (h_replies h) /\
  0 <= parseCounter (h_value h) <= limit.
Proof.
  intros Hv. cbv zeta. induction log as [|i log [IH1 IH2]] using rev_ind; [split; [symmetry; apply Z.add_0_r|exact Hv]|].
  rewrite hist_snoc. unfold replay_one. rewrite list_lookup_fmap.
  destruct (costs !! i) as [n|] eqn:Ei; cbn [fmap option_fmap option_map]; [|done].
  pose proof (Forall_lookup_1 _ _ _ _ Hcosts Ei) as Hn. cbn in Hn.
  generalize dependent (replay fs v0 log). intros h IH1 IH2. rewrite Hfw by done.
  destruct (Z.ltb_spec limit (parseCounter (h_value h) + n));
    cbn [h_value h_replies]; rewrite replies_cost_snoc; cbn [granted].
  - split; lia.
  - rewrite parseCounter_Format by go_lia. rewrite Ei. cbn. lia.
Qed.

Lemma pc_granted_log s0 st log : linearized turns fs s0 st log ->
  Forall (fun i => (i < length fs)%nat) log ->
  zsum (map (pc_granted costs (snd st)) log) = replies_cost costs (h_replies (replay fs (raw (observe s0)) log)).
Proof.
  intros (Hnd & _ & Hdone & _) Hlt. rewrite <- (hist_domain fs (raw (observe s0)) log Hlt) at 1.
  unfold replies_cost. f_equal. rewrite map_map. apply map_ext_in. intros [i r] Hin. apply list_elem_of_In in Hin. cbn.
  assert (i ∈ log) as Hi.
  { rewrite <- (hist_domain fs (raw (observe s0)) log Hlt). apply list_elem_of_fmap. by exists (i, r). }
  destruct (Hdone i Hi) as (r' & Hp & Hin'). assert (r' = r) as -> by (by eapply replies_unique).
  unfold pc_granted. rewrite Hp. by destruct (costs !! i), (granted r).
Qed.

(** However the callers interleave, the costs granted fit what the stored counter leaves of the limit. *)
Lemma loop_fixed_window s0 st : live s0 -> 0 <= parseCounter (raw (observe s0)) <= limit ->
  reachable turns fs s0 st ->
  parseCounter (raw (observe s0)) + zsum (map (pc_granted costs (snd st)) (seq 0 (length costs))) <= limit.
Proof.
  intros Hl Hv Hr. destruct (loop_linearizable turns fs s0 st Hl Hr) as [log Hlin].
  pose proof Hlin as (Hnd & _ & Hdone & Hex).
  destruct (loop_reachable_inv turns fs s0 st Hl Hr) as [? Hinv]. destruct st as [s ps].
  destruct Hinv as (_ & _ & Hlen & _). rewrite length_map in Hlen. cbn [snd] in *.
  assert (Forall (fun i => (i < length fs)%nat) log) as Hlt.
  { apply Forall_forall. intros i Hi. destruct (Hdone i Hi) as (r & Hp & _). rewrite length_map, <- Hlen.
    by eapply lookup_lt_Some. }
  assert (log ⊆+ seq 0 (length costs)) as [rest Hperm]%submseteq_Permutation.
  { apply NoDup_submseteq; [done|]. intros i Hi. rewrite Forall_forall in Hlt. specialize (Hlt i Hi).
    rewrite length_map in Hlt. apply elem_of_seq. lia. }
  rewrite (zsum_perm _ (map (pc_granted costs ps) (log ++ rest))) by (by rewrite Hperm).
  rewrite map_app, zsum_app, (zsum_map_zero (pc_granted costs ps) rest).
  - pose proof (pc_granted_log s0 (s, ps) log Hlin Hlt) as E. cbn [snd] in E. rewrite E. destruct (fw_replay_value (raw (observe s0)) log Hv). lia.
  - apply Forall_forall. intros i Hi. unfold pc_granted.
    assert (i ∉ log) as Hnot.
    { intros Hin. assert (NoDup (log ++ rest)) as Hnd2 by (rewrite <- Hperm; apply NoDup_seq).
      apply NoDup_app in Hnd2 as (_ & Hdis & _). by eapply Hdis. }
    destruct (ps !! i) as [[| |r]|] eqn:Ep; try done. destruct (Hex i r Ep Hnot) as [-> _]. by destruct (costs !! i).
Qed.

End fixed_window.

(** ** Programs that run the loop

    A store's programs [P] with their steps; [embed] gives the program of a caller at a point of the loop. *)

Class Runs (S Obs T P C : Type) `{Cell S Obs T} := {
  pstep : P -> S -> option (P * S);
  returned : P -> option (store_error + reply);
  closure : C -> string -> verdict;
  embed : C -> pc Obs -> P;
}.

Definition in_turn {Obs} (p : pc Obs) : Prop := match p with Reading k => (0 < k)%nat | _ => True end.

Class RunsLaws S Obs T P C `{Runs S Obs T P C} : Prop := {
  embed_step c p s m' s' : live s -> in_turn p -> pstep (embed c p) s = Some (m', s') ->
    exists p', pc_step (closure c) p s = Some (p', s') /\ m' = embed c p' /\ in_turn p';
  embed_returned c p r : in_turn p -> (returned (embed c p) = Some r <-> p = Finished r);
}.

Lemma in_turn_again {Obs} k : in_turn (Obs := Obs) (again k).
Proof. destruct k; cbn; [done|lia]. Qed.

Section programs.
Context {S Obs T P C : Type} `{Cell S Obs T} `{!CellLaws S Obs T} `{!Runs S Obs T P C} `{!RunsLaws S Obs T P C}.
Context (turns : nat).

(** A caller makes its next call to the store, or something happens to the store that leaves the key alone. *)
Inductive prog_step : S * list P -> S * list P -> Prop :=
| prog_caller i p p' s s' ps : ps !! i = Some p -> pstep p s = Some (p', s') -> live s' ->
    prog_step (s, ps) (s', <[i := p']> ps)
| prog_quiet s s' ps : quiet s s' -> live s' -> prog_step (s, ps) (s', ps).

Context (calls : list C).
Notation fs := (map closure calls).

Definition simulates (st : S * list P) (lt : S * list (pc Obs)) : Prop :=
  live (fst st) /\ fst st = fst lt /\ length (snd st) = length calls /\ length (snd lt) = length calls /\
  forall i c p, calls !! i = Some c -> snd lt !! i = Some p -> snd st !! i = Some (embed c p) /\ in_turn p.

Lemma simulation_step st st' lt : simulates st lt -> prog_step st st' ->
  exists lt', step fs lt lt' /\ simulates st' lt'.
Proof.
  intros (Hok & Es & Hl1 & Hl2 & Hpc) Hstep. destruct lt as [s0 ps].
  destruct Hstep as [i m m' s s' ms Hm Hs Hok'|s s' ms Hq Hok']; cbn [fst snd] in *; subst s0.
  - assert (i < length calls)%nat as Hi by (rewrite <- Hl1; by eapply lookup_lt_Some).
    destruct (lookup_lt_is_Some_2 calls i Hi) as [c Hc].
    destruct (lookup_lt_is_Some_2 ps i) as [p Hp]; [lia|]. destruct (Hpc i c p Hc Hp) as [Em Ht].
    rewrite Em in Hm. injection Hm as <-. destruct (embed_step c p s m' s' Hok Ht Hs) as (p' & Hs' & -> & Ht').
    exists (s', <[i := p']> ps). split.
    + apply (step_caller _ i (closure c) p); auto. rewrite list_lookup_fmap. by rewrite Hc.
    + split_and!; cbn; [done|done|by rewrite length_insert..|]. intros j d q Hd Hq.
      destruct (decide (i = j)) as [<-|Hne].
      * rewrite list_lookup_insert_eq in Hq by lia. simplify_eq. rewrite list_lookup_insert_eq by lia. done.
      * rewrite list_lookup_insert_ne in Hq by done. rewrite list_lookup_insert_ne by done. by apply Hpc.
  - exists (s', ps). split; [|done]. by apply step_quiet.
Qed.

Definition start_progs : list P := map (fun c => embed c (again turns)) calls.

Lemma simulation s0 st : live s0 -> rtc prog_step (s0, start_progs) st ->
  exists lt, reachable turns fs s0 lt /\ simulates st lt.
Proof.
  intros Hok Hr. assert (forall a b, rtc prog_step a b -> forall la, simulates a la ->
    exists lb, rtc (step fs) la lb /\ simulates b lb) as Hsim.
  { induction 1 as [|a b c' Hs _ IH]; intros la Ha; [by exists la; split; [apply rtc_refl|]|].
    destruct (simulation_step a b la Ha Hs) as (lb & Hl & Hb). destruct (IH lb Hb) as (lc & Hrtc & Hc).
    exists lc. split; [by eapply rtc_l|done]. }
  eapply Hsim; [exact Hr|].
  split_and!; cbn [fst snd]; [done|reflexivity|unfold start_progs; by rewrite length_map|by rewrite !length_map|].
  intros i c p Hc Hp. rewrite !list_lookup_fmap, Hc in Hp. injection Hp as <-. unfold start_progs.
  rewrite list_lookup_fmap, Hc. split; [reflexivity|apply in_turn_again].
Qed.

Lemma simulated_returned st lt i r : simulates st lt -> (i < length calls)%nat ->
  (snd st !! i ≫= returned = Some r <-> snd lt !! i = Some (Finished r)).
Proof.
  intros (_ & _ & _ & Hl & Hpc) Hi. destruct (lookup_lt_is_Some_2 calls i Hi) as [c Hc].
  destruct (lookup_lt_is_Some_2 (snd lt) i) as [p Hp]; [lia|]. destruct (Hpc i c p Hc Hp) as [-> Ht]. rewrite Hp.
  cbn. rewrite (embed_returned c p r Ht). split; [by intros ->|by intros [= ->]].
Qed.

(** Some order of the calls that have returned explains their replies and the stored value. *)
Lemma progs_linearizable s0 st : live s0 -> rtc prog_step (s0, start_progs) st ->
  exists log, NoDup log /\
    let h := replay fs (raw (observe s0)) log in
    raw (observe (fst st)) = h_value h /\
    (forall i, i ∈ log -> exists r, snd st !! i ≫= returned = Some r /\ (i, r) ∈ h_replies h) /\
    (forall i r, snd st !! i ≫= returned = Some r -> i ∉ log -> r = inl ErrExhausted /\ (turns <= h_commits h)%nat).
Proof.
  intros Hok Hr. destruct (simulation s0 st Hok Hr) as (lt & Hl & Hsim).
  destruct (loop_linearizable turns fs s0 lt Hok Hl) as (log & Hnd & Hval & Hdone & Hex).
  pose proof Hsim as (_ & Efst & Hl1 & Hl2 & _). exists log. split; [done|]. cbv zeta. rewrite Efst. split_and!; [done| |].
  - intros i Hi. destruct (Hdone i Hi) as (r & Hp & Hin). exists r. split; [|done].
    apply (simulated_returned st lt i r Hsim); [|done]. rewrite <- Hl2. by eapply lookup_lt_Some.
  - intros i r Hp Hi. apply (Hex i r); [|done]. apply (simulated_returned st lt i r Hsim); [|done].
    rewrite <- Hl1. destruct (snd st !! i) eqn:E; [by eapply lookup_lt_Some|done].
Qed.

(** The cost granted to caller [i]. *)
Definition prog_granted (costs : list Z) (ps : list P) (i : nat) : Z :=
  match ps !! i ≫= returned, costs !! i with
  | Some r, Some n => if granted r then n else 0
  | _, _ => 0
  end.

Lemma progs_fixed_window limit ttl fw costs s0 st : counts limit ttl fw ->
  Forall (fun n => 1 <= n <= max_int64 - limit) costs -> live s0 -> 0 <= parseCounter (raw (observe s0)) <= limit ->
  fs = map fw costs -> rtc prog_step (s0, start_progs) st ->
  parseCounter (raw (observe s0)) + zsum (map (prog_granted costs (snd st)) (seq 0 (length costs))) <= limit.
Proof.
  intros Hfw Hc Hok Hv Hfs Hr. destruct (simulation s0 st Hok Hr) as (lt & Hl & Hsim). rewrite Hfs in Hl.
  pose proof (loop_fixed_window turns limit ttl fw Hfw costs Hc s0 lt Hok Hv Hl) as Hb.
  assert (length calls = length costs) as Hlen by (rewrite <- (length_map closure), Hfs; by rewrite length_map).
  pose proof Hsim as (_ & _ & _ & Hl2 & _).
  erewrite map_ext_in; [exact Hb|]. intros i [_ Hi]%in_seq. unfold prog_granted, pc_granted.
  destruct (lookup_lt_is_Some_2 (snd lt) i) as [p Hp]; [lia|].
  destruct (snd st !! i ≫= returned) as [r|] eqn:Em.
  - by rewrite (proj1 (simulated_returned st lt i r Hsim ltac:(lia)) Em).
  - rewrite Hp. destruct p as [| |r]; [done..|].
    rewrite (proj2 (simulated_returned st lt i r Hsim ltac:(lia)) Hp) in Em. discriminate.
Qed.

End programs.
