(* ===== verification/DynamoEval.v ===== *)
(** * The scripts of the DynamoDB store ([stores/dynamodb/eval.go],
    [stores/dynamodb/zset.go]).

    A second port of the scripts and of the sorted set, which shares no code
    with that of dynamodb: [Dd] translates it separately. *)

From Stdlib Require Import Floats Ascii.
From S2P Require Import Prelude Float64 Strconv StrconvFloat StoreMemory StoreScripts Optimistic.
Open Scope Z_scope.

Module Dd.

(** ** The sorted set *)

(** The index of the first field separator of a record from [j] on, -1 without one. *)
Fixpoint separator (fuel j : nat) (rec : string) : Z :=
  match fuel with
  | O => -1
  | S fuel =>
      match String.get j rec with
      | Some c => if Ascii.eqb c fld_sep then Z.of_nat j else separator fuel (S j) rec
      | None => -1
      end
  end.

(** The record [rec] appended to the members; a record that does not parse is skipped. *)
Definition append_record (rec : string) (members : zset) : zset :=
  if bool_decide (rec = "") then members
  else
    let sep := separator (String.length rec) 0 rec in
    if sep <? 0 then members
    else
      match ParseInt (slice_to rec sep) with
      | None => members
      | Some sc => members ++ [mkZ sc (slice_from rec (sep + 1))]
      end.

(** [for i := 0; i <= len(s); i++] from [i], the current record starting at [start]. *)
Fixpoint parse_loop (fuel i start : nat) (s : string) (members : zset) : zset :=
  match fuel with
  | O => members
  | S fuel =>
      if (i =? String.length s)%nat || bool_decide (String.get i s = Some rec_sep) then
        parse_loop fuel (S i) (S i) s (append_record (String.substring start (i - start) s) members)
      else parse_loop fuel (S i) start s members
  end.

Definition parseZSet (s : string) : zset :=
  if bool_decide (s = "") then [] else parse_loop (S (String.length s)) 0 0 s [].

(** The members from index [i] on, appended to the buffer. *)
Fixpoint serialize_loop (i : nat) (members : zset) (buf : string) : string :=
  match members with
  | [] => buf
  | mem :: members =>
      let buf := if (0 <? i)%nat then buf +:+ String rec_sep "" else buf in
      let buf := buf +:+ FormatInt (score mem) in
      let buf := buf +:+ String fld_sep "" in
      let buf := buf +:+ member mem in
      serialize_loop (S i) members buf
  end.

Definition serialize (zs : zset) : string :=
  if (length zs =? 0)%nat then "" else serialize_loop 0 zs "".

(** [for j := i; j > 0 && members[j-1].score > members[j].score; j--]: swap the two. *)
Fixpoint sift (j : nat) (zs : zset) : zset :=
  match j with
  | O => zs
  | S j' =>
      match zs !! j', zs !! j with
      | Some a, Some b => if score b <? score a then sift j' (<[j := a]> (<[j' := b]> zs)) else zs
      | _, _ => zs
      end
  end.

Definition resort (zs : zset) : zset := foldl (fun zs i => sift i zs) zs (seq 1 (length zs - 1)).

(** The first index from [i] on of a member with this name. *)
Fixpoint find_member (m : string) (i : nat) (zs : zset) : option nat :=
  match zs with
  | [] => None
  | z :: zs => if bool_decide (member z = m) then Some i else find_member m (S i) zs
  end.

Definition add (sc : Z) (m : string) (zs : zset) : zset :=
  match find_member m 0 zs with
  | Some i => resort (alter (fun z => mkZ sc (member z)) i zs)
  | None => resort (zs ++ [mkZ sc m])
  end.

(** [for idx < len(members) && members[idx].score <= cutoff { idx++ }]. *)
Fixpoint prune_index (fuel idx : nat) (cutoff : Z) (zs : zset) : nat :=
  match fuel with
  | O => idx
  | S fuel =>
      match zs !! idx with
      | Some z => if score z <=? cutoff then prune_index fuel (S idx) cutoff zs else idx
      | None => idx
      end
  end.

Definition removeByScoreUpTo (cutoff : Z) (zs : zset) : zset :=
  let idx := prune_index (length zs) 0 cutoff zs in
  if (0 <? idx)%nat then drop idx zs else zs.

(** ** Arguments *)

Definition toFloat (v : arg) : store_error + f64 :=
  match v with
  | ArgFloat x => inr x
  | ArgInt z => inr (f64_of_Z z)
  | ArgStr s => match ParseFloat s with Some x => inr x | None => inl (ErrScript "strconv.ParseFloat") end
  end.

Definition toInt64 (v : arg) : store_error + Z :=
  match v with
  | ArgInt z => inr z
  | ArgFloat x => inr (f64_to_int64 x)
  | ArgStr s => match ParseInt s with Some z => inr z | None => inl (ErrScript "strconv.ParseInt") end
  end.

Definition toInt64_value (v : arg) : Z :=
  match v with ArgInt z => z | ArgFloat x => f64_to_int64 x | ArgStr s => ParseInt_value s end.

Definition toStr (v : arg) : string :=
  match v with ArgStr s => s | ArgInt z => FormatInt z | ArgFloat x => FormatFloat x end.

(** ** Token bucket: the value is ["tokens|last_refill"] *)

Definition parseTokenBucket (s : string) : option (f64 * f64) :=
  let i := IndexByte s bar in
  if i <? 0 then None
  else
    match ParseFloat (slice_to s i), ParseFloat (slice_from s (i + 1)) with
    | Some t, Some lr => Some (t, lr)
    | _, _ => None
    end.

Definition formatTokenBucket (tokens lastRefill : f64) : string :=
  (FormatFloat tokens +:+ "|") +:+ FormatFloat lastRefill.

(** The refilled state is written on a denial too. *)
Definition tokenBucket_closure (capacity refillRate n now : f64) (ttl : duration) (raw : string) : verdict :=
  let '(tokens, lastRefill) :=
    if bool_decide (raw <> "") then
      match parseTokenBucket raw with Some (t, lr) => (t, lr) | None => (capacity, now) end
    else (capacity, now) in
  let elapsed := (now - lastRefill)%float in
  let refilled := (elapsed * refillRate)%float in
  let tokens := math_Min capacity (tokens + refilled)%float in
  let lastRefill := now in
  let '(tokens, allowed) := if f64_geb tokens n then ((tokens - n)%float, 1) else (tokens, 0) in
  let result := RList [allowed; floor_to_int64 tokens; floor_to_int64 refilled] in
  Put (formatTokenBucket tokens lastRefill) ttl result.

Definition evalTokenBucket (keys : list string) (args : list arg) : store_error + (string -> verdict) :=
  if (length keys <? 1)%nat then inl (ErrScript "dynamodb tokenBucket: missing key")
  else if (length args <? 4)%nat then inl (ErrScript "dynamodb tokenBucket: expected >=4 args")
  else
    coerce toFloat args 0 (fun capacity => coerce toFloat args 1 (fun refillRate =>
    coerce toFloat args 2 (fun n => coerce toFloat args 3 (fun now =>
      if PrimFloat.leb refillRate PrimFloat.zero then inl (ErrScript "dynamodb tokenBucket: refillRate must be > 0")
      else
        let ttlMs := match args !! 4%nat with Some a => toInt64_value a | None => 0 end in
        let ttlMs := if ttlMs <? 1 then ceil_to_int64 (capacity / refillRate / f64_of_Z 1000000)%float else ttlMs in
        inr (tokenBucket_closure capacity refillRate n now (ttlMs *w Millisecond)))))).

(** ** Fixed window: the value is a count *)

Definition parseCounter (s : string) : Z :=
  if bool_decide (s = "") then 0 else match ParseInt s with Some v => v | None => 0 end.

Definition fixedWindow_closure (limit n : Z) (ttl : duration) (raw : string) : verdict :=
  let current := parseCounter raw in
  if limit <? current +w n then Keep (RList [0; current])
  else
    let newCount := current +w n in
    Put (FormatInt newCount) ttl (RList [1; newCount]).

Definition evalFixedWindow (keys : list string) (args : list arg) : store_error + (string -> verdict) :=
  if (length keys <? 1)%nat then inl (ErrScript "dynamodb fixedWindow: missing key")
  else if (length args <? 3)%nat then inl (ErrScript "dynamodb fixedWindow: expected >=3 args")
  else
    coerce toInt64 args 0 (fun limit => coerce toInt64 args 1 (fun n => coerce toInt64 args 2 (fun ttlMs =>
      inr (fixedWindow_closure limit n (ttlMs *w Millisecond))))).

(** ** GCRA and leaky bucket: the value is the TAT *)

Definition gcra_closure (emission burst n now : Z) (ttl : duration) (raw : string) : verdict :=
  let nowF := f64_of_Z now in
  let storedF :=
    if bool_decide (raw <> "") then match ParseInt raw with Some v => f64_of_Z v | None => nowF end else nowF in
  let baseF := if f64_gtb nowF storedF then nowF else storedF in
  let tatF := (baseF + f64_of_Z emission * f64_of_Z n)%float in
  let limitWindowF := (nowF + f64_of_Z emission * f64_of_Z burst)%float in
  if f64_gtb tatF limitWindowF then Keep (RList [0; f64_to_int64 (tatF - limitWindowF)%float])
  else Put (FormatInt (f64_to_int64 tatF)) ttl (RList [1; 0]).

Definition evalGCRA (keys : list string) (args : list arg) : store_error + (string -> verdict) :=
  if (length keys <? 1)%nat then inl (ErrScript "dynamodb gcra: missing key")
  else if (length args <? 5)%nat then inl (ErrScript "dynamodb gcra: expected >=5 args")
  else
    coerce toInt64 args 0 (fun emission => coerce toInt64 args 1 (fun burst => coerce toInt64 args 2 (fun n =>
    coerce toInt64 args 3 (fun now => coerce toInt64 args 4 (fun ttlMs =>
      inr (gcra_closure emission burst n now (ttlMs *w Millisecond))))))).

Definition leakyBucket_closure (emission capacity n now : Z) (ttl : duration) (raw : string) : verdict :=
  let clampDepth dd :=
    let di := floor_to_int64 dd in
    let di := if di <? 0 then 0 else di in
    if capacity <? di then capacity else di in
  let nowF := f64_of_Z now in
  let storedF :=
    if bool_decide (raw <> "") then match ParseInt raw with Some v => f64_of_Z v | None => nowF end else nowF in
  let baseF := if f64_gtb nowF storedF then nowF else storedF in
  let newTatF := (baseF + f64_of_Z emission * f64_of_Z n)%float in
  let limitWindowF := (nowF + f64_of_Z emission * f64_of_Z capacity)%float in
  if f64_gtb newTatF limitWindowF then
    let retryAfter := f64_to_int64 (newTatF - limitWindowF)%float in
    let depth := clampDepth ((baseF - nowF) / f64_of_Z emission)%float in
    Keep (RList [0; depth; retryAfter])
  else
    let depth := clampDepth ((newTatF - nowF) / f64_of_Z emission)%float in
    Put (FormatInt (f64_to_int64 newTatF)) ttl (RList [1; depth; 0]).

Definition evalLeakyBucket (keys : list string) (args : list arg) : store_error + (string -> verdict) :=
  if (length keys <? 1)%nat then inl (ErrScript "dynamodb leakyBucket: missing key")
  else if (length args <? 5)%nat then inl (ErrScript "dynamodb leakyBucket: expected >=5 args")
  else
    coerce toInt64 args 0 (fun emission => coerce toInt64 args 1 (fun capacity => coerce toInt64 args 2 (fun n =>
    coerce toInt64 args 3 (fun now => coerce toInt64 args 4 (fun ttlMs =>
      inr (leakyBucket_closure emission capacity n now (ttlMs *w Millisecond))))))).

(** ** Sliding window log *)

(** [for i := int64(1); i <= n; i++] from [i]. *)
Fixpoint add_loop (fuel : nat) (i n sc : Z) (entryID : string) (zs : zset) : zset :=
  match fuel with
  | O => zs
  | S fuel =>
      if i <=? n then add_loop fuel (i + 1) n sc entryID (add sc ((entryID +:+ "-") +:+ FormatInt i) zs) else zs
  end.

(** The pruned set is written on a denial too. *)
Definition slidingWindowLog_closure (limit windowNs nowNs : Z) (entryID : string) (n : Z) (ttl denyTTL : duration)
    (raw : string) : verdict :=
  let nowScore := f64_to_int64 (f64_of_Z nowNs) in
  let zs := parseZSet raw in
  let cutoff := f64_to_int64 (f64_of_Z nowNs - f64_of_Z windowNs)%float in
  let zs := removeByScoreUpTo cutoff zs in
  let count := zlength zs in
  if limit <? count +w n then
    let retryAfter :=
      match zs !! 0%nat with
      | Some z =>
          let oldest := score z in
          let retryAfter := windowNs -w (nowScore -w oldest) in
          if retryAfter <? 0 then 0 else retryAfter
      | None => 0
      end in
    Put (serialize zs) denyTTL (RList [0; count; retryAfter])
  else
    let zs := add_loop (Z.to_nat n) 1 n nowScore entryID zs in
    Put (serialize zs) ttl (RList [1; count +w n; 0]).

Definition evalSlidingWindowLog (keys : list string) (args : list arg) : store_error + (string -> verdict) :=
  if (length keys <? 1)%nat then inl (ErrScript "dynamodb slidingWindowLog: missing key")
  else if (length args <? 5)%nat then inl (ErrScript "dynamodb slidingWindowLog: expected >=5 args")
  else
    coerce toInt64 args 0 (fun limit => coerce toInt64 args 1 (fun windowNs => coerce toInt64 args 2 (fun nowNs =>
      let entryID := match args !! 3%nat with Some a => toStr a | None => "" end in
      coerce toInt64 args 4 (fun ttlMs =>
        let n := match args !! 5%nat with
                 | Some a => match toInt64 a with inr v => v | inl _ => 1 end
                 | None => 1
                 end in
        let ttl := ttlMs *w Millisecond in
        let denyTTL := (ceil_to_int64 (f64_of_Z ttlMs / f64_of_Z 1000)%float *w 1000) *w Millisecond in
        inr (slidingWindowLog_closure limit windowNs nowNs entryID n ttl denyTTL))))).

(** ** Dispatch *)

Definition script (id : ScriptID) (keys : list string) (args : list arg) : store_error + (string -> verdict) :=
  match id with
  | TokenBucketScriptID => evalTokenBucket keys args
  | FixedWindowScriptID => evalFixedWindow keys args
  | GCRAScriptID => evalGCRA keys args
  | LeakyBucketScriptID => evalLeakyBucket keys args
  | SlidingWindowLogScriptID => evalSlidingWindowLog keys args
  | SlidingWindowCounterScriptID | CircuitBreakerAcquireScriptID | CircuitBreakerRecordScriptID
  | CircuitBreakerReadScriptID => inl (ErrScript "dynamodb: script not supported")
  end.

End Dd.

(** ** The fixed window, within the int64 range *)

Lemma dd_parseCounter s : Dd.parseCounter s = parseCounter s.
Proof. unfold Dd.parseCounter, parseCounter. case_bool_decide as E; [by rewrite E|]. by destruct (ParseInt s). Qed.

Lemma dd_fixedWindow_spec limit ttl : counts limit ttl (fun n => Dd.fixedWindow_closure limit n ttl).
Proof. intros n raw Hn Hr. unfold Dd.fixedWindow_closure. rewrite dd_parseCounter, wrap64_small by go_lia. done. Qed.
