(* ===== verification/ScriptParity.v ===== *)
(** * The scripts of the optimistic stores and the in-memory ones agree.

    [MemcachedEval] and [DynamoEval] work on indices, as the code does; here
    their loops are shown to compute what the functions of [StoreScripts] do,
    and then the scripts themselves to do what the handlers of the in-memory
    store do with the same keys and arguments. *)

From Stdlib Require Import Floats Ascii.
From S2P Require Import Prelude Float64 Strconv StrconvFloat StoreMemory StoreScripts Optimistic MemcachedEval DynamoEval.
Open Scope Z_scope.

(** ** The sorted set *)

Lemma separator_index a rec fuel : (String.length rec <= fuel)%nat ->
  Mc.separator fuel (String.length a) (a +:+ rec) =
  if IndexByte rec fld_sep <? 0 then -1 else Z.of_nat (String.length a) + IndexByte rec fld_sep.
Proof.
  revert a fuel. induction rec as [|c rec IH]; intros a fuel Hf.
  - destruct fuel as [|fuel]; [done|]. cbn [Mc.separator]. rewrite get_app. done.
  - destruct fuel as [|fuel]; [cbn in Hf; lia|]. cbn [Mc.separator]. rewrite get_app. cbn [String.get IndexByte].
    destruct (Ascii.eqb c fld_sep); [cbn; lia|].
    specialize (IH (a +:+ String c "") fuel ltac:(cbn in Hf; lia)).
    rewrite <- app_string_assoc in IH. change (String c "" +:+ rec) with (String c rec) in IH.
    rewrite length_string_app in IH. cbn [String.length] in IH.
    replace (String.length a + 1)%nat with (S (String.length a)) in IH by lia. rewrite IH.
    cbv zeta. destruct (Z.ltb_spec (IndexByte rec fld_sep) 0) as [|Hi]; [done|].
    destruct (Z.ltb_spec (IndexByte rec fld_sep + 1) 0); lia.
Qed.

Lemma append_record_omap rec zs : Mc.append_record rec zs = zs ++ omap parse_record [rec].
Proof.
  unfold Mc.append_record. case_bool_decide as E; [subst; cbn; by rewrite app_nil_r|].
  pose proof (separator_index "" rec (String.length rec) (Nat.le_refl _)) as Hs.
  change ("" +:+ rec) with rec in Hs. change (String.length "") with 0%nat in Hs. rewrite Hs.
  cbn [omap list_omap]. unfold parse_record, cut_field. rewrite cut_at_index.
  destruct (Z.ltb_spec (IndexByte rec fld_sep) 0) as [|Hi]; [cbn; by rewrite app_nil_r|].
  rewrite Z.add_0_l. destruct (Z.ltb_spec (IndexByte rec fld_sep) 0); [lia|]. cbn [mbind option_bind].
  destruct (ParseInt _); cbn; [done|by rewrite app_nil_r].
Qed.

(** One turn of the loop, [c] being the character at [i]. *)
Lemma parse_loop_step fuel a cur rest zs : let i := (String.length a + String.length cur)%nat in
  let s := a +:+ (cur +:+ rest) in
  Mc.parse_loop (S fuel) i (String.length a) s zs =
  if match rest with "" => true | String c _ => Ascii.eqb c rec_sep end
  then Mc.parse_loop fuel (S i) (S i) s (zs ++ omap parse_record [cur])
  else Mc.parse_loop fuel (S i) (String.length a) s zs.
Proof.
  cbv zeta. cbn [Mc.parse_loop]. rewrite <- append_record_omap.
  replace (String.length a + String.length cur - String.length a)%nat with (String.length cur) by lia.
  rewrite substring_app.
  assert (String.get (String.length a + String.length cur) (a +:+ (cur +:+ rest)) = String.get 0 rest) as ->
    by (by rewrite app_string_assoc, <- length_string_app, get_app).
  assert (String.length (a +:+ (cur +:+ rest)) = String.length a + String.length cur + String.length rest)%nat as ->
    by (rewrite !length_string_app; lia).
  destruct rest as [|c rest]; cbn [String.length String.get].
  - by rewrite Nat.add_0_r, Nat.eqb_refl.
  - rewrite (proj2 (Nat.eqb_neq _ _)) by lia. cbn [orb]. destruct (Ascii.eqb_spec c rec_sep) as [->|Hc].
    + by rewrite bool_decide_true.
    + by rewrite bool_decide_false by congruence.
Qed.

(** [s] is [a], the current record [cur] and the [rest] to read. *)
Lemma parse_loop_split a cur rest zs :
  Mc.parse_loop (S (String.length rest)) (String.length a + String.length cur) (String.length a) (a +:+ (cur +:+ rest)) zs =
  zs ++ omap parse_record (split_on rec_sep rest cur).
Proof.
  revert a cur zs. induction rest as [|c rest IH]; intros a cur zs; rewrite parse_loop_step; cbn [String.length split_on]; [done|].
  destruct (Ascii.eqb_spec c rec_sep) as [->|Hc].
  - specialize (IH ((a +:+ cur) +:+ String rec_sep "") "" (zs ++ omap parse_record [cur])).
    change ("" +:+ rest) with rest in IH. rewrite <- !app_string_assoc in IH.
    change (String rec_sep "" +:+ rest) with (String rec_sep rest) in IH. rewrite !length_string_app in IH. cbn [String.length] in IH.
    replace (String.length a + (String.length cur + 1) + 0)%nat with (S (String.length a + String.length cur)) in IH by lia.
    replace (String.length a + (String.length cur + 1))%nat with (S (String.length a + String.length cur)) in IH by lia.
    rewrite IH, <- app_assoc. f_equal. by rewrite <- omap_app.
  - specialize (IH a (cur +:+ String c "") zs).
    rewrite <- !app_string_assoc in IH. change (String c "" +:+ rest) with (String c rest) in IH.
    rewrite length_string_app in IH. cbn [String.length] in IH.
    replace (String.length a + (String.length cur + 1))%nat with (S (String.length a + String.length cur)) in IH by lia. exact IH.
Qed.

Lemma mc_parseZSet s : Mc.parseZSet s = parseZSet s.
Proof.
  unfold Mc.parseZSet. case_bool_decide as E; [by rewrite E|]. exact (parse_loop_split "" "" s []).
Qed.

Lemma serialize_loop_cons i z zs buf : Mc.serialize_loop i (z :: zs) buf =
  Mc.serialize_loop (S i) zs ((if (0 <? i)%nat then buf +:+ String rec_sep "" else buf) +:+ record_string z).
Proof. cbn [Mc.serialize_loop]. unfold record_string. by rewrite <- !app_string_assoc. Qed.

Lemma serialize_loop_app i z zs buf : (0 < i)%nat ->
  Mc.serialize_loop i (z :: zs) buf = buf +:+ String rec_sep (serialize (z :: zs)).
Proof.
  revert i z buf. induction zs as [|z' zs IH]; intros i z buf Hi; rewrite serialize_loop_cons, (proj2 (Nat.ltb_lt 0 i) Hi).
  - by rewrite <- app_string_assoc.
  - rewrite IH by lia. by rewrite <- !app_string_assoc.
Qed.

Lemma mc_serialize zs : Mc.serialize zs = serialize zs.
Proof.
  unfold Mc.serialize. destruct zs as [|z [|z' zs]]; [done|..]; rewrite serialize_loop_cons; [done|].
  by rewrite serialize_loop_app by lia.
Qed.

(** [p] is the sorted part, [x] the element that moves left. *)
Lemma sift_sink p x s : Mc.sift (length p) (p ++ x :: s) = rev (sink x (rev p)) ++ s.
Proof.
  revert s. induction p as [|y p IH] using rev_ind; intros s; [done|].
  rewrite length_app, Nat.add_1_r. cbn [Mc.sift]. rewrite <- app_assoc. cbn [app].
  rewrite (list_lookup_middle p (x :: s) y (length p)) by done.
  replace ((p ++ y :: x :: s) !! S (length p)) with (Some x)
    by (rewrite lookup_app_r by lia; by replace (S (length p) - length p)%nat with 1%nat by lia).
  rewrite rev_unit. cbn [sink]. destruct (Z.ltb_spec (score x) (score y)) as [Hlt|Hge].
  - rewrite insert_app_r_alt by lia. rewrite Nat.sub_diag. cbn [insert list_insert].
    rewrite insert_app_r_alt by lia. replace (S (length p) - length p)%nat with 1%nat by lia. cbn [insert list_insert].
    rewrite IH. cbn [rev]. by rewrite <- app_assoc.
  - cbn [rev]. rewrite rev_involutive. by rewrite <- !app_assoc.
Qed.

Lemma mc_resort zs : Mc.resort zs = resort zs.
Proof.
  unfold Mc.resort, resort.
  assert (forall s rp, rp <> [] ->
    foldl (fun zs i => Mc.sift i zs) (rev rp ++ s) (seq (length rp) (length s)) = rev (foldl (fun rp x => sink x rp) rp s)) as H.
  { induction s as [|x s IH]; intros rp Hrp; [cbn; by rewrite app_nil_r|]. cbn [length seq foldl].
    pose proof (sift_sink (rev rp) x s) as Hs. rewrite length_rev, rev_involutive in Hs. rewrite Hs.
    assert (length (sink x rp) = S (length rp)) as Hl by (by rewrite sink_perm).
    rewrite <- Hl. apply IH. intros E. by rewrite E in Hl. }
  destruct zs as [|z zs]; [done|]. cbn [length]. rewrite Nat.sub_succ, Nat.sub_0_r. exact (H zs [z] ltac:(done)).
Qed.

Lemma find_member_set sc m i zs :
  set_score sc m zs = match Mc.find_member m i zs with
                      | Some j => Some (alter (fun z => mkZ sc (member z)) (j - i)%nat zs)
                      | None => None
                      end /\
  (forall j, Mc.find_member m i zs = Some j -> (i <= j)%nat).
Proof.
  revert i. induction zs as [|z zs IH]; intros i; [done|]. cbn [set_score Mc.find_member].
  case_bool_decide; [split; [by rewrite Nat.sub_diag|by intros j [= <-]]|].
  destruct (IH (S i)) as [E Hle]. rewrite E. destruct (Mc.find_member m (S i) zs) as [j|]; [|done].
  specialize (Hle j eq_refl). split; [|intros j' [= <-]; lia]. cbn.
  by replace (j - i)%nat with (S (j - S i)) by lia.
Qed.

Lemma mc_add sc m zs : Mc.add sc m zs = zadd sc m zs.
Proof.
  unfold Mc.add, zadd. destruct (find_member_set sc m 0 zs) as [-> _].
  destruct (Mc.find_member m 0 zs) as [j|]; [rewrite Nat.sub_0_r|]; apply mc_resort.
Qed.

Lemma prune_index_drop cutoff a zs :
  (length a <= Mc.prune_index (length zs) (length a) cutoff (a ++ zs))%nat /\
  drop (Mc.prune_index (length zs) (length a) cutoff (a ++ zs)) (a ++ zs) = removeByScoreUpTo cutoff zs.
Proof.
  revert a. induction zs as [|z zs IH]; intros a; cbn [length Mc.prune_index removeByScoreUpTo].
  - split; [done|]. by rewrite drop_app_length.
  - rewrite list_lookup_middle by done. destruct (_ <=? _); [|split; [done|by rewrite drop_app_length]].
    specialize (IH (a ++ [z])). rewrite length_app, Nat.add_1_r, <- app_assoc in IH. cbn [app] in IH.
    destruct IH as [IH1 IH2]. split; [lia|done].
Qed.

Lemma mc_removeByScoreUpTo cutoff zs : Mc.removeByScoreUpTo cutoff zs = removeByScoreUpTo cutoff zs.
Proof.
  unfold Mc.removeByScoreUpTo. destruct (prune_index_drop cutoff [] zs) as [_ H]. cbn [length app] in H.
  destruct (Nat.ltb_spec 0 (Mc.prune_index (length zs) 0 cutoff zs)); [done|].
  rewrite <- H. by replace (Mc.prune_index (length zs) 0 cutoff zs) with 0%nat by lia.
Qed.

Lemma add_loop_members k i n sc id zs : n = i + Z.of_nat k - 1 ->
  Mc.add_loop k i n sc id zs = add_members k i sc id zs.
Proof.
  revert i zs. induction k as [|k IH]; intros i zs Hn; [done|]. cbn [Mc.add_loop add_members].
  rewrite (proj2 (Z.leb_le i n)) by lia. rewrite IH by lia. by rewrite mc_add, <- app_string_assoc.
Qed.

Lemma mc_add_loop n sc id zs : Mc.add_loop (Z.to_nat n) 1 n sc id zs = add_members (Z.to_nat n) 1 sc id zs.
Proof. destruct (Z.leb_spec 0 n); [apply add_loop_members; lia|]. by rewrite Z2Nat.nonpos by lia. Qed.

(** ** The closures *)

Lemma mc_parseTokenBucket s : Mc.parseTokenBucket s = parseTokenBucket s.
Proof.
  unfold Mc.parseTokenBucket, parseTokenBucket. rewrite cut_at_index. destruct (_ <? 0); [done|].
  cbn [mbind option_bind]. destruct (ParseFloat (slice_to _ _)); [|done]. cbn. by destruct (ParseFloat _).
Qed.

Lemma mc_formatTokenBucket tokens lastRefill : Mc.formatTokenBucket tokens lastRefill = formatTokenBucket tokens lastRefill.
Proof. unfold Mc.formatTokenBucket. by rewrite <- app_string_assoc. Qed.

(** [int64(math.Ceil(x)) * 1000] is what the in-memory store computes as [-math.Floor(-x)]. *)
Lemma ceil_seconds_ceil ttlMs : ceil_to_int64 (f64_of_Z ttlMs / f64_of_Z 1000)%float *w 1000 = ceil_seconds ttlMs.
Proof.
  unfold ceil_seconds, ceil_to_int64, floor_to_int64. destruct (f64_floor _) as [z|]; [|by vm_compute].
  assert (min_int64 *w 1000 = 0 /\ - min_int64 *w 1000 = 0) as [E1 E2] by by vm_compute.
  destruct (Z.leb_spec min_int64 z), (Z.leb_spec z max_int64), (Z.leb_spec min_int64 (- z)), (Z.leb_spec (- z) max_int64);
    cbn [andb]; rewrite ?E1, ?E2; try done; try (unfold min_int64, max_int64 in *; lia).
  - replace z with min_int64 by (unfold min_int64, max_int64 in *; lia). by rewrite E2.
  - replace z with (- min_int64) by (unfold min_int64, max_int64 in *; lia). by rewrite Z.opp_involutive, E1.
Qed.

(** The verdict that an entry's critical section amounts to: its reply and the value it leaves; it either keeps the
    life of the entry or renews it for the verdict's time to live. *)
Definition agrees (t : time) (v : verdict) (e : entry) (res : entry * (store_error + reply)) : Prop :=
  match v with
  | Reject err => res = (e, inl err)
  | Keep r => res = (e, inr r)
  | Put new ttl r =>
      value (fst res) = new /\ snd res = inr r /\
      (expiresAt (fst res) = expiresAt e \/ expiresAt (fst res) = time_add t ttl)
  end.

Lemma agrees_put t new ms r e : agrees t (Put new (ms *w Millisecond) r) e
  (setEntryTTLmsAbs (mkEntry new (expiresAt e)) ms t, inr r).
Proof. unfold setEntryTTLmsAbs. destruct (ms <=? 0); cbn; auto. Qed.

Lemma tokenBucket_agrees capacity rate n now ttlMs t e :
  agrees t (Mc.tokenBucket_closure capacity rate n now (ttlMs *w Millisecond) (value e)) e
    (tokenBucket_body capacity rate n now ttlMs t e).
Proof.
  unfold Mc.tokenBucket_closure, tokenBucket_body, refill. rewrite mc_parseTokenBucket.
  assert ((if bool_decide (value e <> "") then
             match parseTokenBucket (value e) with Some (t, lr) => (t, lr) | None => (capacity, now) end
           else (capacity, now)) =
          (if bool_decide (value e = "") then (capacity, now) else default (capacity, now) (parseTokenBucket (value e)))) as ->.
  { repeat case_bool_decide; try done. by destruct (parseTokenBucket (value e)) as [[? ?]|]. }
  destruct (if bool_decide (value e = "") then _ else _) as [tokens last]. cbv zeta.
  destruct (f64_geb _ n); rewrite mc_formatTokenBucket; apply agrees_put.
Qed.

Lemma fixedWindow_agrees limit n ttlMs t e :
  agrees t (Mc.fixedWindow_closure limit n (ttlMs *w Millisecond) (value e)) e (fixedWindow_body limit n ttlMs t e).
Proof.
  unfold Mc.fixedWindow_closure, fixedWindow_body. rewrite mc_parseCounter. destruct (_ <? _); [done|].
  destruct (_ =? 0); [apply agrees_put|]. cbn. auto.
Qed.

(** An empty value does not parse, so testing for it first changes nothing. *)
Lemma stored_tat raw nowF :
  (if bool_decide (raw <> "") then match ParseInt raw with Some v => f64_of_Z v | None => nowF end else nowF) =
  match ParseInt raw with Some v => f64_of_Z v | None => nowF end.
Proof. case_bool_decide as E; [done|]. by destruct (decide (raw = "")) as [->|]. Qed.

Lemma gcra_agrees emission burst n now ttlMs t e :
  agrees t (Mc.gcra_closure emission burst n now (ttlMs *w Millisecond) (value e)) e (gcra_body emission burst n now ttlMs t e).
Proof.
  unfold Mc.gcra_closure, gcra_body, tat_float. rewrite stored_tat. cbv zeta.
  destruct (f64_gtb _ (_ + _ * f64_of_Z burst)%float); [done|apply agrees_put].
Qed.

Lemma leaky_agrees emission capacity n now ttlMs t e :
  agrees t (Mc.leakyBucket_closure emission capacity n now (ttlMs *w Millisecond) (value e)) e
    (leaky_body emission capacity n now ttlMs t e).
Proof.
  unfold Mc.leakyBucket_closure, leaky_body, tat_float, clampDepth. rewrite stored_tat. cbv zeta.
  destruct (f64_gtb _ (_ + _ * f64_of_Z capacity)%float); [done|apply agrees_put].
Qed.

Lemma slidingLog_agrees limit window now id ttlMs n t e :
  agrees t (Mc.slidingWindowLog_closure limit window now id n (ttlMs *w Millisecond)
              ((ceil_to_int64 (f64_of_Z ttlMs / f64_of_Z 1000)%float *w 1000) *w Millisecond) (value e)) e
    (slidingLog_body limit window now id ttlMs n t e).
Proof.
  unfold Mc.slidingWindowLog_closure, slidingLog_body. rewrite mc_parseZSet, mc_removeByScoreUpTo. cbv zeta.
  rewrite !mc_serialize, mc_add_loop, ceil_seconds_ceil. destruct (limit <? _); [|apply agrees_put].
  destruct (removeByScoreUpTo _ _); apply agrees_put.
Qed.

(** ** The scripts *)

(** A handler of the in-memory store on [key], against the closure of a store: both refuse the arguments, or the
    handler runs a critical section on the entry of the key that the closure agrees with. *)
Definition same_script (max : Z) (rd : script_reads) (keys : list string) (c : store_error + (string -> verdict)) (h : prog) : Prop :=
  match c, keys with
  | inl _, _ => exists err, h = reject err
  | inr f, key :: _ =>
      exists body, h = loadOrCreateRaw max key (sr_load rd) (fun l => r <-- Locked l body ;; Ret r) /\
      forall e, agrees (sr_ttl rd) (f (value e)) e (body e)
  | inr _, [] => False
  end.

(** [mc_toInt64]: the stores' coercions are those of the in-memory store. *)
Lemma mc_toInt64 a : Mc.toInt64 a = toInt64 a.
Proof. by destruct a. Qed.

Lemma mc_toFloat a : Mc.toFloat a = toFloat a.
Proof. by destruct a. Qed.

Lemma same_int max rd keys args i f h : (forall z, same_script max rd keys (f z) (h z)) ->
  same_script max rd keys (coerce Mc.toInt64 args i f) (int_arg args i h).
Proof.
  intros Hk. unfold coerce, int_arg. destruct (args !! i) as [a|]; [|by eexists]. rewrite mc_toInt64.
  destruct (toInt64 a); [by eexists|apply Hk].
Qed.

Lemma same_float max rd keys args i f h : (forall x, same_script max rd keys (f x) (h x)) ->
  same_script max rd keys (coerce Mc.toFloat args i f) (float_arg args i h).
Proof.
  intros Hk. unfold coerce, float_arg. destruct (args !! i) as [a|]; [|by eexists]. rewrite mc_toFloat.
  destruct (toFloat a); [by eexists|apply Hk].
Qed.

Lemma same_body max rd key keys f body : (forall e, agrees (sr_ttl rd) (f (value e)) e (body e)) ->
  same_script max rd (key :: keys) (inr f)
    (loadOrCreateRaw max key (sr_load rd) (fun l => r <-- Locked l body ;; Ret r)).
Proof. intros H. by exists body. Qed.

Lemma same_reject max rd keys e err : same_script max rd keys (inl e) (reject err).
Proof. by exists err. Qed.

Lemma no_server_time flag t : memoryServerNowNs false flag t = None.
Proof. unfold memoryServerNowNs. by rewrite orb_true_r. Qed.

(** The handlers refuse a missing key and missing arguments, coerce the arguments one after the other and run. *)
Ltac same_script_steps :=
  cbn [length Nat.ltb Nat.leb];
  repeat match goal with
  | |- same_script _ _ _ (if ?c then _ else _) (if ?c then _ else _) => destruct c
  | |- same_script _ _ _ (inl _) (reject _) => apply same_reject
  | |- same_script _ _ _ (coerce Mc.toInt64 _ _ _) _ => apply same_int; intros ?; cbv zeta; rewrite ?no_server_time
  | |- same_script _ _ _ (coerce Mc.toFloat _ _ _) _ => apply same_float; intros ?; cbv zeta; rewrite ?no_server_time
  end.

Lemma mc_same_script max rd keys args :
  Forall (fun id => same_script max rd keys (Mc.script id keys args) (store_Eval max false rd id keys args))
    [TokenBucketScriptID; FixedWindowScriptID; GCRAScriptID; LeakyBucketScriptID; SlidingWindowLogScriptID].
Proof.
  repeat apply Forall_cons_2; [..|done]; cbn [Mc.script store_Eval]; (destruct keys as [|key keys]; [by eexists|]).
  - unfold Mc.evalTokenBucket, tokenBucketHandler. same_script_steps.
    assert (match args !! 4%nat with Some a => Mc.toInt64_value a | None => 0 end = from_option toInt64_value 0 (args !! 4%nat)) as ->.
    { destruct (args !! 4%nat) as [[]|]; done. }
    apply same_body. intros e. apply tokenBucket_agrees.
  - unfold Mc.evalFixedWindow, fixedWindowHandler. same_script_steps. apply same_body. intros e. apply fixedWindow_agrees.
  - unfold Mc.evalGCRA, gcraHandler, tat_handler. same_script_steps. apply same_body. intros e. apply gcra_agrees.
  - unfold Mc.evalLeakyBucket, leakyBucketHandler, tat_handler. same_script_steps. apply same_body. intros e. apply leaky_agrees.
  - unfold Mc.evalSlidingWindowLog, slidingWindowLogHandler.
    assert (match args !! 3%nat with Some a => Mc.toStr a | None => "" end = from_option toString "" (args !! 3%nat)) as ->
      by (by destruct (args !! 3%nat) as [[]|]).
    same_script_steps.
    assert (match args !! 5%nat with Some a => match Mc.toInt64 a with inr v => v | inl _ => 1 end | None => 1 end =
            match args !! 5%nat with Some a => match toInt64 a with inr v => v | inl _ => 1 end | None => 1 end) as ->
      by (by destruct (args !! 5%nat) as [[]|]).
    apply same_body. intros e. apply slidingLog_agrees.
Qed.

(** Both refuse, or both run the same closure. *)
Definition alike (c d : store_error + (string -> verdict)) : Prop :=
  match c, d with inl _, inl _ => True | inr f, inr g => f = g | _, _ => False end.

Lemma same_alike max rd keys c d h : alike c d -> same_script max rd keys c h -> same_script max rd keys d h.
Proof. unfold alike. destruct c, d; cbn; [done..|by intros ->]. Qed.

Lemma alike_coerce {A} (g : arg -> store_error + A) args i f f' : (forall x, alike (f x) (f' x)) ->
  alike (coerce g args i f) (coerce g args i f').
Proof. intros H. unfold coerce. destruct (args !! i) as [a|]; [|done]. destruct (g a); [done|apply H]. Qed.

(** The two ports differ in their texts only: after the same checks and coercions their closures are convertible. *)
Lemma dd_alike id keys args : alike (Mc.script id keys args) (Dd.script id keys args).
Proof.
  destruct id; cbn [Mc.script Dd.script]; try done;
    unfold Mc.evalTokenBucket, Dd.evalTokenBucket, Mc.evalFixedWindow, Dd.evalFixedWindow, Mc.evalGCRA, Dd.evalGCRA,
      Mc.evalLeakyBucket, Dd.evalLeakyBucket, Mc.evalSlidingWindowLog, Dd.evalSlidingWindowLog;
    repeat match goal with
    | |- alike (if ?c then _ else _) (if ?c then _ else _) => destruct c; [done|]
    | |- alike (coerce _ _ _ _) (coerce _ _ _ _) => apply alike_coerce; intros ?; cbv zeta
    end; reflexivity.
Qed.

(** C29: The scripts of the optimistic stores are those of the in-memory store. On any keys and arguments the token bucket,
    fixed window, GCRA, leaky bucket and sliding log scripts of memcached and of DynamoDB refuse the call exactly when the
    in-memory handler does, its server-time mode being off. Otherwise the handler runs a critical section on the entry of
    the first key, and on any stored value the closure gives its reply and writes the value it leaves, with the time to
    live the handler renews the entry for if it does, and writes nothing where the handler leaves the entry alone. *)
Theorem optimistic_scripts_agree max rd keys args :
  Forall (fun id =>
      same_script max rd keys (Mc.script id keys args) (store_Eval max false rd id keys args) /\
      same_script max rd keys (Dd.script id keys args) (store_Eval max false rd id keys args))
    [TokenBucketScriptID; FixedWindowScriptID; GCRAScriptID; LeakyBucketScriptID; SlidingWindowLogScriptID].
Proof.
  eapply Forall_impl; [apply mc_same_script|]. intros id H. split; [exact H|].
  apply (same_alike _ _ _ (Mc.script id keys args)); [apply dd_alike|exact H].
Qed.

(** The ports at work: a log with a pruned member and a broken record, and a bucket refilled past its capacity. *)
Example scripts_run :
  match Mc.evalSlidingWindowLog ["k"] [ArgInt 3; ArgInt 10; ArgInt 25; ArgStr "r"; ArgInt 1500; ArgInt 2] with
  | inr f => f (serialize [mkZ 12 "a"; mkZ 20 "b"] +:+ String rec_sep "broken")
  | inl e => Reject e
  end = Put (serialize [mkZ 20 "b"; mkZ 25 "r-1"; mkZ 25 "r-2"]) (1500 * Millisecond) (RList [1; 3; 0]) /\
  match Dd.evalTokenBucket ["k"] [ArgInt 5; ArgFloat 1; ArgInt 2; ArgInt 30; ArgInt 100] with
  | inr f => f "4|20"
  | inl e => Reject e
  end = Put "3|30" (100 * Millisecond) (RList [1; 3; 10]).
Proof. vm_compute. split; reflexivity. Qed.
