(* ===== verification/StoreMemcached.v ===== *)
(** * The memcached store ([stores/memcached/memcached.go], [eval.go]).

    The methods are programs over the [client] interface, which is a parameter
    (a class with its laws); the scripts run in the optimistic loop.  Calls to
    the fallback store are recorded; the default fallback is the in-memory
    store. *)

From stdpp Require Import relations.
From S2P Require Import Prelude Strconv StoreMemory StoreScripts StoreAtomic Optimistic MemcachedEval.
Open Scope Z_scope.

Definition maxCASRetries : nat := 32.

(** ** Errors and expirations *)

(** The errors of the client library that the store distinguishes; [ErrTransport]: any other one. *)
Inductive mc_err := ErrCacheMiss | ErrCASConflict | ErrNotStored | ErrNoServers | ErrServerError | ErrMalformedKey
| ErrTransport.

Definition isConnError (e : mc_err) : bool :=
  match e with ErrCacheMiss | ErrCASConflict | ErrNotStored | ErrMalformedKey => false | _ => true end.

(** [int32(z)]. *)
Definition wrap32 (z : Z) : Z := (z + 2147483648) mod 4294967296 - 2147483648.

Definition thirtyDays : Z := 60 * 60 * 24 * 30.

(** [unix]: [time.Now().Unix()]. *)
Definition ttlToSeconds (ttl : duration) (unix : Z) : Z :=
  if ttl <=? 0 then 0
  else
    let secs := Z.quot ttl Second in
    let secs := if Z.rem ttl Second =? 0 then secs else secs + 1 in
    let secs := if secs <? 1 then 1 else secs in
    if thirtyDays <? secs then wrap32 (unix + secs) else wrap32 secs.

Definition ttlFromExp (exp : Z) : duration :=
  if exp <=? 0 then 0 else if thirtyDays <? exp then 0 else exp *w Second.

(** ** The client and programs *)

Record Item := mkItem { Value : string; Expiration : Z; CasID : Z }.

(** Calls to the fallback store. *)
Inductive fb_call :=
| FbGet (key : string)
| FbSet (key value : string) (ttl : duration)
| FbSetNX (key value : string) (ttl : duration)
| FbGetSet (key value : string) (ttl : duration)
| FbIncrBy (key : string) (delta : Z) (ttl : duration)
| FbDel (keys : list string)
| FbEval (id : ScriptID) (keys : list string) (args : list arg).

(** The default fallback: an in-memory store without a key limit. *)
Definition fb_prog (now : time) (c : fb_call) : prog :=
  match c with
  | FbGet k => StoreMemory.Get 0 k now
  | FbSet k v ttl => StoreMemory.Set_ 0 k v ttl now
  | FbSetNX k v ttl => StoreMemory.SetNX 0 k v ttl now
  | FbGetSet k v ttl => StoreMemory.GetSet 0 k v ttl now
  | FbIncrBy k d ttl => StoreMemory.IncrBy 0 k d ttl now
  | FbDel ks => StoreMemory.Del 0 ks
  | FbEval id ks args => store_Eval 0 false (script_reads_at now) id ks args
  end.

Inductive mprog :=
| MRet (r : store_error + reply)
| MFallback (c : fb_call)
| MGet (k : string) (cont : mc_err + Item -> mprog)
| MSet (k : string) (it : Item) (cont : option mc_err -> mprog)
| MAdd (k : string) (it : Item) (cont : option mc_err -> mprog)
| MCas (k : string) (it : Item) (cont : option mc_err -> mprog)
| MIncrement (k : string) (delta : Z) (cont : mc_err + Z -> mprog)
| MDelete (k : string) (cont : option mc_err -> mprog).

(** An operation that failed: connection errors go to the fallback, others are wrapped. *)
Definition failed (e : mc_err) (op : string) (c : fb_call) : mprog :=
  if isConnError e then MFallback c else MRet (inl (ErrScript ("memcached " +:+ op))).

(** ** The methods; [prefix] is [KeyPrefix], [unix] the reading of [ttlToSeconds]. *)

Section methods.
Context (prefix : string) (unix : Z).

Definition prefixed (key : string) : string := prefix +:+ key.

Definition Get (key : string) : mprog :=
  MGet (prefixed key) (fun res =>
    match res with
    | inr it => MRet (inr (RStr (Value it)))
    | inl ErrCacheMiss => MRet (inl ErrNotFound)
    | inl e => failed e "get" (FbGet key)
    end).

Definition Set_ (key value : string) (ttl : duration) : mprog :=
  MSet (prefixed key) (mkItem value (ttlToSeconds ttl unix) 0) (fun err =>
    match err with None => MRet (inr RUnit) | Some e => failed e "set" (FbSet key value ttl) end).

Definition SetNX (key value : string) (ttl : duration) : mprog :=
  MAdd (prefixed key) (mkItem value (ttlToSeconds ttl unix) 0) (fun err =>
    match err with
    | None => MRet (inr (RBool true))
    | Some ErrNotStored => MRet (inr (RBool false))
    | Some e => failed e "setnx" (FbSetNX key value ttl)
    end).

(** The loop of [GetSet], [turns] to go. *)
Fixpoint GetSet_loop (turns : nat) (key value : string) (ttl : duration) : mprog :=
  match turns with
  | O => MRet (inl ErrExhausted)
  | S turns =>
      let exp := ttlToSeconds ttl unix in
      let fb e op := failed e op (FbGetSet key value ttl) in
      MGet (prefixed key) (fun res =>
        match res with
        | inl ErrCacheMiss =>
            MAdd (prefixed key) (mkItem value exp 0) (fun err =>
              match err with
              | None => MRet (inr (RStr ""))
              | Some ErrNotStored => GetSet_loop turns key value ttl
              | Some e => fb e "getset add"
              end)
        | inl e => fb e "getset get"
        | inr it =>
            MCas (prefixed key) (mkItem value exp (CasID it)) (fun err =>
              match err with
              | None => MRet (inr (RStr (Value it)))
              | Some ErrCASConflict | Some ErrNotStored => GetSet_loop turns key value ttl
              | Some e => fb e "getset cas"
              end)
        end)
  end.

Definition GetSet := GetSet_loop maxCASRetries.

(** A conditional write keeps no expiry: its item carries [Expiration: 0]. *)
Fixpoint incrByCAS (turns : nat) (key : string) (delta : Z) (exp : Z) : mprog :=
  match turns with
  | O => MRet (inl ErrExhausted)
  | S turns =>
      let fb e op := failed e op (FbIncrBy key delta (ttlFromExp exp)) in
      MGet (prefixed key) (fun res =>
        match res with
        | inl ErrCacheMiss =>
            MAdd (prefixed key) (mkItem (FormatInt delta) exp 0) (fun err =>
              match err with
              | None => MRet (inr (RInt delta))
              | Some ErrNotStored => incrByCAS turns key delta exp
              | Some e => fb e "incrby add"
              end)
        | inl e => fb e "incrby get"
        | inr it =>
            match ParseInt (Value it) with
            | None => MRet (inl (ErrNotInteger key (Value it)))
            | Some current =>
                let newVal := current +w delta in
                MCas (prefixed key) (mkItem (FormatInt newVal) 0 (CasID it)) (fun err =>
                  match err with
                  | None => MRet (inr (RInt newVal))
                  | Some ErrCASConflict | Some ErrNotStored => incrByCAS turns key delta exp
                  | Some e => fb e "incrby cas"
                  end)
            end
        end)
  end.

(** The method calls itself when the key has expired between [Add] and [Increment]; [fuel] bounds the
    number of times that happens. *)
Fixpoint IncrBy (fuel : nat) (key : string) (delta : Z) (ttl : duration) : mprog :=
  let exp := ttlToSeconds ttl unix in
  if delta <? 0 then incrByCAS maxCASRetries key delta exp
  else
    MAdd (prefixed key) (mkItem (FormatInt delta) exp 0) (fun err =>
      match err with
      | None => MRet (inr (RInt delta))
      | Some ErrNotStored =>
          MIncrement (prefixed key) delta (fun res =>
            match res with
            | inr newVal => MRet (inr (RInt (wrap64 newVal)))
            | inl ErrCacheMiss =>
                match fuel with S fuel => IncrBy fuel key delta ttl | O => MRet (inl (ErrScript "out of fuel")) end
            | inl e => failed e "incrby" (FbIncrBy key delta ttl)
            end)
      | Some e => failed e "incrby add" (FbIncrBy key delta ttl)
      end).

(** On a connection error all the keys go to the fallback. *)
Fixpoint Del_loop (keys todo : list string) : mprog :=
  match todo with
  | [] => MRet (inr RUnit)
  | k :: todo =>
      MDelete (prefixed k) (fun err =>
        match err with
        | None | Some ErrCacheMiss => Del_loop keys todo
        | Some e => failed e "del" (FbDel keys)
        end)
  end.

Definition Del (keys : list string) : mprog := Del_loop keys keys.

(** *** Scripts *)

(** The conditional write of what was computed from [item]. *)
Definition cas_write (id : ScriptID) (key : string) (item : option Item) (v : string) (ttl : duration) (r : reply)
    (again : mprog) : mprog :=
  let exp := ttlToSeconds ttl unix in
  let fb e op := failed e op (FbEval id [key] []) in
  match item with
  | None =>
      MAdd (prefixed key) (mkItem v exp 0) (fun err =>
        match err with
        | None => MRet (inr r)
        | Some ErrNotStored => again
        | Some e => fb e "eval add"
        end)
  | Some it =>
      MCas (prefixed key) (mkItem v exp (CasID it)) (fun err =>
        match err with
        | None => MRet (inr r)
        | Some ErrCASConflict | Some ErrNotStored => again
        | Some e => fb e "eval cas"
        end)
  end.

Fixpoint casMutate (turns : nat) (id : ScriptID) (key : string) (compute : string -> verdict) : mprog :=
  match turns with
  | O => MRet (inl ErrExhausted)
  | S turns =>
      MGet (prefixed key) (fun res =>
        let mutate item :=
          match compute (from_option Value "" item) with
          | Reject e => MRet (inl e)
          | Keep r => MRet (inr r)
          | Put v ttl r => cas_write id key item v ttl r (casMutate turns id key compute)
          end in
        match res with
        | inr it => mutate (Some it)
        | inl ErrCacheMiss => mutate None
        | inl e => failed e "eval get" (FbEval id [key] [])
        end)
  end.

(** A script whose closure is computed from its arguments, on its first key. *)
Definition eval_script (id : ScriptID) (keys : list string) (args : list arg) : mprog :=
  match Mc.script id keys args, keys with
  | inr compute, key :: _ => casMutate maxCASRetries id key compute
  | inl e, _ => MRet (inl e)
  | _, [] => MRet (inl (ErrScript "missing key"))
  end.

Definition evalTokenBucket := eval_script TokenBucketScriptID.
Definition evalFixedWindow := eval_script FixedWindowScriptID.
Definition evalGCRA := eval_script GCRAScriptID.
Definition evalLeakyBucket := eval_script LeakyBucketScriptID.
Definition evalSlidingWindowLog := eval_script SlidingWindowLogScriptID.

Definition Memcached_Eval (id : ScriptID) (keys : list string) (args : list arg) : mprog :=
  match id with
  | TokenBucketScriptID => evalTokenBucket keys args
  | FixedWindowScriptID => evalFixedWindow keys args
  | GCRAScriptID => evalGCRA keys args
  | LeakyBucketScriptID => evalLeakyBucket keys args
  | SlidingWindowLogScriptID => evalSlidingWindowLog keys args
  | SlidingWindowCounterScriptID | CircuitBreakerAcquireScriptID | CircuitBreakerRecordScriptID
  | CircuitBreakerReadScriptID => MRet (inl (ErrScript ("memcached" +:+ ": script not supported")))
  end.

Lemma Memcached_Eval_script id keys args : Memcached_Eval id keys args = eval_script id keys args.
Proof. by destruct id. Qed.

End methods.

(** ** Running programs *)

Class Client (S : Type) := {
  cl_get : string -> S -> (mc_err + Item) * S;
  cl_set : string -> Item -> S -> option mc_err * S;
  cl_add : string -> Item -> S -> option mc_err * S;
  cl_cas : string -> Item -> S -> option mc_err * S;
  cl_increment : string -> Z -> S -> (mc_err + Z) * S;
  cl_delete : string -> S -> option mc_err * S;
}.

Section semantics.
Context {S : Type} `{Client S}.

(** One call to the server. *)
Definition mstep (p : mprog) (s : S) : option (mprog * S) :=
  let go {A} (k : A -> mprog) (x : A * S) := Some (k (fst x), snd x) in
  match p with
  | MRet _ | MFallback _ => None
  | MGet k cont => go cont (cl_get k s)
  | MSet k it cont => go cont (cl_set k it s)
  | MAdd k it cont => go cont (cl_add k it s)
  | MCas k it cont => go cont (cl_cas k it s)
  | MIncrement k d cont => go cont (cl_increment k d s)
  | MDelete k cont => go cont (cl_delete k s)
  end.

(** A call that is not interleaved: its reply, or its call to the fallback. *)
Fixpoint mrun (p : mprog) (s : S) : ((store_error + reply) + fb_call) * S :=
  match p with
  | MRet r => (inl r, s)
  | MFallback c => (inr c, s)
  | MGet k cont => let '(x, s) := cl_get k s in mrun (cont x) s
  | MSet k it cont => let '(x, s) := cl_set k it s in mrun (cont x) s
  | MAdd k it cont => let '(x, s) := cl_add k it s in mrun (cont x) s
  | MCas k it cont => let '(x, s) := cl_cas k it s in mrun (cont x) s
  | MIncrement k d cont => let '(x, s) := cl_increment k d s in mrun (cont x) s
  | MDelete k cont => let '(x, s) := cl_delete k s in mrun (cont x) s
  end.

Context (pk : string).

(** What the store relies on at the key [pk], of a server that is reachable ([ok]) and does not evict: [Add]
    stores exactly when the key is absent, a conditional write exactly when the key is present with the
    same identifier, and the identifier of a write is not one of those given out before ([given]). *)
Class ClientLaws (ok : S -> Prop) (given : S -> Z -> Prop) : Prop := {
  get_reads s : ok s -> snd (cl_get pk s) = s /\ forall e, fst (cl_get pk s) = inl e -> e = ErrCacheMiss;
  get_given s it : ok s -> fst (cl_get pk s) = inr it -> given s (CasID it);
  add_present s it it' : ok s -> fst (cl_get pk s) = inr it -> cl_add pk it' s = (Some ErrNotStored, s);
  add_absent s it' : ok s -> fst (cl_get pk s) = inl ErrCacheMiss -> fst (cl_add pk it' s) = None;
  cas_absent s it' : ok s -> fst (cl_get pk s) = inl ErrCacheMiss -> cl_cas pk it' s = (Some ErrNotStored, s);
  cas_conflict s it it' : ok s -> fst (cl_get pk s) = inr it -> CasID it <> CasID it' ->
    cl_cas pk it' s = (Some ErrCASConflict, s);
  cas_match s it it' : ok s -> fst (cl_get pk s) = inr it -> CasID it = CasID it' -> fst (cl_cas pk it' s) = None;
  stored s s' it' : ok s -> cl_add pk it' s = (None, s') \/ cl_cas pk it' s = (None, s') ->
    ok s' /\ exists it, fst (cl_get pk s') = inr it /\ Value it = Value it' /\ ~ given s (CasID it) /\
      (forall c, given s c -> given s' c);
}.

Context (ok : S -> Prop) (given : S -> Z -> Prop) `{!ClientLaws ok given} (unix : Z).

(** The key as a cell of the optimistic loop; the version of an absent key is [None]. *)
#[export] Instance mc_cell : Cell S (option Item) (option Z) := {
  observe s := match fst (cl_get pk s) with inr it => Some it | inl _ => None end;
  commit o v ttl s :=
    let exp := ttlToSeconds ttl unix in
    let '(err, s') := match o with None => cl_add pk (mkItem v exp 0) s
                                 | Some it => cl_cas pk (mkItem v exp (CasID it)) s end in
    match err with None => Some s' | Some _ => None end;
  raw o := from_option Value "" o;
  ver o := CasID <$> o;
  issued s t := match t with None => True | Some c => given s c end;
  live := ok;
  quiet s s' := fst (cl_get pk s') = fst (cl_get pk s) /\ (forall c, given s c -> given s' c);
}.

Lemma get_cases s : ok s -> (exists it, fst (cl_get pk s) = inr it) \/ fst (cl_get pk s) = inl ErrCacheMiss.
Proof.
  intros Hok. destruct (get_reads s Hok) as [_ He]. destruct (fst (cl_get pk s)) as [e|it]; [right|left; eauto].
  by rewrite (He e eq_refl).
Qed.

#[export] Instance mc_cell_laws : CellLaws S (option Item) (option Z).
Proof.
  constructor; cbn [observe commit raw ver issued live quiet mc_cell].
  - intros s Hok. destruct (fst (cl_get pk s)) as [e|it] eqn:E; cbn; [done|]. by eapply get_given.
  - intros s o v ttl Hok _. destruct o as [it'|]; cbn; destruct (get_cases s Hok) as [[it E]|E]; rewrite E; cbn.
    + destruct (decide (CasID it = CasID it')) as [Heq|Hne].
      * pose proof (cas_match s it (mkItem v (ttlToSeconds ttl unix) (CasID it')) Hok E Heq) as Hm.
        destruct (cl_cas pk _ s) as [err s']. cbn in Hm. subst err. split; [by rewrite Heq|by eauto].
      * rewrite (cas_conflict s it (mkItem v (ttlToSeconds ttl unix) (CasID it')) Hok E Hne).
        split; [by intros []|]. intros; simplify_eq.
    + rewrite cas_absent by done. split; [by intros []|done].
    + rewrite (add_present s it) by done. split; [by intros []|done].
    + pose proof (add_absent s (mkItem v (ttlToSeconds ttl unix) 0) Hok E) as Hm.
      destruct (cl_add pk _ s) as [err s']. cbn in Hm. subst err. split; eauto.
  - intros s o v ttl s' Hok _ Hc.
    assert (exists it', Value it' = v /\ (cl_add pk it' s = (None, s') \/ cl_cas pk it' s = (None, s'))) as (it' & <- & Hst).
    { destruct o as [it|]; cbn in Hc.
      - exists (mkItem v (ttlToSeconds ttl unix) (CasID it)). destruct (cl_cas pk _ s) as [[]]; simplify_eq; auto.
      - exists (mkItem v (ttlToSeconds ttl unix) 0). destruct (cl_add pk _ s) as [[]]; simplify_eq; auto. }
    destruct (stored s s' it' Hok Hst) as (_ & it & E & HV & Hfresh & Hmono). rewrite E. cbn. split_and!; auto.
    intros [c|]; cbn; auto.
  - intros s s' _ _ [-> Hg]. split; [done|]. intros [c|]; cbn; auto.
Qed.

End semantics.

(** ** Concurrent scripts on one key *)

Definition mc_returned (p : mprog) : option (store_error + reply) := match p with MRet r => Some r | _ => None end.

Notation mc_call := (ScriptID * (string -> verdict))%type.

Section concurrent.
Context {S : Type} `{Client S} (prefix key : string) (unix : Z).
Context (ok : S -> Prop) (given : S -> Z -> Prop) `{!ClientLaws (prefixed prefix key) ok given}.

Notation cell := (mc_cell (prefixed prefix key) ok given unix).
#[local] Existing Instance mc_cell.

(** The program of a caller at a point of the loop. *)
Definition mc_embed (c : mc_call) (p : pc (option Item)) : mprog :=
  match p with
  | Reading k => casMutate prefix unix k (fst c) key (snd c)
  | Writing k o v ttl r => cas_write prefix unix (fst c) key o v ttl r (casMutate prefix unix k (fst c) key (snd c))
  | Finished r => MRet r
  end.

#[export] Instance mc_runs : @Runs S (option Item) (option Z) mprog mc_call cell := {
  pstep := mstep;
  returned := mc_returned;
  closure := snd;
  embed := mc_embed;
}.

Lemma embed_again (c : mc_call) k : mc_embed c (again k) = casMutate prefix unix k (fst c) key (snd c).
Proof. by destruct k. Qed.

(** A conditional write stores, or fails with a conflict and changes nothing. *)
Lemma write_cases (o : option Item) v ttl s : ok s ->
  let w := match o with
           | None => cl_add (prefixed prefix key) (mkItem v (ttlToSeconds ttl unix) 0) s
           | Some it => cl_cas (prefixed prefix key) (mkItem v (ttlToSeconds ttl unix) (CasID it)) s
           end in
  (exists s1, w = (None, s1) /\ ok s1) \/
  (exists e, w = (Some e, s) /\ (e = ErrNotStored \/ (e = ErrCASConflict /\ is_Some o))).
Proof.
  intros Hok. cbv zeta. destruct o as [it|]; destruct (get_cases (prefixed prefix key) ok given s Hok) as [[it' Eg]|Eg].
  - destruct (decide (CasID it' = CasID it)) as [Heq|Hne].
    + left. pose proof (cas_match _ s it' (mkItem v (ttlToSeconds ttl unix) (CasID it)) Hok Eg Heq) as Hm.
      destruct (cl_cas _ _ s) as [err s1] eqn:Ew. cbn in Hm. subst err. exists s1. split; [done|].
      by apply (stored _ s s1 _ Hok (or_intror Ew)).
    + right. exists ErrCASConflict. rewrite (cas_conflict _ s it') by done. eauto.
  - right. exists ErrNotStored. rewrite (cas_absent _ s) by done. eauto.
  - right. exists ErrNotStored. rewrite (add_present _ s it') by done. eauto.
  - left. pose proof (add_absent _ s (mkItem v (ttlToSeconds ttl unix) 0) Hok Eg) as Hm.
    destruct (cl_add _ _ s) as [err s1] eqn:Ew. cbn in Hm. subst err. exists s1. split; [done|].
    by apply (stored _ s s1 _ Hok (or_introl Ew)).
Qed.

(** The programs take the steps of the loop. *)
#[export] Instance mc_runs_laws : @RunsLaws S (option Item) (option Z) mprog mc_call cell mc_runs.
Proof.
  constructor; cbn [pstep returned closure embed mc_runs].
  - intros c p s m' s' Hok Hp. destruct p as [k|k o v ttl r|r]; [| |done].
    + cbn in Hp. destruct k as [|k]; [lia|]. cbn. destruct (get_reads (prefixed prefix key) s Hok) as [Hs _].
      intros E. injection E as Em Es. rewrite Hs in Es. subst s'. eexists. split; [reflexivity|]. subst m'.
      destruct (get_cases (prefixed prefix key) ok given s Hok) as [[it Eg]|Eg]; rewrite Eg; cbn; by destruct (snd c _).
    + intros E. destruct (write_cases o v ttl s Hok) as [(s1 & Hw & Hok1)|(e & Hw & He)]; destruct o as [it|];
        cbn in E, Hw |- *; rewrite Hw in E |- *; cbn in E |- *; injection E as Em Es; subst m' s'.
      1, 2: by eexists.
      all: exists (again k); rewrite embed_again; (split; [done|]); split; [|apply in_turn_again].
      * by destruct He as [->|[-> _]].
      * destruct He as [->|[_ [? ?]]]; [done|discriminate].
  - intros c p r Hp. destruct p as [k|k o v ttl r'|r']; cbn in *.
    + destruct k; [lia|]. cbn. split; [done|discriminate].
    + destruct o; cbn; split; try done; discriminate.
    + split; [by intros [= ->]|by intros [= ->]].
Qed.

(** Runs of the programs [ps] from the server state [s0]. *)
Definition mc_reachable (s0 : S) (ps : list mprog) (st : S * list mprog) : Prop :=
  rtc (@prog_step _ _ _ _ _ cell mc_runs) (s0, ps) st.

End concurrent.

(** ** Correctness *)

(** What a read of the key gives: the empty string when it is absent. *)
Definition stored_value {S} `{Client S} (pk : string) (s : S) : string :=
  match fst (cl_get pk s) with inr it => Value it | inl _ => "" end.

Definition mc_eval (prefix key : string) (unix : Z) (c : ScriptID * list arg) : mprog :=
  Memcached_Eval prefix unix (fst c) [key] (snd c).

(** The closures of the calls: their arguments are well-formed. *)
Definition accepted (prefix key : string) (calls : list (ScriptID * list arg)) (fs : list (string -> verdict)) : Prop :=
  Forall2 (fun c f => Mc.script (fst c) [key] (snd c) = inr f) calls fs.

Definition mc_granted (costs : list Z) (ps : list mprog) (i : nat) : Z :=
  match ps !! i ≫= mc_returned, costs !! i with
  | Some r, Some n => if granted r then n else 0
  | _, _ => 0
  end.

Section correctness.
Context {S : Type} `{Client S} (prefix key : string) (unix : Z).
Context (ok : S -> Prop) (given : S -> Z -> Prop) `{!ClientLaws (prefixed prefix key) ok given}.

Lemma eval_progs calls fs : accepted prefix key calls fs ->
  map (mc_eval prefix key unix) calls =
  map (fun c => mc_embed prefix key unix c (again maxCASRetries)) (zip (map fst calls) fs).
Proof.
  induction 1 as [|[id args] f calls fs E _ IH]; [reflexivity|]. cbn [map zip_with]. rewrite IH. f_equal.
  rewrite embed_again. unfold mc_eval. rewrite Memcached_Eval_script. unfold eval_script. cbn [fst snd] in *. rewrite E. reflexivity.
Qed.

Lemma accepted_snd calls fs : accepted prefix key calls fs -> map snd (zip (map fst calls) fs) = fs.
Proof.
  intros Ha. pose proof (Forall2_length _ _ _ Ha). apply (snd_zip (map fst calls) fs). rewrite length_map. lia.
Qed.

Lemma cell_raw s : let C := mc_cell (prefixed prefix key) ok given unix in
  @raw _ _ _ C (@observe _ _ _ C s) = stored_value (prefixed prefix key) s.
Proof. cbn. unfold stored_value. by destruct (fst (cl_get _ s)). Qed.

(** C28: Scripts on memcached are atomic. However any number of concurrent [Eval] calls on one key interleave, one call to
    the server at a time, some order of calls explains every reply and the stored value: each call of the order has
    returned what its script computes from the value the calls before it left. A call outside it that has returned has
    given up with the retry error, after at least [maxCASRetries] commits of other calls. The server is reachable and
    keeps the key. *)
Theorem memcached_scripts_linearizable calls fs s0 st : accepted prefix key calls fs -> ok s0 ->
  mc_reachable prefix key unix ok given s0 (map (mc_eval prefix key unix) calls) st ->
  exists log, NoDup log /\
    let h := replay fs (stored_value (prefixed prefix key) s0) log in
    stored_value (prefixed prefix key) (fst st) = h_value h /\
    (forall i, i ∈ log -> exists r, snd st !! i ≫= mc_returned = Some r /\ (i, r) ∈ h_replies h) /\
    (forall i r, snd st !! i ≫= mc_returned = Some r -> i ∉ log ->
       r = inl ErrExhausted /\ (maxCASRetries <= h_commits h)%nat).
Proof.
  intros Ha Hok Hr. rewrite (eval_progs calls fs Ha) in Hr.
  pose proof (mc_cell_laws (prefixed prefix key) ok given unix) as Hlaws.
  pose proof (mc_runs_laws prefix key unix ok given) as Hruns.
  destruct (@progs_linearizable _ _ _ _ _ _ Hlaws _ Hruns maxCASRetries _ s0 st Hok Hr) as (log & Hnd & Hlin).
  cbv zeta in Hlin. rewrite !cell_raw in Hlin. cbn [closure returned mc_runs] in Hlin. rewrite accepted_snd in Hlin by done.
  exists log. split; [exact Hnd|exact Hlin].
Qed.

Lemma eval_fixed_window limit n ttlMs :
  Memcached_Eval prefix unix FixedWindowScriptID [key] [ArgInt limit; ArgInt n; ArgInt ttlMs] =
  mc_embed prefix key unix (FixedWindowScriptID, Mc.fixedWindow_closure limit n (ttlMs *w Millisecond)) (again maxCASRetries).
Proof.
  rewrite embed_again. rewrite Memcached_Eval_script. unfold eval_script.
  change (Mc.script _ _ _) with (inr (A := store_error) (Mc.fixedWindow_closure limit n (ttlMs *w Millisecond))). reflexivity.
Qed.

(** The fixed window on memcached keeps its limit: whatever the interleaving of any number of [Eval] calls of one
    window, the costs granted add up to at most the limit. *)
Theorem memcached_fixed_window_limit limit ttlMs costs s0 st :
  0 <= limit -> Forall (fun n => 1 <= n <= max_int64 - limit) costs ->
  ok s0 -> stored_value (prefixed prefix key) s0 = "" ->
  mc_reachable prefix key unix ok given s0
    (map (fun n => Memcached_Eval prefix unix FixedWindowScriptID [key] [ArgInt limit; ArgInt n; ArgInt ttlMs]) costs) st ->
  zsum (map (mc_granted costs (snd st)) (seq 0 (length costs))) <= limit.
Proof.
  intros Hlim Hcosts Hok Hs0 Hr. erewrite map_ext in Hr by (intros; apply eval_fixed_window).
  pose proof (mc_cell_laws (prefixed prefix key) ok given unix) as Hlaws.
  pose proof (mc_runs_laws prefix key unix ok given) as Hruns.
  pose proof (@progs_fixed_window _ _ _ _ _ _ Hlaws _ Hruns maxCASRetries
    (map (fun n => (FixedWindowScriptID, Mc.fixedWindow_closure limit n (ttlMs *w Millisecond))) costs) limit (ttlMs *w Millisecond) _ costs s0 st (mc_fixedWindow_spec _ _) Hcosts Hok) as Hb.
  rewrite cell_raw, Hs0 in Hb. change (parseCounter "") with 0 in Hb. apply Hb.
  - lia.
  - rewrite map_map. reflexivity.
  - unfold start_progs. rewrite map_map. exact Hr.
Qed.

End correctness.

(** ** Outages *)

Lemma fallback_eval_errors now id key m : exists e,
  run (fb_prog now (FbEval id [key] [])) m = (inl e, m).
Proof. destruct id; cbn; by eexists. Qed.

Lemma casMutate_outage {S} `{Client S} prefix unix k id key f (s s' : S) e :
  cl_get (prefixed prefix key) s = (inl e, s') -> isConnError e = true ->
  mrun (casMutate prefix unix (Datatypes.S k) id key f) s = (inr (FbEval id [key] []), s').
Proof. intros Hget He. cbn. rewrite Hget. by destruct e. Qed.

Lemma incrByCAS_write prefix k key delta exp it c : ParseInt (Value it) = Some c ->
  exists cont rest, incrByCAS prefix (Datatypes.S k) key delta exp = MGet (prefixed prefix key) cont /\
    cont (inr it) = MCas (prefixed prefix key) (mkItem (FormatInt (c +w delta)) 0 (CasID it)) rest.
Proof. intros Hc. do 2 eexists. split; [reflexivity|]. cbn. rewrite Hc. reflexivity. Qed.

(** When memcached cannot be reached, [Eval] fails instead of falling back. The fallback store is called without the
    script's arguments: whatever the script, its arguments and the state of the in-memory fallback, the fallback answers
    with an error and records nothing, so that every limiter denies for the time of the outage. *)
Theorem memcached_outage_denies {S} `{Client S} prefix unix id key args f s s' e now m :
  Mc.script id [key] args = inr f ->
  cl_get (prefixed prefix key) s = (inl e, s') -> isConnError e = true ->
  mrun (Memcached_Eval prefix unix id [key] args) s = (inr (FbEval id [key] []), s') /\
  exists err, run (fb_prog now (FbEval id [key] [])) m = (inl err, m).
Proof.
  intros Hf Hget He. split; [|apply fallback_eval_errors].
  rewrite Memcached_Eval_script. unfold eval_script. rewrite Hf. change maxCASRetries with (Datatypes.S 31). by apply casMutate_outage with (e := e).
Qed.

(** A decrement of a live counter writes it back without an expiry: whatever the time to live of the item and of the
    call, the conditional write carries the expiration 0, which memcached takes for "never". *)
Lemma memcached_decrement_drops_expiry prefix unix fuel key delta ttl it c : delta < 0 -> ParseInt (Value it) = Some c ->
  exists cont rest, IncrBy prefix unix fuel key delta ttl = MGet (prefixed prefix key) cont /\
    cont (inr it) = MCas (prefixed prefix key) (mkItem (FormatInt (c +w delta)) 0 (CasID it)) rest.
Proof.
  intros Hd Hc. assert (IncrBy prefix unix fuel key delta ttl =
    incrByCAS prefix maxCASRetries key delta (ttlToSeconds ttl unix)) as ->.
  { destruct fuel; cbn [IncrBy]; by rewrite (proj2 (Z.ltb_lt _ _) Hd). }
  by apply (incrByCAS_write prefix 31).
Qed.

(** ** A server

    The in-process server of the tests ([fake_test.go]): a map, and a counter from which the identifiers
    are taken. *)

Record fakeMemcache := mkFake { data : gmap string Item; nextID : Z; failConn : bool }.

Definition newFakeMemcache : fakeMemcache := mkFake ∅ 1 false.

Definition fake_store (k : string) (it : Item) (exp : Z) (f : fakeMemcache) : fakeMemcache :=
  mkFake (<[k := mkItem (Value it) exp (nextID f + 1)]> (data f)) (nextID f + 1) (failConn f).

#[export] Instance fake_client : Client fakeMemcache := {
  cl_get k f :=
    (if failConn f then inl ErrTransport
     else match data f !! k with Some it => inr it | None => inl ErrCacheMiss end, f);
  cl_set k it f :=
    if failConn f then (Some ErrTransport, f) else (None, fake_store k it (Expiration it) f);
  cl_add k it f :=
    if failConn f then (Some ErrTransport, f)
    else match data f !! k with
         | Some _ => (Some ErrNotStored, f)
         | None => (None, fake_store k it (Expiration it) f)
         end;
  cl_cas k it f :=
    if failConn f then (Some ErrTransport, f)
    else match data f !! k with
         | None => (Some ErrNotStored, f)
         | Some old =>
             if CasID old =? CasID it then
               (None, fake_store k it (if Expiration it =? 0 then Expiration old else Expiration it) f)
             else (Some ErrCASConflict, f)
         end;
  cl_increment k d f :=
    if failConn f then (inl ErrTransport, f)
    else match data f !! k with
         | None => (inl ErrCacheMiss, f)
         | Some old =>
             match ParseInt (Value old) with
             | Some c => if c <? 0 then (inl ErrServerError, f)
                         else (inr (c + d), fake_store k (mkItem (FormatInt (c + d)) 0 0) (Expiration old) f)
             | None => (inl ErrServerError, f)
             end
         end;
  cl_delete k f :=
    if failConn f then (Some ErrTransport, f)
    else match data f !! k with
         | None => (Some ErrCacheMiss, f)
         | Some _ => (None, mkFake (delete k (data f)) (nextID f) (failConn f))
         end;
}.

(** The identifiers in use are among those given out, and the server is reachable. *)
Definition fake_ok (f : fakeMemcache) : Prop :=
  failConn f = false /\ map_Forall (fun _ it => CasID it <= nextID f) (data f).

Lemma fake_store_ok k it exp f : fake_ok f -> fake_ok (fake_store k it exp f).
Proof.
  intros [Hc Hids]. split; [done|]. cbn. apply map_Forall_insert_2; [cbn; lia|].
  apply (map_Forall_impl _ _ _ Hids). cbn. lia.
Qed.

#[export] Instance fake_laws pk : ClientLaws pk fake_ok (fun f c => c <= nextID f).
Proof.
  constructor.
  - intros f [Hc _]. cbn. rewrite Hc. split; [done|]. intros e. destruct (data f !! pk); congruence.
  - intros f it [Hc Hids]. cbn. rewrite Hc. destruct (data f !! pk) eqn:E; intros; simplify_eq. by apply (Hids pk).
  - intros f it it' [Hc _]. cbn. rewrite Hc. by destruct (data f !! pk).
  - intros f it' [Hc _]. cbn. rewrite Hc. by destruct (data f !! pk).
  - intros f it' [Hc _]. cbn. rewrite Hc. by destruct (data f !! pk).
  - intros f it it' [Hc _]. cbn. rewrite Hc. destruct (data f !! pk); intros; simplify_eq.
    by rewrite (proj2 (Z.eqb_neq _ _)).
  - intros f it it' [Hc _]. cbn. rewrite Hc. destruct (data f !! pk); intros E1 E2; simplify_eq.
    by rewrite (proj2 (Z.eqb_eq _ _) E2).
  - intros f f' it' [Hc Hids] Hst. assert (exists exp, f' = fake_store pk it' exp f) as [exp ->].
    { cbn in Hst. rewrite Hc in Hst. destruct (data f !! pk) as [old|]; [destruct (CasID old =? CasID it')|];
        destruct Hst; simplify_eq; eauto. }
    split.
    + by apply fake_store_ok.
    + exists (mkItem (Value it') exp (nextID f + 1)). cbn. rewrite Hc, lookup_insert_eq. split_and!; [done..|lia|lia].
Qed.

Lemma newFake_ok : fake_ok newFakeMemcache.
Proof. split; [done|]. apply map_Forall_empty. Qed.

(** The caller with index [i] makes its next call. *)
Fixpoint mc_schedule (st : fakeMemcache * list mprog) (sched : list nat) : fakeMemcache * list mprog :=
  match sched with
  | [] => st
  | i :: sched =>
      match snd st !! i ≫= fun p => mstep p (fst st) with
      | Some (p', s') => mc_schedule (s', <[i := p']> (snd st)) sched
      | None => mc_schedule st sched
      end
  end.

Lemma fake_step_ok p f p' f' : fake_ok f -> mstep p f = Some (p', f') -> fake_ok f'.
Proof.
  intros Hok. pose proof Hok as [Hc Hids].
  destruct p; cbn; rewrite ?Hc; intros E; try discriminate E; injection E as _ <-; repeat case_match; cbn; auto using fake_store_ok.
  split; [done|]. cbn. by apply map_Forall_delete.
Qed.

Lemma mc_schedule_reachable prefix key unix st sched : fake_ok (fst st) ->
  mc_reachable prefix key unix fake_ok (fun f c => c <= nextID f) (fst st) (snd st) (mc_schedule st sched).
Proof.
  unfold mc_reachable. revert st. induction sched as [|i sched IH]; intros [s ps] Hok; cbn; [apply rtc_refl|].
  destruct (ps !! i) as [p|] eqn:Ep; cbn; [|by apply (IH (s, ps))].
  destruct (mstep p s) as [[p' s']|] eqn:Es; [|by apply (IH (s, ps))]. pose proof (fake_step_ok _ _ _ _ Hok Es) as Hok'.
  eapply rtc_l; [by eapply prog_caller|by apply (IH (s', <[i := p']> ps))].
Qed.

(** Three callers of a window with room for three: all read the absent key before any of them writes. *)
Notation demo_progs :=
  (map (fun n => Memcached_Eval "rl:" 0 FixedWindowScriptID ["w"] [ArgInt 3; ArgInt n; ArgInt 1000]) [2; 2; 1]).
Definition demo_evals : list (ScriptID * list arg) :=
  [(FixedWindowScriptID, [ArgInt 3; ArgInt 2; ArgInt 1000]); (FixedWindowScriptID, [ArgInt 3; ArgInt 2; ArgInt 1000]);
   (FixedWindowScriptID, [ArgInt 3; ArgInt 1; ArgInt 1000])].
Definition demo_fs : list (string -> verdict) := map (fun n => Mc.fixedWindow_closure 3 n (1000 * Millisecond)) [2; 2; 1].

Definition demo_race : list nat := [0; 1; 2; 0; 1; 2; 1; 2; 1; 2; 2; 2]%nat.
Definition demo_end : fakeMemcache * list mprog := mc_schedule (newFakeMemcache, demo_progs) demo_race.

Lemma demo_race_reachable :
  mc_reachable "rl:" "w" 0 fake_ok (fun f c => c <= nextID f) newFakeMemcache (demo_progs) demo_end.
Proof. exact (mc_schedule_reachable "rl:" "w" 0 (newFakeMemcache, demo_progs) demo_race newFake_ok). Qed.

Lemma demo_evals_progs : map (mc_eval "rl:" "w" 0) demo_evals = demo_progs.
Proof. unfold mc_eval, demo_evals. cbn [map fst snd]. reflexivity. Qed.

Lemma demo_end_replies :
  map (fun p => match p with MRet r => Some r | _ => None end) (snd demo_end) =
  [Some (inr (RList [1; 2])); Some (inr (RList [0; 2])); Some (inr (RList [1; 3]))].
Proof. vm_compute. reflexivity. Qed.

Lemma memcached_fixed_window_limit_witness :
  map (mc_granted [2; 2; 1] (snd demo_end)) (seq 0 3) = [2; 0; 1] /\
  zsum (map (mc_granted [2; 2; 1] (snd demo_end)) (seq 0 (length [2; 2; 1]))) <= 3.
Proof.
  split; [vm_compute; reflexivity|].
  refine (memcached_fixed_window_limit "rl:" "w" 0 fake_ok (fun f c => c <= nextID f) 3 1000 [2; 2; 1]
    newFakeMemcache demo_end _ _ newFake_ok _ _).
  - lia.
  - repeat constructor; vm_compute; discriminate.
  - reflexivity.
  - exact demo_race_reachable.
Defined.

Lemma memcached_scripts_linearizable_witness : exists log, NoDup log /\
  let h := replay demo_fs "" log in
  stored_value "rl:w" (fst demo_end) = h_value h /\
  (forall i, i ∈ log -> exists r, snd demo_end !! i ≫= mc_returned = Some r /\ (i, r) ∈ h_replies h) /\
  (forall i r, snd demo_end !! i ≫= mc_returned = Some r -> i ∉ log -> r = inl ErrExhausted /\ (maxCASRetries <= h_commits h)%nat).
Proof.
  refine (memcached_scripts_linearizable "rl:" "w" 0 fake_ok (fun f c => c <= nextID f) demo_evals demo_fs
    newFakeMemcache demo_end _ newFake_ok _).
  - repeat constructor.
  - rewrite demo_evals_progs. exact demo_race_reachable.
Defined.

Lemma memcached_outage_denies_witness :
  let down := mkFake ∅ 1 true in
  mrun (Memcached_Eval "rl:" 0 FixedWindowScriptID ["w"] [ArgInt 3; ArgInt 1; ArgInt 1000]) down =
    (inr (FbEval FixedWindowScriptID ["w"] []), down) /\
  exists err, run (fb_prog 5 (FbEval FixedWindowScriptID ["w"] [])) (NewMemory 0) = (inl err, NewMemory 0).
Proof.
  exact (memcached_outage_denies "rl:" 0 FixedWindowScriptID "w" [ArgInt 3; ArgInt 1; ArgInt 1000]
    (Mc.fixedWindow_closure 3 1 (1000 * Millisecond)) (mkFake ∅ 1 true) (mkFake ∅ 1 true) ErrTransport 5 (NewMemory 0)
    eq_refl eq_refl eq_refl).
Defined.

(** ** Expirations *)

(** A positive time to live of at most thirty days becomes the least whole number of seconds that covers it, never 0,
    which would mean no expiry. *)
Lemma ttlToSeconds_rounds_up ttl unix : 0 < ttl <= thirtyDays * Second ->
  let exp := ttlToSeconds ttl unix in
  1 <= exp <= thirtyDays /\ (exp - 1) * Second < ttl <= exp * Second /\ ttlFromExp exp = exp * Second.
Proof.
  intros Ht. unfold ttlToSeconds. rewrite (proj2 (Z.leb_gt _ _)) by lia.
  pose proof (Z.quot_rem' ttl Second) as Hq. pose proof (Z.rem_bound_pos ttl Second) as Hr.
  unfold thirtyDays, Second in *. set (q := ttl ÷ 1000000000) in *. set (r := Z.rem ttl 1000000000) in *.
  specialize (Hr ltac:(lia) ltac:(lia)).
  set (secs := if r =? 0 then q else q + 1). assert (1 <= secs <= 60 * 60 * 24 * 30 /\
    (secs - 1) * 1000000000 < ttl <= secs * 1000000000) as [Hs Hb] by (unfold secs; case_cmp; lia).
  rewrite (proj2 (Z.ltb_ge secs 1)) by lia. rewrite (proj2 (Z.ltb_ge _ secs)) by lia.
  assert (wrap32 secs = secs) as -> by (unfold wrap32; rewrite Z.mod_small; lia).
  split_and!; try lia. unfold ttlFromExp, thirtyDays, Second.
  rewrite (proj2 (Z.leb_gt _ _)), (proj2 (Z.ltb_ge _ _)) by lia. apply wrap64_small. go_lia.
Qed.
