(* ===== verification/RedisStore.v ===== *)
(** * The Redis store ([ratelimit/store/redis.go])

    The methods translate a call of the [Store] interface to a request of the
    Redis client and route it to a fallback store when the client cannot reach
    the server.  The client library is a parameter: a function from requests to
    answers.  The fallback store answers [fb_call]s, as for memcached. *)

From Stdlib Require Import Floats Sorting.Sorted.
From S2P Require Import Prelude Float64 Float64Round Float64Exact Strconv StoreMemory StoreScripts RedisScripts RedisModel StoreAtomic StoreMemcached RedisAgree.
Open Scope Z_scope.

(** ** Options *)

Record RedisOptions (F : Type) := mkRedisOptions {
  Addr : string; DB_ : Z; PoolSize : Z; MinIdleConns : Z;
  DialTimeout : duration; ReadTimeout : duration; WriteTimeout : duration;
  MaxRetries : Z; MinRetryBackoff : duration; MaxRetryBackoff : duration;
  Fallback : option F; KeyPrefix : string; UseServerTime : bool }.
Arguments mkRedisOptions {F}. Arguments Addr {F}. Arguments DB_ {F}. Arguments PoolSize {F}. Arguments MinIdleConns {F}.
Arguments DialTimeout {F}. Arguments ReadTimeout {F}. Arguments WriteTimeout {F}. Arguments MaxRetries {F}.
Arguments MinRetryBackoff {F}. Arguments MaxRetryBackoff {F}. Arguments Fallback {F}. Arguments KeyPrefix {F}.
Arguments UseServerTime {F}.

Definition or_default (d v : Z) : Z := if v =? 0 then d else v.

Definition str_default (d v : string) : string := if decide (v = "") then d else v.

(** [new]: a fresh in-memory store. *)
Definition defaults {F} (new : F) (o : RedisOptions F) : RedisOptions F :=
  mkRedisOptions (str_default "localhost:6379" (Addr o)) (DB_ o) (or_default 10 (PoolSize o))
    (or_default 2 (MinIdleConns o)) (or_default (5 * Second) (DialTimeout o)) (or_default (3 * Second) (ReadTimeout o))
    (or_default (3 * Second) (WriteTimeout o)) (or_default 3 (MaxRetries o))
    (or_default (8 * Millisecond) (MinRetryBackoff o)) (or_default (512 * Millisecond) (MaxRetryBackoff o))
    (Some (default new (Fallback o))) (str_default "rl:" (KeyPrefix o)) (UseServerTime o).

(** ** Errors of the client: what [errors.Is] and [errors.As] find in the chain *)

Record go_error := mkGoError {
  is_nil : bool;                (* goredis.Nil *)
  is_closed : bool;             (* goredis.ErrClosed *)
  timeout : option bool;        (* the first error with a Timeout method, and its answer *)
  is_refused : bool; is_reset : bool; is_epipe : bool;
  is_op_error : bool;           (* a *net.OpError *)
  text : string }.

Definition isConnectionError (err : option go_error) : bool :=
  match err with
  | None => false
  | Some e =>
      if is_closed e then true
      else if bool_decide (timeout e = Some true) then true
      else if is_refused e || is_reset e || is_epipe e then true
      else is_op_error e
  end.

(** ** Requests *)

Record SetArgs := mkSetArgs { Mode : string; TTL : duration; GetOld : bool }.

Inductive request :=
| CGet (key : string)
| CSet (key value : string) (ttl : duration)
| CSetArgs (key value : string) (args : SetArgs)
| CEval (script : lua_text) (keys : list string) (args : list arg)
| CDel (keys : list string)
| CTime.

(** [scriptBodies]: the dispatch table, by the name of the script. *)
Definition scriptBodies (name : string) : option lua_text :=
  match name with
  | "token_bucket" => Some (ScriptText TokenBucketScriptID)
  | "fixed_window" => Some (ScriptText FixedWindowScriptID)
  | "gcra" => Some (ScriptText GCRAScriptID)
  | "leaky_bucket" => Some (ScriptText LeakyBucketScriptID)
  | "sliding_window_log" => Some (ScriptText SlidingWindowLogScriptID)
  | "sliding_window_counter" => Some (ScriptText SlidingWindowCounterScriptID)
  | "cb_acquire" => Some (ScriptText CircuitBreakerAcquireScriptID)
  | "cb_record" => Some (ScriptText CircuitBreakerRecordScriptID)
  | "cb_read" => Some (ScriptText CircuitBreakerReadScriptID)
  | _ => None
  end%string.

(** The name a [ScriptID] holds. *)
Definition script_name (id : ScriptID) : string :=
  match id with
  | TokenBucketScriptID => "token_bucket"
  | FixedWindowScriptID => "fixed_window" | GCRAScriptID => "gcra" | LeakyBucketScriptID => "leaky_bucket"
  | SlidingWindowLogScriptID => "sliding_window_log" | SlidingWindowCounterScriptID => "sliding_window_counter"
  | CircuitBreakerAcquireScriptID => "cb_acquire" | CircuitBreakerRecordScriptID => "cb_record"
  | CircuitBreakerReadScriptID => "cb_read"
  end.

(** ** The methods *)

Section store.
Context {C F : Type}.
(** The client, and the fallback store. *)
Context (call : request -> C -> (go_error + reply) * C) (fb : fb_call -> F -> (store_error + reply) * F).
Context (opts : RedisOptions F).

Record Redis := mkRedis { client : C; fallback : F }.

Definition prefixed (key : string) : string := KeyPrefix opts +:+ key.

Definition wrap_err (op : string) (e : go_error) : store_error + reply := inl (ErrScript ("redis " +:+ op +:+ ": " +:+ text e)).

(** What every method does with an error that is not [goredis.Nil]. *)
Definition on_error (op : string) (e : go_error) (c : fb_call) (r : Redis) : (store_error + reply) * Redis :=
  if isConnectionError (Some e) then let '(x, f) := fb c (fallback r) in (x, mkRedis (client r) f)
  else (wrap_err op e, r).

Definition send (q : request) (r : Redis) : (go_error + reply) * Redis :=
  let '(x, c) := call q (client r) in (x, mkRedis c (fallback r)).

Definition Get (key : string) (r : Redis) : (store_error + reply) * Redis :=
  let '(x, r) := send (CGet (prefixed key)) r in
  match x with
  | inr v => (inr v, r)
  | inl e => if is_nil e then (inl ErrNotFound, r) else on_error "get" e (FbGet key) r
  end.

Definition Set_ (key value : string) (ttl : duration) (r : Redis) : (store_error + reply) * Redis :=
  let '(x, r) := send (CSet (prefixed key) value ttl) r in
  match x with
  | inr _ => (inr RUnit, r)
  | inl e => on_error "set" e (FbSet key value ttl) r
  end.

Definition SetNX (key value : string) (ttl : duration) (r : Redis) : (store_error + reply) * Redis :=
  let '(x, r) := send (CSetArgs (prefixed key) value (mkSetArgs "NX" ttl false)) r in
  match x with
  | inr _ => (inr (RBool true), r)
  | inl e => if is_nil e then (inr (RBool false), r) else on_error "setnx" e (FbSetNX key value ttl) r
  end.

Definition GetSet (key value : string) (ttl : duration) (r : Redis) : (store_error + reply) * Redis :=
  let args := mkSetArgs "" (if 0 <? ttl then ttl else 0) true in
  let '(x, r) := send (CSetArgs (prefixed key) value args) r in
  match x with
  | inr old => (inr old, r)
  | inl e => if is_nil e then (inr (RStr ""), r) else on_error "getset" e (FbGetSet key value ttl) r
  end.

Definition IncrBy (key : string) (delta : Z) (ttl : duration) (r : Redis) : (store_error + reply) * Redis :=
  let pk := prefixed key in
  let ttlMs := Z.quot ttl Millisecond in
  let '(x, r) := send (CEval IncrByText [pk] [ArgInt delta; ArgInt ttlMs]) r in
  match x with
  | inl e => on_error "incrby" e (FbIncrBy key delta ttl) r
  | inr (RInt v) => (inr (RInt v), r)
  | inr _ => (inl (ErrScript "redis incrby: unexpected result type"), r)
  end.

Definition Eval_ (id : ScriptID) (keys : list string) (args : list arg) (r : Redis) : (store_error + reply) * Redis :=
  match scriptBodies (script_name id) with
  | None => (inl (ErrScript "redis eval: unknown scriptID"), r)
  | Some body =>
      let '(x, r) := send (CEval body (map prefixed keys) args) r in
      match x with
      | inr v => (inr v, r)
      | inl e => if is_nil e then (inr RUnit, r) else on_error "eval" e (FbEval id keys args) r
      end
  end.

Definition Del (keys : list string) (r : Redis) : (store_error + reply) * Redis :=
  let '(x, r) := send (CDel (map prefixed keys)) r in
  match x with
  | inr _ => (inr RUnit, r)
  | inl e => on_error "del" e (FbDel keys) r
  end.

Definition ServerTimeMode : bool := UseServerTime opts.

(** ** The server's clock: [before] and [after] are the local readings around the call. *)

Definition ServerTimeSkewThreshold : duration := 250 * Millisecond.

Definition ServerTimeSkew (before after : time) (r : Redis) : (store_error + duration) * Redis :=
  let '(x, r) := send CTime r in
  match x with
  | inl e => (inl (ErrScript ("redis time: " +:+ text e)), r)
  | inr (RInt tv) =>
      let mid := time_add before (Z.quot (time_sub after before) 2) in
      (inr (time_sub tv mid), r)
  | inr _ => (inl (ErrScript "redis time: unexpected reply"), r)
  end.

(** [(skew, exceeded)]. *)
Definition CheckServerTimeSkew (threshold : duration) (before after : time) (r : Redis)
  : (store_error + (duration * bool)) * Redis :=
  let threshold := if threshold <=? 0 then ServerTimeSkewThreshold else threshold in
  let '(x, r) := ServerTimeSkew before after r in
  match x with
  | inl e => (inl e, r)
  | inr skew =>
      let abs := if skew <? 0 then wrap64 (- skew) else skew in
      (inr (skew, threshold <? abs), r)
  end.

End store.
Arguments Redis : clear implicits.
Arguments mkRedis {C F}. Arguments client {C F}. Arguments fallback {C F}.

(** ** The precision of timestamps ([precisionBoundNs]) *)

Definition float64ExactIntLimit : Z := Z.shiftl 1 53.

(** [for (nowNs>>msb)&1 == 0 { msb-- }] from [msb]. *)
Fixpoint find_msb (msb : nat) (nowNs : Z) : nat :=
  match msb with
  | O => O
  | S m => if Z.land (Z.shiftr nowNs (Z.of_nat msb)) 1 =? 0 then find_msb m nowNs else msb
  end.

Definition precisionBoundNs (nowNs : Z) : Z :=
  let nowNs := if nowNs <? 0 then wrap64 (- nowNs) else nowNs in
  if nowNs <=? float64ExactIntLimit then 0
  else
    let msb := find_msb 63 nowNs in
    let shift := Z.of_nat msb - 52 in
    if shift <=? 0 then 1 else Z.shiftl 1 shift.

(** [NewRedisFromClient]; [new] is the fresh in-memory store. *)
Definition NewRedisFromClient {C F} (new : F) (c : C) (opts : RedisOptions F) : Redis C F * RedisOptions F :=
  let opts := defaults new opts in (mkRedis c (default new (Fallback opts)), opts).

(** ** Precision *)

Lemma bit_at nowNs i : 0 <= i -> (Z.land (Z.shiftr nowNs i) 1 =? 0) = negb (Z.testbit nowNs i).
Proof.
  intros Hi. change 1 with (Z.ones 1). rewrite Z.land_ones, Z.shiftr_div_pow2, <- Z.testbit_spec' by lia.
  by destruct (Z.testbit nowNs i).
Qed.

Lemma find_msb_log2 msb z : 0 < z -> Z.log2 z <= Z.of_nat msb -> Z.of_nat (find_msb msb z) = Z.log2 z.
Proof.
  intros Hz. induction msb as [|m IH]; intros Hm.
  - pose proof (Z.log2_nonneg z). cbn. lia.
  - cbn [find_msb]. rewrite bit_at by lia. destruct (Z.eq_dec (Z.log2 z) (Z.of_nat (S m))) as [E|E].
    + rewrite <- E at 1. by rewrite Z.bit_log2.
    + rewrite Z.bits_above_log2 by lia. cbn. apply IH. lia.
Qed.

Lemma digits_log2 z : 0 < z -> Zdigits2 z = Z.log2 z + 1.
Proof.
  intros Hz. destruct (Zdigits2_bounds z Hz) as [HD HB]. rewrite (Z.log2_unique z (Zdigits2 z - 1)); [lia|lia|].
  by replace (Z.succ (Zdigits2 z - 1)) with (Zdigits2 z) by lia.
Qed.

Lemma precisionBound_above z : 2 ^ 53 < z <= max_int64 -> precisionBoundNs z = 2 ^ (Zdigits2 z - 53).
Proof.
  intros Hz. assert (0 < 2 ^ 53) by done. unfold precisionBoundNs. rewrite (proj2 (Z.ltb_ge z 0)) by lia.
  change float64ExactIntLimit with (2 ^ 53). rewrite (proj2 (Z.leb_gt z (2 ^ 53))) by lia.
  assert (53 <= Z.log2 z < 63) as Hl.
  { split; [by apply Z.log2_le_pow2; lia|]. apply Z.log2_lt_pow2; [lia|]. unfold max_int64 in Hz. change (2 ^ 63) with 9223372036854775808. lia. }
  rewrite find_msb_log2 by lia. rewrite (proj2 (Z.leb_gt _ 0)) by lia.
  rewrite Z.shiftl_mul_pow2, Z.mul_1_l, digits_log2 by lia. f_equal. lia.
Qed.

(** A nanosecond timestamp read by a script is off by at most
    [precisionBoundNs], which is 256 for [2^60] up to [2^61] (years 2006 to 2043). *)
Theorem precision_bound_sound nowNs : 0 <= nowNs <= max_int64 ->
  (exists v, exact_int (f64_of_Z nowNs) v /\ Z.abs (v - nowNs) <= precisionBoundNs nowNs) /\
  (2 ^ 60 <= nowNs < 2 ^ 61 -> precisionBoundNs nowNs = 256).
Proof.
  intros Hz. split.
  - destruct (Z.le_gt_cases nowNs (2 ^ 53)) as [Hs|Hl].
    + exists nowNs. split.
      * apply of_Z_representable; [done|]. destruct (Z.eq_dec nowNs (2 ^ 53)) as [->|]; [right; by apply (shifted_representable 1 53)|].
        apply small_or_zero. lia.
      * unfold precisionBoundNs. rewrite (proj2 (Z.ltb_ge _ 0)) by lia. change float64ExactIntLimit with (2 ^ 53).
        rewrite (proj2 (Z.leb_le _ _)) by lia. rewrite Z.sub_diag. done.
    + rewrite precisionBound_above by lia. apply of_Z_error. lia.
  - intros [Hlo Hhi]. rewrite precisionBound_above by (split; [by eapply Z.lt_le_trans; [|exact Hlo]|lia]).
    by rewrite (Zdigits2_unique nowNs 61) by lia.
Qed.

Lemma precision_bound_sound_witness :
  precisionBoundNs 1700000000123456789 = 256 /\
  exists v, exact_int (f64_of_Z 1700000000123456789) v /\ Z.abs (v - 1700000000123456789) <= precisionBoundNs 1700000000123456789.
Proof.
  split; [apply (precision_bound_sound 1700000000123456789); [by split|by split]|].
  apply (precision_bound_sound 1700000000123456789). by split.
Defined.

(** A timestamp script that adds an interval finer than the precision does not
    accumulate it: with burst 1000 and an interval of 1100 ns, 1074 requests
    are admitted at one instant. *)
Definition gcra_instant (emission burst now ttl : Z) (t : time) : entry -> entry * (store_error + reply) :=
  gcra_body emission burst 1 now ttl t.

(** How many of [k] requests at one instant are admitted. *)
Fixpoint admitted_at_once (k : nat) (body : entry -> entry * (store_error + reply)) (e : entry) : Z :=
  match k with
  | O => 0
  | S k => let '(e', r) := body e in (if granted r then 1 else 0) + admitted_at_once k body e'
  end.

Theorem gcra_script_drifts :
  let now := 1700000000123456789 in
  admitted_at_once 1200 (gcra_instant 1100 1000 now 1000 now) empty_entry = 1074.
Proof. vm_compute. reflexivity. Qed.

(** An interval below half the precision never delays anyone. *)
Theorem gcra_fine_interval_never_denies k :
  admitted_at_once k (gcra_instant 100 1 1700000000123456789 1000 1700000000123456789) empty_entry = Z.of_nat k.
Proof.
  set (body := gcra_instant _ _ _ _ _).
  assert (exists e1, body empty_entry = (e1, inr (RList [1; 0])) /\ forall x, body (mkEntry (value e1) x) = (e1, inr (RList [1; 0])))
    as (e1 & E1 & Estep).
  { exists (fst (body empty_entry)). unfold body. split; [vm_compute; reflexivity|]. intros x. vm_compute. reflexivity. }
  assert (body e1 = (e1, inr (RList [1; 0]))) as Eloop by (pose proof (Estep (expiresAt e1)) as Hx; by destruct e1).
  assert (forall k, admitted_at_once k body e1 = Z.of_nat k) as Hk.
  { induction k0 as [|k0 IH]; [done|]. cbn [admitted_at_once]. rewrite Eloop, IH. cbn. lia. }
  destruct k as [|k]; [done|]. cbn [admitted_at_once]. rewrite E1, Hk. cbn. lia.
Qed.

(** ** A time to live of less than a millisecond

    The fixed-window limiter sends twice its window in whole milliseconds: for
    a window below half a millisecond, zero.  The server deletes the counter it
    has just created. *)
Section short.
Context {DB : Type} `{RedisLaws DB}.

Lemma fixed_window_zero_ttl clk db k limit n : rlook (clk_ms clk) db k = None -> 0 <= n <= limit -> limit < counter_bound ->
  exists db', FixedWindowScript clk [k] (map FormatInt [limit; n; 0]) db = (inr (RList [1; n]), db') /\
    rlook (clk_ms clk) db' k = None.
Proof.
  intros Hl Hn Hlim. destruct (bound_in64 limit ltac:(lia)) as (L1 & L2 & L3). destruct (bound_in64 n ltac:(lia)) as (N1 & N2 & N3).
  destruct (GET_absent (clk_ms clk) db k Hl) as (db1 & E1 & W1 & _).
  assert (counter_of (rlook (clk_ms clk) db1 k) 0) as Hc by (by left).
  destruct (INCRBY_law (clk_ms clk) db1 k 0 n Hc N1 N1) as (db2 & E2 & W2).
  destruct (PEXPIRE_past (clk_ms clk) db2 k 0) as (db3 & E3 & W3 & _); [done|done|]. exists db3. split; [|done].
  unfold FixedWindowScript. cbn [map]. rewrite (argn_int _ 0 limit), (argn_int _ 1 n), (argn_int _ 2 0) by (done || bounds).
  rewrite (lua_bind_ok _ _ _ k db) by done. rewrite (lua_bind_ok _ _ db None db1) by done.
  rewrite !(lua_bind_ok (num (Some _)) _ _ _ _ (num_ok _ _)). change (num_or (lnum 0) None) with (f64_of_Z 0).
  rewrite (exact_gtb _ _ (0 + n) limit) by (try (apply exact_add_small; [by apply of_Z_exact_int..|bounds]); by apply of_Z_exact_int).
  rewrite (proj2 (Z.ltb_ge _ _)) by lia. rewrite call_arg_int by done. rewrite (lua_bind_ok _ _ db1 (0 + n) db2) by done.
  rewrite Z.add_0_l. rewrite (exact_eqb _ _ n n), Z.eqb_refl by (unfold lnum; auto with golib).
  unfold mbind at 1. unfold lua_bind at 1. rewrite (lua_bind_ok (num (Some _)) _ _ _ _ (num_ok _ _)).
  rewrite (call_arg_int 0) by done. rewrite E3. change [lnum 1; lnum n] with (map f64_of_Z [1; n]).
  unfold mret, lua_ret. rewrite reply_ints_ok by (repeat constructor; bounds). done.
Qed.

(** The replies of a sequence of requests. *)
Fixpoint fw_replies (k : string) (limit : Z) (cs : list (server_clock * Z)) (db : DB) : list (redis_error + reply) :=
  match cs with
  | [] => []
  | (clk, n) :: cs =>
      let '(r, db) := FixedWindowScript clk [k] (map FormatInt [limit; n; 0]) db in r :: fw_replies k limit cs db
  end.

Theorem redis_short_window_never_denies k limit cs db ms : rlook ms db k = None -> limit < counter_bound ->
  StronglySorted Z.le (ms :: map (fun c => clk_ms (fst c)) cs) -> Forall (fun c => 0 <= snd c <= limit) cs ->
  fw_replies k limit cs db = map (fun c => inr (RList [1; snd c])) cs.
Proof.
  intros Hl Hlim. revert ms db Hl. induction cs as [|[clk n] cs IH]; intros ms db Hl Hord Hn; [done|].
  apply Forall_cons in Hn as [Hn1 Hn]. apply StronglySorted_inv in Hord as [Hord Hms]. apply Forall_cons in Hms as [Hms _].
  cbn [fst] in Hms. destruct (fixed_window_zero_ttl clk db k limit n) as (db' & E & Hl').
  { by rewrite (look_later ms), Hl. }
  { done. }
  { done. }
  cbn [fw_replies]. rewrite E. cbn [map snd]. f_equal. by apply (IH (clk_ms clk)).
Qed.
End short.
