(* ===== verification/RedisOutage.v ===== *)
(** * Fixed windows over the Redis store when the server cannot be reached

    Every process keeps its own in-memory fallback, so a limit is enforced by
    the server and once more by each process that loses it.  A request whose
    connection fails may have run on the server all the same. *)

From Stdlib Require Import Floats Sorting.Sorted.
From S2P Require Import Prelude Float64 Float64Exact Strconv StoreMemory StoreScripts RedisScripts RedisModel StoreAtomic StoreMemcached RedisAgree RedisStore.
Open Scope Z_scope.

(** ** Requests of a fleet *)

(** One request: the process, the server's clock if it gets there, the
    process's own clock, and the cost. *)
Record fw_event := mkEvent { ev_proc : nat; ev_clk : server_clock; ev_now : time; ev_n : Z }.

(** The fallback of a process: the in-memory store. *)
Definition memory_fallback (now : time) (c : fb_call) (m : Memory) : (store_error + reply) * Memory := run (fb_prog now c) m.

Section fleet.
Context {DB : Type} (call : fw_event -> request -> DB -> (go_error + reply) * DB) (opts : RedisOptions Memory).
Context (key : string) (limit ttl : Z).

(** The evaluation of the fixed-window script by a process. *)
Definition fw_serve (ev : fw_event) (db : DB) (m : Memory) : (store_error + reply) * Redis DB Memory :=
  Eval_ (call ev) (memory_fallback (ev_now ev)) opts FixedWindowScriptID [key] [ArgInt limit; ArgInt (ev_n ev); ArgInt ttl]
    (mkRedis db m).

(** The requests in the order they are served, with the fallback of each process. *)
Fixpoint fleet_run (evs : list fw_event) (db : DB) (mems : list Memory) : list (store_error + reply) :=
  match evs with
  | [] => []
  | ev :: evs =>
      match mems !! ev_proc ev with
      | None => []
      | Some m =>
          let '(r, s) := fw_serve ev db m in
          r :: fleet_run evs (client s) (<[ev_proc ev := fallback s]> mems)
      end
  end.
End fleet.

(** The cost of the requests granted. *)
Fixpoint granted_total (evs : list fw_event) (rs : list (store_error + reply)) : Z :=
  match evs, rs with
  | ev :: evs, r :: rs => (if granted r then ev_n ev else 0) + granted_total evs rs
  | _, _ => 0
  end.

(** ** The bound *)

Section bound.
Context {DB : Type} `{RedisLaws DB} (call : fw_event -> request -> DB -> (go_error + reply) * DB).
Context (opts : RedisOptions Memory) (key : string) (limit ttl T t0 : Z).

(** The client runs the script on its integer arguments and answers, with the script's error if it has
    one, or fails with a connection error,
    before or after the server ran the script. *)
Definition reaches_or_fails : Prop := forall ev body keys zs db, let args := map ArgInt zs in
  let result := run_text (ev_clk ev) keys (map toString args) body db in
  (exists r db', result = (inr r, db') /\ call ev (CEval body keys args) db = (inr r, db')) \/
  (exists e db' e', result = (inl e, db') /\ call ev (CEval body keys args) db = (inl e', db')) \/
  (exists e db', isConnectionError (Some e) = true /\ is_nil e = false /\ call ev (CEval body keys args) db = (inl e, db') /\
    (db' = db \/ db' = snd result)).

Hypothesis Hcall : reaches_or_fails.
Hypothesis Hlimit : 0 <= limit < counter_bound.
Hypothesis Httl : 1 <= ttl < ttl_bound.
Hypothesis HT : 0 <= T.

(** All requests fall into one window: the server's clock and those of the
    processes do not pass the time to live of the first. *)
Definition in_window (ev : fw_event) : Prop :=
  T <= clk_ms (ev_clk ev) <= T + ttl /\ t0 <= ev_now ev <= t0 + ttl * Millisecond /\ 0 < ev_n ev < counter_bound /\ 0 < t0.

(** The server has counted at least [g]. *)
Definition server_inv (ms : Z) (db : DB) (g : Z) : Prop :=
  exists e, counter_rel (rlook ms db (prefixed opts key)) e /\ g <= counter_value e <= limit /\
    (expiresAt e = zero_time \/ (T + ttl) * Millisecond <= expiresAt e).

(** A fallback has counted [g]. *)
Definition fallback_inv (m : Memory) (g : Z) : Prop :=
  wf m /\ match view m key with
          | None => g = 0
          | Some e => counter_value e = g /\ 0 <= g <= limit /\
              (g = 0 \/ expiresAt e = zero_time \/ t0 + ttl * Millisecond <= expiresAt e)
          end.

Lemma fixedWindow_effect n t e : 0 <= counter_value e <= limit -> 0 < n < counter_bound ->
  let '(e', r) := fixedWindow_body limit n ttl t e in
  if limit <? counter_value e + n then e' = e /\ r = inr (RList [0; counter_value e])
  else r = inr (RList [1; counter_value e + n]) /\ counter_value e' = counter_value e + n /\
    expiresAt e' = if counter_value e =? 0 then t + ttl * Millisecond else expiresAt e.
Proof.
  intros Hv Hn. unfold fixedWindow_body. fold (counter_value e). set (v := counter_value e) in *.
  rewrite wrap64_small by bounds. destruct (Z.ltb_spec limit (v + n)); [done|]. split; [done|].
  assert (forall x, counter_value (mkEntry (FormatInt (v + n)) x) = v + n) as Hc.
  { intros x. unfold counter_value. cbn [value]. apply parseCounter_Format. bounds. }
  destruct (v =? 0).
  - unfold setEntryTTLmsAbs. rewrite (proj2 (Z.leb_gt ttl 0)) by lia. cbn [value expiresAt]. split; [apply Hc|].
    unfold time_add, Millisecond. rewrite wrap64_small by bounds. lia.
  - split; [apply Hc|done].
Qed.

Lemma server_inv_later ms ms' db g : ms <= ms' <= T + ttl -> server_inv ms db g -> server_inv ms' db g.
Proof.
  intros Hms (e & Hrel & Hg & Hx). exists e. split_and!; [|lia|lia|done].
  rewrite (look_later ms ms') by lia. destruct Hrel as [[-> ->]|(v & d & Hv & -> & Hval & Hd)]; [by left|].
  right. exists v, d. split_and!; try (done || lia). destruct d as [d|]; [|done]. cbn [alive]. cbn [deadline_rel] in Hd.
  destruct (Z.ltb_spec d ms'); [|done]. destruct Hd as [Hd E]. unfold Millisecond, zero_time in *. lia.
Qed.

(** The script on the server. *)
Lemma server_step ev db g : in_window ev -> server_inv (clk_ms (ev_clk ev)) db g ->
  exists r db', FixedWindowScript (ev_clk ev) [prefixed opts key] (map FormatInt [limit; ev_n ev; ttl]) db = (inr r, db') /\
    server_inv (clk_ms (ev_clk ev)) db' (g + if granted (inr r) then ev_n ev else 0).
Proof.
  intros (Hms & _ & Hn & _) (e & Hrel & Hg & Hx).
  destruct (counter_rel_value _ _ Hrel) as (_ & Hv & _).
  destruct (FixedWindow_agrees (ev_clk ev) db (prefixed opts key) e limit (ev_n ev) ttl) as (db' & r & e' & E & Eb & Hrel' & _);
    [lia|done|done|lia|done|].
  exists r, db'. split; [done|]. exists e'. split; [done|].
  pose proof (fixedWindow_effect (ev_n ev) (clk_ms (ev_clk ev) * Millisecond) e ltac:(lia) Hn) as Hb. rewrite Eb in Hb.
  destruct (Z.ltb_spec limit (counter_value e + ev_n ev)).
  - destruct Hb as [-> [= ->]]. cbn. split; [lia|done].
  - destruct Hb as ([= ->] & -> & Hx'). cbn. split; [lia|]. rewrite Hx'. case_match; [right|done].
    unfold Millisecond. lia.
Qed.

(** The same script in the fallback. *)
Lemma fallback_step ev m g : in_window ev -> fallback_inv m g ->
  exists r m', memory_fallback (ev_now ev) (FbEval FixedWindowScriptID [key] [ArgInt limit; ArgInt (ev_n ev); ArgInt ttl]) m = (r, m') /\
    fallback_inv m' (g + if granted r then ev_n ev else 0).
Proof.
  intros (_ & Hnow & Hn & Ht0) [Hw Hv]. pose proof (run_script 0 key
    (mkSection (ev_now ev) (fixedWindow_body limit (ev_n ev) ttl (ev_now ev))) m ltac:(done) Hw) as Hr.
  cbv zeta in Hr. cbn [sec_load sec_body] in Hr. set (e := found m key (ev_now ev)) in *.
  assert (counter_value e = g /\ 0 <= g <= limit /\ (g = 0 \/ expiresAt e = zero_time \/ t0 + ttl * Millisecond <= expiresAt e))
    as (Ev & Hg & Hx).
  { unfold e, found. destruct (view m key) as [e0|]; [|subst g; split_and!; (done || lia || by left)].
    destruct Hv as (Hc & Hg & Hx). destruct (isExpired e0 (ev_now ev)) eqn:Ex; [|done].
    unfold isExpired, After in Ex. apply andb_true_iff in Ex as [Ez Ea]. apply negb_true_iff in Ez.
    destruct Hx as [-> |[Hx|Hx]]; [split_and!; (done || lia || by left)|by rewrite Hx in Ez|unfold Millisecond in *; lia]. }
  pose proof (fixedWindow_effect (ev_n ev) (ev_now ev) e ltac:(lia) Hn) as Hb. rewrite Ev in Hb.
  change (memory_fallback _ _ m) with (run (script_prog 0 key
    (mkSection (ev_now ev) (fixedWindow_body limit (ev_n ev) ttl (ev_now ev)))) m).
  destruct (run _ m) as [r m']. exists r, m'. split; [done|]. destruct Hr as (-> & Hw' & Hv' & _).
  split; [done|]. rewrite Hv'. destruct (fixedWindow_body _ _ _ _ e) as [e' r']. cbn [fst snd].
  destruct (Z.ltb_spec limit (g + ev_n ev)).
  - destruct Hb as [-> ->]. cbn. by rewrite Z.add_0_r.
  - destruct Hb as (-> & -> & Hx'). cbn. split_and!; [done|lia|lia|]. right. rewrite Hx'.
    destruct (Z.eqb_spec g 0); [right; lia|]. destruct Hx as [?|?]; [lia|done].
Qed.

Lemma fallback_limit m g : fallback_inv m g -> g <= limit.
Proof. intros [_ Hv]. destruct (view m key); lia. Qed.

(** One request: granted by the server or by the fallback of its process, or refused. *)
Lemma serve_step ev db m g gm : in_window ev -> server_inv (clk_ms (ev_clk ev)) db g -> fallback_inv m gm ->
  let '(r, s) := fw_serve call opts key limit ttl ev db m in
  exists g' gm', server_inv (clk_ms (ev_clk ev)) (client s) g' /\ fallback_inv (fallback s) gm' /\
    g + gm + (if granted r then ev_n ev else 0) <= g' + gm'.
Proof.
  intros Hw Hs Hm. destruct (server_step ev db g Hw Hs) as (r & db1 & E & Hs1).
  assert (g <= g + if granted (inr r) then ev_n ev else 0) as Hge by (destruct Hw as (_ & _ & ? & _); destruct (granted _); lia).
  unfold fw_serve, Eval_. cbn [script_name scriptBodies]. unfold send. cbn [client].
  pose proof (Hcall ev (ScriptText FixedWindowScriptID) (map (prefixed opts) [key]) [limit; ev_n ev; ttl] db) as Hc.
  cbv zeta in Hc. cbn [map] in Hc. cbn [map]. change (run_text _ _ _ _ db) with
    (FixedWindowScript (ev_clk ev) [prefixed opts key] (map FormatInt [limit; ev_n ev; ttl]) db) in Hc. rewrite E in Hc.
  destruct Hc as [(r' & db' & [= <- <-] & ->)|[(? & ? & ? & [=] & _)|(e & db' & He & Hn & -> & Hdb)]].
  - exists (g + if granted (inr r) then ev_n ev else 0), gm. cbn [client fallback]. split_and!; [done|done|lia].
  - rewrite Hn. unfold on_error. rewrite He. cbn [client fallback].
    destruct (fallback_step ev m gm Hw Hm) as (rf & m' & -> & Hm'). cbn [client fallback].
    exists g, (gm + if granted rf then ev_n ev else 0). split_and!; [|done|lia].
    destruct Hdb as [-> | ->]; [done|]. cbn [snd]. destruct Hs1 as (e1 & H1 & H2 & H3). exists e1. split_and!; [done|lia|lia|done].
Qed.

Lemma zsum_insert (gs : list Z) i g g' : gs !! i = Some g -> zsum (<[i := g']> gs) = zsum gs - g + g'.
Proof.
  revert i. induction gs as [|x gs IH]; intros [|i] Hi; try done.
  - injection Hi as ->. cbn. lia.
  - change (x + zsum (<[i := g']> gs) = x + zsum gs - g + g'). rewrite (IH i) by done. lia.
Qed.

Lemma within_caps ms db mems g gs : server_inv ms db g -> Forall2 fallback_inv mems gs ->
  g + zsum gs <= (1 + zlength mems) * limit.
Proof.
  intros (e & _ & Hg & _) Hm. enough (zsum gs <= zlength mems * limit) by lia.
  clear -Hm Hlimit. induction Hm as [|m g' mems gs Hmg _ IH]; [done|].
  change (zsum (g' :: gs)) with (g' + zsum gs). rewrite zlength_cons. pose proof (fallback_limit _ _ Hmg). nia.
Qed.

Lemma fleet_bound evs : forall ms db mems g gs, Forall in_window evs ->
  StronglySorted Z.le (ms :: map (fun ev => clk_ms (ev_clk ev)) evs) ->
  server_inv ms db g -> Forall2 fallback_inv mems gs ->
  granted_total evs (fleet_run call opts key limit ttl evs db mems) + g + zsum gs <= (1 + zlength mems) * limit.
Proof.
  induction evs as [|ev evs IH]; intros ms db mems g gs Hw Hord Hs Hm.
  - by apply (within_caps ms db).
  - apply Forall_cons in Hw as [Hw1 Hw]. apply StronglySorted_inv in Hord as [Hord Hms]. apply Forall_cons in Hms as [Hms _].
    cbn [fleet_run]. destruct (mems !! ev_proc ev) as [m|] eqn:Em.
    2: by apply (within_caps ms db).
    destruct (Forall2_lookup_l _ _ _ _ _ Hm Em) as (gm & Egm & Hgm).
    pose proof (serve_step ev db m g gm Hw1 ltac:(eapply server_inv_later; [|exact Hs]; destruct Hw1; lia) Hgm) as Hstep.
    destruct (fw_serve _ _ _ _ _ _ _ _) as [r s]. destruct Hstep as (g' & gm' & Hs' & Hm' & Hle).
    cbn [granted_total]. pose proof (IH _ _ (<[ev_proc ev := fallback s]> mems) g' (<[ev_proc ev := gm']> gs) Hw Hord Hs') as Hrec.
    rewrite (zsum_insert gs _ gm) in Hrec by done. unfold zlength in *. rewrite length_insert in Hrec.
    specialize (Hrec ltac:(by apply Forall2_insert)). lia.
Qed.
End bound.

(** C39: what a fixed window admits through an outage.  However requests of
    any number of processes to the Redis store succeed or fail with a
    connection error (before or after the server ran the script), what is
    granted in one window is at most the limit times one more than the number
    of processes: once on the server and once in each process's fallback.  The
    witness reaches the bound. *)
Theorem redis_outage_bound {DB} `{RedisLaws DB} call (opts : RedisOptions Memory) key limit ttl T t0 evs (db : DB) procs :
  reaches_or_fails call -> 0 <= limit < counter_bound -> 1 <= ttl < ttl_bound -> 0 <= T ->
  Forall (in_window ttl T t0) evs -> StronglySorted Z.le (map (fun ev => clk_ms (ev_clk ev)) evs) ->
  rlook T db (prefixed opts key) = None ->
  granted_total evs (fleet_run call opts key limit ttl evs db (replicate procs (NewMemory 0))) <= (1 + Z.of_nat procs) * limit.
Proof.
  intros Hcall Hl Ht HT Hw Hord Hempty.
  pose proof (fleet_bound call opts key limit ttl T t0 Hcall Hl Ht HT evs T db (replicate procs (NewMemory 0)) 0 (replicate procs 0) Hw) as Hb.
  assert (zsum (replicate procs 0) = 0) as Ez by (clear; induction procs as [|n IH]; [done|exact IH]).
  rewrite Ez in Hb. unfold zlength in Hb. rewrite length_replicate in Hb.
  enough (granted_total evs (fleet_run call opts key limit ttl evs db (replicate procs (NewMemory 0))) + 0 + 0 <= (1 + Z.of_nat procs) * limit)
    by lia. apply Hb.
  - constructor; [done|]. apply Forall_map. eapply Forall_impl; [done|]. intros ev (Hms & _). cbn. lia.
  - exists empty_entry. rewrite Hempty. split_and!; [by left|done|cbn; lia|by left].
  - clear. induction procs as [|n IH]; cbn; constructor; [|done]. split; [done|].
    unfold view. cbn. by rewrite lookup_empty.
Qed.

(** A client of the model server, cut off for the events [down] says. *)
Definition refused : go_error := mkGoError false false None true false false true "dial tcp: connect: connection refused".

Definition script_error (msg : string) : go_error := mkGoError false false None false false false false msg.

Definition model_client (down : fw_event -> bool) (ev : fw_event) (q : request) (db : model_db)
  : (go_error + reply) * model_db :=
  match q with
  | CEval body keys args =>
      if down ev then (inl refused, db)
      else match run_text (ev_clk ev) keys (map toString args) body db with
           | (inr r, db') => (inr r, db')
           | (inl (RErr m), db') => (inl (script_error m), db')
           end
  | _ => (inl (script_error "unknown command"), db)
  end.

Definition demo_opts : RedisOptions Memory :=
  mkRedisOptions "" 0 0 0 0 0 0 0 0 0 None "rl:" false.

Definition demo_down (ev : fw_event) : bool := 1005 <=? clk_ms (ev_clk ev).

Definition demo_fleet : list fw_event :=
  let ev i ms n := mkEvent i (mkClock ms (1000 * ms)) (ms * Millisecond) n in
  [ev 0%nat 1000 2; ev 1%nat 1001 1; ev 0%nat 1005 2; ev 0%nat 1006 1; ev 1%nat 1007 2; ev 1%nat 1008 1].

(** Two processes, limit 2: two on the server, then two in each process. *)
Lemma redis_outage_bound_witness :
  granted_total demo_fleet (fleet_run (model_client demo_down) demo_opts "fw:a:0" 2 20 demo_fleet (∅ : model_db)
    (replicate 2 (NewMemory 0))) = 6 /\
  granted_total demo_fleet (fleet_run (model_client demo_down) demo_opts "fw:a:0" 2 20 demo_fleet (∅ : model_db)
    (replicate 2 (NewMemory 0))) <= (1 + Z.of_nat 2) * 2.
Proof.
  split; [vm_compute; reflexivity|].
  apply (redis_outage_bound (model_client demo_down) demo_opts "fw:a:0" 2 20 1000 (1000 * Millisecond));
    [|by split|by split|done|repeat constructor; vm_compute; congruence|repeat constructor; vm_compute; congruence|done].
  intros ev body keys zs db. cbv zeta. unfold model_client. destruct (demo_down ev).
  - right. right. exists refused, db. split_and!; [done|done|done|by left].
  - destruct (run_text _ _ _ _ db) as [[[m]|r] db'].
    + right. left. eexists _, _, _. by split.
    + left. eexists _, _. by split.
Defined.
