(* ===== verification/StoreDynamo.v ===== *)
(** * The DynamoDB store ([stores/dynamodb/dynamodb.go], [eval.go]).

    One item per key, with a version attribute for optimistic concurrency.  The
    [API] interface is a parameter (a class with its laws).  The store reads
    the wall clock beside its calls: such a reading is part of the step. *)

From stdpp Require Import relations.
From S2P Require Import Prelude Strconv StoreMemory StoreScripts StoreAtomic Optimistic DynamoEval StoreMemcached.
Open Scope Z_scope.

Definition maxOCCRetries : nat := 32.

(** ** Items *)

Inductive AttributeValue := MemberS (s : string) | MemberN (n : string).

Notation item := (gmap string AttributeValue).

Definition attrVal : string := "val".
Definition attrCnt : string := "cnt".
Definition attrExp : string := "exp".
Definition attrVer : string := "ver".

(** [Time.Unix]. *)
Definition Unix (t : time) : Z := t / Second.

Definition expAt (ttl : duration) (now : time) : option Z :=
  if ttl <=? 0 then None else Some (Unix (time_add now ttl)).

Definition stringAttr (it : item) (name : string) : option string :=
  match it !! name with Some (MemberS s) => Some s | _ => None end.

Definition numAttr (it : item) (name : string) : option Z :=
  match it !! name with Some (MemberN n) => ParseInt n | _ => None end.

Definition expired (it : item) (now : time) : bool :=
  match numAttr it attrExp with Some exp => exp <=? Unix now | None => false end.

(** ** Errors, conditions, programs *)

(** [ErrResponse]: a structured answer of the service (throttling, validation). *)
Inductive dd_err := ErrConditional | ErrTimeout | ErrResponse | ErrNoResponse.

Definition isConnError (e : dd_err) : bool :=
  match e with ErrTimeout | ErrNoResponse => true | ErrConditional | ErrResponse => false end.

Definition isConditionalFailed (e : dd_err) : bool := match e with ErrConditional => true | _ => false end.

(** The condition expressions the store sends. *)
Inductive condition :=
| Always
| NotExistsOrExpired (now : Z)   (* attribute_not_exists(#pk) OR #exp < :now *)
| VersionIs (ver : Z).           (* #ver = :ver *)

(** What they mean: a comparison with a missing attribute is false. *)
Definition holds (c : condition) (o : option item) : bool :=
  match c, o with
  | Always, _ => true
  | NotExistsOrExpired now, None => true
  | NotExistsOrExpired now, Some it => match numAttr it attrExp with Some exp => exp <? now | None => false end
  | VersionIs v, None => false
  | VersionIs v, Some it => match numAttr it attrVer with Some w => w =? v | None => false end
  end.

(** A read hands over the clock as it is after the call; a write is built from the clock before it. *)
Inductive dprog :=
| DRet (r : store_error + reply)
| DFallback (c : fb_call)
| DGetItem (k : string) (cont : dd_err + option item -> time -> dprog)
| DPutItem (k : string) (build : time -> item * condition) (cont : option dd_err -> dprog)
| DAdd (k : string) (delta : Z) (cont : dd_err + item -> dprog)
| DDeleteItem (k : string) (cont : option dd_err -> dprog).

Definition dd_failed (e : dd_err) (op : string) (c : fb_call) : dprog :=
  if isConnError e then DFallback c else DRet (inl (ErrScript ("dynamodb " +:+ op))).

(** ** The methods *)

Section methods.
Context (pkAttr prefix : string).

Definition prefixed (key : string) : string := prefix +:+ key.

Definition keyAttr (key : string) : item := {[pkAttr := MemberS (prefixed key)]}.

(** [getItem]: an item that has expired is absent. *)
Definition getItem (key : string) (cont : dd_err + option item -> dprog) : dprog :=
  DGetItem (prefixed key) (fun res now =>
    cont (match res with
          | inl e => inl e
          | inr None => inr None
          | inr (Some it) => inr (if expired it now then None else Some it)
          end)).

Definition with_exp (ttl : duration) (now : time) (it : item) : item :=
  match expAt ttl now with Some exp => <[attrExp := MemberN (FormatInt exp)]> it | None => it end.

Definition value_item (key value : string) (ttl : duration) (now : time) (ver : Z) : item :=
  <[attrVer := MemberN (FormatInt ver)]> (with_exp ttl now (<[attrVal := MemberS value]> (keyAttr key))).

Definition Get (key : string) : dprog :=
  getItem key (fun res =>
    match res with
    | inl e => dd_failed e "get" (FbGet key)
    | inr None => DRet (inl ErrNotFound)
    | inr (Some it) =>
        match stringAttr it attrVal, numAttr it attrCnt with
        | Some s, _ => DRet (inr (RStr s))
        | None, Some n => DRet (inr (RStr (FormatInt n)))
        | None, None => DRet (inl ErrNotFound)
        end
    end).

(** The version is set to 1. *)
Definition putValue (key value : string) (ttl : duration) (cont : option dd_err -> dprog) : dprog :=
  DPutItem (prefixed key) (fun now => (value_item key value ttl now 1, Always)) cont.

Definition Set_ (key value : string) (ttl : duration) : dprog :=
  putValue key value ttl (fun err =>
    match err with None => DRet (inr RUnit) | Some e => dd_failed e "set" (FbSet key value ttl) end).

Definition SetNX (key value : string) (ttl : duration) : dprog :=
  DPutItem (prefixed key) (fun now => (value_item key value ttl now 1, NotExistsOrExpired (Unix now))) (fun err =>
    match err with
    | None => DRet (inr (RBool true))
    | Some e =>
        if isConditionalFailed e then DRet (inr (RBool false)) else dd_failed e "setnx" (FbSetNX key value ttl)
    end).

(** [cont]: written, a conflict, or an error. *)
Definition putIfVersion (key value : string) (base : option item) (ttl : duration) (cont : dd_err + bool -> dprog)
  : dprog :=
  DPutItem (prefixed key) (fun now =>
    match base with
    | None => (value_item key value ttl now 1, NotExistsOrExpired (Unix now))
    | Some it =>
        let baseVer := default 0 (numAttr it attrVer) in
        (value_item key value ttl now (baseVer +w 1), VersionIs baseVer)
    end) (fun err =>
      cont (match err with
            | None => inr true
            | Some e => if isConditionalFailed e then inr false else inl e
            end)).

Definition item_value (base : option item) : string :=
  match base with Some it => default "" (stringAttr it attrVal) | None => "" end.

Fixpoint GetSet_loop (turns : nat) (key value : string) (ttl : duration) : dprog :=
  match turns with
  | O => DRet (inl ErrExhausted)
  | S turns =>
      let fb e op := dd_failed e op (FbGetSet key value ttl) in
      getItem key (fun res =>
        match res with
        | inl e => fb e "getset get"
        | inr base =>
            putIfVersion key value base ttl (fun res =>
              match res with
              | inl e => fb e "getset"
              | inr true => DRet (inr (RStr (item_value base)))
              | inr false => GetSet_loop turns key value ttl
              end)
        end)
  end.

Definition GetSet := GetSet_loop maxOCCRetries.

(** [cont]: the value of a new counter, or that the item exists. *)
Definition tryCreateCounter (key : string) (delta : Z) (ttl : duration) (cont : dd_err + option Z -> dprog) : dprog :=
  DPutItem (prefixed key) (fun now =>
    (with_exp ttl now (<[attrCnt := MemberN (FormatInt delta)]> (keyAttr key)), NotExistsOrExpired (Unix now))) (fun err =>
      cont (match err with
            | None => inr (Some delta)
            | Some e => if isConditionalFailed e then inr None else inl e
            end)).

Definition IncrBy (key : string) (delta : Z) (ttl : duration) : dprog :=
  let fb e op := dd_failed e op (FbIncrBy key delta ttl) in
  tryCreateCounter key delta ttl (fun res =>
    match res with
    | inl e => fb e "incrby create"
    | inr (Some v) => DRet (inr (RInt v))
    | inr None =>
        DAdd (prefixed key) delta (fun res =>
          match res with
          | inl e => fb e "incrby"
          | inr attrs =>
              match numAttr attrs attrCnt with
              | Some n => DRet (inr (RInt n))
              | None => DRet (inl (ErrScript "dynamodb incrby: counter not returned"))
              end
          end)
    end).

Fixpoint Del_loop (keys todo : list string) : dprog :=
  match todo with
  | [] => DRet (inr RUnit)
  | k :: todo =>
      DDeleteItem (prefixed k) (fun err =>
        match err with None => Del_loop keys todo | Some e => dd_failed e "del" (FbDel keys) end)
  end.

Definition Del (keys : list string) : dprog := Del_loop keys keys.

(** *** Scripts *)

(** The conditional write of what was computed from [base]. *)
Definition occ_write (id : ScriptID) (key : string) (base : option item) (v : string) (ttl : duration) (r : reply)
    (again : dprog) : dprog :=
  putIfVersion key v base ttl (fun res =>
    match res with
    | inl e => dd_failed e "eval put" (FbEval id [key] [])
    | inr true => DRet (inr r)
    | inr false => again
    end).

Fixpoint occ (turns : nat) (id : ScriptID) (key : string) (compute : string -> verdict) : dprog :=
  match turns with
  | O => DRet (inl ErrExhausted)
  | S turns =>
      getItem key (fun res =>
        match res with
        | inl e => dd_failed e "eval get" (FbEval id [key] [])
        | inr base =>
            match compute (item_value base) with
            | Reject e => DRet (inl e)
            | Keep r => DRet (inr r)
            | Put v ttl r => occ_write id key base v ttl r (occ turns id key compute)
            end
        end)
  end.

(** A script whose closure is computed from its arguments, on its first key. *)
Definition eval_script (id : ScriptID) (keys : list string) (args : list arg) : dprog :=
  match Dd.script id keys args, keys with
  | inr compute, key :: _ => occ maxOCCRetries id key compute
  | inl e, _ => DRet (inl e)
  | _, [] => DRet (inl (ErrScript "missing key"))
  end.

Definition evalTokenBucket := eval_script TokenBucketScriptID.
Definition evalFixedWindow := eval_script FixedWindowScriptID.
Definition evalGCRA := eval_script GCRAScriptID.
Definition evalLeakyBucket := eval_script LeakyBucketScriptID.
Definition evalSlidingWindowLog := eval_script SlidingWindowLogScriptID.

Definition DynamoDB_Eval (id : ScriptID) (keys : list string) (args : list arg) : dprog :=
  match id with
  | TokenBucketScriptID => evalTokenBucket keys args
  | FixedWindowScriptID => evalFixedWindow keys args
  | GCRAScriptID => evalGCRA keys args
  | LeakyBucketScriptID => evalLeakyBucket keys args
  | SlidingWindowLogScriptID => evalSlidingWindowLog keys args
  | SlidingWindowCounterScriptID | CircuitBreakerAcquireScriptID | CircuitBreakerRecordScriptID
  | CircuitBreakerReadScriptID => DRet (inl (ErrScript ("dynamodb" +:+ ": script not supported")))
  end.

Lemma DynamoDB_Eval_script id keys args : DynamoDB_Eval id keys args = eval_script id keys args.
Proof. by destruct id. Qed.

End methods.

(** ** Running programs *)

Class API (S : Type) := {
  api_get : string -> S -> (dd_err + option item) * S;
  api_put : string -> item -> condition -> S -> option dd_err * S;
  api_add : string -> Z -> S -> (dd_err + item) * S;
  api_delete : string -> S -> option dd_err * S;
}.

Section semantics.
Context {S : Type} `{API S}.

(** One call to the service; [now] is the clock. *)
Definition dstep (p : dprog) (st : S * time) : option (dprog * (S * time)) :=
  let '(s, now) := st in
  match p with
  | DRet _ | DFallback _ => None
  | DGetItem k cont => let '(x, s) := api_get k s in Some (cont x now, (s, now))
  | DPutItem k build cont =>
      let '(it, c) := build now in let '(x, s) := api_put k it c s in Some (cont x, (s, now))
  | DAdd k d cont => let '(x, s) := api_add k d s in Some (cont x, (s, now))
  | DDeleteItem k cont => let '(x, s) := api_delete k s in Some (cont x, (s, now))
  end.

(** A call that is not interleaved; [clk i] is the clock at its [i]-th step. *)
Fixpoint drun (p : dprog) (s : S) (clk : nat -> time) (i : nat) : ((store_error + reply) + fb_call) * S :=
  match p with
  | DRet r => (inl r, s)
  | DFallback c => (inr c, s)
  | DGetItem k cont => let '(x, s) := api_get k s in drun (cont x (clk i)) s clk (Datatypes.S i)
  | DPutItem k build cont =>
      let '(it, c) := build (clk i) in let '(x, s) := api_put k it c s in drun (cont x) s clk (Datatypes.S i)
  | DAdd k d cont => let '(x, s) := api_add k d s in drun (cont x) s clk (Datatypes.S i)
  | DDeleteItem k cont => let '(x, s) := api_delete k s in drun (cont x) s clk (Datatypes.S i)
  end.

Context (pk : string).

(** What the store relies on at the key [pk], of a service that is reachable ([ok]): a read is consistent, and a
    conditional put replaces the item exactly when its condition holds of the item that is there ([at_key]). *)
Class APILaws (ok : S -> Prop) (at_key : S -> option item) : Prop := {
  get_at_key s : ok s -> api_get pk s = (inr (at_key s), s);
  put_holds s it c : ok s -> holds c (at_key s) = true ->
    exists s', api_put pk it c s = (None, s') /\ ok s' /\ at_key s' = Some it;
  put_fails s it c : ok s -> holds c (at_key s) = false -> api_put pk it c s = (Some ErrConditional, s);
}.

End semantics.

(** ** The key as a cell of the optimistic loop *)

Section cell.
Context {S : Type} `{API S} (pkAttr prefix key : string).
Context (ok : S -> Prop) (at_key : S -> option item) `{!APILaws (prefixed prefix key) ok at_key}.

Definition version (o : option item) : option Z := (fun it => default 0 (numAttr it attrVer)) <$> o.

(** An item the scripts maintain: it carries a version, and has not expired. *)
Definition live_item (it : item) (now : time) : Prop :=
  expired it now = false /\ exists n, it !! attrVer = Some (MemberN (FormatInt n)) /\ 1 <= n < max_int64.

Definition put_item (o : option item) (v : string) (ttl : duration) (now : time) : item * condition :=
  match o with
  | None => (value_item pkAttr prefix key v ttl now 1, NotExistsOrExpired (Unix now))
  | Some it =>
      let baseVer := default 0 (numAttr it attrVer) in
      (value_item pkAttr prefix key v ttl now (baseVer +w 1), VersionIs baseVer)
  end.

#[export] Instance dd_cell : Cell (S * time) (option item) (option Z) := {
  observe st := match at_key (fst st) with
                | Some it => if expired it (snd st) then None else Some it
                | None => None
                end;
  commit o v ttl st :=
    let '(it, c) := put_item o v ttl (snd st) in
    let '(err, s') := api_put (prefixed prefix key) it c (fst st) in
    match err with None => Some (s', snd st) | Some _ => None end;
  raw := item_value;
  ver := version;
  issued st t := match t, at_key (fst st) with
                 | None, _ => True
                 | Some c, Some it => c <= default 0 (numAttr it attrVer)
                 | Some _, None => False
                 end;
  live st := ok (fst st) /\ match at_key (fst st) with Some it => live_item it (snd st) | None => True end;
  quiet st st' := at_key (fst st') = at_key (fst st);
}.

Lemma live_version it now : live_item it now ->
  exists n, numAttr it attrVer = Some n /\ 1 <= n < max_int64.
Proof.
  intros (_ & n & E & Hn). exists n. unfold numAttr. rewrite E. split; [|done]. apply ParseInt_FormatInt. go_lia.
Qed.

Lemma value_item_version v ttl now n : in64 n -> numAttr (value_item pkAttr prefix key v ttl now n) attrVer = Some n.
Proof. intros Hn. unfold numAttr, value_item. rewrite lookup_insert_eq. by apply ParseInt_FormatInt. Qed.

Lemma value_item_value v ttl now n : item_value (Some (value_item pkAttr prefix key v ttl now n)) = v.
Proof.
  unfold item_value, stringAttr, value_item, with_exp. rewrite lookup_insert_ne by done.
  destruct (expAt ttl now); [rewrite lookup_insert_ne by done|]; by rewrite lookup_insert_eq.
Qed.

(** The condition of a write holds exactly when the version observed is the current one. *)
Lemma put_condition st (o : option item) v ttl : live st ->
  (holds (snd (put_item o v ttl (snd st))) (at_key (fst st)) = true <-> ver o = ver (observe st)).
Proof.
  destruct st as [s now]. cbn. intros [Hok Hl]. destruct (at_key s) as [it|] eqn:E.
  - pose proof (live_version it now Hl) as (n & Hn & Hb). destruct Hl as [He _]. rewrite He. cbn. rewrite Hn. cbn.
    destruct o as [it0|]; cbn.
    + rewrite Hn, Z.eqb_eq. split; [by intros ->|by intros [= <-]].
    + unfold expired in He. destruct (numAttr it attrExp) as [exp|]; [|done].
      apply Z.leb_gt in He. rewrite (proj2 (Z.ltb_ge _ _)) by lia. done.
  - cbn. by destruct o.
Qed.

#[export] Instance dd_cell_laws : CellLaws (S * time) (option item) (option Z).
Proof.
  constructor.
  - intros [s now] [Hok Hl]. cbn in *. destruct (at_key s) as [it|]; cbn; [|done]. destruct Hl as [-> _]. cbn. lia.
  - intros st o v ttl Hl Hi. rewrite <- (put_condition st o v ttl Hl). destruct st as [s now]. destruct Hl as [Hok _].
    cbn [commit dd_cell fst snd] in *. destruct (put_item o v ttl now) as [it c]. cbn [snd].
    destruct (holds c (at_key s)) eqn:Eh.
    + destruct (put_holds _ s it c Hok Eh) as (s' & -> & _). split; eauto.
    + rewrite (put_fails _ s it c Hok Eh). split; [by intros []|done].
  - intros st o v ttl st' Hl Hl' Hc. destruct st as [s now].
    pose proof (put_condition (s, now) o v ttl Hl) as Hcond. pose proof Hl as [Hok Hs].
    cbn [commit dd_cell fst snd] in *. destruct (put_item o v ttl now) as [it c] eqn:Ep. cbn [snd] in Hcond.
    destruct (holds c (at_key s)) eqn:Eh; [|rewrite (put_fails _ s it c Hok Eh) in Hc; discriminate].
    destruct (put_holds _ s it c Hok Eh) as (s' & Eput & Hok' & Eat). rewrite Eput in Hc. injection Hc as <-.
    destruct Hl' as [_ Hit]. cbn [fst snd] in Hit. rewrite Eat in Hit. cbn [observe raw ver issued dd_cell fst snd]. rewrite Eat. destruct Hit as [He' _]. rewrite He'.
    assert (ver o = ver (observe (s, now))) as Hv by (by apply Hcond).
    assert (exists n, it = value_item pkAttr prefix key v ttl now n /\ in64 n /\
      match at_key s with Some it0 => default 0 (numAttr it0 attrVer) < n | None => True end) as (n & -> & Hn & Hlt).
    { cbn in Hv. destruct (at_key s) as [it0|].
      - pose proof (live_version it0 now Hs) as (m & Hm & Hb). destruct Hs as [He0 _]. rewrite He0 in Hv. cbn in Hv.
        destruct o as [it1|]; [|done]. cbn in Hv. rewrite Hm in Hv. injection Hv as Hv. cbn in Ep. rewrite Hv in Ep.
        injection Ep as <- _. exists (m +w 1). rewrite wrap64_small, Hm by go_lia. cbn. split_and!; [done|go_lia..].
      - destruct o as [it1|]; [done|]. cbn in Ep. injection Ep as <- _. exists 1. split_and!; [done|go_lia|done]. }
    split_and!.
    + apply value_item_value.
    + unfold version. cbn [fmap option_fmap option_map]. rewrite value_item_version by done. cbn.
      destruct (at_key s); [lia|by intros []].
    + intros [t|]; [|done]. destruct (at_key s) as [it0|]; [|done]. intros Ht.
      rewrite value_item_version by done. cbn. lia.
  - intros [s now] [s' now'] [Hok Hl] [Hok' Hl'] Hq. cbn in *. rewrite Hq in *. split; [|done].
    destruct (at_key s) as [it|]; [|done]. destruct Hl as [-> _], Hl' as [-> _]. done.
Qed.

End cell.

(** ** Concurrent scripts on one key *)

Definition dd_returned (p : dprog) : option (store_error + reply) := match p with DRet r => Some r | _ => None end.

Section concurrent.
Context {S : Type} `{API S} (pkAttr prefix key : string).
Context (ok : S -> Prop) (at_key : S -> option item) `{!APILaws (prefixed prefix key) ok at_key}.

Notation cell := (dd_cell pkAttr prefix key ok at_key).
#[local] Existing Instance dd_cell.

Definition dd_embed (c : mc_call) (p : pc (option item)) : dprog :=
  match p with
  | Reading k => occ pkAttr prefix k (fst c) key (snd c)
  | Writing k o v ttl r => occ_write pkAttr prefix (fst c) key o v ttl r (occ pkAttr prefix k (fst c) key (snd c))
  | Finished r => DRet r
  end.

#[export] Instance dd_runs : @Runs (S * time) (option item) (option Z) dprog mc_call cell := {
  pstep := dstep;
  returned := dd_returned;
  closure := snd;
  embed := dd_embed;
}.

Lemma dd_embed_again (c : mc_call) k : dd_embed c (again k) = occ pkAttr prefix k (fst c) key (snd c).
Proof. by destruct k. Qed.

#[export] Instance dd_runs_laws : @RunsLaws (S * time) (option item) (option Z) dprog mc_call cell dd_runs.
Proof.
  constructor; cbn [pstep returned closure embed dd_runs].
  - intros c p [s now] m' st' [Hok Hl] Hp. cbn [fst snd] in *. destruct p as [k|k o v ttl r|r]; [| |done].
    + cbn in Hp. destruct k as [|k]; [lia|]. cbn. rewrite (get_at_key (prefixed prefix key) s Hok).
      intros E. injection E as <- <-. eexists. split; [reflexivity|].
      destruct (at_key s) as [it|]; [destruct (expired it now)|]; by destruct (snd c _).
    + cbn [dd_embed]. unfold occ_write, putIfVersion. cbn [dstep pc_step commit dd_cell fst snd].
      change (match o with None => _ | Some it => _ end) with (put_item pkAttr prefix key o v ttl now).
      destruct (put_item pkAttr prefix key o v ttl now) as [it cond]. destruct (holds cond (at_key s)) eqn:Eh.
      * destruct (put_holds _ s it cond Hok Eh) as (s' & -> & _). intros E. injection E as <- <-. by eexists.
      * rewrite (put_fails _ s it cond Hok Eh). intros E. injection E as <- <-. exists (again k).
        rewrite dd_embed_again. split; [done|]. split; [done|apply in_turn_again].
  - intros c p r Hp. destruct p as [k|k o v ttl r'|r']; cbn in *.
    + destruct k; [lia|]. cbn. split; [done|discriminate].
    + split; [done|discriminate].
    + split; [by intros [= ->]|by intros [= ->]].
Qed.

(** Runs of the programs [ps] from the table [s0] at the time [t0], in which the item of the key does not expire. *)
Definition dd_reachable (s0 : S) (t0 : time) (ps : list dprog) (st : (S * time) * list dprog) : Prop :=
  rtc (@prog_step _ _ _ _ _ cell dd_runs) ((s0, t0), ps) st.

End concurrent.

Definition dd_granted (costs : list Z) (ps : list dprog) (i : nat) : Z :=
  match ps !! i ≫= dd_returned, costs !! i with
  | Some r, Some n => if granted r then n else 0
  | _, _ => 0
  end.

Section correctness.
Context {S : Type} `{API S} (pkAttr prefix key : string).
Context (ok : S -> Prop) (at_key : S -> option item) `{!APILaws (prefixed prefix key) ok at_key}.

Lemma dd_eval_fixed_window limit n ttlMs :
  DynamoDB_Eval pkAttr prefix FixedWindowScriptID [key] [ArgInt limit; ArgInt n; ArgInt ttlMs] =
  dd_embed pkAttr prefix key (FixedWindowScriptID, Dd.fixedWindow_closure limit n (ttlMs *w Millisecond)) (again maxOCCRetries).
Proof.
  rewrite dd_embed_again. rewrite DynamoDB_Eval_script. unfold eval_script.
  change (Dd.script _ _ _) with (inr (A := store_error) (Dd.fixedWindow_closure limit n (ttlMs *w Millisecond))). reflexivity.
Qed.

(** The fixed window on DynamoDB keeps its limit: whatever the interleaving of any number of [Eval] calls of one
    window, from an absent item and as long as it has not expired, the costs granted add up to at most the limit; the
    version attribute makes a write on a stale read fail. *)
Theorem dynamo_fixed_window_limit limit ttlMs costs s0 t0 st :
  0 <= limit -> Forall (fun n => 1 <= n <= max_int64 - limit) costs -> ok s0 -> at_key s0 = None ->
  dd_reachable pkAttr prefix key ok at_key s0 t0
    (map (fun n => DynamoDB_Eval pkAttr prefix FixedWindowScriptID [key] [ArgInt limit; ArgInt n; ArgInt ttlMs]) costs) st ->
  zsum (map (dd_granted costs (snd st)) (seq 0 (length costs))) <= limit.
Proof.
  intros Hlim Hcosts Hok Hs0 Hr. erewrite map_ext in Hr by (intros; apply dd_eval_fixed_window).
  pose proof (dd_cell_laws pkAttr prefix key ok at_key) as Hlaws.
  pose proof (dd_runs_laws pkAttr prefix key ok at_key) as Hruns.
  assert (@live _ _ _ (dd_cell pkAttr prefix key ok at_key) (s0, t0)) as Hlive by (cbn; by rewrite Hs0).
  pose proof (@progs_fixed_window _ _ _ _ _ _ Hlaws _ Hruns maxOCCRetries
    (map (fun n => (FixedWindowScriptID, Dd.fixedWindow_closure limit n (ttlMs *w Millisecond))) costs) limit (ttlMs *w Millisecond) _ costs (s0, t0) st (dd_fixedWindow_spec _ _) Hcosts Hlive) as Hb.
  cbn [observe dd_cell fst snd] in Hb. rewrite Hs0 in Hb. change (parseCounter (raw None)) with 0 in Hb. apply Hb.
  - lia.
  - rewrite map_map. reflexivity.
  - unfold start_progs. rewrite map_map. exact Hr.
Qed.

(** ** Where the conditions do not fit *)

(** One turn at an item that cannot be replaced. *)
Lemma occ_stuck turns id f s clk i : ok s ->
  (forall j, exists v ttl r base, 
     match at_key s with Some it => Some (if expired it (clk j) then None else Some it) | None => None end = Some base /\
     f (item_value base) = Put v ttl r /\
     forall j, holds (snd (put_item pkAttr prefix key base v ttl (clk j))) (at_key s) = false) ->
  drun (occ pkAttr prefix turns id key f) s clk i = (inl (inl ErrExhausted), s).
Proof.
  intros Hok Hst. revert i. induction turns as [|turns IH]; intros i; [done|]. cbn [occ getItem drun].
  rewrite (get_at_key (prefixed prefix key) s Hok). destruct (Hst i) as (v & ttl & r & base & Eb & Ef & Eh).
  destruct (at_key s) as [it|] eqn:Eat; [|done]. injection Eb as Eb. rewrite Eb, Ef.
  unfold occ_write, putIfVersion. cbn [drun]. specialize (Eh (Datatypes.S i)).
  change (match base with None => _ | Some it => _ end) with (put_item pkAttr prefix key base v ttl (clk (Datatypes.S i))).
  destruct (put_item pkAttr prefix key base v ttl (clk (Datatypes.S i))) as [new c]. cbn [snd] in Eh.
  rewrite (put_fails _ s new c Hok); [|by rewrite Eat]. cbn. apply IH.
Qed.

(** In the second in which an item expires its key cannot be used. [expired] takes an item for absent when its expiry
    is not after the current second, the condition of the write that replaces it requires the expiry to be before it:
    when the two are equal every attempt conflicts, and a script that would write answers with the retry error (which
    the limiters take for a denial) although nobody else uses the key. *)
Theorem dynamo_expiry_second_denies id f s clk it exp v ttl r : ok s -> at_key s = Some it ->
  numAttr it attrExp = Some exp -> (forall i, Unix (clk i) = exp) -> f "" = Put v ttl r ->
  drun (occ pkAttr prefix maxOCCRetries id key f) s clk 0 = (inl (inl ErrExhausted), s).
Proof.
  intros Hok Hat Hexp Hclk Hf. apply occ_stuck; [done|]. intros j. exists v, ttl, r, None.
  rewrite Hat. unfold expired. rewrite Hexp, Hclk, Z.leb_refl. split_and!; [done|exact Hf|].
  intros j'. cbn. rewrite Hexp, Hclk. apply Z.ltb_irrefl.
Qed.

(** [GetSet] never succeeds on a counter: an item that [IncrBy] created carries no version, and the condition on its
    version is false of it. *)
Theorem dynamo_getset_fails_on_counter value ttl s clk it : ok s -> at_key s = Some it ->
  it !! attrVer = None -> (forall i, expired it (clk i) = false) ->
  drun (GetSet pkAttr prefix key value ttl) s clk 0 = (inl (inl ErrExhausted), s).
Proof.
  intros Hok Hat Hver Hexp. unfold GetSet. generalize maxOCCRetries 0%nat. intros turns.
  induction turns as [|turns IH]; intros i; [done|]. cbn [GetSet_loop getItem drun].
  rewrite (get_at_key (prefixed prefix key) s Hok), Hat, Hexp. unfold putIfVersion. cbn [drun].
  rewrite (put_fails _ s _ _ Hok); [|rewrite Hat; cbn; unfold numAttr; by rewrite Hver]. cbn. apply IH.
Qed.

(** An outage denies, as with memcached: the fallback is called without the script's arguments. *)
Theorem dynamo_outage_denies id args f s s' e clk now m :
  Dd.script id [key] args = inr f ->
  api_get (prefixed prefix key) s = (inl e, s') -> isConnError e = true ->
  drun (DynamoDB_Eval pkAttr prefix id [key] args) s clk 0 = (inr (FbEval id [key] []), s') /\
  exists err, run (fb_prog now (FbEval id [key] [])) m = (inl err, m).
Proof.
  intros Hf Hget He. split; [|apply fallback_eval_errors]. rewrite DynamoDB_Eval_script. unfold eval_script. rewrite Hf.
  change maxOCCRetries with (Datatypes.S 31). generalize 31%nat. intros k. cbn. rewrite Hget. by destruct e.
Qed.

End correctness.

(** ** A service

    The in-process table of the tests ([fake_test.go]). *)

Record fakeDDB := mkDDB { items : gmap string item; failConn : bool }.

Definition newFakeDDB : fakeDDB := mkDDB ∅ false.

#[export] Instance fake_api : API fakeDDB := {
  api_get k f := (if failConn f then inl ErrNoResponse else inr (items f !! k), f);
  api_put k it c f :=
    if failConn f then (Some ErrNoResponse, f)
    else if holds c (items f !! k) then (None, mkDDB (<[k := it]> (items f)) (failConn f))
    else (Some ErrConditional, f);
  api_add k d f :=
    if failConn f then (inl ErrNoResponse, f)
    else
      let it := default ∅ (items f !! k) in
      let n := default 0 (numAttr it attrCnt) +w d in
      (inr {[attrCnt := MemberN (FormatInt n)]},
       mkDDB (<[k := <[attrCnt := MemberN (FormatInt n)]> it]> (items f)) (failConn f));
  api_delete k f :=
    if failConn f then (Some ErrNoResponse, f) else (None, mkDDB (delete k (items f)) (failConn f));
}.

#[export] Instance fake_api_laws pk : APILaws pk (fun f => failConn f = false) (fun f => items f !! pk).
Proof.
  constructor.
  - intros f Hc. cbn. by rewrite Hc.
  - intros f it c Hc Hh. cbn. rewrite Hc, Hh. eexists. split; [done|]. cbn. split; [done|apply lookup_insert_eq].
  - intros f it c Hc Hh. cbn. by rewrite Hc, Hh.
Qed.

(** The caller with index [i] makes its next call. *)
Fixpoint dd_schedule (st : (fakeDDB * time) * list dprog) (sched : list nat) : (fakeDDB * time) * list dprog :=
  match sched with
  | [] => st
  | i :: sched =>
      match snd st !! i ≫= fun p => dstep p (fst st) with
      | Some (p', s') => dd_schedule (s', <[i := p']> (snd st)) sched
      | None => dd_schedule st sched
      end
  end.

(** [Set] undoes the version check: it writes the version 1 whatever the version is.  The first [GetSet] reads the value
    "a" of version 1; a [Set] of "b" comes in between; the conditional write succeeds all the same, the [GetSet]
    answers "a", and "b" is lost without a trace. *)
Theorem dynamo_set_hides_from_getset :
  let '((table, _), ps) := dd_schedule ((newFakeDDB, 0),
      [Set_ "pk" "rl:" "k" "a" 0; GetSet "pk" "rl:" "k" "c" 0; Set_ "pk" "rl:" "k" "b" 0]) [0; 1; 2; 1]%nat in
  map dd_returned ps = [Some (inr RUnit); Some (inr (RStr "a")); Some (inr RUnit)] /\
  (item_value (items table !! "rl:k"), version (items table !! "rl:k")) = ("c", Some 2).
Proof. vm_compute. split; reflexivity. Qed.

(** ** Witnesses *)

Notation dd_progs :=
  (map (fun n => DynamoDB_Eval "pk" "rl:" FixedWindowScriptID ["w"] [ArgInt 3; ArgInt n; ArgInt 5000]) [2; 2; 1]).

(** All three read the absent item before any of them writes. *)
Definition dd_race : list nat := [0; 1; 2; 0; 1; 2; 1; 2; 1; 2; 2; 2]%nat.
Definition dd_end : (fakeDDB * time) * list dprog := dd_schedule ((newFakeDDB, 0), dd_progs) dd_race.

(** The item is alive along the schedule. *)
Fixpoint alive_along (st : (fakeDDB * time) * list dprog) (sched : list nat) : bool :=
  match sched with
  | [] => true
  | i :: sched =>
      match snd st !! i ≫= fun p => dstep p (fst st) with
      | Some (p', s') =>
          negb (failConn (fst s')) &&
          match items (fst s') !! "rl:w" with
          | Some it => negb (expired it (snd s')) &&
              match it !! attrVer with
              | Some (MemberN n) => match ParseInt n with
                                    | Some v => (1 <=? v) && (v <? max_int64) && bool_decide (FormatInt v = n)
                                    | None => false
                                    end
              | _ => false
              end
          | None => true
          end && alive_along (s', <[i := p']> (snd st)) sched
      | None => alive_along st sched
      end
  end.

Lemma dd_schedule_reachable st sched : alive_along st sched = true ->
  rtc (@prog_step _ _ _ _ _ (dd_cell "pk" "rl:" "w" (fun f => failConn f = false) (fun f => items f !! "rl:w"))
    (dd_runs "pk" "rl:" "w" _ _)) st (dd_schedule st sched).
Proof.
  revert st. induction sched as [|i sched IH]; intros [s ps] Ha; cbn in *; [apply rtc_refl|].
  destruct (ps !! i) as [p|] eqn:Ep; cbn in *; [|by apply IH].
  destruct (dstep p s) as [[p' s']|] eqn:Es; [|by apply IH].
  apply andb_true_iff in Ha as [[Hf Hit]%andb_true_iff Ha]. apply negb_true_iff in Hf.
  eapply rtc_l; [eapply prog_caller; [done|done|]|by apply IH]. split; [done|]. cbn.
  destruct (items (fst s') !! "rl:w") as [it|]; [|done].
  apply andb_true_iff in Hit as [He%negb_true_iff Hv]. split; [done|].
  destruct (it !! attrVer) as [[|n]|]; try discriminate. destruct (ParseInt n) as [v|]; [|discriminate].
  apply andb_true_iff in Hv as [[H1%Z.leb_le H2%Z.ltb_lt]%andb_true_iff <-%bool_decide_eq_true]. eauto.
Qed.

Lemma dd_end_reachable : dd_reachable "pk" "rl:" "w" (fun f => failConn f = false) (fun f => items f !! "rl:w")
  newFakeDDB 0 dd_progs dd_end.
Proof. apply (dd_schedule_reachable ((newFakeDDB, 0), dd_progs) dd_race). vm_compute. reflexivity. Qed.

Lemma dynamo_fixed_window_limit_witness :
  map (dd_granted [2; 2; 1] (snd dd_end)) (seq 0 3) = [2; 0; 1] /\
  zsum (map (dd_granted [2; 2; 1] (snd dd_end)) (seq 0 (length [2; 2; 1]))) <= 3.
Proof.
  split; [vm_compute; reflexivity|].
  refine (dynamo_fixed_window_limit "pk" "rl:" "w" (fun f => failConn f = false) (fun f => items f !! "rl:w") 3 5000
    [2; 2; 1] newFakeDDB 0 dd_end _ _ eq_refl _ dd_end_reachable).
  - lia.
  - repeat constructor; vm_compute; discriminate.
  - reflexivity.
Defined.

(** An item that expires at second 7, used at 7.5 seconds. *)
Definition expiring_table : fakeDDB :=
  mkDDB {["rl:w" := value_item "pk" "rl:" "w" "3" (5 * Second) (2 * Second) 1]} false.

Lemma dynamo_expiry_second_denies_witness :
  drun (occ "pk" "rl:" maxOCCRetries FixedWindowScriptID "w" (Dd.fixedWindow_closure 3 1 (1000 * Millisecond))) expiring_table
    (fun _ => 7 * Second + 500 * Millisecond) 0 = (inl (inl ErrExhausted), expiring_table).
Proof.
  refine (dynamo_expiry_second_denies "pk" "rl:" "w" (fun f => failConn f = false) (fun f => items f !! "rl:w")
    FixedWindowScriptID (Dd.fixedWindow_closure 3 1 (1000 * Millisecond)) expiring_table (fun _ => 7 * Second + 500 * Millisecond)
    (value_item "pk" "rl:" "w" "3" (5 * Second) (2 * Second) 1) 7 "1" Second (RList [1; 1]) eq_refl _ _ _ _).
  - reflexivity.
  - vm_compute. reflexivity.
  - intros i. vm_compute. reflexivity.
  - vm_compute. reflexivity.
Defined.
