(* ===== verification/Bulkhead.v ===== *)
(** * The bulkhead ([bulkhead/bulkhead.go], [errors.go]).

    A buffered channel is the semaphore.  Any number of goroutines run
    [Execute]; a step is one channel operation, atomic access or critical
    section of the wait statistics of one goroutine. *)

From stdpp Require Import relations.
From S2P Require Import Prelude.
Open Scope Z_scope.

(** ** Wait statistics *)

Definition waitBucketBounds : list duration :=
  [1 * Millisecond; 5 * Millisecond; 10 * Millisecond; 50 * Millisecond; 100 * Millisecond;
   500 * Millisecond; 1 * Second; 5 * Second].

Record waitAccumulator := mkWaitAcc {
  wa_count : Z;
  wa_sum : duration;
  wa_min : duration;
  wa_max : duration;
  wa_last : duration;
  wa_buckets : list Z;
}.

Definition zero_wait : waitAccumulator := mkWaitAcc 0 0 0 0 0 (replicate 9 0).

(** The first bucket whose bound is not exceeded, else the overflow bucket. *)
Fixpoint bucket_index (d : duration) (bounds : list duration) : nat :=
  match bounds with
  | [] => O
  | b :: bounds' => if d <=? b then O else S (bucket_index d bounds')
  end.

Definition observe (w : waitAccumulator) (d : duration) : waitAccumulator :=
  let d := if d <? 0 then 0 else d in
  let count := wa_count w + 1 in
  mkWaitAcc count (wa_sum w +w d)
    (if (count =? 1) || (d <? wa_min w) then d else wa_min w)
    (if wa_max w <? d then d else wa_max w) d
    (alter (fun z => z + 1) (bucket_index d waitBucketBounds) (wa_buckets w)).

Record WaitStats := mkWaitStats {
  ws_Count : Z;
  ws_Sum : duration;
  ws_Min : duration;
  ws_Max : duration;
  ws_Last : duration;
  ws_Buckets : list Z;
  ws_BucketBounds : list duration;
}.

Definition snapshot (w : waitAccumulator) : WaitStats :=
  mkWaitStats (wa_count w) (wa_sum w) (wa_min w) (wa_max w) (wa_last w) (wa_buckets w) waitBucketBounds.

Definition Avg (s : WaitStats) : duration :=
  if ws_Count s =? 0 then 0 else Z.quot (ws_Sum s) (ws_Count s).

(** ** State *)

Record BulkheadError := mkBulkheadError {
  be_Name : string;
  be_Capacity : Z;
  be_Inflight : Z;
  be_Waiting : Z;
}.

Record Bulkhead := mkBulkhead {
  capacity : Z;            (* cap(b.sem) *)
  sem : Z;                 (* len(b.sem) *)
  maxWait : duration;
  inflight : Z;
  rejected : Z;
  waiting : Z;
  waitStats : waitAccumulator;
  name : string;
}.

Definition New (maxConcurrency : Z) (maxWait : duration) (name : string) : outcome Bulkhead :=
  if maxConcurrency <=? 0 then Panic "bulkhead: maxConcurrency must be greater than zero"
  else Ok (mkBulkhead maxConcurrency 0 maxWait 0 0 0 zero_wait name).

Definition full (b : Bulkhead) : BulkheadError :=
  mkBulkheadError (name b) (capacity b) (inflight b) (waiting b).

Definition QueueDepth (b : Bulkhead) : Z := if maxWait b =? 0 then 0 else waiting b.

Definition with_sem (z : Z) (b : Bulkhead) : Bulkhead :=
  mkBulkhead (capacity b) z (maxWait b) (inflight b) (rejected b) (waiting b) (waitStats b) (name b).
Definition add_inflight (z : Z) (b : Bulkhead) : Bulkhead :=
  mkBulkhead (capacity b) (sem b) (maxWait b) (inflight b + z) (rejected b) (waiting b) (waitStats b) (name b).
Definition add_waiting (z : Z) (b : Bulkhead) : Bulkhead :=
  mkBulkhead (capacity b) (sem b) (maxWait b) (inflight b) (rejected b) (waiting b + z) (waitStats b) (name b).
Definition add_rejected (b : Bulkhead) : Bulkhead :=
  mkBulkhead (capacity b) (sem b) (maxWait b) (inflight b) (rejected b + 1) (waiting b) (waitStats b) (name b).
Definition add_wait (d : duration) (b : Bulkhead) : Bulkhead :=
  mkBulkhead (capacity b) (sem b) (maxWait b) (inflight b) (rejected b) (waiting b)
    (observe (waitStats b) d) (name b).

(** ** Execute, step by step *)

(** Which case of the blocking [select] was taken. *)
Inductive reason := Acquired | CtxCancelled | TimedOut.

(** Errors: [ctx.Err()], or the structured error wrapping [ErrBulkheadFull];
    what the protected function returns or panics with is its caller's. *)
Inductive result := RanFn | CtxErr | FullErr (e : BulkheadError).

Inductive pc :=
| BStart
| BEnter (start : time)                    (* waiting.Add(1) *)
| BSelect (start : time)                   (* the select *)
| BWoke (start : time) (r : reason)        (* waiting.Add(-1) *)
| BObserve (start : time) (r : reason)     (* waitStats.observe *)
| BHeld                                    (* inflight.Add(1) *)
| BRun                                     (* the function runs *)
| BFree                                    (* <-b.sem *)
| BDec                                     (* inflight.Add(-1) *)
| BReject (ctx : bool)                     (* reject(); true: return ctx.Err() *)
| BFull                                    (* full() *)
| BDone (r : result).

(** [choice] picks the case of the blocking [select]. *)
Definition thread_step (b : Bulkhead) (now : time) (choice : reason) (p : pc) : option (Bulkhead * pc) :=
  match p with
  | BStart =>
      Some (if maxWait b =? 0 then
              if sem b <? capacity b then (with_sem (sem b + 1) b, BHeld) else (b, BReject false)
            else (b, BEnter now))
  | BEnter start => Some (add_waiting 1 b, BSelect start)
  | BSelect start =>
      match choice with
      | Acquired => if sem b <? capacity b then Some (with_sem (sem b + 1) b, BWoke start Acquired) else None
      | CtxCancelled => Some (b, BWoke start CtxCancelled)
      | TimedOut => if start + maxWait b <=? now then Some (b, BWoke start TimedOut) else None
      end
  | BWoke start r => Some (add_waiting (-1) b, BObserve start r)
  | BObserve start r =>
      Some (add_wait (time_sub now start) b,
        match r with Acquired => BHeld | CtxCancelled => BReject true | TimedOut => BReject false end)
  | BHeld => Some (add_inflight 1 b, BRun)
  | BRun => Some (b, BFree)
  | BFree => Some (with_sem (sem b - 1) b, BDec)
  | BDec => Some (add_inflight (-1) b, BDone RanFn)
  | BReject ctx => Some (add_rejected b, if ctx then BDone CtxErr else BFull)
  | BFull => Some (b, BDone (FullErr (full b)))
  | BDone _ => None
  end.

Record system := mkSystem { s_b : Bulkhead; s_now : time; s_threads : list pc }.

Definition sys_step (i : nat) (now : time) (choice : reason) (s : system) : option system :=
  p ← s_threads s !! i;
  '(b, p') ← thread_step (s_b s) now choice p;
  Some (mkSystem b now (<[i := p']> (s_threads s))).

Inductive step : system -> system -> Prop :=
| do_step i now choice s s' :
    s_now s <= now -> sys_step i now choice s = Some s' -> step s s'.

Definition init (b : Bulkhead) (now : time) (n : nat) : system := mkSystem b now (replicate n BStart).

Definition reachable (b : Bulkhead) (s : system) : Prop :=
  exists now n, rtc step (init b now n) s.

Fixpoint run_schedule (s : system) (sched : list (nat * time * reason)) : option system :=
  match sched with
  | [] => Some s
  | (i, now, choice) :: sched' =>
      if s_now s <=? now then s' ← sys_step i now choice s; run_schedule s' sched' else None
  end.

Lemma bulkhead_run_steps s sched s' : run_schedule s sched = Some s' -> rtc step s s'.
Proof.
  revert s. induction sched as [|[[i now] choice] sched IH]; intros s Hr; simpl in Hr.
  - simplify_eq. apply rtc_refl.
  - destruct (Z.leb_spec (s_now s) now); [|done].
    destruct (sys_step i now choice s) as [s1|] eqn:E; [|done].
    eapply rtc_l; [by econstructor|]. by apply IH.
Qed.

(** ** Counting goroutines *)

Definition holds (p : pc) : bool :=
  match p with
  | BWoke _ Acquired | BObserve _ Acquired | BHeld | BRun | BFree => true
  | _ => false
  end.
Definition queued (p : pc) : bool := match p with BSelect _ | BWoke _ _ => true | _ => false end.
Definition counted (p : pc) : bool := match p with BRun | BFree | BDec => true | _ => false end.
Definition running (p : pc) : bool := match p with BRun => true | _ => false end.

Lemma how_many_init f n : f BStart = false -> how_many f (replicate n BStart) = 0.
Proof. intros E. induction n as [|n IH]; simpl; [done|]. by rewrite how_many_cons, E, IH. Qed.

Definition sys_inv (b0 : Bulkhead) (s : system) : Prop :=
  let b := s_b s in
  capacity b = capacity b0 /\ sem b = how_many holds (s_threads s) /\ sem b <= capacity b /\
  waiting b = how_many queued (s_threads s) /\ inflight b = how_many counted (s_threads s).

Lemma bulkhead_step_inv b0 s s' : sys_inv b0 s -> step s s' -> sys_inv b0 s'.
Proof.
  intros (Hc & Hs & Hle & Hw & Hi) Hstep. destruct Hstep as [i now choice s s' _ Hst]. unfold sys_step in Hst.
  destruct (s_threads s !! i) as [p|] eqn:Ep; [|done]. simpl in Hst.
  destruct (thread_step (s_b s) now choice p) as [[b p']|] eqn:Et; [|done]. simplify_eq/=.
  unfold sys_inv; cbn [s_b s_threads]. rewrite !(how_many_insert _ _ _ _ _ Ep).
  destruct p as [|?|?|? r|? r| | | | |[]| |]; simpl in Et;
    try destruct r; try destruct choice; repeat case_match; simplify_eq/=; repeat case_cmp; split_and!; try lia.
Qed.

(** A fresh bulkhead. *)
Definition fresh (b : Bulkhead) : Prop :=
  0 < capacity b /\ sem b = 0 /\ inflight b = 0 /\ waiting b = 0.

Lemma bulkhead_reachable_inv b s : fresh b -> reachable b s -> sys_inv b s.
Proof.
  intros (Hc & Hs & Hi & Hw) (now & n & Hr).
  assert (sys_inv b (init b now n)) as H0.
  { unfold sys_inv, init; cbn [s_b s_threads]. rewrite !how_many_init by done. split_and!; lia. }
  revert H0. induction Hr as [s|s s1 s2 Hst _ IH]; [done|]. intros H0. apply IH. by eapply bulkhead_step_inv.
Qed.

(** C8: The bulkhead bounds concurrency: under any interleaving of any number
    of callers at most [maxConcurrency] of them run their function, a slot of
    the semaphore is taken exactly by the callers between acquisition and
    release, and the queue depth is the number of blocked callers. *)
Theorem bulkhead_limits_concurrency b s : fresh b -> reachable b s ->
  how_many running (s_threads s) <= capacity b /\
  sem (s_b s) = how_many holds (s_threads s) /\ 0 <= sem (s_b s) <= capacity b /\
  waiting (s_b s) = how_many queued (s_threads s) /\
  inflight (s_b s) = how_many counted (s_threads s).
Proof.
  intros Hf Hr. destruct (bulkhead_reachable_inv b s Hf Hr) as (Hc & Hs & Hle & Hw & Hi).
  pose proof (how_many_le running holds (s_threads s) ltac:(by intros [])) as Hrun.
  pose proof (how_many_bounds holds (s_threads s)). rewrite Hc in *. split_and!; lia.
Qed.

(** Two slots, callers wait up to a second. *)
Definition demo_bulkhead : Bulkhead := mkBulkhead 2 0 Second 0 0 0 zero_wait "db".

Definition demo_sched : list (nat * time * reason) :=
  replicate 6 (0%nat, 10, Acquired) ++ replicate 6 (1%nat, 20, Acquired) ++
  replicate 2 (2%nat, 30, Acquired) ++ replicate 1 (0%nat, 40, Acquired).

Definition run_from (b : Bulkhead) (n : nat) (sched : list (nat * time * reason)) : system :=
  default (init b 0 n) (run_schedule (init b 0 n) sched).

Lemma bulkhead_limits_concurrency_witness :
  let s := run_from demo_bulkhead 3 demo_sched in
  s_threads s = [BFree; BRun; BSelect 30] /\
  (how_many running (s_threads s) <= 2 /\
   sem (s_b s) = how_many holds (s_threads s) /\ 0 <= sem (s_b s) <= 2 /\
   waiting (s_b s) = how_many queued (s_threads s) /\ inflight (s_b s) = how_many counted (s_threads s)).
Proof.
  split; [vm_compute; reflexivity|].
  apply (bulkhead_limits_concurrency demo_bulkhead).
  - unfold fresh; simpl; lia.
  - exists 0, 3%nat. apply (bulkhead_run_steps _ demo_sched). vm_compute. reflexivity.
Defined.

(** [Inflight] can exceed the capacity: the slot is returned before the
    counter is decremented, so while one caller is between the two another one
    is counted, and a bulkhead of one reports two executions in progress. *)
Theorem bulkhead_inflight_exceeds_capacity :
  exists b s, New 1 0 "db" = Ok b /\ reachable b s /\
    inflight (s_b s) = 2 /\ capacity (s_b s) = 1 /\ how_many running (s_threads s) = 1.
Proof.
  exists (mkBulkhead 1 0 0 0 0 0 zero_wait "db"),
    (run_from (mkBulkhead 1 0 0 0 0 0 zero_wait "db") 2
       (replicate 4 (0%nat, 0, Acquired) ++ replicate 2 (1%nat, 0, Acquired))).
  split; [reflexivity|]. split; [|vm_compute; by split_and!].
  exists 0, 2%nat.
  apply (bulkhead_run_steps _ (replicate 4 (0%nat, 0, Acquired) ++ replicate 2 (1%nat, 0, Acquired))).
  vm_compute. reflexivity.
Qed.

(** ** The wait statistics *)

Definition observe_all (ds : list duration) : waitAccumulator := foldl observe zero_wait ds.

(** The statistics of the waits [ds]. *)
Definition wait_inv (w : waitAccumulator) (ds : list duration) : Prop :=
  wa_count w = zlength ds /\ wa_sum w = zsum ds /\ length (wa_buckets w) = 9%nat /\
  zsum (wa_buckets w) = wa_count w /\ (ds <> [] -> wa_min w <= wa_max w) /\ 0 <= wa_max w /\
  Forall (fun d => wa_min w <= d <= wa_max w) ds.

Lemma bucket_index_lt d : (bucket_index d waitBucketBounds < 9)%nat.
Proof.
  assert (forall bs, bucket_index d bs <= length bs)%nat as H.
  { intros bs. induction bs as [|b bs IH]; simpl; [done|]. case_match; lia. }
  specialize (H waitBucketBounds). simpl in *. lia.
Qed.

Lemma zsum_alter_succ i l : (i < length l)%nat -> zsum (alter (fun z => z + 1) i l) = zsum l + 1.
Proof.
  revert i. induction l as [|x l IH]; intros [|i] Hi; simpl in *; try lia.
  change (list_alter (fun z => z + 1) i l) with (alter (fun z => z + 1) i l).
  fold (zsum (alter (fun z => z + 1) i l)). rewrite IH by lia. unfold zsum. lia.
Qed.

Lemma wait_inv_observe w ds d : wait_inv w ds -> 0 <= d -> Forall (fun x => 0 <= x) ds ->
  zsum (ds ++ [d]) <= max_int64 -> wait_inv (observe w d) (ds ++ [d]).
Proof.
  intros (Hc & Hs & Hl & Hb & Hmm & Hm0 & Hall) Hd Hnn Hmax. unfold observe.
  rewrite (proj2 (Z.ltb_ge d 0)) by done. cbv zeta.
  assert (zsum (ds ++ [d]) = zsum ds + d) as Es by (rewrite zsum_app; simpl; lia).
  pose proof (zsum_nonneg ds Hnn). pose proof (zlength_nonneg ds).
  unfold wait_inv; cbn [wa_count wa_sum wa_buckets wa_min wa_max].
  rewrite wrap64_small by go_lia. zlen.
  split_and!; try lia.
  - by rewrite length_alter.
  - rewrite zsum_alter_succ; [lia|]. rewrite Hl. apply bucket_index_lt.
  - intros _. destruct (Z.eqb_spec (wa_count w + 1) 1); simpl; repeat case_cmp; try lia.
  - case_cmp; lia.
  - apply Forall_app. split; [|constructor; [|constructor]].
    + destruct (Z.eqb_spec (wa_count w + 1) 1).
      * assert (zlength ds = 0) as Hz by lia. unfold zlength in Hz. destruct ds; [constructor|simpl in Hz; lia].
      * eapply Forall_impl; [exact Hall|]. simpl. intros x Hx. repeat case_cmp; lia.
    + destruct (Z.eqb_spec (wa_count w + 1) 1); simpl; repeat case_cmp; lia.
Qed.

Lemma Forall_app_l {A} (P : A -> Prop) l k : Forall P (l ++ k) -> Forall P l.
Proof. by intros [? _]%Forall_app. Qed.

Lemma observe_all_inv ds : Forall (fun d => 0 <= d) ds -> zsum ds <= max_int64 ->
  wait_inv (observe_all ds) ds.
Proof.
  induction ds as [|d ds IH] using rev_ind; intros Hnn Hmax.
  - unfold wait_inv, observe_all; simpl. split_and!; try done.
  - unfold observe_all in *. rewrite foldl_app. simpl.
    apply Forall_app in Hnn as [Hnn Hd]. inversion Hd; subst.
    assert (zsum (ds ++ [d]) = zsum ds + d) as Es by (rewrite zsum_app; simpl; lia).
    apply wait_inv_observe; auto. apply IH; auto. lia.
Qed.

(** The wait statistics are those of the observed waits: count and sum are
    exact, every observation falls in one histogram bucket, all of them lie
    between minimum and maximum, and so does the average. *)
Theorem wait_stats_exact ds :
  Forall (fun d => 0 <= d) ds -> zsum ds <= max_int64 -> ds <> [] ->
  let s := snapshot (observe_all ds) in
  ws_Count s = zlength ds /\ ws_Sum s = zsum ds /\ zsum (ws_Buckets s) = zlength ds /\
  Forall (fun d => ws_Min s <= d <= ws_Max s) ds /\ ws_Min s <= Avg s <= ws_Max s.
Proof.
  intros Hnn Hmax Hne. cbv zeta.
  destruct (observe_all_inv ds Hnn Hmax) as (Hc & Hs & _ & Hb & Hmm & Hm0 & Hall).
  set (w := observe_all ds) in *. unfold snapshot, Avg; cbn [ws_Count ws_Sum ws_Buckets ws_Min ws_Max].
  assert (0 < zlength ds) as Hlen.
  { destruct ds; [done|]. zlen. pose proof (zlength_nonneg ds). lia. }
  pose proof (zsum_bounds _ _ ds Hall) as Hsum.
  split_and!; try done; try lia; rewrite (proj2 (Z.eqb_neq _ _)) by lia;
    rewrite Z.quot_div_nonneg by (pose proof (zsum_nonneg ds Hnn); lia).
  - apply Z.div_le_lower_bound; lia.
  - apply Z.div_le_upper_bound; lia.
Qed.

Lemma wait_stats_exact_witness :
  let s := snapshot (observe_all [2 * Millisecond; 40 * Millisecond; 6 * Second]) in
  ws_Count s = 3 /\ ws_Sum s = 6042 * Millisecond /\ zsum (ws_Buckets s) = 3 /\
  Forall (fun d => ws_Min s <= d <= ws_Max s) [2 * Millisecond; 40 * Millisecond; 6 * Second] /\
  ws_Min s <= Avg s <= ws_Max s.
Proof.
  refine (wait_stats_exact [2 * Millisecond; 40 * Millisecond; 6 * Second] _ _ _).
  - repeat constructor; vm_compute; discriminate.
  - vm_compute; discriminate.
  - discriminate.
Defined.
