(* ===== verification/ThreadPool.v ===== *)
(** * The worker pool ([bulkhead/threadpool.go]).

    Goroutines call [Submit] and [Close] while the workers run.  A step is one
    channel operation, one atomic access, or the return of a task's function
    (with the error it returns; an unrecovered panic of a task ends the process
    and is not a step).  Task [i] is the one submitted by the [i]-th call. *)

From S2P Require Import Prelude.
Open Scope Z_scope.

(** Where a call of [Submit] is.  [SClosed late]: it returned [ErrPoolClosed], [late] when the
    task had already been sent. *)
Inductive spc := SCheck | SSelect | SRecheck | SAccepted | SClosed (late : bool) | SFull.

(** [res] is the result channel of the task (capacity 1): the values sent on it. *)
Record submission := mkSub { s_pc : spc; res : list Z }.

(** Where a worker is; [drain] in the loop entered after [done] is closed. *)
Inductive wpc :=
| WSelect                          (* the outer select *)
| WDrain                           (* the inner select *)
| WGot (drain : bool) (t : nat)    (* received a task, before busy.Add(1) *)
| WRun (drain : bool) (t : nat)    (* fn runs *)
| WFinish (drain : bool) (t : nat) (e : Z)  (* fn returned, before busy.Add(-1) *)
| WSend (drain : bool) (t : nat) (e : Z)    (* t.res <- e *)
| WExit.                           (* wg.Done *)

(** A call of [Close]: [CReturned first] tells whether it was the one that closed the pool. *)
Inductive cpc := CCas | CSignal | CWait | CReturned (first : bool).

Record ThreadPool := mkPool {
  cap : Z;
  queue : list nat;
  done : bool;
  closed : bool;
  busy : Z;
  workers : list wpc;
  subs : list submission;
  closes : list cpc;
}.

Definition NewThreadPool (n queueSize : Z) : outcome ThreadPool :=
  if n <=? 0 then Panic "thread pool: workers must be greater than zero"
  else if queueSize <? 0 then Panic "thread pool: queueSize must be non-negative"
  else Ok (mkPool queueSize [] false false 0 (replicate (Z.to_nat n) WSelect) [] []).

Definition QueueDepth (p : ThreadPool) : Z := zlength (queue p).
Definition Workers (p : ThreadPool) : Z := zlength (workers p).

(** ** Steps *)

Definition with_worker (p : ThreadPool) (j : nat) (w : wpc) : ThreadPool :=
  mkPool (cap p) (queue p) (done p) (closed p) (busy p) (<[j := w]> (workers p)) (subs p) (closes p).
Definition with_queue (p : ThreadPool) (q : list nat) : ThreadPool :=
  mkPool (cap p) q (done p) (closed p) (busy p) (workers p) (subs p) (closes p).
Definition with_busy (p : ThreadPool) (b : Z) : ThreadPool :=
  mkPool (cap p) (queue p) (done p) (closed p) b (workers p) (subs p) (closes p).
Definition with_subs (p : ThreadPool) (ss : list submission) : ThreadPool :=
  mkPool (cap p) (queue p) (done p) (closed p) (busy p) (workers p) ss (closes p).

Definition again (drain : bool) : wpc := if drain then WDrain else WSelect.

(** A worker moves.  [by_done] selects the [done] case of the outer select (both cases may be
    ready); [e] is what the function returns. *)
Definition worker_step (by_done : bool) (e : Z) (p : ThreadPool) (j : nat) : option ThreadPool :=
  w ← workers p !! j;
  match w with
  | WSelect =>
      if by_done then (if done p then Some (with_worker p j WDrain) else None)
      else match queue p with
           | [] => None
           | t :: q => Some (with_worker (with_queue p q) j (WGot false t))
           end
  | WDrain =>
      match queue p with
      | [] => Some (with_worker p j WExit)
      | t :: q => Some (with_worker (with_queue p q) j (WGot true t))
      end
  | WGot d t => Some (with_worker (with_busy p (busy p + 1)) j (WRun d t))
  | WRun d t => Some (with_worker p j (WFinish d t e))
  | WFinish d t e' => Some (with_worker (with_busy p (busy p - 1)) j (WSend d t e'))
  | WSend d t e' =>
      s ← subs p !! t;
      if (length (res s) =? 0)%nat
      then Some (with_worker (with_subs p (<[t := mkSub (s_pc s) (res s ++ [e'])]> (subs p))) j (again d))
      else None
  | WExit => None
  end.

(** The case a [Submit] takes in its select: send on the buffer, hand over to worker [j] parked
    on an empty channel, [done], or [default] when none of these is ready. *)
Inductive choice := ToBuffer | ToWorker (j : nat) | ByDone | ByDefault.

Definition move (p : ThreadPool) (i : nat) (s : submission) (c : spc) : ThreadPool :=
  with_subs p (<[i := mkSub c (res s)]> (subs p)).

Definition submit_step (c : choice) (p : ThreadPool) (i : nat) : option ThreadPool :=
  s ← subs p !! i;
  match s_pc s with
  | SCheck => Some (move p i s (if closed p then SClosed false else SSelect))
  | SSelect =>
      match c with
      | ToBuffer =>
          if zlength (queue p) <? cap p then Some (move (with_queue p (queue p ++ [i])) i s SRecheck) else None
      | ToWorker j =>
          w ← workers p !! j;
          match w, queue p with
          | WSelect, [] => Some (move (with_worker p j (WGot false i)) i s SRecheck)
          | _, _ => None
          end
      | ByDone => if done p then Some (move p i s (SClosed false)) else None
      | ByDefault => if done p || (zlength (queue p) <? cap p) then None else Some (move p i s SFull)
      end
  | SRecheck => Some (move p i s (if closed p then SClosed true else SAccepted))
  | SAccepted | SClosed _ | SFull => None
  end.

Definition is_exit (w : wpc) : bool := match w with WExit => true | _ => false end.

Definition close_step (p : ThreadPool) (k : nat) : option ThreadPool :=
  c ← closes p !! k;
  let next dn cl c' := Some (mkPool (cap p) (queue p) dn cl (busy p) (workers p) (subs p) (<[k := c']> (closes p))) in
  match c with
  | CCas => if closed p then next (done p) true (CReturned false) else next (done p) true CSignal
  | CSignal => next true (closed p) CWait
  | CWait => if forallb is_exit (workers p) then next (done p) (closed p) (CReturned true) else None
  | CReturned _ => None
  end.

Inductive action :=
| ASubmit                           (* a goroutine calls Submit *)
| AClose                            (* a goroutine calls Close *)
| ASubmitStep (i : nat) (c : choice)
| ACloseStep (k : nat)
| AWorker (j : nat) (by_done : bool) (e : Z).

Definition sys_step (p : ThreadPool) (a : action) : option ThreadPool :=
  match a with
  | ASubmit => Some (with_subs p (subs p ++ [mkSub SCheck []]))
  | AClose => Some (mkPool (cap p) (queue p) (done p) (closed p) (busy p) (workers p) (subs p) (closes p ++ [CCas]))
  | ASubmitStep i c => submit_step c p i
  | ACloseStep k => close_step p k
  | AWorker j b e => worker_step b e p j
  end.

Fixpoint run (p : ThreadPool) (sched : list action) : option ThreadPool :=
  match sched with
  | [] => Some p
  | a :: sched' => p' ← sys_step p a; run p' sched'
  end.

Definition reachable (n queueSize : Z) (p : ThreadPool) : Prop :=
  exists p0 sched, NewThreadPool n queueSize = Ok p0 /\ run p0 sched = Some p.

(** ** Where a task is *)

Definition holding (w : wpc) : option nat :=
  match w with WGot _ t | WRun _ t | WFinish _ t _ | WSend _ t _ => Some t | _ => None end.

Definition draining (w : wpc) : bool :=
  match w with
  | WSelect => false
  | WDrain | WExit => true
  | WGot d _ | WRun d _ | WFinish d _ _ | WSend d _ _ => d
  end.

Definition sent (c : spc) : Z := match c with SRecheck | SAccepted | SClosed true => 1 | _ => 0 end.

Definition one_if (b : bool) : Z := if b then 1 else 0.

Definition in_queue (i : nat) (q : list nat) : Z := tally (fun t => one_if (t =? i)%nat) q.
Definition in_workers (i : nat) (ws : list wpc) : Z := tally (fun w => one_if (bool_decide (holding w = Some i))) ws.
Definition balance (s : submission) : Z := zlength (res s) - sent (s_pc s).
Definition out_of (i : nat) (ss : list submission) : Z := match ss !! i with Some s => balance s | None => 0 end.

Definition running (w : wpc) : Z := match w with WRun _ _ | WFinish _ _ _ => 1 | _ => 0 end.

Definition close_ok (p : ThreadPool) (c : cpc) : Prop :=
  match c with
  | CCas => True
  | CSignal => closed p = true
  | CWait | CReturned false => closed p = true
  | CReturned true => forallb is_exit (workers p) = true
  end.

Record pool_inv (p : ThreadPool) : Prop := {
  (* a sent task is in the queue, with a worker, or its result has been delivered *)
  inv_once : forall i, in_queue i (queue p) + in_workers i (workers p) + out_of i (subs p) = 0;
  inv_busy : busy p = tally running (workers p);
  inv_cap : zlength (queue p) <= cap p;
  inv_done : done p = true -> closed p = true;
  inv_drain : Forall (fun w => draining w = true -> done p = true) (workers p);
  (* once a worker has left, the queue holds no accepted task *)
  inv_left : existsb is_exit (workers p) = true ->
    Forall (fun t => exists s, subs p !! t = Some s /\ s_pc s <> SAccepted) (queue p);
  inv_subs : Forall (fun t => (t < length (subs p))%nat) (queue p);
  inv_close : Forall (close_ok p) (closes p);
}.

Lemma out_of_insert i k ss s s' : ss !! k = Some s ->
  out_of i (<[k := s']> ss) = out_of i ss + one_if (k =? i)%nat * (balance s' - balance s).
Proof.
  intros Hk. unfold out_of. destruct (Nat.eqb_spec k i) as [->|Hne].
  - rewrite list_lookup_insert_eq by (by eapply lookup_lt_Some). rewrite Hk. cbn. lia.
  - rewrite list_lookup_insert_ne by done. cbn. lia.
Qed.

Lemma in_workers_insert i j ws w w' : ws !! j = Some w ->
  in_workers i (<[j := w']> ws) =
  in_workers i ws - one_if (bool_decide (holding w = Some i)) + one_if (bool_decide (holding w' = Some i)).
Proof. intros H. unfold in_workers. by rewrite (tally_insert _ _ _ _ _ H). Qed.

Lemma holding_one t i : one_if (bool_decide (Some t = Some i)) = one_if (t =? i)%nat.
Proof. destruct (Nat.eqb_spec t i) as [->|Hne]; [by rewrite bool_decide_true|]. rewrite bool_decide_false; [done|congruence]. Qed.

Lemma existsb_insert ws j w' : existsb is_exit (<[j := w']> ws) = true -> existsb is_exit ws = true \/ is_exit w' = true.
Proof.
  intros (w & Hw & He)%existsb_exists. apply list_elem_of_In, list_elem_of_lookup in Hw as [k Hk].
  destruct (decide (j = k)) as [->|Hne].
  - rewrite list_lookup_insert_eq in Hk; [simplify_eq; auto|]. apply lookup_lt_Some in Hk. by rewrite length_insert in Hk.
  - rewrite list_lookup_insert_ne in Hk by done. left. apply existsb_exists. exists w. split; [|done].
    apply list_elem_of_In. by eapply list_elem_of_lookup_2.
Qed.

Lemma exit_keeps ws j w : ws !! j = Some w -> is_exit w = false -> forallb is_exit ws = true -> False.
Proof.
  intros Hj Hw H. rewrite forallb_forall in H. specialize (H w). rewrite H in Hw; [done|].
  apply list_elem_of_In. by eapply list_elem_of_lookup_2.
Qed.

(** A worker that is not done moves to [w'] and, possibly, the queue, the results and the busy
    counter with it. *)
Lemma worker_moves p j w w' q b ss : pool_inv p -> workers p !! j = Some w -> is_exit w = false ->
  (forall i, in_queue i q + one_if (bool_decide (holding w' = Some i)) + out_of i ss =
             in_queue i (queue p) + one_if (bool_decide (holding w = Some i)) + out_of i (subs p)) ->
  b = busy p - running w + running w' -> zlength q <= cap p ->
  (draining w' = true -> done p = true) ->
  (is_exit w' = true -> q = []) ->
  (forall t, t ∈ q -> t ∈ queue p) ->
  length ss = length (subs p) -> (forall t s, subs p !! t = Some s -> exists s', ss !! t = Some s' /\ s_pc s' = s_pc s) ->
  pool_inv (mkPool (cap p) q (done p) (closed p) b (<[j := w']> (workers p)) ss (closes p)).
Proof.
  intros [I1 I2 I3 I4 I5 I6 I7 I8] Hj Hw Ho Hb Hq Hd He Hin Hlen Hss. split; cbn.
  - intros i. rewrite (in_workers_insert _ _ _ _ _ Hj). specialize (I1 i). specialize (Ho i). lia.
  - rewrite (tally_insert _ _ _ _ _ Hj). lia.
  - done.
  - done.
  - apply Forall_insert; [done|]. exact Hd.
  - intros [Hx|Hx]%existsb_insert; [|by rewrite He].
    specialize (I6 Hx). rewrite Forall_forall in *. intros t Ht. destruct (I6 t (Hin t Ht)) as (s & Hs & Hp).
    destruct (Hss t s Hs) as (s' & Hs' & Hp'). exists s'. by rewrite Hp'.
  - rewrite Hlen. rewrite Forall_forall in *. eauto.
  - eapply Forall_impl; [exact I8|]. intros [| | |[]]; cbn; try done. intros H. by destruct (exit_keeps _ _ _ Hj Hw H).
Qed.

Lemma running_nonneg w : 0 <= running w.
Proof. destruct w; cbn; lia. Qed.

Lemma worker_step_inv b e p j p' : worker_step b e p j = Some p' -> pool_inv p -> pool_inv p'.
Proof.
  unfold worker_step. intros H Hi. destruct (workers p !! j) as [w|] eqn:Hj; [|done]. cbn in H.
  pose proof Hi as [I1 I2 I3 I4 I5 I6 I7 I8]. pose proof (Forall_lookup_1 _ _ _ _ I5 Hj) as Hd. cbn in Hd.
  assert (forall t q, queue p = t :: q -> forall i, in_queue i (queue p) = one_if (t =? i)%nat + in_queue i q) as Hq
    by (by intros t q -> i).
  destruct w as [| |d t|d t|d t e'|d t e'|]; cbn in H.
  - destruct b.
    + destruct (done p) eqn:Ed; simplify_eq. apply (worker_moves p j WSelect); try done; cbn; try lia; eauto.
    + destruct (queue p) as [|t q] eqn:Eq; simplify_eq. rewrite <- Eq in *. apply (worker_moves p j WSelect); try done; cbn; try lia; eauto.
      * intros i. rewrite holding_one, (Hq _ _ Eq). rewrite bool_decide_false by done. cbn. lia.
      * rewrite Eq in I3. zlen. lia.
      * intros. rewrite ?Eq. apply elem_of_cons. by right.
  - destruct (queue p) as [|t q] eqn:Eq; simplify_eq; rewrite <- Eq in *; apply (worker_moves p j WDrain); try done; cbn; try lia; eauto.
    + intros i. rewrite holding_one, (Hq _ _ Eq). rewrite bool_decide_false by done. cbn. lia.
    + rewrite Eq in I3. zlen. lia.
    + intros. rewrite ?Eq. apply elem_of_cons. by right.
  - simplify_eq. apply (worker_moves p j (WGot d t)); try done; cbn; eauto; lia.
  - simplify_eq. apply (worker_moves p j (WRun d t)); try done; cbn; eauto; lia.
  - simplify_eq. apply (worker_moves p j (WFinish d t e')); try done; cbn; eauto; lia.
  - destruct (subs p !! t) as [s|] eqn:Es; [|done]. cbn in H. destruct (Nat.eqb_spec (length (res s)) 0) as [El|]; [|done].
    simplify_eq. apply (worker_moves p j (WSend d t e')); try done; cbn; eauto.
    + intros i. rewrite holding_one, (out_of_insert _ _ _ _ _ Es). destruct d; rewrite bool_decide_false by done;
        unfold balance; cbn; zlen; lia.
    + destruct d; cbn; lia.
    + by destruct d.
    + by destruct d.
    + by rewrite length_insert.
    + intros t' s' Hs'. destruct (decide (t = t')) as [->|Hne].
      * rewrite list_lookup_insert_eq by (by eapply lookup_lt_Some). simplify_eq. by eexists.
      * rewrite list_lookup_insert_ne by done. eauto.
  - done.
Qed.

Lemma sub_moves p i s c : pool_inv p -> subs p !! i = Some s -> sent c = sent (s_pc s) ->
  (c = SAccepted -> s_pc s = SAccepted \/ closed p = false) -> pool_inv (move p i s c).
Proof.
  intros [I1 I2 I3 I4 I5 I6 I7 I8] Hi Hs Hc. split; cbn; try done.
  - intros k. rewrite (out_of_insert _ _ _ _ _ Hi). unfold balance. cbn. rewrite Hs. specialize (I1 k). lia.
  - intros Hx. specialize (I6 Hx). eapply Forall_impl; [exact I6|]. intros t (s' & Hs' & Hp).
    destruct (decide (i = t)) as [->|Hne]; [|exists s'; by rewrite list_lookup_insert_ne].
    rewrite list_lookup_insert_eq by (by eapply lookup_lt_Some). simplify_eq. eexists. split; [done|]. cbn. intros ->.
    destruct Hc as [?|Hc]; [done..|].
    apply existsb_exists in Hx as (w & Hw & He). apply list_elem_of_In in Hw. rewrite Forall_forall in I5. specialize (I5 w Hw).
    rewrite I4 in Hc; [done|]. apply I5. by destruct w.
  - by rewrite length_insert.
Qed.

(** Sending: the task goes to the buffer or straight to a worker. *)
Lemma sends_to_buffer p i s : pool_inv p -> subs p !! i = Some s -> s_pc s = SSelect -> zlength (queue p) < cap p ->
  pool_inv (move (with_queue p (queue p ++ [i])) i s SRecheck).
Proof.
  intros [I1 I2 I3 I4 I5 I6 I7 I8] Hi Hs Hc. split; cbn; try done.
  - intros k. rewrite (out_of_insert _ _ _ _ _ Hi). unfold balance, in_queue in *. cbn. rewrite Hs, tally_app, tally_one. cbn.
    specialize (I1 k). lia.
  - zlen. lia.
  - intros Hx. specialize (I6 Hx). rewrite Forall_app, Forall_singleton. split.
    + eapply Forall_impl; [exact I6|]. intros t (s' & Hs' & Hp).
      destruct (decide (i = t)) as [->|Hne]; [|exists s'; by rewrite list_lookup_insert_ne].
      rewrite list_lookup_insert_eq by (by eapply lookup_lt_Some). by eexists.
    + rewrite list_lookup_insert_eq by (by eapply lookup_lt_Some). by eexists.
  - rewrite length_insert, Forall_app, Forall_singleton. split; [done|]. by eapply lookup_lt_Some.
Qed.

Lemma sends_to_worker p i j s : pool_inv p -> subs p !! i = Some s -> s_pc s = SSelect ->
  workers p !! j = Some WSelect -> queue p = [] -> pool_inv (move (with_worker p j (WGot false i)) i s SRecheck).
Proof.
  intros [I1 I2 I3 I4 I5 I6 I7 I8] Hi Hs Hj Hq. split; cbn; try done.
  - intros k. rewrite (out_of_insert _ _ _ _ _ Hi), (in_workers_insert _ _ _ _ _ Hj). unfold balance. cbn [holding].
    rewrite holding_one, bool_decide_false by done. cbn. rewrite Hs. cbn. specialize (I1 k). lia.
  - rewrite (tally_insert _ _ _ _ _ Hj). cbn. lia.
  - apply Forall_insert; [done|]. done.
  - intros _. by rewrite Hq.
  - by rewrite Hq.
  - eapply Forall_impl; [exact I8|]. intros [| | |[]]; cbn; try done. intros H. by destruct (exit_keeps _ _ _ Hj eq_refl H).
Qed.

Lemma submit_step_inv c p i p' : submit_step c p i = Some p' -> pool_inv p -> pool_inv p'.
Proof.
  unfold submit_step. intros H Hi. destruct (subs p !! i) as [s|] eqn:Es; [|done]. cbn in H.
  destruct (s_pc s) eqn:Ep; simplify_eq.
  - apply sub_moves; try done; rewrite Ep; by destruct (closed p).
  - destruct c as [|j| |].
    + case_cmp; simplify_eq. by apply sends_to_buffer.
    + destruct (workers p !! j) as [[]|] eqn:Ej; cbn in H; simplify_eq. destruct (queue p) eqn:Eq; simplify_eq.
      by apply sends_to_worker.
    + destruct (done p); simplify_eq. apply sub_moves; try done; by rewrite Ep.
    + destruct (_ || _); simplify_eq. apply sub_moves; try done; by rewrite Ep.
  - apply sub_moves; try done; destruct (closed p); try done; rewrite ?Ep; auto.
Qed.

Lemma close_step_inv p k p' : close_step p k = Some p' -> pool_inv p -> pool_inv p'.
Proof.
  unfold close_step. intros H [I1 I2 I3 I4 I5 I6 I7 I8]. destruct (closes p !! k) as [c|] eqn:Ec; [|done]. cbn in H.
  pose proof (Forall_lookup_1 _ _ _ _ I8 Ec) as Hc.
  destruct c; cbn in Hc; repeat case_match; simplify_eq; split; cbn; try done;
    try (apply Forall_insert; [|done]); try (eapply Forall_impl; [eassumption|]; intros [| | |[]]; done);
    try (eapply Forall_impl; [eassumption|]; cbn; auto).
Qed.

Lemma pool_sys_step_inv p a p' : sys_step p a = Some p' -> pool_inv p -> pool_inv p'.
Proof.
  intros H Hi. destruct a; cbn in H; simplify_eq.
  - destruct Hi as [I1 I2 I3 I4 I5 I6 I7 I8]. split; cbn; try done.
    + intros i. specialize (I1 i). unfold out_of in *. destruct (decide (i = length (subs p))) as [->|Hne].
      * rewrite lookup_ge_None_2 in I1 by lia. rewrite list_lookup_middle by done.
        change (balance _) with 0. lia.
      * destruct (subs p !! i) as [s|] eqn:Es; [by rewrite (lookup_app_l_Some _ _ _ _ Es)|].
        rewrite lookup_app, Es. rewrite lookup_ge_None_2; [done|]. apply lookup_ge_None in Es. cbn. lia.
    + intros Hx. eapply Forall_impl; [by apply I6|]. intros t (s & Hs & Hp). exists s. split; [|done]. by apply lookup_app_l_Some.
    + eapply Forall_impl; [exact I7|]. cbn. intros t Ht. rewrite length_app. lia.
  - destruct Hi as [I1 I2 I3 I4 I5 I6 I7 I8]. split; cbn; try done. apply Forall_app. split; [done|]. by apply Forall_singleton.
  - by eapply submit_step_inv.
  - by eapply close_step_inv.
  - by eapply worker_step_inv.
Qed.

Lemma NewThreadPool_inv n c p : NewThreadPool n c = Ok p -> pool_inv p /\ 0 < Workers p.
Proof.
  unfold NewThreadPool. intros H. repeat case_cmp; simplify_eq. split; [|unfold Workers; cbn; rewrite zlength_replicate; lia].
  split; cbn; try done.
  - intros i. unfold in_workers. change (in_queue i []) with 0. change (out_of i []) with 0.
    assert (forall k, tally (fun w => one_if (bool_decide (holding w = Some i))) (replicate k WSelect) = 0) as ->; [|done].
    intros k. induction k as [|k IH]; [done|]. cbn [replicate]. by rewrite tally_cons, IH.
  - induction (Z.to_nat n) as [|k IH]; [done|]. cbn [replicate]. rewrite tally_cons, <- IH. done.
  - by apply Forall_replicate.
Qed.

Lemma pool_run_inv p sched p' : run p sched = Some p' -> pool_inv p -> pool_inv p'.
Proof.
  revert p. induction sched as [|a sched IH]; intros p H Hi; cbn in H; [by simplify_eq|].
  destruct (sys_step p a) as [p1|] eqn:E; [|done]. cbn in H. eapply IH; [exact H|]. by eapply pool_sys_step_inv.
Qed.

(** The number of workers and the capacity never change. *)
Lemma sys_step_size p a p' : sys_step p a = Some p' -> length (workers p') = length (workers p) /\ cap p' = cap p.
Proof.
  destruct a; cbn; [by intros [= <-]..| | |];
    unfold submit_step, close_step, worker_step; intros H;
    (destruct (_ !! _); [|done]); cbn in H;
    repeat (case_match; cbn in H; simplify_eq/=; rewrite ?length_insert; try done).
  all: try (destruct (_ !! _) as [?|]; [|done]); cbn in H; repeat (case_match; cbn in H; simplify_eq/=; rewrite ?length_insert; try done).
Qed.

Lemma run_size p sched p' : run p sched = Some p' -> length (workers p') = length (workers p) /\ cap p' = cap p.
Proof.
  revert p. induction sched as [|a sched IH]; intros p H; cbn in H; [by simplify_eq|].
  destruct (sys_step p a) as [p1|] eqn:E; [|done]. cbn in H. apply IH in H as [-> ->]. by eapply sys_step_size.
Qed.

Lemma pool_reachable_inv n c p : reachable n c p -> pool_inv p /\ 0 < Workers p /\ Workers p = n /\ cap p = c.
Proof.
  intros (p0 & sched & H0 & Hr). destruct (NewThreadPool_inv _ _ _ H0) as [Hi Hw]. destruct (run_size _ _ _ Hr) as [Hl Hc].
  split; [by eapply pool_run_inv|]. unfold Workers, zlength in *. rewrite Hl, Hc. split; [done|].
  unfold NewThreadPool in H0. repeat case_cmp; simplify_eq. cbn in *. rewrite length_replicate in *. lia.
Qed.

(** ** Progress of the workers *)

Lemma one_if_nonneg b : 0 <= one_if b.
Proof. destruct b; cbn; lia. Qed.

Lemma in_queue_pos i q : 0 < in_queue i q -> i ∈ q.
Proof.
  unfold in_queue. induction q as [|t q IH]; [done|]. rewrite tally_cons. destruct (Nat.eqb_spec t i) as [->|Hne]; cbn.
  - intros _. apply elem_of_cons. by left.
  - intros H. apply elem_of_cons. right. apply IH. lia.
Qed.

Lemma in_workers_pos i ws : 0 < in_workers i ws -> exists j w, ws !! j = Some w /\ holding w = Some i.
Proof.
  unfold in_workers. induction ws as [|w ws IH]; [done|]. rewrite tally_cons. case_bool_decide as Hw; cbn.
  - intros _. by exists 0%nat, w.
  - intros H. destruct IH as (j & w' & Hj & Hw'); [lia|]. by exists (S j), w'.
Qed.

Lemma in_queue_nonneg i q : 0 <= in_queue i q.
Proof. apply tally_nonneg. intros. apply one_if_nonneg. Qed.

Lemma in_workers_nonneg i ws : 0 <= in_workers i ws.
Proof. apply tally_nonneg. intros. apply one_if_nonneg. Qed.

(** A task with a worker has an empty result channel. *)
Lemma held_no_result p j w t : pool_inv p -> workers p !! j = Some w -> holding w = Some t ->
  exists s, subs p !! t = Some s /\ res s = [].
Proof.
  intros [I1 _ _ _ _ _ _ _] Hj Hw. specialize (I1 t). pose proof (in_queue_nonneg t (queue p)).
  assert (1 <= in_workers t (workers p)) as Hb.
  { pose proof (tally_lookup (fun w => one_if (bool_decide (holding w = Some t))) _ _ _ (fun _ => one_if_nonneg _) Hj) as H'.
    cbn in H'. rewrite bool_decide_true in H' by done. exact H'. }
  unfold out_of, balance in I1. destruct (subs p !! t) as [s|]; [|lia]. exists s. split; [done|].
  apply length_zero_iff_nil. unfold zlength in I1. assert (0 <= sent (s_pc s) <= 1) by (destruct (s_pc s) as [| | | |[]|]; cbn; lia). lia.
Qed.

Lemma worker_can_move p j w : pool_inv p -> workers p !! j = Some w -> is_exit w = false -> (w = WSelect -> queue p <> []) ->
  exists b e p', worker_step b e p j = Some p'.
Proof.
  intros Hi Hj Hw Hq. exists false, 0. unfold worker_step. rewrite Hj. cbn. destruct w as [| |d t|d t|d t e|d t e|]; try done; try by eexists.
  - destruct (queue p); [by destruct Hq|by eexists].
  - destruct (queue p); by eexists.
  - destruct (held_no_result _ _ _ _ Hi Hj eq_refl) as (s & -> & Hs). cbn. rewrite Hs. by eexists.
Qed.

(** Workers that cannot move leave no accepted task without its result. *)
Lemma stuck_workers_delivered p i s : pool_inv p -> 0 < Workers p -> subs p !! i = Some s -> s_pc s = SAccepted ->
  (forall j b e, worker_step b e p j = None) -> zlength (res s) = 1.
Proof.
  intros Hi Hn Hs Hp Hstuck. pose proof Hi as [I1 _ _ _ _ I6 _ _]. specialize (I1 i). unfold out_of, balance in I1.
  rewrite Hs, Hp in I1. cbn in I1. pose proof (in_queue_nonneg i (queue p)). pose proof (in_workers_nonneg i (workers p)).
  assert (forall j w, workers p !! j = Some w -> is_exit w = false -> (w = WSelect -> queue p <> []) -> False) as Hmv.
  { intros j w Hj Hw Hq. destruct (worker_can_move _ _ _ Hi Hj Hw Hq) as (b & e & p' & Hm). by rewrite Hstuck in Hm. }
  destruct (Z.eq_dec (in_workers i (workers p)) 0) as [Hw|Hw].
  - destruct (Z.eq_dec (in_queue i (queue p)) 0) as [Hq|Hq]; [lia|]. exfalso.
    assert (i ∈ queue p) as Hin by (apply in_queue_pos; lia).
    destruct (forallb is_exit (workers p)) eqn:Hall.
    + destruct (workers p) as [|w ws] eqn:Ew; [unfold Workers in Hn; by rewrite Ew in Hn|]. cbn in Hall.
      apply andb_prop in Hall as [Hx _]. cbn in I6. rewrite Hx in I6. specialize (I6 eq_refl). rewrite Forall_forall in I6.
      destruct (I6 i Hin) as (s' & Hs' & Hp'). simplify_eq.
    + apply not_true_iff_false in Hall. apply Hall, forallb_forall. intros w Hw'.
      destruct (is_exit w) eqn:Hx; [done|exfalso]. apply list_elem_of_In, list_elem_of_lookup in Hw' as [j Hj].
      apply (Hmv j w Hj Hx). intros _ Hq'. rewrite Hq' in Hin. by apply not_elem_of_nil in Hin.
  - exfalso. destruct (in_workers_pos i (workers p)) as (j & w & Hj & Hh); [lia|].
    apply (Hmv j w Hj); [by destruct w|]. by intros ->.
Qed.

(** Moves of the workers use up a potential. *)
Definition rank (w : wpc) : Z :=
  let base (d : bool) := if d then 1 else 2 in
  match w with
  | WSelect => 2 | WDrain => 1 | WExit => 0
  | WGot d _ => base d + 4 | WRun d _ => base d + 3 | WFinish d _ _ => base d + 2 | WSend d _ _ => base d + 1
  end.

Definition potential (p : ThreadPool) : Z := 5 * zlength (queue p) + tally rank (workers p).

Lemma worker_step_potential b e p j p' : worker_step b e p j = Some p' -> potential p' + 1 <= potential p.
Proof.
  unfold worker_step, potential. intros H. destruct (workers p !! j) as [w|] eqn:Hj; [|done]. cbn in H.
  destruct w as [| |d t|d t|d t e'|d t e'|]; cbn in H.
  6: { destruct (subs p !! t) as [s|]; [|done]. cbn in H. case_match; simplify_eq/=.
       rewrite (tally_insert _ _ _ _ _ Hj). destruct d; cbn [rank again]; lia. }
  all: repeat case_match; simplify_eq/=; try match goal with E : queue _ = _ |- _ => rewrite E end; rewrite ?(tally_insert _ _ _ _ _ Hj); cbn [rank]; zlen; lia.
Qed.

Lemma rank_bounds w : 0 <= rank w <= 6.
Proof. destruct w as [| |[]|[]|[]|[]|]; cbn; lia. Qed.

Lemma potential_bound p : 0 <= potential p <= 5 * QueueDepth p + 6 * Workers p.
Proof.
  unfold potential, QueueDepth, Workers. pose proof (zlength_nonneg (queue p)).
  assert (0 <= tally rank (workers p) <= 6 * zlength (workers p)); [|lia].
  induction (workers p) as [|w ws IH]; [done|]. rewrite tally_cons. zlen. pose proof (rank_bounds w). lia.
Qed.

(** The worker [j] moves; the flags are [by_done] and the error of the function. *)
Definition work (m : nat * bool * Z) : action := AWorker m.1.1 m.1.2 m.2.

Lemma work_potential ms p p' : run p (map work ms) = Some p' -> zlength ms + potential p' <= potential p.
Proof.
  revert p. induction ms as [|m ms IH]; intros p H; cbn in H; [simplify_eq; zlen; lia|].
  destruct (worker_step m.1.2 m.2 p m.1.1) as [p1|] eqn:E; [|done]. cbn in H.
  apply worker_step_potential in E. apply IH in H. zlen. lia.
Qed.

(** C21: Exactly once.  In every interleaving of [Submit], [Close] and the workers: the queue
    holds at most [queueSize] tasks and between 0 and [workers] tasks run; every task is in one
    place, so its result channel carries at most one value, and a task whose [Submit] returned
    [ErrQueueFull] or [ErrPoolClosed] before sending is nowhere; and when the [Close] that closed
    the pool has returned, no worker is left and the result of every accepted task is there. *)
Theorem thread_pool_exactly_once n queueSize p : reachable n queueSize p ->
  QueueDepth p <= queueSize /\ 0 <= busy p <= n /\
  (forall i s, subs p !! i = Some s ->
     in_queue i (queue p) + in_workers i (workers p) + zlength (res s) = sent (s_pc s)) /\
  (forall k, closes p !! k = Some (CReturned true) ->
     forallb is_exit (workers p) = true /\
     forall i s, subs p !! i = Some s -> s_pc s = SAccepted -> zlength (res s) = 1).
Proof.
  intros (Hi & Hw & <- & <-)%pool_reachable_inv. pose proof Hi as [I1 I2 I3 _ _ _ _ I8]. split; [done|]. split; [|split].
  - rewrite I2. unfold Workers. clear. induction (workers p) as [|w ws IH]; [done|]. rewrite tally_cons. zlen.
    assert (0 <= running w <= 1) by (destruct w; cbn; lia). lia.
  - intros i s Hs. specialize (I1 i). unfold out_of, balance in I1. rewrite Hs in I1. lia.
  - intros k Hk. pose proof (Forall_lookup_1 _ _ _ _ I8 Hk) as Hall. cbn in Hall. split; [done|]. intros i s Hs Hp.
    apply (stuck_workers_delivered p i); try done. intros j b e. unfold worker_step.
    destruct (workers p !! j) as [w|] eqn:Hj; [|done]. destruct w; try done; by destruct (exit_keeps _ _ _ Hj eq_refl Hall).
Qed.

(** C22: Every accepted task completes.  From any reachable state the workers can make at most
    [5 * QueueDepth + 6 * Workers] moves without new submissions, however they are scheduled,
    and when none of them can move every task whose [Submit] returned a channel has delivered
    exactly one value on it, even if the pool is closed concurrently. *)
Theorem thread_pool_delivers n queueSize p ms p' : reachable n queueSize p -> run p (map work ms) = Some p' ->
  zlength ms <= 5 * QueueDepth p + 6 * n /\
  ((forall j b e, worker_step b e p' j = None) ->
   forall i s, subs p' !! i = Some s -> s_pc s = SAccepted -> zlength (res s) = 1).
Proof.
  intros (Hi & Hw & <- & _)%pool_reachable_inv Hr. split.
  - apply work_potential in Hr. pose proof (potential_bound p). pose proof (potential_bound p'). lia.
  - intros Hstuck i s Hs Hp. apply (stuck_workers_delivered p' i); try done; [by eapply pool_run_inv|].
    apply run_size in Hr as [Hl _]. unfold Workers, zlength in *. by rewrite Hl.
Qed.

(** ** Runs *)

Definition pool_run (n c : Z) (sched : list action) : ThreadPool :=
  match NewThreadPool n c with
  | Ok p => default p (run p sched)
  | Panic _ => mkPool 0 [] false false 0 [] [] []
  end.

(** Two submissions, the first accepted and run by worker 0, the second still queued when the
    pool is closed; the worker drains it. *)
Definition submits (i : nat) (c : choice) : list action := [ASubmit; ASubmitStep i c; ASubmitStep i c; ASubmitStep i c].

Definition executes (j : nat) (e : Z) : list action := replicate 5 (AWorker j false e).

(** One worker and a buffer of two: two tasks are accepted, the pool is closed while the worker
    runs the first of them, and the worker drains the other. *)
Definition closing_schedule : list action :=
  submits 0 ToBuffer ++ submits 1 ToBuffer ++ [AClose; AWorker 0 false 0; ACloseStep 0; ACloseStep 0] ++
  replicate 4 (AWorker 0 false 7) ++ [AWorker 0 true 0] ++ executes 0 9 ++ [AWorker 0 false 0; ACloseStep 0].

Lemma thread_pool_exactly_once_witness : let p := pool_run 1 2 closing_schedule in
  forallb is_exit (workers p) = true /\ map res (subs p) = [[7]; [9]] /\
  (forall i s, subs p !! i = Some s -> s_pc s = SAccepted -> zlength (res s) = 1).
Proof.
  intros p. assert (reachable 1 2 p) as Hr by (eexists _, closing_schedule; split; vm_compute; reflexivity).
  destruct (thread_pool_exactly_once _ _ _ Hr) as (_ & _ & _ & H). destruct (H 0%nat) as [H1 H2]; [reflexivity|].
  split_and!; [exact H1|reflexivity|exact H2].
Defined.

(** Worker 0 works off both tasks of an open pool. *)
Lemma thread_pool_delivers_witness :
  let p := pool_run 1 2 (submits 0 ToBuffer ++ submits 1 ToBuffer) in
  let ms := replicate 5 (0%nat, false, 7) ++ replicate 5 (0%nat, false, 9) in
  exists p', run p (map work ms) = Some p' /\ zlength ms <= 5 * QueueDepth p + 6 * 1.
Proof.
  intros p ms. eexists. split; [vm_compute; reflexivity|].
  eapply (thread_pool_delivers 1 2 p ms).
  - exists (mkPool 2 [] false false 0 [WSelect] [] []), (submits 0 ToBuffer ++ submits 1 ToBuffer). by vm_compute.
  - vm_compute. reflexivity.
Defined.

Definition rejected_schedule : list action :=
  [ASubmit; AClose; ASubmitStep 0 ToBuffer; ASubmitStep 0 ToBuffer; ACloseStep 0; ASubmitStep 0 ToBuffer] ++ executes 0 7.

Definition two_closes_schedule : list action :=
  submits 0 ToBuffer ++ [AWorker 0 false 0; AWorker 0 false 0; AClose; AClose; ACloseStep 0; ACloseStep 1].

(** A [Submit] that loses the race with [Close] after sending returns [ErrPoolClosed], and the
    task runs all the same: a worker that has not left takes it from the queue. *)
Theorem thread_pool_rejected_task_runs : exists p, reachable 1 1 p /\ subs p !! 0%nat = Some (mkSub (SClosed true) [7]).
Proof.
  exists (pool_run 1 1 rejected_schedule). split; [eexists _, rejected_schedule; split; [reflexivity|]|]; vm_compute; reflexivity.
Qed.

(** A second [Close] returns at once, while a task still runs. *)
Theorem thread_pool_second_close_returns_early : exists p, reachable 1 1 p /\
  closes p !! 1%nat = Some (CReturned false) /\ busy p = 1.
Proof.
  exists (pool_run 1 1 two_closes_schedule). split; [|split; reflexivity].
  eexists _, two_closes_schedule. split; [reflexivity|]. vm_compute. reflexivity.
Qed.
