(* ===== verification/Backoff.v ===== *)
(** * Backoff strategies ([retry/backoff]).

    Random draws are an argument: [int63n n] stands for [rand.Int63n], which
    returns a value in [[0, n)] for a positive [n]. *)

From S2P Require Import Prelude.
Open Scope Z_scope.

(** [d << uint(shift)] on int64: a count of 64 or more (a negative [shift] is
    a huge unsigned one) shifts everything out. *)
Definition shl64 (d shift : Z) : Z :=
  if (shift <? 0) || (64 <=? shift) then 0 else wrap64 (d * 2 ^ shift).

Definition maxShift : Z := 62.

Definition clamp_shift (attempt : Z) : Z := if maxShift <? attempt then maxShift else attempt.

Definition constant_Next (d : duration) (attempt : Z) : duration := d.

Definition exponential_Next (base max : duration) (attempt : Z) : duration :=
  if base <=? 0 then 0
  else
    let d := shl64 base (clamp_shift attempt) in
    if d <=? 0 then max else if max <? d then max else d.

Definition exponentialCap (base maxCap : duration) (attempt : Z) : duration :=
  if base <=? 0 then 0
  else
    let d := shl64 base (clamp_shift attempt) in
    if (d <=? 0) || (maxCap <? d) then maxCap else d.

Section jitter.
Context (int63n : Z -> Z).

Definition fullJitter_Next (base cap : duration) (attempt : Z) : duration :=
  let exp := exponentialCap base cap attempt in
  if exp <=? 0 then 0 else int63n exp.

Definition equalJitter_Next (base maxCap : duration) (attempt : Z) : duration :=
  let cap := exponentialCap base maxCap attempt in
  if cap <=? 0 then 0
  else
    let half := Z.quot cap 2 in
    if half <=? 0 then cap else half +w int63n half.

(** The only strategy with state: the previous delay. *)
Record decorrelatedJitter := mkDecorrelated { dj_base : duration; dj_cap : duration; dj_prev : duration }.

Definition Decorrelated (base cap : duration) : decorrelatedJitter := mkDecorrelated base cap base.

Definition decorrelated_Next (d : decorrelatedJitter) (attempt : Z) : duration * decorrelatedJitter :=
  let upper := dj_prev d *w 3 in
  let upper := if (dj_cap d <? upper) || (upper <=? 0) then dj_cap d else upper in
  let lower := dj_base d in
  let sleep :=
    if upper <=? lower then (if dj_cap d <? lower then dj_cap d else lower)
    else
      let sleep := lower +w int63n (upper -w lower) in
      if dj_cap d <? sleep then dj_cap d else sleep in
  (sleep, mkDecorrelated (dj_base d) (dj_cap d) sleep).
End jitter.

(** ** Exponential growth *)

Lemma clamp_shift_range a : 0 <= a -> 0 <= clamp_shift a <= 62 /\ clamp_shift a <= a.
Proof. intros. unfold clamp_shift, maxShift. case_cmp; lia. Qed.

(** A wrapped positive shift is at least the power of two that was shifted in. *)
Lemma shl64_pos base z m s : base = 2 ^ z * m -> 0 <= z -> 0 <= s <= 62 ->
  0 < shl64 base s -> 2 ^ (z + s) <= shl64 base s \/ base * 2 ^ s < two63.
Proof.
  intros -> Hz Hs Hpos. unfold shl64 in *.
  rewrite (proj2 (Z.ltb_ge s 0)), (proj2 (Z.leb_gt 64 s)) in * by lia. cbn [orb] in *.
  destruct (Z.lt_ge_cases (2 ^ z * m * 2 ^ s) two63) as [Hlt|Hge]; [by right|]. left.
  assert (2 ^ z * m * 2 ^ s = m * 2 ^ (z + s)) as E by (rewrite Z.pow_add_r by lia; lia).
  rewrite E in *. unfold wrap64 in *.
  set (v := m * 2 ^ (z + s)) in *.
  destruct (Z.le_gt_cases (z + s) 63) as [Hzs|Hzs].
  - (* 2^64 and the half-range are multiples of 2^(z+s) *)
    assert (exists q, (v + 9223372036854775808) mod 18446744073709551616 - 9223372036854775808 = q * 2 ^ (z + s))
      as [q Hq].
    { rewrite Z.mod_eq by lia.
      exists (m - 2 * 2 ^ (63 - (z + s)) * ((v + 9223372036854775808) / 18446744073709551616)).
      assert (2 ^ (63 - (z + s)) * 2 ^ (z + s) = 9223372036854775808) as E2.
      { rewrite <- Z.pow_add_r by lia. replace (63 - (z + s) + (z + s)) with 63 by lia. done. }
      set (k := (v + 9223372036854775808) / 18446744073709551616). clearbody k.
      transitivity (v - 2 * (2 ^ (63 - (z + s)) * 2 ^ (z + s)) * k); [rewrite E2; lia|unfold v; ring]. }
    rewrite Hq in Hpos |- *. assert (0 < 2 ^ (z + s)) by (apply Z.pow_pos_nonneg; lia).
    assert (0 < q) by nia. nia.
  - (* everything is shifted out *)
    exfalso.
    assert ((v + 9223372036854775808) mod 18446744073709551616 = 9223372036854775808) as E2.
    { replace (v + 9223372036854775808) with (9223372036854775808 + (m * 2 ^ (z + s - 64)) * 18446744073709551616).
      2:{ unfold v. change 18446744073709551616 with (2 ^ 64). rewrite <- Z.mul_assoc, <- Z.pow_add_r by lia.
          replace (z + s - 64 + 64) with (z + s) by lia. lia. }
      rewrite Z.mod_add by lia. done. }
    lia.
Qed.

(** The delay the documentation promises. *)
Definition exponential_spec (base max : duration) (attempt : Z) : duration :=
  Z.min max (base * 2 ^ attempt).

(** Exponential backoff is exact: with [base = 2^z * m] and a cap with
    [m * max <= 2^63] (a one second base and a one hour cap, say) the delay
    before every retry, however large the attempt number, is
    [min(max, base * 2^attempt)]: the overflow guard never lets a wrapped-around
    value through. *)
Theorem exponential_exact base max z m attempt :
  base = 2 ^ z * m -> 0 <= z -> 0 < m -> base <= max_int64 ->
  0 < max <= 4611686018427387904 -> m * max <= two63 -> 0 <= attempt ->
  exponential_Next base max attempt = exponential_spec base max attempt /\
  exponentialCap base max attempt = exponential_spec base max attempt.
Proof.
  intros Hb Hz Hm Hbm Hmax Hmm Ha.
  assert (0 < base) as Hpos by (rewrite Hb; apply Z.mul_pos_pos; [apply Z.pow_pos_nonneg; lia|done]).
  unfold exponential_Next, exponentialCap, exponential_spec. rewrite (proj2 (Z.leb_gt base 0)) by done.
  cbv zeta. set (s := clamp_shift attempt).
  destruct (clamp_shift_range attempt Ha) as [Hs Hsa]. fold s in Hs, Hsa.
  assert (0 < 2 ^ s) by (apply Z.pow_pos_nonneg; lia).
  assert (2 ^ s <= 2 ^ attempt) by (apply Z.pow_le_mono_r; lia).
  enough ((shl64 base s <= 0 /\ max <= base * 2 ^ attempt) \/
          (0 < shl64 base s /\ Z.min max (shl64 base s) = Z.min max (base * 2 ^ attempt))) as Hgoal.
  { destruct Hgoal as [[H1 H2]|[H1 H2]]; destruct (Z.leb_spec (shl64 base s) 0); try lia;
      cbn [orb]; repeat case_cmp; split; lia. }
  destruct (Z.lt_ge_cases (base * 2 ^ s) two63) as [Hlt|Hge].
  - assert (shl64 base s = base * 2 ^ s) as ->.
    { unfold shl64. rewrite (proj2 (Z.ltb_ge s 0)), (proj2 (Z.leb_gt 64 s)) by lia. cbn [orb].
      apply wrap64_small. unfold two63 in Hlt. go_unfold. nia. }
    right. split; [nia|]. destruct (Z.le_gt_cases attempt 62).
    + assert (s = attempt) as -> by (unfold s, clamp_shift, maxShift; case_cmp; lia). done.
    + assert (s = 62) as Es by (unfold s, clamp_shift, maxShift; case_cmp; lia).
      rewrite Es in *. change (2 ^ 62) with 4611686018427387904 in *. nia.
  - assert (max <= base * 2 ^ attempt) as Hcap by (unfold two63 in *; nia).
    destruct (Z.le_gt_cases (shl64 base s) 0) as [Hneg|Hp]; [by left|right]. split; [done|].
    destruct (shl64_pos base z m s Hb Hz Hs Hp) as [Hge2|]; [|lia].
    rewrite Z.pow_add_r in Hge2 by lia. assert (0 < 2 ^ z) by (apply Z.pow_pos_nonneg; lia).
    assert (max <= 2 ^ z * 2 ^ s); [|lia].
    rewrite Hb in Hge. unfold two63 in *. nia.
Qed.

Lemma exponential_exact_witness :
  exponential_Next Second Hour 11 = 2048 * Second /\
  (exponential_Next Second Hour 1000 = exponential_spec Second Hour 1000 /\
   exponentialCap Second Hour 1000 = exponential_spec Second Hour 1000).
Proof.
  split; [reflexivity|].
  apply (exponential_exact Second Hour 9 1953125 1000); vm_compute; reflexivity || discriminate || (split; [reflexivity|discriminate]).
Defined.

(** The overflow guard is incomplete: it only catches shifts that wrap to a
    negative value or zero.  With a base of [2^30 + 1] nanoseconds and a cap of
    one hour the delay before attempt 34 is the wrapped-around [2^34]
    nanoseconds (17 seconds) instead of the cap that attempts 12 to 33 give. *)
Theorem exponential_wraps_below_cap :
  let base := 1073741825 in
  exponential_Next base Hour 33 = Hour /\ exponential_Next base Hour 34 = 17179869184 /\
  exponential_spec base Hour 34 = Hour.
Proof. vm_compute. by split_and!. Qed.

(** ** Jitter *)

Section bounds.
Context (int63n : Z -> Z).
(** [rand.Int63n]: a value below its positive argument. *)
Hypothesis int63n_range : forall n, 0 < n -> 0 <= int63n n < n.

Lemma exponentialCap_le base cap attempt : 0 <= cap -> 0 <= exponentialCap base cap attempt <= cap.
Proof.
  intros Hc. unfold exponentialCap. destruct (Z.leb_spec base 0); [lia|]. cbv zeta.
  destruct (Z.leb_spec (shl64 base (clamp_shift attempt)) 0); cbn [orb]; [lia|]. case_cmp; lia.
Qed.

(** Jittered delays stay in their documented range, whatever the source of
    randomness returns: full jitter in [[0, min(cap, base*2^attempt))], equal
    jitter in the upper half of it. *)
Theorem jitter_bounds base cap attempt : 0 <= cap <= max_int64 ->
  let e := exponentialCap base cap attempt in
  (0 <= fullJitter_Next int63n base cap attempt <= Z.max 0 (e - 1)) /\
  (Z.quot e 2 <= equalJitter_Next int63n base cap attempt <= e) /\ e <= cap.
Proof.
  intros Hc. cbv zeta. destruct (exponentialCap_le base cap attempt ltac:(lia)) as [He1 He2].
  unfold fullJitter_Next, equalJitter_Next. set (e := exponentialCap base cap attempt) in *.
  rewrite Z.quot_div_nonneg by lia. assert (0 <= e / 2 /\ e / 2 * 2 <= e) as [Hh0 Hh].
  { split; [apply Z.div_pos; lia|]. pose proof (Z.mul_div_le e 2). lia. }
  split_and!; try lia.
  - case_cmp; [lia|]. pose proof (int63n_range e). lia.
  - case_cmp; [pose proof (int63n_range e); lia|]. pose proof (int63n_range e). lia.
  - destruct (Z.leb_spec e 0); [lia|]. destruct (Z.leb_spec (e / 2) 0); [lia|].
    pose proof (int63n_range (e / 2)). rewrite wrap64_small by go_lia. lia.
  - destruct (Z.leb_spec e 0); [lia|]. destruct (Z.leb_spec (e / 2) 0); [lia|].
    pose proof (int63n_range (e / 2)). rewrite wrap64_small by go_lia. lia.
Qed.

(** Successive delays of one decorrelated strategy. *)
Fixpoint decorrelated_run (d : decorrelatedJitter) (k : nat) : list duration :=
  match k with
  | O => []
  | S k => let '(s, d') := decorrelated_Next int63n d 0 in s :: decorrelated_run d' k
  end.

(** Every decorrelated delay lies between the base and the cap, for any
    number of calls and any draws, although [prev * 3] may wrap around. *)
Theorem decorrelated_bounds base cap k :
  0 < base <= cap -> cap <= max_int64 ->
  Forall (fun s => base <= s <= cap) (decorrelated_run (Decorrelated base cap) k).
Proof.
  intros Hb Hc.
  assert (forall d, dj_base d = base -> dj_cap d = cap ->
    Forall (fun s => base <= s <= cap) (decorrelated_run d k)) as Hgen; [|by apply Hgen].
  induction k as [|k IH]; intros d Eb Ec; simpl; [constructor|]. unfold decorrelated_Next.
  rewrite Eb, Ec. set (upper := if (cap <? _) || _ then cap else _).
  assert (0 < upper <= cap) as Hu.
  { unfold upper. destruct (Z.ltb_spec cap (dj_prev d *w 3)); cbn [orb]; [lia|]. case_cmp; lia. }
  constructor; [|by apply IH].
  destruct (Z.leb_spec upper base); [case_cmp; lia|].
  rewrite (wrap64_small (upper - base)) by go_lia. pose proof (int63n_range (upper - base)).
  rewrite wrap64_small by go_lia. case_cmp; lia.
Qed.
End bounds.

(** A source that always returns the largest value. *)
Definition top_draw (n : Z) : Z := n - 1.

Lemma jitter_bounds_witness :
  let e := exponentialCap (100 * Millisecond) (2 * Second) 3 in
  (0 <= fullJitter_Next top_draw (100 * Millisecond) (2 * Second) 3 <= Z.max 0 (e - 1)) /\
  (Z.quot e 2 <= equalJitter_Next top_draw (100 * Millisecond) (2 * Second) 3 <= e) /\ e <= 2 * Second.
Proof.
  apply (jitter_bounds top_draw ltac:(unfold top_draw; lia) (100 * Millisecond) (2 * Second) 3).
  vm_compute. split; discriminate.
Defined.

Lemma decorrelated_bounds_witness :
  decorrelated_run top_draw (Decorrelated 10 100) 4 = [29; 86; 99; 99] /\
  Forall (fun s => 10 <= s <= 100) (decorrelated_run top_draw (Decorrelated 10 100) 4).
Proof.
  split; [reflexivity|].
  apply (decorrelated_bounds top_draw ltac:(unfold top_draw; lia) 10 100 4); go_lia.
Defined.
