(* ===== verification/Retry.v ===== *)
(** * Retries and the retry budget ([retry/retry.go], [retry/budget.go]).

    One call of [Do] is run against an environment that fixes what its attempts
    return, when the context ends and what the clock reads. *)

From Stdlib Require Import Floats.
From S2P Require Import Prelude Float64.
Open Scope Z_scope.

(** ** The retry budget *)

Record Budget := mkBudget {
  ratio : f64;
  minPerSecond : f64;
  burst : f64;
  tokens : f64;
  reqRate : f64;
  lastReq : time;
  lastFill : time;
  haveReq : bool;
}.

Record BudgetConfig := mkBudgetConfig { bc_Ratio : f64; bc_MinPerSecond : f64; bc_Burst : f64 }.

Definition maxF (a b : f64) : f64 := if f64_gtb a b then a else b.

Definition NewBudget (c : BudgetConfig) (now : time) : Budget :=
  let burst :=
    if PrimFloat.leb (bc_Burst c) 0 then
      if PrimFloat.ltb (bc_MinPerSecond c) 1 then 1%float else bc_MinPerSecond c
    else bc_Burst c in
  mkBudget (maxF (bc_Ratio c) 0) (maxF (bc_MinPerSecond c) 0) burst burst 0 now now false.

(** [for x > 0.5 { x /= 2; k++ }]; [expNeg] enters it with [x <= 40], so seven
    turns suffice. *)
Fixpoint halve_loop (fuel : nat) (x : f64) (k : nat) : f64 * nat :=
  match fuel with
  | O => (x, k)
  | S fuel => if f64_gtb x 0.5 then halve_loop fuel (x / 2)%float (S k) else (x, k)
  end.

(** [for i := 1; i <= 12; i++ { term *= -x / float64(i); sum += term }]. *)
Fixpoint taylor_loop (turns : nat) (i : Z) (x term sum : f64) : f64 :=
  match turns with
  | O => sum
  | S turns =>
      let term := (term * (- x / f64_of_Z i))%float in
      taylor_loop turns (i + 1) x term (sum + term)%float
  end.

Fixpoint square_loop (k : nat) (sum : f64) : f64 :=
  match k with O => sum | S k => square_loop k (sum * sum)%float end.

Definition expNeg (x : f64) : f64 :=
  if PrimFloat.leb x 0 then 1%float
  else if f64_gtb x 40 then 0%float
  else
    let '(x, k) := halve_loop 8 x 0 in
    let sum := square_loop k (taylor_loop 12 1 x 1 1) in
    if PrimFloat.ltb sum 0 then 0%float else if f64_gtb sum 1 then 1%float else sum.

Definition refillRateLocked (b : Budget) : f64 :=
  let rate := (ratio b * reqRate b)%float in
  if PrimFloat.ltb rate (minPerSecond b) then minPerSecond b else rate.

Definition with_tokens (t : f64) (b : Budget) : Budget :=
  mkBudget (ratio b) (minPerSecond b) (burst b) t (reqRate b) (lastReq b) (lastFill b) (haveReq b).

Definition cap_burst (b : Budget) (t : f64) : f64 := if f64_gtb t (burst b) then burst b else t.

Definition refillLocked (b : Budget) (now : time) : Budget :=
  let elapsed := Seconds (time_sub now (lastFill b)) in
  if PrimFloat.leb elapsed 0 then b
  else
    mkBudget (ratio b) (minPerSecond b) (burst b)
      (cap_burst b (tokens b + elapsed * refillRateLocked b)%float)
      (reqRate b) (lastReq b) now (haveReq b).

Definition RecordAttempt (b : Budget) (now : time) : Budget :=
  let b := refillLocked b now in
  let set rate have :=
    mkBudget (ratio b) (minPerSecond b) (burst b) (tokens b) rate now (lastFill b) have in
  if negb (haveReq b) then set (minPerSecond b) true
  else
    let dt := Seconds (time_sub now (lastReq b)) in
    if PrimFloat.leb dt 0 then set (reqRate b) true
    else
      let inst := (1 / dt)%float in
      let alpha := (1 - expNeg (dt / 1))%float in
      let rate := (reqRate b + alpha * (inst - reqRate b))%float in
      set (if PrimFloat.ltb rate 0 then 0%float else rate) true.

Definition CanRetry (b : Budget) (now : time) : bool * Budget :=
  let b := refillLocked b now in
  if f64_geb (tokens b) 1 then (true, with_tokens (tokens b - 1)%float b) else (false, b).

Definition Deposit (b : Budget) (n : f64) (now : time) : Budget :=
  if PrimFloat.leb n 0 then b
  else
    let b := refillLocked b now in
    with_tokens (cap_burst b (tokens b + n)%float) b.

Definition Tokens (b : Budget) (now : time) : f64 * Budget :=
  let b := refillLocked b now in (tokens b, b).

(** ** The policy *)

Section retry.
Context {err : Type}.

Record Policy := mkPolicy {
  MaxAttempts : Z;
  Backoff : option (Z -> duration);   (* what [Next(attempt)] returns in this call *)
  RetryIf : option (err -> bool);
  OnRetry : bool;
  MaxDelay : duration;
  HasBudget : bool;
}.

Definition maxAttempts (p : Policy) : Z := if MaxAttempts p <=? 0 then 1 else MaxAttempts p.

Definition shouldRetry (p : Policy) (e : option err) : bool :=
  match e with
  | None => false
  | Some e => match RetryIf p with Some f => f e | None => true end
  end.

Definition delay (p : Policy) (attempt : Z) : duration :=
  match Backoff p with
  | None => 0
  | Some next =>
      let d := next attempt in
      let d := if (0 <? MaxDelay p) && (MaxDelay p <? d) then MaxDelay p else d in
      if d <? 0 then 0 else d
  end.

(** What the attempts, the context and the budget's clock do during one call. *)
Record env := mkEnv {
  e_fn : Z -> option err;             (* result of attempt [i] *)
  e_ctx : Z -> option err;            (* [ctx.Err()] before attempt [i] *)
  e_sleep : Z -> option err;          (* [sleepWithContext] after attempt [i] *)
  e_record : time;
  e_can : Z -> time;
}.

Inductive do_event := Called (attempt : Z) | Retrying (attempt : Z) (wait : duration) | Slept (d : duration).

(** [DoMax e] is [ErrMaxAttemptsExceeded] wrapping [e]. *)
Inductive do_result := DoNil | DoErr (e : option err) | DoMax (e : option err).

(** The loop, [left] attempts before the bound. *)
Fixpoint do_loop (p : Policy) (en : env) (b : Budget) (left : nat) (attempt : Z) (lastErr : option err)
  : do_result * Budget * list do_event :=
  match left with
  | O => (DoMax lastErr, b, [])
  | S left' =>
      match e_ctx en attempt with
      | Some e => (DoErr (Some e), b, [])
      | None =>
          let '(ok, b) := if (0 <? attempt) && HasBudget p then CanRetry b (e_can en attempt) else (true, b) in
          if negb ok then (DoErr lastErr, b, [])
          else
            let lastErr := e_fn en attempt in
            match lastErr with
            | None => (DoNil, b, [Called attempt])
            | Some _ =>
                if attempt =? maxAttempts p - 1 then (DoMax lastErr, b, [Called attempt])
                else if negb (shouldRetry p lastErr) then (DoErr lastErr, b, [Called attempt])
                else
                  let wait := delay p attempt in
                  let notify := if OnRetry p then [Retrying attempt wait] else [] in
                  if 0 <? wait then
                    match e_sleep en attempt with
                    | Some e => (DoErr (Some e), b, Called attempt :: notify ++ [Slept wait])
                    | None =>
                        let '(r, b, evs) := do_loop p en b left' (attempt + 1) lastErr in
                        (r, b, Called attempt :: notify ++ Slept wait :: evs)
                    end
                  else
                    let '(r, b, evs) := do_loop p en b left' (attempt + 1) lastErr in
                    (r, b, Called attempt :: notify ++ evs)
            end
      end
  end.

Definition Do (p : Policy) (en : env) (b : Budget) : do_result * Budget * list do_event :=
  let b := if HasBudget p then RecordAttempt b (e_record en) else b in
  do_loop p en b (Z.to_nat (maxAttempts p)) 0 None.

(** ** Correctness of [Do] *)

Definition calls (evs : list do_event) : list Z :=
  omap (fun e => match e with Called i => Some i | _ => None end) evs.

Definition sleeps (evs : list do_event) : list duration :=
  omap (fun e => match e with Slept d => Some d | _ => None end) evs.

Definition zseq (a : Z) (k : nat) : list Z := map (fun i => a + Z.of_nat i) (seq 0 k).

Lemma zseq_cons a k : zseq a (S k) = a :: zseq (a + 1) k.
Proof.
  unfold zseq. cbn [seq map]. f_equal; [lia|]. rewrite <- seq_shift, map_map. apply map_ext. intros i. lia.
Qed.

Lemma calls_notify (notify : list do_event) evs i w : notify = [Retrying i w] \/ notify = [] ->
  calls (notify ++ evs) = calls evs /\ sleeps (notify ++ evs) = sleeps evs.
Proof. by intros [-> | ->]. Qed.

(** Attempts are made in order and at most [left] times. *)
Lemma do_loop_calls p en b left a e :
  let '(r, b', evs) := do_loop p en b left a e in
  exists k, (k <= left)%nat /\ calls evs = zseq a k.
Proof.
  revert b a e. induction left as [|left IH]; intros b a e; cbn [do_loop]; [by exists 0%nat|].
  destruct (e_ctx en a); [exists 0%nat; split; [lia|done]|].
  destruct (if _ && _ then _ else _) as [ok b1]. destruct (negb ok); [exists 0%nat; split; [lia|done]|].
  assert (exists k, (k <= S left)%nat /\ calls [Called a] = zseq a k) as H1.
  { exists 1%nat. split; [lia|]. unfold zseq; simpl. f_equal. lia. }
  destruct (e_fn en a) as [e'|]; [|done]. destruct (a =? _); [done|]. destruct (negb _); [done|].
  cbv zeta. set (notify := if OnRetry p then _ else _).
  assert (notify = [Retrying a (delay p a)] \/ notify = []) as Hn.
  { unfold notify. destruct (OnRetry p); auto. }
  specialize (IH b1 (a + 1) (Some e')). destruct (do_loop p en b1 left (a + 1) (Some e')) as [[r b'] evs].
  destruct IH as (k & Hk & Ek).
  assert (forall pre, calls pre = [] -> exists k, (k <= S left)%nat /\ calls (Called a :: notify ++ pre ++ evs) = zseq a k) as Hrec.
  { intros pre Hpre. exists (S k). split; [lia|]. rewrite zseq_cons, <- Ek. cbn.
    fold (calls (notify ++ pre ++ evs)). f_equal.
    rewrite (proj1 (calls_notify notify (pre ++ evs) _ _ Hn)). unfold calls in *. by rewrite omap_app, Hpre. }
  destruct (0 <? delay p a); [|by apply (Hrec [])].
  destruct (e_sleep en a); [|by apply (Hrec [Slept (delay p a)])].
  exists 1%nat. split; [lia|]. cbn. fold (calls (notify ++ [Slept (delay p a)])).
  rewrite (proj1 (calls_notify notify _ _ _ Hn)). cbn. unfold zseq; simpl. f_equal. lia.
Qed.

(** The waits between attempts [a] and [a + k]. *)
Definition waits (p : Policy) (a : Z) (k : nat) : list duration :=
  filter (fun d => 0 < d) (map (delay p) (zseq a k)).

Lemma waits_cons p a k :
  waits p a (S k) = (if decide (0 < delay p a) then [delay p a] else []) ++ waits p (a + 1) k.
Proof. unfold waits. rewrite zseq_cons. cbn [map]. rewrite filter_cons. by case_decide. Qed.

Lemma waits_1 p a k : waits p a 1 ++ waits p (a + 1) k = waits p a (S k).
Proof. rewrite !waits_cons. change (waits p (a + 1) 0) with (@nil Z). by rewrite app_nil_r. Qed.

(** A live context and no budget. *)
Definition undisturbed (p : Policy) (en : env) : Prop :=
  HasBudget p = false /\ (forall i, e_ctx en i = None) /\ (forall i, e_sleep en i = None).

Definition retryable (p : Policy) (en : env) (i : Z) : Prop :=
  exists e, e_fn en i = Some e /\ shouldRetry p (Some e) = true.

(** One failed, retryable attempt that is not the last. *)
Lemma do_loop_retry p en b left a e : undisturbed p en -> retryable p en a -> a < maxAttempts p - 1 ->
  exists pre, calls pre = [a] /\ sleeps pre = waits p a 1 /\
  do_loop p en b (S left) a e =
    let '(r, b', evs) := do_loop p en b left (a + 1) (e_fn en a) in (r, b', pre ++ evs).
Proof.
  intros (Hb & Hc & Hs) (er & Hf & Hr) Ha. cbn [do_loop].
  rewrite Hc, Hb, andb_false_r, Hf, Hs, Hr. cbn [negb]. rewrite (proj2 (Z.eqb_neq _ _)) by lia.
  exists (Called a :: (if OnRetry p then [Retrying a (delay p a)] else []) ++
          (if 0 <? delay p a then [Slept (delay p a)] else [])).
  rewrite waits_cons. change (waits p (a + 1) 0) with (@nil Z). rewrite app_nil_r.
  destruct (OnRetry p), (Z.ltb_spec 0 (delay p a)); rewrite ?decide_True, ?decide_False by lia;
    (split; [done|]; split; [done|]); by destruct (do_loop p en b left (a + 1) (Some er)) as [[? ?] ?].
Qed.

Lemma do_loop_success p en b k left a e : undisturbed p en -> (k < left)%nat ->
  a + Z.of_nat left = maxAttempts p ->
  (forall i, a <= i < a + Z.of_nat k -> retryable p en i) -> e_fn en (a + Z.of_nat k) = None ->
  exists evs, do_loop p en b left a e = (DoNil, b, evs) /\
    calls evs = zseq a (S k) /\ sleeps evs = waits p a k.
Proof.
  intros Hu. revert left a e. induction k as [|k IH]; intros left a e Hk Hmax Hr Hok; destruct left as [|left]; try lia.
  - exists [Called a]. cbn [do_loop]. destruct Hu as (Hb & Hc & _). rewrite Hc, Hb, andb_false_r.
    cbn [Z.of_nat] in Hok. rewrite Z.add_0_r in Hok. rewrite Hok. cbn [negb]. split; [done|].
    split; [|done]. unfold zseq; simpl. f_equal. lia.
  - destruct (do_loop_retry p en b left a e Hu) as (pre & Hc & Hs & ->); [apply Hr; lia|lia|].
    destruct (IH left (a + 1) (e_fn en a)) as (evs & -> & Hc' & Hs'); [lia|lia| | |].
    { intros i Hi. apply Hr. lia. }
    { rewrite <- Hok. f_equal. lia. }
    exists (pre ++ evs). unfold calls, sleeps in *. rewrite !omap_app, Hc, Hc', Hs, Hs'.
    split_and!; [done| |].
    + by rewrite (zseq_cons a (S k)).
    + apply waits_1.
Qed.

Lemma do_loop_exhausted p en b left a e : undisturbed p en -> (0 < left)%nat ->
  a + Z.of_nat left = maxAttempts p ->
  (forall i, a <= i < maxAttempts p -> retryable p en i) ->
  exists evs, do_loop p en b left a e = (DoMax (e_fn en (maxAttempts p - 1)), b, evs) /\
    calls evs = zseq a left /\ sleeps evs = waits p a (left - 1).
Proof.
  intros Hu. revert a e. induction left as [|left IH]; intros a e Hl Hmax Hr; [lia|].
  destruct (decide (left = 0%nat)) as [->|Hne].
  - exists [Called a]. destruct (Hr a ltac:(lia)) as (er & Hf & _). cbn [do_loop].
    destruct Hu as (Hb & Hc & _). rewrite Hc, Hb, andb_false_r, Hf. cbn [negb].
    rewrite (proj2 (Z.eqb_eq _ _)) by lia. replace (maxAttempts p - 1) with a by lia. rewrite Hf.
    split; [done|]. split; [|done]. unfold zseq; simpl. f_equal. lia.
  - destruct (do_loop_retry p en b left a e Hu) as (pre & Hc & Hs & ->); [apply Hr; lia|lia|].
    destruct (IH (a + 1) (e_fn en a)) as (evs & -> & Hc' & Hs'); [lia|lia| |].
    { intros i Hi. apply Hr. lia. }
    exists (pre ++ evs). unfold calls, sleeps in *. rewrite !omap_app, Hc, Hc', Hs, Hs'.
    split_and!; [done| |].
    + by rewrite (zseq_cons a left).
    + replace (S left - 1)%nat with (S (left - 1)) by lia. apply waits_1.
Qed.

Lemma delay_bounds p i : 0 < MaxDelay p -> 0 <= delay p i <= MaxDelay p.
Proof.
  intros Hm. unfold delay. destruct (Backoff p); [|lia]. rewrite (proj2 (Z.ltb_lt 0 (MaxDelay p))) by done.
  cbn [andb]. repeat case_cmp; lia.
Qed.

Lemma maxAttempts_pos p : 0 < maxAttempts p.
Proof. unfold maxAttempts. case_cmp; lia. Qed.

(** C9: [Do] retries until the first success and no further: with a live
    context and no budget, if attempt [k] is the first to succeed (earlier ones
    failing with retryable errors) the function is called exactly for attempts
    [0..k], [Do] sleeps exactly the positive delays of the first [k] and
    returns nil; if every attempt fails it is called [MaxAttempts] times and
    the last error is returned wrapped in [ErrMaxAttemptsExceeded]. *)
Theorem retry_do_outcome p en b k :
  undisturbed p en -> (forall i, 0 <= i < Z.of_nat k -> retryable p en i) ->
  let '(r, b', evs) := Do p en b in
  (Z.of_nat k < maxAttempts p -> e_fn en (Z.of_nat k) = None ->
   r = DoNil /\ calls evs = zseq 0 (S k) /\ sleeps evs = waits p 0 k) /\
  (maxAttempts p <= Z.of_nat k ->
   r = DoMax (e_fn en (maxAttempts p - 1)) /\ calls evs = zseq 0 (Z.to_nat (maxAttempts p)) /\
   sleeps evs = waits p 0 (Z.to_nat (maxAttempts p) - 1)).
Proof.
  intros Hu Hr. unfold Do. rewrite (proj1 Hu). pose proof (maxAttempts_pos p).
  destruct (do_loop p en b (Z.to_nat (maxAttempts p)) 0 None) as [[r b'] evs] eqn:E. split.
  - intros Hk Hok. destruct (do_loop_success p en b k (Z.to_nat (maxAttempts p)) 0 None) as (evs' & E' & Hc & Hs);
      auto; try lia. rewrite E' in E. by simplify_eq.
  - intros Hk. destruct (do_loop_exhausted p en b (Z.to_nat (maxAttempts p)) 0 None) as (evs' & E' & Hc & Hs);
      auto; try lia.
    { intros i Hi. apply Hr. lia. }
    rewrite E' in E. by simplify_eq.
Qed.

(** Whatever the context, the budget and the attempts do, [Do] calls the
    function at most [MaxAttempts] times, for attempts [0, 1, 2, ...] in order;
    and no delay exceeds [MaxDelay] when one is set. *)
Theorem retry_calls_bounded p en b :
  let '(r, b', evs) := Do p en b in
  exists k, Z.of_nat k <= maxAttempts p /\ calls evs = zseq 0 k /\
  (0 < MaxDelay p -> forall i, 0 <= delay p i <= MaxDelay p).
Proof.
  unfold Do. pose proof (maxAttempts_pos p).
  pose proof (do_loop_calls p en (if HasBudget p then RecordAttempt b (e_record en) else b)
    (Z.to_nat (maxAttempts p)) 0 None) as Hc.
  destruct (do_loop _ _ _ _ _ _) as [[r b'] evs]. destruct Hc as (k & Hk & Ek). exists k.
  split_and!; [lia|done|]. intros Hm i. by apply delay_bounds.
Qed.

(** An exhausted budget stops the storm: when the budget denies the first
    retry, [Do] has called the function once, returns its error as it is and
    leaves the tokens of the budget alone. *)
Theorem retry_budget_stops p en b e :
  HasBudget p = true -> 1 < MaxAttempts p ->
  e_ctx en 0 = None -> e_ctx en 1 = None -> e_sleep en 0 = None ->
  e_fn en 0 = Some e -> shouldRetry p (Some e) = true ->
  let b1 := RecordAttempt b (e_record en) in
  fst (CanRetry b1 (e_can en 1)) = false ->
  let '(r, b', evs) := Do p en b in
  r = DoErr (Some e) /\ calls evs = [0] /\ tokens b' = tokens (refillLocked b1 (e_can en 1)).
Proof.
  intros Hb Hm Hc0 Hc1 Hs0 Hf Hr. cbv zeta. intros Hcan. unfold Do. rewrite Hb.
  assert (maxAttempts p = MaxAttempts p) as Em by (unfold maxAttempts; case_cmp; lia). rewrite Em.
  destruct (Z.to_nat (MaxAttempts p)) as [|[|left]] eqn:El; try lia.
  assert (CanRetry (RecordAttempt b (e_record en)) (e_can en 1) =
    (false, refillLocked (RecordAttempt b (e_record en)) (e_can en 1))) as Ecan.
  { unfold CanRetry in *. destruct (f64_geb _ 1); done. }
  cbn [do_loop]. rewrite Hc0, Hf, Hr, Hs0. cbn [Z.ltb Z.compare andb negb].
  rewrite Em, (proj2 (Z.eqb_neq 0 (MaxAttempts p - 1))) by lia.
  change (0 + 1) with 1. rewrite Hc1, Hb. cbn [Z.ltb Z.compare Pos.compare andb]. rewrite Ecan. cbn [negb].
  destruct (0 <? delay p 0), (OnRetry p); done.
Qed.
End retry.
Arguments Policy : clear implicits.
Arguments env : clear implicits.
Arguments do_result : clear implicits.

(** Three attempts, one second apart, the third succeeds. *)
Definition demo_policy (n : Z) : Policy string :=
  mkPolicy n (Some (fun _ => Second)) None true 0 false.

Definition demo_env : env string :=
  mkEnv (fun i => if i <? 2 then Some "down" else None) (fun _ => None) (fun _ => None) 0 (fun _ => 0).

Definition empty_budget : Budget := mkBudget 0 0 1 0 0 0 0 false.

Lemma retry_do_outcome_witness :
  let '(r, b', evs) := Do (demo_policy 5) demo_env empty_budget in
  (r = DoNil /\ calls evs = [0; 1; 2] /\ sleeps evs = [Second; Second]) /\
  (2 < 5 -> e_fn demo_env 2 = None -> r = DoNil /\ calls evs = zseq 0 3 /\ sleeps evs = waits (demo_policy 5) 0 2).
Proof.
  split; [vm_compute; by split_and!|].
  refine (proj1 (retry_do_outcome (demo_policy 5) demo_env empty_budget 2 _ _)).
  - by split_and!.
  - intros i Hi. exists "down"%string. split; [|reflexivity]. unfold demo_env; cbn [e_fn].
    rewrite (proj2 (Z.ltb_lt i 2)); [reflexivity|]. simpl in Hi. lia.
Defined.

Lemma retry_budget_stops_witness :
  let p := mkPolicy 5 (Some (fun _ => Second)) None true 0 true in
  let '(r, b', evs) := Do p demo_env empty_budget in
  r = DoErr (Some "down"%string) /\ calls evs = [0] /\
  tokens b' = tokens (refillLocked (RecordAttempt empty_budget 0) 0).
Proof.
  refine (retry_budget_stops (mkPolicy 5 (Some (fun _ => Second)) None true 0 true) demo_env empty_budget
    "down" eq_refl _ eq_refl eq_refl eq_refl eq_refl eq_refl _); vm_compute; reflexivity.
Defined.

(** ** The budget's tokens *)

(** The bucket is well-formed: between empty and [burst], a positive rate. *)
Definition budget_ok (b : Budget) : Prop :=
  f64_nonneg (tokens b) = true /\ PrimFloat.leb (tokens b) (burst b) = true.

Lemma cap_burst_ok b t : f64_nonneg t = true -> f64_nonneg (burst b) = true ->
  f64_nonneg (cap_burst b t) = true /\ PrimFloat.leb (cap_burst b t) (burst b) = true.
Proof.
  intros Ht Hb. unfold cap_burst, f64_gtb. destruct (PrimFloat.ltb (burst b) t) eqn:E.
  - split; [done|]. apply leb_refl. auto with golib.
  - split; [done|]. apply ltb_false_leb; auto with golib.
Qed.

Lemma ltb_zero_nonneg x : PrimFloat.ltb 0 x = true -> f64_nonneg x = true.
Proof.
  rewrite ltb_spec. change (sf 0) with (S754_zero false). unfold f64_nonneg, SFltb, SFcompare.
  by destruct (sf x) as [|[]| |[]].
Qed.

Lemma f64_nonneg_le_trans x y : f64_nonneg x = true -> PrimFloat.leb x y = true -> f64_nonneg y = true.
Proof.
  unfold f64_nonneg. rewrite FloatAxioms.leb_spec. unfold SFleb, SFcompare.
  by destruct (sf x) as [|[]| |[]], (sf y) as [|[]| |[]].
Qed.

Lemma budget_refill_ok b now : budget_ok b -> PrimFloat.ltb 0 (refillRateLocked b) = true ->
  is_nan (Seconds (time_sub now (lastFill b))) = false ->
  budget_ok (refillLocked b now) /\ burst (refillLocked b now) = burst b.
Proof.
  intros [Ht Hb] Hrate Hnan. unfold refillLocked.
  destruct (PrimFloat.leb (Seconds _) 0) eqn:E; [done|].
  apply leb_false_ltb in E; [|done|done].
  split; [|done]. apply (cap_burst_ok b).
  - apply f64_add_nonneg; [done|]. by apply f64_mul_pos_nonneg.
  - by eapply f64_nonneg_le_trans.
Qed.

(** The retry budget is a bounded bucket: with a positive refill rate,
    tokens in [[0, burst]] stay there when the bucket is refilled and when
    tokens are deposited; [CanRetry] grants exactly when a whole token is
    available after the refill, then takes one and leaves no debt, and takes
    nothing otherwise. *)
Theorem budget_tokens_bounded b now n :
  budget_ok b -> PrimFloat.ltb 0 (refillRateLocked b) = true ->
  is_nan (Seconds (time_sub now (lastFill b))) = false -> is_nan n = false ->
  let '(ok, b') := CanRetry b now in
  let before := tokens (refillLocked b now) in
  budget_ok (refillLocked b now) /\
  ok = PrimFloat.leb 1 before /\ tokens b' = (if ok then before - 1 else before)%float /\
  f64_nonneg (tokens b') = true /\ budget_ok (Deposit b n now).
Proof.
  intros Hok Hrate Hnan Hn. destruct (budget_refill_ok b now Hok Hrate Hnan) as [[Ht Hb] Eb].
  assert (budget_ok (Deposit b n now)) as Hdep.
  { unfold Deposit. destruct (PrimFloat.leb n 0) eqn:En; [done|].
    apply leb_false_ltb in En; [|done|done].
    apply (cap_burst_ok (refillLocked b now)); [|by eapply f64_nonneg_le_trans].
    apply f64_add_nonneg; [done|]. by apply ltb_zero_nonneg. }
  unfold CanRetry. set (b1 := refillLocked b now) in *. unfold f64_geb.
  destruct (PrimFloat.leb 1 (tokens b1)) eqn:E; split_and!; try done.
  apply f64_sub_nonneg; [reflexivity|reflexivity|done].
Qed.

Lemma budget_tokens_bounded_witness :
  let b := NewBudget (mkBudgetConfig 0.1 2 10) 0 in
  let '(ok, b') := CanRetry b Second in
  ok = true /\
  let before := tokens (refillLocked b Second) in
  budget_ok (refillLocked b Second) /\
  ok = PrimFloat.leb 1 before /\ tokens b' = (if ok then before - 1 else before)%float /\
  f64_nonneg (tokens b') = true /\ budget_ok (Deposit b 3 Second).
Proof.
  split; [vm_compute; reflexivity|].
  refine (budget_tokens_bounded (NewBudget (mkBudgetConfig 0.1 2 10) 0) Second 3 _ _ _ _);
    vm_compute; [split|..]; reflexivity.
Defined.
