(* ===== verification/LimitStrategy.v ===== *)
(** * Limit strategies of the concurrency limiter ([concurrency/config.go],
      [concurrency/strategy.go]).

    AIMD, Gradient2 and Vegas recompute a limit, a [float64], from every
    outcome.  [math.Log] is a parameter of Vegas. *)

From Stdlib Require Import Floats.
From S2P Require Import Prelude Float64 Float64Round.
Open Scope Z_scope.

(** ** Configuration *)

Record Config := mkConfig {
  InitialLimit : Z;
  MaxLimit : Z;
  MinLimit : Z;
  RTTTolerance : f64;
}.

Definition defaultInitialLimit : Z := 20.
Definition defaultMaxLimit : Z := 1000.
Definition defaultMinLimit : Z := 4.
Definition defaultRTTTolerance : f64 := 1.5%float.
Definition defaultBaseRTTDecayWindow : Z := 600.

Definition normalise (c : Config) : Config :=
  let initial := if InitialLimit c <=? 0 then defaultInitialLimit else InitialLimit c in
  let max := if MaxLimit c <=? 0 then defaultMaxLimit else MaxLimit c in
  let min := if MinLimit c <=? 0 then defaultMinLimit else MinLimit c in
  let tol := if PrimFloat.leb (RTTTolerance c) zero then defaultRTTTolerance else RTTTolerance c in
  let min := if max <? min then max else min in
  let initial := if initial <? min then min else initial in
  let initial := if max <? initial then max else initial in
  mkConfig initial max min tol.

Definition clamp (x lo hi : f64) : f64 :=
  if PrimFloat.ltb x lo then lo else if f64_gtb x hi then hi else x.

Definition safeRatio (num den fallback : f64) : f64 :=
  if PrimFloat.leb den zero then fallback
  else
    let r := (num / den)%float in
    if negb (PrimFloat.eqb r r) then fallback else r.

(** ** The base round-trip time *)

Record baseTracker := mkBase { base : duration; decayEvery : Z; sinceDecay : Z }.

Definition newBaseTracker (decayWindow : Z) : baseTracker :=
  mkBase 0 (if decayWindow <=? 0 then defaultBaseRTTDecayWindow else decayWindow) 0.

Definition observe (b : baseTracker) (rtt : duration) : duration * baseTracker :=
  let b :=
    if 0 <? rtt then
      if (base b =? 0) || (rtt <? base b) then mkBase rtt (decayEvery b) (sinceDecay b)
      else
        let since := sinceDecay b + 1 in
        if decayEvery b <=? since
        then mkBase (base b +w Z.quot (rtt -w base b) 16) (decayEvery b) 0
        else mkBase (base b) (decayEvery b) since
    else b in
  (if base b <=? 0 then 1 else base b, b).

(** ** AIMD *)

Record aimd := mkAIMD {
  a_cfg : Config;
  a_base : baseTracker;
  increment : f64;
  backoffRatio : f64;
  a_tolerance : f64;
  a_limit : f64;
}.

Definition at_least_one (x : f64) : f64 := if PrimFloat.ltb x one then one else x.

Definition NewAIMD (cfg : Config) : aimd :=
  let cfg := normalise cfg in
  mkAIMD cfg (newBaseTracker defaultBaseRTTDecayWindow) 1%float 0.9%float (at_least_one (RTTTolerance cfg))
    (f64_of_Z (InitialLimit cfg)).

Definition aimd_Update (s : aimd) (inflight : Z) (rtt : duration) (dropped : bool) : aimd :=
  let '(b, bt) := observe (a_base s) rtt in
  let lo := f64_of_Z (MinLimit (a_cfg s)) in
  let hi := f64_of_Z (MaxLimit (a_cfg s)) in
  let slow := f64_to_int64 (f64_of_Z b * a_tolerance s)%float <? rtt in
  let limit :=
    if dropped || slow then clamp (a_limit s * backoffRatio s)%float lo hi
    else if f64_geb (f64_of_Z inflight) (a_limit s / 2)%float
         then clamp (a_limit s + increment s)%float lo hi
         else a_limit s in
  mkAIMD (a_cfg s) bt (increment s) (backoffRatio s) (a_tolerance s) limit.

(** ** Gradient2 *)

Record ewma := mkEWMA { value : f64; alpha : f64; ewma_init : bool }.

Definition newEWMA : ewma := mkEWMA zero 0.05%float false.

Definition ewma_update (e : ewma) (sample : f64) : ewma :=
  if negb (ewma_init e) then mkEWMA sample (alpha e) true
  else mkEWMA (value e * (one - alpha e) + sample * alpha e)%float (alpha e) true.

Record gradient2 := mkGradient2 {
  g_cfg : Config;
  longRTT : ewma;
  g_tolerance : f64;
  smoothing : f64;
  g_limit : f64;
}.

Definition NewGradient2 (cfg : Config) : gradient2 :=
  let cfg := normalise cfg in
  mkGradient2 cfg newEWMA (at_least_one (RTTTolerance cfg)) 0.2%float (f64_of_Z (InitialLimit cfg)).

Definition gradient2_Update (s : gradient2) (inflight : Z) (rtt : duration) (dropped : bool) : gradient2 :=
  let lo := f64_of_Z (MinLimit (g_cfg s)) in
  let hi := f64_of_Z (MaxLimit (g_cfg s)) in
  let set e l := mkGradient2 (g_cfg s) e (g_tolerance s) (smoothing s) l in
  if dropped then set (longRTT s) (clamp (g_limit s * 0.5)%float lo hi)
  else if rtt <=? 0 then s
  else
    let shortRTT := f64_of_Z rtt in
    let e := ewma_update (longRTT s) shortRTT in
    if PrimFloat.leb (value e) zero then set e (g_limit s)
    else
      let gradient := clamp (value e * g_tolerance s / shortRTT)%float 0.5%float 1%float in
      let queueSize := PrimFloat.sqrt (g_limit s) in
      let newLimit := (g_limit s * gradient + queueSize)%float in
      set e (clamp (g_limit s * (one - smoothing s) + newLimit * smoothing s)%float lo hi).

(** ** Vegas *)

Record vegas := mkVegas {
  v_cfg : Config;
  v_base : baseTracker;
  v_alpha : f64;
  v_beta : f64;
  v_limit : f64;
}.

Definition NewVegas (cfg : Config) : vegas :=
  let cfg := normalise cfg in
  let tolerance := if PrimFloat.leb (RTTTolerance cfg) zero then one else RTTTolerance cfg in
  mkVegas cfg (newBaseTracker defaultBaseRTTDecayWindow) (3 * tolerance)%float (6 * tolerance)%float
    (f64_of_Z (InitialLimit cfg)).

Definition vegas_Update (log : f64 -> f64) (s : vegas) (inflight : Z) (rtt : duration) (dropped : bool) : vegas :=
  let '(b, bt) := observe (v_base s) rtt in
  let lo := f64_of_Z (MinLimit (v_cfg s)) in
  let hi := f64_of_Z (MaxLimit (v_cfg s)) in
  let set l := mkVegas (v_cfg s) bt (v_alpha s) (v_beta s) l in
  if dropped then set (clamp (v_limit s * 0.5)%float lo hi)
  else if rtt <=? 0 then set (v_limit s)
  else
    let ratio := safeRatio (f64_of_Z b) (f64_of_Z rtt) one in
    let ratio := if f64_gtb ratio one then one else ratio in
    let queue := (v_limit s * (one - ratio))%float in
    let queue := if PrimFloat.ltb queue zero then zero else queue in
    let limit :=
      if PrimFloat.ltb queue (v_alpha s) then (v_limit s + log (v_limit s + 1))%float
      else if f64_gtb queue (v_beta s) then (v_limit s - log (v_limit s + 1))%float
      else v_limit s in
    set (clamp limit lo hi).

(** ** The band *)

(** [MinLimit <= x <= MaxLimit] on the IEEE order, so not NaN. *)
Definition in_band (cfg : Config) (x : f64) : Prop :=
  PrimFloat.leb (f64_of_Z (MinLimit cfg)) x = true /\ PrimFloat.leb x (f64_of_Z (MaxLimit cfg)) = true.

(** What [normalise] enforces, for limits that binary64 represents exactly. *)
Definition cfg_ok (cfg : Config) : Prop :=
  0 < MinLimit cfg <= InitialLimit cfg /\ InitialLimit cfg <= MaxLimit cfg < 2 ^ 53.

Lemma normalise_bounds c : let c' := normalise c in
  0 < MinLimit c' <= InitialLimit c' /\ InitialLimit c' <= MaxLimit c' /\ MaxLimit c' = (if MaxLimit c <=? 0 then 1000 else MaxLimit c).
Proof.
  unfold normalise, defaultInitialLimit, defaultMaxLimit, defaultMinLimit. cbn [MinLimit MaxLimit InitialLimit].
  repeat case_cmp; lia.
Qed.

Lemma normalise_ok c : MaxLimit c < 2 ^ 53 -> cfg_ok (normalise c).
Proof.
  intros Hm. destruct (normalise_bounds c) as (H1 & H2 & H3). unfold cfg_ok. rewrite H3 in *. case_cmp; lia.
Qed.

Lemma normalise_tolerance c : is_nan (RTTTolerance c) = false -> PrimFloat.ltb zero (RTTTolerance (normalise c)) = true.
Proof.
  intros Hn. unfold normalise. cbn [RTTTolerance]. destruct (PrimFloat.leb (RTTTolerance c) zero) eqn:E; [done|].
  by apply leb_false_ltb.
Qed.

(** ** The interface [LimitStrategy] *)

(** [Update] returns the new limit beside the new state of the strategy. *)
Class LimitStrategy (S : Type) := {
  Update : S -> Z -> duration -> bool -> f64 * S;
  Limit : S -> f64;
}.

#[export] Instance aimd_strategy : LimitStrategy aimd := {
  Update s inflight rtt dropped := let s' := aimd_Update s inflight rtt dropped in (a_limit s', s');
  Limit := a_limit;
}.

#[export] Instance gradient2_strategy : LimitStrategy gradient2 := {
  Update s inflight rtt dropped := let s' := gradient2_Update s inflight rtt dropped in (g_limit s', s');
  Limit := g_limit;
}.

#[export] Instance vegas_strategy (log : f64 -> f64) : LimitStrategy vegas := {
  Update s inflight rtt dropped := let s' := vegas_Update log s inflight rtt dropped in (v_limit s', s');
  Limit := v_limit;
}.

(** One outcome of a request, fed to a strategy: what was in flight, the round-trip time, whether it was dropped. *)
Notation sample := (Z * duration * bool)%type.

Definition feed {S} `{LimitStrategy S} (s : S) (os : list sample) : S :=
  fold_left (fun s '(inflight, rtt, dropped) => (Update s inflight rtt dropped).2) os s.

(** Round-trip times are [int64]. *)
Definition sample_ok (o : sample) : Prop := o.1.2 <= max_int64.

(** What a strategy promises to the limiter: an invariant every [Update] keeps, under which the
    limit it returns is its own and lies in the band of the configuration. *)
Class StrategyLaws S `{LimitStrategy S} (cfg : Config) := {
  strategy_ok : S -> Prop;
  strategy_update s inflight rtt dropped : strategy_ok s -> rtt <= max_int64 ->
    strategy_ok (Update s inflight rtt dropped).2 /\
    (Update s inflight rtt dropped).1 = Limit (Update s inflight rtt dropped).2;
  strategy_band s : strategy_ok s -> in_band cfg (Limit s);
}.

Lemma feed_ok {S} `{StrategyLaws S cfg} s os :
  strategy_ok s -> Forall sample_ok os -> strategy_ok (feed s os).
Proof.
  intros Hs Ho. revert s Hs. induction Ho as [|[[i r] d] os Ho _ IH]; intros s Hs; [done|].
  apply IH, strategy_update; done.
Qed.

(** ** Staying in the band *)

Lemma clamp_band cfg x : is_nan x = false -> cfg_ok cfg ->
  in_band cfg (clamp x (f64_of_Z (MinLimit cfg)) (f64_of_Z (MaxLimit cfg))).
Proof.
  intros Hx [H1 H2]. unfold in_band, clamp, f64_gtb.
  assert (PrimFloat.leb (f64_of_Z (MinLimit cfg)) (f64_of_Z (MaxLimit cfg)) = true) as Hb by (apply of_Z_leb; lia).
  destruct (leb_not_nan _ _ Hb) as [Hlo Hhi].
  destruct (PrimFloat.ltb x _) eqn:E1; [split; [by apply leb_refl|done]|].
  destruct (PrimFloat.ltb _ x) eqn:E2; [split; [done|by apply leb_refl]|].
  split; by apply ltb_false_leb.
Qed.

Lemma in_band_finite cfg x : cfg_ok cfg -> in_band cfg x -> f64_nonneg x = true /\ f64_finite x = true.
Proof.
  intros [H1 H2] [Hlo Hhi].
  assert (f64_nonneg x = true) as Hn.
  { apply (f64_nonneg_leb (f64_of_Z (MinLimit cfg))); [apply f64_of_Z_nonneg; unfold max_int64|]; [lia|done]. }
  split; [done|]. apply (f64_finite_between x (f64_of_Z (MaxLimit cfg))); [done..|].
  apply of_Z_finite. unfold max_int64. lia.
Qed.

Lemma initial_band cfg : cfg_ok cfg -> in_band cfg (f64_of_Z (InitialLimit cfg)).
Proof. intros [H1 H2]. split; apply of_Z_leb; lia. Qed.

(** *** AIMD *)

Definition aimd_ok (cfg : Config) (s : aimd) : Prop :=
  a_cfg s = cfg /\ backoffRatio s = 0.9%float /\ increment s = 1%float /\ in_band cfg (a_limit s).

Lemma aimd_Update_ok cfg s inflight rtt dropped : cfg_ok cfg -> aimd_ok cfg s ->
  aimd_ok cfg (aimd_Update s inflight rtt dropped).
Proof.
  intros Hc (<- & Hr & Hi & Hb). unfold aimd_ok, aimd_Update. destruct (observe _ _) as [b bt].
  cbn [a_cfg backoffRatio increment a_limit]. rewrite Hr, Hi. split_and!; [done..|].
  destruct (in_band_finite _ _ Hc Hb) as [Hn Hf].
  repeat case_match; try done; (apply clamp_band; [apply f64_nonneg_not_nan|done]).
  - by apply f64_mul_scale.
  - by apply f64_add_nonneg.
Qed.

(** *** Gradient2 *)

Definition gradient2_ok (cfg : Config) (s : gradient2) : Prop :=
  g_cfg s = cfg /\ smoothing s = 0.2%float /\ alpha (longRTT s) = 0.05%float /\
  f64_nonneg (value (longRTT s)) = true /\ PrimFloat.ltb zero (g_tolerance s) = true /\ in_band cfg (g_limit s).

Lemma ewma_update_ok e rtt : alpha e = 0.05%float -> f64_nonneg (value e) = true -> 0 < rtt <= max_int64 ->
  alpha (ewma_update e (f64_of_Z rtt)) = 0.05%float /\ f64_nonneg (value (ewma_update e (f64_of_Z rtt))) = true.
Proof.
  intros Ha Hv Hr. assert (f64_nonneg (f64_of_Z rtt) = true) as Hs by (apply f64_of_Z_nonneg; lia).
  unfold ewma_update. destruct (ewma_init e); cbn [alpha value negb]; rewrite ?Ha; split; try done.
  apply f64_add_nonneg; by apply f64_mul_scale.
Qed.

Lemma gradient_range x : f64_nonneg x = true ->
  let g := clamp x 0.5%float 1%float in f64_finite g = true /\ PrimFloat.ltb zero g = true.
Proof.
  intros Hx. cbn zeta. unfold clamp, f64_gtb.
  destruct (PrimFloat.ltb x 0.5) eqn:E1; [done|]. destruct (PrimFloat.ltb 1 x) eqn:E2; [done|].
  apply ltb_false_leb in E1; [|first [done|by apply f64_nonneg_not_nan]..].
  apply ltb_false_leb in E2; [|first [done|by apply f64_nonneg_not_nan]..].
  split; [by apply (f64_finite_between x 1)|]. revert E1. rewrite FloatAxioms.leb_spec, ltb_spec.
  change (sf zero) with (S754_zero false). unfold f64_nonneg in Hx. by destruct (sf x) as [[]|[]| |[]].
Qed.

Lemma gradient2_Update_ok cfg s inflight rtt dropped : cfg_ok cfg -> rtt <= max_int64 -> gradient2_ok cfg s ->
  gradient2_ok cfg (gradient2_Update s inflight rtt dropped).
Proof.
  intros Hc Hr (<- & Hs & Ha & Hv & Ht & Hb). destruct (in_band_finite _ _ Hc Hb) as [Hn Hf].
  unfold gradient2_Update. destruct dropped.
  { unfold gradient2_ok. cbn. split_and!; try done. apply clamp_band; [|done]. by apply f64_nonneg_not_nan, f64_mul_scale. }
  case_cmp; [done|]. destruct (ewma_update_ok (longRTT s) rtt Ha Hv ltac:(lia)) as [Ha' Hv'].
  set (e := ewma_update _ _) in *. destruct (PrimFloat.leb (value e) zero) eqn:Ev; [by unfold gradient2_ok; cbn; split_and!|].
  unfold gradient2_ok. cbn [g_cfg smoothing longRTT g_tolerance g_limit]. split_and!; [done..|].
  apply clamp_band; [|done]. apply f64_nonneg_not_nan. rewrite Hs.
  assert (PrimFloat.ltb zero (value e) = true) as Hp by (apply leb_false_ltb; [by apply f64_nonneg_not_nan|done|done]).
  set (gr := clamp _ _ _). assert (f64_finite gr = true /\ PrimFloat.ltb zero gr = true) as [Hg1 Hg2].
  { apply gradient_range, f64_div_scale; [by apply f64_mul_pos_nonneg|apply of_Z_finite; lia|apply of_Z_pos; lia]. }
  apply f64_add_nonneg; [by apply f64_mul_scale|]. apply f64_mul_scale; [|done..].
  apply f64_add_nonneg; [by apply f64_mul_scale|by apply f64_sqrt_nonneg].
Qed.

(** *** Vegas *)

Section Vegas.
Context (log : f64 -> f64).
(** [math.Log] is not NaN on numbers that are not negative ([-Inf] at zero, [+Inf] at infinity). *)
Hypothesis log_not_nan : forall x, f64_nonneg x = true -> is_nan (log x) = false.

Definition vegas_ok (cfg : Config) (s : vegas) : Prop := v_cfg s = cfg /\ in_band cfg (v_limit s).

Lemma vegas_Update_ok cfg s inflight rtt dropped : cfg_ok cfg -> vegas_ok cfg s ->
  vegas_ok cfg (vegas_Update log s inflight rtt dropped).
Proof.
  intros Hc (<- & Hb). destruct (in_band_finite _ _ Hc Hb) as [Hn Hf].
  assert (is_nan (log (v_limit s + 1)%float) = false) as Hl by (by apply log_not_nan, f64_add_nonneg).
  unfold vegas_ok, vegas_Update. destruct (observe _ _) as [b bt]. destruct dropped; cbn [v_cfg v_limit].
  { split; [done|]. apply clamp_band; [|done]. by apply f64_nonneg_not_nan, f64_mul_scale. }
  case_cmp; [done|]. cbn [v_cfg v_limit]. split; [done|]. apply clamp_band; [|done].
  set (q := if PrimFloat.ltb (_ * _)%float zero then _ else _).
  destruct (PrimFloat.ltb q _); [by apply f64_add_finite_not_nan|].
  destruct (f64_gtb q _); [by apply f64_sub_finite_not_nan|by apply f64_nonneg_not_nan].
Qed.

#[export] Instance aimd_laws cfg (Hc : cfg_ok cfg) : StrategyLaws aimd cfg.
Proof.
  refine (Build_StrategyLaws aimd _ cfg (aimd_ok cfg) _ _).
  - intros s i r d Hs _. split; [by apply aimd_Update_ok|done].
  - by intros s (? & ? & ? & ?).
Defined.

#[export] Instance gradient2_laws cfg (Hc : cfg_ok cfg) : StrategyLaws gradient2 cfg.
Proof.
  refine (Build_StrategyLaws gradient2 _ cfg (gradient2_ok cfg) _ _).
  - intros s i r d Hs Hr. split; [by apply gradient2_Update_ok|done].
  - by intros s (? & ? & ? & ? & ? & ?).
Defined.

#[export] Instance vegas_laws cfg (Hc : cfg_ok cfg) : @StrategyLaws vegas (vegas_strategy log) cfg.
Proof.
  refine (@Build_StrategyLaws vegas (vegas_strategy log) cfg (vegas_ok cfg) _ _).
  - intros s i r d Hs Hr. split; [by apply vegas_Update_ok|done].
  - by intros s (? & ?).
Defined.
End Vegas.

Lemma at_least_one_pos x : PrimFloat.ltb zero x = true -> PrimFloat.ltb zero (at_least_one x) = true.
Proof. intros H. unfold at_least_one. by destruct (PrimFloat.ltb x one). Qed.

Lemma NewAIMD_ok cfg : MaxLimit cfg < 2 ^ 53 -> aimd_ok (normalise cfg) (NewAIMD cfg).
Proof. intros H. unfold aimd_ok. split_and!; try done. by apply initial_band, normalise_ok. Qed.

Lemma NewGradient2_ok cfg : MaxLimit cfg < 2 ^ 53 -> is_nan (RTTTolerance cfg) = false ->
  gradient2_ok (normalise cfg) (NewGradient2 cfg).
Proof.
  intros H Hn. unfold gradient2_ok. split_and!; try done.
  - by apply at_least_one_pos, normalise_tolerance.
  - by apply initial_band, normalise_ok.
Qed.

Lemma NewVegas_ok cfg : MaxLimit cfg < 2 ^ 53 -> vegas_ok (normalise cfg) (NewVegas cfg).
Proof. intros H. split; [done|]. by apply initial_band, normalise_ok. Qed.

(** C20: whatever outcomes are fed to them (any number in flight, any [int64]
    round-trip time, zero and negative ones included, drops in any order), the
    three strategies keep their limit between [MinLimit] and [MaxLimit] of the
    normalised configuration on the IEEE order: the rounding of the control
    loops never produces NaN, an infinity or a limit outside the band.  The
    configuration's [RTTTolerance] is a number and [MaxLimit] is below [2^53];
    [log] is [math.Log], which is not NaN on numbers that are not negative. *)
Theorem limit_strategies_stay_in_band log cfg os :
  (forall x, f64_nonneg x = true -> is_nan (log x) = false) ->
  MaxLimit cfg < 2 ^ 53 -> is_nan (RTTTolerance cfg) = false -> Forall sample_ok os ->
  in_band (normalise cfg) (Limit (feed (NewAIMD cfg) os)) /\
  in_band (normalise cfg) (Limit (feed (NewGradient2 cfg) os)) /\
  in_band (normalise cfg) (@Limit _ (vegas_strategy log) (@feed _ (vegas_strategy log) (NewVegas cfg) os)).
Proof.
  intros Hl Hm Ht Ho. pose proof (normalise_ok cfg Hm) as Hc. split_and!.
  - apply (@strategy_band _ _ _ (aimd_laws _ Hc)), feed_ok; [by apply NewAIMD_ok|done].
  - apply (@strategy_band _ _ _ (gradient2_laws _ Hc)), feed_ok; [by apply NewGradient2_ok|done].
  - apply (@strategy_band _ _ _ (vegas_laws log Hl _ Hc)), feed_ok; [by apply NewVegas_ok|done].
Qed.

(** A zero configuration and a run with a slow, a dropped, a fast and a zero outcome. *)
Lemma limit_strategies_stay_in_band_witness :
  let cfg := mkConfig 0 0 0 zero in
  let os := [(20, 1000, false); (15, 9000000, false); (3, 500, true); (4, 0, false)] in
  let log x := (x / 2)%float in
  PrimFloat.leb 4 (Limit (feed (NewAIMD cfg) os)) = true /\
  PrimFloat.leb (@Limit _ (vegas_strategy log) (@feed _ (vegas_strategy log) (NewVegas cfg) os)) 1000 = true.
Proof.
  intros cfg os log.
  destruct (limit_strategies_stay_in_band log cfg os) as (H1 & _ & H3); [|done|done|by repeat constructor|].
  - intros x Hx. by apply f64_nonneg_not_nan, f64_div_scale.
  - split; [apply H1|apply H3].
Defined.

(** ** A tolerance that is not a number *)

(** [normalise] replaces tolerances [<= 0] only.  A NaN tolerance gets through, and the first
    positive round-trip time makes the limit of Gradient2 NaN, from which no outcome recovers. *)
Lemma clamp_nan x lo hi : is_nan x = true -> clamp x lo hi = x.
Proof. intros H. unfold clamp, f64_gtb. by rewrite ltb_nan_l, ltb_nan_r by done. Qed.

Lemma gradient2_nan_sticks s inflight rtt dropped : is_nan (g_limit s) = true ->
  is_nan (g_limit (gradient2_Update s inflight rtt dropped)) = true.
Proof.
  intros H. unfold gradient2_Update.
  destruct dropped; cbn [g_limit]; [rewrite clamp_nan; by apply f64_mul_nan_l|]. case_cmp; [done|].
  destruct (PrimFloat.leb _ zero); cbn [g_limit]; [done|]. rewrite clamp_nan; by apply f64_add_nan_l, f64_mul_nan_l.
Qed.

Theorem gradient2_nan_tolerance cfg inflight rtt os : RTTTolerance cfg = PrimFloat.nan -> 0 < rtt <= max_int64 ->
  is_nan (Limit (feed (NewGradient2 cfg) ((inflight, rtt, false) :: os))) = true.
Proof.
  intros Ht Hr. pose proof (of_Z_pos rtt Hr) as Hp. cbn [feed fold_left Update gradient2_strategy snd].
  set (s := gradient2_Update _ _ _ _). assert (is_nan (g_limit s) = true) as Hs.
  { unfold s, gradient2_Update. rewrite (proj2 (Z.leb_gt _ _)) by lia. cbn [longRTT NewGradient2 ewma_update newEWMA ewma_init negb value].
    destruct (PrimFloat.leb (f64_of_Z rtt) zero) eqn:El; [by rewrite leb_ltb_false in Hp|]. cbn [g_limit].
    assert (is_nan (g_tolerance (NewGradient2 cfg)) = true) as Hn by (cbn; by rewrite Ht).
    rewrite (clamp_nan (_ / _)%float) by (by apply f64_div_nan_l, f64_mul_nan_r).
    rewrite clamp_nan; apply f64_add_nan_r, f64_mul_nan_l, f64_add_nan_l, f64_mul_nan_r, f64_div_nan_l, f64_mul_nan_r, Hn. }
  clearbody s. revert s Hs. induction os as [|[[i r] d] os IH]; intros s Hs; [done|]. by apply IH, gradient2_nan_sticks.
Qed.
