(* ===== verification/Concurrency.v ===== *)
(** * The adaptive concurrency limiter ([concurrency/concurrency.go]).

    Any number of goroutines call [Acquire] and [Wait], release what they hold,
    and have their contexts cancelled.  A step is one atomic access of one
    goroutine: an atomic load, store, add or compare-and-swap, a mutex
    operation, one of the three parts of [sync.Cond.Wait] (registration on the
    notify list, unlock, sleep), a [Broadcast], or one [Update] of the strategy
    under its own mutex.  The limiter is modelled for any [LimitStrategy]; the
    counters stay far from the ends of [int64]. *)

From Stdlib Require Import Floats.
From stdpp Require Import relations.
From S2P Require Import Prelude Float64 Float64Round LimitStrategy.
Open Scope Z_scope.

Record Outcome := mkOutcome { RTT : duration; Dropped : bool }.

(** ** Goroutines *)

(** Which call of [Acquire] a goroutine is in: the caller's own, the fast path of [Wait], or
    the one in its loop. *)
Inductive site := InAcquire | InFast | InLoop.

Inductive pc :=
| PCtx (k : site)                (* Acquire: select on ctx.Done *)
| PLoadInflight (k : site)
| PLoadLimit (k : site) (cur : Z)
| PCas (k : site) (cur : Z)
| PNow (k : site)                (* newRelease: clk.Now *)
| PFastErr                       (* Wait: ctx.Err after the fast path *)
| PFirstLock                     (* waitMu.Lock before the loop *)
| PLoopUnlock                    (* waitMu.Unlock at the top of the loop *)
| PLoopErr                       (* ctx.Err after the failed Acquire *)
| PLock                          (* waitMu.Lock *)
| PReInflight                    (* the re-check under the lock *)
| PReLimit (cur : Z)
| PErrLocked                     (* ctx.Err under the lock *)
| PErrUnlock
| PCondAdd                       (* cond.Wait: registration *)
| PCondUnlock (notified : bool)  (* cond.Wait: unlock *)
| PSleep (notified : bool)       (* cond.Wait: sleep *)
| PCondLock                      (* cond.Wait: lock again *)
| PShed                          (* Acquire returned (nil, false) *)
| PHeld                          (* a ReleaseFunc was returned *)
| PErr.                          (* Wait returned ctx.Err() *)

Record release := mkRelease { start : time; done : bool }.

Inductive watcher := WNone | WRun | WDone.

Record caller := mkCaller {
  c_pc : pc;
  ctx_done : bool;
  watch : watcher;
  rel : option release;
}.

(** Where a call of [finish] is. *)
Inductive fpc :=
| FCas
| FRtt
| FDec (rtt : duration)
| FLoad (rtt : duration)
| FUpdate (inflightNow : Z) (rtt : duration)
| FInstall (v : f64)
| FBroadcast
| FDone.

Record finisher := mkFin { f_target : nat; f_out : Outcome; f_pc : fpc }.

Section Limiter.
Context {S : Type} {LS : LimitStrategy S}.

Record Limiter := mkLimiter {
  strategy : S;
  clk : time;
  inflight : Z;
  limit : Z;
  minLimit : Z;
  maxLimit : Z;
  waitMu : bool;              (* held *)
  callers : list caller;
  finishers : list finisher;
}.

Definition newLimiter (s : S) (cfg : Config) (now : time) : Limiter :=
  mkLimiter s now 0 (InitialLimit cfg) (MinLimit cfg) (MaxLimit cfg) false [] [].

Definition installLimit (l : Limiter) (v : f64) : Limiter :=
  if is_nan v || IsInf v then l
  else
    let n := round_to_int64 v in
    let n := if n <? minLimit l then minLimit l else n in
    let n := if maxLimit l <? n then maxLimit l else n in
    mkLimiter (strategy l) (clk l) (inflight l) n (minLimit l) (maxLimit l) (waitMu l) (callers l) (finishers l).

(** [Broadcast] notifies every goroutine registered on the condition variable. *)
Definition notify (c : caller) : caller :=
  match c_pc c with
  | PCondUnlock _ => mkCaller (PCondUnlock true) (ctx_done c) (watch c) (rel c)
  | PSleep _ => mkCaller (PSleep true) (ctx_done c) (watch c) (rel c)
  | _ => c
  end.

(** ** Callers *)

(** Where a failed [Acquire] returns to. *)
Definition acquire_fails (k : site) : pc :=
  match k with InAcquire => PShed | InFast => PFastErr | InLoop => PLoopErr end.

(** One step of a caller: the new [inflight], the mutex, and the caller. [None]: it cannot move. *)
Definition caller_step (inflight limit : Z) (mu : bool) (now : time) (c : caller) : option (Z * bool * caller) :=
  let go p := mkCaller p (ctx_done c) (watch c) (rel c) in
  match c_pc c with
  | PCtx k => Some (inflight, mu, go (if ctx_done c then acquire_fails k else PLoadInflight k))
  | PLoadInflight k => Some (inflight, mu, go (PLoadLimit k inflight))
  | PLoadLimit k cur => Some (inflight, mu, go (if limit <=? cur then acquire_fails k else PCas k cur))
  | PCas k cur =>
      Some (if inflight =? cur then (cur + 1, mu, go (PNow k)) else (inflight, mu, go (PLoadInflight k)))
  | PNow _ => Some (inflight, mu, mkCaller PHeld (ctx_done c) (watch c) (Some (mkRelease now false)))
  | PFastErr =>
      Some (inflight, mu, if ctx_done c then go PErr else mkCaller PFirstLock (ctx_done c) WRun (rel c))
  | PFirstLock => if mu then None else Some (inflight, true, go PLoopUnlock)
  | PLoopUnlock => Some (inflight, false, go (PCtx InLoop))
  | PLoopErr => Some (inflight, mu, go (if ctx_done c then PErr else PLock))
  | PLock => if mu then None else Some (inflight, true, go PReInflight)
  | PReInflight => Some (inflight, mu, go (PReLimit inflight))
  | PReLimit cur => Some (inflight, mu, go (if cur <? limit then PLoopUnlock else PErrLocked))
  | PErrLocked => Some (inflight, mu, go (if ctx_done c then PErrUnlock else PCondAdd))
  | PErrUnlock => Some (inflight, false, go PErr)
  | PCondAdd => Some (inflight, mu, go (PCondUnlock false))
  | PCondUnlock b => Some (inflight, false, go (PSleep b))
  | PSleep b => if b then Some (inflight, mu, go PCondLock) else None
  | PCondLock => if mu then None else Some (inflight, true, go PLoopUnlock)
  | PShed | PHeld | PErr => None
  end.

Definition returned (p : pc) : bool := match p with PShed | PHeld | PErr => true | _ => false end.

(** The watcher goroutine of a [Wait]: the context's end becomes a [Broadcast], the return of
    [Wait] closes [stop]; with both ready the runtime picks either. *)
Definition watcher_step (by_ctx : bool) (cs : list caller) (i : nat) : option (list caller) :=
  c ← cs !! i;
  match watch c with
  | WRun =>
      let cs' := <[i := mkCaller (c_pc c) (ctx_done c) WDone (rel c)]> cs in
      if by_ctx then (if ctx_done c then Some (map notify cs') else None)
      else if returned (c_pc c) then Some cs' else None
  | _ => None
  end.

(** ** [finish] *)

Definition with_fin (l : Limiter) (j : nat) (f : finisher) (p : fpc) : Limiter :=
  mkLimiter (strategy l) (clk l) (inflight l) (limit l) (minLimit l) (maxLimit l) (waitMu l) (callers l)
    (<[j := mkFin (f_target f) (f_out f) p]> (finishers l)).

Definition with_callers (l : Limiter) (cs : list caller) : Limiter :=
  mkLimiter (strategy l) (clk l) (inflight l) (limit l) (minLimit l) (maxLimit l) (waitMu l) cs (finishers l).

Definition with_inflight (l : Limiter) (n : Z) : Limiter :=
  mkLimiter (strategy l) (clk l) n (limit l) (minLimit l) (maxLimit l) (waitMu l) (callers l) (finishers l).

Definition with_strategy (l : Limiter) (s : S) : Limiter :=
  mkLimiter s (clk l) (inflight l) (limit l) (minLimit l) (maxLimit l) (waitMu l) (callers l) (finishers l).

Definition finish_step (l : Limiter) (j : nat) : option Limiter :=
  f ← finishers l !! j;
  c ← callers l !! f_target f;
  r ← rel c;
  let next l p := Some (with_fin l j f p) in
  match f_pc f with
  | FCas =>
      if done r then next l FDone
      else next (with_callers l (<[f_target f := mkCaller (c_pc c) (ctx_done c) (watch c) (Some (mkRelease (start r) true))]> (callers l)))
             FRtt
  | FRtt => next l (FDec (if RTT (f_out f) <=? 0 then time_sub (clk l) (start r) else RTT (f_out f)))
  | FDec rtt => next (with_inflight l (inflight l - 1)) (FLoad rtt)
  | FLoad rtt => next l (FUpdate (inflight l) rtt)
  | FUpdate n rtt =>
      let '(v, s) := Update (strategy l) (n + 1) rtt (Dropped (f_out f)) in next (with_strategy l s) (FInstall v)
  | FInstall v => next (installLimit l v) FBroadcast
  | FBroadcast => next (with_callers l (map notify (callers l))) FDone
  | FDone => None
  end.

(** ** The system *)

Inductive action :=
| ACall (wait : bool)              (* a goroutine calls Wait or Acquire *)
| ARun (i : nat)                   (* caller i moves *)
| AWatch (i : nat) (by_ctx : bool) (* the watcher of caller i moves *)
| ACancel (i : nat)                (* the context of caller i ends *)
| ARelease (i : nat) (o : Outcome) (* the ReleaseFunc of caller i is called *)
| AFinish (j : nat)                (* call j of finish moves *)
| ATick (d : duration).            (* time passes *)

Definition new_caller (wait : bool) : caller := mkCaller (PCtx (if wait then InFast else InAcquire)) false WNone None.

Definition sys_step (l : Limiter) (a : action) : option Limiter :=
  match a with
  | ACall w => Some (with_callers l (callers l ++ [new_caller w]))
  | ARun i =>
      c ← callers l !! i;
      '(n, mu, c') ← caller_step (inflight l) (limit l) (waitMu l) (clk l) c;
      Some (mkLimiter (strategy l) (clk l) n (limit l) (minLimit l) (maxLimit l) mu (<[i := c']> (callers l)) (finishers l))
  | AWatch i by_ctx => cs ← watcher_step by_ctx (callers l) i; Some (with_callers l cs)
  | ACancel i =>
      c ← callers l !! i;
      Some (with_callers l (<[i := mkCaller (c_pc c) true (watch c) (rel c)]> (callers l)))
  | ARelease i o =>
      c ← callers l !! i;
      r ← rel c;
      Some (mkLimiter (strategy l) (clk l) (inflight l) (limit l) (minLimit l) (maxLimit l) (waitMu l) (callers l)
              (finishers l ++ [mkFin i o FCas]))
  | AFinish j => finish_step l j
  | ATick d =>
      if 0 <=? d then
        Some (mkLimiter (strategy l) (time_add (clk l) d) (inflight l) (limit l) (minLimit l) (maxLimit l) (waitMu l)
                (callers l) (finishers l))
      else None
  end.

Fixpoint run (l : Limiter) (sched : list action) : option Limiter :=
  match sched with
  | [] => Some l
  | a :: sched' => l' ← sys_step l a; run l' sched'
  end.

Definition reachable (s : S) (cfg : Config) (l : Limiter) : Prop :=
  exists now sched, run (newLimiter s (normalise cfg) now) sched = Some l.

(** ** The in-flight counter *)

(** A slot is owned by a caller that has won its compare-and-swap and not been released, and by
    a call of [finish] until it has decremented the counter. *)
Definition owns (c : caller) : Z :=
  match c_pc c, rel c with
  | PNow _, _ => 1
  | _, Some r => if done r then 0 else 1
  | _, None => 0
  end.

Definition releasing (f : finisher) : Z := match f_pc f with FRtt | FDec _ => 1 | _ => 0 end.

Definition holders (l : Limiter) : Z := tally owns (callers l) + tally releasing (finishers l).

Definition caller_ok (max : Z) (c : caller) : Prop :=
  match c_pc c with
  | PCas _ cur => cur < max /\ rel c = None
  | PHeld => is_Some (rel c)
  | PErr | PErrUnlock => ctx_done c = true /\ rel c = None
  | _ => rel c = None
  end.

Definition limiter_inv (l : Limiter) : Prop :=
  inflight l = holders l /\ inflight l <= maxLimit l /\
  0 < minLimit l <= limit l /\ limit l <= maxLimit l /\
  Forall (caller_ok (maxLimit l)) (callers l).

(** What one step of a caller does to the counter. *)
Lemma caller_step_ok n lim mu now max c n' mu' c' : caller_step n lim mu now c = Some (n', mu', c') ->
  lim <= max -> caller_ok max c ->
  caller_ok max c' /\ n' = n - owns c + owns c' /\ (n < n' -> n' <= max).
Proof.
  unfold caller_step, caller_ok, owns. destruct c as [p cd w r]. cbn [c_pc ctx_done watch rel].
  intros H Hl Hok. destruct p; try done; repeat case_match; simplify_eq/=; split_and!; try done; try lia; try (by destruct k).
  all: by destruct Hok; simplify_eq.
Qed.

Lemma notify_ok max c : caller_ok max c -> caller_ok max (notify c).
Proof. unfold notify, caller_ok. by destruct (c_pc c) eqn:E; cbn; rewrite ?E. Qed.

Lemma notify_owns c : owns (notify c) = owns c.
Proof. unfold notify, owns. by destruct (c_pc c) eqn:E; cbn; rewrite ?E. Qed.

Lemma owns_nonneg c : 0 <= owns c.
Proof. unfold owns. destruct (c_pc c); repeat case_match; lia. Qed.

Lemma releasing_nonneg f : 0 <= releasing f.
Proof. unfold releasing. destruct (f_pc f); lia. Qed.

Lemma Forall_notify max cs : Forall (caller_ok max) cs -> Forall (caller_ok max) (map notify cs).
Proof. intros H. apply Forall_fmap. eapply Forall_impl; [exact H|]. intros c. apply notify_ok. Qed.

Lemma installLimit_inv l v : limiter_inv l -> limiter_inv (installLimit l v).
Proof.
  intros (H1 & H2 & H3 & H4 & H5). unfold installLimit. destruct (_ || _); [done|].
  unfold limiter_inv, holders. cbn. split_and!; try done; repeat case_cmp; lia.
Qed.

(** Moving a call of [finish] shifts ownership between it and the counter. *)
Lemma with_fin_inv l j f p : finishers l !! j = Some f ->
  inflight l = holders l - releasing f + releasing (mkFin (f_target f) (f_out f) p) ->
  inflight l <= maxLimit l -> 0 < minLimit l <= limit l -> limit l <= maxLimit l ->
  Forall (caller_ok (maxLimit l)) (callers l) -> limiter_inv (with_fin l j f p).
Proof.
  intros Hj Hh H2 H3 H4 H5. unfold limiter_inv, holders in *. cbn. split_and!; try done; try lia.
  rewrite (tally_insert _ _ _ _ _ Hj). lia.
Qed.

Lemma held_release max c r : caller_ok max c -> rel c = Some r -> c_pc c = PHeld.
Proof. unfold caller_ok. intros H Hr. rewrite Hr in H. destruct (c_pc c); try done; by destruct H. Qed.

Lemma finish_step_inv l j l' : finish_step l j = Some l' -> limiter_inv l -> limiter_inv l'.
Proof.
  unfold finish_step. intros H Hi.
  destruct (finishers l !! j) as [f|] eqn:Ef; [|done]. cbn in H.
  destruct (callers l !! f_target f) as [c|] eqn:Ec; [|done]. cbn in H.
  destruct (rel c) as [r|] eqn:Er; [|done]. cbn in H.
  pose proof Hi as (H1 & H2 & H3 & H4 & H5).
  pose proof (Forall_lookup_1 _ _ _ _ H5 Ec) as Hc. pose proof (held_release _ _ _ Hc Er) as Hp.
  assert (releasing f = match f_pc f with FRtt | FDec _ => 1 | _ => 0 end) as Hf by done.
  destruct (f_pc f) eqn:Efp.
  - destruct (done r) eqn:Ed; simplify_eq; [apply with_fin_inv; try done; cbn; lia|].
    apply with_fin_inv; try done; cbn.
    + unfold holders. cbn. rewrite (tally_insert _ _ _ _ _ Ec). unfold owns at 1 2 3. cbn. unfold holders in H1.
      rewrite Hp, Er, Ed. cbn. unfold owns in *. lia.
    + apply Forall_insert; [done|]. unfold caller_ok. cbn. by rewrite Hp.
  - simplify_eq. apply with_fin_inv; try done; cbn; lia.
  - simplify_eq. unfold holders in H1. apply with_fin_inv; try done; cbn; unfold holders; cbn; lia.
  - simplify_eq. apply with_fin_inv; try done; cbn; lia.
  - destruct (Update _ _ _ _) as [v s]. simplify_eq. apply with_fin_inv; try done; cbn; unfold holders in *; cbn; lia.
  - pose proof (installLimit_inv l v Hi) as (G1 & G2 & G3 & G4 & G5). simplify_eq. apply with_fin_inv; try done.
    + unfold installLimit. by destruct (_ || _).
    + cbn. lia.
  - simplify_eq. apply with_fin_inv; try done; cbn.
    + unfold holders in *. cbn. rewrite tally_fmap_same by apply notify_owns. lia.
    + by apply Forall_notify.
  - done.
Qed.

Lemma limiter_sys_step_inv l a l' : sys_step l a = Some l' -> limiter_inv l -> limiter_inv l'.
Proof.
  intros H Hi. pose proof Hi as (H1 & H2 & H3 & H4 & H5). unfold holders in H1.
  destruct a as [w|i|i b|i|i o|j|d]; cbn in H.
  - simplify_eq. unfold limiter_inv, holders. cbn. rewrite tally_app, tally_one. split_and!; try done; try lia.
    + destruct w; cbn; lia.
    + apply Forall_app. split; [done|]. apply Forall_singleton. by destruct w.
  - destruct (callers l !! i) as [c|] eqn:Ec; [|done]. cbn in H.
    destruct (caller_step _ _ _ _ c) as [[[n mu] c']|] eqn:Es; [|done]. cbn in H. simplify_eq.
    destruct (caller_step_ok _ _ _ _ (maxLimit l) _ _ _ _ Es H4) as (K1 & K2 & K3); [by eapply Forall_lookup_1|].
    unfold limiter_inv, holders. cbn. rewrite (tally_insert _ _ _ _ _ Ec). split_and!; try done; try lia.
    by apply Forall_insert.
  - unfold watcher_step in H. destruct (callers l !! i) as [c|] eqn:Ec; [|done]. cbn in H.
    destruct (watch c) eqn:Ew; [done| |done]. cbn in H.
    set (cs := <[i := _]> (callers l)) in *.
    assert (tally owns cs = tally owns (callers l)) as Ht by (unfold cs; rewrite (tally_insert _ _ _ _ _ Ec); unfold owns; cbn; lia).
    assert (Forall (caller_ok (maxLimit l)) cs) as Hcs
      by (apply Forall_insert; [done|]; by apply (Forall_lookup_1 _ _ _ _ H5 Ec)).
    clearbody cs. destruct b; case_match; simplify_eq/=; unfold limiter_inv, holders; cbn.
    + rewrite tally_fmap_same by apply notify_owns. split_and!; try done; try lia. by apply Forall_notify.
    + split_and!; try done; lia.
  - destruct (callers l !! i) as [c|] eqn:Ec; [|done]. cbn in H. simplify_eq. unfold limiter_inv, holders. cbn.
    rewrite (tally_insert _ _ _ _ _ Ec). unfold owns at 2 3. cbn. split_and!; try done; try lia.
    apply Forall_insert; [done|]. pose proof (Forall_lookup_1 _ _ _ _ H5 Ec) as Hc. revert Hc. unfold caller_ok. cbn.
    destruct (c_pc c); try done; by intros [].
  - destruct (callers l !! i) as [c|] eqn:Ec; [|done]. cbn in H. destruct (rel c) as [r|] eqn:Er; [|done]. simplify_eq/=.
    unfold limiter_inv, holders. cbn. rewrite tally_app, tally_one. split_and!; try done; cbn; lia.
  - by eapply finish_step_inv.
  - case_match; [|done]. by simplify_eq.
Qed.

Lemma limiter_run_inv l sched l' : run l sched = Some l' -> limiter_inv l -> limiter_inv l'.
Proof.
  revert l. induction sched as [|a sched IH]; intros l H Hi; cbn in H; [by simplify_eq|].
  destruct (sys_step l a) as [l1|] eqn:E; [|done]. cbn in H. eapply IH; [exact H|]. by eapply limiter_sys_step_inv.
Qed.

Lemma limiter_reachable_inv s cfg l : reachable s cfg l -> limiter_inv l.
Proof.
  intros (now & sched & H). eapply limiter_run_inv; [exact H|]. destruct (normalise_bounds cfg) as (G1 & G2 & G3).
  clear H. set (c := normalise cfg) in *. clearbody c. unfold limiter_inv, holders, newLimiter. cbn. split_and!; try done; lia.
Qed.

(** ** Running alone *)

(** A caller that runs alone; the mutex is its own when it is inside a critical section. *)
Fixpoint solo (fuel : nat) (n lim : Z) (mu : bool) (now : time) (c : caller) : Z * bool * caller :=
  match fuel with
  | O => (n, mu, c)
  | Datatypes.S fuel =>
      match caller_step n lim mu now c with
      | Some (n', mu', c') => solo fuel n' lim mu' now c'
      | None => (n, mu, c)
      end
  end.

Definition in_critical (p : pc) : bool :=
  match p with
  | PLoopUnlock | PReInflight | PReLimit _ | PErrLocked | PErrUnlock | PCondAdd | PCondUnlock _ => true
  | _ => false
  end.

(** The call has returned, or sleeps until a [Broadcast]. *)
Definition settled (p : pc) : bool :=
  match p with PShed | PHeld | PErr | PSleep false => true | _ => false end.

Lemma solo_settles n lim now c : exists n' c',
  solo 24 n lim (in_critical (c_pc c)) now c = (n', false, c') /\ settled (c_pc c') = true.
Proof.
  destruct c as [p cd w r].
  assert (Hlim : (n <? lim) = negb (lim <=? n)) by (by rewrite Z.ltb_antisym).
  destruct cd, (lim <=? n) eqn:E1; cbn in Hlim; destruct p as [k|k|k cur|k cur|k| | | | | | |cur| | | |b|b| | | |];
    try destruct k; try destruct b;
    repeat first
      [ done | by eexists _, _
      | progress cbn
      | progress rewrite ?Z.eqb_refl, ?E1, ?Hlim
      | match goal with |- context [?a <=? ?b] => destruct (a <=? b) eqn:?
                   | |- context [?a =? ?b] => destruct (a =? b) eqn:?
                   | |- context [?a <? ?b] => destruct (a <? b) eqn:? end ].
Qed.

Lemma solo_run fuel l i c n mu c' : callers l !! i = Some c ->
  solo fuel (inflight l) (limit l) (waitMu l) (clk l) c = (n, mu, c') ->
  exists k l', (k <= fuel)%nat /\ run l (replicate k (ARun i)) = Some l' /\
    callers l' !! i = Some c' /\ inflight l' = n /\ waitMu l' = mu.
Proof.
  revert l c. induction fuel as [|fuel IH]; intros l c Hc H; cbn in H; [simplify_eq; by exists 0%nat, l|].
  destruct (caller_step _ _ _ _ c) as [[[n1 mu1] c1]|] eqn:Es; [|simplify_eq; exists 0%nat, l; split_and!; [lia|done..]].
  set (l1 := mkLimiter (strategy l) (clk l) n1 (limit l) (minLimit l) (maxLimit l) mu1 (<[i := c1]> (callers l)) (finishers l)).
  destruct (IH l1 c1) as (k & l' & Hk & Hr & Hl); [|exact H|].
  { cbn. apply list_lookup_insert_eq. by eapply lookup_lt_Some. }
  exists (Datatypes.S k), l'. split_and!; [lia| |apply Hl..]. cbn. rewrite Hc. cbn. rewrite Es. done.
Qed.

Lemma sys_step_limits l a l' : sys_step l a = Some l' -> minLimit l' = minLimit l /\ maxLimit l' = maxLimit l.
Proof.
  intros H. destruct a as [w|i|i b|i|i o|j|d]; cbn in H.
  - by simplify_eq.
  - destruct (callers l !! i) as [c|]; [|done]. cbn in H. destruct (caller_step _ _ _ _ c) as [[[]]|]; by simplify_eq/=.
  - destruct (watcher_step b _ i); by simplify_eq/=.
  - destruct (callers l !! i) as [c|]; by simplify_eq/=.
  - destruct (callers l !! i) as [c|]; [|done]. cbn in H. destruct (rel c); by simplify_eq/=.
  - unfold finish_step in H. destruct (finishers l !! j) as [f|]; [|done]. cbn in H.
    destruct (callers l !! f_target f) as [c|]; [|done]. cbn in H. destruct (rel c) as [r|]; [|done]. cbn in H.
    destruct (f_pc f); repeat case_match; simplify_eq/=; try done. unfold installLimit. by destruct (_ || _).
  - case_match; by simplify_eq.
Qed.

Lemma run_limits l sched l' : run l sched = Some l' -> minLimit l' = minLimit l /\ maxLimit l' = maxLimit l.
Proof.
  revert l. induction sched as [|a sched IH]; intros l H; cbn in H; [by simplify_eq|].
  destruct (sys_step l a) as [l1|] eqn:E; [|done]. cbn in H. apply IH in H as [-> ->]. by eapply sys_step_limits.
Qed.

(** ** Sleeping for ever *)

(** Caller [i] sleeps unnotified and nothing that is under way will broadcast. *)
Definition stranded (l : Limiter) (i : nat) : Prop :=
  (exists c, callers l !! i = Some c /\ c_pc c = PSleep false) /\
  Forall (fun f => f_pc f = FDone) (finishers l) /\
  Forall (fun c => watch c <> WRun /\ (c_pc c = PSleep false \/ returned (c_pc c) = true)) (callers l).

(** No new call, no release of another slot. *)
Definition internal (a : action) : Prop := match a with ACall _ | ARelease _ _ => False | _ => True end.

Lemma stranded_step l i a l' : stranded l i -> internal a -> sys_step l a = Some l' ->
  stranded l' i /\ inflight l' = inflight l /\ limit l' = limit l.
Proof.
  intros ((c0 & Hc0 & Hp0) & Hf & Hw) Ha H. destruct a as [w|k|k b|k|k o|j|d]; cbn in Ha, H; try done.
  - destruct (callers l !! k) as [c|] eqn:Ec; [|done]. cbn in H.
    destruct (Forall_lookup_1 _ _ _ _ Hw Ec) as [_ Hc]. unfold caller_step in H.
    destruct (c_pc c); cbn in *; destruct Hc; by simplify_eq.
  - unfold watcher_step in H. destruct (callers l !! k) as [c|] eqn:Ec; [|done]. cbn in H.
    destruct (Forall_lookup_1 _ _ _ _ Hw Ec) as [Hc _]. by destruct (watch c).
  - destruct (callers l !! k) as [c|] eqn:Ec; [|done]. cbn in H. simplify_eq. unfold stranded. cbn. split_and!; try done.
    + destruct (decide (i = k)) as [->|Hne]; [|exists c0; by rewrite list_lookup_insert_ne].
      simplify_eq. eexists. split; [apply list_lookup_insert_eq; by eapply lookup_lt_Some|done].
    + apply Forall_insert; [done|]. exact (Forall_lookup_1 _ _ _ _ Hw Ec).
  - unfold finish_step in H. destruct (finishers l !! j) as [f|] eqn:Ef; [|done]. cbn in H.
    destruct (callers l !! f_target f) as [c|]; [|done]. cbn in H. destruct (rel c) as [r|]; [|done]. cbn in H.
    by rewrite (Forall_lookup_1 _ _ _ _ Hf Ef) in H.
  - case_match; [|done]. simplify_eq. unfold stranded. cbn. split_and!; try done. by exists c0.
Qed.

Lemma stranded_run l i sched l' : stranded l i -> Forall internal sched -> run l sched = Some l' ->
  stranded l' i /\ inflight l' = inflight l /\ limit l' = limit l.
Proof.
  intros Hs Ha. revert l Hs. induction Ha as [|a sched Ha _ IH]; intros l Hs H; cbn in H; [by simplify_eq|].
  destruct (sys_step l a) as [l1|] eqn:E; [|done]. cbn in H. destruct (stranded_step _ _ _ _ Hs Ha E) as (G1 & G2 & G3).
  apply IH in H as (K1 & K2 & K3); [|done]. by rewrite K2, K3.
Qed.

(** C19: Admission.  In every interleaving of calls, releases (a [ReleaseFunc] may be called any
    number of times, by any goroutine), cancellations and clock readings, and for any strategy,
    even one that returns NaN or nonsense: [inflight] is exactly the number of admitted requests
    that have not been released, it is between 0 and [MaxLimit], the limit in force is between
    [MinLimit] and [MaxLimit], and a [Wait] returns an error only when its context has ended. *)
Theorem concurrency_limiter_bound s cfg l : reachable s cfg l ->
  inflight l = holders l /\ 0 <= inflight l <= MaxLimit (normalise cfg) /\
  MinLimit (normalise cfg) <= limit l <= MaxLimit (normalise cfg) /\
  (forall i c, callers l !! i = Some c -> c_pc c = PErr -> ctx_done c = true).
Proof.
  intros Hr. pose proof (limiter_reachable_inv _ _ _ Hr) as (H1 & H2 & H3 & H4 & H5). destruct Hr as (now & sched & Hr).
  apply run_limits in Hr as [Hmin Hmax]. cbn [minLimit maxLimit newLimiter] in Hmin, Hmax. rewrite <- Hmin, <- Hmax.
  pose proof (tally_nonneg owns (callers l) owns_nonneg). pose proof (tally_nonneg releasing (finishers l) releasing_nonneg).
  unfold holders in *. split_and!; try done; try lia.
  intros i c Hc Hp. pose proof (Forall_lookup_1 _ _ _ _ H5 Hc) as Hok. unfold caller_ok in Hok. rewrite Hp in Hok. apply Hok.
Qed.

(** Termination.  From every state, a caller that is scheduled alone (the wait
    mutex is free, or its own) is done after at most 24 of its steps: it has been admitted or
    shed, has returned the error of its context, or sleeps on the condition variable with the
    mutex free.  Neither the compare-and-swap loop of [Acquire] nor the loop of [Wait] spins. *)
Theorem concurrency_call_terminates l i c : callers l !! i = Some c ->
  waitMu l = in_critical (c_pc c) ->
  exists k l' c', (k <= 24)%nat /\ run l (replicate k (ARun i)) = Some l' /\
    callers l' !! i = Some c' /\ settled (c_pc c') = true /\ waitMu l' = false.
Proof.
  intros Hc Hmu. destruct (solo_settles (inflight l) (limit l) (clk l) c) as (n' & c' & Hs & Hset).
  rewrite <- Hmu in Hs. destruct (solo_run _ _ _ _ _ _ _ Hc Hs) as (k & l' & Hk & Hr & Hc' & _ & Hm).
  by exists k, l', c'.
Qed.

End Limiter.

(** ** Runs *)

(** One slot: caller 0 takes it; caller 1 waits, and reaches the registration on the condition
    variable; caller 0 releases, and its [Broadcast] finds nobody registered; the context of
    caller 1 ends, and the [Broadcast] of its watcher finds nobody registered either; then
    caller 1 registers and sleeps. *)
Definition one_slot : Config := mkConfig 1 1 1 1.5%float.

Definition lost_wakeup_schedule : list action :=
  [ACall false] ++ replicate 5 (ARun 0) ++ [ACall true] ++ replicate 14 (ARun 1) ++
  [ARelease 0 (mkOutcome 5 false)] ++ replicate 7 (AFinish 0) ++ [ACancel 1; AWatch 1 true] ++ replicate 2 (ARun 1).

(** Lost wake-up.  [finish] and the watcher broadcast without holding [waitMu], so the
    re-check under the lock does not close the window before the registration in [cond.Wait]:
    there is a run of two goroutines after which the slot is free ([inflight] is 0 and the limit
    1), the context of the waiting call has ended and both broadcasts have happened, and yet,
    whatever is scheduled from then on short of a new call or another release, that call to
    [Wait] never returns. *)
Theorem concurrency_wait_lost_wakeup : exists l,
  reachable (NewAIMD one_slot) one_slot l /\ inflight l = 0 /\ limit l = 1 /\
  (exists c, callers l !! 1%nat = Some c /\ ctx_done c = true /\ watch c = WDone) /\
  (forall sched l', Forall internal sched -> run l sched = Some l' ->
     exists c, callers l' !! 1%nat = Some c /\ c_pc c = PSleep false /\ inflight l' < limit l').
Proof.
  destruct (run (newLimiter (NewAIMD one_slot) (normalise one_slot) 0) lost_wakeup_schedule) as [l|] eqn:E;
    [|by vm_compute in E].
  exists l. split; [by exists 0, lost_wakeup_schedule|]. vm_compute in E. simplify_eq. split_and!; try done; [by eexists|].
  intros sched l' Ha Hr. apply (stranded_run _ 1) in Hr as (((c & Hc & Hp) & _) & Hi & Hl); [|unfold stranded; split_and!|done].
  - exists c. by rewrite Hi, Hl.
  - by eexists.
  - by repeat constructor.
  - repeat apply Forall_cons_2; [..|by apply Forall_nil_2]; (split; [done|cbn; auto]).
Qed.

(** A run in which both callers are admitted one after the other and the slot is released twice. *)
Definition handover_schedule : list action :=
  [ACall false] ++ replicate 5 (ARun 0) ++ [ACall true] ++ replicate 16 (ARun 1) ++
  [ARelease 0 (mkOutcome 5 false); ARelease 0 (mkOutcome 0 true)] ++ replicate 7 (AFinish 0) ++ [AFinish 1] ++ replicate 7 (ARun 1).

Definition run_from_start (sched : list action) : Limiter :=
  default (newLimiter (NewAIMD one_slot) one_slot 0) (run (newLimiter (NewAIMD one_slot) (normalise one_slot) 0) sched).

Lemma concurrency_limiter_bound_witness : let l := run_from_start handover_schedule in
  inflight l = 1 /\ inflight l = holders l /\ inflight l <= MaxLimit (normalise one_slot).
Proof.
  intros l. assert (reachable (NewAIMD one_slot) one_slot l) as Hr by (exists 0, handover_schedule; vm_compute; reflexivity).
  destruct (concurrency_limiter_bound _ _ _ Hr) as (H1 & H2 & _). split_and!; [vm_compute; reflexivity|exact H1|apply H2].
Defined.

(** A waiting call, at the start of its loop. *)
Definition waiting_schedule : list action :=
  [ACall false] ++ replicate 5 (ARun 0) ++ [ACall true] ++ replicate 5 (ARun 1).

Lemma concurrency_call_terminates_witness :
  let l := run_from_start waiting_schedule in
  exists k l' c', (k <= 24)%nat /\ run l (replicate k (ARun 1)) = Some l' /\
    callers l' !! 1%nat = Some c' /\ settled (c_pc c') = true /\ waitMu l' = false.
Proof.
  intros l. destruct (callers l !! 1%nat) as [c|] eqn:Ec; [|by vm_compute in Ec].
  apply (concurrency_call_terminates l 1 c); [exact Ec|].
  vm_compute in Ec. simplify_eq. vm_compute. reflexivity.
Defined.
