(* ===== verification/LoadShed.v ===== *)
(** * The CoDel load shedder ([loadshed/loadshed.go]).

    Admission by the sojourn time of completed requests, with a priority gate.
    [Admit] and [record] are critical sections of one mutex, so a history is a
    sequence of them.  The loop of [shouldDrop] runs on fuel; what is shed is
    stated for every configuration and every fuel, and that one turn of the
    loop is enough is a theorem: for an interval of at least 2^k nanoseconds
    along any history of fewer than 2^(2k) - 1 calls (k at most 26; the default
    interval has k = 26, one millisecond k = 19). *)

From Stdlib Require Import Floats.
From S2P Require Import Prelude Float64 Float64Round Float64Sqrt.
Open Scope Z_scope.

Definition DefaultTarget : duration := 5 * Millisecond.
Definition DefaultInterval : duration := 100 * Millisecond.

Definition PriorityLow : Z := -1.
Definition PriorityDefault : Z := 0.
Definition PriorityHigh : Z := 1.
Definition PriorityCritical : Z := 2.
Definition priorityCeil : Z := PriorityCritical.
Definition defaultPriorityStep : Z := 8.

Record Config := mkConfig { Target : duration; Interval : duration; PriorityStep : Z }.

Record Shedder := mkShedder {
  target : duration;
  interval : duration;
  priorityStep : Z;
  dropping : bool;
  firstAbove : time;
  dropNext : time;
  count : Z;
  lastSojourn : duration;
}.

Definition New (cfg : Config) : Shedder :=
  mkShedder
    (if Target cfg <=? 0 then DefaultTarget else Target cfg)
    (if Interval cfg <=? 0 then DefaultInterval else Interval cfg)
    (if PriorityStep cfg <? 1 then defaultPriorityStep else PriorityStep cfg)
    false zero_time zero_time 0 0.

(** The value stored by [WithPriority], if any. *)
Definition PriorityFromContext (ctx : option Z) : Z := default PriorityDefault ctx.

(** ** The control law *)

Definition controlLaw (s : Shedder) (now : time) : time :=
  let inv := (one / PrimFloat.sqrt (f64_of_Z (count s)))%float in
  time_add now (f64_to_int64 (f64_of_Z (interval s) * inv)%float).

Definition threshold (s : Shedder) : Z :=
  let t := PriorityDefault + Z.quot (count s - 1) (priorityStep s) in
  if priorityCeil <? t then priorityCeil else t.

Definition priorityGate (s : Shedder) (prio : Z) : bool := prio <? threshold s.

Definition with_state (s : Shedder) (d : bool) (next : time) (c : Z) : Shedder :=
  mkShedder (target s) (interval s) (priorityStep s) d (firstAbove s) next c (lastSojourn s).

(** [for !now.Before(s.dropNext) { ... }]; [None]: the fuel did not suffice. *)
Fixpoint advance (fuel : nat) (s : Shedder) (now : time) : option Shedder :=
  if Before now (dropNext s) then Some s
  else
    match fuel with
    | O => None
    | S fuel =>
        let s := with_state s (dropping s) (dropNext s) (count s + 1) in
        advance fuel (with_state s (dropping s) (controlLaw s now) (count s)) now
    end.

Definition shouldDrop (fuel : nat) (s : Shedder) (now : time) (prio : Z) : option (bool * Shedder) :=
  let standingTooLong := negb (IsZero (firstAbove s)) && negb (Before now (time_add (firstAbove s) (interval s))) in
  if negb (dropping s) then
    if negb standingTooLong then Some (false, s)
    else
      let s := with_state s true (time_add now (interval s)) 1 in
      Some (priorityGate s prio, s)
  else if IsZero (firstAbove s) then Some (false, with_state s false (dropNext s) 0)
  else
    s ← advance fuel s now;
    Some (priorityGate s prio, s).

(** [now] is the reading of [record]. *)
Definition record (s : Shedder) (sojourn : duration) (now : time) : Shedder :=
  let fa := if target s <=? sojourn then (if IsZero (firstAbove s) then now else firstAbove s) else zero_time in
  mkShedder (target s) (interval s) (priorityStep s) (dropping s) fa (dropNext s) (count s) sojourn.

(** ** Admissions *)

Record admission := mkAdm { start : time; fired : bool }.

(** A shedder and the admissions it has handed out. *)
Record system := mkSys { shedder : Shedder; admissions : list admission }.

(** [Admit]: whether the request is accepted. *)
Definition Admit (fuel : nat) (sys : system) (now : time) (ctx : option Z) : option (bool * system) :=
  '(drop, s) ← shouldDrop fuel (shedder sys) now (PriorityFromContext ctx);
  Some (negb drop, mkSys s (if drop then admissions sys else admissions sys ++ [mkAdm now false])).

(** The [done] of the [i]-th admission; the clock is read by [Since] and again by [record]. *)
Definition done (sys : system) (i : nat) (t_since t_record : time) : system :=
  match admissions sys !! i with
  | Some a =>
      if fired a then sys
      else mkSys (record (shedder sys) (time_sub t_since (start a)) t_record)
             (<[i := mkAdm (start a) true]> (admissions sys))
  | None => sys
  end.

(** [AdmitSimple]: the admission is recorded at once. *)
Definition AdmitSimple (fuel : nat) (sys : system) (now t_since t_record : time) (ctx : option Z) : option (bool * system) :=
  match Admit fuel sys now ctx with
  | Some (ok, sys') => Some (ok, if ok then done sys' (length (admissions sys)) t_since t_record else sys')
  | None => None
  end.

Definition Dropping (s : Shedder) : bool := dropping s.
Definition DropCount (s : Shedder) : Z := count s.
Definition LastSojourn (s : Shedder) : duration := lastSojourn s.

(** ** Histories *)

Inductive op :=
| OpAdmit (now : time) (ctx : option Z)
| OpDone (i : nat) (t_since t_record : time).

(** A completed sojourn, and the instant at which it is recorded. *)
Notation sample := (time * duration)%type.

(** The sample that a call of [done] records. *)
Definition sampled (sys : system) (i : nat) (t_since t_record : time) : list sample :=
  match admissions sys !! i with
  | Some a => if fired a then [] else [(t_record, time_sub t_since (start a))]
  | None => []
  end.

(** The decision or the sample of one operation. *)
Definition exec (fuel : nat) (sys : system) (o : op) : option (list bool * list sample * system) :=
  match o with
  | OpAdmit now ctx => '(ok, sys) ← Admit fuel sys now ctx; Some ([ok], [], sys)
  | OpDone i t1 t2 => Some ([], sampled sys i t1 t2, done sys i t1 t2)
  end.

(** The decisions and the samples of a history, in order. *)
Fixpoint run (fuel : nat) (sys : system) (os : list op) : option (list bool * list sample * system) :=
  match os with
  | [] => Some ([], [], sys)
  | o :: os' =>
      '(ds, xs, sys) ← exec fuel sys o;
      '(ds', xs', sys) ← run fuel sys os';
      Some (ds ++ ds', xs ++ xs', sys)
  end.

Definition init (cfg : Config) : system := mkSys (New cfg) [].

(** ** Termination of the control law *)

(** Intervals of [2^k] nanoseconds or more, up to 104 days. *)
Definition interval_ok (k : Z) (s : Shedder) : Prop := 0 <= k <= 26 /\ 2 ^ k <= interval s < 2 ^ 53.

Lemma controlLaw_later k s now : interval_ok k s -> 1 <= count s < 2 ^ (2 * k) -> now < controlLaw s now.
Proof.
  intros [Hk Hi] Hc. unfold controlLaw, time_add.
  pose proof (interval_over_sqrt (interval s) (count s) k Hk Hi Hc). lia.
Qed.

(** One turn of the loop at most. *)
Lemma advance_once k fuel s now : interval_ok k s -> 0 <= count s < 2 ^ (2 * k) - 1 ->
  advance (S fuel) s now =
    Some (if Before now (dropNext s) then s
          else let s := with_state s (dropping s) (dropNext s) (count s + 1) in
               with_state s (dropping s) (controlLaw s now) (count s)).
Proof.
  intros Hi Hc. cbn [advance]. destruct (Before now (dropNext s)) eqn:E; [done|]. cbn zeta.
  set (s1 := with_state s (dropping s) (dropNext s) (count s + 1)).
  pose proof (controlLaw_later k s1 now Hi ltac:(cbn [count s1 with_state]; lia)) as Hlt.
  assert (Before now (dropNext (with_state s1 (dropping s1) (controlLaw s1 now) (count s1))) = true) as Hb
    by (unfold Before; cbn [dropNext with_state]; by apply Z.ltb_lt).
  destruct fuel; cbn [advance]; by rewrite Hb.
Qed.

(** The loop changes the schedule and the count only. *)
Lemma advance_keeps fuel s now s' : advance fuel s now = Some s' ->
  target s' = target s /\ interval s' = interval s /\ priorityStep s' = priorityStep s /\
  firstAbove s' = firstAbove s /\ dropping s' = dropping s /\ count s <= count s'.
Proof.
  revert s. induction fuel as [|fuel IH]; intros s; cbn [advance]; destruct (Before now (dropNext s)); intros H;
    simplify_eq; try (split_and!; (done || lia)).
  apply IH in H as (H1 & H2 & H3 & H4 & H5 & H6). cbn in *. split_and!; (done || lia).
Qed.

(** What a critical section of [Admit] does if it returns. *)
Lemma shouldDrop_spec fuel s now prio d s' : shouldDrop fuel s now prio = Some (d, s') ->
  target s' = target s /\ interval s' = interval s /\ priorityStep s' = priorityStep s /\ firstAbove s' = firstAbove s /\
  (dropping s = true -> IsZero (firstAbove s) = false -> dropping s' = true /\ count s <= count s') /\
  (d = true -> IsZero (firstAbove s) = false /\ dropping s' = true /\ prio < threshold s' /\
     (dropping s = false -> time_add (firstAbove s) (interval s) <= now)) /\
  (d = false -> dropping s' = true -> threshold s' <= prio).
Proof.
  unfold shouldDrop. destruct (dropping s) eqn:Ed; cbn [negb]; destruct (IsZero (firstAbove s)) eqn:Ez; cbn [negb andb].
  - intros [= <- <-]. by split_and!.
  - destruct (advance fuel s now) as [s1|] eqn:E; [|done]. cbn [mbind option_bind]. intros [= <- <-].
    apply advance_keeps in E as (H1 & H2 & H3 & H4 & H5 & H6). rewrite Ed in H5. unfold priorityGate.
    split_and!; try done; [intros Hd%Z.ltb_lt; by split_and!|intros Hd%Z.ltb_ge; done].
  - intros [= <- <-]. split_and!; try done. intros _ Hd. congruence.
  - destruct (Before now (time_add (firstAbove s) (interval s))) eqn:Eb; cbn [negb]; intros [= <- <-].
    + split_and!; try done. intros _ Hd. congruence.
    + unfold priorityGate. cbn [target interval priorityStep firstAbove dropping count with_state].
      split_and!; try done; [|intros Hd%Z.ltb_ge; done].
      intros Hd%Z.ltb_lt. split_and!; try done. intros _. by apply Z.ltb_ge.
Qed.

(** It returns, and counts one more drop at most. *)
Lemma shouldDrop_total k fuel s now prio : interval_ok k s -> 0 <= count s < 2 ^ (2 * k) - 1 ->
  exists d s', shouldDrop (S fuel) s now prio = Some (d, s') /\ 0 <= count s' <= Z.max 1 (count s + 1).
Proof.
  intros Hi Hc. unfold shouldDrop. destruct (dropping s); cbn [negb].
  - destruct (IsZero (firstAbove s)); [eexists _, _; split; [done|cbn; lia]|].
    rewrite (advance_once k) by done. cbn [mbind option_bind]. eexists _, _. split; [done|].
    case_match; cbn; lia.
  - destruct (negb _ && negb _); (eexists _, _; split; [done|cbn; lia]).
Qed.

(** ** Invariants of histories *)





(** Progress: the count grows by one a call. *)
Definition sys_ok (k : Z) (sys : system) (n : Z) : Prop := interval_ok k (shedder sys) /\ 0 <= count (shedder sys) <= n.

Lemma exec_ok k fuel sys o n : sys_ok k sys n -> n < 2 ^ (2 * k) - 1 ->
  exists ds ys sys', exec (S fuel) sys o = Some (ds, ys, sys') /\ sys_ok k sys' (n + 1).
Proof.
  intros (Hi & Hc) Hn. destruct o as [now ctx|i t1 t2]; cbn [exec].
  - destruct (shouldDrop_total k fuel (shedder sys) now (PriorityFromContext ctx) Hi ltac:(lia)) as (d & s' & E & Hcn).
    unfold Admit. rewrite E. cbn. eexists _, _, _. split; [done|].
    apply shouldDrop_spec in E as (_ & Hiv & _). unfold sys_ok, interval_ok in *. cbn [shedder]. rewrite Hiv. split; [done|lia].
  - eexists _, _, _. split; [done|]. unfold done, sys_ok. destruct (admissions sys !! i) as [a|]; [|split; [done|lia]].
    destruct (fired a); (split; [done|cbn; lia]).
Qed.

Lemma run_ok k fuel os sys n : sys_ok k sys n -> n + zlength os < 2 ^ (2 * k) ->
  exists ds ys sys', run (S fuel) sys os = Some (ds, ys, sys') /\ sys_ok k sys' (n + zlength os).
Proof.
  revert sys n. induction os as [|o os IH]; intros sys n Hok Hn.
  - exists [], [], sys. zlen. by rewrite Z.add_0_r.
  - zlen. pose proof (zlength_nonneg os). destruct (exec_ok k fuel sys o n Hok ltac:(lia)) as (ds & ys & sys1 & E & Hok1).
    destruct (IH sys1 (n + 1) Hok1 ltac:(lia)) as (ds2 & ys2 & sys2 & E2 & Hok2).
    exists (ds ++ ds2), (ys ++ ys2), sys2. cbn [run]. rewrite E. cbn [mbind option_bind]. rewrite E2. cbn.
    split; [done|]. by replace (n + (1 + zlength os)) with (n + 1 + zlength os) by lia.
Qed.

Lemma init_ok k cfg : 0 <= k <= 26 -> 2 ^ k <= interval (New cfg) < 2 ^ 53 -> sys_ok k (init cfg) 0.
Proof. intros Hk Hi. by split. Qed.

(** Termination.  With an interval (after the defaults) between 2^k ns and 2^53 ns, every history of
    fewer than 2^(2k) calls runs to its end: the loop of the control law takes
    one turn at most in every call, because [interval / sqrt(count)], computed in binary64, is at
    least one nanosecond. *)
Theorem shedder_terminates k cfg os : 0 <= k <= 26 -> 2 ^ k <= interval (New cfg) < 2 ^ 53 -> zlength os < 2 ^ (2 * k) ->
  exists ds xs sys, run 1 (init cfg) os = Some (ds, xs, sys) /\ 0 <= count (shedder sys) <= zlength os.
Proof.
  intros Hk Hi Hn. destruct (run_ok k 0 os (init cfg) 0 (init_ok k cfg Hk Hi) ltac:(lia)) as (ds & xs & sys & E & (_ & Hc)).
  exists ds, xs, sys. split; [done|lia].
Qed.

(** The loop of a shedder with an interval of one nanosecond stalls: from the second drop on
    [interval / sqrt(count)] is truncated to zero, the next drop is due at once, and a thousand turns
    do not end the loop, which runs under the mutex. *)
Theorem tiny_interval_stalls :
  let s := with_state (New (mkConfig 1 1 0)) true 10 1 in advance 1000 s 10 = None.
Proof. vm_compute. reflexivity. Qed.


(** Recovery.  In any state, after a sample below the target the next request is admitted
    whatever its priority, and the controller is not dropping. *)
Theorem shedder_recovers fuel s sojourn t now prio : sojourn < target s ->
  exists s', shouldDrop fuel (record s sojourn t) now prio = Some (false, s') /\ dropping s' = false.
Proof.
  intros Hs. unfold shouldDrop, record. rewrite (proj2 (Z.leb_gt _ _)) by lia. cbn [dropping firstAbove].
  change (IsZero zero_time) with true. cbn [negb andb]. destruct (dropping s) eqn:Ed; cbn [negb]; by eexists.
Qed.

(** ** Starvation *)

(** Every admission has been recorded and the controller is dropping requests of priority [p]. *)
Definition starved (p : Z) (sys : system) : Prop :=
  interval_ok 26 (shedder sys) /\ 1 <= priorityStep (shedder sys) /\ dropping (shedder sys) = true /\
  IsZero (firstAbove (shedder sys)) = false /\ 1 <= count (shedder sys) /\ p < threshold (shedder sys) /\
  Forall (fun a => fired a = true) (admissions sys).

Lemma threshold_mono s s' : 1 <= priorityStep s -> priorityStep s' = priorityStep s -> 1 <= count s <= count s' ->
  threshold s <= threshold s'.
Proof.
  intros Hp E Hc. unfold threshold. rewrite E.
  assert (Z.quot (count s - 1) (priorityStep s) <= Z.quot (count s' - 1) (priorityStep s)) by (apply Z.quot_le_mono; lia).
  repeat case_cmp; lia.
Qed.

(** Requests of priority [p] at most; [done] may still be called on any admission. *)
Definition low (p : Z) (o : op) : Prop := match o with OpAdmit _ ctx => PriorityFromContext ctx <= p | OpDone _ _ _ => True end.

Lemma starved_exec fuel p sys o n : starved p sys -> count (shedder sys) <= n < 2 ^ 52 - 1 -> low p o ->
  exists ds xs sys', exec (S fuel) sys o = Some (ds, xs, sys') /\ starved p sys' /\
    count (shedder sys') <= n + 1 /\ Forall (fun ok => ok = false) ds.
Proof.
  intros (H1 & H2 & H3 & H4 & H5 & H6 & H7) Hn Hl. destruct o as [now ctx|i t1 t2]; cbn [exec low] in *.
  - unfold Admit. destruct (shouldDrop_total 26 fuel (shedder sys) now (PriorityFromContext ctx) H1 ltac:(lia))
      as (d & s' & E & Hc'). rewrite E. apply shouldDrop_spec in E as (_ & Hiv & Hps & Hf & Hcn & _ & Ha).
    destruct (Hcn H3 H4) as [Hdr Hc]. cbn.
    pose proof (threshold_mono _ s' H2 Hps ltac:(lia)) as Hth.
    assert (d = true) as -> by (destruct d; [done|]; specialize (Ha eq_refl Hdr); lia).
    eexists _, _, _. split; [done|]. unfold starved, interval_ok in *. cbn. rewrite Hiv, Hps, Hf.
    split_and!; try done; try lia. by apply Forall_singleton.
  - exists [], [], sys. assert (done sys i t1 t2 = sys /\ sampled sys i t1 t2 = []) as [-> ->].
    { unfold done, sampled. destruct (admissions sys !! i) as [a|] eqn:Ea; [|done].
      by rewrite (Forall_lookup_1 _ _ _ _ H7 Ea). }
    unfold starved. split_and!; (done || lia).
Qed.

Lemma starved_run fuel p os sys n : starved p sys -> count (shedder sys) <= n -> n + zlength os < 2 ^ 52 - 1 -> Forall (low p) os ->
  exists ds xs sys', run (S fuel) sys os = Some (ds, xs, sys') /\ starved p sys' /\ Forall (fun ok => ok = false) ds.
Proof.
  intros Hs Hc Hn Hl. revert sys n Hs Hc Hn. induction Hl as [|o os Ho _ IH]; intros sys n Hs Hc Hn.
  - by exists [], [], sys.
  - zlen. pose proof (zlength_nonneg os).
    destruct (starved_exec fuel p sys o n Hs ltac:(lia) Ho) as (ds & xs & sys1 & E & Hs1 & Hc1 & Hd1).
    destruct (IH sys1 (n + 1) Hs1 Hc1 ltac:(lia)) as (ds2 & xs2 & sys2 & E2 & Hs2 & Hd2).
    exists (ds ++ ds2), (xs ++ xs2), sys2. cbn [run]. rewrite E. cbn [mbind option_bind]. rewrite E2. cbn.
    split_and!; try done. by apply Forall_app.
Qed.

(** Eleven requests without a priority, 100 ms apart, each of which takes 10 ms if it is admitted. *)
Definition slow_traffic : list op :=
  concat (map (fun i => let t := Z.of_nat i * (100 * Millisecond) in
                        [OpAdmit t None; OpDone i (t + 10 * Millisecond) (t + 10 * Millisecond)]) (seq 0 11)).

(** Starvation.  The shedder with the default configuration, after ten requests without a
    priority that took 10 ms each, 100 ms apart, sheds the eleventh and every later request of
    default or low priority, for ever: a shed request records no sojourn, so nothing can bring the controller below the
    target again.  The queue it protects has long been empty. *)
Theorem shedder_never_recovers : exists ds xs sys,
  run 1 (init (mkConfig 0 0 0)) slow_traffic = Some (ds, xs, sys) /\
  forall os, Forall (low PriorityDefault) os -> zlength os < 2 ^ 51 ->
    exists ds' xs' sys', run 1 sys os = Some (ds', xs', sys') /\ Forall (fun ok => ok = false) ds'.
Proof.
  destruct (run 1 (init (mkConfig 0 0 0)) slow_traffic) as [[[ds xs] sys]|] eqn:E; [|by vm_compute in E].
  exists ds, xs, sys. split; [reflexivity|]. intros os Hl Hn.
  assert (starved PriorityDefault sys /\ count (shedder sys) <= 100) as [Hs Hc].
  { vm_compute in E. injection E as <- <- <-. unfold starved, interval_ok. cbn. split_and!; try done; try lia. by repeat constructor. }
  destruct (starved_run 0 PriorityDefault os sys 100 Hs Hc ltac:(lia) Hl) as (ds' & xs' & sys' & E' & _ & Hd).
  exists ds', xs', sys'. split; [exact E'|exact Hd].
Qed.

(** ** Witnesses *)

Lemma shedder_terminates_witness : exists ds xs sys,
  run 1 (init (mkConfig 0 0 0)) slow_traffic = Some (ds, xs, sys) /\ 0 <= count (shedder sys) <= 22.
Proof. apply (shedder_terminates 26 (mkConfig 0 0 0) slow_traffic); by vm_compute. Defined.



Lemma shedder_recovers_witness :
  let s := mkShedder 5 100 8 true 50 60 4 9 in
  exists s', shouldDrop 0 (record s 3 70) 80 PriorityLow = Some (false, s') /\ dropping s' = false.
Proof. intros s. apply (shedder_recovers 0 s 3 70 80 PriorityLow). reflexivity. Defined.
