(* ===== verification/Pipeline.v ===== *)
(** * The resilience pipeline ([pipeline/pipeline.go], [pipeline/attempt_budget.go]).

    Stages wrap an operation that acts on a world [W] (the components' states)
    and may panic; [Build] puts them into the canonical order.  The components
    a stage drives are given by their operations on [W]. *)

From Stdlib Require Import Floats Sorting.Sorted.
From stdpp Require Import sorting.
From S2P Require Import Prelude Float64 Ratelimit Retry LimitStrategy Concurrency.
Open Scope Z_scope.

(** ** Contexts, errors, calls *)

(** What the pipeline uses of a context: its deadline, its priority, the value a key function reads. *)
Record ctx := mkCtx { deadline : option time; priority : option Z; val : string }.

(** [context.WithDeadline]: a parent's earlier deadline is kept. *)
Definition WithDeadline (c : ctx) (t : time) : ctx :=
  mkCtx (Some (match deadline c with Some d => if Before d t then d else t | None => t end)) (priority c) (val c).

Definition WithTimeout (c : ctx) (now : time) (d : duration) : ctx := WithDeadline c (time_add now d).

Inductive error :=
| ErrLoadShed
| PipelineRateLimitError (RetryAfter : duration)
| ErrConcurrencyLimited
| CtxDeadlineExceeded
| ErrMaxAttemptsExceeded (last : option error)
| Other (msg : string).

(** [errors.Is(err, ErrRateLimited)]. *)
Definition is_rate_limited (e : error) : bool := match e with PipelineRateLimitError _ => true | _ => false end.

Notation call W := (ctx -> W -> outcome (option error) * W).
Notation stage W := (call W -> call W).

(** ** Kinds *)

Inductive stageKind :=
| kindLoadShed | kindRateLimit | kindBulkhead | kindConcurrency | kindTimeout | kindCircuitBreaker | kindRetry | kindCustom.

#[export] Instance stageKind_eq_dec : EqDecision stageKind.
Proof. solve_decision. Defined.

(** The value of the constant ([iota]). *)
Definition rank (k : stageKind) : Z :=
  match k with
  | kindLoadShed => 0 | kindRateLimit => 1 | kindBulkhead => 2 | kindConcurrency => 3
  | kindTimeout => 4 | kindCircuitBreaker => 5 | kindRetry => 6 | kindCustom => 7
  end.

Definition all_kinds : list stageKind :=
  [kindLoadShed; kindRateLimit; kindBulkhead; kindConcurrency; kindTimeout; kindCircuitBreaker; kindRetry; kindCustom].

(** ** Key functions *)

Definition KeyByValue (key : string) : ctx -> string := fun _ => key.

Definition KeyFromContext (extract : ctx -> string) (defaultKey : string) : ctx -> string :=
  fun c => if (String.length (extract c) =? 0)%nat then defaultKey else extract c.

(** ** A retry policy as a stage

    [Policy.Do] around an operation on a world [V]. *)

Section retry_stage.
Context {V : Type}.

(** What [Do] uses besides the operation: the budget, the context's state, its timer and the callback. *)
Record retry_ops := mkRetryOps {
  r_record : V -> V;
  r_can : V -> bool * V;
  r_err : ctx -> V -> option error;
  r_sleep : ctx -> duration -> V -> option error * V;
  r_notify : Z -> error -> duration -> V -> V;
}.

Fixpoint policy_loop (p : Policy error) (ops : retry_ops) (fn : call V) (turns : nat) (attempt : Z) (lastErr : option error)
    (c : ctx) (v : V) : outcome (option error) * V :=
  match turns with
  | O => (Ok (Some (ErrMaxAttemptsExceeded lastErr)), v)
  | S turns =>
      match r_err ops c v with
      | Some e => (Ok (Some e), v)
      | None =>
          let '(ok, v) := if (0 <? attempt) && HasBudget p then r_can ops v else (true, v) in
          if negb ok then (Ok lastErr, v)
          else
            match fn c v with
            | (Panic m, v) => (Panic m, v)
            | (Ok None, v) => (Ok None, v)
            | (Ok (Some e), v) =>
                if attempt =? maxAttempts p - 1 then (Ok (Some (ErrMaxAttemptsExceeded (Some e))), v)
                else if negb (shouldRetry p (Some e)) then (Ok (Some e), v)
                else
                  let wait := delay p attempt in
                  let v := if OnRetry p then r_notify ops attempt e wait v else v in
                  let '(err, v) := if 0 <? wait then r_sleep ops c wait v else (None, v) in
                  match err with
                  | Some e => (Ok (Some e), v)
                  | None => policy_loop p ops fn turns (attempt + 1) (Some e) c v
                  end
            end
      end
  end.

Definition policy_do (p : Policy error) (ops : retry_ops) : stage V := fun fn c v =>
  let v := if HasBudget p then r_record ops v else v in
  policy_loop p ops fn (Z.to_nat (maxAttempts p)) 0 None c v.

End retry_stage.
Arguments retry_ops : clear implicits.

(** The same operations in a world that also holds a counter. *)
Definition lift_ops {V} (ops : retry_ops V) : retry_ops (V * Z) :=
  mkRetryOps (fun '(v, n) => (r_record ops v, n))
    (fun '(v, n) => let '(ok, v) := r_can ops v in (ok, (v, n)))
    (fun c '(v, n) => r_err ops c v)
    (fun c d '(v, n) => let '(e, v) := r_sleep ops c d v in (e, (v, n)))
    (fun i e d '(v, n) => (r_notify ops i e d v, n)).

(** ** Attempt budgets *)

Record attemptBudgetConfig := mkBudgetCfg { perAttempt : duration; divide : bool }.

Definition AttemptBudgetOption : Type := attemptBudgetConfig -> attemptBudgetConfig.

Definition WithPerAttemptTimeout (d : duration) : AttemptBudgetOption := fun c =>
  if 0 <? d then mkBudgetCfg d (divide c) else c.

Definition WithAttemptBudgeting : AttemptBudgetOption := fun c => mkBudgetCfg (perAttempt c) true.

(** [now]: the reading of the clock in [Until]. *)
Definition remaining (c : ctx) (now : time) : option duration :=
  match deadline c with Some dl => Some (time_sub dl now) | None => None end.

(** The duration of attempt number [attemptsRun]; [None]: the overall deadline is over. *)
Definition attempt_dur (cfg : attemptBudgetConfig) (max attemptsRun : Z) (overall : option duration) : option duration :=
  let dur :=
    match overall with
    | Some r =>
        if r <=? 0 then None
        else if divide cfg then
          let left := max - (attemptsRun - 1) in
          let left := if left <? 1 then 1 else left in
          let slice := Z.quot r left in
          Some (if (0 <? slice) && ((r =? 0) || (slice <? r)) then slice else r)
        else Some r
    | None => Some 0
    end in
  dur ← dur;
  Some (if (0 <? perAttempt cfg) && ((dur =? 0) || (perAttempt cfg <? dur)) then perAttempt cfg else dur).

Section pipeline.
Context {W : Type}.

Record builderStage := mkStage { kind : stageKind; fn : stage W }.

Notation Builder := (list builderStage).

(** ** The stages *)

(** [h] identifies the admission; the deferred [done] runs on a panic too. *)
Definition loadshed_stage {H} (Admit : ctx -> W -> option H * W) (done : H -> W -> W) : stage W := fun next c w =>
  let '(accept, w) := Admit c w in
  match accept with
  | None => (Ok (Some ErrLoadShed), w)
  | Some h => let '(r, w) := next c w in (r, done h w)
  end.

Definition LoadShed {H} (b : Builder) (Admit : ctx -> W -> option H * W) (done : H -> W -> W) : Builder :=
  b ++ [mkStage kindLoadShed (loadshed_stage Admit done)].

Definition ratelimit_stage (Allow : string -> W -> Result * W) (keyFn : option (ctx -> string)) : stage W := fun next c w =>
  let key := match keyFn with Some f => f c | None => ""%string end in
  let '(result, w) := Allow key w in
  if Allowed result then next c w else (Ok (Some (PipelineRateLimitError (RetryAfter result))), w).

Definition RateLimit (b : Builder) (Allow : string -> W -> Result * W) (keyFn : option (ctx -> string)) : Builder :=
  b ++ [mkStage kindRateLimit (ratelimit_stage Allow keyFn)].

(** The stages of a bulkhead, a circuit breaker and a retry policy are their [Execute] and [Do]. *)
Definition BulkheadWith (b : Builder) (Execute : stage W) : Builder := b ++ [mkStage kindBulkhead Execute].
Definition CircuitBreaker (b : Builder) (Execute : stage W) : Builder := b ++ [mkStage kindCircuitBreaker Execute].
Definition Retry (b : Builder) (Do : stage W) : Builder := b ++ [mkStage kindRetry Do].
Definition Use (b : Builder) (s : stage W) : Builder := b ++ [mkStage kindCustom s].

Definition RetryPolicy (b : Builder) (p : Policy error) (ops : retry_ops W) : Builder := Retry b (policy_do p ops).

(** A nil budget leaves the policy as it is; [ops] are those of the budget that is used. *)
Definition RetryWithBudget (b : Builder) (p : Policy error) (budget : bool) (ops : retry_ops W) : Builder :=
  if budget then RetryPolicy b (mkPolicy (MaxAttempts p) (Backoff p) (RetryIf p) (OnRetry p) (MaxDelay p) true) ops
  else RetryPolicy b p ops.

(** The closure around one attempt: [ctx] is the context of the call, [attemptCtx] the one [Do] passes. *)
Definition budgeted_attempt (cfg : attemptBudgetConfig) (max : Z) (Now : W -> time * W) (ctx : ctx) (fn : call W)
  : call (W * Z) := fun attemptCtx '(w, attemptsRun) =>
  let attemptsRun := attemptsRun + 1 in
  let '(overall, w) :=
    match deadline ctx with None => (None, w) | Some _ => let '(t, w) := Now w in (remaining ctx t, w) end in
  match attempt_dur cfg max attemptsRun overall with
  | None => (Ok (Some CtxDeadlineExceeded), (w, attemptsRun))
  | Some dur =>
      if dur <=? 0 then let '(r, w) := fn attemptCtx w in (r, (w, attemptsRun))
      else
        let '(t, w) := Now w in
        let '(r, w) := fn (WithDeadline attemptCtx (time_add t dur)) w in (r, (w, attemptsRun))
  end.

Definition budgeted_stage (cfg : attemptBudgetConfig) (p : Policy error) (ops : retry_ops W) (Now : W -> time * W)
  : stage W := fun fn c w =>
  let max := if MaxAttempts p <=? 0 then 1 else MaxAttempts p in
  let '(r, (w, _)) := policy_do p (lift_ops ops) (budgeted_attempt cfg max Now c fn) c (w, 0) in (r, w).

Definition RetryBudgeted (b : Builder) (p : Policy error) (ops : retry_ops W) (Now : W -> time * W)
    (opts : list AttemptBudgetOption) : Builder :=
  let cfg := foldl (fun c opt => opt c) (mkBudgetCfg 0 false) opts in
  if (perAttempt cfg <=? 0) && negb (divide cfg) then RetryPolicy b p ops
  else b ++ [mkStage kindRetry (budgeted_stage cfg p ops Now)].

(** [release] is a plain call after the operation: it is not deferred. [Now] reads the wall clock. *)
Definition concurrency_stage {H} (Acquire : ctx -> W -> option H * W) (release : H -> Outcome -> W -> W) (Now : W -> time * W)
  : stage W := fun next c w =>
  let '(got, w) := Acquire c w in
  match got with
  | None => (Ok (Some ErrConcurrencyLimited), w)
  | Some h =>
      let '(start, w) := Now w in
      match next c w with
      | (Panic m, w) => (Panic m, w)
      | (Ok err, w) =>
          let '(t, w) := Now w in
          (Ok err, release h (mkOutcome (time_sub t start) (match err with Some _ => true | None => false end)) w)
      end
  end.

Definition AddConcurrency {H} (b : Builder) (Acquire : ctx -> W -> option H * W) (release : H -> Outcome -> W -> W)
    (Now : W -> time * W) : Builder := b ++ [mkStage kindConcurrency (concurrency_stage Acquire release Now)].

Definition timeout_stage (Now : W -> time * W) (d : duration) : stage W := fun next c w =>
  let '(t, w) := Now w in next (WithTimeout c t d) w.

Definition Timeout (b : Builder) (Now : W -> time * W) (d : duration) : Builder :=
  if d <=? 0 then b else b ++ [mkStage kindTimeout (timeout_stage Now d)].

(** ** [Build] and [Execute] *)

(** [sort.SliceStable] by kind; every stable sort gives this list. *)
Fixpoint insert_stage (s : builderStage) (l : list builderStage) : list builderStage :=
  match l with
  | [] => [s]
  | x :: l' => if rank (kind x) <=? rank (kind s) then x :: insert_stage s l' else s :: l
  end.

Definition sort_stable (l : list builderStage) : list builderStage := foldl (fun acc s => insert_stage s acc) [] l.

Record Pipeline := mkPipeline { stages : list (stage W); kinds : list stageKind }.

Definition Build (b : Builder) : Pipeline :=
  let ordered := sort_stable b in mkPipeline (map fn ordered) (map kind ordered).

(** [chain] recurses on the index; [fuel] bounds the number of stages left. *)
Fixpoint chain (fuel : nat) (ss : list (stage W)) (i : nat) (op : call W) : call W := fun c w =>
  match fuel with
  | O => op c w
  | S fuel =>
      match ss !! i with
      | None => op c w
      | Some s => s (chain fuel ss (S i) op) c w
      end
  end.

Definition Execute (p : Pipeline) (op : call W) : call W := chain (length (stages p)) (stages p) 0 op.

(** ** Canonical order *)

(** The reference: the stages of each kind, in insertion order, kind after kind. *)
Definition canonical (b : Builder) : list builderStage :=
  concat (map (fun k => filter (fun s => kind s = k) b) all_kinds).

(** The operation wrapped by a list of stages, the first outermost. *)
Definition wrap (l : list builderStage) (op : call W) : call W := foldr (fun s next => fn s next) op l.

Lemma insert_pass s l1 l2 : Forall (fun x => rank (kind x) <= rank (kind s)) l1 ->
  insert_stage s (l1 ++ l2) = l1 ++ insert_stage s l2.
Proof. induction 1 as [|x l1 Hx _ IH]; [done|]. cbn. rewrite (proj2 (Z.leb_le _ _) Hx). by f_equal. Qed.

Lemma insert_front s l : Forall (fun x => rank (kind s) < rank (kind x)) l -> insert_stage s l = s :: l.
Proof. intros H. destruct l as [|x l]; [done|]. inversion H; subst. cbn. case_cmp; [lia|done]. Qed.

(** The stages of the kinds [ks], kind after kind. *)
Notation blocks ks b := (concat (map (fun k => filter (fun s => kind s = k) b) ks)).

Lemma blocks_above k ks b : Forall (fun k' => rank k < rank k') ks ->
  Forall (fun x => rank k < rank (kind x)) (blocks ks b).
Proof.
  intros H. apply Forall_concat, Forall_map. apply (Forall_impl _ _ _ H). intros k' Hk.
  apply Forall_forall. intros x [-> _]%list_elem_of_filter. exact Hk.
Qed.

Lemma blocks_other ks b s : Forall (fun k => rank (kind s) < rank k) ks -> blocks ks (b ++ [s]) = blocks ks b.
Proof.
  induction 1 as [|k ks Hk _ IH]; [done|]. cbn. rewrite IH, filter_app. f_equal.
  rewrite filter_cons_False, filter_nil, app_nil_r; [done|]. intros E. rewrite E in Hk. lia.
Qed.

Lemma insert_blocks ks b s : StronglySorted (fun k k' => rank k < rank k') ks -> kind s ∈ ks ->
  insert_stage s (blocks ks b) = blocks ks (b ++ [s]).
Proof.
  induction 1 as [|k ks _ IH Hk]; [by intros ?%not_elem_of_nil|]. intros Hs. cbn. rewrite filter_app.
  destruct (decide (kind s = k)) as [<-|Hne].
  - rewrite filter_cons_True, filter_nil by done. rewrite blocks_other by done. rewrite insert_pass.
    + rewrite insert_front by (by apply blocks_above). by rewrite <- app_assoc.
    + apply Forall_forall. intros x [-> _]%list_elem_of_filter. lia.
  - rewrite filter_cons_False, filter_nil, app_nil_r by done. rewrite insert_pass.
    + rewrite IH; [done|]. by apply elem_of_cons in Hs as [?|?].
    + apply elem_of_cons in Hs as [?|Hs]; [done|]. rewrite Forall_forall in Hk. specialize (Hk _ Hs).
      apply Forall_forall. intros x [-> _]%list_elem_of_filter. lia.
Qed.

Lemma all_kinds_sorted : StronglySorted (fun k k' => rank k < rank k') all_kinds.
Proof. repeat (constructor; [|repeat (constructor; [vm_compute; reflexivity|]); constructor]). constructor. Qed.

Lemma all_kinds_all k : k ∈ all_kinds.
Proof. destruct k; set_solver. Qed.

Lemma sort_stable_canonical b : sort_stable b = canonical b.
Proof.
  induction b as [|s b IH] using rev_ind; [done|]. unfold sort_stable in *. rewrite foldl_app. cbn. rewrite IH.
  apply insert_blocks; [apply all_kinds_sorted|apply all_kinds_all].
Qed.

Lemma insert_stage_Permutation s l : insert_stage s l ≡ₚ s :: l.
Proof. induction l as [|x l IH]; cbn; [done|]. case_cmp; [|done]. rewrite IH. constructor. Qed.

Lemma sort_stable_Permutation b : sort_stable b ≡ₚ b.
Proof.
  induction b as [|s b IH] using rev_ind; [done|]. unfold sort_stable in *. rewrite foldl_app. cbn.
  by rewrite insert_stage_Permutation, IH, Permutation_cons_append.
Qed.

Lemma blocks_sorted ks b : StronglySorted (fun k k' => rank k < rank k') ks ->
  StronglySorted (fun k k' => rank k <= rank k') (map kind (blocks ks b)).
Proof.
  induction 1 as [|k ks _ IH Hk]; [constructor|]. cbn. rewrite map_app.
  assert (Forall (fun x => kind x = k) (filter (fun s => kind s = k) b)) as Hb.
  { apply Forall_forall. by intros x [? _]%list_elem_of_filter. }
  revert Hb. generalize (filter (fun s => kind s = k) b). intros l Hl.
  induction Hl as [|x l Hx Hl IHl]; cbn; [done|]. constructor; [exact IHl|].
  apply Forall_app. split.
  - apply Forall_map. apply (Forall_impl _ _ _ Hl). intros y Hy. cbn. rewrite Hx, Hy. lia.
  - apply Forall_map. rewrite Hx. apply (Forall_impl _ _ _ (blocks_above _ _ b Hk)). intros y Hy. cbn in *. lia.
Qed.

Lemma chain_wrap fuel l i op : (length l <= fuel + i)%nat ->
  chain fuel (map fn l) i op = wrap (drop i l) op.
Proof.
  revert i. induction fuel as [|fuel IH]; intros i H.
  - rewrite drop_ge by lia. reflexivity.
  - cbn. destruct (l !! i) as [s|] eqn:E.
    + rewrite (drop_S l s i E). cbn. rewrite list_lookup_fmap, E. cbn. rewrite IH by lia. reflexivity.
    + rewrite list_lookup_fmap, E. apply lookup_ge_None in E. rewrite drop_ge by lia. reflexivity.
Qed.

Lemma Execute_wrap b op : Execute (Build b) op = wrap (canonical b) op.
Proof. unfold Execute, Build. cbn. rewrite chain_wrap by (rewrite length_map; lia). by rewrite sort_stable_canonical. Qed.

(** C26: the pipeline runs its stages in the canonical order whatever the order of the builder's calls. Running it is
    wrapping the operation by the stages of each kind in insertion order, kind after kind (load shedder outermost,
    custom stages innermost); [kinds] is sorted; every stage that was added runs and no other; and two builders that
    add the same stages of each kind, interleaved differently, behave alike on every operation, context and state. *)
Theorem pipeline_canonical_order b op :
  Execute (Build b) op = wrap (canonical b) op /\
  StronglySorted (fun k k' => rank k <= rank k') (kinds (Build b)) /\
  canonical b ≡ₚ b /\
  (forall b', (forall k, filter (fun s => kind s = k) b' = filter (fun s => kind s = k) b) ->
   Execute (Build b') op = Execute (Build b) op).
Proof.
  split_and!.
  - apply Execute_wrap.
  - cbn. rewrite sort_stable_canonical. apply blocks_sorted, all_kinds_sorted.
  - rewrite <- sort_stable_canonical. apply sort_stable_Permutation.
  - intros b' H. rewrite !Execute_wrap. f_equal. unfold canonical. f_equal. apply map_ext. exact H.
Qed.

End pipeline.

(** ** Attempt budgets keep the overall deadline *)

Section budgeted.
Context {W : Type} (cfg : attemptBudgetConfig) (p : Policy error) (ops : retry_ops W) (Now : W -> time * W).

(** The attempts an overall deadline [D] admits: number [k] starts at a reading [t1] before [D]; its own deadline is
    counted from a second reading [t2], ends by [D], after [perAttempt] at most and after its share of what was left. *)
Definition admitted_attempt (D : time) (c : ctx) (w : W) : Prop :=
  exists k t1 w1 t2 w2 d,
    1 <= k <= maxAttempts p /\ Now w1 = (t1, w2) /\ Now w2 = (t2, w) /\ t1 < D /\
    deadline c = Some d /\ d <= D /\
    (0 < perAttempt cfg -> d <= t2 + perAttempt cfg) /\
    (divide cfg = true ->
     let share := time_sub D t1 `quot` (maxAttempts p - k + 1) in share = 0 \/ d <= t2 + share).

Lemma attempt_dur_spec k r dur : 1 <= k <= maxAttempts p -> attempt_dur cfg (maxAttempts p) k (Some r) = Some dur ->
  0 < r /\ 0 < dur <= r /\ (0 < perAttempt cfg -> dur <= perAttempt cfg) /\
  (divide cfg = true -> r `quot` (maxAttempts p - k + 1) = 0 \/ dur <= r `quot` (maxAttempts p - k + 1)).
Proof.
  intros Hk. unfold attempt_dur. destruct (Z.leb_spec r 0) as [|Hr]; [done|].
  destruct (Z.ltb_spec (maxAttempts p - (k - 1)) 1); [lia|].
  replace (maxAttempts p - (k - 1)) with (maxAttempts p - k + 1) by lia.
  pose proof (Z.quot_pos r (maxAttempts p - k + 1)).
  assert (r `quot` (maxAttempts p - k + 1) <= r) by (apply Z.quot_le_upper_bound; nia).
  generalize dependent (r `quot` (maxAttempts p - k + 1)). intros q Hq Hqr. destruct (divide cfg); cbn;
    intros E; injection E as <-; rewrite ?(proj2 (Z.eqb_neq r 0)) by lia; cbn;
    repeat case_cmp; cbn in *; split_and!; try lia; try discriminate; intros; lia.
Qed.

Lemma time_sub_pos D t : 0 < time_sub D t -> t < D.
Proof. unfold time_sub, sat64, max_int64, min_int64. lia. Qed.

(** One attempt calls the operation under the overall deadline only, and counts itself. *)
Lemma budgeted_attempt_agree D c fn fn' w n : deadline c = Some D -> 0 <= n < maxAttempts p ->
  (forall c' w', admitted_attempt D c' w' -> fn c' w' = fn' c' w') ->
  let try f := budgeted_attempt cfg (maxAttempts p) Now c f c (w, n) in
  try fn = try fn' /\ snd (snd (try fn)) = n + 1.
Proof.
  intros HD Hn Hfn. cbv zeta. unfold budgeted_attempt, remaining. rewrite HD.
  destruct (Now w) as [t1 w1] eqn:E1.
  destruct (attempt_dur cfg _ _ _) as [dur|] eqn:Ed; [|done].
  destruct (attempt_dur_spec (n + 1) _ _ ltac:(lia) Ed) as (Hr & Hdur & Hper & Hdiv).
  destruct (Z.leb_spec dur 0); [lia|]. destruct (Now w1) as [t2 w2] eqn:E2.
  rewrite <- Hfn; [by destruct (fn _ w2)|].
  exists (n + 1), t1, w, t2, w1, (if Before D (time_add t2 dur) then D else time_add t2 dur).
  unfold WithDeadline, Before, time_add in *. rewrite HD. cbn. pose proof (time_sub_pos _ _ Hr).
  split_and!; try done; try lia; [case_cmp; lia|intros; specialize (Hper ltac:(done)); case_cmp; lia|].
  intros Hd. destruct (Hdiv Hd); [by left|right; case_cmp; lia].
Qed.

Lemma policy_loop_agree D c fn fn' turns : deadline c = Some D ->
  (forall c' w', admitted_attempt D c' w' -> fn c' w' = fn' c' w') ->
  forall n e w, 0 <= n -> n + Z.of_nat turns <= maxAttempts p ->
  policy_loop p (lift_ops ops) (budgeted_attempt cfg (maxAttempts p) Now c fn) turns n e c (w, n) =
  policy_loop p (lift_ops ops) (budgeted_attempt cfg (maxAttempts p) Now c fn') turns n e c (w, n).
Proof.
  intros HD Hfn. induction turns as [|turns IH]; intros n e w Hn Ht; [done|]. cbn [policy_loop].
  destruct (r_err _ c (w, n)); [done|].
  destruct (if (0 <? n) && HasBudget p then _ else _) as [ok [w1 n1]] eqn:Ecan.
  assert (n1 = n) as ->.
  { destruct (_ && _); [|by simplify_eq]. cbn in Ecan. destruct (r_can ops w). by simplify_eq. }
  destruct (negb ok); [done|].
  destruct (budgeted_attempt_agree D c fn fn' w1 n HD ltac:(lia) Hfn) as [<- Hc].
  destruct (budgeted_attempt _ _ _ _ fn _ _) as [r [w2 n2]]. cbn in Hc. subst n2.
  destruct r as [[er|]|m]; [|done|done]. destruct (_ =? _); [done|]. destruct (negb _); [done|].
  cbv zeta. set (v := if OnRetry p then _ else _). assert (exists w3, v = (w3, n + 1)) as [w3 ->].
  { unfold v. destruct (OnRetry p); cbn; eauto. }
  destruct (0 <? delay p n); cbn; [destruct (r_sleep ops c _ w3) as [[es|] w4]; [done|]|]; apply IH; lia.
Qed.

(** C27: attempts under an attempt budget never run past the overall deadline. When the context has a deadline [D], the
    budgeted retry stage calls its operation only in attempts that start before [D], with a deadline that is at most
    [D], at most [perAttempt] after the start, and (when dividing) at most the attempt's share of the time that was left:
    two operations that agree on all such calls cannot be told apart by the stage. *)
Theorem retry_budgeted_within_deadline D c w fn fn' : deadline c = Some D ->
  (forall c' w', admitted_attempt D c' w' -> fn c' w' = fn' c' w') ->
  budgeted_stage cfg p ops Now fn c w = budgeted_stage cfg p ops Now fn' c w.
Proof.
  intros HD Hfn. unfold budgeted_stage, policy_do. fold (maxAttempts p). pose proof (maxAttempts_pos p).
  destruct (HasBudget p); cbn [lift_ops r_record];
    rewrite (policy_loop_agree D c fn fn' _ HD Hfn) by lia; reflexivity.
Qed.

End budgeted.

(** The world of the witness: the reading of a clock that advances at every reading, no budget, no waiting. *)
Definition tick (w : Z) : time * Z := (w, w + 1).
Definition idle_ops : retry_ops Z :=
  mkRetryOps id (fun w => (true, w)) (fun _ _ => None) (fun _ d w => (None, w + d)) (fun _ _ _ w => w).
Definition three_attempts : Policy error := mkPolicy 3 None None false 0 false.

(** It fails after ten units of time; called past the deadline 100 it panics. *)
Definition slow_op : call Z := fun c w => (Ok (Some (Other "down")), w + 10).
Definition strict_op : call Z := fun c w =>
  match deadline c with Some d => if 100 <? d then (Panic "late", w) else slow_op c w | None => (Panic "late", w) end.

Lemma retry_budgeted_within_deadline_witness :
  let c := mkCtx (Some 100) None "" in
  budgeted_stage (mkBudgetCfg 0 true) three_attempts idle_ops tick slow_op c 0 =
    (Ok (Some (ErrMaxAttemptsExceeded (Some (Other "down")))), 36) /\
  budgeted_stage (mkBudgetCfg 0 true) three_attempts idle_ops tick slow_op c 0 =
    budgeted_stage (mkBudgetCfg 0 true) three_attempts idle_ops tick strict_op c 0.
Proof.
  split; [vm_compute; reflexivity|].
  apply (retry_budgeted_within_deadline (mkBudgetCfg 0 true) three_attempts idle_ops tick 100); [reflexivity|].
  intros c' w' (k & t1 & w1 & t2 & w2 & d & _ & _ & _ & _ & Hd & HD & _). unfold strict_op. rewrite Hd.
  destruct (Z.ltb_spec 100 d); [lia|reflexivity].
Defined.

(** ** [policy_do] and the model of [Do] by an environment

    In the world that records the events of a call, [policy_do] computes what [Retry.Do] does. *)

Section policy_refines.
Context (p : Policy error) (en : env error).

Notation rec := (Budget * list do_event)%type.

(** The attempts made so far. *)
Definition made (evs : list do_event) : Z := Z.of_nat (length (calls evs)).

Definition env_op : call rec := fun _ '(b, evs) => (Ok (e_fn en (made evs)), (b, evs ++ [Called (made evs)])).

Definition env_ops : retry_ops rec :=
  mkRetryOps (fun '(b, evs) => (RecordAttempt b (e_record en), evs))
    (fun '(b, evs) => let '(ok, b) := CanRetry b (e_can en (made evs)) in (ok, (b, evs)))
    (fun _ '(b, evs) => e_ctx en (made evs))
    (fun _ d '(b, evs) => (e_sleep en (made evs - 1), (b, evs ++ [Slept d])))
    (fun i _ d '(b, evs) => (b, evs ++ [Retrying i d])).

Definition result_error (r : do_result error) : option error :=
  match r with DoNil => None | DoErr e => e | DoMax e => Some (ErrMaxAttemptsExceeded e) end.

Lemma made_app evs evs' : made (evs ++ evs') = made evs + made evs'.
Proof. unfold made, calls. rewrite omap_app, length_app. lia. Qed.

Lemma made_1 e : made [e] = match e with Called _ => 1 | _ => 0 end.
Proof. by destruct e. Qed.

Lemma policy_loop_refines c turns : forall n e b evs, made evs = n ->
  policy_loop p env_ops env_op turns n e c (b, evs) =
  let '(r, b', evs') := do_loop p en b turns n e in (Ok (result_error r), (b', evs ++ evs')).
Proof.
  induction turns as [|turns IH]; intros n e b evs Hn; cbn [policy_loop do_loop]; [by rewrite app_nil_r|].
  cbn [env_ops r_err]. rewrite Hn. destruct (e_ctx en n); [by rewrite app_nil_r|].
  assert ((if (0 <? n) && HasBudget p then r_can env_ops (b, evs) else (true, (b, evs))) =
    let '(ok, b) := if (0 <? n) && HasBudget p then CanRetry b (e_can en n) else (true, b) in (ok, (b, evs))) as ->.
  { cbn. rewrite Hn. by destruct (_ && _). }
  destruct (if _ && _ then CanRetry _ _ else _) as [ok b1].
  destruct (negb ok); [by rewrite app_nil_r|]. cbn [env_op]. rewrite Hn.
  destruct (e_fn en n) as [er|]; [|done]. destruct (_ =? _); [done|]. destruct (negb _); [done|].
  cbn [env_ops r_notify r_sleep].
  destruct (OnRetry p), (0 <? delay p n); cbn;
    rewrite ?made_app, ?made_1, ?Hn, ?Z.add_0_r, ?Z.add_simpl_r;
    try (destruct (e_sleep en n); [cbn; by rewrite <- ?app_assoc|]);
    (rewrite IH by (by rewrite !made_app, ?made_1, ?Hn, ?Z.add_0_r));
    destruct (do_loop p en b1 turns (n + 1) (Some er)) as [[r b'] evs'];
    by rewrite <- ?app_assoc.
Qed.

(** The stage of a retry policy and [Retry.Do] are the same program. *)
Lemma policy_do_refines c b :
  policy_do p env_ops env_op c (b, []) =
  let '(r, b', evs) := Do p en b in (Ok (result_error r), (b', evs)).
Proof. unfold policy_do, Do. destruct (HasBudget p); cbn; by rewrite policy_loop_refines. Qed.

End policy_refines.

(** ** A concurrency limiter behind the pipeline

    The limiter's goroutine steps, run to the end for a caller that is not interleaved with others and whose context is
    alive. *)

Section limiter_stage.
Context {S : Type} {LS : LimitStrategy S}.
Notation limiter := (Concurrency.Limiter (S := S)).

(** Repeat an action while it is possible; nine steps finish an acquisition or a release. *)
Fixpoint drive (fuel : nat) (a : action) (l : limiter) : limiter :=
  match fuel with
  | O => l
  | Datatypes.S fuel => match sys_step l a with Some l => drive fuel a l | None => l end
  end.

Definition step_or_stay (a : action) (l : limiter) : limiter := default l (sys_step l a).

Definition lim_Acquire (_ : ctx) (l : limiter) : option nat * limiter :=
  let i := length (callers l) in
  let l := drive 9 (ARun i) (step_or_stay (ACall false) l) in
  match callers l !! i with
  | Some c => (match c_pc c with PHeld => Some i | _ => None end, l)
  | None => (None, l)
  end.

Definition lim_release (i : nat) (o : Outcome) (l : limiter) : limiter :=
  let j := length (finishers l) in drive 9 (AFinish j) (step_or_stay (ARelease i o) l).

Definition lim_Now (l : limiter) : time * limiter := (clk l, l).

Definition limited_pipeline : Pipeline := Build (AddConcurrency [] lim_Acquire lim_release lim_Now).

(** Calls of the pipeline, one after the other. *)
Fixpoint executes {W} (p : Pipeline (W := W)) (ops : list (call W)) (c : ctx) (w : W)
  : list (outcome (option error)) * W :=
  match ops with
  | [] => ([], w)
  | op :: ops =>
      let '(r, w) := Execute p op c w in
      let '(rs, w) := executes p ops c w in (r :: rs, w)
  end.

Definition panicking (m : string) : call limiter := fun _ l => (Panic m, l).

Lemma drive_S fuel a (l : limiter) :
  drive (Datatypes.S fuel) a l = match sys_step l a with Some l => drive fuel a l | None => l end.
Proof. reflexivity. Qed.

(** The state of a limiter with one more caller, last in its list. *)
Definition with_last (l : limiter) (n : Z) (c : caller) : limiter :=
  mkLimiter (strategy l) (clk l) n (limit l) (minLimit l) (maxLimit l) (waitMu l) (callers l ++ [c]) (finishers l).

Lemma run_last (l : limiter) n mu c c' n' : mu = waitMu l ->
  caller_step n (limit l) mu (clk l) c = Some (n', mu, c') ->
  sys_step (with_last l n c) (ARun (length (callers l))) = Some (with_last l n' c').
Proof.
  intros -> H. cbn. rewrite list_lookup_middle by done. cbn. rewrite H. cbn. unfold with_last. do 2 f_equal.
  by rewrite insert_app_r_alt, Nat.sub_diag by lia.
Qed.

Lemma stay_last (l : limiter) n c : caller_step n (limit l) (waitMu l) (clk l) c = None ->
  sys_step (with_last l n c) (ARun (length (callers l))) = None.
Proof. intros H. cbn. rewrite list_lookup_middle by done. cbn. by rewrite H. Qed.

Ltac drive_last := rewrite drive_S; erewrite run_last; [|reflexivity|reflexivity].

Lemma lim_Acquire_spec c (l : limiter) :
  lim_Acquire c l =
  if limit l <=? inflight l then (None, with_last l (inflight l) (mkCaller PShed false WNone None))
  else (Some (length (callers l)),
        with_last l (inflight l + 1) (mkCaller PHeld false WNone (Some (mkRelease (clk l) false)))).
Proof.
  unfold lim_Acquire. change (step_or_stay (ACall false) l) with (with_last l (inflight l) (new_caller false)).
  do 2 drive_last. rewrite drive_S. destruct (Z.leb_spec (limit l) (inflight l)) as [Hl|Hl].
  - rewrite (run_last l _ _ _ (mkCaller PShed false WNone None) (inflight l) eq_refl)
      by (cbn; by rewrite (proj2 (Z.leb_le _ _) Hl)).
    rewrite drive_S, stay_last by reflexivity. cbn. by rewrite list_lookup_middle.
  - rewrite (run_last l _ _ _ (mkCaller (PCas InAcquire (inflight l)) false WNone None) (inflight l) eq_refl)
      by (cbn; by rewrite (proj2 (Z.leb_gt _ _) Hl)).
    rewrite drive_S.
    rewrite (run_last l _ _ _ (mkCaller (PNow InAcquire) false WNone None) (inflight l + 1) eq_refl)
      by (cbn; by rewrite Z.eqb_refl).
    drive_last. rewrite drive_S, stay_last by reflexivity. cbn. by rewrite list_lookup_middle.
Qed.

Lemma Execute_limited op c (l : limiter) :
  Execute limited_pipeline op c l = concurrency_stage lim_Acquire lim_release lim_Now op c l.
Proof. unfold limited_pipeline. by rewrite Execute_wrap. Qed.

Lemma limited_full op c (l : limiter) : limit l <= inflight l ->
  exists l', Execute limited_pipeline op c l = (Ok (Some ErrConcurrencyLimited), l') /\
    limit l' = limit l /\ inflight l' = inflight l.
Proof.
  intros H. rewrite Execute_limited. unfold concurrency_stage. rewrite lim_Acquire_spec, (proj2 (Z.leb_le _ _) H). by eexists.
Qed.

Lemma limited_panics m c (l : limiter) : inflight l < limit l ->
  exists l', Execute limited_pipeline (panicking m) c l = (Panic m, l') /\
    limit l' = limit l /\ inflight l' = inflight l + 1.
Proof.
  intros H. rewrite Execute_limited. unfold concurrency_stage. rewrite lim_Acquire_spec, (proj2 (Z.leb_gt _ _) H). by eexists.
Qed.

Lemma limited_full_for_ever ops c : forall l : limiter, limit l <= inflight l ->
  fst (executes limited_pipeline ops c l) = repeat (Ok (Some ErrConcurrencyLimited)) (length ops).
Proof.
  induction ops as [|op ops IH]; intros l H; cbn [executes]; [done|].
  destruct (limited_full op c l H) as (l' & -> & E1 & E2). specialize (IH l' ltac:(lia)).
  destruct (executes limited_pipeline ops c l'). cbn in *. by rewrite IH.
Qed.

(** the concurrency stage does not give its slot back when the operation panics. From any state of the limiter, as
    many panicking calls as there are free slots (each panic reaches the caller, who may recover it) leave the limiter
    full although nothing runs, and from then on every call is refused with [ErrConcurrencyLimited], whatever it does. *)
Theorem pipeline_panics_exhaust_limiter m c k : forall l : limiter, limit l = inflight l + Z.of_nat k ->
  let '(rs, l') := executes limited_pipeline (repeat (panicking m) k) c l in
  rs = repeat (Panic m) k /\ inflight l' = limit l' /\
  forall ops, fst (executes limited_pipeline ops c l') = repeat (Ok (Some ErrConcurrencyLimited)) (length ops).
Proof.
  induction k as [|k IH]; intros l H; cbn [repeat executes].
  - split_and!; [done|lia|]. intros ops. apply limited_full_for_ever. lia.
  - destruct (limited_panics m c l ltac:(lia)) as (l1 & -> & E1 & E2). specialize (IH l1 ltac:(lia)).
    destruct (executes limited_pipeline (repeat (panicking m) k) c l1) as [rs l']. destruct IH as (-> & IH). done.
Qed.

End limiter_stage.

(** A healthy call gives the slot back: the limiter takes another one. *)
Definition healthy {S} {LS : LimitStrategy S} : call (Concurrency.Limiter (S := S)) := fun _ l => (Ok None, l).

Definition one_slot_limiter : Concurrency.Limiter := newLimiter (NewAIMD one_slot) (normalise one_slot) 0.

Lemma pipeline_panics_exhaust_limiter_witness :
  let c := mkCtx None None "" in
  fst (executes limited_pipeline [healthy; healthy] c one_slot_limiter) = [Ok None; Ok None] /\
  let '(rs, l') := executes limited_pipeline [panicking "boom"] c one_slot_limiter in
  rs = [Panic "boom"] /\ inflight l' = limit l' /\
  forall ops, fst (executes limited_pipeline ops c l') = repeat (Ok (Some ErrConcurrencyLimited)) (length ops).
Proof.
  split; [vm_compute; reflexivity|].
  refine (pipeline_panics_exhaust_limiter "boom" (mkCtx None None "") 1 one_slot_limiter _). vm_compute. reflexivity.
Defined.

(** [RateLimit] after [Use] in the builder, before it in the pipeline. *)
Lemma pipeline_canonical_order_witness :
  let deny : string -> Z -> Result * Z := fun _ w => (mkResult false 0 0 0 5 "" ∅, w + 1) in
  let seen : stage Z := fun next c w => next c (w + 100) in
  let op : call Z := fun _ w => (Ok None, w) in
  let c := mkCtx None None "" in
  Execute (Build (RateLimit (Use [] seen) deny None)) op c 0 = (Ok (Some (PipelineRateLimitError 5)), 1) /\
  Execute (Build (Use (RateLimit [] deny None) seen)) op = Execute (Build (RateLimit (Use [] seen) deny None)) op.
Proof.
  split; [vm_compute; reflexivity|].
  apply (pipeline_canonical_order (RateLimit (Use [] _) _ None)). by intros [].
Defined.
