(* ===== verification/Clock.v ===== *)
(** * The manual clock ([clock/clock.go]).

    The test double of the time source: timers and tickers are objects on a
    heap, the clock holds pointers to those that are registered.  [Advance] is
    run without interleaving; the goroutines it starts are its output. *)

From Stdlib Require Import Sorting.Sorted.
From S2P Require Import Prelude.
Open Scope Z_scope.

Definition tickerChanBuffer : nat := 1024.

(** [fn]: the function of a timer made by [AfterFunc]; [ch]: the channel's buffer. *)
Record manualTimer := mkTimer { fireAt : time; ch : option time; stopped : bool; fn : option nat }.
Record manualTicker := mkTicker { interval : duration; nextFire : time; ticks : list time; tk_stopped : bool }.

Record ManualClock := mkClock {
  clk_now : time;
  timer_objs : list manualTimer;
  timers : list nat;
  ticker_objs : list manualTicker;
  tickers : list nat;
}.

Definition NewManualClock (start : time) : ManualClock := mkClock start [] [] [] [].

Definition Now (c : ManualClock) : time := clk_now c.
Definition Since (c : ManualClock) (t : time) : duration := time_sub (clk_now c) t.
Definition Until (c : ManualClock) (t : time) : duration := time_sub t (clk_now c).

(** When the registered timer [i] fires. *)
Definition fire_time (objs : list manualTimer) (i : nat) : time := from_option fireAt 0 (objs !! i).

(** [sort.Slice] by [fireAt]: insertion from the left, which is what it does on short slices; it leaves the order of
    equal elements open. *)
Fixpoint insert_timer (objs : list manualTimer) (i : nat) (l : list nat) : list nat :=
  match l with
  | [] => [i]
  | j :: l' => if fire_time objs i <? fire_time objs j then i :: l else j :: insert_timer objs i l'
  end.

Definition sort_timers (objs : list manualTimer) (l : list nat) : list nat :=
  foldl (fun acc i => insert_timer objs i acc) [] l.

Definition addTimerLocked (c : ManualClock) (i : nat) : ManualClock :=
  mkClock (clk_now c) (timer_objs c) (sort_timers (timer_objs c) (timers c ++ [i])) (ticker_objs c) (tickers c).

Definition with_objs (c : ManualClock) (objs : list manualTimer) : ManualClock :=
  mkClock (clk_now c) objs (timers c) (ticker_objs c) (tickers c).

(** The index of a new timer, and the clock. *)
Definition NewTimer (d : duration) (c : ManualClock) : nat * ManualClock :=
  let i := length (timer_objs c) in
  let t := mkTimer (time_add (clk_now c) d) (if d <=? 0 then Some (clk_now c) else None) false None in
  let c := with_objs c (timer_objs c ++ [t]) in
  (i, if d <=? 0 then c else addTimerLocked c i).

Definition AfterFunc (d : duration) (f : nat) (c : ManualClock) : nat * ManualClock :=
  let i := length (timer_objs c) in
  (i, addTimerLocked (with_objs c (timer_objs c ++ [mkTimer (time_add (clk_now c) d) None false (Some f)])) i).

(** [removeTimer]: the first entry of the timer. *)
Fixpoint remove_first (i : nat) (l : list nat) : list nat :=
  match l with [] => [] | j :: l' => if (i =? j)%nat then l' else j :: remove_first i l' end.

Definition set_timer (c : ManualClock) (i : nat) (t : manualTimer) : ManualClock := with_objs c (<[i := t]> (timer_objs c)).

Definition timer_Stop (i : nat) (c : ManualClock) : bool * ManualClock :=
  match timer_objs c !! i with
  | None => (false, c)
  | Some t =>
      if stopped t then (false, c)
      else
        let c := set_timer c i (mkTimer (fireAt t) (ch t) true (fn t)) in
        (true, mkClock (clk_now c) (timer_objs c) (remove_first i (timers c)) (ticker_objs c) (tickers c))
  end.

Definition timer_Reset (i : nat) (d : duration) (c : ManualClock) : bool * ManualClock :=
  match timer_objs c !! i with
  | None => (false, c)
  | Some t =>
      (negb (stopped t), addTimerLocked (set_timer c i (mkTimer (time_add (clk_now c) d) (ch t) false (fn t))) i)
  end.

(** ** Tickers *)

Definition NewTicker (d : duration) (c : ManualClock) : nat * ManualClock :=
  let i := length (ticker_objs c) in
  (i, mkClock (clk_now c) (timer_objs c) (timers c) (ticker_objs c ++ [mkTicker d (time_add (clk_now c) d) [] false])
        (tickers c ++ [i])).

Definition ticker_Stop (i : nat) (c : ManualClock) : ManualClock :=
  match ticker_objs c !! i with
  | None => c
  | Some t =>
      mkClock (clk_now c) (timer_objs c) (timers c) (<[i := mkTicker (interval t) (nextFire t) (ticks t) true]> (ticker_objs c))
        (remove_first i (tickers c))
  end.

Definition addTickerLocked (i : nat) (l : list nat) : list nat := if decide (i ∈ l) then l else l ++ [i].

Definition ticker_Reset (i : nat) (d : duration) (c : ManualClock) : ManualClock :=
  match ticker_objs c !! i with
  | None => c
  | Some t =>
      mkClock (clk_now c) (timer_objs c) (timers c)
        (<[i := mkTicker d (time_add (clk_now c) d) (ticks t) false]> (ticker_objs c))
        (if tk_stopped t then addTickerLocked i (tickers c) else tickers c)
  end.

(** Receiving from a channel: the value, if there is one. *)
Definition recv_timer (i : nat) (c : ManualClock) : option time * ManualClock :=
  match timer_objs c !! i with
  | Some t => (ch t, set_timer c i (mkTimer (fireAt t) None (stopped t) (fn t)))
  | None => (None, c)
  end.

Definition recv_tick (i : nat) (c : ManualClock) : option time * ManualClock :=
  match ticker_objs c !! i with
  | Some t => (head (ticks t),
      mkClock (clk_now c) (timer_objs c) (timers c)
        (<[i := mkTicker (interval t) (nextFire t) (tail (ticks t)) (tk_stopped t)]> (ticker_objs c)) (tickers c))
  | None => (None, c)
  end.

(** [Sleep]: the timer the caller then receives from, or none when it returns at once. *)
Definition Sleep (d : duration) (c : ManualClock) : option nat * ManualClock :=
  if d <=? 0 then (None, c) else let '(i, c) := NewTimer d c in (Some i, c).

(** [for !tick.nextFire.After(target) { ... }]; [None]: the fuel did not suffice. *)
Fixpoint tick_loop (fuel : nat) (target : time) (t : manualTicker) : option manualTicker :=
  if After (nextFire t) target then Some t
  else
    match fuel with
    | O => None
    | S fuel =>
        tick_loop fuel target
          (mkTicker (interval t) (time_add (nextFire t) (interval t))
             (if (length (ticks t) <? tickerChanBuffer)%nat then ticks t ++ [nextFire t] else ticks t) (tk_stopped t))
    end.

(** ** [Advance] *)

(** [nextTimerLocked]: the first registered timer that is due. *)
Fixpoint take_due (objs : list manualTimer) (target : time) (l : list nat) : option (nat * list nat) :=
  match l with
  | [] => None
  | i :: l' =>
      if After (fire_time objs i) target then '(j, l'') ← take_due objs target l'; Some (j, i :: l'')
      else Some (i, l')
  end.

(** A timer goes off: a goroutine for its function, or its instant into the channel if there is room. *)
Definition fire_timer (objs : list manualTimer) (i : nat) : list manualTimer * list nat :=
  match objs !! i with
  | None => (objs, [])
  | Some t =>
      if stopped t then (objs, [])
      else match fn t with
           | Some f => (objs, [f])
           | None => (<[i := mkTimer (fireAt t) (Some (default (fireAt t) (ch t))) (stopped t) None]> objs, [])
           end
  end.

Fixpoint fire_loop (fuel : nat) (target : time) (objs : list manualTimer) (l : list nat)
  : option (list manualTimer * list nat * list nat) :=
  match take_due objs target l with
  | None => Some (objs, l, [])
  | Some (i, l') =>
      match fuel with
      | O => None
      | S fuel =>
          let '(objs, spawned) := fire_timer objs i in
          '(objs, l, fs) ← fire_loop fuel target objs l'; Some (objs, l, spawned ++ fs)
      end
  end.

Fixpoint tick_all (fuel : nat) (target : time) (ids : list nat) (objs : list manualTicker) : option (list manualTicker) :=
  match ids with
  | [] => Some objs
  | i :: ids =>
      match objs !! i with
      | None => tick_all fuel target ids objs
      | Some t =>
          if tk_stopped t then tick_all fuel target ids objs
          else t' ← tick_loop fuel target t; tick_all fuel target ids (<[i := t']> objs)
      end
  end.

(** The functions started, in order, and the clock. *)
Definition Advance (fuel : nat) (d : duration) (c : ManualClock) : option (list nat * ManualClock) :=
  let target := time_add (clk_now c) d in
  '(objs, l, fs) ← fire_loop fuel target (timer_objs c) (timers c);
  tks ← tick_all fuel target (tickers c) (ticker_objs c);
  Some (fs, mkClock target objs l tks (tickers c)).

(** ** The registered timers stay sorted *)

Definition sorted (objs : list manualTimer) (l : list nat) : Prop :=
  StronglySorted (fun i j => fire_time objs i <= fire_time objs j) l.

Lemma insert_timer_perm objs i l : insert_timer objs i l ≡ₚ i :: l.
Proof. induction l as [|j l IH]; [done|]. cbn [insert_timer]. case_match; [done|]. rewrite IH. apply Permutation_swap. Qed.

Lemma insert_timer_sorted objs i l : sorted objs l -> sorted objs (insert_timer objs i l).
Proof.
  unfold sorted. induction 1 as [|j l Hl IH Hj]; cbn [insert_timer]; [by repeat constructor|].
  case_match eqn:E; rewrite ?Z.ltb_lt, ?Z.ltb_ge in E.
  - constructor; [by constructor|]. constructor; [lia|]. eapply Forall_impl; [exact Hj|]. cbn; lia.
  - constructor; [done|]. rewrite insert_timer_perm. by constructor.
Qed.

Lemma sort_timers_spec objs l : sorted objs (sort_timers objs l) /\ sort_timers objs l ≡ₚ l.
Proof.
  unfold sort_timers. enough (forall acc, sorted objs acc ->
    sorted objs (foldl (fun acc i => insert_timer objs i acc) acc l) /\
    foldl (fun acc i => insert_timer objs i acc) acc l ≡ₚ acc ++ l) as H by (apply (H []); constructor).
  induction l as [|i l IH]; intros acc Hacc; cbn; [by rewrite app_nil_r|].
  destruct (IH _ (insert_timer_sorted objs i acc Hacc)) as [? Hp]; split; [done|].
  rewrite Hp, insert_timer_perm. apply Permutation_middle.
Qed.

Lemma sorted_ext objs objs' l : (forall i, i ∈ l -> fire_time objs i = fire_time objs' i) -> sorted objs l -> sorted objs' l.
Proof.
  unfold sorted. intros He; induction 1 as [|i l Hl IH Hi]; constructor.
  - apply IH. intros; apply He; set_solver.
  - rewrite Forall_forall in *. intros j Hj. rewrite <- !He; [by apply Hi| |]; set_solver.
Qed.

Lemma remove_first_sublist i l : remove_first i l `sublist_of` l.
Proof. induction l as [|j l IH]; cbn; [done|]. case_match; [by constructor|by apply sublist_skip]. Qed.

Lemma sorted_sublist objs l l' : l' `sublist_of` l -> sorted objs l -> sorted objs l'.
Proof.
  unfold sorted. induction 1 as [|i l' l Hs IH|i l' l Hs IH]; [done|..]; intros [Hl Hi]%StronglySorted_inv; [|by apply IH].
  constructor; [by apply IH|]. rewrite Forall_forall in *. intros j Hj. apply Hi. by eapply elem_of_sublist.
Qed.

(** ** What [Advance] does *)

Definition due (objs : list manualTimer) (target : time) (i : nat) : bool := negb (After (fire_time objs i) target).

(** The goroutine a timer starts when it goes off. *)
Definition starts (objs : list manualTimer) (i : nat) : list nat :=
  match objs !! i with Some t => if stopped t then [] else option_list (fn t) | None => [] end.

(** Objects that differ in their channels only. *)
Definition same_timer (t t' : manualTimer) : Prop := fireAt t = fireAt t' /\ stopped t = stopped t' /\ fn t = fn t'.

#[export] Instance same_timer_equiv : Equivalence same_timer.
Proof.
  split; unfold same_timer; [done|intros ?? (?&?&?); by split_and!|].
  intros ??? (H1&H2&H3) (?&?&?). rewrite H1, H2, H3. by split_and!.
Qed.

Lemma fire_timer_same objs i : Forall2 same_timer (fst (fire_timer objs i)) objs.
Proof.
  unfold fire_timer. destruct (objs !! i) as [t|] eqn:E; [|reflexivity].
  repeat case_match; try reflexivity. cbn. apply Forall2_same_length_lookup_2; [by rewrite length_insert|].
  intros j a b Ha Hb. apply list_lookup_insert_Some in Ha as [(<- & <- & _)|[_ Ha]]; simplify_eq; [by split_and!|done].
Qed.

Lemma fire_timer_starts objs i : snd (fire_timer objs i) = starts objs i.
Proof. unfold fire_timer, starts. repeat case_match; try done; simplify_eq; by rewrite ?H1. Qed.

Lemma same_lookup objs objs' i : Forall2 same_timer objs objs' -> option_Forall2 same_timer (objs !! i) (objs' !! i).
Proof. intros H. by apply Forall2_lookup. Qed.

Lemma same_due objs objs' target i : Forall2 same_timer objs objs' -> due objs target i = due objs' target i.
Proof. intros H. unfold due, fire_time. destruct (same_lookup _ _ i H) as [a b (E&?&?)|]; cbn; [by rewrite E|done]. Qed.

Lemma same_starts objs objs' i : Forall2 same_timer objs objs' -> starts objs i = starts objs' i.
Proof. intros H. unfold starts. destruct (same_lookup _ _ i H) as [a b (?&E1&E2)|]; [by rewrite E1, E2|done]. Qed.

Lemma take_due_spec objs target l :
  match take_due objs target l with
  | None => Forall (fun i => due objs target i = false) l
  | Some (i, l') => exists l1 l2, l = l1 ++ i :: l2 /\ l' = l1 ++ l2 /\ due objs target i = true /\
                      Forall (fun i => due objs target i = false) l1
  end.
Proof.
  induction l as [|i l IH]; cbn; [constructor|]. destruct (After (fire_time objs i) target) eqn:E.
  - assert (due objs target i = false) by (unfold due; by rewrite E).
    destruct (take_due objs target l) as [[j l'']|]; cbn; [|by constructor].
    destruct IH as (l1&l2&->&->&?&?). exists (i :: l1), l2. split_and!; try done. by constructor.
  - exists [], l. unfold due. rewrite E. by split_and!.
Qed.

Lemma filter_none_due objs target l : Forall (fun i => due objs target i = false) l ->
  filter (fun i => due objs target i = true) l = [] /\ filter (fun i => due objs target i = false) l = l.
Proof.
  induction 1 as [|i l Hi _ [E1 E2]]; [done|]. split.
  - by rewrite filter_cons_False by (by rewrite Hi).
  - by rewrite filter_cons_True, E2.
Qed.

Lemma same_filter objs objs' target b (l : list nat) : Forall2 same_timer objs objs' ->
  filter (fun i => due objs target i = b) l = filter (fun i => due objs' target i = b) l.
Proof. intros H. apply list_filter_iff. intros i. by rewrite (same_due objs objs'). Qed.

(** Enough fuel: one unit per timer that is due. *)
Lemma fire_loop_spec target fuel objs l :
  (length (filter (fun i => due objs target i = true) l) <= fuel)%nat ->
  exists objs', fire_loop fuel target objs l =
      Some (objs', filter (fun i => due objs target i = false) l,
            concat (map (starts objs) (filter (fun i => due objs target i = true) l))) /\
    Forall2 same_timer objs' objs.
Proof.
  revert objs l. induction fuel as [|fuel IH]; intros objs l Hf; cbn [fire_loop];
    generalize (take_due_spec objs target l); destruct (take_due objs target l) as [[i l']|]; cbn beta iota.
  1: intros (l1&l2&->&->&Hi&H1); rewrite filter_app, length_app, filter_cons_True in Hf by done; cbn in Hf; lia.
  1,3: intros Hn; destruct (filter_none_due objs target l Hn) as [-> ->]; exists objs; split; [done|reflexivity].
  intros (l1&l2&->&->&Hi&H1). destruct (filter_none_due objs target l1 H1) as [E1 E2].
  rewrite !filter_app, E1, E2, filter_cons_True, filter_cons_False in * by (try done; by rewrite Hi).
  rewrite (filter_cons_True _ i l2) by done. cbn in Hf.
  generalize (fire_timer_same objs i) (fire_timer_starts objs i). destruct (fire_timer objs i) as [objs1 sp]; cbn [fst snd].
  intros Hsame ->. destruct (IH objs1 (l1 ++ l2)) as (objs' & -> & Hs').
  { rewrite (same_filter objs1 objs) by done. rewrite filter_app, E1. cbn; lia. }
  exists objs'. rewrite !(same_filter objs1 objs), !filter_app, E1, E2 by done. cbn. split.
  - by rewrite (map_ext _ _ (fun i => same_starts objs1 objs i Hsame)).
  - etrans; eassumption.
Qed.

(** ** Tickers *)

(** The intervals a ticker has crossed by [target]. *)
Definition crossed (target : time) (t : manualTicker) : Z :=
  if After (nextFire t) target then 0 else (target - nextFire t) / interval t + 1.

Definition tick_times (t : manualTicker) (n : nat) : list time :=
  map (fun k => nextFire t + Z.of_nat k * interval t) (seq 0 n).

(** One turn of the loop. *)
Definition tick_once (t : manualTicker) : manualTicker :=
  mkTicker (interval t) (time_add (nextFire t) (interval t))
    (if (length (ticks t) <? tickerChanBuffer)%nat then ticks t ++ [nextFire t] else ticks t) (tk_stopped t).

Lemma tick_loop_step fuel target t :
  tick_loop fuel target t =
    if After (nextFire t) target then Some t
    else match fuel with O => None | S fuel => tick_loop fuel target (tick_once t) end.
Proof. by destruct fuel. Qed.

Lemma crossed_once target t : 0 < interval t -> After (nextFire t) target = false ->
  crossed target t = 1 + crossed target (tick_once t) /\ 0 <= crossed target (tick_once t).
Proof.
  intros Hi E. unfold crossed. rewrite E. unfold tick_once, After, time_add in *; cbn [nextFire interval].
  apply Z.ltb_ge in E. case_match eqn:E'.
  - apply Z.ltb_lt in E'. rewrite Z.div_small by lia. lia.
  - apply Z.ltb_ge in E'. replace (target - nextFire t) with (target - (nextFire t + interval t) + 1 * interval t) by lia.
    rewrite Z.div_add by lia. pose proof (Z.div_pos (target - (nextFire t + interval t)) (interval t)). lia.
Qed.

Lemma tick_once_ticks t : (length (ticks t) <= tickerChanBuffer)%nat ->
  ticks (tick_once t) = firstn tickerChanBuffer (ticks t ++ [nextFire t]).
Proof.
  intros Hl. unfold tick_once; cbn [ticks]. generalize dependent tickerChanBuffer; intros n Hl. case_match eqn:E.
  - apply Nat.ltb_lt in E. rewrite firstn_all2; [done|]. rewrite length_app; cbn; lia.
  - apply Nat.ltb_ge in E. rewrite firstn_app, firstn_all2 by lia. replace (n - length (ticks t))%nat with O by lia.
    by rewrite app_nil_r.
Qed.

Lemma tick_times_S t n : tick_times t (S n) = nextFire t :: tick_times (tick_once t) n.
Proof.
  unfold tick_times, tick_once, time_add; cbn [seq map nextFire interval]. f_equal; [lia|].
  rewrite <- seq_shift, map_map. apply map_ext. intros; lia.
Qed.

Lemma firstn_firstn_app {A} n (l l' : list A) : firstn n (firstn n l ++ l') = firstn n (l ++ l').
Proof.
  rewrite !firstn_app, firstn_firstn, Nat.min_id. f_equal. f_equal. rewrite length_firstn. lia.
Qed.

(** Enough fuel: one unit per interval crossed. *)
Lemma tick_loop_spec target fuel t : 0 < interval t -> (length (ticks t) <= tickerChanBuffer)%nat ->
  crossed target t <= Z.of_nat fuel ->
  tick_loop fuel target t =
    Some (mkTicker (interval t) (nextFire t + crossed target t * interval t)
            (firstn tickerChanBuffer (ticks t ++ tick_times t (Z.to_nat (crossed target t)))) (tk_stopped t)).
Proof.
  revert t. induction fuel as [|fuel IH]; intros t Hi Hlen Hf; rewrite tick_loop_step;
    destruct (After (nextFire t) target) eqn:E.
  1,3: unfold crossed; rewrite E; destruct t as [iv nf tk st]; cbn [interval nextFire ticks tk_stopped] in *;
    by rewrite Z.mul_0_l, Z.add_0_r, app_nil_r, firstn_all2.
  all: destruct (crossed_once target t Hi E) as [Ec Hc]. 1: lia.
  pose proof (tick_once_ticks t Hlen) as Ht. rewrite IH; [|done|rewrite Ht, length_firstn; lia|lia].
  rewrite Ht, Ec, Z2Nat.inj_add, (Nat.add_1_l (Z.to_nat _)), tick_times_S, firstn_firstn_app, <- app_assoc by lia.
  unfold tick_once, time_add; cbn [interval nextFire tk_stopped]. do 2 f_equal. lia.
Qed.

(** What the theorem says of one ticker. *)
Definition ticker_at (target : time) (t : manualTicker) : manualTicker :=
  if tk_stopped t then t
  else mkTicker (interval t) (nextFire t + crossed target t * interval t)
         (firstn tickerChanBuffer (ticks t ++ tick_times t (Z.to_nat (crossed target t)))) false.

Definition ticker_ok (t : manualTicker) : Prop := 0 < interval t /\ (length (ticks t) <= tickerChanBuffer)%nat.

Definition most_crossed (target : time) (objs : list manualTicker) : Z := foldr (fun t n => Z.max (crossed target t) n) 0 objs.

Lemma most_crossed_le target objs t : t ∈ objs -> crossed target t <= most_crossed target objs.
Proof. unfold most_crossed. induction 1 as [t l|t u l Ht IH]; cbn [foldr]; lia. Qed.

Lemma tick_all_alter fuel target ids objs : NoDup ids ->
  (forall i t, i ∈ ids -> objs !! i = Some t -> ticker_ok t /\ crossed target t <= Z.of_nat fuel) ->
  tick_all fuel target ids objs = Some (foldl (fun o i => alter (ticker_at target) i o) objs ids).
Proof.
  intros Hnd. revert objs. induction Hnd as [|i ids Hi Hnd IH]; intros objs Hok; [done|]. cbn [tick_all foldl].
  assert (Hok' : forall j t, j ∈ ids -> alter (ticker_at target) i objs !! j = Some t ->
    ticker_ok t /\ crossed target t <= Z.of_nat fuel).
  { intros j t Hj. rewrite list_lookup_alter_ne by set_solver. apply Hok. set_solver. }
  rewrite <- IH by done. destruct (objs !! i) as [t|] eqn:Et.
  2: { f_equal. apply list_eq. intros j. destruct (decide (j = i)) as [->|]; [|by rewrite list_lookup_alter_ne].
       by rewrite list_lookup_alter_eq, Et. }
  destruct (Hok i t) as [[Hpos Hlen] Hc]; [set_solver|done|].
  replace (alter (ticker_at target) i objs) with (<[i := ticker_at target t]> objs)
    by (apply list_eq; intros j; destruct (decide (j = i)) as [->|];
        [by rewrite list_lookup_insert_eq, list_lookup_alter_eq, Et by (by eapply lookup_lt_Some)
        |by rewrite list_lookup_insert_ne, list_lookup_alter_ne]).
  unfold ticker_at. destruct (tk_stopped t) eqn:Es; [by rewrite list_insert_id|].
  by rewrite tick_loop_spec, Es.
Qed.

Lemma foldl_alter_lookup {A} (f : A -> A) (ids : list nat) (l : list A) i : NoDup ids ->
  foldl (fun o i => alter f i o) l ids !! i = (fun t => if decide (i ∈ ids) then f t else t) <$> l !! i.
Proof.
  intros Hnd. revert l. induction Hnd as [|j ids Hj Hnd IH]; intros l; cbn [foldl].
  { destruct (l !! i); cbn; [|done]. by rewrite decide_False by set_solver. }
  rewrite IH. destruct (decide (i = j)) as [->|Hij].
  - rewrite list_lookup_alter_eq, <- option_fmap_compose. apply option_fmap_ext. intros t; cbn.
    by rewrite decide_False, decide_True by set_solver.
  - rewrite list_lookup_alter_ne by done. apply option_fmap_ext. intros t. apply decide_ext. set_solver.
Qed.

(** ** The invariant and the reachable clocks *)

Record clock_inv (c : ManualClock) : Prop := mkClockInv {
  ci_sorted : sorted (timer_objs c) (timers c);
  ci_valid : Forall (fun i => (i < length (timer_objs c))%nat) (timers c);
  ci_tickers : Forall ticker_ok (ticker_objs c);
  ci_nodup : NoDup (tickers c);
  ci_live : forall i t, ticker_objs c !! i = Some t -> (i ∈ tickers c <-> tk_stopped t = false);
  ci_known : Forall (fun i => (i < length (ticker_objs c))%nat) (tickers c);
}.

Inductive reachable (start : time) : ManualClock -> Prop :=
| r_start : reachable start (NewManualClock start)
| r_NewTimer d c : reachable start c -> reachable start (snd (NewTimer d c))
| r_Sleep d c : reachable start c -> reachable start (snd (Sleep d c))
| r_AfterFunc d f c : reachable start c -> reachable start (snd (AfterFunc d f c))
| r_timer_Stop i c : reachable start c -> reachable start (snd (timer_Stop i c))
| r_timer_Reset i d c : reachable start c -> reachable start (snd (timer_Reset i d c))
| r_recv_timer i c : reachable start c -> reachable start (snd (recv_timer i c))
| r_NewTicker d c : 0 < d -> reachable start c -> reachable start (snd (NewTicker d c))
| r_ticker_Stop i c : reachable start c -> reachable start (ticker_Stop i c)
| r_ticker_Reset i d c : 0 < d -> reachable start c -> reachable start (ticker_Reset i d c)
| r_recv_tick i c : reachable start c -> reachable start (snd (recv_tick i c))
| r_Advance fuel d c fs c' : reachable start c -> Advance fuel d c = Some (fs, c') -> reachable start c'.

(** *** Each operation keeps the invariant *)

Lemma fire_time_insert objs i t j : fireAt t = fire_time objs i -> fire_time (<[i := t]> objs) j = fire_time objs j.
Proof.
  unfold fire_time. intros E. destruct (decide (i = j)) as [<-|]; [|by rewrite list_lookup_insert_ne].
  destruct (decide (i < length objs)%nat); [by rewrite list_lookup_insert_eq|].
  by rewrite list_insert_ge by lia.
Qed.

(** A registration sorts the timers, whatever has become of the objects. *)
Lemma addTimerLocked_inv c objs i : clock_inv c -> (length (timer_objs c) <= length objs)%nat -> (i < length objs)%nat ->
  clock_inv (addTimerLocked (with_objs c objs) i).
Proof.
  intros [Hs Hv Htk Hnd Hlv Hk] Hlen Hi. destruct (sort_timers_spec objs (timers c ++ [i])) as [H1 H2].
  split; try done. cbn. rewrite H2, Forall_app. split; [|by repeat constructor]. eapply Forall_impl; [exact Hv|]. cbn; lia.
Qed.

(** Changing the timer objects only: those registered keep their instants. *)
Lemma with_objs_inv c objs : clock_inv c -> (length (timer_objs c) <= length objs)%nat ->
  (forall i, i ∈ timers c -> fire_time (timer_objs c) i = fire_time objs i) -> clock_inv (with_objs c objs).
Proof.
  intros [Hs Hv Htk Hnd Hlv Hk] Hlen He. split; try done; cbn.
  - by eapply sorted_ext.
  - eapply Forall_impl; [exact Hv|]. cbn; lia.
Qed.

Lemma append_inv c t : clock_inv c -> clock_inv (with_objs c (timer_objs c ++ [t])).
Proof.
  intros Hc. apply with_objs_inv; [done|rewrite length_app; lia|]. intros i Hi.
  pose proof (ci_valid c Hc) as Hv. rewrite Forall_forall in Hv. unfold fire_time. by rewrite lookup_app_l by (by apply Hv).
Qed.

Lemma set_timer_inv c i t : clock_inv c -> fireAt t = fire_time (timer_objs c) i -> clock_inv (set_timer c i t).
Proof.
  intros Hc Ht. apply with_objs_inv; [done|rewrite length_insert; lia|]. intros j _. by rewrite fire_time_insert.
Qed.

Lemma remove_first_elem i j l : NoDup l -> (j ∈ remove_first i l <-> j ∈ l /\ j <> i).
Proof.
  induction 1 as [|k l Hk Hnd IH]; cbn; [set_solver|]. case_match eqn:E.
  - apply Nat.eqb_eq in E as ->. set_solver.
  - apply Nat.eqb_neq in E. rewrite !elem_of_cons, IH. naive_solver.
Qed.

Lemma NewTimer_inv d c : clock_inv c -> clock_inv (snd (NewTimer d c)).
Proof.
  intros Hc. unfold NewTimer; cbn [snd]. case_match; [by apply append_inv|].
  apply addTimerLocked_inv; [done|rewrite length_app; cbn; lia..].
Qed.

Lemma Sleep_inv d c : clock_inv c -> clock_inv (snd (Sleep d c)).
Proof. intros Hc. unfold Sleep. case_match; [done|]. by apply NewTimer_inv. Qed.

Lemma AfterFunc_inv d f c : clock_inv c -> clock_inv (snd (AfterFunc d f c)).
Proof. intros Hc. apply addTimerLocked_inv; [done|rewrite length_app; cbn; lia..]. Qed.

Lemma timer_Stop_inv i c : clock_inv c -> clock_inv (snd (timer_Stop i c)).
Proof.
  intros Hc. unfold timer_Stop. destruct (timer_objs c !! i) as [t|] eqn:Et; [|done]. case_match; [done|]. cbn [snd].
  assert (Hc' : clock_inv (set_timer c i (mkTimer (fireAt t) (ch t) true (fn t))))
    by (apply set_timer_inv; [done|]; unfold fire_time; by rewrite Et).
  destruct Hc' as [Hs Hv Htk Hnd Hlv Hk]. pose proof (remove_first_sublist i (timers c)) as Hsub. split; try done.
  - by eapply sorted_sublist.
  - cbn. rewrite Forall_forall in *. intros j Hj. apply Hv. by eapply elem_of_sublist.
Qed.

Lemma timer_Reset_inv i d c : clock_inv c -> clock_inv (snd (timer_Reset i d c)).
Proof.
  intros Hc. unfold timer_Reset. destruct (timer_objs c !! i) as [t|] eqn:Et; [|done]. cbn [snd].
  apply addTimerLocked_inv; [done|rewrite length_insert; lia|]. rewrite length_insert. by eapply lookup_lt_Some.
Qed.

Lemma recv_timer_inv i c : clock_inv c -> clock_inv (snd (recv_timer i c)).
Proof.
  intros Hc. unfold recv_timer. destruct (timer_objs c !! i) as [t|] eqn:Et; [|done].
  apply set_timer_inv; [done|]. unfold fire_time. by rewrite Et.
Qed.

Lemma NewTicker_inv d c : 0 < d -> clock_inv c -> clock_inv (snd (NewTicker d c)).
Proof.
  intros Hd [Hs Hv Htk Hnd Hlv Hk]. assert (length (ticker_objs c) ∉ tickers c) as Hni
    by (intros Hin; rewrite Forall_forall in Hk; specialize (Hk _ Hin); lia).
  split; cbn; try done.
  - apply Forall_app. split; [done|]. apply Forall_singleton. split; cbn [ticks length interval]; [done|apply Nat.le_0_l].
  - apply NoDup_app. split_and!; [done|set_solver|apply NoDup_singleton].
  - intros i t [Ht|[? Ht]]%lookup_app_Some.
    + rewrite <- (Hlv _ _ Ht). apply lookup_lt_Some in Ht. rewrite elem_of_app, list_elem_of_singleton. intuition lia.
    + apply list_lookup_singleton_Some in Ht as [? <-]. cbn. split; [done|]. intros _. set_unfold. right. lia.
  - rewrite length_app, Forall_app. split; [|repeat constructor; cbn; lia]. eapply Forall_impl; [exact Hk|]. cbn; lia.
Qed.

(** Changing one ticker and its registration together. *)
Lemma set_ticker_inv c i t l : clock_inv c -> ticker_ok t -> (i < length (ticker_objs c))%nat -> NoDup l ->
  (forall j, j <> i -> j ∈ l <-> j ∈ tickers c) -> (i ∈ l <-> tk_stopped t = false) ->
  clock_inv (mkClock (clk_now c) (timer_objs c) (timers c) (<[i := t]> (ticker_objs c)) l).
Proof.
  intros [Hs Hv Htk Hnd Hlv Hk] Ht Hi Hnd' Hl Hil. split; cbn; try done.
  - by apply Forall_insert.
  - intros j u [(<- & <- & _)|[Hij Hu]]%list_lookup_insert_Some; [done|]. rewrite Hl by done. by apply Hlv.
  - rewrite length_insert. rewrite Forall_forall in *. intros j Hj. destruct (decide (j = i)) as [->|]; [done|].
    apply Hk. by apply Hl.
Qed.

Lemma ticker_Stop_inv i c : clock_inv c -> clock_inv (ticker_Stop i c).
Proof.
  intros Hc. unfold ticker_Stop. destruct (ticker_objs c !! i) as [t|] eqn:Et; [|done].
  assert (Hok : ticker_ok t) by (by eapply Forall_lookup_1; [apply ci_tickers|]). pose proof (ci_nodup c Hc) as Hnd.
  apply set_ticker_inv; [done|done|by eapply lookup_lt_Some|..].
  - eapply sublist_NoDup; [done|apply remove_first_sublist].
  - intros j Hj. rewrite remove_first_elem by done. tauto.
  - rewrite remove_first_elem by done. cbn. intuition congruence.
Qed.

Lemma addTickerLocked_spec i l : NoDup l ->
  NoDup (addTickerLocked i l) /\ forall j, j ∈ addTickerLocked i l <-> j = i \/ j ∈ l.
Proof.
  intros Hnd. unfold addTickerLocked. case_decide as Hi.
  - split; [done|]. intros j. split; [by right|]. by intros [->|].
  - split; [apply NoDup_app; split_and!; [done|set_solver|apply NoDup_singleton]|]. set_solver.
Qed.

Lemma ticker_Reset_inv i d c : 0 < d -> clock_inv c -> clock_inv (ticker_Reset i d c).
Proof.
  intros Hd Hc. unfold ticker_Reset. destruct (ticker_objs c !! i) as [t|] eqn:Et; [|done].
  assert (Hok : ticker_ok t) by (by eapply Forall_lookup_1; [apply ci_tickers|]). pose proof (ci_nodup c Hc) as Hnd.
  pose proof (ci_live c Hc i t Et) as Hlv. destruct (addTickerLocked_spec i _ Hnd) as [Hnd' Hin].
  apply set_ticker_inv; [done|by split; [|apply Hok]|by eapply lookup_lt_Some|..]; destruct (tk_stopped t); cbn; try done.
  - intros j Hj. rewrite Hin. naive_solver.
  - rewrite Hin. naive_solver.
Qed.

Lemma recv_tick_inv i c : clock_inv c -> clock_inv (snd (recv_tick i c)).
Proof.
  intros Hc. unfold recv_tick. destruct (ticker_objs c !! i) as [t|] eqn:Et; [|done].
  assert (Hok : ticker_ok t) by (by eapply Forall_lookup_1; [apply ci_tickers|]).
  apply set_ticker_inv; [done| |by eapply lookup_lt_Some|by apply ci_nodup|done|exact (ci_live c Hc i t Et)].
  destruct Hok as [H1 H2]. split; cbn [interval ticks]; [done|]. destruct (ticks t); cbn in *; lia.
Qed.

(** *** [Advance]: more fuel does not change a result *)

Lemma fire_loop_mono target fuel objs l r : fire_loop fuel target objs l = Some r ->
  forall fuel', (fuel <= fuel')%nat -> fire_loop fuel' target objs l = Some r.
Proof.
  revert objs l r. induction fuel as [|fuel IH]; intros objs l r E fuel' Hf; destruct fuel' as [|fuel']; try lia;
    cbn [fire_loop] in *; destruct (take_due objs target l) as [[i l1]|]; try done.
  destruct (fire_timer objs i) as [objs1 sp]. apply bind_Some in E as ([[o l2] fs] & E1 & E2).
  by rewrite (IH _ _ _ E1) by lia.
Qed.

Lemma tick_loop_mono target fuel t r : tick_loop fuel target t = Some r ->
  forall fuel', (fuel <= fuel')%nat -> tick_loop fuel' target t = Some r.
Proof.
  revert t r. induction fuel as [|fuel IH]; intros t r E fuel' Hf; rewrite tick_loop_step in E |- *; case_match; try done.
  destruct fuel' as [|fuel']; [lia|]. apply IH; [done|lia].
Qed.

Lemma tick_all_mono target fuel ids objs r : tick_all fuel target ids objs = Some r ->
  forall fuel', (fuel <= fuel')%nat -> tick_all fuel' target ids objs = Some r.
Proof.
  revert objs r. induction ids as [|i ids IH]; intros objs r E fuel' Hf; [done|]. cbn [tick_all] in *.
  destruct (objs !! i) as [t|]; [|by eauto]. destruct (tk_stopped t); [by eauto|].
  apply bind_Some in E as (t' & E1 & E2). rewrite (tick_loop_mono _ _ _ _ E1) by done. cbn. by eauto.
Qed.

Lemma Advance_mono fuel d c r : Advance fuel d c = Some r ->
  forall fuel', (fuel <= fuel')%nat -> Advance fuel' d c = Some r.
Proof.
  unfold Advance. intros E fuel' Hf. apply bind_Some in E as ([[o l] fs] & E1 & E2).
  apply bind_Some in E2 as (tks & E2 & E3). rewrite (fire_loop_mono _ _ _ _ _ E1) by done. cbn.
  by rewrite (tick_all_mono _ _ _ _ _ E2).
Qed.

(** The functions of the timers that are due at [target], in the order in which they go off. *)
Definition due_timers (c : ManualClock) (target : time) : list nat :=
  filter (fun i => due (timer_objs c) target i = true) (timers c).

(** Fuel that is enough: the timers that are due, and the ticks of the busiest ticker. *)
Definition advance_fuel (d : duration) (c : ManualClock) : nat :=
  let target := time_add (clk_now c) d in
  (length (due_timers c target) + Z.to_nat (most_crossed target (ticker_objs c)))%nat.

Lemma Advance_spec d c : clock_inv c ->
  let target := time_add (clk_now c) d in
  exists c', Advance (advance_fuel d c) d c = Some (concat (map (starts (timer_objs c)) (due_timers c target)), c') /\
    clk_now c' = target /\ Forall2 same_timer (timer_objs c') (timer_objs c) /\
    timers c' = filter (fun i => due (timer_objs c) target i = false) (timers c) /\
    tickers c' = tickers c /\ ticker_objs c' = map (ticker_at target) (ticker_objs c).
Proof.
  intros Hc target. unfold Advance. fold target. set (fuel := advance_fuel d c).
  destruct (fire_loop_spec target fuel (timer_objs c) (timers c)) as (objs' & E1 & Hs);
    [unfold fuel, advance_fuel, due_timers; fold target; lia|].
  rewrite E1. cbn [mbind option_bind]. rewrite tick_all_alter; [|by apply ci_nodup|].
  2: { intros i t _ Ht. split; [by eapply Forall_lookup_1; [apply ci_tickers|]|].
       apply list_elem_of_lookup_2, (most_crossed_le target) in Ht. unfold fuel, advance_fuel. fold target. lia. }
  cbn. eexists. split_and!; [done..|]. cbn. apply list_eq. intros i. rewrite foldl_alter_lookup by (by apply ci_nodup).
  rewrite list_lookup_fmap. destruct (ticker_objs c !! i) as [t|] eqn:Et; [|done]. cbn. f_equal.
  case_decide as Hi; [done|]. rewrite (ci_live c Hc i t Et) in Hi. unfold ticker_at. by destruct (tk_stopped t).
Qed.

Lemma ticker_at_ok target t : ticker_ok t -> ticker_ok (ticker_at target t) /\ tk_stopped (ticker_at target t) = tk_stopped t.
Proof.
  intros [H1 H2]. unfold ticker_at. destruct (tk_stopped t) eqn:E; [done|]. split; [|done]. split; [done|].
  cbn [ticks]. rewrite length_firstn. lia.
Qed.

Lemma Advance_det fuel fuel' d c r r' : Advance fuel d c = Some r -> Advance fuel' d c = Some r' -> r = r'.
Proof.
  intros E E'. apply Advance_mono with (fuel' := (fuel + fuel')%nat) in E; [|lia].
  apply Advance_mono with (fuel' := (fuel + fuel')%nat) in E'; [|lia]. congruence.
Qed.

Lemma Advance_inv fuel d c fs c' : clock_inv c -> Advance fuel d c = Some (fs, c') -> clock_inv c'.
Proof.
  intros Hc E. destruct (Advance_spec d c Hc) as (c1 & E1 & _ & Hs & Ht & Hk & Ho).
  pose proof (Advance_det _ _ _ _ _ _ E E1) as [= -> ->]. clear E E1.
  assert (Hsub : timers c1 `sublist_of` timers c) by (rewrite Ht; apply sublist_filter).
  assert (Hl : length (timer_objs c1) = length (timer_objs c)) by (by eapply Forall2_length).
  destruct Hc as [Hso Hv Htk Hnd Hlv Hkn]. split; rewrite ?Hl, ?Ho, ?Hk, ?length_map; try done.
  - eapply sorted_sublist; [exact Hsub|]. eapply sorted_ext; [|exact Hso]. intros i _. unfold fire_time.
    by destruct (same_lookup _ _ i Hs) as [a b (E&?&?)|].
  - rewrite Forall_forall in *. intros i Hi. apply Hv. by eapply elem_of_sublist.
  - rewrite Forall_fmap. eapply Forall_impl; [exact Htk|]. intros t Hok. by apply ticker_at_ok.
  - intros i u. rewrite list_lookup_fmap. intros (t & Ht' & ->)%fmap_Some. rewrite (Hlv _ _ Ht').
    rewrite (proj2 (ticker_at_ok _ _ (Forall_lookup_1 _ _ _ _ Htk Ht'))). done.
Qed.

#[local] Hint Resolve NewTimer_inv Sleep_inv AfterFunc_inv timer_Stop_inv timer_Reset_inv recv_timer_inv NewTicker_inv
  ticker_Stop_inv ticker_Reset_inv recv_tick_inv Advance_inv : clock.

Lemma clock_reachable_inv start c : reachable start c -> clock_inv c.
Proof. induction 1; eauto with clock. split; cbn; unfold sorted; (done || constructor). Qed.

Lemma ticker_at_ahead target t : 0 < interval t -> tk_stopped t = false -> target < nextFire (ticker_at target t).
Proof.
  intros Hi Hs. unfold ticker_at. rewrite Hs. cbn [nextFire]. unfold crossed, After. case_match eqn:E.
  - apply Z.ltb_lt in E. lia.
  - pose proof (Z.div_mod (target - nextFire t) (interval t)). pose proof (Z.mod_pos_bound (target - nextFire t) (interval t)).
    nia.
Qed.

(** C31: on a clock reached from a new one by any sequence of the operations (tickers with positive intervals), [Advance]
    returns: given [advance_fuel], and with any more fuel the same result.  The functions it starts are those of the
    registered timers that are due and not stopped, and they start in the order of their instants; every timer left is
    after the new time; every ticker that is not stopped has received one tick per interval crossed, in order and as far
    as its buffer of 1024 goes, and its next tick is after the new time. *)
Theorem advance_fires_due start c d : reachable start c ->
  let target := time_add (Now c) d in
  exists c', (forall fuel, (advance_fuel d c <= fuel)%nat ->
      Advance fuel d c = Some (concat (map (starts (timer_objs c)) (due_timers c target)), c')) /\
    Now c' = target /\
    StronglySorted (fun i j => fire_time (timer_objs c) i <= fire_time (timer_objs c) j) (due_timers c target) /\
    (timers c ≡ₚ due_timers c target ++ timers c') /\
    Forall (fun i => target < fire_time (timer_objs c') i) (timers c') /\
    (forall i t, ticker_objs c !! i = Some t -> tk_stopped t = false ->
       exists t', ticker_objs c' !! i = Some t' /\ target < nextFire t' /\ interval t' = interval t /\
         ticks t' = firstn tickerChanBuffer
           (ticks t ++ map (fun k => nextFire t + Z.of_nat k * interval t) (seq 0 (Z.to_nat (crossed target t))))).
Proof.
  intros Hr target. pose proof (clock_reachable_inv _ _ Hr) as Hc.
  destruct (Advance_spec d c Hc) as (c' & E & Hn & Hs & Ht & Hk & Ho). fold target in E, Hn, Ht, Ho. exists c'. split_and!.
  - intros fuel Hf. by eapply Advance_mono.
  - exact Hn.
  - eapply sorted_sublist; [apply sublist_filter|]. by apply ci_sorted.
  - rewrite Ht. unfold due_timers. rewrite (list_filter_iff (fun i => due (timer_objs c) target i = false)
      (fun i => ~ due (timer_objs c) target i = true)) by (intros i; by rewrite not_true_iff_false).
    by rewrite filter_app_complement.
  - rewrite Ht, Forall_forall. intros i Hi. apply list_elem_of_filter in Hi as [Hi _].
    rewrite <- (same_due _ _ _ _ Hs) in Hi. unfold due, After in Hi. apply negb_false_iff, Z.ltb_lt in Hi. done.
  - intros i t Hi Hst. exists (ticker_at target t). rewrite Ho, list_lookup_fmap, Hi.
    assert (Hok : ticker_ok t) by (by eapply Forall_lookup_1; [apply ci_tickers|]).
    split_and!; [done|apply ticker_at_ahead; [apply Hok|done]|unfold ticker_at; by rewrite Hst..].
Qed.

(** A timer of one second, a function after two, and a ticker of 400 ms, advanced by 2.5 s. *)
Lemma advance_fires_due_witness :
  let c := snd (NewTicker 400 (snd (AfterFunc 2000 7 (snd (NewTimer 1000 (NewManualClock 0)))))) in
  reachable 0 c /\ due_timers c 2500 = [0; 1]%nat /\
  exists c', Advance (advance_fuel 2500 c) 2500 c = Some ([7]%nat, c') /\ Now c' = 2500 /\ timers c' = [] /\
    ch <$> timer_objs c' !! 0%nat = Some (Some 1000) /\
    ticks <$> ticker_objs c' !! 0%nat = Some [400; 800; 1200; 1600; 2000; 2400].
Proof.
  intros c. assert (Hr : reachable 0 c) by (unfold c; repeat constructor). split_and!; [done|vm_compute; reflexivity|].
  destruct (advance_fires_due 0 c 2500 Hr) as (c' & H & _). specialize (H _ (le_n _)).
  assert (E : Advance (advance_fuel 2500 c) 2500 c = Some ([7]%nat, snd (default ([], c) (Advance 20 2500 c))))
    by (vm_compute; reflexivity).
  rewrite H in E. injection E as ->. exists (snd (default ([], c) (Advance 20 2500 c))). split_and!;
    [rewrite H; vm_compute; reflexivity|vm_compute; reflexivity..].
Defined.

(** ** Where the test double differs from the runtime's timers *)

(** [Reset] of a timer that is still registered registers it again: one [Advance] starts its function twice. *)
Theorem reset_active_fires_twice :
  let '(i, c) := AfterFunc 100 7 (NewManualClock 0) in
  let '(active, c) := timer_Reset i 100 c in
  active = true /\ fst <$> Advance 10 100 c = Some [7; 7]%nat.
Proof. vm_compute. done. Qed.

(** [Stop] of a timer that has fired reports that it was stopped in time. *)
Theorem stop_after_firing_true :
  let '(i, c) := AfterFunc 100 7 (NewManualClock 0) in
  exists fs c', Advance 10 100 c = Some (fs, c') /\ fs = [7]%nat /\ fst (timer_Stop i c') = true.
Proof. vm_compute. eauto. Qed.

(** A ticker whose interval is not positive is accepted, and [Advance] never returns once it is due. *)
Theorem nonpositive_ticker_never_returns d a start : d <= 0 -> 0 <= a ->
  forall fuel, Advance fuel a (snd (NewTicker d (NewManualClock start))) = None.
Proof.
  intros Hd Ha fuel. set (c := snd _). unfold Advance. change (clk_now c) with start.
  assert (H : forall f t, interval t = d -> nextFire t <= start + a -> tick_loop f (start + a) t = None).
  { induction f as [|f IH]; intros t Hi Hn; rewrite tick_loop_step; unfold After;
      rewrite (proj2 (Z.ltb_ge _ _)) by done; [done|]. apply IH; [done|]. unfold tick_once, time_add; cbn [nextFire]. lia. }
  replace (fire_loop fuel (time_add start a) (timer_objs c) (timers c)) with (Some (@nil manualTimer, @nil nat, @nil nat))
    by (by destruct fuel).
  cbn [mbind option_bind tick_all c snd NewTicker tickers ticker_objs NewManualClock app length lookup list_lookup tk_stopped].
  unfold time_add. by rewrite H by (cbn; unfold time_add; lia).
Qed.
