(* ===== verification/Debounce.v ===== *)
(** * Debouncer and throttler ([debounce/debounce.go], [debounce/throttle.go]).

    Both arm timers whose callbacks run on goroutines of their own.  A state
    holds the runtime's timers, the callbacks that have been started and wait
    for the mutex, the object, and the functions handed to goroutines that have
    yet to call them; a step is a call, a timer that goes off, a callback's
    critical section, the call of a function by its goroutine (after the mutex
    was released), or the passing of time.  Functions are numbered by the call
    that supplied them. *)

From Stdlib Require Import Sorting.Sorted.
From stdpp Require Import relations.
From S2P Require Import Prelude.
Open Scope Z_scope.

(** ** Timers of the runtime

    [K] names the callbacks; a timer that is not armed has no instant. *)

Section timers.
Context {K : Type}.

Record runtime := mkRt { now : time; timers : list (K * option time); started : list K }.

Definition AfterFunc (d : duration) (k : K) (rt : runtime) : nat * runtime :=
  (length (timers rt), mkRt (now rt) (timers rt ++ [(k, Some (time_add (now rt) d))]) (started rt)).

Definition arm (i : nat) (at_ : option time) (rt : runtime) : runtime :=
  match timers rt !! i with
  | Some (k, _) => mkRt (now rt) (<[i := (k, at_)]> (timers rt)) (started rt)
  | None => rt
  end.

(** [Timer.Stop] and [Timer.Reset] of a timer made by [AfterFunc]: they do not recall a callback that has been started. *)
Definition timer_Stop (i : nat) (rt : runtime) : runtime := arm i None rt.
Definition timer_Reset (i : nat) (d : duration) (rt : runtime) : runtime := arm i (Some (time_add (now rt) d)) rt.

(** Timer [i] goes off: its callback is started on a goroutine. *)
Definition fire (i : nat) (rt : runtime) : option runtime :=
  match timers rt !! i with
  | Some (k, Some t) =>
      if t <=? now rt then Some (mkRt (now rt) (<[i := (k, None)]> (timers rt)) (started rt ++ [k])) else None
  | _ => None
  end.

(** The [j]-th callback gets the mutex. *)
Definition begin (j : nat) (rt : runtime) : option (K * runtime) :=
  k ← started rt !! j; Some (k, mkRt (now rt) (timers rt) (delete j (started rt))).

Definition elapse (d : duration) (rt : runtime) : runtime := mkRt (time_add (now rt) d) (timers rt) (started rt).

(** No callback waits and no timer is overdue. *)
Definition settled (rt : runtime) : Prop :=
  started rt = [] /\ Forall (fun kt => match snd kt with Some t => now rt < t | None => True end) (timers rt).

End timers.
Arguments runtime : clear implicits.

(** An edge of a burst, and the function taken or called on it with the instant. *)
Inductive edge := Leading | Trailing.
#[export] Instance edge_eq : EqDecision edge.
Proof. solve_decision. Defined.
Record invocation := mkInv { i_fn : nat; i_edge : edge; i_at : time }.

(** The functions that critical sections have handed over, in their order; the
    goroutines that have left the mutex and not yet called their function; the
    calls that have been made. *)
Record output := mkOut { handed : list invocation; waiting : list invocation; ran : list invocation }.

Definition no_output : output := mkOut [] [] [].

(** A critical section hands over [l]: each function to a goroutine of its own. *)
Definition give (o : output) (l : list invocation) : output := mkOut (handed o ++ l) (waiting o ++ l) (ran o).

(** The [k]-th waiting goroutine calls its function. *)
Definition call_fn (k : nat) (t : time) (o : output) : option output :=
  i ← waiting o !! k;
  Some (mkOut (handed o) (delete k (waiting o)) (ran o ++ [mkInv (i_fn i) (i_edge i) t])).

(** Which function on which edge. *)
Definition job (i : invocation) : nat * edge := (i_fn i, i_edge i).

(** What was handed over has been called once or is about to be. *)
Definition out_ok (o : output) : Prop := map job (ran o ++ waiting o) ≡ₚ map job (handed o).

Lemma give_ok o l : out_ok o -> out_ok (give o l).
Proof.
  unfold out_ok, give. cbn. intros H. rewrite app_assoc, (map_app job (ran o ++ waiting o)), (map_app job (handed o)).
  by rewrite H.
Qed.

Lemma call_ok k t o o' : call_fn k t o = Some o' -> out_ok o -> out_ok o' /\ handed o' = handed o.
Proof.
  unfold call_fn, out_ok. destruct (waiting o !! k) as [i|] eqn:E; [|done]. cbn. intros [= <-] H. split; [|done].
  cbn. rewrite <- H, <- app_assoc, !map_app. apply Permutation_app_head. cbn.
  symmetry. exact (Permutation_map job (delete_Permutation _ _ _ E)).
Qed.

(** Once no goroutine waits, what was handed over has been called. *)
Lemma handed_ran o i : out_ok o -> waiting o = [] -> i ∈ handed o -> exists j, j ∈ ran o /\ job j = job i.
Proof.
  unfold out_ok. intros H Hw Hi. rewrite Hw, app_nil_r in H.
  assert (job i ∈ map job (ran o)) as Hj by (rewrite H; by apply list_elem_of_fmap_2).
  apply list_elem_of_fmap in Hj as (j & -> & Hj). eauto.
Qed.

(** ** The debouncer *)

Module Debouncer.

Inductive callback := onTrailing_ | onMaxWait_.

Record Debouncer := mkDeb {
  delay : duration;
  maxWait : duration;
  leading : bool;
  timer : option nat;
  maxTimer : option nat;
  pending : option nat;
  leadingDone : bool;
  callCount : Z;
  stopped : bool;
}.

(** A state: the runtime, the debouncer, the functions it handed over, and, for the statements, the number of calls accepted so
    far with the instant of the last one and of the first one of its burst. *)
Record state := mkState {
  rt : runtime callback; deb : Debouncer; out : output; calls : nat; last : time; burst : time;
}.

Record options := mkOptions { o_leading : bool; o_maxWait : duration }.

Definition New (d : duration) (o : options) : outcome Debouncer :=
  if d <=? 0 then Panic "debounce.New: delay must be > 0"
  else
    let mw := if 0 <? o_maxWait o then o_maxWait o else 0 in
    let mw := if (0 <? mw) && (mw <? d) then d else mw in
    Ok (mkDeb d mw (o_leading o) None None None false 0 false).

Definition Trigger (st : state) : state :=
  let d := deb st in
  if stopped d then st
  else
    let fn := calls st in
    let fresh := match timer d with None => true | Some _ => false end in
    let t := now (rt st) in
    let runNow := if fresh && leading d then [mkInv fn Leading t] else [] in
    let '(mt, r) :=
      if fresh && (0 <? maxWait d) then let '(i, r) := AfterFunc (maxWait d) onMaxWait_ (rt st) in (Some i, r)
      else (maxTimer d, rt st) in
    let lead := if fresh then leading d else leadingDone d in
    let count := (if fresh then 0 else callCount d) + 1 in
    let '(i, r) := match timer d with
                   | None => AfterFunc (delay d) onTrailing_ r
                   | Some i => (i, timer_Reset i (delay d) r)
                   end in
    mkState r (mkDeb (delay d) (maxWait d) (leading d) (Some i) mt (Some fn) lead count false)
      (give (out st) runNow) (S fn) t (if fresh then t else burst st).

Definition leadingSuppressesTrailing (d : Debouncer) : bool := callCount d <=? 1.

Definition stop_opt (i : option nat) (r : runtime callback) : runtime callback :=
  match i with Some i => timer_Stop i r | None => r end.

Definition takeAndResetLocked (d : Debouncer) (r : runtime callback) : option nat * Debouncer * runtime callback :=
  let fn := if leadingDone d && leadingSuppressesTrailing d then None else pending d in
  (fn, mkDeb (delay d) (maxWait d) (leading d) None None None false (callCount d) (stopped d), stop_opt (maxTimer d) r).

(** End the burst and hand over what it leaves: the callback calls it after
    it has unlocked the mutex. *)
Definition finish (st : state) (r : runtime callback) : state :=
  let '(fn, d, r) := takeAndResetLocked (deb st) r in
  mkState r d (give (out st) match fn with Some f => [mkInv f Trailing (now r)] | None => [] end) (calls st) (last st) (burst st).

Definition onTrailing (st : state) (r : runtime callback) : state := finish st r.

Definition onMaxWait (st : state) (r : runtime callback) : state :=
  match timer (deb st) with
  | None => mkState r (deb st) (out st) (calls st) (last st) (burst st)
  | Some i => finish st (timer_Stop i r)
  end.

Definition Stop (st : state) : state :=
  let d := deb st in
  mkState (stop_opt (maxTimer d) (stop_opt (timer d) (rt st)))
    (mkDeb (delay d) (maxWait d) (leading d) None None None (leadingDone d) (callCount d) true)
    (out st) (calls st) (last st) (burst st).

Inductive action := ATrigger | AStop | AFire (i : nat) | ARun (j : nat) | ACall (k : nat) | AElapse (d : duration).

Definition with_rt (st : state) (r : runtime callback) : state := mkState r (deb st) (out st) (calls st) (last st) (burst st).

Definition exec (st : state) (a : action) : option state :=
  match a with
  | ATrigger => Some (Trigger st)
  | AStop => Some (Stop st)
  | AFire i => r ← fire i (rt st); Some (with_rt st r)
  | ARun j =>
      '(k, r) ← begin j (rt st);
      Some (match k with onTrailing_ => onTrailing st r | onMaxWait_ => onMaxWait st r end)
  | ACall k =>
      o ← call_fn k (now (rt st)) (out st);
      Some (mkState (rt st) (deb st) o (calls st) (last st) (burst st))
  | AElapse d => if 0 <=? d then Some (with_rt st (elapse d (rt st))) else None
  end.

Fixpoint run (st : state) (acts : list action) : option state :=
  match acts with [] => Some st | a :: acts => st' ← exec st a; run st' acts end.

Definition start (d : Debouncer) (t : time) : state := mkState (mkRt t [] []) d no_output 0 t t.

End Debouncer.

(** ** Facts on timers *)

Section timer_facts.
Context {K : Type}.
Implicit Types r : runtime K.

Lemma arm_started i o r : started (arm i o r) = started r /\ now (arm i o r) = now r.
Proof. unfold arm. destruct (timers r !! i) as [[]|]; done. Qed.

Lemma arm_lookup_ne i j o r : i <> j -> timers (arm i o r) !! j = timers r !! j.
Proof. intros H. unfold arm. destruct (timers r !! i) as [[]|]; [|done]. by apply list_lookup_insert_ne. Qed.

Lemma arm_lookup i o r k o' : timers r !! i = Some (k, o') -> timers (arm i o r) !! i = Some (k, o).
Proof. intros H. unfold arm. rewrite H. apply list_lookup_insert_eq. by eapply lookup_lt_Some. Qed.

(** Timer [i] belongs to the callback [k], which has been started or will be by [t]. *)
Definition due (i : nat) (k : K) (t : time) r : Prop :=
  exists o, timers r !! i = Some (k, o) /\ (k ∈ started r \/ exists u, o = Some u /\ u <= t).

Lemma due_AfterFunc i k t d k' r : due i k t r -> due i k t (snd (AfterFunc d k' r)).
Proof.
  intros (o & Hi & H). exists o. split; [|done]. cbn. by apply lookup_app_l_Some.
Qed.

Lemma due_new d k r : due (fst (AfterFunc d k r)) k (now r + d) (snd (AfterFunc d k r)).
Proof.
  eexists. cbn. split; [by apply list_lookup_middle|]. right. eexists. split; [done|]. unfold time_add. lia.
Qed.

Lemma due_Reset i k t d r : due i k t r -> due i k (now r + d) (timer_Reset i d r).
Proof.
  intros (o & Hi & _). eexists. split; [by eapply arm_lookup|]. right. eexists. split; [done|]. unfold time_add. lia.
Qed.

Lemma due_arm_other i j k t o r : i <> j -> due j k t r -> due j k t (arm i o r).
Proof.
  intros Hne (o' & Hi & H). exists o'. rewrite arm_lookup_ne by done. split; [done|].
  by rewrite (proj1 (arm_started i o r)).
Qed.

Lemma due_fire i k t j r r' : due i k t r -> fire j r = Some r' -> due i k t r'.
Proof.
  intros (o & Hi & H). unfold fire. destruct (timers r !! j) as [[k' [u|]]|] eqn:Ej; try done.
  case_cmp; [|done]. intros [= <-]. unfold due. cbn. destruct (decide (i = j)) as [<-|Hne].
  - rewrite Hi in Ej. simplify_eq. exists None. rewrite list_lookup_insert_eq by (by eapply lookup_lt_Some).
    split; [done|]. left. set_solver.
  - exists o. rewrite list_lookup_insert_ne by done. split; [done|]. destruct H; [left; set_solver|by right].
Qed.

(** Running another callback. *)
Lemma due_begin i k t j k' r r' : due i k t r -> begin j r = Some (k', r') -> k' <> k -> due i k t r'.
Proof.
  intros (o & Hi & H). unfold begin. destruct (started r !! j) as [k1|] eqn:Ej; [|done]. cbn. intros [= -> <-] Hne.
  exists o. split; [done|]. cbn. destruct H as [H|H]; [left|by right].
  apply list_elem_of_lookup in H as [m Hm]. apply list_elem_of_lookup.
  assert (m <> j) as Hmj by congruence. destruct (decide (m < j)%nat).
  - exists m. by rewrite list_lookup_delete_lt.
  - exists (pred m). rewrite list_lookup_delete_ge by lia. replace (S (pred m)) with m by lia. done.
Qed.

Lemma due_settled i k t r : settled r -> due i k t r -> now r < t.
Proof.
  intros [Hs Ht] (o & Hi & [H|(u & -> & Hu)]); [rewrite Hs in H; set_solver|].
  pose proof (Forall_lookup_1 _ _ _ _ Ht Hi) as Hn. cbn in Hn. lia.
Qed.

End timer_facts.

(** ** Properties of the debouncer *)

Section debouncer.
Import Debouncer.

(** The functions that ran on an edge. *)
Definition ids (e : edge) (l : list invocation) : list nat :=
  omap (fun i => match i_edge i, e with Leading, Leading | Trailing, Trailing => Some (i_fn i) | _, _ => None end) l.

Definition increasing_below (n : nat) (l : list nat) : Prop := StronglySorted lt l /\ Forall (fun i => (i < n)%nat) l.

Lemma increasing_mono n m l : (n <= m)%nat -> increasing_below n l -> increasing_below m l.
Proof. intros Hn [Hs Hf]. split; [done|]. apply (Forall_impl _ _ _ Hf). lia. Qed.

Lemma increasing_snoc n m l : increasing_below n l -> (n < m)%nat -> increasing_below m (l ++ [n]).
Proof.
  intros [Hs Hf] Hm. split.
  - induction Hs as [|x l Hs IH Hx]; cbn; [by repeat constructor|]. rewrite Forall_cons in Hf. destruct Hf as [Hxn Hf].
    constructor; [by apply IH|]. apply Forall_app. split; [done|by constructor].
  - apply Forall_app. split; [apply (Forall_impl _ _ _ Hf); lia|by constructor].
Qed.

Record deb_inv (st : state) : Prop := mkDebInv {
  di_cfg : 0 < delay (deb st);
  di_max : maxWait (deb st) = 0 \/ delay (deb st) <= maxWait (deb st);
  di_leading : increasing_below (calls st) (ids Leading (handed (out st)));
  di_trailing : increasing_below (match pending (deb st) with Some f => f | None => calls st end) (ids Trailing (handed (out st)));
  di_pending : forall f, pending (deb st) = Some f -> S f = calls st /\ 1 <= callCount (deb st) /\
    (leadingDone (deb st) = true -> callCount (deb st) = 1 -> exists i, i ∈ handed (out st) /\ i_fn i = f);
  di_burst : is_Some (timer (deb st)) <-> is_Some (pending (deb st));
  di_stopped : stopped (deb st) = true -> timer (deb st) = None;
  di_latest : (0 < calls st)%nat -> stopped (deb st) = false -> pending (deb st) = None ->
    exists i, i ∈ handed (out st) /\ S (i_fn i) = calls st;
  di_timer : forall i, timer (deb st) = Some i -> due i onTrailing_ (last st + delay (deb st)) (rt st);
  di_maxTimer : is_Some (timer (deb st)) -> 0 < maxWait (deb st) ->
    exists m, maxTimer (deb st) = Some m /\ due m onMaxWait_ (burst st + maxWait (deb st)) (rt st);
}.

Lemma due_distinct i j t t' (r : runtime callback) : due i onTrailing_ t r -> due j onMaxWait_ t' r -> i <> j.
Proof. intros (o & H1 & _) (o' & H2 & _) ->. congruence. Qed.

Lemma ids_app e l l' : ids e (l ++ l') = ids e l ++ ids e l'.
Proof. unfold ids. by rewrite omap_app. Qed.

Lemma trigger_inv st : deb_inv st -> deb_inv (Trigger st).
Proof.
  intros Hinv. pose proof Hinv as [H1 H2 H3 H4 H5 H6 H7 H8 H9 H10]. unfold Trigger.
  destruct (stopped (deb st)) eqn:Es; [done|].
  assert (increasing_below (calls st) (ids Trailing (handed (out st)))) as Ht.
  { destruct (pending (deb st)) as [f|] eqn:Ep; [|done]. destruct (H5 f eq_refl) as [<- _].
    eapply increasing_mono; [|done]. lia. }
  destruct (timer (deb st)) as [i|] eqn:Et; cbn [andb].
  - (* the burst goes on *)
    destruct (proj1 H6 (mk_is_Some _ _ eq_refl)) as [f Ep]. specialize (H9 i eq_refl).
    constructor; cbn [deb rt out handed give calls last burst delay maxWait leading timer maxTimer pending leadingDone callCount stopped];
      rewrite ?app_nil_r; auto.
    + eapply increasing_mono; [|done]. lia.
    + intros g [= <-]. destruct (H5 f Ep) as (_ & Hc & _). split_and!; [done|lia|]. lia.
    + split; eauto.
    + discriminate.
    + intros j [= <-]. by eapply due_Reset.
    + intros _ Hm. destruct (H10 (mk_is_Some _ _ eq_refl) Hm) as (m & Em & Hd). exists m. split; [done|].
      apply due_arm_other; [|done]. by eapply due_distinct.
  - (* a new burst *)
    destruct (if 0 <? maxWait (deb st) then _ else _) as [mt r] eqn:Emt.
    assert (now r = now (rt st) /\ (0 < maxWait (deb st) ->
      exists m, mt = Some m /\ due m onMaxWait_ (now (rt st) + maxWait (deb st)) r)) as [Hnow Hmax].
    { destruct (Z.ltb_spec 0 (maxWait (deb st))); cbn in Emt; injection Emt as <- <-; [|split; [done|lia]].
      split; [done|]. intros _. eexists. split; [done|]. apply (due_new (maxWait (deb st)) onMaxWait_ (rt st)). }
    cbn [AfterFunc]. constructor;
      cbn [deb rt out handed give calls last burst delay maxWait leading timer maxTimer pending leadingDone callCount stopped];
      rewrite ?ids_app; auto.
    + destruct (leading (deb st)); cbn; rewrite ?app_nil_r;
        [by apply increasing_snoc; [|lia]|eapply increasing_mono; [|done]; lia].
    + destruct (leading (deb st)); cbn; by rewrite app_nil_r.
    + intros f [= <-]. split_and!; [done|lia|]. intros -> _. eexists (mkInv (calls st) Leading (now (rt st))).
      split; [set_solver|done].
    + split; eauto.
    + discriminate.
    + discriminate.
    + intros j [= <-]. rewrite <- Hnow. apply (due_new (delay (deb st)) onTrailing_ r).
    + intros _ Hm. destruct (Hmax Hm) as (m & -> & Hd). exists m. split; [done|].
      apply (due_AfterFunc _ _ _ (delay (deb st)) onTrailing_ r Hd).
Qed.

Lemma finish_inv st r : deb_inv st -> deb_inv (finish st r).
Proof.
  intros [H1 H2 H3 H4 H5 H6 H7 H8 H9 H10]. unfold finish, takeAndResetLocked.
  constructor; cbn [deb rt out handed give calls last burst delay maxWait leading timer maxTimer pending leadingDone callCount stopped];
    auto; try (intros; discriminate); try (by intros []); try (by split; intros []); rewrite ?ids_app.
  - by destruct (_ && _), (pending (deb st)); cbn; rewrite ?app_nil_r.
  - destruct (pending (deb st)) as [f|] eqn:Ep; [destruct (H5 f eq_refl) as (Hf & _)|];
      destruct (_ && _); cbn; rewrite ?app_nil_r; auto; [eapply increasing_mono; [|done]; lia|apply increasing_snoc; [done|lia]].
  - intros Hc Hs _. destruct (pending (deb st)) as [f|] eqn:Ep.
    + destruct (H5 f eq_refl) as (Hf & H1c & Hl). destruct (leadingDone (deb st) && _) eqn:El.
      * apply andb_true_iff in El as [El Ec%Z.leb_le]. destruct (Hl El ltac:(lia)) as (i & Hi & <-).
        exists i. rewrite app_nil_r. done.
      * exists (mkInv f Trailing (now (stop_opt (maxTimer (deb st)) r))). split; [set_solver|done].
    + destruct (H8 Hc Hs eq_refl) as (i & Hi & Hfn). exists i. split; [set_solver|done].
Qed.

Lemma stop_inv st : deb_inv st -> deb_inv (Stop st).
Proof.
  intros [H1 H2 H3 H4 H5 H6 H7 H8 H9 H10]. unfold Stop.
  constructor; cbn [deb rt out handed give calls last burst delay maxWait leading timer maxTimer pending leadingDone callCount stopped];
    auto; try (intros; discriminate); try (by intros []); try (by split; intros []).
  - destruct (pending (deb st)) as [f|] eqn:Ep; [|done]. destruct (H5 f eq_refl) as [<- _].
    eapply increasing_mono; [|done]. lia.
Qed.

(** A goroutine calls its function. *)
Lemma deb_call_inv st o : deb_inv st -> handed o = handed (out st) ->
  deb_inv (mkState (rt st) (deb st) o (calls st) (last st) (burst st)).
Proof.
  intros [H1 H2 H3 H4 H5 H6 H7 H8 H9 H10] E. constructor; cbn; rewrite ?E; auto.
Qed.

(** A step of the runtime that keeps what is due. *)
Lemma with_rt_inv st r : deb_inv st -> (forall i k t, due i k t (rt st) -> due i k t r) -> deb_inv (with_rt st r).
Proof.
  intros [H1 H2 H3 H4 H5 H6 H7 H8 H9 H10] Hd. constructor; cbn; auto.
  intros Ht Hm. destruct (H10 Ht Hm) as (m & Em & Hdue). eauto.
Qed.

Lemma finish_out st r : out_ok (out st) -> out_ok (out (finish st r)).
Proof. unfold finish. destruct (takeAndResetLocked (deb st) r) as [[fn d] r']. apply give_ok. Qed.

Lemma deb_out_ok st a st' : exec st a = Some st' -> out_ok (out st) -> out_ok (out st').
Proof.
  intros H Ho. destruct a as [| |i|j|k|d]; cbn in H.
  - simplify_eq. unfold Trigger. repeat (case_match; try done); by apply give_ok.
  - by simplify_eq.
  - destruct (fire i (rt st)); by simplify_eq/=.
  - destruct (begin j (rt st)) as [[k r]|]; simplify_eq/=. destruct k; [by apply finish_out|].
    unfold onMaxWait. case_match; [by apply finish_out|done].
  - destruct (call_fn k (now (rt st)) (out st)) as [o|] eqn:E; simplify_eq/=. by eapply call_ok.
  - case_match; by simplify_eq.
Qed.

Lemma exec_inv st a st' : exec st a = Some st' -> deb_inv st /\ out_ok (out st) -> deb_inv st' /\ out_ok (out st').
Proof.
  intros H [Hinv Ho]. split; [|by eapply deb_out_ok]. destruct a as [| |i|j|k|d]; cbn in H.
  - simplify_eq. by apply trigger_inv.
  - simplify_eq. by apply stop_inv.
  - destruct (fire i (rt st)) as [r|] eqn:E; [|done]. cbn in H. simplify_eq. apply with_rt_inv; [done|].
    intros. by eapply due_fire.
  - destruct (begin j (rt st)) as [[k r]|] eqn:E; [|done]. cbn in H. simplify_eq.
    destruct k; [by apply finish_inv|]. unfold onMaxWait. destruct (timer (deb st)) as [i|] eqn:Et.
    + by apply finish_inv.
    + pose proof Hinv as [H1 H2 H3 H4 H5 H6 H7 H8 H9 H10]. rewrite Et in *.
      constructor; cbn; rewrite ?Et; auto; try (intros; discriminate). intros [? ?]. discriminate.
  - destruct (call_fn k (now (rt st)) (out st)) as [o|] eqn:E; simplify_eq/=. apply deb_call_inv; [done|].
    by eapply call_ok.
  - destruct (Z.leb_spec 0 d); simplify_eq. apply with_rt_inv; [done|]. intros i k t Hd. exact Hd.
Qed.

Lemma run_deb_inv st acts st' : run st acts = Some st' -> deb_inv st /\ out_ok (out st) -> deb_inv st' /\ out_ok (out st').
Proof.
  revert st. induction acts as [|a acts IH]; intros st; cbn; [by intros [= ->]|].
  destruct (exec st a) as [st1|] eqn:E; [|done]. cbn. intros H Hinv. apply (IH st1); [done|]. by eapply exec_inv.
Qed.

Lemma start_inv d o deb t : New d o = Ok deb -> deb_inv (start deb t) /\ out_ok (out (start deb t)).
Proof.
  unfold New. destruct (Z.leb_spec d 0); [done|]. intros [= <-]. split; [|by apply Permutation_refl].
  constructor; cbn; auto; try (intros; discriminate); try (by intros []); try (by split; intros []); try (by split; constructor); try lia.
  - repeat case_cmp; cbn; lia.
Qed.

(** C30: The debouncer coalesces and does not lose the last call. In every interleaving of calls, timers, callbacks,
    [Stop], elapsing time and the goroutines that call the functions, each edge hands over functions in the order of
    their calls and each at most once, and the functions called are among those handed over, each called at most once
    per hand-over. Once no timer is overdue, no callback waits for the mutex and no goroutine waits to call its function,
    a debouncer that is not stopped has, after [delay] without calls (or [maxWait] after the start of the burst), called
    the function of the most recent call. ([Stop] cancels a pending function.) *)
Theorem debouncer_runs_latest d o deb0 t acts st : New d o = Ok deb0 -> run (start deb0 t) acts = Some st ->
  increasing_below (calls st) (ids Leading (handed (out st))) /\
  increasing_below (calls st) (ids Trailing (handed (out st))) /\
  map job (ran (out st) ++ waiting (out st)) ≡ₚ map job (handed (out st)) /\
  (settled (rt st) -> waiting (out st) = [] -> stopped (deb st) = false -> (0 < calls st)%nat ->
   last st + delay (deb st) <= now (rt st) \/
     (0 < maxWait (deb st) /\ burst st + maxWait (deb st) <= now (rt st)) ->
   exists i, i ∈ ran (out st) /\ S (i_fn i) = calls st).
Proof.
  intros Hn Hr.
  destruct (run_deb_inv _ _ _ Hr (start_inv d o deb0 t Hn)) as [[H1 H2 H3 H4 H5 H6 H7 H8 H9 H10] Ho].
  split_and!; [done| |done|].
  - destruct (pending (deb st)) as [f|] eqn:Ep; [|done]. destruct (H5 f eq_refl) as [<- _].
    eapply increasing_mono; [|done]. lia.
  - intros Hs Hw Hst Hc Hq. destruct (H8 Hc Hst) as (i & Hi & <-).
    + destruct (pending (deb st)) as [f|] eqn:Ep; [|done].
      destruct (proj2 H6 (mk_is_Some _ _ eq_refl)) as [i Et]. pose proof (due_settled _ _ _ _ Hs (H9 i Et)) as Hl.
      destruct Hq as [Hq|[Hm Hq]]; [lia|].
      destruct (H10 (mk_is_Some _ _ Et) Hm) as (m & _ & Hd). pose proof (due_settled _ _ _ _ Hs Hd). lia.
    + destruct (handed_ran _ _ Ho Hw Hi) as (j & Hj & [= Ej _]). exists j. by rewrite Ej.
Qed.

(** Functions run on goroutines of their own, so two of them may run in the reverse order of their calls: here the
    function of the leading edge is overtaken by that of the trailing edge, ten units later. *)
Theorem debouncer_may_reorder :
  match New 10 (mkOptions true 0) with
  | Ok d =>
      option_map (fun st => (map i_fn (handed (out st)), map i_fn (ran (out st))))
        (run (start d 0) [ATrigger; ATrigger; AElapse 10; AFire 0; ARun 0; ACall 1; ACall 0])
  | Panic _ => None
  end = Some ([0%nat; 1%nat], [1%nat; 0%nat]).
Proof. vm_compute. reflexivity. Qed.

(** A call that comes while the callback of the timer waits for the mutex resets a timer that has gone off: the callback
    ends the burst at once. The second of two calls ten units apart then runs as soon as it is made, although the quiet
    period is ten units; and the timer that it armed ends the burst of a third call after half of its quiet period. *)
Theorem debouncer_fires_early :
  match New 10 (mkOptions false 0) with
  | Ok d =>
      option_map (fun st => map (fun i => (i_fn i, i_at i)) (ran (out st)))
        (run (start d 0) [ATrigger; AElapse 10; AFire 0; ATrigger; ARun 0; ACall 0; AElapse 5; ATrigger; AElapse 5; AFire 0;
           ARun 0; ACall 0])
  | Panic _ => None
  end = Some [(1%nat, 10); (2%nat, 20)].
Proof. vm_compute. reflexivity. Qed.

End debouncer.

(** ** The throttler *)

Module Throttler.

Record Throttler := mkThr {
  interval : duration;
  trailing : bool;
  timer : option nat;
  pending : option nat;
  hasTrail : bool;
  stopped : bool;
}.

(** [tt] is the callback [onInterval]. *)
Record state := mkState { rt : runtime unit; thr : Throttler; out : output; calls : nat }.

Definition NewThrottler (interval : duration) (trailing : bool) : outcome Throttler :=
  if interval <=? 0 then Panic "debounce.NewThrottler: interval must be > 0"
  else Ok (mkThr interval trailing None None false false).

Definition Trigger (st : state) : state :=
  let t := thr st in
  if stopped t then st
  else
    let fn := calls st in
    match timer t with
    | None =>
        let '(i, r) := AfterFunc (interval t) tt (rt st) in
        mkState r (mkThr (interval t) (trailing t) (Some i) (pending t) (hasTrail t) false)
          (give (out st) [mkInv fn Leading (now (rt st))]) (S fn)
    | Some i =>
        mkState (rt st)
          (if trailing t then mkThr (interval t) (trailing t) (Some i) (Some fn) true false else t) (out st) (S fn)
    end.

Definition onInterval (st : state) (r : runtime unit) : state :=
  let t := thr st in
  if stopped t then mkState r t (out st) (calls st)
  else if hasTrail t then
    let '(i, r) := AfterFunc (interval t) tt r in
    mkState r (mkThr (interval t) (trailing t) (Some i) None false false)
      (give (out st) match pending t with Some f => [mkInv f Trailing (now r)] | None => [] end) (calls st)
  else mkState r (mkThr (interval t) (trailing t) None (pending t) (hasTrail t) false) (out st) (calls st).

Definition Stop (st : state) : state :=
  let t := thr st in
  mkState (match timer t with Some i => timer_Stop i (rt st) | None => rt st end)
    (mkThr (interval t) (trailing t) None None false true) (out st) (calls st).

Inductive action := ATrigger | AStop | AFire (i : nat) | ARun (j : nat) | ACall (k : nat) | AElapse (d : duration).

Definition exec (st : state) (a : action) : option state :=
  match a with
  | ATrigger => Some (Trigger st)
  | AStop => Some (Stop st)
  | AFire i => r ← fire i (rt st); Some (mkState r (thr st) (out st) (calls st))
  | ARun j => '(_, r) ← begin j (rt st); Some (onInterval st r)
  | ACall k => o ← call_fn k (now (rt st)) (out st); Some (mkState (rt st) (thr st) o (calls st))
  | AElapse d => if 0 <=? d then Some (mkState (elapse d (rt st)) (thr st) (out st) (calls st)) else None
  end.

Fixpoint run (st : state) (acts : list action) : option state :=
  match acts with [] => Some st | a :: acts => st' ← exec st a; run st' acts end.

Definition start (t : Throttler) (now : time) : state := mkState (mkRt now [] []) t no_output 0.

End Throttler.

(** ** Properties of the throttler *)

Section throttler.
Import Throttler.

(** No timer is armed, [i] aside. *)
Definition armed_only (i : option nat) (u : option time) (r : runtime unit) : Prop :=
  forall j k o, timers r !! j = Some (k, o) -> o = if decide (i = Some j) then u else None.

(** Where the one outstanding interval is: armed, its callback started, or closed; [u]: the earliest next invocation. *)
Definition cooling (i : nat) (u : time) (r : runtime unit) : Prop :=
  (exists k, timers r !! i = Some (k, Some u)) /\ armed_only (Some i) (Some u) r /\ started r = [].

Definition elapsed (r : runtime unit) : Prop := armed_only None None r /\ exists k, started r = [k].

Definition closed (r : runtime unit) : Prop := armed_only None None r /\ started r = [].

Record thr_inv (st : state) : Prop := mkThrInv {
  ti_cfg : 0 < interval (thr st);
  ti_ids : increasing_below (match pending (thr st) with Some f => f | None => calls st end) (map i_fn (handed (out st)));
  ti_pending : is_Some (pending (thr st)) <-> hasTrail (thr st) = true;
  ti_trail : forall f, pending (thr st) = Some f -> S f = calls st /\ is_Some (timer (thr st)) /\ trailing (thr st) = true;
  ti_latest : (0 < calls st)%nat -> stopped (thr st) = false -> trailing (thr st) = true -> pending (thr st) = None ->
    exists i, i ∈ handed (out st) /\ S (i_fn i) = calls st;
  ti_spacing : StronglySorted (fun a b => i_at a + interval (thr st) <= i_at b) (handed (out st));
  ti_next : stopped (thr st) = false ->
    match timer (thr st) with
    | Some i =>
        (exists a l u, handed (out st) = l ++ [a] /\ u = i_at a + interval (thr st) /\ cooling i u (rt st)) \/
        (elapsed (rt st) /\ Forall (fun a => i_at a + interval (thr st) <= now (rt st)) (handed (out st)))
    | None => closed (rt st) /\ Forall (fun a => i_at a + interval (thr st) <= now (rt st)) (handed (out st))
    end;
}.

Lemma spacing_snoc n (l : list invocation) a : StronglySorted (fun a b => i_at a + n <= i_at b) l ->
  Forall (fun b => i_at b + n <= i_at a) l -> StronglySorted (fun a b => i_at a + n <= i_at b) (l ++ [a]).
Proof.
  induction 1 as [|x l Hs IH Hx]; cbn; intros H; [by repeat constructor|]. rewrite Forall_cons in H. destruct H as [Hxa H].
  constructor; [by apply IH|]. apply Forall_app. split; [done|by constructor].
Qed.

(** In a list spaced by [n], all are at most the last. *)
Lemma spaced_before n (l : list invocation) a : 0 < n -> StronglySorted (fun a b => i_at a + n <= i_at b) (l ++ [a]) ->
  Forall (fun b => i_at b <= i_at a) (l ++ [a]).
Proof.
  intros Hn. induction l as [|x l IH]; cbn; intros H; [by repeat constructor|]. inversion H as [|? ? Hs Hx]; subst.
  constructor; [|by apply IH]. apply Forall_app in Hx as [_ Hx]. rewrite Forall_singleton in Hx. lia.
Qed.

Lemma cooling_new d r : armed_only None None r -> started r = [] ->
  cooling (length (timers r)) (now r + d) (snd (AfterFunc d tt r)).
Proof.
  intros Ha Hs. split_and!; [|intros j k o Hj|done]; cbn in *.
  - eexists. by apply list_lookup_middle.
  - apply lookup_app_Some in Hj as [Hj|[Hge Hj]].
    + rewrite (Ha j k o Hj), decide_False by done. rewrite decide_False; [done|]. intros [= <-].
      apply lookup_lt_Some in Hj. lia.
    + apply list_lookup_singleton_Some in Hj as [Hz E]. rewrite decide_True by (f_equal; lia). injection E as _ <-. done.
Qed.

Lemma throttle_trigger_inv st : thr_inv st -> thr_inv (Trigger st).
Proof.
  intros Hinv. pose proof Hinv as [H1 H2 H3 H4 H5 H6 H7]. unfold Trigger. destruct (stopped (thr st)) eqn:Es; [done|].
  specialize (H7 eq_refl). destruct (timer (thr st)) as [i|] eqn:Et.
  - destruct (trailing (thr st)) eqn:Etr.
    + constructor; cbn; auto; try done.
      * destruct (pending (thr st)) as [f|] eqn:Ep; [|done]. destruct (H4 f eq_refl) as [<- _].
        eapply increasing_mono; [|done]. lia.
      * intros f [= <-]. split_and!; eauto.
    + destruct (pending (thr st)) as [f|] eqn:Ep.
      { destruct (H4 f eq_refl) as (_ & _ & ?). congruence. }
      constructor; cbn; rewrite ?Ep, ?Et, ?Es, ?Etr; auto; try done.
      eapply increasing_mono; [|done]. lia.
  - destruct H7 as [[Ha Hs] Hf]. cbn [AfterFunc].
    assert (pending (thr st) = None) as Ep.
    { destruct (pending (thr st)) as [f|] eqn:Ep; [|done]. destruct (H4 f eq_refl) as (_ & [? ?] & _). congruence. }
    rewrite Ep in *. constructor; cbn [thr rt out handed give calls interval trailing timer pending hasTrail stopped]; auto; try done.
    + rewrite map_app. cbn [map i_fn]. apply increasing_snoc; [done|lia].
    + intros _ _ _ _. eexists. split; [apply elem_of_app; right; by apply list_elem_of_singleton|done].
    + by apply spacing_snoc.
    + intros _. left. do 3 eexists. split; [done|]. split; [done|]. by apply cooling_new.
Qed.

Lemma cooling_fire i u j r r' : cooling i u r -> fire j r = Some r' -> elapsed r' /\ u <= now r' /\ now r' = now r.
Proof.
  intros ([k Hi] & Ha & Hs). unfold fire. destruct (timers r !! j) as [[k' [v|]]|] eqn:Ej; try done.
  pose proof (Ha j k' _ Ej) as Hv. case_decide as Hd; [|done]. injection Hd as <-. injection Hv as ->.
  destruct (Z.leb_spec u (now r)); [|done]. intros [= <-]. cbn. split_and!; [|lia|done].
  split; [|rewrite Hs; by eexists]. intros m k2 o Hm. cbn in Hm. rewrite decide_False by done.
  destruct (decide (m = i)) as [->|Hne].
  - rewrite list_lookup_insert_eq in Hm by (by eapply lookup_lt_Some). congruence.
  - rewrite list_lookup_insert_ne in Hm by done. rewrite (Ha m k2 o Hm). by rewrite decide_False by congruence.
Qed.

Lemma nothing_to_fire j r : armed_only None None r -> fire j r = None.
Proof.
  intros Ha. unfold fire. destruct (timers r !! j) as [[k o]|] eqn:E; [|done].
  rewrite (Ha j k o E), decide_False by done. done.
Qed.

Lemma elapsed_begin j k r r' : elapsed r -> begin j r = Some (k, r') -> closed r' /\ now r' = now r.
Proof.
  intros [Ha [k' Hs]]. unfold begin. rewrite Hs. destruct j as [|j]; cbn; [|done]. intros [= _ <-]. by split; [split|].
Qed.

Lemma throttle_fire_inv st j r : thr_inv st -> fire j (rt st) = Some r -> thr_inv (mkState r (thr st) (out st) (calls st)).
Proof.
  intros [H1 H2 H3 H4 H5 H6 H7] Hf. constructor; cbn; auto. intros Hs. specialize (H7 Hs).
  destruct (timer (thr st)) as [i|].
  - destruct H7 as [(a & l & u & El & -> & Hc)|[[Ha _] _]]; [|by rewrite nothing_to_fire in Hf].
    destruct (cooling_fire _ _ _ _ _ Hc Hf) as (He & Hu & _). right. split; [done|].
    pose proof H6 as Hsp. rewrite El in Hsp |- *. apply (spaced_before _ _ _ H1) in Hsp.
    apply (Forall_impl _ _ _ Hsp). cbn. lia.
  - destruct H7 as [[Ha _] _]. by rewrite nothing_to_fire in Hf.
Qed.

Lemma throttle_run_inv st j k r : thr_inv st -> begin j (rt st) = Some (k, r) -> thr_inv (onInterval st r).
Proof.
  intros [H1 H2 H3 H4 H5 H6 H7] Hb. unfold onInterval. destruct (stopped (thr st)) eqn:Es.
  { constructor; cbn; rewrite ?Es; auto; done. }
  specialize (H7 eq_refl). assert (closed r /\ now r = now (rt st) /\
    Forall (fun a => i_at a + interval (thr st) <= now r) (handed (out st))) as ([Ha Hs] & Hn & Hf).
  { destruct (timer (thr st)) as [i|].
    - destruct H7 as [(a & l & u & _ & _ & (_ & _ & Hs))|[He Hf]].
      + unfold begin in Hb. rewrite Hs in Hb. by destruct j.
      + destruct (elapsed_begin _ _ _ _ He Hb) as [? ->]. done.
    - destruct H7 as [[_ Hs] _]. unfold begin in Hb. rewrite Hs in Hb. by destruct j. }
  destruct (hasTrail (thr st)) eqn:Eh.
  - destruct (proj2 H3 eq_refl) as [f Ep]. destruct (H4 f Ep) as (Ef & _ & Etr). rewrite Ep in *. cbn [AfterFunc].
    constructor; cbn [thr rt out handed give calls interval trailing timer pending hasTrail stopped]; auto; try done.
    + rewrite map_app. cbn [map i_fn]. apply increasing_snoc; [done|lia].
    + intros _ _ _ _. eexists. split; [apply elem_of_app; right; by apply list_elem_of_singleton|done].
    + apply spacing_snoc; [done|]. exact Hf.
    + intros _. left. do 3 eexists. split; [done|]. split; [done|]. cbn. by apply cooling_new.
  - assert (pending (thr st) = None) as Ep.
    { destruct (pending (thr st)) as [f|]; [|done]. discriminate (proj1 H3 (mk_is_Some _ _ eq_refl)). }
    rewrite Ep in *. constructor; cbn [thr rt out handed give calls interval trailing timer pending hasTrail stopped]; auto; try done.
Qed.

Lemma throttle_stop_inv st : thr_inv st -> thr_inv (Stop st).
Proof.
  intros [H1 H2 H3 H4 H5 H6 H7]. constructor; cbn; auto; try done.
  - destruct (pending (thr st)) as [f|] eqn:Ep; [|done]. destruct (H4 f eq_refl) as [<- _].
    eapply increasing_mono; [|done]. lia.
Qed.

Lemma throttle_elapse_inv st d : 0 <= d -> thr_inv st ->
  thr_inv (mkState (elapse d (rt st)) (thr st) (out st) (calls st)).
Proof.
  intros Hd [H1 H2 H3 H4 H5 H6 H7]. constructor; cbn; auto. intros Hs. specialize (H7 Hs). unfold time_add.
  destruct (timer (thr st)) as [i|]; [destruct H7 as [H7|[He Hf]]; [by left|right]|destruct H7 as [He Hf]];
    (split; [exact He|]; apply (Forall_impl _ _ _ Hf); cbn; lia).
Qed.

Lemma throttle_call_inv st o : thr_inv st -> handed o = handed (out st) ->
  thr_inv (mkState (rt st) (thr st) o (calls st)).
Proof. intros [H1 H2 H3 H4 H5 H6 H7] E. constructor; cbn; rewrite ?E; auto. Qed.

Lemma throttle_out_ok st a st' : exec st a = Some st' -> out_ok (out st) -> out_ok (out st').
Proof.
  intros H Ho. destruct a as [| |i|j|k|d]; cbn in H.
  - simplify_eq. unfold Trigger. repeat (case_match; try done); by apply give_ok.
  - by simplify_eq.
  - destruct (fire i (rt st)); by simplify_eq/=.
  - destruct (begin j (rt st)) as [[k r]|]; simplify_eq/=. unfold onInterval.
    repeat (case_match; try done); by apply give_ok.
  - destruct (call_fn k (now (rt st)) (out st)) as [o|] eqn:E; simplify_eq/=. by eapply call_ok.
  - case_match; by simplify_eq.
Qed.

Lemma throttle_exec_inv st a st' : exec st a = Some st' ->
  thr_inv st /\ out_ok (out st) -> thr_inv st' /\ out_ok (out st').
Proof.
  intros H [Hinv Ho]. split; [|by eapply throttle_out_ok]. destruct a as [| |i|j|k|d]; cbn in H.
  - simplify_eq. by apply throttle_trigger_inv.
  - simplify_eq. by apply throttle_stop_inv.
  - destruct (fire i (rt st)) as [r|] eqn:E; [|done]. cbn in H. simplify_eq. by eapply throttle_fire_inv.
  - destruct (begin j (rt st)) as [[k r]|] eqn:E; [|done]. cbn in H. simplify_eq. by eapply throttle_run_inv.
  - destruct (call_fn k (now (rt st)) (out st)) as [o|] eqn:E; simplify_eq/=. apply throttle_call_inv; [done|].
    by eapply call_ok.
  - destruct (Z.leb_spec 0 d); simplify_eq. by apply throttle_elapse_inv.
Qed.

Lemma throttle_run_all st acts st' : run st acts = Some st' ->
  thr_inv st /\ out_ok (out st) -> thr_inv st' /\ out_ok (out st').
Proof.
  revert st. induction acts as [|a acts IH]; intros st; cbn; [by intros [= ->]|].
  destruct (exec st a) as [st1|] eqn:E; [|done]. cbn. intros H Hinv. apply (IH st1); [done|]. by eapply throttle_exec_inv.
Qed.

Lemma throttle_start_inv d tr t now : NewThrottler d tr = Ok t ->
  thr_inv (start t now) /\ out_ok (out (start t now)).
Proof.
  unfold NewThrottler. destruct (Z.leb_spec d 0); [done|]. intros [= <-]. split; [|by apply Permutation_refl].
  constructor; cbn; auto; try done; try (by split; constructor); try lia. constructor.
Qed.

(** The throttler hands over functions at least one interval apart. In every interleaving of calls, timers, callbacks,
    [Stop] and the goroutines that call the functions, whatever the delays of the callbacks, any two hand-overs are at
    least [interval] apart, in the order of the calls, each function at most once; and with trailing calls, once nothing
    waits to run and an interval has passed since the last hand-over, the function of the most recent call has been
    called, unless the throttler was stopped. *)
Theorem throttler_spacing d tr t now0 acts st : NewThrottler d tr = Ok t -> run (start t now0) acts = Some st ->
  StronglySorted (fun a b => i_at a + interval (thr st) <= i_at b) (handed (out st)) /\
  increasing_below (calls st) (map i_fn (handed (out st))) /\
  map job (ran (out st) ++ waiting (out st)) ≡ₚ map job (handed (out st)) /\
  (settled (rt st) -> waiting (out st) = [] -> stopped (thr st) = false -> trailing (thr st) = true ->
   (0 < calls st)%nat ->
   Forall (fun a => i_at a + interval (thr st) <= now (rt st)) (handed (out st)) ->
   exists i, i ∈ ran (out st) /\ S (i_fn i) = calls st).
Proof.
  intros Hn Hr.
  destruct (throttle_run_all _ _ _ Hr (throttle_start_inv d tr t now0 Hn)) as [[H1 H2 H3 H4 H5 H6 H7] Ho].
  split_and!; [done| |done|].
  - destruct (pending (thr st)) as [f|] eqn:Ep; [|done]. destruct (H4 f eq_refl) as [<- _].
    eapply increasing_mono; [|done]. lia.
  - intros [Hs Ht] Hw Hst Htr Hc Hf. destruct (H5 Hc Hst Htr) as (j & Hj & <-).
    + destruct (pending (thr st)) as [f|] eqn:Ep; [|done].
      destruct (H4 f eq_refl) as (_ & [i Et] & _). specialize (H7 Hst). rewrite Et in H7.
      destruct H7 as [(a & l & u & El & -> & ([k Hi] & _))|[[_ [k Hk]] _]]; [|congruence].
      rewrite El in Hf. apply Forall_app in Hf as [_ Hf]. rewrite Forall_singleton in Hf.
      pose proof (Forall_lookup_1 _ _ _ _ Ht Hi) as Hu. cbn in Hu. lia.
    + destruct (handed_ran _ _ Ho Hw Hj) as (i & Hi & [= Ei _]). exists i. by rewrite Ei.
Qed.

End throttler.

(** ** Witnesses *)

Lemma debouncer_runs_latest_witness :
  exists st, Debouncer.run (Debouncer.start (Debouncer.mkDeb 10 0 true None None None false 0 false) 0)
    [Debouncer.ATrigger; Debouncer.AElapse 4; Debouncer.ATrigger; Debouncer.ACall 0; Debouncer.AElapse 10;
     Debouncer.AFire 0; Debouncer.ARun 0; Debouncer.AElapse 1; Debouncer.ACall 0] = Some st /\
  map (fun i => (i_fn i, i_at i)) (ran (Debouncer.out st)) = [(0%nat, 4); (1%nat, 15)] /\
  exists i, i ∈ ran (Debouncer.out st) /\ S (i_fn i) = 2%nat.
Proof.
  eexists. split; [vm_compute; reflexivity|]. split; [vm_compute; reflexivity|].
  refine (proj2 (proj2 (proj2 (debouncer_runs_latest 10 (Debouncer.mkOptions true 0) _ 0
    [Debouncer.ATrigger; Debouncer.AElapse 4; Debouncer.ATrigger; Debouncer.ACall 0; Debouncer.AElapse 10;
     Debouncer.AFire 0; Debouncer.ARun 0; Debouncer.AElapse 1; Debouncer.ACall 0]
    _ eq_refl _))) _ _ _ _ _).
  - vm_compute. reflexivity.
  - split; [reflexivity|]. by repeat constructor.
  - vm_compute. reflexivity.
  - vm_compute. reflexivity.
  - vm_compute. lia.
  - left. vm_compute. discriminate.
Defined.

Lemma throttler_spacing_witness :
  exists st, Throttler.run (Throttler.start (Throttler.mkThr 10 true None None false false) 0)
    [Throttler.ATrigger; Throttler.AElapse 3; Throttler.ATrigger; Throttler.ATrigger; Throttler.AElapse 9;
     Throttler.AFire 0; Throttler.ARun 0; Throttler.ACall 0; Throttler.AElapse 10; Throttler.AFire 1; Throttler.ARun 0;
     Throttler.ACall 0] = Some st /\
  map (fun i => (i_fn i, i_at i)) (ran (Throttler.out st)) = [(0%nat, 12); (2%nat, 22)] /\
  exists i, i ∈ ran (Throttler.out st) /\ S (i_fn i) = 3%nat.
Proof.
  eexists. split; [vm_compute; reflexivity|]. split; [vm_compute; reflexivity|].
  refine (proj2 (proj2 (proj2 (throttler_spacing 10 true _ 0
    [Throttler.ATrigger; Throttler.AElapse 3; Throttler.ATrigger; Throttler.ATrigger; Throttler.AElapse 9;
     Throttler.AFire 0; Throttler.ARun 0; Throttler.ACall 0; Throttler.AElapse 10; Throttler.AFire 1; Throttler.ARun 0;
     Throttler.ACall 0]
    _ eq_refl _))) _ _ _ _ _ _).
  - vm_compute. reflexivity.
  - split; [reflexivity|]. by repeat constructor.
  - vm_compute. reflexivity.
  - vm_compute. reflexivity.
  - vm_compute. reflexivity.
  - vm_compute. lia.
  - repeat constructor; vm_compute; discriminate.
Defined.
