(* ===== verification/Fallback.v ===== *)
(** * Fallbacks, hedged requests and timeouts ([fallback/fallback.go],
    [fallback/static.go], [timeout/timeout.go]).

    The calls race goroutines against timers and a context.  A state holds the
    result channel, the goroutines that still run, the timer and the context;
    a step is a goroutine that returns, the timer, the end of the context, or
    the caller taking a ready branch of its [select].  Which error a call
    returns is a parameter of the step. *)

From stdpp Require Import relations.
From S2P Require Import Prelude.
Open Scope Z_scope.

(** ** Fallbacks *)

Section fallback.
Context {W E T : Type}.

(** User code: it changes the world and returns an error or nil, or panics. *)
Definition fn_err : Type := W -> outcome (option E) * W.
Definition fn_val : Type := W -> outcome (T * option E) * W.

Definition Do (fn : fn_err) (fb : E -> fn_err) : fn_err := fun w =>
  match fn w with
  | (Panic m, w) => (Panic m, w)
  | (Ok None, w) => (Ok None, w)
  | (Ok (Some err), w) => fb err w
  end.

Definition DoWithResult (fn : fn_val) (fb : E -> fn_val) : fn_val := fun w =>
  match fn w with
  | (Panic m, w) => (Panic m, w)
  | (Ok (v, None), w) => (Ok (v, None), w)
  | (Ok (_, Some err), w) => fb err w
  end.

Definition Static (v : T) (_ : E) : fn_val := fun w => (Ok (v, None), w).
Definition StaticErr (v : T) (cause : E) : fn_val := fun w => (Ok (v, Some cause), w).

(** [New] and [Execute] of the type [Fallback]. *)
Record Fallback := New { fb : E -> fn_err }.
Definition Execute (f : Fallback) (fn : fn_err) : fn_err := Do fn (fb f).

End fallback.

(** ** The contexts *)

Inductive ctx_error := Canceled | DeadlineExceeded.

(** A [time.Timer]: running, gone off with its channel not read, or neither. *)
Inductive timer_state := Armed | Fired | Off.

(** ** Timeout ([timeout/timeout.go]) *)

Module Timeout.
Section timeout.
Context {E : Type}.

(** What [Do] returns: the error of the function, [*TimeoutError] with its duration, or the error of the context. *)
Inductive result := FnReturned (err : option E) | TimeoutError (d : duration) | CtxEnded (e : ctx_error).

(** [errors.Is(r, context.DeadlineExceeded)] for the errors of this package. *)
Definition is_deadline (r : result) : bool :=
  match r with TimeoutError _ | CtxEnded DeadlineExceeded => true | _ => false end.

(** The call after it has started the goroutine: the clock, the deadline of the caller's context, that of the call, the
    buffered channel, whether the function still runs, how the derived context ended, and what the call has returned. *)
Record state := mkState {
  now : time; parent : option time; duration_ : duration; deadline : time;
  errCh : list (option E); running : bool; ctx_end : option ctx_error; returned : option result }.

(** [context.WithTimeout(ctx, d)] and the goroutine. *)
Definition start (t : time) (parent : option time) (d : duration) : state :=
  mkState t parent d (time_add t d) [] true None None.

(** The earlier of the two deadlines. *)
Definition earliest (s : state) : time := match parent s with Some p => Z.min p (deadline s) | None => deadline s end.

Inductive event :=
| Elapse (d : duration)
| FnReturns (err : option E)            (* the goroutine sends the result *)
| DeadlinePasses                        (* of the derived context *)
| ParentCancelled
| SelectErr                             (* case err := <-errCh *)
| SelectDone.                           (* case <-ctx.Done() *)

Definition end_ctx (e : ctx_error) (s : state) : option state :=
  match ctx_end s with
  | None => Some (mkState (now s) (parent s) (duration_ s) (deadline s) (errCh s) (running s) (Some e) (returned s))
  | Some _ => None
  end.

Definition return_ (ch : list (option E)) (r : result) (s : state) : state :=
  mkState (now s) (parent s) (duration_ s) (deadline s) ch (running s) (ctx_end s) (Some r).

Definition step (ev : event) (s : state) : option state :=
  match ev with
  | Elapse dt =>
      if 0 <=? dt
      then Some (mkState (time_add (now s) dt) (parent s) (duration_ s) (deadline s) (errCh s) (running s) (ctx_end s)
                   (returned s))
      else None
  | FnReturns err =>
      if running s && (length (errCh s) <? 1)%nat
      then Some (mkState (now s) (parent s) (duration_ s) (deadline s) (errCh s ++ [err]) false (ctx_end s) (returned s))
      else None
  | DeadlinePasses => if earliest s <=? now s then end_ctx DeadlineExceeded s else None
  | ParentCancelled => end_ctx Canceled s
  | SelectErr =>
      match returned s, errCh s with
      | None, err :: ch => Some (return_ ch (FnReturned err) s)
      | _, _ => None
      end
  | SelectDone =>
      match returned s, ctx_end s with
      | None, Some DeadlineExceeded => Some (return_ (errCh s) (TimeoutError (duration_ s)) s)
      | None, Some e => Some (return_ (errCh s) (CtxEnded e) s)
      | _, _ => None
      end
  end.

Fixpoint run (s : state) (evs : list event) : option state :=
  match evs with [] => Some s | ev :: evs => s ← step ev s; run s evs end.

(** [Do]: with [d <= 0] the function runs on the caller's goroutine, else the race starts. *)
Definition Do (t : time) (parent : option time) (d : duration) (fn : option E) : result + state :=
  if d <=? 0 then inl (FnReturned fn) else inr (start t parent d).

End timeout.
Arguments result : clear implicits.
Arguments state : clear implicits.
Arguments event : clear implicits.
End Timeout.

(** ** One hedge ([Hedge], [HedgeCond]) *)

Module Hedge.
Section hedge.
Context {E : Type}.

Record HedgeResult := mkHedgeResult { Primary : bool; Err : option (E + ctx_error) }.

(** The caller waits in the first [select], then, after the delay, for the first result. *)
Inductive phase := Racing | Hedged | Returned (r : HedgeResult).

(** Results carry whether they are the primary's; [primary_live] and [backup_live]: the call runs; [drain]: a goroutine takes
    one more result. *)
Record state := mkState {
  resultCh : list (option E * bool); primary_live : bool; backup_live : bool; ctx_end : option ctx_error;
  timer : timer_state; primary_cancelled : bool; drain : bool; at_ : phase }.

Definition start : state := mkState [] true false None Armed false false Racing.

Inductive event :=
| Finish (primary : bool) (err : option E)
| TimerFires
| CtxEnds (e : ctx_error)
| SelectResult
| SelectDone
| SelectTimer
| Drain.

(** The deferred [primaryCancel] and [timer.Stop] run on every return. *)
Definition return_ (s : state) (ch : list (option E * bool)) (dr : bool) (r : HedgeResult) : state :=
  mkState ch (primary_live s) (backup_live s) (ctx_end s) Off true dr (Returned r).

Definition step (ev : event) (s : state) : option state :=
  match ev, at_ s with
  | Finish p err, _ =>
      if (if p then primary_live s else backup_live s) && (length (resultCh s) <? 2)%nat
      then Some (mkState (resultCh s ++ [(err, p)]) (if p then false else primary_live s) (if p then backup_live s else false)
                   (ctx_end s) (timer s) (primary_cancelled s) (drain s) (at_ s))
      else None
  | TimerFires, _ =>
      match timer s with
      | Armed => Some (mkState (resultCh s) (primary_live s) (backup_live s) (ctx_end s) Fired (primary_cancelled s) (drain s)
                         (at_ s))
      | _ => None
      end
  | CtxEnds e, _ =>
      match ctx_end s with
      | None => Some (mkState (resultCh s) (primary_live s) (backup_live s) (Some e) (timer s) (primary_cancelled s) (drain s)
                        (at_ s))
      | Some _ => None
      end
  | SelectResult, Racing =>
      match resultCh s with
      | (err, p) :: ch => Some (return_ s ch false (mkHedgeResult p (inl <$> err)))
      | [] => None
      end
  | SelectResult, Hedged =>
      match resultCh s with
      | (err, p) :: ch => Some (return_ s ch true (mkHedgeResult p (inl <$> err)))
      | [] => None
      end
  | SelectDone, Racing =>
      e ← ctx_end s; Some (return_ s (resultCh s) false (mkHedgeResult true (Some (inr e))))
  | SelectTimer, Racing =>
      match timer s with
      | Fired => Some (mkState (resultCh s) (primary_live s) true (ctx_end s) Off (primary_cancelled s) (drain s) Hedged)
      | _ => None
      end
  | Drain, _ =>
      match resultCh s with
      | _ :: ch =>
          if drain s
          then Some (mkState ch (primary_live s) (backup_live s) (ctx_end s) (timer s) (primary_cancelled s) false (at_ s))
          else None
      | [] => None
      end
  | _, _ => None
  end.

Fixpoint run (s : state) (evs : list event) : option state :=
  match evs with [] => Some s | ev :: evs => s ← step ev s; run s evs end.

(** [Hedge] and [HedgeCond]: a call that does not hedge is the function itself. *)
Definition Hedge (hedgeDelay : duration) (fn : option E) : HedgeResult + state :=
  if hedgeDelay <=? 0 then inl (mkHedgeResult true (inl <$> fn)) else inr start.

Definition HedgeCond (shouldHedge : bool) (hedgeDelay : duration) (fn : option E) : HedgeResult + state :=
  if shouldHedge then Hedge hedgeDelay fn else inl (mkHedgeResult true (inl <$> fn)).

End hedge.
Arguments HedgeResult : clear implicits.
Arguments state : clear implicits.
Arguments event : clear implicits.
Arguments phase : clear implicits.
End Hedge.

(** ** Many hedges ([HedgeN]) *)

Module HedgeN.
Section hedgen.
Context {E : Type} (n : nat).

Inductive result := Success | LastErr (err : E) | CtxErr (e : ctx_error).

(** [resultCh], the attempts in flight, the counters of the loop, and what the call has returned.  [received] is the history
    of the results the loop took, [to_drain] how many the background goroutine still takes. *)
Record state := mkState {
  resultCh : list (nat * option E); in_flight : list nat;
  firedTotal : nat; outstanding : nat; lastErr : option E;
  ctx_end : option ctx_error; timer : timer_state; cancelled : bool;
  received : list (option E); to_drain : nat; returned : option result }.

(** [fireAttempt(firedTotal)] and the timer, new or reset. *)
Definition fireAttempt (s : state) : state :=
  mkState (resultCh s) (in_flight s ++ [firedTotal s]) (S (firedTotal s)) (S (outstanding s)) (lastErr s) (ctx_end s)
    Armed (cancelled s) (received s) (to_drain s) (returned s).

Definition start : state := fireAttempt (mkState [] [] 0 0 None None Off false [] 0 None).

Inductive event :=
| Finish (idx : nat) (err : option E)
| TimerFires
| CtxEnds (e : ctx_error)
| SelectResult
| SelectTimer
| SelectDone
| Drain.

Fixpoint remove_id (i : nat) (l : list nat) : list nat :=
  match l with [] => [] | x :: l' => if (x =? i)%nat then l' else x :: remove_id i l' end.

(** The loop takes a result. *)
Definition on_result (err : option E) (ch : list (nat * option E)) (s : state) : state :=
  let s := mkState ch (in_flight s) (firedTotal s) (outstanding s - 1) (lastErr s) (ctx_end s) (timer s) (cancelled s)
             (received s ++ [err]) (to_drain s) (returned s) in
  match err with
  | None =>
      mkState ch (in_flight s) (firedTotal s) (outstanding s) (lastErr s) (ctx_end s) Off true
        (received s) (outstanding s) (Some Success)
  | Some e =>
      let s := mkState ch (in_flight s) (firedTotal s) (outstanding s) (Some e) (ctx_end s) (timer s) (cancelled s)
                 (received s) (to_drain s) (returned s) in
      if (firedTotal s <? n)%nat then fireAttempt s
      else if (outstanding s =? 0)%nat then
        mkState ch (in_flight s) (firedTotal s) (outstanding s) (lastErr s) (ctx_end s) Off (cancelled s)
          (received s) (to_drain s) (Some (LastErr e))
      else s
  end.

Definition step (ev : event) (s : state) : option state :=
  match ev, returned s with
  | Finish i err, _ =>
      if bool_decide (i ∈ in_flight s) && (length (resultCh s) <? n)%nat
      then Some (mkState (resultCh s ++ [(i, err)]) (remove_id i (in_flight s)) (firedTotal s) (outstanding s) (lastErr s)
                   (ctx_end s) (timer s) (cancelled s) (received s) (to_drain s) (returned s))
      else None
  | TimerFires, _ =>
      match timer s with
      | Armed => Some (mkState (resultCh s) (in_flight s) (firedTotal s) (outstanding s) (lastErr s) (ctx_end s) Fired
                         (cancelled s) (received s) (to_drain s) (returned s))
      | _ => None
      end
  | CtxEnds e, _ =>
      match ctx_end s with
      | None => Some (mkState (resultCh s) (in_flight s) (firedTotal s) (outstanding s) (lastErr s) (Some e) (timer s)
                        (cancelled s) (received s) (to_drain s) (returned s))
      | Some _ => None
      end
  | SelectResult, None =>
      match resultCh s with (_, err) :: ch => Some (on_result err ch s) | [] => None end
  | SelectTimer, None =>
      match timer s with
      | Fired =>
          Some (if (firedTotal s <? n)%nat then fireAttempt s
                else mkState (resultCh s) (in_flight s) (firedTotal s) (outstanding s) (lastErr s) (ctx_end s) Off
                       (cancelled s) (received s) (to_drain s) (returned s))
      | _ => None
      end
  | SelectDone, None =>
      e ← ctx_end s;
      Some (mkState (resultCh s) (in_flight s) (firedTotal s) (outstanding s) (lastErr s) (ctx_end s) Off (cancelled s)
              (received s) (to_drain s) (Some (CtxErr e)))
  | Drain, Some _ =>
      match resultCh s, to_drain s with
      | _ :: ch, S k =>
          Some (mkState ch (in_flight s) (firedTotal s) (outstanding s) (lastErr s) (ctx_end s) (timer s) (cancelled s)
                  (received s) k (returned s))
      | _, _ => None
      end
  | _, _ => None
  end.

Fixpoint run (s : state) (evs : list event) : option state :=
  match evs with [] => Some s | ev :: evs => s ← step ev s; run s evs end.

End hedgen.
Arguments result : clear implicits.
Arguments state : clear implicits.
Arguments event : clear implicits.

(** [HedgeN]: at least one attempt; a single call when there is nothing to hedge with. *)
Definition HedgeN {E} (n : Z) (hedgeDelay : duration) (fn : option E) : option E + nat * state E :=
  let n := if n <? 1 then 1 else n in
  if (n =? 1) || (hedgeDelay <=? 0) then inl fn else inr (Z.to_nat n, start).

End HedgeN.

(** ** Theorems *)

Section timeout_facts.
Context {E : Type}.
Import Timeout.

(** What holds along every race. *)
Record timeout_inv (t0 : time) (s : state E) : Prop := mkTimeoutInv {
  ti_deadline : deadline s = t0 + duration_ s;
  ti_send : (if running s then length (errCh s) = 0 else length (errCh s) <= 1)%nat;
  ti_expired : ctx_end s = Some DeadlineExceeded -> earliest s <= now s;
  ti_result : match returned s with
              | Some (FnReturned _) => running s = false
              | Some (TimeoutError d) => d = duration_ s /\ ctx_end s = Some DeadlineExceeded
              | Some (CtxEnded e) => ctx_end s = Some e /\ e = Canceled
              | None => running s = false -> errCh s <> []
              end;
}.

Lemma timeout_start t0 p d : timeout_inv t0 (start t0 p d).
Proof. by split. Qed.

Lemma timeout_step t0 ev s s' : timeout_inv t0 s -> step ev s = Some s' -> timeout_inv t0 s'.
Proof.
  intros [H1 H2 H3 H4] E0. destruct s as [nw p d dl ch rn ce rt]; cbn in *. unfold earliest in *; cbn in *.
  destruct ev; cbn in E0; unfold end_ctx, return_, earliest in E0; cbn in E0; repeat case_match; simplify_eq; split; cbn in *;
    unfold earliest; cbn; try done; try (by intros; specialize (H3 ltac:(done)); repeat case_match; simplify_eq; unfold time_add; lia);
    rewrite ?length_app; cbn; try lia; try naive_solver.
  all: intros _; by destruct ch.
Qed.

Lemma timeout_step_consts ev (s s' : state E) : step ev s = Some s' -> duration_ s' = duration_ s /\ parent s' = parent s.
Proof. destruct ev; cbn; unfold end_ctx; intros E0; repeat case_match; by simplify_eq. Qed.

Lemma timeout_run t0 evs s s' : timeout_inv t0 s -> run s evs = Some s' ->
  timeout_inv t0 s' /\ duration_ s' = duration_ s /\ parent s' = parent s.
Proof.
  revert s. induction evs as [|ev evs IH]; intros s Hs E0; cbn in E0; [by simplify_eq|].
  apply bind_Some in E0 as (s1 & E1 & E2). destruct (timeout_step_consts _ _ _ E1) as [<- <-].
  eapply IH; [|done]. by eapply timeout_step.
Qed.
End timeout_facts.

(** [timeout.Do] bounds the wait.  In every interleaving of the function, the clock, the two deadlines and the caller:
    the goroutine of the function never blocks on its channel; once the function has returned or the context has ended the
    caller can return, whatever the function does; past the earlier of the two deadlines the context can end and the caller
    return.  A result of the function is returned only if the function has returned; [*TimeoutError] carries the configured
    duration and comes only after that duration or the deadline of the caller's own context; the other error is a
    cancellation. *)
Theorem timeout_bounds_wait {E} t0 p d evs (s : Timeout.state E) :
  Timeout.run (Timeout.start t0 p d) evs = Some s ->
  (forall err, Timeout.running s = true -> is_Some (Timeout.step (Timeout.FnReturns err) s)) /\
  (Timeout.returned s = None -> Timeout.running s = false -> is_Some (Timeout.step Timeout.SelectErr s)) /\
  (Timeout.returned s = None -> is_Some (Timeout.ctx_end s) -> is_Some (Timeout.step Timeout.SelectDone s)) /\
  (Timeout.ctx_end s = None -> t0 + d <= Timeout.now s -> is_Some (Timeout.step Timeout.DeadlinePasses s)) /\
  match Timeout.returned s with
  | Some (Timeout.FnReturned _) => Timeout.running s = false
  | Some (Timeout.TimeoutError d') =>
      d' = d /\ (t0 + d <= Timeout.now s \/ exists t, p = Some t /\ t <= Timeout.now s)
  | Some (Timeout.CtxEnded e) => e = Canceled
  | None => True
  end.
Proof.
  intros Hr. destruct (timeout_run t0 _ _ _ (timeout_start t0 p d) Hr) as ([H1 H2 H3 H4] & Hd & Hp).
  change (Timeout.duration_ (Timeout.start t0 p d)) with d in Hd. change (Timeout.parent (Timeout.start t0 p d)) with p in Hp.
  unfold Timeout.earliest in H3. rewrite Hd in *. rewrite Hp, H1 in H3. split_and!.
  - intros err Hrun. cbn. rewrite Hrun in *. rewrite H2. by eexists.
  - intros Hn Hrun. cbn. rewrite Hn in *. destruct (Timeout.errCh s); [by destruct (H4 Hrun)|by eexists].
  - intros Hn [e He]. cbn. rewrite Hn, He. by destruct e; eexists.
  - intros Hc Hnow. cbn. unfold Timeout.earliest, Timeout.end_ctx. rewrite Hp, H1, Hc.
    rewrite (proj2 (Z.leb_le _ _)); [by eexists|]. destruct p; lia.
  - destruct (Timeout.returned s) as [[err|d'|e]|]; [done| |by destruct H4|done]. destruct H4 as [-> Hc]. split; [done|].
    specialize (H3 Hc). destruct p as [t|]; [|by left]. destruct (decide (t0 + d <= Timeout.now s)); [by left|].
    right. exists t. split; [done|]. lia.
Qed.

(** A function that never returns, and a second of patience. *)
Lemma timeout_bounds_wait_witness :
  exists s : Timeout.state nat,
    Timeout.run (Timeout.start 0 None Second) [Timeout.Elapse Second; Timeout.DeadlinePasses; Timeout.SelectDone] = Some s /\
    Timeout.running s = true /\ Timeout.returned s = Some (Timeout.TimeoutError Second) /\ Second <= Timeout.now s.
Proof.
  eexists. split; [vm_compute; reflexivity|].
  pose proof (timeout_bounds_wait (E := nat) 0 None Second
    [Timeout.Elapse Second; Timeout.DeadlinePasses; Timeout.SelectDone] _ eq_refl) as (_ & _ & _ & _ & H).
  split_and!; [done|done|]. cbn in H. destruct H as [_ [H|(t & H & _)]]; [exact H|done].
Defined.

(** The deadline of the caller's own context is reported as this call's: a [*TimeoutError] of an hour after one second. *)
Theorem timeout_blames_own_deadline :
  exists s : Timeout.state nat,
    Timeout.run (Timeout.start 0 (Some Second) Hour) [Timeout.Elapse Second; Timeout.DeadlinePasses; Timeout.SelectDone] = Some s /\
    Timeout.returned s = Some (Timeout.TimeoutError Hour) /\ Timeout.now s = Second.
Proof. eexists. split_and!; vm_compute; reflexivity. Qed.

(** A panic of the function is not caught: the fallback does not run. *)
Theorem fallback_not_called_on_panic {W E : Type} (fn : @fn_err W E) (fb : E -> @fn_err W E) w w' m :
  fn w = (Panic m, w') -> Do fn fb w = (Panic m, w').
Proof. intros H. unfold Do. by rewrite H. Qed.

(** ** Hedged attempts *)

Section hedgen_facts.
Context {E : Type} (n : nat) (Hn : (1 <= n)%nat).
Import HedgeN.

Definition failed (r : option E) : Prop := is_Some r.

(** [pending]: results that have not been taken yet. *)
Definition pending (s : state E) : nat := length (in_flight s) + length (resultCh s).

Record hedge_inv (s : state E) : Prop := mkHedgeInv {
  hi_fired : (1 <= firedTotal s <= n)%nat;
  hi_ids : NoDup (in_flight s ++ map fst (resultCh s));
  hi_below : Forall (fun i => (i < firedTotal s)%nat) (in_flight s ++ map fst (resultCh s));
  hi_result : match returned s with
    | None => outstanding s = pending s /\ (0 < pending s)%nat /\ (pending s + length (received s) = firedTotal s)%nat /\
              Forall failed (received s) /\ lastErr s = mjoin (last (received s))
    | Some Success => exists l, received s = l ++ [None] /\ Forall failed l /\ cancelled s = true /\ to_drain s = pending s
    | Some (LastErr e) => firedTotal s = n /\ length (received s) = n /\ Forall failed (received s) /\ last (received s) = Some (Some e) /\
                          pending s = 0%nat
    | Some (CtxErr e) => ctx_end s = Some e /\ Forall failed (received s)
    end;
}.

Lemma remove_id_perm i l : i ∈ l -> l ≡ₚ i :: remove_id i l.
Proof.
  induction l as [|x l IH]; cbn; [set_solver|]. intros Hi. case_match eqn:Ex.
  - by apply Nat.eqb_eq in Ex as ->.
  - apply Nat.eqb_neq in Ex. rewrite (IH ltac:(set_solver)) at 1. apply Permutation_swap.
Qed.

(** The attempts that have not been taken are as many as the distinct numbers below [firedTotal] allow. *)
Lemma pending_le s : NoDup (in_flight s ++ map fst (resultCh s)) ->
  Forall (fun i => (i < firedTotal s)%nat) (in_flight s ++ map fst (resultCh s)) -> (pending s <= firedTotal s)%nat.
Proof.
  intros Hnd Hb. unfold pending. rewrite <- (length_map fst (resultCh s)), <- length_app.
  transitivity (length (seq 0 (firedTotal s))); [|by rewrite length_seq]. apply submseteq_length, NoDup_submseteq; [done|]. intros i Hi. rewrite Forall_forall in Hb. apply elem_of_seq.
  specialize (Hb i Hi). lia.
Qed.

Lemma hedge_start_inv : hedge_inv start.
Proof.
  split; cbn; [lia|apply NoDup_singleton|by repeat constructor|]. unfold pending; cbn. split_and!; try done; lia.
Qed.

(** Launching an attempt. *)
Lemma fireAttempt_inv s : (firedTotal s < n)%nat -> NoDup (in_flight s ++ map fst (resultCh s)) ->
  Forall (fun i => (i < firedTotal s)%nat) (in_flight s ++ map fst (resultCh s)) -> returned s = None ->
  outstanding s = pending s -> (pending s + length (received s) = firedTotal s)%nat -> Forall failed (received s) ->
  lastErr s = mjoin (last (received s)) -> hedge_inv (fireAttempt s).
Proof.
  intros Hf Hnd Hb Hr Ho Hp Hrec Hl.
  assert (Hperm : (in_flight s ++ [firedTotal s]) ++ map fst (resultCh s) ≡ₚ
    firedTotal s :: in_flight s ++ map fst (resultCh s)) by (rewrite <- app_assoc; cbn; by rewrite Permutation_middle).
  split; cbn; [lia| | |].
  - rewrite Hperm. constructor; [|done]. intros Hi. rewrite Forall_forall in Hb. specialize (Hb _ Hi). lia.
  - rewrite Hperm. constructor; [lia|]. eapply Forall_impl; [exact Hb|]. cbn; lia.
  - rewrite Hr. unfold pending in *; cbn. rewrite length_app; cbn. split_and!; try done; lia.
Qed.

Lemma on_result_inv s i err ch : hedge_inv s -> returned s = None -> resultCh s = (i, err) :: ch ->
  hedge_inv (on_result n err ch s).
Proof.
  intros [Hf Hnd Hb Hr] Hret Hch. rewrite Hret in Hr. destruct Hr as (Ho & Hpos & Hsum & Hrec & Hl).
  unfold pending in *. rewrite Hch in *. cbn [map fst length] in *.
  assert (Hperm : in_flight s ++ i :: map fst ch ≡ₚ i :: in_flight s ++ map fst ch) by (by rewrite Permutation_middle).
  rewrite Hperm in Hnd, Hb. apply NoDup_cons in Hnd as [_ Hnd]. apply Forall_cons in Hb as [_ Hb].
  unfold on_result; cbn -[Nat.ltb]. destruct err as [e|].
  - assert (Hrec' : Forall failed (received s ++ [Some e])) by (apply Forall_app; split; [done|by apply Forall_singleton; eexists]).
    destruct (Nat.ltb_spec (firedTotal s) n).
    + apply fireAttempt_inv; cbn; try done; unfold pending; cbn; rewrite ?length_app, ?last_snoc; cbn; try done; lia.
    + destruct (Nat.eqb_spec (outstanding s - 1) 0); (split; [done|done|done|]); cbn; rewrite ?Hret.
      * rewrite length_app, last_snoc; cbn. unfold pending; cbn. split_and!; try done; lia.
      * unfold pending; cbn. rewrite length_app, last_snoc; cbn. split_and!; try done; lia.
  - split; [done|done|done|]. cbn. exists (received s). unfold pending; cbn. split_and!; try done; lia.
Qed.

(** A goroutine hands over its result. *)
Lemma finish_hedge_inv s i err : hedge_inv s -> i ∈ in_flight s ->
  hedge_inv (mkState (resultCh s ++ [(i, err)]) (remove_id i (in_flight s)) (firedTotal s) (outstanding s) (lastErr s)
    (ctx_end s) (timer s) (cancelled s) (received s) (to_drain s) (returned s)).
Proof.
  intros [Hf Hnd Hb Hr] Hi. pose proof (remove_id_perm i _ Hi) as Hp.
  assert (Hperm : remove_id i (in_flight s) ++ map fst (resultCh s ++ [(i, err)]) ≡ₚ in_flight s ++ map fst (resultCh s)).
  { rewrite map_app; cbn. etrans; [|apply Permutation_app_tail; symmetry; exact Hp]. cbn.
    by rewrite app_assoc, (Permutation_app_comm _ [i]). }
  assert (Hpend : (length (remove_id i (in_flight s)) + length (resultCh s ++ [(i, err)]))%nat = pending s)
    by (unfold pending; apply Permutation_length in Hp; rewrite length_app; cbn in *; lia).
  split; cbn; rewrite ?Hperm; try done.
  unfold pending in *; cbn [in_flight resultCh]. rewrite ?Hpend. done.
Qed.

Lemma hedge_step_inv ev s s' : hedge_inv s -> step n ev s = Some s' -> hedge_inv s'.
Proof.
  intros Hs E0. destruct ev as [i err| |e| | | |]; cbn -[Nat.ltb] in E0.
  - case_match eqn:Ei; [|done]. apply andb_true_iff in Ei as [Ei _]. apply bool_decide_eq_true in Ei. simplify_eq.
    by apply finish_hedge_inv.
  - case_match; [|done..]. simplify_eq. destruct Hs. by split.
  - case_match eqn:Hce; [done|]. simplify_eq. destruct Hs as [Hf Hnd Hb Hr]. split; try done. cbn.
    destruct (returned s) as [[| |]|]; try done. destruct Hr. congruence.
  - case_match eqn:Hret; [done|]. case_match eqn:Hch; [done|]. case_match. simplify_eq. by eapply on_result_inv.
  - case_match eqn:Hret; [done|]. case_match; [done| |done]. simplify_eq. destruct Hs as [Hf Hnd Hb Hr]. rewrite Hret in Hr.
    destruct Hr as (Ho & Hpos & Hsum & Hrec & Hl). case_match eqn:Hlt.
    + apply Nat.ltb_lt in Hlt. by apply fireAttempt_inv.
    + split; try done; cbn; by rewrite Hret.
  - case_match eqn:Hret; [done|]. apply bind_Some in E0 as (e & He & E0). simplify_eq. destruct Hs as [Hf Hnd Hb Hr].
    split; try done. cbn. rewrite Hret in Hr. split; [done|]. by destruct Hr as (_ & _ & _ & ? & _).
  - destruct (returned s) as [res|] eqn:Hret; [|done]. destruct (resultCh s) as [|[j r] l] eqn:Hch; [done|].
    destruct (to_drain s) as [|k] eqn:Hd; [done|]. simplify_eq. destruct Hs as [Hf Hnd Hb Hr].
    rewrite Hch in Hnd, Hb. cbn in Hnd, Hb.
    assert (Hperm : in_flight s ++ j :: map fst l ≡ₚ j :: in_flight s ++ map fst l) by (by rewrite Permutation_middle).
    rewrite Hperm in Hnd, Hb. apply NoDup_cons in Hnd as [_ Hnd]. apply Forall_cons in Hb as [_ Hb].
    split; try done. cbn. rewrite Hret in *. unfold pending in *; rewrite Hch, ?Hd in Hr; cbn in *.
    destruct res as [|e|e]; [|lia|done]. destruct Hr as (l0 & ? & ? & ? & ?). exists l0. split_and!; try done. lia.
Qed.

Lemma hedge_run_inv evs s s' : hedge_inv s -> run n s evs = Some s' -> hedge_inv s'.
Proof.
  revert s. induction evs as [|ev evs IH]; intros s Hs E0; cbn in E0; [by simplify_eq|].
  apply bind_Some in E0 as (s1 & E1 & E2). eapply IH; [|done]. by eapply hedge_step_inv.
Qed.
End hedgen_facts.

(** C35: [HedgeN] keeps its promises in every interleaving of attempts, timer, context and caller.  At most [n] attempts are
    launched; every goroutine can hand its result over, also after the call has returned, so none is left blocked; as long as
    the call has not returned an attempt is in flight or a result is waiting.  The call returns nil exactly upon the first
    success it receives, then all contexts are cancelled and the background goroutine takes what is left; it returns an error
    of an attempt only when all [n] attempts have been launched and have failed, and then the last error received; otherwise
    it returns the error of the ended context. *)
Theorem hedgen_first_success {E} n evs (s : HedgeN.state E) : (1 <= n)%nat ->
  HedgeN.run n HedgeN.start evs = Some s ->
  (HedgeN.firedTotal s <= n)%nat /\
  (forall i err, i ∈ HedgeN.in_flight s -> is_Some (HedgeN.step n (HedgeN.Finish i err) s)) /\
  match HedgeN.returned s with
  | None =>
      Forall failed (HedgeN.received s) /\
      (HedgeN.in_flight s = [] -> is_Some (HedgeN.step n HedgeN.SelectResult s))
  | Some HedgeN.Success =>
      (exists l, HedgeN.received s = l ++ [None] /\ Forall failed l) /\ HedgeN.cancelled s = true /\
      HedgeN.to_drain s = (length (HedgeN.in_flight s) + length (HedgeN.resultCh s))%nat
  | Some (HedgeN.LastErr e) =>
      HedgeN.firedTotal s = n /\ length (HedgeN.received s) = n /\ Forall failed (HedgeN.received s) /\
      last (HedgeN.received s) = Some (Some e)
  | Some (HedgeN.CtxErr e) => HedgeN.ctx_end s = Some e
  end.
Proof.
  intros Hn Hr. destruct (hedge_run_inv n Hn evs _ _ (hedge_start_inv n Hn) Hr) as [Hf Hnd Hb Hres].
  pose proof (pending_le n Hn s Hnd Hb) as Hp. split_and!; [lia| |].
  - intros i err Hi. cbn -[Nat.ltb]. rewrite bool_decide_eq_true_2 by done.
    assert (1 <= length (HedgeN.in_flight s))%nat by (destruct (HedgeN.in_flight s); [set_solver|cbn; lia]).
    rewrite (proj2 (Nat.ltb_lt _ _)); [by eexists|]. unfold pending in Hp. lia.
  - destruct (HedgeN.returned s) as [[|e|e]|] eqn:Hret.
    + destruct Hres as (l & ? & ? & ? & ?). split_and!; [by exists l|done|done].
    + by destruct Hres as (? & ? & ? & ? & ?).
    + by destruct Hres.
    + destruct Hres as (Ho & Hpos & _ & Hrec & _). split; [done|]. intros Hi. cbn. rewrite Hret.
      unfold pending in Hpos. rewrite Hi in Hpos. destruct (HedgeN.resultCh s) as [|[j err] ch]; [cbn in Hpos; lia|by eexists].
Qed.

(** Three attempts: the first two fail, the third, launched upon the second failure, wins. *)
Lemma hedgen_first_success_witness :
  let evs := [HedgeN.TimerFires; HedgeN.SelectTimer; HedgeN.Finish 1 (Some 11%nat); HedgeN.SelectResult;
              HedgeN.Finish 2 None; HedgeN.SelectResult] in
  exists s, HedgeN.run 3 HedgeN.start evs = Some s /\ HedgeN.returned s = Some HedgeN.Success /\
    HedgeN.received s = [Some 11%nat; None] /\ HedgeN.in_flight s = [0%nat] /\ HedgeN.cancelled s = true /\
    is_Some (HedgeN.step 3 (HedgeN.Finish 0 (Some 12%nat)) s).
Proof.
  intros evs. eexists. split; [vm_compute; reflexivity|].
  pose proof (hedgen_first_success (E := nat) 3 evs _ ltac:(lia) eq_refl) as (_ & Hsend & _).
  split_and!; try reflexivity. apply Hsend. by left.
Defined.

Section hedge_facts.
Context {E : Type}.
Import Hedge.

(** The calls that can still send, and the room they need. *)
Definition hedge_live (s : state E) : nat := ((if primary_live s then 1 else 0) + (if backup_live s then 1 else 0))%nat.

Record one_hedge_inv (s : state E) : Prop := mkOneHedgeInv {
  oh_room : (hedge_live s + length (resultCh s) <= 2)%nat;
  oh_phase : match at_ s with
    | Racing => backup_live s = false /\ timer s <> Off /\ drain s = false /\
                (if primary_live s then resultCh s = [] else exists err, resultCh s = [(err, true)])
    | Hedged => drain s = false /\ (hedge_live s + length (resultCh s) = 2)%nat
    | Returned r =>
        (exists err, Err r = Some (inr err) /\ Primary r = true /\ ctx_end s = Some err) \/
        ((exists err, Err r = inl <$> (err : option E)) /\ (hedge_live s + length (resultCh s) <= 1)%nat)
    end;
  oh_cancel : (exists r, at_ s = Returned r) -> primary_cancelled s = true;
}.

Lemma one_hedge_start : one_hedge_inv start.
Proof. split; cbn; [lia|done|by intros [r Hr]]. Qed.

Lemma one_hedge_step ev s s' : one_hedge_inv s -> step ev s = Some s' -> one_hedge_inv s'.
Proof.
  intros [H1 H2 H3] E0. destruct s as [ch pl bl ce tm pc dr ph]; unfold hedge_live in *; cbn in *.
  destruct ev as [p err| |e| | | |]; cbn -[Nat.ltb] in E0.
  - case_match eqn:Ep; [|done]. simplify_eq. apply andb_true_iff in Ep as [Ep _].
    split; unfold hedge_live; cbn; rewrite ?length_app; cbn.
    + destruct p, pl, bl; cbn in *; try done; lia.
    + destruct ph as [| |r].
      * destruct H2 as (-> & ? & ? & H2). destruct p; [|done]. subst. cbn in *. subst. split_and!; try done. by exists err.
      * destruct H2 as [? H2]. split; [done|]. destruct p, pl, bl; cbn in *; try done; lia.
      * destruct H2 as [H2|[H2 H4]]; [by left|right]. split; [done|].
        destruct p, pl, bl; cbn in *; try done; lia.
    + done.
  - case_match; [|done..]. simplify_eq. split; cbn; try done. destruct ph; naive_solver.
  - case_match; [done|]. simplify_eq. split; cbn; try done. destruct ph; try done. naive_solver.
  - destruct ph as [| |r]; [| |done]; destruct ch as [|[err p] ch]; try done; simplify_eq; split; unfold hedge_live; cbn in *;
      try lia; try done; right; (split; [by exists err|]).
    + destruct H2 as (-> & _ & _ & H2). destruct pl; cbn in *; [done|]. destruct H2 as [? [= -> ->]]. cbn. lia.
    + destruct H2 as [_ H2]. lia.
  - destruct ph as [| |r]; try done. apply bind_Some in E0 as (e & -> & E0). simplify_eq. split; cbn; try done.
    left. by exists e.
  - destruct ph as [| |r]; try done. destruct tm; try done. simplify_eq. destruct H2 as (-> & _ & -> & H2).
    split; unfold hedge_live; cbn; [|split; [done|]|by intros [r Hr]];
      (destruct pl; cbn in *; [|destruct H2 as [? H2]]; rewrite H2; cbn; lia).
  - destruct ph as [| |r]; destruct ch as [|x ch]; try done; case_match; try done; simplify_eq;
      try (by destruct H2 as (_ & _ & ? & _)); try (by destruct H2 as (? & _)).
    split; unfold hedge_live; cbn in *; try done; [lia|]. destruct H2 as [H2|[H2 H4]]; [by left|right]. split; [done|lia].
Qed.

Lemma one_hedge_run evs s s' : one_hedge_inv s -> run s evs = Some s' -> one_hedge_inv s'.
Proof.
  revert s. induction evs as [|ev evs IH]; intros s Hs E0; cbn in E0; [by simplify_eq|].
  apply bind_Some in E0 as (s1 & E1 & E2). eapply IH; [|done]. by eapply one_hedge_step.
Qed.
End hedge_facts.

(** [Hedge] in every interleaving: neither of the at most two calls is ever blocked on the channel; while the caller has not
    returned and no call runs, a result is waiting for it; it returns the result of the first call it hears from, or before
    the backup is launched the error of the context; the primary's context is then cancelled. *)
Theorem hedge_first_result {E} evs (s : Hedge.state E) : Hedge.run Hedge.start evs = Some s ->
  (forall (p : bool) (err : option E), (if p then Hedge.primary_live s else Hedge.backup_live s) = true ->
     is_Some (Hedge.step (Hedge.Finish p err) s)) /\
  match Hedge.at_ s with
  | Hedge.Returned r =>
      Hedge.primary_cancelled s = true /\
      match Hedge.Err r with Some (inr e) => Hedge.ctx_end s = Some e | _ => True end
  | _ => hedge_live s = 0%nat -> is_Some (Hedge.step Hedge.SelectResult s)
  end.
Proof.
  intros Hr. destruct (one_hedge_run evs _ _ one_hedge_start Hr) as [H1 H2 H3]. split.
  - intros p err Hp. cbn -[Nat.ltb]. rewrite Hp. rewrite (proj2 (Nat.ltb_lt _ _)); [by eexists|].
    unfold hedge_live in H1. destruct p; rewrite Hp in H1; lia.
  - destruct (Hedge.at_ s) as [| |r] eqn:Ea.
    + intros Hl. destruct H2 as (_ & _ & _ & H2). unfold hedge_live in Hl. destruct (Hedge.primary_live s); [lia|].
      destruct H2 as [err H2]. cbn. rewrite Ea, H2. by eexists.
    + intros Hl. destruct H2 as [_ H2]. cbn. rewrite Ea. destruct (Hedge.resultCh s) as [|[err p] ch]; [cbn in *; lia|by eexists].
    + split; [apply H3; by exists r|]. destruct H2 as [(e & -> & _ & H2)|[[err ->] _]]; [done|by destruct err].
Qed.

(** Once the backup is launched the caller does not look at its context any more: as long as neither call returns, it waits,
    also after the context has ended. *)
Theorem hedged_wait_ignores_context {E} evs (s s' : Hedge.state E) :
  Hedge.at_ s = Hedge.Hedged -> Hedge.resultCh s = [] -> Forall (fun ev => forall p err, ev <> Hedge.Finish p err) evs ->
  Hedge.run s evs = Some s' -> Hedge.at_ s' = Hedge.Hedged.
Proof.
  intros Ha Hc Hf. revert s Ha Hc. induction Hf as [|ev evs Hev Hf IH]; intros s Ha Hc E0; cbn in E0; [by simplify_eq|].
  apply bind_Some in E0 as (s1 & E1 & E2). assert (Hedge.at_ s1 = Hedge.Hedged /\ Hedge.resultCh s1 = []) as [? ?]; [|by eapply IH].
  destruct ev; cbn in E1; rewrite ?Ha, ?Hc in E1; [by edestruct Hev|..]; repeat case_match; by simplify_eq.
Qed.
