(* ===== verification/Cached.v ===== *)
(** * The stale-while-error cache ([fallback/cached.go]).

    Any number of goroutines call [Do] with keys of their own.  A step is one
    critical section of the cache or of the call group, the start or the return
    of a primary function, or the wake-up of a caller that joined a call.  The
    clock reading, the result of a primary and the order in which Go ranges
    over the map are parameters of the step. *)

From stdpp Require Import relations.
From S2P Require Import Prelude.
Open Scope Z_scope.

Section cached.
Context {T E : Type}.

Record entry := mkEntry { value : T; storedAt : time }.

Inductive CacheMode := ModeAlwaysCallPrimary | ModeServeFreshFromCache.

Record CacheConfig := mkConfig { TTL : duration; StaleWhileError : duration; Mode : CacheMode; MaxEntries : Z }.

(** What [Do] returns: a value with nil, a value with [ErrStale], or the error of the primary. *)
Inductive result := Fresh (v : T) | Stale (v : T) | Failed (e : E).

(** ** The store *)

Definition freshValue (cfg : CacheConfig) (store : gmap string entry) (key : string) (now : time) : option T :=
  e ← store !! key;
  if TTL cfg <=? 0 then None
  else if time_sub now (storedAt e) <? TTL cfg then Some (value e) else None.

Definition staleValue (cfg : CacheConfig) (store : gmap string entry) (key : string) (now : time) : option T :=
  e ← store !! key;
  if StaleWhileError cfg <=? 0 then None
  else if time_sub now (storedAt e) <=? StaleWhileError cfg then Some (value e) else None.

(** The loop of [evictOldestLocked] over the keys in the order of the range. *)
Fixpoint oldest (store : gmap string entry) (keep : string) (order : list string) (best : option (string * time))
  : option (string * time) :=
  match order with
  | [] => best
  | k :: order =>
      match store !! k with
      | None => oldest store keep order best
      | Some e =>
          if decide (k = keep) then oldest store keep order best
          else
            let older := match best with None => true | Some (_, at_) => Before (storedAt e) at_ end in
            oldest store keep order (if older then Some (k, storedAt e) else best)
      end
  end.

Definition evictOldestLocked (keep : string) (order : list string) (store : gmap string entry) : gmap string entry :=
  match oldest store keep order None with Some (k, _) => delete k store | None => store end.

Definition storeValue (cfg : CacheConfig) (store : gmap string entry) (key : string) (v : T) (now : time)
    (order : list string) : gmap string entry :=
  let existing := store !! key in
  let store := <[key := mkEntry v now]> store in
  if bool_decide (existing = None) && (0 <? MaxEntries cfg) && (MaxEntries cfg <? Z.of_nat (size store))
  then evictOldestLocked key order store
  else store.

(** ** Concurrent calls *)

(** Where a goroutine is: before the fast path, before the call group, leading call [c], its primary running, with the
    result of the primary, with the outcome of the call, waiting for call [c], before removing the call, done, or gone with
    a panic of its primary. *)
Inductive pc :=
| PStart
| PGroup
| PLead (c : nat)
| PPrimary (c : nat)
| PStore (c : nat) (v : T)
| PStale (c : nat) (e : E)
| PFinish (c : nat) (r : result)
| PDelete (c : nat) (r : result)
| PJoin (c : nat)
| PDone (r : result)
| PPanicked.

Record thread := mkThread { t_key : string; t_pc : pc }.

(** A call of the group: [None] while it runs. *)
Record system := mkSystem {
  sy_store : gmap string entry;
  sy_calls : gmap string nat;
  sy_results : list (option result);
  sy_threads : list thread;
}.

Inductive primary := Returns (v : T) | Fails (e : E) | Panics.

(** What a step is given: the clock, the primary's behaviour, the order of a range. *)
Record input := mkInput { in_now : time; in_primary : primary; in_order : list string }.

Section steps.
Context (cfg : CacheConfig).

Definition fast (store : gmap string entry) (key : string) (now : time) : option T :=
  match Mode cfg with ModeServeFreshFromCache => freshValue cfg store key now | ModeAlwaysCallPrimary => None end.

(** One step of a goroutine on the shared state. *)
Definition thread_step (i : input) (key : string) (p : pc) (s : system) : option (pc * system) :=
  let '(mkSystem store calls results ts) := s in
  match p with
  | PStart =>
      Some (match fast store key (in_now i) with Some v => PDone (Fresh v) | None => PGroup end, s)
  | PGroup =>
      match calls !! key with
      | Some c => Some (PJoin c, s)
      | None =>
          let c := length results in
          Some (PLead c, mkSystem store (<[key := c]> calls) (results ++ [None]) ts)
      end
  | PLead c =>
      Some (match fast store key (in_now i) with Some v => PFinish c (Fresh v) | None => PPrimary c end, s)
  | PPrimary c =>
      Some (match in_primary i with Returns v => PStore c v | Fails e => PStale c e | Panics => PPanicked end, s)
  | PStore c v =>
      Some (PFinish c (Fresh v), mkSystem (storeValue cfg store key v (in_now i) (in_order i)) calls results ts)
  | PStale c e =>
      Some (PFinish c (match staleValue cfg store key (in_now i) with Some v => Stale v | None => Failed e end), s)
  | PFinish c r =>
      Some (PDelete c r, mkSystem store calls (<[c := Some r]> results) ts)
  | PDelete c r =>
      Some (PDone r,
            mkSystem store (if decide (calls !! key = Some c) then delete key calls else calls) results ts)
  | PJoin c =>
      match results !! c with Some (Some r) => Some (PDone r, s) | _ => None end
  | PDone _ | PPanicked => None
  end.

Definition sys_step (n : nat) (i : input) (s : system) : option system :=
  t ← sy_threads s !! n;
  '(p, s') ← thread_step i (t_key t) (t_pc t) s;
  Some (mkSystem (sy_store s') (sy_calls s') (sy_results s') (<[n := mkThread (t_key t) p]> (sy_threads s))).

(** What the primaries of a key may return. *)
Context (Q : string -> T -> Prop) (Qe : string -> E -> Prop).

Definition primary_ok (key : string) (p : primary) : Prop :=
  match p with Returns v => Q key v | Fails e => Qe key e | Panics => True end.

(** A range visits every key of the map. *)
Definition covers (order : list string) (store : gmap string entry) : Prop := forall k, is_Some (store !! k) -> k ∈ order.

Inductive step : system -> system -> Prop :=
| Step n t i s s' : sy_threads s !! n = Some t -> primary_ok (t_key t) (in_primary i) -> covers (in_order i) (sy_store s) ->
    sys_step n i s = Some s' -> step s s'.

(** [NewCached] and the callers with their keys. *)
Definition start (keys : list string) : system := mkSystem ∅ ∅ [] (map (fun k => mkThread k PStart) keys).

Definition reachable (keys : list string) (s : system) : Prop := rtc step (start keys) s.

Fixpoint run_schedule (s : system) (sched : list (nat * input)) : option system :=
  match sched with [] => Some s | (n, i) :: sched => s ← sys_step n i s; run_schedule s sched end.

End steps.
End cached.
Arguments entry : clear implicits.
Arguments result : clear implicits.
Arguments pc : clear implicits.
Arguments thread : clear implicits.
Arguments system : clear implicits.
Arguments primary : clear implicits.
Arguments input : clear implicits.

(** ** Eviction *)

Section eviction.
Context {T E : Type}.

(** The loop keeps an entry of the map other than [keep] that none of those it has seen is older than. *)
Lemma oldest_spec (store : gmap string (entry T)) keep order best :
  (match best with Some (k, t) => k <> keep /\ exists e, store !! k = Some e /\ storedAt e = t | None => True end) ->
  match oldest store keep order best with
  | None => best = None /\ forall k e, k ∈ order -> store !! k = Some e -> k = keep
  | Some (k, t) => (k <> keep /\ exists e, store !! k = Some e /\ storedAt e = t) /\
      (match best with Some (_, t') => t <= t' | None => True end) /\
      forall k' e', k' ∈ order -> k' <> keep -> store !! k' = Some e' -> t <= storedAt e'
  end.
Proof.
  revert best. induction order as [|k order IH]; intros best Hb; cbn [oldest].
  { destruct best as [[k t]|]; [split; [done|]; split; [lia|]|split; [done|]]; set_solver. }
  destruct (store !! k) as [e|] eqn:Ek.
  2: { specialize (IH best Hb). destruct (oldest store keep order best) as [[k2 t2]|].
       - destruct IH as (H1 & H2 & H3). split; [done|]; split; [done|]. intros k' e' [->|Hk']%elem_of_cons ? ?; [congruence|eauto].
       - destruct IH as [H1 H2]. split; [done|]. intros k' e' [->|Hk']%elem_of_cons ?; [congruence|eauto]. }
  destruct (decide (k = keep)) as [->|Hk].
  { specialize (IH best Hb). destruct (oldest store keep order best) as [[k2 t2]|].
    - destruct IH as (H1 & H2 & H3). split; [done|]; split; [done|]. intros k' e' [->|Hk']%elem_of_cons ? ?; [done|eauto].
    - destruct IH as [H1 H2]. split; [done|]. intros k' e' [->|Hk']%elem_of_cons ?; [done|eauto]. }
  set (best' := if match best with None => true | Some (_, at_) => Before (storedAt e) at_ end then Some (k, storedAt e) else best).
  assert (Hb' : match best' with Some (k, t) => k <> keep /\ exists e, store !! k = Some e /\ storedAt e = t | None => False end /\
    match best' with Some (_, t) => t <= storedAt e /\ match best with Some (_, t') => t <= t' | None => True end | None => False end).
  { unfold best', Before. destruct best as [[k1 t1]|]; [|split; [by split; [|exists e]|lia]].
    destruct (Z.ltb_spec (storedAt e) t1); (split; [|lia]); [by split; [|exists e]|done]. }
  clearbody best'. destruct best' as [[k1 t1]|]; [|by destruct Hb']. destruct Hb' as [Hb1 [Hb2 Hb3]].
  specialize (IH (Some (k1, t1)) Hb1). destruct (oldest store keep order (Some (k1, t1))) as [[k2 t2]|]; [|by destruct IH].
  destruct IH as (H1 & H2 & H3). split; [done|]; split.
  - destruct best as [[? ?]|]; [lia|done].
  - intros k' e' [->|Hk']%elem_of_cons ? ?; [simplify_eq; lia|eauto].
Qed.

(** What a store does to the cache: the key holds the new value, at most one other entry goes, only when a new key exceeds
    the limit, and it is one that no remaining entry is older than. *)
Lemma storeValue_spec cfg (store : gmap string (entry T)) key v now order :
  (forall k, is_Some (store !! k) -> k ∈ order) ->
  let store' := storeValue cfg store key v now order in
  store' !! key = Some (mkEntry v now) /\
  (forall k e, k <> key -> store' !! k = Some e -> store !! k = Some e) /\
  (0 < MaxEntries cfg -> Z.of_nat (size store) <= MaxEntries cfg -> Z.of_nat (size store') <= MaxEntries cfg) /\
  (forall k e, store !! k = Some e -> k <> key -> store' !! k = None ->
     forall k' e', k' <> key -> store' !! k' = Some e' -> storedAt e <= storedAt e').
Proof.
  intros Hc. cbv zeta. unfold storeValue, evictOldestLocked.
  pose proof (oldest_spec (<[key := mkEntry v now]> store) key order None I) as Ho.
  destruct (bool_decide (store !! key = None)) eqn:Hex; cbn [andb].
  2: { apply bool_decide_eq_false in Hex. split_and!.
       - by rewrite lookup_insert_eq.
       - intros k e Hk. by rewrite lookup_insert_ne.
       - intros _. rewrite map_size_insert_Some by (by apply not_eq_None_Some). done.
       - intros k e Hs Hk. rewrite lookup_insert_ne by done. congruence. }
  apply bool_decide_eq_true in Hex. set (store1 := <[key := mkEntry v now]> store) in *.
  assert (Hsz : size store1 = S (size store)) by (by apply map_size_insert_None).
  assert (Hl : forall k, k <> key -> store1 !! k = store !! k) by (intros; by apply lookup_insert_ne).
  destruct (Z.ltb_spec 0 (MaxEntries cfg)) as [Hm|Hm], (Z.ltb_spec (MaxEntries cfg) (Z.of_nat (size store1))) as [Hs|Hs];
    cbn [andb].
  2-4: split_and!; [apply lookup_insert_eq|intros k e Hk; by rewrite Hl|lia|intros k e He Hk; rewrite Hl by done; congruence].
  destruct (oldest store1 key order None) as [[k0 t0]|].
  - destruct Ho as ((Hk0 & e0 & He0 & <-) & _ & Ho). split_and!.
    + rewrite lookup_delete_ne by done. apply lookup_insert_eq.
    + intros k e Hk He. apply lookup_delete_Some in He as [_ He]. by rewrite <- Hl.
    + rewrite map_size_delete_Some by (by eexists). lia.
    + intros k e He Hk Hd k' e' Hk' He'. apply lookup_delete_None in Hd as [->|Hd]; [|rewrite Hl in Hd by done; congruence].
      rewrite Hl in He0 by done. simplify_eq. apply lookup_delete_Some in He' as [_ He']. apply (Ho k'); [|done..].
      apply Hc. rewrite <- Hl by done. by eexists.
  - destruct Ho as [_ Ho]. assert (size store = 0%nat) as H0; [|lia].
    apply map_size_empty_iff. apply map_eq. intros k. rewrite lookup_empty. destruct (store !! k) as [e|] eqn:Ek; [|done].
    assert (k = key) as ->; [|congruence]. destruct (decide (k = key)) as [|Hk]; [done|].
    apply (Ho k e); [apply Hc; by eexists|by rewrite Hl].
Qed.
End eviction.

(** ** The invariant of the concurrent cache *)

Section concurrent.
Context {T E : Type} (cfg : CacheConfig) (Q : string -> T -> Prop) (Qe : string -> E -> Prop).

Definition result_ok (key : string) (r : result T E) : Prop :=
  match r with Fresh v | Stale v => Q key v | Failed e => Qe key e end.

(** The call a goroutine leads, until it has removed it. *)
Definition owns (p : pc T E) : option nat :=
  match p with
  | PLead c | PPrimary c | PStore c _ | PStale c _ | PFinish c _ | PDelete c _ => Some c
  | _ => None
  end.

(** What a goroutine that leads carries. *)
Definition carries_ok (key : string) (p : pc T E) : Prop :=
  match p with
  | PStore _ v => Q key v
  | PStale _ e => Qe key e
  | PFinish _ r | PDelete _ r | PDone r => result_ok key r
  | _ => True
  end.

(** [ks]: the keys of the calls, a history variable. *)
Definition pc_ok (ks : list string) (s : system T E) (key : string) (p : pc T E) : Prop :=
  carries_ok key p /\
  (forall c, owns p = Some c -> sy_calls s !! key = Some c /\
     sy_results s !! c = Some (match p with PDelete _ r => Some r | _ => None end)) /\
  (forall c, p = PJoin c -> ks !! c = Some key).

Definition within_limit (store : gmap string (entry T)) : Prop :=
  0 < MaxEntries cfg -> Z.of_nat (size store) <= MaxEntries cfg.

Record cache_inv_at (ks : list string) (s : system T E) : Prop := mkCacheInv {
  ca_len : length ks = length (sy_results s);
  ca_calls : forall k c, sy_calls s !! k = Some c -> ks !! c = Some k;
  ca_results : forall c r, sy_results s !! c = Some (Some r) -> exists k, ks !! c = Some k /\ result_ok k r;
  ca_store : map_Forall (fun k e => Q k (value e)) (sy_store s) /\ within_limit (sy_store s);
  ca_threads : forall n t, sy_threads s !! n = Some t -> pc_ok ks s (t_key t) (t_pc t);
  ca_unique : forall n n' t t' c, sy_threads s !! n = Some t -> sy_threads s !! n' = Some t' ->
    owns (t_pc t) = Some c -> owns (t_pc t') = Some c -> n = n';
  ca_owned : forall c, sy_results s !! c = Some None ->
    exists n t, sy_threads s !! n = Some t /\ (owns (t_pc t) = Some c \/ t_pc t = PPanicked);
}.

Lemma start_cache_inv keys : cache_inv_at [] (start keys).
Proof.
  assert (Ht : forall n t, sy_threads (start (T := T) (E := E) keys) !! n = Some t -> t_pc t = PStart).
  { intros n t. cbn. rewrite list_lookup_fmap. intros (k & _ & ->)%fmap_Some. done. }
  split; cbn; try done.
  - split; [apply map_Forall_empty|]. unfold within_limit. rewrite map_size_empty. lia.
  - intros n t Hn. rewrite (Ht n t Hn). done.
  - intros n n' t t' c Hn _ Ho. by rewrite (Ht n t Hn) in Ho.
Qed.

Definition deletes (p : pc T E) : bool := match p with PDelete _ _ => true | _ => false end.

(** A step that leaves the calls and their results alone: the goroutine leads what it led, or is gone. *)
Lemma local_inv ks s n key p p' store' : cache_inv_at ks s -> sy_threads s !! n = Some (mkThread key p) ->
  owns p' = owns p \/ p' = PPanicked -> p <> PPanicked -> deletes p = false -> deletes p' = false ->
  carries_ok key p' -> (forall c, p' = PJoin c -> ks !! c = Some key) ->
  map_Forall (fun k e => Q k (value e)) store' -> within_limit store' ->
  cache_inv_at ks (mkSystem store' (sy_calls s) (sy_results s) (<[n := mkThread key p']> (sy_threads s))).
Proof.
  intros [H1 H2 H3 H4 H5 H6 H7] Hn Ho Hp Hd Hd' Hc Hj Hst Hlim.
  assert (Hown : forall c, owns p' = Some c -> owns p = Some c) by (intros c; destruct Ho as [<-| ->]; done).
  split; cbn; try done.
  - intros m t [(<- & <- & _)|[Hm Ht]]%list_lookup_insert_Some; cbn; [|by destruct (H5 m t Ht) as (? & ? & ?)].
    split_and!; [done| |done]. intros c Hc'. destruct (H5 n _ Hn) as (_ & Hpc & _). cbn in Hpc.
    destruct (Hpc c (Hown c Hc')) as [? Hr]. split; [done|]. by destruct p; destruct p'.
  - intros m m' t t' c [(<- & <- & _)|[Hm Ht]]%list_lookup_insert_Some [(<- & <- & _)|[Hm' Ht']]%list_lookup_insert_Some; cbn;
      try done; intros Ho1 Ho2; eapply H6; try done; cbn; auto.
  - intros c Hr. destruct (H7 c Hr) as (m & t & Ht & Hot). destruct (decide (m = n)) as [->|Hm].
    + exists n, (mkThread key p'). split; [apply list_lookup_insert_eq; by eapply lookup_lt_Some|]. simplify_eq. cbn in *.
      destruct Hot as [Hot|Hot]; [|done]. destruct Ho as [->|Ho]; [by left|by right].
    + exists m, t. split; [by rewrite list_lookup_insert_ne|done].
Qed.

(** A new call for a key that has none. *)
Lemma create_inv ks s n key : cache_inv_at ks s -> sy_threads s !! n = Some (mkThread key PGroup) -> sy_calls s !! key = None ->
  let c := length (sy_results s) in
  cache_inv_at (ks ++ [key]) (mkSystem (sy_store s) (<[key := c]> (sy_calls s)) (sy_results s ++ [None])
    (<[n := mkThread key (PLead c)]> (sy_threads s))).
Proof.
  intros [H1 H2 H3 H4 H5 H6 H7] Hn Hkey c.
  assert (Hks : forall c' k, ks !! c' = Some k -> (ks ++ [key]) !! c' = Some k) by (intros; by apply lookup_app_l_Some).
  assert (Hnew : (ks ++ [key]) !! c = Some key) by (unfold c; rewrite <- H1, lookup_app_r, Nat.sub_diag; done).
  split; cbn; try done.
  - rewrite !length_app; cbn; lia.
  - intros k c' [(<- & <-)|[Hk Hc]]%lookup_insert_Some; [done|]. apply Hks. by apply H2.
  - intros c' r [Hr|[_ Hr]]%lookup_app_Some; [|by destruct (c' - _)%nat].
    destruct (H3 c' r Hr) as (k & Hk & Hok). exists k. split; [by apply Hks|done].
  - intros m t [(<- & <- & _)|[Hm Ht]]%list_lookup_insert_Some; cbn.
    + split_and!; [done| |done]. intros c' [= <-]. cbn. rewrite lookup_insert_eq. split; [done|].
      by rewrite lookup_app_r, Nat.sub_diag by lia.
    + destruct (H5 m t Ht) as (? & Ho & Hj). split_and!; [done| |intros c' Hc'; by apply Hks, Hj].
      intros c' Hc'. destruct (Ho c' Hc') as [Hc Hr]. cbn. split; [|by apply lookup_app_l_Some].
      rewrite lookup_insert_ne; [done|]. intros E0. congruence.
  - assert (Hfresh : forall m t, sy_threads s !! m = Some t -> owns (t_pc t) = Some c -> False).
    { intros m t Ht Ho. destruct (H5 m t Ht) as (_ & Hp & _). destruct (Hp c Ho) as [_ Hr].
      apply lookup_lt_Some in Hr. unfold c in Hr. lia. }
    intros m m' t t' c' [(<- & <- & _)|[Hm Ht]]%list_lookup_insert_Some [(<- & <- & _)|[Hm' Ht']]%list_lookup_insert_Some; cbn;
      try done; intros Ho1 Ho2; simplify_eq; [by edestruct Hfresh..|by eapply H6].
  - intros c' [Hr|[Hge Hr]]%lookup_app_Some.
    + destruct (H7 c' Hr) as (m & t & Ht & Hot). exists m, t. split; [|done]. rewrite list_lookup_insert_ne; [done|].
      intros <-. simplify_eq. cbn in Hot. naive_solver.
    + exists n, (mkThread key (PLead c)). split; [apply list_lookup_insert_eq; by eapply lookup_lt_Some|]. left. cbn. f_equal.
      apply lookup_lt_Some in Hr. cbn in Hr. unfold c. lia.
Qed.

(** The leader publishes the outcome. *)
Lemma publish_inv ks s n key c r : cache_inv_at ks s -> sy_threads s !! n = Some (mkThread key (PFinish c r)) ->
  cache_inv_at ks (mkSystem (sy_store s) (sy_calls s) (<[c := Some r]> (sy_results s))
    (<[n := mkThread key (PDelete c r)]> (sy_threads s))).
Proof.
  intros [H1 H2 H3 H4 H5 H6 H7] Hn. destruct (H5 n _ Hn) as (Hok & Hp & _). cbn in Hok, Hp. destruct (Hp c eq_refl) as [Hc Hr].
  assert (Hother : forall m t, sy_threads s !! m = Some t -> m <> n -> owns (t_pc t) <> Some c).
  { intros m t Ht Hm Ho. apply Hm. by eapply H6. }
  split; cbn; try done.
  - by rewrite length_insert.
  - intros c' r' [(<- & [= <-] & _)|[Hne Hr']]%list_lookup_insert_Some; [|by apply H3].
    exists key. split; [by apply H2|done].
  - intros m t [(<- & <- & _)|[Hm Ht]]%list_lookup_insert_Some; cbn.
    + split_and!; [done| |done]. intros c' [= <-]. split; [done|]. cbn. apply list_lookup_insert_eq. by eapply lookup_lt_Some.
    + destruct (H5 m t Ht) as (? & Ho & ?). split_and!; [done| |done]. intros c' Hc'. destruct (Ho c' Hc') as [? ?].
      split; [done|]. cbn. rewrite list_lookup_insert_ne; [done|]. intros <-. by apply (Hother m t Ht).
  - intros m m' t t' c' [(<- & <- & _)|[Hm Ht]]%list_lookup_insert_Some [(<- & <- & _)|[Hm' Ht']]%list_lookup_insert_Some; cbn;
      try done; intros Ho1 Ho2; eapply H6; try done; cbn; auto.
  - intros c' [(_ & ? & _)|[Hne Hr']]%list_lookup_insert_Some; [done|]. destruct (H7 c' Hr') as (m & t & Ht & Hot).
    exists m, t. split; [|done]. rewrite list_lookup_insert_ne; [done|]. intros <-. simplify_eq. cbn in Hot. naive_solver.
Qed.

(** The leader removes its call. *)
Lemma unlink_inv ks s n key c r : cache_inv_at ks s -> sy_threads s !! n = Some (mkThread key (PDelete c r)) ->
  cache_inv_at ks (mkSystem (sy_store s) (delete key (sy_calls s)) (sy_results s)
    (<[n := mkThread key (PDone r)]> (sy_threads s))).
Proof.
  intros [H1 H2 H3 H4 H5 H6 H7] Hn. destruct (H5 n _ Hn) as (Hok & Hp & _). cbn in Hok, Hp. destruct (Hp c eq_refl) as [Hc Hr].
  split; cbn; try done.
  - intros k c' [_ Hk]%lookup_delete_Some. by apply H2.
  - intros m t [(<- & <- & _)|[Hm Ht]]%list_lookup_insert_Some; cbn; [by split_and!|].
    destruct (H5 m t Ht) as (? & Ho & ?). split_and!; [done| |done]. intros c' Hc'. destruct (Ho c' Hc') as [Hk ?].
    split; [|done]. cbn. rewrite lookup_delete_ne; [done|]. intros E0. rewrite <- E0, Hc in Hk. injection Hk as <-.
    apply Hm. by eapply (H6 n m _ t).
  - intros m m' t t' c' [(<- & <- & _)|[Hm Ht]]%list_lookup_insert_Some [(<- & <- & _)|[Hm' Ht']]%list_lookup_insert_Some; cbn;
      try done; intros Ho1 Ho2; by eapply H6.
  - intros c' Hr'. destruct (H7 c' Hr') as (m & t & Ht & Hot).
    exists m, t. split; [|done]. rewrite list_lookup_insert_ne; [done|]. intros <-. simplify_eq. cbn in Hot.
    destruct Hot as [[= ->]|?]; [congruence|done].
Qed.

Lemma fresh_ok store key now v : map_Forall (fun k e => Q k (value e)) store -> fast cfg store key now = Some v -> Q key v.
Proof.
  intros Hs. unfold fast, freshValue. destruct (Mode cfg); [done|]. intros (e & He & Hv)%bind_Some.
  repeat case_match; simplify_eq. by apply (Hs key).
Qed.

Lemma stale_ok store key now v : map_Forall (fun k e => Q k (value e)) store -> staleValue cfg store key now = Some v -> Q key v.
Proof. intros Hs. unfold staleValue. intros (e & He & Hv)%bind_Some. repeat case_match; simplify_eq. by apply (Hs key). Qed.

Lemma stored_ok store key v now order : map_Forall (fun k e => Q k (value e)) store -> within_limit store -> Q key v ->
  covers order store ->
  map_Forall (fun k e => Q k (value e)) (storeValue cfg store key v now order) /\
  within_limit (storeValue cfg store key v now order).
Proof.
  intros Hs Hl Hv Hc. destruct (storeValue_spec cfg store key v now order Hc) as (H1 & H2 & H3 & _). split.
  - intros k e He. destruct (decide (k = key)) as [->|Hk]; [rewrite H1 in He; by simplify_eq|]. by apply (Hs k), H2.
  - intros Hm. by apply H3; [|apply Hl].
Qed.

Lemma cache_step_inv s s' : (exists ks, cache_inv_at ks s) -> step cfg Q Qe s s' -> exists ks, cache_inv_at ks s'.
Proof.
  intros [ks Hs] Hstep. revert Hs. destruct Hstep as [n [key p] i s0 s1 Ht Hq Hcov E0]. intros Hs. unfold sys_step in E0. rewrite Ht in E0. cbn [t_key t_pc mbind option_bind] in E0.
  apply bind_Some in E0 as ([p' s2] & E1 & [= <-]). cbn [t_key] in Hq. pose proof (ca_store _ _ Hs) as [Hst Hlim].
  destruct (ca_threads _ _ Hs n _ Ht) as (Hcar & Hown & Hjoin). cbn [t_key t_pc] in *.
  destruct s0 as [store calls results ts]. cbn [thread_step] in E1. cbn [sy_store] in *.
  destruct p as [| |c|c|c v|c e|c r|c r|c|r|]; cbn [owns carries_ok] in *; simplify_eq.
  - exists ks. eapply local_inv; try done; case_match eqn:Ef; cbn; try done; try (by left); by eapply fresh_ok.
  - destruct (calls !! key) as [c|] eqn:Ec; simplify_eq.
    + exists ks. eapply local_inv; try done; [by left|]. intros c' [= <-]. by apply (ca_calls _ _ Hs).
    + eexists. by eapply (create_inv ks (mkSystem store calls results ts)).
  - exists ks. eapply local_inv; try done; case_match eqn:Ef; cbn; try done; try (by left); by eapply fresh_ok.
  - exists ks. eapply local_inv; try done; destruct (in_primary i); cbn; try done; (by left) || by right.
  - exists ks. destruct (stored_ok store key v (in_now i) (in_order i) Hst Hlim Hcar Hcov) as [? ?].
    cbn [sy_calls sy_results sy_store]. eapply (local_inv ks (mkSystem store calls results ts)); try done. by left.
  - exists ks. eapply local_inv; try done; [by left|]. cbn. case_match eqn:Ef; [by eapply stale_ok|done].
  - exists ks. by apply (publish_inv ks (mkSystem store calls results ts)).
  - exists ks. destruct (Hown c eq_refl) as [Hc _]. cbn in Hc. rewrite decide_True by done.
    by eapply (unlink_inv ks (mkSystem store calls results ts)).
  - destruct (results !! c) as [[r|]|] eqn:Er; simplify_eq. exists ks. eapply local_inv; try done; [by left|]. cbn.
    destruct (ca_results _ _ Hs c r Er) as (k & Hk & Hr). rewrite (Hjoin c eq_refl) in Hk. by simplify_eq.
Qed.

Lemma cache_reachable keys s : reachable cfg Q Qe keys s -> exists ks, cache_inv_at ks s.
Proof.
  intros Hr. assert (exists ks, cache_inv_at ks (start (T := T) (E := E) keys)) as Hi by (eexists; apply start_cache_inv).
  revert Hi. induction Hr as [|s s' s'' Hs _ IH]; [done|]. intros Hi. apply IH. by eapply cache_step_inv.
Qed.
End concurrent.

Definition finished {T E} (p : pc T E) : bool := match p with PDone _ => true | _ => false end.

(** C34: the cache under any interleaving of any number of callers.  For every key at most one caller at a time leads a call, and
    so at most one primary of a key runs; every caller that returns gets a value that some primary of its own key returned,
    or an error of one (whatever property [Q], [Qe] all results of the primaries of a key have, the results of [Do] for it
    have); and the cache never holds more than [MaxEntries] values. *)
Theorem cached_single_flight {T E} cfg (Q : string -> T -> Prop) (Qe : string -> E -> Prop) keys s :
  reachable cfg Q Qe keys s ->
  (forall n n' t t', sy_threads s !! n = Some t -> sy_threads s !! n' = Some t' -> t_key t = t_key t' ->
     is_Some (owns (t_pc t)) -> is_Some (owns (t_pc t')) -> n = n') /\
  (forall n t r, sy_threads s !! n = Some t -> t_pc t = PDone r ->
     match r with Fresh v | Stale v => Q (t_key t) v | Failed e => Qe (t_key t) e end) /\
  (0 < MaxEntries cfg -> Z.of_nat (size (sy_store s)) <= MaxEntries cfg).
Proof.
  intros Hr. destruct (cache_reachable cfg Q Qe keys s Hr) as [ks [H1 H2 H3 [H4 H4'] H5 H6 H7]]. split_and!; [|..|done].
  - intros n n' t t' Ht Ht' Hk [c Hc] [c' Hc']. destruct (H5 n t Ht) as (_ & Ho & _), (H5 n' t' Ht') as (_ & Ho' & _).
    destruct (Ho c Hc) as [Hk1 _], (Ho' c' Hc') as [Hk2 _]. rewrite Hk, Hk2 in Hk1. simplify_eq. by eapply H6.
  - intros n t r Ht Hd. destruct (H5 n t Ht) as (Hok & _). rewrite Hd in Hok. exact Hok.
Qed.

(** no call of the cache is left waiting: as long as no primary has panicked and some caller has not returned, some caller
    can take a step, with any clock, any result of the primary and any order of the range. *)
Theorem cached_no_deadlock {T E} cfg (Q : string -> T -> Prop) (Qe : string -> E -> Prop) keys s i :
  reachable cfg Q Qe keys s ->
  Forall (fun t => t_pc t <> PPanicked) (sy_threads s) -> Exists (fun t => finished (t_pc t) = false) (sy_threads s) ->
  exists n, is_Some (sys_step cfg n i s).
Proof.
  intros Hr Hp Hu. destruct (cache_reachable cfg Q Qe keys s Hr) as [ks [H1 H2 H3 _ H5 H6 H7]].
  rewrite Forall_forall in Hp. apply Exists_exists in Hu as (t & Hin & Hf). apply list_elem_of_lookup in Hin as [n Ht].
  assert (Hstep : forall n t, sy_threads s !! n = Some t -> is_Some (thread_step cfg i (t_key t) (t_pc t) s) ->
    exists n, is_Some (sys_step cfg n i s)).
  { intros m t' Ht' [[p s'] E0]. exists m. unfold sys_step. rewrite Ht'. cbn. rewrite E0. by eexists. }
  assert (Hown : forall n t, sy_threads s !! n = Some t -> is_Some (owns (t_pc t)) -> exists n, is_Some (sys_step cfg n i s)).
  { intros m t' Ht' [c Hc]. apply (Hstep m t' Ht'). destruct s as [st ca rs ts], t' as [k p]; cbn in *. destruct p; try done; by eexists. }
  destruct (owns (t_pc t)) as [c0|] eqn:Ho; [apply (Hown n t Ht); rewrite Ho; by eexists|].
  destruct t as [k p]; cbn in *. destruct p as [| |c|c|c v|c e|c r|c r|c|r|] eqn:Epc; try done; cbn in *.
  - apply (Hstep n _ Ht). destruct s; cbn. by eexists.
  - apply (Hstep n _ Ht). destruct s; cbn. case_match; by eexists.
  - destruct (H5 n _ Ht) as (_ & _ & Hj). pose proof (Hj c eq_refl) as Hk.
    assert (c < length (sy_results s))%nat as Hlt by (rewrite <- H1; by eapply lookup_lt_Some).
    apply lookup_lt_is_Some in Hlt as [[r|] Hres].
    + apply (Hstep n _ Ht). destruct s; cbn in *. rewrite Hres. by eexists.
    + destruct (H7 c Hres) as (m & t' & Ht' & [Ho'|Hpan]); [apply (Hown m t' Ht'); by eexists|].
      exfalso. apply (Hp t'); [by eapply list_elem_of_lookup_2|done].
  - exfalso. apply (Hp (mkThread k PPanicked)); [by eapply list_elem_of_lookup_2|done].
Qed.

(** Two callers of one key and one of another; the second joins the first's call. *)
Definition demo_cfg : CacheConfig := mkConfig 10 100 ModeAlwaysCallPrimary 1.
Definition demo_keys : list string := ["a"; "a"; "b"].
Definition demo_sched : list (nat * input nat nat) :=
  let i t p o := mkInput t p o in
  [(0%nat, i 0 (Returns 7%nat) []); (0%nat, i 0 (Returns 7%nat) []); (1%nat, i 0 (Returns 7%nat) []);
   (1%nat, i 0 (Returns 7%nat) []); (0%nat, i 0 (Returns 7%nat) []); (0%nat, i 1 (Returns 7%nat) []);
   (0%nat, i 1 (Returns 7%nat) []); (0%nat, i 1 (Returns 7%nat) ["a"]); (1%nat, i 2 (Returns 7%nat) ["a"]);
   (0%nat, i 2 (Returns 7%nat) ["a"])].

(** A schedule whose inputs are checked along the run is a run of the step relation. *)
Fixpoint schedule_ok {T E} cfg (okb : string -> primary T E -> bool) (s : system T E) (sched : list (nat * input T E)) : bool :=
  match sched with
  | [] => true
  | (n, i) :: sched =>
      match sy_threads s !! n, sys_step cfg n i s with
      | Some t, Some s' =>
          okb (t_key t) (in_primary i) && forallb (fun ke => bool_decide (fst ke ∈ in_order i)) (map_to_list (sy_store s)) &&
          schedule_ok cfg okb s' sched
      | _, _ => false
      end
  end.

Lemma schedule_ok_rtc {T E} cfg Q Qe okb (s s' : system T E) sched : (forall k p, okb k p = true -> primary_ok Q Qe k p) ->
  schedule_ok cfg okb s sched = true -> run_schedule cfg s sched = Some s' -> rtc (step cfg Q Qe) s s'.
Proof.
  intros Hok. revert s. induction sched as [|[n i] sched IH]; intros s Hs E0; cbn in Hs, E0; [simplify_eq; constructor|].
  destruct (sy_threads s !! n) as [t|] eqn:Ht; [|done]. destruct (sys_step cfg n i s) as [s1|] eqn:E1; [|done].
  apply andb_true_iff in Hs as [Hs1 Hs2]. apply andb_true_iff in Hs1 as [Hp Hc]. cbn in E0.
  eapply rtc_l; [|by apply IH]. eapply (Step cfg Q Qe n t i); [done|by apply Hok| |done].
  intros k [e He]. apply elem_of_map_to_list in He. rewrite forallb_forall in Hc.
  specialize (Hc (k, e)). apply bool_decide_eq_true in Hc; [done|]. by apply list_elem_of_In.
Qed.

Definition demo_Q (_ : string) (v : nat) : Prop := v = 7%nat.
Definition demo_Qe (_ : string) (_ : nat) : Prop := False.
Definition demo_okb (_ : string) (p : primary nat nat) : bool := match p with Returns 7%nat => true | Panics => true | _ => false end.

Lemma demo_okb_ok k p : demo_okb k p = true -> primary_ok demo_Q demo_Qe k p.
Proof. unfold demo_okb, demo_Q. destruct p; cbn; [|done|done]. by repeat (case_match; try done). Qed.

Definition demo_end : option (system nat nat) := run_schedule demo_cfg (start demo_keys) demo_sched.

Lemma cached_single_flight_witness :
  exists s, demo_end = Some s /\ map t_pc (sy_threads s) = [PDone (Fresh 7%nat); PDone (Fresh 7%nat); PStart] /\
    Z.of_nat (size (sy_store s)) <= 1.
Proof.
  destruct demo_end as [s|] eqn:E0; [|vm_compute in E0; discriminate]. exists s. split; [done|].
  assert (Hr : reachable demo_cfg demo_Q demo_Qe demo_keys s).
  { eapply (schedule_ok_rtc _ _ _ demo_okb); [apply demo_okb_ok| |exact E0]. vm_compute. reflexivity. }
  split.
  - assert (H : map t_pc <$> (sy_threads <$> demo_end) = Some [PDone (Fresh 7%nat); PDone (Fresh 7%nat); PStart])
      by (vm_compute; reflexivity). rewrite E0 in H. by injection H.
  - apply (proj2 (proj2 (cached_single_flight demo_cfg demo_Q demo_Qe demo_keys s Hr))). reflexivity.
Defined.

Lemma cached_no_deadlock_witness :
  exists s n, demo_end = Some s /\ is_Some (sys_step demo_cfg n (mkInput 5 (Fails 3%nat) ["a"]) s).
Proof.
  destruct demo_end as [s|] eqn:E0; [|vm_compute in E0; discriminate]. exists s.
  assert (Hr : reachable demo_cfg demo_Q demo_Qe demo_keys s).
  { eapply (schedule_ok_rtc _ _ _ demo_okb); [apply demo_okb_ok| |exact E0]. vm_compute. reflexivity. }
  assert (H : sy_threads <$> demo_end = Some [mkThread "a" (PDone (Fresh 7%nat)); mkThread "a" (PDone (Fresh 7%nat)); mkThread "b" PStart])
      by (vm_compute; reflexivity).
  rewrite E0 in H. injection H as H.
  destruct (cached_no_deadlock demo_cfg demo_Q demo_Qe demo_keys s (mkInput 5 (Fails 3%nat) ["a"]) Hr) as [n Hn].
  - rewrite H. by repeat constructor.
  - rewrite H. by do 2 constructor 2; constructor.
  - by exists n.
Defined.

(** ** A primary that panics *)

Section panic.
Context {T E : Type} (cfg : CacheConfig) (Q : string -> T -> Prop) (Qe : string -> E -> Prop).

(** A caller of [key] that has to wait for call [c]. *)
Definition waits (c : nat) (p : pc T E) : Prop := p = PStart \/ p = PGroup \/ p = PJoin c.

(** Call [c] of [key] is registered, has no result and nobody leads it. *)
Definition orphaned (key : string) (c : nat) (s : system T E) : Prop :=
  sy_calls s !! key = Some c /\ sy_results s !! c = Some None /\
  forall n t, sy_threads s !! n = Some t -> owns (t_pc t) <> Some c /\ (t_key t = key -> owns (t_pc t) = None).

Lemma orphaned_step key c s s' : Mode cfg = ModeAlwaysCallPrimary -> orphaned key c s -> step cfg Q Qe s s' ->
  orphaned key c s' /\
  forall n t, sy_threads s !! n = Some t -> t_key t = key -> waits c (t_pc t) ->
    exists t', sy_threads s' !! n = Some t' /\ t_key t' = key /\ waits c (t_pc t').
Proof.
  intros Hm Ha Hstep. revert Ha. destruct Hstep as [n [k p] i s0 s1 Ht Hq Hcov E0]. intros (Hc & Hr & Hth).
  unfold sys_step in E0. rewrite Ht in E0. cbn [t_key t_pc mbind option_bind] in E0.
  apply bind_Some in E0 as ([p' s2] & E1 & [= <-]). destruct (Hth n _ Ht) as [Hno Hkey]. cbn [t_key t_pc] in Hno, Hkey.
  destruct s0 as [store calls results ts]. cbn [sy_calls sy_results sy_threads] in *.
  assert (Hnew : sy_calls s2 !! key = Some c /\ sy_results s2 !! c = Some None /\ owns p' <> Some c /\
    (k = key -> owns p' = None /\ (waits c p -> waits c p'))).
  { assert (c < length results)%nat as Hlt by (by eapply lookup_lt_Some).
    unfold thread_step, fast in E1. rewrite Hm in E1. unfold waits.
    destruct p as [| |c0|c0|c0 v|c0 e|c0 r|c0 r|c0|r|]; cbn [owns] in *; simplify_eq; cbn [sy_calls sy_results owns].
    - naive_solver.
    - destruct (calls !! k) as [c0|] eqn:Ek; simplify_eq; cbn [sy_calls sy_results owns]; [naive_solver|].
      destruct (decide (k = key)) as [->|Hk]; [congruence|]. rewrite lookup_insert_ne by done.
      split_and!; [done|by apply lookup_app_l_Some|intros [= Hx]; lia|done].
    - naive_solver.
    - destruct (in_primary i); naive_solver.
    - naive_solver.
    - naive_solver.
    - rewrite list_lookup_insert_ne by naive_solver. naive_solver.
    - case_decide as Hd; [|naive_solver]. rewrite lookup_delete_ne by (intros ->; naive_solver). naive_solver.
    - destruct (results !! c0) as [[r|]|] eqn:Er; simplify_eq. split_and!; try done. intros _. split; [done|].
      intros [?|[?|[= ->]]]; [done..|congruence]. }
  destruct Hnew as (H1 & H2 & H3 & H4). split; [split_and!; [done|done|]|].
  - cbn. intros m t [(<- & <- & _)|[Hmn Hlm]]%list_lookup_insert_Some; [|by apply (Hth m)]. cbn. naive_solver.
  - cbn. intros m t Hlm Hk Hw. destruct (decide (m = n)) as [->|Hmn].
    + simplify_eq. cbn in *. exists (mkThread k p'). split; [apply list_lookup_insert_eq; by eapply lookup_lt_Some|]. naive_solver.
    + exists t. rewrite list_lookup_insert_ne by done. done.
Qed.

(** A panic of a primary leaves its call registered for ever: from then on no caller of that key ever returns, whatever the
    others do. *)
Theorem cached_panic_wedges_key key c s s' n t : Mode cfg = ModeAlwaysCallPrimary -> orphaned key c s ->
  rtc (step cfg Q Qe) s s' -> sy_threads s !! n = Some t -> t_key t = key -> waits c (t_pc t) ->
  exists t', sy_threads s' !! n = Some t' /\ waits c (t_pc t').
Proof.
  intros Hm Ha Hr. revert t Ha. induction Hr as [|s s1 s' Hs _ IH]; intros t Ha Ht Hk Hw; [by exists t|].
  destruct (orphaned_step key c s s1 Hm Ha Hs) as [Ha1 H1]. destruct (H1 n t Ht Hk Hw) as (t1 & Ht1 & Hk1 & Hw1).
  by eapply IH.
Qed.
End panic.

(** The state is reached by a single caller whose primary panics; the second caller then waits for ever. *)
Theorem cached_panic_orphans :
  exists s, run_schedule demo_cfg (start (T := nat) (E := nat) ["a"; "a"])
      [(0%nat, mkInput 0 Panics []); (0%nat, mkInput 0 Panics []); (0%nat, mkInput 0 Panics []); (0%nat, mkInput 0 Panics [])] = Some s /\
    orphaned "a" 0 s /\ sy_threads s !! 1%nat = Some (mkThread "a" PStart).
Proof.
  eexists. split; [vm_compute; reflexivity|]. split; [|vm_compute; reflexivity]. split_and!; [vm_compute; reflexivity..|].
  intros [|[|n]] t Ht; vm_compute in Ht; [injection Ht as <-..|]; by try (split; cbn).
Qed.
