(* ===== verification/EventStream.v ===== *)
(** * The event broker ([eventstream/eventstream.go]).

    Any number of goroutines publish, subscribe, unsubscribe, receive and close.
    A publisher holds the read lock while it offers its event to the
    subscribers one by one; subscribing, removing and closing are critical
    sections of the write lock, channels are closed after it is released.  A
    step is one lock operation with the section it opens, one atomic access, or
    one channel operation.  The order in which Go ranges over the map is a
    parameter of the step. *)

From stdpp Require Import relations.
From S2P Require Import Prelude.
Open Scope Z_scope.

Definition defaultBuffer : nat := 16.

Section broker.
Context {T : Type}.

Record Event := mkEvent { Seq : Z; Payload : T }.

(** [ch] is the buffer of the channel, [cap_] its capacity.  [got] and [lost]
    are not in the code: what was received, and what was counted as dropped. *)
Record Subscription := mkSub {
  id : Z;
  ch : list Event;
  cap_ : nat;
  ch_closed : bool;
  once : bool;
  got : list Event;
  lost : list Event;
}.

(** [dropped], a counter of 64 bits. *)
Definition dropped (s : Subscription) : Z := zlength (lost s) mod 2 ^ 64.

(** Subscriptions are objects on a heap; the broker maps ids to pointers.
    [readers] counts the holders of the read lock. *)
Record Broker := mkBroker {
  heap : list Subscription;
  subs : gmap Z nat;
  nextID : Z;
  seq : Z;
  closed : bool;
  readers : Z;
}.

Definition New : Broker := mkBroker [] ∅ 0 0 false 0.

Definition with_heap (h : list Subscription) (b : Broker) : Broker :=
  mkBroker h (subs b) (nextID b) (seq b) (closed b) (readers b).
Definition add_readers (k : Z) (b : Broker) : Broker :=
  mkBroker (heap b) (subs b) (nextID b) (seq b) (closed b) (readers b + k).

(** Where a goroutine is.  In [PSend] the list [past] of those already served
    is not in the code. *)
Inductive pc :=
| PStart (x : T) | PLocked (x : T) | PSend (e : Event) (todo past : list nat) (delivered : Z) | PDone (e : option Event) (past : list nat) (delivered : Z)
| SStart (buffer : Z) | SClose (p : nat) | SDone (p : nat)
| UStart (p : nat) | UClose (p : nat) | UDone
| CStart | CClose (ps : list nat) | CDone
| RStart (p : nat) | RDone (e : option Event)
| Panicked (msg : string).

(** [close(s.ch)] under [closeOnce]. *)
Definition closeCh (s : Subscription) : option Subscription :=
  if once s then Some s
  else if ch_closed s then None
  else Some (mkSub (id s) (ch s) (cap_ s) true true (got s) (lost s)).

Definition close_sub (p : nat) (b : Broker) : option Broker :=
  s ← heap b !! p; s' ← closeCh s; Some (with_heap (<[p := s']> (heap b)) b).

(** The [select] of [Publish]: [None] is a send on a closed channel. *)
Definition offer (e : Event) (s : Subscription) : option (Subscription * Z) :=
  if ch_closed s then None
  else if (length (ch s) <? cap_ s)%nat
       then Some (mkSub (id s) (ch s ++ [e]) (cap_ s) (ch_closed s) (once s) (got s) (lost s), 1)
       else Some (mkSub (id s) (ch s) (cap_ s) (ch_closed s) (once s) (got s) (lost s ++ [e]), 0).

Definition new_sub (i : Z) (buffer : Z) : Subscription :=
  mkSub i [] (if buffer <=? 0 then defaultBuffer else Z.to_nat buffer) false false [] [].

(** [Subscribe], up to the end of its critical section. *)
Definition Subscribe (buffer : Z) (b : Broker) : Broker * pc :=
  let p := length (heap b) in
  if closed b then (with_heap (heap b ++ [new_sub 0 buffer]) b, SClose p)
  else
    let i := (nextID b + 1) mod 2 ^ 64 in
    (mkBroker (heap b ++ [new_sub i buffer]) (<[i := p]> (subs b)) i (seq b) (closed b) (readers b), SDone p).

(** [remove], up to the end of its critical section. *)
Definition remove (p : nat) (b : Broker) : Broker * pc :=
  match heap b !! p with
  | None => (b, UDone)
  | Some s =>
      match subs b !! id s with
      | Some _ => (mkBroker (heap b) (delete (id s) (subs b)) (nextID b) (seq b) (closed b) (readers b), UClose p)
      | None => (b, UDone)
      end
  end.

(** [Close], up to the end of its critical section. *)
Definition Close (order : list nat) (b : Broker) : Broker * pc :=
  if closed b then (b, CDone)
  else (mkBroker (heap b) ∅ (nextID b) (seq b) true (readers b), CClose order).

(** [Len]. *)
Definition Len (b : Broker) : Z := Z.of_nat (size (subs b)).

(** The subscribers, in some order. *)
Definition members (b : Broker) : list nat := (map_to_list (subs b)).*2.

Definition panic (b : Broker) (o : option Broker) (k : pc) (msg : string) : Broker * pc :=
  match o with Some b' => (b', k) | None => (b, Panicked msg) end.

(** One step of a goroutine; [order] is used where the code ranges over the map. *)
Definition thread_step (order : list nat) (b : Broker) (t : pc) : option (Broker * pc) :=
  match t with
  | PStart x => Some (if closed b then (b, PDone None [] 0) else (add_readers 1 b, PLocked x))
  | PLocked x =>
      let s := (seq b + 1) mod 2 ^ 64 in
      Some (mkBroker (heap b) (subs b) (nextID b) s (closed b) (readers b), PSend (mkEvent s x) order [] 0)
  | PSend e (p :: todo) past n =>
      s ← heap b !! p;
      Some (match offer e s with
            | Some (s', k) => (with_heap (<[p := s']> (heap b)) b, PSend e todo (p :: past) (n + k))
            | None => (b, Panicked "send on closed channel")
            end)
  | PSend e [] past n => Some (add_readers (-1) b, PDone (Some e) past n)
  | SStart buffer => if readers b =? 0 then Some (Subscribe buffer b) else None
  | SClose p => Some (panic b (close_sub p b) (SDone p) "close of closed channel")
  | UStart p => if readers b =? 0 then Some (remove p b) else None
  | UClose p => Some (panic b (close_sub p b) UDone "close of closed channel")
  | CStart => if readers b =? 0 then Some (Close order b) else None
  | CClose (p :: ps) => Some (panic b (close_sub p b) (CClose ps) "close of closed channel")
  | CClose [] => Some (b, CDone)
  | RStart p =>
      s ← heap b !! p;
      match ch s with
      | e :: rest => Some (with_heap (<[p := mkSub (id s) rest (cap_ s) (ch_closed s) (once s) (got s ++ [e]) (lost s)]> (heap b)) b,
                           RDone (Some e))
      | [] => if ch_closed s then Some (b, RDone None) else None
      end
  | _ => None
  end.

(** The goroutines and the broker; [published] is not in the code. *)
Record system := mkSystem { broker : Broker; threads : list pc }.

Inductive step : system -> system -> Prop :=
| Step i order st t b' t' : threads st !! i = Some t -> order ≡ₚ members (broker st) ->
    thread_step order (broker st) t = Some (b', t') ->
    step st (mkSystem b' (<[i := t']> (threads st))).

(** ** Invariants *)

Definition queued (s : Subscription) : list Event := got s ++ ch s.
Definition offered (s : Subscription) : list Event := queued s ++ lost s.

Definition has (e : Event) (l : list Event) : Prop := Seq e ∈ map Seq l.

#[local] Instance has_dec e l : Decision (has e l).
Proof. unfold has. apply _. Defined.

Definition holds_lock (t : pc) : bool := match t with PLocked _ | PSend _ _ _ _ => true | _ => false end.
Definition event_of (t : pc) : option Event := match t with PSend e _ _ _ => Some e | PDone oe _ _ => oe | _ => None end.
Definition has_event (t : pc) : bool := match event_of t with Some _ => true | None => false end.
Definition has_sub (t : pc) : bool := match t with SClose _ | SDone _ => true | _ => false end.

(** How many of the subscriptions [ps] have the event in their queue, or had it. *)
Definition queued_at (h : list Subscription) (e : Event) (p : nat) : bool :=
  match h !! p with Some s => bool_decide (has e (queued s)) | None => false end.

Definition reached (h : list Subscription) (e : Event) (ps : list nat) : Z :=
  how_many (queued_at h e) ps.

(** Those in [ps] have been offered the event. *)
Definition served (h : list Subscription) (e : Event) (ps : list nat) : Prop :=
  Forall (fun p => exists s, h !! p = Some s /\ has e (offered s)) ps.

Definition sub_ok (b : Broker) (s : Subscription) : Prop :=
  once s = ch_closed s /\ (length (ch s) <= cap_ s)%nat /\ NoDup (map Seq (offered s)) /\
  Forall (fun e => 1 <= Seq e <= seq b) (offered s).

Definition detached (b : Broker) (p : nat) : Prop := is_Some (heap b !! p) /\ forall i, subs b !! i <> Some p.

Definition thread_ok (b : Broker) (t : pc) : Prop :=
  match t with
  | PSend e todo past n =>
      1 <= Seq e <= seq b /\ past ++ todo ≡ₚ members b /\ served (heap b) e past /\ n = reached (heap b) e past /\
      Forall (fun p => exists s, heap b !! p = Some s /\ ~ has e (offered s)) todo
  | PDone (Some e) past n => 1 <= Seq e <= seq b /\ served (heap b) e past /\ n = reached (heap b) e past
  | SClose p | UClose p => detached b p
  | CClose ps => Forall (detached b) ps
  | Panicked _ => False
  | _ => True
  end.

Definition broker_ok (b : Broker) : Prop :=
  (forall i p, subs b !! i = Some p -> exists s, heap b !! p = Some s /\ id s = i /\ ch_closed s = false) /\
  (forall i, is_Some (subs b !! i) -> 1 <= i <= nextID b) /\
  Forall (sub_ok b) (heap b) /\ 0 <= nextID b <= zlength (heap b).

Definition distinct_events (ts : list pc) : Prop := forall i j t t' e e', i <> j -> ts !! i = Some t -> ts !! j = Some t' ->
  event_of t = Some e -> event_of t' = Some e' -> Seq e <> Seq e'.

Definition inv (st : system) : Prop :=
  let b := broker st in
  broker_ok b /\ readers b = how_many holds_lock (threads st) /\ seq b = how_many has_event (threads st) /\
  zlength (heap b) = how_many has_sub (threads st) /\ Forall (thread_ok b) (threads st) /\ distinct_events (threads st).

(** ** What a step does to the subscriptions *)

(** Subscriptions stay, and the events other than [o] stay where they are. *)
Definition keeps (o : option Z) (h h' : list Subscription) : Prop := forall p s, h !! p = Some s ->
  exists s', h' !! p = Some s' /\ id s' = id s /\
    forall e, o <> Some (Seq e) -> (has e (queued s') <-> has e (queued s)) /\ (has e (offered s') <-> has e (offered s)).

Lemma keeps_refl o h : keeps o h h.
Proof. intros p s Hs. by exists s. Qed.

Lemma keeps_insert o h p s s' : h !! p = Some s -> id s' = id s ->
  (forall e, o <> Some (Seq e) -> (has e (queued s') <-> has e (queued s)) /\ (has e (offered s') <-> has e (offered s))) ->
  keeps o h (<[p := s']> h).
Proof.
  intros Hp Hid He q r Hq. destruct (decide (q = p)) as [->|Hne].
  - exists s'. rewrite list_lookup_insert_eq by (by eapply lookup_lt_Some). replace r with s by congruence. done.
  - exists r. by rewrite list_lookup_insert_ne.
Qed.

Lemma keeps_app o h l : keeps o h (h ++ l).
Proof. intros p s Hs. exists s. split; [by apply lookup_app_l_Some|done]. Qed.

Lemma how_many_ext (f g : nat -> bool) l : (forall x, x ∈ l -> f x = g x) -> how_many f l = how_many g l.
Proof.
  intros H. induction l as [|x l IH]; [done|]. rewrite !how_many_cons, H by (by apply elem_of_cons; left).
  f_equal. apply IH. intros y Hy. apply H. apply elem_of_cons. by right.
Qed.

Lemma reached_keeps o h h' e ps : keeps o h h' -> o <> Some (Seq e) -> served h e ps -> reached h' e ps = reached h e ps.
Proof.
  intros Hk Ho Hs. apply how_many_ext. intros p Hp.
  unfold served in Hs. rewrite Forall_forall in Hs. destruct (Hs p Hp) as (s & Es & _). destruct (Hk p s Es) as (s' & Es' & _ & He).
  unfold queued_at. rewrite Es, Es'. destruct (He e Ho) as [Hq _]. by rewrite (bool_decide_ext _ _ Hq).
Qed.

Lemma served_keeps o h h' e ps : keeps o h h' -> o <> Some (Seq e) -> served h e ps -> served h' e ps.
Proof.
  intros Hk Ho. unfold served. intros Hs; eapply Forall_impl; [exact Hs|]; clear Hs. cbn. intros p (s & Es & Hs). destruct (Hk p s Es) as (s' & Es' & _ & He).
  exists s'. split; [done|]. by apply He.
Qed.

(** A thread that did not move is undisturbed. *)
Lemma thread_ok_keeps o b b' t : keeps o (heap b) (heap b') -> seq b <= seq b' ->
  (holds_lock t = true -> subs b' = subs b) ->
  (forall i p, subs b' !! i = Some p -> subs b !! i = Some p \/ (length (heap b) <= p)%nat) ->
  (forall e, event_of t = Some e -> o <> Some (Seq e)) -> thread_ok b t -> thread_ok b' t.
Proof.
  intros Hk Hseq Hsubs Hnew Ho. assert (forall p, detached b p -> detached b' p) as Hd.
  { intros p [[s Es] Hp]. destruct (Hk p s Es) as (s' & Es' & _). split; [by exists s'|]. intros i Hi.
    destruct (Hnew i p Hi) as [Hi'|Hlen]; [by apply (Hp i)|]. apply lookup_lt_Some in Es. lia. }
  destruct t as [x|x|e todo past n|[e|] past n|bf|p|p|p|p| | |ps| |p|oe|msg]; cbn [thread_ok]; try done; try apply Hd.
  - intros (He & Hall & Hs & Hn & Htodo). specialize (Ho e eq_refl). specialize (Hsubs eq_refl).
    split_and!; [lia|lia|unfold members in *; by rewrite Hsubs|by eapply served_keeps| |].
    + rewrite Hn. symmetry. by eapply reached_keeps.
    + eapply Forall_impl; [exact Htodo|]. intros p (s & Es & Hs'). destruct (Hk p s Es) as (s' & Es' & _ & Hq).
      exists s'. split; [done|]. destruct (Hq e Ho) as [_ Hof]. by rewrite Hof.
  - intros (He & Hs & Hn). specialize (Ho e eq_refl). split_and!; [lia|lia|by eapply served_keeps|].
    rewrite Hn. symmetry. by eapply reached_keeps.
  - intros H; eapply Forall_impl; [exact H|exact Hd].
Qed.

(** ** The broker *)

Lemma offer_spec e s : ch_closed s = false -> exists s' k, offer e s = Some (s', k) /\ id s' = id s /\ ch_closed s' = false /\
  once s' = once s /\ cap_ s' = cap_ s /\ offered s' ≡ₚ e :: offered s /\
  ((length (ch s) <= cap_ s)%nat -> (length (ch s') <= cap_ s)%nat) /\
  (k = 1 /\ queued s' = queued s ++ [e] \/ k = 0 /\ queued s' = queued s).
Proof.
  intros Ec. unfold offer. rewrite Ec. destruct (Nat.ltb_spec (length (ch s)) (cap_ s)) as [Hl|Hl].
  - eexists _, _. split; [reflexivity|]. split_and!; try done.
    + unfold offered, queued; cbn. rewrite app_assoc. rewrite <- app_assoc. cbn. by rewrite <- Permutation_middle.
    + intros _. cbn. rewrite length_app. cbn. lia.
    + left. unfold queued; cbn. by rewrite app_assoc.
  - eexists _, _. split; [reflexivity|]. split_and!; try done.
    + unfold offered, queued; cbn. rewrite app_assoc. by rewrite <- Permutation_cons_append.
    + by right.
Qed.

Lemma broker_ok_sub b p s : broker_ok b -> heap b !! p = Some s -> sub_ok b s.
Proof. intros (_ & _ & Hs & _) Hp. by eapply (Forall_lookup_1 _ _ _ _ Hs). Qed.

Lemma broker_ok_heap b p s s' : broker_ok b -> heap b !! p = Some s -> id s' = id s ->
  (ch_closed s' = ch_closed s \/ detached b p) -> sub_ok b s' -> broker_ok (with_heap (<[p := s']> (heap b)) b).
Proof.
  intros (Hsubs & Hids & Hs & Hn) Hp Hid Hc Hs'. split_and!; cbn; [|done| |by apply Hn|].
  - intros i q Hq. destruct (Hsubs i q Hq) as (r & Er & Ei & Ec). destruct (decide (q = p)) as [->|Hne].
    + exists s'. rewrite list_lookup_insert_eq by (by eapply lookup_lt_Some). replace r with s in * by congruence.
      split_and!; [done|congruence|]. destruct Hc as [Hc|[_ Hd]]; [congruence|]. by destruct (Hd i).
    + exists r. by rewrite list_lookup_insert_ne.
  - by apply Forall_insert.
  - unfold zlength. rewrite length_insert. apply Hn.
Qed.

Lemma members_NoDup b : broker_ok b -> NoDup (members b).
Proof.
  intros (Hsubs & _). apply NoDup_fmap_2_strong; [|apply NoDup_map_to_list].
  intros [i p] [j q] Hi Hj Hpq. cbn in Hpq. subst q. apply elem_of_map_to_list in Hi, Hj.
  destruct (Hsubs i p Hi) as (s & Es & Ei & _), (Hsubs j p Hj) as (r & Er & Ej & _). congruence.
Qed.

Lemma member_open b p : broker_ok b -> p ∈ members b -> exists s, heap b !! p = Some s /\ ch_closed s = false.
Proof.
  intros (Hsubs & _) Hp. apply list_elem_of_fmap in Hp as ([i q] & -> & Hi). apply elem_of_map_to_list in Hi.
  destruct (Hsubs i q Hi) as (s & Es & _ & Ec). by exists s.
Qed.

Lemma sub_ok_offer b e s s' : sub_ok b s -> ch_closed s' = ch_closed s -> once s' = once s -> cap_ s' = cap_ s ->
  offered s' ≡ₚ e :: offered s -> (length (ch s') <= cap_ s)%nat -> ~ has e (offered s) -> 1 <= Seq e <= seq b -> sub_ok b s'.
Proof.
  intros (Ho & Hl & Hd & Hf) Ec Eo Ecap Hp Hl' He Hseq. split_and!; [congruence|lia| |].
  - rewrite Hp. cbn. by apply NoDup_cons.
  - rewrite Hp. by constructor.
Qed.

Lemma closeCh_ok b s : sub_ok b s -> exists s', closeCh s = Some s' /\ id s' = id s /\ queued s' = queued s /\ offered s' = offered s /\ sub_ok b s'.
Proof.
  intros (Ho & Hl & Hd & Hf). unfold closeCh. destruct (once s) eqn:Eo.
  - exists s. split_and!; try done. by split; [congruence|].
  - rewrite <- Ho. eexists. split; [reflexivity|]. done.
Qed.

(** A closed subscription keeps its events. *)
Lemma close_sub_ok b p : broker_ok b -> detached b p -> exists b', close_sub p b = Some b' /\ broker_ok b' /\
  keeps None (heap b) (heap b') /\ zlength (heap b') = zlength (heap b) /\
  subs b' = subs b /\ seq b' = seq b /\ readers b' = readers b.
Proof.
  intros Hb Hd. pose proof Hd as [[s Es] _]. destruct (closeCh_ok b s) as (s' & Ec & Hid & Hq & Ho & Hs'); [by eapply broker_ok_sub|].
  eexists. unfold close_sub. rewrite Es. cbn. rewrite Ec. cbn. split; [reflexivity|]. split_and!; try done.
  - eapply broker_ok_heap; eauto.
  - eapply keeps_insert; [done..|]. intros e _. by rewrite Hq, Ho.
  - cbn. unfold zlength. by rewrite length_insert.
Qed.

(** A new object on the heap, registered or not. *)
Lemma broker_ok_alloc b s m n : broker_ok b -> sub_ok b s -> ch_closed s = false -> nextID b <= n <= nextID b + 1 ->
  (forall i p, m !! i = Some p -> subs b !! i = Some p \/ (p = length (heap b) /\ i = n /\ id s = n /\ 1 <= n)) ->
  broker_ok (mkBroker (heap b ++ [s]) m n (seq b) (closed b) (readers b)).
Proof.
  intros (Hsubs & Hids & Hs & Hn) Hok Hc Hn' Hm. split_and!; cbn.
  - intros i p Hp. destruct (Hm i p Hp) as [Hp'|(-> & -> & Hi & _)].
    + destruct (Hsubs i p Hp') as (r & Er & ?). exists r. split; [by apply lookup_app_l_Some|done].
    + exists s. by rewrite lookup_app_r, Nat.sub_diag by lia.
  - intros i [p Hp]. destruct (Hm i p Hp) as [Hp'|(_ & -> & _ & ?)]; [|lia].
    specialize (Hids i (ex_intro _ p Hp')). lia.
  - apply Forall_app; split; [done|by apply Forall_singleton].
  - lia.
  - unfold zlength in *. rewrite length_app. cbn. lia.
Qed.

Lemma new_sub_ok b i buffer : sub_ok b (new_sub i buffer).
Proof. split_and!; [done|cbn; lia|apply NoDup_nil_2|apply Forall_nil_2]. Qed.

Lemma Subscribe_ok buffer b : broker_ok b -> zlength (heap b) < 2 ^ 64 - 1 -> exists b' t',
  Subscribe buffer b = (b', t') /\ broker_ok b' /\ thread_ok b' t' /\ has_sub t' = true /\ holds_lock t' = false /\
  event_of t' = None /\ seq b' = seq b /\ readers b' = readers b /\ (exists s, heap b' = heap b ++ [s]) /\
  (forall i p, subs b' !! i = Some p -> subs b !! i = Some p \/ (length (heap b) <= p)%nat).
Proof.
  intros Hb Hlen. pose proof Hb as (Hsubs & Hids & Hs & Hn). unfold Subscribe.
  destruct (closed b) eqn:Ec; eexists _, _; (split; [reflexivity|]).
  - split; [|split; [split|split_and!]]; try done; cbn.
    + apply broker_ok_alloc; [done|apply new_sub_ok|done|lia|by left].
    + rewrite lookup_app_r, Nat.sub_diag by lia. by eexists.
    + intros i Hi. destruct (Hsubs i _ Hi) as (s & Es & _). apply lookup_lt_Some in Es. lia.
    + by eexists.
    + by left.
  - rewrite Z.mod_small by lia. split; [|split_and!]; try done; cbn.
    + rewrite <- Ec. apply broker_ok_alloc; [done|apply new_sub_ok|done|lia|].
      intros i p [[<- <-]|[_ Hp]]%lookup_insert_Some; [right; split_and!; try done; lia|by left].
    + by eexists.
    + intros i p [[_ <-]|[_ Hp]]%lookup_insert_Some; [by right|by left].
Qed.

(** Removing pointers from the map. *)
Lemma broker_ok_shrink b m c : broker_ok b -> (forall i p, m !! i = Some p -> subs b !! i = Some p) ->
  broker_ok (mkBroker (heap b) m (nextID b) (seq b) c (readers b)).
Proof.
  intros (Hsubs & Hids & Hs & Hn) Hm. split_and!; cbn; try done; try apply Hn.
  - intros i p Hp. by apply Hsubs, Hm.
  - intros i [p Hp]. apply Hids. exists p. by apply Hm.
Qed.

(** What removing and closing have in common. *)
Definition shrinks (b : Broker) (r : Broker * pc) : Prop :=
  broker_ok r.1 /\ thread_ok r.1 r.2 /\ has_sub r.2 = false /\ holds_lock r.2 = false /\ event_of r.2 = None /\
  seq r.1 = seq b /\ readers r.1 = readers b /\ heap r.1 = heap b /\ (forall i q, subs r.1 !! i = Some q -> subs b !! i = Some q).

Lemma remove_ok p b : broker_ok b -> shrinks b (remove p b).
Proof.
  intros Hb. pose proof Hb as (Hsubs & _). unfold remove.
  destruct (heap b !! p) as [s|] eqn:Es; [destruct (subs b !! id s) as [q|] eqn:Eq|]; [|by split_and!..].
  assert (forall i r, delete (id s) (subs b) !! i = Some r -> i <> id s /\ subs b !! i = Some r) as Hdel.
  { intros i r Hi. by apply lookup_delete_Some in Hi as [? ?]. }
  assert (forall i r, delete (id s) (subs b) !! i = Some r -> subs b !! i = Some r) as Hdel' by (intros i r Hi; by apply Hdel).
  split; [by apply broker_ok_shrink|]. split; [|by split_and!]. split; [by exists s|].
  intros i Hi. destruct (Hdel i p Hi) as [Hne Hi']. destruct (Hsubs i p Hi') as (s' & Es' & Hid & _). congruence.
Qed.

Lemma Close_ok order b : broker_ok b -> order ≡ₚ members b -> shrinks b (Close order b).
Proof.
  intros Hb Ho. unfold Close. destruct (closed b); [by split_and!|].
  split; [by apply broker_ok_shrink|]. split; [|by split_and!].
  apply Forall_forall. intros p Hp. rewrite Ho in Hp. destruct (member_open b p Hb Hp) as (s & Es & _).
  split; [by exists s|done].
Qed.

(** ** Steps preserve the invariant *)

(** One goroutine moves: what must be shown of its move. *)
Lemma broker_move o b b' ts i t t' : inv (mkSystem b ts) -> ts !! i = Some t ->
  broker_ok b' -> thread_ok b' t' -> keeps o (heap b) (heap b') ->
  readers b' = readers b - b2z (holds_lock t) + b2z (holds_lock t') ->
  seq b' = seq b - b2z (has_event t) + b2z (has_event t') ->
  zlength (heap b') = zlength (heap b) - b2z (has_sub t) + b2z (has_sub t') ->
  seq b <= seq b' -> (subs b' = subs b \/ readers b = 0) ->
  (forall j p, subs b' !! j = Some p -> subs b !! j = Some p \/ (length (heap b) <= p)%nat) ->
  (forall x, o = Some x -> exists e, event_of t = Some e /\ Seq e = x) ->
  (forall e, event_of t' = Some e -> event_of t = Some e \/ seq b < Seq e) ->
  inv (mkSystem b' (<[i := t']> ts)).
Proof.
  intros (Hb & Hr & Hq & Hl & Hts & Hd) Hi Hb' Ht' Hk Hr' Hq' Hl' Hle Hsubs Hnew Ho Hev. unfold inv; cbn [broker threads] in *.
  split; [done|]. rewrite !(how_many_insert _ ts i t) by done.
  split; [lia|]. split; [lia|]. split; [lia|].
  assert (forall j t1 e, ts !! j = Some t1 -> event_of t1 = Some e -> Seq e <= seq b) as Hmax.
  { intros j t1 e Hj He. pose proof (Forall_lookup_1 _ _ _ _ Hts Hj) as H1.
    destruct t1 as [| | |[|]| | | | | | | | | | | |]; cbn in He; simplify_eq; cbn in H1; lia. }
  split.
  - apply Forall_lookup. intros j t1 Hj. apply list_lookup_insert_Some in Hj as [(-> & -> & _)|[Hne Hj]]; [done|].
    eapply (thread_ok_keeps o); [done|done| |done| |by eapply (Forall_lookup_1 _ _ _ _ Hts)].
    + intros Hlock. destruct Hsubs as [|H0]; [done|]. pose proof (how_many_pos holds_lock ts j t1 Hj Hlock). lia.
    + intros e He ->. destruct (Ho _ eq_refl) as (e' & He' & Heq). by eapply (Hd i j t t1).
  - assert (forall j t1 e e', i <> j -> ts !! j = Some t1 -> event_of t' = Some e -> event_of t1 = Some e' -> Seq e <> Seq e') as Hcross.
    { intros j t1 e e' Hne Hj He He'. destruct (Hev e He) as [He1|Hlt]; [by eapply (Hd i j t t1)|].
      specialize (Hmax j t1 e' Hj He'). lia. }
    intros j1 j2 t1 t2 e1 e2 Hne Hj1 Hj2 He1 He2.
    apply list_lookup_insert_Some in Hj1 as [(<- & <- & _)|[Hn1 Hj1]], Hj2 as [(<- & <- & _)|[Hn2 Hj2]].
    + done.
    + by eapply Hcross.
    + intros Heq. by eapply (Hcross j1 t1 e2 e1).
    + by apply (Hd j1 j2 t1 t2).
Qed.

(** Moves under the write lock. *)
Lemma inv_shrinks b ts i t r : inv (mkSystem b ts) -> ts !! i = Some t -> readers b = 0 ->
  holds_lock t = false -> event_of t = None -> has_sub t = false -> shrinks b r -> inv (mkSystem r.1 (<[i := r.2]> ts)).
Proof.
  intros Hinv Hi Hr Hl He Hs (H1 & H2 & H3 & H4 & H5 & H6 & H7 & H8 & H9).
  assert (has_event t = false /\ has_event r.2 = false) as [E1 E2] by (unfold has_event; by rewrite He, H5).
  apply (broker_move None b r.1 ts i t); rewrite ?Hl, ?Hs, ?H3, ?H4, ?E1, ?E2, ?H5, ?H6, ?H7, ?H8; cbn; try done; try lia.
  - apply keeps_refl.
  - intros j p Hj. left. by apply H9.
Qed.

(** Moves that change neither the map nor the counters. *)
Lemma inv_local b b' ts i t t' : inv (mkSystem b ts) -> ts !! i = Some t -> broker_ok b' -> keeps None (heap b) (heap b') ->
  zlength (heap b') = zlength (heap b) -> subs b' = subs b -> seq b' = seq b -> readers b' = readers b -> thread_ok b' t' ->
  holds_lock t' = holds_lock t -> event_of t' = event_of t -> has_sub t' = has_sub t ->
  inv (mkSystem b' (<[i := t']> ts)).
Proof.
  intros Hinv Hi Hb' Hk Hz Hs Hq Hr Ht' E1 E2 E3.
  assert (has_event t' = has_event t) as E4 by (unfold has_event; by rewrite E2).
  apply (broker_move None b b' ts i t); rewrite ?Hz, ?Hs, ?Hq, ?Hr, ?E1, ?E2, ?E3, ?E4; try done; try lia; by left.
Qed.

Lemma inv_thread b ts i t : inv (mkSystem b ts) -> ts !! i = Some t -> broker_ok b /\ thread_ok b t.
Proof. intros (Hb & _ & _ & _ & Hts & _) Hi. split; [done|]. by eapply (Forall_lookup_1 _ _ _ _ Hts). Qed.

Lemma has_cons e x l : has e (x :: l) <-> Seq e = Seq x \/ has e l.
Proof. unfold has. cbn. apply elem_of_cons. Qed.

Lemma has_snoc e x l : has e (l ++ [x]) <-> has e l \/ Seq e = Seq x.
Proof. unfold has. rewrite map_app, elem_of_app. cbn. by rewrite list_elem_of_singleton. Qed.

Lemma has_perm e l l' : l ≡ₚ l' -> has e l <-> has e l'.
Proof. intros Hp. unfold has. by rewrite Hp. Qed.

Lemma has_queued_offered e s : has e (queued s) -> has e (offered s).
Proof. unfold has, offered. rewrite map_app, elem_of_app. by left. Qed.

Lemma reached_cons h e p ps : reached h e (p :: ps) = b2z (queued_at h e p) + reached h e ps.
Proof. done. Qed.

Lemma reached_insert h e p s ps : p ∉ ps -> reached (<[p := s]> h) e ps = reached h e ps.
Proof.
  intros Hp. apply how_many_ext. intros q Hq.
  unfold queued_at. by rewrite list_lookup_insert_ne by set_solver.
Qed.

(** A sequence number is drawn. *)
Lemma inv_draw b ts i x order : inv (mkSystem b ts) -> ts !! i = Some (PLocked x) -> order ≡ₚ members b ->
  inv (mkSystem (mkBroker (heap b) (subs b) (nextID b) (seq b + 1) (closed b) (readers b))
    (<[i := PSend (mkEvent (seq b + 1) x) order [] 0]> ts)).
Proof.
  intros Hinv Hi Ho. destruct (inv_thread b ts i _ Hinv Hi) as [Hb _].
  assert (0 <= seq b) as Hpos. { destruct Hinv as (_ & _ & Hq & _). cbn in Hq. rewrite Hq. apply how_many_bounds. }
  eapply (broker_move None b _ ts i); try done; cbn; try lia.
  - destruct Hb as (Hsubs & Hids & Hs & Hn). split_and!; try done; cbn; try apply Hn.
    eapply Forall_impl; [exact Hs|]. intros s (H1 & H2 & H3 & H4). split_and!; try done.
    eapply Forall_impl; [exact H4|]. cbn. intros e He. lia.
  - split_and!; try done; try lia; [by apply Forall_nil_2|]. apply Forall_forall. intros p Hp. rewrite Ho in Hp.
    destruct (member_open b p Hb Hp) as (s & Es & _). exists s. split; [done|]. intros Hin.
    destruct (broker_ok_sub b p s Hb Es) as (_ & _ & _ & Hf). apply list_elem_of_fmap in Hin as (e & He & Hin).
    rewrite Forall_forall in Hf. specialize (Hf e Hin). cbn in He. lia.
  - apply keeps_refl.
  - by left.
  - by left.
  - intros e [= <-]. right. cbn. lia.
Qed.

Lemma offer_has e e' s s' k : offered s' ≡ₚ e :: offered s -> (k = 1 /\ queued s' = queued s ++ [e] \/ k = 0 /\ queued s' = queued s) ->
  Some (Seq e) <> Some (Seq e') -> (has e' (queued s') <-> has e' (queued s)) /\ (has e' (offered s') <-> has e' (offered s)).
Proof.
  intros Hoff Hk Hne. rewrite (has_perm _ _ _ Hoff), has_cons.
  assert (Seq e' <> Seq e) by congruence. split; [|tauto]. destruct Hk as [[_ ->]|[_ ->]]; [rewrite has_snoc|]; tauto.
Qed.

Lemma offer_counted e s s' k h p : offered s' ≡ₚ e :: offered s -> (k = 1 /\ queued s' = queued s ++ [e] \/ k = 0 /\ queued s' = queued s) ->
  ~ has e (offered s) -> (p < length h)%nat -> b2z (queued_at (<[p := s']> h) e p) = k.
Proof.
  intros Hoff Hk Hfresh Hp. unfold queued_at. rewrite list_lookup_insert_eq by done.
  destruct Hk as [[-> ->]|[-> ->]].
  - rewrite bool_decide_eq_true_2; [done|]. apply has_snoc. by right.
  - rewrite bool_decide_eq_false_2; [done|]. intros Hq. by apply Hfresh, has_queued_offered.
Qed.

(** The subscribers of a publisher, past and to come, are distinct. *)
Lemma publisher_todo b p past todo : broker_ok b -> past ++ p :: todo ≡ₚ members b -> p ∈ members b /\ p ∉ past /\ p ∉ todo.
Proof.
  intros Hb Hall. assert (NoDup (past ++ p :: todo)) as Hnd by (rewrite Hall; by apply members_NoDup).
  apply NoDup_app in Hnd as (_ & Hnd1 & [Hp2 _]%NoDup_cons). split; [|split; [|done]].
  - rewrite <- Hall, elem_of_app, elem_of_cons. by right; left.
  - intros Hin. apply (Hnd1 p Hin). apply elem_of_cons. by left.
Qed.

Lemma thread_ok_offer b e p s s' k todo past n : heap b !! p = Some s -> p ∉ past -> p ∉ todo ->
  offered s' ≡ₚ e :: offered s -> (k = 1 /\ queued s' = queued s ++ [e] \/ k = 0 /\ queued s' = queued s) -> ~ has e (offered s) ->
  thread_ok b (PSend e (p :: todo) past n) -> thread_ok (with_heap (<[p := s']> (heap b)) b) (PSend e todo (p :: past) (n + k)).
Proof.
  intros Es Hp1 Hp2 Hoff Hk Hfresh (He & Hall & Hserved & Hn & [_ Htodo]%Forall_cons).
  pose proof (lookup_lt_Some _ _ _ Es) as Hlt. unfold served in *. cbn [thread_ok with_heap heap seq].
  split; [lia|]. split_and!.
  - change (p :: past ++ todo ≡ₚ members b). rewrite <- Hall. by rewrite Permutation_middle.
  - apply Forall_cons; split.
    + exists s'. rewrite list_lookup_insert_eq by done. split; [done|]. apply (has_perm _ _ _ Hoff), has_cons. by left.
    + rewrite Forall_forall in *. intros q Hq. rewrite list_lookup_insert_ne by congruence. by apply Hserved.
  - rewrite reached_cons, reached_insert, (offer_counted e s s' k) by done. lia.
  - rewrite Forall_forall in *. intros q Hq. rewrite list_lookup_insert_ne by congruence. by apply Htodo.
Qed.

(** The event is offered to one more subscriber. *)
Lemma inv_offer b ts i e p todo past n : inv (mkSystem b ts) -> ts !! i = Some (PSend e (p :: todo) past n) ->
  exists s s' k, heap b !! p = Some s /\ offer e s = Some (s', k) /\
    inv (mkSystem (with_heap (<[p := s']> (heap b)) b) (<[i := PSend e todo (p :: past) (n + k)]> ts)).
Proof.
  intros Hinv Hi. destruct (inv_thread b ts i _ Hinv Hi) as [Hb Ht]. pose proof Ht as (He & Hall & _ & _ & Htodo).
  destruct (publisher_todo b p past todo Hb Hall) as (Hp & Hp1 & Hp2).
  destruct (member_open b p Hb Hp) as (s & Es & Ec). destruct (offer_spec e s Ec) as (s' & k & Eo & Hid & Ec' & Honce & Hcap & Hoff & Hlen & Hk).
  exists s, s', k. split; [done|]. split; [done|]. apply Forall_cons in Htodo as [(s0 & Es0 & Hfresh) _]. replace s0 with s in * by congruence.
  pose proof (broker_ok_sub b p s Hb Es) as Hsok.
  eapply (broker_move (Some (Seq e)) b _ ts i); [done|done| |by eapply thread_ok_offer| | | | | | | | |]; cbn; try lia; try by left.
  - eapply broker_ok_heap; try done; [left; congruence|]. eapply sub_ok_offer; try done; [congruence|]. apply Hlen, Hsok.
  - eapply keeps_insert; [done..|]. intros e'. by eapply offer_has.
  - unfold zlength. rewrite length_insert. lia.
  - intros x [= <-]. by exists e.
Qed.

Lemma inv_close_sub b ts i t p k msg : inv (mkSystem b ts) -> ts !! i = Some t -> detached b p ->
  (forall b', keeps None (heap b) (heap b') -> subs b' = subs b -> thread_ok b' k) ->
  holds_lock k = holds_lock t -> event_of k = event_of t -> has_sub k = has_sub t ->
  exists b', panic b (close_sub p b) k msg = (b', k) /\ inv (mkSystem b' (<[i := k]> ts)).
Proof.
  intros Hinv Hi Hd Hk E1 E2 E3. destruct (inv_thread b ts i t Hinv Hi) as [Hb _].
  destruct (close_sub_ok b p Hb Hd) as (b' & -> & Hb' & Hkeep & Hz & Hs & Hq & Hr). exists b'. split; [done|].
  by eapply inv_local; eauto.
Qed.

Lemma detached_keeps b b' p : keeps None (heap b) (heap b') -> subs b' = subs b -> detached b p -> detached b' p.
Proof.
  intros Hk Hs [[s Es] Hp]. destruct (Hk p s Es) as (s' & Es' & _). split; [by exists s'|]. by rewrite Hs.
Qed.

(** Fewer than 2^64 goroutines: no counter wraps. *)
Lemma inv_small b ts i t : inv (mkSystem b ts) -> zlength ts < 2 ^ 64 -> ts !! i = Some t ->
  (has_event t = false -> 0 <= seq b < 2 ^ 64 - 1) /\ (has_sub t = false -> zlength (heap b) < 2 ^ 64 - 1).
Proof.
  intros (_ & _ & Hq & Hl & _) Hz Hi. cbn [broker threads] in Hq, Hl. rewrite Hq, Hl. split; intros Ht.
  - pose proof (how_many_lt has_event ts i t Hi Ht). pose proof (how_many_bounds has_event ts). lia.
  - pose proof (how_many_lt has_sub ts i t Hi Ht). lia.
Qed.

Lemma inv_subscribe b ts i buffer : inv (mkSystem b ts) -> zlength ts < 2 ^ 64 -> ts !! i = Some (SStart buffer) -> readers b = 0 ->
  inv (mkSystem (Subscribe buffer b).1 (<[i := (Subscribe buffer b).2]> ts)).
Proof.
  intros Hinv Hz Hi Hr. destruct (inv_thread b ts i _ Hinv Hi) as [Hb _]. destruct (inv_small b ts i _ Hinv Hz Hi) as [_ Hsmall].
  destruct (Subscribe_ok buffer b Hb (Hsmall eq_refl)) as (b' & t' & -> & Hb' & Ht' & E1 & E2 & E3 & E4 & E5 & [s E6] & E7).
  assert (has_event t' = false) as E8 by (unfold has_event; by rewrite E3).
  eapply (broker_move None b _ ts i); try done; cbn [fst snd]; rewrite ?E1, ?E2, ?E3, ?E4, ?E5, ?E6, ?E8; cbn; try lia; try done.
  - apply keeps_app.
  - unfold zlength. rewrite length_app. cbn. lia.
Qed.

Lemma inv_receive b ts i p s e rest : inv (mkSystem b ts) -> ts !! i = Some (RStart p) -> heap b !! p = Some s -> ch s = e :: rest ->
  inv (mkSystem (with_heap (<[p := mkSub (id s) rest (cap_ s) (ch_closed s) (once s) (got s ++ [e]) (lost s)]> (heap b)) b)
    (<[i := RDone (Some e)]> ts)).
Proof.
  intros Hinv Hi Es Ech. destruct (inv_thread b ts i _ Hinv Hi) as [Hb _]. destruct (broker_ok_sub b p s Hb Es) as (H1 & H2 & H3 & H4).
  set (s' := mkSub _ _ _ _ _ _ _). assert (queued s' = queued s) as Hq by (unfold queued; cbn; by rewrite Ech, <- app_assoc).
  assert (offered s' = offered s) as Ho by (unfold offered; by rewrite Hq).
  eapply inv_local; try done.
  - eapply broker_ok_heap; try done; [by left|]. split_and!; [done| |by rewrite Ho|by rewrite Ho]. cbn. rewrite Ech in H2. cbn in H2. lia.
  - eapply keeps_insert; try done. intros e' _. by rewrite Hq, Ho.
  - cbn. unfold zlength. by rewrite length_insert.
Qed.

(** The read lock is taken and released. *)
Lemma inv_publish b ts i x : inv (mkSystem b ts) -> ts !! i = Some (PStart x) -> closed b = false ->
  inv (mkSystem (add_readers 1 b) (<[i := PLocked x]> ts)).
Proof.
  intros Hinv Hi Hc. destruct (inv_thread b ts i _ Hinv Hi) as [Hb _].
  apply (broker_move None b _ ts i (PStart x)); cbn; try done; try lia; first [apply keeps_refl|intros; by left].
Qed.

Lemma inv_published b ts i e past n : inv (mkSystem b ts) -> ts !! i = Some (PSend e [] past n) ->
  inv (mkSystem (add_readers (-1) b) (<[i := PDone (Some e) past n]> ts)).
Proof.
  intros Hinv Hi. destruct (inv_thread b ts i _ Hinv Hi) as [Hb (He & _ & Hs & Hn & _)].
  eapply (broker_move None b _ ts i); try done; cbn; try lia; first [apply keeps_refl|intros; by left|idtac].
Qed.

(** Every step of a goroutine preserves the invariant. *)
Lemma inv_thread_step order b ts i t b' t' : inv (mkSystem b ts) -> zlength ts < 2 ^ 64 -> ts !! i = Some t -> order ≡ₚ members b ->
  thread_step order b t = Some (b', t') -> inv (mkSystem b' (<[i := t']> ts)).
Proof.
  intros Hinv Hz Hi Ho Hstep. destruct (inv_thread b ts i t Hinv Hi) as [Hb Ht].
  destruct (inv_small b ts i t Hinv Hz Hi) as [Hseq _].
  assert (forall t', thread_ok b t' -> holds_lock t' = holds_lock t -> event_of t' = event_of t -> has_sub t' = has_sub t ->
    inv (mkSystem b (<[i := t']> ts))) as Hstay by (intros; apply (inv_local b b ts i t); first [done|apply keeps_refl]).
  destruct t as [x|x|e [|p todo] past n|e past n|bf|p|p|p|p| | |[|p ps]| |p|oe|msg]; cbn [thread_step] in Hstep; try done.
  - destruct (closed b) eqn:Ec; injection Hstep as <- <-; [by apply Hstay|by apply inv_publish].
  - injection Hstep as <- <-. rewrite Z.mod_small by (specialize (Hseq eq_refl); lia). by apply inv_draw.
  - injection Hstep as <- <-. by apply inv_published.
  - destruct (inv_offer b ts i e p todo past n Hinv Hi) as (s & s' & k & Es & Eo & Hinv'). rewrite Es in Hstep. cbn in Hstep.
    rewrite Eo in Hstep. by injection Hstep as <- <-.
  - destruct (Z.eqb_spec (readers b) 0) as [Hr|]; [|done]. injection Hstep as E. pose proof (inv_subscribe b ts i bf Hinv Hz Hi Hr) as H.
    by rewrite E in H.
  - destruct (inv_close_sub b ts i _ p (SDone p) "close of closed channel" Hinv Hi Ht) as (b1 & E & Hinv'); try done.
    rewrite E in Hstep. by injection Hstep as <- <-.
  - destruct (Z.eqb_spec (readers b) 0) as [Hr|]; [|done]. injection Hstep as E.
    pose proof (inv_shrinks b ts i _ _ Hinv Hi Hr eq_refl eq_refl eq_refl (remove_ok p b Hb)) as H. by rewrite E in H.
  - destruct (inv_close_sub b ts i _ p UDone "close of closed channel" Hinv Hi Ht) as (b1 & E & Hinv'); try done.
    rewrite E in Hstep. by injection Hstep as <- <-.
  - destruct (Z.eqb_spec (readers b) 0) as [Hr|]; [|done]. injection Hstep as E.
    pose proof (inv_shrinks b ts i _ _ Hinv Hi Hr eq_refl eq_refl eq_refl (Close_ok order b Hb Ho)) as H. by rewrite E in H.
  - injection Hstep as <- <-. by apply Hstay.
  - apply Forall_cons in Ht as [Hd Hds].
    destruct (inv_close_sub b ts i _ p (CClose ps) "close of closed channel" Hinv Hi Hd) as (b1 & E & Hinv'); try done.
    { intros b1 Hk Hs. eapply Forall_impl; [exact Hds|]. intros q. by apply detached_keeps. }
    rewrite E in Hstep. by injection Hstep as <- <-.
  - destruct (heap b !! p) as [s|] eqn:Es; [|done]. cbn in Hstep. destruct (ch s) as [|e rest] eqn:Ech.
    + destruct (ch_closed s); [|done]. injection Hstep as <- <-. by apply Hstay.
    + injection Hstep as <- <-. by apply inv_receive.
Qed.

(** ** Reachable states *)

Definition initial (t : pc) : bool :=
  match t with PStart _ | SStart _ | UStart _ | CStart | RStart _ => true | _ => false end.

Lemma inv_New ts : Forall (fun t => initial t = true) ts -> inv (mkSystem New ts).
Proof.
  intros Hts. assert (forall P, (forall t, initial t = true -> P t = false) -> how_many P ts = 0) as Hcount.
  { intros P HP. induction Hts as [|t ts Ht _ IH]; [done|]. by rewrite how_many_cons, (HP t Ht), IH. }
  unfold inv; cbn [broker threads]. rewrite !Hcount by (by intros []). split; [|split_and!]; try done.
  - split_and!; try done. by intros i [p Hp].
  - eapply Forall_impl; [exact Hts|]. by intros [].
  - intros i j t t' e e' _ Hi _ He. pose proof (Forall_lookup_1 _ _ _ _ Hts Hi) as Ht. by destruct t.
Qed.

Lemma broker_reachable ts st : Forall (fun t => initial t = true) ts -> zlength ts < 2 ^ 64 ->
  rtc step (mkSystem New ts) st -> inv st /\ zlength (threads st) = zlength ts.
Proof.
  intros Hts Hz Hrtc. apply inv_New in Hts. change ts with (threads (mkSystem New ts)) in Hz at 1 |- *.
  revert Hts Hz. generalize (mkSystem New ts) as st0, Hrtc. clear. intros st0 Hrtc. induction Hrtc as [st|st1 st2 st3 Hst _ IH]; [done|].
  intros Hinv Hz. destruct Hst as [i order st t b' t' Hi Ho Hstep]. destruct st as [b ts]. cbn in *.
  assert (zlength (<[i := t']> ts) = zlength ts) as Hlen by (unfold zlength; by rewrite length_insert).
  rewrite <- Hlen. apply IH; [|by rewrite Hlen]. by eapply inv_thread_step.
Qed.

(** One goroutine named in the schedule moves at a time. *)
Fixpoint run (sched : list (nat * list nat)) (st : system) : option system :=
  match sched with
  | [] => Some st
  | (i, order) :: sched' =>
      t ← threads st !! i;
      if decide (order ≡ₚ members (broker st))
      then '(b', t') ← thread_step order (broker st) t; run sched' (mkSystem b' (<[i := t']> (threads st)))
      else None
  end.

Lemma run_rtc sched st st' : run sched st = Some st' -> rtc step st st'.
Proof.
  revert st. induction sched as [|[i order] sched IH]; intros st; cbn; [by intros [= ->]|].
  destruct (threads st !! i) as [t|] eqn:Et; [|done]. cbn. destruct (decide _) as [Ho|]; [|done].
  destruct (thread_step order (broker st) t) as [[b' t']|] eqn:Es; [|done]. cbn. intros Hrun.
  eapply rtc_l; [by eapply Step|]. by apply IH.
Qed.

(** A publisher that holds the read lock is never held up. *)
Lemma publisher_steps b ts i t order : inv (mkSystem b ts) -> ts !! i = Some t -> holds_lock t = true -> is_Some (thread_step order b t).
Proof.
  intros Hinv Hi Ht. destruct t as [x|x|e [|p todo] past n|e past n|bf|p|p|p|p| | |ps| |p|oe|msg]; try done; cbn; try by eexists.
  destruct (inv_offer b ts i e p todo past n Hinv Hi) as (s & s' & k & -> & _ & _). by eexists.
Qed.

(** C40: Any number of goroutines (fewer than 2^64) subscribe, unsubscribe, publish, receive and close the
    broker.  No goroutine ever panics: nothing is sent on a closed channel and
    no channel is closed twice.  A subscriber's buffer stays within its
    capacity and no event is offered to it twice, so each is queued once or
    counted as dropped once.  A publisher in the middle of its fan-out can always move; the
    subscribers it has served and those it will serve are exactly those
    registered.  A finished [Publish] has served all of them, and the number
    it returns is the number of those that have its event in their queue or
    received it. *)
Theorem broker_delivers ts st : Forall (fun t => initial t = true) ts -> zlength ts < 2 ^ 64 -> rtc step (mkSystem New ts) st ->
  Forall (fun t => forall msg, t <> Panicked msg) (threads st) /\
  Forall (fun s => (length (ch s) <= cap_ s)%nat /\ NoDup (map Seq (got s ++ ch s ++ lost s))) (heap (broker st)) /\
  (forall i t order, threads st !! i = Some t -> holds_lock t = true -> is_Some (thread_step order (broker st) t)) /\
  (forall i e todo past n, threads st !! i = Some (PSend e todo past n) -> past ++ todo ≡ₚ members (broker st)) /\
  (forall i e past n, threads st !! i = Some (PDone (Some e) past n) ->
    served (heap (broker st)) e past /\ n = reached (heap (broker st)) e past).
Proof.
  intros Hts Hz Hrtc. destruct (broker_reachable ts st Hts Hz Hrtc) as [Hinv _]. destruct st as [b ts']. cbn [broker threads].
  assert (forall i t, ts' !! i = Some t -> thread_ok b t) as Hok by (intros i t Hi; by eapply inv_thread).
  split_and!.
  - apply Forall_lookup. intros i t Hi msg ->. by apply (Hok i) in Hi.
  - pose proof Hinv as ((_ & _ & Hs & _) & _). eapply Forall_impl; [exact Hs|]. intros s (_ & Hl & Hd & _).
    split; [done|]. unfold offered, queued in Hd. by rewrite <- app_assoc in Hd.
  - intros i t order. by apply publisher_steps.
  - intros i e todo past n Hi. by apply (Hok i) in Hi as (_ & ? & _).
  - intros i e past n Hi. by apply (Hok i) in Hi as (_ & ? & ?).
Qed.

End broker.
Arguments Event : clear implicits. Arguments Subscription : clear implicits. Arguments Broker : clear implicits.
Arguments pc : clear implicits. Arguments system : clear implicits. Arguments New {T}.

(** ** Executions *)

(** Two subscribers, one of them with a full buffer. *)
Definition drop_threads : list (pc string) := [SStart 1; SStart 2; PStart "a"; PStart "b"; RStart 0; CStart; UStart 1].
Definition drop_sched : list (nat * list nat) :=
  let o := [1; 0]%nat in
  [(0, []); (1, [0]); (2, o); (2, o); (2, o); (2, o); (2, o); (3, o); (3, o); (3, o); (3, o); (3, o); (4, o);
   (6, o); (6, [0]); (5, [0]); (5, []); (5, [])]%nat.

Definition drop_end : option (list (pc string) * list (list Z * list Z * Z)) :=
  st ← run drop_sched (mkSystem New drop_threads);
  Some (threads st, map (fun s => (map Seq (got s), map Seq (ch s), dropped s)) (heap (broker st))).

Lemma drop_end_eq : drop_end = Some
  ([SDone 0; SDone 1; PDone (Some (mkEvent 1 "a")) [0; 1]%nat 2; PDone (Some (mkEvent 2 "b")) [0; 1]%nat 1;
    RDone (Some (mkEvent 1 "a")); CDone; UDone], [([1], [], 1); ([], [1; 2], 0)]).
Proof. vm_compute. reflexivity. Qed.

(** Two publishers, one subscriber. *)
Definition race_threads : list (pc string) := [SStart 2; PStart "a"; PStart "b"; RStart 0].
Definition race_sched : list (nat * list nat) := ([(0, [])] ++ map (fun i => (i, [0])) [1; 1; 2; 2; 2; 2; 1; 1; 3])%nat.

Lemma broker_delivers_witness : match run drop_sched (mkSystem New drop_threads) with
  | Some st => Forall (fun t => forall msg, t <> Panicked msg) (threads st)
  | None => False
  end.
Proof.
  assert (run drop_sched (mkSystem New drop_threads) <> None) as Hrun by (vm_compute; discriminate).
  destruct (run drop_sched (mkSystem New drop_threads)) as [st|] eqn:E; [|by apply Hrun].
  apply (broker_delivers drop_threads st); [by repeat constructor|reflexivity|by eapply run_rtc].
Defined.

(** Sequence numbers are drawn under the read lock, which publishers share:
    a subscriber that drops nothing may receive event 2 before event 1.  Its
    first observation is then a gap, although nothing was dropped. *)
Theorem publishers_overtake : exists st, rtc step (mkSystem New race_threads) st /\
  threads st !! 3%nat = Some (RDone (Some (mkEvent 2 "b"))) /\
  map (fun s => (map Seq (got s), map Seq (ch s), dropped s)) (heap (broker st)) = [([2], [1], 0)].
Proof.
  destruct (run race_sched (mkSystem New race_threads)) as [st|] eqn:E; [|by vm_compute in E].
  exists st. split; [by eapply run_rtc|]. vm_compute in E. by injection E as <-.
Qed.
