(* ===== verification/Resilience.v ===== *)
(** * The facades ([resilience/resilience.go], [resiliencex/execute.go]).

    A stack is a pipeline with a fallback around it; calls that return a value
    keep it in a variable the closure around the operation assigns.  The
    variable is part of the world the stages act on. *)

From Stdlib Require Import Sorting.Sorted.
From S2P Require Import Prelude Ratelimit Retry Bulkhead Pipeline.
Open Scope Z_scope.

(** An operation with a result, and what stands in for it when it fails. *)
Notation op V T := (ctx -> V -> outcome (T * option error) * V).
Notation recovery V T := (ctx -> error -> V -> outcome (T * option error) * V).

(** ** Calls with a value *)

Section typed.
Context {V T : Type} (zero : T).

(** The closure [func(ctx) error] of the wrappers. *)
Definition capture (fn : op V T) : call (V * T) := fun c '(v, result) =>
  match fn c v with
  | (Ok (result, e), v) => (Ok e, (v, result))
  | (Panic m, v) => (Panic m, (v, result))
  end.

(** The body shared by the wrappers; [exec] runs a closure. *)
Definition with_result (exec : stage (V * T)) (fn : op V T) : op V T := fun c v =>
  match exec (capture fn) c (v, zero) with
  | (Ok None, (v, result)) => (Ok (result, None), v)
  | (Ok (Some e), (v, _)) => (Ok (zero, Some e), v)
  | (Panic m, (v, _)) => (Panic m, v)
  end.

Definition or_else (run : op V T) (fb : recovery V T) : op V T := fun c v =>
  match run c v with
  | (Ok (_, Some e), v) =>
      match fb c e v with
      | (Ok (_, Some e'), v) => (Ok (zero, Some e'), v)
      | r => r
      end
  | r => r
  end.

(** [cb], [p] and [b] are given by their [Execute] and [Do]. *)
Definition ExecuteCB (cb : stage (V * T)) (fn : op V T) : op V T := with_result cb fn.

Definition ExecuteCBWithFallback (cb : stage (V * T)) (fn : op V T) (fallback : recovery V T) : op V T :=
  or_else (ExecuteCB cb fn) fallback.

Definition ExecuteRetry (p : Policy error) (ops : retry_ops (V * T)) (fn : op V T) : op V T := with_result (policy_do p ops) fn.

Definition ExecuteBulkhead (b : stage (V * T)) (fn : op V T) : op V T := with_result b fn.

End typed.

(** ** Stacks *)

Section stack.
Context {W : Type}.

Record Stack := mkStack {
  pipe : option (Pipeline (W := W));
  fallback : option (ctx -> error -> W -> outcome (option error) * W);
}.

Definition runCore (s : Stack) (fn : call W) : call W :=
  match pipe s with None => fn | Some p => Pipeline.Execute p fn end.

Definition Stack_Execute (s : Stack) (fn : call W) : call W := fun c w =>
  match fallback s with
  | Some fb =>
      match runCore s fn c w with
      | (Ok (Some e), w) => fb c e w
      | r => r
      end
  | None => runCore s fn c w
  end.

Record Builder := mkBuilder {
  pb : list (builderStage (W := W));
  hasRateLimit : bool;
  hasBulkhead : bool;
  hasTimeout : bool;
  hasBreaker : bool;
  hasRetry : bool;
  b_fallback : option (ctx -> error -> W -> outcome (option error) * W);
}.

Definition New : Builder := mkBuilder [] false false false false false None.

Definition WithRateLimit (b : Builder) (Allow : string -> W -> Result * W) (keyFn : option (ctx -> string)) : Builder :=
  mkBuilder (RateLimit (pb b) Allow keyFn) true (hasBulkhead b) (hasTimeout b) (hasBreaker b) (hasRetry b) (b_fallback b).

Definition WithBulkhead (b : Builder) (Execute : stage W) : Builder :=
  mkBuilder (BulkheadWith (pb b) Execute) (hasRateLimit b) true (hasTimeout b) (hasBreaker b) (hasRetry b) (b_fallback b).

(** [Execute] of the bulkhead that is constructed; the constructor may panic. *)
Definition WithBulkheadLimit (Execute : Bulkhead.Bulkhead -> stage W) (b : Builder) (maxConcurrency : Z) (maxWait : duration)
  : outcome Builder :=
  match Bulkhead.New maxConcurrency maxWait "default" with
  | Ok bh => Ok (WithBulkhead b (Execute bh))
  | Panic m => Panic m
  end.

Definition WithTimeout (b : Builder) (Now : W -> time * W) (d : duration) : Builder :=
  if 0 <? d
  then mkBuilder (Timeout (pb b) Now d) (hasRateLimit b) (hasBulkhead b) true (hasBreaker b) (hasRetry b) (b_fallback b)
  else b.

Definition WithCircuitBreaker (b : Builder) (Execute : stage W) : Builder :=
  mkBuilder (CircuitBreaker (pb b) Execute) (hasRateLimit b) (hasBulkhead b) (hasTimeout b) true (hasRetry b) (b_fallback b).

Definition WithRetry (b : Builder) (p : Policy error) (ops : retry_ops W) : Builder :=
  mkBuilder (RetryPolicy (pb b) p ops) (hasRateLimit b) (hasBulkhead b) (hasTimeout b) (hasBreaker b) true (b_fallback b).

Definition WithRetryBudget (b : Builder) (p : Policy error) (budget : bool) (ops : retry_ops W) : Builder :=
  mkBuilder (RetryWithBudget (pb b) p budget ops) (hasRateLimit b) (hasBulkhead b) (hasTimeout b) (hasBreaker b) true (b_fallback b).

Definition WithFallback (b : Builder) (fb : option (ctx -> error -> W -> outcome (option error) * W)) : Builder :=
  mkBuilder (pb b) (hasRateLimit b) (hasBulkhead b) (hasTimeout b) (hasBreaker b) (hasRetry b) fb.

Definition WithCustom (b : Builder) (s : stage W) : Builder :=
  mkBuilder (Use (pb b) s) (hasRateLimit b) (hasBulkhead b) (hasTimeout b) (hasBreaker b) (hasRetry b) (b_fallback b).

Definition Build (b : Builder) : Stack := mkStack (Some (Pipeline.Build (pb b))) (b_fallback b).

Definition Layers (b : Builder) : list string :=
  (if b_fallback b then ["fallback"] else []) ++
  (if hasRateLimit b then ["ratelimit"] else []) ++
  (if hasBulkhead b then ["bulkhead"] else []) ++
  (if hasTimeout b then ["timeout"] else []) ++
  (if hasBreaker b then ["circuitbreaker"] else []) ++
  (if hasRetry b then ["retry"] else []).

End stack.
Arguments Stack : clear implicits. Arguments Builder : clear implicits.

(** The variable of the closure is a local variable of [Execute]. *)
Definition Execute {V T} (zero : T) (s : Stack (V * T)) (fn : op V T) : op V T := with_result zero (runCore s) fn.

Definition ExecuteWithFallback {V T} (zero : T) (s : Stack (V * T)) (fn : op V T) (fb : recovery V T) : op V T :=
  or_else zero (Execute zero s fn) fb.

(** ** Layers and their order *)

(** The names [Layers] gives to kinds. *)
Definition layer_name (k : stageKind) : option string :=
  match k with
  | kindRateLimit => Some "ratelimit" | kindBulkhead => Some "bulkhead" | kindTimeout => Some "timeout"
  | kindCircuitBreaker => Some "circuitbreaker" | kindRetry => Some "retry" | _ => None
  end%string.

(** The reference of a stack: a call whose error, if any, goes to the fallback. *)
Definition recovered {W} (fb : option (ctx -> error -> W -> outcome (option error) * W)) (next : call W) : call W := fun c w =>
  match fb, next c w with
  | Some fb, (Ok (Some e), w) => fb c e w
  | _, r => r
  end.

Lemma named_kinds (P : stageKind -> Prop) `{HP : forall k, Decision (P k)} : ~ P kindLoadShed -> ~ P kindConcurrency ->
  (if bool_decide (P kindRateLimit) then ["ratelimit"%string] else []) ++ (if bool_decide (P kindBulkhead) then ["bulkhead"] else []) ++
  (if bool_decide (P kindTimeout) then ["timeout"] else []) ++ (if bool_decide (P kindCircuitBreaker) then ["circuitbreaker"] else []) ++
  (if bool_decide (P kindRetry) then ["retry"] else []) = omap layer_name (filter P all_kinds).
Proof.
  intros H1 H2. unfold all_kinds. rewrite filter_cons_False by done.
  rewrite filter_cons. destruct (decide (P kindRateLimit)); rewrite filter_cons; destruct (decide (P kindBulkhead));
    rewrite filter_cons_False by done; rewrite filter_cons; destruct (decide (P kindTimeout));
    rewrite filter_cons; destruct (decide (P kindCircuitBreaker)); rewrite filter_cons; destruct (decide (P kindRetry));
    rewrite filter_cons; destruct (decide (P kindCustom)); by repeat case_bool_decide.
Qed.

Section layers.
Context {W : Type}.

(** Builders made by the builder methods, in any order and any number. *)
Inductive built : Builder W -> Prop :=
| built_New : built New
| built_RateLimit b Allow keyFn : built b -> built (WithRateLimit b Allow keyFn)
| built_Bulkhead b Execute : built b -> built (WithBulkhead b Execute)
| built_BulkheadLimit Execute b n d b' : built b -> WithBulkheadLimit Execute b n d = Ok b' -> built b'
| built_Timeout b Now d : built b -> built (WithTimeout b Now d)
| built_CircuitBreaker b Execute : built b -> built (WithCircuitBreaker b Execute)
| built_Retry b p ops : built b -> built (WithRetry b p ops)
| built_RetryBudget b p budget ops : built b -> built (WithRetryBudget b p budget ops)
| built_Fallback b fb : built b -> built (WithFallback b fb)
| built_Custom b s : built b -> built (WithCustom b s).

(** The stages each method appends. *)
Inductive extends (b b' : Builder W) : Prop :=
| Extends s : pb b' = pb b ++ [s] -> b_fallback b' = b_fallback b ->
    kind s <> kindLoadShed -> kind s <> kindConcurrency ->
    hasRateLimit b' = hasRateLimit b || bool_decide (kind s = kindRateLimit) ->
    hasBulkhead b' = hasBulkhead b || bool_decide (kind s = kindBulkhead) ->
    hasTimeout b' = hasTimeout b || bool_decide (kind s = kindTimeout) ->
    hasBreaker b' = hasBreaker b || bool_decide (kind s = kindCircuitBreaker) ->
    hasRetry b' = hasRetry b || bool_decide (kind s = kindRetry) -> extends b b'.

Definition same_stages (b b' : Builder W) : Prop :=
  pb b' = pb b /\ hasRateLimit b' = hasRateLimit b /\ hasBulkhead b' = hasBulkhead b /\ hasTimeout b' = hasTimeout b /\
  hasBreaker b' = hasBreaker b /\ hasRetry b' = hasRetry b.

Ltac extend := econstructor; cbn; [reflexivity|reflexivity|discriminate|discriminate|..]; by rewrite ?orb_false_r, ?orb_true_r.

Lemma built_cases (P : Builder W -> Prop) : P New -> (forall b b', P b -> extends b b' -> P b') ->
  (forall b b', P b -> same_stages b b' -> P b') -> forall b, built b -> P b.
Proof.
  intros H0 Hext Hsame b. induction 1 as [|b Allow keyFn _ IH|b Execute _ IH|Execute b n d b' _ IH E|b Now d _ IH|b Execute _ IH
    |b p ops _ IH|b p budget ops _ IH|b fb _ IH|b s _ IH]; [done|..].
  - apply (Hext b); [done|]. extend.
  - apply (Hext b); [done|]. extend.
  - unfold WithBulkheadLimit in E. destruct (Bulkhead.New _ _ _); [|done]. injection E as <-. apply (Hext b); [done|]. extend.
  - unfold WithTimeout, Timeout. destruct (Z.ltb_spec 0 d); [|done]. rewrite (proj2 (Z.leb_gt d 0)) by lia. apply (Hext b); [done|]. extend.
  - apply (Hext b); [done|]. extend.
  - apply (Hext b); [done|]. extend.
  - apply (Hext b); [done|]. unfold WithRetryBudget, RetryWithBudget. destruct budget; extend.
  - by apply (Hsame b).
  - apply (Hext b); [done|]. extend.
Qed.

Definition present (b : Builder W) (k : stageKind) : bool := bool_decide (k ∈ map kind (pb b)).

Lemma present_app b s k (b' : Builder W) : pb b' = pb b ++ [s] -> present b' k = present b k || bool_decide (kind s = k).
Proof.
  intros E. unfold present. rewrite E, map_app. apply eq_bool_prop_intro. rewrite orb_True, !bool_decide_spec, elem_of_app. cbn.
  rewrite list_elem_of_singleton. naive_solver.
Qed.

(** The flags of the builder tell which kinds were added. *)
Definition flags_ok (b : Builder W) : Prop :=
  hasRateLimit b = present b kindRateLimit /\ hasBulkhead b = present b kindBulkhead /\ hasTimeout b = present b kindTimeout /\
  hasBreaker b = present b kindCircuitBreaker /\ hasRetry b = present b kindRetry /\
  present b kindLoadShed = false /\ present b kindConcurrency = false.

Lemma built_flags b : built b -> flags_ok b.
Proof.
  revert b. apply built_cases; [done| |].
  - intros b b' (H1 & H2 & H3 & H4 & H5 & H6 & H7) [s Es _ N1 N2 E1 E2 E3 E4 E5]. unfold flags_ok.
    rewrite !(present_app b s _ b' Es), E1, E2, E3, E4, E5, H1, H2, H3, H4, H5, H6, H7.
    split_and!; try done; by apply bool_decide_eq_false.
  - intros b b' H (E & E1 & E2 & E3 & E4 & E5). unfold flags_ok, present in *. by rewrite E, E1, E2, E3, E4, E5.
Qed.

(** Whatever the builder methods called and their order, [Layers] names the
    fallback, if any, and then exactly the kinds of the stages of the stack in
    the order the stack wraps them; executing the stack is the operation wrapped
    by the stages of each kind, kind after kind, with the fallback outermost;
    and two builders with the same stages of each kind and the same fallback
    build stacks that behave alike. *)
Theorem stack_layers_and_order b : built b ->
  Layers b = (if b_fallback b then ["fallback"%string] else []) ++ omap layer_name (filter (fun k => k ∈ map kind (pb b)) all_kinds) /\
  (forall op c w, Stack_Execute (Build b) op c w = recovered (b_fallback b) (wrap (canonical (pb b)) op) c w) /\
  (forall b' op c w, b_fallback b' = b_fallback b ->
    (forall k, filter (fun s => kind s = k) (pb b') = filter (fun s => kind s = k) (pb b)) ->
    Stack_Execute (Build b') op c w = Stack_Execute (Build b) op c w).
Proof.
  intros Hb. assert (forall (b : Builder W) op c w, Stack_Execute (Build b) op c w = recovered (b_fallback b) (wrap (canonical (pb b)) op) c w) as Hexec.
  { intros b' op c w. unfold Stack_Execute, runCore, recovered, Build. cbn [pipe fallback]. by rewrite Execute_wrap. }
  split_and!; [|apply Hexec|].
  - destruct (built_flags b Hb) as (H1 & H2 & H3 & H4 & H5 & H6 & H7). unfold Layers, present in *.
    rewrite H1, H2, H3, H4, H5. f_equal. rewrite !bool_decide_eq_false in *. exact (named_kinds (fun k => k ∈ map kind (pb b)) (HP := fun k => decide_rel elem_of k (map kind (pb b))) H6 H7).
  - intros b' op c w Hf Hk. rewrite !Hexec, Hf. do 2 f_equal. unfold canonical. f_equal. apply map_ext. exact Hk.
Qed.

End layers.

(** ** The value of a successful call *)

Section results.
Context {V T : Type}.

(** A stage that reports success only when its operation did, and then leaves the variable as the operation left it. *)
Definition answers (s : stage (V * T)) : Prop := forall next c w v x, s next c w = (Ok None, (v, x)) ->
  exists c1 w1 v1, next c1 w1 = (Ok None, (v1, x)).

Lemma ratelimit_answers Allow keyFn : answers (ratelimit_stage Allow keyFn).
Proof.
  intros next c w v x. unfold ratelimit_stage. destruct (Allow _ w) as [r w1].
  destruct (Allowed r); [|done]. intros E. by eexists _, _, _.
Qed.

Lemma timeout_answers Now d : answers (timeout_stage Now d).
Proof. intros next c w v x. unfold timeout_stage. destruct (Now w) as [t w1]. intros E. by eexists _, _, _. Qed.

(** The loop gives up with the error of an earlier attempt, never with none. *)
Lemma policy_loop_answers p ops (next : call (V * T)) turns : forall attempt last c w v x, (0 < attempt -> last <> None) ->
  0 <= attempt -> policy_loop p ops next turns attempt last c w = (Ok None, (v, x)) ->
  exists c1 w1 v1, next c1 w1 = (Ok None, (v1, x)).
Proof.
  induction turns as [|turns IH]; intros attempt last c w v x Hlast Ha; cbn [policy_loop]; [done|].
  destruct (r_err ops c w); [done|].
  destruct (if (0 <? attempt) && HasBudget p then r_can ops w else (true, w)) as [ok w1] eqn:Ecan.
  destruct ok; cbn [negb].
  - destruct (next c w1) as [[[e|]|m] w2] eqn:En; [|intros E; injection E as ->; by exists c, w1, v|done].
    destruct (_ =? _); [done|]. destruct (negb _); [done|]. cbv zeta.
    destruct (if 0 <? _ then _ else _) as [[e'|] w3]; [done|]. apply IH; [done|lia].
  - intros E. injection E as E _. exfalso. apply Hlast; [|done].
    destruct (Z.ltb_spec 0 attempt); [done|]. cbn in Ecan. congruence.
Qed.

Lemma policy_answers p ops : answers (policy_do p ops).
Proof. intros next c w v x. unfold policy_do. cbv zeta. by apply policy_loop_answers. Qed.

Lemma wrap_answers (l : list (builderStage (W := V * T))) op c w v x : Forall (fun s => answers (fn s)) l ->
  wrap l op c w = (Ok None, (v, x)) -> exists c1 w1 v1, op c1 w1 = (Ok None, (v1, x)).
Proof.
  intros Hl. revert c w v. induction Hl as [|s l Hs _ IH]; intros c w v E; [by exists c, w, v|].
  apply Hs in E as (c1 & w1 & v1 & E). by eapply IH.
Qed.

(** The stages whose code the stack is handed ready-made. *)
Definition handed (k : stageKind) : bool :=
  match k with kindBulkhead | kindCircuitBreaker | kindCustom => true | _ => false end.

Lemma built_answers (b : Builder (V * T)) : built b -> Forall (fun s => handed (kind s) = true -> answers (fn s)) (pb b) ->
  Forall (fun s => answers (fn s)) (pb b).
Proof.
  induction 1 as [|b Allow keyFn _ IH|b Execute _ IH|Execute b n d b' _ IH E|b Now d _ IH|b Execute _ IH
    |b p ops _ IH|b p budget ops _ IH|b fb _ IH|b s _ IH]; cbn; try done.
  - intros [? _]%Forall_app. apply Forall_app; split; [by apply IH|apply Forall_singleton, ratelimit_answers].
  - intros [? ?]%Forall_app. apply Forall_app; split; [by apply IH|]. rewrite Forall_singleton in *. auto.
  - unfold WithBulkheadLimit in E. destruct (Bulkhead.New _ _ _); [|done]. injection E as <-. cbn.
    intros [? ?]%Forall_app. apply Forall_app; split; [by apply IH|]. rewrite Forall_singleton in *. auto.
  - unfold WithTimeout, Timeout. destruct (0 <? d); [|done]. cbn. destruct (d <=? 0); [done|].
    intros [? _]%Forall_app. apply Forall_app; split; [by apply IH|apply Forall_singleton, timeout_answers].
  - intros [? ?]%Forall_app. apply Forall_app; split; [by apply IH|]. rewrite Forall_singleton in *. auto.
  - intros [? _]%Forall_app. apply Forall_app; split; [by apply IH|apply Forall_singleton, policy_answers].
  - unfold RetryWithBudget. destruct budget; intros [? _]%Forall_app; apply Forall_app; (split; [by apply IH|apply Forall_singleton, policy_answers]).
  - intros [? ?]%Forall_app. apply Forall_app; split; [by apply IH|]. rewrite Forall_singleton in *. auto.
Qed.

Lemma capture_ok (fn : op V T) c w v x : capture fn c w = (Ok None, (v, x)) -> exists v0, fn c v0 = (Ok (x, None), v).
Proof.
  destruct w as [v0 x0]. cbn. destruct (fn c v0) as [[[y e]|m] v1] eqn:E; [|done]. intros H. injection H as -> -> ->. by exists v0.
Qed.

Lemma with_result_value zero (exec : stage (V * T)) fn c v x e v' : 
  with_result zero exec fn c v = (Ok (x, e), v') -> (e <> None -> x = zero) /\
  (answers exec -> e = None -> exists c1 v1 v2, fn c1 v1 = (Ok (x, None), v2)).
Proof.
  unfold with_result. destruct (exec _ c _) as [[[er|]|m] [v1 r]] eqn:E; intros H; [by simplify_eq|injection H as <- <- <-|done].
  split; [done|]. intros Hs _. apply Hs in E as (c1 & w1 & v2 & E). apply capture_ok in E as [v0 E]. by eauto.
Qed.

(** Over a stack built by the builder methods, whose bulkhead, breaker and
    custom stages report success only when what they wrap succeeded, the value
    [Execute] returns with a nil error is one the function itself returned with
    a nil error, however often the stages called it; with an error the value is
    the zero value.  [ExecuteWithFallback] returns a value only from the
    function or from the fallback, which was given the error of the stack. *)
Theorem execute_returns_a_successful_value (zero : T) (b : Builder (V * T)) fn fb c v x e v' : built b ->
  Forall (fun s => handed (kind s) = true -> answers (Pipeline.fn s)) (pb b) ->
  (Execute zero (Build b) fn c v = (Ok (x, e), v') ->
    match e with Some _ => x = zero | None => exists c1 v1 v2, fn c1 v1 = (Ok (x, None), v2) end) /\
  (ExecuteWithFallback zero (Build b) fn fb c v = (Ok (x, e), v') ->
    match e with
    | Some _ => x = zero
    | None => (exists c1 v1 v2, fn c1 v1 = (Ok (x, None), v2)) \/
        (exists er v1, Execute zero (Build b) fn c v = (Ok (zero, Some er), v1) /\ fb c er v1 = (Ok (x, None), v'))
    end).
Proof.
  intros Hb Hs. assert (answers (runCore (Build b))) as Hcore.
  { intros op c1 w v1 x1. unfold runCore, Build. cbn [pipe]. rewrite Execute_wrap. apply wrap_answers.
    eapply Forall_forall. intros s Hin. pose proof (built_answers b Hb Hs) as Hall. rewrite Forall_forall in Hall. apply Hall.
    rewrite <- sort_stable_canonical in Hin. by rewrite sort_stable_Permutation in Hin. }
  assert (forall x e v', Execute zero (Build b) fn c v = (Ok (x, e), v') ->
    match e with Some _ => x = zero | None => exists c1 v1 v2, fn c1 v1 = (Ok (x, None), v2) end) as Hexec.
  { intros x1 e1 v1 E. apply with_result_value in E as [E1 E2]. destruct e1; [by apply E1|by apply E2]. }
  split; [apply Hexec|]. unfold ExecuteWithFallback, or_else. destruct (Execute zero (Build b) fn c v) as [[[y [er|]]|m] v1] eqn:E.
  - specialize (Hexec _ _ _ eq_refl). cbn in Hexec. subst y. destruct (fb c er v1) as [[[z [er'|]]|m] v2] eqn:Ef; intros H; simplify_eq; [done|].
    right. by exists er, v1.
  - intros H. injection H as <- <- <-. left. by apply (Hexec y None v1).
  - done.
Qed.

End results.

(** ** A stack *)

(** Built innermost first; the world of the operation counts its calls. *)
Definition allow_all (_ : string) (w : Z * Z) : Result * (Z * Z) := (mkResult true 10 9 0 0 "" ∅, w).
Definition demo_fallback (c : ctx) (e : error) (w : Z * Z) : outcome (option error) * (Z * Z) := (Ok None, w).

Definition demo_builder : Builder (Z * Z) :=
  WithFallback (WithRateLimit (WithTimeout (WithBulkhead (WithRetry New three_attempts (lift_ops idle_ops)) (fun next => next))
    (fun w => (0, w)) 50) allow_all (Some (KeyByValue "all"))) (Some demo_fallback).

Lemma demo_built : built demo_builder.
Proof. unfold demo_builder. repeat constructor. Qed.

(** It fails once, then returns 7 with the deadline it sees. *)
Definition flaky (c : ctx) (n : Z) : outcome (Z * option error) * Z :=
  if n =? 0 then (Ok (3, Some (Other "down")), 1) else (Ok (7 + default 0 (deadline c), None), n + 1).
Definition broken (c : ctx) (n : Z) : outcome (Z * option error) * Z := (Ok (3, Some (Other "down")), n + 1).
Definition substitute (c : ctx) (e : error) (n : Z) : outcome (Z * option error) * Z :=
  (Ok (match e with ErrMaxAttemptsExceeded _ => 100 | _ => 200 end, None), n).

Lemma demo_execute : Execute 0 (Build demo_builder) flaky (mkCtx None None "") 0 = (Ok (57, None), 2).
Proof. vm_compute. reflexivity. Qed.

Lemma stack_layers_and_order_witness :
  Layers demo_builder = ["fallback"; "ratelimit"; "bulkhead"; "timeout"; "retry"]%string /\
  forall op c w, Stack_Execute (Build demo_builder) op c w = recovered (Some demo_fallback) (wrap (canonical (pb demo_builder)) op) c w.
Proof.
  destruct (stack_layers_and_order demo_builder demo_built) as (H1 & H2 & _). split; [|exact H2].
  rewrite H1. vm_compute. reflexivity.
Defined.

Lemma execute_returns_a_successful_value_witness :
  ExecuteWithFallback 0 (Build demo_builder) broken substitute (mkCtx None None "") 0 = (Ok (100, None), 3) /\
  exists c1 v1 v2, flaky c1 v1 = (Ok (57, None), v2).
Proof.
  split; [vm_compute; reflexivity|].
  refine (proj1 (execute_returns_a_successful_value 0 demo_builder flaky substitute (mkCtx None None "") 0 57 None 2 demo_built _) _).
  - cbn. repeat (apply Forall_cons; split; [try done|]); [|apply Forall_nil_2].
    intros _ next c w v x E. by exists c, w, v.
  - vm_compute. reflexivity.
Defined.
