(* ===== verification/Http.v ===== *)
(** * What the middleware uses of [net/http], [net] and [fmt].

    Header maps with canonical keys, the response writer of the server,
    handlers as trees of the calls they make on a writer, [net.SplitHostPort],
    [strings.TrimSpace], and the verbs ["%.0f"] and ["%.2f"]. *)

From Stdlib Require Import Floats Ascii.
From S2P Require Import Prelude Float64 Strconv StrconvFloat.
Open Scope Z_scope.

(** ** Header maps *)

Definition between (lo hi : N) (c : ascii) : bool := ((lo <=? N_of_ascii c) && (N_of_ascii c <=? hi))%N.

(** The bytes of a token: letters, digits and some punctuation. *)
Definition token_byte (c : ascii) : bool :=
  between 48 57 c || between 65 90 c || between 97 122 c ||
  existsb (Ascii.eqb c) (String.list_ascii_of_string "!#$%&'*+-.^_`|~").

(** Upper case at the start and after a hyphen, lower case elsewhere. *)
Fixpoint canonical (upper : bool) (s : string) : string :=
  match s with
  | EmptyString => ""
  | String c s' =>
      let c := if upper && between 97 122 c then ascii_of_N (N_of_ascii c - 32)
               else if negb upper && between 65 90 c then ascii_of_N (N_of_ascii c + 32) else c in
      String c (canonical (Ascii.eqb c "-") s')
  end.

Definition CanonicalHeaderKey (s : string) : string :=
  if forallb token_byte (String.list_ascii_of_string s) then canonical true s else s.

Abbreviation headers := (gmap string (list string)) (only parsing).

Definition first_value (vs : option (list string)) : string := match vs with Some (v :: _) => v | _ => "" end.

Definition header_Get (h : headers) (k : string) : string := first_value (h !! CanonicalHeaderKey k).
Definition header_Set (k v : string) (h : headers) : headers := <[CanonicalHeaderKey k := [v]]> h.

(** ** Addresses and spaces *)

(** What is before and after the last [sep]. *)
Fixpoint cut_last (sep : ascii) (s : string) : option (string * string) :=
  match s with
  | EmptyString => None
  | String c s' =>
      match cut_last sep s' with
      | Some (a, b) => Some (String c a, b)
      | None => if Ascii.eqb c sep then Some ("", s') else None
      end
  end.

Definition contains (c : ascii) (s : string) : bool := existsb (Ascii.eqb c) (String.list_ascii_of_string s).

(** [net.SplitHostPort], the host only; [None] is an error. *)
Definition SplitHost (hostport : string) : option string :=
  '(before, port) ← cut_last ":" hostport;
  match before with
  | String "[" rest =>
      '(host, tail) ← cut_at "]" rest;
      if (String.length tail =? 0)%nat && negb (contains "[" rest) && negb (contains "]" port) && negb (contains "[" port)
      then Some host else None
  | _ =>
      if contains ":" before || contains "[" hostport || contains "]" hostport then None else Some before
  end.

(** The encodings of the characters [unicode.IsSpace] accepts. *)
Definition byte_string (l : list N) : string := String.string_of_list_ascii (map ascii_of_N l).

Definition spaces : list string :=
  map byte_string
    ([[32]; [9]; [10]; [11]; [12]; [13]; [194; 133]; [194; 160]; [225; 154; 128]; [226; 128; 168]; [226; 128; 169];
      [226; 128; 175]; [226; 129; 159]; [227; 128; 128]] ++
     map (fun n => [226; 128; 128 + N.of_nat n]%N) (seq 0 11))%N.

Definition string_rev (s : string) : string := String.string_of_list_ascii (rev (String.list_ascii_of_string s)).

Fixpoint drop_prefix (p s : string) : option string :=
  match p, s with
  | EmptyString, _ => Some s
  | String a p, String b s => if Ascii.eqb a b then drop_prefix p s else None
  | _, EmptyString => None
  end.

(** One turn per byte is enough: each removes one. *)
Fixpoint trim_left (fuel : nat) (sp : list string) (s : string) : string :=
  match fuel with
  | O => s
  | S f => match omap (fun p => drop_prefix p s) sp with s' :: _ => trim_left f sp s' | [] => s end
  end.

Definition TrimSpace (s : string) : string :=
  let s := trim_left (String.length s) spaces s in
  string_rev (trim_left (String.length s) (map string_rev spaces) (string_rev s)).

(** ** Fixed decimals *)

(** [num / den] to the nearest integer, half to even. *)
Definition round_half_even (num den : Z) : Z :=
  let q := num / den in
  let r := num mod den in
  if 2 * r <? den then q else if den <? 2 * r then q + 1 else if Z.even q then q else q + 1.

(** ["%.<prec>f"] of a double that is not negative. *)
Definition format_fixed (prec : nat) (x : f64) : string :=
  match sf x with
  | S754_finite _ m e =>
      let scale := 10 ^ Z.of_nat prec in
      let n := round_half_even (Zpos m * scale * 2 ^ Z.max 0 e) (2 ^ Z.max 0 (- e)) in
      let frac := decimal_digits (n mod scale) in
      int_string (n / scale) +:+
      (if (prec =? 0)%nat then "" else "." +:+ digit_string (replicate (prec - length frac) 0 ++ frac))
  | S754_zero _ => "0" +:+ (if (prec =? 0)%nat then "" else "." +:+ digit_string (replicate prec 0))
  | S754_infinity _ => "+Inf"
  | S754_nan => "NaN"
  end.

(** ** Bodies *)

(** One call of [Write]: bytes, or what a [json.Encoder] writes for a map. *)
Inductive json_value := JInt (z : Z) | JFloat (x : f64) | JString (s : string).

Inductive chunk := Bytes (s : string) | Json (fields : gmap string json_value).

Definition empty_chunk (b : chunk) : bool := match b with Bytes s => (String.length s =? 0)%nat | Json _ => false end.

(** ** Handlers

    A handler is the tree of the calls it makes on its writer, ending with what
    it leaves of the application's state [X].  [WriteHeader] panics on an invalid
    code; [Write] reports whether it failed. *)

Inductive program (X : Type) : Type :=
| Return (x : X)
| Panicking (msg : string) (x : X)
| GetHeader (k : headers -> program X)
| SetHeader (h : headers) (p : program X)
| WriteHeader (code : Z) (k : outcome unit -> program X)
| Write (b : chunk) (k : bool -> program X).
Arguments Return {X}. Arguments Panicking {X}. Arguments GetHeader {X}.
Arguments SetHeader {X}. Arguments WriteHeader {X}. Arguments Write {X}.

(** Run [ret] where the program returns and [pan] where it panics. *)
Fixpoint try_with {X Y} (p : program X) (ret : X -> program Y) (pan : string -> X -> program Y) : program Y :=
  match p with
  | Return x => ret x
  | Panicking m x => pan m x
  | GetHeader k => GetHeader (fun h => try_with (k h) ret pan)
  | SetHeader h p => SetHeader h (try_with p ret pan)
  | WriteHeader c k => WriteHeader c (fun o => try_with (k o) ret pan)
  | Write b k => Write b (fun e => try_with (k e) ret pan)
  end.

Definition map_program {X Y} (f : X -> Y) (p : program X) : program Y :=
  try_with p (fun x => Return (f x)) (fun m x => Panicking m (f x)).

Definition set_header {X} (k v : string) (p : program X) : program X :=
  GetHeader (fun h => SetHeader (header_Set k v h) p).

(** The code is valid in the calls of the middleware. *)
Definition write_header {X} (code : Z) (x : X) (p : program X) : program X :=
  WriteHeader code (fun o => match o with Ok _ => p | Panic m => Panicking m x end).

(** ** Writers *)

Class ResponseWriter (W : Type) := {
  rw_Header : W -> headers;
  rw_SetHeader : headers -> W -> W;
  rw_WriteHeader : Z -> W -> outcome unit * W;
  rw_Write : chunk -> W -> bool * W;
}.

Fixpoint serve {X W} `{ResponseWriter W} (p : program X) (w : W) : outcome unit * X * W :=
  match p with
  | Return x => (Ok tt, x, w)
  | Panicking m x => (Panic m, x, w)
  | GetHeader k => serve (k (rw_Header w)) w
  | SetHeader h p => serve p (rw_SetHeader h w)
  | WriteHeader c k => let '(o, w) := rw_WriteHeader c w in serve (k o) w
  | Write b k => let '(e, w) := rw_Write b w in serve (k e) w
  end.

(** *** The server's writer

    [sent] is the status and the headers of the final response once they are
    on the wire, [conn] whether the next writes fail.  For a request that is not
    HEAD and a handler that declares no content length. *)

Record response := mkResponse {
  handlerHeader : headers;
  informational : list (Z * headers);
  sent : option (Z * headers);
  body : list chunk;
  conn : list bool;
}.

Definition new_response : response := mkResponse ∅ [] None [] [].

Definition send_header (code : Z) (w : response) : outcome unit * response :=
  match sent w with
  | Some _ => (Ok tt, w)
  | None =>
      if (code <? 100) || (999 <? code) then (Panic "invalid WriteHeader code", w)
      else if (code <=? 199) && negb (code =? 101) then
        (Ok tt, mkResponse (handlerHeader w) (informational w ++ [(code, handlerHeader w)]) None (body w) (conn w))
      else (Ok tt, mkResponse (handlerHeader w) (informational w) (Some (code, handlerHeader w)) (body w) (conn w))
  end.

Definition body_allowed (code : Z) : bool := negb ((code <=? 199) || (code =? 204) || (code =? 304)).

Definition send_body (b : chunk) (w : response) : bool * response :=
  let w := snd (send_header 200 w) in
  if empty_chunk b then (false, w)
  else if negb (body_allowed (match sent w with Some (c, _) => c | None => 200 end)) then (true, w)
  else match conn w with
       | true :: l => (true, mkResponse (handlerHeader w) (informational w) (sent w) (body w) l)
       | l => (false, mkResponse (handlerHeader w) (informational w) (sent w) (body w ++ [b]) (tail l))
       end.

#[export] Instance server_writer : ResponseWriter response := {
  rw_Header := handlerHeader;
  rw_SetHeader h w := mkResponse h (informational w) (sent w) (body w) (conn w);
  rw_WriteHeader := send_header;
  rw_Write := send_body;
}.

(** What the server does when the handler has returned, and the status the
    client sees. *)
Definition finish (w : response) : response := snd (send_header 200 w).

Definition status (w : response) : Z := match sent (finish w) with Some (c, _) => c | None => 200 end.

(** ** Facts *)

Lemma header_Get_Set k v h : header_Get (header_Set k v h) k = v.
Proof. unfold header_Get, header_Set. by rewrite lookup_insert_eq. Qed.

Lemma header_Get_Set_ne k k' v h : CanonicalHeaderKey k <> CanonicalHeaderKey k' ->
  header_Get (header_Set k v h) k' = header_Get h k'.
Proof. intros H. unfold header_Get, header_Set. by rewrite lookup_insert_ne. Qed.

Lemma header_Get_empty k : header_Get ∅ k = "".
Proof. unfold header_Get. by rewrite lookup_empty. Qed.

(** Read a header that was set, the keys being literals. *)
Ltac headers := repeat (rewrite header_Get_empty || rewrite header_Get_Set || (rewrite header_Get_Set_ne by (vm_compute; discriminate))).

Section serving.
Context {X Y W : Type} `{ResponseWriter W}.

Lemma serve_try (p : program X) (ret : X -> program Y) pan w :
  serve (try_with p ret pan) w =
    match serve p w with
    | (Ok _, x, w) => serve (ret x) w
    | (Panic m, x, w) => serve (pan m x) w
    end.
Proof.
  revert w. induction p as [x|m x|k IH|h p IH|c k IH|b k IH]; intros w; cbn; auto.
  - destruct (rw_WriteHeader c w). auto.
  - destruct (rw_Write b w). auto.
Qed.

Lemma serve_map (f : X -> Y) (p : program X) w :
  serve (map_program f p) w = let '(o, x, w) := serve p w in (o, f x, w).
Proof. unfold map_program. rewrite serve_try. by destruct (serve p w) as [[[[]|] ?] ?]. Qed.

Lemma serve_set_header k v (p : program X) w :
  serve (set_header k v p) w = serve p (rw_SetHeader (header_Set k v (rw_Header w)) w).
Proof. done. Qed.

End serving.

Arguments contains : simpl never.

Lemma contains_cons c a s : contains c (String a s) = Ascii.eqb c a || contains c s.
Proof. done. Qed.

Lemma contains_app c s t : contains c (s +:+ t) = contains c s || contains c t.
Proof.
  induction s as [|a s IH]; [done|]. change (String a s +:+ t) with (String a (s +:+ t)).
  by rewrite !contains_cons, IH, orb_assoc.
Qed.

Lemma cut_last_none sep s : contains sep s = false -> cut_last sep s = None.
Proof.
  induction s as [|a s IH]; [done|]. rewrite contains_cons. intros [Ha Hs]%orb_false_iff. cbn.
  by rewrite IH, Ascii.eqb_sym, Ha.
Qed.

Lemma cut_last_app sep a b : contains sep b = false -> cut_last sep (a +:+ String sep b) = Some (a, b).
Proof.
  intros Hb. induction a as [|c a IH].
  - change ("" +:+ String sep b) with (String sep b). cbn [cut_last]. by rewrite (cut_last_none _ _ Hb), Ascii.eqb_refl.
  - change (String c a +:+ String sep b) with (String c (a +:+ String sep b)). cbn [cut_last]. by rewrite IH.
Qed.

Lemma cut_at_first sep a b : contains sep a = false -> cut_at sep (a +:+ String sep b) = Some (a, b).
Proof.
  induction a as [|c a IH]; [intros _; change ("" +:+ String sep b) with (String sep b); cbn [cut_at]; by rewrite Ascii.eqb_refl|].
  rewrite contains_cons. intros [Hc Ha]%orb_false_iff. change (String c a +:+ String sep b) with (String c (a +:+ String sep b)).
  cbn [cut_at]. by rewrite Ascii.eqb_sym, Hc, IH.
Qed.

(** No brackets and no colon. *)
Definition plain_text (s : string) : Prop :=
  contains ":" s = false /\ contains "[" s = false /\ contains "]" s = false.

Lemma SplitHost_v4 host port : plain_text host -> plain_text port ->
  SplitHost (host +:+ String ":" port) = Some host.
Proof.
  intros (H1 & H2 & H3) (P1 & P2 & P3). unfold SplitHost. rewrite cut_last_app by done. cbn.
  assert (contains "[" (host +:+ String ":" port) = false /\ contains "]" (host +:+ String ":" port) = false) as [E2 E3].
  { rewrite !contains_app, !contains_cons, H2, H3, P2, P3. done. }
  destruct host as [|c host]; [by rewrite E2, E3|].
  assert (c <> "["%char) as Hc by (intros ->; by rewrite contains_cons in H2).
  destruct c as [[] [] [] [] [] [] [] []]; try (by rewrite H1, E2, E3); done.
Qed.

Lemma SplitHost_v6 host port : contains "[" host = false -> contains "]" host = false -> plain_text port ->
  SplitHost (String "[" (host +:+ String "]" (String ":" port))) = Some host.
Proof.
  intros H2 H3 (P1 & P2 & P3). unfold SplitHost.
  assert (String "[" (host +:+ String "]" (String ":" port)) = String "[" (host +:+ "]") +:+ String ":" port) as ->.
  { clear. change (String "[" ?s +:+ ?t) with (String "[" (s +:+ t)). f_equal.
    induction host as [|c host IH]; [done|]. change (String c ?s +:+ ?t) with (String c (s +:+ t)). by rewrite IH. }
  rewrite cut_last_app by done. cbn. rewrite (cut_at_first "]" host "") by done. cbn.
  by rewrite contains_app, H2, P2, P3.
Qed.
