(* ===== verification/Middleware.v ===== *)
(** * HTTP and gRPC middleware ([ratelimit/middleware/], [circuitbreaker/middleware/])
    and the contexts that carry costs ([ratelimit/ratelimitctx/]).

    A handler is a function from the request and the application's state to the
    calls it makes on its writer; a middleware turns a handler into a handler
    whose state also holds the limiter or the breaker.  The breaker is anything
    with the interface [Executor], of which both breakers are instances. *)

From Stdlib Require Import Floats Ascii.
From S2P Require Import Prelude Float64 Strconv Http Ratelimit StoreMemory CbWindow CbHalfOpen CircuitBreaker CbDistributed FixedWindow Gcra SlidingLog.
Open Scope Z_scope.

(** ** Requests *)

(** What the middleware uses of a context: its deadline, and the cost and the
    priority a request carries. *)
Record context := mkContext { ctx_deadline : option time; ctx_cost : option Z; ctx_priority : option Z }.

Definition DefaultCost : Z := 1.

(** [ratelimitctx.WithCost]. *)
Definition ctx_WithCost (c : context) (cost : Z) : context :=
  let cost := if cost <? 1 then 1 else cost in mkContext (ctx_deadline c) (Some cost) (ctx_priority c).

Definition CostFromContext (c : context) : Z * bool :=
  match ctx_cost c with Some n => (n, true) | None => (0, false) end.

Definition CostOrDefault (c : context) : Z :=
  let '(n, ok) := CostFromContext c in if ok then n else DefaultCost.

Definition WithPriority (c : context) (p : Z) : context := mkContext (ctx_deadline c) (ctx_cost c) (Some p).

Definition PriorityFromContext (c : context) : Z * bool :=
  match ctx_priority c with Some p => (p, true) | None => (0, false) end.

Definition PriorityOrDefault (c : context) (def : Z) : Z :=
  let '(p, ok) := PriorityFromContext c in if ok then p else def.

(** [context.WithTimeout] at [now]. *)
Definition ctx_WithTimeout (c : context) (now : time) (d : duration) : context :=
  let t := time_add now d in
  mkContext (Some (match ctx_deadline c with Some u => if Before u t then u else t | None => t end)) (ctx_cost c) (ctx_priority c).

(** [rq_Query] is [r.URL.Query()]. *)
Record request := mkRequest {
  rq_ctx : context;
  rq_Header : gmap string (list string);
  rq_RemoteAddr : string;
  rq_Query : gmap string (list string);
}.

Definition WithContext (r : request) (c : context) : request := mkRequest c (rq_Header r) (rq_RemoteAddr r) (rq_Query r).

Abbreviation handler H := (request -> H -> program H) (only parsing).

(** Serve one request on a fresh response: outcome, application state, response. *)
Definition respond_to {H} (next : handler H) (r : request) (h : H) : outcome unit * H * response :=
  serve (next r h) new_response.

(** ** Rate limiting over HTTP *)

Definition KeyByIP : request -> string := fun r =>
  let xff := header_Get (rq_Header r) "X-Forwarded-For" in
  if negb (String.length xff =? 0)%nat then TrimSpace (hd "" (split_on ","%char xff ""))
  else
    let xri := header_Get (rq_Header r) "X-Real-IP" in
    if negb (String.length xri =? 0)%nat then xri
    else match SplitHost (rq_RemoteAddr r) with None => rq_RemoteAddr r | Some host => host end.

Definition KeyByHeader (name : string) : request -> string := fun r => header_Get (rq_Header r) name.
Definition KeyByParam (name : string) : request -> string := fun r => first_value (rq_Query r !! name).

(** [ratelimitctx.CostFuncFromContext]. *)
Definition CostFuncFromContext : request -> Z := fun r => CostOrDefault (rq_ctx r).

Section ratelimit_options.
Context {H : Type}.

Record options := mkOptions {
  keyFunc : request -> string;
  costFunc : option (request -> Z);
  onLimited : request -> Result -> H -> program H;
  skipFunc : option (request -> bool);
  errorHandler : option (request -> error -> H -> program H);
}.

Definition Option : Type := options -> options.

Definition WithKeyFunc (fn : request -> string) : Option := fun o =>
  mkOptions fn (costFunc o) (onLimited o) (skipFunc o) (errorHandler o).
Definition WithCost (fn : request -> Z) : Option := fun o =>
  mkOptions (keyFunc o) (Some fn) (onLimited o) (skipFunc o) (errorHandler o).
Definition WithOnLimited (fn : request -> Result -> H -> program H) : Option := fun o =>
  mkOptions (keyFunc o) (costFunc o) fn (skipFunc o) (errorHandler o).
Definition WithSkipFunc (fn : request -> bool) : Option := fun o =>
  mkOptions (keyFunc o) (costFunc o) (onLimited o) (Some fn) (errorHandler o).
Definition WithErrorHandler (fn : request -> error -> H -> program H) : Option := fun o =>
  mkOptions (keyFunc o) (costFunc o) (onLimited o) (skipFunc o) (Some fn).

Definition limited_body (result : Result) : gmap string json_value :=
  let b := {[ "error" := JString "rate_limit_exceeded"; "limit" := JInt (Limit result) ]} in
  if 0 <? RetryAfter result then <["retry_after" := JFloat (Seconds (RetryAfter result))]> b else b.

Definition defaultOnLimited (r : request) (result : Result) (h : H) : program H :=
  set_header "Content-Type" "application/json"
    (set_header "X-RateLimit-Limit" (FormatInt (Limit result))
      (set_header "X-RateLimit-Remaining" "0"
        ((if 0 <? RetryAfter result then set_header "Retry-After" (format_fixed 0 (Seconds (RetryAfter result))) else id)
          (write_header 429 h (Write (Json (limited_body result)) (fun _ => Return h)))))).

Definition default_options : options := mkOptions KeyByIP None defaultOnLimited None None.

Definition apply_options (opts : list Option) : options := foldl (fun o opt => opt o) default_options opts.

(** The cost of a request. *)
Definition request_cost (o : options) (r : request) : Z :=
  match costFunc o with Some f => if 1 <? f r then f r else 1 | None => 1 end.

Definition skipped (o : options) (r : request) : bool := match skipFunc o with Some f => f r | None => false end.

(** The headers of every response that was not skipped; [now] is the reading of the wall clock. *)
Definition set_limit_headers {X} (result : Result) (cost : Z) (now : time) (p : program X) : program X :=
  set_header "X-RateLimit-Limit" (FormatInt (Limit result))
    (set_header "X-RateLimit-Remaining" (FormatInt (Remaining result))
      (set_header "X-RateLimit-Cost" (FormatInt cost)
        ((if 0 <? ResetAfter result
          then set_header "X-RateLimit-Reset" (FormatInt (time_add now (ResetAfter result) / Second)) else id) p))).

(** [Allow] of a limiter is [AllowN] with a cost of one; [t] is the limiter's reading of its clock. *)
Definition RateLimit {S} `{Limiter S} (opts : list Option) (t now : time) (next : handler H) : handler (S * H) := fun r '(s, h) =>
  let o := apply_options opts in
  if skipped o r then map_program (pair s) (next r h)
  else
    let cost := request_cost o r in
    let '(result, s) := lim_AllowN s t (keyFunc o r) cost in
    set_limit_headers result cost now
      (if negb (Allowed result) then map_program (pair s) (onLimited o r result h)
       else map_program (pair s) (next r h)).

End ratelimit_options.
Arguments options : clear implicits. Arguments Option : clear implicits.

(** ** Breakers *)

(** What the middleware relies on ([circuitbreaker.Executor]).  [Execute] is
    given what the function does when it is called and the state of its context
    afterwards; [ex_admits] tells whether it is called, [ex_ctx] the context it
    is given.  [R] are clock readings. *)
Class Executor (E R : Type) := {
  ex_admits : R -> E -> bool;
  ex_ctx : R -> E -> context -> context;
  ex_Execute : R -> fn_result -> option fn_err -> E -> outcome exec_result * E;
}.

Class ExecutorLaws (E R : Type) `{Executor E R} := {
  (* a refusal does not depend on the function *)
  ex_refused : forall rd e, ex_admits rd e = false ->
    exists o e', (forall fn c, ex_Execute rd fn c e = (o, e')) /\ ((exists ce, o = Ok (Rejected ce)) \/ (exists m, o = Panic m));
  (* otherwise the error is that of the function, and its panics go on *)
  ex_completed : forall rd e err c r e', ex_admits rd e = true -> ex_Execute rd (FnReturns err) c e = (Ok r, e') -> r = Completed err;
  ex_panicked : forall rd e m c, ex_admits rd e = true -> exists m', fst (ex_Execute rd (FnPanics m) c e) = Panic m';
}.

(** With the reading of the wall clock that [context.WithTimeout] takes. *)
#[export] Instance breaker_executor : Executor CircuitBreaker (exec_reads * time) := {
  ex_admits rd cb := match fst (beforeExecute (fst rd) cb) with Ok (_, None) => true | _ => false end;
  ex_ctx rd cb c := if 0 <? RequestTimeout (cfg cb) then ctx_WithTimeout c (snd rd) (RequestTimeout (cfg cb)) else c;
  ex_Execute rd := Execute (fst rd);
}.

(** A distributed breaker with its store. *)
Record shared_breaker := mkShared { sb_max : Z; sb_breaker : DistributedCircuitBreaker; sb_store : Memory }.

#[export] Instance distributed_executor : Executor shared_breaker (dist_reads * time) := {
  ex_admits rd s :=
    match fst (acquire (sb_max s) (sb_breaker s) (x_acquire (fst rd)) (sb_store s)) with
    | Some (dec, _, _) => negb ((dec =? 1) || (dec =? 2))
    | None => true
    end;
  ex_ctx rd s c := let d := RequestTimeout (d_cfg (sb_breaker s)) in if 0 <? d then ctx_WithTimeout c (snd rd) d else c;
  ex_Execute rd fn ctxErr s :=
    let '(o, _, m) := dist_Execute (sb_max s) (sb_breaker s) (fst rd) fn ctxErr (sb_store s) in
    (o, mkShared (sb_max s) (sb_breaker s) m);
}.

Record responseRecorder := mkRecorder { statusCode : Z; written : bool }.

Definition newResponseRecorder : responseRecorder := mkRecorder 0 false.

Definition rr_WriteHeader (code : Z) (rr : responseRecorder) : responseRecorder := mkRecorder code true.
Definition rr_Write (rr : responseRecorder) : responseRecorder := if negb (written rr) then mkRecorder 200 true else rr.

(** The handler on a recorder: each call updates the recorder, then goes to the writer below. *)
Fixpoint recorded {X} (rr : responseRecorder) (p : program X) : program (responseRecorder * X) :=
  match p with
  | Return x => Return (rr, x)
  | Panicking m x => Panicking m (rr, x)
  | GetHeader k => GetHeader (fun h => recorded rr (k h))
  | SetHeader h p => SetHeader h (recorded rr p)
  | WriteHeader c k => WriteHeader c (fun o => recorded (rr_WriteHeader c rr) (k o))
  | Write b k => Write b (fun e => recorded (rr_Write rr) (k e))
  end.

Definition unavailable {X} (x : X) : program X :=
  set_header "Content-Type" "application/json"
    (write_header 503 x
      (Write (Json {[ "error" := JString "service_unavailable"; "reason" := JString "circuit_open" ]}) (fun _ => Return x))).

(** The error the closure returns; it wraps nothing. *)
Definition upstream_error (code : Z) : option fn_err :=
  if 500 <=? code then Some (OtherErr ("upstream error: status " +:+ FormatInt code)) else None.

Definition after_Execute {X} (o : outcome exec_result) (x : X) : program X :=
  match o with
  | Panic m => Panicking m x
  | Ok (Rejected e) =>
      if CircuitError_Is e ErrCircuitOpen || CircuitError_Is e ErrTooManyRequests then unavailable x else Return x
  | Ok (Completed _) => Return x
  end.

(** What the closure reports to the breaker. *)
Definition reported (o : outcome unit) (rr : responseRecorder) : fn_result :=
  match o with Ok _ => FnReturns (upstream_error (statusCode rr)) | Panic m => FnPanics m end.

(** [CircuitBreaker] of the middleware; [ctxErr] as in [Execute]. *)
Definition BreakHTTP {E R H} `{Executor E R} (rd : R) (ctxErr : option fn_err) (next : handler H) : handler (E * H) := fun r '(e, h) =>
  let finish fn h := let '(o, e) := ex_Execute rd fn ctxErr e in after_Execute o (e, h) in
  if ex_admits rd e then
    try_with (recorded newResponseRecorder (next (WithContext r (ex_ctx rd e (rq_ctx r))) h))
      (fun '(rr, h) => finish (reported (Ok tt) rr) h)
      (fun m '(rr, h) => finish (reported (Panic m) rr) h)
  else finish (FnReturns None) h.

(** ** gRPC

    The packages [codes], [status] and [metadata] are third-party: their
    functions are parameters.  [E] are errors; [from_circuit] is a
    [*CircuitError] as an error, [to_fn_err] an error as the breaker classifies
    it, [wraps_open] is [errors.Is(err, ErrCircuitOpen)]. *)
Class Grpc (E : Type) := {
  ResourceExhausted : Z; Unavailable : Z; Internal : Z; DataLoss : Z; Unknown : Z;
  status_Error : Z -> string -> E;
  status_FromError : E -> option Z;
  from_circuit : CircuitError -> E;
  to_fn_err : E -> fn_err;
  wraps_open : E -> bool;
}.

(** Documented: a status error has its code, other errors have none; an error of
    the breaker is one of the latter, and wraps its sentinel. *)
Class GrpcLaws (E : Type) `{Grpc E} := {
  codes_distinct : NoDup [ResourceExhausted; Unavailable; Internal; DataLoss; Unknown];
  status_code : forall c m, status_FromError (status_Error c m) = Some c;
  circuit_no_status : forall e, status_FromError (from_circuit e) = None;
  circuit_wraps : forall e, wraps_open (from_circuit e) = CircuitError_Is e ErrCircuitOpen;
}.

(** [incoming] is [metadata.FromIncomingContext]. *)
Definition GRPCKeyByMetadata (incoming : context -> option (string -> list string)) (header : string) : context -> string -> string :=
  fun c _ => match incoming c with Some get => first_value (Some (get header)) | None => "" end.

Definition GRPCKeyByMethod : context -> string -> string := fun _ fullMethod => fullMethod.

Definition GRPCCostFuncFromContext : context -> string -> Z := fun c _ => CostOrDefault c.

Record grpcOptions := mkGrpcOptions {
  g_KeyFunc : option (context -> string -> string);
  g_CostFunc : option (context -> string -> Z);
  g_SkipMethods : list string;
}.

Definition GRPCOption : Type := grpcOptions -> grpcOptions.

Definition GRPCWithKeyFunc (fn : context -> string -> string) : GRPCOption := fun o =>
  mkGrpcOptions (Some fn) (g_CostFunc o) (g_SkipMethods o).
Definition GRPCWithSkipMethods (methods : list string) : GRPCOption := fun o =>
  mkGrpcOptions (g_KeyFunc o) (g_CostFunc o) (g_SkipMethods o ++ methods).
Definition GRPCWithCost (fn : context -> string -> Z) : GRPCOption := fun o =>
  mkGrpcOptions (g_KeyFunc o) (Some fn) (g_SkipMethods o).

Definition grpc_options (opts : list GRPCOption) : grpcOptions := foldl (fun o opt => opt o) (mkGrpcOptions None None []) opts.

Definition grpcCost (fn : option (context -> string -> Z)) (c : context) (fullMethod : string) : Z :=
  match fn with None => 1 | Some f => if 1 <? f c fullMethod then f c fullMethod else 1 end.

Definition grpcAllow {S} `{Limiter S} (s : S) (t : time) (key : string) (cost : Z) : Result * S := lim_AllowN s t key cost.

(** The pairs [grpc.SetHeader] is given. *)
Definition setGRPCRateLimitMetadata (result : Result) (cost : Z) (now : time) : list (string * string) :=
  [("x-ratelimit-limit", FormatInt (Limit result)); ("x-ratelimit-remaining", FormatInt (Remaining result));
   ("x-ratelimit-cost", FormatInt cost)] ++
  (if 0 <? ResetAfter result then [("x-ratelimit-reset", FormatInt (time_add now (ResetAfter result) / Second))] else []).

Section grpc.
Context {E Q P H : Type} `{Grpc E}.

(** A handler: request to response and error; a stream handler has no response ([P] is [unit]). *)
Abbreviation grpc_handler X := (context -> Q -> X -> outcome (option P * option E) * X) (only parsing).

Definition rateLimitedError (result : Result) : E :=
  status_Error ResourceExhausted
    (if 0 <? RetryAfter result
     then "rate limit exceeded, retry after " +:+ format_fixed 2 (Seconds (RetryAfter result)) +:+ "s"
     else "rate limit exceeded").

(** Both interceptors; beside the reply, the metadata set. *)
Definition LimitGRPC {S} `{Limiter S} (opts : list GRPCOption) (t now : time) (fullMethod : string) (handler : grpc_handler H)
    (c : context) (req : Q) (s : S) (h : H) : outcome (option P * option E) * list (string * string) * (S * H) :=
  let o := grpc_options opts in
  if bool_decide (fullMethod ∈ g_SkipMethods o) then
    let '(r, h) := handler c req h in (r, [], (s, h))
  else
    let key := match g_KeyFunc o with Some f => f c fullMethod | None => "" end in
    let cost := grpcCost (g_CostFunc o) c fullMethod in
    let '(result, s) := grpcAllow s t key cost in
    let md := setGRPCRateLimitMetadata result cost now in
    if negb (Allowed result) then (Ok (None, Some (rateLimitedError result)), md, (s, h))
    else let '(r, h) := handler c req h in (r, md, (s, h)).

Definition isCBFailure (err : option E) : bool :=
  match err with
  | None => false
  | Some e =>
      match status_FromError e with
      | None => true
      | Some c => (c =? Internal) || (c =? Unavailable) || (c =? DataLoss) || (c =? Unknown)
      end
  end.

(** What the closure returns to the breaker, and [handlerErr]. *)
Definition closure_error (e : option E) : option E * option E := if isCBFailure e then (e, None) else (None, e).

(** The reply, from the error of [Execute] and what the closure captured. *)
Definition grpc_reply (err handlerErr : option E) (resp : option P) : option P * option E :=
  match err with
  | Some e => (None, Some (if wraps_open e then status_Error Unavailable "service temporarily unavailable: circuit open" else e))
  | None => match handlerErr with Some e => (None, Some e) | None => (resp, None) end
  end.

(** Both interceptors; [stream]: the handler keeps the context of the stream. *)
Definition BreakGRPC {B R} `{Executor B R} (stream : bool) (rd : R) (ctxErr : option fn_err) (handler : grpc_handler H)
    (c : context) (req : Q) (b : B) (h : H) : outcome (option P * option E) * (B * H) :=
  if ex_admits rd b then
    let '(o, h) := handler (if stream then c else ex_ctx rd b c) req h in
    match o with
    | Panic m => let '(o, b) := ex_Execute rd (FnPanics m) ctxErr b in
                 (match o with Panic m => Panic m | Ok _ => Ok (None, None) end, (b, h))
    | Ok (resp, e) =>
        let '(err, handlerErr) := closure_error e in
        let '(o, b) := ex_Execute rd (FnReturns (to_fn_err <$> err)) ctxErr b in
        (match o with
         | Panic m => Panic m
         | Ok (Rejected ce) => Ok (grpc_reply (Some (from_circuit ce)) handlerErr resp)
         | Ok (Completed _) => Ok (grpc_reply err handlerErr resp)
         end, (b, h))
    end
  else
    let '(o, b) := ex_Execute rd (FnReturns None) ctxErr b in
    (match o with
     | Panic m => Panic m
     | Ok (Rejected ce) => Ok (grpc_reply (Some (from_circuit ce)) None None)
     | Ok (Completed _) => Ok (None, None)
     end, (b, h)).

End grpc.

(** ** Both breakers keep the interface *)

Lemma recovered_panics m rd ctxErr acq cb : exists m', fst (recovered m rd ctxErr acq cb) = Panic m'.
Proof. unfold recovered, mbind, M_bind, lift. destruct (afterExecute _ _ _ _ _ _ cb) as [[]]; by eexists. Qed.

#[export] Instance breaker_executor_laws : ExecutorLaws CircuitBreaker (exec_reads * time).
Proof.
  split; cbn [ex_admits ex_Execute breaker_executor].
  - intros [rd t] cb Ha. cbn [fst] in *. unfold Execute, mbind, M_bind. destruct (beforeExecute rd cb) as [[[acq [ce|]]|m] cb1].
    + unfold modify, gets. destruct (call_hook _ _ _) as [[[]|m] cb2];
        do 2 eexists; (split; [by intros|]); [left; by exists ce|right; by exists m].
    + done.
    + do 2 eexists. split; [by intros|]. right. by exists m.
  - intros [rd t] cb err c r cb' Ha. cbn [fst] in *. unfold Execute, mbind, M_bind.
    destruct (beforeExecute rd cb) as [[[acq [ce|]]|m] cb1]; try done.
    destruct (afterExecute _ _ _ _ _ _ cb1) as [[[]|p] cb2]; [by intros [= <- <-]|].
    destruct (recovered_panics p rd c acq cb2) as [m' E]. intros E'. by rewrite E' in E.
  - intros [rd t] cb m c Ha. cbn [fst] in *. unfold Execute, mbind, M_bind.
    destruct (beforeExecute rd cb) as [[[acq [ce|]]|p] cb1]; try done. apply recovered_panics.
Qed.

#[export] Instance distributed_executor_laws : ExecutorLaws shared_breaker (dist_reads * time).
Proof.
  split; cbn [ex_admits ex_Execute distributed_executor].
  - intros [rd t] s Ha. cbn [fst] in *. unfold dist_Execute.
    destruct (acquire _ _ _ _) as [[[[dec st] oAt]|] m1]; [|done]. cbn [fst] in Ha.
    apply negb_false_iff, orb_true_iff in Ha. unfold reject_hook. destruct (dec =? 1) eqn:E1.
    + destruct (OnRejected _) as [[]|]; do 2 eexists; (split; [by intros|]); cbn; (left + right); by eexists.
    + destruct Ha as [|Ha]; [done|]. rewrite Ha.
      destruct (OnRejected _) as [[]|]; do 2 eexists; (split; [by intros|]); cbn; (left + right); by eexists.
  - intros [rd t] s err c r s' Ha. cbn [fst] in *. unfold dist_Execute.
    destruct (acquire _ _ _ _) as [[[[dec st] oAt]|] m1]; cbn [fst] in Ha.
    + apply negb_true_iff, orb_false_iff in Ha as [-> ->]. unfold record_call. destruct (classify _ _ _); [|done].
      destruct (dist_recordOutcome _ _ _ _ _) as [[[[]|] ?] ?]; cbn; by intros [= <- <-].
    + unfold record_call. destruct (classify _ _ _); [|done].
      destruct (dist_recordOutcome _ _ _ _ _) as [[[[]|] ?] ?]; cbn; by intros [= <- <-].
  - intros [rd t] s m c Ha. cbn [fst] in *. unfold dist_Execute.
    destruct (acquire _ _ _ _) as [[[[dec st] oAt]|] m1]; cbn [fst] in Ha; [|by eexists].
    apply negb_true_iff, orb_false_iff in Ha as [-> ->]. by eexists.
Qed.

(** ** The recorder *)

(** What the recorder has seen when a run ends: the handler's calls reach the writer as they are. *)
Lemma recorded_transparent {X W} `{ResponseWriter W} (p : program X) rr w :
  exists rr', serve (recorded rr p) w = (let '(o, x, w) := serve p w in (o, (rr', x), w)).
Proof.
  revert rr w. induction p as [x|m x|k IH|h p IH|c k IH|b k IH]; intros rr w; cbn; eauto.
  - destruct (rw_WriteHeader c w). apply IH.
  - destruct (rw_Write b w). apply IH.
Qed.

(** The handler sends valid codes, and no header once the response has begun. *)
Fixpoint sends_once {X} (p : program X) (w : response) : Prop :=
  match p with
  | Return _ | Panicking _ _ => True
  | GetHeader k => sends_once (k (rw_Header w)) w
  | SetHeader h p => sends_once p (rw_SetHeader h w)
  | WriteHeader c k => sent w = None /\ 100 <= c <= 999 /\ sends_once (k (fst (rw_WriteHeader c w))) (snd (rw_WriteHeader c w))
  | Write b k => sends_once (k (fst (rw_Write b w))) (snd (rw_Write b w))
  end.

(** The recorder and the response agree on whether the status is a failure. *)
Definition agrees (rr : responseRecorder) (w : response) : Prop :=
  match sent w with
  | Some (c, _) => written rr = true /\ (500 <=? statusCode rr) = (500 <=? c)
  | None => statusCode rr < 500
  end.

Lemma agrees_header c w rr : sent w = None -> 100 <= c <= 999 -> agrees (rr_WriteHeader c rr) (snd (send_header c w)).
Proof.
  intros Hs Hc. unfold send_header. rewrite Hs, (proj2 (Z.ltb_ge c 100)), (proj2 (Z.ltb_ge 999 c)) by lia. cbn [orb].
  unfold agrees. destruct (Z.leb_spec c 199), (Z.eqb_spec c 101); cbn; try done. lia.
Qed.

Lemma send_body_sent b w : sent (snd (send_body b w)) = sent (snd (send_header 200 w)).
Proof.
  unfold send_body. destruct (empty_chunk b); [done|]. destruct (negb _); [done|].
  by destruct (conn (snd (send_header 200 w))) as [|[]].
Qed.

Lemma agrees_body b w rr : agrees rr w -> agrees (rr_Write rr) (snd (send_body b w)).
Proof.
  unfold agrees. rewrite send_body_sent. unfold send_header, rr_Write. destruct (sent w) as [[c h]|] eqn:Es; cbn.
  - rewrite Es. intros [Hw Hc]. by rewrite Hw.
  - intros Hr. destruct (written rr) eqn:Ew; cbn; [|done]. split; [done|]. destruct (Z.leb_spec 500 (statusCode rr)); [lia|done].
Qed.

Lemma recorder_agrees {X} (p : program X) rr w : sends_once p w -> agrees rr w ->
  let '(_, (rr', _), w') := serve (recorded rr p) w in agrees rr' w'.
Proof.
  revert rr w. induction p as [x|m x|k IH|h p IH|c k IH|b k IH]; intros rr w; cbn -[send_header send_body]; try done.
  - intros Hp Hr. by apply IH.
  - intros Hp Hr. by apply IH.
  - intros (Hs & Hc & Hp) Hr. pose proof (agrees_header c w rr Hs Hc) as Ha. destruct (send_header c w) as [o w']. by apply IH.
  - intros Hp Hr. pose proof (agrees_body b w rr Hr) as Ha. destruct (send_body b w) as [e w']. by apply IH.
Qed.

Lemma agrees_status rr w : agrees rr w -> (500 <=? statusCode rr) = (500 <=? status w).
Proof.
  unfold agrees, status, finish, send_header. destruct (sent w) as [[c h]|] eqn:Es; cbn; [rewrite ?Es; by intros []|].
  intros Hr. destruct (Z.leb_spec 500 (statusCode rr)); [lia|done].
Qed.

(** ** The circuit breaker over HTTP *)

Section break_http.
Context {E R H : Type} `{ExecutorLaws E R}.

(** The request the handler is given. *)
Definition guarded (rd : R) (e : E) (r : request) : request := WithContext r (ex_ctx rd e (rq_ctx r)).

(** The response to a refused request. *)
Definition refusal (w : response) : Prop :=
  status w = 503 /\ header_Get (handlerHeader w) "Content-Type" = "application/json" /\
  body w = [Json {[ "error" := JString "service_unavailable"; "reason" := JString "circuit_open" ]}].

Lemma serve_unavailable {X} (x : X) : exists w, serve (unavailable x) new_response = (Ok tt, x, w) /\ refusal w.
Proof. eexists. split; [reflexivity|]. by split_and!. Qed.

(** A request the breaker refuses does not reach the application: the client
    gets 503 with a JSON body.  To any other request the client gets the response
    the handler gives without the middleware, the application ends in the same
    state, and the breaker is told once what happened: that the handler panicked,
    succeeded or failed; for a handler that sends its status once it failed
    exactly if the client's status is 500 or more. *)
Theorem break_http_spec (rd : R) (ctxErr : option fn_err) (next : request -> H -> program H) r e h o' e' h' w' :
  respond_to (BreakHTTP rd ctxErr next) r (e, h) = (o', (e', h'), w') ->
  if ex_admits rd e then
    exists o fn, respond_to next (guarded rd e r) h = (o, h', w') /\ e' = snd (ex_Execute rd fn ctxErr e) /\
      match o with
      | Panic m => fn = FnPanics m /\ exists m', o' = Panic m'
      | Ok _ => exists err, fn = FnReturns err /\
          (o' = Ok tt \/ exists m, o' = Panic m /\ fst (ex_Execute rd fn ctxErr e) = Panic m) /\
          (sends_once (next (guarded rd e r) h) new_response -> bool_decide (is_Some err) = (500 <=? status w'))
      end
  else h' = h /\ (forall fn c, snd (ex_Execute rd fn c e) = e') /\
    (o' = Ok tt /\ refusal w' \/ (exists m, o' = Panic m) /\ w' = new_response).
Proof.
  unfold respond_to, BreakHTTP. destruct (ex_admits rd e) eqn:Ha.
  - rewrite serve_try. fold (guarded rd e r). set (p := next (guarded rd e r) h).
    destruct (recorded_transparent p newResponseRecorder new_response) as [rr Er].
    pose proof (recorder_agrees p newResponseRecorder new_response) as Hag.
    rewrite Er in *. destruct (serve p new_response) as [[[[]|m] h1] w1].
    + destruct (ex_Execute rd (FnReturns (upstream_error (statusCode rr))) ctxErr e) as [o e1] eqn:Ee.
      cbn [reported]. rewrite Ee. intros Hs.
      exists (Ok tt), (FnReturns (upstream_error (statusCode rr))). rewrite Ee.
      assert (forall r, o = Ok r -> r = Completed (upstream_error (statusCode rr))) as Hc.
      { intros x ->. by eapply ex_completed. }
      assert (e' = e1 /\ h' = h1 /\ w' = w1 /\ (o' = Ok tt \/ exists m, o' = Panic m /\ o = Panic m)) as (-> & -> & -> & Ho).
      { destruct o as [x|m]; [rewrite (Hc x) in Hs by done|]; cbn in Hs; simplify_eq; split_and!; eauto. }
      split_and!; [done..|]. eexists. split_and!; [done..|]. intros Hp. rewrite <- (agrees_status rr) by by apply Hag.
      unfold upstream_error. destruct (500 <=? statusCode rr); [by rewrite bool_decide_true by by eexists|].
      by rewrite bool_decide_false by by intros [].
    + destruct (ex_panicked rd e m ctxErr Ha) as [m' Em]. cbn [reported].
      destruct (ex_Execute rd (FnPanics m) ctxErr e) as [o e1] eqn:Ee. cbn in Em. subst o. cbn. intros Hs. simplify_eq.
      exists (Panic m), (FnPanics m). rewrite Ee. eauto.
  - destruct (ex_refused rd e Ha) as (o & e1 & Heq & Ho). rewrite Heq.
    destruct Ho as [[ce ->]|[m ->]]; cbn [after_Execute].
    + assert (CircuitError_Is ce ErrCircuitOpen || CircuitError_Is ce ErrTooManyRequests = true) as -> by (destruct ce as [? ? ? []]; done).
      destruct (serve_unavailable (e1, h)) as (w & Ew & Hw). rewrite Ew. intros Hs. simplify_eq.
      split_and!; [done|intros fn c; by rewrite Heq|by left].
    + intros Hs. cbn in Hs. simplify_eq. split_and!; [done|intros fn c; by rewrite Heq|right; eauto].
Qed.

End break_http.

(** *** Witnesses *)

Definition any_request : request := mkRequest (mkContext None None None) ∅ "10.0.0.1:4711" ∅.

Definition answers (code : Z) : request -> Z -> program Z := fun _ served =>
  write_header code served (Write (Bytes "body") (fun _ => Return (served + 1))).

(** A breaker that opens at its first failure. *)
Definition fragile : CircuitBreaker :=
  CircuitBreaker.New (mkConfig "b" CountBased 1 1 0 0 0%float 0 Second 1 1 None 0 None None None None None) 0.

Definition at_time (t : time) : exec_reads * time := (exec_reads_at t, t).

Definition tripped : CircuitBreaker := snd (ex_Execute (at_time 1) (FnReturns (Some (OtherErr "down"))) None fragile).

(** One request that fails and opens the breaker, and one that is refused. *)
Lemma break_http_spec_witness :
  (ex_admits (at_time 1) fragile = true /\
   let '(o, (e, served), w) := respond_to (BreakHTTP (at_time 1) None (answers 503)) any_request (fragile, 0) in
   o = Ok tt /\ state e = StateOpen /\ served = 1 /\ (exists o, respond_to (answers 503) any_request 0 = (o, served, w))) /\
  (ex_admits (at_time 2) tripped = false /\
   let '(_, (_, served), w) := respond_to (BreakHTTP (at_time 2) None (answers 200)) any_request (tripped, 0) in
   served = 0 /\ refusal w).
Proof.
  split; (split; [vm_compute; reflexivity|]).
  - assert ((let '(o, (e, served), w) := respond_to (BreakHTTP (at_time 1) None (answers 503)) any_request (fragile, 0) in
      (match o with Ok _ => true | _ => false end, state e, served)) = (true, StateOpen, 1)) as Hv by (vm_compute; reflexivity).
    destruct (respond_to (BreakHTTP (at_time 1) None (answers 503)) any_request (fragile, 0)) as [[o [e served]] w] eqn:Er.
    pose proof (break_http_spec _ _ _ _ _ _ _ _ _ _ Er) as H. change (ex_admits (at_time 1) fragile) with true in H. cbv iota in H.
    destruct H as (o1 & fn & H1 & _). destruct o as [[]|]; [|done]. injection Hv as Hst Hsv. eauto.
  - assert ((let '(o, _, _) := respond_to (BreakHTTP (at_time 2) None (answers 200)) any_request (tripped, 0) in
      match o with Ok _ => true | _ => false end) = true) as Hv by (vm_compute; reflexivity).
    destruct (respond_to (BreakHTTP (at_time 2) None (answers 200)) any_request (tripped, 0)) as [[o [e served]] w] eqn:Er.
    pose proof (break_http_spec _ _ _ _ _ _ _ _ _ _ Er) as H. change (ex_admits (at_time 2) tripped) with false in H. cbv iota in H.
    destruct H as (-> & _ & [[_ Hw]|[[m ->] _]]); done.
Defined.

(** *** The status of a response that has begun *)

(** [http.Error] after part of the body was sent: the client's status is 200,
    and the breaker opens. *)
Definition late_error : request -> unit -> program unit := fun _ h =>
  Write (Bytes "partial") (fun _ => write_header 500 h (Write (Bytes "failed") (fun _ => Return h))).

(** A second status after 500: the client's status is 500, and the breaker has seen a success. *)
Definition late_success : request -> unit -> program unit := fun _ h => write_header 500 h (write_header 200 h (Return h)).

(** The recorder keeps the last status that was set, the server sends the first. *)
Theorem superfluous_status_misleads :
  (let '(_, (e, _), w) := respond_to (BreakHTTP (at_time 1) None late_error) any_request (fragile, tt) in
   status w = 200 /\ state e = StateOpen) /\
  (let '(_, (e, _), w) := respond_to (BreakHTTP (at_time 1) None late_success) any_request (fragile, tt) in
   status w = 500 /\ state e = StateClosed).
Proof. vm_compute. by split_and!. Qed.

(** ** Rate limiting over HTTP: which requests reach the application *)

(** A request with the readings of the limiter's clock and of the wall clock. *)
Record arrival := mkArrival { ar_request : request; ar_t : time; ar_now : time }.

(** A limiter's decisions along a history. *)
Definition lim_exec {S} `{Limiter S} (s : S) (o : op) : S * option admission :=
  match o with
  | OpAllow rd k n =>
      let '(r, s) := lim_AllowN s (r_now rd) k n in (s, if Allowed r then Some (mkAdmission k (r_now rd) n) else None)
  | _ => (s, None)
  end.

Section limit_http.
Context {S H : Type} `{Limiter S} (opts : list (Option (list request * H))) (next : request -> H -> program H).
Let o := apply_options opts.

(** The application, keeping the list of the requests it was given. *)
Definition logging : request -> list request * H -> program (list request * H) := fun r '(l, h) =>
  map_program (fun h => (l ++ [r], h)) (next r h).

(** The handler of refused requests leaves the application alone. *)
Definition refuses_quietly : Prop := forall r res h (w : response), snd (fst (serve (onLimited o r res h) w)) = h.

Fixpoint serve_all (s : S) (h : list request * H) (l : list arrival) : S * (list request * H) :=
  match l with
  | [] => (s, h)
  | a :: l =>
      let '(_, (s, h), _) := respond_to (RateLimit opts (ar_t a) (ar_now a) logging) (ar_request a) (s, h) in
      serve_all s h l
  end.

(** The decision a request asks for. *)
Definition decision_of (a : arrival) : op := OpAllow (reads_at (ar_t a)) (keyFunc o (ar_request a)) (request_cost o (ar_request a)).

Definition charge_of (r : request) : string * Z := (keyFunc o r, request_cost o r).

Lemma serve_headers {X} result cost now (p : program X) (w : response) :
  exists w', serve (set_limit_headers result cost now p) w = serve p w'.
Proof. unfold set_limit_headers. destruct (0 <? ResetAfter result); eexists; reflexivity. Qed.

(** One request: the limiter decides, and the application sees the request if it was granted. *)
Lemma serve_one s l h a : refuses_quietly -> skipFunc o = None ->
  let '(_, (s', (l', _)), _) := respond_to (RateLimit opts (ar_t a) (ar_now a) logging) (ar_request a) (s, (l, h)) in
  s' = fst (lim_exec s (decision_of a)) /\
  l' = l ++ match snd (lim_exec s (decision_of a)) with Some _ => [ar_request a] | None => [] end.
Proof.
  intros Hq Hs. unfold respond_to, RateLimit, skipped, decision_of, lim_exec. fold o. rewrite Hs. cbn [r_now reads_at].
  destruct (lim_AllowN s (ar_t a) (keyFunc o (ar_request a)) (request_cost o (ar_request a))) as [res s'].
  destruct (serve_headers res (request_cost o (ar_request a)) (ar_now a)
    (if negb (Allowed res) then map_program (pair s') (onLimited o (ar_request a) res (l, h))
     else map_program (pair s') (logging (ar_request a) (l, h))) new_response) as [w ->].
  destruct (Allowed res); cbn [negb]; rewrite serve_map.
  - unfold logging. rewrite serve_map. by destruct (serve (next (ar_request a) h) w) as [[? ?] ?].
  - pose proof (Hq (ar_request a) res (l, h) w) as Hh. destruct (serve _ w) as [[? hh] ?]. cbn in Hh. subst hh. by rewrite app_nil_r.
Qed.

(** Without skipping, the requests that reach the application are, in order and
    with their keys and costs, exactly the admissions of the limiter along the
    history of its decisions: what is shown of a limiter's admissions is true
    of the requests an application behind the middleware handles. *)
Theorem limit_http_history s l h arrivals : refuses_quietly -> skipFunc o = None ->
  let '(s', (l', _)) := serve_all s (l, h) arrivals in
  exists new, l' = l ++ new /\ s' = fst (Ratelimit.run lim_exec s (map decision_of arrivals)) /\
    map charge_of new = map (fun a => (a_key a, a_n a)) (snd (Ratelimit.run lim_exec s (map decision_of arrivals))).
Proof.
  intros Hq Hs. revert s l h. induction arrivals as [|a arrivals IH]; intros s l h; cbn [serve_all map Ratelimit.run].
  - exists []. by rewrite app_nil_r.
  - pose proof (serve_one s l h a Hq Hs) as H1. destruct (respond_to _ _ _) as [[? [s1 [l1 h1]]] ?]. destruct H1 as [-> ->].
    specialize (IH (fst (lim_exec s (decision_of a))) (l ++ match snd (lim_exec s (decision_of a)) with Some _ => [ar_request a] | None => [] end) h1).
    destruct (serve_all _ _ _) as [s2 [l2 h2]]. destruct IH as (new & -> & -> & Hn).
    destruct (lim_exec s (decision_of a)) as [s1 adm] eqn:E1. cbn [fst snd] in *.
    destruct (Ratelimit.run lim_exec s1 _) as [s3 l3]. cbn [fst snd] in *.
    eexists. rewrite <- app_assoc. split; [done|]. split; [done|]. rewrite map_app, Hn. clear -E1.
    unfold lim_exec, decision_of in E1. cbn [r_now reads_at] in E1.
    destruct (lim_AllowN _ _ _ _) as [res ?]. destruct (Allowed res); by simplify_eq/=.
Qed.

End limit_http.

(** *** The default answer *)

Lemma default_refuses_quietly {X} (r : request) res (h : X) (w : response) :
  serve (defaultOnLimited r res h) w =
    (Ok tt, h, snd (serve (defaultOnLimited r res tt) w)).
Proof.
  unfold defaultOnLimited, write_header. destruct (0 <? RetryAfter res); cbn [id];
    rewrite !serve_set_header; cbn -[send_header send_body header_Set];
    unfold send_header; cbn [sent]; destruct (sent w) as [[]|]; cbn; by repeat (case_match; cbn; simplify_eq).
Qed.

Lemma default_quiet {H} : refuses_quietly (H := H) [].
Proof.
  intros r res h w. change (onLimited (apply_options []) r res h) with (defaultOnLimited r res h).
  by rewrite default_refuses_quietly.
Qed.

(** A refused request with the default options: the client gets 429 with the
    limit, nothing remaining, the cost, and the wait exactly if the limiter gave
    one; the application is left alone. *)
Theorem limit_http_refusal {S H} `{Limiter S} (next : request -> H -> program H) t now r s h res s' :
  lim_AllowN s t (KeyByIP r) 1 = (res, s') -> Allowed res = false ->
  exists w hd, respond_to (RateLimit [] t now next) r (s, h) = (Ok tt, (s', h), w) /\
    sent w = Some (429, hd) /\ body w = [Json (limited_body res)] /\
    header_Get hd "X-RateLimit-Limit" = FormatInt (Limit res) /\ header_Get hd "X-RateLimit-Remaining" = "0" /\
    header_Get hd "X-RateLimit-Cost" = "1" /\
    header_Get hd "Retry-After" = (if 0 <? RetryAfter res then format_fixed 0 (Seconds (RetryAfter res)) else "") /\
    header_Get hd "X-RateLimit-Reset" = (if 0 <? ResetAfter res then FormatInt (time_add now (ResetAfter res) / Second) else "").
Proof.
  intros Hr Ha. unfold respond_to, RateLimit. cbn [apply_options foldl default_options skipped skipFunc request_cost costFunc keyFunc onLimited].
  rewrite Hr, Ha. cbn [negb]. unfold set_limit_headers, defaultOnLimited.
  destruct (0 <? ResetAfter res), (0 <? RetryAfter res); do 2 eexists;
    (split; [cbn -[header_Set FormatInt format_fixed Seconds time_add]; reflexivity|]);
    (split; [reflexivity|]; split; [reflexivity|]; split_and!; headers; reflexivity).
Qed.

(** *** Witnesses *)

Definition one_per_second : FixedWindowCounter := mkFW 1 Second 0 ∅ false false.

Definition from (addr : string) : request := mkRequest (mkContext None None None) ∅ addr ∅.

(** Two requests of one host from different ports, and one of another host. *)
Definition three_arrivals : list arrival :=
  [mkArrival (from "10.0.0.1:1") 0 0; mkArrival (from "10.0.0.1:2") 5 5; mkArrival (from "[::1]:9") 7 7].

Lemma limit_http_history_witness :
  let '(s, (l, served)) := serve_all [] (answers 200) one_per_second ([], 0) three_arrivals in
  map rq_RemoteAddr l = ["10.0.0.1:1"; "[::1]:9"] /\ served = 2 /\
  s = fst (Ratelimit.run lim_exec one_per_second (map (decision_of (H := Z) []) three_arrivals)).
Proof.
  pose proof (limit_http_history [] (answers 200) one_per_second [] 0 three_arrivals) as H.
  assert (let '(_, (l, h)) := serve_all [] (answers 200) one_per_second ([], 0) three_arrivals in
    (map rq_RemoteAddr l, h) = (["10.0.0.1:1"; "[::1]:9"], 2)) as Hv by (vm_compute; reflexivity).
  destruct (serve_all _ _ _ _ _) as [s [l h]]. injection Hv as Hl Hh.
  destruct H as (new & _ & Hs & _); [apply default_quiet|done|]. by split_and!.
Defined.

Definition used_up : FixedWindowCounter := snd (lim_AllowN one_per_second 0 "10.0.0.1" 1).

Lemma limit_http_refusal_witness :
  exists w hd, respond_to (RateLimit [] 5 5 (answers 200)) (from "10.0.0.1:2") (used_up, 0) =
      (Ok tt, (snd (lim_AllowN used_up 5 "10.0.0.1" 1), 0), w) /\
    sent w = Some (429, hd) /\ header_Get hd "Retry-After" = "1".
Proof.
  destruct (limit_http_refusal (answers 200) 5 5 (from "10.0.0.1:2") used_up 0
    (fst (lim_AllowN used_up 5 "10.0.0.1" 1)) (snd (lim_AllowN used_up 5 "10.0.0.1" 1))) as (w & hd & H1 & H2 & _ & _ & _ & _ & H3 & _).
  - vm_compute. reflexivity.
  - vm_compute. reflexivity.
  - exists w, hd. split_and!; [exact H1|exact H2|]. rewrite H3. vm_compute. reflexivity.
Defined.

(** *** The wait is rounded to seconds *)

(** With 400 ms to wait the client is told to retry after 0 seconds, and a retry
    300 ms later is refused again. *)
Theorem retry_after_too_early :
  let t := 600 * Millisecond in
  let '(res, s) := lim_AllowN used_up t "10.0.0.1" 1 in
  RetryAfter res = 400 * Millisecond /\ format_fixed 0 (Seconds (RetryAfter res)) = "0" /\
  Allowed (fst (lim_AllowN s (t + 300 * Millisecond) "10.0.0.1" 1)) = false.
Proof. vm_compute. by split_and!. Qed.

(** *** Keys and costs *)

(** Without forwarding headers the key is the host of the remote address, whatever the port. *)
Theorem KeyByIP_host r host port : header_Get (rq_Header r) "X-Forwarded-For" = "" -> header_Get (rq_Header r) "X-Real-IP" = "" ->
  plain_text port ->
  (plain_text host /\ rq_RemoteAddr r = host +:+ String ":" port \/
   contains "[" host = false /\ contains "]" host = false /\ rq_RemoteAddr r = String "[" (host +:+ String "]" (String ":" port))) ->
  KeyByIP r = host.
Proof.
  intros H1 H2 Hp Hr. unfold KeyByIP. rewrite H1, H2. cbn [String.length Nat.eqb negb].
  destruct Hr as [[Hh ->]|(Ho & Hc & ->)]; [by rewrite SplitHost_v4|by rewrite SplitHost_v6].
Qed.

Lemma KeyByIP_host_witness : KeyByIP (from "10.0.0.1:4711") = "10.0.0.1" /\ KeyByIP (from "[::1]:80") = "::1".
Proof.
  split.
  - apply (KeyByIP_host (from "10.0.0.1:4711") "10.0.0.1" "4711"); try reflexivity; [by split_and!|left; by split_and!].
  - apply (KeyByIP_host (from "[::1]:80") "::1" "80"); try reflexivity; [by split_and!|right; by split_and!].
Defined.

(** Every request costs at least one, whatever the cost functions and contexts. *)
Lemma costs_positive {H} (o : options H) r fn c fullMethod p :
  1 <= request_cost o r /\ 1 <= grpcCost fn c fullMethod /\ 1 <= CostOrDefault (ctx_WithCost c p).
Proof.
  unfold request_cost, grpcCost, CostOrDefault, ctx_WithCost. cbn.
  split_and!; [destruct (costFunc o)|destruct fn|]; repeat case_cmp; lia.
Qed.

(** ** gRPC *)

(** The limiter refuses the empty key, as every limiter of the package does. *)
Definition refuses_empty_key (S : Type) `{Limiter S} : Prop := forall s t n, Allowed (fst (lim_AllowN s t "" n)) = false.

Lemma fw_refuses_empty_key : refuses_empty_key FixedWindowCounter.
Proof. intros s t n. cbn [lim_AllowN fw_limiter]. by rewrite (proj2 (FixedWindow.AllowN_state _ _ _ _)). Qed.

Lemma gcra_refuses_empty_key : refuses_empty_key GCRA.
Proof. by intros s t n. Qed.

Lemma slog_refuses_empty_key : refuses_empty_key SlidingWindowLog.
Proof. intros s t n. cbn. by destruct (n =? 1). Qed.

Section grpc_facts.
Context {E Q P H : Type} `{GrpcLaws E}.

(** Without a key function the interceptors use the empty key, which is no key:
    every call that is not skipped fails with [ResourceExhausted] and never
    reaches its handler, whatever the limit. *)
Theorem grpc_default_key_refuses_all {S} `{Limiter S} opts t now fullMethod
    (handler : context -> Q -> H -> outcome (option P * option E) * H) c req s h :
  refuses_empty_key S -> g_KeyFunc (grpc_options opts) = None -> fullMethod ∉ g_SkipMethods (grpc_options opts) ->
  exists e md s', LimitGRPC opts t now fullMethod handler c req s h = (Ok (None, Some e), md, (s', h)) /\
    status_FromError e = Some ResourceExhausted.
Proof.
  intros Hk Hf Hm. unfold LimitGRPC, grpcAllow. rewrite bool_decide_false, Hf by done.
  specialize (Hk s t (grpcCost (g_CostFunc (grpc_options opts)) c fullMethod)).
  destruct (lim_AllowN s t "" _) as [res s']. cbn [fst] in Hk. rewrite Hk. cbn [negb].
  do 3 eexists. split; [done|]. unfold rateLimitedError. apply status_code.
Qed.

(** The error is that of a client: a status with a code that does not count. *)
Definition client_error (e : E) : Prop :=
  exists c, status_FromError e = Some c /\ c ∉ [Internal; Unavailable; DataLoss; Unknown].

Lemma isCBFailure_client e : client_error e <-> isCBFailure (Some e) = false.
Proof.
  unfold client_error, isCBFailure. destruct (status_FromError e) as [c|]; [|naive_solver].
  rewrite !orb_false_iff, !Z.eqb_neq. split.
  - intros (c' & [= ->] & Hc). rewrite !not_elem_of_cons in Hc. naive_solver.
  - intros Hc. exists c. split; [done|]. rewrite !not_elem_of_cons. split_and!; try tauto. apply not_elem_of_nil.
Qed.

(** A call the breaker refuses does not reach its handler: an open breaker gives
    [Unavailable], one that has its probes out an error without a status.  Any
    other call reaches its handler; a response or a client error goes through as
    it is, and the breaker is told of a success; any other error goes through
    unless it wraps [ErrCircuitOpen], and the breaker is told of it. *)
Theorem break_grpc_spec {B R} `{ExecutorLaws B R} stream (rd : R) ctxErr
    (handler : context -> Q -> H -> outcome (option P * option E) * H) c req b h reply b' h' :
  BreakGRPC stream rd ctxErr handler c req b h = (Ok reply, (b', h')) ->
  if ex_admits rd b then
    exists resp e, handler (if stream then c else ex_ctx rd b c) req h = (Ok (resp, e), h') /\
      match e with
      | None => reply = (resp, None) /\ b' = snd (ex_Execute rd (FnReturns None) ctxErr b)
      | Some e =>
          (client_error e -> reply = (None, Some e) /\ b' = snd (ex_Execute rd (FnReturns None) ctxErr b)) /\
          (~ client_error e -> b' = snd (ex_Execute rd (FnReturns (Some (to_fn_err e))) ctxErr b) /\
             (wraps_open e = false -> reply = (None, Some e)))
      end
  else h' = h /\ exists ce, (forall fn c, ex_Execute rd fn c b = (Ok (Rejected ce), b')) /\
    exists e, reply = (None, Some e) /\
      status_FromError e = (if CircuitError_Is ce ErrCircuitOpen then Some Unavailable else None).
Proof.
  unfold BreakGRPC. destruct (ex_admits rd b) eqn:Ha.
  - destruct (handler (if stream then c else ex_ctx rd b c) req h) as [[[resp e]|m] h1].
    + assert (forall err, match fst (ex_Execute rd (FnReturns err) ctxErr b) with Ok r => r = Completed err | Panic _ => True end) as Hc.
      { intros err. destruct (ex_Execute rd (FnReturns err) ctxErr b) as [[r|m] b1] eqn:Ee; [|done]. by eapply ex_completed. }
      unfold closure_error. destruct (isCBFailure e) eqn:Ef.
      * destruct e as [e|]; [|done]. specialize (Hc (Some (to_fn_err e))). cbn [fmap option_fmap option_map].
        destruct (ex_Execute rd (FnReturns (Some (to_fn_err e))) ctxErr b) as [[r|m] b1] eqn:Ee; [|done].
        cbn in Hc. subst r. intros [= <- <- <-]. exists resp, (Some e). split; [done|]. split.
        { intros He%isCBFailure_client. congruence. }
        intros _. rewrite Ee. split; [done|]. intros Hw. unfold grpc_reply. by rewrite Hw.
      * specialize (Hc None). cbn [fmap option_fmap option_map].
        destruct (ex_Execute rd (FnReturns None) ctxErr b) as [[r|m] b1] eqn:Ee; [|done].
        cbn in Hc. subst r. intros [= <- <- <-]. exists resp, e. split; [done|]. destruct e as [e|]; [|by rewrite ?Ee].
        split; [by rewrite ?Ee|]. intros Hn. by apply isCBFailure_client in Ef.
    + destruct (ex_panicked rd b m ctxErr Ha) as [m' Em]. destruct (ex_Execute rd (FnPanics m) ctxErr b) as [o b1].
      cbn in Em. by subst o.
  - destruct (ex_refused rd b Ha) as (o & b1 & Heq & Ho). rewrite Heq. destruct Ho as [[ce ->]|[m ->]]; [|done].
    intros [= <- <- <-]. split; [done|]. exists ce. split; [by intros; rewrite Heq|]. unfold grpc_reply. rewrite circuit_wraps.
    destruct (CircuitError_Is ce ErrCircuitOpen); eexists; split; [done|apply status_code|done|apply circuit_no_status].
Qed.

End grpc_facts.

(** *** Witnesses *)

(** Errors as the breaker's or statuses, with the numbers of the gRPC specification. *)
#[local] Instance spec_grpc : Grpc (CircuitError + Z * string) := {
  ResourceExhausted := 8; Unavailable := 14; Internal := 13; DataLoss := 15; Unknown := 2;
  status_Error c m := inr (c, m);
  status_FromError e := match e with inr (c, _) => Some c | inl _ => None end;
  from_circuit := inl;
  to_fn_err e := OtherErr (match e with inr (_, m) => m | inl ce => ce_Name ce end);
  wraps_open e := match e with inl ce => CircuitError_Is ce ErrCircuitOpen | inr _ => false end;
}.

#[local] Instance spec_grpc_laws : GrpcLaws (CircuitError + Z * string).
Proof. split; [|done..]. by apply (bool_decide_unpack _). Qed.

Abbreviation grpc_error := (CircuitError + Z * string)%type (only parsing).

(** Counts its calls and gives the error, if any. *)
Definition rpc (e : option grpc_error) : context -> unit -> Z -> outcome (option string * option grpc_error) * Z :=
  fun _ _ n => (Ok (if e then None else Some "response", e), n + 1).

Definition no_context : context := mkContext None None None.

Lemma grpc_default_key_refuses_all_witness :
  exists e md s', LimitGRPC [] 5 5 "/svc/Get" (rpc None) no_context tt one_per_second 0 = (Ok (None, Some e), md, (s', 0)) /\
    status_FromError e = Some 8.
Proof.
  exact (grpc_default_key_refuses_all [] 5 5 "/svc/Get" (rpc None) no_context tt one_per_second 0
    fw_refuses_empty_key eq_refl (not_elem_of_nil _)).
Defined.

(** [NotFound] goes through and leaves the breaker closed; [Internal] opens it;
    the next call is refused with [Unavailable]. *)
Lemma break_grpc_spec_witness :
  let call rd e cb := BreakGRPC false rd None (rpc e) no_context tt cb 0 in
  (exists cb, call (at_time 1) (Some (inr (5, "not found"))) fragile = (Ok (None, Some (inr (5, "not found"))), (cb, 1)) /\ state cb = StateClosed) /\
  (exists cb, call (at_time 1) (Some (inr (13, "internal"))) fragile = (Ok (None, Some (inr (13, "internal"))), (cb, 1)) /\ state cb = StateOpen) /\
  (exists cb e, call (at_time 2) None tripped = (Ok (None, Some e), (cb, 0)) /\ status_FromError e = Some 14).
Proof.
  cbv zeta. split_and!.
  - assert (let '(o, (cb, _)) := BreakGRPC false (at_time 1) None (rpc (Some (inr (5, "not found")))) no_context tt fragile 0 in
      (match o with Ok _ => true | _ => false end, state cb) = (true, StateClosed)) as Hv by (vm_compute; reflexivity).
    destruct (BreakGRPC _ _ _ _ _ _ _ _) as [o [cb h]] eqn:Eb. injection Hv as Ho Hst. destruct o as [reply|]; [|done].
    pose proof (break_grpc_spec (E := grpc_error) _ _ _ _ _ _ _ _ _ _ _ Eb) as H.
    change (ex_admits (at_time 1) fragile) with true in H. cbv iota in H. destruct H as (resp & e & Hh & He).
    injection Hh as <- <- <-. exists cb. split; [|done]. destruct He as [He _]. destruct He as [-> _]; [|done].
    exists 5. split; [done|]. by apply (bool_decide_unpack _).
  - assert (let '(o, (cb, _)) := BreakGRPC false (at_time 1) None (rpc (Some (inr (13, "internal")))) no_context tt fragile 0 in
      (match o with Ok _ => true | _ => false end, state cb) = (true, StateOpen)) as Hv by (vm_compute; reflexivity).
    destruct (BreakGRPC _ _ _ _ _ _ _ _) as [o [cb h]] eqn:Eb. injection Hv as Ho Hst. destruct o as [reply|]; [|done].
    pose proof (break_grpc_spec (E := grpc_error) _ _ _ _ _ _ _ _ _ _ _ Eb) as H.
    change (ex_admits (at_time 1) fragile) with true in H. cbv iota in H. destruct H as (resp & e & Hh & He).
    injection Hh as <- <- <-. exists cb. split; [|done]. destruct He as [_ He].
    destruct He as [_ He]; [|by rewrite He]. intros (c & Hc & Hn). injection Hc as <-. apply Hn. by apply (bool_decide_unpack _).
  - assert (let '(o, _) := BreakGRPC false (at_time 2) None (rpc None) no_context tt tripped 0 in
      match o with Ok (None, Some e) => (status_FromError e, true) | _ => (None, false) end = (Some 14, true)) as Hv by (vm_compute; reflexivity).
    destruct (BreakGRPC _ _ _ _ _ _ _ _) as [o [cb h]] eqn:Eb. destruct o as [reply|]; [|done].
    pose proof (break_grpc_spec (E := grpc_error) _ _ _ _ _ _ _ _ _ _ _ Eb) as H.
    change (ex_admits (at_time 2) tripped) with false in H. cbv iota in H. destruct H as (-> & ce & _ & e & -> & _).
    exists cb, e. split; [done|]. by injection Hv.
Defined.

(** *** What counts as a failure *)

(** A status above [Internal] that does not count, and one below that does. *)
Theorem grpc_codes_counted :
  isCBFailure (E := grpc_error) (Some (inr (16, "unauthenticated"))) = false /\ (Internal (E := grpc_error) < 16) /\
  isCBFailure (E := grpc_error) (Some (inr (2, "unknown"))) = true /\ (2 < Internal (E := grpc_error)).
Proof. by vm_compute. Qed.

(** A breaker with a request timeout whose calls exceed it: returned to the
    breaker directly, the error of a timed-out call opens it; the interceptor
    keeps a [DeadlineExceeded] status (4) from it, and it stays closed. *)
Definition impatient : CircuitBreaker :=
  CircuitBreaker.New (mkConfig "b" CountBased 1 1 0 0 0%float 0 Second 1 1 None Second None None None None None) 0.

Theorem grpc_own_timeout_is_success :
  state (snd (Execute (exec_reads_at 1) (FnReturns (Some (OtherErr "deadline"))) (Some DeadlineExceeded) impatient)) = StateOpen /\
  (let '(_, (cb, _)) := BreakGRPC false (at_time 1) (Some DeadlineExceeded) (rpc (Some (inr (4, "deadline")))) no_context tt impatient 0 in
   state cb = StateClosed).
Proof. by vm_compute. Qed.

(** A breaker whose only probe is out refuses with an error that has no status. *)
Definition probed : CircuitBreaker :=
  snd (beforeExecute (exec_reads_at (2 * Second)) tripped).

Theorem grpc_probe_refusal_has_no_status :
  let '(o, _) := BreakGRPC false (at_time (2 * Second + 1)) None (rpc None) no_context tt probed 0 in
  match o with Ok (None, Some e) => status_FromError e = None | _ => False end.
Proof. by vm_compute. Qed.
